(* ===== verification/_CoqProject ===== *)
-Q . S2P
Prelude.v
GoLib.v
GoText.v
K8s.v
Tools.v
Expectations.v
Lifecycle.v
Selector.v
UpdateSort.v
CloneSetDiff.v
ControllerExpectations.v
WorkloadSpreadTypes.v
ImagePullTypes.v
World.v
Scheduling.v
InPlaceUpdate.v
InPlaceBatches.v
InPlaceControl.v
PodReadiness.v
RevisionHistory.v
StatefulSetUtils.v
StatefulPodControl.v
StatefulSetControl.v
StatefulSetOrder.v
StatefulSetRolling.v
StatefulSetSync.v
StatefulSetConverge.v
RefManager.v
PodSorter.v
CloneSetScale.v
CloneSetUpdate.v
CloneSetController.v
UnitedDeployment.v
SidecarSetStrategy.v
PubControl.v
BroadcastJob.v
BroadcastJobRun.v
BroadcastJobNodes.v
DaemonSet.v
DaemonSetSync.v
DaemonSetRolling.v
DaemonSetSurge.v
DaemonSetManage.v
WorkloadSpread.v
WorkloadSpreadQuota.v
WorkloadSpreadProtocol.v
WorkloadSpreadWebhook.v
WorkloadSpreadCost.v
SidecarSet.v
SidecarSetProcessor.v
SidecarSetReconcile.v
SidecarSetUpgrade.v
SidecarSetSafety.v
TextLists.v
SidecarSetInject.v
ImagePull.v
NodeImage.v
ImagePullSafety.v
ImagePullRounds.v
ImageListPull.v
ImageListPullSafety.v
CloneSetEvents.v
