(* ===== verification/Prelude.v ===== *)
(** * OpenKruise: a verification library for its workload controllers

    ** The program

    OpenKruise (src/) extends Kubernetes with workload controllers.  A controller
    runs in the manager process: an informer cache lists the objects, a reconcile
    compares them with the spec, and the writes go to the API server, which may
    refuse or fail each of them.  Because the cache lags behind the controller's
    own writes, process-wide stores of expectations tell a controller when the
    cache can be trusted.  Webhooks in the same process guard pods with
    PodUnavailableBudgets (PUB), inject the containers of SidecarSets into new pods and
    place them in the subsets of WorkloadSpreads.  The library models the parts that
    decide what is written, under pkg/controller, pkg/control, pkg/util and pkg/webhook:

    - CloneSet: the whole reconcile, from the gates of the expectations over the
      claiming of pods, the revisions, [Scale] and [Update] to the status, and the
      handlers of watch events;
    - the advanced StatefulSet: reconcile, ordinals and identities, claims,
      rolling and in-place updates;
    - the advanced DaemonSet: reconcile, the plan of each node, rolling updates
      with and without surge, revisions, status, the handlers of watch events;
    - BroadcastJob: reconcile, the failure and completion policies, event handlers;
    - the in-place update of pods and the readiness gate it uses, which the three
      workload controllers call;
    - the UnitedDeployment allocators;
    - SidecarSet: the injection of sidecars by the webhook, and the controller that
      upgrades them in place, with hot upgrades, revisions and the upgrade strategy;
    - PUB: the admission check and the controller, which share an object;
    - WorkloadSpread: the webhook that picks the subset of a pod and the controller
      that counts the pods of the subsets, sets deletion costs and reschedules, which
      share the status of an object;
    - ImagePullJob and NodeImage: the controller of the jobs, which writes the images to
      pull to the NodeImage of each node, and the controller that keeps the NodeImages;
    - ImageListPullJob: the controller that keeps an ImagePullJob for each image of a
      list, and the validation of both kinds of jobs;
    - what they rest on: expectations, durations, lifecycle hooks, ownership,
      controller revisions, update and deletion orders, selectors, batches.

    ** The files

    Shared:
    - Prelude.v: notations, tactics ([split_ifs], [zbool], [zcases]), the hint
      database [kruise], counting and filtering lemmas.
    - GoLib.v: Go integers with their wrap-around ([wrap32], [wrap64]) and IEEE
      binary64/binary32 arithmetic as exact rationals rounded to nearest-even, with
      the theorems that make the percentages of the code exact.
    - GoText.v: strings, strconv, sort.  [SliceStable] is a stable insertion sort;
      [sort.Sort] and [sort.Slice] are the class [GoSort] (a permutation, sorted
      when the comparison is a strict weak order), so that nothing depends on how
      equal elements are ordered.
    - K8s.v: pods, templates and the vendored helpers (intstr, pod readiness, the
      default pod order).  Of an API object the record has the fields the modelled
      code reads.
    - Tools.v: modules [Batch], [Num], [PodsUtil] (pkg/util/tools.go, pods.go).
    - Expectations.v: modules [Scale], [Update], [RV] (pkg/util/expectations),
      [Requeue] (pkg/util/requeueduration).
    - ControllerExpectations.v: modules [Counters] and [Backoff], the vendored
      stores of the DaemonSet controller.
    - Lifecycle.v: modules [Hooks] and [Revision]; Selector.v: pkg/util/selector.go;
      UpdateSort.v: modules [Priority] and [Scatter] (pkg/util/updatesort).
    - World.v: the interface to the API server, class [Api], over an abstract type
      of server states; the state monad [M] over a [World] (server, stores of the
      process, durations, trace of writes); the logic of writes ([emits], [only]:
      what any run writes; [frames]: which expectations it leaves alone); the
      lifecycle operations that write.
    - Scheduling.v: the predicates of nodes that controllers evaluate themselves:
      node affinity, taints, tolerations, daemon pod templates.
    - RevisionHistory.v: order, equality and truncation of controller revisions,
      class [RevisionApi] with [RevisionLaws] for the client.
    - RefManager.v: pkg/util/refmanager.

    In-place update (pkg/util/inplaceupdate, podreadiness):
    - InPlaceUpdate.v: the model; InPlaceBatches.v: batches by launch priority;
      InPlaceControl.v: the theorems on [Update] and [Refresh], and the instance of
      [Api] built from the model; PodReadiness.v: the not-ready keys of a pod.

    CloneSet (pkg/controller/cloneset):
    - CloneSetDiff.v: [calculateDiffsWithExpectation] as the numbers of the spec
      ([limits_of]), the counters of the loop ([counts_of]) and the arithmetic on
      them ([diffs_of]).
    - PodSorter.v: [ActivePodsWithRanks.Less] and the same-node ranker.
    - CloneSetScale.v, CloneSetUpdate.v: [Scale] and [Update] with their steps, the
      status.  The random ids ([IDGen]), the element [PopAny] takes and the ranker
      for spread constraints are parameters.
    - CloneSetController.v: [doReconcile] and [syncCloneSet].
    - CloneSetEvents.v: the handlers of events of pods and claims, with their theorems.

    Advanced StatefulSet (pkg/controller/statefulset):
    - StatefulSetUtils.v, StatefulPodControl.v, StatefulSetControl.v: the model, a
      file each for stateful_set_utils.go, stateful_pod_control.go and
      stateful_set_control.go.
    - StatefulSetOrder.v, StatefulSetRolling.v, StatefulSetSync.v,
      StatefulSetConverge.v: order of creations and deletions, limits of the
      rolling update, one sync, and convergence of repeated syncs.

    BroadcastJob (pkg/controller/broadcastjob):
    - BroadcastJob.v: the model; BroadcastJobRun.v: one reconcile;
      BroadcastJobNodes.v: reconciles interleaved with watch events.

    Advanced DaemonSet (pkg/controller/daemonset):
    - DaemonSet.v: the model of the five source files but the image pull jobs.
    - DaemonSetSync.v: the counters along [syncNodes] and the watch events;
      DaemonSetRolling.v and DaemonSetSurge.v: the rolling update;
      DaemonSetManage.v: the plan of a node.

    WorkloadSpread (pkg/util/workloadspread, pkg/controller/workloadspread):
    - WorkloadSpreadTypes.v: the API type, below World.v, whose trace has its writes.
    - WorkloadSpread.v: the model of both packages.
    - WorkloadSpreadQuota.v: the counts of the controller and the writes of the webhook;
      WorkloadSpreadProtocol.v: webhooks, controllers and users interleaved;
      WorkloadSpreadWebhook.v: one admission; WorkloadSpreadCost.v: deletion costs.

    SidecarSet (pkg/control/sidecarcontrol, pkg/controller/sidecarset,
    pkg/webhook/pod/mutating):
    - SidecarSetStrategy.v: [GetNextUpgradePods]; SidecarSet.v: the objects and
      [commonControl]; SidecarSetProcessor.v: what an upgrade and a flip do to a pod;
      SidecarSetReconcile.v: [UpdateSidecarSet] and the event handlers;
      SidecarSetInject.v: the webhook, with the proof that what it injects is what the
      controller tracks.
    - SidecarSetUpgrade.v: upgrades and flips of a pod, by rule induction on its steps;
      SidecarSetSafety.v: one reconcile, the history, the names of revisions.

    ImagePullJob and NodeImage (pkg/controller/imagepulljob, pkg/controller/nodeimage,
    pkg/util/imagejob):
    - ImagePullTypes.v: the objects, below World.v, whose trace has their writes.
    - ImagePull.v: the controller of the jobs with the copies of pull secrets, the
      NodeImages of a job and the event handlers; NodeImage.v: the controller of the
      NodeImages.
    - ImageListPull.v: the controller of the lists (pkg/controller/imagelistpulljob) and
      [validate] of the webhooks; ImageListPullSafety.v: its theorems.
    - ImagePullSafety.v: parallelism, completion and timeouts of a job;
      ImagePullRounds.v: what a write does to a NodeImage, cleaning, wake-ups, secrets.

    Others: TextLists.v (lists of names in one text: [strings.Split] undoes
    [strings.Join]); UnitedDeployment.v (allocators, partitions, conditions); PubControl.v (the check and the
    controller on a server that keeps the history of the object, with other
    processes writing in between).

    ** What the theorems show

    - CloneSet numbers: scaling is exact ([diffs_scale_exact], [update_num_exact]),
      the numbers are well formed ([diffs_well_formed]).
    - CloneSet handlers, for every server and every failure: what one call may
      write (lemma [scale_writes_bounded]); that deletions and updates keep
      [replicas - maxUnavailable] pods available ([scale_keeps_available], with the
      exact shortfall the code allows, [update_keeps_available], and for one whole
      sync [sync_keeps_available]); that a pod moves only along the edges of the
      lifecycle ([update_follows_lifecycle]); that nothing is written before the
      expectations are met ([reconcile_waits]), that the watch events of the writes
      meet them and wake the CloneSet ([cloneset_events_settle]), but that an event of a
      pod which fails before it was ready is dropped ([failed_pod_ignored], a bug behind a
      feature gate); that claims follow their pods
      ([cleanup_pvcs_exact]) and only matching orphans are adopted
      ([claim_respects_ownership]).
    - StatefulSet: with OrderedReady, scaling keeps the order of ordinals
      ([scale_out_order], [scale_in_order]; under Parallel too one unwanted pod is
      deleted for each sync, [parallel_scale_in_single], against the API's doc); a
      rolling update respects maxUnavailable and the partition
      ([rolling_update_limits]); from a tidy state repeated syncs reach the target
      ([sync_converges], with the number of steps as the measure); revisions and
      identities round-trip ([update_revision_restores], [pod_identity_roundtrip]).
    - DaemonSet: unless the namespace terminates, the counters settle exactly when
      every write has been seen ([daemon_expectations_settle]); updates stay within
      maxUnavailable and maxSurge on the nodes they consider
      ([daemon_rolling_budget], [daemon_surge_limits]) and leave the partition alone ([daemon_partition_kept]); which pods of a node stay
      ([daemon_node_plan]).
    - BroadcastJob: at most one pod per node, whatever the interleaving of
      reconciles and events ([broadcast_one_pod_per_node], by rule induction), when
      creations that fail have no effect (needed: [timed_out_creation_repeated]);
      bounded creations, exact completion, and the two ways it fails
      ([broadcast_panics_exact], [broadcast_status_lost]).
    - In-place update: the batches end and apply everything
      ([batches_apply_all]) in the order of priorities
      ([batch_respects_priorities]); a pod is marked before it is changed
      ([update_marks_first]) and ready only when all is done
      ([refresh_ready_when_done]); a grace period only delays
      ([grace_delays_update]); the readiness message refines a set of holders
      ([readiness_holders]).
    - Expectations: the nested maps refine a set of pending triples
      ([scale_expectations_refine]).
    - PUB: whatever the interleaving of webhooks, controllers and users, the budget
      is never over-committed ([pub_never_overcommits], by rule induction on the
      protocol); every admission is charged ([validate_admission]) and every refusal
      is free ([validate_refusal_writes_nothing]).
    - WorkloadSpread: whatever the interleaving, no more pods are admitted to a subset
      than its maximum, a fixed number ([spread_never_overfills], by rule induction), as
      long as the controller sees every pod that was admitted or knows it from the status;
      an admission is the first subset with room of the object that the last try read,
      charged by exactly one accepted write if it has a maximum ([spread_admission]); the patches of the deletion costs are those of a plan that
      keeps the healthiest pods of each subset ([spread_deletion_costs]).
    - UnitedDeployment: both allocators hand out exactly the replicas of the spec
      within the limits ([specific_alloc_exact], [elastic_alloc_exact]).
    - SidecarSet: one reconcile writes to the pods that the server lists for the set within
      the gates and the limits of the strategy ([sidecar_reconcile_bounds]); an upgrade gives every sidecar
      the image of the set and marks the pod ([sidecar_upgrade_complete]); the container
      at work is never the empty one ([hot_upgrade_serving]); a rollback amid a hot
      upgrade is lost ([hot_rollback_lost], a bug); revisions in use are kept
      ([sidecar_history_kept]) and a free name is found ([sidecar_revision_created]); a
      pod as injected is tracked by the controller ([injected_pod_tracked]); a pod that is
      gone from the cache makes the upgrade panic (lemma [sidecar_missing_pod_panics]).
    - ImagePullJob and NodeImage: one reconcile of a job updates NodeImages within its
      parallelism, by the nodes the code counts ([image_job_parallelism]); a job that
      completes before its deadline has ended on every node, and its status counts and
      names them ([image_job_completion]); nodes that do not answer are failed and the job
      completes then, unless a tag without a pull policy makes the NodeImage controller
      panic ([image_job_times_out], over the two controllers); a write starts a new round of its tag ([image_round]); the
      cleaning of NodeImages does not move the nodes of a living job
      ([cleaning_invisible]); events of NodeImages wake the jobs that select them
      ([events_reach_jobs]); the references of a copied secret survive their text
      ([references_roundtrip]).  Faults of the code: a node that answered for another
      tag of the image is counted nowhere ([image_round]); an empty node selector
      selects every node for the reconcile and none for the handlers
      ([events_reach_jobs]); the empty set of references is read back as one reference
      ([references_roundtrip]); a secret that arrives late stops a job
      ([late_secret_stops_job]); a shared copy makes the other copies leak
      ([shared_copy_leaks]).
    - ImageListPullJob: one reconcile carries out its plan and expects exactly the writes
      that were accepted ([list_job_writes]); the plan settles with one job for each image,
      the new ones with the template of the list ([list_job_settles]); a list that was not edited completes only when all is done
      ([list_job_completion]), an edited one can complete too early
      ([list_job_completes_early], a bug).
    - The rest: selectors ([overlap_detected]), and lemmas on batches, partitions and update orders.

    ** Conventions

    A Go [int] or [int64] count of pods is a [Z]: the counts are below [2^31], which
    the theorems assume where it matters.  An [int32] that the code adds or
    subtracts wraps with [wrap32].  A Go map is a [gmap], a string set a [gset]; a
    loop over a map whose order matters takes the order as a parameter or is stated
    for every order.  An error is [None], a [sum] or an option of an error string; a
    panic is a value ([Outcome], [Panic]).  A clock reading is an argument.  The
    goroutines of one batch run in the order of the slice: they write to different
    pods and the counters they share are commutative.  Logging, metrics and
    Kubernetes events are left out.

    JSON and its patches are classes with the round trips the code relies on; the
    clients are classes ([Api] and one per controller) over an abstract server, and
    each file has a concrete server on which its theorems are run.  Laws of a client
    that a theorem needs are named hypotheses or classes of their own
    ([RevisionLaws]).

    Fuel: [Batch.slow_start_loop], [create_slowly], [slow_start] and the [create_batches] of the
    jobs and daemon sets have a round for each call they may make, and every round
    makes at least one; [getOrGenInstanceID] draws until an id is free, which
    [IDGen] gives at once.  Retries on conflicts make as many tries as the code's backoff
    has steps: four or five.  [create_revision] of a SidecarSet tries names until one is
    free; [sidecar_revision_created] says how many tries are enough.  [isReferenceEqual] of a WorkloadSpread follows owner
    references; its depth is the stack that is left, and a theorem never assumes it
    is enough.

    ** What is not modelled

    AdvancedCronJob, the pre-download of images by
    the workloads and the smaller controllers; the admission webhooks other than
    the PUB check, the placement by WorkloadSpreads, the injection of sidecars and the
    validation of pull jobs; the
    node daemon, which is I/O on the container runtime; generated
    clients and vendored code beyond the helpers that are called.  In the modelled
    parts: the ranker of topology spread constraints, [GetPodsForPub] and
    [IsPodStateConsistent], the finder of the pods of a workload (pkg/util/controllerfinder),
    the configuration of custom workloads, strategic merge patches, the syntax of label values, the scheduler's resource
    predicate, and the event handlers of StatefulSet.

    ** Plan

    Next the pre-download of images, the UnitedDeployment controller around its
    allocators, and the validation webhooks of the workloads. *)

From stdpp Require Export prelude list gmap strings sorting.
From Stdlib Require Export Ascii.
From Stdlib Require Export ZArith Lia.

#[global] Open Scope Z_scope.

(** ** Automation shared by every file *)

Declare Scope kruise_scope.
Delimit Scope kruise_scope with kruise.

(** Go's [len(xs)], an [int]. *)
Notation "'len' l" := (Z.of_nat (length l)) (at level 10, l at level 9) : kruise_scope.

(** Go's [xs[:n]] and [xs[n:]] for a non-negative [n] that is in range. *)
Definition slice_to {A} (l : list A) (n : Z) : list A := take (Z.to_nat n) l.
Definition slice_from {A} (l : list A) (n : Z) : list A := drop (Z.to_nat n) l.

(** A counter of the elements a loop's [if] selects. *)
Fixpoint countb {A} (f : A -> bool) (l : list A) : Z :=
  match l with
  | [] => 0
  | x :: l' => (if f x then 1 else 0) + countb f l'
  end.

(** Sum of a measure over a slice. *)
Definition sumZ {A} (f : A -> Z) (l : list A) : Z := foldr (fun x acc => f x + acc) 0 l.

(** Go's [filter]-shaped loops ([if p(x) { ret = append(ret, x) }]). *)
Fixpoint filterb {A} (f : A -> bool) (l : list A) : list A :=
  match l with
  | [] => []
  | x :: l' => if f x then x :: filterb f l' else filterb f l'
  end.

(** Destructs every [if] and [match] of the goal or of a hypothesis. *)
Ltac split_ifs :=
  repeat match goal with
  | |- context [if ?b then _ else _] => let E := fresh "E" in destruct b eqn:E
  | H : context [if ?b then _ else _] |- _ => let E := fresh "E" in destruct b eqn:E
  end.

(** Turns boolean comparisons on [Z] into propositions. *)
Ltac zbool :=
  repeat match goal with
  | H : (_ <? _) = true |- _ => apply Z.ltb_lt in H
  | H : (_ <? _) = false |- _ => apply Z.ltb_ge in H
  | H : (_ <=? _) = true |- _ => apply Z.leb_le in H
  | H : (_ <=? _) = false |- _ => apply Z.leb_gt in H
  | H : (_ >? _) = _ |- _ => rewrite Z.gtb_ltb in H
  | H : (_ >=? _) = _ |- _ => rewrite Z.geb_leb in H
  | H : (_ =? _) = true |- _ => apply Z.eqb_eq in H
  | H : (_ =? _) = false |- _ => apply Z.eqb_neq in H
  | H : _ && _ = true |- _ => apply andb_true_iff in H as [? ?]
  | H : _ || _ = false |- _ => apply orb_false_iff in H as [? ?]
  | H : negb _ = true |- _ => apply negb_true_iff in H
  | H : negb _ = false |- _ => apply negb_false_iff in H
  end.

(** Case analysis over boolean arithmetic, then linear arithmetic. *)
Ltac zcases := split_ifs; zbool; simpl in *; try lia.

Create HintDb kruise.

(** ** Generic lemmas *)

Section Lists.
Context {A : Type}.
Implicit Types (f g : A -> bool) (l : list A).

Lemma countb_nonneg f l : 0 <= countb f l.
Proof. induction l as [|x l IH]; simpl; [lia|]. destruct (f x); lia. Qed.

Lemma countb_app f l1 l2 : countb f (l1 ++ l2) = countb f l1 + countb f l2.
Proof. induction l1 as [|x l1 IH]; simpl; [lia|]. rewrite IH. lia. Qed.

Lemma countb_le_length f l : countb f l <= Z.of_nat (length l).
Proof. induction l as [|x l IH]; simpl length; simpl countb; [lia|]. destruct (f x); lia. Qed.

Lemma countb_filterb f l : countb f l = Z.of_nat (length (filterb f l)).
Proof. induction l as [|x l IH]; simpl; [done|]. destruct (f x); simpl length; lia. Qed.

Lemma countb_ext f g l : (forall x, x ∈ l -> f x = g x) -> countb f l = countb g l.
Proof.
  induction l as [|x l IH]; intros H; simpl; [done|].
  rewrite (H x) by apply list_elem_of_here.
  rewrite IH; [done|]. intros y Hy. apply H. by apply list_elem_of_further.
Qed.

Lemma countb_split f l :
  countb f l + countb (fun x => negb (f x)) l = Z.of_nat (length l).
Proof. induction l as [|x l IH]; simpl length; simpl countb; [lia|]. destruct (f x); simpl; lia. Qed.

Lemma countb_mono f g l :
  (forall x, f x = true -> g x = true) -> countb f l <= countb g l.
Proof.
  intros H. induction l as [|x l IH]; simpl; [lia|].
  destruct (f x) eqn:E; [rewrite (H x E); lia|]. destruct (g x); lia.
Qed.

Lemma countb_perm f l1 l2 : l1 ≡ₚ l2 -> countb f l1 = countb f l2.
Proof. induction 1; simpl; lia. Qed.

Lemma countb_zero f l : countb f l = 0 <-> forall x, x ∈ l -> f x = false.
Proof.
  induction l as [|x l IH]; simpl.
  - split; [intros _ x Hx; by apply not_elem_of_nil in Hx|done].
  - pose proof (countb_nonneg f l). destruct (f x) eqn:E; split.
    + lia.
    + intros Hall. rewrite (Hall x) in E; [done|apply list_elem_of_here].
    + intros Hz y Hy. apply elem_of_cons in Hy as [->|Hy]; [done|].
      apply IH; [lia|done].
    + intros Hall. cut (countb f l = 0); [lia|]. apply IH.
      intros y Hy. apply Hall. by apply list_elem_of_further.
Qed.

Lemma countb_take_le f l n : countb f (take n l) <= countb f l.
Proof.
  rewrite <-(take_drop n l) at 2. rewrite countb_app.
  pose proof (countb_nonneg f (drop n l)). lia.
Qed.

Lemma filterb_elem f l x : x ∈ filterb f l <-> x ∈ l /\ f x = true.
Proof.
  induction l as [|y l IH]; simpl.
  - split; [intros H; by apply not_elem_of_nil in H|intros [H _]; by apply not_elem_of_nil in H].
  - destruct (f y) eqn:E; rewrite ?elem_of_cons, IH.
    + split; [intros [->|[? ?]]; auto|intros [[->|?] ?]; auto].
    + split; [intros [? ?]; auto|intros [[->|?] ?]; [congruence|auto]].
Qed.

Lemma filterb_app f l1 l2 : filterb f (l1 ++ l2) = filterb f l1 ++ filterb f l2.
Proof. induction l1 as [|x l1 IH]; simpl; [done|]. rewrite IH. by destruct (f x). Qed.

Lemma filterb_idem f l : filterb f (filterb f l) = filterb f l.
Proof.
  induction l as [|x l IH]; simpl; [done|].
  destruct (f x) eqn:E; simpl; [rewrite E; by f_equal|done].
Qed.

Lemma filterb_and f g l : filterb f (filterb g l) = filterb (fun x => f x && g x) l.
Proof.
  induction l as [|x l IH]; simpl; [done|].
  destruct (g x); simpl; [|by rewrite andb_false_r].
  rewrite andb_true_r. by destruct (f x); rewrite IH.
Qed.

Lemma filterb_comm f g l : filterb f (filterb g l) = filterb g (filterb f l).
Proof. induction l as [|x l IH]; simpl; [done|]. destruct (f x) eqn:Ef, (g x) eqn:Eg; simpl; rewrite ?Ef, ?Eg, ?IH; done. Qed.

Lemma filterb_perm_split f l : filterb f l ++ filterb (fun x => negb (f x)) l ≡ₚ l.
Proof.
  induction l as [|x l IH]; simpl; [done|]. destruct (f x); simpl.
  - by rewrite IH.
  - rewrite <-Permutation_middle. by rewrite IH.
Qed.

Lemma filterb_sublist f l : filterb f l `sublist_of` l.
Proof.
  induction l as [|x l IH]; simpl; [constructor|].
  destruct (f x); by constructor.
Qed.

Lemma sorted_lookup_lt (R : relation A) l : StronglySorted R l ->
  forall i j x y, (i < j)%nat -> l !! i = Some x -> l !! j = Some y -> R x y.
Proof.
  induction 1 as [|a l Hl IH Ha]; intros i j x y Hij Hi Hj; [done|].
  destruct j as [|j]; [lia|]. destruct i as [|i]; simpl in *; [|by apply (IH i j); [lia|..]].
  simplify_eq. rewrite Forall_forall in Ha. apply Ha. by eapply list_elem_of_lookup_2.
Qed.

Lemma sorted_rev (R : relation A) l : StronglySorted R l -> StronglySorted (flip R) (rev l).
Proof.
  induction 1 as [|x l _ IH Hx]; simpl; [constructor|]. apply StronglySorted_app_2; [|done|repeat constructor].
  intros y z Hy Hz. apply list_elem_of_singleton in Hz as ->. unfold flip.
  rewrite Forall_forall in Hx. apply Hx. by apply list_elem_of_In, in_rev, list_elem_of_In.
Qed.

Lemma sorted_sublist (R : relation A) l1 l2 :
  l1 `sublist_of` l2 -> StronglySorted R l2 -> StronglySorted R l1.
Proof.
  induction 1 as [|x l1 l2 Hl IH|x l1 l2 Hl IH]; intros Hs; [done| |].
  - apply StronglySorted_inv in Hs as [Hs Hx]. constructor; [by apply IH|].
    rewrite Forall_forall in *. intros y Hy. apply Hx. eapply elem_of_submseteq; [exact Hy|].
    by apply sublist_submseteq.
  - apply StronglySorted_inv in Hs as [Hs _]. by apply IH.
Qed.

Lemma sumZ_app (h : A -> Z) l1 l2 : sumZ h (l1 ++ l2) = sumZ h l1 + sumZ h l2.
Proof. unfold sumZ. induction l1 as [|x l1 IH]; simpl; [lia|]. rewrite IH. lia. Qed.

Lemma sumZ_perm (h : A -> Z) l1 l2 : l1 ≡ₚ l2 -> sumZ h l1 = sumZ h l2.
Proof. unfold sumZ. induction 1; simpl; lia. Qed.

Lemma sumZ_le (h1 h2 : A -> Z) l : (forall x, x ∈ l -> h1 x <= h2 x) -> sumZ h1 l <= sumZ h2 l.
Proof.
  unfold sumZ. induction l as [|x l IH]; intros H; simpl; [lia|].
  specialize (IH ltac:(intros y Hy; apply H; by apply list_elem_of_further)).
  specialize (H x (list_elem_of_here _ _)). lia.
Qed.

Lemma sumZ_lt (h1 h2 : A -> Z) l x :
  (forall y, y ∈ l -> h1 y <= h2 y) -> x ∈ l -> h1 x < h2 x -> sumZ h1 l < sumZ h2 l.
Proof.
  intros H Hx Hlt. apply elem_of_Permutation in Hx as [l' Hl]. rewrite !(sumZ_perm _ _ _ Hl).
  assert (sumZ h1 l' <= sumZ h2 l').
  { apply sumZ_le. intros y Hy. apply H. rewrite Hl. by apply list_elem_of_further. }
  unfold sumZ in *. simpl. lia.
Qed.

Lemma sumZ_zero (h : A -> Z) l : (forall x, x ∈ l -> 0 <= h x) -> sumZ h l = 0 -> forall x, x ∈ l -> h x = 0.
Proof.
  intros H Hs x Hx. destruct (decide (h x = 0)) as [|Hne]; [done|]. exfalso.
  assert (Hpos : 0 < h x) by (pose proof (H x Hx); lia).
  pose proof (sumZ_lt (fun _ => 0) h l x H Hx Hpos) as Hlt.
  assert (sumZ (fun _ : A => 0) l = 0); [|lia]. clear. unfold sumZ. by induction l.
Qed.

Lemma sumZ_nonneg (h : A -> Z) l : (forall x, x ∈ l -> 0 <= h x) -> 0 <= sumZ h l.
Proof.
  unfold sumZ. induction l as [|x l IH]; simpl; intros H; [lia|].
  assert (0 <= h x) by (apply H, list_elem_of_here).
  assert (0 <= foldr (fun x acc => h x + acc) 0 l);
    [apply IH; intros y Hy; apply H; by apply list_elem_of_further|lia].
Qed.
(** Elements with the same key are equal, when keys are different. *)
Lemma nodup_map_inj {B : Type} (h : A -> B) l x y : NoDup (map h l) -> x ∈ l -> y ∈ l -> h x = h y -> x = y.
Proof.
  induction l as [|z l IH]; [by intros _ ?%not_elem_of_nil|]. cbn. rewrite NoDup_cons. intros [Hz Hn] Hx Hy E.
  apply elem_of_cons in Hx as [->|Hx]; apply elem_of_cons in Hy as [->|Hy]; auto.
  - destruct Hz. rewrite E. by apply (list_elem_of_fmap_2 h).
  - destruct Hz. rewrite <-E. by apply (list_elem_of_fmap_2 h).
Qed.
End Lists.

#[export] Hint Resolve countb_nonneg countb_le_length filterb_sublist : kruise.
