(* ===== verification/GoLib.v ===== *)
(** * What the sources use of Go: fixed-width integers, floating point,
    [strconv], [strings] and [sort].

    [int] (64 bit) is [Z] with the range predicate [is_int64]; the operations on
    [int32] that can wrap are written with [wrap32].  A floating-point value is
    an exact dyadic rational [n / 2^k], or an infinity, or NaN; every operation
    rounds to nearest, ties to even, at the precision of the format.  Signed
    zeros are not distinguished: no modelled code observes the sign of a zero. *)

From S2P Require Import Prelude.

(** ** Integers *)

Definition int64_min : Z := - 2 ^ 63.
Definition int64_max : Z := 2 ^ 63 - 1.
Definition int32_min : Z := - 2 ^ 31.
Definition int32_max : Z := 2 ^ 31 - 1.

Definition is_int64 (z : Z) : Prop := int64_min <= z <= int64_max.
Definition is_int32 (z : Z) : Prop := int32_min <= z <= int32_max.

(** Conversion to [int32]: the low 32 bits, in two's complement. *)
Definition wrap32 (z : Z) : Z := (z + 2 ^ 31) mod 2 ^ 32 - 2 ^ 31.
(** Conversion to [int64]: the low 64 bits, in two's complement. *)
Definition wrap64 (z : Z) : Z := (z + 2 ^ 63) mod 2 ^ 64 - 2 ^ 63.

Lemma wrap32_id z : is_int32 z -> wrap32 z = z.
Proof.
  unfold is_int32, int32_min, int32_max, wrap32. intros H.
  rewrite Z.mod_small by lia. lia.
Qed.

Lemma wrap64_id z : is_int64 z -> wrap64 z = z.
Proof.
  unfold is_int64, int64_min, int64_max, wrap64. intros H.
  rewrite Z.mod_small by lia. lia.
Qed.

Lemma wrap32_range z : is_int32 (wrap32 z).
Proof.
  unfold is_int32, int32_min, int32_max, wrap32.
  pose proof (Z.mod_pos_bound (z + 2 ^ 31) (2 ^ 32)). lia.
Qed.

(** Go's truncated division and remainder. *)
Definition go_div (a b : Z) : Z := Z.quot a b.
Definition go_rem (a b : Z) : Z := Z.rem a b.

(** ** Floating point *)

Inductive fp :=
| FNaN
| FInf (neg : bool)
| FFin (n : Z) (k : Z).   (* the value n / 2^k, with 0 <= k *)

(** Round-half-even of [num / den], [0 < den]. *)
Definition rne (num den : Z) : Z :=
  let q := num / den in
  let r := num mod den in
  if 2 * r <? den then q
  else if den <? 2 * r then q + 1
  else if Z.even q then q else q + 1.

(** A format: precision, smallest exponent of the last place, and the
    exponent of the first unrepresentable power of two. *)
Record format := Format { f_prec : Z; f_emin : Z; f_emax : Z }.
Definition binary64 := Format 53 (-1074) 1024.
Definition binary32 := Format 24 (-149) 128.

(** Exponent of the last place for the positive rational [a / d]. *)
Definition ulp_exp (F : format) (a d : Z) : Z :=
  let e0 := Z.log2 a - Z.log2 d - (f_prec F - 1) in
  let q := if 0 <=? e0 then a / (d * 2 ^ e0) else (a * 2 ^ (- e0)) / d in
  Z.max (f_emin F) (if q <? 2 ^ (f_prec F - 1) then e0 - 1 else e0).

(** Rounds the positive rational [a / d]. *)
Definition round_pos (F : format) (a d : Z) : fp :=
  let e := ulp_exp F a d in
  if 0 <=? e then
    let n := rne a (d * 2 ^ e) * 2 ^ e in
    if 2 ^ f_emax F <=? n then FInf false else FFin n 0
  else FFin (rne (a * 2 ^ (- e)) d) (- e).

Definition fp_opp (x : fp) : fp :=
  match x with
  | FNaN => FNaN
  | FInf s => FInf (negb s)
  | FFin n k => FFin (- n) k
  end.

Definition fp_abs (x : fp) : fp :=
  match x with
  | FNaN => FNaN
  | FInf _ => FInf false
  | FFin n k => FFin (Z.abs n) k
  end.

(** Rounds the rational [n / d], [0 < d]. *)
Definition round_rat (F : format) (n d : Z) : fp :=
  if n =? 0 then FFin 0 0
  else if 0 <? n then round_pos F n d
  else fp_opp (round_pos F (- n) d).

(** [float64(i)], [float32(i)]. *)
Definition fp_of_int (F : format) (i : Z) : fp := round_rat F i 1.

Definition fp_neg_sign (x : fp) : bool :=
  match x with FNaN => false | FInf s => s | FFin n _ => n <? 0 end.

Definition fp_is_zero (x : fp) : bool :=
  match x with FFin 0 _ => true | _ => false end.

Definition fp_mul (F : format) (x y : fp) : fp :=
  match x, y with
  | FFin n k, FFin n' k' => round_rat F (n * n') (2 ^ (k + k'))
  | FNaN, _ | _, FNaN => FNaN
  | _, _ =>
      if fp_is_zero x || fp_is_zero y then FNaN
      else FInf (xorb (fp_neg_sign x) (fp_neg_sign y))
  end.

Definition fp_div (F : format) (x y : fp) : fp :=
  match x, y with
  | FFin n k, FFin n' k' =>
      if n' =? 0 then (if n =? 0 then FNaN else FInf (n <? 0))
      else round_rat F (Z.sgn n' * (n * 2 ^ k')) (Z.abs n' * 2 ^ k)
  | FNaN, _ | _, FNaN => FNaN
  | FInf _, FInf _ => FNaN
  | FInf s, _ => FInf (xorb s (fp_neg_sign y))
  | FFin _ _, FInf _ => FFin 0 0
  end.

Definition fp_add (F : format) (x y : fp) : fp :=
  match x, y with
  | FFin n k, FFin n' k' => round_rat F (n * 2 ^ k' + n' * 2 ^ k) (2 ^ (k + k'))
  | FNaN, _ | _, FNaN => FNaN
  | FInf s, FInf s' => if Bool.eqb s s' then FInf s else FNaN
  | FInf s, _ => FInf s
  | _, FInf s => FInf s
  end.

Definition fp_ge (x y : fp) : bool :=
  match x, y with
  | FNaN, _ | _, FNaN => false
  | FInf s, FInf s' => negb s || s'
  | FInf s, _ => negb s
  | _, FInf s => s
  | FFin n k, FFin n' k' => n' * 2 ^ k <=? n * 2 ^ k'
  end.

(** [math.Ceil], [math.Floor] and [math.Round] (half away from zero) are exact. *)
Definition fp_ceil (x : fp) : fp :=
  match x with FFin n k => FFin (- ((- n) / 2 ^ k)) 0 | _ => x end.
Definition fp_floor (x : fp) : fp :=
  match x with FFin n k => FFin (n / 2 ^ k) 0 | _ => x end.
Definition fp_round (x : fp) : fp :=
  match x with
  | FFin n k => FFin (Z.sgn n * ((2 * Z.abs n + 2 ^ k) / 2 ^ (k + 1))) 0
  | _ => x
  end.

(** [int(x)]: truncation; a value that does not fit, an infinity and NaN give
    the smallest [int], as the conversion instruction of amd64 does (the
    language leaves the result to the implementation). *)
Definition fp_to_int (x : fp) : Z :=
  match x with
  | FFin n k =>
      let z := Z.quot n (2 ^ k) in
      if (int64_min <=? z) && (z <=? int64_max) then z else int64_min
  | _ => int64_min
  end.

(** *** Rounding lemmas *)

Lemma rne_error num den : 0 < den -> - den <= 2 * (rne num den * den - num) <= den.
Proof.
  intros Hd. unfold rne.
  pose proof (Z.div_mod num den ltac:(lia)) as Hm.
  pose proof (Z.mod_pos_bound num den Hd) as Hr.
  zcases; nia.
Qed.

Lemma rne_exact q den : 0 < den -> rne (q * den) den = q.
Proof.
  intros Hd. unfold rne. rewrite Z.div_mul, Z.mod_mul by lia.
  replace (2 * 0 <? den) with true; [done|]. symmetry. apply Z.ltb_lt. lia.
Qed.

Lemma rne_1 a : rne a 1 = a.
Proof. rewrite <-(Z.mul_1_r a) at 1. by apply rne_exact. Qed.

Lemma ulp_exp_le F a d :
  f_emin F <= Z.log2 a - Z.log2 d - (f_prec F - 1) ->
  ulp_exp F a d <= Z.log2 a - Z.log2 d - (f_prec F - 1).
Proof. unfold ulp_exp. intros H. zcases. Qed.

Lemma ulp_exp_ge F a d : f_emin F <= ulp_exp F a d.
Proof. unfold ulp_exp. lia. Qed.

Lemma rne_scale a d c : 0 < d -> 0 < c -> rne (a * c) (d * c) = rne a d.
Proof.
  intros Hd Hc. unfold rne.
  rewrite Z.div_mul_cancel_r, Zmult_mod_distr_r by lia.
  replace (2 * (a mod d * c) <? d * c) with (2 * (a mod d) <? d)
    by (apply eq_true_iff_eq; rewrite !Z.ltb_lt; nia).
  replace (d * c <? 2 * (a mod d * c)) with (d <? 2 * (a mod d))
    by (apply eq_true_iff_eq; rewrite !Z.ltb_lt; nia).
  done.
Qed.

Lemma log2_scale a j : 0 < a -> 0 <= j -> Z.log2 (a * 2 ^ j) = Z.log2 a + j.
Proof. intros. rewrite Z.log2_mul_pow2 by lia. lia. Qed.

Lemma ulp_exp_scale F a d j :
  0 < a -> 0 < d -> 0 <= j -> ulp_exp F (a * 2 ^ j) (d * 2 ^ j) = ulp_exp F a d.
Proof.
  intros Ha Hd Hj. assert (Hp : 0 < 2 ^ j) by (apply Z.pow_pos_nonneg; lia).
  unfold ulp_exp. rewrite !log2_scale by lia.
  replace (Z.log2 a + j - (Z.log2 d + j)) with (Z.log2 a - Z.log2 d) by lia.
  set (e0 := Z.log2 a - Z.log2 d - (f_prec F - 1)).
  assert (Hq : (if 0 <=? e0 then a * 2 ^ j / (d * 2 ^ j * 2 ^ e0) else a * 2 ^ j * 2 ^ (- e0) / (d * 2 ^ j))
    = (if 0 <=? e0 then a / (d * 2 ^ e0) else a * 2 ^ (- e0) / d)).
  { destruct (0 <=? e0) eqn:E; zbool.
    - assert (0 < 2 ^ e0) by (apply Z.pow_pos_nonneg; lia).
      replace (d * 2 ^ j * 2 ^ e0) with (d * 2 ^ e0 * 2 ^ j) by ring.
      apply Z.div_mul_cancel_r; nia.
    - replace (a * 2 ^ j * 2 ^ (- e0)) with (a * 2 ^ (- e0) * 2 ^ j) by ring.
      apply Z.div_mul_cancel_r; nia. }
  by rewrite Hq.
Qed.

Lemma round_pos_scale F a d j :
  0 < a -> 0 < d -> 0 <= j -> round_pos F (a * 2 ^ j) (d * 2 ^ j) = round_pos F a d.
Proof.
  intros Ha Hd Hj. assert (Hp : 0 < 2 ^ j) by (apply Z.pow_pos_nonneg; lia).
  unfold round_pos. rewrite ulp_exp_scale by done. set (e := ulp_exp F a d).
  destruct (0 <=? e) eqn:E; zbool.
  - assert (0 < 2 ^ e) by (apply Z.pow_pos_nonneg; lia).
    replace (d * 2 ^ j * 2 ^ e) with (d * 2 ^ e * 2 ^ j) by ring.
    rewrite rne_scale by nia. done.
  - replace (a * 2 ^ j * 2 ^ (- e)) with (a * 2 ^ (- e) * 2 ^ j) by ring.
    rewrite rne_scale by nia. done.
Qed.

(** Rounding depends only on the value of the rational, not on a common factor. *)
Lemma round_rat_scale F n d j :
  0 < d -> 0 <= j -> round_rat F (n * 2 ^ j) (d * 2 ^ j) = round_rat F n d.
Proof.
  intros Hd Hj. assert (Hp : 0 < 2 ^ j) by (apply Z.pow_pos_nonneg; lia).
  unfold round_rat.
  replace (n * 2 ^ j =? 0) with (n =? 0) by (apply eq_true_iff_eq; rewrite !Z.eqb_eq; nia).
  replace (0 <? n * 2 ^ j) with (0 <? n) by (apply eq_true_iff_eq; rewrite !Z.ltb_lt; nia).
  destruct (n =? 0) eqn:E0; [done|]. destruct (0 <? n) eqn:E1; zbool.
  - apply round_pos_scale; lia.
  - replace (- (n * 2 ^ j)) with (- n * 2 ^ j) by ring.
    rewrite round_pos_scale by lia. done.
Qed.

(** [x] is the integer [z]. *)
Definition fp_is_int (x : fp) (z : Z) : Prop :=
  exists k, 0 <= k /\ x = FFin (z * 2 ^ k) k.

Lemma round_pos_int a : 0 < a < 2 ^ 53 -> fp_is_int (round_pos binary64 a 1) a.
Proof.
  intros Ha. assert (0 <= Z.log2 a < 53) as Hl.
  { split; [apply Z.log2_nonneg|]. apply Z.log2_lt_pow2; lia. }
  unfold round_pos. pose proof (ulp_exp_le binary64 a 1) as He. simpl in He.
  set (e := ulp_exp binary64 a 1) in *. specialize (He ltac:(lia)).
  destruct (0 <=? e) eqn:E; zbool.
  - assert (e = 0) as -> by lia. rewrite !Z.mul_1_r.
    rewrite rne_1.
    replace (2 ^ f_emax binary64 <=? a) with false; [exists 0; split; [lia|f_equal; lia]|].
    symmetry. apply Z.leb_gt. change (f_emax binary64) with 1024.
    apply Z.lt_trans with (2 ^ 53); [lia|]. apply Z.pow_lt_mono_r; lia.
  - exists (- e). split; [lia|]. by rewrite rne_1.
Qed.

Lemma fp_of_int_exact z : - 2 ^ 53 < z < 2 ^ 53 -> fp_is_int (fp_of_int binary64 z) z.
Proof.
  intros Hz. unfold fp_of_int, round_rat.
  destruct (z =? 0) eqn:E0; zbool; [subst; exists 0; done|].
  destruct (0 <? z) eqn:E1; zbool; [apply round_pos_int; lia|].
  destruct (round_pos_int (- z) ltac:(lia)) as (k & Hk & ->).
  exists k. split; [done|]. simpl. f_equal. lia.
Qed.

Lemma fp_to_int_exact x z : is_int64 z -> fp_is_int x z -> fp_to_int x = z.
Proof.
  unfold is_int64. intros Hz (k & Hk & ->). unfold fp_to_int.
  assert (0 < 2 ^ k) by (apply Z.pow_pos_nonneg; lia).
  rewrite Z.quot_mul by lia.
  replace ((int64_min <=? z) && (z <=? int64_max)) with true; [done|].
  symmetry. apply andb_true_iff. rewrite !Z.leb_le. done.
Qed.

Lemma fp_mul_exact x y a b :
  fp_is_int x a -> fp_is_int y b -> - 2 ^ 53 < a * b < 2 ^ 53 ->
  fp_is_int (fp_mul binary64 x y) (a * b).
Proof.
  intros (k & Hk & ->) (k' & Hk' & ->) Hab. unfold fp_mul.
  replace (a * 2 ^ k * (b * 2 ^ k')) with (a * b * 2 ^ (k + k')) by (rewrite Z.pow_add_r by lia; ring).
  rewrite <-(Z.mul_1_l (2 ^ (k + k'))) at 2.
  rewrite round_rat_scale by lia. by apply fp_of_int_exact.
Qed.

Lemma fp_div_of_ints x y a b :
  fp_is_int x a -> fp_is_int y b -> 0 < b ->
  fp_div binary64 x y = round_rat binary64 a b.
Proof.
  intros (k & Hk & ->) (k' & Hk' & ->) Hb. unfold fp_div.
  assert (0 < 2 ^ k') by (apply Z.pow_pos_nonneg; lia).
  replace (b * 2 ^ k' =? 0) with false by (symmetry; apply Z.eqb_neq; nia).
  rewrite Z.sgn_pos, Z.abs_eq by nia.
  replace (1 * (a * 2 ^ k * 2 ^ k')) with (a * 2 ^ (k + k')) by (rewrite Z.pow_add_r by lia; ring).
  replace (b * 2 ^ k' * 2 ^ k) with (b * 2 ^ (k + k')) by (rewrite Z.pow_add_r by lia; ring).
  apply round_rat_scale; lia.
Qed.

(** Rounding a positive rational [a / d] that is not too large: the last place
    is at most [2^-(52 - L)], the error at most half of it, and a multiple of
    one half is represented exactly. *)
Lemma round_rat_error a d :
  0 < a -> 0 < d -> -1000 <= Z.log2 a - Z.log2 d <= 51 ->
  exists n k, round_rat binary64 a d = FFin n k /\
    52 - (Z.log2 a - Z.log2 d) <= k /\
    - d <= 2 * (n * d - a * 2 ^ k) <= d /\
    (forall q, 2 * a = q * d -> 2 * n = q * 2 ^ k).
Proof.
  intros Ha Hd Hl. unfold round_rat.
  replace (a =? 0) with false by (symmetry; apply Z.eqb_neq; lia).
  replace (0 <? a) with true by (symmetry; apply Z.ltb_lt; lia).
  unfold round_pos. pose proof (ulp_exp_le binary64 a d) as He. simpl in He.
  specialize (He ltac:(lia)). set (e := ulp_exp binary64 a d) in *.
  replace (0 <=? e) with false by (symmetry; apply Z.leb_gt; lia).
  exists (rne (a * 2 ^ (- e)) d), (- e). split; [done|]. split; [lia|].
  split; [apply rne_error; lia|].
  intros q Hq. assert (2 ^ (- e) = 2 * 2 ^ (- e - 1)) as Hp.
  { rewrite <-Z.pow_succ_r by lia. f_equal. lia. }
  rewrite Hp. replace (a * (2 * 2 ^ (- e - 1))) with (q * 2 ^ (- e - 1) * d) by lia.
  rewrite rne_exact by lia. ring.
Qed.

(** A quotient of integers small enough is rounded with an absolute error
    below [1 / (2 d)], so that no integer lies between it and the exact
    quotient. *)
Lemma round_quot_bracket a d (Hd : 0 < d < 2 ^ 31) (Ha : 0 < a < 2 ^ 51) :
  exists n k, round_rat binary64 a d = FFin n k /\ 0 < k /\ d < 2 ^ k /\
    - d <= 2 * (n * d - a * 2 ^ k) <= d /\
    (forall q, 2 * a = q * d -> 2 * n = q * 2 ^ k).
Proof.
  assert (Z.log2 a < 51) by (apply Z.log2_lt_pow2; lia).
  assert (0 <= Z.log2 d < 31) by (split; [apply Z.log2_nonneg|apply Z.log2_lt_pow2; lia]).
  pose proof (Z.log2_nonneg a).
  destruct (round_rat_error a d) as (n & k & Hr & Hk & Herr & Hex); [lia..|].
  exists n, k. split; [done|]. split; [lia|]. split; [|done].
  destruct (Z.log2_spec d) as [_ H2]; [lia|]. apply Z.lt_le_trans with (1 := H2).
  apply Z.pow_le_mono_r; lia.
Qed.

(** [int(math.Ceil(float64(v) * float64(t) / 100))] is the exact ceiling. *)
Definition f64_pct_up (v t : Z) : Z :=
  fp_to_int (fp_ceil (fp_div binary64
    (fp_mul binary64 (fp_of_int binary64 v) (fp_of_int binary64 t)) (fp_of_int binary64 100))).

(** [int(math.Floor(float64(v) * float64(t) / 100))]. *)
Definition f64_pct_down (v t : Z) : Z :=
  fp_to_int (fp_floor (fp_div binary64
    (fp_mul binary64 (fp_of_int binary64 v) (fp_of_int binary64 t)) (fp_of_int binary64 100))).

Lemma fp_to_int_FFin0 z : is_int64 z -> fp_to_int (FFin z 0) = z.
Proof. intros Hz. apply fp_to_int_exact; [done|]. exists 0. split; [lia|]. f_equal. lia. Qed.

Lemma pct_quot v t :
  0 <= v < 2 ^ 53 -> 0 <= t < 2 ^ 53 -> v * t < 2 ^ 51 ->
  fp_div binary64 (fp_mul binary64 (fp_of_int binary64 v) (fp_of_int binary64 t)) (fp_of_int binary64 100)
  = round_rat binary64 (v * t) 100.
Proof.
  intros Hv Ht Hvt. apply fp_div_of_ints; [|apply fp_of_int_exact; lia|lia].
  apply fp_mul_exact; [apply fp_of_int_exact; lia..|nia].
Qed.

Lemma div_pos_unique a b q : 0 < b -> b * q <= a < b * q + b -> a / b = q.
Proof. intros Hb H. symmetry. apply Z.div_unique with (a - b * q); lia. Qed.

Lemma div_neg_ceil n p c : 0 < p -> (c - 1) * p < n <= c * p -> - ((- n) / p) = c.
Proof. intros Hp H. rewrite (div_pos_unique (- n) p (- c)); lia. Qed.

Lemma f64_pct_up_exact v t :
  0 <= v < 2 ^ 53 -> 0 <= t < 2 ^ 53 -> v * t < 2 ^ 51 ->
  f64_pct_up v t = (v * t + 99) / 100.
Proof.
  intros Hv Ht Hvt. unfold f64_pct_up. rewrite pct_quot by done.
  destruct (decide (v * t = 0)) as [->|Hz]; [done|].
  destruct (round_quot_bracket (v * t) 100) as (n & k & -> & Hk & Hd & Herr & Hex); [lia|nia|].
  set (N := v * t) in *. simpl. set (c := (N + 99) / 100).
  assert (Hc : 100 * (c - 1) < N <= 100 * c).
  { unfold c. pose proof (Z.div_mod (N + 99) 100 ltac:(lia)).
    pose proof (Z.mod_pos_bound (N + 99) 100). lia. }
  rewrite (div_neg_ceil n (2 ^ k) c).
  - apply fp_to_int_FFin0. unfold is_int64, int64_min, int64_max. nia.
  - lia.
  - destruct (decide (N = c * 100)) as [He|Hne].
    + specialize (Hex (2 * c) ltac:(lia)). nia.
    + nia.
Qed.

Lemma f64_pct_down_exact v t :
  0 <= v < 2 ^ 53 -> 0 <= t < 2 ^ 53 -> v * t < 2 ^ 51 ->
  f64_pct_down v t = v * t / 100.
Proof.
  intros Hv Ht Hvt. unfold f64_pct_down. rewrite pct_quot by done.
  destruct (decide (v * t = 0)) as [->|Hz]; [done|].
  destruct (round_quot_bracket (v * t) 100) as (n & k & -> & Hk & Hd & Herr & Hex); [lia|nia|].
  set (N := v * t) in *. simpl. set (c := N / 100).
  assert (Hc : 100 * c <= N < 100 * c + 100).
  { unfold c. pose proof (Z.div_mod N 100 ltac:(lia)).
    pose proof (Z.mod_pos_bound N 100). lia. }
  rewrite (div_pos_unique n (2 ^ k) c).
  - apply fp_to_int_FFin0. unfold is_int64, int64_min, int64_max. nia.
  - lia.
  - destruct (decide (N = c * 100)) as [He|Hne].
    + specialize (Hex (2 * c) ltac:(lia)). nia.
    + nia.
Qed.

(** [int(math.Abs(float64(i)))] is the absolute value below [2^53]. *)
Lemma f64_abs_exact i :
  - 2 ^ 53 < i < 2 ^ 53 -> fp_to_int (fp_abs (fp_of_int binary64 i)) = Z.abs i.
Proof.
  intros Hi. apply fp_to_int_exact; [unfold is_int64, int64_min, int64_max; lia|].
  destruct (fp_of_int_exact i Hi) as (k & Hk & ->).
  exists k. split; [done|]. simpl. f_equal. rewrite Z.abs_mul.
  f_equal. apply Z.abs_eq. apply Z.pow_nonneg. lia.
Qed.

(** [int(math.Round(float64(a) / float64(b)))] is the quotient rounded half up. *)
Lemma f64_round_quot_exact a b :
  0 < a < 2 ^ 51 -> 0 < b < 2 ^ 31 ->
  fp_to_int (fp_round (fp_div binary64 (fp_of_int binary64 a) (fp_of_int binary64 b)))
  = (2 * a + b) / (2 * b).
Proof.
  intros Ha Hb. rewrite (fp_div_of_ints _ _ a b) by (try apply fp_of_int_exact; lia).
  destruct (round_quot_bracket a b) as (n & k & -> & Hk & Hd & Herr & Hex); [lia..|].
  set (c := (2 * a + b) / (2 * b)).
  assert (Hc : 2 * b * c <= 2 * a + b < 2 * b * c + 2 * b).
  { unfold c. pose proof (Z.div_mod (2 * a + b) (2 * b) ltac:(lia)).
    pose proof (Z.mod_pos_bound (2 * a + b) (2 * b)). lia. }
  assert (0 < n) by nia. simpl. rewrite Z.sgn_pos, Z.abs_eq by lia.
  rewrite Z.pow_add_r, Z.pow_1_r by lia.
  rewrite (div_pos_unique _ (2 ^ k * 2) c).
  - rewrite Z.mul_1_l. apply fp_to_int_FFin0. unfold is_int64, int64_min, int64_max. nia.
  - lia.
  - destruct (decide (2 * a = (2 * c - 1) * b)) as [He|Hne].
    + specialize (Hex (2 * c - 1) He). nia.
    + nia.
Qed.

(** The arithmetic of two chained roundings, [n / P] of [N / 100] and [n2 / Q]
    of [n / P + 1/2], when the exact sum is not an integer. *)
Lemma half_up_step n P n2 Q N c :
  2 ^ 15 <= P -> 2 ^ 15 <= Q ->
  - 100 <= 2 * (n * 100 - N * P) <= 100 ->
  - (2 * P) <= 2 * (n2 * (2 * P) - (2 * n + P) * Q) <= 2 * P ->
  100 * c < N + 50 < 100 * c + 100 ->
  Q * c <= n2 < Q * c + Q.
Proof.
  intros HP HQ H1 H2 Hc.
  assert (HPQ : 100 * (P + Q) < P * Q) by nia.
  assert (Hl : 2 * P * Q * (N + 50) - 100 * Q - 100 * P <= n2 * (200 * P)) by nia.
  assert (Hu : n2 * (200 * P) <= 2 * P * Q * (N + 50) + 100 * Q + 100 * P) by nia.
  assert (2 * P * Q * (100 * c + 1) <= 2 * P * Q * (N + 50)) by nia.
  assert (2 * P * Q * (N + 50) <= 2 * P * Q * (100 * c + 99)) by nia.
  split; nia.
Qed.

(** [math.Floor(x + 0.5)] of a percentage is the quotient rounded half up: the
    two roundings together stay within [1/100] of the exact value. *)
Lemma f64_pct_half_up_exact v t :
  0 <= v < 2 ^ 31 -> 0 <= t <= 100 ->
  fp_to_int (fp_floor (fp_add binary64
    (fp_div binary64 (fp_mul binary64 (fp_of_int binary64 v) (fp_of_int binary64 t))
       (fp_of_int binary64 100)) (FFin 1 1)))
  = (v * t + 50) / 100.
Proof.
  intros Hv Ht. rewrite pct_quot by nia.
  destruct (decide (v * t = 0)) as [->|Hz]; [done|].
  assert (HN : 0 < v * t < 2 ^ 38) by nia. set (N := v * t) in *.
  assert (Z.log2 N < 38) by (apply Z.log2_lt_pow2; lia). pose proof (Z.log2_nonneg N).
  destruct (round_rat_error N 100) as (n & k & -> & Hk & Herr & Hex);
    [lia|lia|change (Z.log2 100) with 6; lia|]. change (Z.log2 100) with 6 in Hk.
  assert (Hk2 : 2 ^ 15 <= 2 ^ k) by (apply Z.pow_le_mono_r; lia).
  assert (Hn : 0 < n) by nia.
  simpl. set (A := n * 2 ^ 1 + 1 * 2 ^ k).
  assert (HA : A = 2 * n + 2 ^ k) by (unfold A; lia).
  assert (HD : 2 ^ (k + 1) = 2 * 2 ^ k) by (rewrite Z.pow_add_r by lia; lia).
  assert (HlD : Z.log2 (2 ^ (k + 1)) = k + 1) by (apply Z.log2_pow2; lia).
  assert (HlA : k <= Z.log2 A < k + 36).
  { split; [rewrite <-(Z.log2_pow2 k) by lia; apply Z.log2_le_mono; lia|].
    apply Z.log2_lt_pow2; [lia|]. rewrite Z.pow_add_r by lia. nia. }
  destruct (round_rat_error A (2 ^ (k + 1))) as (n2 & k2 & -> & Hk2' & Herr2 & Hex2); [lia..|].
  rewrite HlD in Hk2'.
  assert (Hp2 : 2 ^ 15 <= 2 ^ k2) by (apply Z.pow_le_mono_r; lia).
  simpl. set (c := (N + 50) / 100).
  assert (Hc : 100 * c <= N + 50 < 100 * c + 100).
  { unfold c. pose proof (Z.div_mod (N + 50) 100 ltac:(lia)).
    pose proof (Z.mod_pos_bound (N + 50) 100). lia. }
  rewrite (div_pos_unique n2 (2 ^ k2) c);
    [apply fp_to_int_FFin0; unfold is_int64, int64_min, int64_max; nia|lia|].
  rewrite HD in *. clearbody A c N. subst A.
  destruct (decide (N + 50 = 100 * c)) as [He|Hne].
  - specialize (Hex (2 * c - 1) ltac:(lia)).
    specialize (Hex2 (2 * c) ltac:(nia)). nia.
  - apply (half_up_step n (2 ^ k) n2 (2 ^ k2) N c); lia.
Qed.
