(* ===== verification/GoText.v ===== *)
(** * What the sources use of Go's [strings], [strconv] and [sort] packages. *)

From S2P Require Import Prelude GoLib.
#[global] Open Scope Z_scope.

(** ** strings *)

Definition chars (s : string) : list ascii := String.list_ascii_of_string s.
Definition of_chars (l : list ascii) : string := String.string_of_list_ascii l.

Lemma of_chars_chars s : of_chars (chars s) = s.
Proof. apply String.string_of_list_ascii_of_string. Qed.

Lemma chars_of_chars l : chars (of_chars l) = l.
Proof. apply String.list_ascii_of_string_of_list_ascii. Qed.

(** [strings.Split(s, sep)] for a separator of one byte. *)
Fixpoint split_chars (sep : ascii) (l : list ascii) : list (list ascii) :=
  match l with
  | [] => [[]]
  | c :: l' =>
      if Ascii.eqb c sep then [] :: split_chars sep l'
      else match split_chars sep l' with
           | [] => [[c]]
           | w :: ws => (c :: w) :: ws
           end
  end.
Definition Split (s : string) (sep : ascii) : list string :=
  map of_chars (split_chars sep (chars s)).

(** [strings.HasSuffix(s, suf)] and [strings.TrimSuffix(s, suf)] for a suffix of one byte. *)
Definition HasSuffix (s : string) (c : ascii) : bool :=
  match rev (chars s) with d :: _ => Ascii.eqb c d | [] => false end.
Definition TrimSuffix (s : string) (c : ascii) : string :=
  match rev (chars s) with
  | d :: r => if Ascii.eqb c d then of_chars (rev r) else s
  | [] => s
  end.
(** [strings.Replace(s, c, "", -1)] for one byte. *)
Definition RemoveAll (s : string) (c : ascii) : string :=
  of_chars (filterb (fun d => negb (Ascii.eqb c d)) (chars s)).

(** [strings.HasPrefix]. *)
Definition HasPrefix (s pre : string) : bool := String.prefix pre s.

(** What follows the prefix. *)
Fixpoint strip (pre l : list ascii) : option (list ascii) :=
  match pre, l with
  | [], _ => Some l
  | c :: pre', d :: l' => if Ascii.eqb c d then strip pre' l' else None
  | _ :: _, [] => None
  end.
(** [strings.Cut]: before and after the first occurrence of the separator. *)
Fixpoint cut (sep l : list ascii) : option (list ascii * list ascii) :=
  match strip sep l with
  | Some rest => Some ([], rest)
  | None =>
      match l with
      | [] => None
      | c :: l' => match cut sep l' with Some (a, b) => Some (c :: a, b) | None => None end
      end
  end.
Definition Cut (s sep : string) : option (string * string) :=
  match cut (chars sep) (chars s) with
  | Some (a, b) => Some (of_chars a, of_chars b)
  | None => None
  end.
(** [strings.Replace] of one occurrence of a non-empty text. *)
Definition ReplaceFirst (s old new : string) : string :=
  match Cut s old with
  | Some (a, b) => String.append a (String.append new b)
  | None => s
  end.
(** [strings.SplitN] for a positive number of parts. *)
Fixpoint SplitN (s sep : string) (n : nat) : list string :=
  match n with
  | O => []
  | S O => [s]
  | S n' => match Cut s sep with Some (a, b) => a :: SplitN b sep n' | None => [s] end
  end.

(** [a < b] on Go strings (bytewise), i.e. [strings.Compare(a, b) < 0]. *)
Definition string_lt (a b : string) : bool := String.ltb a b.

(** ** strconv *)

Definition is_digit (c : ascii) : bool :=
  let n := Z.of_nat (nat_of_ascii c) in (48 <=? n) && (n <=? 57).
Definition digit_val (c : ascii) : Z := Z.of_nat (nat_of_ascii c) - 48.

Fixpoint digits_val (acc : Z) (l : list ascii) : option Z :=
  match l with
  | [] => Some acc
  | c :: l' => if is_digit c then digits_val (acc * 10 + digit_val c) l' else None
  end.

(** The outcome of a conversion: Go returns the value together with the error. *)
Inductive conv := COk (v : Z) | CSyntax | CRange (v : Z).

Definition conv_val (c : conv) : Z :=
  match c with COk v => v | CSyntax => 0 | CRange v => v end.
Definition conv_ok (c : conv) : option Z :=
  match c with COk v => Some v | _ => None end.

(** [strconv.ParseUint(s, 10, bits)]. *)
Definition parse_uint_chars (l : list ascii) (bits : Z) : conv :=
  match l with
  | [] => CSyntax
  | _ => match digits_val 0 l with
         | None => CSyntax
         | Some v => if v <? 2 ^ bits then COk v else CRange (2 ^ bits - 1)
         end
  end.
Definition ParseUint (s : string) (bits : Z) : conv := parse_uint_chars (chars s) bits.

(** [strconv.ParseInt(s, 10, bits)]. *)
Definition ParseInt (s : string) (bits : Z) : conv :=
  let '(neg, l) :=
    match chars s with
    | c :: l' =>
        if Ascii.eqb c "-" then (true, l')
        else if Ascii.eqb c "+" then (false, l') else (false, c :: l')
    | [] => (false, [])
    end in
  let cutoff := 2 ^ (bits - 1) in
  match parse_uint_chars l bits with
  | CSyntax => CSyntax
  | COk u | CRange u =>
      if negb neg then (if cutoff <=? u then CRange (cutoff - 1) else COk u)
      else (if cutoff <? u then CRange (- cutoff) else COk (- u))
  end.

(** The digits a text starts with; on the reversed text, those it ends with. *)
Fixpoint leading_digits (l : list ascii) : list ascii :=
  match l with
  | [] => []
  | c :: l' => if is_digit c then c :: leading_digits l' else []
  end.

(** [strconv.Itoa] and [%d]: the digits, the last one first; one round per digit. *)
Definition digit_char (d : Z) : ascii := ascii_of_nat (Z.to_nat (48 + d)).
Fixpoint put_digits (fuel : nat) (n : Z) (acc : list ascii) : list ascii :=
  match fuel with
  | O => acc
  | S fuel' =>
      let acc := digit_char (n mod 10) :: acc in
      if n / 10 =? 0 then acc else put_digits fuel' (n / 10) acc
  end.
Definition digits_of (n : Z) : list ascii := put_digits (S (Z.to_nat (Z.log2 n))) n [].
Definition Itoa (z : Z) : string :=
  of_chars (if z <? 0 then "-"%char :: digits_of (- z) else digits_of z).

Section Decimal.
Lemma digit_char_spec d : 0 <= d < 10 -> is_digit (digit_char d) = true /\ digit_val (digit_char d) = d.
Proof.
  intros H. unfold is_digit, digit_val, digit_char.
  rewrite nat_ascii_embedding by lia. rewrite Z2Nat.id by lia.
  split; [|lia]. apply andb_true_iff. split; apply Z.leb_le; lia.
Qed.

Lemma put_digits_val fuel n acc : 0 <= n -> n < 2 ^ Z.of_nat fuel -> (fuel <> 0)%nat ->
  digits_val 0 (put_digits fuel n acc) = digits_val n acc.
Proof.
  revert n acc. induction fuel as [|fuel IH]; intros n acc Hn Hb Hf; [done|].
  pose proof (Z.mod_pos_bound n 10 ltac:(lia)) as Hm.
  pose proof (Z.div_mod n 10 ltac:(lia)) as Hd.
  destruct (digit_char_spec (n mod 10) Hm) as [Hdg Hv].
  assert (Hstep : forall v, digits_val v (digit_char (n mod 10) :: acc)
    = digits_val (v * 10 + n mod 10) acc).
  { intros v. cbn [digits_val]. by rewrite Hdg, Hv. }
  cbn [put_digits]. destruct (n / 10 =? 0) eqn:E.
  - apply Z.eqb_eq in E. rewrite Hstep. f_equal. lia.
  - apply Z.eqb_neq in E. rewrite IH, Hstep; [f_equal; lia|apply Z.div_pos; lia| |].
    + rewrite Nat2Z.inj_succ, Z.pow_succ_r in Hb by lia. apply Z.div_lt_upper_bound; lia.
    + intros ->. simpl in Hb. lia.
Qed.

Lemma put_digits_digits fuel n acc : 0 <= n ->
  Forall (fun c => is_digit c = true) acc -> Forall (fun c => is_digit c = true) (put_digits fuel n acc).
Proof.
  revert n acc. induction fuel as [|fuel IH]; intros n acc Hn Ha; cbn [put_digits]; [done|].
  destruct (digit_char_spec (n mod 10)) as [Hdg _]; [apply Z.mod_pos_bound; lia|].
  destruct (n / 10 =? 0); [by constructor|]. apply IH; [apply Z.div_pos; lia|by constructor].
Qed.

Lemma put_digits_ne fuel n acc : (fuel <> 0)%nat -> put_digits fuel n acc <> [].
Proof.
  revert n acc. induction fuel as [|fuel IH]; intros n acc Hf; [done|]. cbn [put_digits].
  destruct (n / 10 =? 0); [done|]. destruct fuel; [done|]. by apply IH.
Qed.

Lemma digits_of_val n : 0 <= n -> digits_val 0 (digits_of n) = Some n.
Proof.
  intros Hn. unfold digits_of. rewrite put_digits_val; [done|done| |done].
  rewrite Nat2Z.inj_succ, Z2Nat.id by apply Z.log2_nonneg.
  destruct (decide (n = 0)) as [->|]; [simpl; lia|]. apply Z.log2_spec. lia.
Qed.

Lemma digits_of_digits n : 0 <= n -> Forall (fun c => is_digit c = true) (digits_of n).
Proof. intros. by apply put_digits_digits. Qed.

Lemma digits_of_ne n : digits_of n <> [].
Proof. by apply put_digits_ne. Qed.

Lemma leading_digits_app l c r : Forall (fun c => is_digit c = true) l -> is_digit c = false ->
  leading_digits (l ++ c :: r) = l.
Proof.
  induction 1 as [|x l Hx _ IH]; intros Hc; cbn; [by rewrite Hc|]. rewrite Hx. f_equal. by apply IH.
Qed.

Lemma Itoa_nonneg n : 0 <= n -> Itoa n = of_chars (digits_of n).
Proof. intros. unfold Itoa. by rewrite (proj2 (Z.ltb_ge n 0)). Qed.

(** A number that fits is read back. *)
Lemma parse_digits_of n bits : 0 <= n < 2 ^ (bits - 1) -> 0 < bits ->
  ParseInt (of_chars (digits_of n)) bits = COk n.
Proof.
  intros Hn Hb. unfold ParseInt. rewrite chars_of_chars.
  pose proof (digits_of_val n ltac:(lia)) as Hv. pose proof (digits_of_ne n) as Hne.
  pose proof (digits_of_digits n ltac:(lia)) as Hd.
  destruct (digits_of n) as [|c l] eqn:E; [done|].
  apply Forall_cons in Hd as [Hc _].
  destruct (Ascii.eqb_spec c "-") as [->|]; [done|].
  destruct (Ascii.eqb_spec c "+") as [->|]; [done|].
  unfold parse_uint_chars. rewrite Hv.
  assert (2 ^ bits = 2 * 2 ^ (bits - 1)) as Hp by (rewrite <-Z.pow_succ_r by lia; f_equal; lia).
  rewrite (proj2 (Z.ltb_lt n (2 ^ bits))) by lia. simpl.
  by rewrite (proj2 (Z.leb_gt (2 ^ (bits - 1)) n)) by lia.
Qed.
End Decimal.

(** [strconv.Atoi]. *)
Definition Atoi (s : string) : conv := ParseInt s 64.

Definition lower (c : ascii) : ascii :=
  let n := Z.of_nat (nat_of_ascii c) in
  if (65 <=? n) && (n <=? 90) then ascii_of_nat (nat_of_ascii c + 32) else c.

(** Digits of a decimal mantissa: value, number of digits after the point,
    whether a digit was read, and the rest. *)
Fixpoint scan_mantissa (l : list ascii) (seen_dot seen_digit : bool) (v : Z) (frac : Z)
  : Z * Z * bool * list ascii :=
  match l with
  | c :: l' =>
      if is_digit c then
        scan_mantissa l' seen_dot true (v * 10 + digit_val c) (if seen_dot then frac + 1 else frac)
      else if Ascii.eqb c "." && negb seen_dot then scan_mantissa l' true seen_digit v frac
      else (v, frac, seen_digit, l)
  | [] => (v, frac, seen_digit, [])
  end.

(** An exponent part: [None] for a malformed one. *)
Definition scan_exponent (l : list ascii) : option Z :=
  match l with
  | [] => Some 0
  | c :: l' =>
      if Ascii.eqb (lower c) "e" then
        let '(neg, ds) :=
          match l' with
          | d :: l'' =>
              if Ascii.eqb d "-" then (true, l'')
              else if Ascii.eqb d "+" then (false, l'') else (false, l')
          | [] => (false, [])
          end in
        match ds with
        | [] => None
        | _ => match digits_val 0 ds with
               | Some e => Some (if neg : bool then - e else e)
               | None => None
               end
        end
      else None
  end.

(** [strconv.ParseFloat(s, 64)] on decimal notation and on the names of the
    special values; a hexadecimal mantissa is rejected here. *)
Definition ParseFloat (s : string) : option fp :=
  let '(neg, l) :=
    match chars s with
    | c :: l' =>
        if Ascii.eqb c "-" then (true, l')
        else if Ascii.eqb c "+" then (false, l') else (false, c :: l')
    | [] => (false, [])
    end in
  let word := of_chars (map lower l) in
  if String.eqb word "inf" || String.eqb word "infinity" then Some (FInf neg)
  else if String.eqb word "nan" && String.eqb (of_chars (map lower (chars s))) "nan" then Some FNaN
  else
    let '(v, frac, ok, rest) := scan_mantissa l false false 0 0 in
    if negb ok then None
    else match scan_exponent rest with
         | None => None
         | Some e =>
             let p := e - frac in
             let x := if 0 <=? p then round_rat binary64 (v * 10 ^ p) 1
                      else round_rat binary64 v (10 ^ (- p)) in
             match x with
             | FInf _ => None
             | _ => Some (if neg then fp_opp x else x)
             end
         end.

(** ** sort *)

(** [strings.ToLower] on ASCII; [strings.EqualFold] is equality of the lower case there. *)
Definition lower_char (c : ascii) : ascii :=
  let n := Ascii.nat_of_ascii c in
  if ((65 <=? n) && (n <=? 90))%nat then Ascii.ascii_of_nat (n + 32) else c.
Definition ToLower (s : string) : string := of_chars (map lower_char (chars s)).
Definition EqualFold (a b : string) : bool := String.eqb (ToLower a) (ToLower b).

(** [sort.SliceStable] with a [less] on elements: stable insertion. *)
Fixpoint sinsert {A} (less : A -> A -> bool) (x : A) (l : list A) : list A :=
  match l with
  | [] => [x]
  | y :: l' => if less x y then x :: y :: l' else y :: sinsert less x l'
  end.
Fixpoint stable_sort_acc {A} (less : A -> A -> bool) (acc l : list A) : list A :=
  match l with
  | [] => acc
  | x :: l' => stable_sort_acc less (sinsert less x acc) l'
  end.
Definition SliceStable {A} (less : A -> A -> bool) (l : list A) : list A :=
  stable_sort_acc less [] l.

(** The contract of a [Less]: a strict weak order. *)
Class StrictWeak {A} (less : A -> A -> bool) : Prop := {
  sw_irrefl : forall x, less x x = false;
  sw_trans : forall x y z, less x y = true -> less y z = true -> less x z = true;
  sw_cotrans : forall x y z, less x z = true -> less x y = true \/ less y z = true;
}.

(** No element is smaller than one that precedes it. *)
Definition sorted_by {A} (less : A -> A -> bool) : list A -> Prop :=
  StronglySorted (fun x y => less y x = false).

(** What [sort.Sort] and [sort.Slice] promise: a permutation, sorted when
    [Less] is a strict weak order; the order of equal elements is open. *)
Class GoSort := {
  sort_by : forall {A}, (A -> A -> bool) -> list A -> list A;
  sort_by_perm : forall A (less : A -> A -> bool) l, sort_by less l ≡ₚ l;
  sort_by_sorted : forall A (less : A -> A -> bool) l,
    StrictWeak less -> sorted_by less (sort_by less l);
}.

Section StableSort.
Context {A : Type} (less : A -> A -> bool).

Lemma sinsert_perm x l : sinsert less x l ≡ₚ x :: l.
Proof.
  induction l as [|y l IH]; simpl; [done|]. destruct (less x y); [done|].
  rewrite IH. by apply Permutation_swap.
Qed.

Lemma stable_sort_acc_perm l acc : stable_sort_acc less acc l ≡ₚ acc ++ l.
Proof.
  revert acc. induction l as [|x l IH]; intros acc; simpl; [by rewrite app_nil_r|].
  rewrite IH, sinsert_perm. by rewrite <-Permutation_middle.
Qed.

Lemma SliceStable_perm l : SliceStable less l ≡ₚ l.
Proof. unfold SliceStable. by rewrite stable_sort_acc_perm. Qed.

Context `{!StrictWeak less}.

Lemma less_asym x y : less x y = true -> less y x = false.
Proof.
  intros H. destruct (less y x) eqn:E; [|done].
  pose proof (sw_trans x y x H E). pose proof (sw_irrefl x). congruence.
Qed.

Lemma sinsert_sorted x l : sorted_by less l -> sorted_by less (sinsert less x l).
Proof.
  induction l as [|y l IH]; intros Hs; simpl; [repeat constructor|].
  apply StronglySorted_inv in Hs as [Hs Hy].
  destruct (less x y) eqn:E.
  - constructor; [by constructor|]. constructor; [by apply less_asym|].
    eapply Forall_impl; [exact Hy|]. intros z Hz. simpl in *.
    destruct (less z x) eqn:E2; [|done].
    pose proof (sw_trans z x y E2 E). congruence.
  - constructor; [by apply IH|].
    refine (Permutation_Forall (symmetry (sinsert_perm x l)) _). by constructor.
Qed.

Lemma stable_sort_acc_sorted l acc :
  sorted_by less acc -> sorted_by less (stable_sort_acc less acc l).
Proof. revert acc. induction l; intros acc H; simpl; [done|]. by apply IHl, sinsert_sorted. Qed.

Lemma SliceStable_sorted l : sorted_by less (SliceStable less l).
Proof. apply stable_sort_acc_sorted. constructor. Qed.
End StableSort.

(** One implementation of the contract. *)
#[export] Instance stable_GoSort : GoSort := {|
  sort_by := fun A less l => SliceStable less l;
  sort_by_perm := fun A less l => SliceStable_perm less l;
  sort_by_sorted := fun A less l H => @SliceStable_sorted A less H l;
|}.

(** A comparison by an integer key is a strict weak order. *)
#[export] Instance StrictWeak_key {A} (key : A -> Z) : StrictWeak (fun x y => key x <? key y).
Proof. split; intros *; rewrite ?Z.ltb_lt, ?Z.ltb_ge; lia. Qed.

(** Lexicographic refinement of a key by a further strict weak order. *)
#[export] Instance StrictWeak_lex {A} (key : A -> Z) (less : A -> A -> bool) `{!StrictWeak less} :
  StrictWeak (fun x y => if negb (key x =? key y) then key x <? key y else less x y).
Proof.
  split.
  - intros x. rewrite Z.eqb_refl. apply sw_irrefl.
  - intros x y z.
    destruct (Z.eqb_spec (key x) (key y)), (Z.eqb_spec (key y) (key z)),
      (Z.eqb_spec (key x) (key z)); simpl; rewrite ?Z.ltb_lt; try lia.
    apply sw_trans.
  - intros x y z.
    destruct (Z.eqb_spec (key x) (key y)), (Z.eqb_spec (key y) (key z)),
      (Z.eqb_spec (key x) (key z)); simpl; rewrite ?Z.ltb_lt; try lia.
    apply sw_cotrans.
Qed.

Lemma StrictWeak_ext {A} (f g : A -> A -> bool) : (forall x y, f x y = g x y) -> StrictWeak f -> StrictWeak g.
Proof.
  intros Hfg Hf. split; intros *; rewrite <-?Hfg; [apply sw_irrefl|apply sw_trans|apply sw_cotrans].
Qed.

(** The order of strings. *)
Lemma string_lt_leb a b : string_lt a b = negb (String.leb b a).
Proof.
  unfold string_lt, String.ltb, String.leb. rewrite String.compare_antisym.
  by destruct (String.compare b a).
Qed.

#[export] Instance string_lt_sw : StrictWeak string_lt.
Proof.
  assert (Htot : forall x y, String.leb x y = true \/ String.leb y x = true) by apply String.leb_total.
  assert (Htr : forall x y z, String.leb x y = true -> String.leb y z = true -> String.leb x z = true).
  { intros x y z H1 H2. apply Is_true_true. eapply (transitivity (R := String.le)); by apply Is_true_true. }
  split; intros *; rewrite !string_lt_leb, ?negb_true_iff, ?negb_false_iff.
  - destruct (Htot x x); done.
  - intros H1 H2. destruct (String.leb z x) eqn:E; [|done].
    destruct (Htot x y) as [Hxy|Hxy]; [|congruence]. rewrite (Htr z x y E Hxy) in H2. done.
  - intros H1. destruct (String.leb y x) eqn:E1; [|auto]. right.
    destruct (String.leb z y) eqn:E2; [|done]. rewrite (Htr z y x E2 E1) in H1. done.
Qed.

(** In a sorted list nothing is smaller than what precedes it. *)
Lemma sorted_by_last {A} (less : A -> A -> bool) l x y :
  StrictWeak less -> sorted_by less l -> last l = Some y -> x ∈ l -> less y x = false.
Proof.
  intros Hsw Hs Hl Hx. destruct (last_Some l y) as [Hl' _]. destruct (Hl' Hl) as [l' ->].
  apply elem_of_app in Hx as [Hx|Hx].
  - refine (StronglySorted_app_1_elem_of _ l' [y] x y Hs Hx _). by apply list_elem_of_singleton.
  - apply list_elem_of_singleton in Hx as ->. apply sw_irrefl.
Qed.
