(* ===== verification/K8s.v ===== *)
(** * API objects and the vendored Kubernetes helpers the controllers call

    Pods, their conditions and container statuses; [IntOrString] with its two
    scaling functions (vendor/k8s.io/apimachinery/pkg/util/intstr); pod
    readiness and availability (vendor/k8s.io/kubernetes/pkg/api/v1/pod); the
    default pod order (vendor/k8s.io/kubernetes/pkg/controller).  A time is a
    number of nanoseconds, [0] being the zero [metav1.Time]. *)

From S2P Require Import Prelude GoLib GoText.
#[global] Open Scope Z_scope.

(** ** Objects

    The records have the fields that the modelled code reads; a [nil] map or slice
    is the empty one. *)

(** [m[k]] of a Go map from strings to strings: the zero value when absent. *)
Definition lbl (m : gmap string string) (k : string) : string := default ""%string (m !! k).

Record PodCondition := mkCond {
  c_type : string;
  c_status : string;
  c_lastTransition : Z;
  c_reason : string;
  c_message : string;
}.

Record ContainerStatus := mkCStatus {
  cs_name : string;
  cs_ready : bool;
  cs_restartCount : Z;
  cs_imageID : string;
  cs_image : string;
  cs_containerID : string;
}.

(** An environment variable; of its sources, the path of a field and the key in a config map. *)
Record EnvVarSource := mkEnvSource {
  es_FieldRef : option string;
  es_ConfigMapKeyRef : option string;
}.
Record EnvVar := mkEnvVar {
  env_name : string;
  env_value : string;
  env_from : option EnvVarSource;
}.

Record VolumeMount := mkMount {
  mount_name : string;
  mount_path : string;
  mount_subPathExpr : string;
}.

Record Container := mkContainer {
  ctr_name : string;
  ctr_image : string;
  ctr_env : list EnvVar;
  ctr_mounts : list VolumeMount;
}.

(** A volume and the claim it refers to, if it is one of a claim. *)
Record Volume := mkVolume {
  vol_name : string;
  vol_claim : option string;
}.

(** metav1.OwnerReference. *)
Record OwnerReference := mkOwner {
  or_apiVersion : string;
  or_kind : string;
  or_name : string;
  or_uid : string;
  or_controller : bool;
}.

(** metav1.TypeMeta. *)
Record TypeMeta := mkTypeMeta { tm_APIVersion : string; tm_Kind : string }.

Record PersistentVolumeClaim := mkPVC {
  pvc_name : string;
  pvc_namespace : string;
  pvc_labels : gmap string string;
  pvc_owners : list OwnerReference;
  pvc_deletion : option Z;
}.

(** A requirement of a node selector, on labels or on fields, and a term of them. *)
Record NodeSelectorRequirement := mkNodeReq {
  nr_key : string;
  nr_operator : string;
  nr_values : list string;
}.
Record NodeSelectorTerm := mkNodeTerm {
  nt_expressions : list NodeSelectorRequirement;
  nt_fields : list NodeSelectorRequirement;
}.
Record Toleration := mkToleration {
  tol_key : string;
  tol_operator : string;
  tol_value : string;
  tol_effect : string;
  tol_seconds : option Z;
}.

Record PreferredSchedulingTerm := mkPreferred { pt_weight : Z; pt_preference : NodeSelectorTerm }.

(** The fields of a pod spec that say where and how often it runs, and what else it needs to
    start; [pl_affinity] has the terms of the required node affinity, when there is one,
    [pl_preferred] those of the preferred one, [pl_pullSecrets] the names of the secrets. *)
Record PodPlacement := mkPlacement {
  pl_restartPolicy : string;
  pl_nodeSelector : gmap string string;
  pl_affinity : option (list NodeSelectorTerm);
  pl_tolerations : list Toleration;
  pl_hostNetwork : bool;
  pl_schedulerName : string;
  pl_preferred : list PreferredSchedulingTerm;
  pl_initContainers : list Container;
  pl_pullSecrets : list string;
}.
Definition no_placement : PodPlacement := mkPlacement "" ∅ None [] false "" [] [] [].

Record Pod := mkPod {
  p_name : string;
  p_namespace : string;
  p_uid : string;
  p_resourceVersion : string;
  p_labels : gmap string string;
  p_annotations : gmap string string;
  p_finalizers : list string;
  p_creation : Z;
  p_deletion : option Z;
  p_node : string;
  p_phase : string;
  p_conditions : list PodCondition;
  p_cstatuses : list ContainerStatus;
  p_gates : list string;
  p_containers : list Container;
  p_volumes : list Volume;
  p_owners : list OwnerReference;
  p_hostname : string;
  p_subdomain : string;
  p_initStatuses : list ContainerStatus;
  p_placement : PodPlacement;
}.

#[export] Instance PodCondition_eq_dec : EqDecision PodCondition.
Proof. solve_decision. Defined.
#[export] Instance ContainerStatus_eq_dec : EqDecision ContainerStatus.
Proof. solve_decision. Defined.
#[export] Instance EnvVarSource_eq_dec : EqDecision EnvVarSource.
Proof. solve_decision. Defined.
#[export] Instance EnvVar_eq_dec : EqDecision EnvVar.
Proof. solve_decision. Defined.
#[export] Instance VolumeMount_eq_dec : EqDecision VolumeMount.
Proof. solve_decision. Defined.
#[export] Instance Container_eq_dec : EqDecision Container.
Proof. solve_decision. Defined.
#[export] Instance Volume_eq_dec : EqDecision Volume.
Proof. solve_decision. Defined.
#[export] Instance OwnerReference_eq_dec : EqDecision OwnerReference.
Proof. solve_decision. Defined.
#[export] Instance PersistentVolumeClaim_eq_dec : EqDecision PersistentVolumeClaim.
Proof. solve_decision. Defined.
#[export] Instance NodeSelectorRequirement_eq_dec : EqDecision NodeSelectorRequirement.
Proof. solve_decision. Defined.
#[export] Instance NodeSelectorTerm_eq_dec : EqDecision NodeSelectorTerm.
Proof. solve_decision. Defined.
#[export] Instance Toleration_eq_dec : EqDecision Toleration.
Proof. solve_decision. Defined.
#[export] Instance PreferredSchedulingTerm_eq_dec : EqDecision PreferredSchedulingTerm.
Proof. solve_decision. Defined.
#[export] Instance PodPlacement_eq_dec : EqDecision PodPlacement.
Proof. solve_decision. Defined.
#[export] Instance Pod_eq_dec : EqDecision Pod.
Proof. solve_decision. Defined.

Definition with_labels (p : Pod) (m : gmap string string) : Pod :=
  mkPod (p_name p) (p_namespace p) (p_uid p) (p_resourceVersion p) m (p_annotations p)
    (p_finalizers p) (p_creation p) (p_deletion p) (p_node p) (p_phase p) (p_conditions p)
    (p_cstatuses p) (p_gates p) (p_containers p) (p_volumes p) (p_owners p) (p_hostname p) (p_subdomain p)
    (p_initStatuses p) (p_placement p).
Definition with_annotations (p : Pod) (m : gmap string string) : Pod :=
  mkPod (p_name p) (p_namespace p) (p_uid p) (p_resourceVersion p) (p_labels p) m
    (p_finalizers p) (p_creation p) (p_deletion p) (p_node p) (p_phase p) (p_conditions p)
    (p_cstatuses p) (p_gates p) (p_containers p) (p_volumes p) (p_owners p) (p_hostname p) (p_subdomain p)
    (p_initStatuses p) (p_placement p).
Definition with_conditions (p : Pod) (cs : list PodCondition) : Pod :=
  mkPod (p_name p) (p_namespace p) (p_uid p) (p_resourceVersion p) (p_labels p) (p_annotations p)
    (p_finalizers p) (p_creation p) (p_deletion p) (p_node p) (p_phase p) cs
    (p_cstatuses p) (p_gates p) (p_containers p) (p_volumes p) (p_owners p) (p_hostname p) (p_subdomain p)
    (p_initStatuses p) (p_placement p).
Definition with_name (p : Pod) (name ns : string) : Pod :=
  mkPod name ns (p_uid p) (p_resourceVersion p) (p_labels p) (p_annotations p)
    (p_finalizers p) (p_creation p) (p_deletion p) (p_node p) (p_phase p) (p_conditions p)
    (p_cstatuses p) (p_gates p) (p_containers p) (p_volumes p) (p_owners p) (p_hostname p) (p_subdomain p)
    (p_initStatuses p) (p_placement p).
Definition with_gates (p : Pod) (gs : list string) : Pod :=
  mkPod (p_name p) (p_namespace p) (p_uid p) (p_resourceVersion p) (p_labels p) (p_annotations p)
    (p_finalizers p) (p_creation p) (p_deletion p) (p_node p) (p_phase p) (p_conditions p)
    (p_cstatuses p) gs (p_containers p) (p_volumes p) (p_owners p) (p_hostname p) (p_subdomain p)
    (p_initStatuses p) (p_placement p).
Definition with_volumes (p : Pod) (vs : list Volume) : Pod :=
  mkPod (p_name p) (p_namespace p) (p_uid p) (p_resourceVersion p) (p_labels p) (p_annotations p)
    (p_finalizers p) (p_creation p) (p_deletion p) (p_node p) (p_phase p) (p_conditions p)
    (p_cstatuses p) (p_gates p) (p_containers p) vs (p_owners p) (p_hostname p) (p_subdomain p)
    (p_initStatuses p) (p_placement p).
Definition with_containers (p : Pod) (cs : list Container) : Pod :=
  mkPod (p_name p) (p_namespace p) (p_uid p) (p_resourceVersion p) (p_labels p) (p_annotations p)
    (p_finalizers p) (p_creation p) (p_deletion p) (p_node p) (p_phase p) (p_conditions p)
    (p_cstatuses p) (p_gates p) cs (p_volumes p) (p_owners p) (p_hostname p) (p_subdomain p)
    (p_initStatuses p) (p_placement p).
Definition with_finalizers (p : Pod) (fs : list string) : Pod :=
  mkPod (p_name p) (p_namespace p) (p_uid p) (p_resourceVersion p) (p_labels p) (p_annotations p)
    fs (p_creation p) (p_deletion p) (p_node p) (p_phase p) (p_conditions p)
    (p_cstatuses p) (p_gates p) (p_containers p) (p_volumes p) (p_owners p) (p_hostname p) (p_subdomain p)
    (p_initStatuses p) (p_placement p).

Definition with_host (p : Pod) (hostname subdomain : string) : Pod :=
  mkPod (p_name p) (p_namespace p) (p_uid p) (p_resourceVersion p) (p_labels p) (p_annotations p)
    (p_finalizers p) (p_creation p) (p_deletion p) (p_node p) (p_phase p) (p_conditions p)
    (p_cstatuses p) (p_gates p) (p_containers p) (p_volumes p) (p_owners p) hostname subdomain
    (p_initStatuses p) (p_placement p).

(** A pod with the zero value in every field but the name. *)
Definition named_pod (name : string) : Pod :=
  mkPod name "default" name "" ∅ ∅ [] 0 None "" "" [] [] [] [] [] [] "" "" [] no_placement.

Definition with_node (p : Pod) (node : string) : Pod :=
  mkPod (p_name p) (p_namespace p) (p_uid p) (p_resourceVersion p) (p_labels p) (p_annotations p)
    (p_finalizers p) (p_creation p) (p_deletion p) node (p_phase p) (p_conditions p)
    (p_cstatuses p) (p_gates p) (p_containers p) (p_volumes p) (p_owners p) (p_hostname p) (p_subdomain p)
    (p_initStatuses p) (p_placement p).
Definition with_placement (p : Pod) (pl : PodPlacement) : Pod :=
  mkPod (p_name p) (p_namespace p) (p_uid p) (p_resourceVersion p) (p_labels p) (p_annotations p)
    (p_finalizers p) (p_creation p) (p_deletion p) (p_node p) (p_phase p) (p_conditions p)
    (p_cstatuses p) (p_gates p) (p_containers p) (p_volumes p) (p_owners p) (p_hostname p) (p_subdomain p)
    (p_initStatuses p) pl.

(** v1.PodTemplateSpec. *)
Record PodTemplate := mkTemplate {
  t_labels : gmap string string;
  t_annotations : gmap string string;
  t_finalizers : list string;
  t_containers : list Container;
  t_volumes : list Volume;
  t_gates : list string;
  t_nodeName : string;
  t_placement : PodPlacement;
}.

#[export] Instance PodTemplate_eq_dec : EqDecision PodTemplate.
Proof. solve_decision. Defined.

(** [controller.GetPodFromTemplate]. *)
Definition GetPodFromTemplate (t : PodTemplate) (ref : OwnerReference) : Pod :=
  mkPod "" "" "" "" (t_labels t) (t_annotations t) (t_finalizers t) 0 None (t_nodeName t) "" [] []
    (t_gates t) (t_containers t) (t_volumes t) [ref] "" "" [] (t_placement t).

(** [metav1.GetControllerOf]: the owner that is the controller. *)
Definition GetControllerOf (owners : list OwnerReference) : option OwnerReference :=
  find or_controller owners.

Local Open Scope string_scope.

Definition PodPending : string := "Pending".
Definition PodRunning : string := "Running".
Definition PodSucceeded : string := "Succeeded".
Definition PodFailed : string := "Failed".
Definition PodUnknown : string := "Unknown".
Definition ConditionTrue : string := "True".
Definition ConditionFalse : string := "False".
Definition PodReady : string := "Ready".
Definition ContainersReady : string := "ContainersReady".
Definition InPlaceUpdateReady : string := "InPlaceUpdateReady".
Definition KruisePodReadyConditionType : string := "KruisePodReady".
Definition ControllerRevisionHashLabelKey : string := "controller-revision-hash".
Definition DefaultDeploymentUniqueLabelKey : string := "pod-template-hash".
Definition CloneSetInstanceID : string := "apps.kruise.io/cloneset-instance-id".
Definition SpecifiedDeleteKey : string := "apps.kruise.io/specified-delete".
Definition PodDeletionCost : string := "controller.kubernetes.io/pod-deletion-cost".

Local Close Scope string_scope.

(** ** IntOrString *)

Inductive IntOrString :=
| FromInt (v : Z)
| FromString (s : string).

(** [getIntOrPercentValue]: the value and whether it is a percentage; every
    ["%"] of the string is dropped, and any string counts as a percentage. *)
Definition getIntOrPercentValue (x : IntOrString) : option (Z * bool) :=
  match x with
  | FromInt v => Some (v, false)
  | FromString s =>
      match conv_ok (Atoi (RemoveAll s "%")) with
      | Some v => Some (v, true)
      | None => None
      end
  end.

(** [GetValueFromIntOrPercent]; [None] is an error, on which Go returns [0]. *)
Definition GetValueFromIntOrPercent (x : IntOrString) (total : Z) (roundUp : bool) : option Z :=
  match getIntOrPercentValue x with
  | None => None
  | Some (v, isPercent) =>
      Some (if isPercent then
              if roundUp then f64_pct_up v total else f64_pct_down v total
            else v)
  end.

(** [v, _ = GetValueFromIntOrPercent(...)]. *)
Definition GetValueFromIntOrPercent_ (x : IntOrString) (total : Z) (roundUp : bool) : Z :=
  default 0 (GetValueFromIntOrPercent x total roundUp).

(** The newer functions: a string must end in ["%"]. *)
Definition getIntOrPercentValueSafely (x : IntOrString) : option (Z * bool) :=
  match x with
  | FromInt v => Some (v, false)
  | FromString s =>
      if negb (HasSuffix s "%") then None
      else match conv_ok (Atoi (TrimSuffix s "%")) with
           | Some v => Some (v, true)
           | None => None
           end
  end.
Definition GetScaledValueFromIntOrPercent (x : IntOrString) (total : Z) (roundUp : bool) : option Z :=
  match getIntOrPercentValueSafely x with
  | None => None
  | Some (v, isPercent) =>
      Some (if isPercent then
              if roundUp then f64_pct_up v total else f64_pct_down v total
            else v)
  end.

(** [Parse]. *)
Definition Parse (val : string) : IntOrString :=
  match conv_ok (Atoi val) with
  | Some i => FromInt i
  | None => FromString val
  end.

Definition ValueOrDefault (x : option IntOrString) (d : IntOrString) : IntOrString :=
  match x with Some v => v | None => d end.

(** ** Pod readiness *)

Fixpoint find_condition (cs : list PodCondition) (t : string) : option PodCondition :=
  match cs with
  | [] => None
  | c :: cs' => if String.eqb (c_type c) t then Some c else find_condition cs' t
  end.

Definition GetPodReadyCondition (p : Pod) : option PodCondition :=
  find_condition (p_conditions p) PodReady.

Definition IsPodReady (p : Pod) : bool :=
  match GetPodReadyCondition p with
  | Some c => String.eqb (c_status c) ConditionTrue
  | None => false
  end.

Definition second : Z := 1000000000.

Definition IsPodAvailable_k8s (p : Pod) (minReadySeconds now : Z) : bool :=
  if negb (IsPodReady p) then false
  else match GetPodReadyCondition p with
       | None => false
       | Some c =>
           (minReadySeconds =? 0)
           || (negb (c_lastTransition c =? 0)
               && (c_lastTransition c + minReadySeconds * second <? now))
       end.

Definition IsPodActive (p : Pod) : bool :=
  negb (String.eqb (p_phase p) PodSucceeded) && negb (String.eqb (p_phase p) PodFailed)
  && match p_deletion p with None => true | Some _ => false end.

(** ** The default pod order *)

Definition podPhaseToOrdinal (phase : string) : Z :=
  if String.eqb phase PodPending then 0
  else if String.eqb phase PodUnknown then 1
  else if String.eqb phase PodRunning then 2
  else 0.

Definition afterOrZero (t1 t2 : Z) : bool :=
  if (t1 =? 0) || (t2 =? 0) then t1 =? 0 else t2 <? t1.

Fixpoint ready_time (cs : list PodCondition) : Z :=
  match cs with
  | [] => 0
  | c :: cs' =>
      if String.eqb (c_type c) PodReady && String.eqb (c_status c) ConditionTrue
      then c_lastTransition c else ready_time cs'
  end.
Definition podReadyTime (p : Pod) : Z :=
  if IsPodReady p then ready_time (p_conditions p) else 0.

Definition maxContainerRestarts (p : Pod) : Z :=
  fold_left (fun m c => Z.max m (cs_restartCount c)) (p_cstatuses p) 0.

(** [ActivePods.Less] on the elements it compares. *)
Definition ActivePods_Less (a b : Pod) : bool :=
  if negb (String.eqb (p_node a) (p_node b))
     && (String.eqb (p_node a) "" || String.eqb (p_node b) "")
  then String.eqb (p_node a) ""
  else if negb (podPhaseToOrdinal (p_phase a) =? podPhaseToOrdinal (p_phase b))
  then podPhaseToOrdinal (p_phase a) <? podPhaseToOrdinal (p_phase b)
  else if negb (Bool.eqb (IsPodReady a) (IsPodReady b))
  then negb (IsPodReady a)
  else if IsPodReady a && IsPodReady b && negb (podReadyTime a =? podReadyTime b)
  then afterOrZero (podReadyTime a) (podReadyTime b)
  else if negb (maxContainerRestarts a =? maxContainerRestarts b)
  then maxContainerRestarts b <? maxContainerRestarts a
  else if negb (p_creation a =? p_creation b)
  then afterOrZero (p_creation a) (p_creation b)
  else false.

(** *** The order as a lexicographic key *)

Definition b2z (b : bool) : Z := if b then 1 else 0.

(** A time as a key: the zero time first, then later before earlier; the time
    of a pod created by the API server is positive. *)
Definition time_key (t : Z) : Z := if t =? 0 then - 2 ^ 70 else - t.

Definition is_time (t : Z) : Prop := 0 <= t < 2 ^ 64.

Lemma afterOrZero_key a b :
  is_time a -> is_time b -> a <> b -> afterOrZero a b = (time_key a <? time_key b).
Proof.
  unfold is_time, afterOrZero, time_key. intros Ha Hb Hne.
  destruct (Z.eqb_spec a 0), (Z.eqb_spec b 0); simpl;
    apply eq_true_iff_eq; rewrite ?Z.ltb_lt, ?Z.eqb_eq; try lia.
Qed.

Lemma time_key_inj a b : is_time a -> is_time b -> (time_key a =? time_key b) = (a =? b).
Proof.
  unfold is_time, time_key. intros. apply eq_true_iff_eq. rewrite !Z.eqb_eq.
  destruct (Z.eqb_spec a 0), (Z.eqb_spec b 0); lia.
Qed.

(** A pod whose timestamps are representable. *)
Definition pod_times_ok (p : Pod) : Prop :=
  is_time (p_creation p) /\ is_time (podReadyTime p).

Lemma eqb_str_sym a b : String.eqb a b = String.eqb b a.
Proof. destruct (String.eqb_spec a b), (String.eqb_spec b a); congruence. Qed.

Lemma find_condition_type cs t c : find_condition cs t = Some c -> c_type c = t.
Proof.
  induction cs as [|d cs IH]; simpl; [done|].
  destruct (String.eqb_spec (c_type d) t); [congruence|done].
Qed.
