(* ===== verification/Tools.v ===== *)
(** * pkg/util/tools.go and pkg/util/pods.go

    Batched calls ([SlowStartBatch], and its copy [DoItSlowly] in the CloneSet
    utilities), the scaling of a partition, and the pod helpers shared by the
    controllers. *)

From S2P Require Import Prelude GoLib GoText K8s.
Open Scope Z_scope.
Open Scope kruise_scope.

(** ** Batched calls *)
Module Batch.

Section Run.
Context {E : Type}.

(** Indexes [from, from + n). *)
Definition indexes (from n : Z) : list Z := seqZ from n.

(** The errors of one batch, in the order of the indexes. *)
Definition batch_errors (fn : Z -> option E) (from n : Z) : list E :=
  omap fn (indexes from n).

(** One result of the loop: the successes, the errors in the channel of the
    batch that stopped it (Go returns one of them), and how many calls were
    made; the calls of one batch run concurrently and are all awaited. *)
Fixpoint slow_start_loop (fuel : nat) (fn : Z -> option E)
  (remaining successes index batchSize : Z) : Z * list E * Z :=
  match fuel with
  | O => (successes, [], index)
  | S fuel' =>
      if 0 <? batchSize then
        let errs := batch_errors fn index batchSize in
        let curSuccesses := batchSize - len errs in
        let successes := successes + curSuccesses in
        let index := index + batchSize in
        match errs with
        | _ :: _ => (successes, errs, index)
        | [] =>
            let remaining := remaining - batchSize in
            slow_start_loop fuel' fn remaining successes index
              (Z.min (2 * batchSize) remaining)
        end
      else (successes, [], index)
  end.

(** Every batch makes at least one call, so [count] rounds are enough. *)
Definition SlowStartBatch (count initialBatchSize : Z) (fn : Z -> option E) : Z * list E * Z :=
  slow_start_loop (S (Z.to_nat count)) fn count 0 0 (Z.min count initialBatchSize).

(** The CloneSet copy calls a function without an index. *)
Definition DoItSlowly (count initialBatchSize : Z) (fn : Z -> option E) : Z * list E * Z :=
  slow_start_loop (S (Z.to_nat count)) fn count 0 0 (Z.min count initialBatchSize).

Definition ok_call (fn : Z -> option E) (i : Z) : bool :=
  match fn i with None => true | Some _ => false end.

(** The state of the loop after the calls [0, index). *)
Definition loop_inv (count init : Z) (fn : Z -> option E)
  (remaining successes index batchSize : Z) : Prop :=
  0 <= index /\ remaining + index = count /\ 0 <= remaining /\
  successes = index /\
  (forall i, 0 <= i < index -> fn i = None) /\
  batchSize <= remaining /\ batchSize <= index + init /\
  (0 < remaining -> 0 < batchSize).

Lemma elem_of_omap_seqZ fn from n (e : E) :
  e ∈ batch_errors fn from n <-> exists i, from <= i < from + n /\ fn i = Some e.
Proof.
  unfold batch_errors, indexes. rewrite list_elem_of_omap.
  split; intros (i & Hi & He); exists i; rewrite elem_of_seqZ in *; auto.
Qed.

Lemma batch_errors_nil fn from n :
  batch_errors fn from n = [] -> forall i, from <= i < from + n -> fn i = None.
Proof.
  intros H i Hi. destruct (fn i) as [e|] eqn:E1; [|done].
  assert (e ∈ batch_errors fn from n) as Hin by (apply elem_of_omap_seqZ; eauto).
  rewrite H in Hin. by apply not_elem_of_nil in Hin.
Qed.

Lemma batch_errors_count fn from n :
  0 <= n -> len (batch_errors fn from n) + countb (ok_call fn) (indexes from n) = n.
Proof.
  intros Hn. unfold batch_errors, indexes.
  assert (forall l : list Z, len (omap fn l) + countb (ok_call fn) l = len l) as Hl.
  { intros l. induction l as [|i l IH]; cbn [omap list_omap countb length]; [done|].
    unfold ok_call at 1. destruct (fn i); cbn [length]; lia. }
  rewrite Hl, length_seqZ. lia.
Qed.

Lemma countb_all_ok fn from n :
  0 <= n -> (forall i, from <= i < from + n -> fn i = None) ->
  countb (ok_call fn) (indexes from n) = n.
Proof.
  intros Hn Hok. pose proof (batch_errors_count fn from n Hn) as Hc.
  assert (batch_errors fn from n = []) as Hnil.
  { destruct (batch_errors fn from n) as [|e l] eqn:E1; [done|].
    assert (e ∈ batch_errors fn from n) as Hin by (rewrite E1; left).
    apply elem_of_omap_seqZ in Hin as (i & Hi & He). rewrite Hok in He; done. }
  rewrite Hnil in Hc. simpl in Hc. lia.
Qed.

Lemma indexes_app from n m :
  0 <= n -> 0 <= m -> indexes from (n + m) = indexes from n ++ indexes (from + n) m.
Proof. intros. unfold indexes. by rewrite seqZ_app by lia. Qed.

(** What one run of the loop establishes. *)
Definition loop_post (count init : Z) (fn : Z -> option E) (r : Z * list E * Z) : Prop :=
  let '(successes, errs, calls) := r in
  0 <= calls <= count /\
  successes = countb (ok_call fn) (indexes 0 calls) /\
  (errs = [] -> calls = count /\ successes = count) /\
  (errs <> [] -> exists start, 0 <= start < calls /\ calls <= 2 * start + init /\
     (forall i, 0 <= i < start -> fn i = None) /\
     errs = batch_errors fn start (calls - start)).

Lemma slow_start_loop_post count init fn : 0 < init ->
  forall fuel remaining successes index batchSize,
  loop_inv count init fn remaining successes index batchSize ->
  (Z.to_nat remaining < fuel)%nat ->
  loop_post count init fn (slow_start_loop fuel fn remaining successes index batchSize).
Proof.
  intros Hi. induction fuel as [|fuel IH]; intros rem suc idx b Hinv Hf; [lia|].
  destruct Hinv as (H0 & Hrc & Hr & -> & Hok & Hbr & Hbi & Hpos). simpl.
  destruct (0 <? b) eqn:Eb; zbool.
  - destruct (batch_errors fn idx b) as [|e errs] eqn:Ee.
    + apply IH; [|lia]. simpl. unfold loop_inv. repeat split; try lia.
      intros i Hi'. destruct (decide (i < idx)); [apply Hok; lia|].
      eapply batch_errors_nil; [exact Ee|lia].
    + pose proof (batch_errors_count fn idx b ltac:(lia)) as Hc. rewrite Ee in Hc.
      split; [lia|]. split.
      { rewrite (indexes_app 0 idx b) by lia. rewrite countb_app.
        rewrite (countb_all_ok fn 0 idx) by (try lia; intros; apply Hok; lia).
        rewrite Z.add_0_l. lia. }
      split; [done|]. intros _. exists idx. repeat split; try lia; [intros; apply Hok; lia|].
      replace (idx + b - idx) with b by lia. by rewrite Ee.
  - assert (rem = 0) by lia. subst rem. split; [lia|].
    rewrite (countb_all_ok fn 0 idx) by (try lia; intros; apply Hok; lia).
    repeat split; [lia|lia|]. intros H; done.
Qed.

Lemma slow_start_init count init fn :
  0 <= count -> 0 < init -> loop_inv count init fn count 0 0 (Z.min count init).
Proof. intros. unfold loop_inv. repeat split; lia. Qed.

Lemma SlowStartBatch_post count init fn :
  0 <= count -> 0 < init -> loop_post count init fn (SlowStartBatch count init fn).
Proof.
  intros. unfold SlowStartBatch. apply slow_start_loop_post; [done| |lia].
  by apply slow_start_init.
Qed.

(** SlowStartBatch makes its calls in index order, stops after the first
    batch with an error, and counts right: the successes are the calls that
    succeeded among those made; without an error every one of the [count]
    calls is made and succeeds; with one, every call before the failing batch
    succeeded, the errors are those of that batch, and the batch is no larger
    than the calls before it plus the initial batch, so that a fault common
    to all calls costs at most the initial batch.  The loop ends within the
    rounds given to it. *)
Theorem slow_start_batch count init fn :
  0 <= count -> 0 < init ->
  let '(successes, errs, calls) := SlowStartBatch count init fn in
  0 <= calls <= count
  /\ successes = countb (ok_call fn) (indexes 0 calls)
  /\ (errs = [] -> calls = count /\ successes = count)
  /\ (errs <> [] -> exists start, 0 <= start < calls /\ calls - start <= start + init
       /\ (forall i, 0 <= i < start -> fn i = None)
       /\ errs = batch_errors fn start (calls - start)).
Proof.
  intros Hc Hi. pose proof (SlowStartBatch_post count init fn Hc Hi) as H.
  destruct (SlowStartBatch count init fn) as [[successes errs] calls].
  destruct H as (H1 & H2 & H3 & H4). split_and!; [lia|lia|done|done|].
  intros He. destruct (H4 He) as (start & Hs & Hb & Hok & Hr).
  exists start. split_and!; [lia|lia|lia|done|done].
Qed.

End Run.

(** Five calls of which the fourth fails: batches of 1, 2 and 2. *)
Definition fail_at (k i : Z) : option string := if i =? k then Some "boom"%string else None.

Lemma slow_start_batch_witness :
  SlowStartBatch 5 1 (fail_at 3) = (4, ["boom"%string], 5)
  /\ let '(successes, errs, calls) := SlowStartBatch 5 1 (fail_at 3) in
     0 <= calls <= 5
     /\ successes = countb (ok_call (fail_at 3)) (indexes 0 calls)
     /\ (errs = [] -> calls = 5 /\ successes = 5)
     /\ (errs <> [] -> exists start, 0 <= start < calls /\ calls - start <= start + 1
          /\ (forall i, 0 <= i < start -> fail_at 3 i = None)
          /\ errs = batch_errors (fail_at 3) start (calls - start)).
Proof. split; [vm_compute; reflexivity|]. apply (slow_start_batch 5 1 (fail_at 3)); lia. Defined.

End Batch.

(** ** Numbers *)

Module Num.

(** [int(math.Abs(float64(i)))]. *)
Definition IntAbs (i : Z) : Z := fp_to_int (fp_abs (fp_of_int binary64 i)).

Definition IsIntPlusAndMinus (i j : Z) : bool :=
  ((i <? 0) && (0 <? j)) || ((0 <? i) && (j <? 0)).

(** [None] is an error, on which Go returns 0. *)
Definition GetScaledValueFromIntOrPercent
  (x : option IntOrString) (total : Z) (roundUp : bool) : option Z :=
  match x with
  | None => None
  | Some (FromInt v) => Some v
  | Some (FromString s) =>
      if HasSuffix s "%" then
        match ParseFloat (TrimSuffix s "%") with
        | None => None
        | Some v =>
            let q := fp_div binary64 (fp_mul binary64 v (fp_of_int binary64 total))
                       (fp_of_int binary64 100) in
            Some (fp_to_int (if roundUp then fp_ceil q else fp_floor q))
        end
      else None
  end.

Definition CalculatePartitionReplicas
  (partition : option IntOrString) (replicasPointer : option Z) : option Z :=
  match partition with
  | None => Some 0
  | Some part =>
      let replicas := default 1 replicasPointer in
      match GetScaledValueFromIntOrPercent partition replicas true with
      | None => None
      | Some pValue =>
          let pValue :=
            match part with
            | FromString s =>
                if (1 <? replicas) && (pValue =? replicas) && negb (String.eqb s "100%")
                then replicas - 1 else pValue
            | FromInt _ => pValue
            end in
          Some (Z.max (Z.min pValue replicas) 0)
      end
  end.

Lemma IntAbs_exact i : - 2 ^ 53 < i < 2 ^ 53 -> IntAbs i = Z.abs i.
Proof. apply f64_abs_exact. Qed.

Lemma IntAbs_small i : - 2 ^ 40 <= i <= 2 ^ 40 -> IntAbs i = Z.abs i.
Proof. intros. apply IntAbs_exact. lia. Qed.

(** The decimal string of an integer percentage below 1000. *)
Definition percent (p : Z) : string :=
  of_chars ((if 100 <=? p then [digit_char (p / 100)] else [])
            ++ (if 10 <=? p then [digit_char (p / 10 mod 10)] else [])
            ++ [digit_char (p mod 10); "%"%char]).

(** Parsing an integer percentage gives that integer. *)
Definition percent_parses (p : Z) : bool :=
  HasSuffix (percent p) "%" &&
  match ParseFloat (TrimSuffix (percent p) "%") with
  | Some (FFin n k) => (n =? p * 2 ^ k) && (0 <=? k)
  | _ => false
  end.

Lemma percent_parses_all : forallb percent_parses (seqZ 0 101) = true.
Proof. vm_compute. reflexivity. Qed.

Lemma percent_parse p : 0 <= p <= 100 ->
  HasSuffix (percent p) "%" = true /\
  exists v, ParseFloat (TrimSuffix (percent p) "%") = Some v /\ fp_is_int v p.
Proof.
  intros Hp. assert (percent_parses p = true) as H.
  { pose proof percent_parses_all as Hall. rewrite forallb_forall in Hall.
    apply Hall. rewrite <-list_elem_of_In, elem_of_seqZ. lia. }
  unfold percent_parses in H. apply andb_true_iff in H as [-> H]. split; [done|].
  destruct (ParseFloat _) as [[| |n k]|]; try done. zbool. subst n.
  eexists. split; [done|]. exists k. auto.
Qed.

(** [util.GetScaledValueFromIntOrPercent] on an integer percentage is the
    exact ceiling or floor, although it is computed in floating point. *)
Lemma scaled_percent p total up :
  0 <= p <= 100 -> 0 <= total < 2 ^ 31 ->
  GetScaledValueFromIntOrPercent (Some (FromString (percent p))) total up
  = Some (if up then (p * total + 99) / 100 else p * total / 100).
Proof.
  intros Hp Ht. destruct (percent_parse p Hp) as (Hs & v & Hv & Hvp).
  unfold GetScaledValueFromIntOrPercent. rewrite Hs, Hv. f_equal.
  assert (fp_mul binary64 v (fp_of_int binary64 total)
    = fp_mul binary64 (fp_of_int binary64 p) (fp_of_int binary64 total)) as ->.
  { destruct (fp_of_int_exact p ltac:(lia)) as (k & Hk & ->).
    destruct (fp_of_int_exact total ltac:(lia)) as (k' & Hk' & ->).
    destruct Hvp as (k2 & Hk2 & ->). unfold fp_mul.
    replace (p * 2 ^ k2 * (total * 2 ^ k')) with (p * total * 2 ^ (k2 + k'))
      by (rewrite Z.pow_add_r by lia; ring).
    replace (p * 2 ^ k * (total * 2 ^ k')) with (p * total * 2 ^ (k + k'))
      by (rewrite Z.pow_add_r by lia; ring).
    rewrite <-(Z.mul_1_l (2 ^ (k2 + k'))) at 2. rewrite <-(Z.mul_1_l (2 ^ (k + k'))) at 2.
    rewrite !round_rat_scale by lia. done. }
  destruct up.
  - change (f64_pct_up p total = (p * total + 99) / 100). apply f64_pct_up_exact; nia.
  - change (f64_pct_down p total = p * total / 100). apply f64_pct_down_exact; nia.
Qed.

Lemma CalculatePartitionReplicas_range part replicas v :
  0 <= replicas -> CalculatePartitionReplicas part (Some replicas) = Some v -> 0 <= v <= replicas.
Proof.
  intros Hr. unfold CalculatePartitionReplicas. destruct part as [x|]; [|intros [= <-]; lia].
  destruct (GetScaledValueFromIntOrPercent _ _ _); [|done]. simpl.
  intros [= <-]. lia.
Qed.

Lemma percent_100 : percent 100 = "100%"%string.
Proof. vm_compute. reflexivity. Qed.

Lemma percent_not_100 p : 0 <= p < 100 -> String.eqb (percent p) "100%" = false.
Proof.
  intros Hp.
  assert (Hall : forallb (fun p => negb (String.eqb (percent p) "100%")) (seqZ 0 100) = true)
    by (vm_compute; reflexivity).
  rewrite forallb_forall in Hall. apply negb_true_iff, Hall.
  rewrite <-list_elem_of_In, elem_of_seqZ. lia.
Qed.

(** The number of pods a partition keeps at the old revision is exact: an
    integer is clamped between none and all; a percentage below 100% is rounded
    up, but with more than one replica at least one pod is always updated; 100%
    keeps every pod.  The detour through float64 loses nothing. *)
Theorem partition_replicas_exact replicas :
  0 <= replicas < 2 ^ 31 ->
  (forall v, CalculatePartitionReplicas (Some (FromInt v)) (Some replicas)
             = Some (Z.max (Z.min v replicas) 0))
  /\ (forall p, 0 <= p < 100 -> 1 < replicas ->
        CalculatePartitionReplicas (Some (FromString (percent p))) (Some replicas)
        = Some (Z.min ((p * replicas + 99) / 100) (replicas - 1)))
  /\ CalculatePartitionReplicas (Some (FromString "100%")) (Some replicas) = Some replicas.
Proof.
  intros Hr. split_and!; [done| |].
  - intros p Hp H1. unfold CalculatePartitionReplicas.
    change (default 1 (Some replicas)) with replicas.
    rewrite scaled_percent by lia. cbv zeta iota beta. rewrite percent_not_100 by lia.
    pose proof (Z.div_mod (p * replicas + 99) 100 ltac:(lia)).
    pose proof (Z.mod_pos_bound (p * replicas + 99) 100).
    set (c := (p * replicas + 99) / 100) in *.
    assert (0 <= c <= replicas) by nia.
    destruct (Z.ltb_spec 1 replicas), (Z.eqb_spec c replicas); simpl; f_equal; lia.
  - unfold CalculatePartitionReplicas. change (default 1 (Some replicas)) with replicas.
    rewrite <-percent_100. rewrite (scaled_percent 100) by lia.
    cbv zeta iota beta. rewrite percent_100, String.eqb_refl, andb_false_r.
    replace (100 * replicas + 99) with (replicas * 100 + 99) by lia.
    rewrite Z.div_add_l by lia. change (99 / 100) with 0. f_equal. lia.
Qed.

Lemma partition_replicas_exact_witness :
  CalculatePartitionReplicas (Some (FromString (percent 95))) (Some 10) = Some 9.
Proof.
  destruct (partition_replicas_exact 10 ltac:(lia)) as (_ & H & _).
  rewrite (H 95) by lia. reflexivity.
Defined.

End Num.

(** ** Lists of names and of pods *)

Module PodsUtil.

(** [CheckDuplicate]: every occurrence after the first one, in order. *)
Fixpoint dup_loop (seen : gset string) (l : list string) : list string :=
  match l with
  | [] => []
  | n :: l' =>
      if bool_decide (n ∈ seen) then n :: dup_loop seen l'
      else dup_loop ({[n]} ∪ seen) l'
  end.
Definition CheckDuplicate (l : list string) : list string := dup_loop ∅ l.

Definition GetPodNames (pods : list Pod) : gset string := list_to_set (map p_name pods).

(** One loop of [MergePods]. *)
Fixpoint merge_loop (names : gset string) (ret pods : list Pod) : gset string * list Pod :=
  match pods with
  | [] => (names, ret)
  | p :: pods' =>
      if negb (bool_decide (p_name p ∈ names))
      then merge_loop ({[p_name p]} ∪ names) (ret ++ [p]) pods'
      else merge_loop names ret pods'
  end.
Definition MergePods (pods1 pods2 : list Pod) : list Pod :=
  let '(names, ret) := merge_loop ∅ [] pods1 in
  (merge_loop names ret pods2).2.

Definition DiffPods (pods1 pods2 : list Pod) : list Pod :=
  filterb (fun p => negb (bool_decide (p_name p ∈ GetPodNames pods2))) pods1.

Definition GetCondition (p : Pod) (t : string) : option PodCondition :=
  find_condition (p_conditions p) t.

(** The loop of [SetPodCondition]: [None] when no condition has the type. *)
Fixpoint replace_condition (changed : PodCondition -> PodCondition -> bool)
  (cs : list PodCondition) (c : PodCondition) : option (list PodCondition) :=
  match cs with
  | [] => None
  | d :: cs' =>
      if String.eqb (c_type d) (c_type c)
      then Some (if changed d c then c :: cs' else d :: cs')
      else match replace_condition changed cs' c with
           | Some r => Some (d :: r)
           | None => None
           end
  end.

Definition status_differs (d c : PodCondition) : bool :=
  negb (String.eqb (c_status d) (c_status c)).
Definition status_or_message_differs (d c : PodCondition) : bool :=
  status_differs d c || negb (String.eqb (c_message d) (c_message c)).

Definition set_condition_when (changed : PodCondition -> PodCondition -> bool)
  (p : Pod) (c : PodCondition) : Pod :=
  match replace_condition changed (p_conditions p) c with
  | Some cs => with_conditions p cs
  | None => with_conditions p (p_conditions p ++ [c])
  end.

Definition SetPodCondition (p : Pod) (c : PodCondition) : Pod :=
  set_condition_when status_differs p c.
Definition SetPodConditionIfMsgChanged (p : Pod) (c : PodCondition) : Pod :=
  set_condition_when status_or_message_differs p c.

Definition containsReadinessGate (p : Pod) (t : string) : bool :=
  existsb (fun g => String.eqb g t) (p_gates p).

(** The messages [SetPodReadyCondition] collects, one per readiness gate that
    is missing or not ["True"]; [quote] is the ["%q"] of [fmt]. *)
Definition unready_message (quote : string -> string) (p : Pod) (gate : string) : option string :=
  match GetCondition p gate with
  | None =>
      Some ("corresponding condition of pod readiness gate " +:+ quote gate +:+ " does not exist.")
  | Some c =>
      if negb (String.eqb (c_status c) ConditionTrue)
      then Some ("the status of pod readiness gate " +:+ quote gate +:+ " is not "
                 +:+ quote "True" +:+ ", but " +:+ c_status c)
      else None
  end.

(** [strings.Join]. *)
Fixpoint Join (l : list string) (sep : string) : string :=
  match l with
  | [] => ""
  | [x] => x
  | x :: l' => x +:+ sep +:+ Join l' sep
  end.

Definition SetPodReadyCondition (quote : string -> string) (now : Z) (p : Pod) : Pod :=
  match GetCondition p PodReady with
  | None => p
  | Some _ =>
      match GetCondition p ContainersReady with
      | None => p
      | Some cr =>
          if negb (String.eqb (c_status cr) ConditionTrue) then p
          else
            let unreadyMessages := omap (unready_message quote p) (p_gates p) in
            let newPodReady :=
              match unreadyMessages with
              | [] => mkCond PodReady ConditionTrue now "" ""
              | _ => mkCond PodReady ConditionFalse 0 "ReadinessGatesNotReady" (Join unreadyMessages ", ")
              end in
            SetPodCondition p newPodReady
      end
  end.

Definition IsRunningAndReady (p : Pod) : bool :=
  String.eqb (p_phase p) PodRunning && IsPodReady p
  && match p_deletion p with None => true | Some t => t =? 0 end.

Fixpoint find_cstatus (name : string) (l : list ContainerStatus) : option ContainerStatus :=
  match l with
  | [] => None
  | c :: l' => if String.eqb (cs_name c) name then Some c else find_cstatus name l'
  end.
Definition GetContainerStatus (name : string) (p : Pod) : option ContainerStatus :=
  find_cstatus name (p_cstatuses p).

Fixpoint find_env (key : string) (l : list EnvVar) : string :=
  match l with
  | [] => ""
  | e :: l' => if String.eqb (env_name e) key then env_value e else find_env key l'
  end.
Definition GetContainerEnvValue (c : Container) (key : string) : string := find_env key (ctr_env c).

(** *** Lemmas *)

Lemma dup_loop_spec l seen : dup_loop seen l = [] <->
  NoDup l /\ (forall n, n ∈ l -> n ∉ seen).
Proof.
  revert seen. induction l as [|n l IH]; intros seen; simpl.
  - split; [intros _; split; [constructor|intros n Hn; by apply not_elem_of_nil in Hn]|done].
  - case_bool_decide as Hs.
    + split; [done|]. intros [_ H]. exfalso. apply (H n); [left|done].
    + rewrite IH, NoDup_cons. split.
      * intros [Hnd H]. split; [split; [|done]|].
        -- intros Hn. specialize (H n Hn). set_solver.
        -- intros m Hm. apply elem_of_cons in Hm as [->|Hm]; [done|].
           specialize (H m Hm). set_solver.
      * intros [[Hn Hnd] H]. split; [done|]. intros m Hm.
        assert (m <> n) by (intros ->; done).
        specialize (H m (list_elem_of_further _ _ _ Hm)). set_solver.
Qed.

Lemma elem_of_GetPodNames n pods : n ∈ GetPodNames pods <-> exists p, p ∈ pods /\ p_name p = n.
Proof.
  unfold GetPodNames. rewrite elem_of_list_to_set, list_elem_of_fmap.
  split; intros (p & H1 & H2); eauto.
Qed.

Lemma DiffPods_elem p pods1 pods2 :
  p ∈ DiffPods pods1 pods2 <-> p ∈ pods1 /\ forall q, q ∈ pods2 -> p_name q <> p_name p.
Proof.
  unfold DiffPods. rewrite filterb_elem, negb_true_iff, bool_decide_eq_false, elem_of_GetPodNames.
  split; (intros [H1 H2]; split; [done|]).
  - intros q Hq E. apply H2. eauto.
  - intros (q & Hq & E). by apply (H2 q).
Qed.

Lemma replace_condition_None ch cs c :
  replace_condition ch cs c = None <-> find_condition cs (c_type c) = None.
Proof.
  induction cs as [|d cs IH]; simpl; [done|].
  destruct (String.eqb (c_type d) (c_type c)); [done|].
  destruct (replace_condition ch cs c); split; intros H; try done; [|by apply IH].
  by apply IH in H.
Qed.

Lemma replace_condition_find ch cs c r :
  replace_condition ch cs c = Some r ->
  exists d, find_condition cs (c_type c) = Some d /\
    find_condition r (c_type c) = Some (if ch d c then c else d).
Proof.
  revert r. induction cs as [|d cs IH]; simpl; intros r H; [done|].
  destruct (String.eqb (c_type d) (c_type c)) eqn:E.
  - injection H as <-. exists d. split; [done|].
    destruct (ch d c); simpl; [by rewrite String.eqb_refl|by rewrite E].
  - destruct (replace_condition ch cs c) as [r'|]; [|done]. injection H as <-.
    simpl. rewrite E. by apply IH.
Qed.

Lemma replace_condition_other ch cs c r t :
  t <> c_type c -> replace_condition ch cs c = Some r ->
  find_condition r t = find_condition cs t.
Proof.
  intros Ht. revert r. induction cs as [|d cs IH]; simpl; intros r H; [done|].
  destruct (String.eqb_spec (c_type d) (c_type c)) as [E|E].
  - injection H as <-. destruct (ch d c); simpl; [|done].
    replace (String.eqb (c_type c) t) with false by (symmetry; by apply String.eqb_neq).
    replace (String.eqb (c_type d) t) with false; [done|].
    symmetry. apply String.eqb_neq. congruence.
  - destruct (replace_condition ch cs c) as [r'|]; [|done]. injection H as <-.
    simpl. destruct (String.eqb (c_type d) t); [done|]. by apply IH.
Qed.

Lemma find_condition_app cs c t :
  find_condition (cs ++ [c]) t
  = match find_condition cs t with
    | Some d => Some d
    | None => if String.eqb (c_type c) t then Some c else None
    end.
Proof. induction cs as [|d cs IH]; simpl; [done|]. by destruct (String.eqb (c_type d) t). Qed.

(** The condition of the given type afterwards, and that no other changes. *)
Lemma set_condition_when_get ch p c :
  GetCondition (set_condition_when ch p c) (c_type c)
  = Some (match GetCondition p (c_type c) with
          | Some d => if ch d c then c else d
          | None => c
          end).
Proof.
  unfold set_condition_when, GetCondition.
  destruct (replace_condition ch (p_conditions p) c) as [r|] eqn:E; simpl.
  - apply replace_condition_find in E as (d & -> & ->). done.
  - rewrite find_condition_app. apply replace_condition_None in E. rewrite E.
    by rewrite String.eqb_refl.
Qed.

Lemma set_condition_when_other ch p c t :
  t <> c_type c -> GetCondition (set_condition_when ch p c) t = GetCondition p t.
Proof.
  intros Ht. unfold set_condition_when, GetCondition.
  destruct (replace_condition ch (p_conditions p) c) as [r|] eqn:E; simpl.
  - by eapply replace_condition_other.
  - rewrite find_condition_app. destruct (find_condition _ t); [done|].
    replace (String.eqb (c_type c) t) with false; [done|]. symmetry. by apply String.eqb_neq.
Qed.

Lemma SetPodReadyCondition_gates quote now p :
  p_gates (SetPodReadyCondition quote now p) = p_gates p.
Proof.
  unfold SetPodReadyCondition, SetPodCondition, set_condition_when.
  repeat case_match; done.
Qed.

End PodsUtil.
