(* ===== verification/Expectations.v ===== *)
(** * pkg/util/expectations and pkg/util/requeueduration

    The caches a controller consults before acting on an informer cache that may
    lag behind its own writes: pod creations and deletions ([Scale]), pod
    updates of a revision ([Update]) and resource versions ([RV]); and the store
    of the shortest requeue duration ([Requeue]).  Each operation runs under the
    mutex of its store, so an execution is a sequence of operations.  The clock
    is an argument; [0] is the zero [time.Time]. *)

From S2P Require Import Prelude GoLib GoText K8s.
Open Scope Z_scope.
Open Scope kruise_scope.

(** ** scale_expectations.go *)
Module Scale.

Definition Create : string := "create".
Definition Delete : string := "delete".

Record ControllerExpectations := mkCE {
  objsCache : gmap string (gset string);
  firstUnsatisfiedTimestamp : Z;
}.

(** [controllerCache], by controller key. *)
Abbreviation Store := (gmap string ControllerExpectations).

Definition NewScaleExpectations : Store := ∅.

Definition GetExpectations (r : Store) (controllerKey : string) : option (gmap string (gset string)) :=
  match r !! controllerKey with
  | None => None
  | Some e => Some (objsCache e)
  end.

Definition ExpectScale (r : Store) (controllerKey action name : string) : Store :=
  let e := default (mkCE ∅ 0) (r !! controllerKey) in
  let objs :=
    match objsCache e !! action with
    | Some s => <[action := {[name]} ∪ s]> (objsCache e)
    | None => <[action := {[name]}]> (objsCache e)
    end in
  <[controllerKey := mkCE objs (firstUnsatisfiedTimestamp e)]> r.

Definition nonempty (s : gset string) : bool := negb (bool_decide (s = ∅)).
Definition any_nonempty (objs : gmap string (gset string)) : bool :=
  existsb (fun kv => nonempty kv.2) (map_to_list objs).

Definition ObserveScale (r : Store) (controllerKey action name : string) : Store :=
  match r !! controllerKey with
  | None => r
  | Some e =>
      match objsCache e !! action with
      | None => r
      | Some s =>
          let objs := <[action := s ∖ {[name]}]> (objsCache e) in
          if any_nonempty objs
          then <[controllerKey := mkCE objs (firstUnsatisfiedTimestamp e)]> r
          else delete controllerKey r
      end
  end.

(** The result carries one non-empty set of names; Go takes the first one
    that the iteration over the map meets. *)
Definition SatisfiedExpectations (r : Store) (controllerKey : string) (now : Z)
  : (bool * Z * option (string * gset string)) * Store :=
  match r !! controllerKey with
  | None => ((true, 0, None), r)
  | Some e =>
      match find (fun kv => nonempty kv.2) (map_to_list (objsCache e)) with
      | Some kv =>
          let first := if firstUnsatisfiedTimestamp e =? 0 then now
                       else firstUnsatisfiedTimestamp e in
          ((false, now - first, Some kv), <[controllerKey := mkCE (objsCache e) first]> r)
      | None => ((true, 0, None), delete controllerKey r)
      end
  end.

Definition DeleteExpectations (r : Store) (controllerKey : string) : Store :=
  delete controllerKey r.

(** *** Specification: a set of pending (key, action, name) triples *)

(** The names a controller still waits for. *)
Definition pending (r : Store) (k a : string) : gset string :=
  match r !! k with
  | None => ∅
  | Some e => default ∅ (objsCache e !! a)
  end.

Inductive op :=
| OpExpect (k a n : string)
| OpObserve (k a n : string)
| OpSatisfied (k : string) (now : Z)
| OpDelete (k : string).

Definition step (r : Store) (o : op) : Store :=
  match o with
  | OpExpect k a n => ExpectScale r k a n
  | OpObserve k a n => ObserveScale r k a n
  | OpSatisfied k now => (SatisfiedExpectations r k now).2
  | OpDelete k => DeleteExpectations r k
  end.

Abbreviation Spec := (gset (string * string * string)).

Definition spec_step (s : Spec) (o : op) : Spec :=
  match o with
  | OpExpect k a n => {[(k, a, n)]} ∪ s
  | OpObserve k a n => s ∖ {[(k, a, n)]}
  | OpSatisfied _ _ => s
  | OpDelete k => filter (fun t => t.1.1 <> k) s
  end.

(** The refinement relation. *)
Definition refines (r : Store) (s : Spec) : Prop :=
  forall k a n, (k, a, n) ∈ s <-> n ∈ pending r k a.

Lemma any_nonempty_false objs :
  any_nonempty objs = false <-> forall a s, objs !! a = Some s -> s = ∅.
Proof.
  unfold any_nonempty. rewrite <-not_true_iff_false, existsb_exists. split.
  - intros H a s Ha. destruct (decide (s = ∅)); [done|]. exfalso. apply H.
    exists (a, s). rewrite <-list_elem_of_In, elem_of_map_to_list. split; [done|].
    unfold nonempty. simpl. by rewrite bool_decide_eq_false_2.
  - intros H ([a s] & Hin & Hne). rewrite <-list_elem_of_In, elem_of_map_to_list in Hin.
    unfold nonempty in Hne. simpl in *. rewrite (H _ _ Hin) in Hne.
    by rewrite bool_decide_eq_true_2 in Hne.
Qed.

Lemma find_nonempty_None objs :
  find (fun kv => nonempty kv.2) (map_to_list objs) = None <-> any_nonempty objs = false.
Proof.
  unfold any_nonempty. induction (map_to_list objs) as [|kv l IH]; simpl; [done|].
  destruct (nonempty kv.2); [done|]. apply IH.
Qed.

Lemma find_nonempty_Some (objs : gmap string (gset string)) a s :
  find (fun kv => nonempty kv.2) (map_to_list objs) = Some (a, s) ->
  objs !! a = Some s /\ s <> ∅.
Proof.
  intros H. apply find_some in H as [Hin Hne].
  rewrite <-list_elem_of_In, elem_of_map_to_list in Hin. split; [done|].
  unfold nonempty in Hne. simpl in Hne. apply negb_true_iff, bool_decide_eq_false in Hne. done.
Qed.

Lemma pending_ExpectScale r k a n k' a' :
  pending (ExpectScale r k a n) k' a'
  = if bool_decide (k = k' /\ a = a') then {[n]} ∪ pending r k' a' else pending r k' a'.
Proof.
  unfold ExpectScale, pending. rewrite lookup_insert.
  destruct (decide (k = k')) as [<-|Hk]; simpl.
  - destruct (r !! k) as [e|]; simpl.
    + destruct (objsCache e !! a) as [s|] eqn:Ea; rewrite lookup_insert;
        destruct (decide (a = a')) as [<-|]; case_bool_decide; try naive_solver.
      * by rewrite Ea.
      * rewrite Ea. simpl. set_solver.
    + rewrite lookup_empty, lookup_insert.
      destruct (decide (a = a')) as [<-|]; case_bool_decide; simpl; try naive_solver. set_solver.
  - rewrite bool_decide_eq_false_2; [done|]. naive_solver.
Qed.

Lemma pending_ObserveScale r k a n k' a' :
  pending (ObserveScale r k a n) k' a'
  = if bool_decide (k = k' /\ a = a') then pending r k' a' ∖ {[n]} else pending r k' a'.
Proof.
  unfold ObserveScale, pending. destruct (r !! k) as [e|] eqn:Ek.
  2:{ case_bool_decide as Hc; [|done]. destruct Hc as [<- <-]. rewrite Ek. set_solver. }
  destruct (objsCache e !! a) as [s|] eqn:Ea.
  2:{ case_bool_decide as Hc; [|done]. destruct Hc as [<- <-]. rewrite Ek, Ea. simpl. set_solver. }
  destruct (any_nonempty _) eqn:En.
  - rewrite lookup_insert. destruct (decide (k = k')) as [<-|Hk]; simpl.
    + rewrite Ek, lookup_insert. destruct (decide (a = a')) as [<-|Ha].
      * rewrite bool_decide_eq_true_2 by done. by rewrite Ea.
      * rewrite bool_decide_eq_false_2 by naive_solver. done.
    + rewrite bool_decide_eq_false_2 by naive_solver. done.
  - rewrite any_nonempty_false in En. rewrite lookup_delete.
    destruct (decide (k = k')) as [<-|Hk].
    + rewrite Ek. case_bool_decide as Hc.
      * destruct Hc as [_ <-]. rewrite Ea. simpl.
        by rewrite (En a (s ∖ {[n]})) by apply lookup_insert_eq.
      * destruct (objsCache e !! a') as [s'|] eqn:Ea'; [|done]. simpl.
        rewrite (En a' s'); [done|]. rewrite lookup_insert_ne; [done|]. naive_solver.
    + rewrite bool_decide_eq_false_2 by naive_solver. done.
Qed.

Lemma pending_Satisfied r k now k' a' :
  pending (SatisfiedExpectations r k now).2 k' a' = pending r k' a'.
Proof.
  unfold SatisfiedExpectations, pending. destruct (r !! k) as [e|] eqn:Ek; [|done].
  destruct (find _ _) as [kv|] eqn:Ef; simpl.
  - rewrite lookup_insert. destruct (decide (k = k')) as [<-|]; [by rewrite Ek|done].
  - apply find_nonempty_None in Ef. rewrite any_nonempty_false in Ef.
    rewrite lookup_delete. destruct (decide (k = k')) as [<-|]; [|done].
    rewrite Ek. destruct (objsCache e !! a') as [s|] eqn:Ea; [|done].
    simpl. by rewrite (Ef a' s).
Qed.

Lemma refines_step r s o : refines r s -> refines (step r o) (spec_step s o).
Proof.
  intros HR k' a' n'. pose proof (HR k' a' n') as E.
  destruct o as [k a n|k a n|k now|k]; simpl.
  - rewrite pending_ExpectScale. case_bool_decide as Hc.
    + destruct Hc as [-> ->]. set_solver.
    + rewrite elem_of_union, elem_of_singleton, E. split; [|by right].
      intros [[= -> -> ->]|?]; [|done]. by destruct Hc.
  - rewrite pending_ObserveScale. case_bool_decide as Hc.
    + destruct Hc as [-> ->]. set_solver.
    + rewrite elem_of_difference, elem_of_singleton, E. split; [by intros [? _]|].
      intros ?. split; [done|]. intros [= -> -> ->]. by destruct Hc.
  - rewrite pending_Satisfied. apply HR.
  - rewrite elem_of_filter, E. unfold DeleteExpectations, pending. rewrite lookup_delete.
    destruct (decide (k = k')) as [<-|]; simpl; [|split; [by intros [_ ?]|by auto]].
    split; [by intros [? _]|]. intros H. by apply elem_of_empty in H.
Qed.

Lemma refines_run ops r s :
  refines r s -> refines (fold_left step ops r) (fold_left spec_step ops s).
Proof. revert r s. induction ops as [|o ops IH]; intros r s H; [done|]. by apply IH, refines_step. Qed.

Lemma refines_empty : refines NewScaleExpectations ∅.
Proof. intros k a n. unfold pending, NewScaleExpectations. rewrite lookup_empty. set_solver. Qed.

(** The answer, on the specification. *)
Lemma SatisfiedExpectations_pending r k now :
  (SatisfiedExpectations r k now).1.1.1 = true <-> forall a, pending r k a = ∅.
Proof.
  unfold SatisfiedExpectations, pending. destruct (r !! k) as [e|] eqn:Ek; [|done].
  destruct (find _ _) as [[a s]|] eqn:Ef; simpl.
  - apply find_nonempty_Some in Ef as [Ha Hs]. split; [done|].
    intros H. specialize (H a). rewrite Ha in H. done.
  - split; [|done]. intros _ a. apply find_nonempty_None in Ef.
    rewrite any_nonempty_false in Ef. destruct (objsCache e !! a) eqn:Ea; [|done].
    simpl. by eapply Ef.
Qed.

(** The time of waiting is not negative, when the clock has not gone back. *)
Lemma SatisfiedExpectations_duration r k now e :
  r !! k = Some e -> firstUnsatisfiedTimestamp e <= now -> 0 <= (SatisfiedExpectations r k now).1.1.2.
Proof.
  intros He Hle. unfold SatisfiedExpectations. rewrite He. destruct (find _ _); cbn; [|lia].
  destruct (firstUnsatisfiedTimestamp e =? 0); lia.
Qed.

(** The scale expectations are a set of pending (controller, action, pod)
    triples: after any sequence of operations on the store, expecting adds a
    triple, observing removes it, deleting a controller's expectations removes
    its triples and asking changes nothing; and a controller is told that its
    expectations are satisfied exactly when no triple of it is pending, however
    the nested maps were emptied and refilled. *)
Theorem scale_expectations_refine ops k now :
  let r := fold_left step ops NewScaleExpectations in
  let s := fold_left spec_step ops ∅ in
  (forall k a n, (k, a, n) ∈ s <-> n ∈ pending r k a)
  /\ ((SatisfiedExpectations r k now).1.1.1 = true <-> forall a n, (k, a, n) ∉ s).
Proof.
  intros r s. assert (HR : refines r s) by (apply refines_run, refines_empty).
  split; [exact HR|]. rewrite SatisfiedExpectations_pending.
  split; intros H a; [intros n; rewrite (HR k a n), (H a); set_solver|].
  apply leibniz_equiv, elem_of_equiv_empty. intros n. rewrite <-(HR k a n). apply H.
Qed.

End Scale.

(** ** update_expectations.go *)
Module Update.

Record ControllerExpectations := mkUE {
  revision : string;
  objsUpdated : gset string;
  firstUnsatisfiedTimestamp : Z;
}.

Abbreviation Store := (gmap string ControllerExpectations).

(** [getKey]. *)
Definition getKey (obj : Pod) : string := p_namespace obj +:+ "/" +:+ p_name obj.

Definition NewUpdateExpectations : Store := ∅.

Definition ExpectUpdated (r : Store) (controllerKey rev : string) (obj : Pod) : Store :=
  let fresh := mkUE rev ∅ 0 in
  let e := match r !! controllerKey with
           | Some e => if negb (String.eqb (revision e) rev) then fresh else e
           | None => fresh
           end in
  <[controllerKey := mkUE (revision e) ({[getKey obj]} ∪ objsUpdated e)
                       (firstUnsatisfiedTimestamp e)]> r.

Section Adapter.
(** The [revisionadapter.Interface] the store is built with. *)
Context (EqualToRevisionHash : string -> Pod -> string -> bool).

Definition ObserveUpdated (r : Store) (controllerKey rev : string) (obj : Pod) : Store :=
  match r !! controllerKey with
  | None => r
  | Some e =>
      let objs :=
        if String.eqb (revision e) rev && bool_decide (getKey obj ∈ objsUpdated e)
           && EqualToRevisionHash controllerKey obj rev
        then objsUpdated e ∖ {[getKey obj]} else objsUpdated e in
      if negb (String.eqb (revision e) rev) || bool_decide (objs = ∅)
      then delete controllerKey r
      else <[controllerKey := mkUE (revision e) objs (firstUnsatisfiedTimestamp e)]> r
  end.
End Adapter.

Definition DeleteObject (r : Store) (controllerKey : string) (obj : Pod) : Store :=
  match r !! controllerKey with
  | None => r
  | Some e =>
      <[controllerKey := mkUE (revision e) (objsUpdated e ∖ {[getKey obj]})
                           (firstUnsatisfiedTimestamp e)]> r
  end.

Definition SatisfiedExpectations (r : Store) (controllerKey rev : string) (now : Z)
  : (bool * Z * gset string) * Store :=
  match r !! controllerKey with
  | None => ((true, 0, ∅), r)
  | Some e =>
      if negb (String.eqb (revision e) rev) then
        ((true, 0, ∅), <[controllerKey := mkUE (revision e) (objsUpdated e) 0]> r)
      else if negb (bool_decide (objsUpdated e = ∅)) then
        let first := if firstUnsatisfiedTimestamp e =? 0 then now
                     else firstUnsatisfiedTimestamp e in
        ((false, now - first, objsUpdated e),
         <[controllerKey := mkUE (revision e) (objsUpdated e) first]> r)
      else ((true, 0, objsUpdated e), <[controllerKey := mkUE (revision e) (objsUpdated e) 0]> r)
  end.

Definition DeleteExpectations (r : Store) (controllerKey : string) : Store :=
  delete controllerKey r.

(** The objects awaited at a revision. *)
Definition waiting (r : Store) (k rev : string) : gset string :=
  match r !! k with
  | Some e => if String.eqb (revision e) rev then objsUpdated e else ∅
  | None => ∅
  end.

Lemma waiting_ExpectUpdated r k rev obj :
  waiting (ExpectUpdated r k rev obj) k rev = {[getKey obj]} ∪ waiting r k rev.
Proof.
  unfold waiting, ExpectUpdated. rewrite lookup_insert_eq.
  destruct (r !! k) as [e|]; simpl; [|rewrite String.eqb_refl; set_solver].
  destruct (String.eqb (revision e) rev) eqn:E; simpl; [by rewrite E|].
  rewrite String.eqb_refl. set_solver.
Qed.

Lemma waiting_ObserveUpdated eqh r k rev obj :
  waiting (ObserveUpdated eqh r k rev obj) k rev
  = if eqh k obj rev then waiting r k rev ∖ {[getKey obj]} else waiting r k rev.
Proof.
  unfold waiting, ObserveUpdated. destruct (r !! k) as [e|] eqn:Ek.
  2:{ rewrite Ek. destruct (eqh k obj rev); set_solver. }
  destruct (String.eqb (revision e) rev) eqn:E; simpl.
  2:{ rewrite lookup_delete_eq. destruct (eqh k obj rev); set_solver. }
  set (objs := if bool_decide _ && _ then _ else _).
  assert (objs = if eqh k obj rev then objsUpdated e ∖ {[getKey obj]} else objsUpdated e) as Hobjs.
  { unfold objs. destruct (eqh k obj rev); [|by rewrite andb_false_r].
    rewrite andb_true_r. case_bool_decide; [done|set_solver]. }
  clearbody objs. case_bool_decide as Hc.
  - rewrite lookup_delete_eq. by rewrite <-Hobjs, Hc.
  - rewrite lookup_insert_eq. simpl. by rewrite E.
Qed.

Lemma waiting_Satisfied r k rev now :
  (SatisfiedExpectations r k rev now).1.1.1 = true <-> waiting r k rev = ∅.
Proof.
  unfold SatisfiedExpectations, waiting. destruct (r !! k) as [e|]; [|done].
  destruct (String.eqb (revision e) rev); simpl; [|done].
  case_bool_decide; simpl; done.
Qed.

(** Asking changes only the time of the first refusal. *)
Lemma waiting_after_Satisfied r k rev now :
  waiting (SatisfiedExpectations r k rev now).2 k rev = waiting r k rev.
Proof.
  unfold SatisfiedExpectations, waiting. destruct (r !! k) as [e|] eqn:Ek; [|simpl; by rewrite Ek].
  destruct (String.eqb (revision e) rev) eqn:Er; simpl; [|by rewrite lookup_insert_eq; simpl; rewrite Er].
  destruct (negb _); simpl; rewrite lookup_insert_eq; simpl; by rewrite Er.
Qed.

End Update.

(** ** resource_version_expectation.go *)
Module RV.

Record objectCacheVersions := mkOV { version : string; firstUnsatisfiedTimestamp : Z }.

(** [objectVersions], by UID. *)
Abbreviation Store := (gmap string objectCacheVersions).

Definition NewResourceVersionExpectation : Store := ∅.

Definition isResourceVersionNewer (old new : string) : bool :=
  if String.eqb old "" then true
  else match conv_ok (ParseUint old 64) with
       | None => true
       | Some oldCount =>
           match conv_ok (ParseUint new 64) with
           | None => false
           | Some newCount => oldCount <=? newCount
           end
       end.

Definition Expect (r : Store) (uid rv : string) : Store :=
  let e := default (mkOV "" 0) (r !! uid) in
  if isResourceVersionNewer (version e) rv
  then <[uid := mkOV rv (firstUnsatisfiedTimestamp e)]> r
  else <[uid := e]> r.

Definition Observe (r : Store) (uid rv : string) : Store :=
  match r !! uid with
  | None => r
  | Some e => if isResourceVersionNewer (version e) rv then delete uid r else r
  end.

Definition IsSatisfied (r : Store) (uid rv : string) (now : Z) : (bool * Z) * Store :=
  match r !! uid with
  | None => ((true, 0), r)
  | Some e =>
      if isResourceVersionNewer (version e) rv then ((true, 0), delete uid r)
      else
        let first := if firstUnsatisfiedTimestamp e =? 0 then now
                     else firstUnsatisfiedTimestamp e in
        ((false, now - first), <[uid := mkOV (version e) first]> r)
  end.

Definition Delete (r : Store) (uid : string) : Store := delete uid r.

(** A resource version as a number. *)
Definition rv_num (s : string) (v : Z) : Prop := ParseUint s 64 = COk v.

Lemma rv_num_nonempty s v : rv_num s v -> String.eqb s "" = false.
Proof. unfold rv_num. destruct s; done. Qed.

Lemma newer_num old new a b : rv_num old a -> rv_num new b ->
  isResourceVersionNewer old new = (a <=? b).
Proof.
  intros Ha Hb. unfold isResourceVersionNewer. rewrite (rv_num_nonempty _ _ Ha).
  unfold rv_num in *. by rewrite Ha, Hb.
Qed.

(** Records a list of writes of one object. *)
Definition expect_all (r : Store) (uid : string) (writes : list string) : Store :=
  fold_left (fun s rv => Expect s uid rv) writes r.

Lemma Expect_version r uid rv e0 v w :
  r !! uid = Some e0 -> rv_num (version e0) v -> rv_num rv w ->
  exists e, Expect r uid rv !! uid = Some e /\ rv_num (version e) (Z.max v w).
Proof.
  intros He0 Hv Hw. unfold Expect. rewrite He0. simpl. rewrite (newer_num _ _ v w) by done.
  destruct (v <=? w) eqn:E; zbool; rewrite lookup_insert_eq; eexists; (split; [done|]); simpl.
  - by rewrite Z.max_r by lia.
  - by rewrite Z.max_l by lia.
Qed.

(** The version that the writes leave in the cache is the largest of them. *)
Lemma expect_all_version writes nums r uid e0 v :
  r !! uid = Some e0 -> rv_num (version e0) v -> Forall2 rv_num writes nums ->
  exists e, expect_all r uid writes !! uid = Some e /\ rv_num (version e) (fold_left Z.max nums v).
Proof.
  intros He Hv Hall. revert r e0 v He Hv.
  induction Hall as [|w n writes nums Hw _ IH]; intros r e0 v He Hv; [by exists e0|].
  destruct (Expect_version r uid w e0 v n He Hv Hw) as (e1 & He1 & Hv1).
  simpl. by apply (IH _ e1).
Qed.

Lemma Expect_fresh r uid rv v :
  r !! uid = None -> rv_num rv v ->
  exists e, Expect r uid rv !! uid = Some e /\ rv_num (version e) v.
Proof.
  intros Hr Hv. unfold Expect. rewrite Hr. simpl. rewrite lookup_insert_eq. eexists. eauto.
Qed.

Lemma IsSatisfied_num r uid rv now e v w :
  r !! uid = Some e -> rv_num (version e) v -> rv_num rv w ->
  (IsSatisfied r uid rv now).1.1 = (v <=? w).
Proof.
  intros He Hv Hw. unfold IsSatisfied. rewrite He, (newer_num _ _ v w) by done.
  by destruct (v <=? w).
Qed.

Lemma fold_max_le nums v m : fold_left Z.max nums v <= m <-> v <= m /\ forall x, x ∈ nums -> x <= m.
Proof.
  revert v. induction nums as [|n nums IH]; intros v; simpl.
  - split; [|tauto]. intros H. split; [done|]. intros x Hx. by apply not_elem_of_nil in Hx.
  - rewrite IH. split.
    + intros [Hv Hall]. split; [lia|]. intros x Hx. apply elem_of_cons in Hx as [->|Hx]; [lia|auto].
    + intros [Hv Hall]. split; [|intros x Hx; apply Hall; by right].
      pose proof (Hall n (list_elem_of_here _ _)). lia.
Qed.

(** A pod of the informer cache is accepted only when it is at least as new
    as every write of it that was recorded, in whatever order the writes were
    recorded: the store keeps the largest resource version, and the check
    compares numbers, not strings. *)
Theorem resource_versions_monotone uid w ws n ns rv m now :
  rv_num w n -> Forall2 rv_num ws ns -> rv_num rv m ->
  (IsSatisfied (expect_all NewResourceVersionExpectation uid (w :: ws)) uid rv now).1.1 = true
  <-> forall x, x ∈ n :: ns -> x <= m.
Proof.
  intros Hw Hws Hrv. unfold expect_all. cbn [fold_left].
  destruct (Expect_fresh NewResourceVersionExpectation uid w n) as (e0 & He0 & Hv0);
    [apply lookup_empty|done|].
  destruct (expect_all_version ws ns _ uid e0 n He0 Hv0 Hws) as (e & He & Hv).
  unfold expect_all in He. rewrite (IsSatisfied_num _ uid rv now e _ m He Hv Hrv).
  rewrite Z.leb_le, fold_max_le. split.
  - intros [? ?] x Hx. apply elem_of_cons in Hx as [->|Hx]; auto.
  - intros H. split; [apply H; left|]. intros x Hx. apply H. by right.
Qed.

Lemma resource_versions_monotone_witness :
  (IsSatisfied (expect_all NewResourceVersionExpectation "u" ["9"; "10"; "7"]%string) "u" "9" 5).1.1 = true
  <-> forall x, x ∈ [9; 10; 7] -> x <= 9.
Proof.
  apply (resource_versions_monotone "u" "9" ["10"; "7"]%string 9 [10; 7] "9" 9 5); repeat constructor.
Defined.

End RV.

(** ** pkg/util/requeueduration *)
Module Requeue.

Record Duration := mkD { duration : Z; message : string }.

(** The zero value that [LoadOrStore] stores. *)
Definition zero : Duration := mkD 0 "".

Definition Update (rd : Duration) (newDuration : Z) : Duration :=
  if 0 <? newDuration then
    if (duration rd <=? 0) || (newDuration <? duration rd)
    then mkD newDuration (message rd) else rd
  else rd.

(** [msg] is the result of [fmt.Sprintf(format, args...)]. *)
Definition UpdateWithMsg (rd : Duration) (newDuration : Z) (msg : string) : Duration :=
  if 0 <? newDuration then
    if (duration rd <=? 0) || (newDuration <? duration rd)
    then mkD newDuration msg else rd
  else rd.

(** [Merge] passes the other message as the format, without arguments. *)
Definition Merge (sprintf : string -> string) (rd rd2 : Duration) : Duration :=
  UpdateWithMsg rd (duration rd2) (sprintf (message rd2)).

Definition Get (rd : Duration) : Z := duration rd.
Definition GetWithMsg (rd : Duration) : Z * string := (duration rd, message rd).

Abbreviation Store := (gmap string Duration).

Definition Push (dm : Store) (key : string) (newDuration : Z) : Store :=
  <[key := Update (default zero (dm !! key)) newDuration]> dm.

Definition Pop (dm : Store) (key : string) : Z * Store :=
  match dm !! key with
  | None => (0, dm)
  | Some rd => (Get rd, delete key dm)
  end.

Definition push_all (dm : Store) (key : string) (ds : list Z) : Store :=
  fold_left (fun s d => Push s key d) ds dm.

(** The smallest positive duration, [0] when there is none. *)
Fixpoint min_pos (best : Z) (ds : list Z) : Z :=
  match ds with
  | [] => best
  | d :: ds' => min_pos (if (0 <? d) && ((best <=? 0) || (d <? best)) then d else best) ds'
  end.

Lemma push_all_get ds dm key :
  duration (default zero (push_all dm key ds !! key))
  = min_pos (duration (default zero (dm !! key))) ds.
Proof.
  revert dm. induction ds as [|d ds IH]; intros dm; simpl; [done|].
  change (push_all (Push dm key d) key ds) with (push_all (Push dm key d) key ds).
  rewrite IH. f_equal. unfold Push. rewrite lookup_insert_eq. simpl. unfold Update.
  destruct (0 <? d); simpl; [|done].
  by destruct ((duration (default zero (dm !! key)) <=? 0) || (d <? duration (default zero (dm !! key)))).
Qed.

Lemma min_pos_spec ds best : 0 <= best ->
  let m := min_pos best ds in
  0 <= m /\ (m = 0 <-> best = 0 /\ forall d, d ∈ ds -> d <= 0) /\
  (0 < m -> m = best \/ m ∈ ds) /\
  (0 < best -> 0 < m <= best) /\
  (forall d, d ∈ ds -> 0 < d -> 0 < m <= d).
Proof.
  revert best. induction ds as [|d ds IH]; intros best Hb; simpl.
  - repeat split; try lia; try (intros; by auto).
    + intros x Hx. by apply not_elem_of_nil in Hx.
    + by apply not_elem_of_nil in H.
    + by apply not_elem_of_nil in H.
  - set (b2 := if (0 <? d) && _ then d else best).
    assert (Hb2 : 0 <= b2) by (unfold b2; zcases).
    destruct (IH b2 Hb2) as (H1 & H2 & H3 & H4 & H5). clear IH.
    assert (Hcase : (b2 = d /\ 0 < d /\ (best = 0 \/ d < best)) \/
                    (b2 = best /\ (d <= 0 \/ (0 < best /\ best <= d)))).
    { unfold b2. destruct (Z.ltb_spec 0 d), (Z.leb_spec best 0), (Z.ltb_spec d best); simpl; lia. }
    split; [done|]. split; [|split; [|split]].
    + rewrite H2. split.
      * intros [Hz Hall]. split; [lia|]. intros x Hx.
        apply elem_of_cons in Hx as [->|Hx]; [lia|by apply Hall].
      * intros [Hz Hall]. split.
        -- specialize (Hall d (list_elem_of_here _ _)). lia.
        -- intros x Hx. apply Hall. by right.
    + intros Hm. destruct (H3 Hm) as [->|Hin]; [|right; by right].
      destruct Hcase as [(-> & _)|(-> & _)]; [right; left|by left].
    + lia.
    + intros x Hx Hpos. apply elem_of_cons in Hx as [->|Hx]; [lia|by apply H5].
Qed.

End Requeue.
