(* ===== verification/Lifecycle.v ===== *)
(** * pkg/util/lifecycle, pkg/util/revision, pkg/util/specifieddelete

    The lifecycle label of a pod, its hooks, and the revision a pod belongs to.
    The parts that write through the API server are in [World.v]. *)

From S2P Require Import Prelude GoLib GoText K8s Tools.
Open Scope Z_scope.
Open Scope kruise_scope.

(** ** apis/apps/pub/lifecycle.go *)

Definition LifecycleStateKey : string := "lifecycle.apps.kruise.io/state".
Definition LifecycleTimestampKey : string := "lifecycle.apps.kruise.io/timestamp".
Definition LifecycleStatePreparingNormal : string := "PreparingNormal".
Definition LifecycleStateNormal : string := "Normal".
Definition LifecycleStatePreparingUpdate : string := "PreparingUpdate".
Definition LifecycleStateUpdating : string := "Updating".
Definition LifecycleStateUpdated : string := "Updated".
Definition LifecycleStatePreparingDelete : string := "PreparingDelete".

Record LifecycleHook := mkHook {
  LabelsHandler : gmap string string;
  FinalizersHandler : list string;
  MarkPodNotReady : bool;
}.

Record LifecycleSpec := mkLifecycle {
  PreDelete : option LifecycleHook;
  InPlaceUpdate : option LifecycleHook;
  PreNormal : option LifecycleHook;
}.

(** ** lifecycle_utils.go: the pure part *)
Module Hooks.

Definition GetPodLifecycleState (p : Pod) : string := lbl (p_labels p) LifecycleStateKey.

Definition IsHookMarkPodNotReady (h : option LifecycleHook) : bool :=
  match h with None => false | Some h => MarkPodNotReady h end.

Definition IsLifecycleMarkPodNotReady (l : option LifecycleSpec) : bool :=
  match l with
  | None => false
  | Some l => IsHookMarkPodNotReady (PreDelete l) || IsHookMarkPodNotReady (InPlaceUpdate l)
  end.

(** [now] is the formatted time. *)
Definition SetPodLifecycle (state now : string) (p : Pod) : Pod :=
  with_annotations (with_labels p (<[LifecycleStateKey := state]> (p_labels p)))
    (<[LifecycleTimestampKey := now]> (p_annotations p)).

(** [controllerutil.ContainsFinalizer]. *)
Definition ContainsFinalizer (p : Pod) (f : string) : bool :=
  existsb (fun g => String.eqb g f) (p_finalizers p).

Definition IsPodHooked (h : option LifecycleHook) (p : Pod) : bool :=
  match h with
  | None => false
  | Some h =>
      existsb (ContainsFinalizer p) (FinalizersHandler h)
      || existsb (fun kv => String.eqb (lbl (p_labels p) kv.1) kv.2) (map_to_list (LabelsHandler h))
  end.

Definition IsPodAllHooked (h : option LifecycleHook) (p : Pod) : bool :=
  match h with
  | None => false
  | Some h =>
      forallb (ContainsFinalizer p) (FinalizersHandler h)
      && forallb (fun kv => String.eqb (lbl (p_labels p) kv.1) kv.2) (map_to_list (LabelsHandler h))
  end.

Lemma SetPodLifecycle_state state now p : GetPodLifecycleState (SetPodLifecycle state now p) = state.
Proof. unfold GetPodLifecycleState, lbl. simpl. by rewrite lookup_insert_eq. Qed.

(** A hook that has a handler: all handlers present implies some present. *)
Definition has_handler (h : LifecycleHook) : Prop :=
  FinalizersHandler h <> [] \/ LabelsHandler h <> ∅.

Lemma all_hooked_hooked h p :
  has_handler h -> IsPodAllHooked (Some h) p = true -> IsPodHooked (Some h) p = true.
Proof.
  intros Hh H. simpl in *. apply andb_true_iff in H as [Hf Hl]. apply orb_true_iff.
  destruct Hh as [Hne|Hne].
  - left. destruct (FinalizersHandler h) as [|f fs]; [done|]. simpl in *.
    apply andb_true_iff in Hf as [-> _]. done.
  - right. destruct (map_to_list (LabelsHandler h)) as [|kv l] eqn:E.
    + exfalso. apply Hne. by apply map_to_list_empty_iff.
    + simpl in *. apply andb_true_iff in Hl as [-> _]. done.
Qed.

End Hooks.

(** ** Revisions *)
Module Revision.

(** [GetShortHash]: the part after the last ["-"]. *)
Definition GetShortHash (hash : string) : string := List.last (Split hash "-") "".

Definition EqualToRevisionHash (p : Pod) (hash : string) : bool :=
  let objHash := lbl (p_labels p) ControllerRevisionHashLabelKey in
  if String.eqb objHash hash then true
  else String.eqb (GetShortHash hash) (GetShortHash objHash).

(** [shortHashGate] is the CloneSetShortHash feature gate. *)
Definition WriteRevisionHash (shortHashGate : bool) (p : Pod) (hash : string) : Pod :=
  let shortHash := GetShortHash hash in
  let m := <[ControllerRevisionHashLabelKey := if shortHashGate then shortHash else hash]> (p_labels p) in
  with_labels p (<[DefaultDeploymentUniqueLabelKey := shortHash]> m).

(** pkg/util/revision: [IsPodUpdate]; the gate is PreparingUpdateAsUpdate. *)
Definition IsPodUpdate (preparingUpdateAsUpdate : bool) (p : Pod) (updateRevision : string) : bool :=
  if preparingUpdateAsUpdate
     && String.eqb (Hooks.GetPodLifecycleState p) LifecycleStatePreparingUpdate
  then true else EqualToRevisionHash p updateRevision.

(** [SplitPodsByRevision]. *)
Definition SplitPodsByRevision (pods : list Pod) (rev : string) : list Pod * list Pod :=
  (filterb (fun p => EqualToRevisionHash p rev) pods,
   filterb (fun p => negb (EqualToRevisionHash p rev)) pods).

(** [GroupUpdateAndNotUpdatePods]. *)
Definition GroupUpdateAndNotUpdatePods (gate : bool) (pods : list Pod) (rev : string)
  : list Pod * list Pod :=
  (filterb (fun p => IsPodUpdate gate p rev) pods,
   filterb (fun p => negb (IsPodUpdate gate p rev)) pods).

Lemma split_chars_ne sep l : split_chars sep l <> [].
Proof.
  destruct l as [|c l]; simpl; [done|]. destruct (Ascii.eqb c sep); [done|].
  by destruct (split_chars sep l).
Qed.

(** The last field holds no separator, so that it is its own last field. *)
Lemma split_chars_last_idem sep l w :
  List.last (split_chars sep l) [] = w -> split_chars sep w = [w].
Proof.
  revert w. induction l as [|c l IH]; simpl; intros w.
  - by intros <-.
  - pose proof (split_chars_ne sep l) as Hne.
    destruct (Ascii.eqb c sep) eqn:Ec.
    + destruct (split_chars sep l) as [|v vs] eqn:El; [done|]. apply IH.
    + destruct (split_chars sep l) as [|v vs] eqn:El; [done|].
      destruct vs as [|v' vs]; [|apply IH].
      intros <-. simpl in *. rewrite Ec. by rewrite (IH v eq_refl).
Qed.

Lemma last_map {A B} (f : A -> B) l d : List.last (map f l) (f d) = f (List.last l d).
Proof. induction l as [|x l IH]; [done|]. destruct l; [done|]. apply IH. Qed.

Lemma GetShortHash_chars h : GetShortHash h = of_chars (List.last (split_chars "-" (chars h)) []).
Proof. unfold GetShortHash, Split. change ""%string with (of_chars []). apply last_map. Qed.

Lemma GetShortHash_idem h : GetShortHash (GetShortHash h) = GetShortHash h.
Proof.
  rewrite (GetShortHash_chars (GetShortHash h)), GetShortHash_chars, chars_of_chars.
  by rewrite (split_chars_last_idem "-" (chars h) _ eq_refl).
Qed.

(** Writing a revision makes the pod equal to it, in both formats. *)
Lemma EqualToRevisionHash_write gate p hash :
  EqualToRevisionHash (WriteRevisionHash gate p hash) hash = true.
Proof.
  unfold EqualToRevisionHash, WriteRevisionHash, lbl. simpl.
  rewrite lookup_insert_ne by done. rewrite lookup_insert_eq. simpl.
  destruct gate; [|by rewrite String.eqb_refl].
  destruct (String.eqb (GetShortHash hash) hash); [done|].
  rewrite GetShortHash_idem. apply String.eqb_refl.
Qed.

(** Equality of revisions is equality of their short hashes. *)
Lemma EqualToRevisionHash_short p hash :
  EqualToRevisionHash p hash
  = String.eqb (GetShortHash hash) (GetShortHash (lbl (p_labels p) ControllerRevisionHashLabelKey)).
Proof.
  unfold EqualToRevisionHash.
  destruct (String.eqb_spec (lbl (p_labels p) ControllerRevisionHashLabelKey) hash) as [->|]; [|done].
  by rewrite String.eqb_refl.
Qed.

(** A revision written to a pod is read back: whatever the feature gate makes
    of the label, the pod then counts as being at exactly the revisions with the
    same short hash as the one written, that one included. *)
Theorem revision_roundtrip gate p hash hash' :
  EqualToRevisionHash (WriteRevisionHash gate p hash) hash' = String.eqb (GetShortHash hash') (GetShortHash hash)
  /\ EqualToRevisionHash (WriteRevisionHash gate p hash) hash = true.
Proof.
  split; [|apply EqualToRevisionHash_write].
  rewrite EqualToRevisionHash_short. unfold WriteRevisionHash, lbl. simpl.
  rewrite lookup_insert_ne by done. rewrite lookup_insert_eq. simpl.
  destruct gate; [by rewrite GetShortHash_idem|done].
Qed.

End Revision.

(** ** specifieddelete *)
Definition IsSpecifiedDelete (p : Pod) : bool :=
  match p_labels p !! SpecifiedDeleteKey with Some _ => true | None => false end.
