(* ===== verification/Selector.v ===== *)
(** * pkg/util/selector.go

    Label selectors, their evaluation ([ValidatedLabelSelectorAsSelector] with
    the vendored [Requirement.Matches]) and the two overlap tests the webhooks
    use to reject conflicting SidecarSets and PodUnavailableBudgets. *)

From S2P Require Import Prelude GoLib GoText K8s.
Open Scope Z_scope.

(** [metav1.LabelSelectorOperator]; any other string is [OpOther]. *)
Inductive SelOp := OpIn | OpNotIn | OpExists | OpDoesNotExist | OpOther.

Record Requirement := mkReq { r_key : string; r_op : SelOp; r_values : list string }.

Record LabelSelector := mkSel {
  MatchLabels : gmap string string;
  MatchExpressions : list Requirement;
}.

#[export] Instance SelOp_eq_dec : EqDecision SelOp.
Proof. solve_decision. Defined.

Definition contains (l : list string) (s : string) : bool := existsb (String.eqb s) l.

Lemma contains_spec l s : contains l s = true <-> s ∈ l.
Proof.
  unfold contains. rewrite existsb_exists. setoid_rewrite <-list_elem_of_In. split.
  - intros (x & Hx & He). apply String.eqb_eq in He. by subst.
  - intros H. exists s. split; [done|apply String.eqb_refl].
Qed.

(** ** Evaluation *)

(** [Requirement.Matches] on the value of the key. *)
Definition req_sat (r : Requirement) (v : option string) : bool :=
  match r_op r with
  | OpIn => match v with Some s => contains (r_values r) s | None => false end
  | OpNotIn => match v with Some s => negb (contains (r_values r) s) | None => true end
  | OpExists => match v with Some _ => true | None => false end
  | OpDoesNotExist => match v with Some _ => false | None => true end
  | OpOther => false
  end.

Definition is_valid_op (r : Requirement) : bool :=
  match r_op r with OpOther => false | _ => true end.

(** [ValidatedLabelSelectorAsSelector(ps)] followed by [Matches]: [None] is the
    error of an unknown operator, a [nil] selector matches nothing and an empty
    one everything. *)
Definition selector_matches (ps : option LabelSelector) (labels : gmap string string) : option bool :=
  match ps with
  | None => Some false
  | Some s =>
      if forallb is_valid_op (MatchExpressions s) then
        Some (forallb (fun kv => req_sat (mkReq kv.1 OpIn [kv.2]) (labels !! kv.1))
                (map_to_list (MatchLabels s))
              && forallb (fun r => req_sat r (labels !! r_key r)) (MatchExpressions s))
      else None
  end.

(** ** IsSelectorOverlapping *)

Definition sliceOverlaps (a b : list string) : bool := existsb (contains a) b.
Definition sliceContains (a b : list string) : bool := forallb (contains a) b.

Definition ALL : string := "ALL".

(** The first half of [isDisjoint]: the values each key may take. *)
Definition add_matched (m : gmap string (list string)) (r : Requirement) : gmap string (list string) :=
  match r_op r with
  | OpIn =>
      match r_values r with
      | [] => m
      | vs => <[r_key r := default [] (m !! r_key r) ++ vs]> m
      end
  | OpExists => <[r_key r := [ALL]]> m
  | _ => m
  end.
Definition matchedLabels (s : LabelSelector) : gmap string (list string) :=
  fold_left add_matched (MatchExpressions s) ((fun v => [v]) <$> MatchLabels s).

Definition label_disjoint (m : gmap string (list string)) (kv : string * string) : bool :=
  match m !! kv.1 with
  | Some values => negb (contains values ALL) && negb (contains values kv.2)
  | None => false
  end.

Definition expr_disjoint (m : gmap string (list string)) (r : Requirement) : bool :=
  match r_op r, m !! r_key r with
  | OpIn, Some values => negb (contains values ALL) && negb (sliceOverlaps values (r_values r))
  | OpIn, None => false
  | OpNotIn, Some values => sliceContains (r_values r) values
  | OpNotIn, None => false
  | OpExists, Some _ => false
  | OpExists, None => true
  | OpDoesNotExist, Some _ => true
  | OpDoesNotExist, None => false
  | OpOther, _ => false
  end.

Definition isDisjoint (s1 s2 : LabelSelector) : bool :=
  let m := matchedLabels s1 in
  existsb (label_disjoint m) (map_to_list (MatchLabels s2))
  || existsb (expr_disjoint m) (MatchExpressions s2).

Definition IsSelectorOverlapping (s1 s2 : LabelSelector) : bool :=
  negb (isDisjoint s1 s2 || isDisjoint s2 s1).

(** ** IsSelectorLooseOverlap *)

Definition isMatchExpOverlap (e1 e2 : Requirement) : bool :=
  match r_op e1 with
  | OpIn =>
      match r_op e2 with
      | OpExists => true
      | OpIn => sliceOverlaps (r_values e2) (r_values e1)
      | OpNotIn => negb (sliceContains (r_values e2) (r_values e1))
      | _ => false
      end
  | OpExists =>
      match r_op e2 with OpIn | OpNotIn | OpExists => true | _ => false end
  | OpNotIn =>
      match r_op e2 with
      | OpExists | OpDoesNotExist | OpNotIn => true
      | OpIn => negb (sliceContains (r_values e1) (r_values e2))
      | _ => false
      end
  | OpDoesNotExist =>
      match r_op e2 with OpDoesNotExist | OpNotIn => true | _ => false end
  | OpOther => false
  end.

Definition convertSelectorToMatchExpressions (s : LabelSelector) : gmap string Requirement :=
  map_imap (fun _ v => Some (mkReq "" OpIn [v])) (MatchLabels s)
  ∪ fold_left (fun m r => <[r_key r := r]> m) (MatchExpressions s) ∅.

Definition covered_by (m1 m2 : gmap string Requirement) : bool :=
  forallb (fun kv =>
    match m2 !! kv.1 with
    | None => false
    | Some e2 => isMatchExpOverlap kv.2 e2
    end) (map_to_list m1).

Definition IsSelectorLooseOverlap (s1 s2 : LabelSelector) : bool :=
  let m1 := convertSelectorToMatchExpressions s1 in
  let m2 := convertSelectorToMatchExpressions s2 in
  covered_by m1 m2 && covered_by m2 m1.

(** ** Lemmas *)

Lemma sliceOverlaps_spec a b : sliceOverlaps a b = true <-> exists s, s ∈ a /\ s ∈ b.
Proof.
  unfold sliceOverlaps. rewrite existsb_exists. setoid_rewrite <-list_elem_of_In.
  split; intros (s & H1 & H2); exists s; [apply contains_spec in H2|rewrite contains_spec]; auto.
Qed.

Lemma sliceContains_spec a b : sliceContains a b = true <-> forall s, s ∈ b -> s ∈ a.
Proof.
  unfold sliceContains. rewrite forallb_forall. setoid_rewrite <-list_elem_of_In.
  split; intros H s Hs; [apply contains_spec|rewrite contains_spec]; auto.
Qed.

(** Labels that match the first selector lie within the values collected for
    each key. *)
Definition within (m : gmap string (list string)) (labels : gmap string string) : Prop :=
  forall k vs, m !! k = Some vs -> exists v, labels !! k = Some v /\ (v ∈ vs \/ ALL ∈ vs).

Lemma within_add m labels r :
  within m labels -> req_sat r (labels !! r_key r) = true -> within (add_matched m r) labels.
Proof.
  intros Hw Hr. unfold add_matched, req_sat in *. destruct (r_op r); try done.
  - destruct (r_values r) as [|v0 vs0] eqn:Ev; [done|]. rewrite <-Ev in *. clear Ev v0 vs0.
    intros k vs. rewrite lookup_insert. destruct (decide (r_key r = k)) as [<-|]; [|by apply Hw].
    intros [= <-]. destruct (labels !! r_key r) as [v|]; [|done]. exists v. split; [done|].
    left. apply elem_of_app. right. by apply contains_spec.
  - intros k vs. rewrite lookup_insert. destruct (decide (r_key r = k)) as [<-|]; [|by apply Hw].
    intros [= <-]. destruct (labels !! r_key r) as [v|]; [|done]. exists v.
    split; [done|]. right. by left.
Qed.

Lemma within_fold rs m labels :
  within m labels -> forallb (fun r => req_sat r (labels !! r_key r)) rs = true ->
  within (fold_left add_matched rs m) labels.
Proof.
  revert m. induction rs as [|r rs IH]; intros m Hw H; [done|]. simpl in *.
  apply andb_true_iff in H as [Hr H]. by apply IH; [apply within_add|].
Qed.

Lemma matches_inv s labels : selector_matches (Some s) labels = Some true ->
  (forall k v, MatchLabels s !! k = Some v -> labels !! k = Some v) /\
  forallb (fun r => req_sat r (labels !! r_key r)) (MatchExpressions s) = true.
Proof.
  simpl. destruct (forallb is_valid_op _); [|done]. intros [= H].
  apply andb_true_iff in H as [Hl He]. split; [|done]. intros k v Hk.
  rewrite forallb_forall in Hl. specialize (Hl (k, v)).
  rewrite <-list_elem_of_In, elem_of_map_to_list in Hl. specialize (Hl Hk).
  unfold req_sat in Hl. simpl in Hl. destruct (labels !! k) as [w|]; [|done].
  apply orb_true_iff in Hl as [Hl|Hl]; [|done]. apply String.eqb_eq in Hl. by subst.
Qed.

Lemma within_matched s labels :
  selector_matches (Some s) labels = Some true -> within (matchedLabels s) labels.
Proof.
  intros H. apply matches_inv in H as [Hl He]. apply within_fold; [|done].
  intros k vs. rewrite lookup_fmap. destruct (MatchLabels s !! k) as [v|] eqn:Ek; [|done].
  simpl. intros [= <-]. exists v. split; [by apply Hl|]. left. by left.
Qed.

(** A selector the disjointness test treats correctly as the second argument:
    no [Exists] requirement, and no [NotIn] that lists the marker ["ALL"]. *)
Definition plain_req (r : Requirement) : bool :=
  match r_op r with
  | OpExists => false
  | OpNotIn => negb (contains (r_values r) ALL)
  | _ => true
  end.
Definition plain_selector (s : LabelSelector) : bool := forallb plain_req (MatchExpressions s).

Lemma expr_not_disjoint m labels r :
  within m labels -> plain_req r = true -> req_sat r (labels !! r_key r) = true ->
  expr_disjoint m r = false.
Proof.
  intros Hw Hp Hr. unfold expr_disjoint, plain_req, req_sat in *.
  destruct (m !! r_key r) as [vs|] eqn:Ek; destruct (r_op r); try done;
    destruct (Hw _ _ Ek) as (v & Hv & Hin); rewrite Hv in Hr; try done.
  - destruct (contains vs ALL) eqn:Ea; [done|]. simpl. apply negb_false_iff, sliceOverlaps_spec.
    exists v. apply contains_spec in Hr. destruct Hin as [Hin|Hin]; [done|].
    apply contains_spec in Hin. congruence.
  - apply not_true_iff_false. rewrite sliceContains_spec. intros Hall. zbool.
    destruct Hin as [Hin|Hin]; apply Hall in Hin; apply contains_spec in Hin; congruence.
Qed.

Lemma isDisjoint_sound s1 s2 labels :
  plain_selector s2 = true ->
  selector_matches (Some s1) labels = Some true ->
  selector_matches (Some s2) labels = Some true ->
  isDisjoint s1 s2 = false.
Proof.
  intros Hp H1 H2. apply within_matched in H1. apply matches_inv in H2 as [Hl He].
  unfold isDisjoint. apply orb_false_iff. split; apply not_true_iff_false; rewrite existsb_exists;
    intros (x & Hin & Hx); rewrite <-list_elem_of_In in Hin.
  - destruct x as [k v]. apply elem_of_map_to_list in Hin. unfold label_disjoint in Hx. simpl in Hx.
    destruct (matchedLabels s1 !! k) as [vs|] eqn:Ek; [|done].
    destruct (H1 _ _ Ek) as (w & Hw & Hor). rewrite (Hl _ _ Hin) in Hw. injection Hw as <-. zbool.
    destruct Hor as [Hor|Hor]; apply contains_spec in Hor; congruence.
  - unfold plain_selector in Hp. rewrite forallb_forall in Hp, He. rewrite list_elem_of_In in Hin.
    rewrite (expr_not_disjoint _ labels) in Hx; auto. done.
Qed.

(** A value outside a list. *)
Lemma fresh_value (l : list string) : exists v, v ∉ l.
Proof. exists (fresh l). apply infinite_is_fresh. Qed.

Definition nonempty_in (r : Requirement) : Prop := r_op r = OpIn -> r_values r <> [].

Lemma sliceContains_false a b : sliceContains a b = false -> exists s, s ∈ b /\ s ∉ a.
Proof.
  unfold sliceContains. induction b as [|x b IH]; simpl; [done|].
  destruct (contains a x) eqn:E; simpl.
  - intros H. destruct (IH H) as (s & ? & ?). exists s. split; [by right|done].
  - intros _. exists x. split; [by left|]. rewrite <-contains_spec. congruence.
Qed.

Lemma contains_false l s : contains l s = false <-> s ∉ l.
Proof. rewrite <-contains_spec. by destruct (contains l s). Qed.

(** Two requirements on one key can hold together. *)
Definition jointly_sat (e1 e2 : Requirement) : Prop :=
  exists v, req_sat e1 v = true /\ req_sat e2 v = true.

Lemma jointly_sat_sym e1 e2 : jointly_sat e1 e2 -> jointly_sat e2 e1.
Proof. intros (v & ? & ?). by exists v. Qed.

Lemma overlap_complete e1 e2 : jointly_sat e1 e2 -> isMatchExpOverlap e1 e2 = true.
Proof.
  intros (v & H1 & H2). unfold isMatchExpOverlap, req_sat in *.
  destruct (r_op e1), (r_op e2), v as [s|]; try done; zbool;
    rewrite ?contains_spec, ?contains_false in *.
  - apply sliceOverlaps_spec. eauto.
  - apply negb_true_iff, not_true_iff_false. rewrite sliceContains_spec. auto.
  - apply negb_true_iff, not_true_iff_false. rewrite sliceContains_spec. auto.
Qed.

Lemma overlap_sound e1 e2 :
  nonempty_in e1 -> nonempty_in e2 -> isMatchExpOverlap e1 e2 = true -> jointly_sat e1 e2.
Proof.
  unfold nonempty_in, isMatchExpOverlap, jointly_sat, req_sat. intros N1 N2 H.
  destruct (r_op e1), (r_op e2); try done.
  - apply sliceOverlaps_spec in H as (s & ? & ?). exists (Some s). by rewrite !contains_spec.
  - zbool. apply sliceContains_false in H as (s & ? & ?). exists (Some s).
    by rewrite negb_true_iff, contains_spec, contains_false.
  - destruct (r_values e1) as [|s l]; [by destruct N1|]. exists (Some s).
    by rewrite contains_spec; split; [left|].
  - zbool. apply sliceContains_false in H as (s & ? & ?). exists (Some s).
    by rewrite negb_true_iff, contains_spec, contains_false.
  - by exists None.
  - destruct (fresh_value (r_values e1)) as (s & Hs). exists (Some s).
    by rewrite negb_true_iff, contains_false.
  - by exists None.
  - destruct (r_values e2) as [|s l]; [by destruct N2|]. exists (Some s).
    by rewrite contains_spec; split; [|left].
  - destruct (fresh_value (r_values e2)) as (s & Hs). exists (Some s).
    by rewrite negb_true_iff, contains_false.
  - by exists (Some "").
  - by exists None.
  - by exists None.
Qed.

(** ** Properties *)

(** The overlap test of the webhooks misses no conflict among selectors
    without [Exists] requirements (and without the reserved value "ALL" in a
    [NotIn]): if some labels match both selectors, they are reported as
    overlapping. *)
Theorem overlap_detected s1 s2 labels :
  plain_selector s1 = true -> plain_selector s2 = true ->
  selector_matches (Some s1) labels = Some true ->
  selector_matches (Some s2) labels = Some true ->
  IsSelectorOverlapping s1 s2 = true.
Proof.
  intros P1 P2 H1 H2. unfold IsSelectorOverlapping.
  by rewrite (isDisjoint_sound s1 s2 labels), (isDisjoint_sound s2 s1 labels).
Qed.

Definition ex_labels : gmap string string := {["a"%string := "b"%string; "c"%string := "x"%string]}.
Definition ex_sel1 : LabelSelector := mkSel {["a"%string := "b"%string]} [].
Definition ex_sel2 : LabelSelector := mkSel ∅ [mkReq "c" OpIn ["x"; "y"]%string; mkReq "d" OpDoesNotExist []].

Lemma overlap_detected_witness : IsSelectorOverlapping ex_sel1 ex_sel2 = true.
Proof.
  apply (overlap_detected ex_sel1 ex_sel2 ex_labels); vm_compute; reflexivity.
Defined.

(** With an [Exists] requirement the test does miss a conflict: the labels
    a=b, c=x match both the selector a=b and the selector "c exists", and yet
    the two are reported as disjoint, because the first one does not mention
    the key c. *)
Theorem exists_overlap_missed :
  let s1 := mkSel {["a"%string := "b"%string]} [] in
  let s2 := mkSel ∅ [mkReq "c" OpExists []] in
  selector_matches (Some s1) ex_labels = Some true
  /\ selector_matches (Some s2) ex_labels = Some true
  /\ IsSelectorOverlapping s1 s2 = false.
Proof. vm_compute. auto. Qed.

(** The per-key test of the loose overlap is exact: two requirements on one
    key are reported as overlapping if and only if some value of the label, or
    its absence, satisfies both ([In] requirements list at least one value). *)
Theorem match_expression_overlap_exact e1 e2 :
  nonempty_in e1 -> nonempty_in e2 ->
  isMatchExpOverlap e1 e2 = true <-> exists v, req_sat e1 v = true /\ req_sat e2 v = true.
Proof. intros N1 N2. split; [by apply overlap_sound|apply overlap_complete]. Qed.

Lemma match_expression_overlap_exact_witness :
  isMatchExpOverlap (mkReq "k" OpIn ["a"]%string) (mkReq "k" OpNotIn ["b"]%string) = true
  <-> exists v, req_sat (mkReq "k" OpIn ["a"]%string) v = true
             /\ req_sat (mkReq "k" OpNotIn ["b"]%string) v = true.
Proof. apply match_expression_overlap_exact; by intros. Defined.
