(* ===== verification/UpdateSort.v ===== *)
(** * pkg/util/updatesort: the order in which pods are updated

    [Priority] (priority_sort.go) sorts the indexes of the pods to update by the
    weights or the ordered labels of an UpdatePriorityStrategy; [Scatter]
    (scatter_sort.go) spreads the pods that match a label term.  The callers
    pass no [nil] pod; an index is a position of [pods]. *)

From S2P Require Import Prelude GoLib GoText K8s Selector.
Open Scope Z_scope.
Open Scope kruise_scope.

(** ** apis/apps/pub/update_priority.go and apis/apps/v1alpha1/scatter_strategy.go *)

Record UpdatePriorityWeightTerm := mkWeight { Weight : Z; MatchSelector : LabelSelector }.
Record UpdatePriorityStrategy := mkPriority {
  OrderPriority : list string;
  WeightPriority : list UpdatePriorityWeightTerm;
}.
Record UpdateScatterTerm := mkScatter { st_key : string; st_value : string }.
Abbreviation UpdateScatterStrategy := (list UpdateScatterTerm).

#[export] Instance UpdateScatterTerm_eq_dec : EqDecision UpdateScatterTerm.
Proof. solve_decision. Defined.

(** [FieldsValidation] of both strategies; [true] is "no error".  The size of a
    selector is [0] when it has neither labels nor expressions. *)
Definition weight_term_valid (w : UpdatePriorityWeightTerm) : bool :=
  negb ((Weight w <? 0) || (100 <? Weight w))
  && negb (bool_decide (MatchLabels (MatchSelector w) = ∅)
           && bool_decide (length (MatchExpressions (MatchSelector w)) = 0%nat))
  && forallb is_valid_op (MatchExpressions (MatchSelector w)).
Definition priority_FieldsValidation (s : option UpdatePriorityStrategy) : bool :=
  match s with
  | None => true
  | Some s =>
      negb ((0 <? len (WeightPriority s)) && (0 <? len (OrderPriority s)))
      && forallb weight_term_valid (WeightPriority s)
      && forallb (fun k => negb (String.eqb k "")) (OrderPriority s)
  end.

Fixpoint scatter_valid_loop (m : gset string) (l : UpdateScatterStrategy) : bool :=
  match l with
  | [] => true
  | t :: l' =>
      if String.eqb (st_key t) "" then false
      else
        let id := st_key t +:+ ":" +:+ st_value t in
        if bool_decide (id ∈ m) then false else scatter_valid_loop ({[id]} ∪ m) l'
  end.
Definition scatter_FieldsValidation (l : UpdateScatterStrategy) : bool := scatter_valid_loop ∅ l.

(** Labels of the pod at an index. *)
Definition labels_at (pods : list Pod) (i : nat) : gmap string string :=
  match pods !! i with Some p => p_labels p | None => ∅ end.

(** ** priority_sort.go *)
Module Priority.

(** The number a string ends with. *)
Definition getIntFromStringSuffix (v : string) : Z :=
  match leading_digits (rev (chars v)) with
  | [] => 0
  | ds => match conv_ok (ParseInt (of_chars (rev ds)) 64) with
          | Some order => order
          | None => 0
          end
  end.

Definition getPodWeightPriority (s : UpdatePriorityStrategy) (labels : gmap string string) : Z :=
  fold_left (fun weight p =>
    match selector_matches (Some (MatchSelector p)) labels with
    | Some true => weight + Weight p
    | _ => weight
    end) (WeightPriority s) 0.

Fixpoint order_loop (i : Z) (keys : list string) (labels : gmap string string) : Z * Z :=
  match keys with
  | [] => (-1, 0)
  | k :: keys' =>
      match labels !! k with
      | Some value => (i, getIntFromStringSuffix value)
      | None => order_loop (i + 1) keys' labels
      end
  end.
Definition getPodOrderPriority (s : UpdatePriorityStrategy) (labels : gmap string string) : Z * Z :=
  order_loop 0 (OrderPriority s) labels.

Definition compare (s : UpdatePriorityStrategy) (podI podJ : gmap string string)
  (defaultVal : bool) : bool :=
  if 0 <? len (WeightPriority s) then
    let wI := getPodWeightPriority s podI in
    let wJ := getPodWeightPriority s podJ in
    if negb (wI =? wJ) then wJ <? wI else defaultVal
  else if 0 <? len (OrderPriority s) then
    let '(levelI, orderI) := getPodOrderPriority s podI in
    let '(levelJ, orderJ) := getPodOrderPriority s podJ in
    if negb (levelI =? levelJ) then levelI <? levelJ
    else if negb (orderI =? orderJ) then orderJ <? orderI
    else defaultVal
  else defaultVal.

Definition less (s : UpdatePriorityStrategy) (pods : list Pod) (i j : nat) : bool :=
  compare s (labels_at pods i) (labels_at pods j) (Z.of_nat j <? Z.of_nat i).

Definition Sort (strategy : option UpdatePriorityStrategy) (pods : list Pod) (indexes : list nat)
  : list nat :=
  match strategy with
  | None => indexes
  | Some s =>
      if (len (WeightPriority s) =? 0) && (len (OrderPriority s) =? 0) then indexes
      else SliceStable (less s pods) indexes
  end.

(** The keys of the order. *)
Definition key1 (s : UpdatePriorityStrategy) (labels : gmap string string) : Z :=
  if 0 <? len (WeightPriority s) then - getPodWeightPriority s labels
  else if 0 <? len (OrderPriority s) then (getPodOrderPriority s labels).1 else 0.
Definition key2 (s : UpdatePriorityStrategy) (labels : gmap string string) : Z :=
  if 0 <? len (WeightPriority s) then 0
  else if 0 <? len (OrderPriority s) then - (getPodOrderPriority s labels).2 else 0.

Definition key_less (s : UpdatePriorityStrategy) (pods : list Pod) (i j : nat) : bool :=
  if negb (key1 s (labels_at pods i) =? key1 s (labels_at pods j))
  then key1 s (labels_at pods i) <? key1 s (labels_at pods j)
  else if negb (key2 s (labels_at pods i) =? key2 s (labels_at pods j))
  then key2 s (labels_at pods i) <? key2 s (labels_at pods j)
  else - Z.of_nat i <? - Z.of_nat j.

Lemma less_key s pods i j : less s pods i j = key_less s pods i j.
Proof.
  unfold less, compare, key_less, key1, key2.
  destruct (0 <? len (WeightPriority s)).
  - apply eq_true_iff_eq. zcases; rewrite ?Z.ltb_lt; lia.
  - destruct (0 <? len (OrderPriority s)).
    + destruct (getPodOrderPriority s (labels_at pods i)), (getPodOrderPriority s (labels_at pods j)).
      simpl. apply eq_true_iff_eq. zcases; rewrite ?Z.ltb_lt; lia.
    + simpl. apply eq_true_iff_eq. rewrite !Z.ltb_lt. lia.
Qed.

#[export] Instance key_less_sw s pods : StrictWeak (key_less s pods).
Proof.
  apply (StrictWeak_lex (fun i => key1 s (labels_at pods i))
    (fun i j => if negb (key2 s (labels_at pods i) =? key2 s (labels_at pods j))
                then key2 s (labels_at pods i) <? key2 s (labels_at pods j)
                else - Z.of_nat i <? - Z.of_nat j)).
Qed.

#[export] Instance less_sw s pods : StrictWeak (less s pods).
Proof.
  split; intros *; rewrite !less_key; [apply sw_irrefl|apply sw_trans|apply sw_cotrans].
Qed.

Lemma priority_perm strategy pods indexes : Sort strategy pods indexes ≡ₚ indexes.
Proof.
  unfold Sort. destruct strategy as [s|]; [|done].
  destruct (_ && _); [done|]. apply SliceStable_perm.
Qed.

Lemma sorted_impl (less : nat -> nat -> bool) (R : nat -> nat -> Prop) l :
  (forall i j, less j i = false -> R i j) -> sorted_by less l -> StronglySorted R l.
Proof.
  intros H Hs. induction Hs as [|x l Hs IH Hx]; constructor; [done|].
  eapply Forall_impl; [exact Hx|]. simpl. auto.
Qed.

(** The update order honours the priority strategy: the result holds the
    same indexes; with weights, a pod of a larger total weight comes first, and
    pods of equal weight in falling index order; with ordered labels, a pod
    whose first matching key comes earlier is first (a pod that has none of
    the keys before all of them), then the larger number its value ends with,
    then the larger index. *)
Theorem priority_sort_spec s pods indexes :
  let sorted := Sort (Some s) pods indexes in
  let weight i := getPodWeightPriority s (labels_at pods i) in
  let level i := (getPodOrderPriority s (labels_at pods i)).1 in
  let order i := (getPodOrderPriority s (labels_at pods i)).2 in
  sorted ≡ₚ indexes
  /\ (WeightPriority s <> [] ->
      StronglySorted (fun i j => weight j < weight i \/ (weight i = weight j /\ (j <= i)%nat)) sorted)
  /\ (WeightPriority s = [] -> OrderPriority s <> [] ->
      StronglySorted (fun i j => level i < level j
        \/ (level i = level j /\ (order j < order i \/ (order i = order j /\ (j <= i)%nat)))) sorted).
Proof.
  cbv zeta. split; [apply priority_perm|].
  assert (Hpos : forall {A} (l : list A), l <> [] -> (0 <? len l) = true /\ (len l =? 0) = false).
  { intros A [|a l] H; [done|]. split; [apply Z.ltb_lt|apply Z.eqb_neq]; simpl length; lia. }
  unfold Sort. split.
  - intros [Hw1 Hw2]%Hpos. rewrite Hw2. simpl.
    apply (sorted_impl (less s pods)); [|apply SliceStable_sorted, less_sw].
    intros i j. rewrite less_key. unfold key_less, key1, key2. rewrite Hw1. zcases.
  - intros Hw [Ho1 Ho2]%Hpos. rewrite Hw. simpl. rewrite Ho2. simpl.
    apply (sorted_impl (less s pods)); [|apply SliceStable_sorted, less_sw].
    intros i j. rewrite less_key. unfold key_less, key1, key2. rewrite Hw, Ho1. simpl. zcases.
Qed.

Definition ex_pod (name : string) (l : gmap string string) : Pod := with_labels (named_pod name) l.
Definition ex_pods : list Pod :=
  [ex_pod "a" {["app"%string := "x"%string]}; ex_pod "b" ∅; ex_pod "c" {["app"%string := "x"%string]}].
Definition ex_weights : UpdatePriorityStrategy :=
  mkPriority [] [mkWeight 50 (mkSel {["app"%string := "x"%string]} [])].

Lemma priority_sort_spec_witness :
  Sort (Some ex_weights) ex_pods [0; 1; 2]%nat = [2; 0; 1]%nat
  /\ StronglySorted (fun i j =>
       getPodWeightPriority ex_weights (labels_at ex_pods j) < getPodWeightPriority ex_weights (labels_at ex_pods i)
       \/ (getPodWeightPriority ex_weights (labels_at ex_pods i) = getPodWeightPriority ex_weights (labels_at ex_pods j)
           /\ (j <= i)%nat)) (Sort (Some ex_weights) ex_pods [0; 1; 2]%nat).
Proof.
  split; [vm_compute; reflexivity|]. by apply (priority_sort_spec ex_weights ex_pods [0; 1; 2]%nat).
Defined.

End Priority.

(** ** scatter_sort.go *)
Module Scatter.

Record scatterGroup := mkGroup {
  groupNum : Z;
  matchedGroupSize : Z;
  unmatchedGroupSize : Z;
  unmatchedRemainder : Z;
}.

Definition round_quot (a b : Z) : Z :=
  fp_to_int (fp_round (fp_div binary64 (fp_of_int binary64 a) (fp_of_int binary64 b))).

Definition newScatterGroup (matched unmatched : Z) : scatterGroup :=
  let n := if matched <? unmatched then matched else unmatched in
  mkGroup n (round_quot matched n) (round_quot unmatched n) 0.

(** [float32(a) / float32(b)]. *)
Definition ratio32 (a b : Z) : fp :=
  fp_div binary32 (fp_of_int binary32 a) (fp_of_int binary32 b).

Definition calculateGroupByDensity (totalMatched totalUnmatched updateMatched updateUnmatched : Z)
  : scatterGroup :=
  let totalGroup := newScatterGroup totalMatched totalUnmatched in
  let updateGroup := newScatterGroup updateMatched updateUnmatched in
  if fp_ge (ratio32 totalUnmatched totalMatched) (ratio32 updateUnmatched updateMatched)
  then updateGroup
  else
    let ms := matchedGroupSize totalGroup in
    let us := unmatchedGroupSize totalGroup in
    let n := if go_div updateMatched ms <? go_div updateUnmatched us
             then go_div updateMatched ms else go_div updateUnmatched us in
    mkGroup n ms us (updateUnmatched - n * us).

Definition migrateItems (src dst : list nat) (size : Z) : list nat * list nat :=
  if len src =? 0 then (src, dst)
  else if len src <? size then ([], dst ++ src)
  else (slice_from src size, dst ++ slice_to src size).

(** The loop over the groups. *)
Fixpoint migrate_loop (n : nat) (ms us : Z) (matched unmatched dst : list nat)
  : list nat * list nat * list nat :=
  match n with
  | O => (matched, unmatched, dst)
  | S n' =>
      let '(matched, dst) := migrateItems matched dst ms in
      let '(unmatched, dst) := migrateItems unmatched dst us in
      migrate_loop n' ms us matched unmatched dst
  end.

Definition matches (term : UpdateScatterTerm) (pods : list Pod) (i : nat) : bool :=
  String.eqb (lbl (labels_at pods i) (st_key term)) (st_value term).

(** The groups the scatter of one term forms: the last matched pod is kept
    apart, so that one matched pod less is counted. *)
Definition group_of (term : UpdateScatterTerm) (pods : list Pod)
  (matchedIndexes unmatchedIndexes : list nat) : scatterGroup :=
  let all := seq 0 (length pods) in
  let totalMatched := countb (matches term pods) all in
  let totalUnmatched := countb (fun i => negb (matches term pods i)) all in
  let totalMatched := totalMatched - 1 in
  calculateGroupByDensity totalMatched totalUnmatched (len matchedIndexes) (len unmatchedIndexes).

Definition scatterPodsByRule (term : UpdateScatterTerm) (pods : list Pod) (indexes : list nat)
  : list nat :=
  let matchedIndexes := filterb (matches term pods) indexes in
  let unmatchedIndexes := filterb (fun i => negb (matches term pods i)) indexes in
  if (len matchedIndexes <=? 1) || (len unmatchedIndexes <=? 1) then indexes
  else
    let lastMatchedIndex := List.last matchedIndexes 0%nat in
    let matchedIndexes := removelast matchedIndexes in
    let group := group_of term pods matchedIndexes unmatchedIndexes in
    let '(unmatchedIndexes, newIndexes) :=
      if 0 <? unmatchedRemainder group
      then (slice_from unmatchedIndexes (unmatchedRemainder group),
            slice_to unmatchedIndexes (unmatchedRemainder group))
      else (unmatchedIndexes, []) in
    let '(matchedIndexes, unmatchedIndexes, newIndexes) :=
      migrate_loop (Z.to_nat (groupNum group)) (matchedGroupSize group)
        (unmatchedGroupSize group) matchedIndexes unmatchedIndexes newIndexes in
    (newIndexes ++ matchedIndexes ++ unmatchedIndexes) ++ [lastMatchedIndex].

Definition termID (t : UpdateScatterTerm) : string := st_key t +:+ ":" +:+ st_value t.

(** The inner loop of [getScatterTerms] on one index. *)
Definition count_term (pods : list Pod) (term : UpdateScatterTerm)
  (st : list UpdateScatterTerm * gmap string Z) (idx : nat) : list UpdateScatterTerm * gmap string Z :=
  let '(termSlice, ruleCounter) := st in
  match labels_at pods idx !! st_key term with
  | Some val =>
      if String.eqb val (st_value term) then
        let newTerm := mkScatter (st_key term) val in
        let id := termID newTerm in
        match ruleCounter !! id with
        | None => (termSlice ++ [newTerm], <[id := 1]> ruleCounter)
        | Some count => (termSlice, <[id := count + 1]> ruleCounter)
        end
      else st
  | None => st
  end.

(** The terms by falling number of pods.  On equal numbers the comparison of the
    code answers [i <= j]; [sort.SliceStable] always asks it with the later
    position first, so that it is [false] and the order of the terms is kept. *)
Definition getScatterTerms (strategy : UpdateScatterStrategy) (pods : list Pod) (indexes : list nat)
  : list UpdateScatterTerm :=
  if len strategy =? 1 then strategy
  else
    let '(termSlice, ruleCounter) :=
      fold_left (fun st term => fold_left (count_term pods term) indexes st) strategy ([], ∅) in
    let count t := default 0 (ruleCounter !! termID t) in
    SliceStable (fun a b => count b <? count a) termSlice.

Definition Sort (strategy : UpdateScatterStrategy) (pods : list Pod) (indexes : list nat) : list nat :=
  if (len strategy =? 0) || (len indexes <=? 1) then indexes
  else fold_left (fun idx term => scatterPodsByRule term pods idx)
         (getScatterTerms strategy pods indexes) indexes.

(** *** Lemmas *)

Lemma migrateItems_perm src dst size :
  let '(src', dst') := migrateItems src dst size in dst' ++ src' ≡ₚ dst ++ src.
Proof.
  unfold migrateItems, slice_from, slice_to. repeat case_match; simplify_eq; simpl.
  - done.
  - by rewrite app_nil_r.
  - by rewrite <-app_assoc, take_drop.
Qed.

Lemma migrate_loop_perm n ms us m u d :
  let '(m', u', d') := migrate_loop n ms us m u d in d' ++ m' ++ u' ≡ₚ d ++ m ++ u.
Proof.
  revert m u d. induction n as [|n IH]; intros m u d; simpl; [done|].
  pose proof (migrateItems_perm m d ms) as H1. destruct (migrateItems m d ms) as [m1 d1].
  pose proof (migrateItems_perm u d1 us) as H2. destruct (migrateItems u d1 us) as [u2 d2].
  specialize (IH m1 u2 d2). destruct (migrate_loop n ms us m1 u2 d2) as [[m3 u3] d3].
  rewrite IH. rewrite (Permutation_app_comm m1 u2), app_assoc, H2.
  rewrite <-app_assoc, (Permutation_app_comm u m1), app_assoc, H1. by rewrite app_assoc.
Qed.

Lemma scatterPodsByRule_perm term pods indexes :
  scatterPodsByRule term pods indexes ≡ₚ indexes.
Proof.
  unfold scatterPodsByRule.
  set (mi := filterb (matches term pods) indexes).
  set (ui := filterb (fun i => negb (matches term pods i)) indexes).
  destruct ((len mi <=? 1) || (len ui <=? 1)) eqn:E; [done|]. zbool.
  assert (mi <> []) as Hmi by (intros Hnil; rewrite Hnil in *; simpl in *; lia).
  set (g := group_of _ _ _ _).
  assert (mi ++ ui ≡ₚ indexes) as Hsplit by apply filterb_perm_split.
  assert (forall u d, d ++ u = ui ->
    let '(m', u', d') := migrate_loop (Z.to_nat (groupNum g)) (matchedGroupSize g)
      (unmatchedGroupSize g) (removelast mi) u d in
    (d' ++ m' ++ u') ++ [List.last mi 0%nat] ≡ₚ indexes) as Hrun.
  { intros u d Hdu.
    pose proof (migrate_loop_perm (Z.to_nat (groupNum g)) (matchedGroupSize g)
      (unmatchedGroupSize g) (removelast mi) u d) as HP.
    destruct (migrate_loop _ _ _ _ _ _) as [[m' u'] d'].
    rewrite HP, <-Hsplit. rewrite (app_removelast_last 0%nat Hmi) at 3.
    rewrite <-Hdu. rewrite !(Permutation_app_comm _ [List.last mi 0%nat]).
    rewrite <-!app_assoc. apply Permutation_app_head.
    by rewrite !app_assoc, (Permutation_app_comm d (removelast mi)). }
  destruct (0 <? unmatchedRemainder g).
  - specialize (Hrun (slice_from ui (unmatchedRemainder g)) (slice_to ui (unmatchedRemainder g))
      (take_drop _ ui)). by destruct (migrate_loop _ _ _ _ _ _) as [[m' u'] d'].
  - specialize (Hrun ui [] eq_refl). by destruct (migrate_loop _ _ _ _ _ _) as [[m' u'] d'].
Qed.

Lemma scatter_perm strategy pods indexes : Sort strategy pods indexes ≡ₚ indexes.
Proof.
  unfold Sort. destruct (_ || _); [done|].
  generalize (getScatterTerms strategy pods indexes) as terms.
  intros terms. revert indexes. induction terms as [|t terms IH]; intros indexes; simpl; [done|].
  by rewrite IH, scatterPodsByRule_perm.
Qed.

(** Sizes: no division by zero and no slice out of range. *)
Lemma round_quot_exact a b : 0 < a < 2 ^ 31 -> 0 < b < 2 ^ 31 -> round_quot a b = (2 * a + b) / (2 * b).
Proof. intros. unfold round_quot. apply f64_round_quot_exact; lia. Qed.

Lemma newScatterGroup_sizes m u : 0 < m < 2 ^ 31 -> 0 < u < 2 ^ 31 ->
  let g := newScatterGroup m u in
  0 < groupNum g /\ groupNum g = Z.min m u /\ 0 < matchedGroupSize g /\ 0 < unmatchedGroupSize g /\
  unmatchedRemainder g = 0.
Proof.
  intros Hm Hu. unfold newScatterGroup.
  assert (forall a, Z.min m u <= a < 2 ^ 31 -> 0 < round_quot a (Z.min m u)) as Hpos.
  { intros a Ha. rewrite round_quot_exact by lia. apply Z.div_str_pos. lia. }
  destruct (m <? u) eqn:E; zbool; simpl.
  - pose proof (Hpos m). pose proof (Hpos u). rewrite Z.min_l in * by lia. repeat split; auto; lia.
  - pose proof (Hpos m). pose proof (Hpos u). rewrite Z.min_r in * by lia. repeat split; auto; lia.
Qed.

Lemma calculateGroupByDensity_ok tm tu um uu :
  0 < tm < 2 ^ 31 -> 0 < tu < 2 ^ 31 -> 0 < um < 2 ^ 31 -> 0 < uu < 2 ^ 31 ->
  let g := calculateGroupByDensity tm tu um uu in
  0 < matchedGroupSize g /\ 0 < unmatchedGroupSize g /\ 0 <= groupNum g /\
  0 <= unmatchedRemainder g <= uu.
Proof.
  intros Htm Htu Hum Huu. unfold calculateGroupByDensity.
  destruct (newScatterGroup_sizes tm tu Htm Htu) as (_ & _ & Hms & Hus & _).
  destruct (newScatterGroup_sizes um uu Hum Huu) as (Hn & _ & Hms' & Hus' & Hr).
  destruct (fp_ge _ _); [rewrite Hr; repeat split; auto; lia|].
  revert Hms Hus. generalize (matchedGroupSize (newScatterGroup tm tu)) as ms.
  generalize (unmatchedGroupSize (newScatterGroup tm tu)) as us. intros us ms Hms Hus. simpl.
  unfold go_div. rewrite !Z.quot_div_nonneg by lia.
  pose proof (Z.div_pos um ms ltac:(lia) ltac:(lia)).
  pose proof (Z.div_pos uu us ltac:(lia) ltac:(lia)).
  pose proof (Z.mul_div_le uu us ltac:(lia)).
  destruct (um / ms <? uu / us) eqn:E; zbool; repeat split; auto; nia.
Qed.

(** Distinct positions of [pods] match no more often than all positions. *)
Lemma countb_indexes (f : nat -> bool) n indexes :
  NoDup indexes -> (forall i, i ∈ indexes -> (i < n)%nat) ->
  countb f indexes <= countb f (seq 0 n) <= Z.of_nat n.
Proof.
  intros Hnd Hlt. split.
  - assert (Hsub : indexes ⊆+ seq 0 n).
    { apply NoDup_submseteq; [done|]. intros i Hi. apply elem_of_seq. specialize (Hlt i Hi). lia. }
    apply submseteq_Permutation in Hsub as [k Hk]. rewrite (countb_perm f _ _ Hk), countb_app.
    pose proof (countb_nonneg f k). lia.
  - pose proof (countb_le_length f (seq 0 n)) as Hl. by rewrite length_seq in Hl.
Qed.

(** Scattering loses and duplicates no pod, for any strategy; and when it
    does scatter by a term, the group sizes it divides by are positive and
    the leading block it cuts off lies within the unmatched pods, so that it
    neither divides by zero nor slices out of range. *)
Theorem scatter_safe strategy term pods indexes :
  NoDup indexes -> (forall i, i ∈ indexes -> (i < length pods)%nat) -> len pods < 2 ^ 31 ->
  let mi := filterb (matches term pods) indexes in
  let ui := filterb (fun i => negb (matches term pods i)) indexes in
  let g := group_of term pods (removelast mi) ui in
  Sort strategy pods indexes ≡ₚ indexes
  /\ scatterPodsByRule term pods indexes ≡ₚ indexes
  /\ (1 < len mi -> 1 < len ui ->
      0 < matchedGroupSize g /\ 0 < unmatchedGroupSize g /\ 0 <= groupNum g
      /\ 0 <= unmatchedRemainder g <= len ui).
Proof.
  intros Hnd Hlt Hlen mi ui g. split_and!; [apply scatter_perm|apply scatterPodsByRule_perm|].
  intros Hm Hu.
  pose proof (countb_indexes (matches term pods) _ _ Hnd Hlt) as Hcm.
  pose proof (countb_indexes (fun i => negb (matches term pods i)) _ _ Hnd Hlt) as Hcu.
  rewrite (countb_filterb _ indexes) in Hcm. rewrite (countb_filterb _ indexes) in Hcu. fold mi in Hcm. fold ui in Hcu.
  assert (Hr : len mi = len (removelast mi) + 1).
  { assert (Hne : mi <> []) by (intros E; rewrite E in Hm; simpl in Hm; lia).
    rewrite (app_removelast_last 0%nat Hne) at 1. rewrite length_app. simpl. lia. }
  apply calculateGroupByDensity_ok; lia.
Qed.

Lemma scatter_safe_witness :
  let pods := Priority.ex_pods ++ Priority.ex_pods in
  let term := mkScatter "app" "x" in
  scatterPodsByRule term pods [0; 1; 2; 3; 4; 5]%nat = [0; 2; 1; 3; 4; 5]%nat
  /\ 0 < matchedGroupSize (group_of term pods [0; 2; 3]%nat [1; 4]%nat).
Proof.
  cbv zeta. split; [vm_compute; reflexivity|].
  apply (scatter_safe [] (mkScatter "app" "x") (Priority.ex_pods ++ Priority.ex_pods) [0; 1; 2; 3; 4; 5]%nat);
    [apply (bool_decide_unpack _); vm_compute; exact I| |reflexivity|reflexivity|reflexivity].
  intros i Hi. repeat (apply elem_of_cons in Hi as [->|Hi]; [simpl; lia|]). by apply not_elem_of_nil in Hi.
Defined.

End Scatter.
