(* ===== verification/CloneSetDiff.v ===== *)
(** * pkg/controller/cloneset/sync/cloneset_sync_utils.go

    The CloneSet object, the availability of its pods (core/cloneset_core.go) and
    [calculateDiffsWithExpectation], which computes from the pods of a CloneSet
    how many to create, delete and update.  Go's [int] is [Z] here: with at most
    [MaxInt32] pods and replicas every sum of the computation stays far below 64
    bits.  [spec.replicas] is never [nil] in the objects the controller reads (the
    webhook defaults it); the model reads [0] there, and the theorems ask for a
    value. *)

From S2P Require Import Prelude GoLib GoText K8s Tools Lifecycle UpdateSort.
Open Scope Z_scope.
Open Scope kruise_scope.

(** ** The object *)

Record CloneSet := mkCloneSet {
  cs_name : string;
  cs_namespace : string;
  cs_labels : gmap string string;
  spec_Replicas : option Z;
  spec_MinReadySeconds : Z;
  scale_PodsToDelete : list string;
  scale_MaxUnavailable : option IntOrString;
  update_Type : string;
  update_Partition : option IntOrString;
  update_MaxUnavailable : option IntOrString;
  update_MaxSurge : option IntOrString;
  update_Paused : bool;
  update_PriorityStrategy : option UpdatePriorityStrategy;
  update_ScatterStrategy : option UpdateScatterStrategy;
  update_GracePeriodSeconds : option Z;
  spec_Lifecycle : option LifecycleSpec;
  spec_VolumeClaimTemplates : list PersistentVolumeClaim;
  spec_MatchLabels : gmap string string;
  spec_TopologyKeys : list string;
  spec_TemplateLabels : gmap string string;
}.

(** The feature gates and flags the code reads. *)
Record Gates := mkGates {
  g_CloneSetPartitionRollback : bool;
  g_PreparingUpdateAsUpdate : bool;
  g_CloneSetShortHash : bool;
  g_PodUnavailableBudgetUpdateGate : bool;
  g_scalingExcludePreparingDelete : bool;
}.

Definition DefaultCloneSetMaxUnavailable : string := "20%".
Definition CloneSetScalingExcludePreparingDeleteKey : string :=
  "apps.kruise.io/cloneset-scaling-exclude-preparing-delete".
Definition InPlaceIfPossible : string := "InPlaceIfPossible".
Definition InPlaceOnly : string := "InPlaceOnly".

(** ** Availability *)

(** [IsRunningAndAvailable]. *)
Definition IsRunningAndAvailable (now : Z) (p : Pod) (minReadySeconds : Z) : bool :=
  String.eqb (p_phase p) PodRunning && IsPodAvailable_k8s p minReadySeconds now.

(** [commonControl.IsPodUpdateReady]. *)
Definition IsPodUpdateReady (now : Z) (p : Pod) (minReadySeconds : Z) : bool :=
  if negb (IsRunningAndAvailable now p minReadySeconds) then false
  else match PodsUtil.GetCondition p InPlaceUpdateReady with
       | Some c => String.eqb (c_status c) ConditionTrue
       | None => true
       end.

Definition IsPodAvailable (now : Z) (p : Pod) (minReadySeconds : Z) : bool :=
  let state := Hooks.GetPodLifecycleState p in
  if negb (String.eqb state "") && negb (String.eqb state LifecycleStateNormal) then false
  else IsPodUpdateReady now p minReadySeconds.

Definition isPodReady (now : Z) (p : Pod) : bool := IsPodAvailable now p 0.

Definition isSpecifiedDelete (cs : CloneSet) (p : Pod) : bool :=
  IsSpecifiedDelete p || existsb (fun name => String.eqb name (p_name p)) (scale_PodsToDelete cs).

Definition shouldScalingExcludePreparingDelete (g : Gates) (cs : CloneSet) : bool :=
  g_scalingExcludePreparingDelete g
  || String.eqb (lbl (cs_labels cs) CloneSetScalingExcludePreparingDeleteKey) "true".

(** ** The differences *)

Record expectationDiffs := mkDiffs {
  scaleUpNum : Z;
  scaleUpNumOldRevision : Z;
  scaleDownNum : Z;
  scaleDownNumOldRevision : Z;
  scaleUpLimit : Z;
  deleteReadyLimit : Z;
  useSurge : Z;
  useSurgeOldRevision : Z;
  updateNum : Z;
  updateMaxUnavailable : Z;
}.

#[export] Instance expectationDiffs_eq_dec : EqDecision expectationDiffs.
Proof. solve_decision. Defined.

Definition isEmpty (d : expectationDiffs) : bool :=
  bool_decide (d = mkDiffs 0 0 0 0 0 0 0 0 0 0).

(** The counters of the loop over the pods. *)
Record Counts := mkCounts {
  newRevisionCount : Z;
  newRevisionActiveCount : Z;
  oldRevisionCount : Z;
  oldRevisionActiveCount : Z;
  unavailableNewRevisionCount : Z;
  unavailableOldRevisionCount : Z;
  toDeleteNewRevisionCount : Z;
  toDeleteOldRevisionCount : Z;
  preDeletingNewRevisionCount : Z;
  preDeletingOldRevisionCount : Z;
}.

Definition no_counts : Counts := mkCounts 0 0 0 0 0 0 0 0 0 0.

(** One turn of the loop; the three classifiers are [isPodUpdate],
    "in state PreparingDelete", [isSpecifiedDelete] and [IsPodAvailable]. *)
Definition count_pod (isNew preDeleting toDelete available : Pod -> bool) (c : Counts) (p : Pod) : Counts :=
  let '(mkCounts nc na oc oa un uo tn to pn po) := c in
  if isNew p then
    if preDeleting p then mkCounts (nc + 1) na oc oa un uo tn to (pn + 1) po
    else if toDelete p then mkCounts (nc + 1) (na + 1) oc oa un uo (tn + 1) to pn po
    else if negb (available p) then mkCounts (nc + 1) (na + 1) oc oa (un + 1) uo tn to pn po
    else mkCounts (nc + 1) (na + 1) oc oa un uo tn to pn po
  else
    if preDeleting p then mkCounts nc na (oc + 1) oa un uo tn to pn (po + 1)
    else if toDelete p then mkCounts nc na (oc + 1) (oa + 1) un uo tn (to + 1) pn po
    else if negb (available p) then mkCounts nc na (oc + 1) (oa + 1) un (uo + 1) tn to pn po
    else mkCounts nc na (oc + 1) (oa + 1) un uo tn to pn po.

(** The numbers read from the spec. *)
Record Limits := mkLimits {
  l_replicas : Z;
  l_partition : Z;
  l_maxSurge : Z;
  l_maxUnavailable : Z;
  l_scaleMaxUnavailable : Z;
}.

Definition limits_of (cs : CloneSet) : Limits :=
  let replicas := default 0 (spec_Replicas cs) in
  let partition :=
    match update_Partition cs with
    | Some p => default 0 (Num.CalculatePartitionReplicas (Some p) (spec_Replicas cs))
    | None => 0
    end in
  let maxSurge :=
    match update_MaxSurge cs with
    | Some s => if update_Paused cs then 0 else GetValueFromIntOrPercent_ s replicas true
    | None => 0
    end in
  let maxUnavailable :=
    GetValueFromIntOrPercent_
      (ValueOrDefault (update_MaxUnavailable cs) (FromString DefaultCloneSetMaxUnavailable))
      replicas (maxSurge =? 0) in
  let scaleMaxUnavailable :=
    GetValueFromIntOrPercent_
      (ValueOrDefault (scale_MaxUnavailable cs) (FromInt int32_max)) replicas true in
  mkLimits replicas partition maxSurge maxUnavailable scaleMaxUnavailable.

(** The numbers of surge to use: [useSurge] and [useSurgeOldRevision]. *)
Definition surge_of (l : Limits) (c : Counts) (updateOldDiff updateNewDiff totalUnavailable : Z) : Z * Z :=
  if 0 <? l_maxSurge l then
    let toDeleteCount := toDeleteNewRevisionCount c + toDeleteOldRevisionCount c in
    let '(scaleSurge, scaleOldRevisionSurge) :=
      if 0 <? toDeleteCount then
        let scaleSurge :=
          Z.min (Z.max (totalUnavailable + toDeleteCount - l_maxUnavailable l) 0) toDeleteCount in
        (scaleSurge,
         if toDeleteNewRevisionCount c <? scaleSurge
         then scaleSurge - toDeleteNewRevisionCount c else 0)
      else (0, 0) in
    let '(updateSurge, updateOldRevisionSurge) :=
      if Num.IsIntPlusAndMinus updateOldDiff updateNewDiff then
        if Num.IntAbs updateOldDiff <=? Num.IntAbs updateNewDiff then
          (Num.IntAbs updateOldDiff,
           if updateOldDiff <? 0 then Num.IntAbs updateOldDiff else 0)
        else
          (Num.IntAbs updateNewDiff,
           if 0 <? updateNewDiff then Num.IntAbs updateNewDiff else 0)
      else (0, 0) in
    if updateSurge <=? scaleSurge then
      let useSurge := Z.min (l_maxSurge l) scaleSurge in
      (useSurge, Z.min useSurge scaleOldRevisionSurge)
    else
      let useSurge := Z.min (l_maxSurge l) updateSurge in
      (useSurge, Z.min useSurge updateOldRevisionSurge)
  else (0, 0).

(** The rest of the function, from the counters on: [npods] is [len(pods)],
    [noRollback] whether pods can only move to the update revision. *)
Definition diffs_of (l : Limits) (c : Counts) (npods : Z) (noRollback exclude : bool) : expectationDiffs :=
  let replicas := l_replicas l in
  let partition := l_partition l in
  let updateOldDiff := oldRevisionActiveCount c - partition in
  let updateNewDiff := newRevisionActiveCount c - (replicas - partition) in
  let totalUnavailable := preDeletingNewRevisionCount c + preDeletingOldRevisionCount c
    + unavailableNewRevisionCount c + unavailableOldRevisionCount c in
  let '(updateOldDiff, updateNewDiff) :=
    if noRollback then (Z.max updateOldDiff 0, Z.min updateNewDiff 0)
    else (updateOldDiff, updateNewDiff) in
  let '(useSurge, useSurgeOld) := surge_of l c updateOldDiff updateNewDiff totalUnavailable in
  let '(currentTotalCount, currentTotalOldCount) :=
    if exclude then
      (npods - preDeletingOldRevisionCount c - preDeletingNewRevisionCount c,
       oldRevisionCount c - preDeletingOldRevisionCount c)
    else (npods, oldRevisionCount c) in
  let expectedTotalCount := replicas + useSurge in
  let expectedTotalOldCount := partition + useSurgeOld in
  let up := expectedTotalCount - currentTotalCount in
  let '(upNum, upOld, upLimit) :=
    if 0 <? up then
      (up, Z.max (expectedTotalOldCount - currentTotalOldCount) 0,
       Z.min up (Z.max (l_scaleMaxUnavailable l - totalUnavailable) 0))
    else (0, 0, 0) in
  let down := currentTotalCount - toDeleteOldRevisionCount c - toDeleteNewRevisionCount c
              - expectedTotalCount in
  let '(downNum, downOld) :=
    if 0 <? down then
      (down, Z.max (currentTotalOldCount - toDeleteOldRevisionCount c - expectedTotalOldCount) 0)
    else (0, 0) in
  let readyLimit :=
    if (0 <? toDeleteNewRevisionCount c) || (0 <? toDeleteOldRevisionCount c) || (0 <? downNum)
    then Z.max (l_maxUnavailable l + (npods - replicas) - totalUnavailable) 0 else 0 in
  let updateNum :=
    if Num.IntAbs updateOldDiff <=? Num.IntAbs updateNewDiff
    then updateOldDiff else 0 - updateNewDiff in
  let updateMaxUnavailable :=
    if negb (updateNum =? 0) then l_maxUnavailable l + npods - replicas else 0 in
  mkDiffs upNum upOld downNum downOld upLimit readyLimit useSurge useSurgeOld
    updateNum updateMaxUnavailable.

Definition in_pre_delete (p : Pod) : bool :=
  String.eqb (Hooks.GetPodLifecycleState p) LifecycleStatePreparingDelete.

(** The counters for the pods of a CloneSet. *)
Definition counts_of (now : Z) (cs : CloneSet) (isNew : Pod -> bool) (pods : list Pod) : Counts :=
  fold_left (count_pod isNew in_pre_delete (isSpecifiedDelete cs)
               (fun p => IsPodAvailable now p (spec_MinReadySeconds cs))) pods no_counts.

(** [isPodUpdate] is [None] for Go's [nil]: then the revision label decides. *)
Definition calculateDiffsWithExpectation (g : Gates) (now : Z) (cs : CloneSet) (pods : list Pod)
  (currentRevision updateRevision : string) (isPodUpdate : option (Pod -> string -> bool))
  : expectationDiffs :=
  let isNew p :=
    match isPodUpdate with
    | Some f => f p updateRevision
    | None => Revision.EqualToRevisionHash p updateRevision
    end in
  diffs_of (limits_of cs) (counts_of now cs isNew pods) (len pods)
    (String.eqb updateRevision currentRevision || negb (g_CloneSetPartitionRollback g))
    (shouldScalingExcludePreparingDelete g cs).

(** ** Lemmas on the counters *)

Section Counting.
Context (isNew preDeleting toDelete available : Pod -> bool).

Definition sel_new (f : Pod -> bool) (p : Pod) : bool := isNew p && f p.
Definition sel_old (f : Pod -> bool) (p : Pod) : bool := negb (isNew p) && f p.
Definition active (p : Pod) : bool := negb (preDeleting p).
Definition deleting (p : Pod) : bool := active p && toDelete p.
Definition unavailable (p : Pod) : bool := active p && negb (toDelete p) && negb (available p).

(** What the counters stand for. *)
Definition counts_spec (pods : list Pod) : Counts :=
  mkCounts
    (countb isNew pods) (countb (sel_new active) pods)
    (countb (fun p => negb (isNew p)) pods) (countb (sel_old active) pods)
    (countb (sel_new unavailable) pods) (countb (sel_old unavailable) pods)
    (countb (sel_new deleting) pods) (countb (sel_old deleting) pods)
    (countb (sel_new preDeleting) pods) (countb (sel_old preDeleting) pods).

Definition add_counts (a b : Counts) : Counts :=
  mkCounts
    (newRevisionCount a + newRevisionCount b)
    (newRevisionActiveCount a + newRevisionActiveCount b)
    (oldRevisionCount a + oldRevisionCount b)
    (oldRevisionActiveCount a + oldRevisionActiveCount b)
    (unavailableNewRevisionCount a + unavailableNewRevisionCount b)
    (unavailableOldRevisionCount a + unavailableOldRevisionCount b)
    (toDeleteNewRevisionCount a + toDeleteNewRevisionCount b)
    (toDeleteOldRevisionCount a + toDeleteOldRevisionCount b)
    (preDeletingNewRevisionCount a + preDeletingNewRevisionCount b)
    (preDeletingOldRevisionCount a + preDeletingOldRevisionCount b).

Lemma count_pod_add c p :
  count_pod isNew preDeleting toDelete available c p = add_counts c (counts_spec [p]).
Proof.
  destruct c. unfold count_pod, add_counts, counts_spec, sel_new, sel_old, deleting, unavailable, active.
  simpl. destruct (isNew p), (preDeleting p), (toDelete p), (available p); simpl; f_equal; lia.
Qed.

Lemma count_fold pods c :
  fold_left (count_pod isNew preDeleting toDelete available) pods c = add_counts c (counts_spec pods).
Proof.
  revert c. induction pods as [|p pods IH]; intros c; cbn [fold_left].
  - destruct c. unfold add_counts, counts_spec. simpl. f_equal; lia.
  - rewrite IH, count_pod_add. unfold add_counts, counts_spec. simpl. f_equal; lia.
Qed.

Lemma countb_disj {A} (f h k : A -> bool) l :
  (forall x, b2z (f x) = b2z (h x) + b2z (k x)) -> countb f l = countb h l + countb k l.
Proof.
  intros H. induction l as [|x l IH]; simpl; [done|]. specialize (H x). unfold b2z in H.
  destruct (f x), (h x), (k x); lia.
Qed.

Lemma countb_disj_le {A} (f h k : A -> bool) l :
  (forall x, b2z (h x) + b2z (k x) <= b2z (f x)) -> countb h l + countb k l <= countb f l.
Proof.
  intros H. induction l as [|x l IH]; simpl; [done|]. specialize (H x). unfold b2z in H.
  destruct (f x), (h x), (k x); lia.
Qed.
End Counting.

(** The relations between the counters that the rest of the function relies on. *)
Definition counts_ok (c : Counts) (npods : Z) : Prop :=
  newRevisionCount c + oldRevisionCount c = npods /\
  newRevisionCount c = newRevisionActiveCount c + preDeletingNewRevisionCount c /\
  oldRevisionCount c = oldRevisionActiveCount c + preDeletingOldRevisionCount c /\
  toDeleteNewRevisionCount c + unavailableNewRevisionCount c <= newRevisionActiveCount c /\
  toDeleteOldRevisionCount c + unavailableOldRevisionCount c <= oldRevisionActiveCount c /\
  0 <= preDeletingNewRevisionCount c /\ 0 <= preDeletingOldRevisionCount c /\
  0 <= toDeleteNewRevisionCount c /\ 0 <= toDeleteOldRevisionCount c /\
  0 <= unavailableNewRevisionCount c /\ 0 <= unavailableOldRevisionCount c.

Lemma counts_of_eq now cs isNew pods :
  counts_of now cs isNew pods
  = counts_spec isNew in_pre_delete (isSpecifiedDelete cs)
      (fun p => IsPodAvailable now p (spec_MinReadySeconds cs)) pods.
Proof.
  unfold counts_of. rewrite count_fold. unfold add_counts, no_counts, counts_spec. simpl. done.
Qed.

Lemma counts_spec_ok isNew pre del avail pods :
  counts_ok (counts_spec isNew pre del avail pods) (len pods).
Proof.
  unfold counts_ok, counts_spec; simpl.
  split; [apply countb_split|].
  split; [apply countb_disj; intros x; unfold sel_new, active; destruct (isNew x), (pre x); done|].
  split; [apply countb_disj; intros x; unfold sel_old, active; destruct (isNew x), (pre x); done|].
  split; [apply countb_disj_le; intros x; unfold sel_new, deleting, unavailable, active;
          destruct (isNew x), (pre x), (del x), (avail x); done|].
  split; [apply countb_disj_le; intros x; unfold sel_old, deleting, unavailable, active;
          destruct (isNew x), (pre x), (del x), (avail x); done|].
  repeat split; auto with kruise.
Qed.

Lemma counts_of_ok now cs isNew pods : counts_ok (counts_of now cs isNew pods) (len pods).
Proof. rewrite counts_of_eq. apply counts_spec_ok. Qed.

(** Numbers for which the arithmetic is that of mathematical integers. *)
Record limits_ok (l : Limits) (npods : Z) : Prop := {
  lo_replicas : 0 <= l_replicas l <= int32_max;
  lo_partition : 0 <= l_partition l <= l_replicas l;
  lo_npods : 0 <= npods <= int32_max;
}.

Lemma limits_of_ok cs npods r :
  spec_Replicas cs = Some r -> 0 <= r <= int32_max -> 0 <= npods <= int32_max ->
  limits_ok (limits_of cs) npods.
Proof.
  intros Hr Hb Hn. unfold limits_of. rewrite Hr.
  split; cbn [l_replicas l_partition default from_option id]; [done| |done].
  destruct (update_Partition cs) as [p|]; [|lia].
  destruct (Num.CalculatePartitionReplicas (Some p) (Some r)) as [v|] eqn:E; cbn [default from_option id]; [|lia].
  apply (Num.CalculatePartitionReplicas_range _ _ _) in E; lia.
Qed.

Lemma available_not_pre_delete now p m : IsPodAvailable now p m = true -> in_pre_delete p = false.
Proof.
  unfold IsPodAvailable, in_pre_delete. intros H.
  destruct (String.eqb_spec (Hooks.GetPodLifecycleState p) LifecycleStatePreparingDelete) as [E|]; [|done].
  rewrite E in H. done.
Qed.

(** An available pod is ready at once. *)
Lemma available_ready now p m : IsPodAvailable now p m = true -> isPodReady now p = true.
Proof.
  unfold isPodReady, IsPodAvailable, IsPodUpdateReady, IsRunningAndAvailable, IsPodAvailable_k8s.
  destruct (_ && negb (String.eqb _ LifecycleStateNormal)); [done|].
  destruct (String.eqb (p_phase p) PodRunning); [|done]. simpl.
  destruct (IsPodReady p); [|done]. simpl. destruct (GetPodReadyCondition p); [|done].
  simpl. by destruct (_ || _).
Qed.

(** Opens the definition on the counters and the limits. *)
Ltac open_diffs Hl Hc :=
  destruct Hl as [? ? ?];
  destruct Hc as (? & ? & ? & ? & ? & ? & ? & ? & ? & ? & ?);
  unfold int32_max in *.

(** The surge computed is bounded by [maxSurge]. *)
Lemma surge_of_bounds l c uo un tu :
  - 2 ^ 40 <= uo <= 2 ^ 40 -> - 2 ^ 40 <= un <= 2 ^ 40 ->
  0 <= toDeleteNewRevisionCount c -> 0 <= toDeleteOldRevisionCount c ->
  let '(s, so) := surge_of l c uo un tu in
  0 <= so <= s /\ s <= Z.max 0 (l_maxSurge l) /\
  s <= Z.max (toDeleteNewRevisionCount c + toDeleteOldRevisionCount c)
         (Z.min (Z.abs uo) (Z.abs un)).
Proof.
  intros Huo Hun Hn Ho. unfold surge_of.
  rewrite !Num.IntAbs_small by lia.
  destruct (0 <? l_maxSurge l) eqn:E; zbool; [|lia].
  destruct (0 <? toDeleteNewRevisionCount c + toDeleteOldRevisionCount c) eqn:E1;
    destruct (Num.IsIntPlusAndMinus uo un) eqn:E2; zbool.
  all: try (destruct (Z.abs uo <=? Z.abs un) eqn:E3; zbool).
  all: zcases.
Qed.

(** ** What the result promises *)

(** Every number of the result but [updateNum] and [updateMaxUnavailable] is
    non-negative, as the comments on the fields say. *)
Definition diffs_wf (l : Limits) (d : expectationDiffs) : Prop :=
  0 <= scaleUpLimit d <= scaleUpNum d /\ 0 <= scaleUpNumOldRevision d /\
  0 <= scaleDownNum d /\ 0 <= scaleDownNumOldRevision d /\ 0 <= deleteReadyLimit d /\
  0 <= useSurgeOldRevision d <= useSurge d /\ useSurge d <= Z.max 0 (l_maxSurge l) /\
  (scaleUpNum d = 0 \/ scaleDownNum d = 0).

(** The quantities of the computation, named. *)
Definition totalUnavailable_of (c : Counts) : Z :=
  preDeletingNewRevisionCount c + preDeletingOldRevisionCount c
  + unavailableNewRevisionCount c + unavailableOldRevisionCount c.
Definition toDelete_of (c : Counts) : Z := toDeleteOldRevisionCount c + toDeleteNewRevisionCount c.
Definition counted_of (c : Counts) (npods : Z) (exclude : bool) : Z :=
  if exclude then npods - preDeletingOldRevisionCount c - preDeletingNewRevisionCount c else npods.
Definition counted_old_of (c : Counts) (exclude : bool) : Z :=
  if exclude then oldRevisionCount c - preDeletingOldRevisionCount c else oldRevisionCount c.
Definition update_diffs (l : Limits) (c : Counts) (noRollback : bool) : Z * Z :=
  let o := oldRevisionActiveCount c - l_partition l in
  let n := newRevisionActiveCount c - (l_replicas l - l_partition l) in
  if noRollback then (Z.max o 0, Z.min n 0) else (o, n).

Lemma update_diffs_bounds l c npods no :
  limits_ok l npods -> counts_ok c npods ->
  - 2 ^ 40 <= (update_diffs l c no).1 <= 2 ^ 40 /\ - 2 ^ 40 <= (update_diffs l c no).2 <= 2 ^ 40.
Proof.
  intros Hl Hc. unfold update_diffs. open_diffs Hl Hc. destruct no; simpl; lia.
Qed.

(** The scale part of the result. *)
Lemma diffs_of_scale l c npods no exc :
  let d := diffs_of l c npods no exc in
  let missing := l_replicas l + useSurge d - counted_of c npods exc in
  scaleUpNum d = Z.max 0 missing /\
  scaleUpLimit d =
    Z.min (scaleUpNum d) (Z.max (l_scaleMaxUnavailable l - totalUnavailable_of c) 0) /\
  scaleUpNumOldRevision d =
    (if 0 <? scaleUpNum d
     then Z.max (l_partition l + useSurgeOldRevision d - counted_old_of c exc) 0 else 0) /\
  scaleDownNum d = Z.max 0 (- missing - toDelete_of c) /\
  scaleDownNumOldRevision d =
    (if 0 <? scaleDownNum d
     then Z.max (counted_old_of c exc - toDeleteOldRevisionCount c
                 - (l_partition l + useSurgeOldRevision d)) 0 else 0) /\
  deleteReadyLimit d =
    (if (0 <? toDeleteNewRevisionCount c) || (0 <? toDeleteOldRevisionCount c) || (0 <? scaleDownNum d)
     then Z.max (l_maxUnavailable l + (npods - l_replicas l) - totalUnavailable_of c) 0 else 0).
Proof.
  unfold diffs_of, counted_of, counted_old_of, totalUnavailable_of, toDelete_of.
  destruct (if no then _ else _) as [uo un].
  destruct (surge_of l c uo un _) as [s so].
  destruct exc.
  all: destruct (0 <? l_replicas l + s - _) eqn:E1; destruct (0 <? _ - _ - _ - (l_replicas l + s)) eqn:E2.
  all: simpl; rewrite ?E1, ?E2; zbool; repeat split; lia.
Qed.

(** The surge and update parts. *)
Lemma diffs_of_update l c npods no exc :
  let d := diffs_of l c npods no exc in
  let '(uo, un) := update_diffs l c no in
  (useSurge d, useSurgeOldRevision d) = surge_of l c uo un (totalUnavailable_of c) /\
  updateNum d = (if Num.IntAbs uo <=? Num.IntAbs un then uo else 0 - un) /\
  updateMaxUnavailable d =
    (if negb (updateNum d =? 0) then l_maxUnavailable l + npods - l_replicas l else 0).
Proof.
  unfold diffs_of, update_diffs, totalUnavailable_of.
  destruct (if no then _ else _) as [uo un].
  destruct (surge_of l c uo un _) as [s so].
  destruct (if exc then _ else _) as [n no'].
  destruct (if 0 <? l_replicas l + s - n then _ else _) as [[? ?] ?].
  destruct (if 0 <? _ - _ - _ - (l_replicas l + s) then _ else _) as [? ?].
  simpl. done.
Qed.

(** Nothing to do when nothing is unavailable, doomed or misplaced. *)
Lemma diffs_of_steady l c npods no exc :
  counts_ok c npods -> totalUnavailable_of c = 0 -> toDelete_of c = 0 ->
  npods = l_replicas l -> oldRevisionActiveCount c = l_partition l ->
  diffs_of l c npods no exc = mkDiffs 0 0 0 0 0 0 0 0 0 0.
Proof.
  unfold counts_ok, totalUnavailable_of, toDelete_of.
  destruct l as [r pt ms mu smu], c as [nc na oc oa un uo tn to pn po]; simpl.
  intros (? & ? & ? & ? & ? & ? & ? & ? & ? & ? & ?) ? ? ? ?.
  assert (pn = 0 /\ po = 0 /\ tn = 0 /\ to = 0 /\ un = 0 /\ uo = 0) as (-> & -> & -> & -> & -> & ->) by lia.
  unfold diffs_of, surge_of; simpl.
  replace (oa - pt) with 0 by lia. replace (na - (r - pt)) with 0 by lia.
  assert (oc = pt /\ npods = r) as [-> ->] by lia.
  assert (Hms : Z.min ms 0 = 0 \/ (0 <? ms) = false) by (destruct (0 <? ms) eqn:E; zbool; [left; lia|right; done]).
  destruct no; simpl; destruct Hms as [Hms|Hms].
  all: rewrite ?Hms; destruct (0 <? ms), exc; simpl; rewrite ?Z.sub_0_r, ?Z.add_0_r, ?Z.sub_diag; done.
Qed.

Lemma if_max_nonneg (b : bool) x : 0 <= (if b then Z.max x 0 else 0).
Proof. destruct b; lia. Qed.

Lemma diffs_of_wf l c npods no exc :
  limits_ok l npods -> counts_ok c npods -> diffs_wf l (diffs_of l c npods no exc).
Proof.
  intros Hl Hc.
  pose proof (diffs_of_scale l c npods no exc) as (H1 & H2 & H3 & H4 & H5 & H6).
  pose proof (diffs_of_update l c npods no exc) as H7.
  pose proof (update_diffs_bounds l c npods no Hl Hc) as [Ho Hn].
  destruct (update_diffs l c no) as [uo un]. destruct H7 as (H7 & _ & _).
  pose proof (surge_of_bounds l c uo un (totalUnavailable_of c) Ho Hn) as H8.
  rewrite <-H7 in H8. destruct Hc as (? & ? & ? & ? & ? & ? & ? & ? & ? & ? & ?).
  destruct H8 as (? & ? & ?); [done..|].
  unfold diffs_wf. unfold toDelete_of in *.
  rewrite H3, H5, H6. repeat split; try apply if_max_nonneg; lia.
Qed.

(** The counters as counts over the pods, for the theorems below. *)
Lemma totalUnavailable_counts now cs isNew pods :
  totalUnavailable_of (counts_of now cs isNew pods)
  = countb (fun p => in_pre_delete p
      || (negb (isSpecifiedDelete cs p) && negb (IsPodAvailable now p (spec_MinReadySeconds cs)))) pods.
Proof.
  rewrite counts_of_eq. unfold totalUnavailable_of, counts_spec, sel_new, sel_old, unavailable, active.
  simpl. induction pods as [|p pods IH]; simpl; [done|].
  destruct (isNew p), (in_pre_delete p), (isSpecifiedDelete cs p), (IsPodAvailable now p _); simpl; lia.
Qed.

Lemma toDelete_counts now cs isNew pods :
  toDelete_of (counts_of now cs isNew pods)
  = countb (fun p => negb (in_pre_delete p) && isSpecifiedDelete cs p) pods.
Proof.
  rewrite counts_of_eq. unfold toDelete_of, counts_spec, sel_new, sel_old, deleting, active.
  simpl. induction pods as [|p pods IH]; simpl; [done|].
  destruct (isNew p), (in_pre_delete p), (isSpecifiedDelete cs p); simpl; lia.
Qed.

Lemma counted_counts now cs isNew pods exc :
  counted_of (counts_of now cs isNew pods) (len pods) exc
  = countb (fun p => negb (exc && in_pre_delete p)) pods.
Proof.
  rewrite counts_of_eq. unfold counted_of, counts_spec, sel_new, sel_old.
  destruct exc; cbn [newRevisionCount preDeletingNewRevisionCount preDeletingOldRevisionCount andb].
  all: induction pods as [|p pods IH]; [done|]; cbn [length countb] in *.
  all: destruct (isNew p), (in_pre_delete p); cbn [negb andb] in *; lia.
Qed.

Lemma counted_old_counts now cs isNew pods exc :
  counted_old_of (counts_of now cs isNew pods) exc
  = countb (fun p => negb (isNew p) && negb (exc && in_pre_delete p)) pods.
Proof.
  rewrite counts_of_eq. unfold counted_old_of, counts_spec, sel_new, sel_old.
  destruct exc; cbn [oldRevisionCount preDeletingOldRevisionCount andb].
  all: induction pods as [|p pods IH]; [done|]; cbn [countb] in *.
  all: destruct (isNew p), (in_pre_delete p); cbn [negb andb] in *; lia.
Qed.

(** Available pods: those the counters do not call unavailable, less the pods
    specified for deletion that are not available. *)
Lemma available_counts now cs isNew pods :
  countb (fun p => IsPodAvailable now p (spec_MinReadySeconds cs)) pods
  = len pods - totalUnavailable_of (counts_of now cs isNew pods)
    - countb (fun p => negb (in_pre_delete p) && isSpecifiedDelete cs p
                       && negb (IsPodAvailable now p (spec_MinReadySeconds cs))) pods.
Proof.
  rewrite totalUnavailable_counts. induction pods as [|p pods IH]; [done|].
  cbn [countb length]. pose proof (available_not_pre_delete now p (spec_MinReadySeconds cs)) as Hp.
  destruct (IsPodAvailable now p _); [rewrite (Hp eq_refl)|destruct (in_pre_delete p)];
    destruct (isSpecifiedDelete cs p); simpl; lia.
Qed.

Lemma diffs_up_old_nonneg g now cs pods cr ur f :
  0 <= scaleUpNumOldRevision (calculateDiffsWithExpectation g now cs pods cr ur f).
Proof.
  unfold calculateDiffsWithExpectation.
  match goal with |- context [diffs_of ?l ?c ?n ?no ?e] =>
    destruct (diffs_of_scale l c n no e) as (_ & _ & H & _) end.
  rewrite H. apply if_max_nonneg.
Qed.

(** ** Theorems *)

Section Calculate.
Context (g : Gates) (now : Z) (cs : CloneSet) (pods : list Pod)
        (currentRevision updateRevision : string) (isPodUpdate : option (Pod -> string -> bool)).

Definition is_new (p : Pod) : bool :=
  match isPodUpdate with
  | Some f => f p updateRevision
  | None => Revision.EqualToRevisionHash p updateRevision
  end.
Definition available (p : Pod) : bool := IsPodAvailable now p (spec_MinReadySeconds cs).
(** Pods of a revision that are not being prepared for deletion. *)
Definition active_new : Z := countb (fun p => is_new p && negb (in_pre_delete p)) pods.
Definition active_old : Z := countb (fun p => negb (is_new p) && negb (in_pre_delete p)) pods.

Context (replicas : Z) (Hr : spec_Replicas cs = Some replicas)
        (Hb : 0 <= replicas <= int32_max) (Hn : len pods <= int32_max).

Lemma the_limits_ok : limits_ok (limits_of cs) (len pods).
Proof. apply (limits_of_ok _ _ replicas); [done..|]. lia. Qed.

Lemma the_replicas : l_replicas (limits_of cs) = replicas.
Proof. unfold limits_of. cbn [l_replicas]. by rewrite Hr. Qed.

Let d : expectationDiffs :=
  calculateDiffsWithExpectation g now cs pods currentRevision updateRevision isPodUpdate.
Let noRollback : bool :=
  String.eqb updateRevision currentRevision || negb (g_CloneSetPartitionRollback g).

Lemma the_actives :
  newRevisionActiveCount (counts_of now cs is_new pods) = active_new /\
  oldRevisionActiveCount (counts_of now cs is_new pods) = active_old.
Proof. rewrite counts_of_eq. done. Qed.

Lemma the_update :
  let '(uo, un) := update_diffs (limits_of cs) (counts_of now cs is_new pods) noRollback in
  updateNum d = (if Z.abs uo <=? Z.abs un then uo else - un) /\
  updateMaxUnavailable d =
    (if negb (updateNum d =? 0) then l_maxUnavailable (limits_of cs) + len pods - replicas else 0).
Proof.
  pose proof (diffs_of_update (limits_of cs) (counts_of now cs is_new pods) (len pods) noRollback
                (shouldScalingExcludePreparingDelete g cs)) as H.
  pose proof (update_diffs_bounds _ _ _ noRollback the_limits_ok (counts_of_ok now cs is_new pods)) as [Ho Hn'].
  destruct (update_diffs _ _ _) as [uo un]. destruct H as (_ & H1 & H2).
  rewrite <-the_replicas. split; [|exact H2].
  rewrite !Num.IntAbs_small in H1 by done. etransitivity; [exact H1|]. split_ifs; lia.
Qed.

Lemma the_update_bounds : - 2 ^ 40 <= updateNum d <= 2 ^ 40.
Proof.
  pose proof the_update as H.
  pose proof (update_diffs_bounds _ _ _ noRollback the_limits_ok (counts_of_ok now cs is_new pods)) as [Ho Hn'].
  destruct (update_diffs _ _ _) as [uo un]. destruct H as [-> _]. simpl in *. destruct (_ <=? _); lia.
Qed.

Lemma the_update_limit : updateNum d <> 0 ->
  updateMaxUnavailable d = l_maxUnavailable (limits_of cs) + len pods - replicas.
Proof.
  intros Hne. pose proof the_update as H. destruct (update_diffs _ _ _) as [uo un]. destruct H as [_ ->].
  by destruct (Z.eqb_spec (updateNum d) 0).
Qed.

Lemma the_scale :
  let c := counts_of now cs is_new pods in
  let missing := replicas + useSurge d
    - countb (fun p => negb (shouldScalingExcludePreparingDelete g cs && in_pre_delete p)) pods in
  let countedOld := countb (fun p => negb (is_new p)
    && negb (shouldScalingExcludePreparingDelete g cs && in_pre_delete p)) pods in
  let l := limits_of cs in
  scaleUpNumOldRevision d =
    (if 0 <? scaleUpNum d then Z.max (l_partition l + useSurgeOldRevision d - countedOld) 0 else 0) /\
  scaleDownNumOldRevision d =
    (if 0 <? scaleDownNum d
     then Z.max (countedOld - countb (fun p => negb (is_new p) && (negb (in_pre_delete p) && isSpecifiedDelete cs p)) pods
                 - (l_partition l + useSurgeOldRevision d)) 0 else 0) /\
  scaleUpNum d = Z.max 0 missing /\
  scaleUpLimit d =
    Z.min (scaleUpNum d) (Z.max (l_scaleMaxUnavailable (limits_of cs) - totalUnavailable_of c) 0) /\
  scaleDownNum d = Z.max 0 (- missing - toDelete_of c) /\
  deleteReadyLimit d =
    (if (0 <? toDeleteNewRevisionCount c) || (0 <? toDeleteOldRevisionCount c) || (0 <? scaleDownNum d)
     then Z.max (l_maxUnavailable (limits_of cs) + (len pods - replicas) - totalUnavailable_of c) 0 else 0).
Proof.
  pose proof (diffs_of_scale (limits_of cs) (counts_of now cs is_new pods) (len pods) noRollback
                (shouldScalingExcludePreparingDelete g cs)) as (H1 & H2 & H3 & H4 & H5 & H6).
  rewrite counted_counts, the_replicas in *. rewrite counted_old_counts in *.
  replace (toDeleteOldRevisionCount _) with
    (countb (fun p => negb (is_new p) && (negb (in_pre_delete p) && isSpecifiedDelete cs p)) pods) in H5
    by (rewrite counts_of_eq; done).
  done.
Qed.

(** C40: The result is well formed, as the comments on the fields promise: every
    number to scale is non-negative, at most [scaleUpNum] pods may be created at
    once, the surge in use never exceeds [maxSurge], the part of it for the old
    revision never exceeds it, and a CloneSet is never told to scale up and down
    in the same computation. *)
Theorem diffs_well_formed : diffs_wf (limits_of cs) d.
Proof. apply diffs_of_wf; [apply the_limits_ok|apply counts_of_ok]. Qed.

(** C3: Scaling is exact.  With [counted] the pods that count (all of them, or all
    but those in PreparingDelete when the CloneSet excludes these) and [doomed] the
    pods specified for deletion that are not in PreparingDelete (whether or not those
    in PreparingDelete count), [scaleUpNum] is what is missing from
    [replicas + useSurge] and [scaleDownNum] is what is in excess of it once the
    doomed pods are gone. *)
Theorem diffs_scale_exact :
  let counted :=
    countb (fun p => negb (shouldScalingExcludePreparingDelete g cs && in_pre_delete p)) pods in
  let doomed := countb (fun p => negb (in_pre_delete p) && isSpecifiedDelete cs p) pods in
  scaleUpNum d = Z.max 0 (replicas + useSurge d - counted) /\
  scaleDownNum d = Z.max 0 (counted - doomed - (replicas + useSurge d)).
Proof.
  pose proof the_scale as (_ & _ & H1 & _ & H4 & _).
  rewrite toDelete_counts in H4. cbv zeta. split; [exact H1|]. lia.
Qed.

(** Scaling respects the partition.  When pods are created, the old revision
    is given what it lacks from [partition] plus its share of the surge; when pods
    are deleted, it gives up what it has above that, once the specified pods of
    the old revision are gone.  Neither is ever asked for when nothing scales. *)
Theorem diffs_scale_revisions :
  let countedOld := countb (fun p => negb (is_new p)
    && negb (shouldScalingExcludePreparingDelete g cs && in_pre_delete p)) pods in
  let doomedOld := countb (fun p => negb (is_new p)
    && (negb (in_pre_delete p) && isSpecifiedDelete cs p)) pods in
  let target := l_partition (limits_of cs) + useSurgeOldRevision d in
  scaleUpNumOldRevision d = (if 0 <? scaleUpNum d then Z.max (target - countedOld) 0 else 0) /\
  scaleDownNumOldRevision d
  = (if 0 <? scaleDownNum d then Z.max (countedOld - doomedOld - target) 0 else 0).
Proof. destruct the_scale as (H1 & H2 & _). split; [exact H1|exact H2]. Qed.

Lemma ready_limit_available :
  0 < deleteReadyLimit d ->
  countb available pods - deleteReadyLimit d
  = replicas - l_maxUnavailable (limits_of cs)
    - countb (fun p => negb (in_pre_delete p) && isSpecifiedDelete cs p && negb (available p)) pods.
Proof.
  pose proof the_scale as (_ & _ & _ & _ & _ & H6).
  intros Hpos. unfold available. rewrite (available_counts now cs is_new).
  destruct (_ || _ || _); lia.
Qed.

(** Availability under deletion.  When ready pods may be deleted at all,
    deleting [deleteReadyLimit] available pods leaves exactly
    [replicas - maxUnavailable] available pods, less the number of unavailable
    pods that are already specified for deletion (which the computation does not
    count as unavailable). *)
Theorem delete_ready_limit_exact :
  0 < deleteReadyLimit d ->
  countb available pods - deleteReadyLimit d
  = replicas - l_maxUnavailable (limits_of cs)
    - countb (fun p => negb (in_pre_delete p) && isSpecifiedDelete cs p && negb (available p)) pods.
Proof. apply ready_limit_available. Qed.

(** Scale-up throttling.  The pods created at once, together with the pods that
    are already unavailable, never exceed [scaleStrategy.maxUnavailable]. *)
Theorem scale_up_limit_bound :
  0 < scaleUpLimit d ->
  scaleUpLimit d
    + countb (fun p => in_pre_delete p || (negb (isSpecifiedDelete cs p) && negb (available p))) pods
  <= l_scaleMaxUnavailable (limits_of cs).
Proof.
  pose proof the_scale as (_ & _ & _ & H2 & _).
  rewrite totalUnavailable_counts in H2. unfold available. lia.
Qed.

(** Without partition rollback the number of pods to update is never negative
    and is exactly the smaller of what the old revision has above [partition] and
    what the new revision lacks below [replicas - partition]: updating that many
    pods neither drops the old revision below the partition nor lifts the new
    revision above its share. *)
Theorem update_num_exact :
  noRollback = true ->
  updateNum d = Z.min (Z.max (active_old - l_partition (limits_of cs)) 0)
                      (Z.max (replicas - l_partition (limits_of cs) - active_new) 0).
Proof.
  intros Hnr. pose proof the_update as H. destruct the_actives as [Ha Hb'].
  unfold update_diffs in H. rewrite Hnr, Ha, Hb', the_replicas in H. destruct H as [-> _].
  split_ifs; zbool; lia.
Qed.

(** With partition rollback pods move in both directions: the number is the
    smaller distance of the two revisions from their targets, positive when the
    old revision has pods to give up, negative to roll back; and it is [0] only
    when one of the two revisions is exactly at its target. *)
Theorem update_num_rollback :
  noRollback = false ->
  let old_excess := active_old - l_partition (limits_of cs) in
  let new_lack := replicas - l_partition (limits_of cs) - active_new in
  Z.abs (updateNum d) = Z.min (Z.abs old_excess) (Z.abs new_lack) /\
  (updateNum d = old_excess \/ updateNum d = new_lack) /\
  (updateNum d = 0 <-> old_excess = 0 \/ new_lack = 0).
Proof.
  intros Hnr. pose proof the_update as H. destruct the_actives as [Ha Hb'].
  unfold update_diffs in H. rewrite Hnr, Ha, Hb', the_replicas in H. destruct H as [-> _].
  cbv zeta. split_ifs; zbool; lia.
Qed.

(** A CloneSet at its target is left alone: with [replicas] pods, all available
    and none specified for deletion, and [partition] of them of the old revision,
    the result is empty, whatever the surge, rollback and exclusion settings. *)
Theorem diffs_steady_state :
  len pods = replicas ->
  (forall p, p ∈ pods -> available p = true /\ isSpecifiedDelete cs p = false) ->
  active_old = l_partition (limits_of cs) ->
  isEmpty d = true.
Proof.
  intros Hlen Hall Hold.
  assert (Hpre : forall p, p ∈ pods -> in_pre_delete p = false)
    by (intros p Hp; eapply available_not_pre_delete, Hall, Hp).
  destruct the_actives as [_ Hb']. unfold isEmpty. apply bool_decide_eq_true.
  apply diffs_of_steady; [apply counts_of_ok| | |by rewrite the_replicas|exact (eq_trans Hb' Hold)].
  - rewrite totalUnavailable_counts. apply countb_zero. intros p Hp.
    rewrite (Hpre p Hp). destruct (Hall p Hp) as [Hav _]. unfold available in Hav. rewrite Hav.
    apply andb_false_r.
  - rewrite toDelete_counts. apply countb_zero. intros p Hp.
    destruct (Hall p Hp) as [_ ->]. apply andb_false_r.
Qed.
End Calculate.

(** ** A concrete CloneSet

    Five replicas, two of them to stay on revision [v1]; the pod [p1] is to be
    deleted, the pod [p4] is not ready. *)

Definition ex_pod (name rev : string) (ready : bool) : Pod :=
  mkPod name "default" name "1" {[ ControllerRevisionHashLabelKey := rev ]} ∅ [] 1 None "node"
    PodRunning [mkCond PodReady (if ready then ConditionTrue else ConditionFalse) 1 "" ""] [] [] [] [] [] "" "" [] no_placement.

Definition ex_pods : list Pod :=
  [ex_pod "p1" "v1" true; ex_pod "p2" "v1" true; ex_pod "p3" "v1" true; ex_pod "p4" "v1" false;
   ex_pod "p5" "v2" true].

Definition ex_cs (toDelete : list string) (surge : IntOrString) : CloneSet :=
  mkCloneSet "sample" "default" ∅ (Some 5) 0 toDelete (Some (FromInt 3)) InPlaceIfPossible
    (Some (FromString "40%")) (Some (FromInt 2)) (Some surge) false None None None None [] ∅ [] ∅.

Definition ex_gates (rollback : bool) : Gates := mkGates rollback false false false false.

Example ex_diffs :
  calculateDiffsWithExpectation (ex_gates false) 100 (ex_cs ["p1"%string] (FromInt 1)) ex_pods "v1" "v2" None
  = mkDiffs 1 0 0 0 1 1 1 0 2 2.
Proof. vm_compute. reflexivity. Qed.

(** ** Witnesses *)

Ltac small := first [reflexivity | done | vm_compute; intuition congruence].

Lemma diffs_well_formed_witness :
  diffs_wf (limits_of (ex_cs ["p1"%string] (FromInt 1))) (mkDiffs 1 0 0 0 1 1 1 0 2 2).
Proof.
  rewrite <-ex_diffs. apply diffs_well_formed with (replicas := 5); small.
Defined.

Lemma diffs_scale_exact_witness :
  let d := calculateDiffsWithExpectation (ex_gates false) 100 (ex_cs ["p1"%string] (FromInt 0)) ex_pods "v1" "v2" None in
  scaleUpNum d = Z.max 0 (5 + useSurge d - 5) /\ scaleDownNum d = Z.max 0 (5 - 1 - (5 + useSurge d)).
Proof.
  apply (diffs_scale_exact (ex_gates false) 100 (ex_cs ["p1"%string] (FromInt 0)) ex_pods "v1" "v2" None 5); small.
Defined.

Lemma diffs_scale_revisions_witness :
  let d := calculateDiffsWithExpectation (ex_gates false) 100 (ex_cs ["p1"%string] (FromInt 1)) ex_pods "v1" "v2" None in
  scaleUpNumOldRevision d = (if 0 <? scaleUpNum d then Z.max (2 + useSurgeOldRevision d - 4) 0 else 0)
  /\ scaleDownNumOldRevision d = (if 0 <? scaleDownNum d then Z.max (4 - 1 - (2 + useSurgeOldRevision d)) 0 else 0).
Proof.
  apply (diffs_scale_revisions (ex_gates false) 100 (ex_cs ["p1"%string] (FromInt 1)) ex_pods "v1" "v2" None 5); small.
Defined.

Lemma delete_ready_limit_exact_witness : 4 - 1 = 5 - 2 - 0.
Proof.
  apply (delete_ready_limit_exact (ex_gates false) 100 (ex_cs ["p1"%string] (FromInt 1)) ex_pods "v1" "v2" None 5);
    small.
Defined.

Lemma scale_up_limit_bound_witness : 1 + 1 <= 3.
Proof.
  apply (scale_up_limit_bound (ex_gates false) 100 (ex_cs ["p1"%string] (FromInt 1)) ex_pods "v1" "v2" None 5);
    small.
Defined.

Lemma update_num_exact_witness : 2 = Z.min (Z.max (4 - 2) 0) (Z.max (5 - 2 - 1) 0).
Proof.
  apply (update_num_exact (ex_gates false) 100 (ex_cs ["p1"%string] (FromInt 1)) ex_pods "v1" "v2" None 5);
    small.
Defined.

Lemma update_num_rollback_witness :
  let d := calculateDiffsWithExpectation (ex_gates true) 100 (ex_cs [] (FromInt 1)) ex_pods "v1" "v2" None in
  Z.abs (updateNum d) = Z.min (Z.abs (4 - 2)) (Z.abs (5 - 2 - 1)) /\
  (updateNum d = 4 - 2 \/ updateNum d = 5 - 2 - 1) /\ (updateNum d = 0 <-> 4 - 2 = 0 \/ 5 - 2 - 1 = 0).
Proof.
  apply (update_num_rollback (ex_gates true) 100 (ex_cs [] (FromInt 1)) ex_pods "v1" "v2" None 5); small.
Defined.

Lemma diffs_steady_state_witness :
  isEmpty (calculateDiffsWithExpectation (ex_gates true) 100 (ex_cs [] (FromInt 1))
    [ex_pod "p1" "v1" true; ex_pod "p2" "v2" true; ex_pod "p3" "v2" true; ex_pod "p4" "v2" true; ex_pod "p5" "v1" true]
    "v1" "v2" None) = true.
Proof.
  apply (diffs_steady_state (ex_gates true) 100 (ex_cs [] (FromInt 1)) _ "v1" "v2" None 5); try small.
  intros p Hp. repeat (apply elem_of_cons in Hp as [->|Hp]; [split; vm_compute; reflexivity|]).
  by apply not_elem_of_nil in Hp.
Defined.
