(* ===== verification/ControllerExpectations.v ===== *)
(** * Counters and backoffs

    Two stores of the vendored Kubernetes code that the DaemonSet controller shares with its
    event handlers: the counters of pods that a controller still expects to see created and
    deleted (vendor/k8s.io/kubernetes/pkg/controller/controller_utils.go,
    [ControllerExpectations]) and the exponential backoff of failed pods
    (vendor/k8s.io/client-go/util/flowcontrol/backoff.go, without jitter). *)

From S2P Require Import Prelude GoLib K8s.
Open Scope Z_scope.

Module Counters.

(** [ControlleeExpectations]; the key is the key of the map. *)
Record Expectation := mkExp { add : Z; del : Z; timestamp : Z }.
Abbreviation Store := (gmap string Expectation).

(** [ExpectationsTimeout]. *)
Definition ExpectationsTimeout : Z := 300 * second.

Definition Fulfilled (e : Expectation) : bool := (add e <=? 0) && (del e <=? 0).
Definition isExpired (e : Expectation) (now : Z) : bool := ExpectationsTimeout <? now - timestamp e.

Definition DeleteExpectations (r : Store) (key : string) : Store := delete key r.
Definition SatisfiedExpectations (r : Store) (key : string) (now : Z) : bool :=
  match r !! key with
  | Some e => if Fulfilled e then true else isExpired e now
  | None => true
  end.
Definition SetExpectations (r : Store) (key : string) (a d now : Z) : Store := <[key := mkExp a d now]> r.
Definition LowerExpectations (r : Store) (key : string) (a d : Z) : Store :=
  match r !! key with
  | Some e => <[key := mkExp (add e - a) (del e - d) (timestamp e)]> r
  | None => r
  end.
Definition CreationObserved (r : Store) (key : string) : Store := LowerExpectations r key 1 0.
Definition DeletionObserved (r : Store) (key : string) : Store := LowerExpectations r key 0 1.

(** What is left to see under a key, and since when. *)
Definition left (r : Store) (key : string) : option (Z * Z * Z) := (fun e => (add e, del e, timestamp e)) <$> r !! key.

Lemma left_set r key a d now : left (SetExpectations r key a d now) key = Some (a, d, now).
Proof. unfold left, SetExpectations. by rewrite lookup_insert_eq. Qed.

Lemma left_lower r key a d x y t : left r key = Some (x, y, t) ->
  left (LowerExpectations r key a d) key = Some (x - a, y - d, t).
Proof.
  unfold left, LowerExpectations. destruct (r !! key) as [e|]; [|done]. cbn. intros [= <- <- <-].
  by rewrite lookup_insert_eq.
Qed.

Lemma satisfied_left r key now a d t : left r key = Some (a, d, t) -> now - t <= ExpectationsTimeout ->
  SatisfiedExpectations r key now = (a <=? 0) && (d <=? 0).
Proof.
  unfold left, SatisfiedExpectations. destruct (r !! key) as [e|]; [|done]. cbn. intros [= <- <- <-] Ht.
  unfold Fulfilled, isExpired. rewrite (proj2 (Z.ltb_ge _ _)) by lia. by destruct (_ && _).
Qed.
End Counters.

Module Backoff.

(** [backoffEntry]. *)
Record Entry := mkEntry { backoff : Z; lastUpdate : Z }.
Abbreviation Store := (gmap string Entry).

Section Backoff.
Context (defaultDuration maxDuration : Z).

Definition hasExpired (eventTime last : Z) : bool := maxDuration * 2 <? eventTime - last.

Definition Get (r : Store) (id : string) : Z := match r !! id with Some e => backoff e | None => 0 end.

(** [Next], with the clock at the time of the event. *)
Definition Next (r : Store) (id : string) (eventTime : Z) : Store :=
  match r !! id with
  | Some e =>
      if hasExpired eventTime (lastUpdate e) then <[id := mkEntry defaultDuration eventTime]> r
      else <[id := mkEntry (Z.min (backoff e * 2) maxDuration) eventTime]> r
  | None => <[id := mkEntry defaultDuration eventTime]> r
  end.

Definition IsInBackOffSinceUpdate (r : Store) (id : string) (eventTime : Z) : bool :=
  match r !! id with
  | None => false
  | Some e => if hasExpired eventTime (lastUpdate e) then false else eventTime - lastUpdate e <? backoff e
  end.

(** [GC]. *)
Definition GC (r : Store) (now : Z) : Store :=
  filter (fun kv => now - lastUpdate kv.2 <= maxDuration * 2) r.
End Backoff.
End Backoff.
