(* ===== verification/WorkloadSpreadTypes.v ===== *)
(** * WorkloadSpread: the API objects

    apis/apps/v1alpha1/workloadspread_types.go: the object that a webhook and a controller
    share, with the records of pods that are being created and deleted. *)

From S2P Require Import Prelude GoLib GoText K8s.
Open Scope Z_scope.

Record TargetReference := mkTarget { tr_APIVersion : string; tr_Kind : string; tr_Name : string }.

Record WorkloadSpreadSubset := mkSubset {
  sub_Name : string;
  sub_Required : option NodeSelectorTerm;
  sub_Preferred : list PreferredSchedulingTerm;
  sub_Tolerations : list Toleration;
  sub_MaxReplicas : option IntOrString;
  (** [Patch.Raw]. *)
  sub_Patch : option string;
}.

Record WorkloadSpreadSubsetCondition := mkSubsetCond {
  wc_Type : string;
  wc_Status : string;
  wc_LastTransitionTime : Z;
  wc_Reason : string;
  wc_Message : string;
}.

Record WorkloadSpreadSubsetStatus := mkSubsetStatus {
  wss_Name : string;
  wss_Replicas : Z;
  wss_Conditions : list WorkloadSpreadSubsetCondition;
  wss_MissingReplicas : Z;
  wss_CreatingPods : gmap string Z;
  wss_DeletingPods : gmap string Z;
}.

Record WorkloadSpreadStatus := mkSpreadStatus {
  wst_ObservedGeneration : Z;
  wst_SubsetStatuses : list WorkloadSpreadSubsetStatus;
  wst_Versioned : gmap string (list WorkloadSpreadSubsetStatus);
}.

(** [ws_gvk] is the text of the type meta, which is part of the key of the process cache;
    [ws_critical] is [Adaptive.RescheduleCriticalSeconds]. *)
Record WorkloadSpread := mkSpread {
  ws_gvk : string;
  ws_namespace : string;
  ws_name : string;
  ws_resourceVersion : string;
  ws_generation : Z;
  ws_deletion : option Z;
  ws_annotations : gmap string string;
  ws_TargetReference : option TargetReference;
  ws_Subsets : list WorkloadSpreadSubset;
  ws_StrategyType : string;
  ws_critical : option Z;
  ws_status : WorkloadSpreadStatus;
}.

Definition with_spread_status (ws : WorkloadSpread) (st : WorkloadSpreadStatus) : WorkloadSpread :=
  mkSpread (ws_gvk ws) (ws_namespace ws) (ws_name ws) (ws_resourceVersion ws) (ws_generation ws) (ws_deletion ws)
    (ws_annotations ws) (ws_TargetReference ws) (ws_Subsets ws) (ws_StrategyType ws) (ws_critical ws) st.
Definition with_versioned (ws : WorkloadSpread) (version : string) (l : list WorkloadSpreadSubsetStatus) : WorkloadSpread :=
  with_spread_status ws (mkSpreadStatus (wst_ObservedGeneration (ws_status ws)) (wst_SubsetStatuses (ws_status ws))
    (<[version := l]> (wst_Versioned (ws_status ws)))).

Definition AdaptiveWorkloadSpreadScheduleStrategyType : string := "Adaptive".
Definition SubsetSchedulable : string := "Schedulable".

#[export] Instance WorkloadSpreadSubsetCondition_eq_dec : EqDecision WorkloadSpreadSubsetCondition.
Proof. solve_decision. Defined.
#[export] Instance WorkloadSpreadSubsetStatus_eq_dec : EqDecision WorkloadSpreadSubsetStatus.
Proof. solve_decision. Defined.
