(* ===== verification/ImagePullTypes.v ===== *)
(** * ImagePullJob and NodeImage: the objects that are written

    apis/apps/v1alpha1: NodeImage with its spec and its status; core/v1 Secret and
    ObjectReference; ImagePullJob with its template.  Times are in nanoseconds; a map is [nil] when it is empty. *)

From S2P Require Import Prelude GoLib GoText K8s Selector.
Open Scope Z_scope.

(** core/v1 ObjectReference. *)
Record ObjectReference := mkObjectRef {
  oref_APIVersion : string;
  oref_Kind : string;
  oref_Namespace : string;
  oref_Name : string;
  oref_UID : string;
}.
Record ReferenceObject := mkReference { ro_Namespace : string; ro_Name : string }.
Record SandboxConfig := mkSandbox { sb_Labels : gmap string string; sb_Annotations : gmap string string }.

Record ImageTagPullPolicy := mkTagPolicy {
  tp_TimeoutSeconds : option Z;
  tp_BackoffLimit : option Z;
  tp_TTLSecondsAfterFinished : option Z;
  tp_ActiveDeadlineSeconds : option Z;
}.
Record ImageTagSpec := mkTagSpec {
  ts_Tag : string;
  ts_CreatedAt : option Z;
  ts_PullPolicy : option ImageTagPullPolicy;
  ts_OwnerReferences : list ObjectReference;
  ts_Version : Z;
  ts_ImagePullPolicy : string;
}.
Record ImageSpec := mkImageSpec {
  im_PullSecrets : list ReferenceObject;
  im_Tags : list ImageTagSpec;
  im_SandboxConfig : option SandboxConfig;
}.
Record ImageTagStatus := mkTagStatus {
  st_Tag : string;
  st_Phase : string;
  st_Progress : Z;
  st_StartTime : option Z;
  st_CompletionTime : option Z;
  st_Version : Z;
  st_ImageID : string;
  st_Message : string;
}.
Record ImageStatus := mkImageStatus { is_Tags : list ImageTagStatus }.
Record SyncStatus := mkSyncStatus { ss_SyncAt : Z; ss_Status : string; ss_Message : string }.
Record NodeImageStatus := mkNodeStatus {
  ns_Desired : Z;
  ns_Succeeded : Z;
  ns_Failed : Z;
  ns_Pulling : Z;
  ns_ImageStatuses : gmap string ImageStatus;
  ns_FirstSyncStatus : option SyncStatus;
}.
Record NodeImage := mkNodeImage {
  ni_name : string;
  ni_uid : string;
  ni_resourceVersion : string;
  ni_labels : gmap string string;
  ni_deletion : option Z;
  ni_Images : gmap string ImageSpec;
  ni_status : NodeImageStatus;
}.

(** core/v1 Secret. *)
Record Secret := mkSecret {
  se_namespace : string;
  se_name : string;
  se_generateName : string;
  se_uid : string;
  se_resourceVersion : string;
  se_labels : gmap string string;
  se_annotations : gmap string string;
  se_deletion : option Z;
  se_Type : string;
  se_Immutable : option bool;
  se_Data : gmap string string;
  se_StringData : gmap string string;
}.

#[export] Instance ObjectReference_eq_dec : EqDecision ObjectReference.
Proof. solve_decision. Defined.
#[export] Instance ReferenceObject_eq_dec : EqDecision ReferenceObject.
Proof. solve_decision. Defined.
#[export] Instance SandboxConfig_eq_dec : EqDecision SandboxConfig.
Proof. solve_decision. Defined.
#[export] Instance ImageTagPullPolicy_eq_dec : EqDecision ImageTagPullPolicy.
Proof. solve_decision. Defined.
#[export] Instance ImageTagSpec_eq_dec : EqDecision ImageTagSpec.
Proof. solve_decision. Defined.
#[export] Instance ImageSpec_eq_dec : EqDecision ImageSpec.
Proof. solve_decision. Defined.
#[export] Instance ImageTagStatus_eq_dec : EqDecision ImageTagStatus.
Proof. solve_decision. Defined.
#[export] Instance ImageStatus_eq_dec : EqDecision ImageStatus.
Proof. solve_decision. Defined.
#[export] Instance SyncStatus_eq_dec : EqDecision SyncStatus.
Proof. solve_decision. Defined.
#[export] Instance NodeImageStatus_eq_dec : EqDecision NodeImageStatus.
Proof. solve_decision. Defined.
#[export] Instance NodeImage_eq_dec : EqDecision NodeImage.
Proof. solve_decision. Defined.
#[export] Instance Secret_eq_dec : EqDecision Secret.
Proof. solve_decision. Defined.

(** The completion policy of jobs. *)
Record CompletionPolicy := mkCompletion {
  cp_Type : string;
  cp_ActiveDeadlineSeconds : option Z;
  cp_TTLSecondsAfterFinished : option Z;
}.
Record ImagePullJobNodeSelector := mkNodeSelector { nl_Names : option (list string); nl_LabelSelector : LabelSelector }.
Record PullPolicy := mkPullPolicy { pp_TimeoutSeconds : option Z; pp_BackoffLimit : option Z }.
Record ImagePullJobStatus := mkPullStatus {
  pl_StartTime : option Z;
  pl_CompletionTime : option Z;
  pl_Desired : Z;
  pl_Active : Z;
  pl_Succeeded : Z;
  pl_Failed : Z;
  pl_Message : string;
  pl_FailedNodes : list string;
}.
Record ImagePullJob := mkPullJob {
  pj_namespace : string;
  pj_name : string;
  pj_generateName : string;
  pj_labels : gmap string string;
  pj_uid : string;
  pj_resourceVersion : string;
  pj_owners : list OwnerReference;
  pj_deletion : option Z;
  pj_finalizers : list string;
  pj_Image : string;
  pj_PullSecrets : list string;
  pj_Selector : option ImagePullJobNodeSelector;
  pj_PodSelector : option LabelSelector;
  pj_Parallelism : option IntOrString;
  pj_PullPolicy : option PullPolicy;
  pj_CompletionPolicy : CompletionPolicy;
  pj_SandboxConfig : option SandboxConfig;
  pj_ImagePullPolicy : string;
  pj_status : ImagePullJobStatus;
}.
#[export] Instance ImagePullJobStatus_eq_dec : EqDecision ImagePullJobStatus.
Proof. solve_decision. Defined.

(** The write of a secret. *)
Inductive SecretWrite := CreateSecretW (s : Secret) | UpdateSecretW (s : Secret) | DeleteSecretW (s : Secret).
(** The write of a NodeImage. *)
Inductive NodeImageWrite :=
| CreateNodeImageW (n : NodeImage)
| UpdateNodeImageW (n : NodeImage)
| DeleteNodeImageW (n : NodeImage)
| StatusNodeImageW (n : NodeImage).
(** The creation and the deletion of an ImagePullJob by its owner. *)
Inductive PullJobWrite := CreatePullJobW (job : ImagePullJob) | DeletePullJobW (job : ImagePullJob).
