(* ===== verification/World.v ===== *)
(** * The world a CloneSet reconcile acts on

    The API server behind the clients, the process-wide caches of
    pkg/controller/cloneset/utils ([ScaleExpectations],
    [ResourceVersionExpectations], [DurationStore]) and a trace of the writes
    sent to the API server.  An operation of the controller is a function of the
    world ([M]).  The clients ([client.Client], [podreadiness.Interface],
    [inplaceupdate.Interface], the PodUnavailableBudget check) are interfaces in
    the code; here they are the fields of the class [Api], over an abstract type
    of server states, so that the theorems hold for every server, every failure
    and every conflict.

    The file also holds the operations of pkg/util/lifecycle and
    pkg/util/specifieddelete that write through these clients. *)

From S2P Require Import Prelude GoLib GoText K8s Tools Expectations Lifecycle UpdateSort CloneSetDiff ControllerExpectations WorkloadSpreadTypes ImagePullTypes.
Open Scope Z_scope.
Open Scope kruise_scope.

(** A Go [error] that is not [nil]. *)
Abbreviation error := string (only parsing).

(** A strategic merge patch of pod metadata: labels and annotations are merged,
    finalizers are added. *)
Record PodPatch := mkPatch {
  patch_labels : gmap string string;
  patch_annotations : gmap string string;
  patch_finalizers : list string;
}.

(** apps/v1 ControllerRevision; [cr_controller] is the uid of its controller. *)
Record ControllerRevision := mkRevision {
  cr_name : string;
  cr_revision : Z;
  cr_labels : gmap string string;
  cr_data : string;
  cr_creation : Z;
  cr_controller : option string;
  cr_uid : string;
  cr_resourceVersion : string;
  cr_annotations : gmap string string;
}.
#[export] Instance ControllerRevision_eq_dec : EqDecision ControllerRevision.
Proof. solve_decision. Defined.

(** pkg/util/podreadiness: [Message]. *)
Record Message := mkMessage { UserAgent : string; msg_Key : string }.

(** pkg/util/inplaceupdate: [RefreshResult] and [UpdateResult]. *)
Record RefreshResult := mkRefresh { RefreshErr : option error; rr_DelayDuration : Z }.
Record UpdateResult := mkUpdate {
  ur_InPlaceUpdate : bool;
  ur_UpdateErr : option error;
  ur_DelayDuration : Z;
  ur_NewResourceVersion : string;
}.

(** [apierrors.IsNotFound], [IsAlreadyExists], [IsConflict]. *)
Class ApiErrors := {
  IsNotFound : error -> bool;
  IsAlreadyExists : error -> bool;
  IsConflict : error -> bool;
}.

(** The clients. *)
Class Api (S : Type) := {
  CreatePod : Pod -> S -> S * option error;
  DeletePod : Pod -> S -> S * option error;
  CreatePVC : PersistentVolumeClaim -> S -> S * option error;
  DeletePVC : PersistentVolumeClaim -> S -> S * option error;
  (** [PatchPod] of the pod adapter: the error and the pod of the answer. *)
  PatchPod : Pod -> PodPatch -> S -> S * (error + Pod);
  AddNotReadyKey : Pod -> Message -> S -> S * option error;
  RemoveNotReadyKey : Pod -> Message -> S -> S * option error;
  (** The options of an in-place update are its grace period and the lifecycle
      state that the additional functions write. *)
  InPlaceRefresh : Pod -> Z -> S -> S * RefreshResult;
  CanUpdateInPlace : option ControllerRevision -> ControllerRevision -> Z -> bool;
  InPlaceUpdatePod : Pod -> option ControllerRevision -> ControllerRevision -> Z -> string -> S -> S * UpdateResult;
  CheckPodUpdateCompleted : Pod -> option error;
  PodUnavailableBudgetValidatePod : Pod -> S -> S * (bool * option error);
}.

(** Writes sent to the API server, with whether they succeeded. *)
Inductive Event :=
| EvCreatePod (p : Pod) (ok : bool)
| EvDeletePod (p : Pod) (ok : bool)
| EvCreatePVC (c : PersistentVolumeClaim) (ok : bool)
| EvDeletePVC (c : PersistentVolumeClaim) (ok : bool)
| EvPatchPod (p : Pod) (patch : PodPatch) (ok : bool)
| EvInPlaceUpdate (p : Pod) (revision state : string) (ok : bool)
| EvUpdatePod (p : Pod) (ok : bool)
| EvUpdatePodStatus (p : Pod) (ok : bool)
| EvUpdatePVC (c : PersistentVolumeClaim) (ok : bool)
| EvCreateRevision (r : ControllerRevision) (ok : bool)
| EvUpdateRevision (r : ControllerRevision) (revision : Z) (ok : bool)
| EvDeleteRevision (r : ControllerRevision) (ok : bool)
| EvUpdateStatus (ok : bool)
| EvUpdateSpec (podsToDelete : list string) (ok : bool)
| EvDeleteNamed (namespace name : string) (ok : bool)
| EvSpreadStatus (ws : WorkloadSpread) (ok : bool)
| EvPatchRevision (name : string) (labels : gmap string string) (ok : bool)
| EvNodeImage (w : NodeImageWrite) (ok : bool)
| EvSecret (w : SecretWrite) (ok : bool)
| EvFinalizers (namespace name : string) (finalizers : list string) (ok : bool)
| EvPullJob (w : PullJobWrite) (ok : bool)
| EvPatchLabels (namespace name : string) (labels : gmap string string) (ok : bool).

(** The stores of the DaemonSet controller: the counters of expected pods, the backoff of
    failed pods, the cache of template pods by uid with their generation, and the uids of
    terminating pods whose deletion has been observed.  Of WorkloadSpread, the objects of
    [util.GlobalCache] by key, and the custom workloads (groups and kind) of the white list
    once it has been read.  Of ImagePullJob, the names of the NodeImages of a job by its uid. *)
Record Local := mkLocal {
  l_counters : Counters.Store;
  l_backoff : Backoff.Store;
  l_newPods : gmap string (Z * Pod);
  l_deletions : gset string;
  l_spreads : gmap string WorkloadSpread;
  l_workloads : option (list (list string * string));
  l_nodeImages : gmap string (list string);
}.
Definition no_local : Local := mkLocal ∅ ∅ ∅ ∅ ∅ None ∅.

Record World (S : Type) := mkWorld {
  w_server : S;
  w_scale : Scale.Store;
  w_rv : RV.Store;
  w_upd : Update.Store;
  w_local : Local;
  w_dur : Requeue.Store;
  w_trace : list Event;
}.
Arguments mkWorld {S}.
Arguments w_server {S}.
Arguments w_scale {S}.
Arguments w_rv {S}.
Arguments w_upd {S}.
Arguments w_local {S}.
Arguments w_dur {S}.
Arguments w_trace {S}.

(** ** The state monad *)

Definition M (S A : Type) : Type := World S -> World S * A.

Definition ret {S A} (a : A) : M S A := fun w => (w, a).
Definition bind {S A B} (m : M S A) (k : A -> M S B) : M S B :=
  fun w => let '(w1, a) := m w in k a w1.

Declare Scope world_scope.
Delimit Scope world_scope with world.
Notation "'do' x <- m ; k" := (bind m (fun x => k))
  (at level 200, x binder, m at level 100, k at level 200) : world_scope.
Notation "'do' ' p <- m ; k" := (bind m (fun p => k))
  (at level 200, p strict pattern, m at level 100, k at level 200) : world_scope.
Notation "m ;; k" := (bind m (fun _ => k)) (at level 100, right associativity) : world_scope.
#[global] Open Scope world_scope.

Section Effects.
Context {S : Type}.

(** One call to a client; [ev] is the write it stands for. *)
Definition call {A} (f : S -> S * A) (ev : A -> list Event) : M S A := fun w =>
  let '(s, a) := f (w_server w) in
  (mkWorld s (w_scale w) (w_rv w) (w_upd w) (w_local w) (w_dur w) (w_trace w ++ ev a), a).

Definition on_scale (f : Scale.Store -> Scale.Store) : M S unit := fun w =>
  (mkWorld (w_server w) (f (w_scale w)) (w_rv w) (w_upd w) (w_local w) (w_dur w) (w_trace w), tt).

(** [ScaleExpectations.ExpectScale] and [ObserveScale]. *)
Definition expectScale (key action name : string) : M S unit :=
  on_scale (fun r => Scale.ExpectScale r key action name).
Definition observeScale (key action name : string) : M S unit :=
  on_scale (fun r => Scale.ObserveScale r key action name).

(** [ResourceVersionExpectations.Expect]. *)
Definition expectRV (uid rv : string) : M S unit := fun w =>
  (mkWorld (w_server w) (w_scale w) (RV.Expect (w_rv w) uid rv) (w_upd w) (w_local w) (w_dur w) (w_trace w), tt).

(** Operations on the stores of expectations that also answer. *)
Definition ask_scale {A} (f : Scale.Store -> A * Scale.Store) : M S A := fun w =>
  let '(a, r) := f (w_scale w) in
  (mkWorld (w_server w) r (w_rv w) (w_upd w) (w_local w) (w_dur w) (w_trace w), a).
Definition ask_rv {A} (f : RV.Store -> A * RV.Store) : M S A := fun w =>
  let '(a, r) := f (w_rv w) in
  (mkWorld (w_server w) (w_scale w) r (w_upd w) (w_local w) (w_dur w) (w_trace w), a).

(** The store of update expectations (pkg/controller/statefulset). *)
Definition on_updates (f : Update.Store -> Update.Store) : M S unit := fun w =>
  (mkWorld (w_server w) (w_scale w) (w_rv w) (f (w_upd w)) (w_local w) (w_dur w) (w_trace w), tt).
(** An operation on that store that also answers. *)
Definition ask_updates {A} (f : Update.Store -> A * Update.Store) : M S A := fun w =>
  let '(a, u) := f (w_upd w) in
  (mkWorld (w_server w) (w_scale w) (w_rv w) u (w_local w) (w_dur w) (w_trace w), a).

(** The other stores of the process. *)
Definition on_local (f : Local -> Local) : M S unit := fun w =>
  (mkWorld (w_server w) (w_scale w) (w_rv w) (w_upd w) (f (w_local w)) (w_dur w) (w_trace w), tt).
Definition ask_local {A} (f : Local -> A) : M S A := fun w => (w, f (w_local w)).

(** [DurationStore.Push]. *)
Definition pushDuration (key : string) (d : Z) : M S unit := fun w =>
  (mkWorld (w_server w) (w_scale w) (w_rv w) (w_upd w) (w_local w) (Requeue.Push (w_dur w) key d) (w_trace w), tt).

(** [DurationStore.Pop]. *)
Definition popDuration (key : string) : M S Z := fun w =>
  let '(d, dur) := Requeue.Pop (w_dur w) key in
  (mkWorld (w_server w) (w_scale w) (w_rv w) (w_upd w) (w_local w) dur (w_trace w), d).

Definition is_ok (e : option error) : bool := match e with None => true | Some _ => false end.

(** A read of a cache. *)
Definition read {A} (f : S -> A) : M S A := call (fun s => (s, f s)) (fun _ => []).

(** [errorutils.NewAggregate], as the text of the error; the errors aggregated here
    have different texts. *)
Definition NewAggregate (errs : list error) : option error :=
  match errs with
  | [] => None
  | [e] => Some e
  | _ => Some ("[" +:+ PodsUtil.Join errs ", " +:+ "]")
  end.

(** [retry.RetryOnConflict]: at most [steps] tries; [a] is what the function mutates. *)
Fixpoint RetryOnConflict `{ApiErrors} {A} (steps : nat) (fn : A -> M S (option error * A)) (a : A)
  : M S (option error) :=
  match steps with
  | O => ret None
  | Datatypes.S steps' =>
      do '(e, a') <- fn a;
      match e with
      | None => ret None
      | Some err =>
          if IsConflict err then
            match steps' with
            | O => ret (Some err)
            | _ => RetryOnConflict steps' fn a'
            end
          else ret (Some err)
      end
  end.

Context `{Api S}.

Definition createPod (p : Pod) : M S (option error) :=
  call (CreatePod p) (fun e => [EvCreatePod p (is_ok e)]).
Definition deletePod (p : Pod) : M S (option error) :=
  call (DeletePod p) (fun e => [EvDeletePod p (is_ok e)]).
Definition createPVC (c : PersistentVolumeClaim) : M S (option error) :=
  call (CreatePVC c) (fun e => [EvCreatePVC c (is_ok e)]).
Definition deletePVC (c : PersistentVolumeClaim) : M S (option error) :=
  call (DeletePVC c) (fun e => [EvDeletePVC c (is_ok e)]).
Definition patchPod (p : Pod) (patch : PodPatch) : M S (error + Pod) :=
  call (PatchPod p patch) (fun r => [EvPatchPod p patch (match r with inl _ => false | inr _ => true end)]).
End Effects.

(** ** pkg/util/lifecycle: the operations that write *)
Module LifecycleControl.

Section Control.
Context {S : Type} `{Api S}.
(** [time.Now().Format(time.RFC3339)]. *)
Context (nowStr : string).

Definition preparingDeleteHookKey : string := "preDeleteHook".
Definition preparingUpdateHookKey : string := "preUpdateHook".
Definition getReadinessMessage (key : string) : Message := mkMessage "Lifecycle" key.

Definition executePodNotReadyPolicy (pod : Pod) (state : string) : M S (option error) :=
  if String.eqb state LifecycleStatePreparingDelete then
    call (AddNotReadyKey pod (getReadinessMessage preparingDeleteHookKey)) (fun _ => [])
  else if String.eqb state LifecycleStatePreparingUpdate then
    call (AddNotReadyKey pod (getReadinessMessage preparingUpdateHookKey)) (fun _ => [])
  else if String.eqb state LifecycleStateUpdated then
    call (RemoveNotReadyKey pod (getReadinessMessage preparingUpdateHookKey)) (fun _ => [])
  else ret None.

(** The patch of [UpdatePodLifecycle]. *)
Definition lifecycle_patch (state : string) : PodPatch :=
  mkPatch {[ LifecycleStateKey := state ]} {[ LifecycleTimestampKey := nowStr ]} [].

(** The results are [updated], [gotPod] and [err]. *)
Definition UpdatePodLifecycle (pod : Pod) (state : string) (markPodNotReady : bool)
  : M S (bool * option Pod * option error) :=
  do e <- (if markPodNotReady then executePodNotReadyPolicy pod state else ret None);
  match e with
  | Some err => ret (false, None, Some err)
  | None =>
      if String.eqb (Hooks.GetPodLifecycleState pod) state then ret (false, Some pod, None)
      else
        do r <- patchPod pod (lifecycle_patch state);
        match r with
        | inl err => ret (true, None, Some err)
        | inr gotPod => ret (true, Some gotPod, None)
        end
  end.

(** The patch of [UpdatePodLifecycleWithHandler] also restores the handlers;
    in its JSON text the labels of the handler come after the state. *)
Definition handler_patch (state : string) (h : LifecycleHook) : PodPatch :=
  mkPatch (LabelsHandler h ∪ {[ LifecycleStateKey := state ]})
    {[ LifecycleTimestampKey := nowStr ]} (FinalizersHandler h).

Definition UpdatePodLifecycleWithHandler (pod : Pod) (state : string)
  (inPlaceUpdateHandler : option LifecycleHook) : M S (bool * option Pod * option error) :=
  match inPlaceUpdateHandler with
  | None => ret (false, Some pod, None)
  | Some h =>
      do e <- (if MarkPodNotReady h then executePodNotReadyPolicy pod state else ret None);
      match e with
      | Some err => ret (false, None, Some err)
      | None =>
          if String.eqb (Hooks.GetPodLifecycleState pod) state then ret (false, Some pod, None)
          else
            do r <- patchPod pod (handler_patch state h);
            match r with
            | inl err => ret (true, None, Some err)
            | inr gotPod => ret (true, Some gotPod, None)
            end
      end
  end.

(** [ResourceVersionExpectations.Expect(gotPod)]. *)
Definition expectPod (p : option Pod) : M S unit :=
  match p with
  | Some p => expectRV (p_uid p) (p_resourceVersion p)
  | None => ret tt
  end.
End Control.
End LifecycleControl.

(** pkg/util/specifieddelete: [PatchPodSpecifiedDelete]; the patched pod is
    written back to the argument, here the third component. *)
Definition PatchPodSpecifiedDelete {S} `{Api S} (pod : Pod) (value : string)
  : M S (bool * option error * Pod) :=
  match p_labels pod !! SpecifiedDeleteKey with
  | Some _ => ret (false, None, pod)
  | None =>
      do r <- patchPod pod (mkPatch {[ SpecifiedDeleteKey := value ]} ∅ []);
      match r with
      | inl err => ret (true, Some err, pod)
      | inr pod' => ret (true, None, pod')
      end
  end.

(** ** Reasoning about operations *)

Section Logic.
Context {S : Type}.

(** The operation sends writes that, with its result, satisfy [P]. *)
Definition emits {A} (m : M S A) (P : list Event -> A -> Prop) : Prop :=
  forall w, exists evs, w_trace (m w).1 = w_trace w ++ evs /\ P evs (m w).2.

(** The operation changes no expectation outside [T]. *)
Definition frames {A} (m : M S A) (T : string -> string -> string -> Prop) : Prop :=
  forall w k a n, ~ T k a n ->
  (n ∈ Scale.pending (w_scale (m w).1) k a <-> n ∈ Scale.pending (w_scale w) k a).

Lemma emits_ret {A} (a : A) (P : list Event -> A -> Prop) : P [] a -> emits (ret a) P.
Proof. intros HP w. exists []. simpl. by rewrite app_nil_r. Qed.

Lemma emits_bind {A B} (m : M S A) (k : A -> M S B) (P : list Event -> A -> Prop)
  (Q : list Event -> B -> Prop) :
  emits m P -> (forall evs a, P evs a -> emits (k a) (fun evs' b => Q (evs ++ evs') b)) ->
  emits (bind m k) Q.
Proof.
  intros Hm Hk w. unfold bind. destruct (Hm w) as (evs & Ht & HP).
  destruct (m w) as [w1 a]. simpl in *. destruct (Hk evs a HP w1) as (evs' & Ht' & HQ).
  exists (evs ++ evs'). split; [|done]. by rewrite Ht', Ht, app_assoc.
Qed.

Lemma emits_mono {A} (m : M S A) (P Q : list Event -> A -> Prop) :
  emits m P -> (forall evs a, P evs a -> Q evs a) -> emits m Q.
Proof. intros Hm H w. destruct (Hm w) as (evs & Ht & HP). exists evs. eauto. Qed.

Lemma emits_and {A} (m : M S A) (P Q : list Event -> A -> Prop) :
  emits m P -> emits m Q -> emits m (fun evs a => P evs a /\ Q evs a).
Proof.
  intros HP HQ w. destruct (HP w) as (e1 & T1 & H1). destruct (HQ w) as (e2 & T2 & H2).
  assert (e1 = e2) as <- by (rewrite T1 in T2; by apply app_inv_head in T2). eauto.
Qed.

Lemma emits_call {A} (f : S -> S * A) ev (P : list Event -> A -> Prop) :
  (forall a, P (ev a) a) -> emits (call f ev) P.
Proof. intros HP w. unfold call. destruct (f (w_server w)) as [s a]. exists (ev a). auto. Qed.

Lemma emits_silent {A} (m : M S A) (P : list Event -> A -> Prop) :
  (forall w, w_trace (m w).1 = w_trace w) -> (forall w, P [] (m w).2) -> emits m P.
Proof. intros Hm HP w. exists []. rewrite app_nil_r. auto. Qed.

(** The operation sends only writes that satisfy [P]. *)
Definition only {A} (P : Event -> bool) (m : M S A) : Prop :=
  emits m (fun evs _ => Forall (fun ev => P ev = true) evs).

Lemma only_ret {A} P (a : A) : only P (ret a).
Proof. by apply emits_ret. Qed.

Lemma only_bind {A B} P (m : M S A) (k : A -> M S B) :
  only P m -> (forall a, only P (k a)) -> only P (bind m k).
Proof.
  intros Hm Hk. eapply emits_bind; [exact Hm|]. intros evs a Hevs.
  eapply emits_mono; [apply Hk|]. intros evs' b Hevs'. by apply Forall_app.
Qed.

Lemma only_call {A} P (f : S -> S * A) ev :
  (forall a, Forall (fun e => P e = true) (ev a)) -> only P (call f ev).
Proof. intros Hev. by apply emits_call. Qed.

Lemma only_mono {A} (P Q : Event -> bool) (m : M S A) :
  (forall ev, P ev = true -> Q ev = true) -> only P m -> only Q m.
Proof.
  intros HPQ Hm. eapply emits_mono; [exact Hm|]. intros evs a Hevs. eapply Forall_impl; [exact Hevs|]. auto.
Qed.

Lemma only_push P key d : only P (pushDuration (S := S) key d).
Proof. apply emits_silent; intros w; [done|constructor]. Qed.

Lemma only_updates P f : only P (on_updates (S := S) f).
Proof. apply emits_silent; intros w; [done|constructor]. Qed.

(** Splits a program into its steps. *)
Lemma emits_step {A B} P (m : M S A) (k : A -> M S B) (Q : list Event -> B -> Prop) :
  only P m ->
  (forall evs a, Forall (fun ev => P ev = true) evs -> emits (k a) (fun evs' b => Q (evs ++ evs') b)) ->
  emits (bind m k) Q.
Proof. intros Hm Hk. eapply emits_bind; [exact Hm|]. auto. Qed.

(** An operation that sends nothing can be dropped from the trace. *)
Lemma emits_quiet {A B} (m : M S A) (k : A -> M S B) (Q : list Event -> B -> Prop) :
  only (fun _ => false) m -> (forall a, emits (k a) Q) -> emits (bind m k) Q.
Proof.
  intros Hm Hk. eapply emits_step; [exact Hm|]. intros evs a Hevs.
  destruct evs as [|ev evs]; [apply Hk|by apply Forall_cons in Hevs as [? _]].
Qed.

Lemma only_push_when P (b : bool) key d : only P (if b then pushDuration (S := S) key d else ret tt).
Proof. destruct b; [apply only_push|apply only_ret]. Qed.

Lemma only_read {A} P (f : S -> A) : only P (read f).
Proof. apply only_call. intros a. constructor. Qed.

Lemma RetryOnConflict_only `{ApiErrors} {A} P steps (fn : A -> M S (option error * A)) a :
  (forall a, only P (fn a)) -> only P (RetryOnConflict steps fn a).
Proof.
  intros Hfn. revert a. induction steps as [|steps IH]; intros a; simpl; [apply only_ret|].
  apply only_bind; [apply Hfn|]. intros [[err|] a']; [|apply only_ret].
  destruct (IsConflict err); [|apply only_ret]. destruct steps; [apply only_ret|apply IH].
Qed.

Lemma frames_ret {A} (a : A) T : frames (ret a) T.
Proof. intros w k x n _. done. Qed.

Lemma frames_bind {A B} (m : M S A) (k : A -> M S B) T :
  frames m T -> (forall a, frames (k a) T) -> frames (bind m k) T.
Proof.
  intros Hm Hk w key x n HT. unfold bind. pose proof (Hm w key x n HT) as E1.
  destruct (m w) as [w1 a]. simpl in *. pose proof (Hk a w1 key x n HT) as E2. by rewrite E2.
Qed.

Lemma frames_call {A} (f : S -> S * A) ev T : frames (call f ev) T.
Proof. intros w k a n _. unfold call. by destruct (f (w_server w)). Qed.

Lemma frames_expectScale k a n (T : string -> string -> string -> Prop) :
  T k a n -> frames (expectScale k a n) T.
Proof.
  intros HT w k' a' n' Hn. simpl. rewrite Scale.pending_ExpectScale.
  case_bool_decide as Hc; [|done]. destruct Hc as [-> ->].
  assert (n' <> n) by (intros ->; done). set_solver.
Qed.

Lemma frames_observeScale k a n (T : string -> string -> string -> Prop) :
  T k a n -> frames (observeScale k a n) T.
Proof.
  intros HT w k' a' n' Hn. simpl. rewrite Scale.pending_ObserveScale.
  case_bool_decide as Hc; [|done]. destruct Hc as [-> ->].
  assert (n' <> n) by (intros ->; done). set_solver.
Qed.

Lemma frames_expectRV u v T : frames (expectRV u v) T.
Proof. intros w k a n _. done. Qed.

Lemma frames_expectPod p T : frames (LifecycleControl.expectPod p) T.
Proof. destruct p; [apply frames_expectRV|apply frames_ret]. Qed.
End Logic.

(** The pods whose creation or deletion was asked for. *)
Definition creates (evs : list Event) : list Pod :=
  omap (fun ev => match ev with EvCreatePod p _ => Some p | _ => None end) evs.
Definition deletes (evs : list Event) : list Pod :=
  omap (fun ev => match ev with EvDeletePod p _ => Some p | _ => None end) evs.

Lemma creates_app e1 e2 : creates (e1 ++ e2) = creates e1 ++ creates e2.
Proof. apply omap_app. Qed.
Lemma deletes_app e1 e2 : deletes (e1 ++ e2) = deletes e1 ++ deletes e2.
Proof. apply omap_app. Qed.

(** Writes that neither create nor delete a pod. *)
Definition no_pod_write (ev : Event) : bool :=
  match ev with EvCreatePod _ _ | EvDeletePod _ _ => false | _ => true end.
Definition pvc_write (ev : Event) : bool :=
  match ev with EvCreatePVC _ _ | EvUpdatePVC _ _ | EvDeletePVC _ _ => true | _ => false end.

Lemma no_pod_write_creates evs : Forall (fun ev => no_pod_write ev = true) evs -> creates evs = [].
Proof. induction 1 as [|ev evs Hev _ IH]; [done|]. destruct ev; simpl in *; done. Qed.
Lemma no_pod_write_deletes evs : Forall (fun ev => no_pod_write ev = true) evs -> deletes evs = [].
Proof. induction 1 as [|ev evs Hev _ IH]; [done|]. destruct ev; simpl in *; done. Qed.
Lemma pvc_no_pod_write ev : pvc_write ev = true -> no_pod_write ev = true.
Proof. by destruct ev. Qed.

#[export] Hint Resolve only_ret only_push only_updates : kruise.

#[export] Hint Resolve frames_ret frames_call frames_expectRV frames_expectPod : kruise.

(** The writes of the lifecycle operations: at most one patch, of the pod itself. *)
Section LifecycleWrites.
Context {S : Type} `{Api S} (nowStr : string).
Import LifecycleControl.

Definition patches_only (p : Pod) (evs : list Event) : Prop :=
  evs = [] \/ exists patch ok, evs = [EvPatchPod p patch ok].

Lemma patches_only_nil p : patches_only p [].
Proof. by left. Qed.

Lemma policy_silent pod state : emits (executePodNotReadyPolicy pod state) (fun evs _ => evs = []).
Proof. unfold executePodNotReadyPolicy. split_ifs; try (by apply emits_call); by apply emits_ret. Qed.

Lemma policy_frames pod state T : frames (executePodNotReadyPolicy pod state) T.
Proof. unfold executePodNotReadyPolicy. split_ifs; auto with kruise. Qed.

Lemma patch_tail_emits pod patch (Q : list Event -> bool * option Pod * option error -> Prop) :
  (forall r, Q [EvPatchPod pod patch (match r with inl _ => false | inr _ => true end)]
    (match r with inl err => (true, None, Some err) | inr g => (true, Some g, None) end)) ->
  emits (do r <- patchPod pod patch;
         match r with
         | inl err => ret (true, None, Some err)
         | inr gotPod => ret (true, Some gotPod, None)
         end) Q.
Proof.
  intros HQ. eapply emits_bind with
    (P := fun evs r => evs = [EvPatchPod pod patch (match r with inl _ => false | inr _ => true end)]).
  - by apply emits_call.
  - intros evs r ->. destruct r as [err|g]; apply emits_ret.
    + apply (HQ (inl err)).
    + apply (HQ (inr g)).
Qed.

(** [UpdatePodLifecycle] patches the pod at most once, and answers
    "not updated" or an error when it sent no patch. *)
Lemma UpdatePodLifecycle_emits pod state mark :
  emits (UpdatePodLifecycle nowStr pod state mark) (fun evs r =>
    (evs = [] /\ r.1.1 = false) \/
    (r.1.1 = true /\ Hooks.GetPodLifecycleState pod <> state /\
     evs = [EvPatchPod pod (lifecycle_patch nowStr state) (is_ok r.2)])).
Proof.
  unfold UpdatePodLifecycle. eapply emits_bind with (P := fun evs _ => evs = []).
  - destruct mark; [apply policy_silent|by apply emits_ret].
  - intros evs e ->. destruct e as [err|]; [apply emits_ret; left; done|].
    destruct (String.eqb_spec (Hooks.GetPodLifecycleState pod) state) as [E|E].
    + apply emits_ret. left. done.
    + apply patch_tail_emits. intros r. right. destruct r; done.
Qed.

(** When it says "not updated" without an error, the pod was in that state. *)
Lemma UpdatePodLifecycle_skips pod state mark :
  emits (UpdatePodLifecycle nowStr pod state mark) (fun _ r =>
    r.1.1 = false -> r.2 = None -> Hooks.GetPodLifecycleState pod = state).
Proof.
  unfold UpdatePodLifecycle. eapply emits_bind with (P := fun _ _ => True).
  - eapply emits_mono; [|done]. destruct mark; [apply policy_silent|by apply (emits_ret _ (fun evs _ => evs = []))].
  - intros evs e _. destruct e as [err|]; [by apply emits_ret|].
    destruct (String.eqb_spec (Hooks.GetPodLifecycleState pod) state) as [E|E]; [by apply emits_ret|].
    apply patch_tail_emits. by intros [?|?].
Qed.

Lemma UpdatePodLifecycle_frames pod state mark T : frames (UpdatePodLifecycle nowStr pod state mark) T.
Proof.
  apply frames_bind; [destruct mark; [apply policy_frames|auto with kruise]|].
  intros [e|]; [auto with kruise|]. destruct (String.eqb _ _); [auto with kruise|].
  apply frames_bind; [apply frames_call|]. intros [?|?]; auto with kruise.
Qed.
End LifecycleWrites.

#[export] Hint Resolve patches_only_nil UpdatePodLifecycle_frames : kruise.

(** ** A concrete server

    Its state is the set of pod and claim names for which writes fail; a patch
    merges the labels and raises nothing. *)

Definition toy_errors : ApiErrors := {|
  IsNotFound := String.eqb "not found";
  IsAlreadyExists := String.eqb "already exists";
  IsConflict := String.eqb "conflict";
|}.

#[export] Instance toy_api : Api (gset string) := {|
  CreatePod := fun p s => (s, if bool_decide (p_name p ∈ s) then Some "denied"%string else None);
  DeletePod := fun p s => (s, if bool_decide (p_name p ∈ s) then Some "denied"%string else None);
  CreatePVC := fun c s => (s, if bool_decide (pvc_name c ∈ s) then Some "denied"%string else None);
  DeletePVC := fun c s => (s, if bool_decide (pvc_name c ∈ s) then Some "denied"%string else None);
  PatchPod := fun p patch s => (s, inr (with_labels p (patch_labels patch ∪ p_labels p)));
  AddNotReadyKey := fun _ _ s => (s, None);
  RemoveNotReadyKey := fun _ _ s => (s, None);
  InPlaceRefresh := fun _ _ s => (s, mkRefresh None 0);
  CanUpdateInPlace := fun _ _ _ => true;
  InPlaceUpdatePod := fun p _ rev _ _ s => (s, mkUpdate true None 0 "2");
  CheckPodUpdateCompleted := fun _ => None;
  PodUnavailableBudgetValidatePod := fun _ s => (s, (true, None));
|}.
