(* ===== verification/Scheduling.v ===== *)
(** * Where a pod may run

    Nodes, taints and the predicates of the scheduler that the controllers which place one
    pod per node evaluate themselves: required node affinity
    (vendor/k8s.io/component-helpers/scheduling/corev1/nodeaffinity), tolerations
    (vendor/k8s.io/component-helpers/scheduling/corev1 and vendor/k8s.io/api/core/v1), and the
    node name written into a pod and read back from it
    (vendor/k8s.io/kubernetes/pkg/controller/daemon/util). *)

From S2P Require Import Prelude GoLib GoText K8s.
Open Scope Z_scope.

(** v1.Taint. *)
Record Taint := mkTaint { tt_key : string; tt_value : string; tt_effect : string }.

(** v1.Node; a condition is its type and its status, and [n_rest] stands for the fields that
    are only compared, or read by the resource predicate. *)
Record Node := mkNode {
  n_name : string;
  n_resourceVersion : string;
  n_labels : gmap string string;
  n_taints : list Taint;
  n_unschedulable : bool;
  n_conditions : list (string * string);
  n_rest : string;
}.
#[export] Instance Taint_eq_dec : EqDecision Taint.
Proof. solve_decision. Defined.
#[export] Instance Node_eq_dec : EqDecision Node.
Proof. solve_decision. Defined.

Local Open Scope string_scope.
Definition ObjectNameField : string := "metadata.name".
Definition NodeSelectorOpIn : string := "In".
Definition NodeSelectorOpNotIn : string := "NotIn".
Definition NodeSelectorOpExists : string := "Exists".
Definition NodeSelectorOpDoesNotExist : string := "DoesNotExist".
Definition NodeSelectorOpGt : string := "Gt".
Definition NodeSelectorOpLt : string := "Lt".
Definition TolerationOpEqual : string := "Equal".
Definition TolerationOpExists : string := "Exists".
Definition TaintEffectNoSchedule : string := "NoSchedule".
Definition TaintEffectNoExecute : string := "NoExecute".
Definition TaintNodeUnschedulable : string := "node.kubernetes.io/unschedulable".
Definition TaintNodeNotReady : string := "node.kubernetes.io/not-ready".
Definition TaintNodeUnreachable : string := "node.kubernetes.io/unreachable".
Definition TaintNodeDiskPressure : string := "node.kubernetes.io/disk-pressure".
Definition TaintNodeMemoryPressure : string := "node.kubernetes.io/memory-pressure".
Definition TaintNodePIDPressure : string := "node.kubernetes.io/pid-pressure".
Definition TaintNodeNetworkUnavailable : string := "node.kubernetes.io/network-unavailable".
Definition DaemonSetTemplateGenerationKey : string := "pod-template-generation".
Local Close Scope string_scope.

(** ** Tolerations *)

Definition ToleratesTaint (t : Toleration) (taint : Taint) : bool :=
  if negb (String.eqb (tol_effect t) "") && negb (String.eqb (tol_effect t) (tt_effect taint)) then false
  else if negb (String.eqb (tol_key t) "") && negb (String.eqb (tol_key t) (tt_key taint)) then false
  else if String.eqb (tol_operator t) "" || String.eqb (tol_operator t) TolerationOpEqual
  then String.eqb (tol_value t) (tt_value taint)
  else String.eqb (tol_operator t) TolerationOpExists.

Definition TolerationsTolerateTaint (ts : list Toleration) (taint : Taint) : bool :=
  existsb (fun t => ToleratesTaint t taint) ts.

Definition FindMatchingUntoleratedTaint (taints : list Taint) (ts : list Toleration) (filter : Taint -> bool)
  : option Taint :=
  find (fun taint => negb (TolerationsTolerateTaint ts taint)) (filterb filter taints).

(** ** Required node affinity *)

Section Affinity.
(** The syntax of label keys and values, checked by [validateLabelKey] and
    [validateLabelValue]. *)
Context (validLabel : string -> list string -> bool).

Definition int_ok (s : string) : bool := match conv_ok (ParseInt s 64) with Some _ => true | None => false end.

(** [labels.NewRequirement] has no error on a requirement of a node selector. *)
Definition NewRequirement_ok (r : NodeSelectorRequirement) : bool :=
  let vals := nr_values r in
  let op := nr_operator r in
  validLabel (nr_key r) vals &&
  (if String.eqb op NodeSelectorOpIn || String.eqb op NodeSelectorOpNotIn then negb (bool_decide (vals = []))
   else if String.eqb op NodeSelectorOpExists || String.eqb op NodeSelectorOpDoesNotExist then bool_decide (vals = [])
   else if String.eqb op NodeSelectorOpGt || String.eqb op NodeSelectorOpLt then
     match vals with [v] => int_ok v | _ => false end
   else false).

(** [Requirement.Matches]. *)
Definition Requirement_Matches (r : NodeSelectorRequirement) (labels : gmap string string) : bool :=
  let v := labels !! nr_key r in
  let op := nr_operator r in
  if String.eqb op NodeSelectorOpIn then
    match v with Some s => existsb (String.eqb s) (nr_values r) | None => false end
  else if String.eqb op NodeSelectorOpNotIn then
    match v with Some s => negb (existsb (String.eqb s) (nr_values r)) | None => true end
  else if String.eqb op NodeSelectorOpExists then match v with Some _ => true | None => false end
  else if String.eqb op NodeSelectorOpDoesNotExist then match v with Some _ => false | None => true end
  else if String.eqb op NodeSelectorOpGt || String.eqb op NodeSelectorOpLt then
    match v with
    | None => false
    | Some s =>
        match conv_ok (ParseInt s 64), nr_values r with
        | Some lsValue, [rv] =>
            match conv_ok (ParseInt rv 64) with
            | Some rValue =>
                (String.eqb op NodeSelectorOpGt && (rValue <? lsValue))
                || (String.eqb op NodeSelectorOpLt && (lsValue <? rValue))
            | None => false
            end
        | _, _ => false
        end
    end
  else false.

(** [nodeSelectorRequirementsAsFieldSelector]: whether a requirement on fields is valid, and
    whether the fields of the node satisfy it. *)
Definition field_ok (r : NodeSelectorRequirement) : bool :=
  (String.eqb (nr_operator r) NodeSelectorOpIn || String.eqb (nr_operator r) NodeSelectorOpNotIn)
  && match nr_values r with [_] => true | _ => false end.

(** [extractNodeFields]. *)
Definition extractNodeFields (node : Node) : gmap string string :=
  if String.eqb (n_name node) "" then ∅ else {[ ObjectNameField := n_name node ]}.

Definition field_matches (r : NodeSelectorRequirement) (fields : gmap string string) : bool :=
  match nr_values r with
  | [v] => if String.eqb (nr_operator r) NodeSelectorOpIn then String.eqb (lbl fields (nr_key r)) v
           else negb (String.eqb (lbl fields (nr_key r)) v)
  | _ => false
  end.

(** [newNodeSelectorTerm] and [nodeSelectorTerm.match]; a term with a parse error matches
    nothing. *)
Definition term_match (t : NodeSelectorTerm) (node : Node) : bool :=
  let fields := extractNodeFields node in
  forallb NewRequirement_ok (nt_expressions t) && forallb field_ok (nt_fields t)
  && forallb (fun r => Requirement_Matches r (n_labels node)) (nt_expressions t)
  && (String.eqb (n_name node) "" || forallb (fun r => field_matches r fields) (nt_fields t)).

Definition isEmptyNodeSelectorTerm (t : NodeSelectorTerm) : bool :=
  bool_decide (nt_expressions t = []) && bool_decide (nt_fields t = []).

(** [LazyErrorNodeSelector.Match], without its error. *)
Definition NodeSelector_Match (terms : list NodeSelectorTerm) (node : Node) : bool :=
  existsb (fun t => negb (isEmptyNodeSelectorTerm t) && term_match t node) terms.

(** [GetRequiredNodeAffinity(pod).Match(node)], without its error. *)
Definition RequiredNodeAffinity_Match (pod : Pod) (node : Node) : bool :=
  forallb (fun kv => bool_decide (n_labels node !! kv.1 = Some kv.2)) (map_to_list (pl_nodeSelector (p_placement pod)))
  && match pl_affinity (p_placement pod) with
     | None => true
     | Some terms => NodeSelector_Match terms node
     end.
End Affinity.

(** ** The node of a pod *)

(** The term that [ReplaceDaemonSetPodNodeNameNodeAffinity] writes. *)
Definition node_name_term (nodename : string) : NodeSelectorTerm :=
  mkNodeTerm [] [mkNodeReq ObjectNameField NodeSelectorOpIn [nodename]].

Definition ReplaceDaemonSetPodNodeNameNodeAffinity (pl : PodPlacement) (nodename : string) : PodPlacement :=
  mkPlacement (pl_restartPolicy pl) (pl_nodeSelector pl) (Some [node_name_term nodename]) (pl_tolerations pl)
    (pl_hostNetwork pl) (pl_schedulerName pl) (pl_preferred pl) (pl_initContainers pl) (pl_pullSecrets pl).

(** The node name that the fields of the affinity terms require, the first one found. *)
Definition name_req (r : NodeSelectorRequirement) : option string :=
  match nr_values r with
  | [v] => if String.eqb (nr_key r) ObjectNameField && String.eqb (nr_operator r) NodeSelectorOpIn then Some v else None
  | _ => None
  end.
Definition affinity_node (pl : PodPlacement) : option string :=
  match pl_affinity pl with
  | None => None
  | Some terms => head (omap name_req (terms ≫= nt_fields))
  end.

(** [GetTargetNodeName]: [None] is an error, also for a requirement of the name with no or
    several values. *)
Definition GetTargetNodeName (pod : Pod) : option string :=
  if negb (String.eqb (p_node pod) "") then Some (p_node pod)
  else
    match pl_affinity (p_placement pod) with
    | None => None
    | Some terms =>
        match find (fun r => String.eqb (nr_key r) ObjectNameField && String.eqb (nr_operator r) NodeSelectorOpIn)
                (terms ≫= nt_fields) with
        | Some r => match nr_values r with [v] => Some v | _ => None end
        | None => None
        end
    end.

(** ** Templates of daemon pods *)

Definition MatchToleration (t u : Toleration) : bool :=
  String.eqb (tol_key t) (tol_key u) && String.eqb (tol_effect t) (tol_effect u)
  && String.eqb (tol_operator t) (tol_operator u) && String.eqb (tol_value t) (tol_value u).

(** [AddOrUpdateTolerationInPodSpec]; its early return compares a pointer with a value and is
    never taken. *)
Definition AddOrUpdateTolerationInPodSpec (toleration : Toleration) (ts : list Toleration) : list Toleration :=
  map (fun u => if MatchToleration toleration u then toleration else u) ts
  ++ (if existsb (MatchToleration toleration) ts then [] else [toleration]).

Definition daemon_tolerations (hostNetwork : bool) : list Toleration :=
  [mkToleration TaintNodeNotReady TolerationOpExists "" TaintEffectNoExecute None;
   mkToleration TaintNodeUnreachable TolerationOpExists "" TaintEffectNoExecute None;
   mkToleration TaintNodeDiskPressure TolerationOpExists "" TaintEffectNoSchedule None;
   mkToleration TaintNodeMemoryPressure TolerationOpExists "" TaintEffectNoSchedule None;
   mkToleration TaintNodePIDPressure TolerationOpExists "" TaintEffectNoSchedule None;
   mkToleration TaintNodeUnschedulable TolerationOpExists "" TaintEffectNoSchedule None]
  ++ (if hostNetwork
      then [mkToleration TaintNodeNetworkUnavailable TolerationOpExists "" TaintEffectNoSchedule None] else []).

Definition AddOrUpdateDaemonPodTolerations (pl : PodPlacement) : PodPlacement :=
  mkPlacement (pl_restartPolicy pl) (pl_nodeSelector pl) (pl_affinity pl)
    (fold_left (fun ts t => AddOrUpdateTolerationInPodSpec t ts) (daemon_tolerations (pl_hostNetwork pl))
       (pl_tolerations pl))
    (pl_hostNetwork pl) (pl_schedulerName pl) (pl_preferred pl) (pl_initContainers pl) (pl_pullSecrets pl).

Definition CreatePodTemplate (template : PodTemplate) (generation : option Z) (hash : string) : PodTemplate :=
  let labels := t_labels template in
  let labels := match generation with Some g => <[DaemonSetTemplateGenerationKey := Itoa g]> labels | None => labels end in
  let labels := if negb (String.eqb hash "") then <[ControllerRevisionHashLabelKey := hash]> labels else labels in
  mkTemplate labels (t_annotations template) (t_finalizers template) (t_containers template) (t_volumes template)
    (t_gates template) (t_nodeName template) (AddOrUpdateDaemonPodTolerations (t_placement template)).

(** The label of a pod matches the hash of the template or its generation. *)
Definition IsPodUpdated (pod : Pod) (hash : string) (dsTemplateGeneration : option Z) : bool :=
  let templateMatches :=
    match dsTemplateGeneration with
    | Some g => String.eqb (lbl (p_labels pod) DaemonSetTemplateGenerationKey) (Itoa g)
    | None => false
    end in
  let hashMatches := negb (String.eqb hash "") && String.eqb (lbl (p_labels pod) ControllerRevisionHashLabelKey) hash in
  hashMatches || templateMatches.

(** ** Updates of nodes *)

(** [nodeInSameCondition]. *)
Fixpoint same_conditions (c1map : gset string) (cur : list (string * string)) : bool :=
  match cur with
  | [] => bool_decide (c1map = ∅)
  | (t, status) :: cur' =>
      if negb (String.eqb status ConditionTrue) then same_conditions c1map cur'
      else if bool_decide (t ∈ c1map) then same_conditions (c1map ∖ {[t]}) cur' else false
  end.
Definition nodeInSameCondition (old cur : list (string * string)) : bool :=
  match old, cur with
  | [], [] => true
  | _, _ => same_conditions (list_to_set (map fst (filterb (fun c => String.eqb c.2 ConditionTrue) old))) cur
  end.
Definition shouldIgnoreNodeUpdate (oldNode curNode : Node) : bool :=
  if negb (nodeInSameCondition (n_conditions oldNode) (n_conditions curNode)) then false
  else bool_decide (mkNode (n_name oldNode) (n_resourceVersion curNode) (n_labels oldNode) (n_taints oldNode)
                      (n_unschedulable oldNode) (n_conditions curNode) (n_rest oldNode) = curNode).

Lemma affinity_node_replace pl n : affinity_node (ReplaceDaemonSetPodNodeNameNodeAffinity pl n) = Some n.
Proof. done. Qed.

(** A pod bound to a node by that affinity matches this node and no other one. *)
Lemma replaced_affinity_match validLabel pod pl n node :
  pl_nodeSelector pl = ∅ -> n_name node <> ""%string ->
  RequiredNodeAffinity_Match validLabel (with_placement pod (ReplaceDaemonSetPodNodeNameNodeAffinity pl n)) node
  = String.eqb (n_name node) n.
Proof.
  intros Hs Hn. unfold RequiredNodeAffinity_Match. cbn. rewrite Hs, map_to_list_empty. cbn.
  unfold term_match, field_matches, extractNodeFields. cbn.
  destruct (String.eqb_spec (n_name node) "") as [E|E]; [done|]. cbn.
  rewrite !andb_true_r, orb_false_r. unfold lbl, ObjectNameField. by rewrite lookup_insert_eq.
Qed.
