(* ===== verification/InPlaceUpdate.v ===== *)
(** * In-place update

    pkg/util/inplaceupdate (inplace_update.go and inplace_update_defaults.go), the types and
    accessors of apis/apps/pub/inplace_update.go, and what they use of
    pkg/util/containerlaunchpriority and pkg/util/containermeta: what an update changes in a
    pod, in which batches, when a pod has been updated, and the operations [Update] and
    [Refresh] that the workload controllers call. *)

From S2P Require Import Prelude GoLib GoText K8s Tools Expectations Lifecycle UpdateSort CloneSetDiff World.
Open Scope Z_scope.
Open Scope kruise_scope.

(** ** The state kept in annotations *)

Definition InPlaceUpdateStateKey : string := "apps.kruise.io/inplace-update-state".
Definition InPlaceUpdateStateKeyOld : string := "inplace-update-state".
Definition InPlaceUpdateGraceKey : string := "apps.kruise.io/inplace-update-grace".
Definition InPlaceUpdateGraceKeyOld : string := "inplace-update-grace".
Definition RuntimeContainerMetaKey : string := "apps.kruise.io/runtime-containers-meta".

(** The labels and annotations of a [metav1.ObjectMeta]. *)
Record ObjectMeta := mkMeta { om_Labels : gmap string string; om_Annotations : gmap string string }.

(** A batch: its time and its containers. *)
Record InPlaceUpdateContainerBatch := mkBatch { cb_Timestamp : Z; cb_Containers : list string }.

(** [LastContainerStatuses] holds the image id of each container; [PreCheckBeforeNext] holds
    its [ContainersRequiredReady]. *)
Record InPlaceUpdateState := mkUpdateState {
  is_Revision : string;
  is_UpdateTimestamp : Z;
  is_LastContainerStatuses : gmap string string;
  is_UpdateEnvFromMetadata : bool;
  is_NextContainerImages : gmap string string;
  is_NextContainerRefMetadata : gmap string ObjectMeta;
  is_PreCheckBeforeNext : option (list string);
  is_ContainerBatchesRecord : list InPlaceUpdateContainerBatch;
}.

(** [MetaDataPatch] is a strategic merge patch; the templates of the Go type are never set. *)
Record UpdateSpec := mkUpdateSpec {
  us_Revision : string;
  us_ContainerImages : gmap string string;
  us_ContainerRefMetadata : gmap string ObjectMeta;
  us_MetaDataPatch : option string;
  us_UpdateEnvFromMetadata : bool;
  us_GraceSeconds : Z;
}.

(** What kruise-daemon reports of a running container. *)
Record RuntimeContainerMeta := mkRuntimeMeta {
  rm_Name : string;
  rm_ContainerID : string;
  rm_PlainHash : Z;
  rm_ExtractedEnvFromMetadataHash : Z;
}.

(** encoding/json on these types. *)
Class Json (A : Type) := {
  Marshal : A -> string;
  Unmarshal : string -> error + A;
}.

(** A [metav1.Time] is written in whole seconds. *)
Definition trunc_time (t : Z) : Z := t - t mod second.
Definition trunc_batch (b : InPlaceUpdateContainerBatch) : InPlaceUpdateContainerBatch :=
  mkBatch (trunc_time (cb_Timestamp b)) (cb_Containers b).
Definition trunc_state (st : InPlaceUpdateState) : InPlaceUpdateState :=
  mkUpdateState (is_Revision st) (trunc_time (is_UpdateTimestamp st)) (is_LastContainerStatuses st)
    (is_UpdateEnvFromMetadata st) (is_NextContainerImages st) (is_NextContainerRefMetadata st)
    (is_PreCheckBeforeNext st) (map trunc_batch (is_ContainerBatchesRecord st)).

(** The documented round trips: a state comes back with its times in whole seconds, a spec
    as it was, when its patch is not empty. *)
Class JsonLaws `{Json InPlaceUpdateState} `{Json UpdateSpec} : Prop := {
  state_roundtrip : forall st, Unmarshal (Marshal st) = inr (trunc_state st);
  spec_roundtrip : forall sp, us_MetaDataPatch sp <> Some ""%string -> Unmarshal (Marshal sp) = inr sp;
}.

Definition annotation (p : Pod) (key old : string) : option string :=
  match p_annotations p !! key with Some v => Some v | None => p_annotations p !! old end.
Definition GetInPlaceUpdateState (p : Pod) : option string :=
  annotation p InPlaceUpdateStateKey InPlaceUpdateStateKeyOld.
Definition GetInPlaceUpdateGrace (p : Pod) : option string :=
  annotation p InPlaceUpdateGraceKey InPlaceUpdateGraceKeyOld.
Definition RemoveInPlaceUpdateGrace (p : Pod) : Pod :=
  with_annotations p (delete InPlaceUpdateGraceKeyOld (delete InPlaceUpdateGraceKey (p_annotations p))).

(** The set reported, [None] without the annotation; or the error. *)
Definition GetRuntimeContainerMetaSet `{Json (list RuntimeContainerMeta)} (p : Pod)
  : error + option (list RuntimeContainerMeta) :=
  match p_annotations p !! RuntimeContainerMetaKey with
  | None => inr None
  | Some str => match Unmarshal str with inl err => inl err | inr s => inr (Some s) end
  end.

(** ** Containers *)

Definition ContainerLaunchBarrierEnvName : string := "KRUISE_CONTAINER_BARRIER".
Definition priorityStartIndex : nat := 2.

Definition find_env_var (name : string) (l : list EnvVar) : option EnvVar :=
  find (fun e => String.eqb (env_name e) name) l.

(** The priority is read from a key that Kruise writes itself, ["p_<n>"]; Go panics on a
    variable of that name without such a key. *)
Definition barrier_key (e : EnvVar) : string :=
  match env_from e with
  | Some src => default ""%string (es_ConfigMapKeyRef src)
  | None => ""
  end.
Definition GetContainerPriority (c : Container) : option Z :=
  match find_env_var ContainerLaunchBarrierEnvName (ctr_env c) with
  | Some e => Some (conv_val (Atoi (of_chars (drop priorityStartIndex (chars (barrier_key e))))))
  | None => None
  end.
Definition GetKey (priority : Z) : string := "p_" +:+ Itoa priority.
Definition GeneratePriorityEnv (priority : Z) (podName : string) : EnvVar :=
  mkEnvVar ContainerLaunchBarrierEnvName "" (Some (mkEnvSource None (Some (GetKey priority)))).

(** [fieldpath.SplitMaybeSubscriptedPath]. *)
Definition SplitMaybeSubscriptedPath (fieldPath : string) : option (string * string) :=
  match rev (chars fieldPath) with
  | "]"%char :: "'"%char :: r =>
      match SplitN (of_chars (rev r)) "['" 2 with
      | [path; subscript] => if String.eqb path "" then None else Some (path, subscript)
      | _ => None
      end
  | _ => None
  end.

Definition excludeEnvs : list string := ["SIDECARSET_VERSION"; "SIDECARSET_VERSION_ALT"]%string.

(** The path and the key of the field of a variable that counts. *)
Definition env_ref (e : EnvVar) : option (string * string) :=
  if negb (String.eqb (env_value e) "") then None
  else match env_from e with
       | None => None
       | Some src =>
           match es_FieldRef src with
           | None => None
           | Some path =>
               if existsb (String.eqb (env_name e)) excludeEnvs then None else SplitMaybeSubscriptedPath path
           end
       end.

Definition IsContainerReferenceToMeta (c : Container) (path key : string) : bool :=
  existsb (fun e => match env_ref e with
                    | Some (reqPath, subscript) => String.eqb reqPath path && String.eqb subscript key
                    | None => false
                    end) (ctr_env c).

(** The variables that [GetExpectHash] hashes, with their values. *)
Definition expect_env (p : Pod) (e : EnvVar) : option (string * string) :=
  match env_ref e with
  | None => None
  | Some (path, subscript) =>
      if String.eqb path "metadata.annotations" then Some (env_name e, lbl (p_annotations p) subscript)
      else if String.eqb path "metadata.labels" then Some (env_name e, lbl (p_labels p) subscript)
      else None
  end.
Definition expect_envs (c : Container) (p : Pod) : list (string * string) :=
  SliceStable (fun a b => string_lt a.1 b.1) (omap (expect_env p) (ctr_env c)).

(** ** One batch *)

(** The first loop of [defaultPatchUpdateSpecToPod]: the containers without a priority, the
    highest priority and the containers that have it. *)
Fixpoint first_batch (spec : UpdateSpec) (cs : list Container) (toUpdate : gset string)
  (highestPriority : option Z) (withHighest : list string) : gset string * list string :=
  match cs with
  | [] => (toUpdate, withHighest)
  | c :: rest =>
      if negb (bool_decide (is_Some (us_ContainerImages spec !! ctr_name c)))
         && negb (bool_decide (is_Some (us_ContainerRefMetadata spec !! ctr_name c)))
      then first_batch spec rest toUpdate highestPriority withHighest
      else
        match GetContainerPriority c with
        | None => first_batch spec rest ({[ctr_name c]} ∪ toUpdate) highestPriority withHighest
        | Some priority =>
            match highestPriority with
            | None => first_batch spec rest toUpdate (Some priority) [ctr_name c]
            | Some h =>
                if h <? priority then first_batch spec rest toUpdate (Some priority) [ctr_name c]
                else if h =? priority then first_batch spec rest toUpdate highestPriority (withHighest ++ [ctr_name c])
                else first_batch spec rest toUpdate highestPriority withHighest
            end
        end
  end.

(** The keys that the containers of a set refer to. *)
Definition keys_of (f : ObjectMeta -> gmap string string) (refs : gmap string ObjectMeta) (names : gset string)
  : gset string :=
  union_list (map (fun n => match refs !! n with Some m => dom (f m) | None => ∅ end) (elements names)).

(** One round of [addMetadataSharedContainersToUpdate] after its keys are collected: the
    containers that share a key with those to update. *)
Definition shares (labels annotations : gset string) (m : ObjectMeta) : bool :=
  negb (bool_decide (labels ∩ dom (om_Labels m) = ∅)) || negb (bool_decide (annotations ∩ dom (om_Annotations m) = ∅)).
Definition newly_shared (refs : gmap string ObjectMeta) (toUpdate labels annotations : gset string) : gset string :=
  dom (filter (fun kv => kv.1 ∉ toUpdate /\ shares labels annotations kv.2 = true) refs).

(** The loop; every round but the last adds a container of [refs], so that one round more
    than there are of them is enough. *)
Fixpoint share_loop (fuel : nat) (refs : gmap string ObjectMeta) (toUpdate labels annotations newToUpdate : gset string)
  : gset string :=
  match fuel with
  | O => toUpdate
  | S fuel' =>
      if bool_decide (newToUpdate = ∅) then toUpdate
      else
        let labels := labels ∪ keys_of om_Labels refs newToUpdate in
        let annotations := annotations ∪ keys_of om_Annotations refs newToUpdate in
        let new := newly_shared refs toUpdate labels annotations in
        share_loop fuel' refs (toUpdate ∪ new) labels annotations new
  end.
Definition addMetadataSharedContainersToUpdate (toUpdate : gset string) (refs : gmap string ObjectMeta) : gset string :=
  share_loop (S (S (size refs))) refs toUpdate ∅ ∅ toUpdate.

(** The containers of this batch. *)
Definition batch_of (pod : Pod) (spec : UpdateSpec) : gset string :=
  let '(toUpdate, withHighest) := first_batch spec (p_containers pod) ∅ None [] in
  addMetadataSharedContainersToUpdate (toUpdate ∪ list_to_set withHighest) (us_ContainerRefMetadata spec).

(** [sets.String.List]: the names in order. *)
Definition set_list (s : gset string) : list string := SliceStable string_lt (elements s).

Definition set_image (spec : UpdateSpec) (batch : gset string) (c : Container) : Container :=
  match us_ContainerImages spec !! ctr_name c with
  | Some newImage =>
      if bool_decide (ctr_name c ∈ batch) then mkContainer (ctr_name c) newImage (ctr_env c) (ctr_mounts c) else c
  | None => c
  end.
(** The images left for the next batches; the containers are those of the pod. *)
Definition next_images (spec : UpdateSpec) (batch : gset string) (cs : list Container) : gmap string string :=
  list_to_map (omap (fun c => match us_ContainerImages spec !! ctr_name c with
                              | Some newImage => if bool_decide (ctr_name c ∈ batch) then None
                                                 else Some (ctr_name c, newImage)
                              | None => None
                              end) cs).
(** The image ids of the containers whose image changes. *)
Definition last_statuses (spec : UpdateSpec) (batch : gset string) (pod : Pod) (last : gmap string string)
  : gmap string string :=
  let changed c := bool_decide (ctr_name c ∈ batch) && bool_decide (is_Some (us_ContainerImages spec !! ctr_name c)) in
  let names : gset string := list_to_set (map ctr_name (filterb changed (p_containers pod))) in
  fold_left (fun l s => if bool_decide (K8s.cs_name s ∈ names) then <[K8s.cs_name s := cs_imageID s]> l else l)
    (p_cstatuses pod) last.

(** The values that the containers of the batch refer to; the key of a label has the same
    value in all of them. *)
Definition batch_meta (f : ObjectMeta -> gmap string string) (refs : gmap string ObjectMeta) (batch : gset string)
  : gmap string string :=
  map_fold (fun _ m acc => f m ∪ acc) ∅ (filter (fun kv => kv.1 ∈ batch) refs).

Definition is_some {A} (x : option A) : bool := match x with Some _ => true | None => false end.
Definition nonempty_map {A} (m : gmap string A) : bool := negb (bool_decide (size m = 0%nat)).
Definition more_batches (st : InPlaceUpdateState) : bool :=
  nonempty_map (is_NextContainerImages st) || nonempty_map (is_NextContainerRefMetadata st).

Section Patch.
Context `{JS : Json InPlaceUpdateState}.
(** The time, and [strategicpatch.StrategicMergePatch] of the metadata. *)
Context (now : Z) (MergeMetadata : Pod -> string -> error + Pod).

(** The state after a batch. *)
Definition next_state (pod : Pod) (spec : UpdateSpec) (state : InPlaceUpdateState) : InPlaceUpdateState :=
  let batch := batch_of pod spec in
  let nextImages := next_images spec batch (p_containers pod) in
  let nextMeta := filter (fun kv => kv.1 ∉ batch) (us_ContainerRefMetadata spec) in
  mkUpdateState (is_Revision state) (is_UpdateTimestamp state)
    (last_statuses spec batch pod (is_LastContainerStatuses state))
    (is_UpdateEnvFromMetadata state) nextImages nextMeta
    (if nonempty_map nextImages || nonempty_map nextMeta then Some (set_list batch) else None)
    (is_ContainerBatchesRecord state ++ [mkBatch now (set_list batch)]).

(** The part after the metadata is merged. *)
Definition apply_batch (pod : Pod) (spec : UpdateSpec) (state : InPlaceUpdateState) : Pod :=
  let batch := batch_of pod spec in
  let labels := batch_meta om_Labels (us_ContainerRefMetadata spec) batch ∪ p_labels pod in
  let annotations := batch_meta om_Annotations (us_ContainerRefMetadata spec) batch ∪ p_annotations pod in
  with_annotations (with_labels (with_containers pod (map (set_image spec batch) (p_containers pod))) labels)
    (<[InPlaceUpdateStateKey := Marshal (next_state pod spec state)]> annotations).

Definition defaultPatchUpdateSpecToPod (pod : Pod) (spec : UpdateSpec) (state : InPlaceUpdateState) : error + Pod :=
  match us_MetaDataPatch spec with
  | None => inr (apply_batch pod spec state)
  | Some patch =>
      match MergeMetadata pod patch with
      | inl err => inl err
      | inr pod => inr (apply_batch pod spec state)
      end
  end.
End Patch.

(** ** What changed between two revisions *)

(** An operation of a JSON patch; the value is that of a string, where one is read. *)
Record Operation := mkOperation { op_Operation : string; op_Path : string; op_Value : string }.

(** The template of a revision. *)
Record PodTemplateSpec := mkPodTemplate { pt_meta : ObjectMeta; pt_containers : list Container }.

(** [containerImagePatchRexp], ["^/spec/containers/([0-9]+)/image$"]: the index. *)
Definition image_index (path : string) : option Z :=
  match Split path "/" with
  | [e; sp; cts; idx; im] =>
      if String.eqb e "" && String.eqb sp "spec" && String.eqb cts "containers" && String.eqb im "image"
         && negb (String.eqb idx "") && forallb is_digit (chars idx)
      then Some (conv_val (Atoi idx)) else None
  | _ => None
  end.

(** [rfc6901Decoder.Replace]. *)
Fixpoint unescape (l : list ascii) : list ascii :=
  match l with
  | "~"%char :: (c :: l') as rest =>
      if Ascii.eqb c "1" then "/"%char :: unescape l'
      else if Ascii.eqb c "0" then "~"%char :: unescape l'
      else "~"%char :: unescape rest
  | c :: l' => c :: unescape l'
  | [] => []
  end.

Definition with_images (sp : UpdateSpec) (m : gmap string string) : UpdateSpec :=
  mkUpdateSpec (us_Revision sp) m (us_ContainerRefMetadata sp) (us_MetaDataPatch sp) (us_UpdateEnvFromMetadata sp)
    (us_GraceSeconds sp).
Definition with_refs (sp : UpdateSpec) (m : gmap string ObjectMeta) : UpdateSpec :=
  mkUpdateSpec (us_Revision sp) (us_ContainerImages sp) m (us_MetaDataPatch sp) true (us_GraceSeconds sp).
Definition with_patch (sp : UpdateSpec) (patch : string) : UpdateSpec :=
  mkUpdateSpec (us_Revision sp) (us_ContainerImages sp) (us_ContainerRefMetadata sp) (Some patch)
    (us_UpdateEnvFromMetadata sp) (us_GraceSeconds sp).

(** The loop over the patches: the spec with the new images and the operations on metadata,
    or [None] when some operation rules the in-place update out. *)
Fixpoint spec_patches (oldTemp : PodTemplateSpec) (patches : list Operation) (sp : UpdateSpec)
  (metadataPatches : list Operation) : option (UpdateSpec * list Operation) :=
  match patches with
  | [] => Some (sp, metadataPatches)
  | op :: rest =>
      let op := mkOperation (op_Operation op) (ReplaceFirst (op_Path op) "/spec/template" "") (op_Value op) in
      if negb (HasPrefix (op_Path op) "/spec/") then
        if HasPrefix (op_Path op) "/metadata/" then spec_patches oldTemp rest sp (metadataPatches ++ [op]) else None
      else
        match image_index (op_Path op) with
        | None => None
        | Some idx =>
            if negb (String.eqb (op_Operation op) "replace") then None
            else if len (pt_containers oldTemp) <=? idx then None
            else match pt_containers oldTemp !! Z.to_nat idx with
                 | None => None
                 | Some c => spec_patches oldTemp rest
                               (with_images sp (<[ctr_name c := op_Value op]> (us_ContainerImages sp))) metadataPatches
                 end
        end
  end.

(** The inner loop over the containers, for one operation on the labels or the annotations. *)
Inductive MetaKind := Labels | Annotations.
Definition meta_path (k : MetaKind) : string :=
  match k with Labels => "metadata.labels" | Annotations => "metadata.annotations" end.
Definition add_meta (k : MetaKind) (key value : string) (m : ObjectMeta) : ObjectMeta :=
  match k with
  | Labels => mkMeta (<[key := value]> (om_Labels m)) (om_Annotations m)
  | Annotations => mkMeta (om_Labels m) (<[key := value]> (om_Annotations m))
  end.
Definition drop_meta (k : MetaKind) (key : string) (m : ObjectMeta) : ObjectMeta :=
  match k with
  | Labels => mkMeta (delete key (om_Labels m)) (om_Annotations m)
  | Annotations => mkMeta (om_Labels m) (delete key (om_Annotations m))
  end.
Fixpoint ref_containers (k : MetaKind) (key value : string) (cs : list Container) (st : UpdateSpec * ObjectMeta * ObjectMeta)
  : UpdateSpec * ObjectMeta * ObjectMeta :=
  match cs with
  | [] => st
  | c :: rest =>
      if IsContainerReferenceToMeta c (meta_path k) key then
        let '(sp, oldMeta, newMeta) := st in
        let objMeta := default (mkMeta ∅ ∅) (us_ContainerRefMetadata sp !! ctr_name c) in
        ref_containers k key value rest
          (with_refs sp (<[ctr_name c := add_meta k key value objMeta]> (us_ContainerRefMetadata sp)),
           drop_meta k key oldMeta, drop_meta k key newMeta)
      else ref_containers k key value rest st
  end.

(** The kind and the key of an operation on the metadata, if it is one that counts. *)
Definition meta_key (op : Operation) : option (MetaKind * string) :=
  if negb (String.eqb (op_Operation op) "replace") && negb (String.eqb (op_Operation op) "add") then None
  else match SplitN (op_Path op) "/" 4 with
       | [_; _; kind; key] =>
           let key := of_chars (unescape (chars key)) in
           if String.eqb kind "labels" then Some (Labels, key)
           else if String.eqb kind "annotations" then Some (Annotations, key) else None
       | _ => None
       end.

Definition ref_metadata (cs : list Container) (patches : list Operation) (st : UpdateSpec * ObjectMeta * ObjectMeta)
  : UpdateSpec * ObjectMeta * ObjectMeta :=
  fold_left (fun st op => match meta_key op with
                          | Some (k, key) => ref_containers k key (op_Value op) cs st
                          | None => st
                          end) patches st.

Record UpdateOptions := mkOptions {
  GracePeriodSeconds : Z;
  AdditionalFuncs : list (Pod -> Pod);
  GetRevision : option (ControllerRevision -> string);
}.

Section Calculate.
(** [jsonpatch.CreatePatch], [GetTemplateFromRevision], [strategicpatch.CreateTwoWayMergePatch]
    on pods with only metadata, and the gate InPlaceUpdateEnvFromMetadata. *)
Context (CreatePatch : string -> string -> error + list Operation)
        (GetTemplateFromRevision : ControllerRevision -> error + PodTemplateSpec)
        (CreateMetaPatch : ObjectMeta -> ObjectMeta -> error + string)
        (envFromMetadataGate : bool).

Definition defaultCalculateInPlaceUpdateSpec (oldRevision newRevision : option ControllerRevision) (opts : UpdateOptions)
  : option UpdateSpec :=
  match oldRevision, newRevision with
  | Some oldRevision, Some newRevision =>
      match CreatePatch (cr_data oldRevision) (cr_data newRevision), GetTemplateFromRevision oldRevision,
            GetTemplateFromRevision newRevision with
      | inr patches, inr oldTemp, inr newTemp =>
          let revision := match GetRevision opts with Some f => f newRevision | None => cr_name newRevision end in
          match spec_patches oldTemp patches (mkUpdateSpec revision ∅ ∅ None false (GracePeriodSeconds opts)) [] with
          | None => None
          | Some (sp, []) => Some sp
          | Some (sp, metadataPatches) =>
              let '(sp, oldMeta, newMeta) :=
                if envFromMetadataGate
                then ref_metadata (pt_containers newTemp) metadataPatches (sp, pt_meta oldTemp, pt_meta newTemp)
                else (sp, pt_meta oldTemp, pt_meta newTemp) in
              match CreateMetaPatch oldMeta newMeta with
              | inl _ => None
              | inr patch => Some (with_patch sp patch)
              end
          end
      | _, _, _ => None
      end
  | _, _ => None
  end.
Definition CanUpdateInPlace (oldRevision newRevision : option ControllerRevision) (opts : UpdateOptions) : bool :=
  is_some (defaultCalculateInPlaceUpdateSpec oldRevision newRevision opts).
End Calculate.

(** ** When a pod has been updated *)

Inductive hashType := plainHash | extractedEnvFromMetadataHash.

Section Completed.
Context `{JS : Json InPlaceUpdateState} `{JM : Json (list RuntimeContainerMeta)}.
(** [kubeletcontainer.HashContainer] and [hashEnvs]. *)
Context (HashContainer : Container -> Z) (hashEnvs : list (string * string) -> Z).

Definition GetExpectHash (c : Container) (p : Pod) : Z := hashEnvs (expect_envs c p).

(** The metadata of a container: the last of its name. *)
Definition runtime_meta (metas : list RuntimeContainerMeta) (name : string) : option RuntimeContainerMeta :=
  find (fun m => String.eqb (rm_Name m) name) (rev metas).

Definition container_consistent (pod : Pod) (metas : list RuntimeContainerMeta) (h : hashType) (c : Container) : bool :=
  match PodsUtil.GetContainerStatus (ctr_name c) pod with
  | None => false
  | Some status =>
      match runtime_meta metas (ctr_name c) with
      | None => false
      | Some m =>
          if negb (String.eqb (rm_ContainerID m) (cs_containerID status)) then false
          else match h with
               | plainHash => rm_PlainHash m =? HashContainer c
               | extractedEnvFromMetadataHash => rm_ExtractedEnvFromMetadataHash m =? GetExpectHash c pod
               end
      end
  end.
Definition checkAllContainersHashConsistent (pod : Pod) (metas : list RuntimeContainerMeta) (h : hashType) : bool :=
  forallb (container_consistent pod metas h) (p_containers pod).

(** The image that a container is expected to report; an image without a colon has the tag
    latest. *)
Definition full_image (image : string) : string :=
  if (length (Split image ":") <=? 1)%nat then image +:+ ":latest" else image.
(** [containerImages[name]]: the last container of the name; an unknown name has none. *)
Definition image_of (pod : Pod) (name : string) : string :=
  match find (fun c => String.eqb (ctr_name c) name) (rev (p_containers pod)) with
  | Some c => full_image (ctr_image c)
  | None => ""
  end.

(** The loop over the statuses: the containers that have not been seen yet, or the error. *)
Fixpoint check_statuses (pod : Pod) (statuses : list ContainerStatus) (last : gmap string string)
  : error + gmap string string :=
  match statuses with
  | [] => inr last
  | s :: rest =>
      match last !! K8s.cs_name s with
      | None => check_statuses pod rest last
      | Some imageID =>
          if String.eqb imageID (cs_imageID s) && negb (String.eqb (image_of pod (K8s.cs_name s)) (cs_image s))
          then inl ("container " +:+ K8s.cs_name s +:+ " imageID not changed")
          else check_statuses pod rest (delete (K8s.cs_name s) last)
      end
  end.
Definition check_images (pod : Pod) (last : gmap string string) : option error :=
  match check_statuses pod (p_cstatuses pod) last with
  | inl err => Some err
  | inr last => if nonempty_map last then Some "not found statuses of containers"%string else None
  end.

Definition defaultCheckContainersInPlaceUpdateCompleted (pod : Pod) (state : InPlaceUpdateState) : option error :=
  match GetRuntimeContainerMetaSet pod with
  | inl err => Some err
  | inr metas =>
      let envErr :=
        if is_UpdateEnvFromMetadata state then
          match metas with
          | None => Some "waiting for all containers hash consistent, but runtime-container-meta not found"%string
          | Some metas =>
              if negb (checkAllContainersHashConsistent pod metas extractedEnvFromMetadataHash)
              then Some "waiting for all containers hash consistent"%string else None
          end
        else None in
      match envErr with
      | Some err => Some err
      | None =>
          match metas with
          | Some metas =>
              if checkAllContainersHashConsistent pod metas plainHash then None
              else check_images pod (is_LastContainerStatuses state)
          | None => check_images pod (is_LastContainerStatuses state)
          end
      end
  end.

Definition DefaultCheckInPlaceUpdateCompleted (pod : Pod) : option error :=
  match GetInPlaceUpdateGrace pod with
  | Some _ => Some "still in grace period of in-place update"%string
  | None =>
      match GetInPlaceUpdateState pod with
      | None => None
      | Some stateStr =>
          match Unmarshal stateStr with
          | inl err => Some err
          | inr state =>
              if more_batches state then Some "existing containers to in-place update in next batches"%string
              else defaultCheckContainersInPlaceUpdateCompleted pod state
          end
      end
  end.
End Completed.

(** ** The operations *)

Definition GetCondition (p : Pod) : option PodCondition := PodsUtil.GetCondition p InPlaceUpdateReady.
Definition containsReadinessGate (p : Pod) : bool := PodsUtil.containsReadinessGate p InPlaceUpdateReady.

Definition roundupSeconds (d : Z) : Z :=
  if Z.rem d second =? 0 then d else (Z.quot d second + 1) * second.

Fixpoint required_ready (pod : Pod) (names : list string) : option error :=
  match names with
  | [] => None
  | n :: rest =>
      match PodsUtil.GetContainerStatus n pod with
      | None => Some ("not found container " +:+ n +:+ " in pod status")
      | Some s => if cs_ready s then required_ready pod rest else Some ("waiting container " +:+ n +:+ " to be ready")
      end
  end.
Definition doPreCheckBeforeNext (pod : Pod) (preCheck : option (list string)) : option error :=
  match preCheck with None => None | Some names => required_ready pod names end.

Definition hasEqualCondition (pod : Pod) (newCondition : PodCondition) : bool :=
  match PodsUtil.GetCondition pod (c_type newCondition) with
  | Some old => String.eqb (c_status old) (c_status newCondition) && String.eqb (c_reason old) (c_reason newCondition)
                && String.eqb (c_message old) (c_message newCondition)
  | None => false
  end.

(** [podadapter.Adapter]. *)
Class PodAdapter (S : Type) := {
  adapter_errors :: ApiErrors;
  GetPod : string -> string -> S -> error + Pod;
  UpdatePod : Pod -> S -> S * (error + Pod);
  UpdatePodStatus : Pod -> S -> S * option error;
}.

Section Control.
Context {S : Type} `{PA : PodAdapter S}.
Context `{JS : Json InPlaceUpdateState} `{JU : Json UpdateSpec} `{JM : Json (list RuntimeContainerMeta)}.
(** The time, the quoting of messages, the libraries for patches, the hashes, and
    [c.revisionAdapter]. *)
Context (now : Z) (quote : string -> string) (MergeMetadata : Pod -> string -> error + Pod).
Context (CreatePatch : string -> string -> error + list Operation)
        (GetTemplateFromRevision : ControllerRevision -> error + PodTemplateSpec)
        (CreateMetaPatch : ObjectMeta -> ObjectMeta -> error + string) (envFromMetadataGate : bool).
Context (HashContainer : Container -> Z) (hashEnvs : list (string * string) -> Z).
Context (EqualToRevisionHash : Pod -> string -> bool) (WriteRevisionHash : Pod -> string -> Pod).

Definition CheckContainersUpdateCompleted := defaultCheckContainersInPlaceUpdateCompleted HashContainer hashEnvs.
Definition PatchSpecToPod := defaultPatchUpdateSpecToPod now MergeMetadata.
Definition CalculateSpec := defaultCalculateInPlaceUpdateSpec CreatePatch GetTemplateFromRevision CreateMetaPatch envFromMetadataGate.

(** [retry.RetryOnConflict] of a function that sets a variable of its caller. *)
Fixpoint retry_steps {A} (steps : nat) (fn : A -> M S (option error * A)) (a : A) : M S (option error * A) :=
  match steps with
  | O => ret (None, a)
  | Datatypes.S steps' =>
      do '(e, a) <- fn a;
      match e with
      | None => ret (None, a)
      | Some err =>
          if IsConflict err then
            match steps' with
            | O => ret (Some err, a)
            | _ => retry_steps steps' fn a
            end
          else ret (Some err, a)
      end
  end.
(** [retry.DefaultBackoff] makes four steps. *)
Definition retry {A} (fn : A -> M S (option error * A)) (a : A) : M S (option error * A) := retry_steps 4 fn a.

Definition getPod (pod : Pod) : M S (error + Pod) := read (GetPod (p_namespace pod) (p_name pod)).
Definition updatePod (pod : Pod) : M S (error + Pod) :=
  call (UpdatePod pod) (fun r => [EvUpdatePod pod (match r with inl _ => false | inr _ => true end)]).
Definition updatePodStatus (pod : Pod) : M S (option error) :=
  call (UpdatePodStatus pod) (fun e => [EvUpdatePodStatus pod (is_ok e)]).

Definition updated_error (r : error + Pod) : option error := match r with inl err => Some err | inr _ => None end.

Definition updateCondition (pod : Pod) (condition : PodCondition) : M S (option error) :=
  do '(e, _) <- retry (fun u =>
    do r <- getPod pod;
    match r with
    | inl err => ret (Some err, u)
    | inr clone =>
        if hasEqualCondition clone condition then ret (None, u)
        else
          let clone := PodsUtil.SetPodCondition clone condition in
          let clone := if String.eqb (c_status condition) ConditionFalse
                       then PodsUtil.SetPodReadyCondition quote now clone else clone in
          do e <- updatePodStatus clone;
          ret (e, u)
    end) tt;
  ret e.

(** What [finishGracePeriod] does with the pod it read: an error, nothing but a delay, or a
    pod to write. *)
Inductive GraceStep := GraceFail (e : error) | GraceWait (delay : Z) | GraceNothing | GraceWrite (p : Pod).
Definition grace_step (clone : Pod) : GraceStep :=
  match GetInPlaceUpdateGrace clone with
  | None => GraceNothing
  | Some updateSpecJSON =>
      match Unmarshal updateSpecJSON with
      | inl err => GraceFail err
      | inr spec =>
          let graceDuration := second * us_GraceSeconds spec in
          match GetInPlaceUpdateState clone with
          | None => GraceFail ("pod has " +:+ InPlaceUpdateGraceKey +:+ " but " +:+ InPlaceUpdateStateKey +:+ " not found")
          | Some updateStateJSON =>
              match Unmarshal updateStateJSON with
              | inl _ => GraceNothing
              | inr updateState =>
                  if negb (EqualToRevisionHash clone (us_Revision spec))
                  then GraceWrite (RemoveInPlaceUpdateGrace clone)
                  else
                    let span := now - is_UpdateTimestamp updateState in
                    if span <? graceDuration then GraceWait (roundupSeconds (graceDuration - span))
                    else match PatchSpecToPod clone spec updateState with
                         | inl err => GraceFail err
                         | inr clone => GraceWrite (RemoveInPlaceUpdateGrace clone)
                         end
              end
          end
      end
  end.

(** The delay and the error. *)
Definition finishGracePeriod (pod : Pod) : M S (Z * option error) :=
  do '(e, delayDuration) <- retry (fun delayDuration =>
    do r <- getPod pod;
    match r with
    | inl err => ret (Some err, delayDuration)
    | inr clone =>
        match grace_step clone with
        | GraceFail err => ret (Some err, delayDuration)
        | GraceWait d => ret (None, d)
        | GraceNothing => ret (None, delayDuration)
        | GraceWrite clone => do r <- updatePod clone; ret (updated_error r, delayDuration)
        end
    end) 0;
  ret (delayDuration, e).

(** The spec of the next batch. *)
Definition next_spec (state : InPlaceUpdateState) : UpdateSpec :=
  mkUpdateSpec "" (is_NextContainerImages state) (is_NextContainerRefMetadata state) None
    (is_UpdateEnvFromMetadata state) 0.

(** The state is read from the argument, not from the pod that was fetched. *)
Definition updateNextBatch (pod : Pod) : M S (bool * option error) :=
  do '(e, updated) <- retry (fun _ =>
    do r <- getPod pod;
    match r with
    | inl err => ret (Some err, false)
    | inr clone =>
        match GetInPlaceUpdateState pod with
        | None => ret (None, false)
        | Some stateStr =>
            match Unmarshal stateStr with
            | inl err => ret (Some err, false)
            | inr state =>
                if negb (more_batches state) then ret (None, false)
                else match PatchSpecToPod clone (next_spec state) state with
                     | inl err => ret (Some err, false)
                     | inr clone => do r <- updatePod clone; ret (updated_error r, true)
                     end
            end
        end
    end) false;
  ret (updated, e).

(** The end of [Refresh]: the pod is ready again. *)
Definition mark_ready (pod : Pod) : M S RefreshResult :=
  if negb (containsReadinessGate pod) then ret (mkRefresh None 0)
  else do e <- updateCondition pod (mkCond InPlaceUpdateReady ConditionTrue now "" ""); ret (mkRefresh e 0).

(** [Refresh] outside a grace period. *)
Definition refresh_state (pod : Pod) : M S RefreshResult :=
  match GetInPlaceUpdateState pod with
  | None => mark_ready pod
  | Some stateStr =>
      match Unmarshal stateStr with
      | inl err => ret (mkRefresh (Some err) 0)
      | inr state =>
          if is_some (CheckContainersUpdateCompleted pod state) then ret (mkRefresh None 0)
          else if more_batches state then
            if is_some (doPreCheckBeforeNext pod (is_PreCheckBeforeNext state)) then ret (mkRefresh None 0)
            else
              do '(updated, err) <- updateNextBatch pod;
              match err with
              | Some e => ret (mkRefresh (Some e) 0)
              | None => if updated : bool then ret (mkRefresh None 0) else mark_ready pod
              end
          else mark_ready pod
      end
  end.

Definition Refresh (pod : Pod) : M S RefreshResult :=
  match GetInPlaceUpdateGrace pod with
  | Some gracePeriod =>
      if negb (String.eqb gracePeriod "") then
        do '(delayDuration, err) <- finishGracePeriod pod;
        match err with
        | Some e => ret (mkRefresh (Some e) 0)
        | None => ret (mkRefresh None delayDuration)
        end
      else refresh_state pod
  | None => refresh_state pod
  end.

Definition run_funcs (fs : list (Pod -> Pod)) (p : Pod) : Pod := fold_left (fun p f => f p) fs p.

(** The pod that [updatePodInPlace] writes. *)
Definition updated_pod (clone : Pod) (spec : UpdateSpec) (opts : UpdateOptions) : error + Pod :=
  let clone := run_funcs (AdditionalFuncs opts) (WriteRevisionHash clone (us_Revision spec)) in
  let state := mkUpdateState (us_Revision spec) now ∅ (us_UpdateEnvFromMetadata spec) ∅ ∅ None [] in
  let clone := with_annotations clone
                 (delete InPlaceUpdateStateKeyOld (<[InPlaceUpdateStateKey := Marshal state]> (p_annotations clone))) in
  if us_GraceSeconds spec <=? 0 then
    match PatchSpecToPod clone spec state with
    | inl err => inl err
    | inr clone => inr (RemoveInPlaceUpdateGrace clone)
    end
  else inr (with_annotations clone (<[InPlaceUpdateGraceKey := Marshal spec]> (p_annotations clone))).

(** The new resource version and the error. *)
Definition updatePodInPlace (pod : Pod) (spec : UpdateSpec) (opts : UpdateOptions) : M S (string * option error) :=
  do '(e, newResourceVersion) <- retry (fun newResourceVersion =>
    do r <- getPod pod;
    match r with
    | inl err => ret (Some err, newResourceVersion)
    | inr clone =>
        match updated_pod clone spec opts with
        | inl err => ret (Some err, newResourceVersion)
        | inr clone =>
            do r <- updatePod clone;
            match r with
            | inl err => ret (Some err, newResourceVersion)
            | inr newPod => ret (None, p_resourceVersion newPod)
            end
        end
    end) ""%string;
  ret (newResourceVersion, e).

Definition Update (pod : Pod) (oldRevision newRevision : option ControllerRevision) (opts : UpdateOptions)
  : M S UpdateResult :=
  match CalculateSpec oldRevision newRevision opts with
  | None => ret (mkUpdate false None 0 "")
  | Some spec =>
      do e <- (if containsReadinessGate pod
               then updateCondition pod (mkCond InPlaceUpdateReady ConditionFalse now "StartInPlaceUpdate" "")
               else ret None);
      match e with
      | Some err => ret (mkUpdate true (Some err) 0 "")
      | None =>
          do '(newResourceVersion, e) <- updatePodInPlace pod spec opts;
          match e with
          | Some err => ret (mkUpdate true (Some err) 0 "")
          | None =>
              let delayDuration := if 0 <? GracePeriodSeconds opts then second * GracePeriodSeconds opts else 0 in
              ret (mkUpdate true None delayDuration newResourceVersion)
          end
      end
  end.
End Control.
