(* ===== verification/InPlaceBatches.v ===== *)
(** * The batches of an in-place update

    An in-place update with container priorities changes the containers of a pod in batches,
    with the rest of the work kept in an annotation.  This file shows that the batches do what
    one update would do: every container is updated once, in the order of the priorities, and
    the containers that refer to the same metadata together. *)

From S2P Require Import Prelude GoLib GoText K8s Tools Expectations Lifecycle UpdateSort CloneSetDiff World InPlaceUpdate.
Open Scope Z_scope.
Open Scope kruise_scope.

(** ** One batch: what it contains *)

(** The containers a spec changes. *)
Definition spec_names (sp : UpdateSpec) : gset string := dom (us_ContainerImages sp) ∪ dom (us_ContainerRefMetadata sp).
Definition ctr_names (cs : list Container) : gset string := list_to_set (map ctr_name cs).

Lemma spec_names_elem sp n :
  n ∈ spec_names sp <-> is_Some (us_ContainerImages sp !! n) \/ is_Some (us_ContainerRefMetadata sp !! n).
Proof. unfold spec_names. by rewrite elem_of_union, !elem_of_dom. Qed.

Lemma not_named sp n :
  negb (bool_decide (is_Some (us_ContainerImages sp !! n)))
  && negb (bool_decide (is_Some (us_ContainerRefMetadata sp !! n))) = true <-> n ∉ spec_names sp.
Proof. rewrite spec_names_elem, andb_true_iff, !negb_true_iff, !bool_decide_eq_false. tauto. Qed.

(** What the loop has found after some containers: [seen] are those the spec changes. *)
Record first_ok (seen : list Container) (U : gset string) (h : option Z) (H : list string) : Prop := {
  fo_from : forall n, n ∈ U \/ n ∈ H -> exists c, c ∈ seen /\ ctr_name c = n;
  fo_plain : forall c, c ∈ seen -> GetContainerPriority c = None -> ctr_name c ∈ U;
  fo_prio : forall c p, c ∈ seen -> GetContainerPriority c = Some p ->
    exists q, h = Some q /\ p <= q /\ (p = q -> ctr_name c ∈ H);
  fo_top : forall q, h = Some q -> exists c, c ∈ seen /\ GetContainerPriority c = Some q /\ ctr_name c ∈ H;
}.

Lemma first_ok_nil : first_ok [] ∅ None [].
Proof. split; set_solver. Qed.

Lemma first_ok_plain seen U h H c : GetContainerPriority c = None -> first_ok seen U h H ->
  first_ok (seen ++ [c]) ({[ctr_name c]} ∪ U) h H.
Proof.
  intros Hc [F1 F2 F3 F4]. split.
  - intros n Hn. destruct (decide (n = ctr_name c)) as [->|Hne]; [exists c; set_solver|].
    destruct (F1 n) as (d & ? & ?); [set_solver|]. exists d. set_solver.
  - intros d Hd Hp. apply elem_of_app in Hd as [Hd|Hd]; [apply F2 in Hp; set_solver|set_solver].
  - intros d p Hd Hp. apply elem_of_app in Hd as [Hd|Hd]; [eauto|].
    apply list_elem_of_singleton in Hd as ->. congruence.
  - intros q Hq. destruct (F4 q Hq) as (d & ? & ? & ?). exists d. set_solver.
Qed.

(** A container with priority [p] replaces the best ones, joins them, or is left out. *)
Lemma first_ok_prio seen U h H c p H' : GetContainerPriority c = Some p -> first_ok seen U h H ->
  (match h with
   | None => H' = [ctr_name c]
   | Some q => if q <? p then H' = [ctr_name c] else if q =? p then H' = H ++ [ctr_name c] else H' = H
   end) ->
  first_ok (seen ++ [c]) U (match h with Some q => Some (Z.max q p) | None => Some p end) H'.
Proof.
  intros Hc [F1 F2 F3 F4] HH.
  assert (HH' : forall n, n ∈ H' -> n = ctr_name c \/ n ∈ H).
  { intros n Hn. destruct h as [q|]; [destruct (q <? p), (q =? p)|]; subst H'; set_solver. }
  split.
  - intros n Hn. destruct (decide (n = ctr_name c)) as [->|Hne]; [exists c; set_solver|].
    destruct (F1 n) as (d & ? & ?); [destruct Hn as [?|Hn]; [by left|right; apply HH' in Hn; by destruct Hn]|].
    exists d. set_solver.
  - intros d Hd Hp. apply elem_of_app in Hd as [Hd|Hd]; [eauto|].
    apply list_elem_of_singleton in Hd as ->. congruence.
  - intros d r Hd Hr. apply elem_of_app in Hd as [Hd|Hd].
    + destruct (F3 d r Hd Hr) as (q & -> & Hle & Hin). exists (Z.max q p). split; [done|]. split; [lia|].
      intros E. destruct (q <? p) eqn:E1; zbool; [lia|]. destruct (q =? p) eqn:E2; zbool; subst H';
        [apply elem_of_app; left|]; apply Hin; lia.
    + apply list_elem_of_singleton in Hd as ->. rewrite Hc in Hr. injection Hr as <-.
      destruct h as [q|]; [|exists p; subst H'; split; [done|]; split; [lia|set_solver]].
      exists (Z.max q p). split; [done|]. split; [lia|]. intros E.
      destruct (q <? p) eqn:E1; zbool; [subst H'; set_solver|].
      destruct (q =? p) eqn:E2; zbool; [subst H'; set_solver|lia].
  - intros r Hr. destruct h as [q|].
    + injection Hr as <-. destruct (q <? p) eqn:E1; zbool.
      { exists c. rewrite Z.max_r by lia. subst H'. set_solver. }
      rewrite Z.max_l by lia. destruct (F4 q eq_refl) as (d & ? & ? & ?). exists d.
      destruct (q =? p); subst H'; set_solver.
    + injection Hr as <-. exists c. subst H'. set_solver.
Qed.

Lemma first_batch_ok sp cs seen U h H :
  first_ok seen U h H ->
  exists h', first_ok (seen ++ filterb (fun c => bool_decide (ctr_name c ∈ spec_names sp)) cs)
               (first_batch sp cs U h H).1 h' (first_batch sp cs U h H).2.
Proof.
  revert seen U h H. induction cs as [|c cs IH]; intros seen U h H HF; cbn [first_batch filterb].
  { exists h. by rewrite app_nil_r. }
  destruct (negb _ && negb _) eqn:En.
  { apply not_named in En. rewrite bool_decide_eq_false_2 by done. by apply IH. }
  assert (Hin : ctr_name c ∈ spec_names sp).
  { destruct (decide (ctr_name c ∈ spec_names sp)) as [|Hn]; [done|]. apply not_named in Hn. congruence. }
  rewrite bool_decide_eq_true_2 by done. rewrite cons_middle, app_assoc.
  destruct (GetContainerPriority c) as [p|] eqn:Ep; [|by apply IH, first_ok_plain].
  destruct h as [q|].
  - assert (Hp : forall H', (if q <? p then H' = [ctr_name c] else if q =? p then H' = H ++ [ctr_name c] else H' = H) ->
      first_ok (seen ++ [c]) U (Some (Z.max q p)) H') by (intros H' HH; by apply (first_ok_prio _ _ (Some q) H c p H')).
    destruct (q <? p) eqn:E1; [|destruct (q =? p) eqn:E2]; zbool; apply IH.
    + rewrite Z.max_r in Hp by lia. by apply Hp.
    + rewrite Z.max_l in Hp by lia. by apply Hp.
    + rewrite Z.max_l in Hp by lia. by apply Hp.
  - apply IH. by apply (first_ok_prio _ _ None H c p).
Qed.

(** *** Containers that share metadata *)

Lemma keys_of_elem f refs names k :
  k ∈ keys_of f refs names <-> exists n m, n ∈ names /\ refs !! n = Some m /\ is_Some (f m !! k).
Proof.
  unfold keys_of. rewrite elem_of_union_list. split.
  - intros (X & HX & Hk). apply list_elem_of_fmap in HX as (n & -> & Hn). apply elem_of_elements in Hn.
    destruct (refs !! n) as [m|] eqn:E; [|set_solver]. apply elem_of_dom in Hk. eauto.
  - intros (n & m & Hn & Hm & Hk). exists (dom (f m)). split; [|by apply elem_of_dom].
    apply list_elem_of_fmap. exists n. rewrite Hm. split; [done|by apply elem_of_elements].
Qed.

Lemma shares_true labels annotations m :
  shares labels annotations m = true <->
  (exists k, k ∈ labels /\ is_Some (om_Labels m !! k)) \/ (exists k, k ∈ annotations /\ is_Some (om_Annotations m !! k)).
Proof.
  unfold shares. rewrite orb_true_iff, !negb_true_iff, !bool_decide_eq_false.
  assert (Hi : forall (s : gset string) (x : gmap string string),
    s ∩ dom x <> ∅ <-> exists k, k ∈ s /\ is_Some (x !! k)).
  { intros s x. split.
    - intros Hne. apply set_choose_L in Hne as [k Hk]. exists k. rewrite elem_of_intersection, elem_of_dom in Hk. done.
    - intros (k & Hk & Hd) E. apply elem_of_dom in Hd. set_solver. }
  by rewrite !Hi.
Qed.

Lemma newly_shared_elem refs U L A n :
  n ∈ newly_shared refs U L A <-> exists m, refs !! n = Some m /\ n ∉ U /\ shares L A m = true.
Proof.
  unfold newly_shared. rewrite elem_of_dom. split.
  - intros [m Hm]. apply map_lookup_filter_Some in Hm as [Hm [Hn Hs]]. eauto.
  - intros (m & Hm & Hn & Hs). exists m. by apply map_lookup_filter_Some.
Qed.

(** Two containers share a key of their metadata. *)
Definition share_key (m1 m2 : ObjectMeta) : Prop :=
  (exists k, is_Some (om_Labels m1 !! k) /\ is_Some (om_Labels m2 !! k)) \/
  (exists k, is_Some (om_Annotations m1 !! k) /\ is_Some (om_Annotations m2 !! k)).

(** The keys collected so far: those of the containers to update, but for the new ones. *)
Definition collected (refs : gmap string ObjectMeta) (U new L A : gset string) : Prop :=
  (forall k, k ∈ L <-> k ∈ keys_of om_Labels refs (U ∖ new)) /\
  (forall k, k ∈ A <-> k ∈ keys_of om_Annotations refs (U ∖ new)).

(** No container of [refs] that is left out shares a key with one that is in. *)
Definition share_closed (refs : gmap string ObjectMeta) (R : gset string) : Prop :=
  forall n1 m1 n2 m2, refs !! n1 = Some m1 -> refs !! n2 = Some m2 -> n1 ∈ R -> n2 ∉ R -> ~ share_key m1 m2.

Lemma share_stop refs U L A :
  collected refs U ∅ L A -> (forall n m, refs !! n = Some m -> n ∉ U -> shares L A m = false) -> share_closed refs U.
Proof.
  intros [HL HA] Hno n1 m1 n2 m2 H1 H2 Hin Hnin Hsh.
  pose proof (Hno n2 m2 H2 Hnin) as Hs. apply not_true_iff_false in Hs. apply Hs, shares_true.
  destruct Hsh as [(k & Hk1 & Hk2)|(k & Hk1 & Hk2)]; [left|right]; exists k; (split; [|done]).
  - apply HL, keys_of_elem. exists n1, m1. split; [set_solver|done].
  - apply HA, keys_of_elem. exists n1, m1. split; [set_solver|done].
Qed.

(** The keys of a round. *)
Lemma collected_round f refs U new new' X :
  (forall n, n ∈ new' -> n ∉ U) -> new ⊆ U -> (forall k, k ∈ X <-> k ∈ keys_of f refs (U ∖ new)) ->
  forall k, k ∈ X ∪ keys_of f refs new <-> k ∈ keys_of f refs ((U ∪ new') ∖ new').
Proof.
  intros Hn' Hnew HX k. rewrite elem_of_union, HX, !keys_of_elem.
  assert (Hd : forall n, n ∈ (U ∪ new') ∖ new' <-> n ∈ U ∖ new \/ n ∈ new).
  { intros n. specialize (Hn' n). destruct (decide (n ∈ new)); set_solver. }
  split.
  - intros [(n & m & ? & ?)|(n & m & ? & ?)]; exists n, m; (split; [apply Hd; auto|done]).
  - intros (n & m & Hn & ?). apply Hd in Hn as [?|?]; [left|right]; exists n, m; done.
Qed.

(** The result holds the set, adds only containers of [refs], and is closed. *)
Lemma share_loop_spec fuel refs U L A new :
  (size (dom refs ∖ U) < fuel)%nat -> new ⊆ U -> collected refs U new L A ->
  (forall n m, refs !! n = Some m -> n ∉ U -> shares L A m = false) ->
  let R := share_loop fuel refs U L A new in
  U ⊆ R /\ R ⊆ U ∪ dom refs /\ share_closed refs R.
Proof.
  revert U L A new. induction fuel as [|fuel IH]; intros U L A new Hf Hnew HC Hno; [lia|]. cbn [share_loop].
  case_bool_decide as Hem.
  { subst new. split; [done|]. split; [set_solver|]. by eapply share_stop. }
  set (L' := L ∪ keys_of om_Labels refs new). set (A' := A ∪ keys_of om_Annotations refs new).
  set (new' := newly_shared refs U L' A').
  assert (Hfresh : forall n, n ∈ new' -> n ∉ U) by (intros n Hn; by apply newly_shared_elem in Hn as (? & ? & ? & ?)).
  assert (Hrefs : new' ⊆ dom refs) by (intros n Hn; apply newly_shared_elem in Hn as (m & Hm & _); by apply elem_of_dom_2 in Hm).
  assert (HC' : collected refs (U ∪ new') new' L' A').
  { destruct HC as [HL HA]. split; by apply collected_round. }
  assert (Hno' : forall n m, refs !! n = Some m -> n ∉ U ∪ new' -> shares L' A' m = false).
  { intros n m Hm Hn. apply not_true_iff_false. intros Hs. apply Hn, elem_of_union_r, newly_shared_elem.
    exists m. split; [done|]. split; [set_solver|done]. }
  destruct (decide (new' = ∅)) as [E|Hne].
  - assert (Hst : share_loop fuel refs (U ∪ new') L' A' new' = U ∪ new').
    { destruct fuel; cbn [share_loop]; [done|]. by rewrite bool_decide_eq_true_2. }
    rewrite Hst. split; [set_solver|]. split; [set_solver|]. rewrite E in HC' at 2. by eapply share_stop.
  - destruct (IH (U ∪ new') L' A' new') as (I1 & I2 & I3); [|set_solver|done..|].
    + apply set_choose_L in Hne as [x Hx]. pose proof (Hfresh x Hx). pose proof (Hrefs x Hx).
      assert (size (dom refs ∖ (U ∪ new')) < size (dom refs ∖ U))%nat; [|lia]. apply subset_size. set_solver.
    + split; [set_solver|]. split; [set_solver|done].
Qed.

Lemma shared_spec U refs :
  let R := addMetadataSharedContainersToUpdate U refs in U ⊆ R /\ R ⊆ U ∪ dom refs /\ share_closed refs R.
Proof.
  apply share_loop_spec.
  - assert (size (dom refs ∖ U) <= size (dom refs))%nat by (apply subseteq_size; set_solver). rewrite size_dom in *. lia.
  - done.
  - split; intros k; (split; [set_solver|]); intros Hk; apply keys_of_elem in Hk as (n & m & Hn & _); set_solver.
  - intros n m _ _. apply not_true_iff_false. rewrite shares_true. set_solver.
Qed.

(** *** The batch *)

Section Batch.
Context (pod : Pod) (sp : UpdateSpec).
Hypothesis Hnamed : spec_names sp ⊆ ctr_names (p_containers pod).

Lemma named_container n : n ∈ spec_names sp -> exists c, c ∈ p_containers pod /\ ctr_name c = n.
Proof.
  intros Hn. apply Hnamed in Hn. unfold ctr_names in Hn. apply elem_of_list_to_set, list_elem_of_fmap in Hn as (c & -> & Hc).
  eauto.
Qed.

(** A batch holds only containers of the spec; at least one, when there is one; those without
    a priority and those with the highest; and all that share metadata with one of them. *)
Lemma batch_of_spec :
  batch_of pod sp ⊆ spec_names sp /\
  (spec_names sp <> ∅ -> batch_of pod sp <> ∅) /\
  (forall c, c ∈ p_containers pod -> ctr_name c ∈ spec_names sp -> ctr_name c ∉ batch_of pod sp ->
     exists p d q, GetContainerPriority c = Some p /\ d ∈ p_containers pod /\ ctr_name d ∈ batch_of pod sp /\
       GetContainerPriority d = Some q /\ p < q) /\
  share_closed (us_ContainerRefMetadata sp) (batch_of pod sp).
Proof.
  unfold batch_of. destruct (first_batch_ok sp (p_containers pod) [] ∅ None [] first_ok_nil) as [h [F1 F2 F3 F4]].
  destruct (first_batch sp (p_containers pod) ∅ None []) as [U H]. cbn [fst snd app] in *.
  assert (Hseen : forall c, c ∈ filterb (fun c => bool_decide (ctr_name c ∈ spec_names sp)) (p_containers pod) <->
    c ∈ p_containers pod /\ ctr_name c ∈ spec_names sp) by (intros c; rewrite filterb_elem, bool_decide_eq_true; done).
  destruct (shared_spec (U ∪ list_to_set H) (us_ContainerRefMetadata sp)) as (S1 & S2 & S3).
  set (R := addMetadataSharedContainersToUpdate _ _) in *.
  assert (Hleft : forall c, c ∈ p_containers pod -> ctr_name c ∈ spec_names sp -> ctr_name c ∉ R ->
     exists p d q, GetContainerPriority c = Some p /\ d ∈ p_containers pod /\ ctr_name d ∈ R /\
       GetContainerPriority d = Some q /\ p < q).
  { intros c Hc Hn Hout. assert (Hs := proj2 (Hseen c) (conj Hc Hn)).
    destruct (GetContainerPriority c) as [p|] eqn:Ep; [|exfalso; apply F2 in Hs; [set_solver|done]].
    destruct (F3 c p Hs Ep) as (q & -> & Hle & Heq). destruct (F4 q eq_refl) as (d & Hd & Hq & HdH).
    apply Hseen in Hd as [Hd _]. exists p, d, q. split; [done|]. split; [done|]. split; [set_solver|]. split; [done|].
    destruct (decide (p = q)) as [E|]; [|lia]. exfalso. apply Hout, S1, elem_of_union_r, elem_of_list_to_set. by apply Heq. }
  split; [|split; [|done]].
  - etransitivity; [exact S2|]. intros n Hn. apply elem_of_union in Hn as [Hn|Hn].
    + destruct (F1 n) as (c & Hc & <-); [set_solver|]. by apply Hseen in Hc as [_ Hc].
    + unfold spec_names. set_solver.
  - intros Hne E. apply set_choose_L in Hne as [n Hn]. destruct (named_container n Hn) as (c & Hc & <-).
    destruct (Hleft c Hc Hn) as (p & d & q & _ & _ & Hd & _); [by rewrite E|]. rewrite E in Hd. set_solver.
Qed.
End Batch.

(** *** What is left after a batch *)

Lemma nonempty_map_false {A} (m : gmap string A) : nonempty_map m = false <-> m = ∅.
Proof. unfold nonempty_map. rewrite negb_false_iff, bool_decide_eq_true. apply map_size_empty_iff. Qed.

Lemma more_batches_names st : more_batches st = false <-> spec_names (next_spec st) = ∅.
Proof.
  unfold more_batches, spec_names. cbn. rewrite orb_false_iff, !nonempty_map_false. split.
  - intros [-> ->]. by rewrite !dom_empty_L, union_idemp_L.
  - intros E. split; apply dom_empty_iff_L; set_solver.
Qed.

Lemma next_images_lookup sp b cs n :
  dom (us_ContainerImages sp) ⊆ ctr_names cs ->
  next_images sp b cs !! n = if bool_decide (n ∈ b) then None else us_ContainerImages sp !! n.
Proof.
  intros Hd. unfold next_images. set (f := fun c => _ : option (string * string)).
  assert (Hf : forall c k v, f c = Some (k, v) <-> ctr_name c = k /\ k ∉ b /\ us_ContainerImages sp !! k = Some v).
  { intros c k v. unfold f. split.
    - destruct (us_ContainerImages sp !! ctr_name c) as [im|] eqn:E; [|done]. case_bool_decide; [done|].
      intros [= <- <-]. done.
    - intros (<- & Hn & E). rewrite E. by rewrite bool_decide_eq_false_2. }
  destruct (list_to_map (M := gmap string string) (omap f cs) !! n) as [v|] eqn:El.
  - apply elem_of_list_to_map_2, list_elem_of_omap in El as (c & Hc & Hv). apply Hf in Hv as (_ & Hn & Hv).
    by rewrite bool_decide_eq_false_2.
  - case_bool_decide as Hb; [done|]. destruct (us_ContainerImages sp !! n) as [v|] eqn:Ei; [|done]. exfalso.
    assert (Hn : n ∈ ctr_names cs) by (apply Hd, elem_of_dom; eauto).
    apply elem_of_list_to_set, list_elem_of_fmap in Hn as (c & -> & Hc).
    apply not_elem_of_list_to_map in El. apply El, list_elem_of_fmap. exists (ctr_name c, v). split; [done|].
    apply list_elem_of_omap. exists c. split; [done|]. by apply Hf.
Qed.

Section After.
Context `{JS : Json InPlaceUpdateState} (t : Z) (pod : Pod) (sp : UpdateSpec) (st : InPlaceUpdateState).
Hypothesis Hnamed : spec_names sp ⊆ ctr_names (p_containers pod).
Abbreviation st' := (next_state t pod sp st).
Abbreviation sp' := (next_spec (next_state t pod sp st)).
Abbreviation batch := (batch_of pod sp).

Lemma rest_images n : us_ContainerImages sp' !! n = if bool_decide (n ∈ batch) then None else us_ContainerImages sp !! n.
Proof. cbn. apply next_images_lookup. etransitivity; [|exact Hnamed]. unfold spec_names. set_solver. Qed.

Lemma rest_refs n m : us_ContainerRefMetadata sp' !! n = Some m <-> us_ContainerRefMetadata sp !! n = Some m /\ n ∉ batch.
Proof. cbn. rewrite map_lookup_filter_Some. done. Qed.

Lemma rest_names : spec_names sp' = spec_names sp ∖ batch.
Proof.
  apply set_eq. intros n. rewrite elem_of_difference, !spec_names_elem, rest_images. unfold is_Some at 2.
  setoid_rewrite rest_refs. case_bool_decide as Hb.
  - split; [intros [[? ?]|[m [_ ?]]]; done|intros [_ ?]; done].
  - split; [intros [?|[m [? ?]]]; (split; [|done]); [by left|right; eauto]|].
    intros [[?|[m ?]] _]; [by left|right; eauto].
Qed.

Lemma set_image_name b c : ctr_name (set_image sp b c) = ctr_name c.
Proof. unfold set_image. destruct (us_ContainerImages sp !! ctr_name c); [|done]. by case_bool_decide. Qed.

Lemma batch_ctr_names : ctr_names (p_containers (apply_batch t pod sp st)) = ctr_names (p_containers pod).
Proof.
  cbn. unfold ctr_names. f_equal. rewrite map_map. apply map_ext. intros c. apply set_image_name.
Qed.

Lemma rest_named : spec_names sp' ⊆ ctr_names (p_containers (apply_batch t pod sp st)).
Proof. rewrite rest_names, batch_ctr_names. set_solver. Qed.

(** This batch and then the rest change the containers as the whole spec does. *)
Lemma image_steps c :
  set_image sp' (spec_names sp') (set_image sp batch c) = set_image sp (spec_names sp) c.
Proof.
  assert (Hin : forall v, us_ContainerImages sp !! ctr_name c = Some v -> ctr_name c ∈ spec_names sp)
    by (intros v Hv; apply spec_names_elem; eauto).
  unfold set_image at 1. rewrite set_image_name, rest_images. unfold set_image at 3.
  unfold set_image. destruct (us_ContainerImages sp !! ctr_name c) as [v|] eqn:Ev; [|by case_bool_decide].
  rewrite (bool_decide_eq_true_2 (ctr_name c ∈ spec_names sp)) by eauto. case_bool_decide as Hb; [done|].
  rewrite bool_decide_eq_true_2; [done|]. rewrite rest_names. set_solver.
Qed.

Lemma rest_smaller : spec_names sp <> ∅ -> (size (spec_names sp') < size (spec_names sp))%nat.
Proof.
  intros Hne. rewrite rest_names. apply subset_size. destruct (batch_of_spec pod sp Hnamed) as (Hsub & Hb & _).
  apply Hb, set_choose_L in Hne as [x Hx]. set_solver.
Qed.

Lemma batch_state : GetInPlaceUpdateState (apply_batch t pod sp st) = Some (Marshal st').
Proof. unfold GetInPlaceUpdateState, annotation. cbn. by rewrite lookup_insert_eq. Qed.
End After.

(** *** Metadata *)

(** The containers that refer to a key agree on its value. *)
Definition refs_agree (f : ObjectMeta -> gmap string string) (refs : gmap string ObjectMeta) : Prop :=
  forall n1 m1 n2 m2 k v1 v2, refs !! n1 = Some m1 -> refs !! n2 = Some m2 ->
    f m1 !! k = Some v1 -> f m2 !! k = Some v2 -> v1 = v2.

(** [new] is [old] with the values of [refs], but for the keys that are skipped. *)
Definition meta_set (f : ObjectMeta -> gmap string string) (skip : string -> Prop) (refs : gmap string ObjectMeta)
  (old new : gmap string string) : Prop :=
  forall k, ~ skip k ->
    (forall n m v, refs !! n = Some m -> f m !! k = Some v -> new !! k = Some v) /\
    ((forall n m, refs !! n = Some m -> f m !! k = None) -> new !! k = old !! k).

Lemma batch_meta_elem f refs b k :
  (forall v, batch_meta f refs b !! k = Some v -> exists n m, n ∈ b /\ refs !! n = Some m /\ f m !! k = Some v) /\
  (forall n m v, n ∈ b -> refs !! n = Some m -> f m !! k = Some v -> is_Some (batch_meta f refs b !! k)).
Proof.
  unfold batch_meta. set (fm := filter _ refs).
  assert (Hfm : forall n m, fm !! n = Some m <-> refs !! n = Some m /\ n ∈ b)
    by (intros n m; unfold fm; by rewrite map_lookup_filter_Some).
  assert (Hfold : (forall v, map_fold (fun _ m acc => f m ∪ acc) ∅ fm !! k = Some v ->
      exists n m, fm !! n = Some m /\ f m !! k = Some v) /\
    (forall n m v, fm !! n = Some m -> f m !! k = Some v -> is_Some (map_fold (fun _ m acc => f m ∪ acc) ∅ fm !! k))).
  { clear Hfm. apply (map_fold_weak_ind (fun (r : gmap string string) (x : gmap string ObjectMeta) =>
      (forall v, r !! k = Some v -> exists n m, x !! n = Some m /\ f m !! k = Some v) /\
      (forall n m v, x !! n = Some m -> f m !! k = Some v -> is_Some (r !! k)))).
    - split; [done|]. intros n m v Hm. by rewrite lookup_empty in Hm.
    - intros i x m r Hi [H1 H2]. split.
      + intros v Hv. apply lookup_union_Some_raw in Hv as [Hv|[_ Hv]].
        * exists i, x. by rewrite lookup_insert_eq.
        * destruct (H1 v Hv) as (n & y & Hn & Hy). exists n, y. split; [|done].
          rewrite lookup_insert_ne; [done|congruence].
      + intros n y v Hn Hy. apply lookup_union_is_Some. apply lookup_insert_Some in Hn as [[<- <-]|[_ Hn]];
          [left; eauto|right; eauto]. }
  destruct Hfold as [H1 H2]. split.
  - intros v Hv. destruct (H1 v Hv) as (n & m & Hn & Hm). apply Hfm in Hn as [Hn Hb]. eauto 6.
  - intros n m v Hb Hn Hm. apply (H2 n m v); [by apply Hfm|done].
Qed.

Lemma refs_agree_sub f refs refs' :
  (forall n m, refs' !! n = Some m -> refs !! n = Some m) -> refs_agree f refs -> refs_agree f refs'.
Proof. intros Hs Ha n1 m1 n2 m2 k v1 v2 H1 H2. apply (Ha n1 m1 n2 m2); auto. Qed.

(** A batch and then the rest. *)
Lemma meta_set_steps f skip refs rest b old new final :
  refs_agree f refs -> (forall n m, rest !! n = Some m <-> refs !! n = Some m /\ n ∉ b) ->
  (forall k, ~ skip k -> new !! k = (batch_meta f refs b ∪ old) !! k) ->
  meta_set f skip rest new final -> meta_set f skip refs old final.
Proof.
  intros Ha Hrest Hnew Hfin k Hk. destruct (Hfin k Hk) as [F1 F2]. specialize (Hnew k Hk).
  destruct (batch_meta_elem f refs b k) as [B1 B2].
  assert (Hback : forall n m v, refs !! n = Some m -> f m !! k = Some v ->
    (forall n' m', rest !! n' = Some m' -> f m' !! k = None) \/ exists n' m' v', rest !! n' = Some m' /\ f m' !! k = Some v').
  { intros n m v Hm Hv.
    destruct (decide (map_Exists (fun _ m' => is_Some (f m' !! k)) rest)) as [(n' & m' & Hr & v' & Hv')|Hno].
    - right. eauto.
    - left. intros n' m' Hr. destruct (f m' !! k) as [v'|] eqn:E; [|done]. exfalso. apply Hno. exists n', m'. eauto. }
  split.
  - intros n m v Hm Hv. destruct (Hback n m v Hm Hv) as [Hnone|(n' & m' & v' & Hr & Hv')].
    + rewrite (F2 Hnone), Hnew. assert (Hb : n ∈ b).
      { destruct (decide (n ∈ b)); [done|]. assert (rest !! n = Some m) by (by apply Hrest).
        rewrite (Hnone n m) in Hv; done. }
      destruct (B2 n m v Hb Hm Hv) as [v' Hv']. destruct (B1 v' Hv') as (n2 & m2 & _ & Hm2 & Hv2).
      rewrite lookup_union, Hv'. rewrite (Ha n2 m2 n m k v' v) by done. by destruct (old !! k).
    + pose proof (proj1 (Hrest n' m') Hr) as [Hr' _].
      rewrite (F1 n' m' v' Hr Hv'). by rewrite (Ha n' m' n m k v' v).
  - intros Hnone. rewrite F2.
    + rewrite Hnew, lookup_union. destruct (batch_meta f refs b !! k) as [v|] eqn:E.
      * destruct (B1 v eq_refl) as (n & m & _ & Hm & Hv). by rewrite (Hnone n m Hm) in Hv.
      * by destruct (old !! k).
    + intros n m Hr. apply (Hnone n m). by apply Hrest.
Qed.

Lemma meta_set_empty f skip refs (old new : gmap string string) :
  refs = ∅ -> (forall k, ~ skip k -> new !! k = old !! k) -> meta_set f skip refs old new.
Proof. intros -> Hn k Hk. split; [intros n m v Hm; by rewrite lookup_empty in Hm|auto]. Qed.

(** ** All the batches *)

Section Run.
Context `{JS : Json InPlaceUpdateState} `{JU : Json UpdateSpec} `{JL : !JsonLaws} (MergeMetadata : Pod -> string -> error + Pod).

(** What [updateNextBatch] makes of a pod at a time, when it reads the pod it is given; the
    pod itself when there is no further batch. *)
Definition next_batch (t : Z) (pod : Pod) : Pod :=
  match GetInPlaceUpdateState pod with
  | None => pod
  | Some stateStr =>
      match Unmarshal stateStr with
      | inl _ => pod
      | inr state =>
          if negb (more_batches state) then pod
          else match defaultPatchUpdateSpecToPod t MergeMetadata pod (next_spec state) state with
               | inl _ => pod
               | inr pod => pod
               end
      end
  end.

(** The state that a pod carries. *)
Definition state_of (pod : Pod) (st : InPlaceUpdateState) : Prop :=
  exists str, GetInPlaceUpdateState pod = Some str /\ Unmarshal str = inr st.

Lemma batch_state_of t pod sp st : state_of (apply_batch t pod sp st) (trunc_state (next_state t pod sp st)).
Proof. eexists. split; [apply batch_state|apply state_roundtrip]. Qed.

Lemma next_batch_more t pod st : state_of pod st -> more_batches st = true ->
  next_batch t pod = apply_batch t pod (next_spec st) st.
Proof. intros (str & Hs & Hu) Hm. unfold next_batch. rewrite Hs, Hu, Hm. done. Qed.

Lemma next_batch_done t pod st : state_of pod st -> more_batches st = false -> next_batch t pod = pod.
Proof. intros (str & Hs & Hu) Hm. unfold next_batch. by rewrite Hs, Hu, Hm. Qed.

(** The batches recorded in a state. *)
Definition recorded (st : InPlaceUpdateState) : list (list string) := map cb_Containers (is_ContainerBatchesRecord st).

Lemma recorded_trunc st : recorded (trunc_state st) = recorded st.
Proof. unfold recorded. cbn. by rewrite map_map. Qed.

(** [pod'] is [pod] with the whole of the spec done, in the batches [bs]. *)
Record spec_done (sp : UpdateSpec) (pod pod' : Pod) (bs : list (list string)) : Prop := {
  sd_containers : p_containers pod' = map (set_image sp (spec_names sp)) (p_containers pod);
  sd_labels : meta_set om_Labels (fun _ => False) (us_ContainerRefMetadata sp) (p_labels pod) (p_labels pod');
  sd_annotations : meta_set om_Annotations (fun k => k = InPlaceUpdateStateKey) (us_ContainerRefMetadata sp)
                     (p_annotations pod) (p_annotations pod');
  sd_batches : concat bs ≡ₚ elements (spec_names sp);
}.

Lemma set_list_perm (s : gset string) : set_list s ≡ₚ elements s.
Proof. apply SliceStable_perm. Qed.

Lemma annotations_batch t pod sp st k : k <> InPlaceUpdateStateKey ->
  p_annotations (apply_batch t pod sp st) !! k
  = (batch_meta om_Annotations (us_ContainerRefMetadata sp) (batch_of pod sp) ∪ p_annotations pod) !! k.
Proof. intros Hk. cbn. by rewrite lookup_insert_ne. Qed.

(** A batch that leaves nothing has done the spec. *)
Lemma spec_done_last t pod sp st :
  spec_names sp ⊆ ctr_names (p_containers pod) ->
  refs_agree om_Labels (us_ContainerRefMetadata sp) -> refs_agree om_Annotations (us_ContainerRefMetadata sp) ->
  more_batches (next_state t pod sp st) = false ->
  spec_done sp pod (apply_batch t pod sp st) [set_list (batch_of pod sp)].
Proof.
  intros Hn Hl Ha Hm. apply more_batches_names in Hm. pose proof (rest_names t pod sp st Hn) as Hr. rewrite Hm in Hr.
  destruct (batch_of_spec pod sp Hn) as (Hsub & _). 
  assert (Hb : batch_of pod sp = spec_names sp).
  { apply set_eq. intros n. split; [apply Hsub|]. intros Hin. destruct (decide (n ∈ batch_of pod sp)) as [|Hnb]; [done|].
    exfalso. assert (Hd : n ∈ spec_names sp ∖ batch_of pod sp) by (by apply elem_of_difference).
    rewrite <-Hr in Hd. by apply elem_of_empty in Hd. }
  assert (Hrest : forall n m, (∅ : gmap string ObjectMeta) !! n = Some m <->
    us_ContainerRefMetadata sp !! n = Some m /\ n ∉ batch_of pod sp).
  { intros n m. rewrite lookup_empty. split; [done|]. intros [Hs Hnb]. exfalso. apply Hnb. rewrite Hb.
    apply spec_names_elem. eauto. }
  split.
  - cbn. by rewrite Hb.
  - apply (meta_set_steps _ _ _ ∅ (batch_of pod sp) _ (p_labels (apply_batch t pod sp st))); auto. by apply meta_set_empty.
  - apply (meta_set_steps _ _ _ ∅ (batch_of pod sp) _ (p_annotations (apply_batch t pod sp st))); auto.
    + intros k Hk. by apply annotations_batch.
    + by apply meta_set_empty.
  - cbn. rewrite app_nil_r, set_list_perm. by rewrite Hb.
Qed.

(** A batch and then the rest of the spec. *)
Lemma spec_done_step t pod sp st pod' bs :
  spec_names sp ⊆ ctr_names (p_containers pod) ->
  refs_agree om_Labels (us_ContainerRefMetadata sp) -> refs_agree om_Annotations (us_ContainerRefMetadata sp) ->
  spec_done (next_spec (next_state t pod sp st)) (apply_batch t pod sp st) pod' bs ->
  spec_done sp pod pod' (set_list (batch_of pod sp) :: bs).
Proof.
  intros Hn Hl Ha [D1 D2 D3 D4]. destruct (batch_of_spec pod sp Hn) as (Hsub & _). split.
  - rewrite D1. cbn [apply_batch with_annotations with_labels with_containers p_containers]. rewrite map_map.
    apply map_ext. intros c. by apply image_steps.
  - eapply meta_set_steps; [done|by apply rest_refs| |exact D2]. done.
  - eapply meta_set_steps; [done|by apply rest_refs| |exact D3]. intros k Hk. by apply annotations_batch.
  - cbn. rewrite D4, set_list_perm, rest_names by done. 
    rewrite <-(elements_disj_union (batch_of pod sp) (spec_names sp ∖ batch_of pod sp)) by set_solver.
    replace (batch_of pod sp ∪ spec_names sp ∖ batch_of pod sp) with (spec_names sp); [done|].
    apply set_eq. intros n. destruct (decide (n ∈ batch_of pod sp)); set_solver.
Qed.

(** A pod on which all batches but the first remain. *)
Lemma batches_run times t pod sp st :
  spec_names sp ⊆ ctr_names (p_containers pod) ->
  refs_agree om_Labels (us_ContainerRefMetadata sp) -> refs_agree om_Annotations (us_ContainerRefMetadata sp) ->
  (size (spec_names sp) <= Datatypes.S (length times))%nat ->
  let pod' := fold_left (fun p t => next_batch t p) times (apply_batch t pod sp st) in
  exists st' bs, state_of pod' st' /\ more_batches st' = false /\ recorded st' = recorded st ++ bs /\
    spec_done sp pod pod' bs.
Proof.
  revert t pod sp st. induction times as [|t' times IH]; intros t pod sp st Hn Hl Ha Hs.
  - cbn. exists (trunc_state (next_state t pod sp st)), [set_list (batch_of pod sp)].
    assert (Hm : more_batches (next_state t pod sp st) = false).
    { apply more_batches_names, leibniz_equiv, size_empty_inv.
      destruct (decide (spec_names sp = ∅)) as [E|Hne].
      - rewrite rest_names, E by done. by rewrite (size_empty_iff (∅ ∖ _)); set_solver.
      - pose proof (rest_smaller t pod sp st Hn Hne). simpl in Hs. lia. }
    split; [apply batch_state_of|]. split; [done|]. split; [rewrite recorded_trunc; unfold recorded; cbn; by rewrite map_app|].
    by apply spec_done_last.
  - cbn [fold_left]. destruct (more_batches (next_state t pod sp st)) eqn:Hm.
    + rewrite (next_batch_more t' _ _ (batch_state_of t pod sp st)) by done.
      change (next_spec (trunc_state (next_state t pod sp st))) with (next_spec (next_state t pod sp st)).
      destruct (IH t' (apply_batch t pod sp st) (next_spec (next_state t pod sp st)) (trunc_state (next_state t pod sp st)))
        as (st' & bs & H1 & H2 & H3 & H4).
      * by apply rest_named.
      * eapply refs_agree_sub; [|exact Hl]. intros n m Hr. by apply rest_refs in Hr as [? _].
      * eapply refs_agree_sub; [|exact Ha]. intros n m Hr. by apply rest_refs in Hr as [? _].
      * assert (Hne : spec_names sp <> ∅).
        { intros E. apply not_false_iff_true in Hm. apply Hm, more_batches_names. rewrite rest_names, E by done. set_solver. }
        pose proof (rest_smaller t pod sp st Hn Hne). simpl in Hs. lia.
      * exists st', (set_list (batch_of pod sp) :: bs). split; [done|]. split; [done|]. split.
        -- rewrite H3, recorded_trunc. unfold recorded at 1. cbn. rewrite map_app, <-app_assoc. done.
        -- by eapply spec_done_step.
    + assert (Hstay : forall ts, fold_left (fun p t => next_batch t p) ts (apply_batch t pod sp st) = apply_batch t pod sp st).
      { intros ts. induction ts as [|x ts IHt]; [done|]. cbn.
        by rewrite (next_batch_done x _ _ (batch_state_of t pod sp st)). }
      rewrite (next_batch_done t' _ _ (batch_state_of t pod sp st)) by done. rewrite Hstay.
      exists (trunc_state (next_state t pod sp st)), [set_list (batch_of pod sp)].
      split; [apply batch_state_of|]. split; [done|]. split; [rewrite recorded_trunc; unfold recorded; cbn; by rewrite map_app|].
      by apply spec_done_last.
Qed.


(** The pod after the metadata of the spec is merged. *)
Definition merged (pod : Pod) (sp : UpdateSpec) : error + Pod :=
  match us_MetaDataPatch sp with None => inr pod | Some patch => MergeMetadata pod patch end.

(** C24: The batches of an in-place update end, and together they are the update.  Starting
    from the first batch of a spec whose containers all belong to the pod and agree on the
    labels and annotations they share, and taking the next batch again and again at whatever times, after as many batches as the spec has
    containers none is left; by then every container has the image of the spec, the labels
    and annotations have the values of the spec, everything else is as the merged metadata
    left it, and each container of the spec was in exactly one batch. *)
Theorem batches_apply_all (t : Z) (times : list Z) (pod pod0 : Pod) (sp : UpdateSpec) (st : InPlaceUpdateState) :
  merged pod sp = inr pod0 -> spec_names sp ⊆ ctr_names (p_containers pod0) ->
  refs_agree om_Labels (us_ContainerRefMetadata sp) -> refs_agree om_Annotations (us_ContainerRefMetadata sp) ->
  is_ContainerBatchesRecord st = [] -> (size (spec_names sp) <= Datatypes.S (length times))%nat ->
  exists pod1, defaultPatchUpdateSpecToPod t MergeMetadata pod sp st = inr pod1 /\
  let pod' := fold_left (fun p t => next_batch t p) times pod1 in
  exists st', state_of pod' st' /\ more_batches st' = false /\ spec_done sp pod0 pod' (recorded st').
Proof.
  intros Hp Hn Hl Ha Hr Hs. exists (apply_batch t pod0 sp st). split.
  { unfold defaultPatchUpdateSpecToPod. unfold merged in Hp. destruct (us_MetaDataPatch sp) as [patch|].
    - by rewrite Hp.
    - by injection Hp as ->. }
  destruct (batches_run times t pod0 sp st Hn Hl Ha Hs) as (st' & bs & H1 & H2 & H3 & H4).
  exists st'. split; [done|]. split; [done|]. unfold recorded at 2 in H3. rewrite Hr in H3. by rewrite H3.
Qed.

(** A batch respects the priorities of the containers.  Of the containers that a spec
    changes, a batch takes at least one; a container that it leaves for later has a priority
    below that of some container it takes; and it never separates two containers that refer
    to the same label or annotation. *)
Theorem batch_respects_priorities (pod : Pod) (sp : UpdateSpec) :
  spec_names sp ⊆ ctr_names (p_containers pod) ->
  batch_of pod sp ⊆ spec_names sp /\
  (spec_names sp <> ∅ -> batch_of pod sp <> ∅) /\
  (forall c, c ∈ p_containers pod -> ctr_name c ∈ spec_names sp -> ctr_name c ∉ batch_of pod sp ->
     exists p d q, GetContainerPriority c = Some p /\ d ∈ p_containers pod /\ ctr_name d ∈ batch_of pod sp /\
       GetContainerPriority d = Some q /\ p < q) /\
  share_closed (us_ContainerRefMetadata sp) (batch_of pod sp).
Proof. exact (batch_of_spec pod sp). Qed.
End Run.

(** ** A concrete encoding *)

Fixpoint pos_text (p : positive) : string :=
  match p with
  | xH => ""
  | xO p => String "0" (pos_text p)
  | xI p => String "1" (pos_text p)
  end.
Fixpoint text_pos (s : string) : positive :=
  match s with
  | EmptyString => xH
  | String c s => if Ascii.eqb c "0" then xO (text_pos s) else xI (text_pos s)
  end.
Lemma text_pos_text p : text_pos (pos_text p) = p.
Proof. induction p as [p IH|p IH|]; cbn; by rewrite ?IH. Qed.

#[export] Instance ObjectMeta_eq_dec : EqDecision ObjectMeta.
Proof. solve_decision. Defined.
#[export] Instance ObjectMeta_countable : Countable ObjectMeta.
Proof. apply (inj_countable' (fun m => (om_Labels m, om_Annotations m)) (fun x => mkMeta x.1 x.2)). by intros []. Defined.
#[export] Instance Batch_eq_dec : EqDecision InPlaceUpdateContainerBatch.
Proof. solve_decision. Defined.
#[export] Instance Batch_countable : Countable InPlaceUpdateContainerBatch.
Proof. apply (inj_countable' (fun b => (cb_Timestamp b, cb_Containers b)) (fun x => mkBatch x.1 x.2)). by intros []. Defined.
#[export] Instance State_eq_dec : EqDecision InPlaceUpdateState.
Proof. solve_decision. Defined.
#[export] Instance State_countable : Countable InPlaceUpdateState.
Proof.
  apply (inj_countable' (fun s => (is_Revision s, is_UpdateTimestamp s, is_LastContainerStatuses s, is_UpdateEnvFromMetadata s,
      is_NextContainerImages s, is_NextContainerRefMetadata s, is_PreCheckBeforeNext s, is_ContainerBatchesRecord s))
    (fun '(a, b, c, d, e, f, g, h) => mkUpdateState a b c d e f g h)). by intros [].
Defined.
#[export] Instance Spec_eq_dec : EqDecision UpdateSpec.
Proof. solve_decision. Defined.
#[export] Instance Spec_countable : Countable UpdateSpec.
Proof.
  apply (inj_countable' (fun s => (us_Revision s, us_ContainerImages s, us_ContainerRefMetadata s, us_MetaDataPatch s,
      us_UpdateEnvFromMetadata s, us_GraceSeconds s)) (fun '(a, b, c, d, e, f) => mkUpdateSpec a b c d e f)). by intros [].
Defined.

(** Any text will do that the decoding understands. *)
Definition text_json {A} `{Countable A} (canon : A -> A) : Json A := {|
  Marshal := fun a => pos_text (encode (canon a));
  Unmarshal := fun s => match decode (text_pos s) with Some a => inr a | None => inl "invalid"%string end;
|}.
#[export] Instance state_json : Json InPlaceUpdateState := text_json trunc_state.
#[export] Instance spec_json : Json UpdateSpec := text_json id.
#[export] Instance text_json_laws : JsonLaws.
Proof. split; [intros st|intros sp _]; cbn; by rewrite text_pos_text, decode_encode. Qed.

(** A pod with three containers: one without a priority, and two with the priorities 5 and 1. *)
Definition ex_container (name : string) (priority : option Z) : Container :=
  mkContainer name "v1" (match priority with Some p => [GeneratePriorityEnv p "pod"] | None => [] end) [].
Definition ex_update_pod : Pod :=
  with_containers (named_pod "pod") [ex_container "main" None; ex_container "late" (Some 1); ex_container "early" (Some 5)].
Definition ex_update_spec : UpdateSpec :=
  mkUpdateSpec "rev" {["main" := "v2"; "late" := "v2"; "early" := "v2"]}%string ∅ None false 0.
Definition ex_update_state : InPlaceUpdateState := mkUpdateState "rev" 0 ∅ false ∅ ∅ None [].

Example ex_batches :
  let pod1 := apply_batch 1 ex_update_pod ex_update_spec ex_update_state in
  set_list (batch_of ex_update_pod ex_update_spec) = ["early"; "main"]%string /\
  map ctr_image (p_containers pod1) = ["v2"; "v1"; "v2"]%string.
Proof. vm_compute. done. Qed.

Lemma ex_named : spec_names ex_update_spec ⊆ ctr_names (p_containers ex_update_pod).
Proof. apply (bool_decide_unpack (spec_names ex_update_spec ⊆ ctr_names (p_containers ex_update_pod))). by vm_compute. Qed.

Lemma batches_apply_all_witness :
  exists pod1, defaultPatchUpdateSpecToPod 1 (fun p _ => inr p) ex_update_pod ex_update_spec ex_update_state = inr pod1 /\
  exists st', state_of (fold_left (fun p t => next_batch (fun p _ => inr p) t p) [2; 3] pod1) st' /\
    more_batches st' = false /\
    spec_done ex_update_spec ex_update_pod (fold_left (fun p t => next_batch (fun p _ => inr p) t p) [2; 3] pod1) (recorded st').
Proof.
  apply (batches_apply_all (fun p _ => inr p) 1 [2; 3] ex_update_pod ex_update_pod ex_update_spec ex_update_state eq_refl
    ex_named); [intros n1 m1 n2 m2 k v1 v2 Hm; discriminate Hm|intros n1 m1 n2 m2 k v1 v2 Hm; discriminate Hm|reflexivity|].
  vm_compute. lia.
Defined.

Lemma batch_respects_priorities_witness :
  batch_of ex_update_pod ex_update_spec <> ∅ /\ share_closed ∅ (batch_of ex_update_pod ex_update_spec).
Proof.
  destruct (batch_respects_priorities ex_update_pod ex_update_spec ex_named) as (_ & Hne & _ & Hc).
  split; [|exact Hc]. apply Hne. vm_compute. discriminate.
Defined.
