(* ===== verification/InPlaceControl.v ===== *)
(** * The operations of an in-place update

    What [CalculateSpec] finds between two revisions, the order of the writes of [Update], when
    [Refresh] declares a pod ready again, and the grace period. *)

From S2P Require Import Prelude GoLib GoText K8s Tools Expectations Lifecycle UpdateSort CloneSetDiff World InPlaceUpdate InPlaceBatches.
Open Scope Z_scope.
Open Scope kruise_scope.

(** ** The spec of an update *)

(** A JSON patch applied to the containers of a template: of the operations on the pod spec
    only those on images count. *)
Definition op_path (op : Operation) : string := ReplaceFirst (op_Path op) "/spec/template" "".
Definition put_image (v : string) (c : Container) : Container := mkContainer (ctr_name c) v (ctr_env c) (ctr_mounts c).
Definition apply_image_op (cs : list Container) (op : Operation) : list Container :=
  if HasPrefix (op_path op) "/spec/" then
    match image_index (op_path op) with
    | Some i => alter (put_image (op_Value op)) (Z.to_nat i) cs
    | None => cs
    end
  else cs.

(** The operation is on the metadata, or replaces the image of a container. *)
Definition inplace_op (cs : list Container) (op : Operation) : Prop :=
  HasPrefix (op_path op) "/metadata/" = true \/
  op_Operation op = "replace"%string /\ exists i, image_index (op_path op) = Some i /\ i < len cs.

Lemma set_image_put sp sp' c n v i (cs : list Container) :
  NoDup (map ctr_name cs) -> cs !! i = Some c -> ctr_name c = n ->
  us_ContainerImages sp' = <[n := v]> (us_ContainerImages sp) ->
  map (set_image sp' (dom (us_ContainerImages sp'))) cs
  = alter (put_image v) i (map (set_image sp (dom (us_ContainerImages sp))) cs).
Proof.
  intros Hnd Hi Hc Hsp. apply list_eq. intros j. change (map ?f cs) with (f <$> cs).
  assert (Hdom : forall s d, set_image s (dom (us_ContainerImages s)) d
    = match us_ContainerImages s !! ctr_name d with Some w => put_image w d | None => d end).
  { intros s x. unfold set_image, put_image. destruct (us_ContainerImages s !! ctr_name x) eqn:E; [|done].
    rewrite bool_decide_eq_true_2; [done|]. apply elem_of_dom. eauto. }
  destruct (decide (i = j)) as [<-|Hne].
  - rewrite list_lookup_alter_eq, !list_lookup_fmap, Hi. cbn. rewrite !Hdom, Hsp, Hc, lookup_insert_eq.
    destruct (us_ContainerImages sp !! n); done.
  - rewrite list_lookup_alter_ne, !list_lookup_fmap by done. destruct (cs !! j) as [d|] eqn:Hj; [|done]. cbn.
    rewrite !Hdom, Hsp, lookup_insert_ne; [done|]. intros E. apply Hne.
    apply (NoDup_lookup (map ctr_name cs) i j n Hnd); change (map ctr_name cs) with (ctr_name <$> cs);
      rewrite list_lookup_fmap; [by rewrite Hi; cbn; rewrite Hc|by rewrite Hj, E].
Qed.

Lemma spec_patches_images old patches sp mp sp' mp' :
  NoDup (map ctr_name (pt_containers old)) ->
  spec_patches old patches sp mp = Some (sp', mp') ->
  let done s := map (set_image s (dom (us_ContainerImages s))) (pt_containers old) in
  done sp' = fold_left apply_image_op patches (done sp) /\
  Forall (inplace_op (pt_containers old)) patches /\
  us_ContainerRefMetadata sp' = us_ContainerRefMetadata sp /\ us_Revision sp' = us_Revision sp /\
  us_MetaDataPatch sp' = us_MetaDataPatch sp /\ us_GraceSeconds sp' = us_GraceSeconds sp /\
  mp' = mp ++ map (fun op => mkOperation (op_Operation op) (op_path op) (op_Value op))
                (filterb (fun op => negb (HasPrefix (op_path op) "/spec/")) patches).
Proof.
  intros Hnd. revert sp mp. induction patches as [|op patches IH]; intros sp mp; cbn [spec_patches].
  { intros [= <- <-]. cbn. by rewrite app_nil_r. }
  cbn [op_Path op_Operation op_Value]. fold (op_path op). destruct (HasPrefix (op_path op) "/spec/") eqn:Es; cbn [negb].
  - destruct (image_index (op_path op)) as [i|] eqn:Ei; [|done].
    destruct (String.eqb_spec (op_Operation op) "replace") as [Er|]; [|done]. cbn [negb].
    destruct (len (pt_containers old) <=? i) eqn:El; [done|]. zbool.
    destruct (pt_containers old !! Z.to_nat i) as [c|] eqn:Ec; [|done]. intros Hp.
    destruct (IH _ _ Hp) as (H1 & H2 & H3 & H4 & H5 & H6 & H7). cbn in H3, H4, H5, H6.
    split; [|split_and!; try done].
    + cbn [fold_left]. unfold apply_image_op at 2. rewrite Es, Ei. rewrite H1. f_equal.
      by apply (set_image_put sp _ c (ctr_name c)).
    + constructor; [right; eauto|done].
    + cbn [filterb]. rewrite Es. exact H7.
  - destruct (HasPrefix (op_path op) "/metadata/") eqn:Em; [|done]. intros Hp.
    destruct (IH _ _ Hp) as (H1 & H2 & H3 & H4 & H5 & H6 & H7).
    split_and!; try done.
    + cbn [fold_left]. unfold apply_image_op at 2. by rewrite Es.
    + constructor; [by left|done].
    + cbn [filterb]. rewrite Es, H7, <-app_assoc. done.
Qed.

Lemma ref_containers_images k key v cs st :
  let images (x : UpdateSpec * ObjectMeta * ObjectMeta) :=
    (us_ContainerImages x.1.1, us_Revision x.1.1, us_MetaDataPatch x.1.1, us_GraceSeconds x.1.1) in
  images (ref_containers k key v cs st) = images st.
Proof.
  cbv zeta. revert st. induction cs as [|c cs IH]; intros [[sp om] nm]; cbn [ref_containers]; [done|].
  destruct (IsContainerReferenceToMeta c (meta_path k) key); [|apply IH]. by rewrite IH.
Qed.

Lemma ref_metadata_images cs patches st :
  let images (x : UpdateSpec * ObjectMeta * ObjectMeta) :=
    (us_ContainerImages x.1.1, us_Revision x.1.1, us_MetaDataPatch x.1.1, us_GraceSeconds x.1.1) in
  images (ref_metadata cs patches st) = images st.
Proof.
  cbv zeta. unfold ref_metadata. revert st. induction patches as [|op patches IH]; intros st; cbn [fold_left]; [done|].
  rewrite IH. destruct (meta_key op) as [[k key]|]; [|done]. apply ref_containers_images.
Qed.

Section Calculate.
Context (CreatePatch : string -> string -> error + list Operation)
        (GetTemplateFromRevision : ControllerRevision -> error + PodTemplateSpec)
        (CreateMetaPatch : ObjectMeta -> ObjectMeta -> error + string) (gate : bool).

Lemma set_image_ext sp sp' cs : us_ContainerImages sp' = us_ContainerImages sp ->
  map (set_image sp' (dom (us_ContainerImages sp'))) cs = map (set_image sp (dom (us_ContainerImages sp))) cs.
Proof. intros E. apply map_ext. intros c. unfold set_image. by rewrite E. Qed.

(** An update is in place only when it can be.  When a spec is calculated between two
    revisions, every difference between them is on the metadata or replaces the image of a
    container of the old template; and giving each container the image that the spec names
    for it is the same as applying the patch, by position, to the old template.  The spec
    has the revision and the grace period that were asked for. *)
Theorem calculated_spec_images (o n : ControllerRevision) (opts : UpdateOptions) (sp : UpdateSpec)
  (patches : list Operation) (old : PodTemplateSpec) :
  CreatePatch (cr_data o) (cr_data n) = inr patches -> GetTemplateFromRevision o = inr old ->
  NoDup (map ctr_name (pt_containers old)) ->
  defaultCalculateInPlaceUpdateSpec CreatePatch GetTemplateFromRevision CreateMetaPatch gate (Some o) (Some n) opts = Some sp ->
  map (set_image sp (dom (us_ContainerImages sp))) (pt_containers old)
    = fold_left apply_image_op patches (pt_containers old) /\
  Forall (inplace_op (pt_containers old)) patches /\
  us_Revision sp = match GetRevision opts with Some f => f n | None => cr_name n end /\
  us_GraceSeconds sp = GracePeriodSeconds opts.
Proof.
  intros Hc Ho Hnd. unfold defaultCalculateInPlaceUpdateSpec. rewrite Hc, Ho.
  destruct (GetTemplateFromRevision n) as [|new]; [done|].
  destruct (spec_patches old patches _ []) as [[sp1 mp]|] eqn:Ep; [|done].
  apply spec_patches_images in Ep as (H1 & H2 & _ & H4 & _ & H6 & _); [|done]. cbn in H1, H4, H6.
  assert (Hid : map (fun c => c) (pt_containers old) = pt_containers old) by apply map_id.
  assert (H0 : map (set_image (mkUpdateSpec (us_Revision sp1) ∅ ∅ None false (us_GraceSeconds sp1)) ∅) (pt_containers old)
    = pt_containers old) by (rewrite <-Hid at 2; apply map_ext; intros c; unfold set_image; cbn; by rewrite lookup_empty).
  rewrite <-H4, <-H6, dom_empty_L, H0 in H1.
  intros Hs. assert (Hsame : us_ContainerImages sp = us_ContainerImages sp1 /\ us_Revision sp = us_Revision sp1 /\
    us_GraceSeconds sp = us_GraceSeconds sp1).
  { revert Hs. destruct mp as [|op mp]; [by intros [= <-]|]. destruct gate.
    - pose proof (ref_metadata_images (pt_containers new) (op :: mp) (sp1, pt_meta old, pt_meta new)) as Hr. cbv zeta in Hr.
      destruct (ref_metadata _ _ _) as [[sp2 om] nm]. cbn in Hr. injection Hr as Hr1 Hr2 Hr3 Hr4.
      destruct (CreateMetaPatch om nm) as [|patch]; [done|]. by intros [= <-].
    - destruct (CreateMetaPatch _ _) as [|patch]; [done|]. by intros [= <-]. }
  destruct Hsame as (E1 & E2 & E3). rewrite (set_image_ext sp1 sp _ E1), E2, E3. done.
Qed.
End Calculate.

(** ** The writes of the operations *)

(** A write of the pod, and a write of a status in which the pod is marked as ready or not. *)
Definition pod_write (ev : Event) : bool := match ev with EvUpdatePod _ _ => true | _ => false end.
Definition marks (status : string) (ev : Event) : bool :=
  match ev with
  | EvUpdatePodStatus p _ => bool_decide (c_status <$> GetCondition p = Some status)
  | _ => false
  end.

Lemma SetPodCondition_status p c : c_status <$> PodsUtil.GetCondition (PodsUtil.SetPodCondition p c) (c_type c) = Some (c_status c).
Proof.
  unfold PodsUtil.SetPodCondition. rewrite PodsUtil.set_condition_when_get.
  destruct (PodsUtil.GetCondition p (c_type c)) as [d|]; [|done]. unfold PodsUtil.status_differs.
  destruct (String.eqb_spec (c_status d) (c_status c)) as [E|E]; cbn; by rewrite ?E.
Qed.

Lemma SetPodReadyCondition_other quote now p t :
  t <> PodReady -> PodsUtil.GetCondition (PodsUtil.SetPodReadyCondition quote now p) t = PodsUtil.GetCondition p t.
Proof.
  intros Ht. unfold PodsUtil.SetPodReadyCondition.
  destruct (PodsUtil.GetCondition p PodReady); [|done]. destruct (PodsUtil.GetCondition p ContainersReady); [|done].
  destruct (negb _); [done|]. cbv zeta. apply PodsUtil.set_condition_when_other. by destruct (omap _ _).
Qed.

Section Retry.
Context {S : Type} `{PA : PodAdapter S} {A : Type}.

(** What holds of a try, and of tries that failed before one, holds of the retries. *)
Lemma retry_spec (R : list Event -> option error * A -> Prop) steps (fn : A -> M S (option error * A)) a :
  (forall a, emits (fn a) R) ->
  (forall evs evs' err a r, R evs (Some err, a) -> R evs' r -> R (evs ++ evs') r) ->
  emits (retry_steps (Datatypes.S steps) fn a) R.
Proof.
  intros Hfn Happ. revert a. induction steps as [|steps IH]; intros a;
    (eapply emits_bind; [apply Hfn|]); intros evs [[err|] a'] HR;
    try (apply emits_ret; by rewrite app_nil_r).
  - destruct (IsConflict err); apply emits_ret; by rewrite app_nil_r.
  - destruct (IsConflict err); [|apply emits_ret; by rewrite app_nil_r].
    eapply emits_mono; [apply IH|]. intros evs' r HR'. by eapply Happ.
Qed.

Lemma retry_emits (P : Event -> Prop) (Q : option error -> A -> Prop) steps (fn : A -> M S (option error * A)) a :
  (forall a, emits (fn a) (fun evs r => Forall P evs /\ Q r.1 r.2)) ->
  emits (retry_steps (Datatypes.S steps) fn a) (fun evs r => Forall P evs /\ Q r.1 r.2).
Proof.
  intros Hfn. apply retry_spec; [done|]. intros evs evs' err a' r [HP _] [HP' HQ]. split; [by apply Forall_app|done].
Qed.
End Retry.

Section Writes.
Context {S : Type} `{PA : PodAdapter S}.
Context `{JS : Json InPlaceUpdateState} `{JU : Json UpdateSpec} `{JM : Json (list RuntimeContainerMeta)}.
Context (now : Z) (quote : string -> string) (MergeMetadata : Pod -> string -> error + Pod).
Context (CreatePatch : string -> string -> error + list Operation)
        (GetTemplateFromRevision : ControllerRevision -> error + PodTemplateSpec)
        (CreateMetaPatch : ObjectMeta -> ObjectMeta -> error + string) (envFromMetadataGate : bool).
Context (HashContainer : Container -> Z) (hashEnvs : list (string * string) -> Z).
Context (EqualToRevisionHash : Pod -> string -> bool) (WriteRevisionHash : Pod -> string -> Pod).

Lemma getPod_silent pod (Q : error + Pod -> Prop) : (forall r, Q r) -> emits (S:=S) (getPod pod) (fun evs r => evs = [] /\ Q r).
Proof. intros HQ. by apply emits_call. Qed.

(** The condition was written, or a pod that was read had it. *)
Definition condition_set (pod : Pod) (c : PodCondition) (evs : list Event) : Prop :=
  (exists p, EvUpdatePodStatus p true ∈ evs) \/
  (exists s clone, GetPod (S:=S) (p_namespace pod) (p_name pod) s = inr clone /\ hasEqualCondition clone c = true).

Lemma condition_set_app pod c a b : condition_set pod c b -> condition_set pod c (a ++ b).
Proof. intros [(p & Hp)|?]; [left; exists p; apply elem_of_app; by right|by right]. Qed.

Lemma updateCondition_emits pod c :
  c_type c = InPlaceUpdateReady ->
  emits (S:=S) (updateCondition now quote pod c) (fun evs e =>
    Forall (fun ev => marks (c_status c) ev = true) evs /\ (e = None -> condition_set pod c evs)).
Proof.
  intros Ht. unfold updateCondition. eapply emits_bind.
  - apply (retry_spec (fun evs r => Forall (fun ev => marks (c_status c) ev = true) evs /\
      (r.1 = None -> condition_set pod c evs))).
    2: { intros evs evs' err a r [Hm _] [Hm' Hs]. split; [by apply Forall_app|]. intros Hr. by apply condition_set_app, Hs. }
    intros u. eapply emits_bind with (P := fun evs r => evs = [] /\ exists s, r = GetPod (p_namespace pod) (p_name pod) s).
    { intros w. exists []. rewrite app_nil_r. cbn. rewrite app_nil_r. eauto. }
    intros evs [err|clone] (-> & s & Hr); [by apply emits_ret|].
    destruct (hasEqualCondition clone c) eqn:Ehe; [apply emits_ret; split; [constructor|]; intros _; right; eauto|].
    cbv zeta. set (clone' := if String.eqb _ _ then _ else _).
    assert (Hc : c_status <$> GetCondition clone' = Some (c_status c)).
    { unfold clone', GetCondition. rewrite <-Ht. destruct (String.eqb _ _); [|apply SetPodCondition_status].
      rewrite SetPodReadyCondition_other; [apply SetPodCondition_status|by rewrite Ht]. }
    eapply emits_bind with (P := fun evs e => evs = [EvUpdatePodStatus clone' (is_ok e)]); [by apply emits_call|].
    intros evs e ->. apply emits_ret. rewrite app_nil_r. split.
    + constructor; [|constructor]. cbn. by rewrite Hc, bool_decide_eq_true_2.
    + cbn. intros ->. left. exists clone'. left.
  - intros evs [e u] [Hevs Hs]. apply emits_ret. rewrite app_nil_r. done.
Qed.

Lemma updatePod_emits clone :
  emits (S:=S) (updatePod clone) (fun evs r => Forall (fun ev => pod_write ev = true) evs).
Proof. apply emits_call. intros r. by repeat constructor. Qed.

Lemma finishGracePeriod_only pod :
  only (S:=S) pod_write (finishGracePeriod now MergeMetadata EqualToRevisionHash pod).
Proof.
  eapply emits_bind.
  - apply (retry_emits (fun ev => pod_write ev = true) (fun _ _ => True)). intros d.
    eapply emits_bind; [by apply (getPod_silent pod (fun _ => True))|]. intros evs [err|clone] [-> _]; [by apply emits_ret|].
    destruct (grace_step _ _ _ clone) as [err|d'| |clone']; try (by apply emits_ret).
    eapply emits_bind; [apply updatePod_emits|]. intros evs r Hevs. apply emits_ret. by rewrite app_nil_r.
  - intros evs [e d] [Hevs _]. apply emits_ret. by rewrite app_nil_r.
Qed.

(** [updateNextBatch] writes the pod when there is a further batch. *)
Lemma updateNextBatch_emits pod st : state_of pod st -> more_batches st = true ->
  emits (S:=S) (updateNextBatch now MergeMetadata pod) (fun evs r =>
    Forall (fun ev => pod_write ev = true) evs /\ (r.2 = None -> r.1 = true)).
Proof.
  intros (str & Hs & Hu) Hm. unfold updateNextBatch. eapply emits_bind.
  - apply (retry_emits (fun ev => pod_write ev = true) (fun e updated => e = None -> updated = true)). intros b.
    eapply emits_bind; [by apply (getPod_silent pod (fun _ => True))|]. intros evs [err|clone] [-> _]; [by apply emits_ret|].
    rewrite Hs, Hu, Hm. cbn [negb]. destruct (PatchSpecToPod _ _ _ _ _) as [err|clone']; [by apply emits_ret|].
    eapply emits_bind; [apply updatePod_emits|]. intros evs r Hevs. apply emits_ret. by rewrite app_nil_r.
  - intros evs [e updated] [Hevs Hr]. apply emits_ret. by rewrite app_nil_r.
Qed.

Lemma mark_ready_emits pod :
  emits (S:=S) (mark_ready now quote pod) (fun evs _ =>
    Forall (fun ev => marks ConditionTrue ev = true) evs /\ (evs <> [] -> containsReadinessGate pod = true)).
Proof.
  unfold mark_ready. destruct (containsReadinessGate pod); cbn [negb]; [|by apply emits_ret].
  eapply emits_bind; [by apply updateCondition_emits|]. intros evs e [Hevs _]. apply emits_ret. rewrite app_nil_r. auto.
Qed.

(** The pod is written, or it is over and the status is written. *)
Definition refresh_post (pod : Pod) (evs : list Event) : Prop :=
  Forall (fun ev => pod_write ev = true) evs \/
  Forall (fun ev => marks ConditionTrue ev = true) evs /\
  (evs <> [] -> containsReadinessGate pod = true /\
    (GetInPlaceUpdateGrace pod = Some ""%string \/ DefaultCheckInPlaceUpdateCompleted HashContainer hashEnvs pod = None)).

Lemma refresh_state_emits pod :
  GetInPlaceUpdateGrace pod = None \/ GetInPlaceUpdateGrace pod = Some ""%string ->
  emits (S:=S) (refresh_state now quote MergeMetadata HashContainer hashEnvs pod) (fun evs _ => refresh_post pod evs).
Proof.
  intros Hg. unfold refresh_state, refresh_post.
  assert (Hready : (GetInPlaceUpdateGrace pod = Some ""%string \/ DefaultCheckInPlaceUpdateCompleted HashContainer hashEnvs pod = None) ->
    emits (S:=S) (mark_ready now quote pod) (fun evs _ => refresh_post pod evs)).
  { intros Hd. eapply emits_mono; [apply mark_ready_emits|]. intros evs _ [H1 H2]. right. auto. }
  unfold refresh_post, DefaultCheckInPlaceUpdateCompleted in *.
  destruct (GetInPlaceUpdateState pod) as [str|] eqn:Es.
  2: { apply Hready. destruct Hg as [-> | ->]; [by right|by left]. }
  destruct (Unmarshal str) as [err|st] eqn:Eu; [apply emits_ret; left; constructor|].
  destruct (CheckContainersUpdateCompleted HashContainer hashEnvs pod st) eqn:Ec; cbn [is_some];
    [apply emits_ret; left; constructor|].
  destruct (more_batches st) eqn:Em.
  - destruct (doPreCheckBeforeNext _ _); cbn [is_some]; [apply emits_ret; left; constructor|].
    eapply emits_bind; [apply (updateNextBatch_emits pod st); [by exists str|done]|]. intros evs [updated err] [Hevs Hr].
    destruct err as [err|]; [apply emits_ret; left; by rewrite app_nil_r|]. cbn in Hr. rewrite (Hr eq_refl).
    apply emits_ret. left. by rewrite app_nil_r.
  - apply Hready. destruct Hg as [-> | ->]; [right|by left]. exact Ec.
Qed.

(** C35: A pod is declared ready again only when its in-place update is over.  Whatever the
    server answers, a call of [Refresh] either writes only the pod (the end of a grace
    period or the next batch of containers) or only its status; in the second case the
    status says that the pod is ready, the pod has the readiness gate, and, unless its
    grace annotation is present but empty, [DefaultCheckInPlaceUpdateCompleted] finds
    nothing left to do: no grace period, no further batch, every container updated. *)
Theorem refresh_ready_when_done (pod : Pod) :
  emits (S:=S) (Refresh now quote MergeMetadata HashContainer hashEnvs EqualToRevisionHash pod) (fun evs _ =>
    Forall (fun ev => pod_write ev = true) evs \/
    Forall (fun ev => marks ConditionTrue ev = true) evs /\
    (evs <> [] -> containsReadinessGate pod = true /\
      (GetInPlaceUpdateGrace pod = Some ""%string \/ DefaultCheckInPlaceUpdateCompleted HashContainer hashEnvs pod = None))).
Proof.
  pose proof (refresh_state_emits pod) as Hst. unfold refresh_post in Hst.
  unfold Refresh. destruct (GetInPlaceUpdateGrace pod) as [grace|] eqn:Eg; [|by apply Hst; left].
  destruct (String.eqb_spec grace "") as [->|Hne]; cbn [negb]; [apply Hst; by right|].
  eapply emits_bind; [apply finishGracePeriod_only|]. intros evs [d [err|]] Hevs; apply emits_ret; left; by rewrite app_nil_r.
Qed.

(** *** Update *)

(** The pods that [updatePodInPlace] may write. *)
Definition writes_updated (spec : UpdateSpec) (opts : UpdateOptions) (ev : Event) : Prop :=
  exists clone p ok, ev = EvUpdatePod p ok /\ updated_pod now MergeMetadata WriteRevisionHash clone spec opts = inr p.

Lemma updatePodInPlace_emits pod spec opts :
  emits (S:=S) (updatePodInPlace now MergeMetadata WriteRevisionHash pod spec opts) (fun evs _ =>
    Forall (writes_updated spec opts) evs).
Proof.
  unfold updatePodInPlace. eapply emits_bind.
  - apply (retry_emits (writes_updated spec opts) (fun _ _ => True)). intros rv.
    eapply emits_bind; [by apply (getPod_silent pod (fun _ => True))|].
    intros evs [err|clone] [-> _]; [by apply emits_ret|].
    destruct (updated_pod _ _ _ clone spec opts) as [err|p] eqn:Ep; [by apply emits_ret|].
    eapply emits_bind with (P := fun evs _ => Forall (writes_updated spec opts) evs).
    + apply emits_call. intros r. constructor; [|constructor]. by exists clone, p, (match r with inl _ => false | inr _ => true end).
    + intros evs [err|p'] Hevs; apply emits_ret; by rewrite app_nil_r.
  - intros evs [e rv] [Hevs _]. apply emits_ret. by rewrite app_nil_r.
Qed.

(** An in-place update takes the pod out of service before it changes it.  Whatever the
    server answers, the writes of [Update] are first statuses in which the pod is marked as
    not ready (none without the readiness gate), then pods that the spec of the two
    revisions prescribes; of a pod with the gate none of the latter is written unless a
    status was accepted, or the pod that was read was already marked so.  When there is no
    spec, nothing is written and the pod is reported as not updated in place. *)
Theorem update_marks_first (pod : Pod) (o n : option ControllerRevision) (opts : UpdateOptions) :
  emits (S:=S) (Update now quote MergeMetadata CreatePatch GetTemplateFromRevision CreateMetaPatch envFromMetadataGate
           WriteRevisionHash pod o n opts) (fun evs r =>
    match defaultCalculateInPlaceUpdateSpec CreatePatch GetTemplateFromRevision CreateMetaPatch envFromMetadataGate o n opts with
    | None => evs = [] /\ ur_InPlaceUpdate r = false
    | Some spec =>
        ur_InPlaceUpdate r = true /\
        exists statuses pods, evs = statuses ++ pods /\
          Forall (fun ev => marks ConditionFalse ev = true) statuses /\
          Forall (writes_updated spec opts) pods /\
          (if containsReadinessGate pod
           then pods <> [] -> condition_set pod (mkCond InPlaceUpdateReady ConditionFalse now "StartInPlaceUpdate" "") statuses
           else statuses = [])
    end).
Proof.
  unfold Update, CalculateSpec. destruct (defaultCalculateInPlaceUpdateSpec _ _ _ _ o n opts) as [spec|]; [|by apply emits_ret].
  set (c := mkCond InPlaceUpdateReady ConditionFalse now "StartInPlaceUpdate" "").
  eapply emits_bind with (P := fun evs e => Forall (fun ev => marks ConditionFalse ev = true) evs /\
    if containsReadinessGate pod then e = None -> condition_set pod c evs else evs = []).
  { destruct (containsReadinessGate pod); [by apply (updateCondition_emits pod c)|by apply emits_ret]. }
  intros s e [Hs Hg]. destruct e as [err|].
  { apply emits_ret. split; [done|]. exists s, []. split; [done|]. split; [done|]. split; [constructor|].
    by destruct (containsReadinessGate pod). }
  eapply emits_bind; [apply updatePodInPlace_emits|]. intros u [rv [err|]] Hu; apply emits_ret; rewrite app_nil_r;
    (split; [done|]); exists s, u; (split; [done|]); (split; [done|]); (split; [done|]); destruct (containsReadinessGate pod); auto.
Qed.
End Writes.

(** ** The grace period *)

Lemma roundupSeconds_spec d : 0 <= d -> d <= roundupSeconds d < d + second /\ (second | roundupSeconds d).
Proof.
  intros Hd. unfold roundupSeconds. rewrite Z.quot_div_nonneg, Z.rem_mod_nonneg by (unfold second; lia).
  pose proof (Z.div_mod d second ltac:(by unfold second)) as E. pose proof (Z.mod_pos_bound d second ltac:(by unfold second)).
  destruct (d mod second =? 0) eqn:Em; zbool.
  - split; [unfold second in *; lia|]. exists (d / second). lia.
  - split; [lia|]. exists (d / second + 1). lia.
Qed.

Section Grace.
Context `{JS : Json InPlaceUpdateState} `{JU : Json UpdateSpec} `{JL : !JsonLaws}.
Context (MergeMetadata : Pod -> string -> error + Pod).
Context (EqualToRevisionHash : Pod -> string -> bool) (WriteRevisionHash : Pod -> string -> Pod).
(** The revision of a pod is in its labels. *)
Hypothesis Hlabels : forall p q r, p_labels p = p_labels q -> EqualToRevisionHash p r = EqualToRevisionHash q r.

Definition no_grace (sp : UpdateSpec) : UpdateSpec :=
  mkUpdateSpec (us_Revision sp) (us_ContainerImages sp) (us_ContainerRefMetadata sp) (us_MetaDataPatch sp)
    (us_UpdateEnvFromMetadata sp) 0.

Lemma RemoveGrace_none p : GetInPlaceUpdateGrace (RemoveInPlaceUpdateGrace p) = None.
Proof.
  unfold GetInPlaceUpdateGrace, annotation, RemoveInPlaceUpdateGrace. cbn.
  rewrite lookup_delete_ne, lookup_delete_eq by done. by rewrite lookup_delete_eq.
Qed.

(** The containers and labels after a batch depend on those before only. *)
Lemma apply_batch_same t1 t2 p q sp sp' st st' :
  p_containers p = p_containers q -> p_labels p = p_labels q ->
  us_ContainerImages sp = us_ContainerImages sp' -> us_ContainerRefMetadata sp = us_ContainerRefMetadata sp' ->
  p_containers (apply_batch t1 p sp st) = p_containers (apply_batch t2 q sp' st') /\
  p_labels (apply_batch t1 p sp st) = p_labels (apply_batch t2 q sp' st').
Proof.
  intros Hc Hl Hi Hr.
  assert (Hf : forall cs U h H, first_batch sp cs U h H = first_batch sp' cs U h H).
  { induction cs as [|c cs IH]; intros U h H; [done|]. cbn [first_batch]. rewrite Hi, Hr.
    destruct (_ && _); [apply IH|]. destruct (GetContainerPriority c); [|apply IH]. destruct h; [|apply IH].
    split_ifs; apply IH. }
  assert (Hb : batch_of p sp = batch_of q sp') by (unfold batch_of; by rewrite Hc, Hf, Hr).
  cbn. rewrite Hb, Hc, Hl, Hr. split; [|done]. apply map_ext. intros c. unfold set_image. by rewrite Hi.
Qed.

(** The grace period delays the update and changes nothing else.  An update with a grace
    period leaves the containers and the labels of the pod alone but for its revision.  A
    refresh before the period is over, counted from the second in which the update began,
    only asks to be called again after the rest of it, in whole seconds; the first refresh
    after that makes the pod that the update without a grace period would have made, in its
    containers and labels, and removes the note of the grace period. *)
Theorem grace_delays_update (t1 : Z) (clone p1 : Pod) (sp : UpdateSpec) (opts : UpdateOptions) :
  let base := run_funcs (AdditionalFuncs opts) (WriteRevisionHash clone (us_Revision sp)) in
  EqualToRevisionHash base (us_Revision sp) = true -> 0 < us_GraceSeconds sp -> us_MetaDataPatch sp = None ->
  updated_pod t1 MergeMetadata WriteRevisionHash clone sp opts = inr p1 ->
  p_containers p1 = p_containers base /\ p_labels p1 = p_labels base /\
  forall t2, let remaining := trunc_time t1 + second * us_GraceSeconds sp - t2 in
    if 0 <? remaining then
      exists d, grace_step t2 MergeMetadata EqualToRevisionHash p1 = GraceWait d /\
        remaining <= d < remaining + second /\ (second | d)
    else
      exists p2 p0, grace_step t2 MergeMetadata EqualToRevisionHash p1 = GraceWrite p2 /\
        GetInPlaceUpdateGrace p2 = None /\
        updated_pod t1 MergeMetadata WriteRevisionHash clone (no_grace sp) opts = inr p0 /\
        p_containers p2 = p_containers p0 /\ p_labels p2 = p_labels p0.
Proof.
  intros base Hrev Hg Hpatch Hu. unfold updated_pod in Hu. fold base in Hu.
  rewrite (proj2 (Z.leb_gt _ _)) in Hu by lia. injection Hu as <-.
  set (st := mkUpdateState _ _ _ _ _ _ _ _). set (p1 := with_annotations _ _).
  assert (Hp1 : GetInPlaceUpdateGrace p1 = Some (Marshal sp)).
  { unfold GetInPlaceUpdateGrace, annotation, p1. cbn. by rewrite lookup_insert_eq. }
  assert (Hs1 : GetInPlaceUpdateState p1 = Some (Marshal st)).
  { unfold GetInPlaceUpdateState, annotation, p1. cbn. rewrite lookup_insert_ne by done.
    rewrite lookup_delete_ne by done. by rewrite lookup_insert_eq. }
  split; [done|]. split; [done|]. intros t2 remaining.
  assert (Hgs : grace_step t2 MergeMetadata EqualToRevisionHash p1 =
    if 0 <? remaining then GraceWait (roundupSeconds remaining)
    else GraceWrite (RemoveInPlaceUpdateGrace (apply_batch t2 p1 sp (trunc_state st)))).
  { unfold grace_step. rewrite Hp1, Hs1, spec_roundtrip, state_roundtrip by (by rewrite Hpatch).
    rewrite (Hlabels p1 base) by done. rewrite Hrev. cbn [negb].
    change (is_UpdateTimestamp (trunc_state st)) with (trunc_time t1).
    assert (Hrem : second * us_GraceSeconds sp - (t2 - trunc_time t1) = remaining) by (unfold remaining; lia).
    rewrite Hrem. unfold PatchSpecToPod, defaultPatchUpdateSpecToPod. rewrite Hpatch.
    replace (t2 - trunc_time t1 <? second * us_GraceSeconds sp) with (0 <? remaining); [done|].
    apply eq_true_iff_eq. rewrite !Z.ltb_lt. unfold remaining. lia. }
  rewrite Hgs. destruct (0 <? remaining) eqn:Er; zbool.
  - exists (roundupSeconds remaining). split; [done|]. apply roundupSeconds_spec. lia.
  - unfold updated_pod. cbn [us_Revision us_GraceSeconds us_UpdateEnvFromMetadata no_grace]. fold base.
    rewrite (proj2 (Z.leb_le 0 0)) by lia. unfold PatchSpecToPod, defaultPatchUpdateSpecToPod. cbn [us_MetaDataPatch no_grace].
    rewrite Hpatch. eexists _, _. split; [done|]. split; [apply RemoveGrace_none|]. split; [done|].
    by apply (apply_batch_same t2 t1 p1 _ sp (no_grace sp)).
Qed.
End Grace.

(** ** The interface of the controllers, from the code *)

Section Instance_.
Context {S : Type} `{PA : PodAdapter S}.
Context `{JS : Json InPlaceUpdateState} `{JU : Json UpdateSpec} `{JM : Json (list RuntimeContainerMeta)}.
Context (base : Api S) (now : Z) (nowStr : string) (quote : string -> string).
Context (MergeMetadata : Pod -> string -> error + Pod) (CreatePatch : string -> string -> error + list Operation)
        (GetTemplateFromRevision : ControllerRevision -> error + PodTemplateSpec)
        (CreateMetaPatch : ObjectMeta -> ObjectMeta -> error + string) (envFromMetadataGate : bool).
Context (HashContainer : Container -> Z) (hashEnvs : list (string * string) -> Z).
Context (EqualToRevisionHash : Pod -> string -> bool) (WriteRevisionHash : Pod -> string -> Pod).

(** An operation as a function of the server; it reads and changes no expectation. *)
Definition run_on {A} (m : M S A) (s : S) : S * A :=
  let '(w, a) := m (mkWorld s ∅ ∅ ∅ no_local ∅ []) in (w_server w, a).

(** The options that a controller passes. *)
Definition options_of (grace : Z) (state : string) : UpdateOptions :=
  mkOptions grace (if String.eqb state "" then [] else [Hooks.SetPodLifecycle state nowStr]) None.

(** The clients of the controllers with the in-place update of this library. *)
Definition inplace_api : Api S := {|
  CreatePod := CreatePod; DeletePod := DeletePod; CreatePVC := CreatePVC; DeletePVC := DeletePVC;
  PatchPod := PatchPod; AddNotReadyKey := AddNotReadyKey; RemoveNotReadyKey := RemoveNotReadyKey;
  InPlaceRefresh := fun pod grace =>
    run_on (Refresh now quote MergeMetadata HashContainer hashEnvs EqualToRevisionHash pod);
  World.CanUpdateInPlace := fun o n grace =>
    InPlaceUpdate.CanUpdateInPlace CreatePatch GetTemplateFromRevision CreateMetaPatch envFromMetadataGate o (Some n) (options_of grace "");
  InPlaceUpdatePod := fun pod o n grace state =>
    run_on (Update now quote MergeMetadata CreatePatch GetTemplateFromRevision CreateMetaPatch envFromMetadataGate
              WriteRevisionHash pod o (Some n) (options_of grace state));
  CheckPodUpdateCompleted := DefaultCheckInPlaceUpdateCompleted HashContainer hashEnvs;
  PodUnavailableBudgetValidatePod := PodUnavailableBudgetValidatePod;
|}.
End Instance_.

(** ** Witnesses *)

Definition ex_ops : list Operation := [mkOperation "replace" "/spec/template/spec/containers/1/image" "v2"].
Definition ex_template_of : PodTemplateSpec := mkPodTemplate (mkMeta ∅ ∅) [ex_container "main" None; ex_container "side" None].
Definition ex_revision (name : string) : ControllerRevision := mkRevision name 1 ∅ name 0 None "" "" ∅.

Lemma calculated_spec_images_witness :
  map (set_image (mkUpdateSpec "r2" {["side" := "v2"]} ∅ None false 0)%string {["side"%string]}) (pt_containers ex_template_of)
    = fold_left apply_image_op ex_ops (pt_containers ex_template_of) /\
  Forall (inplace_op (pt_containers ex_template_of)) ex_ops.
Proof.
  destruct (calculated_spec_images (fun _ _ => inr ex_ops) (fun _ => inr ex_template_of) (fun _ _ => inr "{}"%string) true
    (ex_revision "r1") (ex_revision "r2") (mkOptions 0 [] None)
    (mkUpdateSpec "r2" {["side" := "v2"]} ∅ None false 0)%string ex_ops ex_template_of eq_refl eq_refl
    ltac:(apply (bool_decide_unpack (NoDup (map ctr_name (pt_containers ex_template_of)))); by vm_compute)
    ltac:(by vm_compute)) as (H1 & H2 & _).
  split; [exact H1|exact H2].
Defined.

Definition ex_hash (p : Pod) (r : string) : bool := bool_decide (p_labels p !! "hash"%string = Some r).
Lemma ex_hash_labels p q r : p_labels p = p_labels q -> ex_hash p r = ex_hash q r.
Proof. unfold ex_hash. by intros ->. Qed.
Definition ex_write_hash (p : Pod) (r : string) : Pod := with_labels p (<["hash"%string := r]> (p_labels p)).
Definition ex_grace_spec : UpdateSpec :=
  mkUpdateSpec "rev" {["main" := "v2"]}%string ∅ None false 10.

Lemma grace_delays_update_witness :
  match updated_pod (5 * second + 1) (fun p _ => inr p) ex_write_hash ex_update_pod ex_grace_spec (mkOptions 10 [] None) with
  | inl _ => False
  | inr p1 =>
      exists d, grace_step (7 * second) (fun p _ => inr p) ex_hash p1 = GraceWait d /\
        8 * second <= d < 8 * second + second /\ (second | d)
  end.
Proof.
  destruct (updated_pod (5 * second + 1) (fun p _ => inr p) ex_write_hash ex_update_pod ex_grace_spec (mkOptions 10 [] None))
    as [err|p1] eqn:E; [vm_compute in E; discriminate E|].
  destruct (grace_delays_update (fun p _ => inr p) ex_hash ex_write_hash
    ex_hash_labels
    (5 * second + 1) ex_update_pod p1 ex_grace_spec (mkOptions 10 [] None) ltac:(by vm_compute) ltac:(vm_compute; done) eq_refl E)
    as (_ & _ & H). exact (H (7 * second)).
Defined.
