(* ===== verification/PodReadiness.v ===== *)
(** * Pod readiness

    pkg/util/podreadiness: a pod with the readiness gate KruisePodReady is kept out of service
    by the holders whose keys are in the message of the condition, and comes back when the
    last of them removes its key. *)

From S2P Require Import Prelude GoLib GoText K8s Tools Expectations Lifecycle UpdateSort CloneSetDiff World InPlaceUpdate InPlaceBatches InPlaceControl.
Open Scope Z_scope.
Open Scope kruise_scope.

#[export] Instance Message_eq_dec : EqDecision Message.
Proof. solve_decision. Defined.

(** [messageList.Less]. *)
Definition message_less (a b : Message) : bool :=
  if String.eqb (UserAgent a) (UserAgent b) then string_lt (msg_Key a) (msg_Key b)
  else string_lt (UserAgent a) (UserAgent b).

Definition same_message (a b : Message) : bool :=
  String.eqb (UserAgent a) (UserAgent b) && String.eqb (msg_Key a) (msg_Key b).

Section Readiness.
Context `{IG : GoSort} `{JM : Json (list Message)}.

(** [util.DumpJSON] of the sorted list. *)
Definition dump (l : list Message) : string := Marshal (sort_by message_less l).

(** The messages of a text; none when it is empty or cannot be read. *)
Definition messages_of (base : string) : list Message :=
  if String.eqb base "" then []
  else match Unmarshal base with inl _ => [] | inr l => l end.

Definition addMessage (base : string) (msg : Message) : bool * list Message :=
  let messages := messages_of base in
  if existsb (fun m => same_message m msg) messages then (false, messages) else (true, messages ++ [msg]).

Definition removeMessage (base : string) (msg : Message) : bool * list Message :=
  let messages := messages_of base in
  (existsb (fun m => same_message m msg) messages, filterb (fun m => negb (same_message m msg)) messages).

Definition getReadinessCondition (pod : Pod) (condType : string) : option PodCondition :=
  find_condition (p_conditions pod) condType.

Definition alreadyHasKey (pod : Pod) (msg : Message) (condType : string) : bool :=
  match getReadinessCondition pod condType with
  | None => false
  | Some c =>
      if String.eqb (c_status c) ConditionTrue || String.eqb (c_message c) "" then false
      else existsb (fun m => same_message m msg) (messages_of (c_message c))
  end.

(** A change of the first condition of a type, through the pointer to it. *)
Fixpoint change_condition (t : string) (f : PodCondition -> PodCondition) (cs : list PodCondition) : list PodCondition :=
  match cs with
  | [] => []
  | c :: cs' => if String.eqb (c_type c) t then f c :: cs' else c :: change_condition t f cs'
  end.

(** The pod that [addNotReadyKey] writes; [None] when there is nothing to write. *)
Definition add_key (now : Z) (quote : string -> string) (newPod : Pod) (msg : Message) (condType : string) : option Pod :=
  match getReadinessCondition newPod condType with
  | None =>
      let '(_, messages) := addMessage "" msg in
      let c := mkCond condType "" now "" (dump messages) in
      Some (PodsUtil.SetPodReadyCondition quote now (with_conditions newPod (p_conditions newPod ++ [c])))
  | Some c =>
      let '(changed, messages) := addMessage (c_message c) msg in
      if negb changed then None
      else
        let f c := mkCond (c_type c) ConditionFalse now (c_reason c) (dump messages) in
        Some (PodsUtil.SetPodReadyCondition quote now
                (with_conditions newPod (change_condition condType f (p_conditions newPod))))
  end.

(** The pod that [removeNotReadyKey] writes. *)
Definition remove_key (now : Z) (newPod : Pod) (msg : Message) (condType : string) : option Pod :=
  match getReadinessCondition newPod condType with
  | None => None
  | Some c =>
      let '(changed, messages) := removeMessage (c_message c) msg in
      if negb changed then None
      else
        let f c := mkCond (c_type c) (if len messages =? 0 then ConditionTrue else c_status c) now (c_reason c) (dump messages) in
        Some (with_conditions newPod (change_condition condType f (p_conditions newPod)))
  end.

Context {S : Type} `{PA : PodAdapter S} (now : Z) (quote : string -> string).

(** One try: read the pod, and write what [f] makes of it. *)
Definition status_step (pod : Pod) (f : Pod -> option Pod) (u : unit) : M S (option error * unit) :=
  do r <- getPod pod;
  match r with
  | inl err => ret (Some err, u)
  | inr newPod =>
      match f newPod with
      | None => ret (None, u)
      | Some newPod => do e <- updatePodStatus newPod; ret (e, u)
      end
  end.

Definition addNotReadyKey (pod : Pod) (msg : Message) (condType : string) : M S (option error) :=
  if alreadyHasKey pod msg condType then ret None
  else if negb (PodsUtil.containsReadinessGate pod condType) then ret None
  else do '(e, _) <- retry (status_step pod (fun p => add_key now quote p msg condType)) tt; ret e.

Definition removeNotReadyKey (pod : Pod) (msg : Message) (condType : string) : M S (option error) :=
  if negb (PodsUtil.containsReadinessGate pod condType) then ret None
  else do '(e, _) <- retry (status_step pod (fun p => remove_key now p msg condType)) tt; ret e.

(** The common control works on the condition KruisePodReady. *)
Definition common_AddNotReadyKey (pod : Pod) (msg : Message) : M S (option error) :=
  addNotReadyKey pod msg KruisePodReadyConditionType.
Definition common_RemoveNotReadyKey (pod : Pod) (msg : Message) : M S (option error) :=
  removeNotReadyKey pod msg KruisePodReadyConditionType.
Definition common_ContainsReadinessGate (pod : Pod) : bool :=
  PodsUtil.containsReadinessGate pod KruisePodReadyConditionType.
End Readiness.

(** ** The holders of a pod *)

(** The documented round trip of encoding/json on lists of messages. *)
Class MessageLaws `{Json (list Message)} : Prop := {
  messages_roundtrip : forall l, Unmarshal (Marshal l) = inr l;
  messages_nonempty : forall l, Marshal l <> ""%string;
}.

Section Holders.
Context `{IG : GoSort} `{JM : Json (list Message)} `{ML : !MessageLaws}.
Context (quote : string -> string) (t : string).
Hypothesis Ht : t <> PodReady.

Lemma same_message_true a b : same_message a b = true <-> a = b.
Proof.
  unfold same_message. rewrite andb_true_iff, !String.eqb_eq. destruct a, b. cbn. split; [by intros [-> ->]|by intros [= -> ->]].
Qed.

Lemma has_message msg l : existsb (fun m => same_message m msg) l = true <-> msg ∈ l.
Proof.
  rewrite existsb_exists. split.
  - intros (m & Hm & E). apply same_message_true in E as ->. by apply list_elem_of_In.
  - intros Hm. exists msg. split; [by apply list_elem_of_In|by apply same_message_true].
Qed.

Lemma messages_dump l : messages_of (dump l) ≡ₚ l.
Proof.
  unfold messages_of, dump. destruct (String.eqb_spec (Marshal (sort_by message_less l)) "") as [E|_];
    [by apply messages_nonempty in E|]. rewrite messages_roundtrip. apply sort_by_perm.
Qed.

(** The keys that a pod holds, and the status of its condition. *)
Definition holders (p : Pod) : list Message :=
  match getReadinessCondition p t with None => [] | Some c => messages_of (c_message c) end.
Definition blocked (p : Pod) : bool :=
  match getReadinessCondition p t with None => false | Some c => negb (String.eqb (c_status c) ConditionTrue) end.

(** The condition is True exactly when nobody holds the pod, and nobody holds it twice. *)
Definition readiness_ok (p : Pod) : Prop :=
  NoDup (holders p) /\ match getReadinessCondition p t with None => True | Some c => c_status c = ConditionTrue <-> holders p = [] end.

Lemma change_condition_find f cs :
  (forall c, c_type (f c) = c_type c) -> find_condition (change_condition t f cs) t = f <$> find_condition cs t.
Proof.
  intros Hf. induction cs as [|c cs IH]; [done|]. cbn [change_condition find_condition].
  destruct (String.eqb_spec (c_type c) t) as [E|E]; cbn [find_condition].
  - by rewrite Hf, E, String.eqb_refl.
  - by rewrite (proj2 (String.eqb_neq _ _) E).
Qed.

Lemma find_condition_snoc cs c : find_condition cs t = None -> c_type c = t -> find_condition (cs ++ [c]) t = Some c.
Proof.
  intros Hn Hc. rewrite PodsUtil.find_condition_app, Hn. cbn. by rewrite Hc, String.eqb_refl.
Qed.

Lemma ready_condition_same now p : getReadinessCondition (PodsUtil.SetPodReadyCondition quote now p) t = getReadinessCondition p t.
Proof. by apply SetPodReadyCondition_other. Qed.

(** What a change of the keys of a pod is: the pod that was, or one with the new keys. *)
Definition changed_to (p : Pod) (o : option Pod) (keys : list Message) : Prop :=
  match o with
  | None => holders p = keys
  | Some p' => exists c, getReadinessCondition p' t = Some c /\ messages_of (c_message c) ≡ₚ keys /\
                 (c_status c = ConditionTrue <-> keys = [])
  end.

Lemma changed_ok p o keys : readiness_ok p -> NoDup keys -> changed_to p o keys ->
  readiness_ok (default p o) /\ holders (default p o) ≡ₚ keys.
Proof.
  intros Hok Hnd Hc. destruct o as [p'|]; cbn in *; [|by rewrite <-Hc].
  destruct Hc as (c & Hg & Hm & Hs). unfold readiness_ok, holders. rewrite Hg. rewrite Hm at 1. split; [|done].
  split; [done|]. rewrite Hs. split; [intros ->; by apply Permutation_nil_r|intros E; rewrite E in Hm; by apply Permutation_nil_l in Hm].
Qed.

Lemma add_key_changes now p msg : readiness_ok p ->
  changed_to p (add_key now quote p msg t) (if bool_decide (msg ∈ holders p) then holders p else holders p ++ [msg]).
Proof.
  intros [_ Hst]. unfold add_key, holders in *. destruct (getReadinessCondition p t) as [c|] eqn:Eg.
  - unfold addMessage. destruct (existsb _ (messages_of (c_message c))) eqn:Ee; cbn [negb].
    + apply has_message in Ee. rewrite bool_decide_eq_true_2 by done. cbn. unfold holders. by rewrite Eg.
    + apply not_true_iff_false in Ee. rewrite has_message in Ee. rewrite bool_decide_eq_false_2 by done.
      cbn. unfold getReadinessCondition in *. eexists. split; [|split].
      * setoid_rewrite ready_condition_same. unfold getReadinessCondition. cbn.
        rewrite change_condition_find by done. by rewrite Eg.
      * cbn. by rewrite messages_dump.
      * cbn. split; [done|]. intros E. by destruct (messages_of (c_message c)).
  - cbn [addMessage]. rewrite bool_decide_eq_false_2 by apply not_elem_of_nil. cbn. eexists. split; [|split].
    + rewrite ready_condition_same. unfold getReadinessCondition in *. cbn. by apply find_condition_snoc.
    + cbn. by rewrite messages_dump.
    + done.
Qed.

Lemma remove_key_changes now p msg : readiness_ok p ->
  changed_to p (remove_key now p msg t) (filterb (fun m => negb (same_message m msg)) (holders p)).
Proof.
  intros [_ Hst]. unfold remove_key, holders in *. destruct (getReadinessCondition p t) as [c|] eqn:Eg;
    [|cbn; unfold holders; by rewrite Eg].
  unfold removeMessage. set (l := messages_of (c_message c)) in *. set (l' := filterb _ l).
  destruct (existsb _ l) eqn:Ee; cbn [negb].
  - cbn. eexists. split; [|split].
    + unfold getReadinessCondition in *. cbn. rewrite change_condition_find by done. by rewrite Eg.
    + cbn. by rewrite messages_dump.
    + cbn. destruct l' as [|m l''] eqn:El; [done|]. cbn. rewrite Hst. apply has_message in Ee.
      split; [|done]. intros E. rewrite E in Ee. by apply not_elem_of_nil in Ee.
  - cbn. unfold holders. rewrite Eg. fold l. unfold l'. apply not_true_iff_false in Ee. rewrite has_message in Ee.
    clear -Ee. induction l as [|m l IH]; [done|]. cbn [filterb]. apply not_elem_of_cons in Ee as [Hne Hin].
    rewrite (proj1 (not_true_iff_false (same_message m msg))) by (by rewrite same_message_true; intros ->).
    cbn. f_equal. by apply IH.
Qed.

(** A holder takes the pod or gives it back, at a time. *)
Inductive Op := Hold (now : Z) (m : Message) | Free (now : Z) (m : Message).
Definition run_op (p : Pod) (op : Op) : Pod :=
  match op with
  | Hold now m => default p (add_key now quote p m t)
  | Free now m => default p (remove_key now p m t)
  end.

#[export] Instance Message_countable : Countable Message.
Proof. apply (inj_countable' (fun m => (UserAgent m, msg_Key m)) (fun x => mkMessage x.1 x.2)). by intros []. Defined.

(** The set of holders. *)
Definition spec_op (s : gset Message) (op : Op) : gset Message :=
  match op with Hold _ m => {[m]} ∪ s | Free _ m => s ∖ {[m]} end.

Lemma run_op_refines p s op :
  readiness_ok p -> list_to_set (holders p) = s ->
  readiness_ok (run_op p op) /\ list_to_set (holders (run_op p op)) = spec_op s op.
Proof.
  intros Hok Hs. pose proof Hok as [Hnd _]. destruct op as [now m|now m]; cbn [run_op spec_op].
  - edestruct (changed_ok p) as [Hok' Hh]; [done| |apply (add_key_changes now p m Hok)|].
    { case_bool_decide; [done|]. apply NoDup_app. split; [done|]. split; [set_solver|apply NoDup_singleton]. }
    split; [done|]. apply set_eq. intros x. rewrite <-Hs, elem_of_list_to_set, Hh. case_bool_decide; set_solver.
  - edestruct (changed_ok p) as [Hok' Hh]; [done| |apply (remove_key_changes now p m Hok)|].
    { eapply sublist_NoDup; [exact Hnd|apply filterb_sublist]. }
    split; [done|]. apply set_eq. intros x. rewrite <-Hs, elem_of_list_to_set, Hh, filterb_elem, negb_true_iff.
    rewrite <-not_true_iff_false, same_message_true. set_solver.
Qed.

Lemma blocked_holders p : readiness_ok p -> blocked p = true <-> holders p <> [].
Proof.
  intros [_ Hst]. unfold blocked. destruct (getReadinessCondition p t) as [c|] eqn:Eg.
  - rewrite negb_true_iff, String.eqb_neq. tauto.
  - unfold holders. by rewrite Eg.
Qed.

(** A pod is held by a set of keys.  Whatever holders add and remove keys, in whatever
    order and at whatever times, the condition holds exactly the keys that were added and
    not removed since, each once; and it blocks the pod exactly while there is one.  So no
    controller can put a pod back in service that another one still holds, and the last one
    to leave does. *)
Theorem readiness_holders (p : Pod) (ops : list Op) :
  readiness_ok p ->
  let p' := fold_left run_op ops p in
  let s := fold_left spec_op ops (list_to_set (holders p)) in
  readiness_ok p' /\ (forall m, m ∈ holders p' <-> m ∈ s) /\ (blocked p' = true <-> s <> ∅).
Proof.
  intros Hok. cbv zeta.
  assert (Hrun : readiness_ok (fold_left run_op ops p) /\
    list_to_set (holders (fold_left run_op ops p)) = fold_left spec_op ops (list_to_set (holders p))).
  { revert p Hok. induction ops as [|op ops IH]; intros p Hok; [done|]. cbn [fold_left].
    destruct (run_op_refines p _ op Hok eq_refl) as [Hok' Hs]. destruct (IH _ Hok') as [H1 H2]. by rewrite <-Hs. }
  destruct Hrun as [Hok' Hs]. rewrite <-Hs. split; [done|]. split; [intros m; by rewrite elem_of_list_to_set|].
  rewrite (blocked_holders _ Hok'). destruct (holders (fold_left run_op ops p)) as [|m l]; [done|]. set_solver.
Qed.
End Holders.

(** ** Witness *)

#[export] Instance message_json : Json (list Message) := {|
  Marshal := fun l => String "m" (pos_text (encode l));
  Unmarshal := fun s => match s with
                        | String _ r => match decode (text_pos r) with Some l => inr l | None => inl "invalid"%string end
                        | EmptyString => inl "empty"%string
                        end;
|}.
#[export] Instance message_laws : MessageLaws.
Proof. split; intros l; cbn; [by rewrite text_pos_text, decode_encode|done]. Qed.

Definition ex_gated : Pod := with_gates (named_pod "p") [KruisePodReadyConditionType].
Definition ex_ops : list (Op) :=
  [Hold 1 (mkMessage "lifecycle" "a"); Hold 2 (mkMessage "ctr" "b"); Free 3 (mkMessage "lifecycle" "a")].

Lemma readiness_holders_witness :
  let p' := fold_left (run_op (fun s => s) KruisePodReadyConditionType) ex_ops ex_gated in
  (forall m, m ∈ holders KruisePodReadyConditionType p' <-> m ∈ fold_left spec_op ex_ops ∅) /\
  (blocked KruisePodReadyConditionType p' = true <-> fold_left spec_op ex_ops ∅ <> ∅).
Proof.
  destruct (readiness_holders (fun s => s) KruisePodReadyConditionType ltac:(done) ex_gated ex_ops) as (_ & H1 & H2).
  - split; [apply NoDup_nil_2|done].
  - exact (conj H1 H2).
Defined.
