(* ===== verification/RevisionHistory.v ===== *)
(** * Controller revisions

    The revisions that record the templates of a workload: the vendored
    [history] package (vendor/k8s.io/kubernetes/pkg/controller/history) as far as it
    is pure, and the two operations that the controllers write on top of it, the same
    for every workload: choosing the current and the update revision, and truncating
    the history.  [history.Interface] is the class [RevisionApi]. *)

From S2P Require Import Prelude GoLib GoText K8s Expectations World.
Open Scope Z_scope.
Open Scope kruise_scope.

Definition ControllerRevisionHashLabel : string := "controller.kubernetes.io/hash".

(** [uint32(hash)] of a label that parses as a 32-bit integer. *)
Definition revision_hash (r : ControllerRevision) : option Z :=
  match cr_labels r !! ControllerRevisionHashLabel with
  | None => None
  | Some hs => match conv_ok (ParseInt hs 32) with
               | Some h => Some (h mod 2 ^ 32)
               | None => None
               end
  end.

(** [EqualRevision] on revisions that are not [nil]; they carry raw data only. *)
Definition EqualRevision (lhs rhs : ControllerRevision) : bool :=
  match revision_hash lhs, revision_hash rhs with
  | Some a, Some b => if negb (a =? b) then false else String.eqb (cr_data lhs) (cr_data rhs)
  | _, _ => String.eqb (cr_data lhs) (cr_data rhs)
  end.

Definition FindEqualRevisions (revisions : list ControllerRevision) (needle : ControllerRevision)
  : list ControllerRevision :=
  filterb (fun r => EqualRevision r needle) revisions.

(** [byRevision.Less]. *)
Definition byRevision (a b : ControllerRevision) : bool :=
  if cr_revision a =? cr_revision b then
    if cr_creation b =? cr_creation a then string_lt (cr_name a) (cr_name b)
    else cr_creation a <? cr_creation b
  else cr_revision a <? cr_revision b.

Definition SortControllerRevisions (revisions : list ControllerRevision) : list ControllerRevision :=
  SliceStable byRevision revisions.

(** [ControllerRevisionName]. *)
Definition ControllerRevisionName (prefix hash : string) : string :=
  of_chars (take 223 (chars prefix)) +:+ "-" +:+ hash.

(** [history.Interface]; the parent is given by its namespace and name. *)
Class RevisionApi (S : Type) := {
  (** The revision created and the new collision count. *)
  CreateControllerRevision : string -> string -> ControllerRevision -> Z -> S -> S * ((error + ControllerRevision) * Z);
  UpdateControllerRevision : ControllerRevision -> Z -> S -> S * (error + ControllerRevision);
  DeleteControllerRevision : ControllerRevision -> S -> S * option error;
}.

(** What the documentation of [history.Interface] promises of an answer without error:
    the revision created has the data asked for, the one updated has the new number. *)
Class RevisionLaws (S : Type) `{RevisionApi S} : Prop := {
  create_data : forall ns name r c s s' r' c',
    CreateControllerRevision ns name r c s = (s', (inr r', c')) -> cr_data r' = cr_data r;
  update_number : forall r n s s' r',
    UpdateControllerRevision r n s = (s', inr r') ->
    cr_data r' = cr_data r /\ cr_name r' = cr_name r /\ cr_revision r' = n;
}.

Definition is_inr {A B} (x : A + B) : bool := match x with inr _ => true | inl _ => false end.

Section Revisions.
Context {S : Type} `{RevisionApi S}.

(** What follows the creation of the new revision in [getStatefulSetRevisions] and
    [getActiveRevisions]: the update revision is the last one if that is equal to the
    new one, an earlier equal one with a new number, or the new one; the current
    revision is the one named in the status. *)
Definition pick_update (ns name : string) (revisions : list ControllerRevision) (new : ControllerRevision)
  (collisionCount : Z) : M S ((error + ControllerRevision) * Z) :=
  let equalRevisions := FindEqualRevisions revisions new in
  match last equalRevisions, last revisions with
  | Some equal, Some prior =>
      if EqualRevision prior equal then ret (inr prior, collisionCount)
      else
        do r <- call (UpdateControllerRevision equal (cr_revision new))
                  (fun r => [EvUpdateRevision equal (cr_revision new) (is_inr r)]);
        ret (r, collisionCount)
  | _, _ =>
      call (CreateControllerRevision ns name new collisionCount)
        (fun r => [EvCreateRevision new (is_inr r.1)])
  end.

Definition find_current (revisions : list ControllerRevision) (statusCurrent : string)
  (update : ControllerRevision) : ControllerRevision :=
  match find (fun r => String.eqb (cr_name r) statusCurrent) revisions with
  | Some r => r
  | None => update
  end.

(** The current and the update revision, and the collision count. *)
Definition active_revisions (ns name statusCurrent : string) (revisions : list ControllerRevision)
  (new : ControllerRevision) (collisionCount : Z)
  : M S ((error + ControllerRevision * ControllerRevision) * Z) :=
  do '(r, c) <- pick_update ns name revisions new collisionCount;
  match r with
  | inl err => ret (inl err, c)
  | inr update => ret (inr (find_current revisions statusCurrent update, update), c)
  end.

(** The deletion loop of [truncateHistory]. *)
Fixpoint delete_revisions (rs : list ControllerRevision) : M S (option error) :=
  match rs with
  | [] => ret None
  | r :: rest =>
      do e <- call (DeleteControllerRevision r) (fun e => [EvDeleteRevision r (is_ok e)]);
      match e with
      | Some err => ret (Some err)
      | None => delete_revisions rest
      end
  end.

(** [truncateHistory], with what counts as live. *)
Definition truncate_history (live : ControllerRevision -> bool) (historyLimit : Z)
  (revisions : list ControllerRevision) : M S (option error) :=
  let history := filterb (fun r => negb (live r)) revisions in
  let historyLen := len history in
  if historyLen <=? historyLimit then ret None
  else delete_revisions (slice_to history (historyLen - historyLimit)).

(** ** Proofs *)

Lemma EqualRevision_data a b : EqualRevision a b = true -> cr_data a = cr_data b.
Proof.
  unfold EqualRevision. intros E. apply String.eqb_eq.
  destruct (revision_hash a), (revision_hash b); try done. by destruct (negb _).
Qed.

#[export] Instance byRevision_sw : StrictWeak byRevision.
Proof.
  assert (Hn : StrictWeak (fun a b => string_lt (cr_name a) (cr_name b))).
  { split; intros *; [apply sw_irrefl|apply sw_trans|apply sw_cotrans]. }
  pose proof (StrictWeak_lex cr_creation _ (StrictWeak0 := Hn)) as Hc.
  pose proof (StrictWeak_lex cr_revision _ (StrictWeak0 := Hc)) as Hr.
  revert Hr. apply StrictWeak_ext. intros x y. unfold byRevision.
  rewrite (Z.eqb_sym (cr_creation y)).
  by destruct (cr_revision x =? cr_revision y), (cr_creation x =? cr_creation y).
Qed.

Lemma byRevision_le a b : byRevision b a = false -> cr_revision a <= cr_revision b.
Proof. unfold byRevision. zcases. Qed.

Lemma last_elem {A} (l : list A) x : last l = Some x -> x ∈ l.
Proof. rewrite last_Some. intros [l' ->]. apply elem_of_app. right. by apply list_elem_of_singleton. Qed.

(** The last of the sorted revisions has the highest number. *)
Lemma sorted_last_max revisions r p :
  last (SortControllerRevisions revisions) = Some p -> r ∈ revisions -> cr_revision r <= cr_revision p.
Proof.
  intros Hp Hr. apply byRevision_le. eapply sorted_by_last; [apply byRevision_sw| |exact Hp|].
  - apply SliceStable_sorted, byRevision_sw.
  - unfold SortControllerRevisions. by rewrite SliceStable_perm.
Qed.

Lemma sorted_last_None revisions : last (SortControllerRevisions revisions) = None -> revisions = [].
Proof.
  rewrite last_None. intros E. apply Permutation_nil_r.
  rewrite <-(SliceStable_perm byRevision revisions). unfold SortControllerRevisions in E. by rewrite E.
Qed.

(** What choosing the update revision does, for any answer of the server. *)
Lemma pick_update_spec `{!RevisionLaws S} ns name revisions new c w :
  let '(w', (r, c')) := pick_update ns name (SortControllerRevisions revisions) new c w in
  (exists evs, w_trace w' = w_trace w ++ evs /\ (length evs <= 1)%nat /\
    ((exists e, e ∈ revisions /\ EqualRevision e new = true) ->
     forall x ok, EvCreateRevision x ok ∉ evs)) /\
  forall u, r = inr u ->
    cr_data u = cr_data new /\
    ((exists e, e ∈ revisions /\ EqualRevision e new = true) ->
     (forall e, e ∈ revisions -> cr_revision e < cr_revision new) ->
     forall e, e ∈ revisions -> cr_revision e <= cr_revision u).
Proof.
  assert (Hin : forall e, e ∈ SortControllerRevisions revisions <-> e ∈ revisions).
  { intros e. unfold SortControllerRevisions. by rewrite SliceStable_perm. }
  unfold pick_update. destruct (last (FindEqualRevisions _ new)) as [eq|] eqn:Ee.
  - apply last_elem, filterb_elem in Ee as [Heq He].
    destruct (last (SortControllerRevisions revisions)) as [p|] eqn:Ep.
    2:{ apply sorted_last_None in Ep as ->. apply Hin in Heq. by apply not_elem_of_nil in Heq. }
    destruct (EqualRevision p eq) eqn:E.
    + simpl. split; [exists []; rewrite app_nil_r; split; [done|]; split; [simpl; lia|set_solver]|].
      intros u [= <-]. split; [by rewrite (EqualRevision_data _ _ E), (EqualRevision_data _ _ He)|].
      intros _ _ e Hr. by eapply sorted_last_max.
    + unfold bind, call. destruct (UpdateControllerRevision eq (cr_revision new) (w_server w)) as [s' r] eqn:Eu.
      simpl. split; [eexists; split; [done|]; split; [simpl; lia|set_solver]|].
      intros u ->. apply update_number in Eu as (Hd & _ & Hn).
      split; [by rewrite Hd, (EqualRevision_data _ _ He)|]. intros _ Hlt e Hr. rewrite Hn. specialize (Hlt e Hr). lia.
  - assert (Hno : ~ exists e, e ∈ revisions /\ EqualRevision e new = true).
    { intros (e & Hr & He). apply last_None in Ee.
      assert (e ∈ FindEqualRevisions (SortControllerRevisions revisions) new) as Hx
        by (apply filterb_elem; by rewrite Hin).
      rewrite Ee in Hx. by apply not_elem_of_nil in Hx. }
    destruct (last (SortControllerRevisions revisions)); unfold call;
      (destruct (CreateControllerRevision ns name new c (w_server w)) as [s' [r c']] eqn:Ec; simpl;
       split; [eexists; split; [done|]; split; [simpl; lia|intros He; by destruct Hno]|];
       intros u ->; split; [by eapply create_data|intros He; by destruct Hno]).
Qed.

(** Deleting revisions: those before the first failure, and that one, in order. *)
Lemma delete_revisions_emits rs :
  emits (delete_revisions rs) (fun evs e => exists k,
    match e with
    | None => k = length rs /\ evs = map (fun r => EvDeleteRevision r true) rs
    | Some _ => exists r, rs !! k = Some r /\
        evs = map (fun r => EvDeleteRevision r true) (take k rs) ++ [EvDeleteRevision r false]
    end).
Proof.
  induction rs as [|r rs IH]; simpl; [apply emits_ret; by exists 0%nat|].
  eapply emits_bind with (P := fun evs e => evs = [EvDeleteRevision r (is_ok e)]); [by apply emits_call|].
  intros evs e ->. destruct e as [err|]; simpl.
  - apply emits_ret. exists 0%nat. eauto.
  - eapply emits_mono; [exact IH|]. intros evs' e' (k & Hk). destruct e' as [err|].
    + destruct Hk as (x & Hx & ->). exists (Datatypes.S k). eauto.
    + destruct Hk as [-> ->]. exists (Datatypes.S (length rs)). done.
Qed.

(** Truncating the history is safe and exact. Every revision it deletes is one that
    nothing uses, neither as the current nor the update revision nor by a pod; they are
    deleted from the oldest on, in the order of the history, up to the first failure;
    and when nothing fails exactly the historyLimit newest unused ones are left. *)
Theorem truncate_history_exact live historyLimit revisions (Hl : 0 <= historyLimit) :
  emits (truncate_history live historyLimit revisions) (fun evs e =>
    let unused := filterb (fun r => negb (live r)) revisions in
    (forall r ok, EvDeleteRevision r ok ∈ evs -> r ∈ revisions /\ live r = false) /\
    (exists kept deleted, unused = deleted ++ kept /\
      match e with
      | None => evs = map (fun r => EvDeleteRevision r true) deleted /\ len kept = Z.min (len unused) historyLimit
      | Some _ => exists l r, deleted = l ++ [r] /\ historyLimit <= len kept /\
          evs = map (fun r => EvDeleteRevision r true) l ++ [EvDeleteRevision r false]
      end)).
Proof.
  set (unused := filterb (fun r => negb (live r)) revisions).
  assert (Hun : forall r, r ∈ unused -> r ∈ revisions /\ live r = false).
  { intros r Hr. apply filterb_elem in Hr as [H1 H2]. split; [done|]. by apply negb_true_iff. }
  assert (Hmap : forall l r ok, EvDeleteRevision r ok ∈ map (fun r => EvDeleteRevision r true) l -> r ∈ l).
  { intros l r ok Hr. apply list_elem_of_fmap_1 in Hr as (y & [= -> _] & Hy). done. }
  unfold truncate_history. fold unused. destruct (len unused <=? historyLimit) eqn:E; zbool.
  - apply emits_ret. split; [intros r ok Hr; by apply not_elem_of_nil in Hr|].
    exists unused, []. split; [done|]. split; [done|lia].
  - set (n := Z.to_nat (len unused - historyLimit)).
    eapply emits_mono; [apply delete_revisions_emits|]. unfold slice_to. fold n.
    assert (Hsub : forall l k, l = take k (take n unused) -> forall r, r ∈ l -> r ∈ unused).
    { intros l k -> r Hr. eapply elem_of_submseteq; [exact Hr|]. rewrite take_take.
      apply sublist_submseteq, sublist_take. }
    intros evs [err|] (k & Hk).
    + destruct Hk as (r & Hr & ->). rewrite lookup_take_Some in Hr. destruct Hr as [Hr Hkn].
      assert (Hk : r ∈ unused) by (by eapply list_elem_of_lookup_2). split.
      * intros x ok Hx. apply Hun. apply elem_of_app in Hx as [Hx|Hx].
        { apply Hmap in Hx. eapply Hsub; [done|exact Hx]. }
        apply list_elem_of_singleton in Hx as [= -> _]. done.
      * exists (drop (Datatypes.S k) unused), (take (Datatypes.S k) unused). split; [by rewrite take_drop|].
        exists (take k unused), r. split; [by apply take_S_r|]. split.
        { rewrite length_drop. apply lookup_lt_Some in Hr. lia. }
        rewrite take_take. by replace (k `min` n)%nat with k by lia.
    + destruct Hk as [_ ->]. split.
      * intros x ok Hx. apply Hun. apply Hmap in Hx. apply (Hsub (take n unused) n); [|done].
        rewrite take_take. f_equal. lia.
      * exists (drop n unused), (take n unused). split; [by rewrite take_drop|]. split; [done|].
        rewrite length_drop. lia.
Qed.
End Revisions.

(** A server on which revisions can be deleted but those named in its state. *)
#[export] Instance ex_revisions : RevisionApi (gset string) := {|
  CreateControllerRevision := fun _ _ r c s => (s, (inr r, c));
  UpdateControllerRevision := fun r n s =>
    (s, inr (mkRevision (cr_name r) n (cr_labels r) (cr_data r) (cr_creation r) (cr_controller r)
           (cr_uid r) (cr_resourceVersion r) (cr_annotations r)));
  DeleteControllerRevision := fun r s => (s, if bool_decide (cr_name r ∈ s) then Some "denied"%string else None);
|}.
#[export] Instance ex_revisions_laws : RevisionLaws (gset string).
Proof.
  split; simpl; intros; simplify_eq; done.
Qed.

Definition ex_revision (name : string) (n : Z) : ControllerRevision := mkRevision name n ∅ name 0 None "" "" ∅.

Lemma truncate_history_exact_witness :
  let rs := [ex_revision "a" 1; ex_revision "b" 2; ex_revision "c" 3; ex_revision "d" 4] in
  let live r := String.eqb (cr_name r) "b" in
  let w' := (truncate_history live 1 rs (mkWorld ∅ ∅ ∅ ∅ no_local ∅ [])).1 in
  w_trace w' = [EvDeleteRevision (ex_revision "a" 1) true; EvDeleteRevision (ex_revision "c" 3) true] /\
  forall r ok, EvDeleteRevision r ok ∈ w_trace w' -> r ∈ rs /\ live r = false.
Proof.
  intros rs live w'. split; [vm_compute; reflexivity|].
  destruct (truncate_history_exact live 1 rs ltac:(lia) (mkWorld (∅ : gset string) ∅ ∅ ∅ no_local ∅ [])) as (evs & Ht & H & _).
  unfold w'. rewrite Ht. exact H.
Defined.
