(* ===== verification/StatefulSetUtils.v ===== *)
(** * The advanced StatefulSet: objects and helpers

    pkg/controller/statefulset/stateful_set_utils.go and stateful_update_utils.go:
    the names and ordinals of pods, their storage, the owner references of claims
    under a retention policy, the revision of a new pod, the order of an update,
    the status.  The types are those of apis/apps/v1beta1/statefulset_types.go.

    [Replicas], [RevisionHistoryLimit] and [Partition] are set by the defaulting
    webhook; the code dereferences them.  Names hold no newline. *)

From S2P Require Import Prelude GoLib GoText K8s Tools Lifecycle Selector UpdateSort World.
Open Scope Z_scope.
Open Scope kruise_scope.

(** ** Types *)

Record RollingUpdateStatefulSetStrategy := mkRU {
  ru_Partition : option Z;
  ru_MaxUnavailable : option IntOrString;
  ru_PodUpdatePolicy : string;
  ru_Paused : bool;
  (** [UnorderedUpdate], with its priority strategy. *)
  ru_UnorderedUpdate : option (option UpdatePriorityStrategy);
  (** The grace period of [InPlaceUpdateStrategy], when that is set. *)
  ru_GracePeriodSeconds : option Z;
  ru_MinReadySeconds : option Z;
}.

Record RetentionPolicy := mkRetention { WhenDeleted : string; WhenScaled : string }.

Record StatefulSetStatus := mkSStatus {
  st_ObservedGeneration : Z;
  st_Replicas : Z;
  st_ReadyReplicas : Z;
  st_AvailableReplicas : Z;
  st_CurrentReplicas : Z;
  st_UpdatedReplicas : Z;
  st_UpdatedReadyReplicas : Z;
  st_UpdatedAvailableReplicas : Z;
  st_CurrentRevision : string;
  st_UpdateRevision : string;
  st_CollisionCount : option Z;
  (** An apps/v1 StatefulSetCondition has the fields of a pod condition. *)
  st_Conditions : list PodCondition;
  st_LabelSelector : string;
}.

Record StatefulSet := mkSS {
  ss_typeMeta : TypeMeta;
  ss_name : string;
  ss_namespace : string;
  ss_uid : string;
  ss_generation : Z;
  ss_deletion : option Z;
  ss_annotations : gmap string string;
  sp_Replicas : Z;
  sp_Selector : option LabelSelector;
  sp_Template : PodTemplate;
  sp_VolumeClaimTemplates : list PersistentVolumeClaim;
  sp_ServiceName : string;
  sp_PodManagementPolicy : string;
  sp_UpdateType : string;
  sp_RollingUpdate : option RollingUpdateStatefulSetStrategy;
  sp_RevisionHistoryLimit : Z;
  sp_ReserveOrdinals : list Z;
  sp_Lifecycle : option LifecycleSpec;
  (** [ScaleStrategy.MaxUnavailable]. *)
  sp_ScaleMaxUnavailable : option IntOrString;
  sp_RetentionPolicy : option RetentionPolicy;
  ss_status : StatefulSetStatus;
}.

Definition with_template (s : StatefulSet) (t : PodTemplate) : StatefulSet :=
  mkSS (ss_typeMeta s) (ss_name s) (ss_namespace s) (ss_uid s) (ss_generation s) (ss_deletion s)
    (ss_annotations s) (sp_Replicas s) (sp_Selector s) t (sp_VolumeClaimTemplates s)
    (sp_ServiceName s) (sp_PodManagementPolicy s) (sp_UpdateType s) (sp_RollingUpdate s)
    (sp_RevisionHistoryLimit s) (sp_ReserveOrdinals s) (sp_Lifecycle s) (sp_ScaleMaxUnavailable s)
    (sp_RetentionPolicy s) (ss_status s).
Definition with_status (s : StatefulSet) (st : StatefulSetStatus) : StatefulSet :=
  mkSS (ss_typeMeta s) (ss_name s) (ss_namespace s) (ss_uid s) (ss_generation s) (ss_deletion s)
    (ss_annotations s) (sp_Replicas s) (sp_Selector s) (sp_Template s) (sp_VolumeClaimTemplates s)
    (sp_ServiceName s) (sp_PodManagementPolicy s) (sp_UpdateType s) (sp_RollingUpdate s)
    (sp_RevisionHistoryLimit s) (sp_ReserveOrdinals s) (sp_Lifecycle s) (sp_ScaleMaxUnavailable s)
    (sp_RetentionPolicy s) st.

Local Open Scope string_scope.
Definition StatefulSetPodNameLabel : string := "statefulset.kubernetes.io/pod-name".
Definition ParallelPodManagement : string := "Parallel".
Definition RollingUpdateStatefulSetStrategyType : string := "RollingUpdate".
Definition OnDeleteStatefulSetStrategyType : string := "OnDelete".
Definition InPlaceIfPossiblePodUpdateStrategyType : string := "InPlaceIfPossible".
Definition InPlaceOnlyPodUpdateStrategyType : string := "InPlaceOnly".
Definition Retain : string := "Retain".
Definition Delete : string := "Delete".
Definition FailedCreatePod : string := "FailedCreatePod".
Definition FailedUpdatePod : string := "FailedUpdatePod".
Local Close Scope string_scope.

(** ** Names and ordinals *)

(** [statefulPodRegex]: the last ["-"] splits the name, and only digits, one at
    least, follow it. *)
Definition getParentNameAndOrdinal (name : string) : string * Z :=
  let r := rev (chars name) in
  let ds := leading_digits r in
  match ds, drop (length ds) r with
  | _ :: _, c :: parent =>
      if Ascii.eqb c "-" then
        (of_chars (rev parent),
         match conv_ok (ParseInt (of_chars (rev ds)) 32) with Some i => i | None => -1 end)
      else (""%string, -1)
  | _, _ => (""%string, -1)
  end.

Definition getParentName (pod : Pod) : string := (getParentNameAndOrdinal (p_name pod)).1.
Definition getOrdinal (pod : Pod) : Z := (getParentNameAndOrdinal (p_name pod)).2.

Definition getPodName (set : StatefulSet) (ordinal : Z) : string :=
  ss_name set +:+ "-" +:+ Itoa ordinal.

Definition getPersistentVolumeClaimName (set : StatefulSet) (claim : PersistentVolumeClaim)
  (ordinal : Z) : string :=
  pvc_name claim +:+ "-" +:+ ss_name set +:+ "-" +:+ Itoa ordinal.

Definition isMemberOf (set : StatefulSet) (pod : Pod) : bool := String.eqb (getParentName pod) (ss_name set).

Definition identityMatches (set : StatefulSet) (pod : Pod) : bool :=
  let '(parent, ordinal) := getParentNameAndOrdinal (p_name pod) in
  (0 <=? ordinal) && String.eqb (ss_name set) parent
  && String.eqb (p_name pod) (getPodName set ordinal)
  && String.eqb (p_namespace pod) (ss_namespace set)
  && String.eqb (lbl (p_labels pod) StatefulSetPodNameLabel) (p_name pod).

(** ** Storage *)

(** The volumes by name; a later volume of the same name replaces an earlier one. *)
Definition volumes_by_name (vs : list Volume) : gmap string Volume :=
  fold_left (fun m v => <[vol_name v := v]> m) vs ∅.

Definition storageMatches (set : StatefulSet) (pod : Pod) : bool :=
  let ordinal := getOrdinal pod in
  if ordinal <? 0 then false
  else
    let volumes := volumes_by_name (p_volumes pod) in
    forallb (fun claim =>
      match volumes !! pvc_name claim with
      | None => false
      | Some v =>
          match vol_claim v with
          | None => false
          | Some n => String.eqb n (getPersistentVolumeClaimName set claim ordinal)
          end
      end) (sp_VolumeClaimTemplates set).

(** The claims by the name of their template. *)
Definition getPersistentVolumeClaims (set : StatefulSet) (pod : Pod) : gmap string PersistentVolumeClaim :=
  fold_left (fun claims t =>
    <[pvc_name t := mkPVC (getPersistentVolumeClaimName set t (getOrdinal pod)) (ss_namespace set)
        (match sp_Selector set with Some s => MatchLabels s | None => ∅ end)
        (pvc_owners t) (pvc_deletion t)]> claims)
    (sp_VolumeClaimTemplates set) ∅.

Definition updateStorage (set : StatefulSet) (pod : Pod) : Pod :=
  let claims := getPersistentVolumeClaims set pod in
  let newVolumes := map (fun kv => mkVolume kv.1 (Some (pvc_name kv.2))) (map_to_list claims) in
  with_volumes pod
    (newVolumes ++ filterb (fun v => negb (bool_decide (is_Some (claims !! vol_name v)))) (p_volumes pod)).

Definition updateIdentity (set : StatefulSet) (pod : Pod) : Pod :=
  let name := getPodName set (getOrdinal pod) in
  let pod := with_name pod name (ss_namespace set) in
  with_labels pod (<[StatefulSetPodNameLabel := name]> (p_labels pod)).

Definition initIdentity (set : StatefulSet) (pod : Pod) : Pod :=
  let pod := updateIdentity set pod in
  with_host pod (p_name pod) (sp_ServiceName set).

(** ** Owner references of claims *)

Definition getPersistentVolumeClaimRetentionPolicy (set : StatefulSet) : RetentionPolicy :=
  match sp_RetentionPolicy set with
  | Some p => p
  | None => mkRetention Retain Retain
  end.

Definition hasOwnerRef (target : PersistentVolumeClaim) (ownerUID : string) : bool :=
  existsb (fun r => String.eqb (or_uid r) ownerUID) (pvc_owners target).

Definition hasStaleOwnerRef (target : PersistentVolumeClaim) (ownerName ownerUID : string) : bool :=
  existsb (fun r => String.eqb (or_name r) ownerName && negb (String.eqb (or_uid r) ownerUID))
    (pvc_owners target).

Definition with_owners (c : PersistentVolumeClaim) (rs : list OwnerReference) : PersistentVolumeClaim :=
  mkPVC (pvc_name c) (pvc_namespace c) (pvc_labels c) rs (pvc_deletion c).

(** The results are whether the claim changed, and the claim. *)
Definition setOwnerRef (target : PersistentVolumeClaim) (ownerName ownerUID : string)
  (ownerType : TypeMeta) : bool * PersistentVolumeClaim :=
  if hasOwnerRef target ownerUID then (false, target)
  else (true, with_owners target
    (pvc_owners target ++ [mkOwner (tm_APIVersion ownerType) (tm_Kind ownerType) ownerName ownerUID false])).

Definition zero_owner : OwnerReference := mkOwner "" "" "" "" false.

(** The loop writes [newRefs[i+skip]] into a slice of zero references that is one
    shorter than the old one; a write out of range, at which Go panics, does not
    occur since [skip] is [-1] before the last index is written. *)
Fixpoint remove_loop (uid : string) (i : nat) (skipped : bool) (oldRefs newRefs : list OwnerReference)
  : list OwnerReference :=
  match oldRefs with
  | [] => newRefs
  | r :: rest =>
      if String.eqb (or_uid r) uid then remove_loop uid (S i) true rest newRefs
      else remove_loop uid (S i) skipped rest
             (<[ (if skipped then i - 1 else i)%nat := r ]> newRefs)
  end.
Definition removeOwnerRef (target : PersistentVolumeClaim) (ownerUID : string)
  : bool * PersistentVolumeClaim :=
  if negb (hasOwnerRef target ownerUID) then (false, target)
  else
    let oldRefs := pvc_owners target in
    (true, with_owners target
       (remove_loop ownerUID 0 false oldRefs (replicate (length oldRefs - 1) zero_owner))).

(** ** The ordinals of a set *)

(** The loop of [getStatefulSetReplicasRange]. *)
Fixpoint range_loop (fuel : nat) (reserveOrdinals : gset Z) (replicas realReplicaCount replicaCount : Z) : Z :=
  match fuel with
  | O => replicaCount
  | S fuel' =>
      if realReplicaCount <? replicas then
        if bool_decide (replicaCount ∈ reserveOrdinals)
        then range_loop fuel' reserveOrdinals replicas realReplicaCount (replicaCount + 1)
        else range_loop fuel' reserveOrdinals replicas (realReplicaCount + 1) (replicaCount + 1)
      else replicaCount
  end.

Definition getStatefulSetReplicasRange (set : StatefulSet) : Z * gset Z :=
  let reserveOrdinals : gset Z := list_to_set (sp_ReserveOrdinals set) in
  (range_loop (Z.to_nat (sp_Replicas set) + size reserveOrdinals) reserveOrdinals (sp_Replicas set) 0 0,
   reserveOrdinals).

(** [ord >= replicaCount || reserveOrdinals.Has(ord)]. *)
Definition podScaledDown (set : StatefulSet) (ord : Z) : bool :=
  let '(replicaCount, reserveOrdinals) := getStatefulSetReplicasRange set in
  (replicaCount <=? ord) || bool_decide (ord ∈ reserveOrdinals).

(** The cases of the two switches; an unknown policy is treated as Retain. *)
Inductive PolicyCase := RetainRetain | RetainDelete | DeleteRetain | DeleteDelete.
Definition policy_case (p : RetentionPolicy) : PolicyCase :=
  if String.eqb (WhenScaled p) Retain && String.eqb (WhenDeleted p) Retain then RetainRetain
  else if String.eqb (WhenScaled p) Retain && String.eqb (WhenDeleted p) Delete then RetainDelete
  else if String.eqb (WhenScaled p) Delete && String.eqb (WhenDeleted p) Retain then DeleteRetain
  else if String.eqb (WhenScaled p) Delete && String.eqb (WhenDeleted p) Delete then DeleteDelete
  else RetainRetain.

Definition claimOwnerMatchesSetAndPod (claim : PersistentVolumeClaim) (set : StatefulSet) (pod : Pod) : bool :=
  let setRef := hasOwnerRef claim (ss_uid set) in
  let podRef := hasOwnerRef claim (p_uid pod) in
  let scaledDown := podScaledDown set (getOrdinal pod) in
  match policy_case (getPersistentVolumeClaimRetentionPolicy set) with
  | RetainRetain => if setRef || podRef then false else true
  | RetainDelete => if negb setRef || podRef then false else true
  | DeleteRetain =>
      if setRef then false
      else if negb (Bool.eqb scaledDown podRef) then false else true
  | DeleteDelete =>
      if Bool.eqb scaledDown setRef then false
      else if negb (Bool.eqb scaledDown podRef) then false else true
  end.

Definition updateMeta (tm : TypeMeta) (kind : string) : TypeMeta :=
  mkTypeMeta
    (if String.eqb (tm_APIVersion tm) "" then
       if String.eqb kind "StatefulSet" then "apps.kruise.io/v1beta1"%string else "v1"%string
     else tm_APIVersion tm)
    (if String.eqb (tm_Kind tm) "" then kind else tm_Kind tm).

(** The pods of the cache have an empty [TypeMeta]. *)
Definition pod_typeMeta (pod : Pod) : TypeMeta := mkTypeMeta "" "".

(** Whether the claim changed, and the claim. *)
Definition updateClaimOwnerRefForSetAndPod (claim : PersistentVolumeClaim) (set : StatefulSet) (pod : Pod)
  : bool * PersistentVolumeClaim :=
  let podMeta := updateMeta (pod_typeMeta pod) "Pod" in
  let setMeta := updateMeta (ss_typeMeta set) "StatefulSet" in
  let scaledDown := podScaledDown set (getOrdinal pod) in
  let addSet c := setOwnerRef c (ss_name set) (ss_uid set) setMeta in
  let addPod c := setOwnerRef c (p_name pod) (p_uid pod) podMeta in
  let dropSet c := removeOwnerRef c (ss_uid set) in
  let dropPod c := removeOwnerRef c (p_uid pod) in
  let both f g := let '(b1, c1) := f claim in let '(b2, c2) := g c1 in (b2 || b1, c2) in
  match policy_case (getPersistentVolumeClaimRetentionPolicy set) with
  | RetainRetain => both dropSet dropPod
  | RetainDelete => both addSet dropPod
  | DeleteRetain => if scaledDown then both dropSet addPod else both dropSet dropPod
  | DeleteDelete => if scaledDown then both dropSet addPod else both addSet dropPod
  end.

(** ** The state of a pod *)

(** Whether it is available, and otherwise the time to wait. *)
Definition isRunningAndAvailable (now : Z) (pod : Pod) (minReadySeconds : Z) : bool * Z :=
  if negb (String.eqb (p_phase pod) PodRunning) || negb (IsPodReady pod) then (false, 0)
  else
    let minReadySecondsDuration := minReadySeconds * second in
    if minReadySeconds =? 0 then (true, 0)
    else
      match GetPodReadyCondition pod with
      | None => (false, 0)
      | Some c =>
          if c_lastTransition c =? 0 then (false, minReadySecondsDuration)
          else
            let waitTime := c_lastTransition c + minReadySecondsDuration - now in
            if 0 <? waitTime then (false, waitTime) else (true, 0)
      end.

Definition isRunningAndReady (pod : Pod) : bool := String.eqb (p_phase pod) PodRunning && IsPodReady pod.
Definition isCreated (pod : Pod) : bool := negb (String.eqb (p_phase pod) "").
Definition isFailed (pod : Pod) : bool := String.eqb (p_phase pod) PodFailed.
Definition isTerminating (pod : Pod) : bool := match p_deletion pod with Some _ => true | None => false end.

Definition isHealthy (pod : Pod) : bool :=
  let state := Hooks.GetPodLifecycleState pod in
  if negb (String.eqb state "") && negb (String.eqb state LifecycleStateNormal) then false
  else isRunningAndReady pod && negb (isTerminating pod).

Definition allowsBurst (set : StatefulSet) : bool :=
  String.eqb (sp_PodManagementPolicy set) ParallelPodManagement.

Definition getMinReadySeconds (set : StatefulSet) : Z :=
  match sp_RollingUpdate set with
  | Some ru => default 0 (ru_MinReadySeconds ru)
  | None => 0
  end.

(** ** Revisions *)

Definition setPodRevision (pod : Pod) (revision : string) : Pod :=
  with_labels pod (<[ControllerRevisionHashLabelKey := revision]> (p_labels pod)).
Definition getPodRevision (pod : Pod) : string := lbl (p_labels pod) ControllerRevisionHashLabelKey.

(** [metav1.NewControllerRef(set, controllerKind)]. *)
Definition controllerRef (set : StatefulSet) : OwnerReference :=
  mkOwner "apps.kruise.io/v1beta1" "StatefulSet" (ss_name set) (ss_uid set) true.

Definition newStatefulSetPod (set : StatefulSet) (ordinal : Z) : Pod :=
  let pod := GetPodFromTemplate (sp_Template set) (controllerRef set) in
  let pod := with_name pod (getPodName set ordinal) (p_namespace pod) in
  updateStorage set (initIdentity set pod).

(** [gate] is PreparingUpdateAsUpdate. *)
Definition isCurrentRevisionNeeded (gate : bool) (set : StatefulSet) (updateRevision : string)
  (ordinal : Z) (replicas : list (option Pod)) : bool :=
  if negb (String.eqb (sp_UpdateType set) RollingUpdateStatefulSetStrategyType) then false
  else
    match sp_RollingUpdate set with
    | None => ordinal <? st_CurrentReplicas (ss_status set)
    | Some ru =>
        match ru_UnorderedUpdate ru with
        | None => ordinal <? default 0 (ru_Partition ru)
        | Some _ =>
            let noUpdatedReplicas :=
              sumZ (fun ip => match ip with
                | (_, None) => 0
                | (i, Some pod) =>
                    if (Z.of_nat i =? ordinal) || Revision.IsPodUpdate gate pod updateRevision then 0 else 1
                end) (imap pair replicas) in
            noUpdatedReplicas <? default 0 (ru_Partition ru)
        end
    end.

Definition newVersionedStatefulSetPod (gate : bool) (currentSet updateSet : StatefulSet)
  (currentRevision updateRevision : string) (ordinal : Z) (replicas : list (option Pod)) : Pod :=
  if isCurrentRevisionNeeded gate currentSet updateRevision ordinal replicas
  then setPodRevision (newStatefulSetPod currentSet ordinal) currentRevision
  else setPodRevision (newStatefulSetPod updateSet ordinal) updateRevision.

Definition nextRevision (revisions : list ControllerRevision) : Z :=
  match last revisions with
  | None => 1
  | Some r => wrap64 (cr_revision r + 1)
  end.

(** ** The status *)

Definition inconsistentStatus (set : StatefulSet) (status : StatefulSetStatus) : bool :=
  let old := ss_status set in
  (st_ObservedGeneration old <? st_ObservedGeneration status)
  || negb (st_Replicas status =? st_Replicas old)
  || negb (st_CurrentReplicas status =? st_CurrentReplicas old)
  || negb (st_ReadyReplicas status =? st_ReadyReplicas old)
  || negb (st_AvailableReplicas status =? st_AvailableReplicas old)
  || negb (st_UpdatedReplicas status =? st_UpdatedReplicas old)
  || negb (String.eqb (st_CurrentRevision status) (st_CurrentRevision old))
  || negb (String.eqb (st_UpdateRevision status) (st_UpdateRevision old))
  || negb (String.eqb (st_LabelSelector status) (st_LabelSelector old)).

Definition completeRollingUpdate (set : StatefulSet) (s : StatefulSetStatus) : StatefulSetStatus :=
  if String.eqb (sp_UpdateType set) RollingUpdateStatefulSetStrategyType
     && (st_UpdatedReplicas s =? st_Replicas s) && (st_ReadyReplicas s =? st_Replicas s)
  then mkSStatus (st_ObservedGeneration s) (st_Replicas s) (st_ReadyReplicas s) (st_AvailableReplicas s)
         (st_UpdatedReplicas s) (st_UpdatedReplicas s) (st_UpdatedReadyReplicas s)
         (st_UpdatedAvailableReplicas s) (st_UpdateRevision s) (st_UpdateRevision s)
         (st_CollisionCount s) (st_Conditions s) (st_LabelSelector s)
  else s.

(** [ascendingOrdinal.Less]. *)
Definition ascendingOrdinal (a b : Pod) : bool := getOrdinal a <? getOrdinal b.

Definition NewStatefulsetCondition (now : Z) (t status reason msg : string) : PodCondition :=
  mkCond t status now reason msg.
Definition GetStatefulsetConditition (s : StatefulSetStatus) (t : string) : option PodCondition :=
  find_condition (st_Conditions s) t.
Definition filterOutCondition (cs : list PodCondition) (t : string) : list PodCondition :=
  filterb (fun c => negb (String.eqb (c_type c) t)) cs.
Definition with_st_conditions (s : StatefulSetStatus) (cs : list PodCondition) : StatefulSetStatus :=
  mkSStatus (st_ObservedGeneration s) (st_Replicas s) (st_ReadyReplicas s) (st_AvailableReplicas s)
    (st_CurrentReplicas s) (st_UpdatedReplicas s) (st_UpdatedReadyReplicas s)
    (st_UpdatedAvailableReplicas s) (st_CurrentRevision s) (st_UpdateRevision s)
    (st_CollisionCount s) cs (st_LabelSelector s).
Definition SetStatefulsetCondition (s : StatefulSetStatus) (c : PodCondition) : StatefulSetStatus :=
  let currentCond := GetStatefulsetConditition s (c_type c) in
  match currentCond with
  | Some cur =>
      if String.eqb (c_status cur) (c_status c) && String.eqb (c_reason cur) (c_reason c) then s
      else
        let c := if String.eqb (c_status cur) (c_status c)
                 then mkCond (c_type c) (c_status c) (c_lastTransition cur) (c_reason c) (c_message c)
                 else c in
        with_st_conditions s (filterOutCondition (st_Conditions s) (c_type c) ++ [c])
  | None => with_st_conditions s (filterOutCondition (st_Conditions s) (c_type c) ++ [c])
  end.

Definition getStatefulSetKey (namespace name : string) : string := namespace +:+ "/" +:+ name.

(** The pointer's new value, and the answer. *)
Definition decreaseAndCheckMaxUnavailable (maxUnavailable : option Z) : option Z * bool :=
  match maxUnavailable with
  | None => (None, false)
  | Some m => (Some (m - 1), m - 1 <=? 0)
  end.

(** ** The order of an update *)

(** [for target := len(replicas) - 1; target >= 0; target--] over the slots in use. *)
Fixpoint slots (i : nat) (replicas : list (option Pod)) : list (nat * Pod) :=
  match replicas with
  | [] => []
  | None :: rest => slots (S i) rest
  | Some p :: rest => (i, p) :: slots (S i) rest
  end.

(** The pods of the slots, for the sorter, which looks at slots in use only. *)
Definition slot_pods (replicas : list (option Pod)) : list Pod := map (default (named_pod "")) replicas.

Definition sortPodsToUpdate (gate : bool) (strategy : option RollingUpdateStatefulSetStrategy)
  (updateRevision : string) (totalReplicas : Z) (replicas : list (option Pod)) : list nat :=
  let updateMin := match strategy with
                   | Some ru => default 0 (ru_Partition ru)
                   | None => 0
                   end in
  let downwards := rev (slots 0 replicas) in
  let unordered := match strategy with Some ru => ru_UnorderedUpdate ru | None => None end in
  match unordered with
  | None => map fst (filterb (fun ip => updateMin <=? Z.of_nat ip.1) downwards)
  | Some priorityStrategy =>
      let maxUpdate := totalReplicas - updateMin in
      if maxUpdate <=? 0 then []
      else
        let done ip := isTerminating ip.2 || Revision.IsPodUpdate gate ip.2 updateRevision in
        let updatedIdxs := map fst (filterb done downwards) in
        let waitUpdateIdxs := map fst (filterb (fun ip => negb (done ip)) downwards) in
        let waitUpdateIdxs :=
          match priorityStrategy with
          | Some s => Priority.Sort (Some s) (slot_pods replicas) waitUpdateIdxs
          | None => waitUpdateIdxs
          end in
        let allIdxs := updatedIdxs ++ waitUpdateIdxs in
        if maxUpdate <? len allIdxs then slice_to allIdxs maxUpdate else allIdxs
  end.

(** ** Names and identities *)

Lemma chars_app a b : chars (a +:+ b) = chars a ++ chars b.
Proof. induction a as [|c a IH]; [done|]. change (c :: chars (a +:+ b) = c :: (chars a ++ chars b)). by rewrite IH. Qed.

Lemma ordinal_of_name name i : 0 <= i < 2 ^ 31 ->
  getParentNameAndOrdinal (name +:+ "-" +:+ Itoa i) = (name, i).
Proof.
  intros Hi. unfold getParentNameAndOrdinal.
  rewrite !chars_app, Itoa_nonneg, chars_of_chars by lia.
  change (chars "-") with ["-"%char]. rewrite !rev_app_distr, <-app_assoc.
  pose proof (digits_of_digits i ltac:(lia)) as Hd. pose proof (digits_of_ne i) as Hne.
  cbn [rev app]. rewrite leading_digits_app; [|by apply Forall_rev|done].
  destruct (rev (digits_of i)) as [|c l] eqn:E.
  { exfalso. apply Hne. rewrite <-(rev_involutive (digits_of i)), E. done. }
  rewrite <-E, drop_app_length. simpl.
  rewrite !rev_involutive, of_chars_chars, parse_digits_of by lia. done.
Qed.

Lemma ordinal_of_pod_name set i : 0 <= i < 2 ^ 31 ->
  getParentNameAndOrdinal (getPodName set i) = (ss_name set, i).
Proof. apply ordinal_of_name. Qed.

Lemma volumes_fold_other vs (m : gmap string Volume) n : (forall v, v ∈ vs -> vol_name v <> n) ->
  fold_left (fun m v => <[vol_name v := v]> m) vs m !! n = m !! n.
Proof.
  revert m. induction vs as [|v vs IH]; intros m H; simpl; [done|].
  rewrite IH; [|intros; apply H; by right]. apply lookup_insert_ne, H. left.
Qed.

Lemma volumes_fold_in vs (m : gmap string Volume) v : NoDup (map vol_name vs) -> v ∈ vs ->
  fold_left (fun m v => <[vol_name v := v]> m) vs m !! vol_name v = Some v.
Proof.
  revert m. induction vs as [|u vs IH]; intros m Hnd Hv; [by apply not_elem_of_nil in Hv|].
  simpl in *. apply NoDup_cons in Hnd as [Hu Hnd]. apply elem_of_cons in Hv as [->|Hv]; [|by apply IH].
  rewrite volumes_fold_other; [by rewrite lookup_insert_eq|].
  intros w Hw E. apply Hu. rewrite <-E. by apply list_elem_of_fmap_2.
Qed.

Lemma claims_lookup set pod t : t ∈ sp_VolumeClaimTemplates set ->
  exists c, getPersistentVolumeClaims set pod !! pvc_name t = Some c /\
    pvc_name c = getPersistentVolumeClaimName set t (getOrdinal pod).
Proof.
  unfold getPersistentVolumeClaims. generalize (∅ : gmap string PersistentVolumeClaim).
  induction (sp_VolumeClaimTemplates set) as [|u us IH] using rev_ind; intros m Ht.
  { by apply not_elem_of_nil in Ht. }
  rewrite fold_left_app. cbn [fold_left].
  destruct (decide (pvc_name u = pvc_name t)) as [E|E].
  - rewrite E, lookup_insert_eq. eexists. split; [done|].
    unfold getPersistentVolumeClaimName. cbn [pvc_name]. by rewrite E.
  - rewrite lookup_insert_ne by done. apply elem_of_app in Ht as [Ht|Ht]; [by apply IH|].
    apply list_elem_of_singleton in Ht as ->. done.
Qed.

(** After [updateStorage] the volumes cover the claims. *)
Lemma updateStorage_matches set pod : 0 <= getOrdinal pod -> storageMatches set (updateStorage set pod) = true.
Proof.
  intros Ho. unfold storageMatches. change (getOrdinal (updateStorage set pod)) with (getOrdinal pod).
  rewrite (proj2 (Z.ltb_ge _ _)) by done. apply forallb_forall. intros t Ht.
  apply list_elem_of_In in Ht. destruct (claims_lookup set pod t Ht) as (c & Hc & Hn).
  unfold volumes_by_name, updateStorage. cbn [p_volumes with_volumes].
  rewrite fold_left_app, volumes_fold_other.
  - set (v := mkVolume (pvc_name t) (Some (pvc_name c))).
    change (pvc_name t) with (vol_name v) at 1. rewrite (volumes_fold_in _ _ v).
    + simpl. rewrite Hn. apply String.eqb_refl.
    + rewrite map_map. simpl. apply NoDup_fst_map_to_list.
    + apply list_elem_of_In, in_map_iff. exists (pvc_name t, c). split; [done|].
      by apply list_elem_of_In, elem_of_map_to_list.
  - intros v Hv E. apply filterb_elem in Hv as [_ Hv]. rewrite E in Hv.
    rewrite bool_decide_true in Hv; [done|]. by rewrite Hc.
Qed.

(** After [updateIdentity] the identity is right. *)
Lemma updateIdentity_matches set pod : 0 <= getOrdinal pod < 2 ^ 31 ->
  identityMatches set (updateIdentity set pod) = true /\ getOrdinal (updateIdentity set pod) = getOrdinal pod.
Proof.
  intros Ho. pose proof (ordinal_of_pod_name set _ Ho) as Hr. split.
  - unfold identityMatches. cbn [p_name updateIdentity with_labels with_name]. rewrite Hr.
    unfold lbl. simpl. rewrite lookup_insert_eq. simpl. rewrite !String.eqb_refl.
    rewrite (proj2 (Z.leb_le _ _)) by lia. done.
  - unfold getOrdinal at 1. cbn [p_name updateIdentity with_labels with_name]. by rewrite Hr.
Qed.

(** A new pod passes both checks. *)
Lemma newStatefulSetPod_matches set i : 0 <= i < 2 ^ 31 ->
  let pod := newStatefulSetPod set i in
  getOrdinal pod = i /\ identityMatches set pod = true /\ storageMatches set pod = true.
Proof.
  intros Hi. pose proof (ordinal_of_pod_name set i Hi) as Hr.
  set (pod0 := with_name (GetPodFromTemplate (sp_Template set) (controllerRef set)) (getPodName set i) "").
  assert (H0 : getOrdinal pod0 = i) by (unfold getOrdinal; simpl; by rewrite Hr).
  destruct (updateIdentity_matches set pod0) as [H1 H2]; [lia|]. rewrite H0 in H2.
  cbv zeta. split; [exact H2|]. split; [exact H1|]. apply updateStorage_matches.
  change (0 <= getOrdinal (updateIdentity set pod0)). lia.
Qed.

(** What the two checks look at. *)
Lemma identityMatches_ext set a b :
  p_name a = p_name b -> p_namespace a = p_namespace b ->
  lbl (p_labels a) StatefulSetPodNameLabel = lbl (p_labels b) StatefulSetPodNameLabel ->
  identityMatches set a = identityMatches set b.
Proof. intros E1 E2 E3. unfold identityMatches. by rewrite E1, E2, E3. Qed.
Lemma storageMatches_ext set a b :
  p_name a = p_name b -> p_volumes a = p_volumes b -> storageMatches set a = storageMatches set b.
Proof. intros E1 E2. unfold storageMatches, getOrdinal. by rewrite E1, E2. Qed.

(** The names of pods are a round trip: from the name of the pod of an ordinal
    the code reads back the name of the set and the ordinal; so names of different
    ordinals differ, and a new pod, as well as a pod whose identity and storage were
    updated, passes both checks for a member of the set. *)
Theorem pod_identity_roundtrip set i (Hi : 0 <= i < 2 ^ 31) :
  getParentNameAndOrdinal (getPodName set i) = (ss_name set, i) /\
  (forall j, 0 <= j < 2 ^ 31 -> getPodName set i = getPodName set j -> i = j) /\
  (let pod := newStatefulSetPod set i in
   getOrdinal pod = i /\ isMemberOf set pod = true /\ isCreated pod = false /\
   identityMatches set pod = true /\ storageMatches set pod = true) /\
  (forall pod, getOrdinal pod = i ->
   let pod' := updateStorage set (updateIdentity set pod) in
   getOrdinal pod' = i /\ identityMatches set pod' = true /\ storageMatches set pod' = true).
Proof.
  assert (Hup : forall pod, getOrdinal pod = i ->
    let pod' := updateStorage set (updateIdentity set pod) in
    getOrdinal pod' = i /\ identityMatches set pod' = true /\ storageMatches set pod' = true).
  { intros pod Hp pod'. destruct (updateIdentity_matches set pod) as [H1 H2]; [lia|].
    rewrite <-Hp. split; [done|]. split; [done|]. apply updateStorage_matches. lia. }
  pose proof (ordinal_of_pod_name set i Hi) as Hr.
  split; [done|]. split; [|split; [|done]].
  - intros j Hj E. pose proof (ordinal_of_pod_name set j Hj) as Hr'. congruence.
  - destruct (newStatefulSetPod_matches set i Hi) as (H1 & H2 & H3).
    cbv zeta. split; [done|]. split; [|done].
    unfold isMemberOf, getParentName. cbn. unfold getOrdinal. cbn. rewrite Hr. cbn. rewrite Hr. apply String.eqb_refl.
Qed.

(** ** The ordinals of a set *)

Definition unreserved (R : gset Z) (z : Z) : bool := negb (bool_decide (z ∈ R)).

Lemma seqZ_cons_pos c n : 0 < n -> seqZ c n = c :: seqZ (c + 1) (n - 1).
Proof. intros. rewrite seqZ_cons by lia. do 2 f_equal; lia. Qed.

(** The reserved ordinals still ahead of the loop. *)
Definition ahead (R : gset Z) (c : Z) : gset Z := filter (fun z => c <= z) R.

Lemma ahead_next R c : c ∈ R -> (size (ahead R c) = S (size (ahead R (c + 1))))%nat.
Proof.
  intros Hc. assert (ahead R c = {[c]} ∪ ahead R (c + 1)) as ->.
  { apply set_eq. intros z. unfold ahead. rewrite elem_of_union, elem_of_singleton, !elem_of_filter.
    split; [intros [? ?]; destruct (decide (z = c)); [auto|right; split; [lia|done]]|].
    intros [->|[? ?]]; (split; [lia|done]). }
  rewrite size_union, size_singleton; [lia|]. intros z Hz Ha. apply elem_of_singleton in Hz as ->.
  unfold ahead in *. apply elem_of_filter in Ha. lia.
Qed.

Lemma ahead_mono R c : (size (ahead R (c + 1)) <= size (ahead R c))%nat.
Proof. apply subseteq_size. intros z. unfold ahead. rewrite !elem_of_filter. intros [? ?]. split; [lia|done]. Qed.

Lemma range_loop_spec fuel R n real c :
  Z.max 0 (n - real) + Z.of_nat (size (ahead R c)) <= Z.of_nat fuel ->
  let k := range_loop fuel R n real c in
  c <= k /\ countb (unreserved R) (seqZ c (k - c)) = Z.max 0 (n - real) /\ (k = c \/ k - 1 ∉ R).
Proof.
  revert real c. induction fuel as [|fuel IH]; intros real c Hf; cbn [range_loop].
  - cbv zeta. rewrite Z.sub_diag. simpl. lia.
  - destruct (real <? n) eqn:E; zbool.
    2:{ cbv zeta. rewrite Z.sub_diag. simpl. lia. }
    case_bool_decide as Hc.
    + pose proof (ahead_next R c Hc). destruct (IH real (c + 1)) as (H1 & H2 & H3); [lia|].
      cbv zeta in *. set (k := range_loop fuel R n real (c + 1)) in *.
      split; [lia|]. split.
      * rewrite seqZ_cons_pos by lia. cbn [countb]. unfold unreserved at 1.
        rewrite bool_decide_true by done. simpl. replace (k - c - 1) with (k - (c + 1)) by lia. lia.
      * destruct H3 as [H3|H3]; [|auto]. rewrite H3, Z.sub_diag in H2. simpl in H2. lia.
    + pose proof (ahead_mono R c). destruct (IH (real + 1) (c + 1)) as (H1 & H2 & H3); [lia|].
      cbv zeta in *. set (k := range_loop fuel R n (real + 1) (c + 1)) in *.
      split; [lia|]. split.
      * rewrite seqZ_cons_pos by lia. cbn [countb]. unfold unreserved at 1.
        rewrite bool_decide_false by done. simpl. replace (k - c - 1) with (k - (c + 1)) by lia. lia.
      * destruct H3 as [H3|H3]; [|auto]. right. replace (k - 1) with c by lia. done.
Qed.

(** The range of a set: its bound and the ordinals reserved. *)
Lemma replicas_range_spec set : 0 <= sp_Replicas set ->
  let '(replicaCount, R) := getStatefulSetReplicasRange set in
  0 <= replicaCount /\
  countb (unreserved R) (seqZ 0 replicaCount) = sp_Replicas set /\
  (replicaCount = 0 \/ replicaCount - 1 ∉ R) /\
  (forall z, z ∈ R <-> z ∈ sp_ReserveOrdinals set).
Proof.
  intros Hn. unfold getStatefulSetReplicasRange.
  set (R := list_to_set (sp_ReserveOrdinals set) : gset Z).
  destruct (range_loop_spec (Z.to_nat (sp_Replicas set) + size R) R (sp_Replicas set) 0 0) as (H1 & H2 & H3).
  { assert (size (ahead R 0) <= size R)%nat; [|lia]. apply subseteq_size. intros z. unfold ahead.
    rewrite elem_of_filter. tauto. }
  cbv zeta in *. rewrite Z.sub_0_r in H2. split; [done|]. split; [lia|]. split; [done|].
  intros z. unfold R. apply elem_of_list_to_set.
Qed.

Lemma unreserved_between R lo hi :
  0 <= lo <= hi ->
  countb (unreserved R) (seqZ 0 hi) = countb (unreserved R) (seqZ 0 lo) + countb (unreserved R) (seqZ lo (hi - lo)).
Proof.
  intros H. replace hi with (lo + (hi - lo)) at 1 by lia. rewrite seqZ_app by lia.
  by rewrite countb_app, Z.add_0_l.
Qed.

(** The pods a StatefulSet wants are those of the smallest ordinals that are not
    reserved, and there are exactly spec.replicas of them: the loop ends, an ordinal
    that is not reserved is in the range exactly when fewer than spec.replicas
    unreserved ordinals precede it, and the range holds spec.replicas of them. *)
Theorem replicas_range_exact set (Hn : 0 <= sp_Replicas set) :
  let '(replicaCount, reserveOrdinals) := getStatefulSetReplicasRange set in
  countb (unreserved reserveOrdinals) (seqZ 0 replicaCount) = sp_Replicas set /\
  (forall ord, 0 <= ord -> ord ∉ sp_ReserveOrdinals set ->
    ord < replicaCount <-> countb (unreserved reserveOrdinals) (seqZ 0 ord) < sp_Replicas set) /\
  (forall ord, 0 <= ord ->
    podScaledDown set ord = false <-> ord < replicaCount /\ ord ∉ sp_ReserveOrdinals set).
Proof.
  unfold podScaledDown. pose proof (replicas_range_spec set Hn) as H.
  destruct (getStatefulSetReplicasRange set) as [k R]. destruct H as (H0 & H1 & H2 & H3).
  split; [done|]. split.
  - intros ord Ho Hr. rewrite <-H3 in Hr. split; intros Hlt.
    + rewrite <-H1, (unreserved_between R ord k), (seqZ_cons_pos ord) by (lia || done). cbn [countb].
      unfold unreserved at 3. rewrite bool_decide_false by done. simpl.
      pose proof (countb_nonneg (unreserved R) (seqZ (ord + 1) (k - ord - 1))). lia.
    + destruct (decide (ord < k)) as [|Hge]; [done|]. exfalso.
      rewrite (unreserved_between R k ord) in Hlt by (lia || done).
      pose proof (countb_nonneg (unreserved R) (seqZ k (ord - k))). lia.
  - intros ord Ho. rewrite orb_false_iff, Z.leb_gt, bool_decide_eq_false, H3. tauto.
Qed.

(** ** A StatefulSet for the examples *)

Definition ex_status : StatefulSetStatus := mkSStatus 1 0 0 0 0 0 0 0 "web-1" "web-2" None [] "".
Definition ex_template : PodTemplate := mkTemplate ∅ ∅ [] [] [mkVolume "tmp" None] [] "" no_placement.
Definition ex_claim : PersistentVolumeClaim := mkPVC "data" "" ∅ [] None.
Definition ex_set (policy : string) (replicas : Z) (reserved : list Z) (ru : option RollingUpdateStatefulSetStrategy)
  : StatefulSet :=
  mkSS (mkTypeMeta "" "") "web" "default" "u1" 1 None ∅ replicas (Some (mkSel ∅ [])) ex_template
    [ex_claim] "svc" policy RollingUpdateStatefulSetStrategyType ru 10 reserved None None
    (Some (mkRetention Delete Delete)) ex_status.

Lemma pod_identity_roundtrip_witness :
  let set := ex_set "OrderedReady" 3 [1] None in
  p_name (newStatefulSetPod set 12) = "web-12"%string /\
  getOrdinal (newStatefulSetPod set 12) = 12 /\
  p_volumes (newStatefulSetPod set 12) = [mkVolume "data" (Some "data-web-12"%string); mkVolume "tmp" None].
Proof.
  intros set. destruct (pod_identity_roundtrip set 12 ltac:(lia)) as (_ & _ & (H & _) & _).
  split; [vm_compute; reflexivity|]. split; [exact H|]. vm_compute. reflexivity.
Defined.

(** Replicas 4 with 1 and 3 reserved, as in the comment of the code: the range is 6. *)
Lemma replicas_range_exact_witness :
  let set := ex_set "OrderedReady" 4 [1; 3] None in
  (getStatefulSetReplicasRange set).1 = 6 /\
  countb (unreserved (getStatefulSetReplicasRange set).2) (seqZ 0 6) = 4.
Proof.
  intros set. pose proof (replicas_range_exact set ltac:(vm_compute; discriminate)) as H.
  destruct (getStatefulSetReplicasRange set) as [k R] eqn:E.
  assert (k = 6) as -> by (vm_compute in E; congruence). destruct H as [H _]. split; [done|exact H].
Defined.

(** ** Owner references *)

Definition refs_to (uid : string) (r : OwnerReference) : bool := String.eqb (or_uid r) uid.

Lemma hasOwnerRef_refs c uid : hasOwnerRef c uid = existsb (refs_to uid) (pvc_owners c).
Proof. done. Qed.

Lemma existsb_refs_elem uid rs : existsb (refs_to uid) rs = true <-> uid ∈ map or_uid rs.
Proof.
  rewrite existsb_exists, list_elem_of_In, in_map_iff. unfold refs_to.
  split; intros (r & H1 & H2); exists r; [apply String.eqb_eq in H2|]; split; auto.
  by apply String.eqb_eq.
Qed.

Lemma remove_loop_after uid i rest pre zs :
  uid ∉ map or_uid rest -> length pre = (i - 1)%nat -> length zs = length rest -> (1 <= i)%nat ->
  remove_loop uid i true rest (pre ++ zs) = pre ++ rest.
Proof.
  revert i pre zs. induction rest as [|r rest IH]; intros i pre zs Hu Hp Hz Hi; simpl in *.
  - by rewrite (nil_length_inv zs Hz).
  - destruct zs as [|z zs]; [done|]. simpl in Hz. rewrite not_elem_of_cons in Hu. destruct Hu as [Hr Hu].
    destruct (String.eqb_spec (or_uid r) uid) as [E|E]; [congruence|].
    replace (i - 1)%nat with (length pre + 0)%nat by lia. rewrite insert_app_r. simpl.
    rewrite (cons_middle r pre zs), app_assoc, IH by (rewrite ?length_app; simpl; (done || lia)).
    by rewrite <-app_assoc.
Qed.

Lemma remove_loop_filter uid i rest pre zs :
  NoDup (map or_uid rest) -> uid ∈ map or_uid rest ->
  length pre = i -> S (length zs) = length rest ->
  remove_loop uid i false rest (pre ++ zs) = pre ++ filterb (fun r => negb (refs_to uid r)) rest.
Proof.
  revert i pre zs. induction rest as [|r rest IH]; intros i pre zs Hnd Hu Hp Hz; simpl in *; [done|].
  apply NoDup_cons in Hnd as [Hr Hnd]. unfold refs_to at 1.
  destruct (String.eqb_spec (or_uid r) uid) as [E|E]; simpl.
  - subst uid. rewrite remove_loop_after by (done || lia).
    f_equal. clear -Hr. induction rest as [|x rest IH]; simpl in *; [done|].
    rewrite not_elem_of_cons in Hr. destruct Hr as [Hx Hr]. unfold refs_to at 1.
    destruct (String.eqb_spec (or_uid x) (or_uid r)); [congruence|]. simpl. by rewrite <-IH.
  - apply elem_of_cons in Hu as [Hu|Hu]; [congruence|].
    destruct zs as [|z zs]; [destruct rest; [by apply not_elem_of_nil in Hu|done]|]. simpl in Hz.
    replace i with (length pre + 0)%nat at 2 by lia. rewrite insert_app_r. simpl.
    rewrite (cons_middle r pre zs), app_assoc, IH by (rewrite ?length_app; simpl; (done || lia)).
    by rewrite <-app_assoc.
Qed.

Lemma removeOwnerRef_owners c uid : NoDup (map or_uid (pvc_owners c)) ->
  pvc_owners (removeOwnerRef c uid).2 = filterb (fun r => negb (refs_to uid r)) (pvc_owners c) /\
  (removeOwnerRef c uid).1 = hasOwnerRef c uid.
Proof.
  intros Hnd. unfold removeOwnerRef. destruct (hasOwnerRef c uid) eqn:E; simpl; (split; [|done]).
  - rewrite hasOwnerRef_refs, existsb_refs_elem in E.
    assert (0 < length (pvc_owners c))%nat.
    { destruct (pvc_owners c); [by apply not_elem_of_nil in E|simpl; lia]. }
    apply (remove_loop_filter uid 0 (pvc_owners c) [] _ Hnd E); [done|]. rewrite length_replicate. lia.
  - rewrite hasOwnerRef_refs in E. clear Hnd. induction (pvc_owners c) as [|r rs IH]; simpl in *; [done|].
    apply orb_false_iff in E as [E1 E2]. rewrite E1. simpl. by rewrite <-IH.
Qed.

(** What an operation on the references does: it sets whether [uid] is referred to,
    keeps the references unique and the others as they are, and says if it changed. *)
Definition ref_op (uid : string) (want : bool) (f : PersistentVolumeClaim -> bool * PersistentVolumeClaim) : Prop :=
  forall c, NoDup (map or_uid (pvc_owners c)) ->
  NoDup (map or_uid (pvc_owners (f c).2)) /\
  (forall v, hasOwnerRef (f c).2 v = if String.eqb v uid then want else hasOwnerRef c v) /\
  (f c).1 = negb (Bool.eqb (hasOwnerRef c uid) want) /\
  filterb (fun r => negb (refs_to uid r)) (pvc_owners (f c).2)
    = filterb (fun r => negb (refs_to uid r)) (pvc_owners c).

Lemma removeOwnerRef_op uid : ref_op uid false (fun c => removeOwnerRef c uid).
Proof.
  intros c Hnd. destruct (removeOwnerRef_owners c uid Hnd) as [Ho Hb].
  set (c' := (removeOwnerRef c uid).2) in *. repeat split.
  - rewrite Ho. eapply sublist_NoDup; [exact Hnd|]. apply (fmap_sublist or_uid), filterb_sublist.
  - intros v. rewrite !hasOwnerRef_refs, Ho. clear. destruct (String.eqb_spec v uid) as [->|Hv].
    + induction (pvc_owners c) as [|r rs IH]; simpl; [done|].
      destruct (refs_to uid r) eqn:E; simpl; [done|]. by rewrite E.
    + induction (pvc_owners c) as [|r rs IH]; simpl; [done|].
      destruct (refs_to uid r) eqn:E; simpl; [|by rewrite IH].
      apply String.eqb_eq in E. assert (refs_to v r = false) as -> by (apply String.eqb_neq; congruence).
      exact IH.
  - rewrite Hb. by destruct (hasOwnerRef c uid).
  - rewrite Ho. apply filterb_idem.
Qed.

Lemma setOwnerRef_op name uid tm : ref_op uid true (fun c => setOwnerRef c name uid tm).
Proof.
  intros c Hnd. unfold setOwnerRef. destruct (hasOwnerRef c uid) eqn:E; simpl.
  { split; [done|]. split; [|done]. intros v. by destruct (String.eqb_spec v uid) as [->|]. }
  rewrite hasOwnerRef_refs in E. split; [|split; [|split; [done|]]].
  - rewrite map_app. simpl. apply NoDup_app. split; [done|]. split; [|apply NoDup_singleton].
    intros x Hx Hx'. apply list_elem_of_singleton in Hx' as ->.
    apply existsb_refs_elem in Hx. congruence.
  - intros v. rewrite hasOwnerRef_refs. simpl. rewrite existsb_app. simpl. unfold refs_to at 2. simpl.
    destruct (String.eqb_spec v uid) as [->|Hv]; [rewrite String.eqb_refl; by rewrite orb_true_r|].
    destruct (String.eqb_spec uid v); [congruence|]. by rewrite !orb_false_r.
  - induction (pvc_owners c) as [|r rs IH]; simpl in *.
    + unfold refs_to. simpl. by rewrite String.eqb_refl.
    + apply orb_false_iff in E as [E1 E2]. rewrite E1. simpl. f_equal. apply IH; [|done].
      simpl in Hnd. by apply NoDup_cons in Hnd as [_ Hnd].
Qed.

(** Two operations in a row, on the references to the set and to the pod. *)
Lemma ref_op_both u v wu wv f g claim : u <> v -> ref_op u wu f -> ref_op v wv g ->
  NoDup (map or_uid (pvc_owners claim)) ->
  let '(b1, c1) := f claim in
  let '(b2, c2) := g c1 in
  hasOwnerRef c2 u = wu /\ hasOwnerRef c2 v = wv /\
  b2 || b1 = negb (Bool.eqb (hasOwnerRef claim u) wu && Bool.eqb (hasOwnerRef claim v) wv) /\
  NoDup (map or_uid (pvc_owners c2)) /\
  filterb (fun r => negb (refs_to u r) && negb (refs_to v r)) (pvc_owners c2)
    = filterb (fun r => negb (refs_to u r) && negb (refs_to v r)) (pvc_owners claim).
Proof.
  intros Huv Hf Hg Hnd. destruct (Hf claim Hnd) as (N1 & H1 & B1 & F1).
  destruct (f claim) as [b1 c1]. simpl in *. destruct (Hg c1 N1) as (N2 & H2 & B2 & F2).
  destruct (g c1) as [b2 c2]. simpl in *. rewrite !H2, String.eqb_refl.
  destruct (String.eqb_spec u v) as [|_]; [done|]. rewrite H1, String.eqb_refl.
  split; [done|]. split; [done|]. split.
  - rewrite B1, B2, H1. destruct (String.eqb_spec v u); [congruence|]. by rewrite negb_andb, orb_comm.
  - split; [done|]. rewrite <-!filterb_and, F2, filterb_comm, F1. apply filterb_comm.
Qed.

(** Ends a case of the policy: [H] is what the two operations of the case did. *)
Ltac finish_refs H :=
  cbv beta in H;
  match type of H with let '(_, _) := ?t in _ => destruct t as [b1 c1] end;
  match type of H with let '(_, _) := ?t in _ => destruct t as [b2 c2] end;
  destruct H as (H1 & H2 & H3 & H4 & H5); rewrite H1, H2, H3; simpl;
  (split; [done|]); (split; [|split; [done|exact H5]]);
  repeat match goal with |- context [hasOwnerRef ?c ?u] => destruct (hasOwnerRef c u) end; done.

(** The retention policy is enforced exactly: whatever references a claim has
    (each owner at most once), [updateClaimOwnerRefForSetAndPod] leaves it with the
    references the policy asks for, reports a change exactly when the claim did not
    match before, and touches no reference to another owner. *)
Theorem claim_owners_enforced claim set pod
  (Hnd : NoDup (map or_uid (pvc_owners claim))) (Huid : ss_uid set <> p_uid pod) :
  let '(changed, claim') := updateClaimOwnerRefForSetAndPod claim set pod in
  claimOwnerMatchesSetAndPod claim' set pod = true /\
  changed = negb (claimOwnerMatchesSetAndPod claim set pod) /\
  NoDup (map or_uid (pvc_owners claim')) /\
  (let other r := negb (refs_to (ss_uid set) r) && negb (refs_to (p_uid pod) r) in
   filterb other (pvc_owners claim') = filterb other (pvc_owners claim)).
Proof.
  set (sm := updateMeta (ss_typeMeta set) "StatefulSet"). set (pm := updateMeta (pod_typeMeta pod) "Pod").
  pose proof (removeOwnerRef_op (ss_uid set)) as Ds. pose proof (removeOwnerRef_op (p_uid pod)) as Dp.
  pose proof (setOwnerRef_op (ss_name set) (ss_uid set) sm) as As.
  pose proof (setOwnerRef_op (p_name pod) (p_uid pod) pm) as Ap.
  unfold updateClaimOwnerRefForSetAndPod, claimOwnerMatchesSetAndPod. fold sm pm. cbv zeta.
  destruct (policy_case _); [| |destruct (podScaledDown _ _)|destruct (podScaledDown _ _)].
  - pose proof (ref_op_both _ _ _ _ _ _ claim Huid Ds Dp Hnd) as H. finish_refs H.
  - pose proof (ref_op_both _ _ _ _ _ _ claim Huid As Dp Hnd) as H. finish_refs H.
  - pose proof (ref_op_both _ _ _ _ _ _ claim Huid Ds Ap Hnd) as H. finish_refs H.
  - pose proof (ref_op_both _ _ _ _ _ _ claim Huid Ds Dp Hnd) as H. finish_refs H.
  - pose proof (ref_op_both _ _ _ _ _ _ claim Huid Ds Ap Hnd) as H. finish_refs H.
  - pose proof (ref_op_both _ _ _ _ _ _ claim Huid As Dp Hnd) as H. finish_refs H.
Qed.

(** A claim of a pod that is scaled down: the reference to the set goes, one to the
    pod comes, that of a third owner stays. *)
Lemma claim_owners_enforced_witness :
  let set := ex_set "OrderedReady" 2 [] None in
  let pod := newStatefulSetPod set 5 in
  let third := mkOwner "v1" "Backup" "b" "u9" false in
  let claim := mkPVC "data-web-5" "default" ∅ [mkOwner "" "" "web" "u1" false; third] None in
  (updateClaimOwnerRefForSetAndPod claim set pod).1 = true /\
  map or_uid (pvc_owners (updateClaimOwnerRefForSetAndPod claim set pod).2) = ["u9"; ""]%string /\
  claimOwnerMatchesSetAndPod (updateClaimOwnerRefForSetAndPod claim set pod).2 set pod = true.
Proof.
  intros set pod third claim.
  assert (Hnd : NoDup (map or_uid (pvc_owners claim))) by (apply (bool_decide_eq_true_1 _); reflexivity).
  assert (Hu : ss_uid set <> p_uid pod) by discriminate.
  pose proof (claim_owners_enforced claim set pod Hnd Hu) as H.
  destruct (updateClaimOwnerRefForSetAndPod claim set pod) as [b c] eqn:E. destruct H as (H & _).
  vm_compute in E. injection E as <- <-. split; [reflexivity|]. split; [reflexivity|exact H].
Defined.

(** ** The order of an update *)

Lemma slots_elem i p k replicas :
  (i, p) ∈ slots k replicas <-> exists j, i = (k + j)%nat /\ replicas !! j = Some (Some p).
Proof.
  revert k. induction replicas as [|[q|] rest IH]; intros k; simpl.
  - split; [intros H; by apply not_elem_of_nil in H|intros (j & _ & H); done].
  - rewrite elem_of_cons, IH. split.
    + intros [E|(j & -> & Hj)]; [injection E as -> ->; exists 0%nat; split; [lia|done]|].
      exists (S j). split; [lia|done].
    + intros ([|j] & -> & Hj); simpl in Hj; [left; injection Hj as ->; f_equal; lia|].
      right. exists j. split; [lia|done].
  - rewrite IH. split.
    + intros (j & -> & Hj). exists (S j). split; [lia|done].
    + intros ([|j] & -> & Hj); simpl in Hj; [done|]. exists j. split; [lia|done].
Qed.

Lemma slots_sorted k replicas : StronglySorted lt (map fst (slots k replicas)).
Proof.
  revert k. induction replicas as [|[q|] rest IH]; intros k; simpl; [constructor| |apply IH].
  constructor; [apply IH|]. apply Forall_forall. intros i Hi. apply list_elem_of_fmap_1 in Hi as ([j p] & -> & Hj).
  apply slots_elem in Hj as (n & -> & _). simpl. lia.
Qed.

Lemma slots_down replicas : StronglySorted (flip lt) (map fst (rev (slots 0 replicas))).
Proof. rewrite map_rev. apply sorted_rev, slots_sorted. Qed.

Lemma map_filterb_sublist {A B} (f : A -> B) g l : map f (filterb g l) `sublist_of` map f l.
Proof. apply (fmap_sublist f), filterb_sublist. Qed.

Lemma down_elem i replicas : i ∈ map fst (rev (slots 0 replicas)) <-> exists p, replicas !! i = Some (Some p).
Proof.
  rewrite map_rev, list_elem_of_In, <-in_rev, <-list_elem_of_In. split.
  - intros H. apply list_elem_of_fmap_1 in H as ([j p] & -> & Hj). apply slots_elem in Hj as (n & -> & Hn). eauto.
  - intros (p & Hp). apply (list_elem_of_fmap_2' fst _ (i, p)); [|done]. apply slots_elem. eauto.
Qed.

Lemma down_NoDup replicas : NoDup (map fst (rev (slots 0 replicas))).
Proof.
  pose proof (slots_down replicas) as H. induction H as [|x l _ IH Hx]; constructor; [|done].
  intros Hin. rewrite Forall_forall in Hx. specialize (Hx x Hin). unfold flip in Hx. lia.
Qed.

(** Filtering by a predicate and by its negation, on the indexes of the slots. *)
Lemma down_split_perm g replicas :
  map fst (filterb g (rev (slots 0 replicas))) ++ map fst (filterb (fun x => negb (g x)) (rev (slots 0 replicas)))
  ≡ₚ map fst (rev (slots 0 replicas)).
Proof. rewrite <-map_app. by rewrite filterb_perm_split. Qed.

(** The indexes of an update are distinct slots in use. *)
Lemma sort_update_slots gate strategy rev_ total replicas :
  let l := sortPodsToUpdate gate strategy rev_ total replicas in
  NoDup l /\ forall i, i ∈ l -> exists p, replicas !! i = Some (Some p).
Proof.
  cbv zeta. pose proof (down_NoDup replicas) as Hnd.
  assert (Hsub : forall l, l ⊆+ map fst (rev (slots 0 replicas)) ->
    NoDup l /\ forall i, i ∈ l -> exists p, replicas !! i = Some (Some p)).
  { intros l Hl. split.
    { apply submseteq_Permutation in Hl as [k Hk]. rewrite Hk in Hnd. by apply NoDup_app in Hnd as (? & _). }
    intros i Hi. apply down_elem. by eapply elem_of_submseteq. }
  apply Hsub. unfold sortPodsToUpdate. destruct (match strategy with Some ru => ru_UnorderedUpdate ru | None => None end).
  2:{ apply sublist_submseteq, map_filterb_sublist. }
  destruct (_ <=? 0); [apply submseteq_nil_l|].
  match goal with |- (if _ then slice_to ?x _ else _) ⊆+ _ => assert (Hx : x ≡ₚ map fst (rev (slots 0 replicas))) end.
  { destruct o; rewrite ?Priority.priority_perm; apply down_split_perm. }
  rewrite <-Hx. destruct (_ <? _); [|done]. unfold slice_to. apply sublist_submseteq, sublist_take.
Qed.
