(* ===== verification/StatefulPodControl.v ===== *)
(** * The advanced StatefulSet: pods and claims on the API server

    pkg/controller/statefulset/stateful_pod_control.go: the operations that create,
    update and delete the pods of a StatefulSet with their claims, over an interface
    to the API server and its caches, the class [StatefulApi].  The status updater
    (stateful_set_status_updater.go) and the history of revisions are fields of the
    interface that the controller is built with. *)

From S2P Require Import Prelude GoLib GoText K8s Tools Expectations Lifecycle Selector UpdateSort World StatefulSetUtils.
Open Scope Z_scope.
Open Scope kruise_scope.

(** [StatefulPodControlObjectManager], [history.Interface], [StatusUpdaterInterface] and
    the image pre-download, beyond the clients of [Api].  A lister reads a cache, which is
    a part of the server state here. *)
Class StatefulApi (S : Type) := {
  stateful_errors :: ApiErrors;
  GetPod : string -> string -> S -> error + Pod;
  UpdatePod : Pod -> S -> S * option error;
  GetClaim : string -> string -> S -> error + PersistentVolumeClaim;
  UpdateClaim : PersistentVolumeClaim -> S -> S * option error;
  ListControllerRevisions : StatefulSet -> S -> error + list ControllerRevision;
  AdoptControllerRevision : StatefulSet -> ControllerRevision -> S -> S * (error + ControllerRevision);
  GetStatefulSet : string -> string -> S -> error + StatefulSet;
  (** [UpdateStatus] of the set; and an uncached read of the set. *)
  UpdateStatus : StatefulSet -> StatefulSetStatus -> S -> S * option error;
  GetStatefulSetLive : string -> string -> S -> error + StatefulSet;
  (** [createImagePullJobsForInPlaceUpdate] and [DeleteJobsForWorkload]: their errors
      are only logged. *)
  CreateImagePullJobs : StatefulSet -> ControllerRevision -> ControllerRevision -> S -> S * option error;
  DeleteJobsForWorkload : StatefulSet -> S -> S * option error;
  (** [PodControllerRefManager.ClaimPods] on the pods of the namespace: it adopts and
      releases pods, and answers those that pass the filter and belong to the set. *)
  ClaimPods : StatefulSet -> (Pod -> bool) -> S -> S * (error + list Pod);
}.

(** The gates and flags of the controller. *)
Record StatefulGates := mkSGates {
  sg_AutoDeletePVC : bool;
  sg_PreparingUpdateAsUpdate : bool;
  (** [!isPreDownloadDisabled && sigsruntimeClient != nil]. *)
  sg_PreDownload : bool;
}.

Section PodControl.
Context {S : Type} `{Api S} `{StatefulApi S}.
Context (g : StatefulGates).

(** The loop of [createPersistentVolumeClaims]: the errors, in order. *)
Fixpoint create_claims (claims : list PersistentVolumeClaim) (errs : list error) : M S (list error) :=
  match claims with
  | [] => ret errs
  | claim :: rest =>
      do r <- read (GetClaim (pvc_namespace claim) (pvc_name claim));
      match r with
      | inl err =>
          if IsNotFound err then
            do e <- createPVC claim;
            match e with
            | Some e => create_claims rest (errs ++ ["failed to create PVC " +:+ pvc_name claim +:+ ": " +:+ e])
            | None => create_claims rest errs
            end
          else create_claims rest (errs ++ ["failed to retrieve PVC " +:+ pvc_name claim +:+ ": " +:+ err])
      | inr pvc =>
          match pvc_deletion pvc with
          | Some _ => create_claims rest (errs ++ ["pvc " +:+ pvc_name claim +:+ " is to be deleted"])
          | None => create_claims rest errs
          end
      end
  end.

Definition claims_of (set : StatefulSet) (pod : Pod) : list PersistentVolumeClaim :=
  map snd (map_to_list (getPersistentVolumeClaims set pod)).

Definition createPersistentVolumeClaims (set : StatefulSet) (pod : Pod) : M S (option error) :=
  do errs <- create_claims (claims_of set pod) [];
  ret (NewAggregate errs).

(** The loop of [ClaimsMatchRetentionPolicy] over the templates. *)
Fixpoint claims_match (set : StatefulSet) (pod : Pod) (templates : list PersistentVolumeClaim)
  : M S (error + bool) :=
  match templates with
  | [] => ret (inr true)
  | t :: rest =>
      let claimName := getPersistentVolumeClaimName set t (getOrdinal pod) in
      do r <- read (GetClaim (ss_namespace set) claimName);
      match r with
      | inl err =>
          if IsNotFound err then claims_match set pod rest
          else ret (inl ("Could not retrieve claim " +:+ claimName +:+ " for " +:+ p_name pod
                         +:+ " when checking PVC deletion policy"))
      | inr claim =>
          if negb (claimOwnerMatchesSetAndPod claim set pod) then ret (inr false)
          else claims_match set pod rest
      end
  end.
Definition ClaimsMatchRetentionPolicy (set : StatefulSet) (pod : Pod) : M S (error + bool) :=
  claims_match set pod (sp_VolumeClaimTemplates set).

Definition updateClaim (c : PersistentVolumeClaim) : M S (option error) :=
  call (UpdateClaim c) (fun e => [EvUpdatePVC c (is_ok e)]).

(** The loop of [UpdatePodClaimForRetentionPolicy]. *)
Fixpoint update_claims (set : StatefulSet) (pod : Pod) (templates : list PersistentVolumeClaim)
  : M S (option error) :=
  match templates with
  | [] => ret None
  | t :: rest =>
      let claimName := getPersistentVolumeClaimName set t (getOrdinal pod) in
      do r <- read (GetClaim (ss_namespace set) claimName);
      match r with
      | inl err =>
          if IsNotFound err then update_claims set pod rest
          else ret (Some ("Could not retrieve claim " +:+ claimName +:+ " not found for " +:+ p_name pod
                          +:+ " when checking PVC deletion policy: " +:+ err))
      | inr claim =>
          if negb (claimOwnerMatchesSetAndPod claim set pod) then
            let '(needsUpdate, claimClone) := updateClaimOwnerRefForSetAndPod claim set pod in
            if needsUpdate then
              do e <- updateClaim claimClone;
              match e with
              | Some err => ret (Some ("Could not update claim " +:+ claimName
                                       +:+ " for delete policy ownerRefs: " +:+ err))
              | None => update_claims set pod rest
              end
            else update_claims set pod rest
          else update_claims set pod rest
      end
  end.
Definition UpdatePodClaimForRetentionPolicy (set : StatefulSet) (pod : Pod) : M S (option error) :=
  update_claims set pod (sp_VolumeClaimTemplates set).

(** The loop of [PodClaimIsStale]. *)
Fixpoint stale_claims (pod : Pod) (claims : list PersistentVolumeClaim) : M S (error + bool) :=
  match claims with
  | [] => ret (inr false)
  | claim :: rest =>
      do r <- read (GetClaim (pvc_namespace claim) (pvc_name claim));
      match r with
      | inl err => if IsNotFound err then stale_claims pod rest else ret (inl err)
      | inr pvc =>
          if hasStaleOwnerRef pvc (p_name pod) (p_uid pod) then ret (inr true) else stale_claims pod rest
      end
  end.
Definition PodClaimIsStale (set : StatefulSet) (pod : Pod) : M S (error + bool) :=
  if String.eqb (WhenScaled (getPersistentVolumeClaimRetentionPolicy set)) Retain then ret (inr false)
  else stale_claims pod (claims_of set pod).

Definition CreateStatefulPod (set : StatefulSet) (pod : Pod) : M S (option error) :=
  do e <- createPersistentVolumeClaims set pod;
  match e with
  | Some err => ret (Some err)
  | None =>
      do err <- createPod pod;
      if match err with Some e => IsAlreadyExists e | None => false end then ret err
      else if sg_AutoDeletePVC g then
        do e <- UpdatePodClaimForRetentionPolicy set pod;
        match e with
        | Some e => ret (Some e)
        | None => ret err
        end
      else ret err
  end.

Definition updatePod (p : Pod) : M S (option error) :=
  call (UpdatePod p) (fun e => [EvUpdatePod p (is_ok e)]).

(** The end of a try of [UpdateStatefulPod]: send the pod, and read it again when that
    failed. *)
Definition commit_pod (set : StatefulSet) (pod : Pod) : M S (option error * Pod) :=
  do updateErr <- updatePod pod;
  match updateErr with
  | None => ret (None, pod)
  | Some err =>
      do r <- read (GetPod (ss_namespace set) (p_name pod));
      match r with
      | inr updated => ret (Some err, updated)
      | inl _ => ret (Some err, pod)
      end
  end.

(** The part of a try that deals with the retention policy. *)
Definition retain_pod (set : StatefulSet) (pod : Pod) (consistent : bool) : M S (option error * Pod) :=
  if sg_AutoDeletePVC g then
    do m <- ClaimsMatchRetentionPolicy set pod;
    match m with
    | inl err => ret (Some err, pod)
    | inr true => if consistent then ret (None, pod) else commit_pod set pod
    | inr false =>
        do e <- UpdatePodClaimForRetentionPolicy set pod;
        match e with
        | Some err => ret (Some err, pod)
        | None => commit_pod set pod
        end
    end
  else if consistent then ret (None, pod) else commit_pod set pod.

(** One try of [UpdateStatefulPod]. *)
Definition update_try (set : StatefulSet) (pod : Pod) : M S (option error * Pod) :=
  let idOK := identityMatches set pod in
  let pod := if idOK then pod else updateIdentity set pod in
  if storageMatches set pod then retain_pod set pod idOK
  else
    let pod := updateStorage set pod in
    do e <- createPersistentVolumeClaims set pod;
    match e with
    | Some err => ret (Some err, pod)
    | None => retain_pod set pod false
    end.

(** [retry.DefaultBackoff] makes four steps. *)
Definition DefaultBackoff_Steps : nat := 4.
Definition UpdateStatefulPod (set : StatefulSet) (pod : Pod) : M S (option error) :=
  RetryOnConflict DefaultBackoff_Steps (update_try set) pod.

Definition DeleteStatefulPod (set : StatefulSet) (pod : Pod) : M S (option error) := World.deletePod pod.

(** One try of [UpdateStatefulSetStatus]; on an error the set is read again. *)
Definition status_try (status : StatefulSetStatus) (set : StatefulSet) : M S (option error * StatefulSet) :=
  let set := with_status set status in
  do updateErr <- call (UpdateStatus set status) (fun e => [EvUpdateStatus (is_ok e)]);
  match updateErr with
  | None => ret (None, set)
  | Some err =>
      do r <- read (GetStatefulSet (ss_namespace set) (ss_name set));
      match r with
      | inr updated => ret (Some err, updated)
      | inl _ => ret (Some err, set)
      end
  end.
(** [retry.DefaultRetry] makes five steps. *)
Definition DefaultRetry_Steps : nat := 5.
Definition UpdateStatefulSetStatus (set : StatefulSet) (status : StatefulSetStatus) : M S (option error) :=
  RetryOnConflict DefaultRetry_Steps (status_try status) set.
End PodControl.

(** ** What the operations write *)

Section Writes.
Context {S : Type} `{Api S} `{StatefulApi S}.
Context (g : StatefulGates).

Lemma only_createPVC c : only pvc_write (createPVC (S := S) c).
Proof. apply only_call. intros a. by repeat constructor. Qed.

Lemma create_claims_only claims errs : only pvc_write (create_claims (S := S) claims errs).
Proof.
  revert errs. induction claims as [|c claims IH]; intros errs; simpl; [apply only_ret|].
  apply only_bind; [apply only_read|]. intros [err|pvc].
  - destruct (IsNotFound err); [|apply IH]. apply only_bind; [apply only_createPVC|].
    intros [e|]; apply IH.
  - destruct (pvc_deletion pvc); apply IH.
Qed.

Lemma createPersistentVolumeClaims_only set pod : only pvc_write (createPersistentVolumeClaims (S := S) set pod).
Proof. apply only_bind; [apply create_claims_only|]. intros. apply only_ret. Qed.

Lemma claims_match_only P set pod ts : only P (claims_match (S := S) set pod ts).
Proof.
  induction ts as [|t ts IH]; simpl; [apply only_ret|]. apply only_bind; [apply only_read|].
  intros [err|c]; [destruct (IsNotFound err); [apply IH|apply only_ret]|].
  destruct (negb _); [apply only_ret|apply IH].
Qed.

Lemma update_claims_only set pod ts : only pvc_write (update_claims (S := S) set pod ts).
Proof.
  induction ts as [|t ts IH]; simpl; [apply only_ret|]. apply only_bind; [apply only_read|].
  intros [err|c]; [destruct (IsNotFound err); [apply IH|apply only_ret]|].
  destruct (negb _); [|apply IH]. destruct (updateClaimOwnerRefForSetAndPod c set pod) as [[|] c']; [|apply IH].
  apply only_bind; [apply only_call; intros a; by repeat constructor|].
  intros [e|]; [apply only_ret|apply IH].
Qed.

Lemma stale_claims_only P pod cs : only P (stale_claims (S := S) pod cs).
Proof.
  induction cs as [|c cs IH]; simpl; [apply only_ret|]. apply only_bind; [apply only_read|].
  intros [err|pvc]; [destruct (IsNotFound err); [apply IH|apply only_ret]|].
  destruct (hasStaleOwnerRef _ _ _); [apply only_ret|apply IH].
Qed.

Lemma PodClaimIsStale_only P set pod : only P (PodClaimIsStale (S := S) set pod).
Proof. unfold PodClaimIsStale. destruct (String.eqb _ _); [apply only_ret|apply stale_claims_only]. Qed.

Lemma commit_pod_only set pod : only no_pod_write (commit_pod (S := S) set pod).
Proof.
  apply only_bind; [apply only_call; intros a; by repeat constructor|].
  intros [err|]; [|apply only_ret]. apply only_bind; [apply only_read|]. intros [?|?]; apply only_ret.
Qed.

Lemma retain_pod_only set pod b : only no_pod_write (retain_pod (S := S) g set pod b).
Proof.
  assert (Hc : only no_pod_write (if b then ret (None, pod) else commit_pod set pod)).
  { destruct b; [apply only_ret|apply commit_pod_only]. }
  unfold retain_pod. destruct (sg_AutoDeletePVC g); [|done].
  apply only_bind; [apply claims_match_only|]. intros [err|[|]]; [apply only_ret|done|].
  apply only_bind; [eapply only_mono, update_claims_only; apply pvc_no_pod_write|].
  intros [e|]; [apply only_ret|apply commit_pod_only].
Qed.

Lemma UpdateStatefulPod_only set pod : only no_pod_write (UpdateStatefulPod (S := S) g set pod).
Proof.
  apply RetryOnConflict_only. intros p. unfold update_try.
  destruct (storageMatches _ _); [apply retain_pod_only|].
  apply only_bind; [eapply only_mono, createPersistentVolumeClaims_only; apply pvc_no_pod_write|].
  intros [e|]; [apply only_ret|apply retain_pod_only].
Qed.

(** A creation sends at most one pod, surrounded by claims; without an error it did. *)
Lemma CreateStatefulPod_emits set pod :
  emits (CreateStatefulPod (S := S) g set pod) (fun evs e =>
    deletes evs = [] /\ (creates evs = [] \/ creates evs = [pod]) /\ (e = None -> creates evs = [pod])).
Proof.
  assert (Hq : forall evs, Forall (fun ev => pvc_write ev = true) evs -> creates evs = [] /\ deletes evs = []).
  { intros evs Hevs. assert (Forall (fun ev => no_pod_write ev = true) evs).
    { eapply Forall_impl; [exact Hevs|]. intros. by apply pvc_no_pod_write. }
    split; [by apply no_pod_write_creates|by apply no_pod_write_deletes]. }
  unfold CreateStatefulPod. eapply emits_step; [apply createPersistentVolumeClaims_only|].
  intros evs1 [err|] H1; apply Hq in H1 as [C1 D1].
  { apply emits_ret. rewrite app_nil_r, C1, D1. split; [done|]. split; [by left|done]. }
  eapply emits_bind with (P := fun evs e => evs = [EvCreatePod pod (is_ok e)]); [by apply emits_call|].
  intros evs2 e ->.
  assert (Hdone : forall evs3 (e' : option error), creates evs3 = [] -> deletes evs3 = [] ->
    let evs := evs1 ++ [EvCreatePod pod (is_ok e)] ++ evs3 in
    deletes evs = [] /\ (creates evs = [] \/ creates evs = [pod]) /\ (e' = None -> creates evs = [pod])).
  { intros evs3 e' C3 D3 evs. unfold evs. rewrite !creates_app, !deletes_app, C1, D1, C3, D3. simpl. auto. }
  destruct (match e with Some e0 => IsAlreadyExists e0 | None => false end).
  { apply emits_ret. by apply Hdone. }
  destruct (sg_AutoDeletePVC g); [|apply emits_ret; by apply Hdone].
  eapply emits_step; [apply update_claims_only|]. intros evs3 e3 H3. apply Hq in H3 as [C3 D3].
  destruct e3; apply emits_ret; rewrite app_nil_r; by apply Hdone.
Qed.
End Writes.

#[export] Hint Resolve create_claims_only claims_match_only update_claims_only
  PodClaimIsStale_only UpdateStatefulPod_only : kruise.
