(* ===== verification/StatefulSetControl.v ===== *)
(** * The advanced StatefulSet: the control loop

    pkg/controller/statefulset/stateful_set_control.go and the reconcile of
    statefulset_controller.go: [updateStatefulSet] cut at its loops (the partition of
    the pods into replicas and condemned ones, the loop over the replicas, the loop
    over the condemned pods, the rolling update), the revisions of the set and its
    status.  The operations run in the monad of World.v. *)

From S2P Require Import Prelude GoLib GoText K8s Tools Expectations Lifecycle Selector UpdateSort World RevisionHistory StatefulSetUtils StatefulPodControl.
Open Scope Z_scope.
Open Scope kruise_scope.

(** ** Counters of the status *)

Definition add_Replicas (d : Z) (s : StatefulSetStatus) : StatefulSetStatus :=
  mkSStatus (st_ObservedGeneration s) (st_Replicas s + d) (st_ReadyReplicas s) (st_AvailableReplicas s)
    (st_CurrentReplicas s) (st_UpdatedReplicas s) (st_UpdatedReadyReplicas s)
    (st_UpdatedAvailableReplicas s) (st_CurrentRevision s) (st_UpdateRevision s)
    (st_CollisionCount s) (st_Conditions s) (st_LabelSelector s).

(** [if getPodRevision(pod) == currentRevision.Name { status.CurrentReplicas += d }]. *)
Definition add_current (d : Z) (currentRevision : string) (pod : Pod) (s : StatefulSetStatus) : StatefulSetStatus :=
  if String.eqb (getPodRevision pod) currentRevision then
    mkSStatus (st_ObservedGeneration s) (st_Replicas s) (st_ReadyReplicas s) (st_AvailableReplicas s)
      (st_CurrentReplicas s + d) (st_UpdatedReplicas s) (st_UpdatedReadyReplicas s)
      (st_UpdatedAvailableReplicas s) (st_CurrentRevision s) (st_UpdateRevision s)
      (st_CollisionCount s) (st_Conditions s) (st_LabelSelector s)
  else s.
(** [if getPodRevision(pod) == updateRevision.Name { status.UpdatedReplicas += d }]. *)
Definition add_updated (d : Z) (updateRevision : string) (pod : Pod) (s : StatefulSetStatus) : StatefulSetStatus :=
  if String.eqb (getPodRevision pod) updateRevision then
    mkSStatus (st_ObservedGeneration s) (st_Replicas s) (st_ReadyReplicas s) (st_AvailableReplicas s)
      (st_CurrentReplicas s) (st_UpdatedReplicas s + d) (st_UpdatedReadyReplicas s)
      (st_UpdatedAvailableReplicas s) (st_CurrentRevision s) (st_UpdateRevision s)
      (st_CollisionCount s) (st_Conditions s) (st_LabelSelector s)
  else s.
Definition add_revisions (d : Z) (currentRevision updateRevision : string) (pod : Pod) (s : StatefulSetStatus)
  : StatefulSetStatus :=
  add_updated d updateRevision pod (add_current d currentRevision pod s).

(** The counters of one turn of the loop that partitions the pods. *)
Definition count_pod (now minReadySeconds : Z) (currentRevision updateRevision : string)
  (s : StatefulSetStatus) (pod : Pod) : StatefulSetStatus :=
  let b2z (b : bool) := if b then 1 else 0 in
  let ready := isRunningAndReady pod in
  let avail := (isRunningAndAvailable now pod minReadySeconds).1 in
  let updated := String.eqb (getPodRevision pod) updateRevision in
  let live := isCreated pod && negb (isTerminating pod) in
  let s := mkSStatus (st_ObservedGeneration s) (st_Replicas s + 1)
    (st_ReadyReplicas s + b2z ready)
    (st_AvailableReplicas s + b2z (ready && avail))
    (st_CurrentReplicas s) (st_UpdatedReplicas s)
    (st_UpdatedReadyReplicas s + b2z (ready && updated))
    (st_UpdatedAvailableReplicas s + b2z (ready && updated && avail))
    (st_CurrentRevision s) (st_UpdateRevision s)
    (st_CollisionCount s) (st_Conditions s) (st_LabelSelector s) in
  if live then add_revisions 1 currentRevision updateRevision pod s else s.

(** ** The partition of the pods *)

Definition classify_pod (replicaCount : Z) (reserveOrdinals : gset Z)
  (acc : list (option Pod) * list Pod) (pod : Pod) : list (option Pod) * list Pod :=
  let '(replicas, condemned) := acc in
  let ord := getOrdinal pod in
  let reserved := bool_decide (ord ∈ reserveOrdinals) in
  if (0 <=? ord) && (ord <? replicaCount) && negb reserved
  then (<[Z.to_nat ord := Some pod]> replicas, condemned)
  else if (replicaCount <=? ord) || reserved then (replicas, condemned ++ [pod])
  else (replicas, condemned).

(** The replicas by ordinal, and the condemned pods. *)
Definition classify (replicaCount : Z) (reserveOrdinals : gset Z) (pods : list Pod)
  : list (option Pod) * list Pod :=
  fold_left (classify_pod replicaCount reserveOrdinals) pods (replicate (Z.to_nat replicaCount) None, []).

(** A pod for every empty slot of an ordinal that is not reserved. *)
Definition fill_slot (newPod : Z -> list (option Pod) -> Pod) (reserveOrdinals : gset Z)
  (replicas : list (option Pod)) (ord : nat) : list (option Pod) :=
  if bool_decide (Z.of_nat ord ∈ reserveOrdinals) then replicas
  else match replicas !! ord with
       | Some None => <[ord := Some (newPod (Z.of_nat ord) replicas)]> replicas
       | _ => replicas
       end.
Definition fill (newPod : Z -> list (option Pod) -> Pod) (reserveOrdinals : gset Z)
  (replicas : list (option Pod)) : list (option Pod) :=
  fold_left (fill_slot newPod reserveOrdinals) (seq 0 (length replicas)) replicas.

(** [firstUnhealthyPod], a pointer into one of the two lists. *)
Inductive PodRef := InReplicas (i : nat) | InCondemned (i : nat).
#[export] Instance PodRef_eq_dec : EqDecision PodRef.
Proof. solve_decision. Defined.

Definition MaxInt32 : Z := 2 ^ 31 - 1.

Definition note_unhealthy (ref : nat -> PodRef) (acc : Z * option PodRef) (ip : nat * Pod)
  : Z * option PodRef :=
  if negb (isHealthy ip.2) && (getOrdinal ip.2 <? acc.1)
  then (getOrdinal ip.2, Some (ref ip.1)) else acc.

Definition first_unhealthy (replicas : list (option Pod)) (condemned : list Pod) : option PodRef :=
  let acc := fold_left (note_unhealthy InReplicas) (slots 0 replicas) (MaxInt32, None) in
  (fold_left (note_unhealthy InCondemned) (imap pair condemned) acc).2.

Section Control.
Context {S : Type} `{Api S} `{StatefulApi S} `{RevisionApi S} `{GoSort}.
Context (g : StatefulGates) (now : Z) (nowStr : string).
(** The template that merging the data of a revision into a set gives: strategic merge
    patch and JSON decoding; and the text of a valid selector. *)
Context (DecodeTemplate : string -> error + PodTemplate).
Context (EncodeTemplate : PodTemplate -> error + string).
Context (SelectorString : option LabelSelector -> error + string).
(** [history.HashControllerRevision] on the data and the collision count. *)
Context (HashRevision : string -> Z -> string).
Import LifecycleControl.

Definition set_key (set : StatefulSet) : string := getStatefulSetKey (ss_namespace set) (ss_name set).

Definition ApplyRevision (set : StatefulSet) (revision : ControllerRevision) : error + StatefulSet :=
  match DecodeTemplate (cr_data revision) with
  | inl err => inl err
  | inr t => inr (with_template set t)
  end.

(** ** Deletion, refresh and in-place update of a pod *)

Definition preDelete_hook (set : StatefulSet) : option LifecycleHook :=
  match sp_Lifecycle set with Some l => PreDelete l | None => None end.
Definition inPlace_hook (set : StatefulSet) : option LifecycleHook :=
  match sp_Lifecycle set with Some l => InPlaceUpdate l | None => None end.
Definition has_lifecycle (set : StatefulSet) : bool :=
  match sp_Lifecycle set with Some _ => true | None => false end.

(** Whether the pod was modified, and the error. *)
Definition deletePod (set : StatefulSet) (pod : Pod) : M S (bool * option error) :=
  if Hooks.IsPodHooked (preDelete_hook set) pod then
    do '(updated, _, err) <- UpdatePodLifecycle nowStr pod LifecycleStatePreparingDelete
                               (Hooks.IsHookMarkPodNotReady (preDelete_hook set));
    match err with
    | Some e => ret (false, Some e)
    | None => ret (updated, None)
    end
  else
    do e <- DeleteStatefulPod set pod;
    match e with
    | Some err => ret (false, Some err)
    | None => ret (true, None)
    end.

Definition grace_of (ru : RollingUpdateStatefulSetStrategy) : Z := default 0 (ru_GracePeriodSeconds ru).

(** The state of a pod whose update is over. *)
Definition after_update_state (set : StatefulSet) (pod : Pod) : string :=
  if has_lifecycle set && negb (Hooks.IsPodAllHooked (inPlace_hook set) pod)
  then LifecycleStateUpdated else LifecycleStateNormal.

(** The state [refreshPodState] moves a pod to, [""] for none. *)
Definition next_state (set : StatefulSet) (pod : Pod) (updateRevision : string) (completed : bool) : string :=
  let state := Hooks.GetPodLifecycleState pod in
  if String.eqb state LifecycleStatePreparingUpdate then
    if String.eqb (getPodRevision pod) updateRevision then after_update_state set pod else ""
  else if String.eqb state LifecycleStateUpdating then
    if completed then after_update_state set pod else ""
  else if String.eqb state LifecycleStateUpdated then
    if match inPlace_hook set with None => true | Some _ => false end
       || Hooks.IsPodAllHooked (inPlace_hook set) pod
    then LifecycleStateNormal else ""
  else "".

Definition refreshPodState (set : StatefulSet) (pod : Pod) (updateRevision : string)
  : M S (bool * Z * option error) :=
  match sp_RollingUpdate set with
  | None => ret (false, 0, None)
  | Some ru =>
      do res <- call (InPlaceRefresh pod (grace_of ru)) (fun _ => []);
      match RefreshErr res with
      | Some err => ret (false, 0, Some err)
      | None =>
          let state := next_state set pod updateRevision (is_ok (CheckPodUpdateCompleted pod)) in
          if String.eqb state "" then ret (false, rr_DelayDuration res, None)
          else
            do '(updated, _, err) <- UpdatePodLifecycle nowStr pod state
                                       (Hooks.IsHookMarkPodNotReady (inPlace_hook set));
            match err with
            | Some e => ret (false, 0, Some e)
            | None => ret (updated, rr_DelayDuration res, None)
            end
      end
  end.

(** The end of [inPlaceUpdatePod]: the pod cannot be updated in place. *)
Definition not_inplace (ru : RollingUpdateStatefulSetStrategy) (pod : Pod) : M S (bool * option error) :=
  if String.eqb (ru_PodUpdatePolicy ru) InPlaceOnlyPodUpdateStrategyType
  then ret (false, Some ("find strategy is InPlaceOnly but Pod " +:+ p_name pod +:+ " can not update in-place"))
  else ret (false, None).

(** The part after the lifecycle allows the update. *)
Definition do_inplace (set : StatefulSet) (ru : RollingUpdateStatefulSetStrategy) (pod : Pod)
  (oldRevision : option ControllerRevision) (updateRevision : ControllerRevision) : M S (bool * option error) :=
  let state := Hooks.GetPodLifecycleState pod in
  let newState := if String.eqb state "" then ""%string else LifecycleStateUpdating in
  do res <- call (InPlaceUpdatePod pod oldRevision updateRevision (grace_of ru) newState)
              (fun res => if ur_InPlaceUpdate res
                          then [EvInPlaceUpdate pod (cr_name updateRevision) newState (is_ok (ur_UpdateErr res))] else []);
  if ur_InPlaceUpdate res then
    (if 0 <? ur_DelayDuration res then pushDuration (set_key set) (ur_DelayDuration res) else ret tt) ;;
    match ur_UpdateErr res with
    | None =>
        on_updates (fun r => Update.ExpectUpdated r (set_key set) (cr_name updateRevision) pod) ;;
        ret (true, None)
    | Some err => ret (true, Some err)
    end
  else not_inplace ru pod.

Definition patch_state (m : M S (bool * option Pod * option error)) : M S (bool * option error) :=
  do '(_, _, err) <- m;
  ret (true, err).

Definition inPlaceUpdatePod (set : StatefulSet) (pod : Pod) (updateRevision : ControllerRevision)
  (revisions : list ControllerRevision) : M S (bool * option error) :=
  match sp_RollingUpdate set with
  | None => ret (false, None)
  | Some ru =>
      if negb (String.eqb (ru_PodUpdatePolicy ru) InPlaceIfPossiblePodUpdateStrategyType)
         && negb (String.eqb (ru_PodUpdatePolicy ru) InPlaceOnlyPodUpdateStrategyType)
      then ret (false, None)
      else
        let oldRevision := find (fun r => String.eqb (cr_name r) (getPodRevision pod)) revisions in
        if CanUpdateInPlace oldRevision updateRevision (grace_of ru) then
          let state := Hooks.GetPodLifecycleState pod in
          let hooked := Hooks.IsPodHooked (inPlace_hook set) pod in
          if String.eqb state "" || String.eqb state LifecycleStateNormal then
            if hooked then
              patch_state (UpdatePodLifecycle nowStr pod LifecycleStatePreparingUpdate
                             (Hooks.IsHookMarkPodNotReady (inPlace_hook set)))
            else do_inplace set ru pod oldRevision updateRevision
          else if String.eqb state LifecycleStateUpdated then
            patch_state (UpdatePodLifecycleWithHandler nowStr pod LifecycleStatePreparingUpdate (inPlace_hook set))
          else if String.eqb state LifecycleStatePreparingUpdate then
            if hooked then ret (true, None) else do_inplace set ru pod oldRevision updateRevision
          else if String.eqb state LifecycleStateUpdating then
            do_inplace set ru pod oldRevision updateRevision
          else ret (true, Some ("not allowed to in-place update pod " +:+ p_name pod +:+ " in state " +:+ state))
        else not_inplace ru pod
  end.

(** ** The loop over the replicas *)

(** What the whole of [updateStatefulSet] is run with. *)
Record Round := mkRound {
  r_set : StatefulSet;
  r_currentSet : StatefulSet;
  r_updateSet : StatefulSet;
  r_current : string;
  r_update : string;
}.

Definition r_monotonic (r : Round) : bool := negb (allowsBurst (r_set r)).
Definition r_minReady (r : Round) : Z := getMinReadySeconds (r_set r).
Definition r_newPod (r : Round) (ord : Z) (replicas : list (option Pod)) : Pod :=
  newVersionedStatefulSetPod (sg_PreparingUpdateAsUpdate g) (r_currentSet r) (r_updateSet r)
    (r_current r) (r_update r) ord replicas.

(** What the loop mutates. *)
Record LoopState := mkLoop {
  l_status : StatefulSetStatus;
  l_replicas : list (option Pod);
  l_scaleMax : option Z;
}.
Definition with_l_status (st : LoopState) (s : StatefulSetStatus) : LoopState :=
  mkLoop s (l_replicas st) (l_scaleMax st).
Definition with_l_scaleMax (st : LoopState) (m : option Z) : LoopState :=
  mkLoop (l_status st) (l_replicas st) m.

(** [return], [break] or [continue]. *)
Inductive Next := Return (status : StatefulSetStatus) (err : option error) | Break (st : LoopState) | Continue (st : LoopState).

(** A failed pod is deleted, and a new one takes its slot. *)
Definition recreate_failed (r : Round) (i : nat) (pod : Pod) (st : LoopState) : M S (option error * Pod * LoopState) :=
  if isFailed pod then
    do '(_, e) <- deletePod (r_set r) pod;
    match e with
    | Some err => ret (Some err, pod, st)
    | None =>
        let s := add_Replicas (-1) (add_revisions (-1) (r_current r) (r_update r) pod (l_status st)) in
        let new := r_newPod r (Z.of_nat i) (l_replicas st) in
        ret (None, new, mkLoop s (<[i := Some new]> (l_replicas st)) (l_scaleMax st))
    end
  else ret (None, pod, st).

(** A pod that has not been created. *)
Definition create_replica (r : Round) (i : nat) (pod : Pod) (st : LoopState) : M S Next :=
  do stale <- (if sg_AutoDeletePVC g then PodClaimIsStale (r_set r) pod else ret (inr false));
  match stale with
  | inl err => ret (Return (l_status st) (Some err))
  | inr true => ret (Return (l_status st) None)
  | inr false =>
      let pod := Hooks.SetPodLifecycle LifecycleStateNormal nowStr pod in
      do e <- CreateStatefulPod g (r_set r) pod;
      match e with
      | Some err =>
          let c := NewStatefulsetCondition now FailedCreatePod ConditionTrue ""
                     ("StatefulPodControl failed to create Pod error: " +:+ err) in
          ret (Return (SetStatefulsetCondition (l_status st) c) (Some err))
      | None =>
          let s := add_revisions 1 (r_current r) (r_update r) pod (add_Replicas 1 (l_status st)) in
          let st := mkLoop s (<[i := Some pod]> (l_replicas st)) (l_scaleMax st) in
          if r_monotonic r then ret (Return s None)
          else
            let '(m, stop) := decreaseAndCheckMaxUnavailable (l_scaleMax st) in
            ret (if stop then Break (with_l_scaleMax st m) else Continue (with_l_scaleMax st m))
      end
  end.

(** The identity, the storage and the retention policy of a pod. *)
Definition enforce_replica (r : Round) (pod : Pod) (st : LoopState) : M S Next :=
  do retentionMatch <- (if sg_AutoDeletePVC g then
                          do m <- ClaimsMatchRetentionPolicy (r_updateSet r) pod;
                          ret (match m with inl _ => true | inr b => b end)
                        else ret true);
  if identityMatches (r_set r) pod && storageMatches (r_set r) pod && retentionMatch
  then ret (Continue st)
  else
    do e <- UpdateStatefulPod g (r_updateSet r) pod;
    match e with
    | Some err =>
        let c := NewStatefulsetCondition now FailedUpdatePod ConditionTrue ""
                   ("StatefulPodControl failed to update Pod error: " +:+ err) in
        ret (Return (SetStatefulsetCondition (l_status st) c) (Some err))
    | None => ret (Continue st)
    end.

(** A pod that is there must be available before the loop goes on. *)
Definition await_replica (r : Round) (pod : Pod) (st : LoopState) : M S Next :=
  do res <- call (InPlaceRefresh pod 0) (fun _ => []);
  match RefreshErr res with
  | Some err => ret (Return (l_status st) (Some err))
  | None =>
      (if 0 <? rr_DelayDuration res then pushDuration (set_key (r_set r)) (rr_DelayDuration res) else ret tt) ;;
      if r_monotonic r || match l_scaleMax st with Some _ => true | None => false end then
        let '(isAvailable, waitTime) := isRunningAndAvailable now pod (r_minReady r) in
        let wait := if 0 <? waitTime then pushDuration (set_key (r_set r)) waitTime else ret tt in
        if negb isAvailable && r_monotonic r then wait ;; ret (Return (l_status st) None)
        else if negb isAvailable then
          let '(m, stop) := decreaseAndCheckMaxUnavailable (l_scaleMax st) in
          let st := with_l_scaleMax st m in
          if stop then wait ;; ret (Break st) else enforce_replica r pod st
        else enforce_replica r pod st
      else enforce_replica r pod st
  end.

(** One turn of the loop, for a slot in use. *)
Definition step_replica (r : Round) (i : nat) (pod : Pod) (st : LoopState) : M S Next :=
  do '(e, pod, st) <- recreate_failed r i pod st;
  match e with
  | Some err => ret (Return (l_status st) (Some err))
  | None =>
      if negb (isCreated pod) then create_replica r i pod st
      else if isTerminating pod && r_monotonic r then ret (Return (l_status st) None)
      else if isTerminating pod then
        let '(m, stop) := decreaseAndCheckMaxUnavailable (l_scaleMax st) in
        let st := with_l_scaleMax st m in
        if stop then ret (Break st) else await_replica r pod st
      else await_replica r pod st
  end.

(** The loop: [inl] is a return, [inr] what comes after the loop starts from. *)
Fixpoint replicas_loop (r : Round) (n i : nat) (st : LoopState)
  : M S ((StatefulSetStatus * option error) + LoopState) :=
  match n with
  | O => ret (inr st)
  | Datatypes.S n' =>
      match l_replicas st !! i with
      | Some (Some pod) =>
          do x <- step_replica r i pod st;
          match x with
          | Return s e => ret (inl (s, e))
          | Break st => ret (inr st)
          | Continue st => replicas_loop r n' (Datatypes.S i) st
          end
      | _ => replicas_loop r n' (Datatypes.S i) st
      end
  end.

(** ** The condemned pods *)

(** The owner references of their claims. *)
Fixpoint condemned_claims (r : Round) (condemned : list Pod) : M S (option error) :=
  match condemned with
  | [] => ret None
  | pod :: rest =>
      do m <- ClaimsMatchRetentionPolicy (r_updateSet r) pod;
      match m with
      | inl err => ret (Some err)
      | inr true => condemned_claims r rest
      | inr false =>
          do e <- UpdatePodClaimForRetentionPolicy (r_updateSet r) pod;
          match e with
          | Some err => ret (Some err)
          | None => condemned_claims r rest
          end
      end
  end.

(** [for target := len(condemned) - 1; target >= 0; target--]; the loop is about to look
    at the pod before [n].  [inl] is a return. *)
Fixpoint condemned_loop (r : Round) (first : option PodRef) (condemned : list Pod) (n : nat)
  (s : StatefulSetStatus) : M S ((StatefulSetStatus * option error) + StatefulSetStatus) :=
  match n with
  | O => ret (inr s)
  | Datatypes.S target =>
      match condemned !! target with
      | None => condemned_loop r first condemned target s
      | Some pod =>
          if isTerminating pod then
            if r_monotonic r then ret (inl (s, None)) else condemned_loop r first condemned target s
          else
            let '(avail, waitTime) := isRunningAndAvailable now pod (r_minReady r) in
            if negb avail && r_monotonic r && negb (bool_decide (first = Some (InCondemned target))) then
              (if 0 <? waitTime
               then pushDuration (getStatefulSetKey (p_namespace pod) (p_name pod)) waitTime else ret tt) ;;
              ret (inl (s, None))
            else
              do '(modified, e) <- deletePod (r_set r) pod;
              if negb (is_ok e) || modified then ret (inl (s, e))
              else
                let s := add_revisions (-1) (r_current r) (r_update r) pod s in
                if r_monotonic r then ret (inl (s, None)) else condemned_loop r first condemned target s
      end
  end.

(** ** The rolling update *)

Fixpoint refresh_all (set : StatefulSet) (updateRevision : string) (modified : bool) (pods : list Pod)
  : M S (bool * option error) :=
  match pods with
  | [] => ret (modified, None)
  | pod :: rest =>
      do '(refreshed, duration, err) <- refreshPodState set pod updateRevision;
      match err with
      | Some e => ret (modified, Some e)
      | None =>
          (if 0 <? duration then pushDuration (set_key set) duration else ret tt) ;;
          refresh_all set updateRevision (modified || refreshed) rest
      end
  end.

Definition MaxMinReadySeconds : Z := 300.

(** Why a pod counts as unavailable: it is not healthy, its in-place update is not over,
    or it is not available yet, with the time to wait. *)
Definition unavailable_for_update (minReadySeconds : Z) (pod : Pod) : option Z :=
  if negb (isHealthy pod) then Some 0
  else if negb (is_ok (CheckPodUpdateCompleted pod)) then Some 0
  else
    let '(isAvailable, waitTime) := isRunningAndAvailable now pod minReadySeconds in
    if negb isAvailable then Some waitTime else None.

(** The loop that collects the unavailable pods. *)
Fixpoint collect_unavailable (set : StatefulSet) (minReadySeconds minWaitTime : Z)
  (names : gset string) (replicas : list (option Pod)) : M S (gset string) :=
  match replicas with
  | [] => ret names
  | None :: rest => collect_unavailable set minReadySeconds minWaitTime names rest
  | Some pod :: rest =>
      match unavailable_for_update minReadySeconds pod with
      | None => collect_unavailable set minReadySeconds minWaitTime names rest
      | Some waitTime =>
          let names := {[p_name pod]} ∪ names in
          if negb (waitTime =? 0) && (waitTime <=? minWaitTime) then
            pushDuration (set_key set) waitTime ;;
            collect_unavailable set minReadySeconds waitTime names rest
          else collect_unavailable set minReadySeconds minWaitTime names rest
      end
  end.

(** The loop over the pods to update. *)
Fixpoint update_loop (set : StatefulSet) (currentRevision : string) (updateRevision : ControllerRevision)
  (revisions : list ControllerRevision) (maxUnavailable : Z) (replicas : list (option Pod))
  (unavailablePods : gset string) (indexes : list nat) (s : StatefulSetStatus)
  : M S (StatefulSetStatus * option error) :=
  match indexes with
  | [] => ret (s, None)
  | target :: rest =>
      match replicas !! target with
      | Some (Some pod) =>
          let continue u s := update_loop set currentRevision updateRevision revisions maxUnavailable
                                replicas u rest s in
          if String.eqb (getPodRevision pod) (cr_name updateRevision) then continue unavailablePods s
          else if (maxUnavailable <=? Z.of_nat (size unavailablePods))
                  && negb (bool_decide (p_name pod ∈ unavailablePods)) then ret (s, None)
          else if isTerminating pod then continue unavailablePods s
          else
            do '(inplacing, e) <- inPlaceUpdatePod set pod updateRevision revisions;
            match e with
            | Some err => ret (s, Some err)
            | None =>
                do '(_, e) <- (if inplacing : bool then ret (false, None) else deletePod set pod);
                match e with
                | Some err => ret (s, Some err)
                | None =>
                    continue ({[p_name pod]} ∪ unavailablePods) (add_current (-1) currentRevision pod s)
                end
            end
      | _ => update_loop set currentRevision updateRevision revisions maxUnavailable replicas
               unavailablePods rest s
      end
  end.

(** [maxUnavailable], at least 1; [None] is an error of the number. *)
Definition rolling_maxUnavailable (set : StatefulSet) : option Z :=
  match sp_RollingUpdate set with
  | None => Some 1
  | Some ru =>
      match GetValueFromIntOrPercent (ValueOrDefault (ru_MaxUnavailable ru) (FromInt 1)) (sp_Replicas set) false with
      | None => None
      | Some m => Some (if m <? 1 then 1 else m)
      end
  end.

Definition invalid_value : error := "invalid value for IntOrString".

Definition rollingUpdateStatefulsetPods (set : StatefulSet) (s : StatefulSetStatus)
  (currentRevision updateRevision : ControllerRevision) (revisions : list ControllerRevision)
  (pods : list Pod) (replicas : list (option Pod)) (minReadySeconds : Z)
  : M S (StatefulSetStatus * option error) :=
  do '(updateSatisfied, _, _) <-
    ask_updates (fun r => Update.SatisfiedExpectations r (set_key set) (cr_name updateRevision) now);
  if negb updateSatisfied then ret (s, None)
  else
    do '(modified, e) <- refresh_all set (cr_name updateRevision) false pods;
    match e with
    | Some err => ret (s, Some err)
    | None =>
        if modified : bool then ret (s, None)
        else if match sp_RollingUpdate set with Some ru => ru_Paused ru | None => false end then ret (s, None)
        else
          match rolling_maxUnavailable set with
          | None => ret (s, Some invalid_value)
          | Some maxUnavailable =>
              do unavailablePods <- collect_unavailable set minReadySeconds (MaxMinReadySeconds * second) ∅ replicas;
              let updateIndexes := sortPodsToUpdate (sg_PreparingUpdateAsUpdate g) (sp_RollingUpdate set)
                                     (cr_name updateRevision) (sp_Replicas set) replicas in
              update_loop set (cr_name currentRevision) updateRevision revisions maxUnavailable replicas
                unavailablePods updateIndexes s
          end
    end.

(** ** updateStatefulSet *)

Definition ImagePreDownloadMinUpdatedReadyPods : string := "apps.kruise.io/image-predownload-min-updated-ready-pods".

(** Image pre-download, whose errors are logged. *)
Definition pre_download (set : StatefulSet) (currentRevision updateRevision : ControllerRevision) : M S unit :=
  if negb (sg_PreDownload g) then ret tt
  else if negb (String.eqb (cr_name currentRevision) (cr_name updateRevision)) then
    let minUpdatedReadyPodsCount :=
      match ss_annotations set !! ImagePreDownloadMinUpdatedReadyPods with
      | Some v => default 0 (GetScaledValueFromIntOrPercent (Parse v) (sp_Replicas set) true)
      | None => 0
      end in
    let updatedReadyReplicas :=
      if negb (String.eqb (cr_name updateRevision) (st_UpdateRevision (ss_status set))) then 0
      else st_UpdatedReadyReplicas (ss_status set) in
    if wrap32 minUpdatedReadyPodsCount <=? updatedReadyReplicas
    then do _ <- call (CreateImagePullJobs set currentRevision updateRevision) (fun _ => []); ret tt
    else ret tt
  else do _ <- call (DeleteJobsForWorkload set) (fun _ => []); ret tt.

(** [scaleMaxUnavailable]; [None] is an error of the number. *)
Definition scale_maxUnavailable (set : StatefulSet) : option (option Z) :=
  match sp_ScaleMaxUnavailable set with
  | None => Some None
  | Some m =>
      match GetValueFromIntOrPercent m (sp_Replicas set) false with
      | None => None
      | Some v => Some (Some (if v <? 1 then 1 else v))
      end
  end.

Definition initial_status (set : StatefulSet) (currentRevision updateRevision : ControllerRevision)
  (collisionCount : Z) (selector : string) : StatefulSetStatus :=
  mkSStatus (ss_generation set) 0 0 0 0 0 0 0 (cr_name currentRevision) (cr_name updateRevision)
    (Some collisionCount) [] selector.

(** The part after the loop over the replicas. *)
Definition after_replicas (r : Round) (currentRevision updateRevision : ControllerRevision)
  (revisions : list ControllerRevision) (pods : list Pod) (first : option PodRef) (condemned : list Pod)
  (st : LoopState) : M S (StatefulSetStatus * option error) :=
  do e <- (if sg_AutoDeletePVC g then condemned_claims r condemned else ret None);
  match e with
  | Some err => ret (l_status st, Some err)
  | None =>
      do x <- condemned_loop r first condemned (length condemned) (l_status st);
      match x with
      | inl res => ret res
      | inr s =>
          if String.eqb (sp_UpdateType (r_set r)) OnDeleteStatefulSetStrategyType then ret (s, None)
          else rollingUpdateStatefulsetPods (r_set r) s currentRevision updateRevision revisions pods
                 (l_replicas st) (r_minReady r)
      end
  end.

(** The part that looks at the pods. *)
Definition sync_pods (r : Round) (currentRevision updateRevision : ControllerRevision)
  (revisions : list ControllerRevision) (pods : list Pod) (scaleMax : option Z) (s : StatefulSetStatus)
  : M S (StatefulSetStatus * option error) :=
  let '(replicaCount, reserveOrdinals) := getStatefulSetReplicasRange (r_set r) in
  let s := fold_left (count_pod now (r_minReady r) (r_current r) (r_update r)) pods s in
  let '(replicas, condemned) := classify replicaCount reserveOrdinals pods in
  let replicas := fill (r_newPod r) reserveOrdinals replicas in
  let condemned := sort_by ascendingOrdinal condemned in
  let first := first_unhealthy replicas condemned in
  match ss_deletion (r_set r) with
  | Some _ => ret (s, None)
  | None =>
      do x <- replicas_loop r (length replicas) 0 (mkLoop s replicas scaleMax);
      match x with
      | inl res => ret res
      | inr st => after_replicas r currentRevision updateRevision revisions pods first condemned st
      end
  end.

Definition updateStatefulSet (set : StatefulSet) (currentRevision updateRevision : ControllerRevision)
  (collisionCount : Z) (pods : list Pod) (revisions : list ControllerRevision)
  : M S (StatefulSetStatus * option error) :=
  match SelectorString (sp_Selector set), ApplyRevision set currentRevision, ApplyRevision set updateRevision with
  | inl err, _, _ | _, inl err, _ | _, _, inl err => ret (ss_status set, Some err)
  | inr selector, inr currentSet, inr updateSet =>
      pre_download set currentRevision updateRevision ;;
      let s := initial_status set currentRevision updateRevision collisionCount selector in
      let r := mkRound set currentSet updateSet (cr_name currentRevision) (cr_name updateRevision) in
      match scale_maxUnavailable set with
      | None => ret (s, Some invalid_value)
      | Some scaleMax => sync_pods r currentRevision updateRevision revisions pods scaleMax s
      end
  end.

(** ** Revisions and status *)

(** [newRevision], with the annotations of the set. *)
Definition newRevision (set : StatefulSet) (revision collisionCount : Z) : error + ControllerRevision :=
  match EncodeTemplate (sp_Template set) with
  | inl err => inl err
  | inr patch =>
      let hash := HashRevision patch collisionCount in
      inr (mkRevision (ControllerRevisionName (ss_name set) hash) revision
             (<[ControllerRevisionHashLabel := hash]> (t_labels (sp_Template set))) patch 0 (Some (ss_uid set)) "" ""
             (ss_annotations set))
  end.

(** The current and the update revision, and the collision count. *)
Definition getStatefulSetRevisions (set : StatefulSet) (revisions : list ControllerRevision)
  : M S ((error + ControllerRevision * ControllerRevision) * Z) :=
  let revisions := SortControllerRevisions revisions in
  let collisionCount := default 0 (st_CollisionCount (ss_status set)) in
  match newRevision set (nextRevision revisions) collisionCount with
  | inl err => ret (inl err, collisionCount)
  | inr new => active_revisions (ss_namespace set) (ss_name set) (st_CurrentRevision (ss_status set))
                 revisions new collisionCount
  end.

(** The revisions that are in use; [nil] revisions are not. *)
Definition live_revision (pods : list Pod) (current update : option ControllerRevision) (r : ControllerRevision) : bool :=
  let named x := match x with Some c => String.eqb (cr_name c) (cr_name r) | None => false end in
  named current || named update || existsb (fun p => String.eqb (getPodRevision p) (cr_name r)) pods.

Definition truncateHistory (set : StatefulSet) (pods : list Pod) (revisions : list ControllerRevision)
  (current update : option ControllerRevision) : M S (option error) :=
  truncate_history (live_revision pods current update) (sp_RevisionHistoryLimit set) revisions.

Definition updateStatefulSetStatus (set : StatefulSet) (status : StatefulSetStatus) : M S (option error) :=
  let status := completeRollingUpdate set status in
  if negb (inconsistentStatus set status) then ret None
  else UpdateStatefulSetStatus set status.

(** [revisionadapter.NewDefaultImpl().EqualToRevisionHash]. *)
Definition default_EqualToRevisionHash (key : string) (obj : Pod) (hash : string) : bool :=
  String.eqb (lbl (p_labels obj) ControllerRevisionHashLabelKey) hash.

Definition observe_updated (set : StatefulSet) (revision : string) (pods : list Pod) : M S unit :=
  on_updates (fun u => fold_left (fun u pod =>
    Update.ObserveUpdated default_EqualToRevisionHash u (set_key set) revision pod) pods u).

(** The two revisions, [None] when they could not be found, and the error. *)
Definition performUpdate (set : StatefulSet) (pods : list Pod) (revisions : list ControllerRevision)
  : M S (option (ControllerRevision * ControllerRevision) * option error) :=
  do '(x, collisionCount) <- getStatefulSetRevisions set revisions;
  match x with
  | inl err => ret (None, Some err)
  | inr (currentRevision, updateRevision) =>
      observe_updated set (cr_name updateRevision) pods ;;
      do '(currentStatus, getStatusErr) <-
        updateStatefulSet set currentRevision updateRevision collisionCount pods revisions;
      do updateStatusErr <- updateStatefulSetStatus set currentStatus;
      ret (Some (currentRevision, updateRevision),
           match getStatusErr with Some e => Some e | None => updateStatusErr end)
  end.

Definition UpdateStatefulSet (set : StatefulSet) (pods : list Pod) : M S (option error) :=
  match SelectorString (sp_Selector set) with
  | inl err => ret (Some err)
  | inr _ =>
      do x <- read (ListControllerRevisions set);
      match x with
      | inl err => ret (Some err)
      | inr revisions =>
          let revisions := SortControllerRevisions revisions in
          do '(rs, err) <- performUpdate set pods revisions;
          do truncErr <- truncateHistory set pods revisions (fst <$> rs) (snd <$> rs);
          ret (match err with
               | Some e => NewAggregate (e :: option_list truncErr)
               | None => truncErr
               end)
      end
  end.

(** ** The reconcile *)

Fixpoint adopt_all (set : StatefulSet) (revisions : list ControllerRevision) : M S (option error) :=
  match revisions with
  | [] => ret None
  | r :: rest =>
      do x <- call (AdoptControllerRevision set r) (fun _ => []);
      match x with
      | inl err => ret (Some err)
      | inr _ => adopt_all set rest
      end
  end.

Definition adoptOrphanRevisions (set : StatefulSet) : M S (option error) :=
  match SelectorString (sp_Selector set) with
  | inl err => ret (Some err)
  | inr _ =>
      do x <- read (ListControllerRevisions set);
      match x with
      | inl err => ret (Some err)
      | inr revisions =>
          let orphanRevisions :=
            filterb (fun r => match cr_controller r with None => true | Some _ => false end) revisions in
          if 0 <? len orphanRevisions then
            do fresh <- read (GetStatefulSetLive (ss_namespace set) (ss_name set));
            match fresh with
            | inl err => ret (Some err)
            | inr fresh =>
                if negb (String.eqb (ss_uid fresh) (ss_uid set))
                then ret (Some ("original StatefulSet " +:+ ss_namespace set +:+ "/" +:+ ss_name set +:+ " is gone: got uid "
                                +:+ ss_uid fresh +:+ ", wanted " +:+ ss_uid set))
                else adopt_all set orphanRevisions
            end
          else ret None
      end
  end.

(** The requeue delay and the error.  [selectorErr] is the error of
    [metav1.LabelSelectorAsSelector], which validates more than [SelectorString]. *)
Definition Reconcile (selectorErr : option LabelSelector -> option error) (namespace name : string)
  : M S (Z * option error) :=
  do x <- read (GetStatefulSet namespace name);
  match x with
  | inl err =>
      if IsNotFound err then
        on_updates (fun u => Update.DeleteExpectations u (getStatefulSetKey namespace name)) ;; ret (0, None)
      else ret (0, Some err)
  | inr set =>
      match selectorErr (sp_Selector set) with
      | Some _ => ret (0, None)
      | None =>
          do e <- adoptOrphanRevisions set;
          match e with
          | Some err => ret (0, Some err)
          | None =>
              do x <- call (ClaimPods set (isMemberOf set)) (fun _ => []);
              match x with
              | inl err => ret (0, Some err)
              | inr pods =>
                  do err <- UpdateStatefulSet set pods;
                  do d <- popDuration (set_key set);
                  ret (d, err)
              end
          end
      end
  end.
End Control.
