(* ===== verification/StatefulSetOrder.v ===== *)
(** * The advanced StatefulSet: order and limits of scaling

    What one run of [updateStatefulSet] may create and delete, for every server: with
    the OrderedReady policy a pod is created only when all its predecessors are running
    and available, and pods are removed one at a time from the highest ordinal; with
    the Parallel policy creations stay within [scaleStrategy.maxUnavailable]. *)

From S2P Require Import Prelude GoLib GoText K8s Tools Expectations Lifecycle Selector UpdateSort World RevisionHistory StatefulSetUtils StatefulPodControl StatefulSetControl.
Open Scope Z_scope.
Open Scope kruise_scope.

(** ** The partition of the pods *)

(** The pod of an ordinal: the last one listed. *)
Definition replica_of (pods : list Pod) (ord : Z) : option Pod :=
  find (fun p => getOrdinal p =? ord) (rev pods).

Lemma replica_of_Some pods ord p : replica_of pods ord = Some p -> p ∈ pods /\ getOrdinal p = ord.
Proof.
  unfold replica_of. intros E. apply List.find_some in E as [Hin E]. zbool.
  split; [by apply list_elem_of_In, in_rev|done].
Qed.

Lemma replica_of_None pods ord : replica_of pods ord = None <-> forall p, p ∈ pods -> getOrdinal p <> ord.
Proof.
  unfold replica_of. split.
  - intros E p Hp. apply list_elem_of_In, in_rev in Hp. pose proof (List.find_none _ _ E p Hp) as Hn. cbv beta in Hn. by zbool.
  - intros Hall. destruct (find _ _) eqn:E; [|done]. apply List.find_some in E as [Hin E]. zbool.
    exfalso. apply (Hall p); [|done]. by apply list_elem_of_In, in_rev.
Qed.

(** The condition under which a pod is condemned. *)
Definition is_condemned (replicaCount : Z) (R : gset Z) (p : Pod) : bool :=
  (replicaCount <=? getOrdinal p) || bool_decide (getOrdinal p ∈ R).

Lemma replica_of_snoc pods p ord :
  replica_of (pods ++ [p]) ord = if getOrdinal p =? ord then Some p else replica_of pods ord.
Proof. unfold replica_of. rewrite rev_app_distr. done. Qed.

Lemma classify_spec replicaCount R pods :
  let '(replicas, condemned) := classify replicaCount R pods in
  length replicas = Z.to_nat replicaCount /\
  (forall j, (j < Z.to_nat replicaCount)%nat ->
    replicas !! j = Some (if bool_decide (Z.of_nat j ∈ R) then None else replica_of pods (Z.of_nat j))) /\
  condemned = filterb (is_condemned replicaCount R) pods.
Proof.
  induction pods as [|p pods IH] using rev_ind.
  - unfold classify. simpl. split; [apply length_replicate|]. split; [|done].
    intros j Hj. rewrite lookup_replicate_2 by done. by case_bool_decide.
  - unfold classify in *. rewrite fold_left_app. cbn [fold_left].
    destruct (fold_left _ pods _) as [reps cond]. destruct IH as (Hlen & Hl & Hc).
    unfold classify_pod. set (ord := getOrdinal p).
    assert (Hfil : forall b, is_condemned replicaCount R p = b ->
      filterb (is_condemned replicaCount R) (pods ++ [p]) = cond ++ (if b then [p] else [])).
    { intros b Hb. rewrite Hc. clear -Hb. induction pods as [|q pods IH]; simpl; [by rewrite Hb|].
      destruct (is_condemned replicaCount R q); simpl; by rewrite IH. }
    assert (Hother : forall j, (j < Z.to_nat replicaCount)%nat -> Z.of_nat j <> ord \/ ord ∈ R ->
      Some (if bool_decide (Z.of_nat j ∈ R) then None else replica_of (pods ++ [p]) (Z.of_nat j)) = reps !! j).
    { intros j Hj Hne. rewrite (Hl j Hj), replica_of_snoc. fold ord.
      case_bool_decide as Hr; [done|]. destruct (Z.eqb_spec ord (Z.of_nat j)) as [E|E]; [|done].
      destruct Hne as [Hne|Hne]; [lia|by rewrite E in Hne]. }
    destruct ((0 <=? ord) && (ord <? replicaCount) && negb (bool_decide (ord ∈ R))) eqn:E.
    + apply andb_true_iff in E as [E Hr]. apply negb_true_iff, bool_decide_eq_false in Hr. zbool.
      split; [by rewrite length_insert|]. split.
      * intros j Hj. destruct (decide (j = Z.to_nat ord)) as [->|Hne].
        { rewrite list_lookup_insert_eq by lia. rewrite Z2Nat.id by lia.
          rewrite bool_decide_false, replica_of_snoc by done. fold ord. by rewrite Z.eqb_refl. }
        rewrite list_lookup_insert_ne by done. symmetry. apply Hother; [done|]. left. lia.
      * rewrite (Hfil false); [by rewrite app_nil_r|]. unfold is_condemned. fold ord.
        rewrite (proj2 (Z.leb_gt _ _)) by lia. by rewrite bool_decide_false.
    + destruct ((replicaCount <=? ord) || bool_decide (ord ∈ R)) eqn:E2.
      * split; [done|]. split; [|by rewrite (Hfil true)]. intros j Hj. symmetry. apply Hother; [done|].
        apply orb_true_iff in E2 as [E2|E2]; zbool; [left; lia|right]. by apply bool_decide_eq_true in E2.
      * split; [done|]. split; [|rewrite (Hfil false) by done; by rewrite app_nil_r].
        intros j Hj. symmetry. apply Hother; [done|]. apply orb_false_iff in E2 as [E2 Er]. rewrite Er in E.
        zbool. destruct (Z.leb_spec 0 ord); [|left; lia]. destruct (Z.ltb_spec ord replicaCount); [done|lia].
Qed.

Lemma fill_spec newPod R replicas :
  length (fill newPod R replicas) = length replicas /\
  forall j, (j < length replicas)%nat ->
    (fill newPod R replicas !! j = replicas !! j /\ (Z.of_nat j ∈ R \/ replicas !! j <> Some None)) \/
    (Z.of_nat j ∉ R /\ replicas !! j = Some None /\
     exists reps, fill newPod R replicas !! j = Some (Some (newPod (Z.of_nat j) reps))).
Proof.
  unfold fill. set (n := length replicas) at 1 2.
  assert (Hn : (n <= length replicas)%nat) by (unfold n; lia).
  cut (let out := fold_left (fill_slot newPod R) (seq 0 n) replicas in
    length out = length replicas /\
    (forall j, (n <= j)%nat -> out !! j = replicas !! j) /\
    forall j, (j < n)%nat -> (out !! j = replicas !! j /\ (Z.of_nat j ∈ R \/ replicas !! j <> Some None)) \/
      (Z.of_nat j ∉ R /\ replicas !! j = Some None /\
       exists reps, out !! j = Some (Some (newPod (Z.of_nat j) reps)))).
  { intros (H1 & H2 & H3). split; [done|]. intros j Hj. apply H3. unfold n. lia. }
  clearbody n. induction n as [|n IH]; [simpl; split; [done|]; split; [done|lia]|].
  rewrite seq_S, fold_left_app. cbn [fold_left]. destruct IH as (H1 & H2 & H3); [lia|].
  cbv zeta. set (out := fold_left _ (seq 0 n) replicas) in *. rewrite Nat.add_0_l.
  assert (Hsame : Z.of_nat n ∈ R \/ replicas !! n <> Some None ->
    length out = length replicas /\ (forall j, (Datatypes.S n <= j)%nat -> out !! j = replicas !! j) /\
    forall j, (j < Datatypes.S n)%nat -> (out !! j = replicas !! j /\ (Z.of_nat j ∈ R \/ replicas !! j <> Some None)) \/
      (Z.of_nat j ∉ R /\ replicas !! j = Some None /\
       exists reps, out !! j = Some (Some (newPod (Z.of_nat j) reps)))).
  { intros Hw. split; [done|]. split; [intros j Hj; apply H2; lia|].
    intros j Hj. destruct (decide (j = n)) as [->|]; [left; split; [apply H2; lia|done]|apply H3; lia]. }
  unfold fill_slot. case_bool_decide as Hr; [by apply Hsame; left|].
  rewrite (H2 n) by lia. destruct (replicas !! n) as [[p|]|] eqn:En; [by apply Hsame; right| |by apply Hsame; right].
  rewrite length_insert. split; [done|]. split.
  - intros j Hj. rewrite list_lookup_insert_ne by lia. apply H2. lia.
  - intros j Hj. destruct (decide (j = n)) as [->|].
    + right. split; [done|]. split; [done|]. exists out. rewrite list_lookup_insert_eq; [done|]. lia.
    + rewrite list_lookup_insert_ne by lia. apply H3. lia.
Qed.

(** ** One replica *)

Section Order.
Context {S : Type} `{IA : Api S} `{IB : StatefulApi S} `{IC : RevisionApi S} `{ID : GoSort}.
Context (g : StatefulGates) (now : Z) (nowStr : string).
Context (DecodeTemplate : string -> error + PodTemplate) (EncodeTemplate : PodTemplate -> error + string).
Context (SelectorString : option LabelSelector -> error + string) (HashRevision : string -> Z -> string).

(** A pod with which the loop goes on at once: available, and not on its way out. *)
Definition good (minReadySeconds : Z) (p : Pod) : bool :=
  negb (isTerminating p) && (isRunningAndAvailable now p minReadySeconds).1.
Definition bad_slot (minReadySeconds : Z) (o : option Pod) : bool :=
  match o with Some p => negb (good minReadySeconds p) | None => false end.

Lemma good_running m p : good m p = true -> p_phase p = PodRunning.
Proof.
  unfold good, isRunningAndAvailable. intros E. zbool.
  destruct (String.eqb_spec (p_phase p) PodRunning); [done|]. done.
Qed.

Lemma good_created m p : good m p = true -> isCreated p = true /\ isFailed p = false.
Proof. intros E. apply good_running in E. unfold isCreated, isFailed. by rewrite E. Qed.

(** A pod that its PreDelete hook still holds, and that knows so. *)
Definition held (set : StatefulSet) (pod : Pod) : bool :=
  Hooks.IsPodHooked (preDelete_hook set) pod
  && String.eqb (Hooks.GetPodLifecycleState pod) LifecycleStatePreparingDelete.

(** At most the pod is deleted, and the answer tells; without a write or an error the
    pod is held. *)
Lemma deletePod_emits set pod :
  emits (deletePod nowStr set pod) (fun evs r =>
    creates evs = [] /\ (deletes evs = [] \/ deletes evs = [pod]) /\
    (negb (is_ok r.2) || r.1 = false -> deletes evs = [] /\ held set pod = true)).
Proof.
  unfold deletePod, held. destruct (Hooks.IsPodHooked _ pod).
  - eapply emits_bind; [apply emits_and; [apply UpdatePodLifecycle_emits|apply UpdatePodLifecycle_skips]|].
    intros evs [[u gp] e] [Hevs Hs]. simpl in *.
    assert (creates evs = [] /\ deletes evs = []) as [C D].
    { destruct Hevs as [[-> _]|(_ & _ & ->)]; done. }
    destruct e; apply emits_ret; rewrite app_nil_r, C, D; (split; [done|]); (split; [by left|]); simpl; [done|].
    intros ->. split; [done|]. apply String.eqb_eq. by apply Hs.
  - eapply emits_bind with (P := fun evs e => evs = [EvDeletePod pod (is_ok e)]); [by apply emits_call|].
    intros evs e ->. destruct e; apply emits_ret; (split; [done|]); (split; [by right|]); done.
Qed.

(** The pod that is created for a slot: the one in it, or a new one. *)
Definition pod_for (r : Round) (i : nat) (q p : Pod) : Prop :=
  p = Hooks.SetPodLifecycle LifecycleStateNormal nowStr q \/
  exists reps, p = Hooks.SetPodLifecycle LifecycleStateNormal nowStr (r_newPod g r (Z.of_nat i) reps).

Lemma recreate_failed_emits r i q st :
  emits (recreate_failed g nowStr r i q st) (fun evs x =>
    let '(e, p, st') := x in
    creates evs = [] /\ l_scaleMax st' = l_scaleMax st /\
    (forall j, j <> i -> l_replicas st' !! j = l_replicas st !! j) /\
    (deletes evs = [] \/ (isFailed q = true /\ deletes evs = [q])) /\
    (isFailed q = false -> e = None /\ p = q /\ st' = st /\ deletes evs = []) /\
    (isFailed q = true -> e = None -> exists reps, p = r_newPod g r (Z.of_nat i) reps)).
Proof.
  unfold recreate_failed. destruct (isFailed q) eqn:Ef.
  2:{ apply emits_ret. repeat (split; [by auto|]). done. }
  eapply emits_bind; [apply deletePod_emits|]. intros evs [m e] (C & D & _). destruct e as [err|]; apply emits_ret;
    rewrite app_nil_r; (split; [done|]); (split; [done|]).
  - split; [done|]. split; [destruct D as [->| ->]; auto|]. done.
  - split; [intros j Hj; simpl; by rewrite list_lookup_insert_ne|].
    split; [destruct D as [->| ->]; auto|]. split; [done|]. intros _ _. by exists (l_replicas st).
Qed.

(** What a turn of the loop may do, by how it ends. *)
Definition turn_post (r : Round) (i : nat) (q : Pod) (st : LoopState) (evs : list Event) (x : Next) : Prop :=
  (deletes evs = [] \/ (isFailed q = true /\ deletes evs = [q])) /\
  (creates evs = [] \/
   (isCreated q = false \/ isFailed q = true) /\ exists p, creates evs = [p] /\ pod_for r i q p) /\
  match x with
  | Return _ _ => True
  | Break st' => r_monotonic r = false
  | Continue st' =>
      (forall j, j <> i -> l_replicas st' !! j = l_replicas st !! j) /\
      (r_monotonic r = true ->
       good (r_minReady r) q = true /\ creates evs = [] /\ deletes evs = [] /\ l_replicas st' = l_replicas st) /\
      (r_monotonic r = false -> forall k, l_scaleMax st = Some k -> 1 <= k ->
       exists k', l_scaleMax st' = Some k' /\ 1 <= k' <= k - (if good (r_minReady r) q then 0 else 1))
  end.

Lemma create_replica_emits r i p st :
  emits (create_replica g now nowStr r i p st) (fun evs x =>
    deletes evs = [] /\
    (creates evs = [] \/ creates evs = [Hooks.SetPodLifecycle LifecycleStateNormal nowStr p]) /\
    match x with
    | Return _ _ => True
    | Break st' => r_monotonic r = false
    | Continue st' =>
        r_monotonic r = false /\ (forall j, j <> i -> l_replicas st' !! j = l_replicas st !! j) /\
        forall k, l_scaleMax st = Some k -> exists k', l_scaleMax st' = Some k' /\ 1 <= k' <= k - 1
    end).
Proof.
  unfold create_replica. apply emits_quiet.
  { destruct (sg_AutoDeletePVC g); [apply PodClaimIsStale_only|apply only_ret]. }
  intros stale.
  destruct stale as [err|[|]]; [by apply emits_ret; auto..|].
  eapply emits_bind; [apply CreateStatefulPod_emits|]. intros evs e (D & C & _).
  destruct e as [err|].
  { apply emits_ret. rewrite app_nil_r. simpl. auto. }
  destruct (r_monotonic r) eqn:Em.
  { apply emits_ret. rewrite app_nil_r. simpl. auto. }
  destruct (decreaseAndCheckMaxUnavailable _) as [m stop] eqn:Ed. apply emits_ret. rewrite app_nil_r.
  split; [done|]. split; [done|]. destruct stop; [done|]. split; [done|]. split.
  { intros j Hj. simpl. by rewrite list_lookup_insert_ne. }
  intros k Hk. simpl in Ed. rewrite Hk in Ed. simpl in Ed. injection Ed as <- Hs. zbool.
  exists (k - 1). simpl. split; [done|lia].
Qed.

Lemma enforce_replica_emits r q st :
  emits (enforce_replica g now r q st) (fun evs x =>
    creates evs = [] /\ deletes evs = [] /\
    match x with Return _ _ => True | Break _ => False | Continue st' => st' = st end).
Proof.
  unfold enforce_replica. eapply emits_step with (P := no_pod_write).
  { destruct (sg_AutoDeletePVC g); [|apply only_ret].
    apply only_bind; [apply claims_match_only|]. intros. apply only_ret. }
  intros evs b Hb. pose proof (no_pod_write_creates _ Hb) as C. pose proof (no_pod_write_deletes _ Hb) as D.
  destruct (identityMatches _ _ && _ && _).
  { apply emits_ret. rewrite app_nil_r. auto. }
  eapply emits_step; [apply UpdateStatefulPod_only|]. intros evs' e He.
  pose proof (no_pod_write_creates _ He) as C'. pose proof (no_pod_write_deletes _ He) as D'.
  destruct e; apply emits_ret; rewrite app_nil_r, creates_app, deletes_app, C, C', D, D'; done.
Qed.

(** A turn for a pod that is there. *)
Lemma await_replica_emits r q st :
  emits (await_replica g now r q st) (fun evs x =>
    creates evs = [] /\ deletes evs = [] /\
    match x with
    | Return _ _ => True
    | Break _ => r_monotonic r = false
    | Continue st' =>
        l_replicas st' = l_replicas st /\
        (r_monotonic r = true -> (isRunningAndAvailable now q (r_minReady r)).1 = true) /\
        (r_monotonic r = false -> forall k, l_scaleMax st = Some k -> 1 <= k ->
         exists k', l_scaleMax st' = Some k' /\
           1 <= k' <= k - (if (isRunningAndAvailable now q (r_minReady r)).1 then 0 else 1))
    end).
Proof.
  unfold await_replica. apply emits_quiet; [by apply only_call|]. intros res.
  destruct (RefreshErr res); [by apply emits_ret|]. apply emits_quiet; [apply only_push_when|]. intros [].
  assert (Hgo : forall st0, l_replicas st0 = l_replicas st ->
    (r_monotonic r = true -> (isRunningAndAvailable now q (r_minReady r)).1 = true) ->
    (r_monotonic r = false -> forall k, l_scaleMax st = Some k -> 1 <= k ->
     exists k', l_scaleMax st0 = Some k' /\
       1 <= k' <= k - (if (isRunningAndAvailable now q (r_minReady r)).1 then 0 else 1)) ->
    emits (enforce_replica g now r q st0) (fun evs x =>
      creates evs = [] /\ deletes evs = [] /\
      match x with
      | Return _ _ => True
      | Break _ => r_monotonic r = false
      | Continue st' =>
          l_replicas st' = l_replicas st /\
          (r_monotonic r = true -> (isRunningAndAvailable now q (r_minReady r)).1 = true) /\
          (r_monotonic r = false -> forall k, l_scaleMax st = Some k -> 1 <= k ->
           exists k', l_scaleMax st' = Some k' /\
             1 <= k' <= k - (if (isRunningAndAvailable now q (r_minReady r)).1 then 0 else 1))
      end)).
  { intros st0 H1 H2 H3. eapply emits_mono; [apply enforce_replica_emits|].
    intros evs x (C & D & Hx). split; [done|]. split; [done|]. destruct x; [done|done|]. subst. auto. }
  destruct (r_monotonic r || _) eqn:Em.
  2:{ apply orb_false_iff in Em as [Em1 Em2]. apply Hgo; [done|congruence|].
      intros _ k Hk. rewrite Hk in Em2. done. }
  destruct (isRunningAndAvailable now q (r_minReady r)) as [av wt] eqn:Ea. simpl in *.
  destruct av; simpl.
  { apply Hgo; [done|done|]. intros _ k Hk Hk1. exists k. split; [done|lia]. }
  destruct (r_monotonic r) eqn:Em2; simpl.
  { apply emits_quiet; [apply only_push_when|]. intros []. by apply emits_ret. }
  destruct (decreaseAndCheckMaxUnavailable (l_scaleMax st)) as [m stop] eqn:Ed.
  destruct stop.
  { apply emits_quiet; [apply only_push_when|]. intros []. by apply emits_ret. }
  apply Hgo; [done|done|].
  intros _ k Hk Hk1. rewrite Hk in Ed. simpl in Ed. injection Ed as <- Hs. zbool. exists (k - 1). simpl. split; [done|lia].
Qed.

Lemma step_replica_emits r i q st :
  emits (step_replica g now nowStr r i q st) (turn_post r i q st).
Proof.
  unfold step_replica. eapply emits_bind; [apply recreate_failed_emits|].
  intros evs [[e p] st'] (C & Hm & Hreps & D & Hok & Hnew).
  destruct e as [err|].
  { apply emits_ret. rewrite app_nil_r. split; [done|]. auto. }
  assert (Hcre : isCreated p = false ->
    emits (create_replica g now nowStr r i p st') (fun evs' x => turn_post r i q st (evs ++ evs') x)).
  { intros Hp. eapply emits_mono; [apply create_replica_emits|]. intros evs' x (D' & C' & Hx).
    assert (Hq : isCreated q = false \/ isFailed q = true).
    { destruct (isFailed q) eqn:Ef; [by right|left]. by destruct (Hok eq_refl) as (_ & -> & _). }
    assert (Hbad : good (r_minReady r) q = false).
    { destruct (good (r_minReady r) q) eqn:Eg; [|done]. apply good_created in Eg as [Eg1 Eg2].
      destruct Hq; congruence. }
    unfold turn_post. rewrite creates_app, deletes_app, C, D', app_nil_r. split; [done|]. split.
    - destruct C' as [->| ->]; [by left|right]. split; [done|]. eexists. split; [done|].
      destruct (isFailed q) eqn:Ef.
      + right. destruct (Hnew eq_refl eq_refl) as [reps ->]. by exists reps.
      + left. by destruct (Hok eq_refl) as (_ & -> & _).
    - destruct x as [s' e'|st2|st2]; [done|done|]. destruct Hx as (Em & Hr & Hk). split.
      + intros j Hj. rewrite Hr by done. by apply Hreps.
      + split; [congruence|]. intros _ k Hk1 Hk2. rewrite Hbad. apply Hk. congruence. }
  destruct (isCreated p) eqn:Ec; simpl; [|by apply Hcre].
  assert (Hpq : isFailed q = false).
  { destruct (isFailed q) eqn:Ef; [|done]. destruct (Hnew eq_refl eq_refl) as [reps ->]. exfalso.
    unfold r_newPod, newVersionedStatefulSetPod in Ec. destruct (isCurrentRevisionNeeded _ _ _ _ _); done. }
  destruct (Hok Hpq) as (_ & -> & -> & D0). clear Hok Hnew Hcre Hreps Hm D.
  assert (Hstop : forall x, (match x with Continue _ => False | Break _ => r_monotonic r = false | _ => True end) ->
    turn_post r i q st (evs ++ []) x).
  { intros x Hx. rewrite app_nil_r. split; [by left|]. split; [by left|]. destruct x; done. }
  assert (Hawait : forall st0, l_replicas st0 = l_replicas st ->
    (r_monotonic r = true -> isTerminating q = false) ->
    (r_monotonic r = false -> forall k, l_scaleMax st = Some k -> 1 <= k ->
      exists k', l_scaleMax st0 = Some k' /\ 1 <= k' <= k - (if isTerminating q then 1 else 0)) ->
    emits (await_replica g now r q st0) (fun evs' x => turn_post r i q st (evs ++ evs') x)).
  { intros st0 Hr Ht Hk. eapply emits_mono; [apply await_replica_emits|]. intros evs' x (C' & D' & Hx).
    unfold turn_post. rewrite creates_app, deletes_app, C, C', D0, D'. simpl. split; [by left|]. split; [by left|].
    destruct x as [s' e'|st2|st2]; [done|done|]. destruct Hx as (Hr2 & Hav & Hk2). split; [intros; congruence|]. split.
    - intros Em. split; [|split; [done|split; [done|congruence]]]. unfold good. by rewrite Ht, Hav by done.
    - intros Em k Hk0 Hk1. destruct (Hk Em k Hk0 Hk1) as (k1 & Hk1' & Hb1).
      destruct (Hk2 Em k1 Hk1') as (k2 & Hk2' & Hb2); [lia|]. exists k2. split; [done|]. unfold good.
      destruct (isTerminating q), (isRunningAndAvailable now q (r_minReady r)).1; simpl; lia. }
  destruct (isTerminating q) eqn:Et; simpl.
  - destruct (r_monotonic r) eqn:Em; [apply emits_ret; by apply Hstop|].
    destruct (decreaseAndCheckMaxUnavailable (l_scaleMax st)) as [m stop] eqn:Ed.
    destruct stop; [apply emits_ret; by apply Hstop|]. apply Hawait; [done|done|].
    intros _ k Hk Hk1. rewrite Hk in Ed. simpl in Ed. injection Ed as <- Hs. zbool.
    exists (k - 1). simpl. split; [done|lia].
  - apply Hawait; [done|done|]. intros _ k Hk Hk1. exists k. split; [done|lia].
Qed.

(** ** The loop *)

(** The room left before slot [i]: none of the slots before it is bad with OrderedReady;
    with a limit, what is left of it and the bad slots so far are within it. *)
Definition fits (r : Round) (limit : option Z) (reps : list (option Pod)) (i : nat) (st : LoopState) : Prop :=
  let bad := countb (bad_slot (r_minReady r)) (take i reps) in
  if r_monotonic r then limit = Some 1 /\ bad = 0
  else match limit with
       | Some m => exists k, l_scaleMax st = Some k /\ 1 <= k /\ k + bad <= m
       | None => True
       end.

Lemma fits_lt r limit reps i st m : fits r limit reps i st -> limit = Some m ->
  countb (bad_slot (r_minReady r)) (take i reps) < m.
Proof.
  unfold fits. intros Hf ->. destruct (r_monotonic r); [destruct Hf as [[= ->] ?]; lia|].
  destruct Hf as (k & _ & ?). lia.
Qed.

Definition created_for (r : Round) (limit : option Z) (reps : list (option Pod)) (j : nat) (p : Pod) : Prop :=
  exists q, reps !! j = Some (Some q) /\ (isCreated q = false \/ isFailed q = true) /\ pod_for r j q p /\
    forall m, limit = Some m -> countb (bad_slot (r_minReady r)) (take j reps) < m.

Definition loop_post (r : Round) (m : option Z) (reps : list (option Pod)) (i : nat) (st : LoopState)
  (evs : list Event) (x : (StatefulSetStatus * option error) + LoopState) : Prop :=
  (exists js, StronglySorted lt js /\ Forall (fun j => (i <= j)%nat) js /\
    Forall2 (created_for r m reps) js (creates evs)) /\
  Forall (fun p => isFailed p = true /\ Some p ∈ reps) (deletes evs) /\
  (forall st', x = inr st' -> r_monotonic r = true ->
    creates evs = [] /\ deletes evs = [] /\ l_replicas st' = l_replicas st /\
    countb (bad_slot (r_minReady r)) (drop i reps) = 0).

Lemma countb_take_S (f : option Pod -> bool) reps i o : reps !! i = Some o ->
  countb f (take (Datatypes.S i) reps) = countb f (take i reps) + (if f o then 1 else 0).
Proof. intros Hi. rewrite (take_S_r _ _ _ Hi), countb_app. simpl. lia. Qed.

(** The writes of one turn, as entries of the result of the loop. *)
Lemma turn_writes r m reps i q st evs x :
  turn_post r i q st evs x -> reps !! i = Some (Some q) -> fits r m reps i st ->
  exists js, (js = [] \/ js = [i]) /\ Forall2 (created_for r m reps) js (creates evs) /\
    Forall (fun p => isFailed p = true /\ Some p ∈ reps) (deletes evs).
Proof.
  intros (D & C & _) Hi Hfit.
  assert (HD : Forall (fun p => isFailed p = true /\ Some p ∈ reps) (deletes evs)).
  { destruct D as [->|[Hf ->]]; [constructor|]. repeat constructor; [done|]. by eapply list_elem_of_lookup_2. }
  destruct C as [->|[Hq (p & -> & Hp)]]; [exists []; auto using Forall2_nil_2|].
  exists [i]. split; [by right|]. split; [|done]. repeat constructor. exists q.
  split; [done|]. split; [done|]. split; [done|]. intros m' Hm. by eapply fits_lt.
Qed.

(** The turn leaves room for the next slot. *)
Lemma turn_fits r m reps i q st evs st' :
  turn_post r i q st evs (Continue st') -> reps !! i = Some (Some q) -> fits r m reps i st ->
  fits r m reps (Datatypes.S i) st'.
Proof.
  intros (_ & _ & _ & Hmono & Hburst) Hi. unfold fits. rewrite (countb_take_S _ _ _ _ Hi). simpl.
  destruct (r_monotonic r) eqn:Em.
  - destruct (Hmono eq_refl) as (-> & _). intros [-> ?]. simpl. split; [done|lia].
  - destruct m as [m|]; [|done]. intros (k & Hk & Hk1 & Hb). destruct (Hburst eq_refl k Hk Hk1) as (k' & Hk' & Hr). exists k'.
    split; [done|]. destruct (good (r_minReady r) q); simpl; lia.
Qed.

Lemma replicas_loop_emits r m reps n : forall i st,
  (n + i = length reps)%nat -> (forall j, (i <= j)%nat -> l_replicas st !! j = reps !! j) ->
  fits r m reps i st ->
  emits (replicas_loop g now nowStr r n i st) (loop_post r m reps i st).
Proof.
  induction n as [|n IH]; intros i st Hlen Hreps Hfit; cbn [replicas_loop].
  { apply emits_ret. split; [exists []; repeat constructor|]. split; [constructor|].
    intros st' [= <-] _. rewrite drop_ge by lia. done. }
  rewrite (Hreps i) by lia. destruct (reps !! i) as [[q|]|] eqn:Ei; [| |apply lookup_ge_None in Ei; lia].
  - eapply emits_bind; [apply step_replica_emits|]. intros evs x Hx.
    destruct (turn_writes _ _ _ _ _ _ _ _ Hx Ei Hfit) as (js & Hjs & HC & HD).
    assert (Hsort : StronglySorted lt js /\ Forall (fun j => (i <= j)%nat) js).
    { destruct Hjs as [->| ->]; repeat constructor. }
    destruct x as [s e|st'|st'].
    + apply emits_ret. rewrite app_nil_r. split; [exists js; split; [apply Hsort|]; split; [apply Hsort|done]|]. by split.
    + apply emits_ret. rewrite app_nil_r. split; [exists js; split; [apply Hsort|]; split; [apply Hsort|done]|]. split; [done|].
      intros st2 _ Em. destruct Hx as (_ & _ & Hx). congruence.
    + eapply emits_mono; [apply (IH (Datatypes.S i) st'); [lia| |by eapply turn_fits]|].
      { intros j Hj. destruct Hx as (_ & _ & Hx & _). rewrite Hx by lia. apply Hreps. lia. }
      intros evs' y ((js' & Hs' & Hle' & HC') & HD' & Hy). split; [|split].
      * exists (js ++ js'). rewrite creates_app. split; [|split; [|by apply Forall2_app]].
        { apply StronglySorted_app_2; [|apply Hsort|done]. intros a b Ha Hb.
          rewrite Forall_forall in Hle'. specialize (Hle' b Hb).
          destruct Hjs as [->| ->]; [by apply not_elem_of_nil in Ha|]. apply list_elem_of_singleton in Ha. lia. }
        apply Forall_app. split; [apply Hsort|]. eapply Forall_impl; [exact Hle'|]. simpl. lia.
      * rewrite deletes_app. by apply Forall_app.
      * intros st2 -> Em. destruct (Hy st2 eq_refl Em) as (C & D & Hr & Hg).
        destruct Hx as (_ & _ & _ & Hmono & _). destruct (Hmono Em) as (Hgq & C0 & D0 & Hr0).
        rewrite creates_app, deletes_app, C, D, C0, D0. split; [done|]. split; [done|]. split; [congruence|].
        rewrite (drop_S _ _ _ Ei). simpl. rewrite Hgq. simpl. lia.
  - eapply emits_mono; [apply (IH (Datatypes.S i) st); [lia|intros j Hj; apply Hreps; lia|]|].
    { unfold fits in *. by rewrite (countb_take_S _ _ _ _ Ei), Z.add_0_r. }
    intros evs x ((js & Hs & Hle & HC) & HD & Hx). split; [|split; [done|]].
    + exists js. split; [done|]. split; [|done]. eapply Forall_impl; [exact Hle|]. simpl. lia.
    + intros st' -> Em. destruct (Hx st' eq_refl Em) as (C & D & Hr & Hg).
      rewrite (drop_S _ _ _ Ei). simpl. by rewrite Hg.
Qed.

(** ** The condemned pods *)

(** The pods between [t] and [n] are passed over: on their way out, or held. *)
Definition passed_over (r : Round) (condemned : list Pod) (t n : nat) : Prop :=
  forall k p, (t < k < n)%nat -> condemned !! k = Some p -> isTerminating p = true \/ held (r_set r) p = true.

Definition condemned_post (r : Round) (first : option PodRef) (condemned : list Pod) (n : nat)
  (evs : list Event) (x : (StatefulSetStatus * option error) + StatefulSetStatus) : Prop :=
  creates evs = [] /\
  (deletes evs = [] \/
   exists t p, (t < n)%nat /\ condemned !! t = Some p /\ deletes evs = [p] /\ isTerminating p = false /\
     passed_over r condemned t n /\
     (r_monotonic r = true -> Datatypes.S t = n /\
       ((isRunningAndAvailable now p (r_minReady r)).1 = true \/ first = Some (InCondemned t)))) /\
  (forall s, x = inr s -> deletes evs = [] /\ (r_monotonic r = true -> n = O) /\
    forall k p, (k < n)%nat -> condemned !! k = Some p -> isTerminating p = true \/ held (r_set r) p = true).

Lemma condemned_loop_emits r first condemned n s : (n <= length condemned)%nat ->
  emits (condemned_loop now nowStr r first condemned n s) (condemned_post r first condemned n).
Proof.
  revert s. induction n as [|t IH]; intros s Hn; cbn [condemned_loop].
  { apply emits_ret. split; [done|]. split; [by left|]. intros s' _. split; [done|]. split; [done|]. lia. }
  destruct (condemned !! t) as [p|] eqn:Et; [|apply lookup_ge_None in Et; lia].
  assert (Hret : forall res, condemned_post r first condemned (Datatypes.S t) [] (inl res)).
  { intros res. split; [done|]. split; [by left|]. done. }
  assert (Hskip : r_monotonic r = false -> (isTerminating p = true \/ held (r_set r) p = true) -> forall evs s',
    creates evs = [] -> deletes evs = [] ->
    emits (condemned_loop now nowStr r first condemned t s')
      (fun evs' x => condemned_post r first condemned (Datatypes.S t) (evs ++ evs') x)).
  { intros Em Hp evs s' C D. eapply emits_mono; [apply IH; lia|]. intros evs' x (C' & D' & Hx).
    unfold condemned_post. rewrite creates_app, deletes_app, C, D, C'. split; [done|]. simpl. split.
    - destruct D' as [->|(t' & p' & Ht & Hp' & -> & Htm & Hpass & _)]; [by left|right]. exists t', p'.
      split; [lia|]. split; [done|]. split; [done|]. split; [done|]. split; [|congruence].
      intros k q Hk Hq. destruct (decide (k = t)) as [->|]; [by simplify_eq|]. apply (Hpass k q); [lia|done].
    - intros s2 ->. destruct (Hx s2 eq_refl) as (Hd & _ & Hall). split; [done|]. split; [congruence|].
      intros k q Hk Hq. destruct (decide (k = t)) as [->|]; [by simplify_eq|]. apply (Hall k q); [lia|done]. }
  destruct (isTerminating p) eqn:Etm.
  { destruct (r_monotonic r) eqn:Em; [by apply emits_ret|]. apply (Hskip eq_refl (or_introl eq_refl) []); done. }
  destruct (isRunningAndAvailable now p (r_minReady r)) as [avail wt] eqn:Ea.
  destruct (negb avail && r_monotonic r && negb (bool_decide (first = Some (InCondemned t)))) eqn:Eb.
  { apply emits_quiet; [apply only_push_when|]. intros []. by apply emits_ret. }
  eapply emits_bind; [apply deletePod_emits|]. intros evs [m e] (C & D & Hh). simpl in Hh.
  destruct (negb (is_ok e) || m) eqn:Eo.
  { apply emits_ret. rewrite app_nil_r. split; [done|]. split; [|done].
    destruct D as [D|D]; [by left|right]. exists t, p. split; [lia|]. split; [done|]. split; [done|]. split; [done|].
    split; [intros k q Hk; lia|]. intros Em. split; [done|]. rewrite Em, Ea, andb_true_r in *. simpl.
    destruct avail; [by left|right]. simpl in Eb. by apply negb_false_iff, bool_decide_eq_true in Eb. }
  destruct (Hh eq_refl) as [D0 Hheld]. destruct (r_monotonic r) eqn:Em.
  { apply emits_ret. rewrite app_nil_r. split; [done|]. split; [by left|]. done. }
  apply (Hskip eq_refl (or_intror Hheld) evs); done.
Qed.

Lemma condemned_claims_only r condemned : only no_pod_write (condemned_claims (S := S) r condemned).
Proof.
  induction condemned as [|p rest IH]; simpl; [apply only_ret|].
  apply only_bind; [apply claims_match_only|]. intros [err|[|]]; [apply only_ret|done|].
  apply only_bind; [eapply only_mono, update_claims_only; apply pvc_no_pod_write|].
  intros [e|]; [apply only_ret|done].
Qed.
End Order.
