(* ===== verification/StatefulSetRolling.v ===== *)
(** * The advanced StatefulSet: rolling updates

    What [rollingUpdateStatefulsetPods] may do to the pods, for every server: it updates
    or deletes pods in the order of the strategy, above the partition, and the replicas
    that are unavailable or disrupted stay within [maxUnavailable]. *)

From S2P Require Import Prelude GoLib GoText K8s Tools Expectations Lifecycle Selector UpdateSort World RevisionHistory StatefulSetUtils StatefulPodControl StatefulSetControl StatefulSetOrder.
Open Scope Z_scope.
Open Scope kruise_scope.

(** The pods that a trace of writes disrupts. *)
Definition touched (evs : list Event) : list Pod :=
  omap (fun ev => match ev with
    | EvDeletePod p _ | EvPatchPod p _ _ | EvInPlaceUpdate p _ _ _ => Some p
    | _ => None
    end) evs.

Lemma touched_app e1 e2 : touched (e1 ++ e2) = touched e1 ++ touched e2.
Proof. apply omap_app. Qed.

(** Writes of one pod: a patch, a deletion or an in-place update of it. *)
Definition disrupts (p : Pod) (ev : Event) : bool :=
  match ev with
  | EvDeletePod q _ | EvPatchPod q _ _ | EvInPlaceUpdate q _ _ _ => bool_decide (q = p)
  | _ => false
  end.
Definition patches (ev : Event) : bool := match ev with EvPatchPod _ _ _ => true | _ => false end.

Lemma disrupts_touched p evs : Forall (fun ev => disrupts p ev = true) evs ->
  Forall (fun q => q = p) (touched evs) /\ creates evs = [].
Proof.
  induction 1 as [|ev evs Hev _ [IH1 IH2]]; [done|].
  destruct ev; simpl in *; try done; apply bool_decide_eq_true in Hev; subst; split; by auto.
Qed.

Section Rolling.
Context {S : Type} `{IA : Api S} `{IB : StatefulApi S} `{IC : RevisionApi S} `{ID : GoSort}.
Context (g : StatefulGates) (now : Z) (nowStr : string).
Import LifecycleControl.

Lemma only_lifecycle p state mark : only (disrupts p) (UpdatePodLifecycle (S := S) nowStr p state mark).
Proof.
  eapply emits_mono; [apply UpdatePodLifecycle_emits|]. intros evs r [[-> _]|(_ & _ & ->)]; [constructor|].
  repeat constructor. by apply bool_decide_eq_true.
Qed.

Lemma only_lifecycle_handler p state h : only (disrupts p) (UpdatePodLifecycleWithHandler (S := S) nowStr p state h).
Proof.
  unfold UpdatePodLifecycleWithHandler. destruct h as [h|]; [|apply only_ret].
  apply only_bind.
  - destruct (MarkPodNotReady h); [|apply only_ret].
    eapply emits_mono; [apply policy_silent|]. by intros evs r ->.
  - intros [err|]; [apply only_ret|]. destruct (String.eqb _ _); [apply only_ret|].
    apply only_bind; [|intros [?|?]; apply only_ret].
    apply only_call. intros a. repeat constructor. by apply bool_decide_eq_true.
Qed.

Lemma deletePod_only set p : only (disrupts p) (deletePod (S := S) nowStr set p).
Proof.
  unfold deletePod. destruct (Hooks.IsPodHooked _ p).
  - apply only_bind; [apply only_lifecycle|]. intros [[u gp] [e|]]; apply only_ret.
  - apply only_bind; [|intros [?|]; apply only_ret].
    apply only_call. intros a. repeat constructor. by apply bool_decide_eq_true.
Qed.

Lemma not_inplace_only P ru p : only P (not_inplace (S := S) ru p).
Proof. unfold not_inplace. destruct (String.eqb _ _); apply only_ret. Qed.

Lemma do_inplace_only set ru p old upd : only (disrupts p) (do_inplace (S := S) set ru p old upd).
Proof.
  unfold do_inplace. apply only_bind.
  - apply only_call. intros a. destruct (ur_InPlaceUpdate a); repeat constructor. by apply bool_decide_eq_true.
  - intros res. destruct (ur_InPlaceUpdate res); [|apply not_inplace_only].
    apply only_bind; [apply only_push_when|]. intros _. destruct (ur_UpdateErr res); [apply only_ret|].
    apply only_bind; [apply only_updates|]. intros. apply only_ret.
Qed.

Lemma inPlaceUpdatePod_only set p upd revs : only (disrupts p) (inPlaceUpdatePod (S := S) nowStr set p upd revs).
Proof.
  unfold inPlaceUpdatePod. destruct (sp_RollingUpdate set) as [ru|]; [|apply only_ret].
  destruct (_ && _); [apply only_ret|]. destruct (CanUpdateInPlace _ _ _); [|apply not_inplace_only].
  assert (Hp : forall m, only (disrupts p) m -> only (disrupts p) (patch_state (S := S) m)).
  { intros m Hm. apply only_bind; [done|]. intros [[? ?] ?]. apply only_ret. }
  repeat match goal with |- context [if ?b then _ else _] => destruct b end;
    try apply only_ret; try apply do_inplace_only; apply Hp; [apply only_lifecycle|apply only_lifecycle_handler].
Qed.

(** ** The loop over the pods to update *)

Definition slot_pod (replicas : list (option Pod)) (i : nat) : Pod :=
  match replicas !! i with Some (Some p) => p | _ => named_pod "" end.
Definition slot_names (replicas : list (option Pod)) (l : list nat) : gset string :=
  list_to_set (map (fun i => p_name (slot_pod replicas i)) l).

(** A slot whose pod is still to be updated. *)
Definition pending (updateRevision : string) (replicas : list (option Pod)) (i : nat) : bool :=
  match replicas !! i with
  | Some (Some p) => negb (String.eqb (getPodRevision p) updateRevision) && negb (isTerminating p)
  | _ => false
  end.

Definition update_post (updateRevision : string) (maxUnavailable : Z) (replicas : list (option Pod))
  (U : gset string) (indexes : list nat) (evs : list Event) : Prop :=
  creates evs = [] /\
  exists pre post, indexes = pre ++ post /\
    let ds := filterb (pending updateRevision replicas) pre in
    Forall (fun p => exists d, d ∈ ds /\ p = slot_pod replicas d) (touched evs) /\
    Z.of_nat (size (U ∪ slot_names replicas ds)) <= Z.max (Z.of_nat (size U)) maxUnavailable.

Lemma update_post_stop rev_ m reps U idx : update_post rev_ m reps U idx [].
Proof.
  split; [done|]. exists [], idx. split; [done|]. simpl. split; [constructor|].
  unfold slot_names. simpl. rewrite union_empty_r_L. lia.
Qed.

Lemma update_post_skip rev_ m reps U i idx evs :
  pending rev_ reps i = false -> update_post rev_ m reps U idx evs -> update_post rev_ m reps U (i :: idx) evs.
Proof.
  intros Hp (C & pre & post & -> & Ht & Hs). split; [done|]. exists (i :: pre), post. split; [done|].
  simpl. rewrite Hp. done.
Qed.

(** A pod is disrupted when there is room, or when it is unavailable already. *)
Lemma update_post_touch rev_ m reps U i idx p evs evs' :
  reps !! i = Some (Some p) -> pending rev_ reps i = true ->
  (m <=? Z.of_nat (size U)) && negb (bool_decide (p_name p ∈ U)) = false ->
  Forall (fun ev => disrupts p ev = true) evs ->
  update_post rev_ m reps ({[p_name p]} ∪ U) idx evs' ->
  update_post rev_ m reps U (i :: idx) (evs ++ evs').
Proof.
  intros Hi Hp Hroom Hevs (C & pre & post & -> & Ht & Hs). apply disrupts_touched in Hevs as [Ht0 C0].
  split; [by rewrite creates_app, C0, C|]. exists (i :: pre), post. split; [done|]. simpl. rewrite Hp.
  assert (Hsp : slot_pod reps i = p) by (unfold slot_pod; by rewrite Hi). split.
  - rewrite touched_app. apply Forall_app. split.
    + eapply Forall_impl; [exact Ht0|]. intros q ->. exists i. split; [left|done].
    + eapply Forall_impl; [exact Ht|]. intros q (d & Hd & ->). exists d. split; [by right|done].
  - unfold slot_names in *. simpl. rewrite Hsp.
    replace (U ∪ ({[p_name p]} ∪ _)) with ({[p_name p]} ∪ U ∪ list_to_set (map (fun i => p_name (slot_pod reps i)) (filterb (pending rev_ reps) pre)) : gset string) by set_solver.
    assert (Z.of_nat (size ({[p_name p]} ∪ U)) <= Z.max (Z.of_nat (size U)) m); [|lia].
    destruct (decide (p_name p ∈ U)) as [Hin|Hout].
    + replace ({[p_name p]} ∪ U) with U by set_solver. lia.
    + rewrite bool_decide_false in Hroom by done. rewrite andb_true_r in Hroom. zbool.
      rewrite size_union, size_singleton by set_solver. lia.
Qed.

Lemma update_loop_emits set cur upd revs m reps : forall idx U s,
  emits (update_loop nowStr set cur upd revs m reps U idx s)
    (fun evs _ => update_post (cr_name upd) m reps U idx evs).
Proof.
  induction idx as [|i idx IH]; intros U s; cbn [update_loop]; [apply emits_ret, update_post_stop|].
  assert (Hskip : pending (cr_name upd) reps i = false -> forall U' s', U' = U ->
    emits (update_loop nowStr set cur upd revs m reps U' idx s')
      (fun evs _ => update_post (cr_name upd) m reps U (i :: idx) evs)).
  { intros Hp U' s' ->. eapply emits_mono; [apply IH|]. intros evs x Hx. by apply update_post_skip. }
  destruct (reps !! i) as [[p|]|] eqn:Ei; [|apply Hskip; [|done]; unfold pending; by rewrite Ei..].
  destruct (String.eqb (getPodRevision p) (cr_name upd)) eqn:Er.
  { apply Hskip; [|done]. unfold pending. by rewrite Ei, Er. }
  destruct ((m <=? Z.of_nat (size U)) && negb (bool_decide (p_name p ∈ U))) eqn:Eroom.
  { apply emits_ret, update_post_stop. }
  destruct (isTerminating p) eqn:Et.
  { apply Hskip; [|done]. unfold pending. rewrite Ei, Et. by rewrite andb_false_r. }
  assert (Hp : pending (cr_name upd) reps i = true) by (unfold pending; by rewrite Ei, Er, Et).
  assert (Htouch : forall evs evs', Forall (fun ev => disrupts p ev = true) evs ->
    update_post (cr_name upd) m reps ({[p_name p]} ∪ U) idx evs' ->
    update_post (cr_name upd) m reps U (i :: idx) (evs ++ evs')).
  { intros evs evs' Hevs Hpost. by eapply update_post_touch. }
  eapply emits_step; [apply inPlaceUpdatePod_only|]. intros evs [inp e] Hevs. destruct e as [err|].
  { apply emits_ret, Htouch; [done|apply update_post_stop]. }
  eapply emits_step with (P := disrupts p); [destruct inp; [apply only_ret|apply deletePod_only]|].
  intros evs2 [b e2] Hevs2. destruct e2 as [err|].
  { apply emits_ret. rewrite app_nil_r. rewrite <-(app_nil_r (evs ++ evs2)).
    apply Htouch; [by apply Forall_app|apply update_post_stop]. }
  eapply emits_mono; [apply IH|]. intros evs3 x Hx. rewrite app_assoc. apply Htouch; [by apply Forall_app|done].
Qed.

(** ** The steps before the loop *)

(** A refresh sends patches only, and reports them: when it reports no change and no
    error it has sent nothing. *)
Lemma refreshPodState_emits set p rev_ :
  emits (refreshPodState (S := S) nowStr set p rev_) (fun evs r =>
    Forall (fun ev => patches ev = true) evs /\ (r.1.1 = false -> r.2 = None -> evs = [])).
Proof.
  unfold refreshPodState. destruct (sp_RollingUpdate set) as [ru|]; [|by apply emits_ret].
  apply emits_quiet; [by apply only_call|]. intros res. destruct (RefreshErr res); [by apply emits_ret|].
  destruct (String.eqb _ ""); [by apply emits_ret|].
  eapply emits_bind; [apply UpdatePodLifecycle_emits|]. intros evs [[u gp] e] Hevs. simpl in Hevs.
  assert (Hpat : Forall (fun ev => patches ev = true) evs) by (destruct Hevs as [[-> _]|(_ & _ & ->)]; by repeat constructor).
  destruct e; apply emits_ret; rewrite app_nil_r; (split; [done|]); simpl; [done|].
  intros -> _. destruct Hevs as [[-> _]|[Hu _]]; [done|congruence].
Qed.

Lemma refresh_all_emits set rev_ pods : forall modified,
  emits (refresh_all (S := S) nowStr set rev_ modified pods) (fun evs r =>
    Forall (fun ev => patches ev = true) evs /\ (r.1 = false -> r.2 = None -> evs = [] /\ modified = false)).
Proof.
  induction pods as [|p pods IH]; intros modified; cbn [refresh_all]; [by apply emits_ret|].
  eapply emits_bind; [apply refreshPodState_emits|]. intros evs [[rf d] e] [Hpat Hsil]. simpl in Hsil.
  destruct e as [err|]; [apply emits_ret; rewrite app_nil_r; by split|].
  apply emits_quiet; [apply only_push_when|]. intros [].
  eapply emits_mono; [apply IH|]. intros evs' [b e'] [Hpat' Hsil']. simpl in *.
  split; [by apply Forall_app|]. intros Hb He. destruct (Hsil' Hb He) as [-> Hm].
  apply orb_false_iff in Hm as [-> ->]. by rewrite Hsil.
Qed.

(** The replicas that count as unavailable for an update. *)
Definition unavailable_names (minReadySeconds : Z) (replicas : list (option Pod)) : gset string :=
  list_to_set (omap (fun o => match o with
    | Some p => if is_ok (option_map (fun _ => ""%string) (unavailable_for_update (S := S) now minReadySeconds p))
                then None else Some (p_name p)
    | None => None
    end) replicas).

Lemma collect_unavailable_emits set m reps : forall wt names,
  emits (collect_unavailable (S := S) now set m wt names reps) (fun evs u =>
    evs = [] /\ u = names ∪ unavailable_names m reps).
Proof.
  unfold unavailable_names.
  induction reps as [|[p|] reps IH]; intros wt names; cbn [collect_unavailable].
  - apply emits_ret. split; [done|]. simpl. by rewrite union_empty_r_L.
  - simpl. destruct (unavailable_for_update now m p) as [w|]; [|apply IH].
    assert (Heq : forall X : gset string, {[p_name p]} ∪ names ∪ X = names ∪ ({[p_name p]} ∪ X)) by set_solver.
    simpl. rewrite <-Heq. destruct (_ && _); [|apply IH].
    apply emits_quiet; [apply only_push|]. intros _. apply IH.
  - apply IH.
Qed.

(** The order of the strategy without [unorderedUpdate]: from the highest slot down to
    the partition. *)
Lemma sort_ordered gate strategy rev_ total reps :
  (match strategy with Some ru => ru_UnorderedUpdate ru | None => None end) = None ->
  let part := match strategy with Some ru => default 0 (ru_Partition ru) | None => 0 end in
  let l := sortPodsToUpdate gate strategy rev_ total reps in
  StronglySorted (flip lt) l /\
  (forall i, i ∈ l <-> part <= Z.of_nat i /\ exists p, reps !! i = Some (Some p)).
Proof.
  intros Hu. cbv zeta. unfold sortPodsToUpdate. rewrite Hu. split.
  - eapply sorted_sublist; [|apply (slots_down reps)]. apply map_filterb_sublist.
  - intros i. rewrite list_elem_of_In, in_map_iff. split.
    + intros ([j p] & <- & Hin). apply list_elem_of_In, filterb_elem in Hin as [Hin Hp]. simpl in *. zbool.
      split; [done|]. apply down_elem. by apply (list_elem_of_fmap_2' fst _ (j, p)).
    + intros (Hp & q & Hq). exists (i, q). split; [done|]. apply list_elem_of_In, filterb_elem.
      split; [|simpl; by apply Z.leb_le]. apply list_elem_of_In, in_rev. rewrite rev_involutive.
      apply list_elem_of_In, slots_elem. eauto.
Qed.

(** With [unorderedUpdate], no more pods than the partition leaves. *)
Lemma sort_unordered_length gate ru pr rev_ total reps : ru_UnorderedUpdate ru = Some pr ->
  len (sortPodsToUpdate gate (Some ru) rev_ total reps) <= Z.max 0 (total - default 0 (ru_Partition ru)).
Proof.
  intros Hu. unfold sortPodsToUpdate. rewrite Hu. destruct (_ <=? 0) eqn:E; zbool; [simpl; lia|].
  destruct (_ <? _) eqn:E2; zbool; [|lia]. unfold slice_to. rewrite length_take. lia.
Qed.

Definition ru_partition (set : StatefulSet) : Z :=
  match sp_RollingUpdate set with Some ru => default 0 (ru_Partition ru) | None => 0 end.
Definition ru_ordered (set : StatefulSet) : bool :=
  match sp_RollingUpdate set with
  | Some ru => match ru_UnorderedUpdate ru with None => true | Some _ => false end
  | None => true
  end.

(** What a rolling update may do. *)
Definition rolling_post (set : StatefulSet) (upd : ControllerRevision) (reps : list (option Pod))
  (minReady : Z) (evs : list Event) : Prop :=
    creates evs = [] /\
    (Forall (fun ev => patches ev = true) evs \/
     exists maxUnavailable ds, rolling_maxUnavailable set = Some maxUnavailable /\
       Forall (fun p => exists d, d ∈ ds /\ p = slot_pod reps d) (touched evs) /\
       Forall (fun d => pending (cr_name upd) reps d = true) ds /\
       (let unavailable := unavailable_names minReady reps in
        Z.of_nat (size (unavailable ∪ slot_names reps ds))
          <= Z.max (Z.of_nat (size unavailable)) maxUnavailable) /\
       (if ru_ordered set then
          forall d, d ∈ ds -> ru_partition set <= Z.of_nat d /\
            forall j, (d < j)%nat -> pending (cr_name upd) reps j = true -> j ∈ ds
        else len ds <= Z.max 0 (sp_Replicas set - ru_partition set))).

Lemma rolling_update_emits set s cur upd revs pods reps minReady :
  emits (rollingUpdateStatefulsetPods g now nowStr set s cur upd revs pods reps minReady)
    (fun evs _ => rolling_post set upd reps minReady evs).
Proof.
  unfold rollingUpdateStatefulsetPods, rolling_post.
  apply emits_quiet.
  { apply emits_silent; intros w; unfold ask_updates; [|constructor]. by destruct (Update.SatisfiedExpectations _ _ _ _). }
  intros [[sat d0] ob]. destruct sat; simpl; [|apply emits_ret; split; [done|by left]].
  eapply emits_bind; [apply refresh_all_emits|]. intros evs [mo e] [Hpat Hsil]. simpl in Hsil.
  assert (Hstop : creates (evs ++ []) = [] /\ (Forall (fun ev => patches ev = true) (evs ++ []))).
  { rewrite app_nil_r. split; [|done]. clear -Hpat. induction Hpat as [|ev evs Hev _ IH]; [done|]. by destruct ev. }
  destruct Hstop as [Hst1 Hst2].
  destruct e as [err|]; [apply emits_ret; split; [done|by left]|].
  destruct mo; [apply emits_ret; split; [done|by left]|]. destruct (Hsil eq_refl eq_refl) as [-> _]. simpl.
  destruct (match sp_RollingUpdate set with Some ru => ru_Paused ru | None => false end);
    [apply emits_ret; split; [done|by left]|].
  destruct (rolling_maxUnavailable set) as [mu|]; [|apply emits_ret; split; [done|by left]].
  eapply emits_bind; [apply collect_unavailable_emits|]. intros evs2 u [-> ->]. rewrite union_empty_l_L. simpl.
  eapply emits_mono; [apply update_loop_emits|].
  intros evs x (C & pre & post & Hpre & Ht & Hsz). split; [done|]. right.
  exists mu, (filterb (pending (cr_name upd) reps) pre). split; [done|]. split; [done|].
  split; [apply Forall_forall; intros d Hd; by apply filterb_elem in Hd as [_ ?]|]. split; [done|].
  assert (Hord : (match sp_RollingUpdate set with Some ru => ru_UnorderedUpdate ru | None => None end) = None ->
    forall d, d ∈ filterb (pending (cr_name upd) reps) pre -> ru_partition set <= Z.of_nat d /\
    forall j, (d < j)%nat -> pending (cr_name upd) reps j = true -> j ∈ filterb (pending (cr_name upd) reps) pre).
  { intros Hu d Hd. destruct (sort_ordered (sg_PreparingUpdateAsUpdate g) _ (cr_name upd) (sp_Replicas set) reps Hu) as [Hs Hin].
    rewrite Hpre in Hs, Hin. apply filterb_elem in Hd as [Hd _].
    destruct (proj1 (Hin d)) as [Hpart _]; [apply elem_of_app; by left|]. split; [done|].
    intros j Hj Hp. apply filterb_elem. split; [|done].
    assert (Hj' : j ∈ pre ++ post).
    { apply Hin. split; [unfold ru_partition in Hpart; lia|]. unfold pending in Hp.
      destruct (reps !! j) as [[q|]|]; [by exists q|done..]. }
    apply elem_of_app in Hj' as [?|Hj']; [done|].
    pose proof (StronglySorted_app_1_elem_of _ pre post d j Hs Hd Hj') as Hlt. unfold flip in Hlt. lia. }
  unfold ru_ordered. destruct (sp_RollingUpdate set) as [ru|] eqn:Eru; [|by apply Hord].
  destruct (ru_UnorderedUpdate ru) as [pr|] eqn:Eun; [|by apply Hord].
  pose proof (sort_unordered_length (sg_PreparingUpdateAsUpdate g) ru pr (cr_name upd) (sp_Replicas set) reps Eun) as Hl.
  rewrite Hpre, length_app in Hl. unfold ru_partition. rewrite Eru.
  pose proof (sublist_length _ _ (filterb_sublist (pending (cr_name upd) reps) pre)). lia.
Qed.
(** C25: A rolling update keeps its limits. Whatever the server answers, it creates no
    pod, and either it only moves lifecycle states, or the pods it updates in place,
    prepares or deletes are those of a list of slots that are neither updated nor on
    their way out, such that the replicas that are unavailable together with these stay
    within maxUnavailable (or no replica is newly disrupted); without unorderedUpdate
    none of them is below the partition, and every slot above one of them is updated, on
    its way out or in the list; with unorderedUpdate there are at most replicas minus
    partition of them. *)
Theorem rolling_update_limits set s cur upd revs pods reps minReady :
  emits (rollingUpdateStatefulsetPods g now nowStr set s cur upd revs pods reps minReady) (fun evs _ =>
    creates evs = [] /\
    (Forall (fun ev => patches ev = true) evs \/
     exists maxUnavailable ds, rolling_maxUnavailable set = Some maxUnavailable /\
       Forall (fun p => exists d, d ∈ ds /\ p = slot_pod reps d) (touched evs) /\
       Forall (fun d => pending (cr_name upd) reps d = true) ds /\
       (let unavailable := unavailable_names minReady reps in
        Z.of_nat (size (unavailable ∪ slot_names reps ds))
          <= Z.max (Z.of_nat (size unavailable)) maxUnavailable) /\
       (if ru_ordered set then
          forall d, d ∈ ds -> ru_partition set <= Z.of_nat d /\
            forall j, (d < j)%nat -> pending (cr_name upd) reps j = true -> j ∈ ds
        else len ds <= Z.max 0 (sp_Replicas set - ru_partition set)))).
Proof. apply rolling_update_emits. Qed.
End Rolling.
