(* ===== verification/StatefulSetSync.v ===== *)
(** * The advanced StatefulSet: one synchronization

    The theorems on [updateStatefulSet] as a whole, from the pods listed to the writes
    sent: the order and the limits of scaling out and in, and the status. *)

From S2P Require Import Prelude GoLib GoText K8s Tools Expectations Lifecycle Selector UpdateSort World RevisionHistory StatefulSetUtils StatefulPodControl StatefulSetControl StatefulSetOrder StatefulSetRolling.
Open Scope Z_scope.
Open Scope kruise_scope.

(** How many wanted replicas below an ordinal are missing or not good. *)
Definition lacking (now minReady : Z) (R : gset Z) (pods : list Pod) (ord : Z) : Z :=
  countb (fun k => unreserved R k &&
    match replica_of pods k with
    | Some q => negb (good now minReady q)
    | None => true
    end) (seqZ 0 ord).

(** The limit on bad replicas under which a pod is still created. *)
Definition creation_limit (set : StatefulSet) : option Z :=
  if allowsBurst set then default None (scale_maxUnavailable set) else Some 1.

Section Sync.
Context {S : Type} `{IA : Api S} `{IB : StatefulApi S} `{IC : RevisionApi S} `{ID : GoSort}.
Context (g : StatefulGates) (now : Z) (nowStr : string).
Context (DecodeTemplate : string -> error + PodTemplate) (SelectorString : option LabelSelector -> error + string).

(** The sets of a round differ in the template only. *)
Definition round_ok (r : Round) : Prop :=
  (exists t, r_currentSet r = with_template (r_set r) t) /\ (exists t, r_updateSet r = with_template (r_set r) t).

Lemma setPodRevision_name p rev_ : p_name (setPodRevision p rev_) = p_name p.
Proof. done. Qed.
Lemma setPodRevision_phase p rev_ : p_phase (setPodRevision p rev_) = p_phase p.
Proof. done. Qed.

Lemma newStatefulSetPod_facts set t ord : 0 <= ord < 2 ^ 31 ->
  let p := newStatefulSetPod (with_template set t) ord in
  p_name p = getPodName set ord /\ p_phase p = ""%string.
Proof.
  intros Ho. pose proof (ordinal_of_pod_name (with_template set t) ord Ho) as Hr. cbv zeta. split; [|done].
  unfold newStatefulSetPod. cbv zeta.
  set (pod := with_name _ _ _). change (getPodName (with_template set t) (getOrdinal pod) = getPodName set ord).
  unfold pod, getOrdinal. cbn [p_name with_name]. by rewrite Hr.
Qed.

(** A new pod has the name and the ordinal of its slot, and no phase yet. *)
Lemma newPod_facts r ord reps : round_ok r -> 0 <= ord < 2 ^ 31 ->
  let p := r_newPod g r ord reps in
  p_name p = getPodName (r_set r) ord /\ getOrdinal p = ord /\ p_phase p = ""%string.
Proof.
  intros [(t1 & E1) (t2 & E2)] Ho. cbv zeta.
  assert (Hp : p_name (r_newPod g r ord reps) = getPodName (r_set r) ord /\ p_phase (r_newPod g r ord reps) = ""%string).
  { unfold r_newPod, newVersionedStatefulSetPod. rewrite E1, E2.
    destruct (isCurrentRevisionNeeded _ _ _ _ _); rewrite setPodRevision_name, setPodRevision_phase;
      by apply newStatefulSetPod_facts. }
  destruct Hp as [Hn Hph]. split; [done|]. split; [|done].
  unfold getOrdinal. by rewrite Hn, ordinal_of_pod_name.
Qed.

Section Pods.
Context (r : Round) (pods : list Pod) (replicaCount : Z) (R : gset Z).
Context (Hok : round_ok r) (Hrange : getStatefulSetReplicasRange (r_set r) = (replicaCount, R)).
Context (Hn : 0 <= sp_Replicas (r_set r)) (Hb : replicaCount <= 2 ^ 31).

Definition filled : list (option Pod) := fill (r_newPod g r) R (classify replicaCount R pods).1.

Lemma filled_length : length filled = Z.to_nat replicaCount.
Proof.
  unfold filled. destruct (fill_spec (r_newPod g r) R (classify replicaCount R pods).1) as [-> _].
  pose proof (classify_spec replicaCount R pods) as Hc.
  destruct (classify replicaCount R pods) as [reps cond]. apply Hc.
Qed.

(** The slot of an ordinal: empty when it is reserved, the pod listed, or a new one. *)
Lemma filled_slot j : (j < Z.to_nat replicaCount)%nat ->
  if bool_decide (Z.of_nat j ∈ R) then filled !! j = Some None
  else match replica_of pods (Z.of_nat j) with
       | Some q => filled !! j = Some (Some q)
       | None => exists reps, filled !! j = Some (Some (r_newPod g r (Z.of_nat j) reps))
       end.
Proof.
  intros Hj. unfold filled. pose proof (classify_spec replicaCount R pods) as Hc.
  destruct (classify replicaCount R pods) as [reps cond]. destruct Hc as (Hl & Hs & _). simpl.
  pose proof (Hs j Hj) as Hsj. destruct (fill_spec (r_newPod g r) R reps) as [_ Hf].
  destruct (Hf j ltac:(lia)) as [[E Hw]|(Hr & E & reps' & E')].
  - rewrite E, Hsj in *. case_bool_decide as Hr; [done|]. destruct (replica_of pods (Z.of_nat j)) eqn:Er; [done|].
    by destruct Hw.
  - rewrite E in Hsj. rewrite bool_decide_false in Hsj by done. rewrite bool_decide_false by done.
    injection Hsj as <-. by exists reps'.
Qed.

Lemma seqZ_next n : 0 <= n -> seqZ 0 (n + 1) = seqZ 0 n ++ [n].
Proof. intros Hn'. rewrite seqZ_app by lia. f_equal. Qed.

(** A new pod is bad. *)
Lemma new_not_good j reps : (j < Z.to_nat replicaCount)%nat -> good now (r_minReady r) (r_newPod g r (Z.of_nat j) reps) = false.
Proof.
  intros Hj. destruct (newPod_facts r (Z.of_nat j) reps Hok) as (_ & _ & Hp); [lia|].
  apply not_true_is_false. intros Hg. apply good_running in Hg. rewrite Hp in Hg. done.
Qed.

(** The bad slots before an ordinal are the wanted replicas that lack. *)
Lemma filled_lacking j : (j <= Z.to_nat replicaCount)%nat ->
  countb (bad_slot now (r_minReady r)) (take j filled) = lacking now (r_minReady r) R pods (Z.of_nat j).
Proof.
  unfold lacking. induction j as [|j IH]; [done|]. intros Hj.
  replace (Z.of_nat (Datatypes.S j)) with (Z.of_nat j + 1) by lia.
  rewrite seqZ_next, countb_app by lia. rewrite <-IH by lia. cbn [countb]. unfold unreserved at 1.
  pose proof (filled_slot j ltac:(lia)) as Hs. case_bool_decide as Hr.
  { rewrite (countb_take_S _ _ _ _ Hs). simpl. lia. }
  destruct (replica_of pods (Z.of_nat j)) as [q|].
  - rewrite (countb_take_S _ _ _ _ Hs). simpl. lia.
  - destruct Hs as [reps Hs]. rewrite (countb_take_S _ _ _ _ Hs). cbn [bad_slot].
    rewrite new_not_good by lia. simpl. lia.
Qed.

(** A pod created for a slot, in terms of the pods listed. *)
Definition created_replica (limit : option Z) (ord : Z) (p : Pod) : Prop :=
  0 <= ord < replicaCount /\ ord ∉ R /\ getOrdinal p = ord /\
  match replica_of pods ord with
  | Some q => isCreated q = false \/ isFailed q = true
  | None => p_name p = getPodName (r_set r) ord
  end /\
  forall m, limit = Some m -> lacking now (r_minReady r) R pods ord < m.

Lemma SetPodLifecycle_name state t p : p_name (Hooks.SetPodLifecycle state t p) = p_name p.
Proof. done. Qed.

Lemma created_for_replica limit j p :
  created_for g now nowStr r limit filled j p -> created_replica limit (Z.of_nat j) p.
Proof.
  intros (q & Hq & Hb' & Hp & Hlim).
  assert (Hj : (j < Z.to_nat replicaCount)%nat) by (rewrite <-filled_length; by eapply lookup_lt_Some).
  pose proof (filled_slot j Hj) as Hs. case_bool_decide as Hr; [congruence|].
  split; [lia|]. split; [done|].
  assert (Hnew : forall reps, let p := Hooks.SetPodLifecycle LifecycleStateNormal nowStr (r_newPod g r (Z.of_nat j) reps) in
    getOrdinal p = Z.of_nat j /\ p_name p = getPodName (r_set r) (Z.of_nat j)).
  { intros reps. cbv zeta. unfold getOrdinal. rewrite SetPodLifecycle_name.
    destruct (newPod_facts r (Z.of_nat j) reps Hok) as (E1 & E2 & _); [lia|]. by split. }
  assert (Hqs : getOrdinal (Hooks.SetPodLifecycle LifecycleStateNormal nowStr q) = getOrdinal q).
  { unfold getOrdinal. by rewrite SetPodLifecycle_name. }
  split; [|split].
  - destruct Hp as [->|(reps & ->)]; [|apply Hnew]. rewrite Hqs.
    destruct (replica_of pods (Z.of_nat j)) as [q'|] eqn:Er.
    + apply replica_of_Some in Er as [_ Er]. congruence.
    + destruct Hs as [reps Hs]. simplify_eq. apply newPod_facts; [done|lia].
  - destruct (replica_of pods (Z.of_nat j)) as [q'|] eqn:Er; [congruence|].
    destruct Hs as [reps' Hs]. destruct Hp as [->|(reps & ->)]; [|apply Hnew].
    simplify_eq. apply Hnew.
  - intros m Hm. rewrite <-filled_lacking by lia. by apply Hlim.
Qed.

(** A failed pod of a slot is one that was listed. *)
Lemma filled_failed p : isFailed p = true -> Some p ∈ filled -> p ∈ pods.
Proof.
  intros Hf Hin. apply list_elem_of_lookup in Hin as [j Hj].
  assert (Hlt : (j < Z.to_nat replicaCount)%nat) by (rewrite <-filled_length; by eapply lookup_lt_Some).
  pose proof (filled_slot j Hlt) as Hs. case_bool_decide; [congruence|].
  destruct (replica_of pods (Z.of_nat j)) as [q|] eqn:Er.
  - apply replica_of_Some in Er as [Hq _]. congruence.
  - destruct Hs as [reps Hs]. simplify_eq. exfalso.
    destruct (newPod_facts r (Z.of_nat j) reps Hok) as (_ & _ & Hp); [lia|]. unfold isFailed in Hf. by rewrite Hp in Hf.
Qed.

(** ** The whole of the pods *)

(** The condemned pods, in the order of the loop. *)
Definition condemned_pods : list Pod := sort_by ascendingOrdinal (classify replicaCount R pods).2.

Lemma condemned_pods_elem p : p ∈ condemned_pods <-> p ∈ pods /\ is_condemned replicaCount R p = true.
Proof.
  unfold condemned_pods. rewrite (sort_by_perm _ _ _). pose proof (classify_spec replicaCount R pods) as Hc.
  destruct (classify replicaCount R pods) as [reps cond]. destruct Hc as (_ & _ & ->). apply filterb_elem.
Qed.

(** Later in the list means a higher ordinal. *)
Lemma condemned_pods_order i j p q :
  condemned_pods !! i = Some p -> condemned_pods !! j = Some q -> getOrdinal p < getOrdinal q -> (i < j)%nat.
Proof.
  intros Hi Hj Hlt. destruct (decide (i < j)%nat) as [|Hge]; [done|]. exfalso.
  destruct (decide (i = j)) as [->|Hne]; [simplify_eq; lia|].
  assert (Hs : sorted_by ascendingOrdinal condemned_pods) by (apply sort_by_sorted, (StrictWeak_key getOrdinal)).
  pose proof (sorted_lookup_lt _ _ Hs j i q p ltac:(lia) Hj Hi) as Hle. unfold ascendingOrdinal in Hle. zbool. lia.
Qed.

(** Every condemned pod that [P] is about is passed over: the policy is Parallel, and the
    pod is on its way out or held. *)
Definition leaving (P : Pod -> Prop) : Prop :=
  forall q, q ∈ pods -> is_condemned replicaCount R q = true -> P q ->
    r_monotonic r = false /\ (isTerminating q = true \/ held (r_set r) q = true).
(** One condemned pod, whose successors are passed over. *)
Definition scaled_one (scaled : list Pod) : Prop :=
  exists p, scaled = [p] /\ p ∈ pods /\ is_condemned replicaCount R p = true /\ isTerminating p = false /\
    leaving (fun q => getOrdinal p < getOrdinal q).

(** What the pods of a round may see: the pods created, in the order of their ordinals;
    the failed pods, at most one condemned pod and the pods of the rolling update
    deleted. *)
Definition sync_post (limit : option Z) (evs : list Event) : Prop :=
  (exists ords, StronglySorted Z.lt ords /\ Forall2 (created_replica limit) ords (creates evs)) /\
  exists failed scaled updated, deletes evs = failed ++ scaled ++ updated /\
    Forall (fun p => isFailed p = true /\ p ∈ pods) failed /\
    (scaled = [] \/ updated = [] /\ scaled_one scaled) /\
    (updated <> [] -> leaving (fun _ => True)) /\
    (r_monotonic r = true -> scaled ++ updated <> [] ->
       creates evs = [] /\ failed = [] /\ lacking now (r_minReady r) R pods replicaCount = 0).

(** The pods deleted by the loop over the condemned ones. *)
Lemma condemned_scaled first evs x : condemned_post now r first condemned_pods (length condemned_pods) evs x ->
  deletes evs = [] \/ scaled_one (deletes evs).
Proof.
  intros (_ & D & _). destruct D as [D|(t & p & Ht & Hp & D & Htm & Hpass & Hmono)]; [by left|right].
  exists p. split; [done|]. destruct (proj1 (condemned_pods_elem p)) as [Hin Hc]; [by eapply list_elem_of_lookup_2|].
  split; [done|]. split; [done|]. split; [done|]. intros q Hq Hqc Hlt.
  destruct (proj1 (list_elem_of_lookup condemned_pods q)) as [k Hk]; [by apply condemned_pods_elem|].
  pose proof (condemned_pods_order t k p q Hp Hk Hlt) as Htk. pose proof (lookup_lt_Some _ _ _ Hk) as Hkn.
  split; [|by apply (Hpass k)]. destruct (r_monotonic r) eqn:Em; [|done]. destruct (Hmono eq_refl). lia.
Qed.

(** After the loop over the condemned pods, they are all on their way out or held. *)
Lemma condemned_done first evs s : condemned_post now r first condemned_pods (length condemned_pods) evs (inr s) ->
  leaving (fun _ => True).
Proof.
  intros (_ & _ & Hx). destruct (Hx s eq_refl) as (_ & Hm & Hall). intros q Hq Hqc _.
  destruct (proj1 (list_elem_of_lookup condemned_pods q)) as [k Hk]; [by apply condemned_pods_elem|].
  pose proof (lookup_lt_Some _ _ _ Hk) as Hkn. split; [|by apply (Hall k)].
  destruct (r_monotonic r) eqn:Em; [|done]. rewrite Hm in Hkn by done. lia.
Qed.

(** What follows the loop over the replicas: at most one condemned pod is deleted, or
    the rolling update runs. *)
Lemma after_replicas_emits cur upd revs first st :
  emits (after_replicas g now nowStr r cur upd revs pods first condemned_pods st) (fun evs _ =>
    creates evs = [] /\
    exists scaled updated, deletes evs = scaled ++ updated /\
      (scaled = [] \/ updated = [] /\ scaled_one scaled) /\ (updated <> [] -> leaving (fun _ => True))).
Proof.
  unfold after_replicas. eapply emits_step with (P := no_pod_write).
  { destruct (sg_AutoDeletePVC g); [apply condemned_claims_only|apply only_ret]. }
  intros evs e Hevs. pose proof (no_pod_write_creates _ Hevs) as C. pose proof (no_pod_write_deletes _ Hevs) as D.
  destruct e as [err|].
  { apply emits_ret. rewrite app_nil_r, C, D. split; [done|]. exists [], []. by repeat (split; [by auto|]). }
  eapply emits_bind; [by apply condemned_loop_emits|]. intros evs2 x Hx.
  pose proof (condemned_scaled _ _ _ Hx) as Hsc. assert (C2 : creates evs2 = []) by apply Hx.
  assert (Hstop : forall evs3, evs3 = [] -> creates (evs ++ evs2 ++ evs3) = [] /\
    exists scaled updated, deletes (evs ++ evs2 ++ evs3) = scaled ++ updated /\
      (scaled = [] \/ updated = [] /\ scaled_one scaled) /\ (updated <> [] -> leaving (fun _ => True))).
  { intros evs3 ->. rewrite app_nil_r, creates_app, deletes_app, C, C2, D. split; [done|].
    exists (deletes evs2), []. split; [by rewrite app_nil_r|]. split; [|done].
    destruct Hsc as [Hsc|Hsc]; [by left|by right]. }
  destruct x as [res|s]; [by apply emits_ret, Hstop|].
  destruct (String.eqb _ _); [by apply emits_ret, Hstop|].
  eapply emits_mono; [apply rolling_update_emits|]. intros evs3 _ (C3 & _).
  rewrite !creates_app, !deletes_app, C, C2, C3, D. split; [done|].
  assert (D2 : deletes evs2 = []) by (destruct Hx as (_ & _ & Hx); by destruct (Hx s eq_refl)).
  exists [], (deletes evs3). rewrite D2. split; [done|]. split; [by left|]. intros _. by eapply condemned_done.
Qed.

Lemma sync_pods_emits limit scaleMax cur upd revs s :
  (if r_monotonic r then limit = Some 1 else limit = scaleMax /\ forall m, scaleMax = Some m -> 1 <= m) ->
  emits (sync_pods g now nowStr r cur upd revs pods scaleMax s) (fun evs _ => sync_post limit evs).
Proof.
  intros Hlim. unfold sync_pods. rewrite Hrange.
  pose proof filled_length as Hlen. unfold filled in Hlen.
  assert (Hcp : condemned_pods = sort_by ascendingOrdinal (classify replicaCount R pods).2) by done.
  assert (Hff : filled = fill (r_newPod g r) R (classify replicaCount R pods).1) by done.
  destruct (classify replicaCount R pods) as [reps cond]. cbn [fst snd] in Hcp, Hff, Hlen.
  rewrite <-Hcp, <-Hff in *. destruct (ss_deletion (r_set r)) as [d|].
  { apply emits_ret. split; [exists []; repeat constructor|]. exists [], [], [].
    split; [done|]. split; [constructor|]. split; [by left|]. done. }
  eapply emits_bind.
  { apply (replicas_loop_emits g now nowStr r limit filled); [lia|done|].
    unfold fits. rewrite take_0. simpl. destruct (r_monotonic r); [done|]. destruct Hlim as [-> Hm].
    destruct scaleMax as [m|]; [|done]. exists m. split; [done|]. specialize (Hm m eq_refl). lia. }
  intros evs x ((js & Hjs & _ & HC) & HD & Hmono).
  assert (Hords : StronglySorted Z.lt (map Z.of_nat js) /\ Forall2 (created_replica limit) (map Z.of_nat js) (creates evs)).
  { split.
    - clear -Hjs. induction Hjs as [|j js _ IH Hj]; simpl; constructor; [done|]. apply Forall_map.
      eapply Forall_impl; [exact Hj|]. simpl. lia.
    - apply Forall2_fmap_l. eapply Forall2_impl; [exact HC|]. apply created_for_replica. }
  assert (HD' : Forall (fun p => isFailed p = true /\ p ∈ pods) (deletes evs)).
  { eapply Forall_impl; [exact HD|]. intros p [Hf Hp]. split; [done|]. by apply filled_failed. }
  destruct x as [res|st].
  { apply emits_ret. rewrite app_nil_r. split; [eauto|]. exists (deletes evs), [], [].
    split; [by rewrite app_nil_r|]. split; [done|]. split; [by left|]. done. }
  eapply emits_mono; [apply after_replicas_emits|].
  intros evs2 _ (C2 & scaled & updated & D2 & Hsc & Hup).
  unfold sync_post. rewrite creates_app, deletes_app, C2, app_nil_r, D2. split; [eauto|].
  exists (deletes evs), scaled, updated. split; [done|]. split; [done|]. split; [done|]. split; [done|].
  intros Em _. destruct (Hmono st eq_refl Em) as (-> & -> & _ & Hb0). split; [done|]. split; [done|].
  pose proof (replicas_range_spec (r_set r) Hn) as H0. rewrite Hrange in H0.
  rewrite <-(Z2Nat.id replicaCount), <-filled_lacking by lia. rewrite drop_0 in Hb0.
  rewrite take_ge by lia. done.
Qed.
End Pods.

(** The pods of a round of [updateStatefulSet]. *)
Lemma pre_download_only P set cur upd : only P (pre_download g (S := S) set cur upd).
Proof.
  unfold pre_download. split_ifs; try apply only_ret; (apply only_bind; [by apply only_call|intros; apply only_ret]).
Qed.

Lemma scale_maxUnavailable_pos set m : scale_maxUnavailable set = Some (Some m) -> 1 <= m.
Proof.
  unfold scale_maxUnavailable. destruct (sp_ScaleMaxUnavailable set) as [x|]; [|done].
  destruct (GetValueFromIntOrPercent _ _ _) as [v|]; [|done]. intros [= <-]. destruct (v <? 1) eqn:E; zbool; lia.
Qed.

Lemma updateStatefulSet_emits set cur upd cc pods revs replicaCount R :
  getStatefulSetReplicasRange set = (replicaCount, R) -> 0 <= sp_Replicas set -> replicaCount <= 2 ^ 31 ->
  emits (updateStatefulSet g now nowStr DecodeTemplate SelectorString set cur upd cc pods revs)
    (fun evs _ => evs = [] \/ exists r, r_set r = set /\ sync_post r pods replicaCount R (creation_limit set) evs).
Proof.
  intros Hrange Hn Hb. unfold updateStatefulSet, ApplyRevision.
  destruct (SelectorString _) as [err|sel]; [apply emits_ret; by left|].
  destruct (DecodeTemplate (cr_data cur)) as [err|t1]; [apply emits_ret; by left|].
  destruct (DecodeTemplate (cr_data upd)) as [err|t2]; [apply emits_ret; by left|].
  apply emits_quiet; [apply pre_download_only|]. intros [].
  destruct (scale_maxUnavailable set) as [sm|] eqn:Esm; [|apply emits_ret; by left].
  set (r := mkRound set _ _ _ _). eapply emits_mono.
  - apply (sync_pods_emits r pods replicaCount R) with (limit := creation_limit set); try done.
    + split; [by exists t1|by exists t2].
    + unfold r_monotonic, creation_limit. simpl. destruct (allowsBurst set); simpl; [|done].
      rewrite Esm. split; [done|]. intros m ->. by eapply scale_maxUnavailable_pos.
  - intros evs x He. right. by exists r.
Qed.

(** C26: Scaling out goes by ordinal and within its limit. Whatever the server answers,
    one synchronization creates pods for strictly increasing ordinals, each wanted and
    not reserved, whose pod is missing, was never created or has failed; a pod that was
    missing gets the name of its ordinal; and when a pod is created, fewer wanted
    replicas of lower ordinals are missing, terminating or not available than the limit
    (1 for OrderedReady, so that there are none; scaleStrategy.maxUnavailable for
    Parallel). *)
Theorem scale_out_order set cur upd cc pods revs replicaCount R
  (Hrange : getStatefulSetReplicasRange set = (replicaCount, R))
  (Hn : 0 <= sp_Replicas set) (Hb : replicaCount <= 2 ^ 31) :
  emits (updateStatefulSet g now nowStr DecodeTemplate SelectorString set cur upd cc pods revs) (fun evs _ =>
    exists ords, StronglySorted Z.lt ords /\
      Forall2 (fun ord p =>
        0 <= ord < replicaCount /\ ord ∉ R /\ getOrdinal p = ord /\
        match replica_of pods ord with
        | Some q => isCreated q = false \/ isFailed q = true
        | None => p_name p = getPodName set ord
        end /\
        forall m, creation_limit set = Some m -> lacking now (getMinReadySeconds set) R pods ord < m)
      ords (creates evs)).
Proof.
  eapply emits_mono; [by eapply updateStatefulSet_emits|].
  intros evs _ [->|(r & Hr & (ords & Hs & Hc) & _)]; [exists []; repeat constructor|].
  exists ords. split; [done|]. eapply Forall2_impl; [exact Hc|]. intros ord p Hp.
  unfold created_replica, r_minReady in Hp. by rewrite Hr in Hp.
Qed.

(** The deletions of one synchronization under both policies, whatever the server answers: failed
    replicas, then at most one pod that the set does not want, and only when there is none of these
    the pods of the rolling update.  Every unwanted pod of a higher ordinal than the one deleted is
    on its way out or held by its hook, and with OrderedReady there is none; the pods of the rolling
    update are deleted only when the same holds of all unwanted pods; and with OrderedReady these
    deletions happen only when every wanted replica is available and nothing was created or
    replaced.  The API documents that Parallel deletes all unwanted pods at once: the code deletes
    one for each synchronization under Parallel too. *)
Lemma scale_in_steps set cur upd cc pods revs replicaCount R
  (Hrange : getStatefulSetReplicasRange set = (replicaCount, R))
  (Hn : 0 <= sp_Replicas set) (Hb : replicaCount <= 2 ^ 31) :
  emits (updateStatefulSet g now nowStr DecodeTemplate SelectorString set cur upd cc pods revs) (fun evs _ =>
    let passed q := allowsBurst set = true /\ (isTerminating q = true \/ held set q = true) in
    exists failed scaled updated, deletes evs = failed ++ scaled ++ updated /\
      Forall (fun p => isFailed p = true /\ p ∈ pods) failed /\
      (scaled = [] \/
       updated = [] /\ exists p, scaled = [p] /\ p ∈ pods /\ podScaledDown set (getOrdinal p) = true /\
         isTerminating p = false /\
         forall q, q ∈ pods -> podScaledDown set (getOrdinal q) = true -> getOrdinal p < getOrdinal q -> passed q) /\
      (updated <> [] -> forall q, q ∈ pods -> podScaledDown set (getOrdinal q) = true -> passed q) /\
      (allowsBurst set = false -> scaled ++ updated <> [] ->
         creates evs = [] /\ failed = [] /\ lacking now (getMinReadySeconds set) R pods replicaCount = 0)).
Proof.
  eapply emits_mono; [by eapply updateStatefulSet_emits|].
  intros evs _ [->|(r & Hr & _ & failed & scaled & updated & D & Hf & Hs & Hu & Hm)].
  { exists [], [], []. split; [done|]. split; [constructor|]. split; [by left|]. done. }
  assert (Hmono : forall b, r_monotonic r = b -> allowsBurst set = negb b).
  { unfold r_monotonic. rewrite Hr. intros b <-. by rewrite negb_involutive. }
  assert (Hcon : forall p, podScaledDown set (getOrdinal p) = is_condemned replicaCount R p).
  { intros p. unfold podScaledDown. by rewrite Hrange. }
  assert (Hpass : forall P, leaving r pods replicaCount R P -> forall q, q ∈ pods ->
    podScaledDown set (getOrdinal q) = true -> P q -> allowsBurst set = true /\ (isTerminating q = true \/ held set q = true)).
  { intros P HP q Hq Hd HPq. rewrite Hcon in Hd. destruct (HP q Hq Hd HPq) as [Em Hh].
    rewrite Hr in Hh. split; [by apply (Hmono false)|done]. }
  exists failed, scaled, updated. split; [done|]. split; [done|]. split; [|split].
  - destruct Hs as [Hs|(Hs & p & -> & Hp & Hpc & Ht & Hl)]; [by left|right]. split; [done|]. exists p.
    rewrite Hcon. repeat (split; [done|]). intros q Hq Hqc Hlt. by apply (Hpass _ Hl).
  - intros Hne q Hq Hqc. by apply (Hpass _ (Hu Hne)).
  - intros Eb Hne. rewrite <-Hr. apply Hm; [|done]. unfold r_monotonic. by rewrite Hr, Eb.
Qed.
(** C27: With OrderedReady, scaling in goes one pod at a time, from the highest ordinal.  For a set
    whose replica count is not negative and whose ordinals fit 32 bits, and whatever the server
    answers, the pods that one synchronization deletes are failed replicas, then at most one pod
    that the set does not want, and only when there is none of these the pods of the rolling
    update.  The unwanted pod that is deleted has the highest ordinal of all unwanted pods and is
    not terminating yet; pods of the rolling update are deleted only when there is no unwanted pod;
    and both happen only when every wanted replica is available and nothing was created or
    replaced. *)
Theorem scale_in_order set cur upd cc pods revs replicaCount R
  (Hpolicy : allowsBurst set = false) (Hrange : getStatefulSetReplicasRange set = (replicaCount, R))
  (Hn : 0 <= sp_Replicas set) (Hb : replicaCount <= 2 ^ 31) :
  emits (updateStatefulSet g now nowStr DecodeTemplate SelectorString set cur upd cc pods revs) (fun evs _ =>
    exists failed scaled updated, deletes evs = failed ++ scaled ++ updated /\
      Forall (fun p => isFailed p = true /\ p ∈ pods) failed /\
      (scaled = [] \/
       updated = [] /\ exists p, scaled = [p] /\ p ∈ pods /\ podScaledDown set (getOrdinal p) = true /\
         isTerminating p = false /\
         forall q, q ∈ pods -> podScaledDown set (getOrdinal q) = true -> getOrdinal q <= getOrdinal p) /\
      (updated <> [] -> forall q, q ∈ pods -> podScaledDown set (getOrdinal q) = false) /\
      (scaled ++ updated <> [] -> creates evs = [] /\ failed = [] /\ lacking now (getMinReadySeconds set) R pods replicaCount = 0)).
Proof.
  eapply emits_mono; [by eapply scale_in_steps|].
  intros evs _ (failed & scaled & updated & D & Hf & Hs & Hu & Hm). rewrite Hpolicy in *.
  exists failed, scaled, updated. split; [done|]. split; [done|]. split; [|split; [|by apply Hm]].
  - destruct Hs as [?|(? & p & Es & Hp & Hd & Ht & Hl)]; [by left|right]. split; [done|]. exists p.
    repeat (split; [done|]). intros q Hq Hqd. apply Z.le_ngt. intros Hlt. by destruct (Hl q Hq Hqd Hlt).
  - intros Hne q Hq. destruct (podScaledDown set (getOrdinal q)) eqn:E; [|done]. by destruct (Hu Hne q Hq E).
Qed.
End Sync.

(** ** An example *)

(** Nothing is in the caches of this server but the set of the example; claims and
    images are handled without an error. *)
#[export] Instance toy_stateful : StatefulApi (gset string) := {|
  stateful_errors := toy_errors;
  GetPod := fun _ _ _ => inl "not found"%string;
  UpdatePod := fun _ s => (s, None);
  GetClaim := fun _ _ _ => inl "not found"%string;
  UpdateClaim := fun _ s => (s, None);
  ListControllerRevisions := fun _ _ => inr [];
  AdoptControllerRevision := fun _ r s => (s, inr r);
  GetStatefulSet := fun _ _ _ => inl "not found"%string;
  UpdateStatus := fun _ _ s => (s, None);
  GetStatefulSetLive := fun _ _ _ => inl "not found"%string;
  CreateImagePullJobs := fun _ _ _ s => (s, None);
  DeleteJobsForWorkload := fun _ s => (s, None);
  ClaimPods := fun _ _ s => (s, inr []);
|}.

Definition ex_gates : StatefulGates := mkSGates true false true.
Definition ex_decode (data : string) : error + PodTemplate := inr ex_template.
Definition ex_selector (sel : option LabelSelector) : error + string := inr "app=web"%string.
Definition ex_world : World (gset string) := mkWorld ∅ ∅ ∅ ∅ no_local ∅ [].
(** The pod of an ordinal, running and ready since time 1. *)
Definition ex_pod (set : StatefulSet) (rev_ : string) (ord : Z) : Pod :=
  let p := setPodRevision (newStatefulSetPod set ord) rev_ in
  mkPod (p_name p) (p_namespace p) ("uid-" +:+ p_name p) "1" (p_labels p) (p_annotations p) (p_finalizers p) 1 None
    "node-1" PodRunning [mkCond PodReady ConditionTrue 1 "" ""] (p_cstatuses p) (p_gates p)
    (p_containers p) (p_volumes p) (p_owners p) (p_hostname p) (p_subdomain p) (p_initStatuses p) (p_placement p).
Definition ex_sync (set : StatefulSet) (pods : list Pod) : M (gset string) (StatefulSetStatus * option error) :=
  updateStatefulSet ex_gates 100 "now" ex_decode ex_selector set (ex_revision "web-1" 1) (ex_revision "web-2" 2) 0 pods [].

(** Three replicas, the first and the third of which are there: the second is created,
    and with OrderedReady nothing else. *)
Lemma scale_out_order_witness :
  let set := ex_set "OrderedReady" 3 [] None in
  let pods := [ex_pod set "web-2" 0; ex_pod set "web-2" 2; ex_pod set "web-1" 4] in
  map p_name (creates (w_trace (ex_sync set pods ex_world).1)) = ["web-1"%string] /\
  emits (ex_sync set pods) (fun evs _ => exists ords, StronglySorted Z.lt ords /\ length ords = length (creates evs)).
Proof.
  intros set pods. split; [vm_compute; reflexivity|].
  eapply emits_mono.
  - apply (scale_out_order ex_gates 100 "now" ex_decode ex_selector set (ex_revision "web-1" 1) (ex_revision "web-2" 2)
      0 pods [] 3 ∅); [vm_compute; reflexivity|vm_compute; discriminate..].
  - intros evs x (ords & Hs & Hf). exists ords. split; [done|]. by eapply Forall2_length.
Defined.

(** One replica and three pods with OrderedReady: the highest is deleted. *)
Lemma scale_in_order_witness :
  let set := ex_set "OrderedReady"%string 1 [] None in
  let pods := [ex_pod set "web-2" 0; ex_pod set "web-2" 2; ex_pod set "web-1" 4] in
  map p_name (deletes (w_trace (ex_sync set pods ex_world).1)) = ["web-4"%string] /\
  emits (ex_sync set pods) (fun evs _ => exists failed scaled updated, deletes evs = failed ++ scaled ++ updated /\
    (scaled = [] \/ exists p, scaled = [p] /\ forall q, q ∈ pods -> podScaledDown set (getOrdinal q) = true -> getOrdinal q <= getOrdinal p)).
Proof.
  intros set pods. split; [vm_compute; reflexivity|].
  eapply emits_mono.
  - apply (scale_in_order ex_gates 100 "now" ex_decode ex_selector set (ex_revision "web-1" 1) (ex_revision "web-2" 2)
      0 pods [] 1 ∅); [vm_compute; reflexivity|vm_compute; reflexivity|vm_compute; discriminate..].
  - intros evs x (failed & scaled & updated & D & _ & Hs & _). exists failed, scaled, updated. split; [done|].
    destruct Hs as [->|(_ & p & -> & _ & _ & _ & Hl)]; [by left|]. right. exists p. split; [done|exact Hl].
Defined.

(** With Parallel, where the API documents that all are deleted at once, one of the two unwanted
    pods is deleted. *)
Example parallel_scale_in_single :
  let set := ex_set ParallelPodManagement 1 [] None in
  let pods := [ex_pod set "web-2" 0; ex_pod set "web-2" 2; ex_pod set "web-1" 4] in
  map p_name (deletes (w_trace (ex_sync set pods ex_world).1)) = ["web-4"%string].
Proof. vm_compute. reflexivity. Qed.

(** ** Revisions *)

Section SetRevisions.
Context {S : Type} `{IC : RevisionApi S} `{IL : !RevisionLaws S}.
Context (DecodeTemplate : string -> error + PodTemplate) (EncodeTemplate : PodTemplate -> error + string).
Context (HashRevision : string -> Z -> string).

(** Numbers below the maximum of 64 bits. *)
Lemma nextRevision_above revisions e : (forall r, r ∈ revisions -> 0 <= cr_revision r < 2 ^ 63 - 1) -> e ∈ revisions ->
  cr_revision e < nextRevision (SortControllerRevisions revisions).
Proof.
  intros Hb He. unfold nextRevision. destruct (last (SortControllerRevisions revisions)) as [p|] eqn:Ep.
  - pose proof (sorted_last_max revisions e p Ep He). rewrite wrap64_id; [lia|].
    assert (Hp : p ∈ revisions) by (apply last_elem in Ep; unfold SortControllerRevisions in Ep; by rewrite SliceStable_perm in Ep).
    pose proof (Hb p Hp). unfold is_int64, int64_min, int64_max. lia.
  - apply sorted_last_None in Ep as ->. by apply not_elem_of_nil in He.
Qed.

(** C38: The update revision restores the template of the set. Whatever errors the server
    answers, choosing the revisions writes at most one revision, and creates none when
    one of the history is equal to the template; without an error the update revision
    applied to the set gives back the set, it has the highest number of the history when
    it was in it, and the current revision is the one of the status or, when that is not
    in the history, the update revision. The hypotheses: decoding inverts the encoding of
    a template; no number is the maximum of 64 bits; and, of the client of revisions
    ([RevisionLaws]), that a creation that succeeds answers a revision with the data it was
    given, and that an update of the number answers the same revision, in name and data,
    with that number. *)
Theorem update_revision_restores set revisions (w : World S)
  (Hround : forall t d, EncodeTemplate t = inr d -> DecodeTemplate d = inr t)
  (Hnumbers : forall r, r ∈ revisions -> 0 <= cr_revision r < 2 ^ 63 - 1) :
  let '(w', (x, c)) := getStatefulSetRevisions EncodeTemplate HashRevision set revisions w in
  (exists evs, w_trace w' = w_trace w ++ evs /\ (length evs <= 1)%nat /\
    forall new, newRevision EncodeTemplate HashRevision set (nextRevision (SortControllerRevisions revisions))
                  (default 0 (st_CollisionCount (ss_status set))) = inr new ->
    (exists e, e ∈ revisions /\ EqualRevision e new = true) -> forall r ok, EvCreateRevision r ok ∉ evs) /\
  forall cur upd, x = inr (cur, upd) ->
    ApplyRevision DecodeTemplate set upd = inr set /\
    (cr_name cur = st_CurrentRevision (ss_status set) /\ cur ∈ revisions \/
     cur = upd /\ forall e, e ∈ revisions -> cr_name e <> st_CurrentRevision (ss_status set)) /\
    forall new, newRevision EncodeTemplate HashRevision set (nextRevision (SortControllerRevisions revisions))
                  (default 0 (st_CollisionCount (ss_status set))) = inr new ->
      (exists e, e ∈ revisions /\ EqualRevision e new = true) ->
      forall e, e ∈ revisions -> cr_revision e <= cr_revision upd.
Proof.
  unfold getStatefulSetRevisions. set (new := newRevision _ _ _ _ _).
  destruct new as [err|nr] eqn:En; subst new.
  { simpl. split; [|done]. exists []. rewrite app_nil_r. split; [done|]. simpl. split; [lia|done]. }
  unfold active_revisions, bind.
  pose proof (pick_update_spec (ss_namespace set) (ss_name set) revisions nr (default 0 (st_CollisionCount (ss_status set))) w) as Hp.
  destruct (pick_update _ _ _ _ _ w) as [w' [r c]]. destruct Hp as [(evs & Ht & Hl & Hc) Hu].
  assert (Hdata : cr_revision nr = nextRevision (SortControllerRevisions revisions) /\
    EncodeTemplate (sp_Template set) = inr (cr_data nr)).
  { unfold newRevision in En. destruct (EncodeTemplate _) as [|d]; [done|]. by injection En as <-. }
  destruct Hdata as [Hnum Henc]. destruct r as [err|u]; simpl.
  { split; [|done]. exists evs. split; [done|]. split; [done|]. intros new [= <-]. done. }
  split; [exists evs; split; [done|]; split; [done|]; by intros new [= <-]|].
  intros cur upd [= <- <-]. destruct (Hu u eq_refl) as [Hd Hmax]. split; [|split].
  - unfold ApplyRevision. rewrite Hd, (Hround _ _ Henc). by destruct set.
  - unfold find_current. destruct (find _ _) as [f|] eqn:Ef.
    + left. apply List.find_some in Ef as [Hin E]. apply String.eqb_eq in E. split; [done|].
      apply list_elem_of_In in Hin. unfold SortControllerRevisions in Hin. by rewrite SliceStable_perm in Hin.
    + right. split; [done|]. intros e He E. assert (Hin : In e (SortControllerRevisions revisions)).
      { apply list_elem_of_In. unfold SortControllerRevisions. by rewrite SliceStable_perm. }
      pose proof (List.find_none _ _ Ef e Hin) as Hn. simpl in Hn. apply String.eqb_neq in Hn. done.
  - intros new [= <-] He. apply Hmax; [done|]. intros e He'. rewrite Hnum. by apply nextRevision_above.
Qed.
End SetRevisions.

(** An encoding that knows the template of the example. *)
Definition ex_encode (t : PodTemplate) : error + string :=
  if bool_decide (t = ex_template) then inr "data"%string else inl "unknown"%string.

Lemma update_revision_restores_witness :
  let set := ex_set "OrderedReady" 3 [] None in
  let res := getStatefulSetRevisions ex_encode (fun d _ => d) set [ex_revision "web-1" 1] ex_world in
  exists cur upd, res.2.1 = inr (cur, upd) /\ cr_name cur = "web-1"%string /\ cr_revision upd = 2 /\
    ApplyRevision ex_decode set upd = inr set.
Proof.
  intros set res. eexists _, _. split; [vm_compute; reflexivity|]. split; [reflexivity|]. split; [reflexivity|].
  pose proof (update_revision_restores ex_decode ex_encode (fun d _ => d) set [ex_revision "web-1" 1] ex_world) as H.
  assert (Hr : forall t d, ex_encode t = inr d -> ex_decode d = inr t).
  { intros t d. unfold ex_encode. case_bool_decide as E; [|done]. by rewrite E. }
  assert (Hb : forall r, r ∈ [ex_revision "web-1" 1] -> 0 <= cr_revision r < 2 ^ 63 - 1).
  { intros r ->%list_elem_of_singleton. split; [vm_compute; discriminate|reflexivity]. }
  specialize (H Hr Hb). fold res in H. destruct res as [w' [x c]] eqn:E. destruct H as [_ H].
  vm_compute in E. injection E as _ <- _. by eapply H.
Defined.
