(* ===== verification/StatefulSetConverge.v ===== *)
(** * The advanced StatefulSet: convergence

    With a server that answers without errors and a cluster that starts the pods created
    and removes the pods deleted, repeated runs of [updateStatefulSet] with the default
    policies (OrderedReady, RollingUpdate with recreation) bring the pods to what the set
    asks for, in a number of rounds that is known beforehand, and then leave them alone. *)

From S2P Require Import Prelude GoLib GoText K8s Tools Expectations Lifecycle Selector UpdateSort World RevisionHistory StatefulSetUtils StatefulPodControl StatefulSetControl StatefulSetOrder StatefulSetRolling StatefulSetSync.
Open Scope Z_scope.
Open Scope kruise_scope.

(** A server on which the calls of the controller succeed. *)
Class Reliable (S : Type) `{Api S} `{StatefulApi S} : Prop := {
  create_ok : forall p (s : S), (CreatePod p s).2 = None;
  delete_ok : forall p (s : S), (DeletePod p s).2 = None;
  create_pvc_ok : forall c (s : S), (CreatePVC c s).2 = None;
  refresh_ok : forall p grace (s : S), RefreshErr (InPlaceRefresh p grace s).2 = None;
  claim_ok : forall ns name (s : S),
    match GetClaim ns name s with
    | inl err => IsNotFound err = true
    | inr claim => pvc_deletion claim = None
    end;
}.

(** ** Runs from a world with an invariant *)

Section Does.
Context {S : Type} (U : Update.Store -> Prop).

(** From a world whose update expectations satisfy [U], [m] ends in such a world, and its
    writes and its answer satisfy [P]. *)
Definition does {A} (m : M S A) (P : list Event -> A -> Prop) : Prop :=
  forall w, U (w_upd w) ->
    U (w_upd (m w).1) /\ exists evs, w_trace (m w).1 = w_trace w ++ evs /\ P evs (m w).2.

Lemma does_ret {A} (a : A) (P : list Event -> A -> Prop) : P [] a -> does (ret a) P.
Proof. intros H w Hw. split; [done|]. exists []. by rewrite app_nil_r. Qed.

Lemma does_bind {A B} (m : M S A) (k : A -> M S B) (P : list Event -> A -> Prop) (Q : list Event -> B -> Prop) :
  does m P -> (forall evs a, P evs a -> does (k a) (fun evs' b => Q (evs ++ evs') b)) -> does (bind m k) Q.
Proof.
  intros Hm Hk w Hw. unfold bind. destruct (Hm w Hw) as (Hw1 & evs & Ht & HP). destruct (m w) as [w1 a].
  destruct (Hk _ _ HP w1 Hw1) as (Hw2 & evs' & Ht' & HQ). simpl in *. split; [done|].
  exists (evs ++ evs'). split; [by rewrite Ht', Ht, app_assoc|done].
Qed.

Lemma does_mono {A} (m : M S A) (P Q : list Event -> A -> Prop) :
  does m P -> (forall evs a, P evs a -> Q evs a) -> does m Q.
Proof. intros Hm HPQ w Hw. destruct (Hm w Hw) as (? & evs & ? & ?). split; [done|]. exists evs. auto. Qed.

Lemma does_call {A} (f : S -> S * A) ev (P : list Event -> A -> Prop) :
  (forall s, P (ev (f s).2) (f s).2) -> does (call f ev) P.
Proof.
  intros H w Hw. unfold call. specialize (H (w_server w)). destruct (f (w_server w)) as [s a]. simpl in *.
  split; [done|]. by exists (ev a).
Qed.

Lemma does_push key d (P : list Event -> unit -> Prop) : P [] tt -> does (pushDuration key d) P.
Proof. intros H w Hw. split; [done|]. exists []. by rewrite app_nil_r. Qed.

Lemma does_push_when (b : bool) key d : does (if b then pushDuration key d else ret tt) (fun evs _ => evs = []).
Proof. destruct b; [by apply does_push|by apply does_ret]. Qed.

(** A first part that writes nothing. *)
Lemma does_quiet {A B} (m : M S A) (k : A -> M S B) (R : A -> Prop) (Q : list Event -> B -> Prop) :
  does m (fun evs a => evs = [] /\ R a) -> (forall a, R a -> does (k a) Q) -> does (bind m k) Q.
Proof. intros Hm Hk. eapply does_bind; [exact Hm|]. intros evs a [-> Ha]. by apply Hk. Qed.
End Does.

(** ** The phases of a round *)

Section Converge.
Context {S : Type} `{IA : Api S} `{IB : StatefulApi S} `{IC : RevisionApi S} `{ID : GoSort} `{IR : !Reliable S}.
Context (g : StatefulGates) (now : Z) (nowStr : string).
Context (set : StatefulSet) (cur upd : ControllerRevision) (ru : RollingUpdateStatefulSetStrategy).
Context (Hgate : sg_AutoDeletePVC g = false).
Context (Hpolicy : allowsBurst set = false) (Hlife : sp_Lifecycle set = None) (Hru : sp_RollingUpdate set = Some ru).

Definition calm (u : Update.Store) : Prop := Update.waiting u (set_key set) (cr_name upd) = ∅.

(** A pod with which the controller has nothing to do but to update or remove it. *)
Definition steady (p : Pod) : Prop :=
  good now (getMinReadySeconds set) p = true /\ isHealthy p = true /\
  identityMatches set p = true /\ storageMatches set p = true /\
  CheckPodUpdateCompleted p = None.

Lemma steady_facts p : steady p ->
  isCreated p = true /\ isFailed p = false /\ isTerminating p = false /\
  (isRunningAndAvailable now p (getMinReadySeconds set)).1 = true.
Proof.
  intros (Hg & _). destruct (good_created _ _ _ Hg) as [H1 H2]. unfold good in Hg. zbool. auto.
Qed.

Lemma delete_does p : does calm (deletePod (S := S) nowStr set p) (fun evs x =>
  creates evs = [] /\ deletes evs = [p] /\ x = (true, None)).
Proof.
  unfold deletePod, preDelete_hook. rewrite Hlife. simpl.
  eapply does_bind with (P := fun evs e => evs = [EvDeletePod p true] /\ e = None).
  - apply does_call. intros s. by rewrite delete_ok.
  - intros evs e [-> ->]. by apply does_ret.
Qed.

Lemma create_claims_does claims : forall errs,
  does calm (create_claims (S := S) claims errs) (fun evs errs' => creates evs = [] /\ deletes evs = [] /\ errs' = errs).
Proof.
  induction claims as [|c claims IH]; intros errs; cbn [create_claims]; [by apply does_ret|].
  eapply does_quiet with (R := fun x => match x with inl err => IsNotFound err = true | inr pvc => pvc_deletion pvc = None end).
  { apply does_call. intros s. split; [done|]. apply claim_ok. }
  intros [err|pvc] E; rewrite E; [|apply IH].
  eapply does_bind with (P := fun evs e => creates evs = [] /\ deletes evs = [] /\ e = None).
  { apply does_call. intros s. by rewrite create_pvc_ok. }
  intros evs e (C & D & ->). eapply does_mono; [apply IH|]. intros evs' x (C' & D' & ->).
  by rewrite creates_app, deletes_app, C, C', D, D'.
Qed.

Lemma create_does p : does calm (CreateStatefulPod (S := S) g set p) (fun evs e =>
  creates evs = [p] /\ deletes evs = [] /\ e = None).
Proof.
  unfold CreateStatefulPod, createPersistentVolumeClaims.
  eapply does_bind with (P := fun evs e => creates evs = [] /\ deletes evs = [] /\ e = None).
  { eapply does_bind; [apply create_claims_does|]. intros evs errs (C & D & ->).
    apply does_ret. by rewrite app_nil_r, C, D. }
  intros evs e (C & D & ->).
  eapply does_bind with (P := fun evs e => evs = [EvCreatePod p true] /\ e = None).
  { apply does_call. intros s. by rewrite create_ok. }
  intros evs' e (-> & ->). rewrite Hgate. apply does_ret. by rewrite !creates_app, !deletes_app, C, D.
Qed.

Section Round.
Context (r : Round) (Hr : r_set r = set).

Lemma r_mono : r_monotonic r = true.
Proof. unfold r_monotonic. by rewrite Hr, Hpolicy. Qed.

(** A turn for a steady pod writes nothing and goes on. *)
Lemma steady_turn i q st : steady q ->
  does calm (step_replica g now nowStr r i q st) (fun evs x => evs = [] /\ x = Continue st).
Proof.
  intros Hq. destruct (steady_facts q Hq) as (Hc & Hf & Ht & Ha). destruct Hq as (_ & _ & Hi & Hs & _).
  unfold step_replica, recreate_failed. rewrite Hf.
  eapply does_bind with (P := fun evs x => evs = [] /\ x = (None, q, st)); [by apply does_ret|].
  intros evs x [-> ->]. rewrite Hc, Ht. simpl. unfold await_replica.
  eapply does_quiet with (R := fun res => RefreshErr res = None).
  { apply does_call. intros s. split; [done|]. apply refresh_ok. }
  intros res ->. eapply does_quiet with (R := fun _ => True).
  { eapply does_mono; [apply does_push_when|]. auto. }
  intros _ _. rewrite r_mono. unfold r_minReady. rewrite Hr.
  destruct (isRunningAndAvailable now q (getMinReadySeconds set)) as [av wt]. simpl in Ha. subst av. simpl.
  unfold enforce_replica. rewrite Hgate, Hr, Hi, Hs. simpl.
  eapply does_quiet with (R := fun b => b = true); [by apply does_ret|]. intros b ->. by apply does_ret.
Qed.

(** A turn for a pod that does not exist creates it and ends the round. *)
Lemma missing_turn i q st : isCreated q = false ->
  does calm (step_replica g now nowStr r i q st) (fun evs x =>
    creates evs = [Hooks.SetPodLifecycle LifecycleStateNormal nowStr q] /\ deletes evs = [] /\
    exists s, x = Return s None).
Proof.
  intros Hc. assert (Hf : isFailed q = false).
  { unfold isCreated in Hc. apply negb_false_iff, String.eqb_eq in Hc. unfold isFailed. by rewrite Hc. }
  unfold step_replica, recreate_failed. rewrite Hf.
  eapply does_bind with (P := fun evs x => evs = [] /\ x = (None, q, st)); [by apply does_ret|].
  intros evs x [-> ->]. rewrite Hc. simpl. unfold create_replica. rewrite Hgate.
  eapply does_quiet with (R := fun b => b = inr false); [by apply does_ret|]. intros b ->.
  eapply does_bind; [rewrite Hr; apply create_does|]. intros evs e (C & D & ->).
  rewrite r_mono. apply does_ret. rewrite app_nil_r. eauto.
Qed.

(** The loop over the replicas: the first pod that does not exist is created and the
    round ends, or the loop writes nothing. *)
Lemma loop_does reps n : forall i st,
  (n + i = length reps)%nat -> l_replicas st = reps ->
  (forall j q, reps !! j = Some (Some q) -> isCreated q = false \/ steady q) ->
  does calm (replicas_loop g now nowStr r n i st) (fun evs x =>
    deletes evs = [] /\
    match x with
    | inl _ => exists j q, reps !! j = Some (Some q) /\ isCreated q = false /\
                 creates evs = [Hooks.SetPodLifecycle LifecycleStateNormal nowStr q]
    | inr st' => creates evs = [] /\ l_replicas st' = reps /\
                 forall j q, (i <= j)%nat -> reps !! j = Some (Some q) -> steady q
    end).
Proof.
  induction n as [|n IH]; intros i st Hlen Hreps Hall; cbn [replicas_loop].
  { apply does_ret. split; [done|]. split; [done|]. split; [done|]. intros j q Hj Hq. apply lookup_lt_Some in Hq. lia. }
  rewrite Hreps. destruct (reps !! i) as [[q|]|] eqn:Ei; [| |apply lookup_ge_None in Ei; lia].
  - destruct (Hall i q Ei) as [Hq|Hq].
    + eapply does_bind; [by apply missing_turn|]. intros evs x (C & D & s & ->). apply does_ret.
      rewrite app_nil_r. split; [done|]. eauto.
    + eapply does_bind; [by apply steady_turn|]. intros evs x [-> ->].
      eapply does_mono; [apply (IH (Datatypes.S i) st); [lia|done|done]|]. intros evs x [D Hx]. split; [done|].
      destruct x as [res|st']; [done|]. destruct Hx as (C & Hst & Hs). split; [done|]. split; [done|].
      intros j p Hj Hp. destruct (decide (j = i)) as [->|]; [by simplify_eq|]. apply (Hs j); [lia|done].
  - eapply does_mono; [apply (IH (Datatypes.S i) st); [lia|done|done]|]. intros evs x [D Hx]. split; [done|].
    destruct x as [res|st']; [done|]. destruct Hx as (C & Hst & Hs). split; [done|]. split; [done|].
    intros j p Hj Hp. destruct (decide (j = i)) as [->|]; [by simplify_eq|]. apply (Hs j); [lia|done].
Qed.

(** The loop over the condemned pods: the last one is deleted and the round ends. *)
Lemma condemned_does first condemned s : Forall steady condemned ->
  does calm (condemned_loop now nowStr r first condemned (length condemned) s) (fun evs x =>
    creates evs = [] /\
    match x with
    | inl _ => exists p, p ∈ condemned /\ deletes evs = [p]
    | inr _ => condemned = [] /\ deletes evs = []
    end).
Proof.
  intros Hall. destruct condemned as [|p0 rest] using rev_ind; [by apply does_ret|].
  rewrite length_app. simpl. rewrite Nat.add_1_r. cbn [condemned_loop].
  rewrite list_lookup_middle by done. apply Forall_app in Hall as [_ Hp]. apply Forall_inv in Hp.
  destruct (steady_facts p0 Hp) as (_ & _ & Ht & Ha). rewrite Ht. unfold r_minReady. rewrite Hr.
  destruct (isRunningAndAvailable now p0 (getMinReadySeconds set)) as [av wt]. simpl in Ha. subst av. simpl.
  eapply does_bind; [apply delete_does|]. intros evs x (C & D & ->). apply does_ret. rewrite app_nil_r.
  split; [done|]. exists p0. split; [|done]. apply elem_of_app. right. by apply list_elem_of_singleton.
Qed.
End Round.

(** *** The rolling update *)

Context (Hordered : ru_UnorderedUpdate ru = None) (Hpaused : ru_Paused ru = false).
Context (Hrecreate : ru_PodUpdatePolicy ru <> InPlaceIfPossiblePodUpdateStrategyType /\
  ru_PodUpdatePolicy ru <> InPlaceOnlyPodUpdateStrategyType).

Definition partition : Z := default 0 (ru_Partition ru).
(** A pod that the rolling update is to replace. *)
Definition outdated (p : Pod) : bool :=
  (partition <=? getOrdinal p) && negb (String.eqb (getPodRevision p) (cr_name upd)).

Lemma steady_refresh p : steady p ->
  does calm (refreshPodState (S := S) nowStr set p (cr_name upd)) (fun evs x => evs = [] /\ x.1.1 = false /\ x.2 = None).
Proof.
  intros (_ & Hh & _). unfold refreshPodState. rewrite Hru.
  eapply does_quiet with (R := fun res => RefreshErr res = None).
  { apply does_call. intros s. split; [done|]. apply refresh_ok. }
  intros res ->. unfold next_state. unfold isHealthy in Hh.
  assert (Hst : Hooks.GetPodLifecycleState p = ""%string \/ Hooks.GetPodLifecycleState p = LifecycleStateNormal).
  { destruct (String.eqb_spec (Hooks.GetPodLifecycleState p) "") as [|N1]; [by left|].
    destruct (String.eqb_spec (Hooks.GetPodLifecycleState p) LifecycleStateNormal) as [|N2]; [by right|done]. }
  destruct Hst as [-> | ->]; by apply does_ret.
Qed.

Lemma steady_refresh_all pods : Forall steady pods ->
  does calm (refresh_all (S := S) nowStr set (cr_name upd) false pods) (fun evs x => evs = [] /\ x = (false, None)).
Proof.
  induction 1 as [|p pods Hp _ IH]; cbn [refresh_all]; [by apply does_ret|].
  eapply does_quiet; [by apply steady_refresh|]. intros [[rf d] e] [Hrf He]. simpl in *. subst.
  eapply does_quiet with (R := fun _ => True); [|intros _ _; exact IH].
  eapply does_mono; [apply does_push_when|]. auto.
Qed.

Lemma steady_available reps wt : (forall j q, reps !! j = Some (Some q) -> steady q) ->
  does calm (collect_unavailable (S := S) now set (getMinReadySeconds set) wt ∅ reps) (fun evs u => evs = [] /\ u = ∅).
Proof.
  induction reps as [|[p|] reps IH]; intros Hall; cbn [collect_unavailable]; [by apply does_ret| |].
  - pose proof (Hall O p eq_refl) as Hp. destruct (steady_facts p Hp) as (_ & _ & _ & Ha).
    destruct Hp as (_ & Hh & _ & _ & Hc). unfold unavailable_for_update. rewrite Hh, Hc. simpl.
    destruct (isRunningAndAvailable now p (getMinReadySeconds set)) as [av w]. simpl in Ha. subst av. simpl.
    apply IH. intros j q. apply (Hall (Datatypes.S j)).
  - apply IH. intros j q. apply (Hall (Datatypes.S j)).
Qed.

Lemma no_inplace p revs :
  inPlaceUpdatePod (S := S) nowStr set p upd revs = ret (false, None).
Proof.
  unfold inPlaceUpdatePod. rewrite Hru. destruct Hrecreate as [H1 H2].
  apply String.eqb_neq in H1, H2. by rewrite H1, H2.
Qed.

(** The loop deletes pods that are to be replaced, and at least one if there are any. *)
Lemma update_does revs max reps idxs : forall u s,
  (forall j q, reps !! j = Some (Some q) -> steady q) ->
  does calm (update_loop (S := S) nowStr set (cr_name cur) upd revs max reps u idxs s) (fun evs _ =>
    creates evs = [] /\
    Forall (fun p => exists j, j ∈ idxs /\ reps !! j = Some (Some p) /\ getPodRevision p <> cr_name upd) (deletes evs) /\
    (Z.of_nat (size u) < max ->
     (exists j q, j ∈ idxs /\ reps !! j = Some (Some q) /\ getPodRevision q <> cr_name upd) -> deletes evs <> [])).
Proof.
  induction idxs as [|i idxs IH]; intros u s Hall; cbn [update_loop].
  { apply does_ret. split; [done|]. split; [constructor|]. intros _ (j & q & Hj & _). by apply not_elem_of_nil in Hj. }
  assert (Hskip : forall u s, (forall q, reps !! i = Some (Some q) -> getPodRevision q = cr_name upd) ->
    does calm (update_loop (S := S) nowStr set (cr_name cur) upd revs max reps u idxs s) (fun evs _ =>
      creates evs = [] /\
      Forall (fun p => exists j, j ∈ i :: idxs /\ reps !! j = Some (Some p) /\ getPodRevision p <> cr_name upd) (deletes evs) /\
      (Z.of_nat (size u) < max ->
       (exists j q, j ∈ i :: idxs /\ reps !! j = Some (Some q) /\ getPodRevision q <> cr_name upd) -> deletes evs <> []))).
  { intros u0 s0 Hi. eapply does_mono; [by apply IH|]. intros evs x (C & D & Hp). split; [done|]. split.
    - eapply Forall_impl; [exact D|]. intros p (j & Hj & ?). exists j. split; [by apply list_elem_of_further|done].
    - intros Hu (j & q & Hj & Hq & Hne). apply Hp; [done|]. exists j, q. apply elem_of_cons in Hj as [->|Hj]; [|done].
      by rewrite (Hi q Hq) in Hne. }
  destruct (reps !! i) as [[p|]|] eqn:Ei; [|by apply Hskip..].
  destruct (String.eqb_spec (getPodRevision p) (cr_name upd)) as [Er|Er].
  { apply Hskip. by intros q [= <-]. }
  destruct (steady_facts p (Hall i p Ei)) as (_ & _ & Ht & _). rewrite Ht.
  destruct ((max <=? Z.of_nat (size u)) && _) eqn:Eg.
  { apply does_ret. split; [done|]. split; [constructor|]. zbool. lia. }
  rewrite no_inplace. eapply does_bind with (P := fun evs x => evs = [] /\ x = (false, None)); [by apply does_ret|].
  intros evs x [-> ->]. eapply does_bind; [apply delete_does|]. intros evs x (C & D & ->).
  eapply does_mono; [by apply IH|]. intros evs' x (C' & D' & _). simpl.
  rewrite creates_app, deletes_app, C, C', D. split; [done|]. split; [|done]. constructor.
  - exists i. split; [by apply list_elem_of_here|done].
  - eapply Forall_impl; [exact D'|]. intros q (j & Hj & ?). exists j. split; [by apply list_elem_of_further|done].
Qed.

Lemma rolling_does s revs pods reps max :
  rolling_maxUnavailable set = Some max -> Forall steady pods ->
  (forall j q, reps !! j = Some (Some q) -> steady q /\ getOrdinal q = Z.of_nat j) ->
  does calm (rollingUpdateStatefulsetPods g now nowStr set s cur upd revs pods reps (getMinReadySeconds set)) (fun evs _ =>
    creates evs = [] /\
    Forall (fun p => exists j, reps !! j = Some (Some p) /\ outdated p = true) (deletes evs) /\
    ((exists j q, reps !! j = Some (Some q) /\ outdated q = true) -> deletes evs <> [])).
Proof.
  intros Hmax Hpods Hreps. unfold rollingUpdateStatefulsetPods.
  eapply does_quiet with (R := fun x => x.1.1 = true).
  { intros w Hw. unfold ask_updates. pose proof (proj2 (Update.waiting_Satisfied (w_upd w) _ _ now) Hw) as Hsat.
    pose proof (Update.waiting_after_Satisfied (w_upd w) (set_key set) (cr_name upd) now) as Hkeep.
    destruct (Update.SatisfiedExpectations _ _ _ _) as [x u]. simpl in *.
    split; [unfold calm; by rewrite Hkeep|]. exists []. by rewrite app_nil_r. }
  intros [[sat d] ob]. simpl. intros ->. simpl.
  eapply does_quiet; [by apply steady_refresh_all|]. intros x ->. rewrite Hru, Hpaused, Hmax.
  eapply does_quiet; [apply steady_available; intros j q Hq; by apply (Hreps j)|]. intros u ->.
  assert (H1 : 1 <= max).
  { unfold rolling_maxUnavailable in Hmax. rewrite Hru in Hmax.
    destruct (GetValueFromIntOrPercent _ _ _) as [m|]; [|done]. injection Hmax as <-. destruct (m <? 1) eqn:E; zbool; lia. }
  destruct (sort_ordered (sg_PreparingUpdateAsUpdate g) (Some ru) (cr_name upd) (sp_Replicas set) reps Hordered) as [_ Hin].
  fold partition in Hin.
  eapply does_mono; [apply update_does; intros j q Hq; by apply (Hreps j)|]. intros evs x (C & D & Hp).
  assert (Hout : forall j q, reps !! j = Some (Some q) ->
    outdated q = true <-> partition <= Z.of_nat j /\ getPodRevision q <> cr_name upd).
  { intros j q Hq. unfold outdated. destruct (Hreps j q Hq) as [_ ->]. rewrite andb_true_iff, Z.leb_le, negb_true_iff.
    by rewrite String.eqb_neq. }
  split; [done|]. split.
  - eapply Forall_impl; [exact D|]. intros p (j & Hj & Hjp & Hne). exists j. split; [done|]. apply (Hout j p Hjp).
    split; [by apply Hin|done].
  - intros (j & q & Hq & Ho). apply (Hout j q Hq) in Ho as [Ho1 Ho2]. apply Hp; [rewrite size_empty; lia|].
    exists j, q. split; [apply Hin; split; [done|by exists q]|done].
Qed.

(** *** The whole round *)

Context (replicaCount : Z) (R : gset Z) (max : Z) (scaleMax : option Z).
Context (Hrange : getStatefulSetReplicasRange set = (replicaCount, R)).
Context (Hn : 0 <= sp_Replicas set) (Hb : replicaCount <= 2 ^ 31).
Context (Hmax : rolling_maxUnavailable set = Some max) (Hscale : scale_maxUnavailable set = Some scaleMax).
Context (Hdel : ss_deletion set = None) (Htype : sp_UpdateType set = RollingUpdateStatefulSetStrategyType).

(** A pod as the controller creates it. *)
Definition fresh_pod (p : Pod) : Prop :=
  identityMatches set p = true /\ storageMatches set p = true /\
  Hooks.GetPodLifecycleState p = LifecycleStateNormal /\ p_deletion p = None.

(** What a round may do to the pods. *)
Inductive effect (pods : list Pod) (evs : list Event) : Prop :=
| effect_create p :
    creates evs = [p] -> deletes evs = [] ->
    0 <= getOrdinal p < replicaCount -> getOrdinal p ∉ R -> replica_of pods (getOrdinal p) = None ->
    fresh_pod p -> outdated p = false ->
    effect pods evs
| effect_remove p :
    creates evs = [] -> deletes evs = [p] -> p ∈ pods -> is_condemned replicaCount R p = true ->
    effect pods evs
| effect_update :
    creates evs = [] -> (forall p, p ∈ deletes evs -> p ∈ pods /\ outdated p = true) ->
    (forall ord, 0 <= ord < replicaCount -> ord ∉ R -> replica_of pods ord <> None) ->
    filterb (is_condemned replicaCount R) pods = [] ->
    (forall ord p, 0 <= ord < replicaCount -> ord ∉ R -> replica_of pods ord = Some p -> outdated p = true ->
     deletes evs <> []) ->
    effect pods evs.

Lemma getPodRevision_set p rev_ : getPodRevision (setPodRevision p rev_) = rev_.
Proof. unfold getPodRevision, setPodRevision, lbl. simpl. by rewrite lookup_insert_eq. Qed.
Lemma getPodRevision_lifecycle state t p : getPodRevision (Hooks.SetPodLifecycle state t p) = getPodRevision p.
Proof. unfold getPodRevision, lbl. simpl. by rewrite lookup_insert_ne. Qed.

Lemma ordered_needs t ord reps :
  isCurrentRevisionNeeded (sg_PreparingUpdateAsUpdate g) (with_template set t) (cr_name upd) ord reps = (ord <? partition).
Proof.
  unfold isCurrentRevisionNeeded, with_template. cbn [sp_UpdateType sp_RollingUpdate].
  by rewrite Htype, Hru, Hordered.
Qed.

(** The revision and the lifecycle state do not matter to the checks of a pod. *)
Lemma stamped_ok p0 t rev_ ord :
  getOrdinal p0 = ord /\ identityMatches (with_template set t) p0 = true /\ storageMatches (with_template set t) p0 = true ->
  p_deletion p0 = None ->
  (partition <= ord -> rev_ = cr_name upd) ->
  let p := Hooks.SetPodLifecycle LifecycleStateNormal nowStr (setPodRevision p0 rev_) in
  getOrdinal p = ord /\ fresh_pod p /\ outdated p = false.
Proof.
  intros (H1 & H2 & H3) H4 Hrev p. assert (Hord : getOrdinal p = ord) by exact H1. split; [done|].
  split; [split; [|split; [|split; [apply Hooks.SetPodLifecycle_state|done]]]|].
  - rewrite <-H2. apply (identityMatches_ext set p p0); [done|done|]. unfold lbl. simpl. by rewrite !lookup_insert_ne.
  - rewrite <-H3. by apply (storageMatches_ext set p p0).
  - unfold outdated. rewrite Hord. destruct (partition <=? ord) eqn:E; [|done]. zbool. simpl.
    apply negb_false_iff, String.eqb_eq. unfold p. rewrite getPodRevision_lifecycle, getPodRevision_set. auto.
Qed.

(** The pod that is created for a slot. *)
Lemma new_pod_ok r t1 t2 ord reps :
  r = mkRound set (with_template set t1) (with_template set t2) (cr_name cur) (cr_name upd) ->
  0 <= ord < 2 ^ 31 ->
  let p := Hooks.SetPodLifecycle LifecycleStateNormal nowStr (r_newPod g r ord reps) in
  getOrdinal p = ord /\ fresh_pod p /\ outdated p = false.
Proof.
  intros -> Ho. cbv zeta. unfold r_newPod, newVersionedStatefulSetPod. cbn [r_currentSet r_updateSet r_current r_update].
  rewrite ordered_needs. destruct (ord <? partition) eqn:E; zbool.
  - apply (stamped_ok _ t1); [by apply newStatefulSetPod_matches|done|lia].
  - apply (stamped_ok _ t2); [by apply newStatefulSetPod_matches|done|done].
Qed.

Lemma replicaCount_nonneg : 0 <= replicaCount.
Proof. pose proof (replicas_range_spec set Hn) as H. rewrite Hrange in H. apply H. Qed.

Lemma sync_does t1 t2 revs pods s :
  let r := mkRound set (with_template set t1) (with_template set t2) (cr_name cur) (cr_name upd) in
  Forall steady pods ->
  does calm (sync_pods g now nowStr r cur upd revs pods scaleMax s) (fun evs _ => effect pods evs).
Proof.
  intros r Hpods. assert (Hok : round_ok r) by (split; [by exists t1|by exists t2]).
  pose proof replicaCount_nonneg as Hc0. unfold sync_pods. simpl r_set. rewrite Hrange, Hdel.
  pose proof (filled_length g r pods replicaCount R) as Hlen.
  pose proof (filled_slot g r pods replicaCount R) as Hslot.
  pose proof (condemned_pods_elem pods replicaCount R) as Hcon.
  unfold filled, condemned_pods in *. destruct (classify replicaCount R pods) as [reps0 cond]. cbn [fst snd] in *.
  set (reps := fill _ _ _) in *. set (condemned := sort_by _ _) in *. rewrite Forall_forall in Hpods.
  assert (Hrep : forall j q, reps !! j = Some (Some q) ->
    (j < Z.to_nat replicaCount)%nat /\ Z.of_nat j ∉ R /\
    match replica_of pods (Z.of_nat j) with
    | Some p => q = p
    | None => isCreated q = false /\ exists reps', q = r_newPod g r (Z.of_nat j) reps'
    end).
  { intros j q Hq. assert (Hj : (j < Z.to_nat replicaCount)%nat) by (rewrite <-Hlen; by eapply lookup_lt_Some).
    pose proof (Hslot j Hj) as Hs. case_bool_decide as HR; [congruence|]. split; [done|]. split; [done|].
    destruct (replica_of pods (Z.of_nat j)) as [p|]; [congruence|]. destruct Hs as [reps' Hs]. simplify_eq.
    split; [|by exists reps']. unfold isCreated. destruct (newPod_facts g r (Z.of_nat j) reps' Hok) as (_ & _ & ->); [lia|done]. }
  eapply does_bind.
  { apply (loop_does r eq_refl reps); [lia|done|]. intros j q Hq. destruct (Hrep j q Hq) as (_ & _ & Hm).
    destruct (replica_of pods (Z.of_nat j)) as [p|] eqn:Er; [|left; apply Hm].
    right. subst q. apply Hpods. by apply (replica_of_Some _ _ _ Er). }
  intros evs [res|st] [D Hx].
  - destruct Hx as (j & q & Hq & Hnc & C). apply does_ret. rewrite app_nil_r. destruct (Hrep j q Hq) as (Hj & HR & Hm).
    destruct (replica_of pods (Z.of_nat j)) as [p|] eqn:Er.
    { subst q. apply replica_of_Some in Er as [Hp _]. destruct (steady_facts p (Hpods p Hp)) as [Hcr _]. congruence. }
    destruct Hm as (_ & reps' & ->).
    destruct (new_pod_ok r t1 t2 (Z.of_nat j) reps' eq_refl ltac:(lia)) as (E1 & E2 & E3).
    eapply effect_create; [exact C|done|rewrite E1; lia|by rewrite E1|by rewrite E1|done..].
  - destruct Hx as (C & Hst & Hall). unfold after_replicas. rewrite Hgate.
    eapply does_quiet with (R := fun e => e = None); [by apply does_ret|]. intros e ->.
    eapply does_bind.
    { apply (condemned_does r eq_refl). apply Forall_forall. intros p Hp. apply Hpods. by apply Hcon. }
    intros evs2 [res|s2] [C2 Hx].
    + destruct Hx as (p & Hp & D2). apply does_ret. apply Hcon in Hp as [Hp Hpc].
      eapply (effect_remove _ _ p); rewrite ?app_nil_r, ?creates_app, ?deletes_app, ?C, ?C2, ?D, ?D2; done.
    + destruct Hx as [Hnil D2]. simpl r_set. rewrite Htype. simpl.
      eapply does_mono.
      { apply (rolling_does _ revs pods (l_replicas st) max Hmax); [by apply Forall_forall|].
        rewrite Hst. intros j q Hq. split; [apply (Hall j q); [lia|done]|].
        destruct (Hrep j q Hq) as (Hj & _ & Hm). destruct (replica_of pods (Z.of_nat j)) as [p|] eqn:Er.
        - subst q. by apply replica_of_Some in Er as [_ ->].
        - destruct Hm as [Hm _]. destruct (steady_facts q) as [Hm' _]; [apply (Hall j q); [lia|done]|congruence]. }
      rewrite Hst. intros evs3 x (C3 & D3 & Hp). rewrite Forall_forall in D3.
      assert (Hslots : forall ord, 0 <= ord < replicaCount -> ord ∉ R ->
        exists p, replica_of pods ord = Some p /\ reps !! Z.to_nat ord = Some (Some p)).
      { intros ord Ho HR. pose proof (Hslot (Z.to_nat ord) ltac:(lia)) as Hs. rewrite Z2Nat.id in Hs by lia.
        rewrite bool_decide_false in Hs by done. destruct (replica_of pods ord) as [p|] eqn:Er; [by exists p|].
        destruct Hs as [reps' Hs]. destruct (Hrep _ _ Hs) as (_ & _ & Hm). rewrite Z2Nat.id, Er in Hm by lia.
        destruct Hm as [Hm _]. destruct (steady_facts _ (Hall _ _ (le_0_n _) Hs)) as [Hm' _]. congruence. }
      apply effect_update; rewrite ?creates_app, ?deletes_app, ?C, ?C2, ?D, ?D2; simpl; [done|..].
      * intros p Hpd. destruct (D3 p Hpd) as (j & Hj & Ho). split; [|done]. destruct (Hrep j p Hj) as (Hjn & HR & Hm).
        destruct (Hslots (Z.of_nat j) ltac:(lia) HR) as (p' & Er & _). rewrite Er in Hm. subst p'.
        by apply replica_of_Some in Er as [? _].
      * intros ord Ho HR. destruct (Hslots ord Ho HR) as (p & -> & _). done.
      * apply elem_of_nil_inv. intros p Hp'. apply filterb_elem in Hp' as [Hp1 Hp2].
        assert (Hin : p ∈ condemned) by (apply Hcon; done). rewrite Hnil in Hin. by apply not_elem_of_nil in Hin.
      * intros ord p Ho HR Er Hout. apply Hp. destruct (Hslots ord Ho HR) as (p' & Er' & Hs).
        exists (Z.to_nat ord), p. split; [congruence|done].
Qed.

(** ** The work left *)

(** What the cluster makes of a pod that was created. *)
Context (start : Pod -> Pod).
Context (Hstart : forall p,
  p_name (start p) = p_name p /\ getPodRevision (start p) = getPodRevision p /\
  (fresh_pod p -> steady (start p))).

(** The pods of the next round: the pods deleted are gone, the pods created have started. *)
Definition kept (evs : list Event) (p : Pod) : bool :=
  negb (existsb (fun d => String.eqb (p_name d) (p_name p)) (deletes evs)).
Definition settle (pods : list Pod) (evs : list Event) : list Pod :=
  filterb (kept evs) pods ++ map start (creates evs).

(** A missing replica is one step from the goal, an outdated one two. *)
Definition weight (pods : list Pod) (ord : Z) : Z :=
  if unreserved R ord then
    match replica_of pods ord with
    | None => 1
    | Some p => if outdated p then 2 else 0
    end
  else 0.
Definition work (pods : list Pod) : Z :=
  sumZ (weight pods) (seqZ 0 replicaCount) + countb (is_condemned replicaCount R) pods.

Definition converged (pods : list Pod) : Prop :=
  (forall ord, 0 <= ord < replicaCount -> ord ∉ R -> exists p, replica_of pods ord = Some p /\ outdated p = false) /\
  (forall p, p ∈ pods -> is_condemned replicaCount R p = false).

Definition tidy (pods : list Pod) : Prop := Forall steady pods /\ NoDup (map getOrdinal pods).

Lemma weight_nonneg pods ord : 0 <= weight pods ord.
Proof. unfold weight. destruct (unreserved R ord), (replica_of pods ord) as [p|]; try destruct (outdated p); lia. Qed.
Lemma work_nonneg pods : 0 <= work pods.
Proof.
  unfold work. pose proof (countb_nonneg (is_condemned replicaCount R) pods).
  pose proof (sumZ_nonneg (weight pods) (seqZ 0 replicaCount) (fun ord _ => weight_nonneg pods ord)). lia.
Qed.

Lemma work_zero pods : work pods = 0 -> converged pods.
Proof.
  unfold work. intros Hw. pose proof (countb_nonneg (is_condemned replicaCount R) pods).
  pose proof (sumZ_nonneg (weight pods) (seqZ 0 replicaCount) (fun ord _ => weight_nonneg pods ord)).
  split; [|apply countb_zero; lia]. intros ord Ho HR.
  pose proof (sumZ_zero (weight pods) (seqZ 0 replicaCount) (fun ord _ => weight_nonneg pods ord) ltac:(lia) ord
    ltac:(apply elem_of_seqZ; lia)) as Hz.
  unfold weight, unreserved in Hz. rewrite bool_decide_false in Hz by done. simpl in Hz.
  destruct (replica_of pods ord) as [p|]; [|lia]. exists p. split; [done|]. by destruct (outdated p).
Qed.

Lemma replica_of_iff pods ord p : NoDup (map getOrdinal pods) ->
  replica_of pods ord = Some p <-> p ∈ pods /\ getOrdinal p = ord.
Proof.
  intros Hnd. split; [apply replica_of_Some|]. intros [Hp Ho].
  destruct (replica_of pods ord) as [q|] eqn:Er.
  - apply replica_of_Some in Er as [Hq Hqo]. f_equal. clear IR Hstart. induction pods as [|x pods IH]; [by apply not_elem_of_nil in Hp|].
    simpl in Hnd. apply NoDup_cons in Hnd as [Hx Hnd].
    assert (Hno : forall y, y ∈ pods -> getOrdinal y = getOrdinal x -> False).
    { intros y Hy E. apply Hx. rewrite <-E. by apply list_elem_of_fmap_2. }
    apply elem_of_cons in Hp as [->|Hp], Hq as [->|Hq]; [done|exfalso; apply (Hno q); [done|congruence]|
      exfalso; apply (Hno p); [done|congruence]|by apply IH].
  - exfalso. by apply (proj1 (replica_of_None pods ord) Er p).
Qed.

(** Removing pods removes their replicas and no other. *)
Lemma replica_of_kept pods evs ord : NoDup (map getOrdinal pods) ->
  replica_of (filterb (kept evs) pods) ord =
  match replica_of pods ord with Some p => if kept evs p then Some p else None | None => None end.
Proof.
  intros Hnd. assert (Hnd' : NoDup (map getOrdinal (filterb (kept evs) pods))).
  { eapply sublist_NoDup; [exact Hnd|]. apply map_filterb_sublist. }
  destruct (replica_of pods ord) as [p|] eqn:Er.
  - apply (replica_of_iff _ _ _ Hnd) in Er as [Hp Ho]. destruct (kept evs p) eqn:Ek.
    + apply (replica_of_iff _ _ _ Hnd'). split; [by apply filterb_elem|done].
    + apply replica_of_None. intros q Hq Hqo. apply filterb_elem in Hq as [Hq Hk].
      assert (replica_of pods ord = Some q /\ replica_of pods ord = Some p) as [E1 E2].
      { split; apply (replica_of_iff _ _ _ Hnd); done. }
      congruence.
  - apply replica_of_None. intros q Hq. apply filterb_elem in Hq as [Hq _]. by apply (proj1 (replica_of_None pods ord)).
Qed.

(** A pod is removed when and only when it was deleted. *)
Lemma kept_spec pods evs p : tidy pods -> (forall d, d ∈ deletes evs -> d ∈ pods) -> p ∈ pods ->
  kept evs p = negb (bool_decide (p ∈ deletes evs)).
Proof.
  intros [Hst Hnd] Hsub Hp. unfold kept. f_equal. apply eq_true_iff_eq. rewrite bool_decide_eq_true, existsb_exists. split.
  - intros (d & Hd & E). apply String.eqb_eq in E. apply list_elem_of_In in Hd.
    assert (Ho : getOrdinal d = getOrdinal p) by (unfold getOrdinal; by rewrite E).
    assert (Some d = Some p) as [= <-]; [|done].
    rewrite <-(proj2 (replica_of_iff pods (getOrdinal p) d Hnd)) by auto.
    by apply (replica_of_iff pods (getOrdinal p) p Hnd).
  - intros Hd. exists p. split; [by apply list_elem_of_In|apply String.eqb_refl].
Qed.

Lemma outdated_start p : outdated (start p) = outdated p.
Proof. destruct (Hstart p) as (E1 & E2 & _). unfold outdated, getOrdinal. by rewrite E1, E2. Qed.
Lemma ordinal_start p : getOrdinal (start p) = getOrdinal p.
Proof. destruct (Hstart p) as (E1 & _). unfold getOrdinal. by rewrite E1. Qed.

Lemma tidy_kept pods evs : tidy pods -> tidy (filterb (kept evs) pods).
Proof.
  intros [Hst Hnd]. split.
  - rewrite Forall_forall in *. intros p Hp. apply filterb_elem in Hp as [Hp _]. auto.
  - eapply sublist_NoDup; [exact Hnd|]. apply map_filterb_sublist.
Qed.

Lemma filterb_all (f : Pod -> bool) l : (forall x, x ∈ l -> f x = true) -> filterb f l = l.
Proof.
  induction l as [|x l IH]; intros H; simpl; [done|]. rewrite (H x (list_elem_of_here _ _)), IH; [done|].
  intros y Hy. apply H. by apply list_elem_of_further.
Qed.

Lemma settle_create pods p : tidy pods ->
  0 <= getOrdinal p < replicaCount -> getOrdinal p ∉ R -> replica_of pods (getOrdinal p) = None ->
  fresh_pod p -> outdated p = false ->
  tidy (pods ++ [start p]) /\ work (pods ++ [start p]) < work pods.
Proof.
  intros [Hst Hnd] Ho HR Hnone Hs Hout. pose proof (proj1 (replica_of_None _ _) Hnone) as Hno. split.
  - split; [apply Forall_app; split; [done|]; repeat constructor; by apply Hstart|].
    rewrite map_app. apply NoDup_app. split; [done|]. split; [|apply NoDup_singleton].
    intros o Ho1 Ho2. apply list_elem_of_singleton in Ho2 as ->. rewrite ordinal_start in Ho1.
    apply list_elem_of_fmap in Ho1 as (q & E & Hq). by apply (Hno q Hq).
  - unfold work. rewrite countb_app. cbn [countb]. unfold is_condemned at 2. rewrite ordinal_start.
    rewrite (proj2 (Z.leb_gt _ _)), bool_decide_false by (lia || done). simpl.
    pose proof (sumZ_lt (weight (pods ++ [start p])) (weight pods) (seqZ 0 replicaCount) (getOrdinal p)) as Hlt.
    assert (Hw : forall ord, weight (pods ++ [start p]) ord <= weight pods ord /\
      (ord = getOrdinal p -> weight (pods ++ [start p]) ord < weight pods ord)).
    { intros ord. unfold weight. rewrite replica_of_snoc, ordinal_start.
      destruct (Z.eqb_spec (getOrdinal p) ord) as [<-|]; [|split; [lia|congruence]]. unfold unreserved.
      rewrite bool_decide_false, Hnone, outdated_start, Hout by done. simpl. lia. }
    rewrite Z.add_0_r. apply Z.add_lt_mono_r. apply Hlt; [intros; apply Hw|apply elem_of_seqZ; lia|by apply Hw].
Qed.

Lemma settle_remove pods evs p : tidy pods -> deletes evs = [p] -> p ∈ pods -> is_condemned replicaCount R p = true ->
  work (filterb (kept evs) pods) < work pods.
Proof.
  intros Ht D Hp Hc. unfold work. apply Z.add_le_lt_mono.
  - apply sumZ_le. intros ord Hord. apply elem_of_seqZ in Hord. unfold weight.
    destruct (unreserved R ord) eqn:Eu; [|lia]. rewrite replica_of_kept by apply Ht.
    destruct (replica_of pods ord) as [q|] eqn:Er; [|lia]. apply replica_of_Some in Er as [Hq Hqo].
    rewrite (kept_spec pods) by (try done; rewrite D; by intros d ->%list_elem_of_singleton). rewrite D.
    rewrite bool_decide_false; [simpl; lia|]. intros ->%list_elem_of_singleton.
    unfold is_condemned, unreserved in *. rewrite Hqo in Hc. apply orb_true_iff in Hc as [Hc|Hc]; zbool; [lia|].
    by rewrite Hc in Eu.
  - assert (Hk : kept evs p = false) by (unfold kept; rewrite D; simpl; by rewrite String.eqb_refl).
    clear -Hk Hp Hc. induction pods as [|x pods IH]; [by apply not_elem_of_nil in Hp|]. simpl.
    assert (Hle : countb (is_condemned replicaCount R) (filterb (kept evs) pods) <= countb (is_condemned replicaCount R) pods).
    { clear. induction pods as [|y pods IH]; simpl; [lia|]. destruct (kept evs y); simpl; destruct (is_condemned replicaCount R y); lia. }
    apply elem_of_cons in Hp as [<-|Hp]; [rewrite Hk, Hc; lia|].
    specialize (IH Hp). destruct (kept evs x); simpl; destruct (is_condemned replicaCount R x); lia.
Qed.

Lemma settle_update pods evs : tidy pods ->
  (forall p, p ∈ deletes evs -> p ∈ pods /\ outdated p = true) -> filterb (is_condemned replicaCount R) pods = [] ->
  work (filterb (kept evs) pods) <= work pods /\ (deletes evs <> [] -> work (filterb (kept evs) pods) < work pods).
Proof.
  intros Ht Hd Hc. unfold work.
  assert (Hno : forall p, p ∈ pods -> is_condemned replicaCount R p = false).
  { intros p Hp. apply not_true_is_false. intros E. assert (Hin : p ∈ filterb (is_condemned replicaCount R) pods) by (by apply filterb_elem).
    rewrite Hc in Hin. by apply not_elem_of_nil in Hin. }
  assert (E1 : countb (is_condemned replicaCount R) (filterb (kept evs) pods) = 0).
  { apply countb_zero. intros p Hp. apply filterb_elem in Hp as [Hp _]. auto. }
  assert (E2 : countb (is_condemned replicaCount R) pods = 0) by (by apply countb_zero).
  rewrite E1, E2, !Z.add_0_r.
  assert (Hw : forall ord, weight (filterb (kept evs) pods) ord <= weight pods ord /\
    (unreserved R ord = true -> forall p, replica_of pods ord = Some p -> p ∈ deletes evs ->
     weight (filterb (kept evs) pods) ord < weight pods ord)).
  { intros ord. unfold weight. rewrite replica_of_kept by apply Ht. destruct (unreserved R ord); [|split; [lia|done]].
    destruct (replica_of pods ord) as [q|] eqn:Er; [|split; [lia|done]]. apply replica_of_Some in Er as [Hq Hqo].
    rewrite (kept_spec pods) by (try done; intros d Hd'; by apply Hd). case_bool_decide as Hin; simpl.
    - rewrite (proj2 (Hd q Hin)). split; [lia|]. intros; lia.
    - split; [lia|]. intros _ p [= <-] Hp. done. }
  split; [apply sumZ_le; intros ord _; apply Hw|].
  intros Hne. destruct (deletes evs) as [|p ds] eqn:Ed; [done|]. destruct (Hd p (list_elem_of_here _ _)) as [Hp Ho].
  pose proof (Hno p Hp) as Hnc. unfold is_condemned in Hnc. apply orb_false_iff in Hnc as [Hlt HR]. zbool.
  assert (H0 : 0 <= getOrdinal p).
  { destruct Ht as [Hst _]. rewrite Forall_forall in Hst. destruct (Hst p Hp) as (_ & _ & Hi & _).
    unfold identityMatches in Hi. unfold getOrdinal. destruct (getParentNameAndOrdinal (p_name p)) as [par o]. by zbool. }
  apply (sumZ_lt _ _ _ (getOrdinal p)); [intros ord _; apply Hw|apply elem_of_seqZ; lia|].
  apply (proj2 (Hw (getOrdinal p))) with p; [unfold unreserved; by rewrite HR| |apply list_elem_of_here].
  by apply replica_of_iff; [apply Ht|].
Qed.

(** A round keeps the pods tidy, leaves less work, and nothing changes when no work was
    left. *)
Lemma effect_work pods evs : tidy pods -> effect pods evs ->
  tidy (settle pods evs) /\ (0 < work pods -> work (settle pods evs) < work pods) /\
  (work pods = 0 -> settle pods evs = pods /\ creates evs = [] /\ deletes evs = []).
Proof.
  intros Ht He. pose proof (work_nonneg (settle pods evs)) as H0. unfold settle in *.
  destruct He as [p C D Ho HR Hnone Hs Hout|p C D Hp Hc|C Hd Hall Hcon Hprog]; rewrite C in *; cbn [map] in *;
    rewrite ?app_nil_r in *.
  - rewrite filterb_all in *; [|intros q _; unfold kept; by rewrite D|intros q _; unfold kept; by rewrite D].
    destruct (settle_create pods p Ht Ho HR Hnone Hs Hout) as [H1 H2]. split; [done|]. split; [done|]. lia.
  - split; [by apply tidy_kept|]. pose proof (settle_remove pods evs p Ht D Hp Hc). split; [done|]. lia.
  - split; [by apply tidy_kept|]. destruct (settle_update pods evs Ht Hd Hcon) as [Hle Hlt]. split.
    + intros Hw. apply Hlt. intros Hnil.
      assert (Hsum : sumZ (weight pods) (seqZ 0 replicaCount) = 0).
      { assert (Hz : forall ord, ord ∈ seqZ 0 replicaCount -> weight pods ord <= 0).
        { intros ord Hord. apply elem_of_seqZ in Hord. unfold weight, unreserved. case_bool_decide as HR; simpl; [lia|].
          destruct (replica_of pods ord) as [p|] eqn:Er; [|exfalso; by apply (Hall ord ltac:(lia) HR)].
          destruct (outdated p) eqn:Eo; [|lia]. exfalso. by apply (Hprog ord p ltac:(lia) HR Er Eo). }
        pose proof (sumZ_le _ (fun _ => 0) _ Hz) as Hle0.
        assert (E0 : forall l : list Z, sumZ (fun _ => 0) l = 0) by (clear; intros l; unfold sumZ; by induction l).
        rewrite E0 in Hle0. pose proof (sumZ_nonneg (weight pods) (seqZ 0 replicaCount) (fun ord _ => weight_nonneg pods ord)). lia. }
      unfold work in Hw. rewrite Hsum, countb_filterb, Hcon in Hw. simpl in Hw. lia.
    + intros Hw. destruct (deletes evs) as [|p ds] eqn:Ed; [|exfalso; pose proof (Hlt ltac:(done)); lia].
      split; [|done]. apply filterb_all. intros q _. unfold kept. by rewrite Ed.
Qed.
End Converge.

(** ** Rounds *)

(** Time only makes pods available. *)
Lemma available_later t t' p m : t <= t' ->
  (isRunningAndAvailable t p m).1 = true -> (isRunningAndAvailable t' p m).1 = true.
Proof.
  intros Ht. unfold isRunningAndAvailable. destruct (_ || _); [done|]. destruct (m =? 0); [done|].
  destruct (GetPodReadyCondition p) as [c|]; [|done]. destruct (_ =? 0); [done|].
  destruct (0 <? _) eqn:E1; [done|]. intros _. destruct (0 <? c_lastTransition c + m * second - t') eqn:E2; [|done].
  zbool. lia.
Qed.

Lemma tidy_later {S} `{IA : Api S} set t t' pods : t <= t' -> tidy t set pods -> tidy t' set pods.
Proof.
  intros Ht [Hst Hnd]. split; [|done]. eapply Forall_impl; [exact Hst|]. intros p (Hg & Hrest). split; [|done].
  unfold good in *. apply andb_true_iff in Hg as [Hg1 Hg2]. rewrite Hg1. simpl. by eapply available_later.
Qed.

(** The default configuration: OrderedReady, and rolling updates that recreate pods from
    the highest ordinal down to the partition. *)
Record ordinary (g : StatefulGates) (set : StatefulSet) (ru : RollingUpdateStatefulSetStrategy)
  (replicaCount : Z) (R : gset Z) : Prop := {
  or_gate : sg_AutoDeletePVC g = false;
  or_policy : allowsBurst set = false;
  or_lifecycle : sp_Lifecycle set = None;
  or_deletion : ss_deletion set = None;
  or_type : sp_UpdateType set = RollingUpdateStatefulSetStrategyType;
  or_strategy : sp_RollingUpdate set = Some ru;
  or_ordered : ru_UnorderedUpdate ru = None;
  or_paused : ru_Paused ru = false;
  or_recreate : ru_PodUpdatePolicy ru <> InPlaceIfPossiblePodUpdateStrategyType /\
    ru_PodUpdatePolicy ru <> InPlaceOnlyPodUpdateStrategyType;
  or_range : getStatefulSetReplicasRange set = (replicaCount, R);
  or_replicas : 0 <= sp_Replicas set;
  or_bound : replicaCount <= 2 ^ 31;
  or_max : is_Some (rolling_maxUnavailable set);
  or_scale : is_Some (scale_maxUnavailable set);
}.

Section Rounds.
Context {S : Type} `{IA : Api S} `{IB : StatefulApi S} `{IC : RevisionApi S} `{ID : GoSort} `{IR : !Reliable S}.
Context (g : StatefulGates) (nowStr : string).
Context (DecodeTemplate : string -> error + PodTemplate) (SelectorString : option LabelSelector -> error + string).
Context (set : StatefulSet) (cur upd : ControllerRevision) (cc : Z) (revs : list ControllerRevision).
Context (start : Z -> Pod -> Pod).

(** One round: the controller runs at time [st.1] on the pods [st.2], in a world that
    waits for no in-place update; at the time of the next round the pods it deleted are
    gone, and the pods it created have started. *)
Definition round (st st' : Z * list Pod) : Prop :=
  exists (w : World S) evs, calm set upd (w_upd w) /\ st.1 <= st'.1 /\
    w_trace (updateStatefulSet g st.1 nowStr DecodeTemplate SelectorString set cur upd cc st.2 revs w).1
      = w_trace w ++ evs /\
    st'.2 = settle (start st'.1) st.2 evs.

Lemma round_effect ru replicaCount R t1 t2 sel now pods w evs :
  ordinary g set ru replicaCount R -> SelectorString (sp_Selector set) = inr sel ->
  DecodeTemplate (cr_data cur) = inr t1 -> DecodeTemplate (cr_data upd) = inr t2 ->
  calm set upd (w_upd w) -> tidy now set pods ->
  w_trace (updateStatefulSet g now nowStr DecodeTemplate SelectorString set cur upd cc pods revs w).1 = w_trace w ++ evs ->
  effect set upd ru replicaCount R pods evs.
Proof.
  intros [] Hsel Hcur Hupd Hcalm [Hst _] Htr. destruct or_max0 as [max Hmax], or_scale0 as [sm Hsm].
  assert (Hd : does (calm set upd)
    (updateStatefulSet g now nowStr DecodeTemplate SelectorString set cur upd cc pods revs) (fun evs _ => effect set upd ru replicaCount R pods evs)).
  { unfold updateStatefulSet, ApplyRevision. rewrite Hsel, Hcur, Hupd, Hsm.
    eapply does_quiet with (R := fun _ => True); [|intros _ _; by eapply sync_does].
    unfold pre_download. split_ifs; try (by apply does_ret);
      (eapply does_quiet with (R := fun _ => True); [by apply does_call|intros; by apply does_ret]). }
  destruct (Hd w Hcalm) as (_ & evs' & Htr' & He). rewrite Htr in Htr'. by apply app_inv_head in Htr' as ->.
Qed.

(** C2: From a tidy state the rollout of a StatefulSet converges.  The conditions on the set
    ([ordinary]): OrderedReady; rolling updates that recreate pods, with any partition, neither
    paused nor unordered; no lifecycle hooks; the set is not being deleted; [maxUnavailable] and
    the limit for scaling are readable; the replicas are not negative and the ordinals fit 32 bits;
    the AutoDeletePVC gate is off; the selector is valid and both revisions decode.  On the start ([tidy]): the
    pods have different ordinals, and every pod is running, available, healthy, has the identity
    and the storage the set gives it, and no in-place update pending.  On the environment: the
    server answers without errors, no in-place update is awaited, and between two
    synchronizations the pods deleted are gone and the pods created have become such pods, under
    their names and revisions.  Then every run of as many synchronizations as the pods at the start
    require (one for each missing or unwanted pod, two for each outdated one) ends with exactly
    the wanted ordinals, all from the partition on at the update revision; and from there on no
    synchronization creates or deletes a pod. *)
Theorem sync_converges ru replicaCount R t1 t2 sel now pods n now' pods'
  (Hord : ordinary g set ru replicaCount R) (Hsel : SelectorString (sp_Selector set) = inr sel)
  (Hcur : DecodeTemplate (cr_data cur) = inr t1) (Hupd : DecodeTemplate (cr_data upd) = inr t2)
  (Hstart : forall t p,
    p_name (start t p) = p_name p /\ getPodRevision (start t p) = getPodRevision p /\
    (fresh_pod set p -> steady t set (start t p)))
  (Htidy : tidy now set pods)
  (Hwork : work upd ru replicaCount R pods <= Z.of_nat n)
  (Hrun : nsteps round n (now, pods) (now', pods')) :
  converged upd ru replicaCount R pods' /\
  forall t w evs, now' <= t -> calm set upd (w_upd w) ->
    w_trace (updateStatefulSet g t nowStr DecodeTemplate SelectorString set cur upd cc pods' revs w).1 = w_trace w ++ evs ->
    creates evs = [] /\ deletes evs = [].
Proof.
  set (left_ := work upd ru replicaCount R).
  assert (Hround : forall t t' ps w evs, t <= t' -> tidy t set ps -> calm set upd (w_upd w) ->
    w_trace (updateStatefulSet g t nowStr DecodeTemplate SelectorString set cur upd cc ps revs w).1 = w_trace w ++ evs ->
    tidy t' set (settle (start t') ps evs) /\ (0 < left_ ps -> left_ (settle (start t') ps evs) < left_ ps) /\
    (left_ ps = 0 -> settle (start t') ps evs = ps /\ creates evs = [] /\ deletes evs = [])).
  { intros t t' ps w evs Hle Ht Hcalm Htr.
    pose proof (round_effect _ _ _ _ _ _ _ _ _ _ Hord Hsel Hcur Hupd Hcalm Ht Htr) as He.
    apply (effect_work g t' set upd ru); try apply Hord; [apply Hstart|by eapply tidy_later|done]. }
  assert (Hend : forall st, nsteps round n st (now', pods') -> tidy st.1 set st.2 -> left_ st.2 <= Z.of_nat n ->
    tidy now' set pods' /\ left_ pods' = 0).
  { clear -Hround. induction n as [|n IH]; intros st Hrun Ht Hw; inversion Hrun as [|? ? st1 ? Hr Hrest]; subst.
    { split; [done|]. pose proof (work_nonneg upd ru replicaCount R pods') as H0. fold left_ in H0. simpl in Hw. lia. }
    destruct Hr as (w & evs & Hcalm & Hle & Htr & E).
    destruct (Hround _ _ _ _ _ Hle Ht Hcalm Htr) as (H1 & H2 & H3). rewrite <-E in *. apply (IH st1 Hrest H1).
    pose proof (work_nonneg upd ru replicaCount R st.2) as H0. fold left_ in H0.
    destruct (decide (left_ st.2 = 0)) as [Hz|]; [destruct (H3 Hz) as [-> _]; lia|]. specialize (H2 ltac:(lia)). lia. }
  destruct (Hend _ Hrun Htidy Hwork) as [Ht Hw]. split; [by apply work_zero|].
  intros t w evs Hle Hcalm Htr. by apply (Hround t t pods' w evs (Z.le_refl t) (tidy_later set now' t pods' Hle Ht) Hcalm Htr).
Qed.
End Rounds.

(** ** An example *)

(** A server without a state, on which everything succeeds. *)
#[export] Instance unit_api : Api unit := {|
  CreatePod := fun _ s => (s, None);
  DeletePod := fun _ s => (s, None);
  CreatePVC := fun _ s => (s, None);
  DeletePVC := fun _ s => (s, None);
  PatchPod := fun p patch s => (s, inr (with_labels p (patch_labels patch ∪ p_labels p)));
  AddNotReadyKey := fun _ _ s => (s, None);
  RemoveNotReadyKey := fun _ _ s => (s, None);
  InPlaceRefresh := fun _ _ s => (s, mkRefresh None 0);
  CanUpdateInPlace := fun _ _ _ => true;
  InPlaceUpdatePod := fun p _ rev _ _ s => (s, mkUpdate true None 0 "2");
  CheckPodUpdateCompleted := fun _ => None;
  PodUnavailableBudgetValidatePod := fun _ s => (s, (true, None));
|}.
#[export] Instance unit_stateful : StatefulApi unit := {|
  stateful_errors := toy_errors;
  GetPod := fun _ _ _ => inl "not found"%string;
  UpdatePod := fun _ s => (s, None);
  GetClaim := fun _ _ _ => inl "not found"%string;
  UpdateClaim := fun _ s => (s, None);
  ListControllerRevisions := fun _ _ => inr [];
  AdoptControllerRevision := fun _ r s => (s, inr r);
  GetStatefulSet := fun _ _ _ => inl "not found"%string;
  UpdateStatus := fun _ _ s => (s, None);
  GetStatefulSetLive := fun _ _ _ => inl "not found"%string;
  CreateImagePullJobs := fun _ _ _ s => (s, None);
  DeleteJobsForWorkload := fun _ s => (s, None);
  ClaimPods := fun _ _ s => (s, inr []);
|}.
#[export] Instance unit_reliable : Reliable unit.
Proof. split; done. Qed.

(** The status that the kubelet reports for a pod that runs. *)
Definition ex_start (t : Z) (p : Pod) : Pod :=
  mkPod (p_name p) (p_namespace p) ("uid-" +:+ p_name p) "1" (p_labels p) (p_annotations p) (p_finalizers p) t
    (p_deletion p) "node-1" PodRunning [mkCond PodReady ConditionTrue t "" ""] (p_cstatuses p) (p_gates p)
    (p_containers p) (p_volumes p) (p_owners p) (p_hostname p) (p_subdomain p) (p_initStatuses p) (p_placement p).

Definition ex_ru : RollingUpdateStatefulSetStrategy := mkRU (Some 0) None "ReCreate" false None None None.
(** Three replicas, ordinal 1 reserved. *)
Definition ex_rollout : StatefulSet := ex_set "OrderedReady" 3 [1] (Some ex_ru).
Definition ex_update (t : Z) (pods : list Pod) : M unit (StatefulSetStatus * option error) :=
  updateStatefulSet (mkSGates false false true) t "now" ex_decode ex_selector ex_rollout
    (ex_revision "web-1" 1) (ex_revision "web-2" 2) 0 pods [].
(** The next round of the example, a second later. *)
Definition ex_next (st : Z * list Pod) : Z * list Pod :=
  (st.1 + 1, settle (ex_start (st.1 + 1)) st.2 (w_trace (ex_update st.1 st.2 (mkWorld tt ∅ ∅ ∅ no_local ∅ [])).1)).

Lemma ex_start_steady t p :
  p_name (ex_start t p) = p_name p /\ getPodRevision (ex_start t p) = getPodRevision p /\
  (fresh_pod ex_rollout p -> steady (S := unit) t ex_rollout (ex_start t p)).
Proof.
  split; [done|]. split; [done|]. intros (H1 & H2 & H3 & H4).
  split; [|split; [|split; [|split]]].
  - unfold good, isTerminating. simpl. by rewrite H4.
  - unfold isHealthy, isTerminating. simpl. unfold Hooks.GetPodLifecycleState in *. simpl. by rewrite H3, H4.
  - rewrite <-H1. by apply identityMatches_ext.
  - rewrite <-H2. by apply storageMatches_ext.
  - done.
Qed.

(** An outdated pod, an unwanted one and a missing one: four rounds. *)
Lemma sync_converges_witness :
  let pods := [ex_pod ex_rollout "web-1" 0; ex_pod ex_rollout "web-2" 2; ex_pod ex_rollout "web-2" 5] in
  let pods' := (Nat.iter 4 ex_next (100, pods)).2 in
  map (fun p => (p_name p, getPodRevision p)) pods' =
    [("web-2", "web-2"); ("web-3", "web-2"); ("web-0", "web-2")]%string /\
  converged (ex_revision "web-2" 2) ex_ru 4 {[1]} pods'.
Proof.
  intros pods pods'. split; [vm_compute; reflexivity|].
  assert (Hround : forall st, round (S := unit) (mkSGates false false true) "now" ex_decode ex_selector ex_rollout
    (ex_revision "web-1" 1) (ex_revision "web-2" 2) 0 [] ex_start st (ex_next st)).
  { intros st. eexists (mkWorld tt ∅ ∅ ∅ no_local ∅ []), _. split; [done|]. split; [simpl; lia|].
    split; [symmetry; apply app_nil_l|done]. }
  destruct (sync_converges (mkSGates false false true) "now" ex_decode ex_selector ex_rollout
    (ex_revision "web-1" 1) (ex_revision "web-2" 2) 0 [] ex_start ex_ru 4 {[1]} ex_template ex_template "app=web"
    100 pods 4 104 pods') as [H _]; try reflexivity; [| | | |exact H].
  - split; try reflexivity; try (vm_compute; discriminate); [split; discriminate|eexists; vm_compute; reflexivity..].
  - apply ex_start_steady.
  - split; [repeat constructor; vm_compute; reflexivity|]. apply NoDup_ListNoDup. vm_compute. repeat constructor; set_solver.
  - change (104, pods') with (ex_next (ex_next (ex_next (ex_next (100, pods))))).
    eapply nsteps_l; [apply Hround|]. eapply nsteps_l; [apply Hround|]. eapply nsteps_l; [apply Hround|].
    eapply nsteps_l; [apply Hround|]. constructor.
Defined.
