(* ===== verification/RefManager.v ===== *)
(** * Ownership of objects

    pkg/util/refmanager/ref_manager.go and pkg/util/ownerref.go: a controller claims the
    objects that its selector matches, releases those it owns that the selector does not
    match any more, and leaves the objects of others alone.  The objects are pods here,
    the only ones that the modelled controllers claim with it. *)

From S2P Require Import Prelude GoLib GoText K8s Tools Expectations Lifecycle Selector World StatefulSetUtils.
Open Scope Z_scope.
Open Scope kruise_scope.

(** What the manager reads of the owner. *)
Record Owner := mkRefOwner {
  ow_name : string;
  ow_namespace : string;
  ow_uid : string;
  ow_deletion : option Z;
}.

(** The clients of the manager: an uncached read of the owner, the write of an object, and
    [controllerutil.SetControllerReference]. *)
Class OwnerApi (S : Type) := {
  owner_errors :: ApiErrors;
  GetOwner : Owner -> S -> error + Owner;
  UpdateObject : Pod -> S -> S * option error;
  SetControllerReference : Owner -> Pod -> error + Pod;
}.

(** pkg/util/ownerref.go, for claims. *)
Definition SetOwnerRef (target : PersistentVolumeClaim) (ownerName ownerUID apiVersion kind : string)
  : bool * PersistentVolumeClaim :=
  if hasOwnerRef target ownerUID then (false, target)
  else (true, with_owners target (pvc_owners target ++ [mkOwner apiVersion kind ownerName ownerUID true])).
(** The same code as that of the StatefulSet. *)
Definition RemoveOwnerRef (target : PersistentVolumeClaim) (ownerUID : string) : bool * PersistentVolumeClaim :=
  removeOwnerRef target ownerUID.

Section Manager.
Context {S : Type} `{OwnerApi S}.
(** [mgr.owner], and whether [mgr.schema] is set. *)
Context (owner : Owner) (hasSchema : bool).

Definition object_text (obj : Pod) : string :=
  p_namespace obj +:+ "/" +:+ p_name obj +:+ " (" +:+ p_uid obj +:+ ")".

Definition canAdopt : M S (option error) :=
  do fresh <- read (GetOwner owner);
  match fresh with
  | inl err => ret (Some err)
  | inr fresh =>
      if negb (String.eqb (ow_uid fresh) (ow_uid owner))
      then ret (Some ("original owner " +:+ ow_namespace owner +:+ "/" +:+ ow_name owner +:+ " is gone: got uid "
                      +:+ ow_uid fresh +:+ ", wanted " +:+ ow_uid owner))
      else match ow_deletion fresh with
           | Some _ => ret (Some (ow_namespace owner +:+ "/" +:+ ow_name owner +:+ " has just been deleted"))
           | None => ret None
           end
  end.

(** [mgr.once] with [mgr.canAdoptErr]: [None] before the first call. *)
Definition Once : Type := option (option error).
Definition canAdoptOnce (once : Once) : M S (option error * Once) :=
  match once with
  | Some err => ret (err, once)
  | None => do err <- canAdopt; ret (err, Some err)
  end.

Definition updateObject (obj : Pod) : M S (option error) :=
  call (UpdateObject obj) (fun e => [EvUpdatePod obj (is_ok e)]).

(** The object with its new owner, or the error. *)
Definition adopt (obj : Pod) (once : Once) : M S ((error + Pod) * Once) :=
  do '(err, once) <- canAdoptOnce once;
  match err with
  | Some e => ret (inl ("can't adopt Object " +:+ object_text obj +:+ ": " +:+ e), once)
  | None =>
      if negb hasSchema then ret (inr obj, once)
      else
        match SetControllerReference owner obj with
        | inl e => ret (inl ("can't set Object " +:+ object_text obj +:+ " owner reference: " +:+ e), once)
        | inr obj =>
            do e <- updateObject obj;
            match e with
            | Some e => ret (inl ("can't update Object " +:+ object_text obj +:+ " owner reference: " +:+ e), once)
            | None => ret (inr obj, once)
            end
        end
  end.

Definition with_pod_owners (p : Pod) (rs : list OwnerReference) : Pod :=
  mkPod (p_name p) (p_namespace p) (p_uid p) (p_resourceVersion p) (p_labels p) (p_annotations p)
    (p_finalizers p) (p_creation p) (p_deletion p) (p_node p) (p_phase p) (p_conditions p) (p_cstatuses p)
    (p_gates p) (p_containers p) (p_volumes p) rs (p_hostname p) (p_subdomain p) (p_initStatuses p) (p_placement p).

(** The references without the first one to [uid]. *)
Fixpoint drop_ref (uid : string) (rs : list OwnerReference) : list OwnerReference :=
  match rs with
  | [] => []
  | r :: rest => if String.eqb (or_uid r) uid then rest else r :: drop_ref uid rest
  end.

Definition release (obj : Pod) : M S (option error) :=
  if existsb (fun r => String.eqb (or_uid r) (ow_uid owner)) (p_owners obj) then
    do e <- updateObject (with_pod_owners obj (drop_ref (ow_uid owner) (p_owners obj)));
    match e with
    | Some e => ret (Some ("can't remove Pod " +:+ object_text obj +:+ " owner reference " +:+ p_namespace obj
                           +:+ "/" +:+ p_name obj +:+ " (" +:+ ow_uid owner +:+ "): " +:+ e))
    | None => ret None
    end
  else ret None.

(** The object when it was claimed, [None] when it was not; or the error. *)
Definition claimObject (match_ : Pod -> bool) (obj : Pod) (once : Once) : M S ((error + option Pod) * Once) :=
  match GetControllerOf (p_owners obj) with
  | Some ref =>
      if negb (String.eqb (or_uid ref) (ow_uid owner)) then ret (inr None, once)
      else if match_ obj then ret (inr (Some obj), once)
      else match ow_deletion owner with
           | Some _ => ret (inr None, once)
           | None =>
               do e <- release obj;
               match e with
               | Some err => if IsNotFound err then ret (inr None, once) else ret (inl err, once)
               | None => ret (inr None, once)
               end
           end
  | None =>
      if match ow_deletion owner with Some _ => true | None => false end || negb (match_ obj) then ret (inr None, once)
      else match p_deletion obj with
           | Some _ => ret (inr None, once)
           | None =>
               do '(r, once) <- adopt obj once;
               match r with
               | inl err => if IsNotFound err then ret (inr None, once) else ret (inl err, once)
               | inr obj => ret (inr (Some obj), once)
               end
           end
  end.

(** The loop of [ClaimOwnedObjects]. *)
Fixpoint claim_all (match_ : Pod -> bool) (objs : list Pod) (once : Once) (claimed : list Pod) (errs : list error)
  : M S (list Pod * list error) :=
  match objs with
  | [] => ret (claimed, errs)
  | obj :: rest =>
      do '(r, once) <- claimObject match_ obj once;
      match r with
      | inl err => claim_all match_ rest once claimed (errs ++ [err])
      | inr (Some obj) => claim_all match_ rest once (claimed ++ [obj]) errs
      | inr None => claim_all match_ rest once claimed errs
      end
  end.
Definition ClaimOwnedObjects (match_ : Pod -> bool) (objs : list Pod) : M S (list Pod * option error) :=
  do '(claimed, errs) <- claim_all match_ objs None [] [];
  ret (claimed, NewAggregate errs).
End Manager.

(** ** What is claimed, released and written *)

(** What an object is to the owner. *)
Inductive Stake := Keep | Release | Adopt | Ignore.
Definition stake (owner : Owner) (match_ : Pod -> bool) (obj : Pod) : Stake :=
  let deleted := match ow_deletion owner with Some _ => true | None => false end in
  match GetControllerOf (p_owners obj) with
  | Some ref =>
      if negb (String.eqb (or_uid ref) (ow_uid owner)) then Ignore
      else if match_ obj then Keep
      else if deleted then Ignore else Release
  | None =>
      if deleted || negb (match_ obj) then Ignore
      else match p_deletion obj with Some _ => Ignore | None => Adopt end
  end.

Definition is_kept (owner : Owner) (match_ : Pod -> bool) (obj : Pod) : bool :=
  match stake owner match_ obj with Keep => true | _ => false end.

(** A released object: without its first reference to the owner. *)
Definition released (owner : Owner) (obj : Pod) : Pod :=
  with_pod_owners obj (drop_ref (ow_uid owner) (p_owners obj)).

Section ManagerFacts.
Context {S : Type} `{IO : OwnerApi S}.
Context (owner : Owner) (hasSchema : bool) (match_ : Pod -> bool).

(** [p] is what an orphan [obj] became. *)
Definition adopted (obj p : Pod) : Prop :=
  if hasSchema then SetControllerReference owner obj = inr p else p = obj.

Definition object_post (obj : Pod) (evs : list Event) (r : error + option Pod) : Prop :=
  match stake owner match_ obj with
  | Keep => evs = [] /\ r = inr (Some obj)
  | Ignore => evs = [] /\ r = inr None
  | Release => (exists ok, evs = [EvUpdatePod (released owner obj) ok]) /\ (forall p, r <> inr (Some p))
  | Adopt =>
      (evs = [] \/ exists p ok, hasSchema = true /\ adopted obj p /\ evs = [EvUpdatePod p ok]) /\
      (forall p, r = inr (Some p) -> adopted obj p /\ (hasSchema = true -> evs = [EvUpdatePod p true]))
  end.

Lemma canAdoptOnce_only P once : only P (canAdoptOnce (S := S) owner once).
Proof.
  unfold canAdoptOnce, canAdopt. destruct once; [apply only_ret|].
  apply only_bind; [|intros; apply only_ret]. apply only_bind; [apply only_read|].
  intros [err|fresh]; [apply only_ret|]. destruct (negb _); [apply only_ret|]. destruct (ow_deletion fresh); apply only_ret.
Qed.

Lemma adopt_emits obj once :
  emits (adopt (S := S) owner hasSchema obj once) (fun evs x =>
    (evs = [] \/ exists p ok, hasSchema = true /\ adopted obj p /\ evs = [EvUpdatePod p ok]) /\
    (forall p, x.1 = inr p -> adopted obj p /\ (hasSchema = true -> evs = [EvUpdatePod p true]))).
Proof.
  unfold adopt, adopted. apply emits_quiet; [apply canAdoptOnce_only|]. intros [err once'].
  destruct err as [e|]; [apply emits_ret; by split; [left|]|].
  destruct hasSchema; simpl; [|apply emits_ret; split; [by left|]; by intros p [= <-]].
  destruct (SetControllerReference owner obj) as [e|p] eqn:E; [apply emits_ret; by split; [left|]|].
  eapply emits_bind with (P := fun evs e => evs = [EvUpdatePod p (is_ok e)]); [by apply emits_call|].
  intros evs e ->. destruct e as [e|]; apply emits_ret; (split; [right; eauto 10|]); [done|].
  by intros p' [= <-].
Qed.

Lemma claimObject_emits obj once :
  emits (claimObject (S := S) owner hasSchema match_ obj once) (fun evs x => object_post obj evs x.1).
Proof.
  unfold claimObject, object_post, stake. destruct (GetControllerOf (p_owners obj)) as [ref|] eqn:Eg.
  - destruct (String.eqb_spec (or_uid ref) (ow_uid owner)) as [Eu|]; simpl; [|by apply emits_ret].
    destruct (match_ obj); [by apply emits_ret|]. destruct (ow_deletion owner); [by apply emits_ret|].
    unfold release. assert (Hex : existsb (fun r => String.eqb (or_uid r) (ow_uid owner)) (p_owners obj) = true).
    { apply existsb_exists. exists ref. apply List.find_some in Eg as [Hin _]. split; [done|by apply String.eqb_eq]. }
    rewrite Hex. eapply emits_bind with (P := fun evs _ => exists ok, evs = [EvUpdatePod (released owner obj) ok]).
    + eapply emits_bind with (P := fun evs _ => exists ok, evs = [EvUpdatePod (released owner obj) ok]).
      * apply emits_call. intros a. by exists (is_ok a).
      * intros evs e [ok ->]. destruct e; apply emits_ret; eauto.
    + intros evs e [ok ->]. destruct e as [err|]; [destruct (IsNotFound err)|]; apply emits_ret; split; eauto.
  - destruct (_ || _); [by apply emits_ret|]. destruct (p_deletion obj); [by apply emits_ret|].
    eapply emits_bind; [apply adopt_emits|]. intros evs [r once'] [He Hr]. simpl in Hr.
    destruct r as [err|p]; [destruct (IsNotFound err)|]; apply emits_ret; rewrite app_nil_r; (split; [done|]); simpl; [done|done|].
    intros p' [= <-]. by apply Hr.
Qed.

(** What the whole list amounts to. *)
Definition claim_post (objs : list Pod) (evs : list Event) (claimed : list Pod) : Prop :=
  filterb (is_kept owner match_) objs `sublist_of` claimed /\
  (forall p, p ∈ claimed -> exists obj, obj ∈ objs /\
     (stake owner match_ obj = Keep /\ p = obj \/
      stake owner match_ obj = Adopt /\ adopted obj p /\ (hasSchema = true -> EvUpdatePod p true ∈ evs))) /\
  (forall ev, ev ∈ evs -> exists obj ok, obj ∈ objs /\
     (stake owner match_ obj = Release /\ ev = EvUpdatePod (released owner obj) ok \/
      exists p, stake owner match_ obj = Adopt /\ adopted obj p /\ ev = EvUpdatePod p ok)) /\
  (forall obj, obj ∈ objs -> stake owner match_ obj = Release -> exists ok, EvUpdatePod (released owner obj) ok ∈ evs).

Lemma claim_post_cons obj objs evs evs' r claimed : object_post obj evs r -> claim_post objs evs' claimed ->
  claim_post (obj :: objs) (evs ++ evs') (match r with inr (Some p) => p :: claimed | _ => claimed end).
Proof.
  intros Ho (H1 & H2 & H3 & H4).
  assert (Hw : forall ev, ev ∈ evs -> exists ok,
    stake owner match_ obj = Release /\ ev = EvUpdatePod (released owner obj) ok \/
    exists p, stake owner match_ obj = Adopt /\ adopted obj p /\ ev = EvUpdatePod p ok).
  { unfold object_post in Ho. intros ev Hev. destruct (stake owner match_ obj) eqn:Es.
    - destruct Ho as [-> _]. by apply not_elem_of_nil in Hev.
    - destruct Ho as [[ok ->] _]. apply list_elem_of_singleton in Hev. exists ok. by left.
    - destruct Ho as [[->|(p & ok & _ & Hp & ->)] _]; [by apply not_elem_of_nil in Hev|].
      apply list_elem_of_singleton in Hev. exists ok. right. by exists p.
    - destruct Ho as [-> _]. by apply not_elem_of_nil in Hev. }
  assert (Hc : forall p, r = inr (Some p) ->
    stake owner match_ obj = Keep /\ p = obj \/
    stake owner match_ obj = Adopt /\ adopted obj p /\ (hasSchema = true -> EvUpdatePod p true ∈ evs)).
  { unfold object_post in Ho. intros p ->. destruct (stake owner match_ obj) eqn:Es.
    - destruct Ho as [_ [= ->]]. by left.
    - destruct Ho as [_ Hn]. by destruct (Hn p).
    - destruct Ho as [_ Hp]. destruct (Hp p eq_refl) as [Ha He]. right. split; [done|]. split; [done|].
      intros Hs. rewrite (He Hs). by apply list_elem_of_singleton.
    - by destruct Ho. }
  split; [|split; [|split]].
  - simpl. unfold is_kept at 1. unfold object_post in Ho. destruct (stake owner match_ obj).
    + destruct Ho as [_ ->]. by constructor.
    + destruct Ho as [_ Hn]. destruct r as [|[p|]]; try done. by destruct (Hn p).
    + destruct r as [|[p|]]; try done. by constructor.
    + by destruct Ho as [_ ->].
  - intros p Hp. assert (Hold : p ∈ claimed -> exists o, o ∈ obj :: objs /\
      (stake owner match_ o = Keep /\ p = o \/
       stake owner match_ o = Adopt /\ adopted o p /\ (hasSchema = true -> EvUpdatePod p true ∈ evs ++ evs'))).
    { intros Hin. destruct (H2 p Hin) as (o & Ho' & [Hk|(Ha & Hb & Hc')]); exists o; (split; [by apply list_elem_of_further|]); [by left|].
      right. split; [done|]. split; [done|]. intros Hs. apply elem_of_app. auto. }
    destruct r as [e|[q|]]; [by apply Hold| |by apply Hold]. apply elem_of_cons in Hp as [->|Hp]; [|by apply Hold].
    exists obj. split; [apply list_elem_of_here|]. destruct (Hc q eq_refl) as [Hk|(Ha & Hb & He)]; [by left|right].
    split; [done|]. split; [done|]. intros Hs. apply elem_of_app. left. auto.
  - intros ev Hev. apply elem_of_app in Hev as [Hev|Hev].
    + destruct (Hw ev Hev) as [ok Hx]. exists obj, ok. split; [apply list_elem_of_here|done].
    + destruct (H3 ev Hev) as (o & ok & Hin & Hx). exists o, ok. split; [by apply list_elem_of_further|done].
  - intros o Hin Hr. apply elem_of_cons in Hin as [->|Hin].
    + unfold object_post in Ho. rewrite Hr in Ho. destruct Ho as [[ok ->] _]. exists ok. apply elem_of_app. left.
      by apply list_elem_of_singleton.
    + destruct (H4 o Hin Hr) as [ok Hok]. exists ok. apply elem_of_app. by right.
Qed.

Lemma claim_all_emits objs : forall once claimed errs,
  emits (claim_all (S := S) owner hasSchema match_ objs once claimed errs) (fun evs x =>
    exists new, x.1 = claimed ++ new /\ claim_post objs evs new).
Proof.
  induction objs as [|obj objs IH]; intros once claimed errs; cbn [claim_all].
  { apply emits_ret. exists []. rewrite app_nil_r. split; [done|]. split; [done|]. split; [|split]; intros ? Hx; by apply not_elem_of_nil in Hx. }
  eapply emits_bind; [apply claimObject_emits|]. intros evs [r once'] Ho. simpl in Ho.
  assert (Hgo : forall once claimed' errs, claimed' = match r with inr (Some p) => claimed ++ [p] | _ => claimed end ->
    emits (claim_all (S := S) owner hasSchema match_ objs once claimed' errs) (fun evs' x =>
      exists new, x.1 = claimed ++ new /\ claim_post (obj :: objs) (evs ++ evs') new)).
  { intros once2 claimed' errs' ->. eapply emits_mono; [apply IH|]. intros evs' x (new & Hx & Hp).
    eexists. split; [|by apply (claim_post_cons obj objs evs evs' r new)]. rewrite Hx.
    destruct r as [|[p|]]; try done. by rewrite <-app_assoc. }
  destruct r as [err|[p|]]; by apply Hgo.
Qed.

(** C36: Claiming objects respects ownership. Whatever the server answers, the objects
    claimed are those that the owner controls and its selector matches, all of them and in
    their order, and orphans that it matches, whose adoption was written; every write
    either releases an object that the owner controls but does not match any more, by
    removing its reference and nothing else, or adopts a matching orphan; every such
    object is released; and while the owner is being deleted nothing is written. *)
Theorem claim_respects_ownership objs :
  emits (ClaimOwnedObjects (S := S) owner hasSchema match_ objs) (fun evs x =>
    let claimed := x.1 in
    filterb (is_kept owner match_) objs `sublist_of` claimed /\
    (forall p, p ∈ claimed -> exists obj, obj ∈ objs /\
       (stake owner match_ obj = Keep /\ p = obj \/
        stake owner match_ obj = Adopt /\ adopted obj p /\ (hasSchema = true -> EvUpdatePod p true ∈ evs))) /\
    (forall ev, ev ∈ evs -> ow_deletion owner = None /\ exists obj ok, obj ∈ objs /\
       (stake owner match_ obj = Release /\ ev = EvUpdatePod (released owner obj) ok \/
        exists p, stake owner match_ obj = Adopt /\ adopted obj p /\ ev = EvUpdatePod p ok)) /\
    (forall obj, obj ∈ objs -> stake owner match_ obj = Release -> exists ok, EvUpdatePod (released owner obj) ok ∈ evs)).
Proof.
  unfold ClaimOwnedObjects. eapply emits_bind; [apply claim_all_emits|].
  intros evs [claimed errs] (new & Hx & H1 & H2 & H3 & H4). simpl in Hx. subst. apply emits_ret. rewrite app_nil_r.
  split; [done|]. split; [done|]. split; [|done]. intros ev Hev. destruct (H3 ev Hev) as (obj & ok & Hin & Hcase).
  split; [|by exists obj, ok]. unfold stake in Hcase. destruct (ow_deletion owner); [|done].
  destruct Hcase as [[E _]|(p & E & _)]; repeat (case_match; try done).
Qed.
End ManagerFacts.
