(* ===== verification/PodSorter.v ===== *)
(** * pkg/controller/cloneset/utils/pod_sorter.go

    The order in which a CloneSet gives up its pods: [ActivePodsWithRanks], the
    deletion cost of a pod and the rank of the pods on the same node. *)

From S2P Require Import Prelude GoLib GoText K8s.
Open Scope Z_scope.
Open Scope kruise_scope.

(** The ranks of a ranker: they are only compared with each other, so that an
    integer stands for a [float64] rank.  A pod that is not in the map of the
    ranker has rank [0]. *)
Abbreviation Ranker := (Pod -> Z).

Definition validFirstDigit (s : string) : bool :=
  match chars s with
  | [] => false
  | c :: _ =>
      Ascii.eqb c "-" || (Ascii.eqb c "0" && String.eqb s "0")
      || (is_digit c && negb (Ascii.eqb c "0"))
  end.

(** The cost, and whether there was an error. *)
Definition getDeletionCostFromPodAnnotations (annotations : gmap string string) : Z * bool :=
  match annotations !! PodDeletionCost with
  | Some value =>
      if negb (validFirstDigit value) then (0, true)
      else match conv_ok (ParseInt value 32) with
           | Some i => (i, false)
           | None => (0, true)
           end
  | None => (0, false)
  end.

Section Less.
(** [None] is Go's [nil]. *)
Context (ranker : option Ranker) (availableFunc : option (Pod -> bool)).

Definition rank_of (p : Pod) : Z := match ranker with Some r => r p | None => 0 end.

(** [ActivePodsWithRanks.Less] on the elements it compares. *)
Definition ActivePodsWithRanks_Less (a b : Pod) : bool :=
  if negb (String.eqb (p_node a) (p_node b))
     && (String.eqb (p_node a) "" || String.eqb (p_node b) "")
  then String.eqb (p_node a) ""
  else if negb (podPhaseToOrdinal (p_phase a) =? podPhaseToOrdinal (p_phase b))
  then podPhaseToOrdinal (p_phase a) <? podPhaseToOrdinal (p_phase b)
  else if (match availableFunc with Some f => negb (Bool.eqb (f a) (f b)) | None => false end)
  then (match availableFunc with Some f => negb (f a) | None => false end)
  else if negb (Bool.eqb (IsPodReady a) (IsPodReady b))
  then negb (IsPodReady a)
  else
    let pi := (getDeletionCostFromPodAnnotations (p_annotations a)).1 in
    let pj := (getDeletionCostFromPodAnnotations (p_annotations b)).1 in
    if negb (pi =? pj) then pi <? pj
    else if negb (rank_of a =? rank_of b) then rank_of b <? rank_of a
    else if IsPodReady a && IsPodReady b && negb (podReadyTime a =? podReadyTime b)
    then afterOrZero (podReadyTime a) (podReadyTime b)
    else if negb (maxContainerRestarts a =? maxContainerRestarts b)
    then maxContainerRestarts b <? maxContainerRestarts a
    else if negb (p_creation a =? p_creation b)
    then afterOrZero (p_creation a) (p_creation b)
    else false.

(** The same order as a list of keys, compared lexicographically. *)
Definition keys_of (p : Pod) : list Z :=
  [ b2z (negb (String.eqb (p_node p) "")); podPhaseToOrdinal (p_phase p);
    match availableFunc with Some f => b2z (f p) | None => 0 end; b2z (IsPodReady p);
    (getDeletionCostFromPodAnnotations (p_annotations p)).1; - rank_of p;
    b2z (negb (podReadyTime p =? 0)); - podReadyTime p; - maxContainerRestarts p;
    b2z (negb (p_creation p =? 0)); - p_creation p ].
End Less.

(** Lexicographic comparison of keys. *)
Fixpoint lex_lt (a b : list Z) : bool :=
  match a, b with
  | x :: a', y :: b' => if negb (x =? y) then x <? y else lex_lt a' b'
  | _, _ => false
  end.

Lemma lex_lt_irrefl a : lex_lt a a = false.
Proof. induction a as [|x a IH]; simpl; [done|]. by rewrite Z.eqb_refl. Qed.

Lemma lex_lt_trans n a b c : length a = n -> length b = n -> length c = n ->
  lex_lt a b = true -> lex_lt b c = true -> lex_lt a c = true.
Proof.
  revert a b c. induction n as [|n IH]; intros [|x a] [|y b] [|z c]; simpl; try done.
  intros [= Ha] [= Hb] [= Hc].
  destruct (Z.eqb_spec x y), (Z.eqb_spec y z), (Z.eqb_spec x z); simpl; rewrite ?Z.ltb_lt; try lia.
  by apply IH.
Qed.

Lemma lex_lt_cotrans n a b c : length a = n -> length b = n -> length c = n ->
  lex_lt a c = true -> lex_lt a b = true \/ lex_lt b c = true.
Proof.
  revert a b c. induction n as [|n IH]; intros [|x a] [|y b] [|z c]; simpl; try done.
  intros [= Ha] [= Hb] [= Hc].
  destruct (Z.eqb_spec x y), (Z.eqb_spec y z), (Z.eqb_spec x z); simpl; rewrite ?Z.ltb_lt; try lia.
  by apply IH.
Qed.

(** A comparison that is the lexicographic one of keys of a fixed length. *)
Lemma StrictWeak_keys {A} (n : nat) (keys : A -> list Z) (less : A -> A -> bool) :
  (forall x, length (keys x) = n) -> (forall x y, less x y = lex_lt (keys x) (keys y)) ->
  StrictWeak less.
Proof.
  intros Hn Hl. split.
  - intros x. rewrite Hl. apply lex_lt_irrefl.
  - intros x y z. rewrite !Hl. by apply (lex_lt_trans n).
  - intros x y z. rewrite !Hl. by apply (lex_lt_cotrans n).
Qed.

Lemma lex_cons x y a b :
  lex_lt (x :: a) (y :: b) = if negb (x =? y) then x <? y else lex_lt a b.
Proof. done. Qed.

(** One step of the chain for two booleans, "the false one first". *)
Lemma lex_bool (p q : bool) a b :
  lex_lt (b2z p :: a) (b2z q :: b) = if negb (Bool.eqb p q) then negb p else lex_lt a b.
Proof. by destruct p, q. Qed.

Lemma lex_neg x y a b :
  lex_lt (- x :: a) (- y :: b) = if negb (x =? y) then y <? x else lex_lt a b.
Proof.
  rewrite lex_cons. replace (- x =? - y) with (x =? y)
    by (apply eq_true_iff_eq; rewrite !Z.eqb_eq; lia).
  destruct (x =? y); simpl; [done|]. apply eq_true_iff_eq. rewrite !Z.ltb_lt. lia.
Qed.

(** A time: the zero time first, then the later one. *)
Lemma lex_time x y a b :
  lex_lt (b2z (negb (x =? 0)) :: - x :: a) (b2z (negb (y =? 0)) :: - y :: b)
  = if negb (x =? y) then afterOrZero x y else lex_lt a b.
Proof.
  rewrite lex_bool, lex_neg. unfold afterOrZero.
  destruct (Z.eqb_spec x 0), (Z.eqb_spec y 0), (Z.eqb_spec x y); simpl; try done; lia.
Qed.

Lemma Less_keys ranker avail a b :
  ActivePodsWithRanks_Less ranker avail a b = lex_lt (keys_of ranker avail a) (keys_of ranker avail b).
Proof.
  unfold ActivePodsWithRanks_Less, keys_of. rewrite lex_bool.
  assert (Hnode : negb (String.eqb (p_node a) (p_node b))
      && (String.eqb (p_node a) "" || String.eqb (p_node b) "")
    = negb (Bool.eqb (negb (String.eqb (p_node a) "")) (negb (String.eqb (p_node b) "")))).
  { destruct (String.eqb_spec (p_node a) (p_node b)), (String.eqb_spec (p_node a) ""),
      (String.eqb_spec (p_node b) ""); simpl; congruence. }
  rewrite Hnode. destruct (negb (Bool.eqb _ _)); [by rewrite negb_involutive|].
  rewrite lex_cons. destruct (negb (podPhaseToOrdinal _ =? _)); [done|].
  assert (Hav : forall l1 l2,
    (if (match avail with Some f => negb (Bool.eqb (f a) (f b)) | None => false end)
     then (match avail with Some f => negb (f a) | None => false end) else lex_lt l1 l2)
    = lex_lt (match avail with Some f => b2z (f a) | None => 0 end :: l1)
             (match avail with Some f => b2z (f b) | None => 0 end :: l2)).
  { intros. destruct avail; [by rewrite lex_bool|done]. }
  rewrite <-Hav. destruct (match avail with Some f => _ | None => false end); [done|].
  rewrite lex_bool. destruct (Bool.eqb (IsPodReady a) (IsPodReady b)) eqn:Er; simpl negb; [|done].
  cbv zeta. rewrite lex_cons. destruct (negb (_ =? _)); [done|].
  rewrite lex_neg. destruct (negb (rank_of ranker a =? _)); [done|].
  rewrite lex_time, lex_neg, lex_time.
  apply Bool.eqb_prop in Er. destruct (IsPodReady a) eqn:Ea; rewrite <-Er; simpl andb; [done|].
  unfold podReadyTime. rewrite Ea, <-Er. done.
Qed.

#[export] Instance Less_strict_weak ranker avail : StrictWeak (ActivePodsWithRanks_Less ranker avail).
Proof. apply (StrictWeak_keys 11 (keys_of ranker avail)); [done|]. intros. apply Less_keys. Qed.

(** ** Rankers *)

Section SameNode.
Context `{GoSort}.

(** The nodes the pods run on, each once. *)
Definition nodes_of (pods : list Pod) : list string :=
  remove_dups (filterb (fun n => negb (String.eqb n "")) (map p_node pods)).

Definition pods_on (pods : list Pod) (node : string) : list Pod :=
  filterb (fun p => String.eqb (p_node p) node) pods.

(** [r.podRanks[pod.UID] = float64(len(podsOnSameNode) - i)]. *)
Fixpoint rank_pods (n : Z) (pods : list Pod) (ranks : gmap string Z) : gmap string Z :=
  match pods with
  | [] => ranks
  | p :: pods' => rank_pods (n - 1) pods' (<[p_uid p := n]> ranks)
  end.

(** One node: the last pod of the order is left out. *)
Definition rank_node (podsOnSameNode : list Pod) (ranks : gmap string Z) : gmap string Z :=
  if len podsOnSameNode <=? 1 then ranks
  else
    let sorted := sort_by (ActivePodsWithRanks_Less None None) podsOnSameNode in
    let rest := slice_to sorted (len sorted - 1) in
    rank_pods (len rest) rest ranks.

Definition sameNodeRanks (pods : list Pod) : gmap string Z :=
  fold_left (fun ranks node => rank_node (pods_on pods node) ranks) (nodes_of pods) ∅.

Definition NewSameNodeRanker (pods : list Pod) : Ranker :=
  fun p => default 0 (sameNodeRanks pods !! p_uid p).

(** *** What the ranks are *)

Lemma rank_pods_other n pods ranks u :
  u ∉ map p_uid pods -> rank_pods n pods ranks !! u = ranks !! u.
Proof.
  revert n ranks. induction pods as [|p pods IH]; intros n ranks Hu; simpl in *; [done|].
  rewrite not_elem_of_cons in Hu. destruct Hu as [Hp Hu].
  rewrite IH by done. by apply lookup_insert_ne.
Qed.

Lemma rank_pods_list n pods ranks : NoDup (map p_uid pods) ->
  map (fun p => rank_pods n pods ranks !! p_uid p) pods
  = map Some (reverse (seqZ (n - len pods + 1) (len pods))).
Proof.
  revert n ranks. induction pods as [|p pods IH]; intros n ranks Hnd; [done|].
  simpl in Hnd. apply NoDup_cons in Hnd as [Hp Hnd]. cbn [map rank_pods].
  rewrite rank_pods_other by done. rewrite lookup_insert_eq, IH by done.
  cbn [length]. rewrite Nat2Z.inj_succ. replace (Z.succ (len pods)) with (len pods + 1) by lia.
  rewrite seqZ_app by lia. rewrite reverse_app. cbn.
  replace (n - (len pods + 1) + 1 + len pods) with n by lia.
  replace (n - (len pods + 1) + 1) with (n - 1 - len pods + 1) by lia. done.
Qed.

Lemma rank_node_other group ranks u :
  u ∉ map p_uid group -> rank_node group ranks !! u = ranks !! u.
Proof.
  intros Hu. unfold rank_node. destruct (_ <=? 1); [done|]. apply rank_pods_other.
  intros Hin. apply Hu. apply list_elem_of_fmap in Hin as (p & -> & Hp).
  apply list_elem_of_fmap. exists p. split; [done|].
  eapply list_elem_of_In. eapply Permutation_in; [apply sort_by_perm|].
  apply list_elem_of_In. unfold slice_to in Hp. eapply subseteq_take; eassumption.
Qed.

Lemma fold_rank_other pods nodes ranks u :
  (forall m, m ∈ nodes -> u ∉ map p_uid (pods_on pods m)) ->
  fold_left (fun ranks node => rank_node (pods_on pods node) ranks) nodes ranks !! u = ranks !! u.
Proof.
  revert ranks. induction nodes as [|m nodes IH]; intros ranks Hu; simpl; [done|].
  rewrite IH; [apply rank_node_other, Hu; left|]. intros m' Hm. apply Hu. by right.
Qed.

(** Distinct pods have distinct UIDs, so a UID is on one node. *)
Lemma uid_other_node pods p m :
  NoDup (map p_uid pods) -> p ∈ pods -> m <> p_node p -> p_uid p ∉ map p_uid (pods_on pods m).
Proof.
  intros Hnd Hp Hm Hin. apply list_elem_of_fmap in Hin as (q & Hq & Hin).
  apply filterb_elem in Hin as [Hin Hn]. apply String.eqb_eq in Hn. apply Hm.
  assert (p = q) as ->; [|by symmetry].
  apply list_elem_of_lookup in Hp as [i Hi]. apply list_elem_of_lookup in Hin as [j Hj].
  assert (i = j) as ->; [|congruence].
  apply (NoDup_lookup _ i j (p_uid p) Hnd).
  - change (map p_uid pods) with (p_uid <$> pods). by rewrite list_lookup_fmap, Hi.
  - change (map p_uid pods) with (p_uid <$> pods). by rewrite list_lookup_fmap, Hj, Hq.
Qed.

Lemma sameNodeRanks_node pods node :
  NoDup (map p_uid pods) -> node <> ""%string -> node ∈ map p_node pods ->
  exists ranks, (forall p, p ∈ pods_on pods node -> ranks !! p_uid p = None) /\
    forall p, p ∈ pods_on pods node ->
      sameNodeRanks pods !! p_uid p = rank_node (pods_on pods node) ranks !! p_uid p.
Proof.
  intros Hnd Hne Hin. unfold sameNodeRanks.
  assert (Hn : node ∈ nodes_of pods).
  { apply elem_of_remove_dups, filterb_elem. split; [done|].
    apply negb_true_iff. by apply String.eqb_neq. }
  apply list_elem_of_split in Hn as (l1 & l2 & E).
  pose proof (NoDup_remove_dups (filterb (fun n => negb (String.eqb n "")) (map p_node pods))) as Hnn.
  fold (nodes_of pods) in Hnn. rewrite E in Hnn |- *.
  apply NoDup_app in Hnn as (_ & Hdis & Hnn). apply NoDup_cons in Hnn as [Hnin _].
  rewrite fold_left_app. cbn [fold_left].
  eexists (fold_left _ l1 ∅). split.
  - intros p Hp. apply filterb_elem in Hp as [Hp Hpn]. apply String.eqb_eq in Hpn.
    rewrite fold_rank_other; [apply lookup_empty|]. intros m Hm. apply uid_other_node; [done..|].
    intros ->. rewrite Hpn in Hm. apply (Hdis node Hm). left.
  - intros p Hp. apply filterb_elem in Hp as [Hp Hpn]. apply String.eqb_eq in Hpn.
    rewrite fold_rank_other; [done|]. intros m Hm. apply uid_other_node; [done..|].
    intros ->. by rewrite Hpn in Hm.
Qed.

Lemma filterb_map_sub {B} (f : Pod -> B) g pods : map f (filterb g pods) `sublist_of` map f pods.
Proof. apply fmap_sublist, filterb_sublist. Qed.

(** The pods of one node, in the order in which a CloneSet gives them up, have
    the ranks [k-1, ..., 1, 0]: exactly one pod of every node has rank [0], it is
    the one the order keeps longest, and the pods of a crowded node rank above
    (are deleted before) the last pod of another node. *)
Theorem same_node_ranks pods node :
  NoDup (map p_uid pods) -> node <> ""%string -> node ∈ map p_node pods ->
  let group := pods_on pods node in
  map (NewSameNodeRanker pods) (sort_by (ActivePodsWithRanks_Less None None) group)
  = reverse (seqZ 0 (len group)).
Proof.
  intros Hnd Hne Hin group. destruct (sameNodeRanks_node pods node Hnd Hne Hin) as (ranks & H0 & H1).
  fold group in H0, H1. set (s := sort_by _ group).
  assert (Hperm : s ≡ₚ group) by apply sort_by_perm.
  assert (Hlen : length s = length group) by (by apply Permutation_length).
  assert (Hs : NoDup (map p_uid s)).
  { rewrite (Permutation_map p_uid Hperm). eapply sublist_NoDup; [exact Hnd|apply filterb_map_sub]. }
  transitivity (map (fun p => default 0 (rank_node group ranks !! p_uid p)) s).
  { apply map_ext_in. intros p Hp. unfold NewSameNodeRanker. rewrite H1; [done|].
    apply list_elem_of_In in Hp. by rewrite Hperm in Hp. }
  unfold rank_node. fold s. destruct (len group <=? 1) eqn:El; zbool.
  - transitivity (map (fun _ : Pod => 0) s).
    { apply map_ext_in. intros p Hp. apply list_elem_of_In in Hp. rewrite Hperm in Hp. by rewrite H0. }
    destruct s as [|p [|q s]]; rewrite <-Hlen in *; try done; simpl in El; lia.
  - clearbody s. destruct s as [|x init _] using rev_ind; [simpl in *; lia|].
    assert (Hinit : slice_to (init ++ [x]) (len (init ++ [x]) - 1) = init).
    { unfold slice_to. rewrite length_app. simpl length.
      replace (Z.to_nat _) with (length init) by lia. apply take_app_length. }
    rewrite Hinit. rewrite map_app in Hs |- *. apply NoDup_app in Hs as (Hni & Hx & _).
    replace (len group) with (1 + len init) by (rewrite <-Hlen, length_app; simpl; lia).
    rewrite seqZ_app, reverse_app by lia.
    transitivity (map (default 0) (map (fun p => rank_pods (len init) init ranks !! p_uid p) init) ++ [0]).
    { rewrite map_map. f_equal. cbn. rewrite rank_pods_other.
      - rewrite H0; [done|]. rewrite <-Hperm. apply elem_of_app. right. left.
      - intros Hin'. apply (Hx _ Hin'). left. }
    rewrite rank_pods_list by done. rewrite map_map, map_id.
    by replace (len init - len init + 1) with (0 + 1) by lia.
Qed.
End SameNode.

(** Three pods, two of them on the node [n]. *)
Definition ex_ranked (name node : string) (restarts : Z) : Pod :=
  mkPod name "default" name "1" ∅ ∅ [] 1 None node PodRunning [] [mkCStatus "c" true restarts "" "" ""] [] [] [] [] "" "" [] no_placement.

Lemma same_node_ranks_witness :
  map (NewSameNodeRanker [ex_ranked "a" "n" 0; ex_ranked "b" "m" 0; ex_ranked "c" "n" 3])
    (sort_by (ActivePodsWithRanks_Less None None) [ex_ranked "a" "n" 0; ex_ranked "c" "n" 3]) = [1; 0].
Proof.
  apply (same_node_ranks [ex_ranked "a" "n" 0; ex_ranked "b" "m" 0; ex_ranked "c" "n" 3] "n").
  - cbn. repeat constructor; set_solver.
  - done.
  - left.
Defined.
