(* ===== verification/CloneSetScale.v ===== *)
(** * Scaling a CloneSet

    pkg/controller/cloneset/sync/cloneset_scale.go and the parts of
    core/cloneset_core.go and utils/cloneset_utils.go it calls: the pods planned
    for deletion, the instance ids and names of new pods, the choice of pods to
    delete, and the handler [Scale] with its writes and expectations. *)

From S2P Require Import Prelude GoLib GoText K8s Tools Expectations Lifecycle UpdateSort CloneSetDiff World PodSorter.
Open Scope Z_scope.
Open Scope kruise_scope.

(** [GetControllerKey]. *)
Definition GetControllerKey (cs : CloneSet) : string :=
  cs_namespace cs +:+ "/" +:+ CloneSetDiff.cs_name cs.

(** ** Pods planned for deletion *)

Definition getPlannedDeletedPods (cs : CloneSet) (pods : list Pod) : list Pod * list Pod * Z :=
  let specified := filterb (isSpecifiedDelete cs) pods in
  let preDelete := filterb in_pre_delete pods in
  let names := PodsUtil.GetPodNames (filterb (fun p => isSpecifiedDelete cs p || in_pre_delete p) pods) in
  (specified, preDelete, Z.of_nat (size names)).

(** ** Instance ids *)

(** [sets.String.PopAny]: some element of the set, [None] when it is empty. *)
Class PopAny := {
  pop_any : gset string -> option string;
  pop_any_spec : forall s, match pop_any s with Some x => x ∈ s | None => s = ∅ end;
}.

(** The id with which the loop over [rand.String(LengthOfInstanceID)] ends, by the
    number of ids drawn before: one that is not in the set. *)
Class IDGen := {
  genID : gset string -> nat -> string;
  genID_fresh : forall s n, genID s n ∉ s;
  genID_nonempty : forall s n, genID s n <> ""%string;
}.

Section IDs.
Context `{PopAny} `{IDGen}.

(** [getOrGenInstanceID]: the id, the available ids left and the ids drawn. *)
Definition getOrGenInstanceID (existingIDs availableIDs : gset string) (drawn : nat)
  : string * gset string * nat :=
  match pop_any availableIDs with
  | Some id =>
      let availableIDs := availableIDs ∖ {[id]} in
      if String.eqb id "" then (genID existingIDs drawn, availableIDs, S drawn)
      else (id, availableIDs, drawn)
  | None => (genID existingIDs drawn, availableIDs, S drawn)
  end.

Fixpoint gen_ids (num : nat) (existingIDs availableIDs : gset string) (drawn : nat)
  (retIDs : gset string) : gset string :=
  match num with
  | O => retIDs
  | S num' =>
      let '(id, availableIDs, drawn) := getOrGenInstanceID existingIDs availableIDs drawn in
      gen_ids num' existingIDs availableIDs drawn ({[id]} ∪ retIDs)
  end.

Definition pvc_id (c : PersistentVolumeClaim) : string := lbl (pvc_labels c) CloneSetInstanceID.
Definition GetInstanceID (p : Pod) : string := lbl (p_labels p) CloneSetInstanceID.

(** The non-empty ids of a list. *)
Definition id_set (l : list string) : gset string :=
  list_to_set (filterb (fun id => negb (String.eqb id "")) l).

Definition getOrGenAvailableIDs (num : Z) (pods : list Pod) (pvcs : list PersistentVolumeClaim)
  : gset string :=
  let pvcIDs := id_set (map pvc_id pvcs) in
  let podIDs := id_set (map GetInstanceID pods) in
  gen_ids (Z.to_nat num) (pvcIDs ∪ podIDs) (pvcIDs ∖ podIDs) 0 ∅.

Lemma getOrGenInstanceID_spec ex av drawn id av' drawn' :
  getOrGenInstanceID ex av drawn = (id, av', drawn') ->
  (id ∈ av \/ id ∉ ex) /\ av' ⊆ av /\ id <> ""%string.
Proof.
  unfold getOrGenInstanceID. pose proof (pop_any_spec av) as Hp.
  destruct (pop_any av) as [x|].
  - destruct (String.eqb_spec x "") as [Hx|Hx]; intros [= <- <- _].
    + split; [right; apply genID_fresh|]. split; [set_solver|apply genID_nonempty].
    + split; [by left|]. split; [set_solver|done].
  - intros [= <- <- _]. split; [right; apply genID_fresh|]. split; [done|apply genID_nonempty].
Qed.

Lemma gen_ids_spec num ex av drawn ret0 id :
  id ∈ gen_ids num ex av drawn ret0 ->
  id ∈ ret0 \/ ((id ∈ av \/ id ∉ ex) /\ id <> ""%string).
Proof.
  revert av drawn ret0. induction num as [|num IH]; intros av drawn ret0; simpl; [by left|].
  destruct (getOrGenInstanceID ex av drawn) as [[x av'] drawn'] eqn:E.
  apply getOrGenInstanceID_spec in E as (Hx & Hsub & Hne).
  intros Hid. apply IH in Hid as [Hid|[[Hid|Hid] Hn]].
  - apply elem_of_union in Hid as [Hid|Hid]; [|by left].
    apply elem_of_singleton in Hid as ->. right. split; [|done]. destruct Hx; auto.
  - right. split; [left; set_solver|done].
  - right. split; [by right|done].
Qed.

Lemma gen_ids_size num ex av drawn ret0 :
  (size (gen_ids num ex av drawn ret0) <= num + size ret0)%nat.
Proof.
  revert av drawn ret0. induction num as [|num IH]; intros av drawn ret0; simpl; [lia|].
  destruct (getOrGenInstanceID ex av drawn) as [[x av'] drawn'].
  etransitivity; [apply IH|].
  assert (size ({[x]} ∪ ret0) <= 1 + size ret0)%nat; [|lia].
  rewrite size_union_alt, size_singleton.
  assert (size (ret0 ∖ {[x]}) <= size ret0)%nat by (apply subseteq_size; set_solver). lia.
Qed.
End IDs.

(** ** New pods *)

Section NewPods.
(** The pod of the template ([kubecontroller.GetPodFromTemplate]). *)
Context (GetPodFromTemplate : CloneSet -> Pod) (shortHashGate : bool).

Definition getPersistentVolumeClaimName (cs : CloneSet) (claim : PersistentVolumeClaim) (id : string)
  : string := pvc_name claim +:+ "-" +:+ CloneSetDiff.cs_name cs +:+ "-" +:+ id.

(** The claims of a pod by template name; a later template of the same name
    replaces an earlier one. *)
Definition GetPersistentVolumeClaims (cs : CloneSet) (pod : Pod) : gmap string PersistentVolumeClaim :=
  fold_left (fun claims t =>
    let id := GetInstanceID pod in
    let labels := <[CloneSetInstanceID := id]> (spec_MatchLabels cs ∪ pvc_labels t) in
    <[pvc_name t := mkPVC (getPersistentVolumeClaimName cs t id) (cs_namespace cs) labels
       (pvc_owners t ++ option_list (GetControllerOf (p_owners pod))) (pvc_deletion t)]> claims)
    (spec_VolumeClaimTemplates cs) ∅.

(** The volumes of the claims, then the other volumes of the pod. *)
Definition UpdateStorage (cs : CloneSet) (pod : Pod) : Pod :=
  let claims := GetPersistentVolumeClaims cs pod in
  let newVolumes := map (fun kv => mkVolume kv.1 (Some (pvc_name kv.2))) (map_to_list claims) in
  with_volumes pod
    (newVolumes ++ filterb (fun v => negb (bool_decide (is_Some (claims !! vol_name v)))) (p_volumes pod)).

Definition InjectReadinessGate (pod : Pod) : Pod :=
  if existsb (fun g => String.eqb g InPlaceUpdateReady) (p_gates pod) then pod
  else with_gates pod (p_gates pod ++ [InPlaceUpdateReady]).

(** One turn of the loop of [newVersionedPods]. *)
Definition newVersionedPod (cs : CloneSet) (revision id : string) : Pod :=
  let pod := Revision.WriteRevisionHash shortHashGate (GetPodFromTemplate cs) revision in
  let pod := with_name pod (CloneSetDiff.cs_name cs +:+ "-" +:+ id) (cs_namespace cs) in
  let pod := with_labels pod (<[CloneSetInstanceID := id]> (p_labels pod)) in
  UpdateStorage cs (InjectReadinessGate pod).

(** The pods and the ids left: the loop stops when the ids run out. *)
Fixpoint newVersionedPods (cs : CloneSet) (revision : string) (replicas : nat) (availableIDs : list string)
  : list Pod * list string :=
  match replicas with
  | O => ([], availableIDs)
  | S n =>
      match availableIDs with
      | [] => ([], [])
      | id :: ids =>
          let '(pods, rest) := newVersionedPods cs revision n ids in
          (newVersionedPod cs revision id :: pods, rest)
      end
  end.

Definition NewVersionedPods (currentCS updateCS : CloneSet) (currentRevision updateRevision : string)
  (expectedCreations expectedCurrentCreations : Z) (availableIDs : list string) : list Pod :=
  if expectedCreations <=? expectedCurrentCreations then
    (newVersionedPods currentCS currentRevision (Z.to_nat expectedCreations) availableIDs).1
  else
    let '(newPods, rest) :=
      newVersionedPods currentCS currentRevision (Z.to_nat expectedCurrentCreations) availableIDs in
    newPods ++ (newVersionedPods updateCS updateRevision
                  (Z.to_nat (expectedCreations - expectedCurrentCreations)) rest).1.

Lemma newVersionedPods_eq cs rev n ids :
  newVersionedPods cs rev n ids = (map (newVersionedPod cs rev) (take n ids), drop n ids).
Proof.
  revert ids. induction n as [|n IH]; intros ids; [done|]. destruct ids as [|id ids]; [done|].
  simpl. by rewrite IH.
Qed.

Lemma NewVersionedPods_eq ccs ucs cr ur total cur ids :
  0 <= cur ->
  NewVersionedPods ccs ucs cr ur total cur ids
  = map (newVersionedPod ccs cr) (take (Z.to_nat (Z.min total cur)) ids)
    ++ map (newVersionedPod ucs ur) (take (Z.to_nat (total - cur)) (drop (Z.to_nat cur) ids)).
Proof.
  intros Hc. unfold NewVersionedPods. destruct (total <=? cur) eqn:E; zbool.
  - rewrite newVersionedPods_eq. rewrite Z.min_l by lia.
    replace (Z.to_nat (total - cur)) with O by lia. simpl. by rewrite app_nil_r.
  - rewrite !newVersionedPods_eq. by rewrite Z.min_r by lia.
Qed.

Lemma newVersionedPod_name cs rev id :
  p_name (newVersionedPod cs rev id) = CloneSetDiff.cs_name cs +:+ "-" +:+ id.
Proof.
  unfold newVersionedPod, UpdateStorage, InjectReadinessGate. simpl. by destruct (existsb _ _).
Qed.

Lemma newVersionedPod_labels cs rev id :
  p_labels (newVersionedPod cs rev id)
  = <[CloneSetInstanceID := id]>
      (p_labels (Revision.WriteRevisionHash shortHashGate (GetPodFromTemplate cs) rev)).
Proof.
  unfold newVersionedPod, UpdateStorage, InjectReadinessGate. simpl. by destruct (existsb _ _).
Qed.

Lemma newVersionedPod_revision cs rev id :
  Revision.EqualToRevisionHash (newVersionedPod cs rev id) rev = true.
Proof.
  rewrite Revision.EqualToRevisionHash_short, newVersionedPod_labels.
  pose proof (Revision.EqualToRevisionHash_write shortHashGate (GetPodFromTemplate cs) rev) as H.
  rewrite Revision.EqualToRevisionHash_short in H. unfold lbl in *.
  rewrite lookup_insert_ne; [done|]. by vm_compute.
Qed.
End NewPods.

(** ** Choosing the pods to delete *)

Section Choose.
Context `{GoSort}.
(** [NewSpreadConstraintsRanker], by topology keys: it reads the nodes from the
    API server and weighs with logarithms. *)
Context (now : Z) (spreadRanker : list Pod -> list string -> Ranker).

Definition ranker_for (cs : CloneSet) (pods : list Pod) : Ranker :=
  if 0 <? len (spec_TopologyKeys cs) then spreadRanker pods (spec_TopologyKeys cs)
  else NewSameNodeRanker pods.

(** The order of the pods to give up, first one first. *)
Definition delete_order (cs : CloneSet) (pods : list Pod) : Pod -> Pod -> bool :=
  ActivePodsWithRanks_Less (Some (ranker_for cs pods))
    (Some (fun p => IsPodAvailable now p (spec_MinReadySeconds cs))).

Definition choose (cs : CloneSet) (pods : list Pod) (diff : Z) : list Pod :=
  if diff <? len pods then slice_to (sort_by (delete_order cs pods) pods) diff
  else if len pods <? diff then pods
  else slice_to pods diff.

Definition choosePodsToDelete (cs : CloneSet) (totalDiff currentRevDiff : Z)
  (notUpdatedPods updatedPods : list Pod) : list Pod :=
  if currentRevDiff >=? totalDiff then choose cs notUpdatedPods totalDiff
  else if 0 <? currentRevDiff then
    choose cs notUpdatedPods currentRevDiff ++ choose cs updatedPods (totalDiff - currentRevDiff)
  else choose cs updatedPods totalDiff.

(** The pods left over by [choose], with those it takes, are the pods. *)
Lemma choose_spec cs pods diff : 0 <= diff ->
  exists rest, choose cs pods diff ++ rest ≡ₚ pods /\
    len (choose cs pods diff) = Z.min diff (len pods) /\
    (forall x y, x ∈ choose cs pods diff -> y ∈ rest -> delete_order cs pods y x = false).
Proof.
  intros Hd. unfold choose, slice_to. destruct (diff <? len pods) eqn:E; zbool.
  - set (s := sort_by (delete_order cs pods) pods).
    assert (Hp : s ≡ₚ pods) by apply sort_by_perm.
    exists (drop (Z.to_nat diff) s). rewrite take_drop. split; [done|]. split.
    + rewrite length_take, (Permutation_length Hp). lia.
    + assert (Hs : sorted_by (delete_order cs pods) s) by (apply sort_by_sorted, Less_strict_weak).
      rewrite <-(take_drop (Z.to_nat diff) s) in Hs. unfold sorted_by in Hs.
      rewrite StronglySorted_app in Hs. destruct Hs as (Hx & _ & _). intros x y Hxin Hyin. by apply Hx.
  - exists []. split; [|split].
    + rewrite app_nil_r. destruct (len pods <? diff); [done|].
      rewrite take_ge; [done|]. lia.
    + destruct (len pods <? diff) eqn:E2; zbool; [lia|]. rewrite length_take. lia.
    + intros x y _ Hy. by apply not_elem_of_nil in Hy.
Qed.
End Choose.

(** ** The handler *)

(** [commonControl.IsReadyToScale]. *)
Definition IsReadyToScale : bool := true.

Section Handler.
Context {S : Type} `{Api S} `{GoSort} `{PopAny} `{IDGen}.
(** The feature gates, the time (constant during a call) and its text, the pod
    of a template and the ranker for spread constraints. *)
Context (g : Gates) (now : Z) (nowStr : string)
        (GetPodFromTemplate : CloneSet -> Pod) (spreadRanker : list Pod -> list string -> Ranker).
Import LifecycleControl.

(** *** Deleting *)

(** The loop over the claims that have the instance id of the pod. *)
Fixpoint delete_pvcs (key id : string) (pvcs : list PersistentVolumeClaim) : M S (option error) :=
  match pvcs with
  | [] => ret None
  | pvc :: pvcs' =>
      if negb (String.eqb (pvc_id pvc) id) then delete_pvcs key id pvcs'
      else
        expectScale key Scale.Delete (pvc_name pvc) ;;
        do e <- deletePVC pvc;
        match e with
        | Some err => observeScale key Scale.Delete (pvc_name pvc) ;; ret (Some err)
        | None => delete_pvcs key id pvcs'
        end
  end.

Definition preDelete_hook (cs : CloneSet) : option LifecycleHook :=
  match spec_Lifecycle cs with Some l => PreDelete l | None => None end.

Fixpoint deletePods_loop (cs : CloneSet) (pvcs : list PersistentVolumeClaim) (modified : bool)
  (podsToDelete : list Pod) : M S (bool * option error) :=
  match podsToDelete with
  | [] => ret (modified, None)
  | pod :: rest =>
      if Hooks.IsPodHooked (preDelete_hook cs) pod then
        do '(updated, gotPod, err) <-
          UpdatePodLifecycle nowStr pod LifecycleStatePreparingDelete
            (Hooks.IsHookMarkPodNotReady (preDelete_hook cs));
        match err with
        | Some e => ret (false, Some e)
        | None =>
            if updated : bool then expectPod gotPod ;; deletePods_loop cs pvcs true rest
            else deletePods_loop cs pvcs modified rest
        end
      else
        let key := GetControllerKey cs in
        expectScale key Scale.Delete (p_name pod) ;;
        do e <- deletePod pod;
        match e with
        | Some err => observeScale key Scale.Delete (p_name pod) ;; ret (modified, Some err)
        | None =>
            do e <- delete_pvcs key (GetInstanceID pod) pvcs;
            match e with
            | Some err => ret (true, Some err)
            | None => deletePods_loop cs pvcs true rest
            end
        end
  end.

Definition deletePods (cs : CloneSet) (podsToDelete : list Pod) (pvcs : list PersistentVolumeClaim)
  : M S (bool * option error) := deletePods_loop cs pvcs false podsToDelete.

(** *** Creating *)

(** The claims that do not exist yet, then the pod. *)
Fixpoint create_claims (key : string) (existingPVCNames : gset string) (claims : list PersistentVolumeClaim)
  : M S (option error) :=
  match claims with
  | [] => ret None
  | c :: claims' =>
      if bool_decide (pvc_name c ∈ existingPVCNames) then create_claims key existingPVCNames claims'
      else
        expectScale key Scale.Create (pvc_name c) ;;
        do e <- createPVC c;
        match e with
        | Some err => observeScale key Scale.Create (pvc_name c) ;; ret (Some err)
        | None => create_claims key existingPVCNames claims'
        end
  end.

Definition claims_list (cs : CloneSet) (pod : Pod) : list PersistentVolumeClaim :=
  map snd (map_to_list (GetPersistentVolumeClaims cs pod)).

Definition createOnePod (cs : CloneSet) (pod : Pod) (existingPVCNames : gset string) : M S (option error) :=
  do e <- create_claims (GetControllerKey cs) existingPVCNames (claims_list cs pod);
  match e with
  | Some err => ret (Some err)
  | None => createPod pod
  end.

(** The function that each call of [DoItSlowly] runs, on the pod it takes from
    the channel. *)
Definition create_call (currentCS updateCS : CloneSet) (currentRevision : string)
  (existingPVCNames : gset string) (pod : Pod) : M S (option error) :=
  let cs := if Revision.EqualToRevisionHash pod currentRevision then currentCS else updateCS in
  createOnePod cs (Hooks.SetPodLifecycle LifecycleStatePreparingNormal nowStr pod) existingPVCNames.

(** One batch: the goroutines take the pods from the channel in its order, and
    the model lets each finish before the next; the names that were created and
    the errors. *)
Fixpoint create_batch (f : Pod -> M S (option error)) (pods : list Pod) : M S (list string * list error) :=
  match pods with
  | [] => ret ([], [])
  | pod :: pods' =>
      do e <- f pod;
      do '(names, errs) <- create_batch f pods';
      ret (match e with
           | None => (p_name pod :: names, errs)
           | Some err => (names, err :: errs)
           end)
  end.

(** [DoItSlowly] over the channel of pods; every round takes a pod at least, so
    that as many rounds as pods are enough. *)
Fixpoint create_slowly (fuel : nat) (f : Pod -> M S (option error)) (chan : list Pod) (batchSize : Z)
  (success : list string) : M S (list string * option error) :=
  match fuel with
  | O => ret (success, None)
  | Datatypes.S fuel' =>
      if 0 <? batchSize then
        do '(names, errs) <- create_batch f (slice_to chan batchSize);
        match errs with
        | err :: _ => ret (success ++ names, Some err)
        | [] =>
            let chan := slice_from chan batchSize in
            create_slowly fuel' f chan (Z.min (2 * batchSize) (len chan)) (success ++ names)
        end
      else ret (success, None)
  end.

Definition initialBatchSize : Z := 1.

Fixpoint expect_all (key : string) (pods : list Pod) : M S unit :=
  match pods with
  | [] => ret tt
  | p :: pods' => expectScale key Scale.Create (p_name p) ;; expect_all key pods'
  end.

(** "rollback to ignore failure pods because the informer won't observe these pods" *)
Fixpoint rollback_failed (key : string) (success : list string) (pods : list Pod) : M S unit :=
  match pods with
  | [] => ret tt
  | p :: pods' =>
      (if bool_decide (p_name p ∈ success) then ret tt
       else observeScale key Scale.Create (p_name p)) ;;
      rollback_failed key success pods'
  end.

(** The part after [NewVersionedPods]. *)
Definition create_new_pods (currentCS updateCS : CloneSet) (currentRevision : string)
  (existingPVCNames : gset string) (newPods : list Pod) : M S (bool * option error) :=
  let key := GetControllerKey updateCS in
  expect_all key newPods ;;
  do '(success, err) <-
    create_slowly (Datatypes.S (length newPods))
      (create_call currentCS updateCS currentRevision existingPVCNames)
      newPods (Z.min (len newPods) initialBatchSize) [];
  rollback_failed key success newPods ;;
  ret (negb (len success =? 0), err).

Definition createPods (expectedCreations expectedCurrentCreations : Z)
  (currentCS updateCS : CloneSet) (currentRevision updateRevision : string)
  (availableIDs : list string) (existingPVCNames : gset string) : M S (bool * option error) :=
  create_new_pods currentCS updateCS currentRevision existingPVCNames
    (NewVersionedPods GetPodFromTemplate (g_CloneSetShortHash g) currentCS updateCS
       currentRevision updateRevision expectedCreations expectedCurrentCreations availableIDs).

(** *** Cancelling deletions *)

Fixpoint cancel_loop (cs : CloneSet) (diff : Z) (modified : bool) (podsInPreDelete : list Pod)
  : M S (bool * option error) :=
  match podsInPreDelete with
  | [] => ret (modified, None)
  | pod :: rest =>
      if diff <=? 0 then ret (modified, None)
      else if isSpecifiedDelete cs pod then cancel_loop cs diff modified rest
      else
        do '(updated, gotPod, err) <- UpdatePodLifecycle nowStr pod LifecycleStatePreparingNormal false;
        match err with
        | Some e => ret (modified, Some e)
        | None =>
            if updated : bool then expectPod gotPod ;; cancel_loop cs (diff - 1) true rest
            else cancel_loop cs (diff - 1) modified rest
        end
  end.

Definition managePreparingDelete (cs : CloneSet) (replicas : Z) (pods podsInPreDelete : list Pod)
  (numToDelete : Z) : M S (bool * option error) :=
  if Hooks.IsLifecycleMarkPodNotReady (spec_Lifecycle cs) then ret (false, None)
  else cancel_loop cs (replicas - len pods + numToDelete) false podsInPreDelete.

(** *** The pods that the ready limit lets go *)

(** The pods, and the limit left. *)
Fixpoint limit_ready (limit : Z) (pods : list Pod) : list Pod * Z :=
  match pods with
  | [] => ([], limit)
  | pod :: pods' =>
      if negb (isPodReady now pod) then
        let '(l, limit) := limit_ready limit pods' in (pod :: l, limit)
      else if 0 <? limit then
        let '(l, limit) := limit_ready (limit - 1) pods' in (pod :: l, limit)
      else limit_ready limit pods'
  end.

(** *** Scale *)

(** Step 6: scale in. *)
Definition scale_in (updateCS : CloneSet) (d : expectationDiffs) (limit numToDelete : Z)
  (notUpdatedPods updatedPods : list Pod) (pvcs : list PersistentVolumeClaim) : M S (bool * option error) :=
  if 0 <? scaleDownNum d then
    if 0 <? numToDelete then ret (false, None)
    else
      let chosen := choosePodsToDelete now spreadRanker updateCS (scaleDownNum d)
                      (scaleDownNumOldRevision d) notUpdatedPods updatedPods in
      deletePods updateCS (limit_ready limit chosen).1 pvcs
  else ret (false, None).

Definition stop (r : bool * option error) : bool := r.1 || negb (is_ok r.2).

(** Steps 2 to 6, once the pods in PreparingDelete have been seen to. *)
Definition scale_rest (currentCS updateCS : CloneSet) (currentRevision updateRevision : string)
  (pods : list Pod) (pvcs : list PersistentVolumeClaim)
  (podsSpecifiedToDelete podsInPreDelete : list Pod) (numToDelete : Z) : M S (bool * option error) :=
  let isUpdate := Revision.IsPodUpdate (g_PreparingUpdateAsUpdate g) in
  let d := calculateDiffsWithExpectation g now updateCS pods currentRevision updateRevision (Some isUpdate) in
  let '(updatedPods, notUpdatedPods) :=
    Revision.GroupUpdateAndNotUpdatePods (g_PreparingUpdateAsUpdate g) pods updateRevision in
  if 0 <? scaleUpNum d then
    let availableIDs := getOrGenAvailableIDs (scaleUpLimit d) pods pvcs in
    createPods (scaleUpLimit d) (scaleUpNumOldRevision d) currentCS updateCS currentRevision updateRevision
      (SliceStable string_lt (elements availableIDs)) (list_to_set (map pvc_name pvcs))
  else
    do r <- (if 0 <? len podsInPreDelete then deletePods updateCS podsInPreDelete pvcs else ret (false, None));
    if stop r then ret r
    else
      let podsToDelete := PodsUtil.DiffPods podsSpecifiedToDelete podsInPreDelete in
      let '(podsCanDelete, limit) :=
        if 0 <? len podsToDelete then limit_ready (deleteReadyLimit d) podsToDelete
        else ([], deleteReadyLimit d) in
      do r <- (if 0 <? len podsToDelete then deletePods updateCS podsCanDelete pvcs else ret (false, None));
      if stop r then ret r
      else scale_in updateCS d limit numToDelete notUpdatedPods updatedPods pvcs.

Definition Scale (currentCS updateCS : CloneSet) (currentRevision updateRevision : string)
  (pods : list Pod) (pvcs : list PersistentVolumeClaim) : M S (bool * option error) :=
  match spec_Replicas updateCS with
  | None => ret (false, Some "spec.Replicas is nil"%string)
  | Some replicas =>
      if negb IsReadyToScale then ret (false, None)
      else
        let '(podsSpecifiedToDelete, podsInPreDelete, numToDelete) := getPlannedDeletedPods updateCS pods in
        do r <- managePreparingDelete updateCS replicas pods podsInPreDelete numToDelete;
        if stop r then ret r
        else scale_rest currentCS updateCS currentRevision updateRevision pods pvcs
               podsSpecifiedToDelete podsInPreDelete numToDelete
  end.
End Handler.

(** ** The writes of the handler *)

Definition deleted (evs : list Event) : list Pod :=
  omap (fun ev => match ev with EvDeletePod p _ => Some p | _ => None end) evs.
Definition created (evs : list Event) : list Pod :=
  omap (fun ev => match ev with EvCreatePod p _ => Some p | _ => None end) evs.
Definition created_ok (evs : list Event) : list Pod :=
  omap (fun ev => match ev with EvCreatePod p true => Some p | _ => None end) evs.

Lemma deleted_app a b : deleted (a ++ b) = deleted a ++ deleted b.
Proof. apply omap_app. Qed.
Lemma created_app a b : created (a ++ b) = created a ++ created b.
Proof. apply omap_app. Qed.
Lemma created_ok_app a b : created_ok (a ++ b) = created_ok a ++ created_ok b.
Proof. apply omap_app. Qed.

(** The events neither create nor delete pods. *)
Definition quiet (evs : list Event) : Prop := created evs = [] /\ deleted evs = [] /\ created_ok evs = [].

Lemma quiet_nil : quiet [].
Proof. done. Qed.
Lemma quiet_app a b : quiet a -> quiet b -> quiet (a ++ b).
Proof.
  intros (Ha & Hb & Hc) (Ha' & Hb' & Hc'). unfold quiet.
  by rewrite created_app, deleted_app, created_ok_app, Ha, Hb, Hc, Ha', Hb', Hc'.
Qed.
#[export] Hint Resolve quiet_nil quiet_app : kruise.

Section Writes.
Context {S : Type} `{Api S} `{GoSort} `{PopAny} `{IDGen}.
Context (g : Gates) (now : Z) (nowStr : string)
        (GetPodFromTemplate : CloneSet -> Pod) (spreadRanker : list Pod -> list string -> Ranker).
Import LifecycleControl.

Lemma lifecycle_quiet pod state mark :
  emits (UpdatePodLifecycle (S:=S) nowStr pod state mark) (fun evs _ => quiet evs).
Proof.
  eapply emits_mono; [apply UpdatePodLifecycle_emits|].
  intros evs r [[-> _]|(_ & _ & ->)]; done.
Qed.

Lemma silent_expectPod p (P : list Event -> unit -> Prop) :
  P [] tt -> emits (S:=S) (expectPod p) P.
Proof. intros HP. by apply emits_silent; destruct p. Qed.

Lemma silent_expectScale k a n (P : list Event -> unit -> Prop) :
  P [] tt -> emits (S:=S) (expectScale k a n) P.
Proof. intros HP. by apply emits_silent. Qed.

Lemma silent_observeScale k a n (P : list Event -> unit -> Prop) :
  P [] tt -> emits (S:=S) (observeScale k a n) P.
Proof. intros HP. by apply emits_silent. Qed.

(** Skips a first operation that writes nothing. *)
Lemma emits_skip {A} (m : M S unit) (k : M S A) P :
  emits m (fun evs _ => evs = []) -> emits k P -> emits (m ;; k) P.
Proof. intros Hm Hk. eapply emits_bind; [exact Hm|]. intros evs a ->. exact Hk. Qed.

Lemma delete_pvcs_quiet key id pvcs : emits (delete_pvcs key id pvcs) (fun evs _ => quiet evs).
Proof.
  induction pvcs as [|c pvcs IH]; simpl; [by apply emits_ret|].
  destruct (negb _); [done|]. apply emits_skip; [by apply silent_expectScale|].
  eapply emits_bind with (P := fun evs _ => quiet evs); [by apply emits_call|].
  intros evs [err|] Hq.
  - apply emits_skip; [by apply silent_observeScale|]. apply emits_ret. by rewrite app_nil_r.
  - eapply emits_mono; [exact IH|]. simpl. intros; auto with kruise.
Qed.

(** [deletePods] creates nothing, and the pods it deletes are pods it was given,
    in their order, none of them hooked. *)
Lemma deletePods_loop_emits cs pvcs modified pods :
  emits (deletePods_loop nowStr cs pvcs modified pods) (fun evs _ =>
    created evs = [] /\ deleted evs `sublist_of` pods).
Proof.
  revert modified. induction pods as [|pod pods IH]; intros modified; cbn [deletePods_loop].
  - by apply emits_ret.
  - assert (IH' : forall m evs, created evs = [] -> deleted evs = [] ->
      emits (deletePods_loop nowStr cs pvcs m pods)
        (fun evs' _ => created (evs ++ evs') = [] /\ deleted (evs ++ evs') `sublist_of` pod :: pods)).
    { intros m evs Hc Hd. eapply emits_mono; [apply IH|]. intros evs' _ [Hc' Hd']. simpl in *.
      rewrite created_app, deleted_app, Hc, Hd, Hc'. split; [done|]. by constructor. }
    destruct (Hooks.IsPodHooked _ pod).
    + eapply emits_bind; [apply lifecycle_quiet|]. intros evs [[u gp] e] (Hc & Hd & _).
      destruct e as [err|]; [apply emits_ret; rewrite app_nil_r, Hc, Hd; split; [done|apply sublist_nil_l]|].
      destruct u; [|by apply IH'].
      apply emits_skip; [by apply silent_expectPod|by apply IH'].
    + apply emits_skip; [by apply silent_expectScale|].
      eapply emits_bind with (P := fun evs e => evs = [EvDeletePod pod (is_ok e)]); [by apply emits_call|].
      intros evs e ->. destruct e as [err|].
      * apply emits_skip; [by apply silent_observeScale|]. apply emits_ret. simpl.
        split; [done|]. constructor. apply sublist_nil_l.
      * eapply emits_bind; [apply delete_pvcs_quiet|]. intros evs e (Hc & Hd & _).
        destruct e as [err|].
        -- apply emits_ret. simpl. rewrite app_nil_r. rewrite ?created_app, ?deleted_app. simpl.
           rewrite Hc, Hd. split; [done|]. constructor. apply sublist_nil_l.
        -- eapply emits_mono; [apply IH|]. intros evs' _ [Hc' Hd']. simpl.
           rewrite created_app, deleted_app, Hc, Hd, Hc'. split; [done|]. by constructor.
Qed.

Lemma deletePods_emits cs pods pvcs :
  emits (deletePods nowStr cs pods pvcs) (fun evs _ =>
    created evs = [] /\ deleted evs `sublist_of` pods).
Proof. apply deletePods_loop_emits. Qed.

Lemma cancel_loop_quiet cs diff modified pods :
  emits (cancel_loop nowStr cs diff modified pods) (fun evs _ => quiet evs).
Proof.
  revert diff modified. induction pods as [|pod pods IH]; intros diff modified; simpl; [by apply emits_ret|].
  destruct (diff <=? 0); [by apply emits_ret|]. destruct (isSpecifiedDelete cs pod); [done|].
  eapply emits_bind; [apply lifecycle_quiet|]. intros evs [[u gp] e] Hq.
  destruct e as [err|]; [apply emits_ret; by rewrite app_nil_r|].
  assert (IH' : forall d m, emits (cancel_loop nowStr cs d m pods) (fun evs' _ => quiet (evs ++ evs'))).
  { intros d m. eapply emits_mono; [apply IH|]. simpl. intros; auto with kruise. }
  destruct u; [|apply IH']. apply emits_skip; [by apply silent_expectPod|apply IH'].
Qed.

Lemma managePreparingDelete_quiet cs r pods pre n :
  emits (managePreparingDelete nowStr cs r pods pre n) (fun evs _ => quiet evs).
Proof.
  unfold managePreparingDelete. destruct (Hooks.IsLifecycleMarkPodNotReady _);
    [by apply emits_ret|apply cancel_loop_quiet].
Qed.

Lemma create_claims_quiet key ex claims : emits (create_claims key ex claims) (fun evs _ => quiet evs).
Proof.
  induction claims as [|c claims IH]; simpl; [by apply emits_ret|].
  destruct (bool_decide _); [done|]. apply emits_skip; [by apply silent_expectScale|].
  eapply emits_bind with (P := fun evs _ => quiet evs); [by apply emits_call|].
  intros evs [err|] Hq.
  - apply emits_skip; [by apply silent_observeScale|]. apply emits_ret. by rewrite app_nil_r.
  - eapply emits_mono; [exact IH|]. simpl. intros; auto with kruise.
Qed.

(** What one call of the creation function writes: at most one creation, of the
    pod of that name, which succeeds exactly when the call does. *)
Definition one_creation (name : string) (evs : list Event) (e : option error) : Prop :=
  deleted evs = [] /\ map p_name (created evs) `sublist_of` [name] /\
  map p_name (created_ok evs) = (match e with None => [name] | Some _ => [] end).

Lemma createOnePod_emits cs pod ex :
  emits (createOnePod cs pod ex) (one_creation (p_name pod)).
Proof.
  unfold createOnePod. eapply emits_bind; [apply create_claims_quiet|].
  intros evs e (Hc & Hd & Ho). destruct e as [err|].
  - apply emits_ret. unfold one_creation. rewrite app_nil_r, Hc, Hd, Ho. simpl.
    repeat split; auto using sublist_nil_l.
  - apply emits_call. intros e. unfold one_creation.
    rewrite created_app, deleted_app, created_ok_app, Hc, Hd, Ho. by destruct e.
Qed.

Lemma create_call_emits ccs ucs cr ex pod :
  emits (create_call nowStr ccs ucs cr ex pod) (one_creation (p_name pod)).
Proof. exact (createOnePod_emits _ (Hooks.SetPodLifecycle LifecycleStatePreparingNormal nowStr pod) ex). Qed.

Lemma create_batch_emits (f : Pod -> M S (option error)) pods :
  (forall p, emits (f p) (one_creation (p_name p))) ->
  emits (create_batch f pods) (fun evs r =>
    deleted evs = [] /\ map p_name (created evs) `sublist_of` map p_name pods /\
    map p_name (created_ok evs) = r.1 /\
    (r.2 = [] -> r.1 = map p_name pods)).
Proof.
  intros Hf. induction pods as [|pod pods IH]; simpl; [by apply emits_ret|].
  eapply emits_bind; [apply Hf|]. intros evs e (Hd & Hc & Ho).
  eapply emits_bind; [apply IH|]. intros evs' [names errs] (Hd' & Hc' & Ho' & Hall).
  simpl in *. apply emits_ret. rewrite app_nil_r, deleted_app, created_app, created_ok_app, Hd, Hd'.
  rewrite !map_app, Ho, Ho'. split; [done|]. split; [|split].
  - change (p_name pod :: map p_name pods) with ([p_name pod] ++ map p_name pods).
    by apply sublist_app.
  - by destruct e.
  - destruct e; simpl; [done|]. intros He. by rewrite Hall.
Qed.

Lemma create_slowly_emits (f : Pod -> M S (option error)) fuel chan b success :
  (forall p, emits (f p) (one_creation (p_name p))) ->
  emits (create_slowly fuel f chan b success) (fun evs r =>
    deleted evs = [] /\ map p_name (created evs) `sublist_of` map p_name chan /\
    r.1 = success ++ map p_name (created_ok evs)).
Proof.
  intros Hf. revert chan b success. induction fuel as [|fuel IH]; intros chan b success; simpl.
  - apply emits_ret. simpl. rewrite app_nil_r. repeat split; auto using sublist_nil_l.
  - destruct (0 <? b).
    2:{ apply emits_ret. simpl. rewrite app_nil_r. repeat split; auto using sublist_nil_l. }
    eapply emits_bind; [by apply create_batch_emits|].
    intros evs [names errs] (Hd & Hc & Ho & _). simpl in *.
    assert (Hsplit : map p_name chan
      = map p_name (slice_to chan b) ++ map p_name (slice_from chan b)).
    { rewrite <-map_app. unfold slice_to, slice_from. by rewrite take_drop. }
    destruct errs as [|err errs].
    + eapply emits_mono; [apply IH|]. intros evs' r (Hd' & Hc' & Hr).
      rewrite deleted_app, created_app, created_ok_app, !map_app, Hd, Hd', Hsplit.
      split; [done|]. split; [by apply sublist_app|]. by rewrite Hr, <-Ho, app_assoc.
    + apply emits_ret. simpl. rewrite app_nil_r, Hd, Ho. split; [done|]. split; [|done].
      rewrite Hsplit. eapply sublist_inserts_r, Hc.
Qed.

Lemma expect_all_silent key pods : emits (S:=S) (expect_all key pods) (fun evs _ => evs = []).
Proof.
  induction pods as [|p pods IH]; simpl; [by apply emits_ret|].
  apply emits_skip; [by apply silent_expectScale|done].
Qed.

Lemma rollback_silent key success pods :
  emits (S:=S) (rollback_failed key success pods) (fun evs _ => evs = []).
Proof.
  induction pods as [|p pods IH]; simpl; [by apply emits_ret|].
  apply emits_skip; [|done]. destruct (bool_decide _); [by apply emits_ret|by apply silent_observeScale].
Qed.

Lemma create_new_pods_emits ccs ucs cr ex newPods :
  emits (create_new_pods nowStr ccs ucs cr ex newPods) (fun evs r =>
    deleted evs = [] /\ map p_name (created evs) `sublist_of` map p_name newPods /\
    (r.1 = false <-> created_ok evs = [])).
Proof.
  unfold create_new_pods. apply emits_skip; [apply expect_all_silent|].
  eapply emits_bind; [apply create_slowly_emits; intros; apply create_call_emits|].
  intros evs [success err] (Hd & Hc & Hr). simpl in Hr. subst success.
  apply emits_skip; [apply rollback_silent|]. apply emits_ret. rewrite app_nil_r.
  split; [done|]. split; [done|]. simpl. rewrite length_map.
  destruct (created_ok evs); simpl; done.
Qed.

Lemma limit_ready_spec limit pods :
  let '(l, limit') := limit_ready now limit pods in
  l `sublist_of` pods /\ countb (isPodReady now) l <= Z.max 0 limit /\
  limit' = limit - countb (isPodReady now) l /\
  (forall p, p ∈ pods -> isPodReady now p = false -> p ∈ l).
Proof.
  revert limit. induction pods as [|p pods IH]; intros limit; simpl.
  - repeat split; try lia; [constructor|]. intros p Hp. by apply not_elem_of_nil in Hp.
  - destruct (isPodReady now p) eqn:Er; simpl.
    + destruct (0 <? limit) eqn:El; zbool.
      * specialize (IH (limit - 1)). destruct (limit_ready now (limit - 1) pods) as [l limit'].
        destruct IH as (H1' & H2' & H3' & H4'). simpl. rewrite Er.
        split; [by constructor|]. split; [lia|]. split; [lia|].
        intros q Hq Hr. apply elem_of_cons in Hq as [->|Hq]; [congruence|]. right. by apply H4'.
      * specialize (IH limit). destruct (limit_ready now limit pods) as [l limit'].
        destruct IH as (H1' & H2' & H3' & H4'). split; [by constructor|]. split; [lia|]. split; [lia|].
        intros q Hq Hr. apply elem_of_cons in Hq as [->|Hq]; [congruence|]. by apply H4'.
    + specialize (IH limit). destruct (limit_ready now limit pods) as [l limit'].
      destruct IH as (H1' & H2' & H3' & H4'). simpl. rewrite Er.
      split; [by constructor|]. split; [lia|]. split; [lia|].
      intros q Hq Hr. apply elem_of_cons in Hq as [->|Hq]; [left|]. right. by apply H4'.
Qed.
End Writes.

(** ** What a call of [Scale] can do *)

Section ScaleBounds.
Context {S : Type} `{Api S} `{GoSort} `{PopAny} `{IDGen}.
Context (g : Gates) (now : Z) (nowStr : string)
        (GetPodFromTemplate : CloneSet -> Pod) (spreadRanker : list Pod -> list string -> Ranker).
Context (currentCS updateCS : CloneSet) (currentRevision updateRevision : string)
        (pods : list Pod) (pvcs : list PersistentVolumeClaim).

(** The differences [Scale] acts on. *)
Definition scale_diffs : expectationDiffs :=
  calculateDiffsWithExpectation g now updateCS pods currentRevision updateRevision
    (Some (Revision.IsPodUpdate (g_PreparingUpdateAsUpdate g))).

(** Neither specified for deletion nor being prepared for it. *)
Definition unplanned (p : Pod) : bool := negb (isSpecifiedDelete updateCS p || in_pre_delete p).

Definition scale_writes (evs : list Event) : Prop :=
  (created evs = [] \/ deleted evs = []) /\
  len (created evs) <= Z.max 0 (scaleUpLimit scale_diffs) /\
  countb (isPodReady now) (deleted evs) <= Z.max 0 (deleteReadyLimit scale_diffs) /\
  countb unplanned (deleted evs) <= Z.max 0 (scaleDownNum scale_diffs) /\
  (created evs <> [] -> 0 < scaleUpNum scale_diffs) /\
  (deleted evs <> [] -> scaleUpNum scale_diffs <= 0).

Lemma countb_sublist {A} (f : A -> bool) l1 l2 : l1 `sublist_of` l2 -> countb f l1 <= countb f l2.
Proof. induction 1; simpl; try lia. destruct (f x); lia. Qed.

Lemma pre_delete_unready p : in_pre_delete p = true -> isPodReady now p = false.
Proof.
  intros Hp. destruct (isPodReady now p) eqn:E; [|done].
  apply available_not_pre_delete in E. congruence.
Qed.

Lemma choosePodsToDelete_length cs total cur old new :
  0 <= total -> len (choosePodsToDelete now spreadRanker cs total cur old new) <= total.
Proof.
  intros Ht. unfold choosePodsToDelete.
  assert (Hc : forall l d, 0 <= d -> len (choose now spreadRanker cs l d) <= d).
  { intros l d Hd. destruct (choose_spec now spreadRanker cs l d Hd) as (_ & _ & Hl & _). lia. }
  destruct (cur >=? total) eqn:E1; zbool; [by apply Hc|].
  destruct (0 <? cur) eqn:E2; zbool; [|by apply Hc].
  rewrite length_app. pose proof (Hc old cur). pose proof (Hc new (total - cur)). lia.
Qed.

Lemma NewVersionedPods_length total cur ids :
  0 <= cur ->
  len (NewVersionedPods GetPodFromTemplate (g_CloneSetShortHash g) currentCS updateCS
         currentRevision updateRevision total cur ids) <= Z.max 0 total.
Proof.
  intros Hc. rewrite NewVersionedPods_eq by done.
  rewrite length_app, !length_map, !length_take. lia.
Qed.

Lemma scale_writes_quiet evs : quiet evs -> scale_writes evs.
Proof. intros (Hc & Hd & _). unfold scale_writes. rewrite Hc, Hd. simpl. repeat split; auto; try lia; done. Qed.

(** Deleting pods of a list when nothing is to be created. *)
Lemma scale_writes_delete evs l :
  scaleUpNum scale_diffs <= 0 -> created evs = [] -> deleted evs `sublist_of` l ->
  countb (isPodReady now) l <= Z.max 0 (deleteReadyLimit scale_diffs) ->
  countb unplanned l <= Z.max 0 (scaleDownNum scale_diffs) -> scale_writes evs.
Proof.
  intros Hup Hc Hd Hr Hu. unfold scale_writes. rewrite Hc.
  pose proof (countb_sublist (isPodReady now) _ _ Hd). pose proof (countb_sublist unplanned _ _ Hd).
  cbn [length]. repeat split; auto; try lia. done.
Qed.

(** The three lists that [deletePods] is given add up to what is allowed: the
    pods in PreparingDelete, the specified ones, and the chosen ones. *)
Lemma stages_ready l2 l3 :
  let limit := deleteReadyLimit scale_diffs in
  countb (isPodReady now) l2 <= Z.max 0 limit ->
  countb (isPodReady now) l3 <= Z.max 0 (limit - countb (isPodReady now) l2) ->
  countb (isPodReady now) (filterb in_pre_delete pods ++ l2 ++ l3) <= Z.max 0 limit.
Proof.
  intros limit H2' H3'. rewrite !countb_app.
  assert (countb (isPodReady now) (filterb in_pre_delete pods) = 0).
  { apply countb_zero. intros p Hp. apply filterb_elem in Hp as [_ Hp]. by apply pre_delete_unready. }
  pose proof (countb_nonneg (isPodReady now) l2). lia.
Qed.

Lemma stages_unplanned l2 l3 :
  l2 `sublist_of` filterb (isSpecifiedDelete updateCS) pods ->
  len l3 <= Z.max 0 (scaleDownNum scale_diffs) ->
  countb unplanned (filterb in_pre_delete pods ++ l2 ++ l3) <= Z.max 0 (scaleDownNum scale_diffs).
Proof.
  intros H2' H3'. rewrite !countb_app. apply (countb_sublist unplanned) in H2'.
  assert (countb unplanned (filterb in_pre_delete pods) = 0).
  { apply countb_zero. intros p Hp. apply filterb_elem in Hp as [_ Hp].
    unfold unplanned. by rewrite Hp, orb_true_r. }
  assert (countb unplanned (filterb (isSpecifiedDelete updateCS) pods) = 0).
  { apply countb_zero. intros p Hp. apply filterb_elem in Hp as [_ Hp]. unfold unplanned. by rewrite Hp. }
  pose proof (countb_le_length unplanned l3). lia.
Qed.

Lemma maybe_delete_emits (b : bool) l :
  emits (S:=S) (if b then deletePods nowStr updateCS l pvcs else ret (false, None))
    (fun evs _ => created evs = [] /\ deleted evs `sublist_of` l).
Proof. destruct b; [apply deletePods_emits|]. apply emits_ret. split; [done|apply sublist_nil_l]. Qed.

Lemma scale_in_emits limit num old new :
  emits (S:=S) (scale_in now nowStr spreadRanker updateCS scale_diffs limit num old new pvcs) (fun evs _ =>
    exists l3, created evs = [] /\ deleted evs `sublist_of` l3 /\
      countb (isPodReady now) l3 <= Z.max 0 limit /\ len l3 <= Z.max 0 (scaleDownNum scale_diffs)).
Proof.
  unfold scale_in.
  assert (Hnil : exists l3, created [] = [] /\ deleted [] `sublist_of` l3 /\
      countb (isPodReady now) l3 <= Z.max 0 limit /\ len l3 <= Z.max 0 (scaleDownNum scale_diffs)).
  { exists []. simpl. repeat split; auto; lia. }
  destruct (0 <? scaleDownNum scale_diffs) eqn:E1; zbool; [|by apply emits_ret].
  destruct (0 <? num); [by apply emits_ret|].
  eapply emits_mono; [apply deletePods_emits|]. intros evs _ [Hc Hd].
  set (chosen := choosePodsToDelete _ _ _ _ _ _ _) in *.
  pose proof (limit_ready_spec now limit chosen) as Hl.
  destruct (limit_ready now limit chosen) as [l3 lim]. destruct Hl as (Hs & Hr & _ & _).
  exists l3. split; [done|]. split; [done|]. split; [done|].
  apply sublist_length in Hs.
  pose proof (choosePodsToDelete_length updateCS (scaleDownNum scale_diffs)
                (scaleDownNumOldRevision scale_diffs) old new ltac:(lia)) as Hlen.
  fold chosen in Hlen. lia.
Qed.

Lemma scale_rest_writes :
  let '(spec, pre, num) := getPlannedDeletedPods updateCS pods in
  emits (scale_rest (S:=S) g now nowStr GetPodFromTemplate spreadRanker currentCS updateCS
           currentRevision updateRevision pods pvcs spec pre num) (fun evs _ => scale_writes evs).
Proof.
  cbn [getPlannedDeletedPods]. unfold getPlannedDeletedPods. unfold scale_rest. fold scale_diffs.
  set (spec := filterb (isSpecifiedDelete updateCS) pods).
  set (pre := filterb in_pre_delete pods). cbn [Revision.GroupUpdateAndNotUpdatePods].
  set (num := Z.of_nat (size _)).
  unfold Revision.GroupUpdateAndNotUpdatePods.
  destruct (0 <? scaleUpNum scale_diffs) eqn:Eup; zbool.
  - unfold createPods. eapply emits_mono; [apply create_new_pods_emits|].
    intros evs r (Hd & Hc & _). unfold scale_writes. rewrite Hd.
    apply sublist_length in Hc. rewrite !length_map in Hc.
    match type of Hc with (_ <= length (NewVersionedPods _ _ _ _ _ _ ?t ?c ?ids))%nat =>
      pose proof (NewVersionedPods_length t c ids (diffs_up_old_nonneg _ _ _ _ _ _ _)) end.
    simpl. repeat split; auto; try lia; done.
  - eapply emits_bind; [apply (maybe_delete_emits (0 <? len pre) pre)|].
    intros evs1 r1 [Hc1 Hd1]. destruct (stop r1).
    { apply emits_ret. rewrite app_nil_r. apply (scale_writes_delete _ (pre ++ [] ++ [])); try done.
      - by rewrite app_nil_r.
      - apply (stages_ready [] []); simpl; auto; lia.
      - apply (stages_unplanned [] []); simpl; [apply sublist_nil_l|lia]. }
    set (todo := PodsUtil.DiffPods spec pre).
    destruct (if 0 <? len todo then _ else _) as [l2 limit] eqn:El2.
    assert (Hl2 : l2 `sublist_of` spec /\ countb (isPodReady now) l2 <= Z.max 0 (deleteReadyLimit scale_diffs)
                  /\ limit = deleteReadyLimit scale_diffs - countb (isPodReady now) l2).
    { destruct (0 <? len todo).
      - pose proof (limit_ready_spec now (deleteReadyLimit scale_diffs) todo) as Hlr. rewrite El2 in Hlr.
        destruct Hlr as (Hs & Hr & Hl & _). split; [|done].
        etransitivity; [exact Hs|]. apply filterb_sublist.
      - injection El2 as <- <-. simpl. split; [apply sublist_nil_l|]. lia. }
    destruct Hl2 as (Hs2 & Hr2 & ->).
    eapply emits_bind; [apply (maybe_delete_emits (0 <? len todo) l2)|].
    intros evs2 r2 [Hc2 Hd2]. destruct (stop r2).
    { apply emits_ret. rewrite app_nil_r. apply (scale_writes_delete _ (pre ++ l2 ++ [])); try done.
      - by rewrite created_app, Hc1, Hc2.
      - rewrite app_nil_r, deleted_app. by apply sublist_app.
      - apply stages_ready; simpl; lia.
      - apply stages_unplanned; [done|simpl; lia]. }
    eapply emits_mono; [apply scale_in_emits|]. intros evs3 r3 (l3 & Hc3 & Hd3 & Hr3 & Hu3). cbv beta.
    apply (scale_writes_delete _ (pre ++ l2 ++ l3)); [lia| | | |].
    + by rewrite !created_app, Hc1, Hc2, Hc3.
    + rewrite !deleted_app. by repeat apply sublist_app.
    + apply stages_ready; lia.
    + by apply stages_unplanned.
Qed.

Lemma Scale_emits :
  emits (S:=S) (Scale g now nowStr GetPodFromTemplate spreadRanker currentCS updateCS
           currentRevision updateRevision pods pvcs) (fun evs _ => scale_writes evs).
Proof.
  unfold Scale. destruct (spec_Replicas updateCS) as [r|];
    [|apply emits_ret, scale_writes_quiet, quiet_nil].
  simpl negb. cbv iota. pose proof scale_rest_writes as Hrest.
  destruct (getPlannedDeletedPods updateCS pods) as [[spec pre] num].
  eapply emits_bind; [apply managePreparingDelete_quiet|]. intros evs res Hq.
  destruct (stop res); [apply emits_ret; rewrite app_nil_r; by apply scale_writes_quiet|].
  eapply emits_mono; [exact Hrest|]. intros evs' a Hw. cbv beta in *. clear a.
  destruct Hq as (Hc & Hd & _). unfold scale_writes in *.
  by rewrite created_app, deleted_app, Hc, Hd.
Qed.

(** Whatever the API server answers, one call of [Scale] never both creates and
    deletes pods; it sends at most [scaleUpLimit] creations, deletes at most
    [deleteReadyLimit] ready pods, and deletes at most [scaleDownNum] pods that
    were neither specified for deletion nor being prepared for it; it creates only
    when pods are missing and deletes only when none is. *)
Theorem scale_writes_bounded :
  emits (S:=S) (Scale g now nowStr GetPodFromTemplate spreadRanker currentCS updateCS
           currentRevision updateRevision pods pvcs) (fun evs _ =>
    (created evs = [] \/ deleted evs = []) /\
    len (created evs) <= Z.max 0 (scaleUpLimit scale_diffs) /\
    countb (isPodReady now) (deleted evs) <= Z.max 0 (deleteReadyLimit scale_diffs) /\
    countb unplanned (deleted evs) <= Z.max 0 (scaleDownNum scale_diffs) /\
    (created evs <> [] -> 0 < scaleUpNum scale_diffs) /\
    (deleted evs <> [] -> scaleUpNum scale_diffs <= 0)).
Proof. exact Scale_emits. Qed.

Lemma Scale_available (replicas : Z) :
  spec_Replicas updateCS = Some replicas -> 0 <= replicas <= int32_max -> len pods <= int32_max ->
  let avail := available now updateCS in
  emits (S:=S) (Scale g now nowStr GetPodFromTemplate spreadRanker currentCS updateCS
           currentRevision updateRevision pods pvcs) (fun evs _ =>
    countb avail (deleted evs) = 0 \/
    replicas - l_maxUnavailable (limits_of updateCS)
      - countb (fun p => negb (in_pre_delete p) && isSpecifiedDelete updateCS p && negb (avail p)) pods
    <= countb avail pods - countb avail (deleted evs)).
Proof.
  intros Hr Hb Hn avail. eapply emits_mono; [apply Scale_emits|].
  intros evs _ (_ & _ & Hready & _).
  assert (Hle : countb avail (deleted evs) <= countb (isPodReady now) (deleted evs))
    by (apply countb_mono; intros p; apply available_ready).
  pose proof (countb_nonneg avail (deleted evs)).
  destruct (decide (0 < deleteReadyLimit scale_diffs)) as [Hpos|Hpos]; [right|left; lia].
  pose proof (ready_limit_available g now updateCS pods currentRevision updateRevision
    (Some (Revision.IsPodUpdate (g_PreparingUpdateAsUpdate g))) replicas Hr Hpos) as Heq.
  fold avail in Heq. fold scale_diffs in Heq. lia.
Qed.

(** [maxUnavailable] is respected end to end.  If a call of [Scale] deletes any
    available pod, then the available pods that are left are at least
    [replicas - maxUnavailable], less the unavailable pods that were already
    specified for deletion. *)
Theorem scale_keeps_available (replicas : Z) :
  spec_Replicas updateCS = Some replicas -> 0 <= replicas <= int32_max -> len pods <= int32_max ->
  let avail := available now updateCS in
  emits (S:=S) (Scale g now nowStr GetPodFromTemplate spreadRanker currentCS updateCS
           currentRevision updateRevision pods pvcs) (fun evs _ =>
    countb avail (deleted evs) = 0 \/
    replicas - l_maxUnavailable (limits_of updateCS)
      - countb (fun p => negb (in_pre_delete p) && isSpecifiedDelete updateCS p && negb (avail p)) pods
    <= countb avail pods - countb avail (deleted evs)).
Proof. exact (Scale_available replicas). Qed.
End ScaleBounds.

(** ** Expectations follow the writes *)

(** The expectations a controller should hold after a write: a success is awaited
    from the informer, a failure is not. *)
Definition replay (key : string) (s : Scale.Spec) (ev : Event) : Scale.Spec :=
  let mark (a n : string) (ok : bool) : Scale.Spec :=
    if ok then {[(key, a, n)]} ∪ s else s ∖ {[(key, a, n)]} in
  match ev with
  | EvDeletePod p ok => mark Scale.Delete (p_name p) ok
  | EvDeletePVC c ok => mark Scale.Delete (pvc_name c) ok
  | EvCreatePod p ok => mark Scale.Create (p_name p) ok
  | EvCreatePVC c ok => mark Scale.Create (pvc_name c) ok
  | _ => s
  end.

Section Tracking.
Context {S : Type} `{Api S} (nowStr key : string).
Import LifecycleControl.

(** After the operation the store holds what its writes call for. *)
Definition tracks {A} (m : M S A) : Prop :=
  forall w s, Scale.refines (w_scale w) s ->
  exists evs, w_trace (m w).1 = w_trace w ++ evs /\
    Scale.refines (w_scale (m w).1) (fold_left (replay key) evs s).

Lemma tracks_ret {A} (a : A) : tracks (ret a).
Proof. intros w s Hs. exists []. by rewrite app_nil_r. Qed.

Lemma tracks_bind {A B} (m : M S A) (k : A -> M S B) :
  tracks m -> (forall a, tracks (k a)) -> tracks (bind m k).
Proof.
  intros Hm Hk w s Hs. unfold bind. destruct (Hm w s Hs) as (evs & Ht & Hr).
  destruct (m w) as [w1 a]. simpl in *. destruct (Hk a w1 _ Hr) as (evs' & Ht' & Hr').
  exists (evs ++ evs'). by rewrite Ht', Ht, app_assoc, fold_left_app.
Qed.

Lemma tracks_expectRV u v : tracks (expectRV u v).
Proof. intros w s Hs. exists []. by rewrite app_nil_r. Qed.

Lemma tracks_expectPod p : tracks (expectPod p).
Proof. destruct p; [apply tracks_expectRV|apply tracks_ret]. Qed.

Lemma tracks_ignored {A} (f : S -> S * A) ev :
  (forall a s, fold_left (replay key) (ev a) s = s) -> tracks (call f ev).
Proof.
  intros Hev w s Hs. unfold call. destruct (f (w_server w)) as [st a]. exists (ev a).
  rewrite Hev. done.
Qed.

Lemma tracks_lifecycle pod state mark : tracks (UpdatePodLifecycle nowStr pod state mark).
Proof.
  apply tracks_bind.
  - destruct mark; [|apply tracks_ret]. unfold executePodNotReadyPolicy.
    split_ifs; try (by apply tracks_ignored); apply tracks_ret.
  - intros [e|]; [apply tracks_ret|]. destruct (String.eqb _ _); [apply tracks_ret|].
    apply tracks_bind; [by apply tracks_ignored|]. intros [?|?]; apply tracks_ret.
Qed.

(** Expect, write, and take the expectation back when the write fails. *)
Lemma tracks_write {B} (a n : string) (f : S -> S * option error) (ev : bool -> Event)
  (kerr : error -> M S B) (kok : M S B) :
  (forall ok s, replay key s (ev ok)
    = if ok then {[(key, a, n)]} ∪ s else s ∖ {[(key, a, n)]}) ->
  (forall e, tracks (kerr e)) -> tracks kok ->
  tracks (expectScale key a n ;;
          do e <- call f (fun e => [ev (is_ok e)]);
          match e with
          | Some err => observeScale key a n ;; kerr err
          | None => kok
          end).
Proof.
  intros Hev Hkerr Hkok w s Hs.
  pose proof (Scale.refines_step _ _ (Scale.OpExpect key a n) Hs) as H1. simpl in H1.
  unfold bind, expectScale, observeScale, on_scale, call. cbn [w_server w_scale w_trace].
  destruct (f (w_server w)) as [st [err|]]; cbn [w_server w_scale w_trace is_ok].
  - pose proof (Scale.refines_step _ _ (Scale.OpObserve key a n) H1) as H2. simpl in H2.
    match goal with |- context [kerr err ?w'] => destruct (Hkerr err w' _ H2) as (evs & Ht & Hr) end.
    exists (ev false :: evs). cbn [w_trace] in Ht. rewrite Ht, <-app_assoc. split; [done|].
    cbn [fold_left]. rewrite Hev.
    replace (s ∖ {[(key, a, n)]}) with (({[(key, a, n)]} ∪ s) ∖ {[(key, a, n)]}) by set_solver. done.
  - match goal with |- context [kok ?w'] => destruct (Hkok w' _ H1) as (evs & Ht & Hr) end.
    exists (ev true :: evs). cbn [w_trace] in Ht. rewrite Ht, <-app_assoc. split; [done|].
    cbn [fold_left]. by rewrite Hev.
Qed.

Lemma tracks_delete_pvcs id pvcs : tracks (delete_pvcs key id pvcs).
Proof.
  induction pvcs as [|c pvcs IH]; simpl; [apply tracks_ret|].
  destruct (negb _); [done|].
  apply (tracks_write Scale.Delete (pvc_name c) (DeletePVC c) (EvDeletePVC c)
           (fun err => ret (Some err)) (delete_pvcs key id pvcs));
    [by intros []|intros; apply tracks_ret|done].
Qed.

Lemma tracks_create_claims ex claims : tracks (create_claims key ex claims).
Proof.
  induction claims as [|c claims IH]; simpl; [apply tracks_ret|].
  destruct (bool_decide _); [done|].
  apply (tracks_write Scale.Create (pvc_name c) (CreatePVC c) (EvCreatePVC c)
           (fun err => ret (Some err)) (create_claims key ex claims));
    [by intros []|intros; apply tracks_ret|done].
Qed.

Lemma tracks_deletePods cs pvcs modified pods :
  GetControllerKey cs = key -> tracks (deletePods_loop nowStr cs pvcs modified pods).
Proof.
  intros Hkey. revert modified. induction pods as [|pod pods IH]; intros modified;
    cbn [deletePods_loop]; [apply tracks_ret|].
  destruct (Hooks.IsPodHooked _ pod).
  - apply tracks_bind; [apply tracks_lifecycle|]. intros [[u gp] e].
    destruct e as [err|]; [apply tracks_ret|]. destruct u; [|apply IH].
    apply tracks_bind; [apply tracks_expectPod|]. intros _. apply IH.
  - cbv zeta. rewrite Hkey.
    apply (tracks_write Scale.Delete (p_name pod) (DeletePod pod) (EvDeletePod pod)
             (fun err => ret (modified, Some err))
             (do e <- delete_pvcs key (GetInstanceID pod) pvcs;
              match e with
              | Some err => ret (true, Some err)
              | None => deletePods_loop nowStr cs pvcs true pods
              end)); [by intros []|intros; apply tracks_ret|].
    apply tracks_bind; [apply tracks_delete_pvcs|]. intros [err|]; [apply tracks_ret|apply IH].
Qed.
End Tracking.

(** Deletions and expectations agree.  However the API server answers, after
    [deletePods] the expectation store holds exactly what it held before, changed by
    the writes that were sent: every pod or claim whose deletion succeeded is
    awaited, and none whose deletion failed. *)
Theorem delete_pods_expectations {S} `{Api S} (nowStr : string) (cs : CloneSet) (pods : list Pod)
  (pvcs : list PersistentVolumeClaim) (w : World S) (s : Scale.Spec) :
  Scale.refines (w_scale w) s ->
  let w' := (deletePods nowStr cs pods pvcs w).1 in
  exists evs, w_trace w' = w_trace w ++ evs /\
    Scale.refines (w_scale w') (fold_left (replay (GetControllerKey cs)) evs s).
Proof. intros Hs. by apply tracks_deletePods. Qed.

Section CreateExpectations.
Context {S : Type} `{Api S} (nowStr : string).

Lemma frames_create_claims key ex claims (T : string -> string -> string -> Prop) :
  (forall c, c ∈ claims -> T key Scale.Create (pvc_name c)) ->
  frames (S:=S) (create_claims key ex claims) T.
Proof.
  induction claims as [|c claims IH]; intros HT; simpl; [apply frames_ret|].
  assert (HT' : frames (S:=S) (create_claims key ex claims) T)
    by (apply IH; intros c' Hc'; apply HT; by right).
  assert (T key Scale.Create (pvc_name c)) by (apply HT; left).
  destruct (bool_decide _); [done|]. apply frames_bind; [by apply frames_expectScale|]. intros _.
  apply frames_bind; [apply frames_call|]. intros [err|]; [|done].
  apply frames_bind; [by apply frames_observeScale|]. intros; apply frames_ret.
Qed.

Lemma frames_create_batch (f : Pod -> M S (option error)) pods T :
  (forall p, p ∈ pods -> frames (f p) T) -> frames (create_batch f pods) T.
Proof.
  induction pods as [|p pods IH]; intros Hf; simpl; [apply frames_ret|].
  apply frames_bind; [apply Hf; left|]. intros e. apply frames_bind.
  - apply IH. intros q Hq. apply Hf. by right.
  - intros [names errs]. apply frames_ret.
Qed.

Lemma frames_create_slowly (f : Pod -> M S (option error)) fuel chan b success T :
  (forall p, p ∈ chan -> frames (f p) T) -> frames (create_slowly fuel f chan b success) T.
Proof.
  revert chan b success. induction fuel as [|fuel IH]; intros chan b success Hf; simpl; [apply frames_ret|].
  destruct (0 <? b); [|apply frames_ret]. apply frames_bind.
  - apply frames_create_batch. intros p Hp. apply Hf. unfold slice_to in Hp. eapply subseteq_take; eassumption.
  - intros [names errs]. destruct errs as [|err errs]; [|apply frames_ret].
    apply IH. intros p Hp. apply Hf. unfold slice_from in Hp. eapply subseteq_drop; eassumption.
Qed.

Lemma expect_all_pending key pods (w : World S) n :
  n ∈ Scale.pending (w_scale (expect_all key pods w).1) key Scale.Create
  <-> n ∈ map p_name pods \/ n ∈ Scale.pending (w_scale w) key Scale.Create.
Proof.
  revert w. induction pods as [|p pods IH]; intros w; simpl.
  - split; [by right|]. intros [Hn|]; [by apply not_elem_of_nil in Hn|done].
  - change ((expectScale key Scale.Create (p_name p);; expect_all key pods) w)
      with (expect_all key pods (expectScale (S:=S) key Scale.Create (p_name p) w).1).
    rewrite IH. simpl. rewrite Scale.pending_ExpectScale, bool_decide_eq_true_2 by done.
    rewrite elem_of_cons. set_solver.
Qed.

Lemma rollback_pending key success pods (w : World S) n :
  n ∈ Scale.pending (w_scale (rollback_failed key success pods w).1) key Scale.Create
  <-> n ∈ Scale.pending (w_scale w) key Scale.Create /\ (n ∈ success \/ n ∉ map p_name pods).
Proof.
  revert w. induction pods as [|p pods IH]; intros w; cbn [rollback_failed map].
  - simpl. split; [intros; split; [done|right; apply not_elem_of_nil]|by intros [? _]].
  - unfold bind. case_bool_decide as Hp; simpl.
    + rewrite IH, not_elem_of_cons. split; intros [? [?|?]]; split; auto.
      * destruct (decide (n = p_name p)) as [->|]; auto.
      * destruct H1. auto.
    + rewrite IH. simpl. rewrite Scale.pending_ObserveScale, bool_decide_eq_true_2 by done.
      rewrite elem_of_difference, elem_of_singleton, not_elem_of_cons.
      split; [intros [[? ?] [?|?]]; auto|]. intros [? [?|[? ?]]]; split; auto.
      split; [done|]. intros ->. done.
Qed.

(** The name of a claim of one of the new pods. *)
Definition claim_name (currentCS updateCS : CloneSet) (newPods : list Pod) (n : string) : Prop :=
  exists cs p c, (cs = currentCS \/ cs = updateCS) /\ p ∈ newPods /\
    c ∈ claims_list cs (Hooks.SetPodLifecycle LifecycleStatePreparingNormal nowStr p) /\ n = pvc_name c.

(** Creations and expectations agree.  However the API server answers, after
    the new pods have been handed out in batches, the store waits for exactly
    those of them whose creation succeeded: the pods that failed, and the pods of
    the batches that were skipped after a failure, are no longer expected. *)
Theorem create_pods_expectations (currentCS updateCS : CloneSet) (currentRevision : string)
  (existingPVCNames : gset string) (newPods : list Pod) (w : World S) :
  (forall p, p ∈ newPods -> ~ claim_name currentCS updateCS newPods (p_name p)) ->
  let key := GetControllerKey updateCS in
  let w' := (create_new_pods nowStr currentCS updateCS currentRevision existingPVCNames newPods w).1 in
  exists evs, w_trace w' = w_trace w ++ evs /\
    forall p, p ∈ newPods ->
      (p_name p ∈ Scale.pending (w_scale w') key Scale.Create <-> p_name p ∈ map p_name (created_ok evs)).
Proof.
  intros Hclaims key w'. unfold w', create_new_pods, bind. fold key. clear w'.
  destruct (expect_all_silent (S:=S) key newPods w) as (evs0 & Ht0 & ->). rewrite app_nil_r in Ht0.
  pose proof (fun n => expect_all_pending key newPods w n) as Hp0.
  destruct (expect_all key newPods w) as [w0 ?]. cbn [fst snd] in *.
  set (f := create_call nowStr currentCS updateCS currentRevision existingPVCNames).
  destruct (create_slowly_emits f (Datatypes.S (length newPods)) newPods (Z.min (len newPods) initialBatchSize) []
    (fun p => create_call_emits nowStr currentCS updateCS currentRevision existingPVCNames p) w0)
    as (evs & Ht & Hd & Hc & Hs).
  pose proof (frames_create_slowly f (Datatypes.S (length newPods)) newPods
    (Z.min (len newPods) initialBatchSize) [] (fun _ _ n => claim_name currentCS updateCS newPods n)) as Hfr.
  assert (Hf : forall p, p ∈ newPods -> frames (f p) (fun _ _ n => claim_name currentCS updateCS newPods n)).
  { intros p Hp. unfold f, create_call, createOnePod. apply frames_bind.
    - apply frames_create_claims. intros c Hc'.
      exists (if Revision.EqualToRevisionHash p currentRevision then currentCS else updateCS), p, c.
      split; [destruct (Revision.EqualToRevisionHash p currentRevision); auto|done].
    - intros [err|]; [apply frames_ret|apply frames_call]. }
  specialize (Hfr Hf w0). clear Hf.
  destruct (create_slowly _ f newPods _ [] w0) as [w1 [success err]]. cbn [fst snd] in *. subst success.
  destruct (rollback_silent (S:=S) key (map p_name (created_ok evs)) newPods w1) as (evs2 & Ht2 & ->).
  pose proof (fun n => rollback_pending key (map p_name (created_ok evs)) newPods w1 n) as Hp2.
  simpl app in *. destruct (rollback_failed key (map p_name (created_ok evs)) newPods w1) as [w2 ?].
  cbn [fst snd ret] in *. exists evs. split; [by rewrite Ht2, app_nil_r, Ht, Ht0|].
  intros p Hp. rewrite Hp2. rewrite (Hfr key Scale.Create (p_name p)) by by apply Hclaims.
  rewrite Hp0. assert (p_name p ∈ map p_name newPods) by (apply list_elem_of_fmap; eauto).
  split; [intros [_ [?|?]]; done|]. intros ?. split; [by left|by left].
Qed.
End CreateExpectations.

(** ** Which pods are created and chosen *)

Section NewPodFacts.
Context `{GoSort} `{PopAny} `{IDGen}.
Context (GetPodFromTemplate : CloneSet -> Pod) (gate : bool).

Lemma NewVersionedPods_elem ccs ucs cr ur total cur ids p :
  0 <= cur -> p ∈ NewVersionedPods GetPodFromTemplate gate ccs ucs cr ur total cur ids ->
  exists id, id ∈ ids /\ (p = newVersionedPod GetPodFromTemplate gate ccs cr id \/
                          p = newVersionedPod GetPodFromTemplate gate ucs ur id).
Proof.
  intros Hc Hp. rewrite NewVersionedPods_eq in Hp by done.
  apply elem_of_app in Hp as [Hp|Hp]; apply list_elem_of_fmap in Hp as (id & -> & Hid); exists id.
  - split; [eapply subseteq_take; eassumption|by left].
  - split; [|by right]. eapply subseteq_drop. eapply subseteq_take. eassumption.
Qed.

Lemma NewVersionedPods_names ccs ucs cr ur total cur ids :
  0 <= cur -> CloneSetDiff.cs_name ccs = CloneSetDiff.cs_name ucs ->
  map p_name (NewVersionedPods GetPodFromTemplate gate ccs ucs cr ur total cur ids)
  `sublist_of` map (fun id => CloneSetDiff.cs_name ucs +:+ "-" +:+ id) ids.
Proof.
  intros Hc Hn. rewrite NewVersionedPods_eq, map_app, !map_map by done.
  rewrite (map_ext (fun x => p_name _) (fun id => CloneSetDiff.cs_name ucs +:+ "-" +:+ id))
    by (intros; by rewrite newVersionedPod_name, Hn).
  rewrite (map_ext (fun x => p_name (newVersionedPod _ _ ucs _ x)) (fun id => CloneSetDiff.cs_name ucs +:+ "-" +:+ id))
    by (intros; by rewrite newVersionedPod_name).
  rewrite <-map_app. apply fmap_sublist. destruct (decide (total <= cur)).
  - replace (Z.to_nat (total - cur)) with O by lia. rewrite app_nil_r. apply sublist_take.
  - rewrite Z.min_r by lia. rewrite <-(take_drop (Z.to_nat cur) ids) at 3.
    apply sublist_app; [done|]. apply sublist_take.
Qed.

(** New pods never clash.  With the ids that [Scale] finds for them, the pods to
    create have pairwise distinct names, there are at most as many as were asked
    for, each carries a non-empty instance id that no existing pod has, and each
    belongs to the current or to the update revision. *)
Theorem new_pods_fresh (currentCS updateCS : CloneSet) (cr ur : string) (total cur : Z)
  (pods : list Pod) (pvcs : list PersistentVolumeClaim) :
  0 <= cur -> CloneSetDiff.cs_name currentCS = CloneSetDiff.cs_name updateCS ->
  let ids := SliceStable string_lt (elements (getOrGenAvailableIDs total pods pvcs)) in
  let new := NewVersionedPods GetPodFromTemplate gate currentCS updateCS cr ur total cur ids in
  NoDup (map p_name new) /\ len new <= Z.max 0 total /\
  forall p, p ∈ new ->
    GetInstanceID p <> ""%string /\ (forall q, q ∈ pods -> GetInstanceID q <> GetInstanceID p) /\
    (Revision.EqualToRevisionHash p cr = true \/ Revision.EqualToRevisionHash p ur = true).
Proof.
  intros Hc Hn ids new.
  assert (Hids : ids ≡ₚ elements (getOrGenAvailableIDs total pods pvcs)) by apply SliceStable_perm.
  split; [|split].
  - eapply sublist_NoDup; [|by apply NewVersionedPods_names].
    change (map ?f ids) with (f <$> ids). apply (NoDup_fmap_2_strong _ _).
    + intros x y _ _ E. apply (inj (String.append _)) in E. by apply (inj (String.append _)) in E.
    + rewrite Hids. apply NoDup_elements.
  - unfold new. rewrite NewVersionedPods_eq by done. rewrite length_app, !length_map, !length_take. lia.
  - intros p Hp. apply NewVersionedPods_elem in Hp as (id & Hid & Hp); [|done].
    rewrite Hids, elem_of_elements in Hid. unfold getOrGenAvailableIDs in Hid.
    apply gen_ids_spec in Hid as [Hid|[Hid Hne]]; [by apply elem_of_empty in Hid|].
    assert (Hgi : GetInstanceID p = id).
    { unfold GetInstanceID, lbl.
      destruct Hp as [-> | ->]; rewrite newVersionedPod_labels, lookup_insert_eq; done. }
    split; [by rewrite Hgi|]. split.
    + intros q Hq Heq. rewrite Hgi in Heq.
      assert (id ∈ id_set (map GetInstanceID pods)).
      { unfold id_set. apply elem_of_list_to_set, filterb_elem. split; [|by apply negb_true_iff, String.eqb_neq].
        apply list_elem_of_fmap. eauto. }
      set_solver.
    + destruct Hp as [-> | ->]; [left|right]; apply newVersionedPod_revision.
Qed.

Context (now : Z) (spreadRanker : list Pod -> list string -> Ranker).

(** The pods chosen for scaling in: as many as asked for whenever there are
    enough, the share of the old revision from the pods of the old revision and
    the rest from the updated ones; and in each group no pod is left behind that
    the deletion order puts before a chosen one. *)
Theorem choose_pods_to_delete_spec (cs : CloneSet) (total cur : Z) (old new : list Pod) :
  0 < total ->
  exists chosenOld chosenNew restOld restNew,
    choosePodsToDelete now spreadRanker cs total cur old new = chosenOld ++ chosenNew /\
    chosenOld ++ restOld ≡ₚ old /\ chosenNew ++ restNew ≡ₚ new /\
    len chosenOld = Z.min (Z.max 0 (Z.min cur total)) (len old) /\
    len chosenNew = Z.min (Z.max 0 (total - Z.max 0 cur)) (len new) /\
    (forall x y, x ∈ chosenOld -> y ∈ restOld -> delete_order now spreadRanker cs old y x = false) /\
    (forall x y, x ∈ chosenNew -> y ∈ restNew -> delete_order now spreadRanker cs new y x = false).
Proof.
  intros Ht. unfold choosePodsToDelete.
  destruct (cur >=? total) eqn:E1; zbool.
  - destruct (choose_spec now spreadRanker cs old total) as (rest & Hp & Hl & Ho); [lia|].
    exists (choose now spreadRanker cs old total), [], rest, new.
    rewrite app_nil_r. repeat split; auto; try (simpl; lia).
    intros x y Hx. by apply not_elem_of_nil in Hx.
  - destruct (0 <? cur) eqn:E2; zbool.
    + destruct (choose_spec now spreadRanker cs old cur) as (rest & Hp & Hl & Ho); [lia|].
      destruct (choose_spec now spreadRanker cs new (total - cur)) as (rest' & Hp' & Hl' & Ho'); [lia|].
      eexists _, _, rest, rest'. repeat split; eauto; lia.
    + destruct (choose_spec now spreadRanker cs new total) as (rest & Hp & Hl & Ho); [lia|].
      exists [], (choose now spreadRanker cs new total), old, rest.
      repeat split; auto; try (simpl; lia). intros x y Hx. by apply not_elem_of_nil in Hx.
Qed.
End NewPodFacts.

(** ** The choices on the concrete server *)

#[export] Program Instance first_pop : PopAny := {| pop_any := fun s => head (elements s) |}.
Next Obligation.
  intros s. destruct (head (elements s)) as [x|] eqn:E; rewrite E.
  - apply elem_of_elements. by apply head_Some_elem_of.
  - apply head_None, elements_empty_inv in E. by apply leibniz_equiv.
Qed.

#[export] Program Instance fresh_ids : IDGen := {| genID := fun s _ => fresh (s ∪ {[""%string]}) |}.
Next Obligation. intros s n. pose proof (is_fresh (s ∪ {[""%string]})). set_solver. Qed.
Next Obligation. intros s n. pose proof (is_fresh (s ∪ {[""%string]})). set_solver. Qed.

Definition ex_world (failing : gset string) : World (gset string) := mkWorld failing ∅ ∅ ∅ no_local ∅ [].
Definition ex_template (cs : CloneSet) : Pod := named_pod "".
Definition ex_ranker : list Pod -> list string -> Ranker := fun _ _ _ => 0.

(** The CloneSet of [ex_diffs] without surge: the pod [p1], which is to be deleted,
    is ready and may go. *)
Example ex_scale_deletes :
  deleted (w_trace (Scale (ex_gates false) 100 "now" ex_template ex_ranker
    (ex_cs ["p1"%string] (FromInt 0)) (ex_cs ["p1"%string] (FromInt 0)) "v1" "v2" ex_pods [] (ex_world ∅)).1)
  = [ex_pod "p1" "v1" true].
Proof. vm_compute. reflexivity. Qed.

(** ** Witnesses *)

Lemma scale_keeps_available_witness :
  exists evs,
    w_trace (Scale (ex_gates false) 100 "now" ex_template ex_ranker (ex_cs ["p1"%string] (FromInt 0))
      (ex_cs ["p1"%string] (FromInt 0)) "v1" "v2" ex_pods [] (ex_world ∅)).1 = [] ++ evs /\
    (countb (available 100 (ex_cs ["p1"%string] (FromInt 0))) (deleted evs) = 0 \/
     5 - 2 - 0 <= 4 - countb (available 100 (ex_cs ["p1"%string] (FromInt 0))) (deleted evs)).
Proof.
  apply (scale_keeps_available (S:=gset string) (ex_gates false) 100 "now" ex_template ex_ranker
    (ex_cs ["p1"%string] (FromInt 0)) (ex_cs ["p1"%string] (FromInt 0)) "v1" "v2" ex_pods [] 5
    eq_refl ltac:(small) ltac:(small) (ex_world ∅)).
Defined.

Lemma delete_pods_expectations_witness :
  let w' := (deletePods "now" (ex_cs [] (FromInt 0)) ex_pods [] (ex_world {["p2"%string]})).1 in
  exists evs, w_trace w' = [] ++ evs /\
    Scale.refines (w_scale w') (fold_left (replay "default/sample") evs ∅).
Proof.
  apply (delete_pods_expectations "now" (ex_cs [] (FromInt 0)) ex_pods [] (ex_world {["p2"%string]}) ∅).
  apply Scale.refines_empty.
Defined.

Lemma create_pods_expectations_witness :
  let new := [named_pod "a"; named_pod "b"] in
  let w' := (create_new_pods "now" (ex_cs [] (FromInt 0)) (ex_cs [] (FromInt 0)) "v1" ∅ new
               (ex_world {["b"%string]})).1 in
  exists evs, w_trace w' = [] ++ evs /\
    forall p, p ∈ new ->
      (p_name p ∈ Scale.pending (w_scale w') "default/sample" Scale.Create <-> p_name p ∈ map p_name (created_ok evs)).
Proof.
  apply (create_pods_expectations "now" (ex_cs [] (FromInt 0)) (ex_cs [] (FromInt 0)) "v1" ∅
    [named_pod "a"; named_pod "b"] (ex_world {["b"%string]})).
  intros p _ (cs & q & c & Hcs & _ & Hc & _). destruct Hcs as [-> | ->]; by apply not_elem_of_nil in Hc.
Defined.

Lemma new_pods_fresh_witness :
  let ids := SliceStable string_lt (elements (getOrGenAvailableIDs 2 ex_pods [])) in
  let new := NewVersionedPods ex_template false (ex_cs [] (FromInt 0)) (ex_cs [] (FromInt 0)) "v1" "v2" 2 1 ids in
  NoDup (map p_name new) /\ len new <= 2 /\
  forall p, p ∈ new ->
    GetInstanceID p <> ""%string /\ (forall q, q ∈ ex_pods -> GetInstanceID q <> GetInstanceID p) /\
    (Revision.EqualToRevisionHash p "v1" = true \/ Revision.EqualToRevisionHash p "v2" = true).
Proof.
  apply (new_pods_fresh ex_template false (ex_cs [] (FromInt 0)) (ex_cs [] (FromInt 0)) "v1" "v2" 2 1 ex_pods []);
    small.
Defined.

Lemma choose_pods_to_delete_spec_witness :
  exists chosenOld chosenNew restOld restNew,
    choosePodsToDelete 100 ex_ranker (ex_cs [] (FromInt 0)) 2 1 ex_pods [ex_pod "q" "v2" true]
    = chosenOld ++ chosenNew /\
    chosenOld ++ restOld ≡ₚ ex_pods /\ chosenNew ++ restNew ≡ₚ [ex_pod "q" "v2" true] /\
    len chosenOld = 1 /\ len chosenNew = 1 /\
    (forall x y, x ∈ chosenOld -> y ∈ restOld -> delete_order 100 ex_ranker (ex_cs [] (FromInt 0)) ex_pods y x = false) /\
    (forall x y, x ∈ chosenNew -> y ∈ restNew ->
       delete_order 100 ex_ranker (ex_cs [] (FromInt 0)) [ex_pod "q" "v2" true] y x = false).
Proof.
  apply (choose_pods_to_delete_spec 100 ex_ranker (ex_cs [] (FromInt 0)) 2 1 ex_pods [ex_pod "q" "v2" true]).
  small.
Defined.
