(* ===== verification/CloneSetUpdate.v ===== *)
(** * Updating a CloneSet

    pkg/controller/cloneset/sync/cloneset_update.go (the handler [Update], the
    lifecycle of pods under in-place update, the order and the number of pods to
    update) and cloneset_status.go (the status computed from the pods). *)

From S2P Require Import Prelude GoLib GoText K8s Tools Expectations Lifecycle UpdateSort CloneSetDiff InPlaceUpdate World PodSorter CloneSetScale.
Open Scope Z_scope.
Open Scope kruise_scope.

(** ** The order of the pods to update *)

(** Stands for [pods[i]] where [i] is out of range, at which Go panics; the indexes
    come from a loop over the pods. *)
Definition no_pod : Pod := named_pod "".
Definition pod_at (pods : list Pod) (i : nat) : Pod := default no_pod (pods !! i).

Definition preparing_update (pods : list Pod) (i : nat) : bool :=
  String.eqb (Hooks.GetPodLifecycleState (pod_at pods i)) LifecycleStatePreparingUpdate.

(** Pods in PreparingUpdate first. *)
Definition preparing_first (pods : list Pod) (i j : nat) : bool :=
  if negb (Bool.eqb (preparing_update pods i) (preparing_update pods j))
  then preparing_update pods i else false.

Section Sorting.
Context `{GoSort}.

(** [GetPodsSortFunc]. *)
Definition default_less (pods : list Pod) (i j : nat) : bool :=
  ActivePods_Less (pod_at pods i) (pod_at pods j).

Definition SortUpdateIndexes (cs : CloneSet) (pods : list Pod) (waitUpdateIndexes : list nat) : list nat :=
  let l := sort_by (default_less pods) waitUpdateIndexes in
  let l := match update_PriorityStrategy cs with
           | Some s => Priority.Sort (Some s) pods l
           | None => l
           end in
  let l := match update_ScatterStrategy cs with
           | Some s => Scatter.Sort s pods l
           | None => l
           end in
  SliceStable (preparing_first pods) l.

Lemma SortUpdateIndexes_perm cs pods l : SortUpdateIndexes cs pods l ≡ₚ l.
Proof.
  unfold SortUpdateIndexes. rewrite SliceStable_perm.
  destruct (update_ScatterStrategy cs); rewrite ?Scatter.scatter_perm;
    destruct (update_PriorityStrategy cs); rewrite ?Priority.priority_perm; apply sort_by_perm.
Qed.

#[export] Instance preparing_first_sw pods : StrictWeak (preparing_first pods).
Proof.
  unfold preparing_first. split; intros *;
    repeat match goal with |- context [preparing_update pods ?i] => destruct (preparing_update pods i) end;
    simpl; auto.
Qed.

(** The pods to update are only reordered, whatever the priority and scatter
    strategies, and the pods already in PreparingUpdate come first: no pod is
    picked before one that is waiting for its hook. *)
Theorem sort_update_indexes_spec cs pods l :
  SortUpdateIndexes cs pods l ≡ₚ l /\
  sorted_by (preparing_first pods) (SortUpdateIndexes cs pods l).
Proof. split; [apply SortUpdateIndexes_perm|]. apply SliceStable_sorted, preparing_first_sw. Qed.
End Sorting.

(** ** The number of pods to update *)

(** The second loop of [limitUpdateIndexes]: how many of the indexes can go. *)
Fixpoint can_update (available : Pod -> bool) (pods : list Pod) (maxUnavailable targetUnavailable : Z)
  (unavailableCount canUpdateCount : Z) (indexes : list nat) : Z :=
  match indexes with
  | [] => canUpdateCount
  | i :: rest =>
      if maxUnavailable <=? targetUnavailable + canUpdateCount then canUpdateCount
      else if available (pod_at pods i) then
        if maxUnavailable <=? unavailableCount then canUpdateCount
        else can_update available pods maxUnavailable targetUnavailable
               (unavailableCount + 1) (canUpdateCount + 1) rest
      else can_update available pods maxUnavailable targetUnavailable
             unavailableCount (canUpdateCount + 1) rest
  end.

Definition limitUpdateIndexes (now minReadySeconds : Z) (diffRes : expectationDiffs)
  (waitUpdateIndexes : list nat) (pods : list Pod) (targetRevisionHash : string) : list nat :=
  let updateDiff := Num.IntAbs (updateNum diffRes) in
  let wait := if updateDiff <? len waitUpdateIndexes then slice_to waitUpdateIndexes updateDiff
              else waitUpdateIndexes in
  let available p := IsPodAvailable now p minReadySeconds in
  let unavailableCount := countb (fun p => negb (available p)) pods in
  let targetUnavailable :=
    countb (fun p => negb (available p) && Revision.EqualToRevisionHash p targetRevisionHash) pods in
  let n := can_update available pods (updateMaxUnavailable diffRes) targetUnavailable unavailableCount 0 wait in
  if n <? len wait then slice_to wait n else wait.

Lemma can_update_spec avail pods mu tu un0 c0 l :
  let n := can_update avail pods mu tu un0 c0 l in
  c0 <= n <= c0 + len l /\
  (n = c0 \/ tu + n <= mu) /\
  (let k := countb (fun i => avail (pod_at pods i)) (take (Z.to_nat (n - c0)) l) in
   k = 0 \/ un0 + k <= mu).
Proof.
  revert un0 c0. induction l as [|i l IH]; intros un0 c0; cbn [can_update].
  - cbv zeta. rewrite take_nil. simpl. lia.
  - destruct (mu <=? tu + c0) eqn:E1; zbool.
    { cbv zeta. rewrite Z.sub_diag. simpl. lia. }
    assert (Hstep : forall u, let n := can_update avail pods mu tu u (c0 + 1) l in
      c0 + 1 <= n <= c0 + 1 + len l ->
      take (Z.to_nat (n - c0)) (i :: l) = i :: take (Z.to_nat (n - (c0 + 1))) l).
    { intros u n Hn. replace (Z.to_nat (n - c0)) with (S (Z.to_nat (n - (c0 + 1)))) by lia. done. }
    destruct (avail (pod_at pods i)) eqn:Ea.
    + destruct (mu <=? un0) eqn:E2; zbool.
      { cbv zeta. rewrite Z.sub_diag. simpl. lia. }
      specialize (IH (un0 + 1) (c0 + 1)). cbv zeta in *. destruct IH as (H1 & H2 & H3).
      rewrite Hstep by done. cbn [countb length]. rewrite Ea. lia.
    + specialize (IH un0 (c0 + 1)). cbv zeta in *. destruct IH as (H1 & H2 & H3).
      rewrite Hstep by done. cbn [countb length]. rewrite Ea. lia.
Qed.

(** The result as a prefix of the indexes, with what bounds it. *)
Lemma limitUpdateIndexes_eq now m d wait pods target :
  - 2 ^ 40 <= updateNum d <= 2 ^ 40 ->
  let r := limitUpdateIndexes now m d wait pods target in
  let available p := IsPodAvailable now p m in
  exists n, r = take n wait /\ len r <= Z.abs (updateNum d) /\
    (r = [] \/ countb (fun p => negb (available p) && Revision.EqualToRevisionHash p target) pods + len r
               <= updateMaxUnavailable d) /\
    (let k := countb (fun i => available (pod_at pods i)) r in
     k = 0 \/ countb (fun p => negb (available p)) pods + k <= updateMaxUnavailable d).
Proof.
  intros Hb r available. unfold r, limitUpdateIndexes. fold available.
  change (fun p => negb (IsPodAvailable now p m)) with (fun p => negb (available p)).
  rewrite Num.IntAbs_small by done.
  set (w := if Z.abs (updateNum d) <? len wait then slice_to wait (Z.abs (updateNum d)) else wait).
  assert (Hw : exists n, w = take n wait /\ len w <= Z.abs (updateNum d)).
  { unfold w, slice_to. destruct (Z.abs (updateNum d) <? len wait) eqn:E; zbool.
    - eexists. split; [done|]. rewrite length_take. lia.
    - exists (length wait). rewrite take_ge by lia. split; [done|lia]. }
  destruct Hw as (nw & Hw & Hlw).
  set (tu := countb _ pods). set (un0 := countb (fun p => negb (available p)) pods).
  pose proof (can_update_spec available pods (updateMaxUnavailable d) tu un0 0 w) as Hc. cbv zeta in Hc.
  set (n := can_update _ pods _ tu un0 0 w) in *.
  change (can_update (fun p => IsPodAvailable now p m) pods (updateMaxUnavailable d) tu un0 0 w) with n.
  destruct Hc as (H1 & H2 & H3). rewrite Z.sub_0_r in H3.
  assert (Hr : (if n <? len w then slice_to w n else w) = take (Z.to_nat n) w).
  { destruct (n <? len w) eqn:E; zbool; [done|]. rewrite take_ge; [done|lia]. }
  rewrite Hr. exists (Z.to_nat n `min` nw)%nat. rewrite Hw, take_take.
  split; [done|]. rewrite <-take_take, <-Hw.
  assert (Hlen : len (take (Z.to_nat n) w) = n) by (rewrite length_take; lia).
  rewrite Hlen. split; [lia|]. split; [|exact H3].
  destruct H2 as [Hz|H2]; [left; by rewrite Hz|right; lia].
Qed.

(** ** The handler *)

(** The value of [appspub.GetInPlaceUpdateGrace], empty when there is none. *)
Definition grace_text (p : Pod) : string := default ""%string (GetInPlaceUpdateGrace p).

(** [commonControl.IsPodUpdatePaused]. *)
Definition IsPodUpdatePaused (p : Pod) : bool := false.

(** The grace period of [GetUpdateOptions]. *)
Definition grace_of (cs : CloneSet) : Z := default 0 (update_GracePeriodSeconds cs).

Definition inPlace_hook (cs : CloneSet) : option LifecycleHook :=
  match spec_Lifecycle cs with Some l => InPlaceUpdate l | None => None end.
Definition preNormal_hook (cs : CloneSet) : option LifecycleHook :=
  match spec_Lifecycle cs with Some l => PreNormal l | None => None end.
Definition has_lifecycle (cs : CloneSet) : bool :=
  match spec_Lifecycle cs with Some _ => true | None => false end.
Definition is_nil {A} (x : option A) : bool := match x with None => true | Some _ => false end.

(** [cs.Spec.Lifecycle != nil && !IsPodAllHooked(InPlaceUpdate, pod)] decides
    between the states Updated and Normal. *)
Definition after_update_state (cs : CloneSet) (pod : Pod) : string :=
  if has_lifecycle cs && negb (Hooks.IsPodAllHooked (inPlace_hook cs) pod)
  then LifecycleStateUpdated else LifecycleStateNormal.

(** The state [refreshPodState] moves a pod to, [""] for none; [completed] is
    whether [CheckPodUpdateCompleted] returned no error. *)
Definition next_state (cs : CloneSet) (pod : Pod) (updateRevision : string) (completed : bool) : string :=
  let state := Hooks.GetPodLifecycleState pod in
  if String.eqb state LifecycleStatePreparingNormal then
    if is_nil (preNormal_hook cs) || Hooks.IsPodAllHooked (preNormal_hook cs) pod
    then LifecycleStateNormal else ""
  else if String.eqb state LifecycleStatePreparingUpdate then
    if Revision.EqualToRevisionHash pod updateRevision then after_update_state cs pod else ""
  else if String.eqb state LifecycleStateUpdating then
    if completed then after_update_state cs pod else ""
  else if String.eqb state LifecycleStateUpdated then
    if is_nil (inPlace_hook cs) || Hooks.IsPodAllHooked (inPlace_hook cs) pod
    then LifecycleStateNormal else ""
  else "".

(** The pods waiting to be updated, by index. *)
Definition can_wait (updateNum : Z) (updateRevision : string) (pod : Pod) : bool :=
  if IsPodUpdatePaused pod then false
  else
    let atRevision := Revision.EqualToRevisionHash pod updateRevision in
    let waitUpdate := if 0 <? updateNum then negb atRevision else atRevision in
    if waitUpdate then
      let state := Hooks.GetPodLifecycleState pod in
      if String.eqb state LifecycleStatePreparingDelete then false
      else if String.eqb state LifecycleStateUpdated then true
      else String.eqb (grace_text pod) ""
    else false.

Fixpoint wait_indexes (i : nat) (f : Pod -> bool) (pods : list Pod) : list nat :=
  match pods with
  | [] => []
  | p :: pods' => if f p then i :: wait_indexes (S i) f pods' else wait_indexes (S i) f pods'
  end.

Section Handler.
Context {S : Type} `{Api S} `{GoSort}.
Context (g : Gates) (now : Z) (nowStr : string).
Import LifecycleControl.

(** [refreshPodState]: whether the state was patched, the delay and the error. *)
Definition refreshPodState (cs : CloneSet) (pod : Pod) (updateRevision : string)
  : M S (bool * Z * option error) :=
  do res <- call (InPlaceRefresh pod (grace_of cs)) (fun _ => []);
  match RefreshErr res with
  | Some err => ret (false, 0, Some err)
  | None =>
      let state := next_state cs pod updateRevision (is_ok (CheckPodUpdateCompleted pod)) in
      if String.eqb state "" then ret (false, rr_DelayDuration res, None)
      else
        do '(updated, gotPod, err) <-
          UpdatePodLifecycle nowStr pod state (Hooks.IsHookMarkPodNotReady (inPlace_hook cs));
        match err with
        | Some e => ret (false, 0, Some e)
        | None =>
            if updated : bool then expectPod gotPod ;; ret (true, rr_DelayDuration res, None)
            else ret (false, rr_DelayDuration res, None)
        end
  end.

Definition fixPodTemplateHashLabel (pod : Pod) : M S (bool * option error) :=
  match p_labels pod !! DefaultDeploymentUniqueLabelKey with
  | Some _ => ret (false, None)
  | None =>
      let hash := Revision.GetShortHash (lbl (p_labels pod) ControllerRevisionHashLabelKey) in
      do r <- patchPod pod (mkPatch {[ DefaultDeploymentUniqueLabelKey := hash ]} ∅ []);
      match r with
      | inl err => ret (false, Some err)
      | inr pod' => expectPod (Some pod') ;; ret (true, None)
      end
  end.

(** Step 1: refresh every pod; whether any pod was patched, and the first error. *)
Fixpoint refresh_all (cs : CloneSet) (key updateRevision : string) (modified : bool) (pods : list Pod)
  : M S (bool * option error) :=
  match pods with
  | [] => ret (modified, None)
  | pod :: rest =>
      do '(patchedState, duration, err) <- refreshPodState cs pod updateRevision;
      match err with
      | Some e => ret (modified, Some e)
      | None =>
          (if 0 <? duration then pushDuration key duration else ret tt) ;;
          do '(patchedHash, err) <- fixPodTemplateHashLabel pod;
          match err with
          | Some e => ret (modified, Some e)
          | None => refresh_all cs key updateRevision (modified || patchedState || patchedHash) rest
          end
      end
  end.

(** The last part of [updatePod]: mark the pod for deletion. *)
Definition recreate_pod (pod : Pod) : M S (Z * option error) :=
  do '(patched, err, pod') <- PatchPodSpecifiedDelete pod "true";
  match err with
  | Some e => ret (0, Some e)
  | None =>
      if patched : bool then expectPod (Some pod') ;; ret (0, None) else ret (0, None)
  end.

(** The part after the lifecycle allows the in-place update. *)
Definition do_inplace (cs : CloneSet) (oldRevision : option ControllerRevision)
  (updateRevision : ControllerRevision) (pod : Pod) (otherwise : M S (Z * option error))
  : M S (Z * option error) :=
  let state := LifecycleStateUpdating in
  do res <- call (InPlaceUpdatePod pod oldRevision updateRevision (grace_of cs) state)
              (fun res => if ur_InPlaceUpdate res
                          then [EvInPlaceUpdate pod (cr_name updateRevision) state (is_ok (ur_UpdateErr res))] else []);
  if ur_InPlaceUpdate res then
    match ur_UpdateErr res with
    | None => expectRV (p_uid pod) (ur_NewResourceVersion res) ;; ret (ur_DelayDuration res, None)
    | Some err => ret (ur_DelayDuration res, Some err)
    end
  else otherwise.

(** Patch the lifecycle state, and expect the new version. *)
Definition patch_state (m : M S (bool * option Pod * option error)) : M S (Z * option error) :=
  do '(updated, gotPod, err) <- m;
  (if is_nil err && updated then expectPod gotPod else ret tt) ;; ret (0, err).

Definition updatePod (cs : CloneSet) (updateRevision : ControllerRevision)
  (revisions : list ControllerRevision) (pod : Pod) : M S (Z * option error) :=
  if String.eqb (update_Type cs) InPlaceIfPossible || String.eqb (update_Type cs) InPlaceOnly then
    let oldRevision := find (fun r => Revision.EqualToRevisionHash pod (cr_name r)) revisions in
    let backoff :=
      if String.eqb (update_Type cs) InPlaceOnly
      then ret (0, Some ("find Pod " +:+ p_name pod +:+
             " update strategy is InPlaceOnly but can not update in-place"))
      else recreate_pod pod in
    if CanUpdateInPlace oldRevision updateRevision (grace_of cs) then
      let state := Hooks.GetPodLifecycleState pod in
      let hooked := Hooks.IsPodHooked (inPlace_hook cs) pod in
      if String.eqb state "" || String.eqb state LifecycleStatePreparingNormal
         || String.eqb state LifecycleStateNormal then
        if hooked then
          patch_state (UpdatePodLifecycle nowStr pod LifecycleStatePreparingUpdate
                         (Hooks.IsHookMarkPodNotReady (inPlace_hook cs)))
        else do_inplace cs oldRevision updateRevision pod backoff
      else if String.eqb state LifecycleStateUpdated then
        patch_state (UpdatePodLifecycleWithHandler nowStr pod LifecycleStatePreparingUpdate (inPlace_hook cs))
      else if String.eqb state LifecycleStatePreparingUpdate then
        if hooked then ret (0, None)
        else do_inplace cs oldRevision updateRevision pod backoff
      else if String.eqb state LifecycleStateUpdating then
        do_inplace cs oldRevision updateRevision pod backoff
      else ret (0, Some ("not allowed to in-place update pod " +:+ p_name pod +:+ " in state " +:+ state))
    else backoff
  else recreate_pod pod.

(** Step 6: update the pods of the indexes, in their order. *)
Fixpoint update_all (cs : CloneSet) (key : string) (targetRevision : ControllerRevision)
  (revisions : list ControllerRevision) (pods : list Pod) (indexes : list nat) : M S (option error) :=
  match indexes with
  | [] => ret None
  | idx :: rest =>
      let pod := pod_at pods idx in
      let go :=
        do '(duration, err) <- updatePod cs targetRevision revisions pod;
        (if 0 <? duration then pushDuration key duration else ret tt) ;;
        match err with
        | Some e => ret (Some e)
        | None => update_all cs key targetRevision revisions pods rest
        end in
      if g_PodUnavailableBudgetUpdateGate g then
        do '(allowed, err) <- call (PodUnavailableBudgetValidatePod pod) (fun _ => []);
        match err with
        | Some e => ret (Some e)
        | None => if negb allowed then pushDuration key second ;; ret None else go
        end
      else go
  end.

Definition Update (cs : CloneSet) (currentRevision updateRevision : ControllerRevision)
  (revisions : list ControllerRevision) (pods : list Pod) : M S (option error) :=
  let key := GetControllerKey cs in
  do '(modified, err) <- refresh_all cs key (cr_name updateRevision) false pods;
  match err with
  | Some e => ret (Some e)
  | None =>
      if modified then ret None
      else if update_Paused cs then ret None
      else
        let diffRes := calculateDiffsWithExpectation g now cs pods (cr_name currentRevision)
                         (cr_name updateRevision) None in
        if updateNum diffRes =? 0 then ret None
        else
          let targetRevision := if updateNum diffRes <? 0 then currentRevision else updateRevision in
          let wait := wait_indexes 0 (can_wait (updateNum diffRes) (cr_name updateRevision)) pods in
          let wait := SortUpdateIndexes cs pods wait in
          let wait := limitUpdateIndexes now (spec_MinReadySeconds cs) diffRes wait pods (cr_name targetRevision) in
          update_all cs key targetRevision revisions pods wait
  end.
End Handler.

(** ** The writes of the handler *)

(** The pod an update disrupts: one that is updated in place, moved to
    PreparingUpdate, or marked for deletion. *)
Definition disrupts (ev : Event) : option Pod :=
  match ev with
  | EvInPlaceUpdate p _ _ _ => Some p
  | EvDeletePod p _ => Some p
  | EvPatchPod p patch _ =>
      if bool_decide (patch_labels patch !! LifecycleStateKey = Some LifecycleStatePreparingUpdate)
         || bool_decide (is_Some (patch_labels patch !! SpecifiedDeleteKey))
      then Some p else None
  | _ => None
  end.
Definition disrupted (evs : list Event) : list Pod := omap disrupts evs.

(** The lifecycle state a write gives to a pod: the one the in-place update is asked to set, if
    any, or the one in the labels of the patch. *)
Definition new_state (ev : Event) : option (Pod * string) :=
  match ev with
  | EvInPlaceUpdate p _ state _ => if String.eqb state "" then None else Some (p, state)
  | EvPatchPod p patch _ =>
      match patch_labels patch !! LifecycleStateKey with
      | Some s => Some (p, s)
      | None => None
      end
  | _ => None
  end.

(** The lifecycle of a pod, as far as the update handler drives it. *)
Inductive update_step : string -> string -> Prop :=
| us_created : update_step LifecycleStatePreparingNormal LifecycleStateNormal
| us_prepare s :
    s ∈ [""; LifecycleStatePreparingNormal; LifecycleStateNormal; LifecycleStateUpdated]%string ->
    update_step s LifecycleStatePreparingUpdate
| us_start s :
    s ∈ [""; LifecycleStatePreparingNormal; LifecycleStateNormal; LifecycleStatePreparingUpdate;
         LifecycleStateUpdating]%string ->
    update_step s LifecycleStateUpdating
| us_finish s s' :
    s ∈ [LifecycleStatePreparingUpdate; LifecycleStateUpdating] ->
    s' ∈ [LifecycleStateUpdated; LifecycleStateNormal] -> update_step s s'
| us_done : update_step LifecycleStateUpdated LifecycleStateNormal.

Definition steps_ok (evs : list Event) : Prop :=
  forall p s, (p, s) ∈ omap new_state evs -> update_step (Hooks.GetPodLifecycleState p) s.

Lemma disrupted_app a b : disrupted (a ++ b) = disrupted a ++ disrupted b.
Proof. apply omap_app. Qed.

Lemma steps_ok_app a b : steps_ok a -> steps_ok b -> steps_ok (a ++ b).
Proof.
  intros Ha Hb p s Hin. rewrite omap_app in Hin. apply elem_of_app in Hin as [Hin|Hin]; [by apply Ha|by apply Hb].
Qed.

Lemma steps_ok_nil : steps_ok [].
Proof. intros p s Hin. by apply not_elem_of_nil in Hin. Qed.
#[export] Hint Resolve steps_ok_app steps_ok_nil : kruise.

Lemma next_state_step cs pod rev completed :
  let s := next_state cs pod rev completed in
  s <> ""%string ->
  update_step (Hooks.GetPodLifecycleState pod) s /\ s <> LifecycleStatePreparingUpdate.
Proof.
  unfold next_state, after_update_state.
  destruct (String.eqb_spec (Hooks.GetPodLifecycleState pod) LifecycleStatePreparingNormal) as [->|_].
  { split_ifs; intros Hne; try done. split; [apply us_created|done]. }
  destruct (String.eqb_spec (Hooks.GetPodLifecycleState pod) LifecycleStatePreparingUpdate) as [->|_].
  { destruct (Revision.EqualToRevisionHash pod rev); [|done]. intros _.
    destruct (_ && _); (split; [apply us_finish|done]); set_solver. }
  destruct (String.eqb_spec (Hooks.GetPodLifecycleState pod) LifecycleStateUpdating) as [->|_].
  { destruct completed; [|done]. intros _.
    destruct (_ && _); (split; [apply us_finish|done]); set_solver. }
  destruct (String.eqb_spec (Hooks.GetPodLifecycleState pod) LifecycleStateUpdated) as [->|_]; [|done].
  split_ifs; intros Hne; try done. split; [apply us_done|done].
Qed.

Section Writes.
Context {S : Type} `{Api S} `{GoSort}.
Context (g : Gates) (now : Z) (nowStr : string).
Import LifecycleControl.

(** What refreshing writes: steps of the lifecycle that disrupt nothing. *)
Definition calm (evs : list Event) : Prop := disrupted evs = [] /\ steps_ok evs.

Lemma calm_app a b : calm a -> calm b -> calm (a ++ b).
Proof.
  intros [Ha Hs] [Hb Ht]. split; [by rewrite disrupted_app, Ha, Hb|by apply steps_ok_app].
Qed.

Lemma calm_nil : calm [].
Proof. split; [done|apply steps_ok_nil]. Qed.

(** Continues a calm prefix. *)
Lemma emits_calm {A} (m : M S A) evs :
  calm evs -> emits m (fun evs' _ => calm evs') -> emits m (fun evs' _ => calm (evs ++ evs')).
Proof. intros Hc Hm. eapply emits_mono; [exact Hm|]. intros evs' a Hc'. by apply calm_app. Qed.

Lemma silent_push key d (P : list Event -> unit -> Prop) :
  P [] tt -> emits (S:=S) (if 0 <? d then pushDuration key d else ret tt) P.
Proof. intros HP. destruct (0 <? d); [by apply emits_silent|by apply emits_ret]. Qed.

Lemma refreshPodState_calm cs pod rev :
  emits (refreshPodState (S:=S) nowStr cs pod rev) (fun evs _ => calm evs).
Proof.
  unfold refreshPodState. eapply emits_bind with (P := fun evs _ => evs = []); [by apply emits_call|].
  intros evs res ->. destruct (RefreshErr res); [apply emits_ret, calm_nil|].
  set (state := next_state _ _ _ _).
  destruct (String.eqb_spec state "") as [|Hne]; [apply emits_ret, calm_nil|].
  destruct (next_state_step cs pod rev (is_ok (CheckPodUpdateCompleted pod)) Hne) as [Hstep Hnp].
  eapply emits_bind with (P := fun evs _ => calm evs).
  - eapply emits_mono; [apply UpdatePodLifecycle_emits|].
    intros evs r [[-> _]|(_ & _ & ->)]; [apply calm_nil|]. split.
    + cbn. fold state. rewrite lookup_insert_eq.
      rewrite bool_decide_eq_false_2 by (intros [= E]; by apply Hnp). rewrite lookup_insert_ne by done.
      rewrite lookup_empty, bool_decide_eq_false_2; [done|]. by intros [? ?].
    + intros p s Hin. cbn in Hin. rewrite lookup_insert_eq in Hin.
      apply elem_of_cons in Hin as [Hin|Hin]; [|by apply not_elem_of_nil in Hin].
      by injection Hin as -> ->.
  - intros evs [[u gp] e] Hc. destruct e; [apply emits_ret; by rewrite app_nil_r|].
    destruct u; [|apply emits_ret; by rewrite app_nil_r].
    apply emits_skip; [by apply silent_expectPod|]. apply emits_ret. by rewrite app_nil_r.
Qed.

Lemma fixHash_calm pod : emits (fixPodTemplateHashLabel (S:=S) pod) (fun evs _ => calm evs).
Proof.
  unfold fixPodTemplateHashLabel. destruct (_ !! _); [apply emits_ret, calm_nil|].
  eapply emits_bind with (P := fun evs _ => calm evs).
  - apply emits_call. intros r. split; [done|]. intros p s Hin. cbn in Hin. by apply not_elem_of_nil in Hin.
  - intros evs [e|p'] Hc; [apply emits_ret; by rewrite app_nil_r|].
    apply emits_skip; [by apply silent_expectPod|]. apply emits_ret. by rewrite app_nil_r.
Qed.

Lemma refresh_all_calm cs key rev modified pods :
  emits (refresh_all (S:=S) nowStr cs key rev modified pods) (fun evs _ => calm evs).
Proof.
  revert modified. induction pods as [|pod pods IH]; intros modified; simpl; [apply emits_ret, calm_nil|].
  eapply emits_bind; [apply refreshPodState_calm|]. intros evs [[ps d] e] Hc.
  destruct e; [apply emits_ret; by rewrite app_nil_r|]. apply emits_skip; [by apply silent_push|].
  apply emits_calm; [done|]. eapply emits_bind; [apply fixHash_calm|]. intros evs' [ph e] Hc'.
  destruct e; [apply emits_ret; by rewrite app_nil_r|]. apply emits_calm; [done|apply IH].
Qed.

(** No hook writes the lifecycle state itself. *)
Definition hook_ok (cs : CloneSet) : Prop :=
  forall h, inPlace_hook cs = Some h -> LabelsHandler h !! LifecycleStateKey = None.

Definition inplaced (evs : list Event) : list Pod :=
  omap (fun ev => match ev with EvInPlaceUpdate p _ _ _ => Some p | _ => None end) evs.

(** What updating one pod writes. *)
Definition one_update (cs : CloneSet) (pod : Pod) (evs : list Event) : Prop :=
  disrupted evs `sublist_of` [pod] /\ steps_ok evs /\
  (inplaced evs <> [] ->
   Hooks.IsPodHooked (inPlace_hook cs) pod = false \/
   Hooks.GetPodLifecycleState pod = LifecycleStateUpdating).

Lemma one_update_nil cs pod : one_update cs pod [].
Proof. split; [apply sublist_nil_l|]. split; [apply steps_ok_nil|done]. Qed.

Lemma sublist_one {A} (o : option A) (x : A) : (forall y, o = Some y -> y = x) ->
  (match o with Some y => [y] | None => [] end) `sublist_of` [x].
Proof. destruct o as [y|]; intros Hy; [by rewrite (Hy y eq_refl)|apply sublist_nil_l]. Qed.

(** A patch of the pod that may move it to PreparingUpdate. *)
Lemma one_update_patch cs pod patch ok :
  (forall s, patch_labels patch !! LifecycleStateKey = Some s ->
     update_step (Hooks.GetPodLifecycleState pod) s) ->
  one_update cs pod [EvPatchPod pod patch ok].
Proof.
  intros Hs. split; [|split].
  - unfold disrupted. cbn. destruct (_ || _); [done|apply sublist_nil_l].
  - intros p s Hin. cbn in Hin. destruct (_ !! LifecycleStateKey) as [s'|] eqn:E.
    + apply elem_of_cons in Hin as [[= -> ->]|Hin]; [by apply Hs|by apply not_elem_of_nil in Hin].
    + by apply not_elem_of_nil in Hin.
  - done.
Qed.

Lemma recreate_pod_one cs pod : emits (recreate_pod (S:=S) pod) (fun evs _ => one_update cs pod evs).
Proof.
  unfold recreate_pod, PatchPodSpecifiedDelete.
  eapply emits_bind with (P := fun evs _ => one_update cs pod evs).
  - destruct (_ !! _); [apply emits_ret, one_update_nil|].
    eapply emits_bind with (P := fun evs _ => one_update cs pod evs).
    + apply emits_call. intros r. apply one_update_patch. intros s Hs. cbn in Hs. done.
    + intros evs [e|p'] Hc; apply emits_ret; by rewrite app_nil_r.
  - intros evs [[patched e] p'] Hc. destruct e; [apply emits_ret; by rewrite app_nil_r|].
    destruct patched; [apply emits_skip; [by apply silent_expectPod|]|]; apply emits_ret; by rewrite app_nil_r.
Qed.

Lemma patch_state_one cs pod m :
  emits (S:=S) m (fun evs _ => one_update cs pod evs) ->
  emits (patch_state m) (fun evs _ => one_update cs pod evs).
Proof.
  intros Hm. eapply emits_bind; [exact Hm|]. intros evs [[u gp] e] Hc.
  apply emits_skip; [destruct (_ && _); [by apply silent_expectPod|by apply emits_ret]|].
  apply emits_ret. by rewrite app_nil_r.
Qed.

Lemma do_inplace_one cs old rev pod other :
  Hooks.GetPodLifecycleState pod ∈ [""; LifecycleStatePreparingNormal; LifecycleStateNormal;
    LifecycleStatePreparingUpdate; LifecycleStateUpdating]%string ->
  (Hooks.IsPodHooked (inPlace_hook cs) pod = false \/
   Hooks.GetPodLifecycleState pod = LifecycleStateUpdating) ->
  emits (S:=S) other (fun evs _ => one_update cs pod evs) ->
  emits (do_inplace cs old rev pod other) (fun evs _ => one_update cs pod evs).
Proof.
  intros Hst Hhook Hother. unfold do_inplace. cbn zeta.
  eapply emits_bind with (P := fun evs res =>
    evs = if ur_InPlaceUpdate res
          then [EvInPlaceUpdate pod (cr_name rev) LifecycleStateUpdating (is_ok (ur_UpdateErr res))] else []);
    [by apply emits_call|].
  intros evs res ->. destruct (ur_InPlaceUpdate res); [|exact Hother].
  assert (Hone : one_update cs pod ([EvInPlaceUpdate pod (cr_name rev) LifecycleStateUpdating (is_ok (ur_UpdateErr res))] ++ [])).
  { split; [done|]. split; [|auto]. intros p s Hin. cbn in Hin.
    apply elem_of_cons in Hin as [[= -> ->]|Hin]; [by apply us_start|by apply not_elem_of_nil in Hin]. }
  destruct (ur_UpdateErr res) as [err|]; [by apply emits_ret|].
  apply emits_skip; [by apply emits_silent|]. by apply emits_ret.
Qed.

Lemma prepare_one cs pod mark :
  Hooks.GetPodLifecycleState pod ∈ [""; LifecycleStatePreparingNormal; LifecycleStateNormal]%string ->
  emits (S:=S) (UpdatePodLifecycle nowStr pod LifecycleStatePreparingUpdate mark)
    (fun evs _ => one_update cs pod evs).
Proof.
  intros Hst. eapply emits_mono; [apply UpdatePodLifecycle_emits|].
  intros evs r [[-> _]|(_ & _ & ->)]; [apply one_update_nil|]. apply one_update_patch.
  intros s Hs. cbn in Hs. rewrite lookup_insert_eq in Hs. injection Hs as <-. apply us_prepare. set_solver.
Qed.

Lemma prepare_handler_one cs pod :
  hook_ok cs -> Hooks.GetPodLifecycleState pod = LifecycleStateUpdated ->
  emits (S:=S) (UpdatePodLifecycleWithHandler nowStr pod LifecycleStatePreparingUpdate (inPlace_hook cs))
    (fun evs _ => one_update cs pod evs).
Proof.
  intros Hok Hst. unfold UpdatePodLifecycleWithHandler.
  destruct (inPlace_hook cs) as [h|] eqn:Eh; [|apply emits_ret; apply one_update_nil].
  eapply emits_bind with (P := fun evs _ => evs = []).
  - destruct (MarkPodNotReady h); [apply policy_silent|by apply emits_ret].
  - intros evs e ->. destruct e; [apply emits_ret, one_update_nil|].
    destruct (String.eqb _ _); [apply emits_ret, one_update_nil|].
    apply patch_tail_emits. intros r. apply one_update_patch. intros s Hs. cbn in Hs.
    rewrite lookup_union, (Hok h Eh), lookup_insert_eq in Hs. injection Hs as <-.
    rewrite Hst. apply us_prepare. set_solver.
Qed.

Lemma updatePod_one cs rev revisions pod :
  hook_ok cs -> emits (updatePod (S:=S) nowStr cs rev revisions pod) (fun evs _ => one_update cs pod evs).
Proof.
  intros Hok. unfold updatePod. destruct (_ || _); [|apply recreate_pod_one].
  set (old := find _ _). set (back := if String.eqb (update_Type cs) InPlaceOnly then _ else _).
  assert (Hback : emits (S:=S) back (fun evs _ => one_update cs pod evs)).
  { unfold back. destruct (String.eqb _ _); [apply emits_ret, one_update_nil|apply recreate_pod_one]. }
  destruct (CanUpdateInPlace old rev (grace_of cs)); [|done].
  destruct (_ || String.eqb (Hooks.GetPodLifecycleState pod) LifecycleStateNormal) eqn:E1.
  { assert (Hst : Hooks.GetPodLifecycleState pod ∈ [""; LifecycleStatePreparingNormal; LifecycleStateNormal]%string).
    { apply orb_true_iff in E1 as [E1|E1]; [apply orb_true_iff in E1 as [E1|E1]|];
        apply String.eqb_eq in E1; rewrite E1; set_solver. }
    destruct (Hooks.IsPodHooked (inPlace_hook cs) pod) eqn:Eh.
    - apply patch_state_one, prepare_one, Hst.
    - apply do_inplace_one; [set_solver|by left|done]. }
  destruct (String.eqb_spec (Hooks.GetPodLifecycleState pod) LifecycleStateUpdated) as [E2|_].
  { by apply patch_state_one, prepare_handler_one. }
  destruct (String.eqb_spec (Hooks.GetPodLifecycleState pod) LifecycleStatePreparingUpdate) as [E3|_].
  { destruct (Hooks.IsPodHooked (inPlace_hook cs) pod) eqn:Eh; [apply emits_ret, one_update_nil|].
    apply do_inplace_one; [rewrite E3; set_solver|by left|done]. }
  destruct (String.eqb_spec (Hooks.GetPodLifecycleState pod) LifecycleStateUpdating) as [E4|_].
  { apply do_inplace_one; [rewrite E4; set_solver|by right|done]. }
  apply emits_ret, one_update_nil.
Qed.
End Writes.

(** ** What a call of [Update] can do *)

Lemma wait_indexes_elem f pods i0 i :
  i ∈ wait_indexes i0 f pods -> exists p, pods !! (i - i0)%nat = Some p /\ f p = true /\ (i0 <= i)%nat.
Proof.
  revert i0. induction pods as [|p pods IH]; intros i0; simpl; [intros Hi; by apply not_elem_of_nil in Hi|].
  assert (Hrec : i ∈ wait_indexes (S i0) f pods ->
    exists q, (p :: pods) !! (i - i0)%nat = Some q /\ f q = true /\ (i0 <= i)%nat).
  { intros Hi. apply IH in Hi as (q & Hq & Hf & Hle). exists q.
    replace (i - i0)%nat with (S (i - S i0)) by lia. split; [done|]. split; [done|lia]. }
  destruct (f p) eqn:Ef; [|done]. intros Hi. apply elem_of_cons in Hi as [->|Hi]; [|auto].
  exists p. rewrite Nat.sub_diag. done.
Qed.

Section UpdateBounds.
Context {S : Type} `{Api S} `{GoSort}.
Context (g : Gates) (now : Z) (nowStr : string).
Context (cs : CloneSet) (currentRevision updateRevision : ControllerRevision)
        (revisions : list ControllerRevision) (pods : list Pod).

(** The differences [Update] acts on, and the pods it picks. *)
Definition update_diffs_of : expectationDiffs :=
  calculateDiffsWithExpectation g now cs pods (cr_name currentRevision) (cr_name updateRevision) None.
Definition target_of : ControllerRevision :=
  if updateNum update_diffs_of <? 0 then currentRevision else updateRevision.
Definition picked : list nat :=
  limitUpdateIndexes now (spec_MinReadySeconds cs) update_diffs_of
    (SortUpdateIndexes cs pods
       (wait_indexes 0 (can_wait (updateNum update_diffs_of) (cr_name updateRevision)) pods))
    pods (cr_name target_of).

Definition hook_respected (evs : list Event) : Prop :=
  forall p, p ∈ inplaced evs ->
    Hooks.IsPodHooked (inPlace_hook cs) p = false \/
    Hooks.GetPodLifecycleState p = LifecycleStateUpdating.

Lemma inplaced_app a b : inplaced (a ++ b) = inplaced a ++ inplaced b.
Proof. apply omap_app. Qed.

Lemma inplaced_disrupted evs p : p ∈ inplaced evs -> p ∈ disrupted evs.
Proof.
  unfold inplaced, disrupted. rewrite !list_elem_of_omap. intros (ev & Hin & Hev). exists ev.
  split; [done|]. by destruct ev.
Qed.

Lemma update_all_emits key target idx :
  hook_ok cs ->
  emits (update_all (S:=S) g nowStr cs key target revisions pods idx) (fun evs _ =>
    disrupted evs `sublist_of` map (pod_at pods) idx /\ steps_ok evs /\ hook_respected evs).
Proof.
  intros Hok.
  assert (Hnil : forall l, disrupted [] `sublist_of` map (pod_at pods) l /\ steps_ok [] /\ hook_respected []).
  { intros l. split; [apply sublist_nil_l|]. split; [apply steps_ok_nil|]. intros p Hp. by apply not_elem_of_nil in Hp. }
  induction idx as [|i idx IH]; cbn [update_all]; [by apply emits_ret|].
  cbv zeta. set (go := bind (updatePod nowStr cs target revisions (pod_at pods i)) _).
  assert (Hgo : emits (S:=S) go (fun evs _ =>
    disrupted evs `sublist_of` map (pod_at pods) (i :: idx) /\ steps_ok evs /\ hook_respected evs)).
  { unfold go. eapply emits_bind; [by apply updatePod_one|]. intros evs [d e] (Hd & Hs & Hh).
    assert (Hresp : hook_respected evs).
    { intros p Hp. pose proof (inplaced_disrupted _ _ Hp) as Hp'.
      assert (p = pod_at pods i) as ->.
      { eapply elem_of_submseteq in Hp'; [|by apply sublist_submseteq].
        by apply list_elem_of_singleton in Hp'. }
      apply Hh. intros Hz. rewrite Hz in Hp. by apply not_elem_of_nil in Hp. }
    apply emits_skip; [by apply silent_push|]. cbn [map].
    change (pod_at pods i :: map (pod_at pods) idx) with ([pod_at pods i] ++ map (pod_at pods) idx).
    destruct e as [err|].
    - apply emits_ret. rewrite app_nil_r. split; [|done]. by apply sublist_inserts_r.
    - eapply emits_mono; [exact IH|]. intros evs' a (Hd' & Hs' & Hh'). cbv beta. split; [|split].
      + rewrite disrupted_app. by apply sublist_app.
      + by apply steps_ok_app.
      + intros p Hp. rewrite inplaced_app in Hp. apply elem_of_app in Hp as [Hp|Hp]; auto. }
  destruct (g_PodUnavailableBudgetUpdateGate g); [|done].
  eapply emits_bind with (P := fun evs _ => evs = []); [by apply emits_call|].
  intros evs [allowed e] ->. destruct e; [by apply emits_ret|].
  destruct (negb allowed); [|done]. apply emits_skip; [by apply emits_silent|by apply emits_ret].
Qed.

Lemma Update_emits :
  hook_ok cs ->
  emits (Update (S:=S) g now nowStr cs currentRevision updateRevision revisions pods) (fun evs _ =>
    (disrupted evs = [] \/
     (disrupted evs `sublist_of` map (pod_at pods) picked /\ update_Paused cs = false)) /\
    steps_ok evs /\ hook_respected evs).
Proof.
  intros Hok. unfold Update. eapply emits_bind; [apply refresh_all_calm|].
  intros evs [modified e] [Hd Hs].
  assert (Hresp : hook_respected evs).
  { intros p Hp. apply inplaced_disrupted in Hp. rewrite Hd in Hp. by apply not_elem_of_nil in Hp. }
  assert (Hstop : forall r, emits (S:=S) (ret (A:=option error) r) (fun evs' _ =>
    (disrupted (evs ++ evs') = [] \/
     (disrupted (evs ++ evs') `sublist_of` map (pod_at pods) picked /\ update_Paused cs = false)) /\
    steps_ok (evs ++ evs') /\ hook_respected (evs ++ evs'))).
  { intros r. apply emits_ret. rewrite app_nil_r. auto. }
  destruct e; [apply Hstop|]. destruct modified; [apply Hstop|].
  destruct (update_Paused cs) eqn:Ep; [apply Hstop|].
  fold update_diffs_of. destruct (updateNum update_diffs_of =? 0); [apply Hstop|].
  fold target_of. fold picked. eapply emits_mono; [by apply update_all_emits|].
  intros evs' a (Hd' & Hs' & Hh'). cbv beta. split; [|split].
  - right. split; [|done]. by rewrite disrupted_app, Hd.
  - by apply steps_ok_app.
  - intros p Hp. rewrite inplaced_app in Hp. apply elem_of_app in Hp as [Hp|Hp]; auto.
Qed.

(** C31: The lifecycle is a state machine.  For a CloneSet whose in-place hook does not itself set
    the lifecycle label, and whatever the server answers, every write of [Update] that gives a pod a
    lifecycle state (a patch of the label, or an in-place update that is asked to set a state) moves
    the pod it is sent for along an edge of [update_step] from the state the pod was in, and no pod
    is updated in place while its in-place hook still holds it, unless the update had already
    begun. *)
Theorem update_follows_lifecycle :
  hook_ok cs ->
  emits (Update (S:=S) g now nowStr cs currentRevision updateRevision revisions pods) (fun evs _ =>
    (forall p s, (p, s) ∈ omap new_state evs -> update_step (Hooks.GetPodLifecycleState p) s) /\
    (forall p, p ∈ inplaced evs ->
       Hooks.IsPodHooked (inPlace_hook cs) p = false \/
       Hooks.GetPodLifecycleState p = LifecycleStateUpdating)).
Proof. intros Hok. eapply emits_mono; [by apply Update_emits|]. intros evs _ (_ & Hs & Hh). done. Qed.

Lemma countb_map {A B} (f : B -> bool) (h : A -> B) l : countb f (map h l) = countb (fun x => f (h x)) l.
Proof. induction l as [|x l IH]; simpl; [done|]. by rewrite IH. Qed.

Context (replicas : Z) (Hr : spec_Replicas cs = Some replicas)
        (Hb : 0 <= replicas <= int32_max) (Hn : len pods <= int32_max).

Lemma picked_spec :
  let avail := available now cs in
  len picked <= Z.abs (updateNum update_diffs_of) /\
  (forall p, p ∈ map (pod_at pods) picked ->
     p ∈ pods /\ can_wait (updateNum update_diffs_of) (cr_name updateRevision) p = true) /\
  (countb avail (map (pod_at pods) picked) = 0 \/
   replicas - l_maxUnavailable (limits_of cs)
   <= countb avail pods - countb avail (map (pod_at pods) picked)).
Proof.
  intros avail.
  assert (Hub : - 2 ^ 40 <= updateNum update_diffs_of <= 2 ^ 40)
    by (apply (the_update_bounds g now cs pods _ _ None replicas Hr Hb Hn)).
  destruct (limitUpdateIndexes_eq now (spec_MinReadySeconds cs) update_diffs_of
    (SortUpdateIndexes cs pods
       (wait_indexes 0 (can_wait (updateNum update_diffs_of) (cr_name updateRevision)) pods))
    pods (cr_name target_of) Hub) as (n & Hp & Hl & _ & Hk). fold picked in Hp, Hl, Hk.
  split; [done|]. split.
  - intros p Hin. apply list_elem_of_fmap in Hin as (i & -> & Hi).
    rewrite Hp in Hi. apply subseteq_take in Hi. rewrite SortUpdateIndexes_perm in Hi.
    apply wait_indexes_elem in Hi as (p & Hlk & Hf & _). rewrite Nat.sub_0_r in Hlk.
    unfold pod_at. rewrite Hlk. simpl. split; [|done]. by eapply list_elem_of_lookup_2.
  - rewrite countb_map. fold avail in Hk. cbv zeta in Hk. destruct Hk as [Hk|Hk]; [by left|].
    destruct (decide (updateNum update_diffs_of = 0)) as [Hz|Hz].
    + left. rewrite Hz in Hl. destruct picked; [done|simpl in Hl; lia].
    + right. pose proof (the_update_limit g now cs pods _ _ None replicas Hr Hb Hn Hz) as Hlim.
      fold update_diffs_of in Hlim. rewrite Hlim in Hk.
      pose proof (countb_split avail pods). unfold avail, available in *. lia.
Qed.

Lemma Update_available :
  hook_ok cs ->
  let avail := available now cs in
  emits (Update (S:=S) g now nowStr cs currentRevision updateRevision revisions pods) (fun evs _ =>
    len (disrupted evs) <= Z.abs (updateNum update_diffs_of) /\
    (forall p, p ∈ disrupted evs ->
       p ∈ pods /\ can_wait (updateNum update_diffs_of) (cr_name updateRevision) p = true) /\
    (update_Paused cs = true -> disrupted evs = []) /\
    (countb avail (disrupted evs) = 0 \/
     replicas - l_maxUnavailable (limits_of cs) <= countb avail pods - countb avail (disrupted evs))).
Proof.
  intros Hok avail. destruct picked_spec as (Hl & Hin & Hk). fold avail in Hk.
  eapply emits_mono; [by apply Update_emits|]. intros evs r [[Hz|[Hs Hp]] _]; clear r.
  - rewrite Hz. simpl. split; [lia|]. split; [intros p Hp; by apply not_elem_of_nil in Hp|auto].
  - pose proof (sublist_length _ _ Hs) as Hlen. rewrite length_map in Hlen.
    pose proof (countb_sublist avail _ _ Hs) as Hc. pose proof (countb_nonneg avail (disrupted evs)).
    split; [lia|]. split; [|split].
    + intros p Hd. apply Hin. eapply elem_of_submseteq; [exact Hd|by apply sublist_submseteq].
    + intros Hpa. congruence.
    + destruct Hk; [left|right]; lia.
Qed.

(** [maxUnavailable] is respected by updates.  One call of [Update] disrupts
    (updates in place, prepares for an update or marks for deletion) at most
    [|updateNum|] pods, each a pod of the CloneSet that waits for the update; none
    when the update is paused; and if it disrupts any available pod, at least
    [replicas - maxUnavailable] available pods are left alone. *)
Theorem update_keeps_available :
  hook_ok cs ->
  let avail := available now cs in
  emits (Update (S:=S) g now nowStr cs currentRevision updateRevision revisions pods) (fun evs _ =>
    len (disrupted evs) <= Z.abs (updateNum update_diffs_of) /\
    (forall p, p ∈ disrupted evs ->
       p ∈ pods /\ can_wait (updateNum update_diffs_of) (cr_name updateRevision) p = true) /\
    (update_Paused cs = true -> disrupted evs = []) /\
    (countb avail (disrupted evs) = 0 \/
     replicas - l_maxUnavailable (limits_of cs) <= countb avail pods - countb avail (disrupted evs))).
Proof. exact Update_available. Qed.
End UpdateBounds.

(** ** cloneset_status.go *)

Record CloneSetStatus := mkStatus {
  st_ObservedGeneration : Z;
  st_Replicas : Z;
  st_ReadyReplicas : Z;
  st_AvailableReplicas : Z;
  st_UpdatedReplicas : Z;
  st_UpdatedReadyReplicas : Z;
  st_UpdatedAvailableReplicas : Z;
  st_ExpectedUpdatedReplicas : Z;
  st_UpdateRevision : string;
  st_CurrentRevision : string;
  st_LabelSelector : string;
}.

(** One turn of the loop of [calculateStatus]. *)
Definition status_pod (now : Z) (cs : CloneSet) (s : CloneSetStatus) (pod : Pod) : CloneSetStatus :=
  let ready := IsPodUpdateReady now pod 0 in
  let avail := IsPodAvailable now pod (spec_MinReadySeconds cs) in
  let updated := Revision.EqualToRevisionHash pod (st_UpdateRevision s) in
  mkStatus (st_ObservedGeneration s)
    (st_Replicas s + 1)
    (if ready then st_ReadyReplicas s + 1 else st_ReadyReplicas s)
    (if avail then st_AvailableReplicas s + 1 else st_AvailableReplicas s)
    (if updated then st_UpdatedReplicas s + 1 else st_UpdatedReplicas s)
    (if updated && ready then st_UpdatedReadyReplicas s + 1 else st_UpdatedReadyReplicas s)
    (if updated && avail then st_UpdatedAvailableReplicas s + 1 else st_UpdatedAvailableReplicas s)
    (st_ExpectedUpdatedReplicas s) (st_UpdateRevision s) (st_CurrentRevision s) (st_LabelSelector s).

Definition calculateStatus (now : Z) (cs : CloneSet) (newStatus : CloneSetStatus) (pods : list Pod)
  : CloneSetStatus :=
  let s := fold_left (status_pod now cs) pods newStatus in
  let replicas := default 0 (spec_Replicas cs) in
  let current := if (st_UpdatedReplicas s =? st_Replicas s) && (st_Replicas s =? replicas)
                 then st_UpdateRevision s else st_CurrentRevision s in
  let expected := match Num.CalculatePartitionReplicas (update_Partition cs) (spec_Replicas cs) with
                  | Some partition => replicas - partition
                  | None => st_ExpectedUpdatedReplicas s
                  end in
  mkStatus (st_ObservedGeneration s) (st_Replicas s) (st_ReadyReplicas s) (st_AvailableReplicas s)
    (st_UpdatedReplicas s) (st_UpdatedReadyReplicas s) (st_UpdatedAvailableReplicas s)
    expected (st_UpdateRevision s) current (st_LabelSelector s).

Definition inconsistentStatus (oldStatus newStatus : CloneSetStatus) : bool :=
  (st_ObservedGeneration oldStatus <? st_ObservedGeneration newStatus)
  || negb (st_Replicas newStatus =? st_Replicas oldStatus)
  || negb (st_ReadyReplicas newStatus =? st_ReadyReplicas oldStatus)
  || negb (st_AvailableReplicas newStatus =? st_AvailableReplicas oldStatus)
  || negb (st_UpdatedReadyReplicas newStatus =? st_UpdatedReadyReplicas oldStatus)
  || negb (st_UpdatedReplicas newStatus =? st_UpdatedReplicas oldStatus)
  || negb (st_UpdatedAvailableReplicas newStatus =? st_UpdatedAvailableReplicas oldStatus)
  || negb (st_ExpectedUpdatedReplicas newStatus =? st_ExpectedUpdatedReplicas oldStatus)
  || negb (String.eqb (st_UpdateRevision newStatus) (st_UpdateRevision oldStatus))
  || negb (String.eqb (st_CurrentRevision newStatus) (st_CurrentRevision oldStatus))
  || negb (String.eqb (st_LabelSelector newStatus) (st_LabelSelector oldStatus)).

(** The status [doReconcile] starts from: no counts. *)
Definition fresh_status (generation : Z) (update current selector : string) : CloneSetStatus :=
  mkStatus generation 0 0 0 0 0 0 0 update current selector.

Lemma status_fold now cs pods s :
  let up p := Revision.EqualToRevisionHash p (st_UpdateRevision s) in
  let ready p := IsPodUpdateReady now p 0 in
  let avail p := IsPodAvailable now p (spec_MinReadySeconds cs) in
  fold_left (status_pod now cs) pods s
  = mkStatus (st_ObservedGeneration s) (st_Replicas s + len pods)
      (st_ReadyReplicas s + countb ready pods) (st_AvailableReplicas s + countb avail pods)
      (st_UpdatedReplicas s + countb up pods)
      (st_UpdatedReadyReplicas s + countb (fun p => up p && ready p) pods)
      (st_UpdatedAvailableReplicas s + countb (fun p => up p && avail p) pods)
      (st_ExpectedUpdatedReplicas s) (st_UpdateRevision s) (st_CurrentRevision s) (st_LabelSelector s).
Proof.
  revert s. induction pods as [|p pods IH]; intros s; cbv zeta; cbn [fold_left].
  - destruct s. simpl. f_equal; lia.
  - rewrite IH. unfold status_pod. cbn [st_ObservedGeneration st_Replicas st_ReadyReplicas st_AvailableReplicas
      st_UpdatedReplicas st_UpdatedReadyReplicas st_UpdatedAvailableReplicas st_ExpectedUpdatedReplicas
      st_UpdateRevision st_CurrentRevision st_LabelSelector countb length].
    destruct (IsPodUpdateReady now p 0), (IsPodAvailable now p (spec_MinReadySeconds cs)),
      (Revision.EqualToRevisionHash p (st_UpdateRevision s)); cbn [andb]; f_equal; lia.
Qed.

Lemma available_update_ready now p m : IsPodAvailable now p m = true -> IsPodUpdateReady now p 0 = true.
Proof.
  intros H. apply available_ready in H. unfold isPodReady, IsPodAvailable in H. by destruct (_ && _).
Qed.

(** The status counts the pods: [replicas] is the number of pods, every counter
    is non-negative, available pods are ready pods, and the updated counters are at
    most the total ones; the current revision moves to the update revision exactly
    when all pods are updated and there are as many as the spec asks for; and the
    expected number of updated replicas lies between [0] and [spec.replicas]. *)
Theorem status_counts now cs pods gen upd cur sel replicas :
  spec_Replicas cs = Some replicas -> 0 <= replicas ->
  let s := calculateStatus now cs (fresh_status gen upd cur sel) pods in
  st_Replicas s = len pods /\
  0 <= st_UpdatedAvailableReplicas s <= st_UpdatedReadyReplicas s /\
  st_UpdatedReadyReplicas s <= st_UpdatedReplicas s <= st_Replicas s /\
  st_UpdatedAvailableReplicas s <= st_AvailableReplicas s <= st_ReadyReplicas s /\
  st_UpdatedReadyReplicas s <= st_ReadyReplicas s <= st_Replicas s /\
  st_CurrentRevision s
    = (if forallb (fun p => Revision.EqualToRevisionHash p upd) pods && (len pods =? replicas)
       then upd else cur) /\
  0 <= st_ExpectedUpdatedReplicas s <= replicas.
Proof.
  intros Hr Hb s. unfold s, calculateStatus. rewrite status_fold, Hr.
  cbn [st_ObservedGeneration st_Replicas st_ReadyReplicas st_AvailableReplicas
      st_UpdatedReplicas st_UpdatedReadyReplicas st_UpdatedAvailableReplicas st_ExpectedUpdatedReplicas
      st_UpdateRevision st_CurrentRevision st_LabelSelector fresh_status from_option id].
  rewrite !Z.add_0_l.
  set (up := fun p => Revision.EqualToRevisionHash p upd).
  set (ready := fun p => IsPodUpdateReady now p 0).
  set (avail := fun p => IsPodAvailable now p (spec_MinReadySeconds cs)).
  change (fun p => Revision.EqualToRevisionHash p upd && IsPodUpdateReady now p 0)
    with (fun p => up p && ready p).
  change (fun p => Revision.EqualToRevisionHash p upd && IsPodAvailable now p (spec_MinReadySeconds cs))
    with (fun p => up p && avail p).
  assert (Har : forall p, avail p = true -> ready p = true) by (intros p; apply available_update_ready).
  assert (countb (fun p => up p && avail p) pods <= countb (fun p => up p && ready p) pods).
  { apply countb_mono. intros p. destruct (up p); [apply Har|done]. }
  assert (countb (fun p => up p && ready p) pods <= countb up pods)
    by (apply countb_mono; intros p; by destruct (up p)).
  assert (countb (fun p => up p && avail p) pods <= countb avail pods)
    by (apply countb_mono; intros p; by destruct (up p)).
  assert (countb (fun p => up p && ready p) pods <= countb ready pods)
    by (apply countb_mono; intros p; by destruct (up p)).
  assert (countb avail pods <= countb ready pods) by (by apply countb_mono).
  pose proof (countb_le_length up pods). pose proof (countb_le_length ready pods).
  pose proof (countb_nonneg (fun p => up p && avail p) pods).
  split; [done|]. split; [lia|]. split; [lia|]. split; [lia|]. split; [lia|]. split.
  - assert (Hall : (countb up pods =? len pods) = forallb up pods).
    { apply eq_true_iff_eq. rewrite Z.eqb_eq, forallb_forall. pose proof (countb_split up pods).
      assert (Hz : countb up pods = len pods <-> countb (fun p => negb (up p)) pods = 0) by lia.
      rewrite Hz, countb_zero. setoid_rewrite <-list_elem_of_In. setoid_rewrite negb_false_iff. done. }
    by rewrite Hall.
  - destruct (Num.CalculatePartitionReplicas (update_Partition cs) (Some replicas)) as [v|] eqn:E; [|lia].
    apply Num.CalculatePartitionReplicas_range in E; lia.
Qed.

(** ** Witnesses *)

Definition ex_rev (name : string) (n : Z) : ControllerRevision :=
  mkRevision name n ∅ "" 0 None "" "" ∅.
Definition ex_hashed (p : Pod) : Pod :=
  with_labels p (<[DefaultDeploymentUniqueLabelKey := "h"%string]> (p_labels p)).
Definition ex_update_pods : list Pod := map ex_hashed ex_pods.

(** Two of the four old pods are to be updated: the one that is not ready first, then
    one that is. *)
Example ex_update_disrupts :
  map p_name (disrupted (w_trace (Update (ex_gates false) 100 "now" (ex_cs [] (FromInt 0)) (ex_rev "v1" 1)
    (ex_rev "v2" 2) [ex_rev "v1" 1; ex_rev "v2" 2] ex_update_pods (ex_world ∅)).1))
  = ["p4"; "p1"]%string.
Proof. vm_compute. reflexivity. Qed.

Lemma ex_hook_ok : hook_ok (ex_cs [] (FromInt 0)).
Proof. intros h Hh. discriminate Hh. Qed.

(** A hook that holds pods with a label: [p4] in state Normal is held, [p1] waits in
    PreparingUpdate and is held no more. *)
Definition ex_hook : LifecycleHook := mkHook {["hold" := "true"]}%string [] false.
Definition ex_hook_cs : CloneSet :=
  mkCloneSet "sample" "default" ∅ (Some 5) 0 [] (Some (FromInt 3)) InPlaceIfPossible
    (Some (FromString "40%")) (Some (FromInt 2)) (Some (FromInt 0)) false None None None
    (Some (mkLifecycle None (Some ex_hook) None)) [] ∅ [] ∅.
Definition ex_with_state (name state hold : string) (p : Pod) : Pod :=
  if String.eqb (p_name p) name
  then with_labels p (<[LifecycleStateKey := state]> (<["hold" := hold]> (p_labels p)))%string else p.
Definition ex_hook_pods : list Pod :=
  map (fun p => ex_with_state "p4" LifecycleStateNormal "true" (ex_with_state "p1" LifecycleStatePreparingUpdate "false" p)) ex_update_pods.

Lemma update_follows_lifecycle_witness :
  let w' := (Update (ex_gates false) 100 "now" ex_hook_cs (ex_rev "v1" 1) (ex_rev "v2" 2) [ex_rev "v1" 1; ex_rev "v2" 2]
               ex_hook_pods (ex_world ∅)).1 in
  map (fun x => (p_name x.1, x.2)) (omap new_state (w_trace w'))
  = [("p1", LifecycleStateUpdating); ("p4", LifecycleStatePreparingUpdate)]%string /\
  exists evs, w_trace w' = [] ++ evs /\
    (forall p s, (p, s) ∈ omap new_state evs -> update_step (Hooks.GetPodLifecycleState p) s) /\
    (forall p, p ∈ inplaced evs ->
       Hooks.IsPodHooked (Some ex_hook) p = false \/ Hooks.GetPodLifecycleState p = LifecycleStateUpdating).
Proof.
  split; [by vm_compute|].
  apply (update_follows_lifecycle (S:=gset string) (ex_gates false) 100 "now" ex_hook_cs (ex_rev "v1" 1)
    (ex_rev "v2" 2) [ex_rev "v1" 1; ex_rev "v2" 2] ex_hook_pods).
  intros h [= <-]. by vm_compute.
Defined.

Lemma update_keeps_available_witness :
  exists evs,
    w_trace (Update (ex_gates false) 100 "now" (ex_cs [] (FromInt 0)) (ex_rev "v1" 1)
      (ex_rev "v2" 2) [ex_rev "v1" 1; ex_rev "v2" 2] ex_update_pods (ex_world ∅)).1 = [] ++ evs /\
    len (disrupted evs) <= 2 /\
    (forall p, p ∈ disrupted evs -> p ∈ ex_update_pods /\ can_wait 2 "v2" p = true) /\
    (false = true -> disrupted evs = []) /\
    (countb (available 100 (ex_cs [] (FromInt 0))) (disrupted evs) = 0 \/
     5 - 2 <= 4 - countb (available 100 (ex_cs [] (FromInt 0))) (disrupted evs)).
Proof.
  apply (update_keeps_available (S:=gset string) (ex_gates false) 100 "now" (ex_cs [] (FromInt 0)) (ex_rev "v1" 1)
    (ex_rev "v2" 2) [ex_rev "v1" 1; ex_rev "v2" 2] ex_update_pods 5 eq_refl ltac:(small) ltac:(small)
    ex_hook_ok (ex_world ∅)).
Defined.

Lemma status_counts_witness :
  let s := calculateStatus 100 (ex_cs [] (FromInt 0)) (fresh_status 1 "v2" "v1" "") ex_pods in
  st_Replicas s = 5 /\ 0 <= st_UpdatedAvailableReplicas s <= st_UpdatedReadyReplicas s /\
  st_UpdatedReadyReplicas s <= st_UpdatedReplicas s <= st_Replicas s /\
  st_UpdatedAvailableReplicas s <= st_AvailableReplicas s <= st_ReadyReplicas s /\
  st_UpdatedReadyReplicas s <= st_ReadyReplicas s <= st_Replicas s /\
  st_CurrentRevision s = "v1"%string /\ 0 <= st_ExpectedUpdatedReplicas s <= 5.
Proof.
  apply (status_counts 100 (ex_cs [] (FromInt 0)) ex_pods 1 "v2" "v1" "" 5); small.
Defined.
