(* ===== verification/CloneSetController.v ===== *)
(** * CloneSet: the reconcile loop

    pkg/controller/cloneset/cloneset_controller.go and cloneset_status.go: what surrounds
    [Scale] and [Update] in one reconcile of a CloneSet: the gates of the expectations, the
    ownership of pods and claims, the revisions, the status, and the truncation of the
    history and of [podsToDelete]. *)

From S2P Require Import Prelude GoLib GoText K8s Tools Expectations Lifecycle Selector UpdateSort CloneSetDiff World RevisionHistory RefManager PodSorter CloneSetScale CloneSetUpdate.
Open Scope Z_scope.
Open Scope kruise_scope.

(** A CloneSet with the parts that only the reconcile reads. *)
Record CloneSetObject := mkCSObject {
  co_set : CloneSet;
  co_uid : string;
  co_generation : Z;
  co_deletion : option Z;
  co_annotations : gmap string string;
  co_selector : option LabelSelector;
  co_DisablePVCReuse : bool;
  co_RevisionHistoryLimit : option Z;
  co_status : CloneSetStatus;
  co_CollisionCount : option Z;
}.
Definition co_key (cs : CloneSetObject) : string := GetControllerKey (co_set cs).
Definition co_owner (cs : CloneSetObject) : Owner :=
  mkRefOwner (CloneSetDiff.cs_name (co_set cs)) (cs_namespace (co_set cs)) (co_uid cs) (co_deletion cs).

(** The status that is written: the counters, the collision count and the conditions. *)
Record NewStatus := mkNewStatus {
  ns_status : CloneSetStatus;
  ns_CollisionCount : Z;
  ns_Conditions : list PodCondition;
}.
Definition with_ns_status (n : NewStatus) (s : CloneSetStatus) : NewStatus :=
  mkNewStatus s (ns_CollisionCount n) (ns_Conditions n).
Definition add_condition (n : NewStatus) (c : PodCondition) : NewStatus :=
  mkNewStatus (ns_status n) (ns_CollisionCount n) (ns_Conditions n ++ [c]).

(** The client of the reconciler, beyond [Api]; the lists are those of an index by the uid
    of the owner. *)
Class CloneSetApi (S : Type) := {
  cloneset_owner :: OwnerApi S;
  GetCloneSet : string -> string -> S -> error + CloneSetObject;
  ListOwnedPods : string -> string -> S -> error + list Pod;
  ListOwnedPVCs : string -> string -> S -> error + list PersistentVolumeClaim;
  UpdatePVC : PersistentVolumeClaim -> S -> S * option error;
  UpdatePodsToDelete : CloneSetObject -> list string -> S -> S * option error;
  UpdateCloneSetStatus_ : CloneSetObject -> NewStatus -> S -> S * option error;
  ListCloneSetRevisions : CloneSetObject -> S -> error + list ControllerRevision;
  CreateCloneSetPullJobs : CloneSetObject -> ControllerRevision -> ControllerRevision -> S -> S * option error;
  DeleteCloneSetJobs : CloneSetObject -> S -> S * option error;
}.

Definition CloneSetConditionFailedScale : string := "FailedScale".
Definition CloneSetConditionFailedUpdate : string := "FailedUpdate".
Definition ImagePreDownloadMinUpdatedReadyPods : string := "apps.kruise.io/image-predownload-min-updated-ready-pods".

(** ** Pods and claims *)

Section Owned.
Context {S : Type} `{IA : Api S} `{IC : CloneSetApi S}.

Definition GetActiveAndInactivePods (pods : list Pod) : list Pod * list Pod :=
  (filterb IsPodActive pods, filterb (fun p => negb (IsPodActive p)) pods).

Definition getOwnedPods (cs : CloneSetObject) : M S (error + list Pod * list Pod) :=
  do x <- read (ListOwnedPods (cs_namespace (co_set cs)) (co_uid cs));
  match x with
  | inl err => ret (inl err)
  | inr pods => ret (inr (GetActiveAndInactivePods pods))
  end.

Definition getOwnedPVCs (cs : CloneSetObject) : M S (error + list PersistentVolumeClaim) :=
  do x <- read (ListOwnedPVCs (cs_namespace (co_set cs)) (co_uid cs));
  match x with
  | inl err => ret (inl err)
  | inr pvcs => ret (inr (filterb (fun c => match pvc_deletion c with None => true | Some _ => false end) pvcs))
  end.

Definition updateOnePVC (pvc : PersistentVolumeClaim) : M S (option error) :=
  call (UpdatePVC pvc) (fun e => [EvUpdatePVC pvc (is_ok e)]).

Definition deleteOnePVC (key : string) (pvc : PersistentVolumeClaim) : M S (option error) :=
  expectScale key Scale.Delete (pvc_name pvc) ;;
  do e <- deletePVC pvc;
  match e with
  | Some err => observeScale key Scale.Delete (pvc_name pvc) ;; ret (Some err)
  | None => ret None
  end.

Definition updateClaimOwnerRefToPod (pvc : PersistentVolumeClaim) (cs : CloneSetObject) (pod : Pod)
  : PersistentVolumeClaim :=
  (SetOwnerRef (RemoveOwnerRef pvc (co_uid cs)).2 (p_name pod) (p_uid pod) "v1" "Pod").2.

(** The inactive pod of an id: the last one listed, as the map keeps it. *)
Definition inactive_of (inactivePods : list Pod) (id : string) : option Pod :=
  if String.eqb id "" then None else find (fun p => String.eqb (GetInstanceID p) id) (rev inactivePods).

Fixpoint hand_over (cs : CloneSetObject) (inactivePods : list Pod) (pvcs : list PersistentVolumeClaim)
  : M S (option error) :=
  match pvcs with
  | [] => ret None
  | pvc :: rest =>
      match inactive_of inactivePods (pvc_id pvc) with
      | None => hand_over cs inactivePods rest
      | Some pod =>
          do e <- updateOnePVC (updateClaimOwnerRefToPod pvc cs pod);
          match e with
          | Some err => if IsNotFound err then hand_over cs inactivePods rest else ret (Some err)
          | None => hand_over cs inactivePods rest
          end
      end
  end.

Fixpoint delete_all (key : string) (pvcs : list PersistentVolumeClaim) : M S (option error) :=
  match pvcs with
  | [] => ret None
  | pvc :: rest =>
      do e <- deleteOnePVC key pvc;
      match e with
      | Some err => if IsNotFound err then delete_all key rest else ret (Some err)
      | None => delete_all key rest
      end
  end.

(** The claims by the pod that has their instance id. *)
Inductive PVCUse := Active | Inactive | Unused.
Definition pvc_use (activePods inactivePods : list Pod) (pvc : PersistentVolumeClaim) : PVCUse :=
  if bool_decide (pvc_id pvc ∈ id_set (map GetInstanceID activePods)) then Active
  else match inactive_of inactivePods (pvc_id pvc) with Some _ => Inactive | None => Unused end.
Definition has_use (u : PVCUse) (activePods inactivePods : list Pod) (pvc : PersistentVolumeClaim) : bool :=
  match u, pvc_use activePods inactivePods pvc with
  | Active, Active | Inactive, Inactive | Unused, Unused => true
  | _, _ => false
  end.

Definition cleanupPVCs (cs : CloneSetObject) (activePods inactivePods : list Pod)
  (pvcs : list PersistentVolumeClaim) : M S (error + list PersistentVolumeClaim) :=
  let use u := filterb (has_use u activePods inactivePods) pvcs in
  do e <- hand_over cs inactivePods (use Inactive);
  match e with
  | Some err => ret (inl err)
  | None =>
      do e <- delete_all (co_key cs) (use Unused);
      match e with
      | Some err => ret (inl err)
      | None => ret (inr (use Active))
      end
  end.

(** [refmanager.New] fails on an invalid selector. *)
Definition claimPods (instance : CloneSetObject) (pods : list Pod) : M S (error + list Pod) :=
  match selector_matches (co_selector instance) ∅ with
  | None => ret (inl "is not a valid pod selector operator"%string)
  | Some _ =>
      let matches p := default false (selector_matches (co_selector instance) (p_labels p)) in
      do '(claimed, err) <- ClaimOwnedObjects (co_owner instance) true matches pods;
      match err with
      | Some e => ret (inl e)
      | None => ret (inr claimed)
      end
  end.

Definition truncatePodsToDelete (cs : CloneSetObject) (pods : list Pod) : M S (option error) :=
  let podsToDelete := scale_PodsToDelete (co_set cs) in
  if len podsToDelete =? 0 then ret None
  else
    let existingPods : gset string := list_to_set (map p_name pods) in
    let newPodsToDelete := filterb (fun n => bool_decide (n ∈ existingPods)) podsToDelete in
    if len newPodsToDelete =? len podsToDelete then ret None
    else call (UpdatePodsToDelete cs newPodsToDelete) (fun e => [EvUpdateSpec newPodsToDelete (is_ok e)]).
End Owned.

(** ** Revisions and status *)

Definition NextRevision (revisions : list ControllerRevision) : Z :=
  match last revisions with
  | None => 1
  | Some r => wrap64 (cr_revision r + 1)
  end.

Section Controller.
Context {S : Type} `{IA : Api S} `{IC : CloneSetApi S} `{IR : RevisionApi S} `{IG : GoSort} `{IP : PopAny} `{II : IDGen}.
Context (g : Gates) (now : Z) (nowStr : string)
        (GetPodFromTemplate : CloneSet -> Pod) (spreadRanker : list Pod -> list string -> Ranker).
(** [getPatch] and [ApplyRevisionPatch], which encode and decode JSON; the hash of a
    revision; the text of a valid selector. *)
Context (EncodeTemplate : CloneSet -> error + string) (ApplyPatch : CloneSet -> string -> error + CloneSet).
Context (HashRevision : string -> Z -> string).
Context (SelectorString : option LabelSelector -> error + string).
(** [ExpectationTimeout] and [isPreDownloadDisabled], set by flags. *)
Context (ExpectationTimeout : Z) (isPreDownloadDisabled : bool).

Definition NewRevision (cs : CloneSetObject) (revision collisionCount : Z) : error + ControllerRevision :=
  match EncodeTemplate (co_set cs) with
  | inl err => inl err
  | inr patch =>
      let hash := HashRevision patch collisionCount in
      inr (mkRevision (ControllerRevisionName (CloneSetDiff.cs_name (co_set cs)) hash) revision
             (<[ControllerRevisionHashLabel := hash]> (spec_TemplateLabels (co_set cs))) patch 0
             (Some (co_uid cs)) "" "" (co_annotations cs))
  end.

Definition getActiveRevisions (cs : CloneSetObject) (revisions : list ControllerRevision)
  : M S ((error + ControllerRevision * ControllerRevision) * Z) :=
  let collisionCount := default 0 (co_CollisionCount cs) in
  match NewRevision cs (NextRevision revisions) collisionCount with
  | inl err => ret (inl err, collisionCount)
  | inr new => active_revisions (cs_namespace (co_set cs)) (CloneSetDiff.cs_name (co_set cs))
                 (st_CurrentRevision (co_status cs)) revisions new collisionCount
  end.

(** A revision that is in use. *)
Definition live_revision (pods : list Pod) (current update r : ControllerRevision) : bool :=
  String.eqb (cr_name r) (cr_name current) || String.eqb (cr_name r) (cr_name update)
  || existsb (fun p => Revision.EqualToRevisionHash p (cr_name r)) pods.
Definition truncateHistory (cs : CloneSetObject) (pods : list Pod) (revisions : list ControllerRevision)
  (current update : ControllerRevision) : M S (option error) :=
  truncate_history (live_revision pods current update) (default 10 (co_RevisionHistoryLimit cs)) revisions.

(** One try of [updateStatus]. *)
Definition status_try (cs : CloneSetObject) (newStatus : NewStatus) (u : unit) : M S (option error * unit) :=
  do x <- read (GetCloneSet (cs_namespace (co_set cs)) (CloneSetDiff.cs_name (co_set cs)));
  match x with
  | inl err => ret (Some err, u)
  | inr clone =>
      do e <- call (UpdateCloneSetStatus_ clone newStatus) (fun e => [EvUpdateStatus (is_ok e)]);
      ret (e, u)
  end.
(** [retry.DefaultBackoff] makes four steps. *)
Definition updateStatus (cs : CloneSetObject) (newStatus : NewStatus) : M S (option error) :=
  RetryOnConflict 4 (status_try cs newStatus) tt.

(** The error, and the status as the reconcile goes on with it. *)
Definition UpdateCloneSetStatus (cs : CloneSetObject) (newStatus : NewStatus) (pods : list Pod)
  : M S (option error * NewStatus) :=
  let newStatus := with_ns_status newStatus (calculateStatus now (co_set cs) (ns_status newStatus) pods) in
  if negb (inconsistentStatus (co_status cs) (ns_status newStatus)) then ret (None, newStatus)
  else do e <- updateStatus cs newStatus; ret (e, newStatus).

(** ** Scaling and updating *)

Definition failed_condition (t : string) (e : error) : PodCondition := mkCond t ConditionTrue now "" e.

Definition syncCloneSet (instance : CloneSetObject) (newStatus : NewStatus)
  (currentRevision updateRevision : ControllerRevision) (revisions : list ControllerRevision)
  (filteredPods : list Pod) (filteredPVCs : list PersistentVolumeClaim) : M S (option error * NewStatus) :=
  match co_deletion instance with
  | Some _ => ret (None, newStatus)
  | None =>
      match ApplyPatch (co_set instance) (cr_data currentRevision), ApplyPatch (co_set instance) (cr_data updateRevision) with
      | inl err, _ | _, inl err => ret (Some err, newStatus)
      | inr currentSet, inr updateSet =>
          do '(scaling, podsScaleErr) <- Scale g now nowStr GetPodFromTemplate spreadRanker currentSet updateSet
            (cr_name currentRevision) (cr_name updateRevision) filteredPods filteredPVCs;
          let newStatus := match podsScaleErr with
                           | Some e => add_condition newStatus (failed_condition CloneSetConditionFailedScale e)
                           | None => newStatus
                           end in
          if scaling : bool then ret (podsScaleErr, newStatus)
          else
            do podsUpdateErr <- Update g now nowStr updateSet currentRevision updateRevision revisions filteredPods;
            match podsUpdateErr with
            | Some e =>
                ret (match podsScaleErr with Some err => Some err | None => Some e end,
                     add_condition newStatus (failed_condition CloneSetConditionFailedUpdate e))
            | None => ret (podsScaleErr, newStatus)
            end
      end
  end.

(** ** The reconcile *)

(** The delay until the timeout of the expectations, or 0 after it. *)
Definition requeue_until (unsatisfiedDuration : Z) : Z :=
  if ExpectationTimeout <=? unsatisfiedDuration then 0 else ExpectationTimeout - unsatisfiedDuration.

(** The resource version of the update revision: the delay to wait, if any. *)
Definition observe_revision (r : ControllerRevision) : M S (option Z) :=
  ask_rv (fun s => (tt, RV.Observe s (cr_uid r) (cr_resourceVersion r))) ;;
  do '(isSatisfied, unsatisfiedDuration) <- ask_rv (fun s => RV.IsSatisfied s (cr_uid r) (cr_resourceVersion r) now);
  if isSatisfied : bool then ret None
  else if unsatisfiedDuration <? ExpectationTimeout then ret (Some (ExpectationTimeout - unsatisfiedDuration))
  else ask_rv (fun s => (tt, RV.Delete s (cr_uid r))) ;; ret None.

Fixpoint observe_pods (pods : list Pod) : M S (option Z) :=
  match pods with
  | [] => ret None
  | pod :: rest =>
      ask_rv (fun s => (tt, RV.Observe s (p_uid pod) (p_resourceVersion pod))) ;;
      do '(isSatisfied, unsatisfiedDuration) <- ask_rv (fun s => RV.IsSatisfied s (p_uid pod) (p_resourceVersion pod) now);
      if isSatisfied : bool then observe_pods rest else ret (Some (requeue_until unsatisfiedDuration))
  end.

(** The active pods that the set claims, and its claims. *)
Definition owned_objects (instance : CloneSetObject) : M S (error + list Pod * list PersistentVolumeClaim) :=
  do x <- getOwnedPods instance;
  match x with
  | inl err => ret (inl err)
  | inr (filteredPods, filterOutPods) =>
      do y <- getOwnedPVCs instance;
      match y with
      | inl err => ret (inl err)
      | inr filteredPVCs =>
          do z <- (if co_DisablePVCReuse instance then cleanupPVCs instance filteredPods filterOutPods filteredPVCs
                   else ret (inr filteredPVCs));
          match z with
          | inl err => ret (inl err)
          | inr filteredPVCs =>
              do p <- claimPods instance filteredPods;
              match p with
              | inl err => ret (inl err)
              | inr pods => ret (inr (pods, filteredPVCs))
              end
          end
      end
  end.

Definition pre_download (instance : CloneSetObject) (currentRevision updateRevision : ControllerRevision) : M S unit :=
  if isPreDownloadDisabled then ret tt
  else if negb (String.eqb (cr_name currentRevision) (cr_name updateRevision)) then
    let minUpdatedReadyPodsCount :=
      match co_annotations instance !! ImagePreDownloadMinUpdatedReadyPods with
      | Some v => default 0 (GetScaledValueFromIntOrPercent (Parse v) (default 0 (spec_Replicas (co_set instance))) true)
      | None => 0
      end in
    let updatedReadyReplicas :=
      if negb (String.eqb (cr_name updateRevision) (st_UpdateRevision (co_status instance))) then 0
      else st_UpdatedReadyReplicas (co_status instance) in
    if wrap32 minUpdatedReadyPodsCount <=? updatedReadyReplicas
    then do _ <- call (CreateCloneSetPullJobs instance currentRevision updateRevision) (fun _ => []); ret tt
    else ret tt
  else do _ <- call (DeleteCloneSetJobs instance) (fun _ => []); ret tt.

(** From the status on. *)
Definition sync_and_report (instance : CloneSetObject) (selector : string) (currentRevision updateRevision : ControllerRevision)
  (collisionCount : Z) (revisions : list ControllerRevision) (pods : list Pod) (pvcs : list PersistentVolumeClaim)
  : M S (Z * option error) :=
  let newStatus := mkNewStatus (fresh_status (co_generation instance) (cr_name updateRevision) (cr_name currentRevision) selector)
                     collisionCount [] in
  pre_download instance currentRevision updateRevision ;;
  do '(syncErr, newStatus) <- syncCloneSet instance newStatus currentRevision updateRevision revisions pods pvcs;
  do '(err, newStatus) <- UpdateCloneSetStatus instance newStatus pods;
  match err with
  | Some e => ret (0, Some e)
  | None =>
      do _ <- truncatePodsToDelete instance pods;
      do _ <- truncateHistory instance pods revisions currentRevision updateRevision;
      (if is_ok syncErr && (0 <? spec_MinReadySeconds (co_set instance))
          && negb (st_AvailableReplicas (ns_status newStatus) =? st_ReadyReplicas (ns_status newStatus))
       then pushDuration (co_key instance) (second * spec_MinReadySeconds (co_set instance)) else ret tt) ;;
      do d <- popDuration (co_key instance);
      ret (d, syncErr)
  end.

(** From the lists on. *)
Definition reconcile_owned (instance : CloneSetObject) (selector : string) : M S (Z * option error) :=
  do x <- owned_objects instance;
  match x with
  | inl err => ret (0, Some err)
  | inr (pods, pvcs) =>
      do y <- read (ListCloneSetRevisions instance);
      match y with
      | inl err => ret (0, Some err)
      | inr revisions =>
          let revisions := SortControllerRevisions revisions in
          do '(z, collisionCount) <- getActiveRevisions instance revisions;
          match z with
          | inl err => ret (0, Some err)
          | inr (currentRevision, updateRevision) =>
              do wait <- observe_revision updateRevision;
              match wait with
              | Some d => ret (d, None)
              | None =>
                  do wait <- observe_pods pods;
                  match wait with
                  | Some d => ret (d, None)
                  | None => sync_and_report instance selector currentRevision updateRevision collisionCount
                              revisions pods pvcs
                  end
              end
          end
      end
  end.

(** The body of [doReconcile]; [IsInitializing] of the common control is false. *)
Definition reconcile_body (namespace name : string) : M S (Z * option error) :=
  let key := namespace +:+ "/" +:+ name in
  do x <- read (GetCloneSet namespace name);
  match x with
  | inl err =>
      if IsNotFound err then on_scale (fun r => Scale.DeleteExpectations r key) ;; ret (0, None) else ret (0, Some err)
  | inr instance =>
      match SelectorString (co_selector instance) with
      | inl _ => ret (0, None)
      | inr selector =>
          do '(scaleSatisfied, unsatisfiedDuration, _) <- ask_scale (fun r => Scale.SatisfiedExpectations r key now);
          if negb scaleSatisfied then ret (requeue_until unsatisfiedDuration, None)
          else reconcile_owned instance selector
      end
  end.
Definition doReconcile (namespace name : string) : M S (Z * option error) :=
  do res <- reconcile_body namespace name;
  do _ <- popDuration (namespace +:+ "/" +:+ name);
  ret res.
End Controller.

(** ** What a sync takes away *)

(** The pod that a write takes away from the available ones: one that is deleted, or
    that an update disrupts. *)
Definition loses (ev : Event) : option Pod :=
  match ev with
  | EvDeletePod p ok => if ok then Some p else None
  | _ => disrupts ev
  end.
Definition lost (evs : list Event) : list Pod := omap loses evs.

Lemma lost_app a b : lost (a ++ b) = lost a ++ lost b.
Proof. apply omap_app. Qed.

Lemma lost_disrupted evs : lost evs `sublist_of` disrupted evs.
Proof.
  induction evs as [|ev evs IH]; [done|]. unfold lost, disrupted in *. cbn.
  destruct ev; repeat match goal with ok : bool |- _ => destruct ok end; cbn; try done; try (by constructor).
  all: destruct (_ || _); [by constructor|done].
Qed.

(** The writes of [Scale]: it disrupts pods only by deleting them. *)
Definition scale_write (ev : Event) : bool :=
  match ev with EvDeletePod _ _ => true | _ => is_nil (disrupts ev) end.

Lemma lost_deleted evs :
  Forall (fun ev => scale_write ev = true) evs -> lost evs `sublist_of` deleted evs.
Proof.
  induction 1 as [|ev evs Hev _ IH]; [done|]. unfold lost, deleted in *.
  destruct ev as [| p [] | | | p patch ok | | | | | | | | | | | | | | | | |]; cbn in *; try done; try (by constructor).
  by destruct (_ || _).
Qed.

Section ScaleLoses.
Context {S : Type} `{Api S} `{GoSort} `{PopAny} `{IDGen}.
Context (g : Gates) (now : Z) (nowStr : string)
        (GetPodFromTemplate : CloneSet -> Pod) (spreadRanker : list Pod -> list string -> Ranker).
Import LifecycleControl.

Lemma expectScale_only P k a n : only P (expectScale (S:=S) k a n).
Proof. by apply silent_expectScale. Qed.
Lemma observeScale_only P k a n : only P (observeScale (S:=S) k a n).
Proof. by apply silent_observeScale. Qed.
Lemma expectPod_only P p : only P (expectPod (S:=S) p).
Proof. by apply silent_expectPod. Qed.

(** A lifecycle patch to another state than PreparingUpdate disrupts no pod. *)
Lemma lifecycle_scale pod state mark :
  state <> LifecycleStatePreparingUpdate ->
  only (fun ev => is_nil (loses ev) && scale_write ev) (UpdatePodLifecycle (S:=S) nowStr pod state mark).
Proof.
  intros Hs. eapply emits_mono; [apply UpdatePodLifecycle_emits|].
  intros evs r [[-> _]|(_ & _ & ->)]; [constructor|]. constructor; [|constructor]. cbn.
  rewrite lookup_insert_eq, bool_decide_eq_false_2 by (by intros [= ?]).
  rewrite lookup_insert_ne, lookup_empty, bool_decide_eq_false_2 by (done || by intros [? ?]). done.
Qed.

(** A sequence of writes that takes no pod away. *)
Abbreviation harmless := (fun ev => is_nil (loses ev) && scale_write ev).

Lemma harmless_lost evs : Forall (fun ev => harmless ev = true) evs ->
  lost evs = [] /\ Forall (fun ev => scale_write ev = true) evs.
Proof.
  induction 1 as [|ev evs Hev _ [IHl IHs]]; [done|]. apply andb_true_iff in Hev as [Hl Hw].
  split; [|by constructor]. unfold lost in *. cbn. destruct (loses ev); [done|exact IHl].
Qed.

Lemma delete_pvcs_harmless key id pvcs : only harmless (delete_pvcs (S:=S) key id pvcs).
Proof.
  induction pvcs as [|c pvcs IH]; cbn [delete_pvcs]; [apply only_ret|]. destruct (negb _); [done|].
  apply only_bind; [apply expectScale_only|]. intros _.
  apply only_bind; [apply only_call; by repeat constructor|]. intros [err|]; [|done].
  apply only_bind; [apply observeScale_only|]. intros _. apply only_ret.
Qed.

(** Without a hook, [deletePods] answers "modified" once it has deleted a pod. *)
Definition told (cs : CloneSet) (modified : bool) (evs : list Event) (r : bool * option error) : Prop :=
  Forall (fun ev => scale_write ev = true) evs /\
  (preDelete_hook cs = None -> r.1 = false -> modified = false /\ lost evs = []).

Lemma told_app cs m evs1 evs2 r :
  Forall (fun ev => harmless ev = true) evs1 -> told cs m evs2 r -> told cs m (evs1 ++ evs2) r.
Proof.
  intros Hh1 [Hw Hl]. apply harmless_lost in Hh1 as [Hl1 Hw1]. split; [by apply Forall_app|].
  intros Hh Hr. destruct (Hl Hh Hr) as [? Hn]. split; [done|]. by rewrite lost_app, Hl1, Hn.
Qed.

(** Once a pod is deleted the answer stays "modified". *)
Lemma told_true cs m evs1 evs2 r :
  Forall (fun ev => scale_write ev = true) evs1 -> told cs true evs2 r -> told cs m (evs1 ++ evs2) r.
Proof.
  intros Hw1 [Hw Hl]. split; [by apply Forall_app|]. intros Hh Hr. by destruct (Hl Hh Hr).
Qed.

Lemma deletePods_told cs pvcs modified pods :
  emits (deletePods_loop (S:=S) nowStr cs pvcs modified pods) (told cs modified).
Proof.
  revert modified. induction pods as [|pod pods IH]; intros modified; cbn [deletePods_loop].
  { apply emits_ret. split; [constructor|]. auto. }
  destruct (Hooks.IsPodHooked _ pod) eqn:Ehook.
  - assert (Hn : preDelete_hook cs <> None) by (intros Hn; by rewrite Hn in Ehook).
    eapply emits_bind; [by apply lifecycle_scale|]. intros evs [[u gp] [err|]] Hevs.
    + apply emits_ret. rewrite app_nil_r. split; [by apply harmless_lost|done].
    + destruct u.
      * apply emits_skip; [by apply silent_expectPod|]. eapply emits_mono; [apply IH|].
        intros evs' r Ht. apply told_true; [by apply harmless_lost|done].
      * eapply emits_mono; [apply IH|]. intros evs' r Ht. by apply told_app.
  - apply emits_skip; [by apply silent_expectScale|].
    eapply emits_bind with (P := fun evs e => evs = [EvDeletePod pod (is_ok e)]); [by apply emits_call|].
    intros evs [err|] ->.
    + apply emits_skip; [by apply silent_observeScale|]. apply emits_ret. split; [by repeat constructor|done].
    + eapply emits_bind; [apply delete_pvcs_harmless|]. intros evs [err|] Hevs; apply harmless_lost in Hevs as [_ Hw].
      * apply emits_ret. split; [rewrite app_nil_r; by repeat constructor|done].
      * eapply emits_mono; [apply IH|]. intros evs' r Ht. rewrite app_assoc.
        apply told_true; [by constructor|done].
Qed.

(** Two stages, the second after the first answered "not modified". *)
Lemma told_next cs evs1 evs2 r1 r2 :
  r1.1 = false -> told cs false evs1 r1 -> told cs false evs2 r2 -> told cs false (evs1 ++ evs2) r2.
Proof.
  intros Hr1 [Hw1 Hl1] [Hw2 Hl2]. split; [by apply Forall_app|]. intros Hh Hr2.
  destruct (Hl1 Hh Hr1) as [_ E1], (Hl2 Hh Hr2) as [_ E2]. by rewrite lost_app, E1, E2.
Qed.

Lemma told_harmless cs evs r : Forall (fun ev => harmless ev = true) evs -> told cs false evs r.
Proof. intros Hevs. apply harmless_lost in Hevs as [Hl Hw]. by split. Qed.

Lemma emits_told {A} cs (m : M S A) : only harmless m -> forall f : A -> bool * option error,
  emits m (fun evs a => told cs false evs (f a)).
Proof. intros Hm f. eapply emits_mono; [exact Hm|]. intros evs a Hevs. by apply told_harmless. Qed.

Lemma cancel_harmless cs diff modified pods :
  only harmless (cancel_loop (S:=S) nowStr cs diff modified pods).
Proof.
  revert diff modified. induction pods as [|pod pods IH]; intros diff modified; cbn [cancel_loop]; [apply only_ret|].
  destruct (diff <=? 0); [apply only_ret|]. destruct (isSpecifiedDelete cs pod); [apply IH|].
  apply only_bind; [by apply lifecycle_scale|]. intros [[u gp] [err|]]; [apply only_ret|].
  destruct u; [|apply IH]. apply only_bind; [apply expectPod_only|]. intros _. apply IH.
Qed.

Lemma create_claims_harmless key ex claims : only harmless (create_claims (S:=S) key ex claims).
Proof.
  induction claims as [|c claims IH]; cbn [create_claims]; [apply only_ret|]. destruct (bool_decide _); [done|].
  apply only_bind; [apply expectScale_only|]. intros _.
  apply only_bind; [apply only_call; by repeat constructor|]. intros [err|]; [|done].
  apply only_bind; [apply observeScale_only|]. intros _. apply only_ret.
Qed.

Lemma create_call_harmless ccs ucs cr ex pod : only harmless (create_call (S:=S) nowStr ccs ucs cr ex pod).
Proof.
  apply only_bind; [apply create_claims_harmless|]. intros [err|]; [apply only_ret|].
  apply only_call. by repeat constructor.
Qed.

Lemma create_batch_only P (f : Pod -> M S (option error)) pods :
  (forall p, only P (f p)) -> only P (create_batch f pods).
Proof.
  intros Hf. induction pods as [|p pods IH]; cbn [create_batch]; [apply only_ret|].
  apply only_bind; [apply Hf|]. intros e. apply only_bind; [done|]. intros [names errs]. apply only_ret.
Qed.

Lemma create_slowly_only P (f : Pod -> M S (option error)) fuel chan b success :
  (forall p, only P (f p)) -> only P (create_slowly fuel f chan b success).
Proof.
  intros Hf. revert chan b success. induction fuel as [|fuel IH]; intros chan b success; cbn [create_slowly];
    [apply only_ret|]. destruct (0 <? b); [|apply only_ret].
  apply only_bind; [by apply create_batch_only|]. intros [names [|err errs]]; [apply IH|apply only_ret].
Qed.

Lemma create_new_pods_harmless ccs ucs cr ex newPods :
  only harmless (create_new_pods (S:=S) nowStr ccs ucs cr ex newPods).
Proof.
  unfold create_new_pods.
  apply only_bind; [eapply emits_mono; [apply expect_all_silent|by intros evs _ ->]|]. intros _.
  apply only_bind; [apply create_slowly_only; intros p; apply create_call_harmless|]. intros [success err].
  apply only_bind; [eapply emits_mono; [apply rollback_silent|by intros evs _ ->]|]. intros _. apply only_ret.
Qed.

Lemma maybe_delete_told cs (b : bool) l pvcs :
  emits (if b then deletePods (S:=S) nowStr cs l pvcs else ret (false, None)) (told cs false).
Proof. destruct b; [apply deletePods_told|]. apply emits_ret. by apply told_harmless. Qed.

Lemma Scale_told currentCS updateCS cr ur pods pvcs :
  emits (Scale (S:=S) g now nowStr GetPodFromTemplate spreadRanker currentCS updateCS cr ur pods pvcs)
    (told updateCS false).
Proof.
  unfold Scale. destruct (spec_Replicas updateCS); [|by apply emits_ret, told_harmless].
  destruct (negb _); [by apply emits_ret, told_harmless|]. destruct (getPlannedDeletedPods _ _) as [[spd pre] num].
  assert (Hnext : forall (m : M S (bool * option error)) evs r, told updateCS false evs r ->
    (stop r = false -> emits m (told updateCS false)) ->
    emits (if stop r then ret r else m) (fun evs' b => told updateCS false (evs ++ evs') b)).
  { intros m evs r Ht Hm. destruct (stop r) eqn:E; [apply emits_ret; by rewrite app_nil_r|].
    eapply emits_mono; [by apply Hm|]. intros evs' b Hb. eapply told_next; [|done..].
    unfold stop in E. by destruct (r.1). }
  eapply emits_bind with (P := told updateCS false).
  { unfold managePreparingDelete. destruct (Hooks.IsLifecycleMarkPodNotReady _); [by apply emits_ret, told_harmless|].
    apply (emits_told _ _ (cancel_harmless _ _ _ _) id). }
  intros evs r Ht. apply Hnext; [done|]. intros _. unfold scale_rest.
  destruct (Revision.GroupUpdateAndNotUpdatePods _ _ _) as [upd nup].
  destruct (0 <? scaleUpNum _); [apply (emits_told _ _ (create_new_pods_harmless _ _ _ _ _) id)|].
  eapply emits_bind; [apply maybe_delete_told|]. intros evs1 r1 Ht1. apply Hnext; [done|]. intros _.
  cbv zeta. destruct (if 0 <? len _ then limit_ready _ _ _ else _) as [can limit].
  eapply emits_bind; [apply maybe_delete_told|]. intros evs2 r2 Ht2. apply Hnext; [done|]. intros _.
  unfold scale_in. destruct (0 <? scaleDownNum _); [|by apply emits_ret, told_harmless].
  destruct (0 <? num); [by apply emits_ret, told_harmless|apply deletePods_told].
Qed.
End ScaleLoses.

Section SyncBounds.
Context {S : Type} `{IA : Api S} `{IG : GoSort} `{IP : PopAny} `{II : IDGen}.
Context (g : Gates) (now : Z) (nowStr : string)
        (GetPodFromTemplate : CloneSet -> Pod) (spreadRanker : list Pod -> list string -> Ranker)
        (ApplyPatch : CloneSet -> string -> error + CloneSet).
Context (instance : CloneSetObject) (newStatus : NewStatus) (currentRevision updateRevision : ControllerRevision)
        (revisions : list ControllerRevision) (pods : list Pod) (pvcs : list PersistentVolumeClaim).

(** The available pods that a sync may leave: all but what [maxUnavailable] allows, less
    the unavailable pods already specified for deletion. *)
Definition sync_floor (updateSet : CloneSet) (replicas : Z) : Z :=
  replicas - l_maxUnavailable (limits_of updateSet)
  - countb (fun p => negb (in_pre_delete p) && isSpecifiedDelete updateSet p && negb (available now updateSet p)) pods.

(** C1: [maxUnavailable] holds for a whole sync.  A sync may scale and then update with
    the pods it read at its start; nevertheless, when the CloneSet has no PreDelete hook,
    either the sync takes no available pod away (by a deletion, an in-place update, a
    mark for deletion or the state PreparingUpdate), or the available pods it leaves are
    at least [replicas - maxUnavailable], less the unavailable pods already specified
    for deletion.  The reason is that [Scale] answers "scaling" once it has deleted a
    pod, so that [Update] does not run on pods that are gone. *)
Theorem sync_keeps_available (updateSet : CloneSet) (replicas : Z) :
  ApplyPatch (co_set instance) (cr_data updateRevision) = inr updateSet ->
  spec_Replicas updateSet = Some replicas -> 0 <= replicas <= int32_max -> len pods <= int32_max ->
  hook_ok updateSet -> preDelete_hook updateSet = None ->
  let avail := available now updateSet in
  emits (S:=S) (syncCloneSet g now nowStr GetPodFromTemplate spreadRanker ApplyPatch instance newStatus
           currentRevision updateRevision revisions pods pvcs) (fun evs _ =>
    countb avail (lost evs) = 0 \/
    sync_floor updateSet replicas <= countb avail pods - countb avail (lost evs)).
Proof.
  intros Hp Hr Hb Hn Hok Hpre avail. unfold syncCloneSet.
  destruct (co_deletion instance); [apply emits_ret; by left|].
  destruct (ApplyPatch (co_set instance) (cr_data currentRevision)) as [err|currentSet]; [apply emits_ret; by left|].
  rewrite Hp. eapply emits_bind.
  { apply emits_and; [apply Scale_told|by apply (Scale_available (S:=S) g now nowStr GetPodFromTemplate spreadRanker
      currentSet updateSet (cr_name currentRevision) (cr_name updateRevision) pods pvcs replicas)]. }
  intros evs [scaling err] [[Hw Ht] Ha]. cbv beta in Ha. fold avail in Ha.
  pose proof (countb_sublist avail _ _ (lost_deleted evs Hw)) as Hle.
  assert (Hnn := countb_nonneg avail (lost evs)).
  destruct scaling.
  { apply emits_ret. rewrite app_nil_r. unfold sync_floor. fold avail. destruct Ha as [Ha|Ha]; [left|right]; lia. }
  destruct (Ht Hpre eq_refl) as [_ Hlost].
  eapply emits_bind.
  { apply (Update_available (S:=S) g now nowStr updateSet currentRevision updateRevision revisions pods replicas Hr Hb Hn Hok). }
  intros evs' uerr (_ & _ & _ & Hu). fold avail in Hu.
  pose proof (countb_sublist avail _ _ (lost_disrupted evs')) as Hle'.
  pose proof (countb_nonneg avail (lost evs')). pose proof (countb_nonneg
    (fun p => negb (in_pre_delete p) && isSpecifiedDelete updateSet p && negb (avail p)) pods).
  destruct uerr; apply emits_ret; rewrite app_nil_r, lost_app, Hlost; cbn [app]; unfold sync_floor; fold avail;
    destruct Hu as [Hu|Hu]; [left|right|left|right]; lia.
Qed.
End SyncBounds.

(** ** The gate of the expectations *)

Section Gate.
Context {S : Type} `{IA : Api S} `{IC : CloneSetApi S} `{IR : RevisionApi S} `{IG : GoSort} `{IP : PopAny} `{II : IDGen}.
Context (g : Gates) (now : Z) (nowStr : string)
        (GetPodFromTemplate : CloneSet -> Pod) (spreadRanker : list Pod -> list string -> Ranker)
        (EncodeTemplate : CloneSet -> error + string) (ApplyPatch : CloneSet -> string -> error + CloneSet)
        (HashRevision : string -> Z -> string) (SelectorString : option LabelSelector -> error + string)
        (ExpectationTimeout : Z) (isPreDownloadDisabled : bool).

(** No reconcile acts on a cache it knows to be stale.  While a pod or claim that
    the controller created or deleted for a CloneSet has not been observed yet, a
    reconcile of that CloneSet leaves the server as it is and sends no write, however
    long it has been waiting; the delay after which it asks to be called again is at
    most the expectation timeout; and the expectation stays, unless the CloneSet itself
    is gone. *)
Theorem reconcile_waits (namespace name : string) (a n : string) (w : World S) :
  let key := namespace +:+ "/" +:+ name in
  n ∈ Scale.pending (w_scale w) key a -> 0 <= ExpectationTimeout ->
  let '(w', (delay, err)) :=
    doReconcile g now nowStr GetPodFromTemplate spreadRanker EncodeTemplate ApplyPatch HashRevision
      SelectorString ExpectationTimeout isPreDownloadDisabled namespace name w in
  w_server w' = w_server w /\ w_trace w' = w_trace w /\
  (forall e, w_scale w !! key = Some e -> Scale.firstUnsatisfiedTimestamp e <= now -> 0 <= delay <= ExpectationTimeout) /\
  (n ∈ Scale.pending (w_scale w') key a \/
   exists e, GetCloneSet namespace name (w_server w) = inl e /\ IsNotFound e = true).
Proof.
  intros key Hn Ht. unfold doReconcile, reconcile_body, bind, read, call. cbn [w_server]. fold key.
  assert (Hsat : (Scale.SatisfiedExpectations (w_scale w) key now).1.1.1 = false).
  { apply not_true_iff_false. rewrite Scale.SatisfiedExpectations_pending. intros Hall. rewrite (Hall a) in Hn.
    by apply elem_of_empty in Hn. }
  pose proof (Scale.SatisfiedExpectations_duration (w_scale w) key now) as Hd.
  pose proof (Scale.pending_Satisfied (w_scale w) key now key a) as Hp.
  destruct (GetCloneSet namespace name (w_server w)) as [err|inst] eqn:Eg.
  - destruct (IsNotFound err) eqn:En; cbn; unfold popDuration; cbn; destruct (Requeue.Pop _ _); cbn;
      rewrite app_nil_r; split_and!; try done; try lia; [right; eauto|by left].
  - destruct (SelectorString (co_selector inst)) as [err|sel]; cbn.
    + unfold popDuration; cbn; destruct (Requeue.Pop _ _); cbn. rewrite app_nil_r.
      split_and!; try done; try lia. by left.
    + unfold ask_scale. cbn. destruct (Scale.SatisfiedExpectations (w_scale w) key now) as [[[sat d] x] r].
      cbn in *. subst sat. cbn. unfold popDuration; cbn; destruct (Requeue.Pop _ _); cbn. rewrite app_nil_r.
      split_and!; try done; [|left; by rewrite Hp]. intros e He Hle. specialize (Hd e He Hle).
      unfold requeue_until. destruct (ExpectationTimeout <=? d) eqn:E; zbool; lia.
Qed.
End Gate.

(** ** Claims that no active pod uses *)

Section Cleanup.
Context {S : Type} `{IA : Api S} `{IC : CloneSetApi S}.

(** The pod and the claim have the same instance id. *)
Definition uses (p : Pod) (c : PersistentVolumeClaim) : Prop :=
  pvc_id c <> ""%string /\ GetInstanceID p = pvc_id c.
Definition used_by (pods : list Pod) (c : PersistentVolumeClaim) : Prop := exists p, p ∈ pods /\ uses p c.

Lemma inactive_of_spec pods c :
  match inactive_of pods (pvc_id c) with Some p => p ∈ pods /\ uses p c | None => ~ used_by pods c end.
Proof.
  unfold inactive_of. destruct (String.eqb_spec (pvc_id c) "") as [E|E].
  - intros (p & _ & Hne & _). done.
  - destruct (find _ (rev pods)) as [p|] eqn:Ef.
    + apply find_some in Ef as [Hin Hp]. apply String.eqb_eq in Hp. split; [|done].
      apply list_elem_of_In. by apply in_rev.
    + intros (p & Hin & _ & Hp). apply list_elem_of_In, in_rev in Hin.
      pose proof (find_none _ _ Ef p Hin) as Hf. cbv beta in Hf. rewrite Hp, String.eqb_refl in Hf. done.
Qed.

Lemma active_spec pods c : pvc_id c ∈ id_set (map GetInstanceID pods) <-> used_by pods c.
Proof.
  unfold id_set. rewrite elem_of_list_to_set, filterb_elem, negb_true_iff, String.eqb_neq.
  rewrite list_elem_of_fmap. split.
  - intros [(p & Hid & Hp) Hne]. exists p. done.
  - intros (p & Hp & Hne & Hid). eauto.
Qed.

Lemma has_use_spec u act inact c :
  has_use u act inact c = true <->
  match u with
  | Active => used_by act c
  | Inactive => ~ used_by act c /\ used_by inact c
  | Unused => ~ used_by act c /\ ~ used_by inact c
  end.
Proof.
  unfold has_use, pvc_use. pose proof (active_spec act c) as Ha. pose proof (inactive_of_spec inact c) as Hi.
  case_bool_decide as Hd; [|destruct (inactive_of inact (pvc_id c)) as [p|]]; destruct u; split; try done;
    try (intros _; tauto); try tauto.
  all: try (intros _; split; [tauto|]; by exists p).
  all: try (intros [_ ?]; exfalso; tauto).
  all: try (intros [_ Hn]; exfalso; apply Hn; by exists p).
Qed.

(** The writes of one loop: at most one for each claim of the list, and with no error
    one for each. *)
Definition each_once (f : PersistentVolumeClaim -> bool -> Event) (l : list PersistentVolumeClaim)
  (evs : list Event) (e : option error) : Prop :=
  exists k oks, evs = zip_with f (take k l) oks /\ length oks = length (take k l) /\ (e = None -> k = length l).

Lemma each_once_nil f e : each_once f [] [] e.
Proof. by exists 0%nat, []. Qed.

Lemma each_once_cons f c l ok evs e : each_once f l evs e -> each_once f (c :: l) (f c ok :: evs) e.
Proof.
  intros (k & oks & -> & Hl & He). exists (Datatypes.S k), (ok :: oks). cbn. split; [done|].
  split; [by rewrite Hl|]. intros Hn. by rewrite He.
Qed.

Lemma each_once_stop f c l ok err : each_once f (c :: l) [f c ok] (Some err).
Proof. by exists 1%nat, [ok]. Qed.

Lemma each_once_elem f l evs e ev : each_once f l evs e -> ev ∈ evs -> exists c ok, c ∈ l /\ ev = f c ok.
Proof.
  intros (k & oks & -> & _ & _) Hin. apply elem_of_lookup_zip_with in Hin as (i & c & ok & -> & Hc & _).
  apply list_elem_of_lookup_2, subseteq_take in Hc. eauto.
Qed.

Lemma each_once_all f l evs c : each_once f l evs None -> c ∈ l -> exists ok, f c ok ∈ evs.
Proof.
  intros (k & oks & -> & Hlen & Hk) Hin. rewrite Hk in * by done. rewrite take_ge in * by done.
  apply list_elem_of_lookup_1 in Hin as [i Hi]. destruct (oks !! i) as [ok|] eqn:Eok.
  - exists ok. apply elem_of_lookup_zip_with. exists i, c, ok. done.
  - apply lookup_ge_None in Eok. apply lookup_lt_Some in Hi. lia.
Qed.

Lemma delete_all_emits key l : emits (S:=S) (delete_all key l) (each_once EvDeletePVC l).
Proof.
  induction l as [|c l IH]; cbn [delete_all]; [apply emits_ret, each_once_nil|].
  eapply emits_bind with (P := fun evs e => evs = [EvDeletePVC c (is_ok e)]).
  - unfold deleteOnePVC. apply emits_skip; [by apply silent_expectScale|].
    eapply emits_bind with (P := fun evs e => evs = [EvDeletePVC c (is_ok e)]); [by apply emits_call|].
    intros evs [err|] ->; [|by apply emits_ret]. apply emits_skip; [by apply silent_observeScale|by apply emits_ret].
  - assert (Hgo : forall ok, emits (S:=S) (delete_all key l) (fun evs => each_once EvDeletePVC (c :: l) ([EvDeletePVC c ok] ++ evs))).
    { intros ok. eapply emits_mono; [exact IH|]. intros evs e He. by apply each_once_cons. }
    intros evs [err|] ->; [|apply Hgo]. destruct (IsNotFound err); [apply Hgo|]. apply emits_ret, each_once_stop.
Qed.

Lemma hand_over_emits cs inact l : (forall c, c ∈ l -> used_by inact c) ->
  let handed c := match inactive_of inact (pvc_id c) with Some p => updateClaimOwnerRefToPod c cs p | None => c end in
  emits (S:=S) (hand_over cs inact l) (each_once (fun c => EvUpdatePVC (handed c)) l).
Proof.
  intros Hl handed. induction l as [|c l IH]; cbn [hand_over]; [apply emits_ret, each_once_nil|].
  pose proof (inactive_of_spec inact c) as Hc. set (f := fun c => EvUpdatePVC (handed c)).
  assert (Hf : forall p ok, inactive_of inact (pvc_id c) = Some p ->
    EvUpdatePVC (updateClaimOwnerRefToPod c cs p) ok = f c ok) by (intros p ok E; unfold f, handed; by rewrite E).
  destruct (inactive_of inact (pvc_id c)) as [p|] eqn:E; [|exfalso; apply Hc, Hl; left].
  eapply emits_bind with (P := fun evs e => evs = [f c (is_ok e)]).
  - apply emits_call. intros e. by rewrite (Hf p).
  - assert (Hgo : forall ok, emits (S:=S) (hand_over cs inact l) (fun evs => each_once f (c :: l) ([f c ok] ++ evs))).
    { intros ok. eapply emits_mono; [apply IH|]; [intros c' Hc'; apply Hl; by right|].
      intros evs e He. by apply each_once_cons. }
    intros evs [err|] ->; [|apply Hgo]. destruct (IsNotFound err); [apply Hgo|]. apply emits_ret, each_once_stop.
Qed.

(** The two kinds of writes of a cleanup. *)
Definition deletes_unused (act inact : list Pod) (pvcs : list PersistentVolumeClaim) (ev : Event) : Prop :=
  exists c ok, ev = EvDeletePVC c ok /\ c ∈ pvcs /\ ~ used_by act c /\ ~ used_by inact c.
Definition hands_over (cs : CloneSetObject) (act inact : list Pod) (pvcs : list PersistentVolumeClaim) (ev : Event) : Prop :=
  exists c p ok, ev = EvUpdatePVC (updateClaimOwnerRefToPod c cs p) ok /\
    c ∈ pvcs /\ ~ used_by act c /\ p ∈ inact /\ uses p c.

Section Stages.
Context (cs : CloneSetObject) (act inact : list Pod) (pvcs : list PersistentVolumeClaim).
Definition of_use (u : PVCUse) : list PersistentVolumeClaim := filterb (has_use u act inact) pvcs.

Lemma of_use_elem u c :
  c ∈ of_use u <-> c ∈ pvcs /\
    match u with
    | Active => used_by act c
    | Inactive => ~ used_by act c /\ used_by inact c
    | Unused => ~ used_by act c /\ ~ used_by inact c
    end.
Proof. unfold of_use. by rewrite filterb_elem, has_use_spec. Qed.

Lemma hand_over_stage :
  emits (S:=S) (hand_over cs inact (of_use Inactive)) (fun evs e =>
    (forall ev, ev ∈ evs -> hands_over cs act inact pvcs ev) /\
    (e = None -> forall c, c ∈ pvcs -> ~ used_by act c -> used_by inact c ->
       exists p ok, p ∈ inact /\ uses p c /\ EvUpdatePVC (updateClaimOwnerRefToPod c cs p) ok ∈ evs)).
Proof.
  eapply emits_mono; [apply hand_over_emits; intros c Hc; by apply of_use_elem in Hc as [_ [_ Hc]]|].
  cbv zeta. intros evs e He. split.
  - intros ev Hev. destruct (each_once_elem _ _ _ _ _ He Hev) as (c & ok & Hc & ->).
    apply of_use_elem in Hc as (Hin & Hna & Hi). pose proof (inactive_of_spec inact c) as Hio.
    destruct (inactive_of inact (pvc_id c)) as [p|]; [|done]. exists c, p, ok. tauto.
  - intros -> c Hin Hna Hi. destruct (each_once_all _ _ _ c He) as [ok Hok]; [by apply of_use_elem|].
    pose proof (inactive_of_spec inact c) as Hio.
    destruct (inactive_of inact (pvc_id c)) as [p|]; [|done]. exists p, ok. tauto.
Qed.

Lemma delete_stage key :
  emits (S:=S) (delete_all key (of_use Unused)) (fun evs e =>
    (forall ev, ev ∈ evs -> deletes_unused act inact pvcs ev) /\
    (e = None -> forall c, c ∈ pvcs -> ~ used_by act c -> ~ used_by inact c -> exists ok, EvDeletePVC c ok ∈ evs)).
Proof.
  eapply emits_mono; [apply delete_all_emits|]. intros evs e He. split.
  - intros ev Hev. destruct (each_once_elem _ _ _ _ _ He Hev) as (c & ok & Hc & ->).
    apply of_use_elem in Hc as (Hin & Hna & Hi). by exists c, ok.
  - intros -> c Hin Hna Hi. apply (each_once_all _ _ _ c He). by apply of_use_elem.
Qed.
End Stages.

(** A CloneSet that does not reuse claims cleans up exactly the claims no active
    pod uses.  However the server answers, a claim is deleted only when no pod, active
    or not, has its instance id; a claim is handed over only to an inactive pod with its
    instance id, when no active pod has it; and when the cleanup succeeds, the claims it
    answers are those of active pods, in their order, and each of the others was
    deleted or handed over, or is gone. *)
Theorem cleanup_pvcs_exact (cs : CloneSetObject) (activePods inactivePods : list Pod)
  (pvcs : list PersistentVolumeClaim) :
  emits (S:=S) (cleanupPVCs cs activePods inactivePods pvcs) (fun evs r =>
    (forall ev, ev ∈ evs -> deletes_unused activePods inactivePods pvcs ev \/
                            hands_over cs activePods inactivePods pvcs ev) /\
    (forall l, r = inr l ->
       l `sublist_of` pvcs /\
       (forall c, c ∈ l <-> c ∈ pvcs /\ used_by activePods c) /\
       forall c, c ∈ pvcs -> ~ used_by activePods c ->
         (exists ok, EvDeletePVC c ok ∈ evs) \/
         exists p ok, p ∈ inactivePods /\ uses p c /\ EvUpdatePVC (updateClaimOwnerRefToPod c cs p) ok ∈ evs)).
Proof.
  unfold cleanupPVCs. eapply emits_bind; [apply hand_over_stage|]. intros evs e [Hev Hall].
  destruct e as [err|]; [apply emits_ret; rewrite app_nil_r; split; [auto|done]|].
  eapply emits_bind; [apply delete_stage|]. intros evs' e' [Hev' Hall'].
  assert (Hboth : forall ev, ev ∈ evs ++ evs' -> deletes_unused activePods inactivePods pvcs ev \/
    hands_over cs activePods inactivePods pvcs ev) by (intros ev [?|?]%elem_of_app; auto).
  destruct e' as [err|]; apply emits_ret; rewrite app_nil_r; (split; [exact Hboth|]); [done|].
  intros l [= <-]. split; [apply filterb_sublist|]. split; [intros c; apply (of_use_elem _ _ _ Active)|].
  intros c Hin Hna. pose proof (inactive_of_spec inactivePods c) as Hio.
  destruct (inactive_of inactivePods (pvc_id c)) as [p|].
  - destruct (Hall eq_refl c Hin Hna) as (q & ok & Hq & Hu & Hok); [by exists p|].
    right. exists q, ok. split; [done|]. split; [done|]. apply elem_of_app. by left.
  - destruct (Hall' eq_refl c Hin Hna Hio) as [ok Hok]. left. exists ok. apply elem_of_app. by right.
Qed.
End Cleanup.

(** ** On a concrete server *)

(** A server that also refuses the patches of the pods of its state. *)
Definition patch_denied : Api (gset string) := {|
  CreatePod := CreatePod;
  DeletePod := DeletePod;
  CreatePVC := CreatePVC;
  DeletePVC := DeletePVC;
  PatchPod := fun p patch s => if bool_decide (p_name p ∈ s) then (s, inl "denied"%string) else PatchPod p patch s;
  AddNotReadyKey := AddNotReadyKey;
  RemoveNotReadyKey := RemoveNotReadyKey;
  InPlaceRefresh := InPlaceRefresh;
  CanUpdateInPlace := CanUpdateInPlace;
  InPlaceUpdatePod := InPlaceUpdatePod;
  CheckPodUpdateCompleted := CheckPodUpdateCompleted;
  PodUnavailableBudgetValidatePod := PodUnavailableBudgetValidatePod;
|}.

(** Five ready pods of the old revision, the last held by a hook before deletion. *)
Definition ex_held (p : Pod) : Pod := with_labels p (<["hold"%string := "true"%string]> (p_labels p)).
Definition ex_five : list Pod :=
  let pod n := ex_hashed (ex_pod n "v1" true) in
  [pod "q1"; pod "q2"; pod "q3"; pod "q4"; ex_held (pod "q5")]%string.

(** [maxUnavailable] is 2, and the last two pods are to be deleted. *)
Definition ex_two_cs (lifecycle : option LifecycleSpec) : CloneSet :=
  mkCloneSet "sample" "default" ∅ (Some 5) 0 ["q4"; "q5"]%string (Some (FromInt 3)) InPlaceIfPossible
    (Some (FromInt 0)) (Some (FromInt 2)) (Some (FromInt 0)) false None None None
    lifecycle [] ∅ [] ∅.
Definition ex_hooked_cs : CloneSet :=
  ex_two_cs (Some (mkLifecycle (Some (mkHook {["hold"%string := "true"%string]} [] false)) None None)).

Definition ex_object (cs : CloneSet) : CloneSetObject :=
  mkCSObject cs "cs-uid" 1 None ∅ None false None (fresh_status 1 "v2" "v1" "") None.
Definition ex_new : NewStatus := mkNewStatus (fresh_status 1 "v2" "v1" "") 0 [].
(** A revision that changes only the template. *)
Definition ex_apply (cs : CloneSet) (patch : string) : error + CloneSet := inr cs.


(** The hook matters: [deletePods] answers "not modified" when the patch of a hooked pod
    fails, although it deleted a pod before; the sync goes on to update with the pods it
    read, and of five available pods two are left where [maxUnavailable] asks for three. *)
Example failed_hook_hides_deletion :
  let '(w, (err, _)) := syncCloneSet (IA := patch_denied) (ex_gates false) 100 "now" ex_template ex_ranker
    ex_apply (ex_object ex_hooked_cs) ex_new (ex_rev "v1" 1) (ex_rev "v2" 2) [ex_rev "v1" 1; ex_rev "v2" 2]
    ex_five [] (ex_world {["q5"%string]}) in
  map p_name (lost (w_trace w)) = ["q4"; "q1"; "q2"]%string /\ err = Some "denied"%string /\
  countb (available 100 ex_hooked_cs) ex_five = 5 /\ l_maxUnavailable (limits_of ex_hooked_cs) = 2.
Proof. vm_compute. done. Qed.

Lemma sync_keeps_available_witness :
  exists evs,
    w_trace (syncCloneSet (ex_gates false) 100 "now" ex_template ex_ranker ex_apply (ex_object (ex_two_cs None)) ex_new
      (ex_rev "v1" 1) (ex_rev "v2" 2) [ex_rev "v1" 1; ex_rev "v2" 2] ex_five [] (ex_world ∅)).1 = [] ++ evs /\
    (countb (available 100 (ex_two_cs None)) (lost evs) = 0 \/
     3 <= 5 - countb (available 100 (ex_two_cs None)) (lost evs)).
Proof.
  apply (sync_keeps_available (S:=gset string) (ex_gates false) 100 "now" ex_template ex_ranker ex_apply
    (ex_object (ex_two_cs None)) ex_new (ex_rev "v1" 1) (ex_rev "v2" 2) [ex_rev "v1" 1; ex_rev "v2" 2] ex_five []
    (ex_two_cs None) 5 eq_refl eq_refl ltac:(small) ltac:(small) ltac:(intros h Hh; discriminate Hh) eq_refl (ex_world ∅)).
Defined.

#[export] Instance toy_owner : OwnerApi (gset string) := {|
  owner_errors := toy_errors;
  GetOwner := fun o s => inr o;
  UpdateObject := fun p s => (s, None);
  SetControllerReference := fun o p => inr p;
|}.

(** A server with the CloneSet of the examples, its five pods and no claims. *)
#[export] Instance toy_cloneset : CloneSetApi (gset string) := {|
  cloneset_owner := toy_owner;
  GetCloneSet := fun ns name s => inr (ex_object (ex_two_cs None));
  ListOwnedPods := fun ns uid s => inr ex_five;
  ListOwnedPVCs := fun ns uid s => inr [];
  UpdatePVC := fun c s => (s, None);
  UpdatePodsToDelete := fun cs names s => (s, None);
  UpdateCloneSetStatus_ := fun cs st s => (s, None);
  ListCloneSetRevisions := fun cs s => inr [];
  CreateCloneSetPullJobs := fun cs c u s => (s, None);
  DeleteCloneSetJobs := fun cs s => (s, None);
|}.

Definition ex_pending : World (gset string) :=
  (expectScale "default/sample" Scale.Delete "q4" (ex_world ∅)).1.

Definition ex_reconcile : M (gset string) (Z * option error) :=
  doReconcile (ex_gates false) 100 "now" ex_template ex_ranker (fun _ => inr "") ex_apply (fun _ _ => "h"%string)
    (fun _ => inr "") 300 true "default" "sample".

Lemma reconcile_waits_witness :
  let '(w', (delay, err)) := ex_reconcile ex_pending in
  w_server w' = ∅ /\ w_trace w' = [] /\
  (forall e, w_scale ex_pending !! "default/sample"%string = Some e ->
     Scale.firstUnsatisfiedTimestamp e <= 100 -> 0 <= delay <= 300) /\
  ("q4"%string ∈ Scale.pending (w_scale w') "default/sample" Scale.Delete \/
   exists e, GetCloneSet (S:=gset string) "default" "sample" ∅ = inl e /\ IsNotFound e = true).
Proof.
  exact (reconcile_waits (S:=gset string) (ex_gates false) 100 "now" ex_template ex_ranker (fun _ => inr ""%string)
    ex_apply (fun _ _ => "h"%string) (fun _ => inr ""%string) 300 true "default" "sample" Scale.Delete "q4" ex_pending
    ltac:(vm_compute; done) ltac:(small)).
Defined.
