(* ===== verification/UnitedDeployment.v ===== *)
(** * pkg/controller/uniteddeployment

    How a UnitedDeployment divides its replicas among its subsets (allocator.go),
    the partitions and the update of every subset (uniteddeployment_controller.go),
    and its conditions (uniteddeployment_controller_utils.go).  Replica counts are
    [int32]; the operations that could leave it are written with [wrap32]. *)

From S2P Require Import Prelude GoLib GoText K8s Tools.
Open Scope Z_scope.
Open Scope kruise_scope.

(** ** Objects *)

(** [spec.topology.subsets[i]]. *)
Record SubsetDef := mkSubsetDef {
  sd_Name : string;
  sd_Replicas : option IntOrString;
  sd_MinReplicas : option IntOrString;
  sd_MaxReplicas : option IntOrString;
  sd_Patch : string;
}.

Record UnitedDeployment := mkUD {
  ud_Replicas : option Z;
  ud_Subsets : list SubsetDef;
  (** [Some partitions] for the type Manual with partitions. *)
  ud_ManualPartitions : option (gmap string Z);
}.

(** A subset as the controller reads it. *)
Record Subset := mkSubset {
  ss_Labels : gmap string string;
  ss_Replicas : Z;
  ss_Partition : Z;
  ss_PatchAnnotation : string;
}.

Record SubsetUpdate := mkSubsetUpdate {
  su_Replicas : Z;
  su_Partition : Z;
  su_Patch : string;
}.

(** ** ParseSubsetReplicas *)

(** [round]: [int(math.Floor(x + 0.5))]. *)
Definition round (x : fp) : Z := fp_to_int (fp_floor (fp_add binary64 x (FFin 1 1))).

(** [None] is an error, on which the value is [0]. *)
Definition ParseSubsetReplicas (udReplicas : Z) (subsetReplicas : IntOrString) : option Z :=
  match subsetReplicas with
  | FromInt v => if v <? 0 then None else Some v
  | FromString strVal =>
      if udReplicas <? 0 then None
      else if negb (HasSuffix strVal "%") then None
      else
        match conv_ok (ParseInt (TrimSuffix strVal "%") 32) with
        | None => None
        | Some percent64 =>
            if (100 <? percent64) || (percent64 <? 0) then None
            else Some (wrap32 (round (fp_div binary64
                   (fp_mul binary64 (fp_of_int binary64 udReplicas) (fp_of_int binary64 percent64))
                   (fp_of_int binary64 100))))
        end
  end.

Lemma ParseSubsetReplicas_range ud x v :
  match x with FromInt i => i <= int32_max | FromString _ => True end -> ud <= int32_max ->
  ParseSubsetReplicas ud x = Some v -> 0 <= v <= int32_max.
Proof.
  intros Hx Hud. unfold ParseSubsetReplicas. destruct x as [i|s].
  - destruct (i <? 0) eqn:E; zbool; [done|]. intros [= <-]. lia.
  - destruct (ud <? 0) eqn:E; zbool; [done|]. destruct (negb _); [done|].
    destruct (conv_ok _) as [p|]; [|done].
    destruct ((100 <? p) || (p <? 0)) eqn:E2; [done|]. zbool. intros [= <-].
    unfold round. unfold int32_max in *. rewrite f64_pct_half_up_exact by lia.
    assert (0 <= (ud * p + 50) / 100 <= ud).
    { split; [apply Z.div_pos; nia|]. apply Z.lt_succ_r, Z.div_lt_upper_bound; nia. }
    rewrite wrap32_id; [lia|]. unfold is_int32, int32_min, int32_max. lia.
Qed.

(** ** The specific allocator *)

Record nameToReplicas := mkInfo {
  SubsetName : string;
  Replicas : Z;
  Specified : bool;
}.

Definition infos_Less (a b : nameToReplicas) : bool :=
  if negb (Replicas a =? Replicas b) then Replicas a <? Replicas b
  else string_lt (SubsetName a) (SubsetName b).

Definition getSubsetInfos (nameToSubset : gmap string Subset) (ud : UnitedDeployment) : list nameToReplicas :=
  map (fun d => mkInfo (sd_Name d)
                  (match nameToSubset !! sd_Name d with Some s => ss_Replicas s | None => 0 end) false)
    (ud_Subsets ud).

Definition getSpecifiedSubsetReplicas (replicas : Z) (ud : UnitedDeployment) : gmap string Z :=
  fold_left (fun limits d =>
    match sd_Replicas d with
    | None => limits
    | Some x =>
        match ParseSubsetReplicas replicas x with
        | Some v => <[sd_Name d := v]> limits
        | None => limits
        end
    end) (ud_Subsets ud) ∅.

(** A sum of [int32] values, as a loop over a map computes it. *)
Definition sum32 (l : list Z) : Z := fold_left (fun acc v => wrap32 (acc + v)) l 0.

Inductive AllocError :=
| SpecifiedGreater (specified replicas : Z)
| SpecifiedLess (specified replicas : Z)
| AllMustBeSpecified
| MaxLessThanMin (index : Z).

Definition has_limit (limits : gmap string Z) (i : nameToReplicas) : bool :=
  match limits !! SubsetName i with Some _ => true | None => false end.

Definition validateReplicas (subsets : list nameToReplicas) (replicas : Z) (limits : gmap string Z)
  : option AllocError :=
  let specifiedReplicas := sum32 (map snd (map_to_list limits)) in
  let specifiedCount := countb (has_limit limits) subsets in
  if negb (replicas =? -1) then
    if replicas <? specifiedReplicas then Some (SpecifiedGreater specifiedReplicas replicas)
    else if (specifiedReplicas <? replicas) && (specifiedCount =? len subsets)
    then Some (SpecifiedLess specifiedReplicas replicas)
    else None
  else if negb (specifiedCount =? len subsets) then Some AllMustBeSpecified
  else None.

(** Step 1 of [normalAllocate]: the specified subsets. *)
Definition apply_specified (limits : gmap string Z) (i : nameToReplicas) : nameToReplicas :=
  match limits !! SubsetName i with
  | Some v => mkInfo (SubsetName i) v true
  | None => i
  end.

(** Step 2, over the subsets from the last to the first: the average, one more for
    the first [remainder] of them. *)
Fixpoint assign (average remainder left : Z) (l : list nameToReplicas) : list nameToReplicas :=
  match l with
  | [] => []
  | i :: l' =>
      if Specified i then i :: assign average remainder left l'
      else
        let '(v, remainder) := if 0 <? remainder then (average + 1, remainder - 1) else (average, remainder) in
        let i := mkInfo (SubsetName i) (wrap32 v) (Specified i) in
        if left - 1 =? 0 then i :: l' else i :: assign average remainder (left - 1) l'
  end.

Definition toSubsetReplicaMap (l : list nameToReplicas) : gmap string Z :=
  fold_left (fun m i => <[SubsetName i := Replicas i]> m) l ∅.

Definition normalAllocate (subsets : list nameToReplicas) (expectedReplicas : Z) (limits : gmap string Z)
  : gmap string Z :=
  let l := map (apply_specified limits) subsets in
  let specifiedReplicas := sum32 (map Replicas (filterb Specified l)) in
  let leftSubsetCount := len l - countb Specified l in
  let l :=
    if negb (leftSubsetCount =? 0) then
      let allocatable := wrap32 (expectedReplicas - specifiedReplicas) in
      rev (assign (go_div allocatable leftSubsetCount) (go_rem allocatable leftSubsetCount)
             leftSubsetCount (rev l))
    else l in
  toSubsetReplicaMap l.

Definition AllocateReplicas (subsets : list nameToReplicas) (replicas : Z) (limits : gmap string Z)
  : AllocError + gmap string Z :=
  match validateReplicas subsets replicas limits with
  | Some err => inl err
  | None => inr (normalAllocate subsets replicas limits)
  end.

Definition specific_Alloc `{GoSort} (ud : UnitedDeployment) (nameToSubset : gmap string Subset)
  : AllocError + gmap string Z :=
  let subsets := sort_by infos_Less (getSubsetInfos nameToSubset ud) in
  let expectedReplicas := default (-1) (ud_Replicas ud) in
  AllocateReplicas subsets expectedReplicas (getSpecifiedSubsetReplicas expectedReplicas ud).

(** *** Lemmas *)

Lemma sumZ_ext {A} (f h : A -> Z) l : (forall x, x ∈ l -> f x = h x) -> sumZ f l = sumZ h l.
Proof.
  unfold sumZ. induction l as [|x l IH]; intros Hx; simpl; [done|].
  rewrite (Hx x) by left. rewrite IH; [done|]. intros y Hy. apply Hx. by right.
Qed.

Lemma sumZ_map {A B} (f : B -> Z) (h : A -> B) l : sumZ f (map h l) = sumZ (fun x => f (h x)) l.
Proof. unfold sumZ. induction l as [|x l IH]; simpl; [done|]. by rewrite IH. Qed.

Lemma sumZ_rev {A} (f : A -> Z) l : sumZ f (rev l) = sumZ f l.
Proof. apply sumZ_perm. symmetry. apply Permutation_rev. Qed.

(** Without overflow a sum of non-negative [int32] values is the sum. *)
Lemma sum32_acc l acc :
  0 <= acc -> (forall v, v ∈ l -> 0 <= v) -> acc + sumZ id l <= int32_max ->
  fold_left (fun acc v => wrap32 (acc + v)) l acc = acc + sumZ id l.
Proof.
  revert acc. induction l as [|v l IH]; intros acc Ha Hl Hs; simpl in *; [lia|].
  assert (0 <= v) by (apply Hl; left).
  assert (0 <= sumZ id l) by (apply sumZ_nonneg; intros x Hx; apply Hl; by right).
  change (sumZ id (v :: l)) with (v + sumZ id l) in *.
  rewrite wrap32_id by (unfold is_int32, int32_min; lia).
  rewrite IH; [lia|lia| |lia]. intros x Hx. apply Hl. by right.
Qed.

Lemma sum32_exact l :
  (forall v, v ∈ l -> 0 <= v) -> sumZ id l <= int32_max -> sum32 l = sumZ id l.
Proof. intros Hl Hs. unfold sum32. rewrite sum32_acc; [lia|lia|done|lia]. Qed.

(** The values of a map, summed over a list of names that covers it. *)
Lemma sum_map_names (m : gmap string Z) names :
  NoDup names -> (forall n, is_Some (m !! n) -> n ∈ names) ->
  sumZ id (map snd (map_to_list m)) = sumZ (fun n => default 0 (m !! n)) names.
Proof.
  revert m. induction names as [|n names IH]; intros m Hnd Hdom.
  - assert (m = ∅) as ->; [|by rewrite map_to_list_empty].
    apply map_eq. intros k. rewrite lookup_empty. destruct (m !! k) eqn:E; [|done].
    assert (k ∈ @nil string) by (apply Hdom; eauto). by apply not_elem_of_nil in H.
  - apply NoDup_cons in Hnd as [Hn Hnd].
    assert (Hrest : sumZ (fun k => default 0 (m !! k)) names = sumZ (fun k => default 0 (delete n m !! k)) names).
    { apply sumZ_ext. intros k Hk. rewrite lookup_delete_ne; [done|]. by intros ->. }
    change (sumZ ?f (n :: names)) with (f n + sumZ f names). cbv beta. rewrite Hrest.
    rewrite <-IH; [|done|].
    + destruct (m !! n) as [v|] eqn:En; simpl.
      * rewrite <-(sumZ_perm id _ _ (Permutation_map snd (map_to_list_delete m n v En))). done.
      * rewrite delete_id by done. lia.
    + intros k [v Hk]. rewrite lookup_delete_Some in Hk. destruct Hk as [Hne Hk].
      assert (k ∈ n :: names) as Hin by (apply Hdom; eauto).
      apply elem_of_cons in Hin as [->|]; done.
Qed.

(** What [assign] does to one subset. *)
Definition assigned (average : Z) (i j : nameToReplicas) : Prop :=
  SubsetName j = SubsetName i /\
  (if Specified i then j = i else average <= Replicas j <= average + 1).

Lemma assigned_all l average : countb (fun i => negb (Specified i)) l = 0 -> Forall2 (assigned average) l l.
Proof.
  intros Hz. pose proof (proj1 (countb_zero _ l) Hz) as Hall. clear Hz.
  induction l as [|i l IH]; constructor.
  - split; [done|]. by rewrite (proj1 (negb_false_iff _) (Hall i ltac:(left))).
  - apply IH. intros j Hj. apply Hall. by right.
Qed.

Definition fixed (i : nameToReplicas) : Z := if Specified i then Replicas i else 0.

Lemma fixed_all l : countb (fun i => negb (Specified i)) l = 0 -> sumZ Replicas l = sumZ fixed l.
Proof.
  intros Hz. apply sumZ_ext. intros i Hi. unfold fixed.
  pose proof (proj1 (countb_zero _ l) Hz i Hi) as Hs. by rewrite (proj1 (negb_false_iff _) Hs).
Qed.

Lemma assign_spec l average remainder :
  let left := countb (fun i => negb (Specified i)) l in
  0 <= average <= int32_max -> 0 <= remainder <= left -> (0 < remainder -> average + 1 <= int32_max) ->
  Forall2 (assigned average) l (assign average remainder left l) /\
  sumZ Replicas (assign average remainder left l) = sumZ fixed l + average * left + remainder.
Proof.
  revert remainder. induction l as [|i l IH]; intros rem left Ha Hr Hb.
  { simpl in *. split; [constructor|]. unfold left in *. simpl in *. lia. }
  cbn [assign]. pose proof (countb_nonneg (fun i => negb (Specified i)) l) as Hnn.
  unfold left in *. clear left. cbn [countb] in *.
  change (sumZ fixed (i :: l)) with (fixed i + sumZ fixed l). unfold fixed at 1.
  destruct (Specified i) eqn:Es; simpl negb in *; cbv iota in *.
  - rewrite Z.add_0_l in *. destruct (IH rem Ha Hr Hb) as [IH1 IH2]. split.
    + constructor; [|done]. split; [done|]. by rewrite Es.
    + change (sumZ Replicas (i :: ?x)) with (Replicas i + sumZ Replicas x). rewrite IH2. lia.
  - set (left' := countb (fun i => negb (Specified i)) l) in *.
    destruct (if 0 <? rem then (average + 1, rem - 1) else (average, rem)) as [v rem'] eqn:Ev.
    assert (Hv : average <= v <= average + 1 /\ v + rem' = average + rem /\ 0 <= rem' <= left' /\
                 (0 < rem' -> average + 1 <= int32_max) /\ v <= int32_max).
    { destruct (0 <? rem) eqn:E; zbool; injection Ev as <- <-; lia. }
    destruct Hv as (Hv1 & Hv2 & Hv3 & Hv4 & Hv5).
    rewrite wrap32_id by (unfold is_int32, int32_min; lia).
    replace (1 + left' - 1) with left' by lia.
    assert (Hi : assigned average i (mkInfo (SubsetName i) v false)).
    { split; [done|]. rewrite Es. simpl. lia. }
    destruct (left' =? 0) eqn:El; zbool.
    + split; [constructor; [done|by apply assigned_all]|].
      change (sumZ Replicas (?a :: l)) with (Replicas a + sumZ Replicas l). cbn [Replicas].
      rewrite (fixed_all l El). rewrite El in *. lia.
    + destruct (IH rem' Ha Hv3 Hv4) as [IH1 IH2]. split; [by constructor|].
      change (sumZ Replicas (?a :: ?x)) with (Replicas a + sumZ Replicas x). cbn [Replicas].
      rewrite IH2. lia.
Qed.

Lemma replica_map_other l (m : gmap string Z) n :
  n ∉ map SubsetName l -> fold_left (fun m i => <[SubsetName i := Replicas i]> m) l m !! n = m !! n.
Proof.
  revert m. induction l as [|i l IH]; intros m Hn; simpl in *; [done|].
  rewrite not_elem_of_cons in Hn. destruct Hn as [Hi Hn]. rewrite IH by done.
  by apply lookup_insert_ne.
Qed.

Lemma replica_map_lookup l (m : gmap string Z) i : NoDup (map SubsetName l) -> i ∈ l ->
  fold_left (fun m i => <[SubsetName i := Replicas i]> m) l m !! SubsetName i = Some (Replicas i).
Proof.
  revert m. induction l as [|j l IH]; intros m Hnd Hi; simpl in *; [by apply not_elem_of_nil in Hi|].
  apply NoDup_cons in Hnd as [Hj Hnd]. apply elem_of_cons in Hi as [->|Hi]; [|by apply IH].
  rewrite replica_map_other by done. apply lookup_insert_eq.
Qed.

Lemma replica_map_sum l : NoDup (map SubsetName l) ->
  sumZ (fun n => default 0 (toSubsetReplicaMap l !! n)) (map SubsetName l) = sumZ Replicas l.
Proof.
  intros Hnd. rewrite sumZ_map. apply sumZ_ext. intros i Hi. unfold toSubsetReplicaMap.
  by rewrite replica_map_lookup.
Qed.

Section Specific.
Context (subsets : list nameToReplicas) (replicas : Z) (limits : gmap string Z).
Context (Hnd : NoDup (map SubsetName subsets))
        (Hfresh : forall i, i ∈ subsets -> Specified i = false)
        (Hdom : forall n, is_Some (limits !! n) -> n ∈ map SubsetName subsets)
        (Hpos : forall n v, limits !! n = Some v -> 0 <= v)
        (Hsum : sumZ id (map snd (map_to_list limits)) <= int32_max).

Let total : Z := sumZ id (map snd (map_to_list limits)).
Let l0 : list nameToReplicas := map (apply_specified limits) subsets.

Lemma limits_nonneg v : v ∈ map snd (map_to_list limits) -> 0 <= v.
Proof.
  intros Hv. apply list_elem_of_fmap in Hv as ([n x] & -> & Hin).
  rewrite elem_of_map_to_list in Hin. simpl. by eapply Hpos.
Qed.

Lemma total_sum32 : sum32 (map snd (map_to_list limits)) = total.
Proof. apply sum32_exact; [apply limits_nonneg|done]. Qed.

Lemma total_nonneg : 0 <= total.
Proof. apply sumZ_nonneg. intros v Hv. by apply limits_nonneg. Qed.

Lemma l0_names : map SubsetName l0 = map SubsetName subsets.
Proof.
  unfold l0. rewrite map_map. apply map_ext. intros i. unfold apply_specified.
  by destruct (limits !! SubsetName i).
Qed.

Lemma l0_specified i : i ∈ l0 ->
  (Specified i = true /\ limits !! SubsetName i = Some (Replicas i)) \/
  (Specified i = false /\ limits !! SubsetName i = None).
Proof.
  intros Hi. apply list_elem_of_fmap in Hi as (j & -> & Hj). unfold apply_specified.
  destruct (limits !! SubsetName j) as [v|] eqn:E; [left|right]; simpl; [done|].
  split; [by apply Hfresh|done].
Qed.

Lemma l0_fixed : sumZ fixed l0 = total.
Proof.
  unfold total. rewrite (sum_map_names limits (map SubsetName subsets)) by done.
  rewrite <-l0_names, sumZ_map. apply sumZ_ext. intros i Hi. unfold fixed.
  destruct (l0_specified i Hi) as [[-> ->]|[-> ->]]; done.
Qed.

Lemma l0_specified_sum : sum32 (map Replicas (filterb Specified l0)) = total.
Proof.
  assert (Hs : sumZ id (map Replicas (filterb Specified l0)) = total).
  { rewrite <-l0_fixed, sumZ_map. unfold fixed, sumZ, id. clear. induction l0 as [|i l IH]; simpl; [done|].
    destruct (Specified i); simpl; lia. }
  rewrite sum32_exact; [done| |by rewrite Hs].
  intros v Hv. apply list_elem_of_fmap in Hv as (i & -> & Hi). apply filterb_elem in Hi as [Hi Hsp].
  destruct (l0_specified i Hi) as [[_ Hl]|[Hf _]]; [by eapply Hpos|congruence].
Qed.

Lemma l0_left : len l0 - countb Specified l0 = countb (fun i => negb (Specified i)) l0.
Proof. pose proof (countb_split Specified l0). lia. Qed.

(** The list the map is built from. *)
Definition allocation (l : list nameToReplicas) : Prop :=
  normalAllocate subsets replicas limits = toSubsetReplicaMap l /\
  map SubsetName l = map SubsetName subsets /\
  (forall i v, i ∈ l -> limits !! SubsetName i = Some v -> Replicas i = v) /\
  (exists q, forall i, i ∈ l -> limits !! SubsetName i = None -> q <= Replicas i <= q + 1) /\
  (countb (fun i => negb (Specified i)) l0 <> 0 -> sumZ Replicas l = replicas) /\
  (countb (fun i => negb (Specified i)) l0 = 0 -> sumZ Replicas l = total).

Lemma normalAllocate_spec :
  (countb (fun i => negb (Specified i)) l0 <> 0 -> total <= replicas <= int32_max) ->
  exists l, allocation l.
Proof.
  intros Hrep. unfold allocation, normalAllocate. fold l0. rewrite l0_left, l0_specified_sum.
  set (left := countb (fun i => negb (Specified i)) l0) in *.
  assert (Hleft : 0 <= left) by apply countb_nonneg. pose proof total_nonneg as Htot.
  destruct (left =? 0) eqn:El; zbool; simpl negb; cbv iota.
  - exists l0. split; [done|]. split; [apply l0_names|]. split; [|split; [|split]].
    + intros i v Hi Hv. destruct (l0_specified i Hi) as [[_ Hl]|[_ Hl]]; congruence.
    + exists 0. intros i Hi Hnone. destruct (l0_specified i Hi) as [[_ Hl]|[Hf _]]; [congruence|].
      exfalso. apply (proj1 (countb_zero _ l0) El) in Hi. by rewrite Hf in Hi.
    + done.
    + intros _. rewrite fixed_all by done. apply l0_fixed.
  - specialize (Hrep El). rewrite wrap32_id by (unfold is_int32, int32_min; lia).
    set (a := replicas - total) in *.
    assert (Hq : go_div a left = a / left) by (apply Z.quot_div_nonneg; lia).
    assert (Hm : go_rem a left = a mod left) by (apply Z.rem_mod_nonneg; lia).
    rewrite Hq, Hm. pose proof (Z.div_mod a left ltac:(lia)) as Hdm.
    pose proof (Z.mod_pos_bound a left ltac:(lia)) as Hmb.
    assert (Hlr : countb (fun i => negb (Specified i)) (rev l0) = left)
      by (apply countb_perm; symmetry; apply Permutation_rev).
    pose proof (assign_spec (rev l0) (a / left) (a mod left)) as Has. cbv zeta in Has. rewrite Hlr in Has.
    assert (0 <= a / left) by (apply Z.div_pos; lia).
    assert (a / left <= a) by nia.
    destruct Has as [Hf Hs]; [lia|lia|nia|].
    set (r := assign _ _ left (rev l0)) in *. exists (rev r).
    assert (Hin : forall j, j ∈ rev r -> exists i, i ∈ l0 /\ assigned (a / left) i j).
    { intros j Hj. rewrite <-Permutation_rev in Hj. apply list_elem_of_lookup in Hj as [k Hk].
      destruct (Forall2_lookup_r _ _ _ _ _ Hf Hk) as (i & Hi & Has). exists i. split; [|done].
      apply list_elem_of_lookup_2 in Hi. by rewrite <-Permutation_rev in Hi. }
    split; [done|]. split; [|split; [|split; [|split]]].
    + rewrite map_rev. assert (map SubsetName r = map SubsetName (rev l0)) as ->.
      { clear -Hf. induction Hf as [|i j l1 l2 [Hn _] _ IH]; simpl; [done|]. by rewrite Hn, IH. }
      by rewrite map_rev, rev_involutive, l0_names.
    + intros j v Hj Hv. destruct (Hin j Hj) as (i & Hi & Hn & Hsp). rewrite Hn in Hv.
      destruct (l0_specified i Hi) as [[E Hl]|[_ Hl]]; [|congruence]. rewrite E in Hsp. congruence.
    + exists (a / left). intros j Hj Hnone. destruct (Hin j Hj) as (i & Hi & Hn & Hsp). rewrite Hn in Hnone.
      destruct (l0_specified i Hi) as [[_ Hl]|[E _]]; [congruence|]. by rewrite E in Hsp.
    + intros _. rewrite sumZ_rev, Hs, sumZ_rev, l0_fixed. lia.
    + done.
Qed.
End Specific.

(** An [IntOrString] of the API holds an [int32]. *)
Definition int32_value (x : option IntOrString) : Prop :=
  match x with Some (FromInt i) => i <= int32_max | _ => True end.

Lemma specified_fold replicas defs (m : gmap string Z) n v :
  replicas <= int32_max -> (forall d, d ∈ defs -> int32_value (sd_Replicas d)) ->
  fold_left (fun limits d =>
    match sd_Replicas d with
    | None => limits
    | Some x =>
        match ParseSubsetReplicas replicas x with
        | Some v => <[sd_Name d := v]> limits
        | None => limits
        end
    end) defs m !! n = Some v ->
  m !! n = Some v \/ (n ∈ map sd_Name defs /\ 0 <= v <= int32_max).
Proof.
  intros Hr. revert m. induction defs as [|d defs IH]; intros m Hd H; simpl in *; [by left|].
  assert (Hd' : forall d', d' ∈ defs -> int32_value (sd_Replicas d')) by (intros d' Hd'; apply Hd; by right).
  assert (Hdd : int32_value (sd_Replicas d)) by (apply Hd; left).
  destruct (sd_Replicas d) as [x|]; [|apply IH in H as [H|[H ?]]; [by left|right|done]; by split; [right|]].
  destruct (ParseSubsetReplicas replicas x) as [w|] eqn:Ew;
    (apply IH in H as [H|[H ?]]; [|right; by split; [right|]|done]); [|by left].
  destruct (decide (sd_Name d = n)) as [<-|Hne].
  - rewrite lookup_insert_eq in H. injection H as <-. right. split; [left|].
    apply (ParseSubsetReplicas_range replicas x); [by destruct x|done..].
  - rewrite lookup_insert_ne in H by done. by left.
Qed.

Lemma specified_lookup replicas ud n v :
  replicas <= int32_max -> (forall d, d ∈ ud_Subsets ud -> int32_value (sd_Replicas d)) ->
  getSpecifiedSubsetReplicas replicas ud !! n = Some v ->
  n ∈ map sd_Name (ud_Subsets ud) /\ 0 <= v <= int32_max.
Proof.
  intros Hr Hd H. apply specified_fold in H as [H|H]; [by rewrite lookup_empty in H|done..].
Qed.

Section SpecificAlloc.
Context `{GoSort} (ud : UnitedDeployment) (nameToSubset : gmap string Subset) (replicas : Z).
Context (Hr : ud_Replicas ud = Some replicas) (Hb : 0 <= replicas <= int32_max)
        (Hnd : NoDup (map sd_Name (ud_Subsets ud)))
        (H32 : forall d, d ∈ ud_Subsets ud -> int32_value (sd_Replicas d)).

Let limits : gmap string Z := getSpecifiedSubsetReplicas replicas ud.
Let total : Z := sumZ id (map snd (map_to_list limits)).
Context (Hsum : total <= int32_max).
Let subsets : list nameToReplicas := sort_by infos_Less (getSubsetInfos nameToSubset ud).

Lemma subsets_names : map SubsetName subsets ≡ₚ map sd_Name (ud_Subsets ud).
Proof.
  unfold subsets. rewrite (Permutation_map SubsetName (sort_by_perm _ _ _)).
  unfold getSubsetInfos. by rewrite map_map.
Qed.

Lemma subsets_fresh i : i ∈ subsets -> Specified i = false.
Proof.
  unfold subsets. rewrite sort_by_perm. intros Hi. by apply list_elem_of_fmap in Hi as (d & -> & _).
Qed.

Lemma specific_valid m :
  specific_Alloc ud nameToSubset = inr m ->
  m = normalAllocate subsets replicas limits /\
  validateReplicas subsets replicas limits = None.
Proof.
  unfold specific_Alloc. rewrite Hr. simpl default. unfold AllocateReplicas. fold limits subsets.
  destruct (validateReplicas subsets replicas limits); [done|]. by intros [= <-].
Qed.

(** C39: A UnitedDeployment without minimum or maximum replicas hands out exactly
    [spec.replicas]: the subsets of an accepted allocation add up to it, a subset
    with its own replicas gets exactly these, and the others share the rest evenly,
    differing by at most one. *)
Theorem specific_alloc_exact m :
  specific_Alloc ud nameToSubset = inr m ->
  sumZ (fun d => default 0 (m !! sd_Name d)) (ud_Subsets ud) = replicas /\
  (forall d v, d ∈ ud_Subsets ud -> limits !! sd_Name d = Some v -> m !! sd_Name d = Some v) /\
  (exists q, forall d, d ∈ ud_Subsets ud -> limits !! sd_Name d = None ->
     exists v, m !! sd_Name d = Some v /\ q <= v <= q + 1).
Proof.
  intros Hm. apply specific_valid in Hm as [-> Hval].
  assert (Hndn : NoDup (map SubsetName subsets)) by (by rewrite subsets_names).
  assert (Hdom : forall n, is_Some (limits !! n) -> n ∈ map SubsetName subsets).
  { intros n [v Hv]. rewrite subsets_names. apply specified_lookup in Hv as [? _]; [done|lia|done]. }
  assert (Hpos : forall n v, limits !! n = Some v -> 0 <= v).
  { intros n v Hv. apply specified_lookup in Hv as [_ ?]; [lia|lia|done]. }
  assert (Hcount : countb (has_limit limits) subsets = len subsets
    <-> countb (fun i => negb (Specified i)) (map (apply_specified limits) subsets) = 0).
  { rewrite countb_zero. pose proof (countb_split (has_limit limits) subsets).
    assert (Hz : countb (has_limit limits) subsets = len subsets
      <-> countb (fun i => negb (has_limit limits i)) subsets = 0) by lia.
    rewrite Hz, countb_zero. split; intros Hall i Hi.
    - apply list_elem_of_fmap in Hi as (j & -> & Hj). specialize (Hall j Hj).
      unfold has_limit, apply_specified in *. by destruct (limits !! SubsetName j).
    - specialize (Hall (apply_specified limits i) ltac:(apply list_elem_of_fmap; eauto)).
      unfold has_limit, apply_specified in *. pose proof (subsets_fresh i Hi) as Hf.
      destruct (limits !! SubsetName i); [done|]. by rewrite Hf in Hall. }
  unfold validateReplicas in Hval. rewrite (total_sum32 limits) in Hval by done. fold total in Hval.
  destruct (replicas =? -1) eqn:E1; zbool; [lia|]. simpl negb in Hval. cbv iota in Hval.
  destruct (replicas <? total) eqn:E2; zbool; [done|].
  destruct (normalAllocate_spec subsets replicas limits Hndn subsets_fresh Hdom Hpos Hsum)
    as (l & Heq & Hnames & Hspec & [q Hrest] & Hsum1 & Hsum0); [intros _; fold total; lia|].
  assert (Hlk : forall d, d ∈ ud_Subsets ud -> exists i, i ∈ l /\ SubsetName i = sd_Name d /\
      toSubsetReplicaMap l !! sd_Name d = Some (Replicas i)).
  { intros d Hd. assert (sd_Name d ∈ map SubsetName l) as Hin.
    { rewrite Hnames, subsets_names. apply list_elem_of_fmap. eauto. }
    apply list_elem_of_fmap in Hin as (i & Hi & Hin). exists i. split; [done|]. split; [done|].
    rewrite Hi. apply replica_map_lookup; [by rewrite Hnames|done]. }
  rewrite Heq. split; [|split].
  - rewrite <-(sumZ_map (fun n => default 0 (toSubsetReplicaMap l !! n)) sd_Name).
    rewrite <-(sumZ_perm _ _ _ subsets_names), <-Hnames, replica_map_sum by by rewrite Hnames.
    destruct (decide (countb (fun i => negb (Specified i)) (map (apply_specified limits) subsets) = 0)) as [Hz|Hz].
    + rewrite (Hsum0 Hz). fold total. apply Hcount in Hz. rewrite Hz, Z.eqb_refl, andb_true_r in Hval.
      destruct (total <? replicas) eqn:E3; zbool; [done|lia].
    + by apply Hsum1.
  - intros d v Hd Hv. destruct (Hlk d Hd) as (i & Hi & Hn & ->). f_equal.
    apply (Hspec i v Hi). by rewrite Hn.
  - exists q. intros d Hd Hv. destruct (Hlk d Hd) as (i & Hi & Hn & ->). exists (Replicas i).
    split; [done|]. apply (Hrest i Hi). by rewrite Hn.
Qed.
End SpecificAlloc.

(** ** The elastic allocator *)

Definition default_max_replicas : Z := 1000000.

Definition min_of (replicas : Z) (d : SubsetDef) : Z :=
  match sd_MinReplicas d with
  | Some x => default 0 (ParseSubsetReplicas replicas x)
  | None => 0
  end.
Definition max_of (replicas : Z) (d : SubsetDef) : Z :=
  match sd_MaxReplicas d with
  | Some x => default 0 (ParseSubsetReplicas replicas x)
  | None => default_max_replicas
  end.

(** The minimum and the maximum replicas by subset, or the index of a subset whose
    maximum is below its minimum. *)
Fixpoint validateAndCalculateMinMaxMap (replicas index : Z) (minMap maxMap : gmap string Z)
  (subsets : list SubsetDef) : AllocError + gmap string Z * gmap string Z :=
  match subsets with
  | [] => inr (minMap, maxMap)
  | d :: subsets' =>
      let minReplicas := min_of replicas d in
      let maxReplicas := max_of replicas d in
      if maxReplicas <? minReplicas then inl (MaxLessThanMin index)
      else validateAndCalculateMinMaxMap replicas (index + 1)
             (<[sd_Name d := minReplicas]> minMap) (<[sd_Name d := maxReplicas]> maxMap) subsets'
  end.

(** Step 1: the minimum of every subset, in their order; what is allocated. *)
Fixpoint alloc_min (replicas : Z) (minMap : gmap string Z) (subsets : list SubsetDef)
  (allocated : Z) (subsetReplicas : gmap string Z) : Z * gmap string Z :=
  match subsets with
  | [] => (allocated, subsetReplicas)
  | d :: subsets' =>
      let minReplicas := default 0 (minMap !! sd_Name d) in
      let addReplicas := Z.max (Z.min minReplicas (wrap32 (replicas - allocated))) 0 in
      alloc_min replicas minMap subsets' (wrap32 (allocated + addReplicas))
        (<[sd_Name d := addReplicas]> subsetReplicas)
  end.

(** Step 2: up to the maximum of every subset, in their order. *)
Fixpoint alloc_max (replicas : Z) (minMap maxMap : gmap string Z) (subsets : list SubsetDef)
  (allocated : Z) (subsetReplicas : gmap string Z) : gmap string Z :=
  match subsets with
  | [] => subsetReplicas
  | d :: subsets' =>
      let maxReplicas := default 0 (maxMap !! sd_Name d) in
      let minReplicas := default 0 (minMap !! sd_Name d) in
      let addReplicas := Z.max (Z.min (wrap32 (maxReplicas - minReplicas)) (wrap32 (replicas - allocated))) 0 in
      alloc_max replicas minMap maxMap subsets' (wrap32 (allocated + addReplicas))
        (<[sd_Name d := wrap32 (default 0 (subsetReplicas !! sd_Name d) + addReplicas)]> subsetReplicas)
  end.

Definition elastic_alloc (replicas : Z) (minMap maxMap : gmap string Z) (subsets : list SubsetDef)
  : gmap string Z :=
  let '(allocated, subsetReplicas) := alloc_min replicas minMap subsets 0 ∅ in
  if replicas <=? allocated then subsetReplicas
  else alloc_max replicas minMap maxMap subsets allocated subsetReplicas.

Definition elastic_Alloc (ud : UnitedDeployment) : AllocError + gmap string Z :=
  let replicas := default 1 (ud_Replicas ud) in
  match validateAndCalculateMinMaxMap replicas 0 ∅ ∅ (ud_Subsets ud) with
  | inl err => inl err
  | inr (minMap, maxMap) => inr (elastic_alloc replicas minMap maxMap (ud_Subsets ud))
  end.

(** [NewReplicaAllocator]. *)
Definition is_elastic (ud : UnitedDeployment) : bool :=
  existsb (fun d => match sd_MinReplicas d, sd_MaxReplicas d with None, None => false | _, _ => true end)
    (ud_Subsets ud).

Definition Alloc `{GoSort} (ud : UnitedDeployment) (nameToSubset : gmap string Subset)
  : AllocError + gmap string Z :=
  if is_elastic ud then elastic_Alloc ud else specific_Alloc ud nameToSubset.

(** *** Lemmas *)

Section Elastic.
Context (replicas : Z) (minMap maxMap : gmap string Z) (Hb : 0 <= replicas <= int32_max).

Definition mn (d : SubsetDef) : Z := default 0 (minMap !! sd_Name d).
Definition mx (d : SubsetDef) : Z := default 0 (maxMap !! sd_Name d).
Definition got (m : gmap string Z) (d : SubsetDef) : Z := default 0 (m !! sd_Name d).

Lemma got_other m n v d : sd_Name d <> n -> got (<[n := v]> m) d = got m d.
Proof. intros Hne. unfold got. by rewrite lookup_insert_ne. Qed.

Lemma sum_got_other m n v l :
  n ∉ map sd_Name l -> sumZ (got (<[n := v]> m)) l = sumZ (got m) l.
Proof.
  intros Hn. apply sumZ_ext. intros d Hd. apply got_other. intros <-. apply Hn.
  apply list_elem_of_fmap. eauto.
Qed.

Lemma alloc_min_spec l a acc :
  NoDup (map sd_Name l) -> (forall d, d ∈ l -> 0 <= mn d <= int32_max) -> 0 <= a <= replicas ->
  let '(a', m) := alloc_min replicas minMap l a acc in
  a' = a + Z.min (sumZ mn l) (replicas - a) /\ sumZ (got m) l = a' - a /\
  (forall d, d ∈ l -> 0 <= got m d <= mn d) /\
  (a' < replicas -> forall d, d ∈ l -> got m d = mn d) /\
  (forall d, sd_Name d ∉ map sd_Name l -> got m d = got acc d).
Proof.
  revert a acc. induction l as [|d l IH]; intros a acc Hnd Hmin Ha; simpl.
  { change (sumZ ?f []) with 0. split; [lia|]. split; [lia|].
    split; [intros d Hd; by apply not_elem_of_nil in Hd|].
    split; [intros _ d Hd; by apply not_elem_of_nil in Hd|done]. }
  simpl in Hnd. apply NoDup_cons in Hnd as [Hd Hnd].
  assert (Hmd : 0 <= mn d <= int32_max) by (apply Hmin; left).
  rewrite (wrap32_id (replicas - a)) by (unfold is_int32, int32_min; lia). fold (mn d).
  set (add := Z.max (Z.min (mn d) (replicas - a)) 0).
  assert (Hadd : add = Z.min (mn d) (replicas - a)) by (unfold add; lia).
  rewrite wrap32_id by (unfold is_int32, int32_min; lia).
  assert (Hmin' : forall d', d' ∈ l -> 0 <= mn d' <= int32_max) by (intros d' Hd'; apply Hmin; by right).
  specialize (IH (a + add) (<[sd_Name d := add]> acc) Hnd Hmin' ltac:(lia)).
  destruct (alloc_min replicas minMap l (a + add) (<[sd_Name d := add]> acc)) as [a' m].
  destruct IH as (H1 & H2 & H3 & H4 & H5).
  assert (Hgd : got m d = add) by (rewrite H5 by done; unfold got; by rewrite lookup_insert_eq).
  assert (0 <= sumZ mn l) by (apply sumZ_nonneg; intros x Hx; by apply Hmin').
  change (sumZ ?f (d :: l)) with (f d + sumZ f l). rewrite Hgd, H2.
  split; [lia|]. split; [lia|]. split; [|split].
  - intros x Hx. apply elem_of_cons in Hx as [->|Hx]; [lia|by apply H3].
  - intros Hlt x Hx. apply elem_of_cons in Hx as [->|Hx]; [lia|by apply H4].
  - intros x Hx. rewrite not_elem_of_cons in Hx. destruct Hx as [Hne Hx].
    rewrite H5 by done. by apply got_other.
Qed.

Lemma alloc_max_spec l a acc :
  NoDup (map sd_Name l) -> (forall d, d ∈ l -> 0 <= mn d <= mx d /\ mx d <= int32_max) -> 0 <= a <= replicas ->
  (forall d, d ∈ l -> got acc d = mn d) ->
  let m := alloc_max replicas minMap maxMap l a acc in
  sumZ (got m) l = sumZ mn l + Z.min (sumZ (fun d => mx d - mn d) l) (replicas - a) /\
  (forall d, d ∈ l -> mn d <= got m d <= mx d) /\
  (forall d, sd_Name d ∉ map sd_Name l -> got m d = got acc d).
Proof.
  revert a acc. induction l as [|d l IH]; intros a acc Hnd Hmm Ha Hacc; simpl.
  { change (sumZ ?f []) with 0. split; [lia|].
    split; [intros d Hd; by apply not_elem_of_nil in Hd|done]. }
  simpl in Hnd. apply NoDup_cons in Hnd as [Hd Hnd].
  assert (Hmd : 0 <= mn d <= mx d /\ mx d <= int32_max) by (apply Hmm; left).
  fold (mn d) (mx d) (got acc d). rewrite (Hacc d) by left.
  rewrite (wrap32_id (mx d - mn d)) by (unfold is_int32, int32_min; lia).
  rewrite (wrap32_id (replicas - a)) by (unfold is_int32, int32_min; lia).
  set (add := Z.max (Z.min (mx d - mn d) (replicas - a)) 0).
  assert (Hadd : add = Z.min (mx d - mn d) (replicas - a)) by (unfold add; lia).
  rewrite !wrap32_id by (unfold is_int32, int32_min; lia).
  assert (Hmm' : forall d', d' ∈ l -> 0 <= mn d' <= mx d' /\ mx d' <= int32_max)
    by (intros d' Hd'; apply Hmm; by right).
  destruct (IH (a + add) (<[sd_Name d := mn d + add]> acc) Hnd Hmm' ltac:(lia)) as (H1 & H2 & H3).
  { intros x Hx. rewrite got_other; [apply Hacc; by right|]. intros E. apply Hd. rewrite <-E.
    apply list_elem_of_fmap. eauto. }
  set (m := alloc_max _ _ _ l _ _) in *.
  assert (Hgd : got m d = mn d + add) by (rewrite H3 by done; unfold got; by rewrite lookup_insert_eq).
  assert (0 <= sumZ (fun d => mx d - mn d) l).
  { apply sumZ_nonneg. intros x Hx. destruct (Hmm' x Hx). lia. }
  change (sumZ ?f (d :: l)) with (f d + sumZ f l). rewrite Hgd, H1. cbv beta.
  split; [lia|]. split.
  - intros x Hx. apply elem_of_cons in Hx as [->|Hx]; [lia|by apply H2].
  - intros x Hx. rewrite not_elem_of_cons in Hx. destruct Hx as [Hne Hx].
    rewrite H3 by done. by apply got_other.
Qed.
End Elastic.

Lemma minmax_spec replicas subsets index mn0 mx0 r :
  NoDup (map sd_Name subsets) ->
  validateAndCalculateMinMaxMap replicas index mn0 mx0 subsets = inr r ->
  (forall d, d ∈ subsets -> default 0 (r.1 !! sd_Name d) = min_of replicas d /\
     default 0 (r.2 !! sd_Name d) = max_of replicas d /\ min_of replicas d <= max_of replicas d) /\
  (forall n, n ∉ map sd_Name subsets -> r.1 !! n = mn0 !! n /\ r.2 !! n = mx0 !! n).
Proof.
  revert index mn0 mx0. induction subsets as [|d subsets IH]; intros index mn0 mx0 Hnd; simpl.
  { intros [= <-]. split; [|done]. intros d Hd. by apply not_elem_of_nil in Hd. }
  simpl in Hnd. apply NoDup_cons in Hnd as [Hd Hnd].
  destruct (max_of replicas d <? min_of replicas d) eqn:E; zbool; [done|].
  intros Hr. apply IH in Hr as [H1 H2]; [|done]. destruct (H2 (sd_Name d) Hd) as [Ha Hc].
  split.
  - intros x Hx. apply elem_of_cons in Hx as [->|Hx]; [|by apply H1].
    rewrite Ha, Hc, !lookup_insert_eq. done.
  - intros n Hn. rewrite not_elem_of_cons in Hn. destruct Hn as [Hne Hn].
    destruct (H2 n Hn) as [-> ->]. rewrite !lookup_insert_ne by done. done.
Qed.

Lemma min_max_bounds replicas d :
  0 <= replicas <= int32_max -> int32_value (sd_MinReplicas d) -> int32_value (sd_MaxReplicas d) ->
  0 <= min_of replicas d <= int32_max /\ 0 <= max_of replicas d <= int32_max.
Proof.
  intros Hb H1 H2. unfold min_of, max_of, default_max_replicas, int32_value in *.
  split.
  - destruct (sd_MinReplicas d) as [x|]; [|unfold int32_max; lia].
    destruct (ParseSubsetReplicas replicas x) as [v|] eqn:E; simpl; [|unfold int32_max; lia].
    by apply (ParseSubsetReplicas_range replicas x); [destruct x|lia|].
  - destruct (sd_MaxReplicas d) as [x|]; [|unfold int32_max; lia].
    destruct (ParseSubsetReplicas replicas x) as [v|] eqn:E; simpl; [|unfold int32_max; lia].
    by apply (ParseSubsetReplicas_range replicas x); [destruct x|lia|].
Qed.

Lemma sumZ_sub {A} (f h : A -> Z) l : sumZ (fun x => f x - h x) l = sumZ f l - sumZ h l.
Proof. unfold sumZ. induction l as [|x l IH]; simpl; [done|]. lia. Qed.

(** Equal sums of pointwise smaller terms are equal term by term. *)
Lemma sumZ_eq_pointwise {A} (f h : A -> Z) l x :
  (forall x, x ∈ l -> f x <= h x) -> sumZ f l = sumZ h l -> x ∈ l -> f x = h x.
Proof.
  intros Hle Hs Hx. apply list_elem_of_split in Hx as (l1 & l2 & ->).
  rewrite !sumZ_app in Hs. change (sumZ ?k (x :: l2)) with (k x + sumZ k l2) in Hs.
  assert (sumZ f l1 <= sumZ h l1) by (apply sumZ_le; intros y Hy; apply Hle; set_solver).
  assert (sumZ f l2 <= sumZ h l2) by (apply sumZ_le; intros y Hy; apply Hle; set_solver).
  assert (f x <= h x) by (apply Hle; set_solver). lia.
Qed.

Section ElasticAlloc.
Context (ud : UnitedDeployment) (replicas : Z) (Hr : default 1 (ud_Replicas ud) = replicas)
        (Hb : 0 <= replicas <= int32_max) (Hnd : NoDup (map sd_Name (ud_Subsets ud)))
        (H32 : forall d, d ∈ ud_Subsets ud -> int32_value (sd_MinReplicas d) /\ int32_value (sd_MaxReplicas d)).
Let lo (d : SubsetDef) : Z := min_of replicas d.
Let hi (d : SubsetDef) : Z := max_of replicas d.

(** A UnitedDeployment with minimum and maximum replicas hands out exactly
    [spec.replicas], or the sum of the maxima when that is less; when the minima
    fit into [spec.replicas] every subset gets at least its minimum and at most its
    maximum, and when they do not, no subset gets more than its minimum. *)
Theorem elastic_alloc_exact m :
  elastic_Alloc ud = inr m ->
  sumZ (got m) (ud_Subsets ud) = Z.min replicas (sumZ hi (ud_Subsets ud)) /\
  (sumZ lo (ud_Subsets ud) <= replicas -> forall d, d ∈ ud_Subsets ud -> lo d <= got m d <= hi d) /\
  (replicas <= sumZ lo (ud_Subsets ud) -> forall d, d ∈ ud_Subsets ud -> 0 <= got m d <= lo d).
Proof.
  unfold elastic_Alloc. rewrite Hr.
  destruct (validateAndCalculateMinMaxMap replicas 0 ∅ ∅ (ud_Subsets ud)) as [e|[mnm mxm]] eqn:Ev; [done|].
  apply minmax_spec in Ev as [Hmm _]; [|done]. simpl in Hmm. intros [= <-].
  assert (Hlohi : forall d, d ∈ ud_Subsets ud ->
    mn mnm d = lo d /\ mx mxm d = hi d /\ 0 <= lo d <= hi d /\ hi d <= int32_max).
  { intros d Hd. destruct (Hmm d Hd) as (H1 & H2 & H3). destruct (H32 d Hd) as [H4 H5].
    destruct (min_max_bounds replicas d Hb H4 H5). unfold lo, hi. repeat split; auto; lia. }
  assert (Hsl : sumZ (mn mnm) (ud_Subsets ud) = sumZ lo (ud_Subsets ud))
    by (apply sumZ_ext; intros d Hd; by destruct (Hlohi d Hd)).
  assert (Hsh : sumZ (mx mxm) (ud_Subsets ud) = sumZ hi (ud_Subsets ud))
    by (apply sumZ_ext; intros d Hd; by destruct (Hlohi d Hd) as (_ & ? & _)).
  assert (Hle : sumZ lo (ud_Subsets ud) <= sumZ hi (ud_Subsets ud))
    by (apply sumZ_le; intros d Hd; destruct (Hlohi d Hd) as (_ & _ & ? & _); lia).
  assert (Hlo0 : 0 <= sumZ lo (ud_Subsets ud))
    by (apply sumZ_nonneg; intros d Hd; destruct (Hlohi d Hd) as (_ & _ & ? & _); lia).
  unfold elastic_alloc.
  pose proof (alloc_min_spec replicas mnm Hb (ud_Subsets ud) 0 ∅ Hnd) as Hmin.
  destruct (alloc_min replicas mnm (ud_Subsets ud) 0 ∅) as [a m1].
  destruct Hmin as (H1 & H2 & H3 & H4 & _);
    [intros d Hd; destruct (Hlohi d Hd) as (-> & _ & ? & ?); lia|lia|].
  rewrite Hsl in H1. destruct (replicas <=? a) eqn:Ea; zbool.
  - split; [lia|]. split.
    + intros Hfit d Hd. destruct (Hlohi d Hd) as (E1 & E2 & ? & ?). pose proof (H3 d Hd).
      assert (got m1 d = lo d); [|lia]. apply (sumZ_eq_pointwise _ _ (ud_Subsets ud)); [|lia|done].
      intros x Hx. destruct (Hlohi x Hx) as (<- & _). by apply H3.
    + intros _ d Hd. destruct (Hlohi d Hd) as (<- & _). by apply H3.
  - assert (Hfits : sumZ lo (ud_Subsets ud) < replicas) by lia.
    destruct (alloc_max_spec replicas mnm mxm Hb (ud_Subsets ud) a m1 Hnd) as (G1 & G2 & _).
    + intros d Hd. destruct (Hlohi d Hd) as (-> & -> & ? & ?). lia.
    + lia.
    + by apply H4.
    + rewrite sumZ_sub, Hsl, Hsh in G1. split; [lia|]. split; [|lia].
      intros _ d Hd. destruct (Hlohi d Hd) as (<- & <- & _). by apply G2.
Qed.
End ElasticAlloc.

(** A percentage of the replicas is rounded to the nearest integer, halves up, in
    spite of the two floating-point roundings; a plain number is taken as it is; and
    negative numbers, percentages outside [0, 100] and percentages without replicas
    to take them of are rejected. *)
Theorem parse_subset_replicas_exact (p replicas v : Z) :
  0 <= p <= 100 -> 0 <= replicas <= int32_max ->
  ParseSubsetReplicas replicas (FromString (Num.percent p)) = Some ((replicas * p + 50) / 100) /\
  ParseSubsetReplicas (-1) (FromString (Num.percent p)) = None /\
  ParseSubsetReplicas replicas (FromInt v) = (if v <? 0 then None else Some v).
Proof.
  intros Hp Hr. split; [|done]. unfold ParseSubsetReplicas.
  destruct (replicas <? 0) eqn:E; zbool; [lia|].
  assert (Hparse : HasSuffix (Num.percent p) "%" = true /\
                   conv_ok (ParseInt (TrimSuffix (Num.percent p) "%") 32) = Some p).
  { assert (Hall : forallb (fun p => HasSuffix (Num.percent p) "%"
      && bool_decide (conv_ok (ParseInt (TrimSuffix (Num.percent p) "%") 32) = Some p)) (seqZ 0 101) = true)
      by (vm_compute; reflexivity).
    rewrite forallb_forall in Hall. specialize (Hall p).
    rewrite <-list_elem_of_In, elem_of_seqZ in Hall. specialize (Hall ltac:(lia)).
    apply andb_true_iff in Hall as [H1 H2]. split; [done|]. by apply bool_decide_eq_true in H2. }
  destruct Hparse as [-> ->]. simpl negb. cbv iota.
  destruct ((100 <? p) || (p <? 0)) eqn:E2; [zcases; apply orb_true_iff in E2 as [?|?]; zbool; lia|].
  unfold round, int32_max in *. rewrite f64_pct_half_up_exact by lia. f_equal. apply wrap32_id.
  assert (0 <= (replicas * p + 50) / 100 <= replicas).
  { split; [apply Z.div_pos; nia|]. apply Z.lt_succ_r, Z.div_lt_upper_bound; nia. }
  unfold is_int32, int32_min, int32_max. lia.
Qed.

(** ** Partitions and updates of the subsets *)

Definition subset_partition (ud : UnitedDeployment) (nextReplicas : gmap string Z) (d : SubsetDef) : Z :=
  let subsetPartition :=
    match ud_ManualPartitions ud with
    | Some partitions => default 0 (partitions !! sd_Name d)
    | None => 0
    end in
  match nextReplicas !! sd_Name d with
  | Some subsetReplicas => if subsetReplicas <? subsetPartition then subsetReplicas else subsetPartition
  | None => subsetPartition
  end.

Definition calcNextPartitions (ud : UnitedDeployment) (nextReplicas : gmap string Z) : gmap string Z :=
  fold_left (fun m d => <[sd_Name d := subset_partition ud nextReplicas d]> m) (ud_Subsets ud) ∅.

Definition getNextUpdate (ud : UnitedDeployment) (nextReplicas nextPartitions : gmap string Z)
  : gmap string SubsetUpdate :=
  fold_left (fun m d =>
    <[sd_Name d := mkSubsetUpdate (default 0 (nextReplicas !! sd_Name d))
                     (default 0 (nextPartitions !! sd_Name d)) (sd_Patch d)]> m) (ud_Subsets ud) ∅.

(** A map built by inserting a value for every element of a list. *)
Lemma fold_insert_other {A V} (name : A -> string) (f : A -> V) l (m : gmap string V) n :
  n ∉ map name l -> fold_left (fun m d => <[name d := f d]> m) l m !! n = m !! n.
Proof.
  revert m. induction l as [|d l IH]; intros m Hn; simpl in *; [done|].
  rewrite not_elem_of_cons in Hn. destruct Hn as [Hd Hn]. rewrite IH by done. by apply lookup_insert_ne.
Qed.

Lemma fold_insert_lookup {A V} (name : A -> string) (f : A -> V) l (m : gmap string V) d :
  NoDup (map name l) -> d ∈ l -> fold_left (fun m d => <[name d := f d]> m) l m !! name d = Some (f d).
Proof.
  revert m. induction l as [|e l IH]; intros m Hnd Hd; simpl in *; [by apply not_elem_of_nil in Hd|].
  apply NoDup_cons in Hnd as [He Hnd]. apply elem_of_cons in Hd as [->|Hd]; [|by apply IH].
  rewrite fold_insert_other by done. apply lookup_insert_eq.
Qed.

(** The update planned for a subset carries the replicas allocated to it, its own
    patch, and the partition the user asked for, cut down to the replicas: no subset
    is told to keep more old pods than it has replicas. *)
Theorem next_update_partition (ud : UnitedDeployment) (nextReplicas : gmap string Z) (d : SubsetDef) (r : Z) :
  NoDup (map sd_Name (ud_Subsets ud)) -> d ∈ ud_Subsets ud -> nextReplicas !! sd_Name d = Some r ->
  getNextUpdate ud nextReplicas (calcNextPartitions ud nextReplicas) !! sd_Name d
  = Some (mkSubsetUpdate r
      (Z.min r (match ud_ManualPartitions ud with Some ps => default 0 (ps !! sd_Name d) | None => 0 end))
      (sd_Patch d)).
Proof.
  intros Hnd Hd Hr. unfold getNextUpdate. rewrite fold_insert_lookup by done. rewrite Hr.
  unfold calcNextPartitions. rewrite fold_insert_lookup by done. simpl. do 2 f_equal.
  unfold subset_partition. rewrite Hr. zcases.
Qed.

(** The subsets that must be updated: [expected] is [IsExpected] of the control. *)
Definition needs_update (expected : Subset -> bool) (next : SubsetUpdate) (s : Subset) : bool :=
  expected s || negb (ss_Replicas s =? su_Replicas next) || negb (ss_Partition s =? su_Partition next)
  || negb (String.eqb (ss_PatchAnnotation s) (su_Patch next)).

(** [manageSubsetProvision]: the subsets to create, to delete and to keep. *)
Definition provision_plan (ud : UnitedDeployment) (nameToSubset : gmap string Subset)
  : gset string * gset string * gset string :=
  let expectedSubsets : gset string := list_to_set (map sd_Name (ud_Subsets ud)) in
  let gotSubsets : gset string := dom nameToSubset in
  (expectedSubsets ∖ gotSubsets, gotSubsets ∖ expectedSubsets, expectedSubsets ∩ gotSubsets).

Definition SubSetNameLabelKey : string := "apps.kruise.io/subset-name".

Definition getSubsetNameFrom (s : Subset) : option string :=
  match ss_Labels s !! SubSetNameLabelKey with
  | None => None
  | Some name => if String.eqb name "" then None else Some name
  end.

(** The subsets by name, in the order they were listed. *)
Definition classifySubsetBySubsetName (subsets : list Subset) : gmap string (list Subset) :=
  fold_left (fun m s =>
    match getSubsetNameFrom s with
    | None => m
    | Some n => <[n := default [] (m !! n) ++ [s]]> m
    end) subsets ∅.

(** ** Conditions *)

Record UDCondition := mkUDCond {
  uc_Type : string;
  uc_Status : string;
  uc_LastTransitionTime : Z;
  uc_Reason : string;
  uc_Message : string;
}.

Fixpoint GetUnitedDeploymentCondition (l : list UDCondition) (t : string) : option UDCondition :=
  match l with
  | [] => None
  | c :: l' => if String.eqb (uc_Type c) t then Some c else GetUnitedDeploymentCondition l' t
  end.

Definition filterOutCondition (l : list UDCondition) (t : string) : list UDCondition :=
  filterb (fun c => negb (String.eqb (uc_Type c) t)) l.

Definition SetUnitedDeploymentCondition (l : list UDCondition) (c : UDCondition) : list UDCondition :=
  match GetUnitedDeploymentCondition l (uc_Type c) with
  | Some cur =>
      if String.eqb (uc_Status cur) (uc_Status c) && String.eqb (uc_Reason cur) (uc_Reason c) then l
      else
        let c := if String.eqb (uc_Status cur) (uc_Status c)
                 then mkUDCond (uc_Type c) (uc_Status c) (uc_LastTransitionTime cur) (uc_Reason c) (uc_Message c)
                 else c in
        filterOutCondition l (uc_Type c) ++ [c]
  | None => filterOutCondition l (uc_Type c) ++ [c]
  end.

Definition RemoveUnitedDeploymentCondition (l : list UDCondition) (t : string) : list UDCondition :=
  filterOutCondition l t.

Lemma get_filtered_other l t t' : t <> t' ->
  GetUnitedDeploymentCondition (filterOutCondition l t) t' = GetUnitedDeploymentCondition l t'.
Proof.
  intros Hne. unfold filterOutCondition. induction l as [|c l IH]; simpl; [done|].
  destruct (String.eqb_spec (uc_Type c) t) as [E|E]; simpl.
  - rewrite IH. destruct (String.eqb_spec (uc_Type c) t'); congruence.
  - by rewrite IH.
Qed.

Lemma get_filtered_same l t : GetUnitedDeploymentCondition (filterOutCondition l t) t = None.
Proof.
  unfold filterOutCondition. induction l as [|c l IH]; simpl; [done|].
  destruct (String.eqb_spec (uc_Type c) t); simpl; [done|]. by destruct (String.eqb_spec (uc_Type c) t).
Qed.

Lemma get_app l1 l2 t :
  GetUnitedDeploymentCondition (l1 ++ l2) t
  = match GetUnitedDeploymentCondition l1 t with
    | Some c => Some c
    | None => GetUnitedDeploymentCondition l2 t
    end.
Proof. induction l1 as [|c l1 IH]; simpl; [done|]. by destruct (String.eqb _ _). Qed.

(** Setting a condition: afterwards the condition of that type has the status and
    the reason that were set, the transition time changes only when the status does,
    and the conditions of other types are untouched. *)
Lemma set_condition_spec (l : list UDCondition) (c : UDCondition) :
  let l' := SetUnitedDeploymentCondition l c in
  (exists c', GetUnitedDeploymentCondition l' (uc_Type c) = Some c' /\
     uc_Status c' = uc_Status c /\ uc_Reason c' = uc_Reason c /\
     uc_LastTransitionTime c' =
       (match GetUnitedDeploymentCondition l (uc_Type c) with
        | Some cur => if String.eqb (uc_Status cur) (uc_Status c) then uc_LastTransitionTime cur
                      else uc_LastTransitionTime c
        | None => uc_LastTransitionTime c
        end)) /\
  (forall t, t <> uc_Type c -> GetUnitedDeploymentCondition l' t = GetUnitedDeploymentCondition l t).
Proof.
  assert (Hset : forall d, uc_Type d = uc_Type c ->
    GetUnitedDeploymentCondition (filterOutCondition l (uc_Type c) ++ [d]) (uc_Type c) = Some d /\
    forall t, t <> uc_Type c ->
      GetUnitedDeploymentCondition (filterOutCondition l (uc_Type c) ++ [d]) t = GetUnitedDeploymentCondition l t).
  { intros d Hd. split.
    - rewrite get_app, get_filtered_same. simpl. by rewrite Hd, String.eqb_refl.
    - intros t Ht. rewrite get_app, get_filtered_other by done.
      destruct (GetUnitedDeploymentCondition l t); [done|]. simpl. rewrite Hd.
      by destruct (String.eqb_spec (uc_Type c) t). }
  unfold SetUnitedDeploymentCondition.
  destruct (GetUnitedDeploymentCondition l (uc_Type c)) as [cur|] eqn:Ec.
  - destruct (String.eqb_spec (uc_Status cur) (uc_Status c)) as [Es|Es];
      [destruct (String.eqb_spec (uc_Reason cur) (uc_Reason c)) as [Er|Er]|]; simpl.
    + split; [|done]. exists cur. done.
    + destruct (Hset (mkUDCond (uc_Type c) (uc_Status c) (uc_LastTransitionTime cur) (uc_Reason c) (uc_Message c))
                  eq_refl) as [H1 H2]. split; [|done]. eexists. split; [exact H1|done].
    + destruct (Hset c eq_refl) as [H1 H2]. split; [|done]. exists c. done.
  - destruct (Hset c eq_refl) as [H1 H2]. split; [|done]. exists c. done.
Qed.

(** ** Witnesses *)

Ltac distinct_names :=
  cbn; repeat (apply NoDup_cons; split;
    [intros Hin; repeat (apply elem_of_cons in Hin as [Hin|Hin]; [discriminate Hin|]); by apply not_elem_of_nil in Hin|]);
  apply NoDup_nil_2.

Definition ex_subset (name : string) (r lo hi : option IntOrString) : SubsetDef := mkSubsetDef name r lo hi "".
Definition ex_ud : UnitedDeployment :=
  mkUD (Some 10) [ex_subset "a" (Some (FromString "20%")) None None; ex_subset "b" None None None;
                  ex_subset "c" None None None; ex_subset "d" None None None] None.
Definition ex_elastic : UnitedDeployment :=
  mkUD (Some 5) [ex_subset "a" None (Some (FromInt 2)) (Some (FromInt 4));
                 ex_subset "b" None (Some (FromInt 2)) None] (Some {[ "a"%string := 9 ]}).

(** The example of the comment on [elasticAllocator.Alloc]. *)
Example ex_elastic_alloc : elastic_Alloc ex_elastic = inr {[ "a"%string := 3; "b"%string := 2 ]}.
Proof. vm_compute. reflexivity. Qed.

Definition ex_alloc : gmap string Z := {[ "a"%string := 2; "b"%string := 2; "c"%string := 3; "d"%string := 3 ]}.

Example ex_specific_alloc : specific_Alloc ex_ud ∅ = inr ex_alloc.
Proof. vm_compute. reflexivity. Qed.

Lemma specific_alloc_exact_witness :
  sumZ (fun d => default 0 (ex_alloc !! sd_Name d)) (ud_Subsets ex_ud) = 10 /\
  (forall d v, d ∈ ud_Subsets ex_ud -> getSpecifiedSubsetReplicas 10 ex_ud !! sd_Name d = Some v ->
     ex_alloc !! sd_Name d = Some v) /\
  (exists q, forall d, d ∈ ud_Subsets ex_ud -> getSpecifiedSubsetReplicas 10 ex_ud !! sd_Name d = None ->
     exists v, ex_alloc !! sd_Name d = Some v /\ q <= v <= q + 1).
Proof.
  apply (specific_alloc_exact ex_ud ∅ 10).
  - reflexivity.
  - vm_compute. split; intro; discriminate.
  - distinct_names.
  - intros d Hd. repeat (apply elem_of_cons in Hd as [->|Hd]; [exact I|]). by apply not_elem_of_nil in Hd.
  - vm_compute. intro; discriminate.
  - exact ex_specific_alloc.
Defined.

Definition ex_alloc2 : gmap string Z := {[ "a"%string := 3; "b"%string := 2 ]}.

Lemma elastic_alloc_exact_witness :
  sumZ (got ex_alloc2) (ud_Subsets ex_elastic) = Z.min 5 (sumZ (max_of 5) (ud_Subsets ex_elastic)) /\
  (sumZ (min_of 5) (ud_Subsets ex_elastic) <= 5 ->
     forall d, d ∈ ud_Subsets ex_elastic -> min_of 5 d <= got ex_alloc2 d <= max_of 5 d) /\
  (5 <= sumZ (min_of 5) (ud_Subsets ex_elastic) ->
     forall d, d ∈ ud_Subsets ex_elastic -> 0 <= got ex_alloc2 d <= min_of 5 d).
Proof.
  apply (elastic_alloc_exact ex_elastic 5).
  - reflexivity.
  - vm_compute. split; intro; discriminate.
  - distinct_names.
  - intros d Hd. repeat (apply elem_of_cons in Hd as [->|Hd]; [vm_compute; split; (exact I || (intro; discriminate))|]).
    by apply not_elem_of_nil in Hd.
  - exact ex_elastic_alloc.
Defined.

Lemma parse_subset_replicas_exact_witness :
  ParseSubsetReplicas 7 (FromString "50%") = Some ((7 * 50 + 50) / 100) /\
  ParseSubsetReplicas (-1) (FromString "50%") = None /\
  ParseSubsetReplicas 7 (FromInt (-2)) = (if -2 <? 0 then None else Some (-2)).
Proof. apply (parse_subset_replicas_exact 50 7 (-2)); [lia|unfold int32_max; lia]. Defined.

Lemma next_update_partition_witness :
  getNextUpdate ex_elastic {[ "a"%string := 3; "b"%string := 2 ]}
    (calcNextPartitions ex_elastic {[ "a"%string := 3; "b"%string := 2 ]}) !! "a"%string
  = Some (mkSubsetUpdate 3 (Z.min 3 9) "").
Proof.
  apply (next_update_partition ex_elastic {[ "a"%string := 3; "b"%string := 2 ]}
           (ex_subset "a" None (Some (FromInt 2)) (Some (FromInt 4))) 3).
  - distinct_names.
  - left.
  - reflexivity.
Defined.
