(* ===== verification/SidecarSetStrategy.v ===== *)
(** * pkg/controller/sidecarset/sidecarset_strategy.go

    Which pods a SidecarSet upgrades next: the selection, the order, and the number
    that [partition] and [maxUnavailable] allow.  The predicates of
    [sidecarcontrol.SidecarControl] (an interface in the code) are arguments.  A
    negative [partition], which the webhook rejects, makes the code slice out of
    range; the theorems ask for a non-negative one. *)

From S2P Require Import Prelude GoLib GoText K8s Tools Lifecycle UpdateSort PodSorter CloneSetUpdate.
Open Scope Z_scope.
Open Scope kruise_scope.

(** The update strategy of a SidecarSet. *)
Record SidecarSetUpdateStrategy := mkSidecarStrategy {
  sx_Partition : option IntOrString;
  sx_MaxUnavailable : option IntOrString;
  sx_PriorityStrategy : option UpdatePriorityStrategy;
  sx_ScatterStrategy : option UpdateScatterStrategy;
}.

(** ** Scatter terms *)

Definition term_eqb (a b : UpdateScatterTerm) : bool :=
  String.eqb (st_key a) (st_key b) && String.eqb (st_value a) (st_value b).

Definition insertUpdateScatterTerm (scatter : UpdateScatterStrategy) (term : UpdateScatterTerm)
  : UpdateScatterStrategy :=
  if existsb (term_eqb term) scatter then scatter else scatter ++ [term].

(** The values the pods have for a label, in their order. *)
Definition matchScatterTerms (pods : list Pod) (regularLabel : string) : list UpdateScatterTerm :=
  omap (fun p => match p_labels p !! regularLabel with
                 | Some v => Some (mkScatter regularLabel v)
                 | None => None
                 end) pods.

Definition parseUpdateScatterTerms (scatter : UpdateScatterStrategy) (pods : list Pod)
  : UpdateScatterStrategy :=
  fold_left (fun newScatter term =>
    if negb (String.eqb (st_value term) "*") then insertUpdateScatterTerm newScatter term
    else fold_left insertUpdateScatterTerm (matchScatterTerms pods (st_key term)) newScatter)
    scatter [].

Section Strategy.
Context `{GoSort}.
(** [IsPodSidecarUpdated], [IsPodReady], [IsPodStateConsistent],
    [IsSidecarSetUpgradable] and the selector of the strategy. *)
Context (isUpdated isReady isConsistent : Pod -> bool) (upgradable : Pod -> bool * bool)
        (isSelected : Pod -> bool).

Definition SortSidecarIndexes (strategy : SidecarSetUpdateStrategy) (pods : list Pod)
  (waitUpdateIndexes : list nat) : list nat :=
  let l := sort_by (default_less pods) waitUpdateIndexes in
  let l := match sx_PriorityStrategy strategy with
           | Some s => Priority.Sort (Some s) pods l
           | None => l
           end in
  match sx_ScatterStrategy strategy with
  | Some s => Scatter.Sort (parseUpdateScatterTerms s pods) pods l
  | None => l
  end.

(** The last loop of [calculateUpgradeCount]. *)
Fixpoint upgrade_loop (pods : list Pod) (maxUnavailable notReadyCount needUpgradeCount : Z)
  (indexes : list nat) : Z :=
  match indexes with
  | [] => needUpgradeCount
  | i :: rest =>
      if negb (isReady (pod_at pods i)) then
        upgrade_loop pods maxUnavailable notReadyCount (needUpgradeCount + 1) rest
      else if maxUnavailable <=? notReadyCount then needUpgradeCount
      else upgrade_loop pods maxUnavailable (notReadyCount + 1) (needUpgradeCount + 1) rest
  end.

Definition partition_of (strategy : SidecarSetUpdateStrategy) (total : Z) : Z :=
  match sx_Partition strategy with
  | Some x => GetValueFromIntOrPercent_ x total false
  | None => 0
  end.
Definition maxUnavailable_of (strategy : SidecarSetUpdateStrategy) (total : Z) : Z :=
  match sx_MaxUnavailable strategy with
  | Some x => GetValueFromIntOrPercent_ x total false
  | None => 1
  end.

(** Upgraded, and not ready or not consistent yet. *)
Definition upgrading (p : Pod) : bool := isUpdated p && (negb (isConsistent p) || negb (isReady p)).

Definition calculateUpgradeCount (strategy : SidecarSetUpdateStrategy) (waitUpdateIndexes : list nat)
  (pods : list Pod) : Z :=
  let partition := partition_of strategy (len pods) in
  if len waitUpdateIndexes - partition <=? 0 then 0
  else
    let wait := slice_to waitUpdateIndexes (len waitUpdateIndexes - partition) in
    upgrade_loop pods (maxUnavailable_of strategy (len pods)) (countb upgrading pods) 0 wait.

(** The pods to consider: not updated and selected. *)
Definition candidate (p : Pod) : bool := negb (isUpdated p) && isSelected p.

(** The pods to upgrade now, and the ones that can not be upgraded in place. *)
Definition GetNextUpgradePods (strategy : SidecarSetUpdateStrategy) (pods : list Pod)
  : list Pod * list Pod :=
  let wait := wait_indexes 0 (fun p => candidate p && ((upgradable p).1 && (upgradable p).2)) pods in
  let notUpgradable := wait_indexes 0 (fun p => candidate p && negb (upgradable p).1) pods in
  let wait := SortSidecarIndexes strategy pods wait in
  let need := calculateUpgradeCount strategy wait pods in
  let wait := if need <? len wait then slice_to wait need else wait in
  (map (pod_at pods) wait, map (pod_at pods) notUpgradable).

(** *** Lemmas *)

Lemma SortSidecarIndexes_perm strategy pods l : SortSidecarIndexes strategy pods l ≡ₚ l.
Proof.
  unfold SortSidecarIndexes. destruct (sx_ScatterStrategy strategy); rewrite ?Scatter.scatter_perm;
    destruct (sx_PriorityStrategy strategy); rewrite ?Priority.priority_perm; apply sort_by_perm.
Qed.

Lemma upgrade_loop_spec pods mu nr c0 l :
  let n := upgrade_loop pods mu nr c0 l in
  c0 <= n <= c0 + len l /\
  (let k := countb (fun i => isReady (pod_at pods i)) (take (Z.to_nat (n - c0)) l) in
   k = 0 \/ nr + k <= mu).
Proof.
  revert nr c0. induction l as [|i l IH]; intros nr c0; cbn [upgrade_loop].
  - cbv zeta. rewrite take_nil. simpl. lia.
  - assert (Hstep : forall n, c0 + 1 <= n ->
      take (Z.to_nat (n - c0)) (i :: l) = i :: take (Z.to_nat (n - (c0 + 1))) l).
    { intros n Hn. replace (Z.to_nat (n - c0)) with (S (Z.to_nat (n - (c0 + 1)))) by lia. done. }
    destruct (isReady (pod_at pods i)) eqn:Er; simpl negb; cbv iota.
    + destruct (mu <=? nr) eqn:E; zbool.
      { cbv zeta. rewrite Z.sub_diag. simpl. lia. }
      destruct (IH (nr + 1) (c0 + 1)) as [H1 H2]. cbv zeta in *.
      rewrite Hstep by lia. cbn [countb length]. rewrite Er. lia.
    + destruct (IH nr (c0 + 1)) as [H1 H2]. cbv zeta in *.
      rewrite Hstep by lia. cbn [countb length]. rewrite Er. lia.
Qed.

Lemma calculateUpgradeCount_spec strategy wait pods :
  0 <= partition_of strategy (len pods) ->
  let n := calculateUpgradeCount strategy wait pods in
  0 <= n <= Z.max 0 (len wait - partition_of strategy (len pods)) /\
  (let k := countb (fun i => isReady (pod_at pods i)) (take (Z.to_nat n) wait) in
   k = 0 \/ countb upgrading pods + k <= maxUnavailable_of strategy (len pods)).
Proof.
  intros Hp. unfold calculateUpgradeCount.
  destruct (len wait - partition_of strategy (len pods) <=? 0) eqn:E; zbool.
  { cbv zeta. simpl. lia. }
  set (w := slice_to wait _).
  destruct (upgrade_loop_spec pods (maxUnavailable_of strategy (len pods)) (countb upgrading pods) 0 w) as [H1 H2].
  cbv zeta in *. rewrite Z.sub_0_r in H2.
  assert (Hlen : len w = len wait - partition_of strategy (len pods))
    by (unfold w, slice_to; rewrite length_take; lia).
  split; [lia|]. set (n := upgrade_loop _ _ _ 0 w) in *.
  assert (take (Z.to_nat n) w = take (Z.to_nat n) wait) as Ht.
  { unfold w, slice_to. rewrite take_take. f_equal. lia. }
  by rewrite <-Ht.
Qed.

(** A SidecarSet upgrade keeps its limits.  The pods chosen are pods of the set
    that are not updated, selected and upgradable; at least [partition] of the pods
    that wait are left alone; and the ready pods that are chosen, together with the
    upgraded pods that are not ready or not consistent yet, stay within
    [maxUnavailable] (pods that are not ready anyway do not count). *)
Theorem sidecar_upgrade_bounds (strategy : SidecarSetUpdateStrategy) (pods : list Pod) :
  0 <= partition_of strategy (len pods) ->
  let '(up, notUp) := GetNextUpgradePods strategy pods in
  let waiting := countb (fun p => candidate p && ((upgradable p).1 && (upgradable p).2)) pods in
  len up <= Z.max 0 (waiting - partition_of strategy (len pods)) /\
  (forall p, p ∈ up -> p ∈ pods /\ isUpdated p = false /\ isSelected p = true /\ upgradable p = (true, true)) /\
  (countb isReady up = 0 \/
   countb upgrading pods + countb isReady up <= maxUnavailable_of strategy (len pods)).
Proof.
  intros Hp. unfold GetNextUpgradePods.
  set (f := fun p => candidate p && ((upgradable p).1 && (upgradable p).2)).
  set (wait := SortSidecarIndexes strategy pods (wait_indexes 0 f pods)).
  destruct (calculateUpgradeCount_spec strategy wait pods Hp) as [H1 H2]. cbv zeta in H2.
  set (n := calculateUpgradeCount strategy wait pods) in *.
  assert (Hw : (if n <? len wait then slice_to wait n else wait) = take (Z.to_nat n) wait).
  { destruct (n <? len wait) eqn:E; zbool; [done|]. rewrite take_ge; [done|lia]. }
  rewrite Hw. assert (Hperm : wait ≡ₚ wait_indexes 0 f pods) by apply SortSidecarIndexes_perm.
  assert (Hlen : len wait = countb f pods).
  { rewrite (Permutation_length Hperm). clear. generalize O. induction pods as [|p pods IH]; intros i; simpl; [done|].
    destruct (f p); cbn [length]; rewrite ?Nat2Z.inj_succ, IH; lia. }
  split; [rewrite length_map, length_take; lia|]. split.
  - intros p Hin. apply list_elem_of_fmap in Hin as (i & -> & Hi). apply subseteq_take in Hi.
    rewrite Hperm in Hi. apply wait_indexes_elem in Hi as (p & Hlk & Hf & _). rewrite Nat.sub_0_r in Hlk.
    unfold pod_at. rewrite Hlk. simpl. split; [by eapply list_elem_of_lookup_2|].
    unfold f, candidate in Hf. destruct (upgradable p) as [u c]. simpl in Hf.
    destruct (isUpdated p), (isSelected p), u, c; done.
  - rewrite countb_map. exact H2.
Qed.
End Strategy.

Lemma sidecar_upgrade_bounds_witness :
  let strategy := mkSidecarStrategy (Some (FromInt 1)) (Some (FromInt 1)) None None in
  let pods := [named_pod "a"; named_pod "b"; named_pod "c"] in
  let '(up, notUp) := GetNextUpgradePods (fun _ => false) (fun _ => true) (fun _ => true) (fun _ => (true, true))
                        (fun _ => true) strategy pods in
  len up <= Z.max 0 (3 - 1) /\
  (forall p, p ∈ up -> p ∈ pods /\ false = false /\ true = true /\ (true, true) = (true, true)) /\
  (countb (fun _ => true) up = 0 \/ 0 + countb (fun _ => true) up <= 1).
Proof.
  apply (sidecar_upgrade_bounds (fun _ => false) (fun _ => true) (fun _ => true) (fun _ => (true, true)) (fun _ => true)
    (mkSidecarStrategy (Some (FromInt 1)) (Some (FromInt 1)) None None) [named_pod "a"; named_pod "b"; named_pod "c"]).
  vm_compute. intro; discriminate.
Defined.
