(* ===== verification/PubControl.v ===== *)
(** * PodUnavailableBudget: the admission check and the controller

    pkg/control/pubcontrol ([PodUnavailableBudgetValidatePod] and what it
    calls) and pkg/controller/podunavailablebudget
    ([syncPodUnavailableBudget] and what it calls).

    The webhook and the controller share one PUB object through the API server.
    Both read a version of it that may be old (the process-wide cache, the
    informer), change its status and write it back with optimistic concurrency:
    the write is refused when the resource version is no longer the current one,
    and then retried, four times in all, on a version read from the server.  The
    server is modelled as the history of the versions of the object; other
    processes move the history between the read and the write.  A [nil] map of
    the status is the empty map: the code only looks keys up, counts them,
    inserts after a [make], and compares with [Semantic.DeepEqual], which does
    not distinguish the two. *)

From S2P Require Import Prelude GoLib GoText K8s Tools.
Open Scope Z_scope.
Open Scope kruise_scope.

(** ** Objects *)

Definition PubProtectOperationAnnotation : string := "kruise.io/pub-protect-operations".
Definition PodPubNoProtectionAnnotation : string := "pub.kruise.io/no-protect".
Definition PodRelatedPubAnnotation : string := "kruise.io/related-pub".
Definition PubUnavailablePodLabelPrefix : string := "unavailable-pod.kruise.io/".

Inductive PubOperation := PubUpdateOperation | PubDeleteOperation | PubEvictOperation.
Definition op_string (op : PubOperation) : string :=
  match op with
  | PubUpdateOperation => "UPDATE"
  | PubDeleteOperation => "DELETE"
  | PubEvictOperation => "EVICT"
  end.

Record PubStatus := mkPubStatus {
  ObservedGeneration : Z;
  DisruptedPods : gmap string Z;
  UnavailablePods : gmap string Z;
  UnavailableAllowed : Z;
  CurrentAvailable : Z;
  DesiredAvailable : Z;
  TotalReplicas : Z;
}.

Record Pub := mkPub {
  pub_name : string;
  pub_namespace : string;
  pub_resourceVersion : string;
  pub_generation : Z;
  pub_annotations : gmap string string;
  pub_maxUnavailable : option IntOrString;
  pub_minAvailable : option IntOrString;
  pub_status : PubStatus;
}.

Definition with_status (p : Pub) (s : PubStatus) : Pub :=
  mkPub (pub_name p) (pub_namespace p) (pub_resourceVersion p) (pub_generation p)
    (pub_annotations p) (pub_maxUnavailable p) (pub_minAvailable p) s.
Definition with_rv (p : Pub) (rv : string) : Pub :=
  mkPub (pub_name p) (pub_namespace p) rv (pub_generation p)
    (pub_annotations p) (pub_maxUnavailable p) (pub_minAvailable p) (pub_status p).

#[export] Instance IntOrString_eq_dec : EqDecision IntOrString.
Proof. solve_decision. Defined.
#[export] Instance PubStatus_eq_dec : EqDecision PubStatus.
Proof. solve_decision. Defined.
#[export] Instance Pub_eq_dec : EqDecision Pub.
Proof. solve_decision. Defined.

(** What a call returns when it fails: a conflict, which is retried, or another
    error, which is not. *)
Inductive perr := Conflict | Other (msg : string).

(** ** Pods under a budget *)

Definition HasPrefix (s prefix : string) : bool := String.prefix prefix s.

(** apis/apps/pub: the labels that declare a pod unavailable. *)
Definition HasUnavailableLabel (labels : gmap string string) : bool :=
  existsb (fun kv => HasPrefix kv.1 PubUnavailablePodLabelPrefix) (map_to_list labels).

Definition commonControl_IsPodReady (p : Pod) : bool :=
  if negb (PodsUtil.IsRunningAndReady p) then false
  else negb (HasUnavailableLabel (p_labels p)).

(** [reflect.DeepEqual] of the modelled fields of the two specs. *)
Definition spec_equal (a b : Pod) : bool :=
  bool_decide (p_node a = p_node b /\ p_gates a = p_gates b
    /\ p_containers a = p_containers b /\ p_volumes a = p_volumes b).

Definition IsPodUnavailableChanged (oldPod newPod : Pod) : bool :=
  if negb (spec_equal oldPod newPod) then true
  else if negb (HasUnavailableLabel (p_labels oldPod)) && HasUnavailableLabel (p_labels newPod) then true
  else false.

(** [c.Get] of a PUB: [inr None] is a not-found error. *)
Definition PubGetter : Type := string -> string -> string + option Pub.

Definition GetPubForPod (get : PubGetter) (pod : Pod) : string + option Pub :=
  if bool_decide (p_annotations pod = ∅)
     || String.eqb (lbl (p_annotations pod) PodRelatedPubAnnotation) ""
  then inr None
  else get (p_namespace pod) (lbl (p_annotations pod) PodRelatedPubAnnotation).

Definition isNeedPubProtection (pub : Pub) (operation : PubOperation) : bool :=
  match pub_annotations pub !! PubProtectOperationAnnotation with
  | None => true
  | Some v =>
      if String.eqb v "" then true
      else bool_decide (op_string operation ∈ Split v ",")
  end.

Definition isPodRecordedInPub (podName : string) (pub : Pub) : bool :=
  match UnavailablePods (pub_status pub) !! podName with
  | Some _ => true
  | None =>
      match DisruptedPods (pub_status pub) !! podName with
      | Some _ => true
      | None => false
      end
  end.

Definition MaxUnavailablePodSize : Z := 2000.

(** [checkAndDecrement]; [now] is the time it records. *)
Definition checkAndDecrement (podName : string) (pub : Pub) (operation : PubOperation) (now : Z)
  : string + Pub :=
  let s := pub_status pub in
  if UnavailableAllowed s <=? 0 then inl "pub unavailable allowed is negative"%string
  else if MaxUnavailablePodSize <? Z.of_nat (size (DisruptedPods s)) + Z.of_nat (size (UnavailablePods s))
  then inl "DisruptedPods and UnavailablePods map too big"%string
  else
    let allowed := wrap32 (UnavailableAllowed s - 1) in
    inr (with_status pub
      (match operation with
       | PubUpdateOperation =>
           mkPubStatus (ObservedGeneration s) (DisruptedPods s) (<[podName := now]> (UnavailablePods s))
             allowed (CurrentAvailable s) (DesiredAvailable s) (TotalReplicas s)
       | _ =>
           mkPubStatus (ObservedGeneration s) (<[podName := now]> (DisruptedPods s)) (UnavailablePods s)
             allowed (CurrentAvailable s) (DesiredAvailable s) (TotalReplicas s)
       end)).

(** ** The API server: the history of one PUB object *)

(** The current version and the older ones, the most recent first. *)
Record Hist := mkHist { h_cur : Pub; h_old : list Pub }.
Definition versions (h : Hist) : list Pub := h_cur h :: h_old h.

(** The resource version the server gives to the next write: one that no
    version of the object had. *)
Class ResourceVersions := {
  next_rv : list string -> string;
  next_rv_fresh : forall l, next_rv l ∉ l;
}.

(** How a write that reaches the server ends: it is answered; it is refused
    with an error; or it is carried out but the answer is lost. *)
Inductive WriteOutcome := Answered | Refused (msg : string) | Lost (msg : string).

Section Server.
Context `{ResourceVersions}.

Definition write_status (h : Hist) (s : PubStatus) : Hist :=
  mkHist (with_rv (with_status (h_cur h) s) (next_rv (map pub_resourceVersion (versions h))))
    (versions h).

(** [Status().Update(pubClone)]: the status of the clone is written if the
    clone carries the current resource version.  The result is the server
    and the stored object or the error. *)
Definition UpdateStatus (h : Hist) (clone : Pub) (o : WriteOutcome) : Hist * (perr + Pub) :=
  match o with
  | Refused m => (h, inl (Other m))
  | Answered =>
      if String.eqb (pub_resourceVersion clone) (pub_resourceVersion (h_cur h))
      then let h' := write_status h (pub_status clone) in (h', inr (h_cur h'))
      else (h, inl Conflict)
  | Lost m =>
      if String.eqb (pub_resourceVersion clone) (pub_resourceVersion (h_cur h))
      then (write_status h (pub_status clone), inl (Other m))
      else (h, inl (Other m))
  end.
End Server.

(** What the environment does during one try of the retry loop: the other
    processes' writes before the read and before the write, the informer's view,
    whether reading from the server fails, how the write ends, and the clock. *)
Record Env := mkEnv {
  before_read : Hist -> Hist;
  informer : Hist -> option Pub;
  etcd_get : option string;
  clock : Z;
  before_write : Hist -> Hist;
  outcome : WriteOutcome;
}.

(** [Convert_string_To_int64] into a zero variable, its error ignored. *)
Definition Convert_string_To_int64 (s : string) : Z :=
  default 0 (conv_ok (ParseInt s 64)).

(** The read of a try: from the server after a conflict, else the newer of the
    process-wide cache (or the object first read) and the informer's. *)
Definition read_clone (refresh : bool) (pub : Pub) (cache : option Pub) (e : Env) (h : Hist)
  : perr + Pub :=
  if refresh then
    match etcd_get e with
    | Some m => inl (Other m)
    | None => inr (h_cur h)
    end
  else
    let pubClone := match cache with Some localCached => localCached | None => pub end in
    inr (match informer e h with
         | Some informerCached =>
             if Convert_string_To_int64 (pub_resourceVersion pubClone)
                <? Convert_string_To_int64 (pub_resourceVersion informerCached)
             then informerCached else pubClone
         | None => pubClone
         end).

(** The state the two retry loops thread: the server, the process-wide cache
    [util.GlobalCache] at the key of this PUB, the flag [refresh], and the
    [recheckTime] the controller computes. *)
Record RetryState := mkRS {
  rs_hist : Hist;
  rs_cache : option Pub;
  rs_refresh : bool;
  rs_recheck : option Z;
}.

Section Retry.
(** [retry.RetryOnConflict]: at most [steps] tries; when all conflict the last
    conflict is the error ([wait.ErrWaitTimeout] is replaced by it). *)
Fixpoint RetryOnConflict (steps : nat) (fn : nat -> RetryState -> RetryState * option perr)
  (st : RetryState) : RetryState * option perr :=
  match steps with
  | O => (st, Some Conflict)
  | S steps' =>
      match fn steps' st with
      | (st', None) => (st', None)
      | (st', Some Conflict) => RetryOnConflict steps' fn st'
      | (st', Some e) => (st', Some e)
      end
  end.
End Retry.

Definition ConflictRetry_Steps : nat := 4.

(** ** The admission check *)
Section Validate.
Context `{ResourceVersions}.
(** [PubControl.IsPodStateConsistent], a method of the interface the check is
    written against. *)
Variable isPodStateConsistent : Pod -> bool.

(** The function the retry loop of [PodUnavailableBudgetValidatePod] runs. *)
Definition validate_try (pod : Pod) (operation : PubOperation) (dryRun : bool) (pub : Pub)
  (e : Env) (st : RetryState) : RetryState * option perr :=
  let h1 := before_read e (rs_hist st) in
  match read_clone (rs_refresh st) pub (rs_cache st) e h1 with
  | inl err => (mkRS h1 (rs_cache st) (rs_refresh st) (rs_recheck st), Some err)
  | inr pubClone =>
      match checkAndDecrement (p_name pod) pubClone operation (clock e) with
      | inl m => (mkRS h1 (rs_cache st) (rs_refresh st) (rs_recheck st), Some (Other m))
      | inr pubClone' =>
          if dryRun then (mkRS h1 (rs_cache st) (rs_refresh st) (rs_recheck st), None)
          else
            let h2 := before_write e h1 in
            match UpdateStatus h2 pubClone' (outcome e) with
            | (h3, inr stored) => (mkRS h3 (Some stored) (rs_refresh st) (rs_recheck st), None)
            | (h3, inl err) => (mkRS h3 (rs_cache st) true (rs_recheck st), Some err)
            end
      end
  end.

(** The answer of the check: whether the operation is allowed, the reason when
    it is not, and an error. *)
Record Verdict := mkVerdict { allowed : bool; reason : option perr; v_err : option string }.

Definition PodUnavailableBudgetValidatePod (get : PubGetter) (env : nat -> Env) (pod : Pod)
  (operation : PubOperation) (dryRun : bool) (h : Hist) (cache : option Pub)
  : Hist * option Pub * Verdict :=
  let allow := (h, cache, mkVerdict true None None) in
  if String.eqb (lbl (p_annotations pod) PodPubNoProtectionAnnotation) "true" then allow
  else if negb (commonControl_IsPodReady pod) || negb (isPodStateConsistent pod) then allow
  else match GetPubForPod get pod with
  | inl m => (h, cache, mkVerdict false None (Some m))
  | inr None => allow
  | inr (Some pub) =>
      if DesiredAvailable (pub_status pub) =? 0 then allow
      else if negb (isNeedPubProtection pub operation) then allow
      else if isPodRecordedInPub (p_name pod) pub then allow
      else
        let '(st, r) := RetryOnConflict ConflictRetry_Steps
                          (fun i => validate_try pod operation dryRun pub (env i))
                          (mkRS h cache false None) in
        match r with
        | Some err => (rs_hist st, rs_cache st, mkVerdict false (Some err) None)
        | None => (rs_hist st, rs_cache st, mkVerdict true None None)
        end
  end.

(** ** The controller *)

Definition countAvailablePods (pods : list Pod) (disruptedPods unavailablePods : gmap string Z) : Z :=
  let recordPods : gset string := dom disruptedPods ∪ dom unavailablePods in
  countb (fun pod =>
    if negb (IsPodActive pod) then false
    else if bool_decide (p_name pod ∈ recordPods) then false
    else isPodStateConsistent pod && commonControl_IsPodReady pod) pods.

(** [None] is an error. *)
Definition getDesiredAvailableForPub (pub : Pub) (expectedCount : Z) : option Z :=
  match pub_maxUnavailable pub with
  | Some m =>
      match GetScaledValueFromIntOrPercent m expectedCount true with
      | None => None
      | Some maxUnavailable =>
          let desiredAvailable := wrap32 (expectedCount - wrap32 maxUnavailable) in
          Some (if desiredAvailable <? 0 then 0 else desiredAvailable)
      end
  | None =>
      match pub_minAvailable pub with
      | Some (FromInt v) => Some v
      | Some m =>
          match GetScaledValueFromIntOrPercent m expectedCount true with
          | None => None
          | Some minAvailable => Some (wrap32 minAvailable)
          end
      | None => Some 0
      end
  end.

Definition DeletionTimeout : Z := 20 * second.
Definition UpdatedDelayCheckTime : Z := 10 * second.

Definition earlier (recheckTime : option Z) (t : Z) : option Z :=
  match recheckTime with
  | None => Some t
  | Some r => if t <? r then Some t else Some r
  end.

(** One record of the loop of [buildDisruptedAndUnavailablePods]: it is kept
    until its time is over, and rechecked then. *)
Definition keep_record (timeout currentTime : Z) (m : gmap string Z) (name : string)
  (acc : gmap string Z * option Z) : gmap string Z * option Z :=
  match m !! name with
  | Some t =>
      if t + timeout <? currentTime then acc
      else (<[name := t]> acc.1, earlier acc.2 (t + timeout))
  | None => acc
  end.

(** The body of the loop: the two records of one pod. *)
Definition build_pod (disruptedPods unavailablePods : gmap string Z) (currentTime : Z)
  (acc : gmap string Z * gmap string Z * option Z) (pod : Pod)
  : gmap string Z * gmap string Z * option Z :=
  if negb (IsPodActive pod) then acc
  else
    let '(rd, ru, recheckTime) := acc in
    let '(rd, recheckTime) :=
      keep_record DeletionTimeout currentTime disruptedPods (p_name pod) (rd, recheckTime) in
    let '(ru, recheckTime) :=
      keep_record UpdatedDelayCheckTime currentTime unavailablePods (p_name pod) (ru, recheckTime) in
    (rd, ru, recheckTime).
Definition buildDisruptedAndUnavailablePods (pods : list Pod) (pub : Pub) (currentTime : Z)
  : gmap string Z * gmap string Z * option Z :=
  fold_left (build_pod (DisruptedPods (pub_status pub)) (UnavailablePods (pub_status pub)) currentTime)
    pods (∅, ∅, None).

(** The status [updatePubStatus] wants. *)
Definition new_status (pub : Pub) (currentAvailable desiredAvailable expectedCount : Z)
  (disruptedPods unavailablePods : gmap string Z) : PubStatus :=
  let unavailableAllowed := wrap32 (currentAvailable - desiredAvailable) in
  mkPubStatus (pub_generation pub) disruptedPods unavailablePods
    (if unavailableAllowed <=? 0 then 0 else unavailableAllowed)
    currentAvailable desiredAvailable expectedCount.

(** [updatePubStatus]: no write when the status is the same; else the write,
    and the cache when it is answered. *)
Definition updatePubStatus (pub : Pub) (currentAvailable desiredAvailable expectedCount : Z)
  (disruptedPods unavailablePods : gmap string Z) (e : Env) (h : Hist) (cache : option Pub)
  : Hist * option Pub * option perr :=
  let s := new_status pub currentAvailable desiredAvailable expectedCount
             disruptedPods unavailablePods in
  if bool_decide (pub_status pub = s) then (h, cache, None)
  else match UpdateStatus (before_write e h) (with_status pub s) (outcome e) with
       | (h', inr stored) => (h', Some stored, None)
       | (h', inl err) => (h', cache, Some err)
       end.

(** The function the retry loop of [syncPodUnavailableBudget] runs. *)
Definition sync_try (pods : list Pod) (expectedCount desiredAvailable currentTime : Z) (pub : Pub)
  (e : Env) (st : RetryState) : RetryState * option perr :=
  let h1 := before_read e (rs_hist st) in
  match read_clone (rs_refresh st) pub (rs_cache st) e h1 with
  | inl err => (mkRS h1 (rs_cache st) (rs_refresh st) (rs_recheck st), Some err)
  | inr pubClone =>
      let '(disruptedPods, unavailablePods, recheckTime) :=
        buildDisruptedAndUnavailablePods pods pubClone currentTime in
      let currentAvailable := countAvailablePods pods disruptedPods unavailablePods in
      match updatePubStatus pubClone currentAvailable desiredAvailable expectedCount
              disruptedPods unavailablePods e h1 (rs_cache st) with
      | (h', cache', None) => (mkRS h' cache' (rs_refresh st) recheckTime, None)
      | (h', cache', Some err) => (mkRS h' cache' true recheckTime, Some err)
      end
  end.

(** [patchRelatedPubAnnotationInPod]: the pods patched, in order, and the error
    of the first patch that fails. *)
Fixpoint patch_loop (patch : Pod -> option string) (pods : list Pod) : list Pod * option string :=
  match pods with
  | [] => ([], None)
  | pod :: pods' =>
      match patch pod with
      | Some m => ([pod], Some m)
      | None => let '(done, err) := patch_loop patch pods' in (pod :: done, err)
      end
  end.
Definition patchRelatedPubAnnotationInPod (patch : Pod -> option string) (pods : list Pod)
  : list Pod * option string :=
  patch_loop patch
    (filterb (fun p => String.eqb (lbl (p_annotations p) PodRelatedPubAnnotation) "") pods).

(** [syncPodUnavailableBudget] on the answer of [GetPodsForPub]. *)
Definition syncPodUnavailableBudget (patch : Pod -> option string) (env : nat -> Env) (currentTime : Z)
  (pods : list Pod) (expectedCount : Z) (pub : Pub) (h : Hist) (cache : option Pub)
  : Hist * option Pub * (option Z * option perr) :=
  match (if Z.of_nat (length pods) =? 0 then None else (patchRelatedPubAnnotationInPod patch pods).2) with
  | Some m => (h, cache, (None, Some (Other m)))
  | None =>
      match getDesiredAvailableForPub pub expectedCount with
      | None => (h, cache, (None, Some (Other "Failed to calculate the number of expected pods")))
      | Some desiredAvailable =>
          let '(st, r) := RetryOnConflict ConflictRetry_Steps
                            (fun i => sync_try pods expectedCount desiredAvailable currentTime pub (env i))
                            (mkRS h cache false None) in
          (rs_hist st, rs_cache st, (rs_recheck st, r))
      end
  end.
End Validate.

(** ** The protocol as steps on the server

    Every process that writes the object is one of: a webhook that admits one
    pod on a version it read, a controller that writes a status computed from a
    version it read, a user who changes anything but the status. *)

Definition zero_status : PubStatus := mkPubStatus 0 ∅ ∅ 0 0 0 0.

(** What the controller allows for a status. *)
Definition quota (s : PubStatus) : Z := Z.max 0 (wrap32 (CurrentAvailable s - DesiredAvailable s)).

(** One admission of a pod, as the status records it. *)
Definition admits (name : string) (s s' : PubStatus) : Prop :=
  0 < UnavailableAllowed s
  /\ UnavailableAllowed s' = UnavailableAllowed s - 1
  /\ CurrentAvailable s' = CurrentAvailable s
  /\ DesiredAvailable s' = DesiredAvailable s
  /\ exists t, (UnavailablePods s' = <[name := t]> (UnavailablePods s) /\ DisruptedPods s' = DisruptedPods s)
            \/ (DisruptedPods s' = <[name := t]> (DisruptedPods s) /\ UnavailablePods s' = UnavailablePods s).

Definition recorded (name : string) (s : PubStatus) : Prop :=
  is_Some (UnavailablePods s !! name) \/ is_Some (DisruptedPods s !! name).

(** The abstract ledger of a history: the pods admitted since the controller
    last wrote the status. *)
Inductive Ledger : list Pub -> list string -> Prop :=
| L_new p : pub_status p = zero_status -> Ledger [p] []
| L_admit p q h names name :
    Ledger (p :: h) names -> admits name (pub_status p) (pub_status q) ->
    Ledger (q :: p :: h) (name :: names)
| L_sync p q h names :
    Ledger (p :: h) names -> UnavailableAllowed (pub_status q) = quota (pub_status q) ->
    Ledger (q :: p :: h) []
| L_spec p q h names :
    Ledger (p :: h) names -> pub_status q = pub_status p -> Ledger (q :: p :: h) names.

Section Protocol.
Context `{ResourceVersions}.

Inductive step : Hist -> Hist -> Prop :=
| S_admit h clone clone' name op now o :
    clone ∈ versions h -> checkAndDecrement name clone op now = inr clone' ->
    step h (UpdateStatus h clone' o).1
| S_sync h clone cur des total d u o :
    clone ∈ versions h ->
    step h (UpdateStatus h (with_status clone (new_status clone cur des total d u)) o).1
| S_spec h p :
    pub_status p = pub_status (h_cur h) ->
    pub_resourceVersion p = next_rv (map pub_resourceVersion (versions h)) ->
    step h (mkHist p (versions h)).

Definition hist_ok (h : Hist) : Prop :=
  NoDup (map pub_resourceVersion (versions h)) /\ exists names, Ledger (versions h) names.

(** An environment whose other processes follow the protocol and whose
    informer shows some version the object has or had. *)
Definition env_ok (e : Env) : Prop :=
  (forall h, rtc step h (before_read e h))
  /\ (forall h, rtc step h (before_write e h))
  /\ (forall h p, informer e h = Some p -> p ∈ versions h).
End Protocol.

(** ** Lemmas on the protocol *)

Lemma Ledger_budget h names p :
  Ledger (p :: h) names ->
  UnavailableAllowed (pub_status p) + len names = quota (pub_status p)
  /\ 0 <= UnavailableAllowed (pub_status p)
  /\ Forall (fun n => recorded n (pub_status p)) names.
Proof.
  intros HL. remember (p :: h) as l eqn:El. revert p h El.
  induction HL as [p Hz|p q h names name HL IH Ha|p q h names HL IH Hq|p q h names HL IH Hq];
    intros p' h' [= <- <-].
  - rewrite Hz. split_and!; [vm_compute; done|vm_compute; done|constructor].
  - destruct (IH _ _ eq_refl) as (Hb & Hn & Hr).
    destruct Ha as (Hpos & Hdec & Hc & Hd & t & Ht).
    unfold quota in *. rewrite Hc, Hd. simpl length. split_and!; [lia|lia|].
    assert (Hmono : forall n, recorded n (pub_status p) -> recorded n (pub_status q)).
    { intros n. unfold recorded. destruct Ht as [[-> ->]|[-> ->]];
        rewrite lookup_insert_is_Some; intros [?|?]; destruct (decide (name = n)); auto. }
    constructor; [|eapply Forall_impl; eauto].
    unfold recorded. destruct Ht as [[-> ->]|[-> ->]]; rewrite lookup_insert_eq; eauto.
  - rewrite Hq. unfold quota. simpl. split_and!; [lia|lia|constructor].
  - destruct (IH _ _ eq_refl) as (Hb & Hn & Hr). by rewrite Hq.
Qed.

Section ProtocolLemmas.
Context `{ResourceVersions}.

(** A write either changes nothing or adds one version with the status of the
    clone, and then the clone was made from the current version. *)
Lemma UpdateStatus_cases h clone o :
  (UpdateStatus h clone o).1 = h
  \/ (pub_resourceVersion clone = pub_resourceVersion (h_cur h)
      /\ (UpdateStatus h clone o).1 = write_status h (pub_status clone)).
Proof.
  unfold UpdateStatus. destruct o; simpl; auto;
    destruct (String.eqb_spec (pub_resourceVersion clone) (pub_resourceVersion (h_cur h))); auto.
Qed.

Lemma UpdateStatus_ok h clone o h' stored :
  UpdateStatus h clone o = (h', inr stored) ->
  pub_resourceVersion clone = pub_resourceVersion (h_cur h)
  /\ h' = write_status h (pub_status clone) /\ stored = h_cur h'.
Proof.
  unfold UpdateStatus. destruct o; try done;
    destruct (String.eqb_spec (pub_resourceVersion clone) (pub_resourceVersion (h_cur h))); try done.
  by intros [= <- <-].
Qed.

Lemma UpdateStatus_err h clone o h' err :
  UpdateStatus h clone o = (h', inl err) ->
  (h' = h \/ exists m, o = Lost m).
Proof.
  unfold UpdateStatus. destruct o; eauto;
    destruct (String.eqb_spec (pub_resourceVersion clone) (pub_resourceVersion (h_cur h))); eauto;
    try done; intros [= <- <-]; eauto.
Qed.

Lemma checkAndDecrement_admits name p op now p' :
  is_int32 (UnavailableAllowed (pub_status p)) ->
  checkAndDecrement name p op now = inr p' ->
  pub_resourceVersion p' = pub_resourceVersion p /\ admits name (pub_status p) (pub_status p').
Proof.
  unfold checkAndDecrement. intros Hi.
  destruct (Z.leb_spec (UnavailableAllowed (pub_status p)) 0); [done|].
  destruct (MaxUnavailablePodSize <? _); [done|]. intros [= <-]. simpl.
  unfold admits.
  destruct op; simpl; rewrite wrap32_id by (unfold is_int32, int32_min, int32_max in *; lia); eauto 10.
Qed.

Lemma checkAndDecrement_rv name p op now p' :
  checkAndDecrement name p op now = inr p' -> pub_resourceVersion p' = pub_resourceVersion p.
Proof.
  unfold checkAndDecrement. destruct (_ <=? 0); [done|].
  destruct (MaxUnavailablePodSize <? _); [done|]. by intros [= <-].
Qed.

Lemma new_status_quota pub cur des total d u :
  UnavailableAllowed (new_status pub cur des total d u) = quota (new_status pub cur des total d u).
Proof.
  unfold new_status, quota. simpl. destruct (Z.leb_spec (wrap32 (cur - des)) 0); lia.
Qed.

Lemma allowed_int32 h : hist_ok h -> is_int32 (UnavailableAllowed (pub_status (h_cur h))).
Proof.
  intros [_ [names HL]]. apply Ledger_budget in HL as (Hb & Hn & _). unfold quota in Hb.
  pose proof (wrap32_range (CurrentAvailable (pub_status (h_cur h)) - DesiredAvailable (pub_status (h_cur h)))) as Hw.
  unfold is_int32, int32_min, int32_max in *. lia.
Qed.

Lemma next_rv_NoDup h p :
  NoDup (map pub_resourceVersion (versions h)) ->
  pub_resourceVersion p = next_rv (map pub_resourceVersion (versions h)) ->
  NoDup (map pub_resourceVersion (p :: versions h)).
Proof.
  intros Hnd Hrv. rewrite map_cons, Hrv. apply NoDup_cons. split; [apply next_rv_fresh|done].
Qed.

Lemma step_ok h h' : hist_ok h -> step h h' -> hist_ok h'.
Proof.
  intros Hok Hstep. pose proof Hok as [Hnd [names HL]].
  destruct Hstep as [h clone clone' name op now o Hin Hcd|h clone cur des total d u o Hin|h p Hs Hrv].
  - destruct (UpdateStatus_cases h clone' o) as [->|[Hrv ->]]; [done|].
    rewrite (checkAndDecrement_rv _ _ _ _ _ Hcd) in Hrv.
    assert (clone = h_cur h) as -> by (apply (nodup_map_inj pub_resourceVersion (versions h)); auto; apply list_elem_of_here).
    apply checkAndDecrement_admits in Hcd as [_ Ha]; [|by apply allowed_int32].
    split; [by apply next_rv_NoDup|]. exists (name :: names). by apply L_admit.
  - destruct (UpdateStatus_cases h (with_status clone (new_status clone cur des total d u)) o) as [->|[_ ->]];
      [done|].
    split; [by apply next_rv_NoDup|]. exists []. apply L_sync with names; [done|].
    apply new_status_quota.
  - split; [by apply next_rv_NoDup|]. exists names. by apply L_spec.
Qed.

Lemma steps_ok h h' : hist_ok h -> rtc step h h' -> hist_ok h'.
Proof. intros Hok Hs. induction Hs; eauto using step_ok. Qed.

Lemma step_suffix h h' p : step h h' -> p ∈ versions h -> p ∈ versions h'.
Proof.
  intros Hs Hp. destruct Hs as [h clone clone' name op now o|h clone cur des total d u o|h q].
  - destruct (UpdateStatus_cases h clone' o) as [->|[_ ->]]; [done|]. by apply list_elem_of_further.
  - destruct (UpdateStatus_cases h (with_status clone (new_status clone cur des total d u)) o) as [->|[_ ->]];
      [done|]. by apply list_elem_of_further.
  - by apply list_elem_of_further.
Qed.

Lemma steps_suffix h h' p : rtc step h h' -> p ∈ versions h -> p ∈ versions h'.
Proof. intros Hs. induction Hs; eauto using step_suffix. Qed.
End ProtocolLemmas.

(** ** Lemmas on the retry loops *)

Lemma RetryOnConflict_inv steps fn (P Q : RetryState -> Prop) st :
  (forall i st, P st -> match fn i st with (st', None) => Q st' | (st', Some _) => P st' end) ->
  P st ->
  match RetryOnConflict steps fn st with (st', None) => Q st' | (st', Some _) => P st' end.
Proof.
  intros Hfn. revert st. induction steps as [|n IH]; intros st HP; simpl; [done|].
  pose proof (Hfn n st HP) as Hn. destruct (fn n st) as [st' [[|m]|]]; [by apply IH|done|done].
Qed.

Definition view_ok (h : Hist) (view : option Pub) : Prop :=
  forall p, view = Some p -> p ∈ versions h.

(** The caller's view of the object, with the server it sees. *)
Definition views_ok (pub : Pub) (st : RetryState) : Prop :=
  pub ∈ versions (rs_hist st) /\ view_ok (rs_hist st) (rs_cache st).

Section RetryLemmas.
Context `{ResourceVersions}.
Variable isPodStateConsistent : Pod -> bool.

Lemma read_clone_in pub st e h clone :
  env_ok e -> rtc step (rs_hist st) h -> views_ok pub st ->
  read_clone (rs_refresh st) pub (rs_cache st) e h = inr clone -> clone ∈ versions h.
Proof.
  intros (_ & _ & Hinf) Hs [Hp Hc]. unfold read_clone.
  destruct (rs_refresh st).
  - destruct (etcd_get e); [done|]. intros [= <-]. apply list_elem_of_here.
  - assert (Hl : match rs_cache st with Some c => c | None => pub end ∈ versions h).
    { eapply steps_suffix; [done|]. destruct (rs_cache st) eqn:E; auto. }
    intros [= <-]. destruct (informer e h) eqn:E; [|done]. destruct (_ <? _); auto.
Qed.

(** The server moved from [h0] and the views are still versions of it. *)
Definition running (h0 : Hist) (pub : Pub) (st : RetryState) : Prop :=
  rtc step h0 (rs_hist st) /\ views_ok pub st.

Lemma running_move h0 pub st h refresh recheck :
  running h0 pub st -> rtc step (rs_hist st) h ->
  running h0 pub (mkRS h (rs_cache st) refresh recheck).
Proof.
  intros (Hs & Hp & Hc) Hm. unfold running, views_ok. split_and!; simpl; [by etrans|by eapply steps_suffix|].
  intros q Hq. eapply steps_suffix; eauto.
Qed.

Lemma running_stored h0 pub st h refresh recheck :
  running h0 pub st -> rtc step (rs_hist st) h ->
  running h0 pub (mkRS h (Some (h_cur h)) refresh recheck).
Proof.
  intros (Hs & Hp & Hc) Hm. unfold running, views_ok. split_and!; simpl; [by etrans|by eapply steps_suffix|].
  intros q [= <-]. apply list_elem_of_here.
Qed.

(** The admission the last write of a successful call stands for. *)
Definition admitted_from (h0 : Hist) (name : string) (h : Hist) : Prop :=
  exists a, rtc step h0 a /\ h_old h = versions a
    /\ admits name (pub_status (h_cur a)) (pub_status (h_cur h)).

Lemma write_admits h0 a clone clone' name op now o h stored :
  hist_ok h0 -> rtc step h0 a -> clone ∈ versions a ->
  checkAndDecrement name clone op now = inr clone' ->
  UpdateStatus a clone' o = (h, inr stored) ->
  admitted_from h0 name h.
Proof.
  intros Hok Hs Hin Hcd Hup. pose proof (steps_ok _ _ Hok Hs) as Hoka.
  apply UpdateStatus_ok in Hup as (Hrv & -> & ->).
  rewrite (checkAndDecrement_rv _ _ _ _ _ Hcd) in Hrv.
  assert (clone = h_cur a) as ->.
  { destruct Hoka as [Hnd _]. apply (nodup_map_inj pub_resourceVersion (versions a)); auto. apply list_elem_of_here. }
  apply checkAndDecrement_admits in Hcd as [_ Ha]; [|by apply allowed_int32].
  exists a. split_and!; done.
Qed.

Lemma validate_try_spec h0 pod op dryRun pub e st :
  hist_ok h0 -> env_ok e -> running h0 pub st ->
  match validate_try pod op dryRun pub e st with
  | (st', None) => running h0 pub st' /\ (dryRun = false -> admitted_from h0 (p_name pod) (rs_hist st'))
  | (st', Some _) => running h0 pub st'
  end.
Proof.
  intros Hok He Hrun. pose proof He as (Hbr & Hbw & _). unfold validate_try.
  set (h1 := before_read e (rs_hist st)). pose proof (Hbr (rs_hist st)) as H1. fold h1 in H1.
  destruct (read_clone _ pub _ e h1) as [err|clone] eqn:Er; [by apply running_move|].
  apply read_clone_in in Er; [|done|done|by destruct Hrun].
  destruct (checkAndDecrement _ clone op (clock e)) as [m|clone'] eqn:Ecd; [by apply running_move|].
  destruct dryRun; [split; [by apply running_move|done]|].
  pose proof (Hbw h1) as H2. set (h2 := before_write e h1) in *.
  assert (Hin : clone ∈ versions h2) by (by eapply steps_suffix).
  pose proof (S_admit h2 clone clone' _ _ _ (outcome e) Hin Ecd) as Hst.
  assert (Hm : rtc step (rs_hist st) (UpdateStatus h2 clone' (outcome e)).1).
  { etrans; [exact H1|]. etrans; [exact H2|]. by apply rtc_once. }
  destruct (UpdateStatus h2 clone' (outcome e)) as [h3 [err|stored]] eqn:Eu; simpl in Hm.
  - by apply running_move.
  - split; [|intros _; simpl; eapply write_admits; [done| |done|done|done]].
    + apply UpdateStatus_ok in Eu as (_ & _ & ->). by eapply running_stored.
    + destruct Hrun as [Hs _]. etrans; [exact Hs|]. etrans; [exact H1|exact H2].
Qed.

Lemma sync_try_spec h0 pods expected desired now pub e st :
  env_ok e -> running h0 pub st ->
  running h0 pub (sync_try isPodStateConsistent pods expected desired now pub e st).1.
Proof.
  intros He Hrun. pose proof He as (Hbr & Hbw & _). unfold sync_try.
  set (h1 := before_read e (rs_hist st)). pose proof (Hbr (rs_hist st)) as H1. fold h1 in H1.
  destruct (read_clone _ pub _ e h1) as [err|clone] eqn:Er; [by apply running_move|].
  apply read_clone_in in Er; [|done|done|by destruct Hrun].
  destruct (buildDisruptedAndUnavailablePods pods clone now) as [[d u] rt].
  unfold updatePubStatus. case_bool_decide; [by apply running_move|].
  set (cur := countAvailablePods _ _ _ _).
  pose proof (Hbw h1) as H2. set (h2 := before_write e h1) in *.
  assert (Hin : clone ∈ versions h2) by (by eapply steps_suffix).
  pose proof (S_sync h2 clone cur desired expected d u (outcome e) Hin) as Hst.
  set (c' := with_status _ _) in *.
  assert (Hm : rtc step (rs_hist st) (UpdateStatus h2 c' (outcome e)).1).
  { etrans; [exact H1|]. etrans; [exact H2|]. by apply rtc_once. }
  destruct (UpdateStatus h2 c' (outcome e)) as [h3 [err|stored]] eqn:Eu; simpl in *.
  - by apply running_move.
  - apply UpdateStatus_ok in Eu as (_ & _ & ->). by eapply running_stored.
Qed.
End RetryLemmas.

(** ** Lemmas on the records the controller keeps *)

(** A record of [m] that the pods confirm and whose time is not over. *)
Definition kept (timeout now : Z) (m : gmap string Z) (pods : list Pod) (name : string) (t : Z) : Prop :=
  (exists pod, pod ∈ pods /\ IsPodActive pod = true /\ p_name pod = name)
  /\ m !! name = Some t /\ now <= t + timeout.

Lemma kept_cons timeout now m pod pods name t :
  kept timeout now m (pod :: pods) name t <->
  (IsPodActive pod = true /\ p_name pod = name /\ m !! name = Some t /\ now <= t + timeout)
  \/ kept timeout now m pods name t.
Proof.
  unfold kept. split.
  - intros [(q & Hq & Ha & Hn) Hr]. apply elem_of_cons in Hq as [->|Hq]; [left; tauto|right; eauto].
  - intros [(Ha & Hn & Hr)|[(q & Hq & Ha) Hr]]; (split; [|tauto]);
      [exists pod; split_and!; auto; apply list_elem_of_here|exists q; split; [by apply list_elem_of_further|done]].
Qed.

Section KeepRecord.
Variables (timeout now : Z) (m : gmap string Z).

(** [acc] holds records of [m] only. *)
Lemma keep_record_lookup name acc n t :
  acc.1 ⊆ m ->
  (keep_record timeout now m name acc).1 ⊆ m
  /\ ((keep_record timeout now m name acc).1 !! n = Some t <->
      (name = n /\ m !! n = Some t /\ now <= t + timeout) \/ acc.1 !! n = Some t).
Proof.
  intros Hsub. unfold keep_record. destruct (m !! name) as [t0|] eqn:Em.
  - destruct (Z.ltb_spec (t0 + timeout) now); simpl.
    + split; [done|]. split; [tauto|]. intros [(-> & He & Hle)|?]; [|done].
      rewrite Em in He. injection He as <-. lia.
    + split; [by apply insert_subseteq_l|].
      destruct (decide (name = n)) as [->|Hne].
      * rewrite lookup_insert_eq. split.
        -- intros [= <-]. left. done.
        -- intros [(_ & He & _)|Ha]; [congruence|].
           rewrite (lookup_weaken _ _ _ _ Ha Hsub) in Em. congruence.
      * rewrite lookup_insert_ne by done. split; [tauto|]. intros [[? _]|?]; done.
  - split; [done|]. split; [tauto|]. intros [(-> & He & _)|?]; [congruence|done].
Qed.

(** The deadline a record adds to the recheck time. *)
Definition deadline (name : string) : list Z :=
  match m !! name with
  | Some t => if t + timeout <? now then [] else [t + timeout]
  | None => []
  end.

Lemma keep_record_recheck name acc :
  (keep_record timeout now m name acc).2 = foldl earlier acc.2 (deadline name).
Proof.
  unfold keep_record, deadline. destruct (m !! name) as [t|]; [|done]. by destruct (_ <? now).
Qed.

Lemma deadline_elem name x :
  x ∈ deadline name <-> exists t, m !! name = Some t /\ now <= t + timeout /\ x = t + timeout.
Proof.
  unfold deadline. destruct (m !! name) as [t|].
  - destruct (Z.ltb_spec (t + timeout) now).
    + split; [intros Hx; by apply not_elem_of_nil in Hx|]. intros (t' & [= <-] & Hle & _). lia.
    + rewrite list_elem_of_singleton. split; [intros ->; eauto|]. by intros (t' & [= <-] & _ & ->).
  - split; [intros Hx; by apply not_elem_of_nil in Hx|]. by intros (t' & ? & _).
Qed.
End KeepRecord.

Lemma foldl_earlier_min l rc :
  match foldl earlier rc l with
  | None => rc = None /\ l = []
  | Some r => (rc = Some r \/ r ∈ l) /\ (forall r0, rc = Some r0 -> r <= r0) /\ (forall x, x ∈ l -> r <= x)
  end.
Proof.
  revert rc. induction l as [|x l IH]; intros rc; simpl.
  - destruct rc; [|done]. split_and!; [by left|by intros ? [= <-]|intros x Hx; by apply not_elem_of_nil in Hx].
  - specialize (IH (earlier rc x)). destruct (foldl earlier (earlier rc x) l) as [r|].
    + destruct IH as (Ha & Hb & Hc). unfold earlier in *.
      assert (Hx : r <= x).
      { destruct rc as [r0|]; [|by apply Hb]. destruct (Z.ltb_spec x r0); [by apply Hb|].
        specialize (Hb _ eq_refl). lia. }
      split_and!.
      * destruct Ha as [Ha|Ha]; [|right; by apply list_elem_of_further].
        destruct rc as [r0|]; [|injection Ha as <-; right; apply list_elem_of_here].
        destruct (x <? r0); injection Ha as <-; [right; apply list_elem_of_here|by left].
      * intros r0 ->. destruct (Z.ltb_spec x r0); [lia|]. by apply Hb.
      * intros y Hy. apply elem_of_cons in Hy as [->|Hy]; auto.
    + destruct IH as [IH _]. unfold earlier in IH. destruct rc; [destruct (_ <? _)|]; done.
Qed.

Section Build.
Variables (d u : gmap string Z) (now : Z).

Definition deadlines (pods : list Pod) : list Z :=
  flat_map (fun pod => if IsPodActive pod
    then deadline DeletionTimeout now d (p_name pod) ++ deadline UpdatedDelayCheckTime now u (p_name pod)
    else []) pods.

Lemma build_pods_spec pods acc n t :
  acc.1.1 ⊆ d -> acc.1.2 ⊆ u ->
  let r := fold_left (build_pod d u now) pods acc in
  (r.1.1 !! n = Some t <-> kept DeletionTimeout now d pods n t \/ acc.1.1 !! n = Some t)
  /\ (r.1.2 !! n = Some t <-> kept UpdatedDelayCheckTime now u pods n t \/ acc.1.2 !! n = Some t)
  /\ r.2 = foldl earlier acc.2 (deadlines pods).
Proof.
  revert acc. induction pods as [|pod pods IH]; intros acc Hd Hu; simpl.
  { unfold kept. split_and!; [| |done];
      (split; [by right|intros [[(q & Hq & _) _]|?]; [by apply not_elem_of_nil in Hq|done]]). }
  rewrite !kept_cons. unfold deadlines; simpl; fold (deadlines pods).
  destruct acc as [[rd ru] rc]; simpl in *. unfold build_pod at 2 4 6.
  destruct (IsPodActive pod) eqn:Ea; simpl.
  2:{ destruct (IH (rd, ru, rc) Hd Hu) as (H1 & H2 & H3). simpl in *. rewrite H1, H2, H3.
      split_and!; [| |done]; (split; [tauto|intros [[[? _]|?]|?]; [done|tauto|tauto]]). }
  pose proof (fun k => keep_record_lookup DeletionTimeout now d (p_name pod) (rd, rc) n k Hd) as K1.
  pose proof (keep_record_recheck DeletionTimeout now d (p_name pod) (rd, rc)) as R1.
  destruct (keep_record DeletionTimeout now d (p_name pod) (rd, rc)) as [rd1 rc1]. simpl in K1, R1.
  pose proof (fun k => keep_record_lookup UpdatedDelayCheckTime now u (p_name pod) (ru, rc1) n k Hu) as K2.
  pose proof (keep_record_recheck UpdatedDelayCheckTime now u (p_name pod) (ru, rc1)) as R2.
  destruct (keep_record UpdatedDelayCheckTime now u (p_name pod) (ru, rc1)) as [ru1 rc2]. simpl in K2, R2.
  destruct (IH (rd1, ru1, rc2)) as (H1 & H2 & H3); simpl; [by apply (K1 0)|by apply (K2 0)|].
  simpl in *. rewrite H1, H2, H3. destruct (K1 t) as [_ ->], (K2 t) as [_ ->].
  rewrite !foldl_app, <-R1, <-R2. split_and!; [tauto|tauto|done].
Qed.

Lemma deadlines_elem pods x :
  x ∈ deadlines pods <->
  exists n t, (kept DeletionTimeout now d pods n t /\ x = t + DeletionTimeout)
           \/ (kept UpdatedDelayCheckTime now u pods n t /\ x = t + UpdatedDelayCheckTime).
Proof.
  induction pods as [|pod pods IH].
  { split; [intros Hx; by apply not_elem_of_nil in Hx|].
    intros (n & t & [[[(q & Hq & _) _] _]|[[(q & Hq & _) _] _]]); by apply not_elem_of_nil in Hq. }
  unfold deadlines; simpl; fold (deadlines pods). rewrite elem_of_app, IH.
  setoid_rewrite kept_cons. destruct (IsPodActive pod) eqn:Ea.
  - rewrite elem_of_app, !deadline_elem. naive_solver.
  - split; [intros [Hx|Hx]; [by apply not_elem_of_nil in Hx|naive_solver]|]. naive_solver.
Qed.
End Build.

(** ** Properties *)

Section Properties.
Context `{ResourceVersions}.

Lemma new_pub_ok p : pub_status p = zero_status -> hist_ok (mkHist p []).
Proof. intros Hz. split; [apply NoDup_singleton|]. exists []. by apply L_new. Qed.

(** C4: A PodUnavailableBudget never over-commits.  From the creation of the
    object, whatever the webhooks, the controllers and the users write in
    whatever order and on however old versions, the quota still granted plus
    the pods admitted since the controller's last write is exactly what the
    controller computed (the available pods beyond the desired ones, or none),
    the quota is never negative, and each of those pods is recorded in the
    status. *)
Theorem pub_never_overcommits p h :
  pub_status p = zero_status -> rtc step (mkHist p []) h ->
  exists names, Ledger (versions h) names
    /\ UnavailableAllowed (pub_status (h_cur h)) + len names = quota (pub_status (h_cur h))
    /\ 0 <= UnavailableAllowed (pub_status (h_cur h))
    /\ Forall (fun n => recorded n (pub_status (h_cur h))) names.
Proof.
  intros Hz Hs. destruct (steps_ok _ _ (new_pub_ok p Hz) Hs) as [_ [names HL]].
  exists names. split; [done|]. by eapply Ledger_budget.
Qed.

Variable isPodStateConsistent : Pod -> bool.

(** The pods the check looks up a budget for and the budgets it charges. *)
Definition protected (get : PubGetter) (pod : Pod) (op : PubOperation) (pub : Pub) : Prop :=
  lbl (p_annotations pod) PodPubNoProtectionAnnotation <> "true"%string
  /\ commonControl_IsPodReady pod = true /\ isPodStateConsistent pod = true
  /\ GetPubForPod get pod = inr (Some pub)
  /\ DesiredAvailable (pub_status pub) <> 0
  /\ isNeedPubProtection pub op = true
  /\ isPodRecordedInPub (p_name pod) pub = false.

Lemma validate_protected get env pod op dryRun pub h cache :
  protected get pod op pub ->
  PodUnavailableBudgetValidatePod isPodStateConsistent get env pod op dryRun h cache =
  let '(st, r) := RetryOnConflict ConflictRetry_Steps
                    (fun i => validate_try pod op dryRun pub (env i)) (mkRS h cache false None) in
  match r with
  | Some err => (rs_hist st, rs_cache st, mkVerdict false (Some err) None)
  | None => (rs_hist st, rs_cache st, mkVerdict true None None)
  end.
Proof.
  intros (Hn & Hr & Hc & Hg & Hd & Hp & Hrec). unfold PodUnavailableBudgetValidatePod.
  apply String.eqb_neq in Hn. apply Z.eqb_neq in Hd.
  by rewrite Hn, Hr, Hc, Hg, Hd, Hp, Hrec.
Qed.

(** C28: An operation on a protected pod is admitted only by charging the
    budget: when the check answers yes (not in a dry run), the last version of
    the object is an admission of this very pod, made on the version before it,
    whose quota was positive, even when other processes write between the
    check's read and its write and when it read an old version; and everything
    the call did is a sequence of steps of the protocol. *)
Theorem validate_admission get env pod op pub h cache :
  hist_ok h -> (forall i, env_ok (env i)) -> pub ∈ versions h -> view_ok h cache ->
  protected get pod op pub ->
  let '(h', cache', v) :=
    PodUnavailableBudgetValidatePod isPodStateConsistent get env pod op false h cache in
  rtc step h h' /\ view_ok h' cache'
  /\ (allowed v = true ->
      exists a, rtc step h a /\ h_old h' = versions a
        /\ admits (p_name pod) (pub_status (h_cur a)) (pub_status (h_cur h'))).
Proof.
  intros Hok He Hp Hv Hprot. rewrite (validate_protected get env pod op false pub) by done.
  match goal with |- context [RetryOnConflict ?n ?fn ?st0] =>
    pose proof (RetryOnConflict_inv n fn (running h pub)
      (fun st => running h pub st /\ admitted_from h (p_name pod) (rs_hist st)) st0) as Hr end.
  assert (Hstep : forall i st0, running h pub st0 ->
    match validate_try pod op false pub (env i) st0 with
    | (st', None) => running h pub st' /\ admitted_from h (p_name pod) (rs_hist st')
    | (st', Some _) => running h pub st'
    end).
  { intros i st0 Hst0. pose proof (validate_try_spec h pod op false pub (env i) st0 Hok (He i) Hst0).
    destruct (validate_try _ _ _ _ _ st0) as [? [?|]]; naive_solver. }
  specialize (Hr Hstep ltac:(done)).
  destruct (RetryOnConflict _ _ _) as [st [err|]].
  - by destruct Hr as (Hs & _ & Hc).
  - by destruct Hr as ((Hs & _ & Hc) & Ha).
Qed.

Lemma validate_try_quiet (R : relation Hist) `{!PreOrder R} h0 pod op dryRun pub e st :
  (forall h, R h (before_read e h)) -> (forall h, R h (before_write e h)) ->
  (forall m, outcome e <> Lost m) -> R h0 (rs_hist st) ->
  match validate_try pod op dryRun pub e st with
  | (st', None) => dryRun = true -> R h0 (rs_hist st')
  | (st', Some _) => R h0 (rs_hist st')
  end.
Proof.
  intros Hbr Hbw Hl HR. unfold validate_try.
  set (h1 := before_read e (rs_hist st)).
  assert (H1 : R h0 h1) by (etrans; [exact HR|apply Hbr]).
  destruct (read_clone _ pub _ e h1) as [err|clone]; [done|].
  destruct (checkAndDecrement _ clone op (clock e)) as [m|clone']; [done|].
  destruct dryRun; [done|].
  destruct (UpdateStatus _ clone' (outcome e)) as [h3 [err|stored]] eqn:Eu; [|done].
  apply UpdateStatus_err in Eu as [->|[m Hm]]; [|by destruct (Hl m)]. simpl.
  etrans; [exact H1|apply Hbw].
Qed.

(** A refused operation and a dry run cost nothing: if the other processes
    move the object only along a preorder [R] and no answer of the server is
    lost, then a call of the check that answers no, or that is a dry run, moves
    the object along [R] too; with [R] the equality, it writes nothing. *)
Theorem validate_refusal_writes_nothing (R : relation Hist) get env pod op dryRun h cache :
  PreOrder R ->
  (forall i h, R h (before_read (env i) h)) -> (forall i h, R h (before_write (env i) h)) ->
  (forall i m, outcome (env i) <> Lost m) ->
  let '(h', _, v) :=
    PodUnavailableBudgetValidatePod isPodStateConsistent get env pod op dryRun h cache in
  dryRun = true \/ allowed v = false -> R h h'.
Proof.
  intros HR Hbr Hbw Hl. unfold PodUnavailableBudgetValidatePod.
  assert (Hrefl : R h h) by reflexivity.
  destruct (String.eqb _ "true"); [done|]. destruct (_ || _); [done|].
  destruct (GetPubForPod get pod) as [m|[pub|]]; [done| |done].
  destruct (_ =? 0); [done|]. destruct (negb _); [done|]. destruct (isPodRecordedInPub _ _); [done|].
  match goal with |- context [RetryOnConflict ?n ?fn ?st0] =>
    pose proof (RetryOnConflict_inv n fn (fun st => R h (rs_hist st))
      (fun st => dryRun = true -> R h (rs_hist st)) st0) as Hr end.
  specialize (Hr (fun i st0 => validate_try_quiet R h pod op dryRun pub (env i) st0
                    (Hbr i) (Hbw i) (Hl i)) Hrefl).
  destruct (RetryOnConflict _ _ _) as [st [err|]]; [done|]. by intros [?|?]; [apply Hr|].
Qed.

(** The result of a sync: some version of the object carries the status
    computed from the pods and from the records of some version. *)
Definition synced (pods : list Pod) (expected desired now : Z) (h : Hist) (recheck : option Z) : Prop :=
  exists clone p d u, clone ∈ versions h /\ p ∈ versions h
    /\ buildDisruptedAndUnavailablePods pods clone now = (d, u, recheck)
    /\ pub_status p =
       mkPubStatus (pub_generation p) d u
         (Z.max 0 (wrap32 (countAvailablePods isPodStateConsistent pods d u - desired)))
         (countAvailablePods isPodStateConsistent pods d u) desired expected.

Lemma new_status_eq pub cur des total d u :
  new_status pub cur des total d u =
  mkPubStatus (pub_generation pub) d u (Z.max 0 (wrap32 (cur - des))) cur des total.
Proof. unfold new_status. f_equal. destruct (Z.leb_spec (wrap32 (cur - des)) 0); lia. Qed.

Lemma sync_try_synced h0 pods expected desired now pub e st st' :
  hist_ok h0 -> env_ok e -> running h0 pub st ->
  sync_try isPodStateConsistent pods expected desired now pub e st = (st', None) ->
  synced pods expected desired now (rs_hist st') (rs_recheck st').
Proof.
  intros Hok He Hrun. pose proof He as (Hbr & Hbw & _). unfold sync_try.
  set (h1 := before_read e (rs_hist st)). pose proof (Hbr (rs_hist st)) as H1. fold h1 in H1.
  destruct (read_clone _ pub _ e h1) as [err|clone] eqn:Er; [done|].
  apply read_clone_in in Er; [|done|done|by destruct Hrun].
  destruct (buildDisruptedAndUnavailablePods pods clone now) as [[d u] rt] eqn:Eb.
  unfold updatePubStatus. rewrite new_status_eq. case_bool_decide as Heq.
  { intros [= <-]. exists clone, clone, d, u. done. }
  destruct (UpdateStatus _ _ (outcome e)) as [h3 [err|stored]] eqn:Eu; [done|].
  intros [= <-]. apply UpdateStatus_ok in Eu as (Hrv & -> & ->). simpl in *.
  set (h2 := before_write e h1) in *.
  assert (Hs2 : rtc step h0 h2).
  { destruct Hrun as [Hs _]. etrans; [exact Hs|]. etrans; [exact H1|apply Hbw]. }
  assert (Hin : clone ∈ versions h2) by (eapply steps_suffix; [apply Hbw|done]).
  assert (Hcur : clone = h_cur h2).
  { destruct (steps_ok _ _ Hok Hs2) as [Hnd _].
    apply (nodup_map_inj pub_resourceVersion (versions h2)); auto. apply list_elem_of_here. }
  exists clone, (h_cur (write_status h2 (mkPubStatus (pub_generation clone) d u
    (Z.max 0 (wrap32 (countAvailablePods isPodStateConsistent pods d u - desired)))
    (countAvailablePods isPodStateConsistent pods d u) desired expected))), d, u.
  split_and!; [by apply list_elem_of_further|apply list_elem_of_here|done|]. simpl. by rewrite Hcur.
Qed.

(** A sync that returns no error has made the status true: the desired
    number is that of the spec, the available pods are counted without the
    pods recorded as disrupted or unavailable, the quota is the available pods
    beyond the desired ones and never negative, the observed generation is the
    object's, and the object moved only by steps of the protocol. *)
Theorem sync_status patch env now pods expected pub h cache :
  hist_ok h -> (forall i, env_ok (env i)) -> pub ∈ versions h -> view_ok h cache ->
  let '(h', _, (recheck, err)) :=
    syncPodUnavailableBudget isPodStateConsistent patch env now pods expected pub h cache in
  rtc step h h'
  /\ (err = None ->
      exists desired, getDesiredAvailableForPub pub expected = Some desired
        /\ synced pods expected desired now h' recheck).
Proof.
  intros Hok He Hp Hv. unfold syncPodUnavailableBudget.
  destruct (if _ : bool then None else _) as [m|]; [done|].
  destruct (getDesiredAvailableForPub pub expected) as [desired|]; [|done].
  match goal with |- context [RetryOnConflict ?n ?fn ?st0] =>
    pose proof (RetryOnConflict_inv n fn (running h pub)
      (fun st => running h pub st /\ synced pods expected desired now (rs_hist st) (rs_recheck st)) st0) as Hr end.
  assert (Hstep : forall i st0, running h pub st0 ->
    match sync_try isPodStateConsistent pods expected desired now pub (env i) st0 with
    | (st', None) => running h pub st' /\ synced pods expected desired now (rs_hist st') (rs_recheck st')
    | (st', Some _) => running h pub st'
    end).
  { intros i st0 Hst0.
    pose proof (sync_try_spec isPodStateConsistent h pods expected desired now pub (env i) st0 (He i) Hst0).
    pose proof (fun st' => sync_try_synced h pods expected desired now pub (env i) st0 st' Hok (He i) Hst0).
    destruct (sync_try _ _ _ _ _ _ _ st0) as [? [?|]]; naive_solver. }
  specialize (Hr Hstep ltac:(done)).
  destruct (RetryOnConflict _ _ _) as [st [err|]].
  - by destruct Hr as (Hs & _ & Hc).
  - destruct Hr as ((Hs & _ & Hc) & Ha). eauto.
Qed.
End Properties.

(** The records the controller keeps: a pod stays recorded as disrupted
    exactly while an active pod of that name exists and the deletion timeout is
    not over, as unavailable likewise with the update delay; and the budget is
    rechecked at the earliest moment one of the kept records ends, or never if
    none is kept. *)
Theorem kept_records pods pub now :
  let '(rd, ru, recheck) := buildDisruptedAndUnavailablePods pods pub now in
  (forall n t, rd !! n = Some t <-> kept DeletionTimeout now (DisruptedPods (pub_status pub)) pods n t)
  /\ (forall n t, ru !! n = Some t <->
        kept UpdatedDelayCheckTime now (UnavailablePods (pub_status pub)) pods n t)
  /\ match recheck with
     | None => rd = ∅ /\ ru = ∅
     | Some r =>
         now <= r
         /\ (exists n t, (rd !! n = Some t /\ r = t + DeletionTimeout)
                      \/ (ru !! n = Some t /\ r = t + UpdatedDelayCheckTime))
         /\ (forall n t, rd !! n = Some t -> r <= t + DeletionTimeout)
         /\ (forall n t, ru !! n = Some t -> r <= t + UpdatedDelayCheckTime)
     end.
Proof.
  unfold buildDisruptedAndUnavailablePods.
  set (d := DisruptedPods _). set (u := UnavailablePods _).
  pose proof (fun n t => build_pods_spec d u now pods (∅, ∅, None) n t
    (map_empty_subseteq d) (map_empty_subseteq u)) as Hspec. cbv beta zeta in Hspec. simpl in Hspec.
  destruct (fold_left (build_pod d u now) pods (∅, ∅, None)) as [[rd ru] recheck]. simpl in Hspec.
  assert (Hd : forall n t, rd !! n = Some t <-> kept DeletionTimeout now d pods n t).
  { intros n t. destruct (Hspec n t) as (-> & _ & _). rewrite lookup_empty. naive_solver. }
  assert (Hu : forall n t, ru !! n = Some t <-> kept UpdatedDelayCheckTime now u pods n t).
  { intros n t. destruct (Hspec n t) as (_ & -> & _). rewrite lookup_empty. naive_solver. }
  split_and!; [done|done|]. destruct (Hspec ""%string 0) as (_ & _ & ->).
  assert (Hel : forall x, x ∈ deadlines d u now pods <->
    exists n t, (rd !! n = Some t /\ x = t + DeletionTimeout) \/ (ru !! n = Some t /\ x = t + UpdatedDelayCheckTime)).
  { intros x. setoid_rewrite Hd. setoid_rewrite Hu. apply deadlines_elem. }
  pose proof (foldl_earlier_min (deadlines d u now pods) None) as Hmin.
  destruct (foldl earlier None (deadlines d u now pods)) as [r|].
  - destruct Hmin as ([?|Hr] & _ & Hle); [done|]. pose proof Hr as Hr'.
    apply Hel in Hr' as (n & t & Ht). split_and!.
    + destruct Ht as [[Ht ->]|[Ht ->]]; [apply Hd in Ht|apply Hu in Ht]; by destruct Ht as (_ & _ & ?).
    + eauto.
    + intros n' t' ?. apply Hle, Hel. eauto.
    + intros n' t' ?. apply Hle, Hel. eauto.
  - destruct Hmin as [_ Hnil].
    split; apply map_empty; intros n; apply eq_None_not_Some; intros [t Ht].
    + apply (not_elem_of_nil (t + DeletionTimeout)). rewrite <-Hnil. apply Hel. eauto.
    + apply (not_elem_of_nil (t + UpdatedDelayCheckTime)). rewrite <-Hnil. apply Hel. eauto.
Qed.

(** The desired number of available pods is exact: with a number or a
    percentage up to 100%, it is the expected count less [maxUnavailable]
    rounded up, or zero; without [maxUnavailable] it is [minAvailable] rounded
    up; float64 and int32 arithmetic lose nothing. *)
Theorem desired_available_exact pub expected m v pct :
  0 <= expected <= int32_max ->
  getIntOrPercentValueSafely m = Some (v, pct) ->
  0 <= v <= (if pct then 100 else int32_max) ->
  let amount := if pct then (v * expected + 99) / 100 else v in
  (pub_maxUnavailable pub = Some m ->
     getDesiredAvailableForPub pub expected = Some (Z.max 0 (expected - amount)))
  /\ (pub_maxUnavailable pub = None -> pub_minAvailable pub = Some m ->
     getDesiredAvailableForPub pub expected = Some amount).
Proof.
  intros Hexp Hm Hv amount. unfold int32_max in *.
  assert (Hs : GetScaledValueFromIntOrPercent m expected true = Some amount).
  { unfold GetScaledValueFromIntOrPercent. rewrite Hm. destruct pct; [|done].
    rewrite f64_pct_up_exact by nia. done. }
  assert (Ha : 0 <= amount < 2 ^ 31).
  { unfold amount. destruct pct; [|lia]. split; [apply Z.div_pos; nia|].
    apply Z.div_lt_upper_bound; nia. }
  assert (Hw : wrap32 amount = amount) by (apply wrap32_id; unfold is_int32, int32_min, int32_max; lia).
  unfold getDesiredAvailableForPub. split.
  - intros ->. rewrite Hs, Hw. rewrite wrap32_id by (unfold is_int32, int32_min, int32_max; lia).
    f_equal. destruct (Z.ltb_spec (expected - amount) 0); lia.
  - intros -> ->. destruct m as [i|s]; [|by rewrite Hs, Hw].
    simpl in Hm. injection Hm as <- <-. done.
Qed.

(** *** Inputs of the witnesses *)

(** A resource version longer than every one before it. *)
Definition long_rv_of (l : list string) : string := foldr String.app "x"%string l.

Lemma length_string_app x y : String.length (String.app x y) = (String.length x + String.length y)%nat.
Proof. induction x as [|c x IH]; simpl; [done|]. by rewrite IH. Qed.

Lemma long_rv_of_longer l : (0 < String.length (long_rv_of l))%nat
  /\ forall s, s ∈ l -> (String.length s < String.length (long_rv_of l))%nat.
Proof.
  induction l as [|a l [Hpos IH]]; simpl.
  - split; [lia|]. intros s Hs. by apply not_elem_of_nil in Hs.
  - rewrite length_string_app. split; [lia|].
    intros s Hs. apply elem_of_cons in Hs as [->|Hs]; [lia|]. specialize (IH _ Hs). lia.
Qed.

#[export] Instance long_rv : ResourceVersions.
Proof.
  refine {| next_rv := long_rv_of |}. intros l Hin.
  pose proof (proj2 (long_rv_of_longer l) _ Hin). lia.
Defined.

Definition ex_new_pub : Pub :=
  mkPub "pub" "default" "1" 1 ∅ (Some (FromString "40%")) None zero_status.
(** Five pods, all available, three desired: two may be disrupted. *)
Definition ex_synced_pub : Pub :=
  mkPub "pub" "default" "2" 1 ∅ (Some (FromString "40%")) None (mkPubStatus 1 ∅ ∅ 2 5 3 5).
Definition ex_hist : Hist := mkHist ex_synced_pub [ex_new_pub].

Definition ex_ready_pod (name : string) : Pod :=
  mkPod name "default" name "1" ∅ {[PodRelatedPubAnnotation := "pub"%string]} [] 1 None "n1" PodRunning
    [mkCond PodReady ConditionTrue 1 "" ""] [] [] [] [] [] "" "" [] no_placement.
Definition ex_pods : list Pod := map ex_ready_pod ["a"; "b"; "c"; "d"]%string.

Definition ex_get : PubGetter := fun _ _ => inr (Some ex_synced_pub).

(** Another webhook admits pod "z" just before the first write. *)
Definition ex_other_admission (h : Hist) : Hist :=
  match checkAndDecrement "z" (h_cur h) PubDeleteOperation 100 with
  | inr c => (UpdateStatus h c Answered).1
  | inl _ => h
  end.
Definition ex_env (i : nat) : Env :=
  mkEnv (fun h => h) (fun h => Some (h_cur h)) None 100
    (if decide (i = 3%nat) then ex_other_admission else fun h => h) Answered.

Lemma ex_hist_ok : hist_ok ex_hist.
Proof.
  split; [apply (bool_decide_unpack _); vm_compute; exact I|]. exists [].
  apply L_sync with []; [by apply L_new|]. reflexivity.
Qed.

Lemma ex_env_ok i : env_ok (ex_env i).
Proof.
  split_and!; simpl.
  - intros h. reflexivity.
  - intros h. destruct (decide (i = 3%nat)); [|reflexivity].
    unfold ex_other_admission. destruct (checkAndDecrement _ (h_cur h) _ _) eqn:E; [reflexivity|].
    apply rtc_once. eapply S_admit; [apply list_elem_of_here|exact E].
  - intros h p [= <-]. apply list_elem_of_here.
Qed.

Lemma pub_never_overcommits_witness :
  let h := ex_other_admission (UpdateStatus (mkHist ex_new_pub [])
             (with_status ex_new_pub (new_status ex_new_pub 5 3 5 ∅ ∅)) Answered).1 in
  UnavailableAllowed (pub_status (h_cur h)) = 1
  /\ exists names, Ledger (versions h) names
      /\ UnavailableAllowed (pub_status (h_cur h)) + len names = quota (pub_status (h_cur h))
      /\ 0 <= UnavailableAllowed (pub_status (h_cur h))
      /\ Forall (fun n => recorded n (pub_status (h_cur h))) names.
Proof.
  cbv zeta. split; [vm_compute; reflexivity|].
  apply (pub_never_overcommits ex_new_pub); [reflexivity|].
  eapply rtc_l; [eapply (S_sync _ ex_new_pub); apply list_elem_of_here|].
  apply (proj1 (proj2 (ex_env_ok 3))).
Defined.

Definition ex_validate (env : nat -> Env) (dryRun : bool) :=
  PodUnavailableBudgetValidatePod (fun _ => true) ex_get env (ex_ready_pod "a") PubDeleteOperation dryRun
    ex_hist None.

Lemma validate_admission_witness :
  let '(h', cache', v) := ex_validate ex_env false in
  (allowed v = true /\ UnavailableAllowed (pub_status (h_cur h')) = 0)
  /\ rtc step ex_hist h' /\ view_ok h' cache'
  /\ (allowed v = true ->
      exists a, rtc step ex_hist a /\ h_old h' = versions a
        /\ admits "a" (pub_status (h_cur a)) (pub_status (h_cur h'))).
Proof.
  pose proof (validate_admission (fun _ => true) ex_get ex_env (ex_ready_pod "a") PubDeleteOperation
    ex_synced_pub ex_hist None ex_hist_ok ex_env_ok (list_elem_of_here _ _)
    ltac:(intros ? [=])) as Hw.
  unfold ex_validate. destruct (PodUnavailableBudgetValidatePod _ _ _ _ _ _ _ _) as [[h' cache'] v] eqn:E.
  split; [|apply Hw; repeat split; vm_compute; congruence].
  vm_compute in E. injection E as <- <- <-. done.
Defined.

Definition quiet_env (i : nat) : Env := mkEnv (fun h => h) (fun _ => None) None 100 (fun h => h) Answered.

Lemma validate_refusal_writes_nothing_witness :
  let '(h', _, v) := ex_validate quiet_env true in allowed v = true /\ ex_hist = h'.
Proof.
  pose proof (validate_refusal_writes_nothing (fun _ => true) eq ex_get quiet_env (ex_ready_pod "a")
    PubDeleteOperation true ex_hist None _ ltac:(done) ltac:(done) ltac:(done)) as Hw.
  unfold ex_validate. destruct (PodUnavailableBudgetValidatePod _ _ _ _ _ _ _ _) as [[h' cache'] v] eqn:E.
  split; [|apply Hw; by left]. vm_compute in E. by injection E as _ _ <-.
Defined.

Definition ex_sync :=
  syncPodUnavailableBudget (fun _ => true) (fun _ => None) ex_env 100 ex_pods 5 ex_new_pub ex_hist None.

Lemma sync_status_witness :
  let '(h', _, (recheck, err)) := ex_sync in
  (err = None /\ DisruptedPods (pub_status (h_cur h')) = ∅ /\ UnavailableAllowed (pub_status (h_cur h')) = 1
    /\ len (h_old h') = 3)
  /\ rtc step ex_hist h'
  /\ (err = None ->
      exists desired, getDesiredAvailableForPub ex_new_pub 5 = Some desired
        /\ synced (fun _ => true) ex_pods 5 desired 100 h' recheck).
Proof.
  pose proof (sync_status (fun _ => true) (fun _ => None) ex_env 100 ex_pods 5 ex_new_pub ex_hist None
    ex_hist_ok ex_env_ok (list_elem_of_further _ _ _ (list_elem_of_here _ _)) ltac:(intros ? [=])) as Hw.
  unfold ex_sync. destruct (syncPodUnavailableBudget _ _ _ _ _ _ _ _ _) as [[h' cache'] [recheck err]] eqn:E.
  split; [|exact Hw]. vm_compute in E. injection E as <- <- <- <-. done.
Defined.

Lemma desired_available_exact_witness :
  getDesiredAvailableForPub ex_new_pub 5 = Some (Z.max 0 (5 - (40 * 5 + 99) / 100)).
Proof.
  apply (desired_available_exact ex_new_pub 5 (FromString "40%") 40 true);
    [unfold int32_max; lia|vm_compute; reflexivity|lia|reflexivity].
Defined.
