(* ===== verification/BroadcastJob.v ===== *)
(** * BroadcastJob

    pkg/controller/broadcastjob: a job that runs one pod to its end on every node its template
    fits.  The reconcile counts the pods, deletes those whose node no longer fits, creates the
    missing ones in growing batches up to the parallelism, and decides when the job is
    complete or failed.  The handlers of watch events settle the expectations that the
    reconcile waits for.  The goroutines of one batch run here in the order of the slice. *)

From S2P Require Import Prelude GoLib GoText K8s Tools Expectations Lifecycle UpdateSort CloneSetDiff ImagePullTypes World Scheduling.
Open Scope Z_scope.
Open Scope kruise_scope.

(** ** The object *)

Record JobCondition := mkJobCond {
  jc_Type : string;
  jc_Status : string;
  jc_LastProbeTime : Z;
  jc_LastTransitionTime : Z;
  jc_Reason : string;
  jc_Message : string;
}.
Record BroadcastJobStatus := mkJobStatus {
  js_Conditions : list JobCondition;
  js_StartTime : option Z;
  js_CompletionTime : option Z;
  js_Active : Z;
  js_Succeeded : Z;
  js_Failed : Z;
  js_Desired : Z;
  js_Phase : string;
}.
Record FailurePolicy := mkFailure { fp_Type : string; fp_RestartLimit : Z }.
Record BroadcastJob := mkJob {
  bj_kind : string;
  bj_name : string;
  bj_namespace : string;
  bj_uid : string;
  bj_deletion : option Z;
  bj_Parallelism : option IntOrString;
  bj_Template : PodTemplate;
  bj_CompletionPolicy : CompletionPolicy;
  bj_Paused : bool;
  bj_FailurePolicy : FailurePolicy;
  bj_status : BroadcastJobStatus;
}.

Local Open Scope string_scope.
Definition Always : string := "Always".
Definition Never : string := "Never".
Definition FailurePolicyTypeFailFast : string := "FailFast".
Definition FailurePolicyTypeContinue : string := "Continue".
Definition FailurePolicyTypePause : string := "Pause".
Definition JobComplete : string := "Complete".
Definition JobFailed : string := "Failed".
Definition PhaseCompleted : string := "completed".
Definition PhaseRunning : string := "running".
Definition PhasePaused : string := "paused".
Definition PhaseFailed : string := "failed".
Definition RestartPolicyOnFailure : string := "OnFailure".
Definition JobNameLabelKey : string := "broadcastjob-name".
Definition ControllerUIDLabelKey : string := "broadcastjob-controller-uid".
Local Close Scope string_scope.

Definition with_status (j : BroadcastJob) (st : BroadcastJobStatus) : BroadcastJob :=
  mkJob (bj_kind j) (bj_name j) (bj_namespace j) (bj_uid j) (bj_deletion j) (bj_Parallelism j) (bj_Template j)
    (bj_CompletionPolicy j) (bj_Paused j) (bj_FailurePolicy j) st.
Definition with_job_template (j : BroadcastJob) (t : PodTemplate) : BroadcastJob :=
  mkJob (bj_kind j) (bj_name j) (bj_namespace j) (bj_uid j) (bj_deletion j) (bj_Parallelism j) t
    (bj_CompletionPolicy j) (bj_Paused j) (bj_FailurePolicy j) (bj_status j).
Definition with_paused (j : BroadcastJob) (b : bool) : BroadcastJob :=
  mkJob (bj_kind j) (bj_name j) (bj_namespace j) (bj_uid j) (bj_deletion j) (bj_Parallelism j) (bj_Template j)
    (bj_CompletionPolicy j) b (bj_FailurePolicy j) (bj_status j).
Definition with_phase (j : BroadcastJob) (phase : string) : BroadcastJob :=
  let st := bj_status j in
  with_status j (mkJobStatus (js_Conditions st) (js_StartTime st) (js_CompletionTime st) (js_Active st)
    (js_Succeeded st) (js_Failed st) (js_Desired st) phase).
Definition with_start (j : BroadcastJob) (t : Z) : BroadcastJob :=
  let st := bj_status j in
  with_status j (mkJobStatus (js_Conditions st) (Some t) (js_CompletionTime st) (js_Active st)
    (js_Succeeded st) (js_Failed st) (js_Desired st) (js_Phase st)).
Definition with_counts (j : BroadcastJob) (active succeeded failed desired : Z) : BroadcastJob :=
  let st := bj_status j in
  with_status j (mkJobStatus (js_Conditions st) (js_StartTime st) (js_CompletionTime st) active succeeded failed
    desired (js_Phase st)).
Definition job_phase (j : BroadcastJob) : string := js_Phase (bj_status j).

Definition job_key (j : BroadcastJob) : string := bj_namespace j +:+ "/" +:+ bj_name j.

(** ** broadcastjob_utils.go *)

Definition IsJobFinished (j : BroadcastJob) : bool :=
  if String.eqb (cp_Type (bj_CompletionPolicy j)) Never then false
  else existsb (fun c => (String.eqb (jc_Type c) JobComplete || String.eqb (jc_Type c) JobFailed)
                         && String.eqb (jc_Status c) ConditionTrue) (js_Conditions (bj_status j)).

Definition isPodFailed (restartLimit : Z) (pod : Pod) : bool :=
  if negb (String.eqb (pl_restartPolicy (p_placement pod)) RestartPolicyOnFailure) then false
  else
    let restartCount := fold_left (fun n c => wrap32 (n + cs_restartCount c)) (p_initStatuses pod) 0 in
    let restartCount := fold_left (fun n c => wrap32 (n + cs_restartCount c)) (p_cstatuses pod) restartCount in
    restartLimit <? restartCount.

(** [filterPods], as the class of each pod. *)
Inductive PodClass := Succeeded | Failed | Active | Inactive.
#[export] Instance PodClass_eq_dec : EqDecision PodClass.
Proof. solve_decision. Defined.
Definition classify_pod (restartLimit : Z) (p : Pod) : PodClass :=
  if String.eqb (p_phase p) PodSucceeded then Succeeded
  else if String.eqb (p_phase p) PodFailed then Failed
  else match p_deletion p with
       | None => if isPodFailed restartLimit p then Failed else Active
       | Some _ => Inactive
       end.
Definition is_class (restartLimit : Z) (c : PodClass) (p : Pod) : bool := bool_decide (classify_pod restartLimit p = c).
Definition filterPods (restartLimit : Z) (pods : list Pod) : list Pod * list Pod * list Pod :=
  (filterb (is_class restartLimit Active) pods, filterb (is_class restartLimit Failed) pods,
   filterb (is_class restartLimit Succeeded) pods).

Definition pastActiveDeadline (now : Z) (job : BroadcastJob) : bool :=
  match cp_ActiveDeadlineSeconds (bj_CompletionPolicy job), js_StartTime (bj_status job) with
  | Some secs, Some start => wrap64 (secs * second) <=? now - start
  | _, _ => false
  end.

Definition pastTTLDeadline (now : Z) (job : BroadcastJob) : bool * Z :=
  match cp_TTLSecondsAfterFinished (bj_CompletionPolicy job), js_CompletionTime (bj_status job) with
  | Some secs, Some finish => (secs * second <=? now - finish, secs * second - (now - finish))
  | _, _ => (false, -1)
  end.

Definition newCondition (now : Z) (conditionType reason message : string) : JobCondition :=
  mkJobCond conditionType ConditionTrue now now reason message.

(** [metav1.NewControllerRef(job, controllerKind)]. *)
Definition asOwner (job : BroadcastJob) : OwnerReference :=
  mkOwner "apps.kruise.io/v1alpha1" "BroadcastJob" (bj_name job) (bj_uid job) true.

(** [BlockOwnerDeletion] is a separate argument. *)
Definition validateControllerRef (ref : option OwnerReference) (blockOwnerDeletion : bool) : option error :=
  match ref with
  | None => Some "controllerRef is nil"%string
  | Some r =>
      if String.eqb (or_apiVersion r) "" then Some "controllerRef has empty APIVersion"%string
      else if String.eqb (or_kind r) "" then Some "controllerRef has empty Kind"%string
      else if negb (or_controller r) then Some "controllerRef.Controller is not set to true"%string
      else if negb blockOwnerDeletion then Some "controllerRef.BlockOwnerDeletion is not set"%string
      else None
  end.

Definition getAssignedNode (pod : Pod) : string :=
  if negb (String.eqb (p_node pod) "") then p_node pod
  else default ""%string (affinity_node (p_placement pod)).

(** ** Nodes *)

Section Fitness.
(** The syntax of labels, and [noderesources.Fits] without insufficient resources. *)
Context (validLabel : string -> list string -> bool) (fitsResources : Pod -> Node -> bool).

Definition checkNodeFitness (pod : Pod) (node : Node) : bool :=
  if negb (String.eqb (p_node pod) "") && negb (String.eqb (p_node pod) (n_name node)) then false
  else if negb (RequiredNodeAffinity_Match validLabel pod node) then false
  else
    match FindMatchingUntoleratedTaint (n_taints node) (pl_tolerations (p_placement pod))
            (fun t => String.eqb (tt_effect t) TaintEffectNoSchedule || String.eqb (tt_effect t) TaintEffectNoExecute) with
    | Some _ => false
    | None =>
        let podToleratesUnschedulable :=
          TolerationsTolerateTaint (pl_tolerations (p_placement pod))
            (mkTaint TaintNodeUnschedulable "" TaintEffectNoSchedule) in
        if n_unschedulable node && negb podToleratesUnschedulable then false
        else fitsResources pod node
    end.

(** The template as a pod on the node. *)
Definition NewMockPod (job : BroadcastJob) (nodeName : string) : Pod :=
  let t := bj_Template job in
  mkPod "" (bj_namespace job) "" "" (t_labels t) (t_annotations t) (t_finalizers t) 0 None nodeName "" [] []
    (t_gates t) (t_containers t) (t_volumes t) [] "" "" [] (t_placement t).

(** One node of [getNodesToRunPod]. *)
Inductive NodePlan := NodeKeep (p : Pod) | NodeEvict (p : Pod) | NodeRun | NodeSkip.
Definition plan_node (job : BroadcastJob) (existing : gmap string Pod) (node : Node) : NodePlan :=
  match existing !! n_name node with
  | Some pod =>
      if negb (checkNodeFitness pod node) && match p_deletion pod with None => true | Some _ => false end
      then NodeEvict pod else NodeKeep pod
  | None => if checkNodeFitness (NewMockPod job (n_name node)) node then NodeRun else NodeSkip
  end.

Fixpoint getNodesToRunPod (nodes : list Node) (job : BroadcastJob) (existing : gmap string Pod)
  (desired : gmap string (option Pod)) (rest : list Node) (toDelete : list Pod)
  : gmap string (option Pod) * list Node * list Pod :=
  match nodes with
  | [] => (desired, rest, toDelete)
  | node :: nodes' =>
      match plan_node job existing node with
      | NodeKeep pod => getNodesToRunPod nodes' job existing (<[n_name node := Some pod]> desired) rest toDelete
      | NodeEvict pod => getNodesToRunPod nodes' job existing desired rest (toDelete ++ [pod])
      | NodeRun => getNodesToRunPod nodes' job existing (<[n_name node := None]> desired) (rest ++ [node]) toDelete
      | NodeSkip => getNodesToRunPod nodes' job existing desired rest toDelete
      end
  end.
End Fitness.

Definition getNodeToPodMap (pods : list Pod) : gmap string Pod :=
  fold_left (fun m pod => <[getAssignedNode pod := pod]> m) pods ∅.

Definition isJobComplete (job : BroadcastJob) (desiredNodes : gmap string (option Pod)) : bool :=
  if String.eqb (cp_Type (bj_CompletionPolicy job)) Never then false
  else if bool_decide (size desiredNodes = 0%nat) then false
  else forallb (fun kv => match kv.2 with None => false | Some pod => negb (IsPodActive pod) end)
         (map_to_list desiredNodes).

(** The reason and the message of a failure. *)
Definition isJobFailed (now : Z) (job : BroadcastJob) : option (string * string) :=
  if String.eqb (cp_Type (bj_CompletionPolicy job)) Never then None
  else if pastActiveDeadline now job
  then Some ("DeadlineExceeded"%string,
             "Job " +:+ bj_namespace job +:+ "/" +:+ bj_name job +:+ " was active longer than specified deadline")
  else None.

Definition labelsAsMap (job : BroadcastJob) : gmap string string :=
  <[JobNameLabelKey := bj_name job]> {[ ControllerUIDLabelKey := bj_uid job ]}.

Definition addLabelToPodTemplate (job : BroadcastJob) : BroadcastJob :=
  let t := bj_Template job in
  with_job_template job (mkTemplate (labelsAsMap job ∪ t_labels t) (t_annotations t) (t_finalizers t) (t_containers t)
    (t_volumes t) (t_gates t) (t_nodeName t) (t_placement t)).

(** [finishJob]: the job and the delay. *)
Definition finishJob (now : Z) (job : BroadcastJob) (conditionType message : string) : BroadcastJob * Z :=
  let st := bj_status job in
  (with_status job (mkJobStatus (js_Conditions st ++ [newCondition now conditionType conditionType message])
     (js_StartTime st) (Some now) (js_Active st) (js_Succeeded st) (js_Failed st) (js_Desired st) (js_Phase st)),
   match cp_TTLSecondsAfterFinished (bj_CompletionPolicy job) with
   | Some ttl => wrap32 (ttl + 1) * second
   | None => 0
   end).

(** ** The controller *)

(** The reads and writes of the client that concern jobs and nodes. *)
Class JobApi (S : Type) := {
  GetJob : string -> string -> S -> error + BroadcastJob;
  ListJobs : S -> error + list BroadcastJob;
  DeleteJob : BroadcastJob -> S -> S * option error;
  UpdateJobStatus : BroadcastJob -> S -> S * option error;
  ListJobPods : string -> gmap string string -> S -> error + list Pod;
  ListNodes : S -> error + list Node;
}.

(** What a reconcile answers: [make(chan error, n)] panics when [n] is negative. *)
Inductive Result := Panicked | Requeue (after : Z) (err : option error).

Section Controller.
Context {S : Type} `{Api S} `{JobApi S} `{ApiErrors}.
Context (IsTimeout : error -> bool).
Context (validLabel : string -> list string -> bool) (fitsResources : Pod -> Node -> bool).
(** The clock, the flag assign-bcj-pods-by-scheduler and the timeout of the expectations. *)
Context (now : Z) (scheduleBroadcastJobPods : bool) (ExpectationTimeout : Z).

(** [DefaultRetry.Steps]. *)
Definition retry_steps : nat := 5.

Definition deleteJob (job : BroadcastJob) : M S (option error) := call (DeleteJob job) (fun _ => []).
Definition update_status (job : BroadcastJob) : M S (option error) :=
  call (UpdateJobStatus job) (fun e => [EvUpdateStatus (is_ok e)]).

(** One try of [updateJobStatus]; the state is the copy of the job. *)
Definition status_try (job jobCopy : BroadcastJob) : M S (option error * BroadcastJob) :=
  do e <- update_status jobCopy;
  match e with
  | None => ret (None, jobCopy)
  | Some _ =>
      do x <- read (GetJob (bj_namespace job) (bj_name job));
      match x with
      | inr updated => ret (None, with_status updated (bj_status job))
      | inl err => ret (Some err, jobCopy)
      end
  end.
Definition updateJobStatus (job : BroadcastJob) : M S (option error) :=
  RetryOnConflict retry_steps (status_try job) job.

(** The pod that [createPod] sends. *)
Definition new_pod (job : BroadcastJob) (nodeName : string) : Pod :=
  let pod := GetPodFromTemplate (bj_Template job) (asOwner job) in
  let pod := with_name pod (p_name pod) (bj_namespace job) in
  if scheduleBroadcastJobPods
  then with_placement pod (ReplaceDaemonSetPodNodeNameNodeAffinity (p_placement pod) nodeName)
  else if negb (String.eqb nodeName "") then with_node pod nodeName else pod.

Definition createJobPod (job : BroadcastJob) (nodeName : string) : M S (option error) :=
  let pod := new_pod job nodeName in
  if bool_decide (size (p_labels pod) = 0%nat) then ret (Some "unable to create pods, no labels"%string)
  else
    expectScale (job_key job) Scale.Create nodeName ;;
    do e <- createPod pod;
    match e with
    | Some err => observeScale (job_key job) Scale.Create nodeName ;; ret (Some err)
    | None => ret None
    end.

Definition createPodOnNode (job : BroadcastJob) (nodeName : string) : M S (option error) :=
  match validateControllerRef (Some (asOwner job)) true with
  | Some err => ret (Some err)
  | None => createJobPod job nodeName
  end.

(** The goroutines of one batch: the active pods counted and the errors sent. *)
Fixpoint create_nodes (job : BroadcastJob) (nodes : list Node) (active : Z) (errs : list error)
  : M S (Z * list error) :=
  match nodes with
  | [] => ret (active, errs)
  | node :: nodes' =>
      do e <- createPodOnNode job (n_name node);
      match e with
      | Some err => if IsTimeout err then create_nodes job nodes' active errs
                    else create_nodes job nodes' (active + 1) (errs ++ [err])
      | None => create_nodes job nodes' (active + 1) errs
      end
  end.

Fixpoint create_batches (fuel : nat) (job : BroadcastJob) (rest : list Node) (diff batchSize startIndex active : Z)
  (errs : list error) : M S (Z * list error) :=
  match fuel with
  | O => ret (active, errs)
  | Datatypes.S fuel' =>
      if diff <=? 0 then ret (active, errs)
      else
        let curBatchNodes := slice_to (slice_from rest startIndex) batchSize in
        do '(active, errs') <- create_nodes job curBatchNodes active errs;
        if (len errs <? len errs') && (0 <? diff - batchSize) then ret (active, errs')
        else
          let diff := diff - batchSize in
          create_batches fuel' job rest diff (Z.min (2 * batchSize) diff) (startIndex + batchSize) active errs'
  end.

(** The number of pods to create, [None] when the parallelism cannot be read. *)
Definition parallelism_of (job : BroadcastJob) (desired : Z) : option Z :=
  match GetValueFromIntOrPercent (ValueOrDefault (bj_Parallelism job) (FromInt (2 ^ 31 - 1))) desired true with
  | Some v => Some (wrap32 v)
  | None => None
  end.
Definition creation_diff (parallelism active rest : Z) : Z := Z.min (wrap32 (parallelism - active)) rest.

(** [reconcilePods]: [None] is the panic. *)
Definition reconcilePods (job : BroadcastJob) (rest : list Node) (active desired : Z) : M S (option (Z * option error)) :=
  match parallelism_of job desired with
  | None => ret (Some (active, Some "invalid value for IntOrString"%string))
  | Some parallelism =>
      if active <? parallelism then
        let diff := creation_diff parallelism active (len rest) in
        if diff <? 0 then ret None
        else
          do '(active, errs) <- create_batches (length rest) job rest diff (Z.min diff 1) 0 active [];
          ret (Some (active, head errs))
      else ret (Some (active, None))
  end.

(** [deleteJobPods], with the errors in the order of the pods: the counters [failed] and
    [active], and the errors. *)
Fixpoint delete_pods (job : BroadcastJob) (pods : list Pod) (failed active : Z) (errs : list error)
  : M S (Z * Z * list error) :=
  match pods with
  | [] => ret (failed, active, errs)
  | pod :: pods' =>
      expectScale (job_key job) Scale.Delete (getAssignedNode pod) ;;
      do e <- deletePod pod;
      match e with
      | Some err =>
          observeScale (job_key job) Scale.Delete (getAssignedNode pod) ;;
          delete_pods job pods' failed active (errs ++ [err])
      | None => delete_pods job pods' (failed + 1) (active - 1) errs
      end
  end.
Definition deleteJobPods (job : BroadcastJob) (pods : list Pod) (failed active : Z) : M S (Z * Z * option error) :=
  do '(failed, active, errs) <- delete_pods job pods failed active [];
  ret (failed, active, head errs).

(** ** The steps of Reconcile *)

(** The start time, the first delay and the phase of a job that is not finished. *)
Definition start_job (job : BroadcastJob) : BroadcastJob * Z :=
  let '(job, requeueAfter) :=
    match js_StartTime (bj_status job) with
    | Some _ => (job, 0)
    | None =>
        (with_start job now,
         if String.eqb (cp_Type (bj_CompletionPolicy job)) Always then
           match cp_ActiveDeadlineSeconds (bj_CompletionPolicy job) with
           | Some secs => wrap64 (secs * second)
           | None => 0
           end
         else 0)
    end in
  (if String.eqb (job_phase job) "" then with_phase job PhaseRunning else job, requeueAfter).

(** What the job sees: its pods, and the plan for the nodes. *)
Record View := mkView {
  v_pods : list Pod;
  v_desiredNodes : gmap string (option Pod);
  v_rest : list Node;
  v_podsToDelete : list Pod;
}.
Definition view_of (job : BroadcastJob) (pods : list Pod) (nodes : list Node) : View :=
  let '(desiredNodes, rest, podsToDelete) :=
    getNodesToRunPod validLabel fitsResources nodes job (getNodeToPodMap pods) ∅ [] [] in
  mkView pods desiredNodes rest podsToDelete.

(** Whether a pod of the list is controlled by the job. *)
Definition owned_by (job : BroadcastJob) (pod : Pod) : bool :=
  match GetControllerOf (p_owners pod) with
  | Some ref => String.eqb (or_kind ref) (bj_kind job) && String.eqb (or_uid ref) (bj_uid job)
  | None => false
  end.

(** The job is failed: delete its active pods. *)
Definition fail_job (job : BroadcastJob) (activePods : list Pod) (failed active succeeded : Z) (message : string)
  : M S (BroadcastJob * Z * option error) :=
  do '(failed, active, err) <- deleteJobPods job activePods failed active;
  let '(job, requeueAfter) := finishJob now (with_phase job PhaseFailed) JobFailed message in
  ret (with_counts job active succeeded failed (js_Desired (bj_status job)), requeueAfter, err).

(** The job is still active: [None] is the panic of [reconcilePods]. *)
Definition run_job (job : BroadcastJob) (v : View) (failed active succeeded requeueAfter : Z)
  : M S (option (BroadcastJob * Z * option error)) :=
  let desired := js_Desired (bj_status job) in
  do '(failed, active, err) <-
    (if bool_decide (v_podsToDelete v = []) then ret (failed, active, None)
     else deleteJobPods job (v_podsToDelete v) failed active);
  do r <-
    (match bj_deletion job with
     | None => if bool_decide (v_rest v = []) then ret (Some (active, err))
               else reconcilePods job (v_rest v) active desired
     | Some _ => ret (Some (active, err))
     end);
  match r with
  | None => ret None
  | Some (active, err) =>
      let '(job, requeueAfter) :=
        if isJobComplete job (v_desiredNodes v) then
          finishJob now (with_phase job PhaseCompleted) JobComplete
            ("Job completed, " +:+ Itoa succeeded +:+ " pods succeeded, " +:+ Itoa failed +:+ " pods failed")
        else (job, requeueAfter) in
      ret (Some (with_counts job active succeeded failed desired, requeueAfter, err))
  end.

(** The failure found by the policy or by the deadline. *)
Definition failure_of (job : BroadcastJob) (failed : Z) : option (string * string) :=
  if (0 <? failed) && String.eqb (fp_Type (bj_FailurePolicy job)) FailurePolicyTypeFailFast
  then Some ("failed pod is found"%string,
             "failure policy is FailurePolicyTypeFailFast and failed pod is found"%string)
  else isJobFailed now job.

(** The end of the reconcile: the status is written, and an error of that write is dropped. *)
Definition report (r : option (BroadcastJob * Z * option error)) : M S Result :=
  match r with
  | None => ret Panicked
  | Some (job, requeueAfter, err) => updateJobStatus job ;; ret (Requeue requeueAfter err)
  end.
(** An early return: the error of the write is returned. *)
Definition report_early (job : BroadcastJob) (requeueAfter : Z) : M S Result :=
  do e <- updateJobStatus job; ret (Requeue requeueAfter e).

(** The part of Reconcile from the counts on. *)
Definition sync_job (job : BroadcastJob) (v : View) (requeueAfter : Z) : M S Result :=
  let '(activePods, failedPods, succeededPods) := filterPods (fp_RestartLimit (bj_FailurePolicy job)) (v_pods v) in
  let active := len activePods in
  let failed := len failedPods in
  let succeeded := len succeededPods in
  let job := with_counts job active succeeded failed (Z.of_nat (size (v_desiredNodes v))) in
  if String.eqb (job_phase job) PhaseFailed then report_early job requeueAfter
  else if bj_Paused job && (String.eqb (job_phase job) PhaseRunning || String.eqb (job_phase job) PhasePaused)
  then report_early (with_phase job PhasePaused) requeueAfter
  else
    let job := if negb (bj_Paused job) && String.eqb (job_phase job) PhasePaused then with_phase job PhaseRunning else job in
    if (0 <? failed) && String.eqb (fp_Type (bj_FailurePolicy job)) FailurePolicyTypePause
    then report_early (with_phase (with_paused job true) PhasePaused) requeueAfter
    else
      match failure_of job failed with
      | Some (_, message) =>
          do r <- fail_job job activePods failed active succeeded message;
          report (Some r)
      | None => do r <- run_job job v failed active succeeded requeueAfter; report r
      end.

(** The lists, and the sync on them. *)
Definition reconcile_job (job : BroadcastJob) : M S Result :=
  let '(job, requeueAfter) := start_job job in
  do x <- read (ListJobPods (bj_namespace job) (labelsAsMap job));
  match x with
  | inl err => ret (Requeue 0 (Some err))
  | inr podList =>
      do y <- read ListNodes;
      match y with
      | inl err => ret (Requeue 0 (Some err))
      | inr nodes => sync_job job (view_of job (filterb (owned_by job) podList) nodes) requeueAfter
      end
  end.

(** A finished job is deleted when its time is over. *)
Definition finished_job (job : BroadcastJob) : M S Result :=
  let '(isPast, leftTime) := pastTTLDeadline now job in
  if isPast : bool then deleteJob job ;; ret (Requeue 0 None)
  else if 0 <? leftTime then ret (Requeue leftTime None)
  else ret (Requeue 0 None).

Definition Reconcile (namespace name : string) : M S Result :=
  let key := namespace +:+ "/" +:+ name in
  do x <- read (GetJob namespace name);
  match x with
  | inl err =>
      if IsNotFound err then on_scale (fun r => Scale.DeleteExpectations r key) ;; ret (Requeue 0 None)
      else ret (Requeue 0 (Some err))
  | inr job =>
      do '(scaleSatisfied, unsatisfiedDuration, _) <- ask_scale (fun r => Scale.SatisfiedExpectations r key now);
      if negb scaleSatisfied then
        ret (Requeue (if ExpectationTimeout <=? unsatisfiedDuration then 0
                      else ExpectationTimeout - unsatisfiedDuration) None)
      else
        let job := addLabelToPodTemplate job in
        if IsJobFinished job then finished_job job else reconcile_job job
  end.

(** ** broadcastjob_event_handler.go *)

(** A group and version has one slash, or none when the group is empty. *)
Definition isBroadcastJobController (ref : OwnerReference) : bool :=
  String.eqb (or_kind ref) "BroadcastJob"
  && match Split (or_apiVersion ref) "/" with
     | [group; _] => String.eqb group "apps.kruise.io"
     | _ => false
     end.
Definition observe_pod (action : string) (pod : Pod) : M S unit :=
  match GetControllerOf (p_owners pod) with
  | Some ref =>
      if isBroadcastJobController ref
      then observeScale (p_namespace pod +:+ "/" +:+ or_name ref) action (getAssignedNode pod)
      else ret tt
  | None => ret tt
  end.
Definition podEventHandler_Delete (pod : Pod) : M S unit := observe_pod Scale.Delete pod.
Definition podEventHandler_Create (pod : Pod) : M S unit :=
  match p_deletion pod with
  | Some _ => podEventHandler_Delete pod
  | None => observe_pod Scale.Create pod
  end.

(** The jobs a node event adds to the queue; an error of the list leaves it empty. *)
Definition listed_jobs (x : error + list BroadcastJob) : list BroadcastJob := match x with inl _ => [] | inr l => l end.
Definition addNode (node : Node) : M S (list (string * string)) :=
  do x <- read ListJobs;
  ret (map (fun j => (bj_namespace j, bj_name j))
         (filterb (fun j => checkNodeFitness validLabel fitsResources (NewMockPod j (n_name node)) node) (listed_jobs x))).
Definition updateNode (oldNode curNode : Node) : M S (list (string * string)) :=
  if shouldIgnoreNodeUpdate oldNode curNode then ret []
  else
    do x <- read ListJobs;
    ret (map (fun j => (bj_namespace j, bj_name j))
           (filterb (fun j => let mockPod := NewMockPod j (n_name oldNode) in
              negb (Bool.eqb (checkNodeFitness validLabel fitsResources mockPod oldNode)
                             (checkNodeFitness validLabel fitsResources mockPod curNode))) (listed_jobs x))).
End Controller.
