(* ===== verification/BroadcastJobRun.v ===== *)
(** * BroadcastJob: what one reconcile does

    The plan for the nodes, the writes of a sync with their bound, completion, the write of
    the status and the panic of [reconcilePods], for every server. *)

From S2P Require Import Prelude GoLib GoText K8s Tools Expectations Lifecycle UpdateSort CloneSetDiff ImagePullTypes World Scheduling.
From S2P Require Import BroadcastJob.
Open Scope Z_scope.
Open Scope kruise_scope.

(** ** The plan for the nodes *)

Section Plan.
Context (validLabel : string -> list string -> bool) (fitsResources : Pod -> Node -> bool).
Context (job : BroadcastJob) (existing : gmap string Pod).

Definition plan : Node -> NodePlan := plan_node validLabel fitsResources job existing.
Definition planned_run (n : Node) : bool := match plan n with NodeRun => true | _ => false end.
Definition planned_evict (n : Node) : option Pod := match plan n with NodeEvict p => Some p | _ => None end.
(** What the map of desired nodes has for a node. *)
Definition planned_pod (n : Node) : option (option Pod) :=
  match plan n with NodeKeep p => Some (Some p) | NodeRun => Some None | _ => None end.

Lemma nodes_to_run_lists nodes desired rest toDelete :
  (getNodesToRunPod validLabel fitsResources nodes job existing desired rest toDelete).1.2
  = rest ++ filterb planned_run nodes /\
  (getNodesToRunPod validLabel fitsResources nodes job existing desired rest toDelete).2
  = toDelete ++ omap planned_evict nodes.
Proof.
  revert desired rest toDelete. induction nodes as [|n nodes IH]; intros desired rest toDelete.
  { cbn. by rewrite !app_nil_r. }
  cbn. unfold planned_run at 1, planned_evict at 1, plan.
  destruct (plan_node _ _ _ _ n) eqn:E; cbn; rewrite (proj1 (IH _ _ _)), (proj2 (IH _ _ _)), <-?app_assoc; done.
Qed.

Lemma nodes_to_run_desired nodes desired rest toDelete name :
  NoDup (map n_name nodes) -> (forall n, n ∈ nodes -> desired !! n_name n = None) ->
  (getNodesToRunPod validLabel fitsResources nodes job existing desired rest toDelete).1.1 !! name
  = match desired !! name with
    | Some x => Some x
    | None => match find (fun n => String.eqb (n_name n) name) nodes with
              | Some n => planned_pod n
              | None => None
              end
    end.
Proof.
  revert desired rest toDelete. induction nodes as [|n nodes IH]; intros desired rest toDelete Hnd Hf.
  { cbn. by destruct (desired !! name). }
  cbn in Hnd. apply NoDup_cons in Hnd as [Hn Hnd].
  assert (forall m x, m ∈ nodes -> <[n_name n := x]> desired !! n_name m = None) as Hins.
  { intros m x Hm. rewrite lookup_insert_ne; [apply Hf; by right|]. intros E. apply Hn. rewrite E. by apply list_elem_of_fmap_2. }
  assert (find (fun m => String.eqb (n_name m) (n_name n)) nodes = None) as Hnone.
  { destruct (find (fun m => String.eqb (n_name m) (n_name n)) nodes) as [m|] eqn:E; [|done]. apply find_some in E as [Hm He]. apply String.eqb_eq in He.
    apply list_elem_of_In in Hm. destruct Hn. rewrite <-He. by apply list_elem_of_fmap_2. }
  assert (desired !! n_name n = None) as Hd by (apply Hf; left).
  cbn [getNodesToRunPod find]. destruct (String.eqb_spec (n_name n) name) as [<-|Hne].
  - rewrite Hd. unfold planned_pod, plan.
    destruct (plan_node validLabel fitsResources job existing n) eqn:E; rewrite IH by (eauto; intros; apply Hf; by constructor);
      rewrite ?lookup_insert_eq, ?Hd, ?Hnone; done.
  - destruct (plan_node validLabel fitsResources job existing n) eqn:E; rewrite IH by (eauto; intros; apply Hf; by constructor);
      rewrite ?lookup_insert_ne by done; done.
Qed.
End Plan.

(** ** The map from nodes to pods *)

Lemma node_map_fold pods (m : gmap string Pod) name :
  match fold_left (fun m pod => <[getAssignedNode pod := pod]> m) pods m !! name with
  | Some p => (p ∈ pods /\ getAssignedNode p = name) \/ m !! name = Some p
  | None => m !! name = None /\ forall p, p ∈ pods -> getAssignedNode p <> name
  end.
Proof.
  revert m. induction pods as [|q pods IH]; intros m; cbn.
  { destruct (m !! name); [by right|]. split; [done|]. intros p Hp. by apply elem_of_nil in Hp. }
  specialize (IH (<[getAssignedNode q := q]> m)).
  destruct (fold_left _ pods _ !! name) as [p|].
  - destruct IH as [[Hp E]|E]; [left; split; [by right|done]|].
    rewrite lookup_insert in E. destruct (decide (getAssignedNode q = name)) as [Hq|]; [|by right].
    injection E as <-. left. split; [left|done].
  - destruct IH as [E Hall]. rewrite lookup_insert in E. destruct (decide (getAssignedNode q = name)); [done|].
    split; [done|]. intros p Hp. apply elem_of_cons in Hp as [->|Hp]; auto.
Qed.

Lemma node_map_Some pods name p :
  getNodeToPodMap pods !! name = Some p -> p ∈ pods /\ getAssignedNode p = name.
Proof.
  intros E. pose proof (node_map_fold pods ∅ name) as Hm. unfold getNodeToPodMap in E. rewrite E in Hm.
  destruct Hm as [?|Hm]; [done|]. by rewrite lookup_empty in Hm.
Qed.
Lemma node_map_None pods name :
  getNodeToPodMap pods !! name = None <-> forall p, p ∈ pods -> getAssignedNode p <> name.
Proof.
  pose proof (node_map_fold pods ∅ name) as Hm. unfold getNodeToPodMap.
  destruct (fold_left _ _ _ !! name) as [p|].
  - destruct Hm as [[Hp E]|Hm]; [|by rewrite lookup_empty in Hm]. split; [done|]. intros Hall. by destruct (Hall p).
  - split; [by intros _; apply Hm|done].
Qed.

(** ** The node of a new pod *)

(** The node that the reconcile creates a pod for is the one that the handler of its creation
    reads from it. *)
Lemma new_pod_node scheduled job name :
  t_nodeName (bj_Template job) = ""%string -> name <> ""%string -> getAssignedNode (new_pod scheduled job name) = name.
Proof.
  intros Ht Hn. unfold new_pod, getAssignedNode. destruct scheduled; cbn.
  - by rewrite Ht.
  - destruct (String.eqb_spec name ""); [done|]. cbn. by destruct (String.eqb_spec name "").
Qed.

(** ** The writes *)

Lemma length_omap_le {A B} (f : A -> option B) (l : list A) : (length (omap f l) <= length l)%nat.
Proof. induction l as [|x l IH]; [done|]. cbn. fold (omap f l). destruct (f x); cbn; lia. Qed.

Lemma prefix_sublist {A} (l1 l2 : list A) : l1 `prefix_of` l2 -> l1 `sublist_of` l2.
Proof. intros [k ->]. apply sublist_inserts_r. done. Qed.
Lemma map_sublist {A B} (f : A -> B) (l1 l2 : list A) : l1 `sublist_of` l2 -> map f l1 `sublist_of` map f l2.
Proof. induction 1; cbn; by constructor. Qed.

Section Writes.
Context {S : Type} `{Api S} `{JobApi S} `{ApiErrors}.
Context (IsTimeout : error -> bool).
Context (validLabel : string -> list string -> bool) (fitsResources : Pod -> Node -> bool).
Context (now : Z) (scheduled : bool).

(** The pods that were deleted, and those whose creation succeeded. *)
Definition deleted_ok (evs : list Event) : list Pod :=
  omap (fun ev => match ev with EvDeletePod p true => Some p | _ => None end) evs.
Lemma deleted_ok_app e1 e2 : deleted_ok (e1 ++ e2) = deleted_ok e1 ++ deleted_ok e2.
Proof. apply omap_app. Qed.
Lemma no_pod_write_deleted evs : Forall (fun ev => no_pod_write ev = true) evs -> deleted_ok evs = [].
Proof. induction 1 as [|ev evs Hev _ IH]; [done|]. destruct ev; simpl in *; done. Qed.

Lemma deleted_ok_le evs : len (deleted_ok evs) <= len (deletes evs).
Proof.
  induction evs as [|ev evs IH]; [done|].
  change (ev :: evs) with ([ev] ++ evs).
  rewrite deleted_ok_app, deletes_app, !length_app.
  assert (len (deleted_ok [ev]) <= len (deletes [ev])) by (by destruct ev as [| ? []| | | | | | | | | | | | | | | | | | | |]). lia.
Qed.

Lemma expect_only P k a n : only P (expectScale (S := S) k a n).
Proof. apply emits_silent; intros w; [done|constructor]. Qed.
Lemma observe_only P k a n : only P (observeScale (S := S) k a n).
Proof. apply emits_silent; intros w; [done|constructor]. Qed.

(** Creations and nothing else, for these nodes in this order. *)
Definition creates_on (job : BroadcastJob) (nodes : list Node) (evs : list Event) : Prop :=
  creates evs = map (fun n => new_pod scheduled job (n_name n)) nodes /\ deletes evs = [] /\ deleted_ok evs = [].

Lemma creates_on_app job n1 n2 e1 e2 :
  creates_on job n1 e1 -> creates_on job n2 e2 -> creates_on job (n1 ++ n2) (e1 ++ e2).
Proof.
  intros (C1 & D1 & K1) (C2 & D2 & K2). unfold creates_on.
  by rewrite creates_app, deletes_app, deleted_ok_app, map_app, C1, C2, D1, D2, K1, K2.
Qed.

Definition labelled (job : BroadcastJob) : Prop := t_labels (bj_Template job) <> ∅.

Lemma new_pod_labels job name : p_labels (new_pod scheduled job name) = t_labels (bj_Template job).
Proof. unfold new_pod. destruct scheduled; [done|]. by destruct (String.eqb name ""). Qed.

Lemma createPodOnNode_emits job name : labelled job ->
  emits (createPodOnNode scheduled job name) (fun evs e =>
    evs = [EvCreatePod (new_pod scheduled job name) (is_ok e)]).
Proof.
  intros Hl. unfold createPodOnNode, createJobPod. cbn.
  rewrite bool_decide_eq_false_2 by (rewrite new_pod_labels; by intros E%map_size_empty_iff).
  apply emits_quiet; [apply expect_only|]. intros _.
  eapply emits_bind with (P := fun evs e => evs = [EvCreatePod (new_pod scheduled job name) (is_ok e)]); [by apply emits_call|].
  intros evs [err|] ->; [|by apply emits_ret].
  apply emits_quiet; [apply observe_only|]. intros _. by apply emits_ret.
Qed.

Lemma create_nodes_emits job nodes active errs : labelled job ->
  emits (create_nodes IsTimeout scheduled job nodes active errs) (fun evs r => creates_on job nodes evs).
Proof.
  intros Hl. revert active errs. induction nodes as [|n nodes IH]; intros active errs; cbn; [by apply emits_ret|].
  eapply emits_bind; [by apply createPodOnNode_emits|]. intros evs e ->. cbn.
  assert (forall a es, emits (create_nodes IsTimeout scheduled job nodes a es) (fun evs' _ =>
    creates_on job (n :: nodes) ([EvCreatePod (new_pod scheduled job (n_name n)) (is_ok e)] ++ evs'))) as Hk.
  { intros a es. eapply emits_mono; [apply IH|]. intros evs' r Hevs. by apply (creates_on_app _ [n]). }
  destruct e as [err|]; [destruct (IsTimeout err)|]; apply Hk.
Qed.

(** The batches create pods for the first nodes, at most [diff] of them. *)
Lemma create_batches_emits fuel job rest diff batchSize start active errs :
  labelled job -> 0 <= start -> 0 <= diff -> diff <= len rest - start ->
  (0 < diff -> 0 < batchSize <= diff) ->
  emits (create_batches IsTimeout scheduled fuel job rest diff batchSize start active errs) (fun evs _ =>
    exists k, (Z.of_nat k <= diff) /\ creates_on job (take k (slice_from rest start)) evs).
Proof.
  intros Hl. revert diff batchSize start active errs.
  induction fuel as [|fuel IH]; intros diff batchSize start active errs Hs Hd Hr Hb; cbn [create_batches].
  { apply emits_ret. exists 0%nat. done. }
  destruct (Z.leb_spec diff 0) as [Hle|Hgt]; [apply emits_ret; exists 0%nat; done|].
  specialize (Hb Hgt). eapply emits_bind; [by apply create_nodes_emits|]. intros evs [active' errs'] Hevs.
  unfold slice_to in Hevs.
  destruct (_ && _).
  - apply emits_ret. exists (Z.to_nat batchSize). rewrite app_nil_r. split; [lia|done].
  - eapply emits_mono; [apply IH; lia|]. intros evs' r (k & Hk & Hevs').
    exists (Z.to_nat batchSize + k)%nat. split; [lia|].
    rewrite <-take_take_drop. unfold slice_from in *.
    rewrite Z2Nat.inj_add, <-drop_drop in Hevs' by lia. by apply creates_on_app.
Qed.

(** What [reconcilePods] creates: nothing, or within the parallelism. *)
Definition within (job : BroadcastJob) (rest : list Node) (active desired : Z) (evs : list Event) : Prop :=
  exists chosen, chosen `prefix_of` rest /\ creates_on job chosen evs /\
    (chosen = [] \/ exists parallelism, parallelism_of job desired = Some parallelism /\
                      active + len chosen <= parallelism).

Lemma within_nil job rest active desired evs : creates_on job [] evs -> within job rest active desired evs.
Proof. intros Hevs. exists []. split_and!; [apply prefix_nil|done|by left]. Qed.

(** The subtraction of two int32 numbers overflows to a negative number. *)
Lemma wrap32_sub a b : is_int32 a -> is_int32 b -> b < a ->
  wrap32 (a - b) = if a - b <=? int32_max then a - b else a - b - 2 ^ 32.
Proof.
  intros Ha Hb Hlt. destruct (Z.leb_spec (a - b) int32_max) as [Hle|Hgt].
  - apply wrap32_id. unfold is_int32, int32_min, int32_max in *. lia.
  - unfold wrap32, is_int32, int32_min, int32_max in *.
    replace (a - b + 2 ^ 31) with (a - b - 2 ^ 31 + 1 * 2 ^ 32) by lia.
    rewrite Z.mod_add, Z.mod_small by lia. lia.
Qed.

Lemma parallelism_int32 job desired p : parallelism_of job desired = Some p -> is_int32 p.
Proof.
  unfold parallelism_of. destruct (GetValueFromIntOrPercent _ _ _); [|done]. intros [= <-]. apply wrap32_range.
Qed.

Lemma reconcilePods_emits job rest active desired : labelled job -> is_int32 active ->
  emits (reconcilePods IsTimeout scheduled job rest active desired) (fun evs _ => within job rest active desired evs).
Proof.
  intros Hl Ha. unfold reconcilePods. destruct (parallelism_of job desired) as [p|] eqn:Ep;
    [|by apply emits_ret, within_nil].
  pose proof (parallelism_int32 _ _ _ Ep) as Hp.
  destruct (Z.ltb_spec active p) as [Hlt|Hge]; [|by apply emits_ret, within_nil].
  destruct (Z.ltb_spec (creation_diff p active (len rest)) 0) as [Hneg|Hnn]; [by apply emits_ret, within_nil|].
  unfold creation_diff in *. eapply emits_bind; [apply create_batches_emits; [done|lia..]|].
  intros evs [active' errs] (k & Hk & Hevs). apply emits_ret. rewrite app_nil_r.
  exists (take k rest). split_and!; [apply prefix_take|done|]. right. exists p. split; [done|].
  rewrite wrap32_sub in * by done. rewrite length_take.
  destruct (Z.leb_spec (p - active) int32_max); [lia|]. unfold is_int32, int32_min, int32_max in *. lia.
Qed.

Lemma delete_pods_emits job pods failed active errs :
  emits (delete_pods (S := S) job pods failed active errs) (fun evs r =>
    deletes evs = pods /\ creates evs = [] /\ r.1.2 = active - len (deleted_ok evs)).
Proof.
  revert failed active errs. induction pods as [|p pods IH]; intros failed active errs; cbn [delete_pods].
  { apply emits_ret. cbn. split_and!; [done..|lia]. }
  apply emits_quiet; [apply expect_only|]. intros _.
  eapply emits_bind with (P := fun evs e => evs = [EvDeletePod p (is_ok e)]); [by apply emits_call|].
  intros evs [err|] ->.
  - apply emits_quiet; [apply observe_only|]. intros _. eapply emits_mono; [apply IH|].
    intros evs r (D & C & E). by rewrite deletes_app, creates_app, deleted_ok_app, D, C.
  - eapply emits_mono; [apply IH|]. intros evs r (D & C & E).
    rewrite deletes_app, creates_app, deleted_ok_app, length_app, D, C, E. split_and!; [done..|]. cbn. lia.
Qed.

Lemma deleteJobPods_emits job pods failed active :
  emits (deleteJobPods (S := S) job pods failed active) (fun evs r =>
    deletes evs = pods /\ creates evs = [] /\ r.1.2 = active - len (deleted_ok evs)).
Proof.
  unfold deleteJobPods. eapply emits_bind; [apply delete_pods_emits|]. intros evs [[f a] errs] (D & C & E).
  apply emits_ret. by rewrite app_nil_r.
Qed.

(** The writes of the whole sync: the pods it asks to delete, and creations on a prefix of
    [rest] within the parallelism, where [active] pods were active before. *)
Definition sync_writes (job : BroadcastJob) (rest : list Node) (toDelete : list Pod) (active desired : Z)
  (evs : list Event) : Prop :=
  exists chosen, chosen `prefix_of` rest /\
    creates evs = map (fun n => new_pod scheduled job (n_name n)) chosen /\ deletes evs = toDelete /\
    (chosen = [] \/ exists parallelism, parallelism_of job desired = Some parallelism /\
                      active - len (deleted_ok evs) + len chosen <= parallelism).

Lemma updateJobStatus_only job : only no_pod_write (updateJobStatus (S := S) job).
Proof.
  apply RetryOnConflict_only. intros j. apply only_bind; [apply only_call; intros a; by repeat constructor|].
  intros [err|]; [|apply only_ret]. apply only_bind; [apply only_read|]. intros [?|?]; apply only_ret.
Qed.

Lemma sync_writes_quiet job rest toDelete active desired e1 e2 :
  sync_writes job rest toDelete active desired e1 -> Forall (fun ev => no_pod_write ev = true) e2 ->
  sync_writes job rest toDelete active desired (e1 ++ e2).
Proof.
  intros (chosen & Hp & Hc & Hd & Hb) H2. exists chosen.
  rewrite creates_app, deletes_app, deleted_ok_app, (no_pod_write_creates e2), (no_pod_write_deletes e2),
    (no_pod_write_deleted e2), !app_nil_r by exact H2. auto.
Qed.

(** The pods of the job, and what the sync plans for them. *)
Context (job : BroadcastJob) (pods : list Pod) (nodes : list Node).

Definition view : View := view_of validLabel fitsResources job pods nodes.
Definition limit : Z := fp_RestartLimit (bj_FailurePolicy job).
Definition desired_number : Z := Z.of_nat (size (v_desiredNodes view)).

Lemma view_lists :
  v_pods view = pods /\
  v_rest view = filterb (planned_run validLabel fitsResources job (getNodeToPodMap pods)) nodes /\
  v_podsToDelete view = omap (planned_evict validLabel fitsResources job (getNodeToPodMap pods)) nodes.
Proof.
  unfold view, view_of.
  destruct (nodes_to_run_lists validLabel fitsResources job (getNodeToPodMap pods) nodes ∅ [] []) as [E1 E2].
  destruct (getNodesToRunPod _ _ _ _ _ _ _ _) as [[d r] t]. cbn in *. auto.
Qed.

(** Two jobs that the sync treats alike: only their status differs. *)
Definition same_spec (j : BroadcastJob) : Prop :=
  bj_Parallelism j = bj_Parallelism job /\ (forall n, new_pod scheduled j n = new_pod scheduled job n) /\
  bj_Template j = bj_Template job.

Lemma run_job_emits j failed active succeeded requeueAfter :
  labelled job -> same_spec j -> js_Desired (bj_status j) = desired_number -> is_int32 (active - len (v_podsToDelete view)) ->
  is_int32 active ->
  emits (run_job IsTimeout now scheduled j view failed active succeeded requeueAfter) (fun evs _ =>
    sync_writes job (v_rest view) (v_podsToDelete view) active desired_number evs /\
    (creates evs <> [] -> bj_deletion j = None)).
Proof.
  intros Hl (Hp & Hn & Ht) Hd Hlo Hhi. unfold run_job.
  eapply emits_bind with (P := fun evs r => deletes evs = v_podsToDelete view /\ creates evs = [] /\
    r.1.2 = active - len (deleted_ok evs)).
  - case_bool_decide as E; [|apply deleteJobPods_emits]. apply emits_ret. rewrite E. cbn. split_and!; [done..|lia].
  - intros evs [[f a] err] (D & C & Ea). cbn in Ea.
    assert (len (deleted_ok evs) <= len (deletes evs)) as Hle.
    { apply deleted_ok_le. }
    rewrite D in Hle.
    assert (is_int32 a) as Hia by (unfold is_int32 in *; lia).
    eapply emits_bind with (P := fun evs' _ => within job (v_rest view) a desired_number evs' /\
      (creates evs' <> [] -> bj_deletion j = None)).
    + destruct (bj_deletion j); [apply emits_ret; split; [by apply within_nil|done]|].
      case_bool_decide; [apply emits_ret; split; [by apply within_nil|done]|].
      eapply emits_mono; [apply reconcilePods_emits; [unfold labelled; by rewrite Ht|done]|].
      intros evs' _ (chosen & Hpre & (Cc & Dc & Kc) & Hb). split; [|done]. exists chosen. split_and!; [done| |].
      * split_and!; [|done..]. rewrite Cc. apply map_ext. intros n. apply Hn.
      * destruct Hb as [->|(p & Hpar & Hle')]; [by left|]. right. exists p. split; [|done].
        unfold parallelism_of in *. by rewrite <-Hp, <-Hd.
    + intros evs' r ((chosen & Hpre & (Cc & Dc & Kc) & Hb) & Hdel).
      assert (sync_writes job (v_rest view) (v_podsToDelete view) active desired_number (evs ++ evs') /\
        (creates (evs ++ evs') <> [] -> bj_deletion j = None)) as Hs.
      { split; [|by rewrite creates_app, C]. exists chosen. rewrite creates_app, deletes_app, deleted_ok_app, C, D, Cc, Dc, Kc, !app_nil_r.
        split_and!; [done..|]. destruct Hb as [?|(p & Hpar & Hle')]; [by left|right]. exists p. split; [done|lia]. }
      destruct r as [[a' err']|]; [|apply emits_ret; by rewrite app_nil_r].
      destruct (isJobComplete _ _); [destruct (finishJob _ _ _ _)|]; apply emits_ret; by rewrite app_nil_r.
Qed.

Definition active_pod : Pod -> bool := is_class limit Active.
Definition failed_number : Z := countb (is_class limit Failed) pods.

(** The job lets the sync create pods. *)
Definition may_create : Prop :=
  job_phase job <> PhaseFailed /\ bj_deletion job = None /\
  ~ (bj_Paused job = true /\ (job_phase job = PhaseRunning \/ job_phase job = PhasePaused)) /\
  (0 < failed_number -> fp_Type (bj_FailurePolicy job) <> FailurePolicyTypePause /\
                        fp_Type (bj_FailurePolicy job) <> FailurePolicyTypeFailFast) /\
  isJobFailed now job = None.

(** A pod that the sync asks to delete: its node does not fit, or the job has failed. *)
Definition may_delete (p : Pod) : Prop :=
  (exists n, n ∈ nodes /\ getNodeToPodMap pods !! n_name n = Some p /\ p_deletion p = None /\
             checkNodeFitness validLabel fitsResources p n = false) \/
  (p ∈ pods /\ active_pod p = true /\ exists f, failure_of now job failed_number = Some f).

Lemma evicted_may_delete p : p ∈ v_podsToDelete view -> may_delete p.
Proof.
  destruct view_lists as (_ & _ & ->). rewrite list_elem_of_omap. intros (n & Hn & E). left. exists n.
  unfold planned_evict, plan, plan_node in E. destruct (getNodeToPodMap pods !! n_name n) as [q|]; [|by destruct (checkNodeFitness _ _ _ _)].
  destruct (checkNodeFitness _ _ q n) eqn:Ef; [done|]. destruct (p_deletion q) eqn:Ed; [done|]. by injection E as <-.
Qed.

(** The writes of a sync, in terms of the pods and the nodes. *)
Definition sync_post (evs : list Event) : Prop :=
  exists chosen, chosen `prefix_of` v_rest view /\
    creates evs = map (fun n => new_pod scheduled job (n_name n)) chosen /\
    Forall may_delete (deletes evs) /\
    (chosen = [] \/ may_create /\ exists parallelism, parallelism_of job desired_number = Some parallelism /\
       countb active_pod pods - len (deleted_ok evs) + len chosen <= parallelism).

Lemma quiet_post evs : creates evs = [] -> Forall may_delete (deletes evs) -> sync_post evs.
Proof. intros Hc Hd. exists []. split_and!; [apply prefix_nil|done|done|by left]. Qed.

Lemma sync_post_app e1 e2 : sync_post e1 -> Forall (fun ev => no_pod_write ev = true) e2 -> sync_post (e1 ++ e2).
Proof.
  intros (chosen & Hp & Hc & Hd & Hb) H2. exists chosen.
  rewrite creates_app, deletes_app, deleted_ok_app, (no_pod_write_creates e2), (no_pod_write_deletes e2),
    (no_pod_write_deleted e2), !app_nil_r by exact H2. auto.
Qed.

Lemma report_early_emits j d : emits (report_early (S := S) j d) (fun evs _ => sync_post evs).
Proof.
  unfold report_early. eapply emits_bind; [apply updateJobStatus_only|]. intros evs e Hevs. apply emits_ret.
  rewrite app_nil_r. by apply quiet_post; [apply no_pod_write_creates|rewrite no_pod_write_deletes].
Qed.

Lemma report_emits r : emits (report (S := S) r) (fun evs _ => Forall (fun ev => no_pod_write ev = true) evs).
Proof.
  unfold report. destruct r as [[[j d] err]|]; [|by apply emits_ret].
  apply only_bind; [apply updateJobStatus_only|]. intros e. apply only_ret.
Qed.

Lemma failure_of_None j failed : failure_of now j failed = None ->
  isJobFailed now j = None /\ (0 < failed -> fp_Type (bj_FailurePolicy j) <> FailurePolicyTypeFailFast).
Proof.
  unfold failure_of. destruct (String.eqb_spec (fp_Type (bj_FailurePolicy j)) FailurePolicyTypeFailFast); [|by rewrite andb_false_r].
  destruct (Z.ltb_spec 0 failed); [done|]. cbn. intros E. split; [done|lia].
Qed.

Lemma sync_job_emits requeueAfter :
  labelled job -> len pods + len nodes <= int32_max ->
  emits (sync_job IsTimeout now scheduled job view requeueAfter) (fun evs _ => sync_post evs).
Proof.
  intros Hl Hn. unfold sync_job, filterPods. destruct view_lists as (Hpods & Hrest & Hdel). rewrite Hpods.
  change (fp_RestartLimit (bj_FailurePolicy job)) with limit.
  rewrite <-!countb_filterb. fold failed_number active_pod. fold desired_number.
  set (succ := countb (is_class limit Succeeded) pods).
  set (j0 := with_counts job (countb active_pod pods) succ failed_number desired_number).
  change (job_phase j0) with (job_phase job). change (bj_Paused j0) with (bj_Paused job).
  destruct (String.eqb_spec (job_phase job) PhaseFailed) as [|Hf]; [apply report_early_emits|].
  destruct (bj_Paused job && (String.eqb (job_phase job) PhaseRunning || String.eqb (job_phase job) PhasePaused)) eqn:Epause;
    [apply report_early_emits|].
  set (j1 := if negb (bj_Paused job) && String.eqb (job_phase job) PhasePaused then with_phase j0 PhaseRunning else j0).
  assert (same_spec j1 /\ bj_FailurePolicy j1 = bj_FailurePolicy job /\ bj_deletion j1 = bj_deletion job /\
    js_Desired (bj_status j1) = desired_number /\ failure_of now j1 failed_number = failure_of now job failed_number)
    as (Hs & Hfp & Hbd & Hjd & Hfo) by (subst j1; by destruct (negb _ && _)).
  rewrite Hfp, Hfo. clearbody j1.
  destruct ((0 <? failed_number) && String.eqb (fp_Type (bj_FailurePolicy job)) FailurePolicyTypePause) eqn:Efp;
    [apply report_early_emits|].
  destruct (failure_of now job failed_number) as [[reason message]|] eqn:Efail.
  - unfold fail_job. eapply emits_bind with (P := fun evs _ => sync_post evs).
    + eapply emits_bind; [apply deleteJobPods_emits|]. intros evs [[f a] err] (D & C & _).
      destruct (finishJob _ _ _ _). apply emits_ret. rewrite app_nil_r. apply quiet_post; [done|].
      rewrite D. apply Forall_forall. intros p Hp. apply filterb_elem in Hp as [Hp Ha]. right. eauto.
    + intros evs r Hevs. eapply emits_mono; [apply report_emits|]. intros evs' x Hq. by apply sync_post_app.
  - eapply emits_bind.
    + apply run_job_emits; try done.
      * rewrite Hdel. pose proof (countb_nonneg active_pod pods). pose proof (countb_le_length active_pod pods).
        pose proof (length_omap_le (planned_evict validLabel fitsResources job (getNodeToPodMap pods)) nodes).
        unfold is_int32, int32_min, int32_max in *. lia.
      * pose proof (countb_nonneg active_pod pods). pose proof (countb_le_length active_pod pods).
        unfold is_int32, int32_min, int32_max in *. lia.
    + intros evs r ((chosen & Hp & Hc & Hd & Hb) & Hdn). eapply emits_mono; [apply report_emits|]. intros evs' x Hq.
      apply sync_post_app; [|done]. exists chosen. split_and!; [done..| |].
      * rewrite Hd. apply Forall_forall. apply evicted_may_delete.
      * destruct Hb as [->|Hb]; [by left|]. destruct chosen as [|n chosen]; [by left|]. right. split; [|done].
        destruct (failure_of_None _ _ Efail) as [Hnf Hff].
        split_and!; [done|rewrite <-Hbd; apply Hdn; by rewrite Hc| | |done].
        -- intros [Hpa [E|E]]; by rewrite Hpa, E in Epause.
        -- intros Hpos. split; [|by apply Hff]. apply Z.ltb_lt in Hpos. rewrite Hpos in Efp. by apply String.eqb_neq in Efp.
Qed.
End Writes.

Lemma add_label_labelled job : labelled (addLabelToPodTemplate job).
Proof.
  unfold labelled, addLabelToPodTemplate, labelsAsMap. cbn. intros E.
  apply (f_equal (lookup JobNameLabelKey)) in E. rewrite lookup_empty in E.
  by rewrite (lookup_union_Some_l _ _ _ (bj_name job)) in E by apply lookup_insert_eq.
Qed.

(** Whatever the server answers, a sync of a broadcast job creates pods only while the job
    is allowed to run (not failed, not paused, not deleted, no failed pod that its policy
    reacts to, within its deadline), at most one per node, only on nodes that the template
    fits and that no pod of the job is assigned to; it deletes only pods whose node no longer
    fits, or the active pods of a failed job; and the active pods that are left, with the new
    ones, exceed the parallelism by at most the number of pods it deleted that were not
    active: the counter of active pods goes down for these too. *)
Theorem broadcast_creations_bounded {S} `{Api S} `{JobApi S} `{ApiErrors} (IsTimeout : error -> bool)
  (validLabel : string -> list string -> bool) (fitsResources : Pod -> Node -> bool) (now : Z) (scheduled : bool)
  (job : BroadcastJob) (pods : list Pod) (nodes : list Node) (requeueAfter : Z) :
  t_labels (bj_Template job) <> ∅ -> len pods + len nodes <= int32_max -> NoDup (map n_name nodes) ->
  let v := view_of validLabel fitsResources job pods nodes in
  let active := is_class (fp_RestartLimit (bj_FailurePolicy job)) Active in
  emits (sync_job (S := S) IsTimeout now scheduled job v requeueAfter) (fun evs _ =>
    exists chosen,
      creates evs = map (fun n => new_pod scheduled job (n_name n)) chosen /\
      NoDup (map n_name chosen) /\
      (forall n, n ∈ chosen -> n ∈ nodes /\
         checkNodeFitness validLabel fitsResources (NewMockPod job (n_name n)) n = true /\
         forall p, p ∈ pods -> getAssignedNode p <> n_name n) /\
      (forall p, p ∈ deletes evs -> may_delete validLabel fitsResources now job pods nodes p) /\
      (chosen = [] \/
       may_create now job pods /\
       exists parallelism, parallelism_of job (Z.of_nat (size (v_desiredNodes v))) = Some parallelism /\
         countb active pods - countb active (deleted_ok evs) + len chosen
         <= parallelism + countb (fun p => negb (active p)) (deleted_ok evs))).
Proof.
  intros Hl Hn Hnd v active. eapply emits_mono; [by apply (sync_job_emits IsTimeout validLabel fitsResources)|].
  intros evs r (chosen & Hp & Hc & Hd & Hb). exists chosen.
  destruct (view_lists validLabel fitsResources job pods nodes) as (_ & Hrest & _).
  assert (chosen `sublist_of` nodes) as Hsub.
  { etrans; [by apply prefix_sublist|]. rewrite Hrest. apply filterb_sublist. }
  split_and!; [done| | | |].
  - eapply sublist_NoDup; [exact Hnd|]. by apply map_sublist.
  - intros n Hin. split; [by eapply elem_of_sublist|].
    assert (n ∈ v_rest (view validLabel fitsResources job pods nodes)) as Hr by (eapply elem_of_sublist; [done|by apply prefix_sublist]).
    rewrite Hrest in Hr. apply filterb_elem in Hr as [_ Hr]. unfold planned_run, plan, plan_node in Hr.
    destruct (getNodeToPodMap pods !! n_name n) eqn:E; [by destruct (_ && _)|].
    destruct (checkNodeFitness _ _ _ _); [|done]. split; [done|]. by apply node_map_None.
  - by apply Forall_forall.
  - destruct Hb as [?|[Hm (p & Hp' & Hle)]]; [by left|]. right. split; [done|]. exists p. split; [done|].
    pose proof (countb_split active (deleted_ok evs)). unfold active_pod in Hle. fold active in Hle.
    unfold limit in Hle. fold active in Hle. lia.
Qed.

(** ** Completion *)

Section Complete.
Context (validLabel : string -> list string -> bool) (fitsResources : Pod -> Node -> bool).
Context (job : BroadcastJob) (pods : list Pod) (nodes : list Node).
Hypothesis Hnodes : NoDup (map n_name nodes).
Hypothesis Hpods : NoDup (map getAssignedNode pods).

(** A node where the job wants a pod: it has one that fits or that is being deleted, or it has
    none and the template fits. *)
Definition wanted (n : Node) : Prop :=
  (exists p, p ∈ pods /\ getAssignedNode p = n_name n /\
     (checkNodeFitness validLabel fitsResources p n = true \/ is_Some (p_deletion p))) \/
  ((forall p, p ∈ pods -> getAssignedNode p <> n_name n) /\
   checkNodeFitness validLabel fitsResources (NewMockPod job (n_name n)) n = true).
Definition ended_on (n : Node) : Prop :=
  exists p, p ∈ pods /\ getAssignedNode p = n_name n /\ IsPodActive p = false.

Lemma assigned_inj p q : p ∈ pods -> q ∈ pods -> getAssignedNode p = getAssignedNode q -> p = q.
Proof.
  clear Hnodes. revert p q. induction pods as [|x l IH]; intros p q Hp Hq E; [by apply elem_of_nil in Hp|].
  cbn in Hpods. apply NoDup_cons in Hpods as [Hx Hl].
  apply elem_of_cons in Hp as [->|Hp], Hq as [->|Hq]; auto.
  - destruct Hx. rewrite E. by apply list_elem_of_fmap_2.
  - destruct Hx. rewrite <-E. by apply list_elem_of_fmap_2.
Qed.

Lemma node_map_iff name p : getNodeToPodMap pods !! name = Some p <-> p ∈ pods /\ getAssignedNode p = name.
Proof.
  split; [apply node_map_Some|]. intros [Hp E]. destruct (getNodeToPodMap pods !! name) as [q|] eqn:Eq.
  - apply node_map_Some in Eq as [Hq Eq]. f_equal. apply assigned_inj; congruence.
  - rewrite node_map_None in Eq. by destruct (Eq p).
Qed.

Lemma planned_wanted n :
  match planned_pod validLabel fitsResources job (getNodeToPodMap pods) n with
  | Some (Some p) => wanted n /\ p ∈ pods /\ getAssignedNode p = n_name n
  | Some None => wanted n /\ forall p, p ∈ pods -> getAssignedNode p <> n_name n
  | None => ~ wanted n
  end.
Proof.
  unfold planned_pod, plan, plan_node, wanted. destruct (getNodeToPodMap pods !! n_name n) as [p|] eqn:E.
  - apply node_map_iff in E as [Hp E].
    assert (forall q, q ∈ pods -> getAssignedNode q = n_name n -> q = p) as Huniq by (intros; apply assigned_inj; congruence).
    destruct (checkNodeFitness _ _ p n) eqn:Ef, (p_deletion p) eqn:Ed; cbn; try (split; [left; exists p; rewrite ?Ed; eauto|done]).
    intros [(q & Hq & Eq & Hor)|[Hno _]]; [|by destruct (Hno p)]. rewrite (Huniq q Hq Eq), Ef, Ed in Hor.
    destruct Hor as [?|[? ?]]; done.
  - rewrite node_map_None in E. destruct (checkNodeFitness _ _ _ _) eqn:Ef; cbn; [auto|].
    intros [(q & Hq & Eq & _)|[_ ?]]; [by destruct (E q)|done].
Qed.

Lemma desired_lookup name x :
  v_desiredNodes (view_of validLabel fitsResources job pods nodes) !! name = Some x <->
  exists n, n ∈ nodes /\ n_name n = name /\ planned_pod validLabel fitsResources job (getNodeToPodMap pods) n = Some x.
Proof.
  unfold view_of. pose proof (nodes_to_run_desired validLabel fitsResources job (getNodeToPodMap pods) nodes ∅ [] [] name Hnodes) as E.
  destruct (getNodesToRunPod _ _ _ _ _ _ _ _) as [[d r] t]. cbn in *. rewrite E, lookup_empty by done. split.
  - destruct (find _ nodes) as [n|] eqn:Ef; [|done]. apply find_some in Ef as [Hn He]. apply String.eqb_eq in He.
    rewrite <-list_elem_of_In in Hn. eauto.
  - intros (n & Hn & En & Hx). destruct (find (fun m => String.eqb (n_name m) name) nodes) as [m|] eqn:Ef.
    + apply find_some in Ef as [Hm He]. apply String.eqb_eq in He. rewrite <-list_elem_of_In in Hm.
      assert (m = n) as ->; [|done]. clear -Hnodes Hn Hm En He. revert Hnodes Hn Hm. induction nodes as [|y l IH]; intros Hnd Hn Hm; [by apply elem_of_nil in Hn|].
      cbn in Hnd. apply NoDup_cons in Hnd as [Hy Hl]. apply elem_of_cons in Hn as [->|Hn], Hm as [->|Hm]; auto.
      * destruct Hy. rewrite En, <-He. by apply list_elem_of_fmap_2.
      * destruct Hy. rewrite He, <-En. by apply list_elem_of_fmap_2.
    + eapply find_none in Ef; [|by apply list_elem_of_In]. cbn in Ef. by rewrite En, String.eqb_refl in Ef.
Qed.

Lemma isJobComplete_iff :
  isJobComplete job (v_desiredNodes (view_of validLabel fitsResources job pods nodes)) = true <->
  cp_Type (bj_CompletionPolicy job) <> Never /\ (exists n, n ∈ nodes /\ wanted n) /\
  forall n, n ∈ nodes -> wanted n -> ended_on n.
Proof.
  set (d := v_desiredNodes _). unfold isJobComplete.
  destruct (String.eqb_spec (cp_Type (bj_CompletionPolicy job)) Never) as [|Hnv]; [split; [done|by intros [? _]]|].
  assert (forall n, n ∈ nodes -> wanted n -> exists x, d !! n_name n = Some x /\
     planned_pod validLabel fitsResources job (getNodeToPodMap pods) n = Some x) as Hw.
  { intros n Hn Hwn. pose proof (planned_wanted n) as Hp. destruct (planned_pod _ _ _ _ n) as [x|] eqn:E; [|done].
    exists x. split; [|done]. apply desired_lookup. eauto. }
  assert (forall name x, d !! name = Some x -> exists n, n ∈ nodes /\ wanted n /\ n_name n = name /\
     planned_pod validLabel fitsResources job (getNodeToPodMap pods) n = Some x) as Hd.
  { intros name x Hx. apply desired_lookup in Hx as (n & Hn & En & Hx). exists n. split_and!; try done.
    pose proof (planned_wanted n) as Hp. rewrite Hx in Hp. by destruct x as [p|]; destruct Hp. }
  case_bool_decide as Hz.
  - split; [done|]. intros (_ & (n & Hn & Hwn) & _). apply map_size_empty_iff in Hz.
    destruct (Hw n Hn Hwn) as (x & Hx & _). by rewrite Hz in Hx.
  - rewrite forallb_forall. split.
    + intros Hall. split_and!; [done| |].
      * destruct (map_choose d) as (name & x & Hx); [by intros ->|]. destruct (Hd _ _ Hx) as (n & ? & ? & _). eauto.
      * intros n Hn Hwn. destruct (Hw n Hn Hwn) as (x & Hx & Hpl).
        pose proof (planned_wanted n) as Hp. rewrite Hpl in Hp.
        specialize (Hall (n_name n, x)). rewrite <-list_elem_of_In, elem_of_map_to_list in Hall. specialize (Hall Hx).
        destruct x as [p|]; [|done]. destruct Hp as (_ & Hin & Ea). exists p. by apply negb_true_iff in Hall.
    + intros (_ & _ & Hall) [name x] Hin. rewrite <-list_elem_of_In, elem_of_map_to_list in Hin. cbn.
      destruct (Hd _ _ Hin) as (n & Hn & Hwn & En & Hpl). destruct (Hall n Hn Hwn) as (q & Hq & Eq & Hend).
      pose proof (planned_wanted n) as Hp. rewrite Hpl in Hp. destruct x as [p|].
      * destruct Hp as (_ & Hin' & Ea). rewrite (assigned_inj p q) by congruence. by rewrite Hend.
      * destruct Hp as [_ Hno]. by destruct (Hno q).
Qed.
End Complete.

(** C37: A running job is declared complete exactly when its policy lets it complete, some node
    wants a pod of it, and on every node that wants one its pod has ended (succeeded, failed or
    being deleted): a node wants a pod when its pod fits or is being deleted, or when it has
    none and the template fits. *)
Theorem broadcast_complete_exact {S} `{Api S} `{JobApi S} (IsTimeout : error -> bool)
  (validLabel : string -> list string -> bool) (fitsResources : Pod -> Node -> bool) (now : Z) (scheduled : bool)
  (job job' : BroadcastJob) (pods : list Pod) (nodes : list Node) (failed active succeeded requeueAfter delay : Z)
  (err : option error) (w : World S) :
  NoDup (map n_name nodes) -> NoDup (map getAssignedNode pods) -> job_phase job <> PhaseCompleted ->
  (run_job IsTimeout now scheduled job (view_of validLabel fitsResources job pods nodes)
     failed active succeeded requeueAfter w).2 = Some (job', delay, err) ->
  job_phase job' = PhaseCompleted <->
  cp_Type (bj_CompletionPolicy job) <> Never /\
  (exists n, n ∈ nodes /\ wanted validLabel fitsResources job pods n) /\
  forall n, n ∈ nodes -> wanted validLabel fitsResources job pods n -> ended_on pods n.
Proof.
  intros Hn Hp Hph Hrun. rewrite <-isJobComplete_iff by done. unfold run_job, bind in Hrun.
  match type of Hrun with context [let '(_, _) := ?m w in _] => destruct (m w) as [w1 [[f a] e]] end.
  match type of Hrun with context [let '(_, _) := ?m w1 in _] => destruct (m w1) as [w2 [[a' e']|]] end; [|done].
  destruct (isJobComplete _ _); cbn in Hrun; injection Hrun as <- <- <-; done.
Qed.

(** The status of a broadcast job is written once, whatever comes of it: when the write
    fails and the job can be read again, the update answers success although the status was
    not stored. *)
Theorem broadcast_status_lost {S} `{JobApi S} `{ApiErrors} (job updated : BroadcastJob) (err : error) (w : World S) (s : S) :
  UpdateJobStatus job (w_server w) = (s, Some err) -> GetJob (bj_namespace job) (bj_name job) s = inr updated ->
  updateJobStatus job w
  = (mkWorld s (w_scale w) (w_rv w) (w_upd w) (w_local w) (w_dur w) (w_trace w ++ [EvUpdateStatus false]), None).
Proof.
  intros Hu Hg. unfold updateJobStatus. cbn. unfold status_try, update_status, bind, read, call. rewrite Hu. cbn.
  rewrite Hg. cbn. by rewrite app_nil_r.
Qed.

(** [reconcilePods] panics exactly when the difference of the parallelism and the number of
    active pods overflows an int32; for a job without a parallelism, exactly when the number
    of active pods is negative. *)
Theorem broadcast_panics_exact {S} `{Api S} (IsTimeout : error -> bool) (scheduled : bool)
  (job : BroadcastJob) (rest : list Node) (active desired : Z) (w : World S) :
  is_int32 active ->
  ((reconcilePods IsTimeout scheduled job rest active desired w).2 = None <->
   exists parallelism, parallelism_of job desired = Some parallelism /\ int32_max < parallelism - active) /\
  (bj_Parallelism job = None ->
   (reconcilePods IsTimeout scheduled job rest active desired w).2 = None <-> active < 0).
Proof.
  intros Ha.
  assert ((reconcilePods IsTimeout scheduled job rest active desired w).2 = None <->
   exists parallelism, parallelism_of job desired = Some parallelism /\ int32_max < parallelism - active) as Hiff.
  { unfold reconcilePods. destruct (parallelism_of job desired) as [p|] eqn:Ep; [|split; [done|by intros (? & ? & _)]].
    pose proof (parallelism_int32 _ _ _ Ep) as Hp.
    assert ((exists q, Some p = Some q /\ int32_max < q - active) <-> int32_max < p - active) as ->
      by (split; [by intros (q & [= <-] & ?)|eauto]).
    destruct (Z.ltb_spec active p) as [Hlt|Hge]; [|split; [done|unfold int32_max; lia]].
    unfold creation_diff. rewrite wrap32_sub by done.
    destruct (Z.leb_spec (p - active) int32_max) as [Hle|Hgt].
    - rewrite (proj2 (Z.ltb_ge _ 0)) by lia. unfold bind.
      match goal with |- context [let '(_, _) := ?m w in _] => destruct (m w) as [w1 [a errs]] end. cbn. split; [done|lia].
    - rewrite (proj2 (Z.ltb_lt _ 0)); [done|]. unfold is_int32, int32_min, int32_max in *. lia. }
  split; [done|]. intros Hnone. rewrite Hiff. unfold parallelism_of. rewrite Hnone. cbn.
  change (wrap32 (2 ^ 31 - 1)) with int32_max. unfold is_int32 in Ha. split.
  - intros (p & [= <-] & ?). lia.
  - intros ?. exists int32_max. split; [done|lia].
Qed.

(** ** A concrete server

    One job without a limit of parallelism; the calls for the names in [sv_denied] fail. *)

Definition ex_job : BroadcastJob :=
  mkJob "BroadcastJob" "job" "default" "u1" None None (mkTemplate ∅ ∅ [] [] [] [] "" no_placement)
    (mkCompletion Always None None) false (mkFailure FailurePolicyTypeContinue 0)
    (mkJobStatus [] None None 0 0 0 0 "").

Record JobServer := mkJobServer {
  sv_status : BroadcastJobStatus;
  sv_nodes : list Node;
  sv_stored : list Pod;
  sv_unseen : list Pod;
  sv_cached : list Pod;
  sv_denied : gset string;
}.

(** The pod as the server stores it. *)
Definition store_pod (p : Pod) : Pod :=
  mkPod ("job-" +:+ getAssignedNode p) (p_namespace p) ("uid-" +:+ getAssignedNode p) "1" (p_labels p) (p_annotations p)
    (p_finalizers p) (p_creation p) (p_deletion p) (p_node p) PodPending (p_conditions p) (p_cstatuses p) (p_gates p)
    (p_containers p) (p_volumes p) (p_owners p) (p_hostname p) (p_subdomain p) (p_initStatuses p) (p_placement p).
Definition ex_create (p : Pod) (s : JobServer) : JobServer * option error :=
  if bool_decide (getAssignedNode p ∈ sv_denied s) then (s, Some "denied"%string)
  else (mkJobServer (sv_status s) (sv_nodes s) (store_pod p :: sv_stored s) (store_pod p :: sv_unseen s) (sv_cached s)
          (sv_denied s), None).
Definition ex_delete (p : Pod) (s : JobServer) : JobServer * option error :=
  if bool_decide (getAssignedNode p ∈ sv_denied s) then (s, Some "denied"%string)
  else (mkJobServer (sv_status s) (sv_nodes s) (filterb (fun q => negb (String.eqb (p_uid q) (p_uid p))) (sv_stored s))
          (sv_unseen s) (sv_cached s) (sv_denied s), None).

#[export] Instance ex_job_api : Api JobServer := {|
  CreatePod := ex_create;
  DeletePod := ex_delete;
  CreatePVC := fun _ s => (s, None);
  DeletePVC := fun _ s => (s, None);
  PatchPod := fun p _ s => (s, inr p);
  AddNotReadyKey := fun _ _ s => (s, None);
  RemoveNotReadyKey := fun _ _ s => (s, None);
  InPlaceRefresh := fun _ _ s => (s, mkRefresh None 0);
  CanUpdateInPlace := fun _ _ _ => true;
  InPlaceUpdatePod := fun p _ rev _ _ s => (s, mkUpdate true None 0 "2");
  CheckPodUpdateCompleted := fun _ => None;
  PodUnavailableBudgetValidatePod := fun _ s => (s, (true, None));
|}.

Definition nodes_ok (l : list Node) : bool :=
  bool_decide (NoDup (map n_name l)) && forallb (fun n => negb (String.eqb (n_name n) "")) l.

#[export] Instance ex_job_client : JobApi JobServer := {|
  GetJob := fun ns n s => if String.eqb ns "default" && String.eqb n "job" then inr (with_status ex_job (sv_status s))
                          else inl "not found"%string;
  ListJobs := fun s => inr [with_status ex_job (sv_status s)];
  DeleteJob := fun _ s => (s, None);
  UpdateJobStatus := fun j s => if bool_decide ("status"%string ∈ sv_denied s) then (s, Some "conflict"%string)
    else (mkJobServer (bj_status j) (sv_nodes s) (sv_stored s) (sv_unseen s) (sv_cached s) (sv_denied s), None);
  ListJobPods := fun _ _ s => inr (sv_cached s);
  ListNodes := fun s => if nodes_ok (sv_nodes s) then inr (sv_nodes s) else inl "invalid nodes"%string;
|}.
#[export] Existing Instance toy_errors.

Definition ex_node (name : string) (unschedulable : bool) : Node := mkNode name "1" ∅ [] unschedulable [] "".
Definition ex_world (nodes : list Node) (cached : list Pod) (denied : gset string) : World JobServer :=
  mkWorld (mkJobServer (bj_status ex_job) nodes cached [] cached denied) ∅ ∅ ∅ no_local ∅ [].
Definition ex_reconcile : M JobServer Result :=
  Reconcile (fun _ => false) (fun _ _ => true) (fun _ _ => true) 100 true 60 "default" "job".
(** A pod of the job on a node, in a phase. *)
Definition ex_job_pod (node phase : string) : Pod :=
  let p := store_pod (new_pod true (addLabelToPodTemplate ex_job) node) in
  mkPod (p_name p) (p_namespace p) (p_uid p) (p_resourceVersion p) (p_labels p) (p_annotations p)
    (p_finalizers p) (p_creation p) (p_deletion p) (p_node p) phase (p_conditions p)
    (p_cstatuses p) (p_gates p) (p_containers p) (p_volumes p) (p_owners p) (p_hostname p) (p_subdomain p)
    (p_initStatuses p) (p_placement p).


Lemma broadcast_creations_bounded_witness :
  let job := addLabelToPodTemplate ex_job in
  let nodes := [ex_node "a" true; ex_node "b" false] in
  let pods := [ex_job_pod "a" PodRunning] in
  emits (sync_job (S := JobServer) (fun _ => false) 100 true job (view_of (fun _ _ => true) (fun _ _ => true) job pods nodes) 0)
    (fun evs _ => forall p, p ∈ deletes evs ->
       may_delete (fun _ _ => true) (fun _ _ => true) 100 job pods nodes p).
Proof.
  intros job nodes pods. eapply emits_mono.
  - apply (broadcast_creations_bounded (fun _ => false) (fun _ _ => true) (fun _ _ => true) 100 true job pods nodes 0).
    + apply add_label_labelled.
    + by vm_compute.
    + apply (bool_decide_unpack _). by vm_compute.
  - intros evs r (chosen & _ & _ & _ & Hd & _). exact Hd.
Defined.

(** The run of a job whose only pod has ended. *)
Definition ex_done : option (BroadcastJob * Z * option error) :=
  (run_job (S := JobServer) (fun _ => false) 100 true ex_job
     (view_of (fun _ _ => true) (fun _ _ => true) ex_job [ex_job_pod "a" PodSucceeded] [ex_node "a" false]) 0 0 1 0
     (ex_world [] [] ∅)).2.

Lemma broadcast_complete_exact_witness : ended_on [ex_job_pod "a" PodSucceeded] (ex_node "a" false).
Proof.
  destruct ex_done as [[[j d] e]|] eqn:E; [|by vm_compute in E].
  assert (job_phase j = PhaseCompleted) as Hj by (vm_compute in E; by injection E as <- _ _).
  apply (broadcast_complete_exact (S := JobServer) (fun _ => false) (fun _ _ => true) (fun _ _ => true) 100 true ex_job j
    [ex_job_pod "a" PodSucceeded] [ex_node "a" false] 0 0 1 0 d e (ex_world [] [] ∅)) in Hj as (_ & _ & Hall).
  - apply Hall; [by left|]. left. exists (ex_job_pod "a" PodSucceeded). split; [by left|]. split; [done|]. by left.
  - apply (bool_decide_unpack _). by vm_compute.
  - apply (bool_decide_unpack _). by vm_compute.
  - done.
  - exact E.
Defined.

Lemma broadcast_status_lost_witness :
  (updateJobStatus ex_job (ex_world [] [] {["status"%string]})).2 = None /\
  w_trace (updateJobStatus ex_job (ex_world [] [] {["status"%string]})).1 = [EvUpdateStatus false].
Proof.
  rewrite (broadcast_status_lost ex_job ex_job "conflict" (ex_world [] [] {["status"%string]})
    (w_server (ex_world [] [] {["status"%string]}))) by done. done.
Defined.

Lemma broadcast_panics_exact_witness :
  (reconcilePods (S := JobServer) (fun _ => false) true ex_job [ex_node "b" false] (-1) 2 (ex_world [] [] ∅)).2 = None.
Proof.
  apply (proj2 (broadcast_panics_exact (S := JobServer) (fun _ => false) true ex_job [ex_node "b" false] (-1) 2
    (ex_world [] [] ∅) ltac:(split; vm_compute; discriminate))); [done|lia].
Defined.
