(* ===== verification/BroadcastJobNodes.v ===== *)
(** * BroadcastJob: one pod per node

    The protocol between the reconcile, the server, the informer cache and the handlers of
    watch events: however the cache lags behind the server, a job never has two pods on one
    node, as long as creations that fail have no effect.  A server is any type with the views of
    the class [Cluster] and its laws. *)

From S2P Require Import Prelude GoLib GoText K8s Tools Expectations Lifecycle UpdateSort CloneSetDiff ImagePullTypes World Scheduling.
From S2P Require Import BroadcastJob BroadcastJobRun.
Open Scope Z_scope.
Open Scope kruise_scope.

(** ** Triples on operations *)

Section Triples.
Context {S : Type}.
Definition triple {A} (P : World S -> Prop) (m : M S A) (Q : A -> World S -> Prop) : Prop :=
  forall w, P w -> Q (m w).2 (m w).1.

Lemma triple_ret {A} (P : World S -> Prop) (a : A) (Q : A -> World S -> Prop) :
  (forall w, P w -> Q a w) -> triple P (ret a) Q.
Proof. intros HQ w Hw. by apply HQ. Qed.

Lemma triple_bind {A B} P (m : M S A) (k : A -> M S B) R Q :
  triple P m R -> (forall a, triple (R a) (k a) Q) -> triple P (bind m k) Q.
Proof.
  intros Hm Hk w Hw. unfold bind. specialize (Hm w Hw). destruct (m w) as [w1 a]. by apply (Hk a w1).
Qed.

Lemma triple_mono {A} (P P' : World S -> Prop) (m : M S A) (Q Q' : A -> World S -> Prop) :
  triple P' m Q' -> (forall w, P w -> P' w) -> (forall a w, Q' a w -> Q a w) -> triple P m Q.
Proof. intros Hm HP HQ w Hw. apply HQ, Hm. auto. Qed.

End Triples.

(** ** Servers *)

(** The pods of the job [namespace/name] of uid [uid]: those the server has, those of them
    whose creation the informer has not delivered yet, and those in the informer cache. *)
Class Cluster (S : Type) `{Api S} `{JobApi S} (namespace name uid : string) := {
  stored : S -> list Pod;
  unseen : S -> list Pod;
  cached : S -> list Pod;
  (** A creation that succeeds stores the pod; of one that fails the class says nothing. *)
  create_ok p s s' : CreatePod p s = (s', None) ->
    exists q, getAssignedNode q = getAssignedNode p /\
      stored s' = q :: stored s /\ unseen s' = q :: unseen s /\ cached s' = cached s;
  delete_any p s : stored (DeletePod p s).1 `sublist_of` stored s /\
    unseen (DeletePod p s).1 = unseen s /\ cached (DeletePod p s).1 = cached s;
  delete_job_any j s : stored (DeleteJob j s).1 = stored s /\ unseen (DeleteJob j s).1 = unseen s /\
    cached (DeleteJob j s).1 = cached s;
  update_job_any j s : stored (UpdateJobStatus j s).1 = stored s /\ unseen (UpdateJobStatus j s).1 = unseen s /\
    cached (UpdateJobStatus j s).1 = cached s;
  (** The job that is read is this one, and its template leaves the node open. *)
  get_job s j : GetJob namespace name s = inr j ->
    bj_namespace j = namespace /\ bj_name j = name /\ bj_uid j = uid /\ t_nodeName (bj_Template j) = ""%string;
  (** The list of pods is the one of the cache. *)
  list_pods s j l : GetJob namespace name s = inr j ->
    ListJobPods namespace (labelsAsMap j) s = inr l -> filterb (owned_by j) l = cached s;
  list_nodes s l : ListNodes s = inr l -> NoDup (map n_name l) /\ forall n, n ∈ l -> n_name n <> ""%string;
}.

(** A creation that is answered with an error had no effect.  This is a condition on the server
    and the network: it excludes a creation that takes effect and whose answer is lost. *)
Definition failed_creations_store_nothing (S : Type) `{Cluster S namespace name uid} : Prop :=
  forall p s s' e, CreatePod p s = (s', Some e) ->
    stored s' = stored s /\ unseen s' = unseen s /\ cached s' = cached s.

Section Protocol.
Context {S : Type} `{Api S} `{JobApi S} `{ApiErrors} (namespace name uid : string) `{!Cluster S namespace name uid}.
Hypothesis create_err : failed_creations_store_nothing S.
Context (IsTimeout : error -> bool).
Context (validLabel : string -> list string -> bool) (fitsResources : Pod -> Node -> bool).
Context (scheduled : bool) (ExpectationTimeout : Z).

Definition the_key : string := namespace +:+ "/" +:+ name.
Definition nodes_of (pods : list Pod) : list string := map getAssignedNode pods.
Definition expected (w : World S) : gset string := Scale.pending (w_scale w) the_key Scale.Create.
Definition with_server (w : World S) (s : S) : World S :=
  mkWorld s (w_scale w) (w_rv w) (w_upd w) (w_local w) (w_dur w) (w_trace w).

(** A pod in the cache stands for a stored one. *)
Definition covers (q p : Pod) : Prop := p_uid q = p_uid p /\ getAssignedNode q = getAssignedNode p.

(** The steps: a reconcile while the job exists; the delivery of a creation or of a deletion
    to the cache and its handler; an event of another job; a new version of cached pods, the
    loss of stored pods, and any change elsewhere. *)
Inductive step : World S -> World S -> Prop :=
| step_reconcile w now :
    (forall e, GetJob namespace name (w_server w) = inl e -> IsNotFound e = false) ->
    step w (Reconcile IsTimeout validLabel fitsResources now scheduled ExpectationTimeout namespace name w).1
| step_created w s p q u1 u2 :
    unseen (w_server w) = u1 ++ p :: u2 -> unseen s = u1 ++ u2 -> covers q p ->
    stored s = stored (w_server w) -> cached s = q :: cached (w_server w) ->
    step w (podEventHandler_Create q (with_server w s)).1
| step_deleted w s q c1 c2 :
    cached (w_server w) = c1 ++ q :: c2 -> cached s = c1 ++ c2 ->
    (forall p, p ∈ stored (w_server w) -> p_uid p <> p_uid q) ->
    stored s = stored (w_server w) -> unseen s = unseen (w_server w) ->
    step w (podEventHandler_Delete q (with_server w s)).1
| step_other w q ref :
    GetControllerOf (p_owners q) = Some ref -> p_namespace q +:+ "/" +:+ or_name ref <> the_key ->
    step w (podEventHandler_Create q w).1
| step_server w s :
    stored s `sublist_of` stored (w_server w) -> unseen s `sublist_of` unseen (w_server w) ->
    (forall p, p ∈ stored s -> p ∈ unseen (w_server w) -> p ∈ unseen s) ->
    Forall2 covers (cached s) (cached (w_server w)) ->
    step w (with_server w s).

(** ** The invariant *)

Record Inv (w : World S) : Prop := mkInv {
  inv_stored : NoDup (nodes_of (stored (w_server w)));
  inv_unseen : NoDup (nodes_of (unseen (w_server w)));
  inv_seen p : p ∈ stored (w_server w) -> p ∈ unseen (w_server w) \/ exists q, q ∈ cached (w_server w) /\ covers q p;
  inv_expected p : p ∈ unseen (w_server w) -> getAssignedNode p ∈ expected w;
}.

(** The invariant only reads the three views and the expected creations. *)
Lemma Inv_ext w w' : Inv w -> stored (w_server w') `sublist_of` stored (w_server w) ->
  unseen (w_server w') = unseen (w_server w) -> cached (w_server w') = cached (w_server w) ->
  (forall n, n ∈ expected w -> n ∈ expected w') -> Inv w'.
Proof.
  intros [I1 I2 I3 I4] Es Eu Ec Ee. split; rewrite ?Eu, ?Ec.
  - eapply sublist_NoDup; [exact I1|]. by apply map_sublist.
  - done.
  - intros p Hp. apply I3. by eapply elem_of_sublist.
  - auto.
Qed.

(** A triple for an operation that leaves the views and the expected creations alone. *)
Definition neutral {A} (m : M S A) : Prop :=
  forall w, stored (w_server (m w).1) = stored (w_server w) /\ unseen (w_server (m w).1) = unseen (w_server w) /\
            cached (w_server (m w).1) = cached (w_server w) /\ expected (m w).1 = expected w.

Definition at_rest (C : list Pod) (w : World S) : Prop := Inv w /\ cached (w_server w) = C.

Lemma neutral_triple {A} C (m : M S A) : neutral m -> triple (at_rest C) m (fun _ => at_rest C).
Proof.
  intros Hm w [Hw Hc]. destruct (Hm w) as (Es & Eu & Ec & Ee). split; [|congruence].
  eapply Inv_ext; [exact Hw|by rewrite Es|done..|by rewrite Ee].
Qed.

Lemma neutral_read {A} (f : S -> A) : neutral (read f).
Proof. intros w. done. Qed.
Lemma neutral_ret {A} (a : A) : neutral (ret a).
Proof. intros w. done. Qed.
Lemma neutral_bind {A B} (m : M S A) (k : A -> M S B) : neutral m -> (forall a, neutral (k a)) -> neutral (bind m k).
Proof.
  intros Hm Hk w. unfold bind. destruct (Hm w) as (E1 & E2 & E3 & E4). destruct (m w) as [w1 a]. cbn in *.
  destruct (Hk a w1) as (F1 & F2 & F3 & F4). rewrite F1, F2, F3, F4. done.
Qed.
Lemma neutral_status j : neutral (update_status (S := S) j).
Proof.
  intros w. unfold update_status, call. pose proof (update_job_any j (w_server w)) as Hv.
  destruct (UpdateJobStatus j (w_server w)) as [s e]. cbn in *. naive_solver.
Qed.
Lemma neutral_updateJobStatus j : neutral (updateJobStatus (S := S) j).
Proof.
  unfold updateJobStatus. generalize j at 2. induction retry_steps as [|n IH]; intros a; [apply neutral_ret|].
  cbn [RetryOnConflict]. apply neutral_bind.
  - apply neutral_bind; [apply neutral_status|]. intros [e|]; [|apply neutral_ret].
    apply neutral_bind; [apply neutral_read|]. intros [?|?]; apply neutral_ret.
  - intros [[err|] a']; [|apply neutral_ret]. destruct (IsConflict err); [|apply neutral_ret].
    destruct n; [apply neutral_ret|apply IH].
Qed.

(** *** Creations *)

(** At rest, with undelivered creations only on the nodes of [U]. *)
Definition creating (C : list Pod) (U : gset string) (w : World S) : Prop :=
  at_rest C w /\ forall p, p ∈ unseen (w_server w) -> getAssignedNode p ∈ U.

Lemma expected_expect w k a n :
  expected (expectScale k a n w).1 = if bool_decide (k = the_key /\ a = Scale.Create) then {[n]} ∪ expected w else expected w.
Proof. apply Scale.pending_ExpectScale. Qed.
Lemma expected_observe w k a n :
  expected (observeScale k a n w).1 = if bool_decide (k = the_key /\ a = Scale.Create) then expected w ∖ {[n]} else expected w.
Proof. apply Scale.pending_ObserveScale. Qed.

(** The job that the reconcile works on. *)
Definition job_ok (j : BroadcastJob) : Prop :=
  job_key j = the_key /\ t_nodeName (bj_Template j) = ""%string /\ labelled j.

Lemma create_one C U j n : job_ok j -> n <> ""%string -> n ∉ nodes_of C -> n ∉ U ->
  triple (creating C U) (createPodOnNode scheduled j n) (fun _ => creating C ({[n]} ∪ U)).
Proof.
  intros (Hk & Ht & Hl) Hn HC HU w [[[I1 I2 I3 I4] Ec] Hu]. unfold createPodOnNode, createJobPod. cbn.
  rewrite bool_decide_eq_false_2 by (rewrite new_pod_labels; by intros E%map_size_empty_iff).
  unfold bind. cbn. unfold createPod, call. cbn.
  pose proof (expected_expect w (job_key j) Scale.Create n) as Ee. rewrite bool_decide_eq_true_2 in Ee by done.
  destruct (CreatePod (new_pod scheduled j n) (w_server w)) as [s [err|]] eqn:Ecr; cbn.
  - apply create_err in Ecr as (E1 & E2 & E3). split; [split; [|by cbn; rewrite E3]|cbn; rewrite E2; set_solver].
    split; cbn; rewrite ?E1, ?E2, ?E3; auto. intros p Hp. unfold expected. cbn. rewrite Scale.pending_ObserveScale.
    rewrite bool_decide_eq_true_2 by done. apply elem_of_difference. split.
    + change (getAssignedNode p ∈ expected (expectScale (job_key j) Scale.Create n w).1). rewrite Ee. set_solver.
    + specialize (Hu p Hp). set_solver.
  - apply create_ok in Ecr as (q & Eq & E1 & E2 & E3). rewrite new_pod_node in Eq by done.
    assert (forall p, p ∈ unseen (w_server w) -> getAssignedNode p <> n) as Hfresh.
    { intros p Hp E. specialize (Hu p Hp). by rewrite E in Hu. }
    assert (forall p, p ∈ stored (w_server w) -> getAssignedNode p <> n) as Hnew.
    { intros p Hp E. destruct (I3 p Hp) as [Hin|(c & Hc & _ & Hcov)]; [by apply (Hfresh p)|].
      apply HC. rewrite <-E, <-Hcov, <-Ec. by apply list_elem_of_fmap_2. }
    split; [split; [|by cbn; rewrite E3]|].
    + split; cbn; rewrite ?E1, ?E2, ?E3.
      * cbn. apply NoDup_cons. split; [|done]. rewrite Eq. intros (p & E & Hp)%list_elem_of_fmap. by apply (Hnew p).
      * cbn. apply NoDup_cons. split; [|done]. rewrite Eq. intros (p & E & Hp)%list_elem_of_fmap. by apply (Hfresh p).
      * intros p Hp. apply elem_of_cons in Hp as [->|Hp]; [left; by left|].
        destruct (I3 p Hp) as [?|?]; [left; by right|by right].
      * intros p Hp. change (getAssignedNode p ∈ expected (expectScale (job_key j) Scale.Create n w).1). rewrite Ee.
        apply elem_of_cons in Hp as [->|Hp]; [set_solver|]. specialize (I4 p Hp). set_solver.
    + cbn. rewrite E2. intros p Hp. apply elem_of_cons in Hp as [->|Hp]; [set_solver|]. specialize (Hu p Hp). set_solver.
Qed.

(** Names of nodes without duplicates, that neither the cache nor [U] has. *)
Definition free_nodes (C : list Pod) (U : gset string) (l : list Node) : Prop :=
  NoDup (map n_name l) /\ forall n, n ∈ l -> n_name n <> ""%string /\ n_name n ∉ nodes_of C /\ n_name n ∉ U.

Lemma create_nodes_triple C U j l active errs : job_ok j -> free_nodes C U l ->
  triple (creating C U) (create_nodes IsTimeout scheduled j l active errs)
    (fun _ => creating C (list_to_set (map n_name l) ∪ U)).
Proof.
  intros Hj. revert U active errs. induction l as [|n l IH]; intros U active errs [Hnd Hfree]; cbn [create_nodes].
  { apply triple_ret. intros w Hw. cbn. by rewrite left_id_L by apply _. }
  cbn in Hnd. apply NoDup_cons in Hnd as [Hn Hnd].
  assert (n ∈ n :: l) as Hin by left. destruct (Hfree n Hin) as (N1 & N2 & N3).
  eapply triple_bind; [by apply create_one|]. intros e.
  assert (free_nodes C ({[n_name n]} ∪ U) l) as Hfree'.
  { split; [done|]. intros m Hm. destruct (Hfree m) as (M1 & M2 & M3); [by right|]. split_and!; [done..|].
    assert (n_name m <> n_name n); [|set_solver]. intros E. apply Hn. rewrite <-E. by apply list_elem_of_fmap_2. }
  assert (forall a es, triple (creating C ({[n_name n]} ∪ U)) (create_nodes IsTimeout scheduled j l a es)
    (fun _ => creating C (list_to_set (map n_name (n :: l)) ∪ U))) as Hk.
  { intros a es. eapply triple_mono; [by apply IH|done|]. intros r w. cbn.
    by replace (list_to_set (map n_name l) ∪ ({[n_name n]} ∪ U)) with ({[n_name n]} ∪ list_to_set (map n_name l) ∪ U :> gset string) by set_solver. }
  destruct e as [err|]; [destruct (IsTimeout err)|]; apply Hk.
Qed.

Lemma create_batches_triple C U fuel j rest diff batchSize start active errs :
  job_ok j -> 0 <= start -> (0 < diff -> 0 < batchSize <= diff) -> free_nodes C U (slice_from rest start) ->
  triple (creating C U) (create_batches IsTimeout scheduled fuel j rest diff batchSize start active errs)
    (fun _ => at_rest C).
Proof.
  intros Hj. revert U diff batchSize start active errs.
  induction fuel as [|fuel IH]; intros U diff batchSize start active errs Hs Hb Hfree; cbn [create_batches].
  { apply triple_ret. by intros w []. }
  destruct (Z.leb_spec diff 0) as [Hle|Hgt]; [apply triple_ret; by intros w []|]. specialize (Hb Hgt).
  unfold slice_to, slice_from in *.
  set (l := drop (Z.to_nat start) rest) in *. set (k := Z.to_nat batchSize).
  destruct Hfree as [Hnd Hf]. rewrite <-(take_drop k l), map_app in Hnd. apply NoDup_app in Hnd as (Hnd1 & Hdis & Hnd2).
  eapply triple_bind.
  - apply (create_nodes_triple C U); [done|]. split; [done|]. intros n Hn. apply Hf. eapply elem_of_sublist; [done|].
    apply sublist_take.
  - intros [active' errs']. destruct (_ && _); [apply triple_ret; by intros w []|].
    apply IH; [lia|lia|]. unfold slice_from. rewrite Z2Nat.inj_add, <-drop_drop by lia. fold l. fold k. split; [done|].
    intros n Hn. destruct (Hf n) as (N1 & N2 & N3); [eapply elem_of_sublist; [done|apply sublist_drop]|].
    split_and!; [done..|]. apply not_elem_of_union. split; [|done]. rewrite elem_of_list_to_set. intros Hin.
    apply (Hdis _ Hin). by apply list_elem_of_fmap_2.
Qed.

(** *** The reconcile *)

Lemma neutral_creating {A} C U (m : M S A) : neutral m -> triple (creating C U) m (fun _ => creating C U).
Proof.
  intros Hm w [Hw Hu]. pose proof (neutral_triple C m Hm w Hw). destruct (Hm w) as (_ & Eu & _). split; [done|].
  by rewrite Eu.
Qed.

Lemma neutral_expect_delete k n : neutral (expectScale k Scale.Delete n).
Proof. intros w. rewrite expected_expect, bool_decide_eq_false_2 by (by intros [_ ?]). done. Qed.
Lemma neutral_observe_delete k n : neutral (observeScale k Scale.Delete n).
Proof. intros w. rewrite expected_observe, bool_decide_eq_false_2 by (by intros [_ ?]). done. Qed.

Lemma delete_pods_triple C U j pods failed active errs :
  triple (creating C U) (delete_pods j pods failed active errs) (fun _ => creating C U).
Proof.
  revert failed active errs. induction pods as [|p pods IH]; intros failed active errs; cbn [delete_pods]; [by apply triple_ret|].
  eapply triple_bind; [apply neutral_creating, neutral_expect_delete|]. intros ?.
  eapply triple_bind with (R := fun _ => creating C U).
  - intros w [[Hw Hc] Hu]. unfold deletePod, call. destruct (delete_any p (w_server w)) as (D1 & D2 & D3).
    destruct (DeletePod p (w_server w)) as [s e]. cbn in *. split; [split; [|by cbn; rewrite D3]|cbn; by rewrite D2].
    by eapply Inv_ext.
  - intros [err|]; [|apply IH]. eapply triple_bind; [apply neutral_creating, neutral_observe_delete|intros ?; apply IH].
Qed.

Lemma deleteJobPods_triple C U j pods failed active :
  triple (creating C U) (deleteJobPods j pods failed active) (fun _ => creating C U).
Proof. eapply triple_bind; [apply delete_pods_triple|]. intros [[f a] errs]. by apply triple_ret. Qed.

Lemma reconcilePods_triple C j rest active desired : job_ok j -> free_nodes C ∅ rest ->
  triple (creating C ∅) (reconcilePods IsTimeout scheduled j rest active desired) (fun _ => at_rest C).
Proof.
  intros Hj Hfree. unfold reconcilePods.
  destruct (parallelism_of j desired) as [p|]; [|apply triple_ret; by intros w []].
  destruct (active <? p); [|apply triple_ret; by intros w []].
  destruct (Z.ltb_spec (creation_diff p active (len rest)) 0); [apply triple_ret; by intros w []|].
  eapply triple_bind; [apply (create_batches_triple C ∅); [done|lia|lia|done]|]. intros [a errs]. by apply triple_ret.
Qed.

Lemma report_triple C r : triple (at_rest C) (report (S := S) r) (fun _ => at_rest C).
Proof.
  unfold report. destruct r as [[[j d] err]|]; [|by apply triple_ret].
  eapply triple_bind; [apply neutral_triple, neutral_updateJobStatus|]. intros ?. by apply triple_ret.
Qed.
Lemma report_early_triple C j d : triple (at_rest C) (report_early (S := S) j d) (fun _ => at_rest C).
Proof.
  unfold report_early. eapply triple_bind; [apply neutral_triple, neutral_updateJobStatus|]. intros e. by apply triple_ret.
Qed.

Lemma run_job_triple C j v now failed active succeeded d : job_ok j -> free_nodes C ∅ (v_rest v) ->
  triple (creating C ∅) (run_job IsTimeout now scheduled j v failed active succeeded d) (fun _ => at_rest C).
Proof.
  intros Hj Hfree. unfold run_job. eapply triple_bind with (R := fun _ => creating C ∅).
  { case_bool_decide; [by apply triple_ret|apply deleteJobPods_triple]. }
  intros [[f a] err]. eapply triple_bind with (R := fun _ => at_rest C).
  - destruct (bj_deletion j); [apply triple_ret; by intros w []|].
    case_bool_decide; [apply triple_ret; by intros w []|by apply reconcilePods_triple].
  - intros [[a' err']|]; [|by apply triple_ret]. destruct (isJobComplete _ _); [destruct (finishJob _ _ _ _)|]; by apply triple_ret.
Qed.

Lemma sync_job_triple C j v now d : job_ok j -> free_nodes C ∅ (v_rest v) ->
  triple (creating C ∅) (sync_job IsTimeout now scheduled j v d) (fun _ => at_rest C).
Proof.
  intros Hj Hfree. unfold sync_job. destruct (filterPods _ _) as [[act fl] su].
  set (j0 := with_counts _ _ _ _ _).
  assert (job_ok j0) as Hj0 by done. clearbody j0.
  assert (forall j' d', triple (creating C ∅) (report_early (S := S) j' d') (fun _ => at_rest C)) as Hearly.
  { intros j' d'. eapply triple_mono; [apply report_early_triple|by intros w []|done]. }
  destruct (String.eqb _ PhaseFailed); [apply Hearly|]. destruct (bj_Paused j0 && _); [apply Hearly|].
  set (j1 := if negb (bj_Paused j0) && _ then _ else _).
  assert (job_ok j1) as Hj1 by (subst j1; by destruct (negb (bj_Paused j0) && _)). clearbody j1.
  destruct (_ && String.eqb _ FailurePolicyTypePause); [apply Hearly|].
  destruct (failure_of now j1 _) as [[reason message]|].
  - eapply triple_bind with (R := fun _ => at_rest C); [|intros r; apply report_triple].
    unfold fail_job. eapply triple_bind; [apply deleteJobPods_triple|]. intros [[f a] err].
    destruct (finishJob _ _ _ _). apply triple_ret. by intros w [].
  - eapply triple_bind; [by apply run_job_triple|]. intros r. apply report_triple.
Qed.

Lemma rest_free j pods nodes : NoDup (map n_name nodes) -> (forall n, n ∈ nodes -> n_name n <> ""%string) ->
  free_nodes pods ∅ (v_rest (view_of validLabel fitsResources j pods nodes)).
Proof.
  intros Hnd Hne. destruct (view_lists validLabel fitsResources j pods nodes) as (_ & Hr & _).
  unfold view in Hr. rewrite Hr. split.
  - eapply sublist_NoDup; [exact Hnd|]. apply map_sublist, filterb_sublist.
  - intros n Hn. apply filterb_elem in Hn as [Hn Hrun]. split_and!; [by apply Hne| |set_solver].
    unfold planned_run, plan, plan_node in Hrun.
    destruct (getNodeToPodMap pods !! n_name n) eqn:E; [by destruct (_ && _)|]. rewrite node_map_None in E.
    intros (p & Ep & Hp)%list_elem_of_fmap. by apply (E p).
Qed.

Lemma start_job_ok now j : job_ok j -> job_ok (start_job now j).1 /\
  bj_namespace (start_job now j).1 = bj_namespace j /\ labelsAsMap (start_job now j).1 = labelsAsMap j /\
  forall p, owned_by (start_job now j).1 p = owned_by j p.
Proof.
  intros Hj. unfold start_job. destruct (js_StartTime _); cbn; destruct (String.eqb _ _); done.
Qed.

Lemma filterb_ext {A} (f g : A -> bool) l : (forall x, f x = g x) -> filterb f l = filterb g l.
Proof. intros E. induction l as [|x l IH]; [done|]. cbn. by rewrite E, IH. Qed.

Lemma reconcile_job_triple now j : job_ok (addLabelToPodTemplate j) -> bj_namespace j = namespace ->
  triple (fun w => creating (cached (w_server w)) ∅ w /\ GetJob namespace name (w_server w) = inr j)
    (reconcile_job IsTimeout validLabel fitsResources now scheduled (addLabelToPodTemplate j)) (fun _ => Inv).
Proof.
  intros Hj Hns w [Hw Hg]. unfold reconcile_job.
  destruct (start_job_ok now _ Hj) as (Hj1 & Hns1 & Hl1 & Ho1).
  destruct (start_job now (addLabelToPodTemplate j)) as [j1 d]. cbn [fst] in *.
  assert (Inv w) as Hinv by apply Hw. rewrite Hns1, Hl1. unfold bind, read, call.
  change (bj_namespace (addLabelToPodTemplate j)) with (bj_namespace j). rewrite Hns.
  destruct (ListJobPods namespace (labelsAsMap (addLabelToPodTemplate j)) (w_server w)) as [e|l] eqn:El; cbn -[sync_job].
  { by eapply Inv_ext. }
  assert (filterb (owned_by j1) l = cached (w_server w)) as Hl.
  { rewrite (filterb_ext _ _ l Ho1). by apply (list_pods (w_server w) j l). }
  destruct (ListNodes (w_server w)) as [e|nodes] eqn:En; cbn -[sync_job]; [by eapply Inv_ext|].
  destruct (list_nodes _ _ En) as [Hnd Hne]. rewrite Hl.
  match goal with |- Inv (sync_job _ _ _ _ _ _ ?w0).1 => assert (creating (cached (w_server w)) ∅ w0) as Hw0 end.
  { destruct Hw as [[Hi Hc] Hu]. split; [split; [by eapply Inv_ext|done]|done]. }
  exact (proj1 (sync_job_triple (cached (w_server w)) j1 _ now d Hj1 (rest_free j1 _ _ Hnd Hne) _ Hw0)).
Qed.

Lemma Reconcile_Inv now w : (forall e, GetJob namespace name (w_server w) = inl e -> IsNotFound e = false) -> Inv w ->
  Inv (Reconcile IsTimeout validLabel fitsResources now scheduled ExpectationTimeout namespace name w).1.
Proof.
  intros Hex Hinv. unfold Reconcile, bind, read, call.
  destruct (GetJob namespace name (w_server w)) as [e|j] eqn:Ej; cbn -[reconcile_job finished_job].
  { rewrite (Hex e) by done. by eapply Inv_ext. }
  pose proof (Scale.SatisfiedExpectations_pending (w_scale w) the_key now) as Hsat.
  pose proof (fun a => Scale.pending_Satisfied (w_scale w) the_key now the_key a) as Hpend.
  unfold ask_scale. cbn -[reconcile_job finished_job]. change (namespace +:+ "/" +:+ name) with the_key.
  destruct (Scale.SatisfiedExpectations (w_scale w) the_key now) as [[[sat dur] x] r]. cbn in Hsat, Hpend.
  set (w1 := mkWorld (w_server w) r (w_rv w) (w_upd w) (w_local w) (w_dur w) (w_trace w ++ [])).
  assert (Inv w1) as Hinv1.
  { eapply Inv_ext; [exact Hinv|done..|]. intros n. unfold expected, w1. cbn. by rewrite Hpend. }
  destruct sat; cbn -[reconcile_job finished_job]; [|exact Hinv1].
  destruct (get_job _ _ Ej) as (Gns & Gn & Gu & Gt).
  assert (job_ok (addLabelToPodTemplate j)) as Hj.
  { split_and!; [|done|apply add_label_labelled]. unfold job_key, the_key. cbn. by rewrite Gns, Gn. }
  destruct (IsJobFinished _).
  - unfold finished_job. destruct (pastTTLDeadline _ _) as [[] left]; [|by destruct (0 <? left)].
    unfold bind, deleteJob, call. destruct (delete_job_any (addLabelToPodTemplate j) (w_server w1)) as (D1 & D2 & D3).
    destruct (DeleteJob _ (w_server w1)) as [s e]. cbn in *. eapply Inv_ext; [exact Hinv1| |done..]. cbn. by rewrite D1.
  - apply (reconcile_job_triple now j); [done|done|]. split; [|done]. split; [done|].
    intros p Hp. destruct Hinv1 as [_ _ _ I4]. specialize (I4 p Hp). unfold expected, w1 in I4. cbn in I4.
    rewrite Hpend, (proj1 Hsat eq_refl Scale.Create) in I4. set_solver.
Qed.

(** *** The steps of the environment *)

Lemma handler_server a q (w : World S) : w_server (observe_pod a q w).1 = w_server w.
Proof. unfold observe_pod. destruct (GetControllerOf _) as [ref|]; [destruct (isBroadcastJobController ref)|]; done. Qed.
Lemma handler_expected a q (w : World S) n : n ∈ expected w -> n <> getAssignedNode q -> n ∈ expected (observe_pod a q w).1.
Proof.
  intros Hn Hne. unfold observe_pod. destruct (GetControllerOf _) as [ref|]; [|done].
  destruct (isBroadcastJobController ref); [|done]. rewrite expected_observe. case_bool_decide; set_solver.
Qed.
Lemma handler_other a q (w : World S) :
  (forall ref, GetControllerOf (p_owners q) = Some ref -> a = Scale.Create -> p_namespace q +:+ "/" +:+ or_name ref <> the_key) ->
  expected (observe_pod a q w).1 = expected w.
Proof.
  intros Hk. unfold observe_pod. destruct (GetControllerOf _) as [ref|]; [|done].
  destruct (isBroadcastJobController ref); [|done]. rewrite expected_observe, bool_decide_eq_false_2; [done|].
  intros [E ->]. by apply (Hk ref).
Qed.

Lemma step_Inv w w' : step w w' -> Inv w -> Inv w'.
Proof.
  intros Hstep Hinv. destruct Hstep as [w now Hex|w s p q u1 u2 Hu Hu' Hcov Hs Hc|w s q c1 c2 Hc Hc' Hgone Hs Hu|w q ref Href Hk|w s Hs Hu Hkeep Hc].
  - by apply Reconcile_Inv.
  - destruct Hinv as [I1 I2 I3 I4]. rewrite Hu in I2, I3, I4. unfold nodes_of in I2. rewrite map_app in I2. cbn in I2.
    apply NoDup_app in I2 as (N1 & Nd & N2). apply NoDup_cons in N2 as [Np N2].
    assert (forall a, Inv (observe_pod a q (with_server w s)).1) as Hobs; [|unfold podEventHandler_Create; destruct (p_deletion q); apply Hobs].
    intros a. split; rewrite handler_server; cbn; rewrite ?Hs, ?Hu', ?Hc.
    + done.
    + unfold nodes_of. rewrite map_app. apply NoDup_app. split_and!; [done| |done]. intros n Hn Hn'. apply (Nd n Hn). by right.
    + intros x Hx. destruct (I3 x Hx) as [Hin|(c & Hc1 & Hc2)].
      * apply elem_of_app in Hin as [Hin|Hin]; [left; apply elem_of_app; by left|].
        apply elem_of_cons in Hin as [->|Hin]; [|left; apply elem_of_app; by right].
        right. exists q. split; [left|done].
      * right. exists c. split; [by right|done].
    + intros x Hx. apply handler_expected.
      * apply (I4 x). rewrite !elem_of_app, elem_of_cons in *. tauto.
      * destruct Hcov as [_ ->]. intros E. apply elem_of_app in Hx as [Hx|Hx].
        -- apply (Nd (getAssignedNode x)); [by apply list_elem_of_fmap_2|rewrite E; left].
        -- apply Np. rewrite <-E. by apply list_elem_of_fmap_2.
  - unfold podEventHandler_Delete. destruct Hinv as [I1 I2 I3 I4].
    split; rewrite handler_server; cbn; rewrite ?Hs, ?Hu, ?Hc'; [done..| |].
    + intros x Hx. destruct (I3 x Hx) as [Hin|(c & Hc1 & Hc2 & Hc3)]; [by left|]. right. exists c. split; [|done].
      rewrite Hc in Hc1. apply elem_of_app in Hc1 as [?|Hc1]; apply elem_of_app; [by left|].
      apply elem_of_cons in Hc1 as [->|?]; [|by right]. by destruct (Hgone x).
    + intros x Hx. by rewrite handler_other by done; apply I4.
  - unfold podEventHandler_Create, podEventHandler_Delete.
    destruct (p_deletion q); (eapply Inv_ext; [exact Hinv|by rewrite handler_server..|]); intros n Hn; rewrite handler_other; try done.
    intros r Hr _. congruence.
  - destruct Hinv as [I1 I2 I3 I4]. split; cbn.
    + eapply sublist_NoDup; [exact I1|]. by apply map_sublist.
    + eapply sublist_NoDup; [exact I2|]. by apply map_sublist.
    + intros x Hx. destruct (I3 x) as [Hin|(c & Hc1 & Hc2 & Hc3)]; [by eapply elem_of_sublist|left; by apply Hkeep|].
      right. apply list_elem_of_lookup in Hc1 as [i Hi]. destruct (Forall2_lookup_r _ _ _ _ _ Hc Hi) as (c' & Hi' & D1 & D2).
      exists c'. split; [by eapply list_elem_of_lookup_2|]. split; congruence.
    + intros x Hx. apply (I4 x). by eapply elem_of_sublist.
Qed.
End Protocol.


(** ** The server of the examples *)

#[export] Instance ex_cluster : Cluster JobServer "default" "job" "u1".
Proof.
  refine {| stored := sv_stored; unseen := sv_unseen; cached := fun s => filterb (owned_by ex_job) (sv_cached s) |}.
  - intros p s s' E. cbn in E. unfold ex_create in E. case_bool_decide; [done|]. injection E as <-. exists (store_pod p). done.
  - intros p s. cbn. unfold ex_delete. case_bool_decide; cbn; [done|]. split; [apply filterb_sublist|done].
  - done.
  - intros j s. cbn. by case_bool_decide.
  - intros s j E. cbn in E. by injection E as <-.
  - intros s j l E1 E2. cbn in E1, E2. by injection E1 as <-; injection E2 as <-.
  - intros s l E. cbn in E. destruct (nodes_ok (sv_nodes s)) eqn:En; [|done]. injection E as <-.
    unfold nodes_ok in En. apply andb_true_iff in En as [H1 H2]. split; [by apply bool_decide_eq_true in H1|].
    intros n Hn. rewrite forallb_forall in H2. specialize (H2 n). rewrite <-list_elem_of_In in H2. specialize (H2 Hn).
    by apply negb_true_iff, String.eqb_neq in H2.
Defined.

Definition ex_two : World JobServer := ex_world [ex_node "a" false; ex_node "b" false; ex_node "c" false] [] {["b"%string]}.


(** A pod that succeeded on a node that takes no more pods, and another node: the reconcile
    deletes that pod, counts an active pod less, and panics. *)
Example ex_reconcile_panics :
  (ex_reconcile (ex_world [ex_node "a" true; ex_node "b" false] [ex_job_pod "a" PodSucceeded] ∅)).2 = Panicked.
Proof. by vm_compute. Qed.

(** The condition on failed creations is needed.  On a server that stores the pod for node "b" and
    answers that the creation timed out, the expectation of the creation is taken back with the
    error, and two reconciles before the cache shows the pod leave two pods on the node. *)
Definition lossy_create (p : Pod) (s : JobServer) : JobServer * option error :=
  (mkJobServer (sv_status s) (sv_nodes s) (store_pod p :: sv_stored s) (store_pod p :: sv_unseen s) (sv_cached s) (sv_denied s),
   if bool_decide (getAssignedNode p ∈ sv_denied s) then Some "timeout"%string else None).
Definition lossy_api : Api JobServer := {|
  CreatePod := lossy_create;
  DeletePod := ex_delete;
  CreatePVC := fun _ s => (s, None);
  DeletePVC := fun _ s => (s, None);
  PatchPod := fun p _ s => (s, inr p);
  AddNotReadyKey := fun _ _ s => (s, None);
  RemoveNotReadyKey := fun _ _ s => (s, None);
  InPlaceRefresh := fun _ _ s => (s, mkRefresh None 0);
  CanUpdateInPlace := fun _ _ _ => true;
  InPlaceUpdatePod := fun p _ rev _ _ s => (s, mkUpdate true None 0 "2");
  CheckPodUpdateCompleted := fun _ => None;
  PodUnavailableBudgetValidatePod := fun _ s => (s, (true, None));
|}.
Definition lossy_reconcile : M JobServer Result :=
  Reconcile (H := lossy_api) (fun e => String.eqb e "timeout") (fun _ _ => true) (fun _ _ => true) 100 true 60 "default" "job".
Example timed_out_creation_repeated :
  let w := ex_world [ex_node "b" false] [] {["b"%string]} in
  map getAssignedNode (sv_stored (w_server (lossy_reconcile (lossy_reconcile w).1).1)) = ["b"; "b"]%string.
Proof. by vm_compute. Qed.
