(* ===== verification/DaemonSet.v ===== *)
(** * Advanced DaemonSet

    pkg/controller/daemonset: one pod on every node the template fits, with rolling updates
    that delete pods, update them in place or surge onto their nodes.  The reconcile claims
    the pods of the set, plans each node ([manage]), updates old pods within the limits of the
    strategy ([rollingUpdate]), truncates the history and reports the status.  The handlers of
    watch events lower the counters that the reconcile waits for.

    The goroutines of one batch run here in the order of the slice; a panic of the Go code is
    the value [Panic].  A range over a map visits its entries in an order that the parameter
    [range] chooses. *)

From S2P Require Import Prelude GoLib GoText K8s Tools Expectations Lifecycle Selector UpdateSort CloneSetDiff.
From S2P Require Import ControllerExpectations World Scheduling RevisionHistory.
Open Scope Z_scope.
Open Scope kruise_scope.

(** ** The object *)

Record RollingUpdateDaemonSet := mkRollingDS {
  ru_Type : string;
  ru_MaxUnavailable : option IntOrString;
  ru_MaxSurge : option IntOrString;
  ru_Selector : option LabelSelector;
  ru_Partition : option Z;
  ru_Paused : option bool;
}.
Record DaemonSetStatus := mkDSStatus {
  dss_CurrentNumberScheduled : Z;
  dss_NumberMisscheduled : Z;
  dss_DesiredNumberScheduled : Z;
  dss_NumberReady : Z;
  dss_ObservedGeneration : Z;
  dss_UpdatedNumberScheduled : Z;
  dss_NumberAvailable : Z;
  dss_NumberUnavailable : Z;
  dss_CollisionCount : option Z;
  dss_DaemonSetHash : string;
}.
Record DaemonSet := mkDS {
  ds_name : string;
  ds_namespace : string;
  ds_uid : string;
  ds_generation : Z;
  ds_deletion : option Z;
  ds_annotations : gmap string string;
  ds_Selector : option LabelSelector;
  ds_Template : PodTemplate;
  ds_StrategyType : string;
  ds_RollingUpdate : option RollingUpdateDaemonSet;
  ds_MinReadySeconds : Z;
  ds_BurstReplicas : option IntOrString;
  ds_RevisionHistoryLimit : option Z;
  ds_Lifecycle : option LifecycleSpec;
  ds_status : DaemonSetStatus;
}.
Definition with_ds_status (ds : DaemonSet) (st : DaemonSetStatus) : DaemonSet :=
  mkDS (ds_name ds) (ds_namespace ds) (ds_uid ds) (ds_generation ds) (ds_deletion ds) (ds_annotations ds)
    (ds_Selector ds) (ds_Template ds) (ds_StrategyType ds) (ds_RollingUpdate ds) (ds_MinReadySeconds ds)
    (ds_BurstReplicas ds) (ds_RevisionHistoryLimit ds) (ds_Lifecycle ds) st.

Local Open Scope string_scope.
Definition RollingUpdateDaemonSetStrategyType : string := "RollingUpdate".
Definition OnDeleteDaemonSetStrategyType : string := "OnDelete".
Definition InplaceRollingUpdateType : string := "InPlaceIfPossible".
Definition DeprecatedTemplateGeneration : string := "deprecated.daemonset.template.generation".
Definition ProgressiveCreatePod : string := "daemonset.kruise.io/progressive-create-pod".
Local Close Scope string_scope.
Definition BurstReplicas : Z := 250.

(** ** daemonset_util.go *)

Definition keyFunc (ds : DaemonSet) : string := ds_namespace ds +:+ "/" +:+ ds_name ds.

Definition isDaemonSetPaused (ds : DaemonSet) : bool :=
  match ds_RollingUpdate ds with
  | Some r => match ru_Paused r with Some b => b | None => false end
  | None => false
  end.

(** [surgeCount] and [unavailableCount]: [None] is an error. *)
Definition rolling_number (ds : DaemonSet) (field : RollingUpdateDaemonSet -> option IntOrString) (numberToSchedule : Z)
  : option Z :=
  if negb (String.eqb (ds_StrategyType ds) RollingUpdateDaemonSetStrategyType) then Some 0
  else
    match ds_RollingUpdate ds with
    | None => Some 0
    | Some r => match field r with
                | None => Some 0
                | Some v => GetScaledValueFromIntOrPercent v numberToSchedule true
                end
    end.
Definition surgeCount (ds : DaemonSet) (numberToSchedule : Z) : option Z := rolling_number ds ru_MaxSurge numberToSchedule.
Definition unavailableCount (ds : DaemonSet) (numberToSchedule : Z) : option Z :=
  rolling_number ds ru_MaxUnavailable numberToSchedule.

Definition allowSurge (ds : DaemonSet) : bool :=
  match surgeCount ds 1 with Some maxSurge => 0 <? maxSurge | None => false end.

Definition getBurstReplicas (ds : DaemonSet) : Z :=
  default 0 (GetScaledValueFromIntOrPercent (ValueOrDefault (ds_BurstReplicas ds) (FromInt BurstReplicas))
               (dss_DesiredNumberScheduled (ds_status ds)) false).

Definition isDaemonSetCreationProgressively (ds : DaemonSet) : bool :=
  String.eqb (lbl (ds_annotations ds) ProgressiveCreatePod) "true".

Definition isPodPreDeleting (pod : Pod) : bool :=
  String.eqb (Hooks.GetPodLifecycleState pod) LifecycleStatePreparingDelete.
Definition isPodNilOrPreDeleting (pod : option Pod) : bool :=
  match pod with None => true | Some p => isPodPreDeleting p end.

Definition ContainsReadinessGate (pod : Pod) : bool := existsb (String.eqb InPlaceUpdateReady) (p_gates pod).

Definition isDaemonPodAvailable (pod : Pod) (minReadySeconds now : Z) : bool :=
  if negb (IsPodAvailable_k8s pod minReadySeconds now) then false
  else if ContainsReadinessGate pod then
    match find_condition (p_conditions pod) InPlaceUpdateReady with
    | Some c => String.eqb (c_status c) ConditionTrue
    | None => true
    end
  else true.

Definition podAvailableWaitingTime (pod : Pod) (minReadySeconds now : Z) : Z :=
  match GetPodReadyCondition pod with
  | Some c => if c_lastTransition c =? 0 then minReadySeconds * second
              else minReadySeconds * second - (now - c_lastTransition c)
  | None => minReadySeconds * second
  end.

(** [GetTemplateGeneration], [nil] when the annotation does not parse, as all callers take it. *)
Definition GetTemplateGeneration (ds : DaemonSet) : option Z :=
  match ds_annotations ds !! DeprecatedTemplateGeneration with
  | None => None
  | Some annotation => conv_ok (ParseInt annotation 64)
  end.

(** The loop of [findUpdatedPodsOnNode]: the new and the old pod, [None] when there are
    several of a kind. *)
Fixpoint find_updated (ds : DaemonSet) (pods : list Pod) (hash : string) (newPod oldPod : option Pod)
  : option (option Pod * option Pod) :=
  match pods with
  | [] => Some (newPod, oldPod)
  | pod :: pods' =>
      match p_deletion pod with
      | Some _ => find_updated ds pods' hash newPod oldPod
      | None =>
          if IsPodUpdated pod hash (GetTemplateGeneration ds) then
            match newPod with
            | Some _ => None
            | None => find_updated ds pods' hash (Some pod) oldPod
            end
          else
            match oldPod with
            | Some _ => None
            | None => find_updated ds pods' hash newPod (Some pod)
            end
      end
  end.
Definition findUpdatedPodsOnNode (ds : DaemonSet) (podsOnNode : list Pod) (hash : string)
  : option (option Pod * option Pod) := find_updated ds podsOnNode hash None None.

(** [podByCreationTimestampAndPhase.Less]. *)
Definition podByCreationTimestampAndPhase (a b : Pod) : bool :=
  if negb (String.eqb (p_node a) "") && String.eqb (p_node b) "" then true
  else if String.eqb (p_node a) "" && negb (String.eqb (p_node b) "") then false
  else if p_creation a =? p_creation b then string_lt (p_name a) (p_name b)
  else p_creation a <? p_creation b.

(** [Selector.Empty]: a selector without requirements. *)
Definition is_everything (sel : LabelSelector) : bool :=
  bool_decide (MatchLabels sel = ∅) && bool_decide (MatchExpressions sel = []).

Definition NodeShouldUpdateBySelector (node : Node) (ds : DaemonSet) : bool :=
  if String.eqb (ds_StrategyType ds) RollingUpdateDaemonSetStrategyType then
    match ds_RollingUpdate ds with
    | Some r =>
        match ru_Selector r with
        | Some sel => negb (is_everything sel)
                      && default false (selector_matches (Some sel) (n_labels node))
        | None => false
        end
    | None => false
    end
  else false.

(** ** Template pods *)

(** The pod that [NewPod] builds when the cache has none. *)
Definition template_pod (ds : DaemonSet) : Pod :=
  let t := ds_Template ds in
  mkPod "" (ds_namespace ds) "" "" (t_labels t) (t_annotations t) (t_finalizers t) 0 None (t_nodeName t) "" [] []
    (t_gates t) (t_containers t) (t_volumes t) [] "" "" [] (AddOrUpdateDaemonPodTolerations (t_placement t)).

Definition loadNewPodForDS (cache : gmap string (Z * Pod)) (ds : DaemonSet) : option Pod :=
  match cache !! ds_uid ds with
  | Some (generation, pod) => if ds_generation ds <=? generation then Some pod else None
  | None => None
  end.

Section Fitness.
Context (validLabel : string -> list string -> bool).

Definition daemon_taint (t : Taint) : bool :=
  String.eqb (tt_effect t) TaintEffectNoExecute || String.eqb (tt_effect t) TaintEffectNoSchedule.

Definition Predicates (pod : Pod) (node : Node) (taints : list Taint) : bool * bool * bool :=
  (String.eqb (p_node pod) "" || String.eqb (p_node pod) (n_name node),
   RequiredNodeAffinity_Match validLabel pod node,
   match FindMatchingUntoleratedTaint taints (pl_tolerations (p_placement pod)) daemon_taint with
   | Some _ => false
   | None => true
   end).

(** [nodeShouldRunDaemonPod] with the pod of [NewPod]: whether a pod should run on the node,
    and whether one that is there may go on running. *)
Definition node_should_run (pod : Pod) (node : Node) (ds : DaemonSet) : bool * bool :=
  if negb (String.eqb (t_nodeName (ds_Template ds)) "" || String.eqb (t_nodeName (ds_Template ds)) (n_name node))
  then (false, false)
  else
    let '(fitsNodeName, fitsNodeAffinity, fitsTaints) := Predicates pod node (n_taints node) in
    if negb fitsNodeName || negb fitsNodeAffinity then (false, false)
    else if negb fitsTaints then
      (false, match FindMatchingUntoleratedTaint (n_taints node) (pl_tolerations (p_placement pod))
                      (fun t => String.eqb (tt_effect t) TaintEffectNoExecute) with
              | Some _ => false
              | None => true
              end)
    else (true, true).
End Fitness.

(** [getUnscheduledPodsWithoutNode], for the entries of the map in the order of the range. *)
Definition getUnscheduledPodsWithoutNode (runningNodesList : list Node) (entries : list (string * list Pod))
  : list string :=
  let isNodeRunning := map n_name runningNodesList in
  entries ≫= (fun '(n, pods) =>
    if existsb (String.eqb n) isNodeRunning then []
    else map p_name (filterb (fun pod => String.eqb (p_node pod) "") pods)).

Section Names.
Context `{GoSort}.
(** [sort.Strings]. *)
Definition Strings (l : list string) : list string := sort_by string_lt l.

Definition GetNodesNeedingPods (newPodsNum desire partition : Z) (progressive : bool) (nodesNeedingPods : list string)
  : list string :=
  if negb progressive then Strings nodesNeedingPods
  else
    let partition := Z.max (Z.min partition desire) 0 in
    let maxCreate := Z.min (Z.max (desire - newPodsNum - partition) 0) (len nodesNeedingPods) in
    if 0 <? maxCreate then slice_to (Strings nodesNeedingPods) maxCreate else [].
End Names.

(** ** The pods of the nodes *)

Definition add_pod (m : gmap string (list Pod)) (pod : Pod) : gmap string (list Pod) :=
  match GetTargetNodeName pod with
  | Some n => <[n := default [] (m !! n) ++ [pod]]> m
  | None => m
  end.
Definition nodes_to_pods (pods : list Pod) : gmap string (list Pod) := fold_left add_pod pods ∅.
Definition pods_on (m : gmap string (list Pod)) (n : string) : list Pod := default [] (m !! n).

(** [updatedDesiredNodeCounts]: every node that should run a pod gets an entry. *)
Definition add_node (m : gmap string (list Pod)) (n : string) : gmap string (list Pod) :=
  match m !! n with Some _ => m | None => <[n := []]> m end.

(** ** The controller *)

(** The reads and writes that concern DaemonSets, nodes and revisions.  The lister of
    DaemonSets and nodes, and the lookups by name, are reads of a cache; [ClaimDaemonPods] and
    [ClaimHistories] are the vendored managers of controller references.  The native
    DaemonSets are those of apps/v1, of which only the collision count is read. *)
Class DaemonApi (S : Type) := {
  GetDaemonSet : string -> string -> S -> error + DaemonSet;
  ListDaemonSets : S -> error + list DaemonSet;
  GetLiveDaemonSet : string -> string -> S -> error + DaemonSet;
  UpdateDaemonSetStatus : DaemonSet -> S -> S * option error;
  ListDaemonNodes : S -> error + list Node;
  GetNode : string -> S -> error + Node;
  GetPodNamed : string -> string -> S -> error + Pod;
  DeletePodNamed : string -> string -> S -> S * option error;
  ClaimDaemonPods : DaemonSet -> S -> S * (error + list Pod);
  ClaimHistories : DaemonSet -> S -> S * (error + list ControllerRevision);
  GetRevision : string -> string -> S -> error + ControllerRevision;
  CreateRevision : string -> ControllerRevision -> S -> S * (error + ControllerRevision);
  UpdateRevision : string -> ControllerRevision -> S -> S * (error + ControllerRevision);
  DeleteRevision : string -> string -> S -> S * option error;
  GetNativeCollisions : string -> string -> S -> error + option Z;
  UpdateNativeCollisions : string -> string -> option Z -> S -> S * option error;
  CreateImagePullJobs : DaemonSet -> list ControllerRevision -> ControllerRevision -> S -> S * option error;
  DeleteImagePullJobs : DaemonSet -> S -> S * option error;
}.

(** A panic of the Go code, or a value. *)
Inductive Outcome (A : Type) := Panic | Value (a : A).
Arguments Panic {A}.
Arguments Value {A} a.

Section Controller.
Context {S : Type} `{Api S} `{DaemonApi S} `{ApiErrors} `{GoSort}.
(** [errors.HasStatusCause(err, NamespaceTerminatingCause)]. *)
Context (NamespaceTerminating : error -> bool).
(** The syntax of labels, the order of a range over a map, the clock. *)
Context (validLabel : string -> list string -> bool).
Context (range : gmap string (list Pod) -> list (string * list Pod)).
Context (now : Z) (nowStr : string).
(** The flag assign-pods-by-scheduler, the timeout of resource version expectations, the
    switch for the download of images, and whether [dsc.Client] is there. *)
Context (scheduleDaemonSetPods : bool) (ExpectationTimeout : Z) (preDownload : bool).
(** The patch that records a template and the hash of a template with a collision count. *)
Context (getPatch : DaemonSet -> error + string) (ComputeHash : PodTemplate -> option Z -> string).

(** The backoff of failed pods: [NewBackOff(1*time.Second, 15*time.Minute)]. *)
Definition backoff_initial : Z := 1 * second.
Definition backoff_max : Z := 900 * second.

Definition on_counters (f : Counters.Store -> Counters.Store) : M S unit :=
  on_local (fun l => mkLocal (f (l_counters l)) (l_backoff l) (l_newPods l) (l_deletions l) (l_spreads l) (l_workloads l) (l_nodeImages l)).

(** [NewPod], with its cache. *)
Definition NewPod (ds : DaemonSet) : M S Pod :=
  do cached <- ask_local (fun l => loadNewPodForDS (l_newPods l) ds);
  match cached with
  | Some pod => ret pod
  | None =>
      let newPod := template_pod ds in
      on_local (fun l => mkLocal (l_counters l) (l_backoff l)
        (<[ds_uid ds := (ds_generation ds, newPod)]> (l_newPods l)) (l_deletions l) (l_spreads l) (l_workloads l) (l_nodeImages l)) ;;
      ret newPod
  end.
Definition nodeShouldRunDaemonPod (node : Node) (ds : DaemonSet) : M S (bool * bool) :=
  do pod <- NewPod ds; ret (node_should_run validLabel pod node ds).

Definition getDaemonPods (ds : DaemonSet) : M S (error + list Pod) := call (ClaimDaemonPods ds) (fun _ => []).
Definition getNodesToDaemonPods (ds : DaemonSet) : M S (error + gmap string (list Pod)) :=
  do x <- getDaemonPods ds;
  match x with
  | inl err => ret (inl err)
  | inr claimedPods => ret (inr (nodes_to_pods claimedPods))
  end.

(** ** The plan of a node *)

Definition failedPodsBackoffKey (ds : DaemonSet) (nodeName : string) : string :=
  ds_uid ds +:+ "/" +:+ Itoa (dss_ObservedGeneration (ds_status ds)) +:+ "/" +:+ nodeName.

(** The loop over the pods of a node that may go on running: those that do, and the names of
    those to delete. *)
Fixpoint running_pods (ds : DaemonSet) (nodeName : string) (pods : list Pod) (running : list Pod) (toDelete : list string)
  : M S (list Pod * list string) :=
  match pods with
  | [] => ret (running, toDelete)
  | pod :: pods' =>
      match p_deletion pod with
      | Some _ => running_pods ds nodeName pods' running toDelete
      | None =>
          if String.eqb (p_phase pod) PodFailed then
            let backoffKey := failedPodsBackoffKey ds nodeName in
            do inBackoff <- ask_local (fun l => Backoff.IsInBackOffSinceUpdate backoff_max (l_backoff l) backoffKey now);
            if inBackoff : bool then
              do delay <- ask_local (fun l => Backoff.Get (l_backoff l) backoffKey);
              pushDuration (keyFunc ds) delay ;;
              running_pods ds nodeName pods' running toDelete
            else
              on_local (fun l => mkLocal (l_counters l)
                (Backoff.Next backoff_initial backoff_max (l_backoff l) backoffKey now) (l_newPods l) (l_deletions l) (l_spreads l) (l_workloads l) (l_nodeImages l)) ;;
              running_pods ds nodeName pods' running (toDelete ++ [p_name pod])
          else if isPodPreDeleting pod then running_pods ds nodeName pods' running (toDelete ++ [p_name pod])
          else running_pods ds nodeName pods' (running ++ [pod]) toDelete
      end
  end.

(** With surge: the oldest new pod, the oldest old one, and the names of the others. *)
Fixpoint oldest_pods (hash : string) (pods : list Pod) (newest old : option Pod) (toDelete : list string)
  : option Pod * option Pod * list string :=
  match pods with
  | [] => (newest, old, toDelete)
  | pod :: pods' =>
      if String.eqb (lbl (p_labels pod) ControllerRevisionHashLabelKey) hash then
        match newest with
        | None => oldest_pods hash pods' (Some pod) old toDelete
        | Some _ => oldest_pods hash pods' newest old (toDelete ++ [p_name pod])
        end
      else
        match old with
        | None => oldest_pods hash pods' newest (Some pod) toDelete
        | Some _ => oldest_pods hash pods' newest old (toDelete ++ [p_name pod])
        end
  end.

(** The running pods of a node that allows a surge. *)
Definition prune_surge (ds : DaemonSet) (hash : string) (running : list Pod) (toDelete : list string)
  : M S (list string) :=
  match oldest_pods hash (sort_by podByCreationTimestampAndPhase running) None None toDelete with
  | (Some oldestNewPod, Some oldestOldPod, toDelete) =>
      if negb (IsPodReady oldestOldPod) then ret (toDelete ++ [p_name oldestOldPod])
      else if IsPodAvailable_k8s oldestNewPod (ds_MinReadySeconds ds) now then ret (toDelete ++ [p_name oldestOldPod])
      else if IsPodReady oldestNewPod && (0 <? ds_MinReadySeconds ds) then
        pushDuration (keyFunc ds) (podAvailableWaitingTime oldestNewPod (ds_MinReadySeconds ds) now) ;; ret toDelete
      else ret toDelete
  | (_, _, toDelete) => ret toDelete
  end.

(** The case of a node whose pods may go on running. *)
Definition continue_running (ds : DaemonSet) (hash : string) (nodeName : string) (shouldRun : bool) (pods : list Pod)
  : M S (list string * list string) :=
  do '(running, toDelete) <- running_pods ds nodeName pods [] [];
  if negb (allowSurge ds) then
    if len running <=? 1 then ret ([], toDelete)
    else ret ([], toDelete ++ map p_name (slice_from (sort_by podByCreationTimestampAndPhase running) 1))
  else if len running <=? 1 then
    ret (if bool_decide (running = []) && shouldRun then [nodeName] else [], toDelete)
  else do toDelete <- prune_surge ds hash running toDelete; ret ([], toDelete).

Definition podsShouldBeOnNode (node : Node) (nodeToDaemonPods : gmap string (list Pod)) (ds : DaemonSet) (hash : string)
  : M S (list string * list string) :=
  do '(shouldRun, shouldContinueRunning) <- nodeShouldRunDaemonPod node ds;
  match nodeToDaemonPods !! n_name node with
  | None =>
      if shouldRun : bool then ret ([n_name node], [])
      else if shouldContinueRunning : bool then continue_running ds hash (n_name node) shouldRun []
      else ret ([], [])
  | Some daemonPods =>
      if shouldContinueRunning : bool then continue_running ds hash (n_name node) shouldRun daemonPods
      else ret ([], map p_name (filterb (fun pod => match p_deletion pod with None => true | Some _ => false end) daemonPods))
  end.

(** ** syncNodes *)

(** [podControl.CreatePods]. *)
Definition CreatePods (namespace : string) (template : PodTemplate) (ref : OwnerReference) : M S (option error) :=
  let pod := GetPodFromTemplate template ref in
  if bool_decide (size (p_labels pod) = 0%nat) then ret (Some "unable to create pods, no labels"%string)
  else createPod (with_name pod (p_name pod) namespace).

(** [podControl.DeletePod], with the error of the client. *)
Definition DeletePod_ (namespace name : string) : M S (option error) :=
  call (DeletePodNamed namespace name) (fun e => [EvDeleteNamed namespace name (is_ok e)]).

Definition ds_owner (ds : DaemonSet) : OwnerReference :=
  mkOwner "apps.kruise.io/v1alpha1" "DaemonSet" (ds_name ds) (ds_uid ds) true.

(** The template of the pods, and that of the pod of one node. *)
Definition pod_template (ds : DaemonSet) (hash : string) : PodTemplate :=
  let t := CreatePodTemplate (ds_Template ds) (GetTemplateGeneration ds) hash in
  let inPlace :=
    String.eqb (ds_StrategyType ds) RollingUpdateDaemonSetStrategyType
    && match ds_RollingUpdate ds with Some r => String.eqb (ru_Type r) InplaceRollingUpdateType | None => false end in
  mkTemplate (t_labels t) (t_annotations t) (t_finalizers t) (t_containers t) (t_volumes t)
    (if inPlace then t_gates t ++ [InPlaceUpdateReady] else t_gates t) (t_nodeName t) (t_placement t).
Definition node_template (t : PodTemplate) (nodeName : string) : PodTemplate :=
  let pl := t_placement t in
  let pl' := if scheduleDaemonSetPods then ReplaceDaemonSetPodNodeNameNodeAffinity pl nodeName
             else mkPlacement (pl_restartPolicy pl) (pl_nodeSelector pl) (pl_affinity pl) (pl_tolerations pl)
                    (pl_hostNetwork pl) "kubernetes.io/daemonset-controller" (pl_preferred pl) (pl_initContainers pl) (pl_pullSecrets pl) in
  mkTemplate (t_labels t) (t_annotations t) (t_finalizers t) (t_containers t) (t_volumes t) (t_gates t)
    (if scheduleDaemonSetPods then t_nodeName t else nodeName) pl'.

(** The goroutines of one batch of creations: the errors sent. *)
Fixpoint create_batch (ds : DaemonSet) (template : PodTemplate) (names : list string) (errs : list error)
  : M S (list error) :=
  match names with
  | [] => ret errs
  | name :: names' =>
      do e <- CreatePods (ds_namespace ds) (node_template template name) (ds_owner ds);
      match e with
      | Some err =>
          if NamespaceTerminating err then create_batch ds template names' errs
          else
            on_counters (fun r => Counters.CreationObserved r (keyFunc ds)) ;;
            create_batch ds template names' (errs ++ [err])
      | None => create_batch ds template names' errs
      end
  end.

(** The loop over the batches; [createDiff] as fuel is enough, as every batch has a pod. *)
Fixpoint create_batches (fuel : nat) (ds : DaemonSet) (template : PodTemplate) (names : list string)
  (createDiff batchSize pos : Z) (errs : list error) : M S (list error) :=
  match fuel with
  | O => ret errs
  | Datatypes.S fuel' =>
      if createDiff <=? pos then ret errs
      else
        do errs' <- create_batch ds template (slice_to (slice_from names pos) batchSize) errs;
        let skippedPods := createDiff - (batchSize + pos) in
        if (len errs <? len errs') && (0 <? skippedPods) then
          on_counters (fun r => Counters.LowerExpectations r (keyFunc ds) skippedPods 0) ;; ret errs'
        else
          create_batches fuel' ds template names createDiff (Z.min (2 * batchSize) (createDiff - (pos + batchSize)))
            (pos + batchSize) errs'
  end.

(** The goroutines of the deletions. *)
Fixpoint delete_batch (ds : DaemonSet) (names : list string) (errs : list error) : M S (list error) :=
  match names with
  | [] => ret errs
  | name :: names' =>
      do e <- DeletePod_ (ds_namespace ds) name;
      match e with
      | Some err =>
          on_counters (fun r => Counters.DeletionObserved r (keyFunc ds)) ;;
          delete_batch ds names' (if IsNotFound err then errs else errs ++ ["unable to delete pods: " +:+ err])
      | None => delete_batch ds names' errs
      end
  end.

Definition preDelete (ds : DaemonSet) : option LifecycleHook :=
  match ds_Lifecycle ds with Some l => PreDelete l | None => None end.

(** [syncWithPreparingDelete]: the pods that no hook holds. *)
Fixpoint syncWithPreparingDelete (ds : DaemonSet) (podsToDelete : list string) (podsCanDelete : list string)
  : M S (error + list string) :=
  match podsToDelete with
  | [] => ret (inr podsCanDelete)
  | podName :: rest =>
      do x <- read (GetPodNamed (ds_namespace ds) podName);
      match x with
      | inl err => if IsNotFound err then syncWithPreparingDelete ds rest podsCanDelete else ret (inl err)
      | inr pod =>
          if negb (Hooks.IsPodHooked (preDelete ds) pod)
          then syncWithPreparingDelete ds rest (podsCanDelete ++ [podName])
          else
            do '(updated, gotPod, err) <- LifecycleControl.UpdatePodLifecycle nowStr pod LifecycleStatePreparingDelete
                 (Hooks.IsHookMarkPodNotReady (preDelete ds));
            match err with
            | Some e => ret (inl e)
            | None =>
                (match gotPod with
                 | Some p => if updated : bool then expectRV (p_uid p) (p_resourceVersion p) else ret tt
                 | None => ret tt
                 end) ;;
                syncWithPreparingDelete ds rest podsCanDelete
            end
      end
  end.

(** [syncNodes] after the hooks. *)
Definition sync_nodes (ds : DaemonSet) (podsToDelete nodesNeedingDaemonPods : list string) (hash : string)
  : M S (Outcome (option error)) :=
  let burstReplicas := getBurstReplicas ds in
  let createDiff := Z.min (len nodesNeedingDaemonPods) burstReplicas in
  let deleteDiff := Z.min (len podsToDelete) burstReplicas in
  on_counters (fun r => Counters.SetExpectations r (keyFunc ds) createDiff deleteDiff now) ;;
  if createDiff + deleteDiff <? 0 then ret Panic
  else
    do errs <- create_batches (Z.to_nat createDiff) ds (pod_template ds hash) nodesNeedingDaemonPods createDiff
                 (Z.min createDiff 1) 0 [];
    do errs <- delete_batch ds (slice_to podsToDelete deleteDiff) errs;
    ret (Value (NewAggregate errs)).

Definition syncNodes (ds : DaemonSet) (podsToDelete nodesNeedingDaemonPods : list string) (hash : string)
  : M S (Outcome (option error)) :=
  match preDelete ds with
  | None => sync_nodes ds podsToDelete nodesNeedingDaemonPods hash
  | Some _ =>
      do x <- syncWithPreparingDelete ds podsToDelete [];
      match x with
      | inl err => ret (Value (Some err))
      | inr podsToDelete => sync_nodes ds podsToDelete nodesNeedingDaemonPods hash
      end
  end.

(** ** manage *)

(** The loop over the nodes: the nodes that need a pod, the pods to delete, the nodes that
    should run one, and the nodes with a new pod. *)
Fixpoint manage_nodes (nodes : list Node) (m : gmap string (list Pod)) (ds : DaemonSet) (hash : string)
  (needing toDelete : list string) (desire newPods : Z) : M S (list string * list string * Z * Z) :=
  match nodes with
  | [] => ret (needing, toDelete, desire, newPods)
  | node :: nodes' =>
      do '(needingOnNode, toDeleteOnNode) <- podsShouldBeOnNode node m ds hash;
      do '(shouldRun, _) <- nodeShouldRunDaemonPod node ds;
      manage_nodes nodes' m ds hash (needing ++ needingOnNode) (toDelete ++ toDeleteOnNode)
        (if shouldRun : bool then desire + 1 else desire)
        (match findUpdatedPodsOnNode ds (pods_on m (n_name node)) hash with
         | Some (Some _, _) => newPods + 1
         | _ => newPods
         end)
  end.

(** The nodes to create pods on, of those that need one. *)
Definition progressive_nodes (ds : DaemonSet) (newPods desire : Z) (needing : list string) : list string :=
  if String.eqb (ds_StrategyType ds) RollingUpdateDaemonSetStrategyType then
    match ds_RollingUpdate ds with
    | Some r =>
        match ru_Partition r with
        | Some partition =>
            if negb (partition =? 0)
            then GetNodesNeedingPods newPods desire partition (isDaemonSetCreationProgressively ds) needing
            else needing
        | None => needing
        end
    | None => needing
    end
  else needing.

Definition manage (ds : DaemonSet) (nodeList : list Node) (hash : string) : M S (Outcome (option error)) :=
  do x <- getNodesToDaemonPods ds;
  match x with
  | inl err => ret (Value (Some ("couldn't get node to daemon pod mapping for DaemonSet " +:+ ds_name ds +:+ ": " +:+ err)))
  | inr m =>
      do '(needing, toDelete, desire, newPods) <- manage_nodes nodeList m ds hash [] [] 0 0;
      syncNodes ds (toDelete ++ getUnscheduledPodsWithoutNode nodeList (range m))
        (progressive_nodes ds newPods desire needing) hash
  end.

(** ** rollingUpdate *)

Fixpoint desired_nodes (nodes : list Node) (ds : DaemonSet) (m : gmap string (list Pod)) (desired : Z)
  : M S (gmap string (list Pod) * Z) :=
  match nodes with
  | [] => ret (m, desired)
  | node :: nodes' =>
      do '(wantToRun, _) <- nodeShouldRunDaemonPod node ds;
      if wantToRun : bool then desired_nodes nodes' ds (add_node m (n_name node)) (desired + 1)
      else desired_nodes nodes' ds m desired
  end.

(** [maxSurge] and [maxUnavailable] for a number of nodes. *)
Definition rolling_limits (ds : DaemonSet) (desired : Z) : error + Z * Z :=
  match unavailableCount ds desired with
  | None => inl "invalid value for MaxUnavailable"%string
  | Some maxUnavailable =>
      match surgeCount ds desired with
      | None => inl "invalid value for MaxSurge"%string
      | Some maxSurge =>
          inr (maxSurge, if (0 <? desired) && (maxUnavailable =? 0) && (maxSurge =? 0) then 1 else maxUnavailable)
      end
  end.
Definition updatedDesiredNodeCounts (ds : DaemonSet) (nodeList : list Node) (m : gmap string (list Pod))
  : M S (gmap string (list Pod) * (error + Z * Z)) :=
  do '(m, desired) <- desired_nodes nodeList ds m 0;
  ret (m, rolling_limits ds desired).

(** The loop of [filterDaemonPodsNodeToUpdate], over the names from the last one on: the nodes
    updated, updating, selected and the rest. *)
Fixpoint classify_nodes (ds : DaemonSet) (hash : string) (m : gmap string (list Pod)) (selector : option LabelSelector)
  (names : list string) (updated updating selected rest : list string)
  : M S (error + list string * list string * list string * list string) :=
  match names with
  | [] => ret (inr (updated, updating, selected, rest))
  | n :: names' =>
      match findUpdatedPodsOnNode ds (pods_on m n) hash with
      | None | Some (Some _, _) => classify_nodes ds hash m selector names' (updated ++ [n]) updating selected rest
      | Some (None, oldPod) =>
          if isPodNilOrPreDeleting oldPod
          then classify_nodes ds hash m selector names' updated (updating ++ [n]) selected rest
          else
            match selector with
            | None => classify_nodes ds hash m selector names' updated updating selected (rest ++ [n])
            | Some sel =>
                do x <- read (GetNode n);
                match x with
                | inl err => ret (inl ("failed to get node " +:+ n +:+ ": " +:+ err))
                | inr node =>
                    if default false (selector_matches (Some sel) (n_labels node))
                    then classify_nodes ds hash m selector names' updated updating (selected ++ [n]) rest
                    else classify_nodes ds hash m selector names' updated updating selected (rest ++ [n])
                end
            end
      end
  end.

Definition rolling_partition (ds : DaemonSet) : Z :=
  match ds_RollingUpdate ds with Some r => default 0 (ru_Partition r) | None => 0 end.
Definition rolling_selector (ds : DaemonSet) : option LabelSelector :=
  match ds_RollingUpdate ds with Some r => ru_Selector r | None => None end.

(** The nodes that the partition leaves. *)
Definition cut_nodes (total partition : Z) (sorted : list string) : list string :=
  let maxUpdate := total - partition in
  if maxUpdate <=? 0 then [] else if maxUpdate <? len sorted then slice_to sorted maxUpdate else sorted.

Definition filterDaemonPodsNodeToUpdate (ds : DaemonSet) (hash : string) (m : gmap string (list Pod))
  : M S (error + list string) :=
  let selector := rolling_selector ds in
  match selector, default true (sel ← selector; Some (forallb is_valid_op (MatchExpressions sel))) with
  | Some _, false => ret (inl "not a valid pod selector operator"%string)
  | _, _ =>
      let allNodeNames := Strings (map fst (range m)) in
      do x <- classify_nodes ds hash m selector (rev allNodeNames) [] [] [] [];
      match x with
      | inl err => ret (inl err)
      | inr (updated, updating, selected, rest) =>
          let sorted := updated ++ updating ++ match selector with Some _ => selected | None => rest end in
          ret (inr (cut_nodes (len allNodeNames) (rolling_partition ds) sorted))
      end
  end.

Definition filterDaemonPodsToUpdate (ds : DaemonSet) (nodeList : list Node) (hash : string) (m : gmap string (list Pod))
  : M S (error + gmap string (list Pod)) :=
  let m := filter (fun kv => kv.1 ∈ map n_name nodeList) m in
  do x <- filterDaemonPodsNodeToUpdate ds hash m;
  match x with
  | inl err => ret (inl err)
  | inr nodeNames => ret (inr (list_to_map (map (fun n => (n, pods_on m n)) nodeNames)))
  end.

(** The loop without surge: the nodes that count as unavailable, the old pods that are not
    available, and the candidates to take away. *)
Record RollPlan := mkRoll { rp_unavailable : Z; rp_allowed : list string; rp_candidates : list string }.
Definition roll_node (ds : DaemonSet) (hash : string) (maxUnavailable : Z) (plan : RollPlan) (entry : string * list Pod)
  : RollPlan :=
  let '(mkRoll numUnavailable allowed candidates) := plan in
  let available p := IsPodAvailable_k8s p (ds_MinReadySeconds ds) now in
  match findUpdatedPodsOnNode ds entry.2 hash with
  | None => mkRoll (numUnavailable + 1) allowed candidates
  | Some (newPod, oldPod) =>
      if Bool.eqb (isPodNilOrPreDeleting oldPod) (isPodNilOrPreDeleting newPod)
      then mkRoll (numUnavailable + 1) allowed candidates
      else
        match newPod, oldPod with
        | Some p, _ =>
            let n := if negb (available p) then numUnavailable + 1 else numUnavailable in
            mkRoll (if isPodPreDeleting p then n + 1 else n) allowed candidates
        | None, Some p =>
            if negb (available p) then mkRoll numUnavailable (allowed ++ [p_name p]) candidates
            else if maxUnavailable <=? numUnavailable then plan
            else mkRoll numUnavailable allowed (candidates ++ [p_name p])
        | None, None => plan
        end
  end.
Definition roll_plan (ds : DaemonSet) (hash : string) (maxUnavailable : Z) (entries : list (string * list Pod)) : RollPlan :=
  fold_left (roll_node ds hash maxUnavailable) entries (mkRoll 0 [] []).
Definition roll_deletes (maxUnavailable : Z) (plan : RollPlan) : list string :=
  let remainingUnavailable := Z.max (maxUnavailable - rp_unavailable plan) 0 in
  rp_allowed plan ++ slice_to (rp_candidates plan) (Z.min remainingUnavailable (len (rp_candidates plan))).

(** The loop with surge: the old pods to delete, the candidates and the allowed nodes for new
    pods, and the nodes that count as surging. *)
Record SurgePlan := mkSurge { sp_delete : list string; sp_candidates : list string; sp_allowed : list string; sp_surge : Z }.
Definition surge_node (ds : DaemonSet) (hash : string) (maxSurge : Z) (plan : SurgePlan) (entry : string * list Pod)
  : SurgePlan :=
  let '(mkSurge toDelete candidates allowed numSurge) := plan in
  let available p := IsPodAvailable_k8s p (ds_MinReadySeconds ds) now in
  match findUpdatedPodsOnNode ds entry.2 hash with
  | None => mkSurge toDelete candidates allowed (numSurge + 1)
  | Some (newPod, None) => plan
  | Some (newPod, Some oldPod) =>
      if isPodPreDeleting oldPod then plan
      else
        match newPod with
        | None =>
            if negb (available oldPod) then mkSurge toDelete candidates (allowed ++ [entry.1]) numSurge
            else if maxSurge <=? numSurge then plan
            else mkSurge toDelete (candidates ++ [entry.1]) allowed numSurge
        | Some p =>
            if negb (available p) then mkSurge toDelete candidates allowed (numSurge + 1)
            else if isPodPreDeleting p then mkSurge toDelete candidates allowed (numSurge + 1)
            else mkSurge (toDelete ++ [p_name oldPod]) candidates allowed numSurge
        end
  end.
Definition surge_plan (ds : DaemonSet) (hash : string) (maxSurge : Z) (entries : list (string * list Pod)) : SurgePlan :=
  fold_left (surge_node ds hash maxSurge) entries (mkSurge [] [] [] 0).
Definition surge_creates (maxSurge : Z) (plan : SurgePlan) : list string :=
  let remainingSurge := Z.max (maxSurge - sp_surge plan) 0 in
  sp_allowed plan ++ slice_to (sp_candidates plan) (Z.min remainingSurge (len (sp_candidates plan))).

(** ** In-place updates *)

Definition revision_label (r : ControllerRevision) : string := lbl (cr_labels r) ControllerRevisionHashLabelKey.

(** [CanUpdateInPlace] and [Update] are called without a grace period and without additional
    functions. *)
Definition canPodInPlaceUpdate (pod : Pod) (curRevision : ControllerRevision) (oldRevisions : list ControllerRevision) : bool :=
  if negb (ContainsReadinessGate pod) then false
  else
    match find (fun r => Revision.EqualToRevisionHash pod (revision_label r)) oldRevisions with
    | None => false
    | Some oldRevision => CanUpdateInPlace (Some oldRevision) curRevision 0
    end.

(** The first loop of [inPlaceUpdatePods]: the pods to update and the names of the others. *)
Fixpoint split_in_place (ds : DaemonSet) (names : list string) (cur : ControllerRevision) (olds : list ControllerRevision)
  (toUpdate : list Pod) (needDelete : list string) : M S (list Pod * list string) :=
  match names with
  | [] => ret (toUpdate, needDelete)
  | name :: names' =>
      do x <- read (GetPodNamed (ds_namespace ds) name);
      match x with
      | inl _ => split_in_place ds names' cur olds toUpdate (needDelete ++ [name])
      | inr pod =>
          if canPodInPlaceUpdate pod cur olds then split_in_place ds names' cur olds (toUpdate ++ [pod]) needDelete
          else split_in_place ds names' cur olds toUpdate (needDelete ++ [name])
      end
  end.

(** The goroutines of the updates: the names sent for deletion and the errors. *)
Fixpoint update_batch (ds : DaemonSet) (pods : list Pod) (cur : ControllerRevision) (olds : list ControllerRevision)
  (needDelete : list string) (errs : list error) : M S (list string * list error) :=
  match pods with
  | [] => ret (needDelete, errs)
  | pod :: pods' =>
      let oldRevision :=
        find (fun r => String.eqb (lbl (p_labels pod) ControllerRevisionHashLabelKey) (revision_label r)) olds in
      do res <- call (InPlaceUpdatePod pod oldRevision cur 0 "")
                  (fun r => [EvInPlaceUpdate pod (cr_name cur) "" (ur_InPlaceUpdate r && is_ok (ur_UpdateErr r))]);
      if ur_InPlaceUpdate res then
        match ur_UpdateErr res with
        | None =>
            expectRV (p_uid pod) (ur_NewResourceVersion res) ;; update_batch ds pods' cur olds needDelete errs
        | Some err =>
            pushDuration (keyFunc ds) (ur_DelayDuration res) ;; update_batch ds pods' cur olds needDelete (errs ++ [err])
        end
      else update_batch ds pods' cur olds (needDelete ++ [p_name pod]) errs
  end.

Definition inPlaceUpdatePods (ds : DaemonSet) (podNames : list string) (cur : ControllerRevision)
  (olds : list ControllerRevision) : M S (Outcome (list string * option error)) :=
  do '(podsToUpdate, needDelete) <- split_in_place ds podNames cur olds [] [];
  let updateDiff := Z.min (len podsToUpdate) (getBurstReplicas ds) in
  if updateDiff <? 0 then ret Panic
  else
    do '(needDelete, errs) <- update_batch ds (slice_to podsToUpdate updateDiff) cur olds needDelete [];
    ret (Value (needDelete, NewAggregate errs)).

(** The end of the update without surge: [ds.Spec.UpdateStrategy.RollingUpdate.Type] panics
    when [RollingUpdate] is [nil]. *)
Definition replace_pods (ds : DaemonSet) (oldPodsToDelete : list string) (cur : ControllerRevision)
  (olds : list ControllerRevision) (hash : string) : M S (Outcome (option error)) :=
  match ds_RollingUpdate ds with
  | None => ret Panic
  | Some r =>
      if String.eqb (ru_Type r) InplaceRollingUpdateType then
        do x <- inPlaceUpdatePods ds oldPodsToDelete cur olds;
        match x with
        | Panic => ret Panic
        | Value (_, Some err) => ret (Value (Some err))
        | Value (needDelete, None) => syncNodes ds needDelete [] hash
        end
      else syncNodes ds oldPodsToDelete [] hash
  end.

Definition rollingUpdate (ds : DaemonSet) (nodeList : list Node) (cur : ControllerRevision)
  (olds : list ControllerRevision) : M S (Outcome (option error)) :=
  let hash := revision_label cur in
  do x <- getNodesToDaemonPods ds;
  match x with
  | inl err => ret (Value (Some ("couldn't get node to daemon pod mapping for daemon set: " +:+ err)))
  | inr m =>
      do '(m, limits) <- updatedDesiredNodeCounts ds nodeList m;
      match limits with
      | inl err => ret (Value (Some ("couldn't get unavailable numbers: " +:+ err)))
      | inr (maxSurge, maxUnavailable) =>
          do y <- filterDaemonPodsToUpdate ds nodeList hash m;
          match y with
          | inl err => ret (Value (Some ("failed to filterDaemonPodsToUpdate: " +:+ err)))
          | inr m =>
              if maxSurge =? 0 then
                replace_pods ds (roll_deletes maxUnavailable (roll_plan ds hash maxUnavailable (range m))) cur olds hash
              else
                let plan := surge_plan ds hash maxSurge (range m) in
                syncNodes ds (sp_delete plan) (surge_creates maxSurge plan) hash
          end
      end
  end.

(** ** daemonset_history.go *)

Definition Match (ds : DaemonSet) (history : ControllerRevision) : error + bool :=
  match getPatch ds with
  | inl err => inl err
  | inr patch => inr (String.eqb patch (cr_data history))
  end.

Definition maxRevision (histories : list ControllerRevision) : Z :=
  fold_left (fun m history => if m <? cr_revision history then cr_revision history else m) histories 0.

Definition with_revision_labels (r : ControllerRevision) (labels : gmap string string) : ControllerRevision :=
  mkRevision (cr_name r) (cr_revision r) labels (cr_data r) (cr_creation r) (cr_controller r) (cr_uid r)
    (cr_resourceVersion r) (cr_annotations r).
Definition with_revision_number (r : ControllerRevision) (n : Z) : ControllerRevision :=
  mkRevision (cr_name r) n (cr_labels r) (cr_data r) (cr_creation r) (cr_controller r) (cr_uid r) (cr_resourceVersion r)
    (cr_annotations r).

Definition updateRevision (ns : string) (r : ControllerRevision) : M S (error + ControllerRevision) :=
  call (UpdateRevision ns r) (fun x => [EvUpdateRevision r (cr_revision r) (is_inr x)]).
Definition deleteRevision (ns : string) (r : ControllerRevision) : M S (option error) :=
  call (DeleteRevision ns (cr_name r)) (fun e => [EvDeleteRevision r (is_ok e)]).

(** The loop of [constructHistory]: the current and the old histories. *)
Fixpoint sort_histories (ds : DaemonSet) (histories cur old : list ControllerRevision)
  : M S (error + list ControllerRevision * list ControllerRevision) :=
  match histories with
  | [] => ret (inr (cur, old))
  | history :: histories' =>
      do x <- (match cr_labels history !! ControllerRevisionHashLabelKey with
               | Some _ => ret (inr history)
               | None => updateRevision (ds_namespace ds) (with_revision_labels history
                           (<[ControllerRevisionHashLabelKey := cr_name history]> (cr_labels history)))
               end);
      match x with
      | inl err => ret (inl err)
      | inr history =>
          match Match ds history with
          | inl err => ret (inl err)
          | inr found =>
              if found : bool then sort_histories ds histories' (cur ++ [history]) old
              else sort_histories ds histories' cur (old ++ [history])
          end
      end
  end.

(** A name collision: the collision count is read and written in the DaemonSet of apps/v1. *)
Definition resolve_collision (ds : DaemonSet) (outerErr : error) : M S (error + ControllerRevision) :=
  do x <- read (GetNativeCollisions (ds_namespace ds) (ds_name ds));
  match x with
  | inl getErr => ret (inl getErr)
  | inr count =>
      if negb (bool_decide (count = dss_CollisionCount (ds_status ds)))
      then ret (inl "found a stale collision count"%string)
      else
        do e <- call (UpdateNativeCollisions (ds_namespace ds) (ds_name ds) (Some (wrap32 (default 0 count + 1))))
                  (fun e => [EvUpdateStatus (is_ok e)]);
        match e with
        | Some updateErr => ret (inl updateErr)
        | None => ret (inl outerErr)
        end
  end.

(** The revision that [snapshot] asks for. *)
Definition snapshot_revision (ds : DaemonSet) (patch : string) (revision : Z) : ControllerRevision :=
  let hash := ComputeHash (ds_Template ds) (dss_CollisionCount (ds_status ds)) in
  mkRevision (ds_name ds +:+ "-" +:+ hash) revision
    (<[ControllerRevisionHashLabelKey := hash]> (t_labels (ds_Template ds))) patch 0 (Some (ds_uid ds)) "" "" (ds_annotations ds).

Definition snapshot (ds : DaemonSet) (revision : Z) : M S (error + ControllerRevision) :=
  match getPatch ds with
  | inl err => ret (inl err)
  | inr patch =>
      let history := snapshot_revision ds patch revision in
      do x <- call (CreateRevision (ds_namespace ds) history) (fun x => [EvCreateRevision history (is_inr x)]);
      match x with
      | inr r => ret (inr r)
      | inl err =>
          if IsAlreadyExists err then
            do y <- read (GetRevision (ds_namespace ds) (cr_name history));
            match y with
            | inl getErr => ret (inl getErr)
            | inr existedHistory =>
                match Match ds existedHistory with
                | inl matchErr => ret (inl matchErr)
                | inr done => if done : bool then ret (inr existedHistory) else resolve_collision ds err
                end
            end
          else ret (inl err)
      end
  end.

(** The current history that is kept: the last one of the highest number. *)
Definition keep_cur (curHistories : list ControllerRevision) : option ControllerRevision :=
  (fold_left (fun '(keep, m) cur => if m <=? cr_revision cur then (Some cur, cr_revision cur) else (keep, m))
     curHistories (None, 0)).1.

Fixpoint relabel_pods (label : string) (pods : list Pod) : M S (option error) :=
  match pods with
  | [] => ret None
  | pod :: pods' =>
      if String.eqb (lbl (p_labels pod) ControllerRevisionHashLabelKey) label then relabel_pods label pods'
      else
        do x <- patchPod pod (mkPatch {[ ControllerRevisionHashLabelKey := label ]} ∅ []);
        match x with
        | inl err => ret (Some err)
        | inr _ => relabel_pods label pods'
        end
  end.

Fixpoint delete_duplicates (ns keep : string) (rs : list ControllerRevision) : M S (option error) :=
  match rs with
  | [] => ret None
  | r :: rs' =>
      if String.eqb (cr_name r) keep then delete_duplicates ns keep rs'
      else
        do e <- deleteRevision ns r;
        match e with
        | Some err => ret (Some err)
        | None => delete_duplicates ns keep rs'
        end
  end.

(** [dedupCurHistories] on a list that is not empty; a negative number of every revision would
    leave [keepCur] at [nil], which panics. *)
Definition dedupCurHistories (ds : DaemonSet) (curHistories : list ControllerRevision)
  : M S (Outcome (error + ControllerRevision)) :=
  match curHistories with
  | [r] => ret (Value (inr r))
  | _ =>
      do x <- getDaemonPods ds;
      match x with
      | inl err => ret (Value (inl err))
      | inr pods =>
          match keep_cur curHistories with
          | None => ret Panic
          | Some keepCur =>
              do e <- relabel_pods (revision_label keepCur) pods;
              match e with
              | Some err => ret (Value (inl err))
              | None =>
                  do e <- delete_duplicates (ds_namespace ds) (cr_name keepCur) curHistories;
                  match e with
                  | Some err => ret (Value (inl err))
                  | None => ret (Value (inr keepCur))
                  end
              end
          end
      end
  end.

Definition constructHistory (ds : DaemonSet)
  : M S (Outcome (error + ControllerRevision * list ControllerRevision)) :=
  do x <- call (ClaimHistories ds) (fun _ => []);
  match x with
  | inl err => ret (Value (inl err))
  | inr histories =>
      do y <- sort_histories ds histories [] [];
      match y with
      | inl err => ret (Value (inl err))
      | inr (currentHistories, old) =>
          let currRevision := wrap64 (maxRevision old + 1) in
          match currentHistories with
          | [] =>
              do z <- snapshot ds currRevision;
              match z with
              | inl err => ret (Value (inl err))
              | inr cur => ret (Value (inr (cur, old)))
              end
          | _ =>
              do z <- dedupCurHistories ds currentHistories;
              match z with
              | Panic => ret Panic
              | Value (inl err) => ret (Value (inl err))
              | Value (inr cur) =>
                  if cr_revision cur <? currRevision then
                    do u <- updateRevision (ds_namespace ds) (with_revision_number cur currRevision);
                    match u with
                    | inl err => ret (Value (inl err))
                    | inr _ => ret (Value (inr (cur, old)))
                    end
                  else ret (Value (inr (cur, old)))
              end
          end
      end
  end.

(** The deletions of [cleanupHistory], from the oldest history on. *)
Fixpoint kill_histories (ns : string) (live : gset string) (toKill : Z) (old : list ControllerRevision) : M S (option error) :=
  match old with
  | [] => ret None
  | history :: old' =>
      if toKill <=? 0 then ret None
      else if bool_decide (revision_label history ∈ live) then kill_histories ns live toKill old'
      else
        do e <- deleteRevision ns history;
        match e with
        | Some err => ret (Some err)
        | None => kill_histories ns live (toKill - 1) old'
        end
  end.
Definition live_hashes (m : gmap string (list Pod)) : gset string :=
  list_to_set (filterb (fun h => negb (String.eqb h ""))
    (map (fun pod => lbl (p_labels pod) ControllerRevisionHashLabelKey) (map_to_list m ≫= snd))).

Definition cleanupHistory (ds : DaemonSet) (old : list ControllerRevision) : M S (option error) :=
  do x <- getNodesToDaemonPods ds;
  match x with
  | inl err => ret (Some ("couldn't get node to daemon pod mapping for DaemonSet: " +:+ err))
  | inr m =>
      let toKeep := default 10 (ds_RevisionHistoryLimit ds) in
      let toKill := len old - toKeep in
      if toKill <=? 0 then ret None
      else kill_histories (ds_namespace ds) (live_hashes m) toKill
             (sort_by (fun a b => cr_revision a <? cr_revision b) old)
  end.

(** ** Status *)

Record Counts := mkCounts {
  n_desired : Z; n_current : Z; n_misscheduled : Z; n_ready : Z; n_updated : Z; n_available : Z;
}.
Definition count_node (ds : DaemonSet) (hash : string) (shouldRun : bool) (pods : list Pod) (c : Counts) : Counts :=
  if shouldRun then
    match sort_by podByCreationTimestampAndPhase pods with
    | [] => mkCounts (n_desired c + 1) (n_current c) (n_misscheduled c) (n_ready c) (n_updated c) (n_available c)
    | pod :: _ =>
        let ready := IsPodReady pod in
        mkCounts (n_desired c + 1) (n_current c + 1) (n_misscheduled c)
          (if ready then n_ready c + 1 else n_ready c)
          (if IsPodUpdated pod hash (GetTemplateGeneration ds) then n_updated c + 1 else n_updated c)
          (if ready && isDaemonPodAvailable pod (ds_MinReadySeconds ds) now then n_available c + 1 else n_available c)
    end
  else mkCounts (n_desired c) (n_current c) (if bool_decide (pods = []) then n_misscheduled c else n_misscheduled c + 1)
         (n_ready c) (n_updated c) (n_available c).
Fixpoint count_nodes (ds : DaemonSet) (hash : string) (m : gmap string (list Pod)) (nodes : list Node) (c : Counts)
  : M S Counts :=
  match nodes with
  | [] => ret c
  | node :: nodes' =>
      do '(shouldRun, _) <- nodeShouldRunDaemonPod node ds;
      count_nodes ds hash m nodes' (count_node ds hash shouldRun (pods_on m (n_name node)) c)
  end.

Definition same_counts (st : DaemonSetStatus) (c : Counts) : bool :=
  (dss_DesiredNumberScheduled st =? n_desired c) && (dss_CurrentNumberScheduled st =? n_current c)
  && (dss_NumberMisscheduled st =? n_misscheduled c) && (dss_NumberReady st =? n_ready c)
  && (dss_UpdatedNumberScheduled st =? n_updated c) && (dss_NumberAvailable st =? n_available c)
  && (dss_NumberUnavailable st =? n_desired c - n_available c).
Definition with_numbers (st : DaemonSetStatus) (generation : option Z) (c : Counts) (hash : string) : DaemonSetStatus :=
  mkDSStatus (wrap32 (n_current c)) (wrap32 (n_misscheduled c)) (wrap32 (n_desired c)) (wrap32 (n_ready c))
    (default (dss_ObservedGeneration st) generation) (wrap32 (n_updated c)) (wrap32 (n_available c))
    (wrap32 (n_desired c - n_available c)) (dss_CollisionCount st) hash.

(** One try of [storeDaemonSetStatus]; what it mutates is the copy of the object. *)
Definition status_try (ds : DaemonSet) (generation : option Z) (c : Counts) (hash : string) (toUpdate : DaemonSet)
  : M S (option error * DaemonSet) :=
  let toUpdate := with_ds_status toUpdate (with_numbers (ds_status toUpdate) generation c hash) in
  do e <- call (UpdateDaemonSetStatus toUpdate) (fun e => [EvUpdateStatus (is_ok e)]);
  match e with
  | None => ret (None, toUpdate)
  | Some updateErr =>
      do x <- read (GetLiveDaemonSet (ds_namespace ds) (ds_name ds));
      match x with
      | inl getErr => ret (Some getErr, toUpdate)
      | inr fresh => ret (Some updateErr, fresh)
      end
  end.
(** [DefaultBackoff.Steps]. *)
Definition status_steps : nat := 4.
Definition storeDaemonSetStatus (ds : DaemonSet) (c : Counts) (updateObservedGen : bool) (hash : string)
  : M S (option error) :=
  let st := ds_status ds in
  if same_counts st c && (ds_generation ds <=? dss_ObservedGeneration st) && String.eqb (dss_DaemonSetHash st) hash
  then ret None
  else RetryOnConflict status_steps
         (status_try ds (if updateObservedGen then Some (ds_generation ds) else None) c hash) ds.

Definition updateDaemonSetStatus (ds : DaemonSet) (nodeList : list Node) (hash : string) (updateObservedGen : bool)
  : M S (option error) :=
  do x <- getNodesToDaemonPods ds;
  match x with
  | inl err => ret (Some ("couldn't get node to daemon pod mapping for DaemonSet: " +:+ err))
  | inr m =>
      do c <- count_nodes ds hash m nodeList (mkCounts 0 0 0 0 0 0);
      do e <- storeDaemonSetStatus ds c updateObservedGen hash;
      match e with
      | Some err => ret (Some ("error storing status for DaemonSet " +:+ ds_name ds +:+ ": " +:+ err))
      | None =>
          (if (0 <=? ds_MinReadySeconds ds) && negb (n_ready c =? n_available c)
           then pushDuration (keyFunc ds) (ds_MinReadySeconds ds * second) else ret tt) ;;
          ret None
      end
  end.

(** ** The reconcile *)

Fixpoint refresh_pods (dsKey : string) (pods : list Pod) : M S (option error) :=
  match pods with
  | [] => ret None
  | pod :: pods' =>
      do res <- call (InPlaceRefresh pod 0) (fun _ => []);
      match RefreshErr res with
      | Some err => ret (Some err)
      | None =>
          (if rr_DelayDuration res =? 0 then ret tt else pushDuration dsKey (rr_DelayDuration res)) ;;
          refresh_pods dsKey pods'
      end
  end.
Definition refreshUpdateStates (ds : DaemonSet) : M S (option error) :=
  do x <- getDaemonPods ds;
  match x with
  | inl err => ret (Some err)
  | inr pods => refresh_pods (keyFunc ds) pods
  end.

Fixpoint pods_satisfied (dsKey : string) (pods : list Pod) : M S bool :=
  match pods with
  | [] => ret true
  | pod :: pods' =>
      ask_rv (fun r => (tt, RV.Observe r (p_uid pod) (p_resourceVersion pod))) ;;
      do '(isSatisfied, unsatisfiedDuration) <-
        ask_rv (fun r => RV.IsSatisfied r (p_uid pod) (p_resourceVersion pod) now);
      if isSatisfied : bool then pods_satisfied dsKey pods'
      else
        (if ExpectationTimeout <=? unsatisfiedDuration then ret tt
         else pushDuration dsKey (ExpectationTimeout - unsatisfiedDuration)) ;;
        ret false
  end.
Definition hasPodExpectationsSatisfied (ds : DaemonSet) : M S bool :=
  do x <- getDaemonPods ds;
  match x with
  | inl _ => ret false
  | inr pods => pods_satisfied (keyFunc ds) pods
  end.

(** [!SatisfiedExpectations(dsKey) || !hasPodExpectationsSatisfied(ds)], negated. *)
Definition satisfied (ds : DaemonSet) : M S bool :=
  do ok <- ask_local (fun l => Counters.SatisfiedExpectations (l_counters l) (keyFunc ds) now);
  if ok : bool then hasPodExpectationsSatisfied ds else ret false.

(** The pull jobs of the images, whose errors are logged. *)
Definition pre_download (ds : DaemonSet) (cur : ControllerRevision) (old : list ControllerRevision) : M S (option error) :=
  if preDownload then
    if negb (dss_UpdatedNumberScheduled (ds_status ds) =? dss_DesiredNumberScheduled (ds_status ds))
       || negb (String.eqb (revision_label cur) (dss_DaemonSetHash (ds_status ds)))
    then call (CreateImagePullJobs ds old cur) (fun _ => [])
    else call (DeleteImagePullJobs ds) (fun _ => [])
  else ret None.

Definition report (ds : DaemonSet) (nodeList : list Node) (hash : string) (updateObservedGen : bool)
  : M S (Outcome (option error)) :=
  do e <- updateDaemonSetStatus ds nodeList hash updateObservedGen; ret (Value e).

(** The end of [syncDaemonSet]: the history and the status. *)
Definition finish_sync (ds : DaemonSet) (nodeList : list Node) (cur : ControllerRevision) (old : list ControllerRevision)
  : M S (Outcome (option error)) :=
  do e <- cleanupHistory ds old;
  match e with
  | Some err => ret (Value (Some ("failed to clean up revisions of DaemonSet: " +:+ err)))
  | None => report ds nodeList (revision_label cur) true
  end.

(** From [refreshUpdateStates] on. *)
Definition update_pods (ds : DaemonSet) (nodeList : list Node) (cur : ControllerRevision) (old : list ControllerRevision)
  : M S (Outcome (option error)) :=
  do e <- refreshUpdateStates ds;
  match e with
  | Some err => ret (Value (Some err))
  | None =>
      if negb (isDaemonSetPaused ds) && String.eqb (ds_StrategyType ds) RollingUpdateDaemonSetStrategyType then
        do r <- rollingUpdate ds nodeList cur old;
        match r with
        | Panic => ret Panic
        | Value (Some err) => ret (Value (Some err))
        | Value None => finish_sync ds nodeList cur old
        end
      else finish_sync ds nodeList cur old
  end.

(** From [manage] on. *)
Definition manage_and_update (ds : DaemonSet) (nodeList : list Node) (cur : ControllerRevision)
  (old : list ControllerRevision) : M S (Outcome (option error)) :=
  do r <- manage ds nodeList (revision_label cur);
  match r with
  | Panic => ret Panic
  | Value (Some err) => ret (Value (Some err))
  | Value None =>
      do ok <- satisfied ds;
      if ok : bool then update_pods ds nodeList cur old else report ds nodeList (revision_label cur) false
  end.

(** [syncDaemonSet] once the object is there. *)
Definition sync_set (ds : DaemonSet) : M S (Outcome (option error)) :=
  if match ds_deletion ds with Some _ => true | None => false end then ret (Value None)
  else if match ds_Selector ds with Some sel => is_everything sel | None => false end then ret (Value None)
  else
    do x <- read ListDaemonNodes;
    match x with
    | inl err => ret (Value (Some ("couldn't get list of nodes when syncing DaemonSet: " +:+ err)))
    | inr nodeList =>
        do h <- constructHistory ds;
        match h with
        | Panic => ret Panic
        | Value (inl err) => ret (Value (Some ("failed to construct revisions of DaemonSet: " +:+ err)))
        | Value (inr (cur, old)) =>
            do ok <- satisfied ds;
            if negb ok then report ds nodeList (revision_label cur) false
            else pre_download ds cur old ;; manage_and_update ds nodeList cur old
        end
    end.

Definition syncDaemonSet (namespace name : string) : M S (Outcome (option error)) :=
  let dsKey := namespace +:+ "/" +:+ name in
  do x <- read (GetDaemonSet namespace name);
  match x with
  | inl err =>
      if IsNotFound err then on_counters (fun r => Counters.DeleteExpectations r dsKey) ;; ret (Value None)
      else ret (Value (Some ("unable to retrieve DaemonSet " +:+ dsKey +:+ " from store: " +:+ err)))
  | inr ds => sync_set ds
  end.

(** [Reconcile]: the delay and the error. *)
Definition Reconcile (namespace name : string) : M S (Outcome (Z * option error)) :=
  do r <- syncDaemonSet namespace name;
  match r with
  | Panic => ret Panic
  | Value err =>
      do d <- popDuration (namespace +:+ "/" +:+ name);
      do _ <- popDuration (namespace +:+ "/" +:+ name);
      ret (Value (d, err))
  end.

(** ** daemonset_event_handler.go *)

(** What a handler adds to the queue. *)
Definition request (ds : DaemonSet) : string * string := (ds_namespace ds, ds_name ds).

Definition resolveControllerRef (namespace : string) (ref : OwnerReference) : M S (option DaemonSet) :=
  if negb (String.eqb (or_kind ref) "DaemonSet") || negb (String.eqb (or_apiVersion ref) "apps.kruise.io/v1alpha1")
  then ret None
  else
    do x <- read (GetDaemonSet namespace (or_name ref));
    match x with
    | inl _ => ret None
    | inr ds => ret (if String.eqb (ds_uid ds) (or_uid ref) then Some ds else None)
    end.

Definition selects (ds : DaemonSet) (pod : Pod) : bool :=
  match ds_Selector ds with
  | None => false
  | Some sel =>
      negb (is_everything sel)
      && default false (selector_matches (Some sel) (p_labels pod))
  end.
Definition getPodDaemonSets (pod : Pod) : M S (list DaemonSet) :=
  do x <- read ListDaemonSets;
  match x with
  | inl _ => ret []
  | inr l => ret (filterb (fun ds => String.eqb (ds_namespace ds) (p_namespace pod) && selects ds pod) l)
  end.

(** [deletePod]: a terminating pod lowers the counter once. *)
Definition deletePod (pod : Pod) (isDeleted : bool) : M S (list (string * string)) :=
  match GetControllerOf (p_owners pod) with
  | None => ret []
  | Some ref =>
      do x <- resolveControllerRef (p_namespace pod) ref;
      match x with
      | None => ret []
      | Some ds =>
          do loaded <- ask_local (fun l => bool_decide (p_uid pod ∈ l_deletions l));
          (if loaded : bool then ret tt
           else
             on_local (fun l => mkLocal (l_counters l) (l_backoff l) (l_newPods l) ({[p_uid pod]} ∪ l_deletions l) (l_spreads l) (l_workloads l) (l_nodeImages l)) ;;
             on_counters (fun r => Counters.DeletionObserved r (keyFunc ds))) ;;
          (if isDeleted
           then on_local (fun l => mkLocal (l_counters l) (l_backoff l) (l_newPods l) (l_deletions l ∖ {[p_uid pod]}) (l_spreads l) (l_workloads l) (l_nodeImages l))
           else ret tt) ;;
          ret [request ds]
      end
  end.

Definition podEventHandler_Delete (pod : Pod) : M S (list (string * string)) := deletePod pod true.

Definition podEventHandler_Create (pod : Pod) : M S (list (string * string)) :=
  match p_deletion pod with
  | Some _ => podEventHandler_Delete pod
  | None =>
      match GetControllerOf (p_owners pod) with
      | Some ref =>
          do x <- resolveControllerRef (p_namespace pod) ref;
          match x with
          | None => ret []
          | Some ds => on_counters (fun r => Counters.CreationObserved r (keyFunc ds)) ;; ret [request ds]
          end
      | None => do l <- getPodDaemonSets pod; ret (map request l)
      end
  end.

Definition podEventHandler_Update (oldPod curPod : Pod) : M S (list (string * string)) :=
  if String.eqb (p_resourceVersion curPod) (p_resourceVersion oldPod) then ret []
  else
    let curRef := GetControllerOf (p_owners curPod) in
    let oldRef := GetControllerOf (p_owners oldPod) in
    let controllerRefChanged := negb (bool_decide (curRef = oldRef)) in
    do old <- (match oldRef with
               | Some ref =>
                   if controllerRefChanged then
                     do x <- resolveControllerRef (p_namespace oldPod) ref;
                     ret (match x with Some ds => [request ds] | None => [] end)
                   else ret []
               | None => ret []
               end);
    match p_deletion curPod with
    | Some _ => do l <- deletePod curPod false; ret (old ++ l)
    | None =>
        match curRef with
        | Some ref =>
            do x <- resolveControllerRef (p_namespace curPod) ref;
            ret (old ++ match x with Some ds => [request ds] | None => [] end)
        | None =>
            do l <- getPodDaemonSets curPod;
            let labelChanged := negb (bool_decide (p_labels curPod = p_labels oldPod)) in
            ret (old ++ if labelChanged || controllerRefChanged then map request l else [])
        end
    end.

(** The handlers of node events. *)
Fixpoint node_created (node : Node) (l : list DaemonSet) : M S (list (string * string)) :=
  match l with
  | [] => ret []
  | ds :: l' =>
      do '(shouldSchedule, _) <- nodeShouldRunDaemonPod node ds;
      do q <- node_created node l';
      ret (if shouldSchedule : bool then request ds :: q else q)
  end.
Definition nodeEventHandler_Create (node : Node) : M S (list (string * string)) :=
  do x <- read ListDaemonSets;
  match x with
  | inl _ => ret []
  | inr l => node_created node l
  end.

Fixpoint node_updated (oldNode curNode : Node) (l : list DaemonSet) : M S (list (string * string)) :=
  match l with
  | [] => ret []
  | ds :: l' =>
      do '(oldShouldRun, oldContinue) <- nodeShouldRunDaemonPod oldNode ds;
      do '(curShouldRun, curContinue) <- nodeShouldRunDaemonPod curNode ds;
      do q <- node_updated oldNode curNode l';
      ret (if negb (Bool.eqb oldShouldRun curShouldRun) || negb (Bool.eqb oldContinue curContinue)
              || negb (Bool.eqb (NodeShouldUpdateBySelector oldNode ds) (NodeShouldUpdateBySelector curNode ds))
           then request ds :: q else q)
  end.
Definition nodeEventHandler_Update (oldNode curNode : Node) : M S (list (string * string)) :=
  if shouldIgnoreNodeUpdate oldNode curNode then ret []
  else
    do x <- read ListDaemonSets;
    match x with
    | inl _ => ret []
    | inr l => node_updated oldNode curNode l
    end.

(** The predicates of the watch on DaemonSets, as far as they write. *)
Definition daemonset_updated (oldDS newDS : DaemonSet) : M S unit :=
  if String.eqb (ds_uid oldDS) (ds_uid newDS) then ret tt
  else on_counters (fun r => Counters.DeleteExpectations r (keyFunc oldDS)).
Definition daemonset_deleted (ds : DaemonSet) : M S unit :=
  on_counters (fun r => Counters.DeleteExpectations r (keyFunc ds)) ;;
  on_local (fun l => mkLocal (l_counters l) (l_backoff l) (delete (ds_uid ds) (l_newPods l)) (l_deletions l) (l_spreads l) (l_workloads l) (l_nodeImages l)).
End Controller.
