(* ===== verification/DaemonSetSync.v ===== *)
(** * Advanced DaemonSet: writes and expectations

    The writes of [syncNodes], and the counters of expected pods that it leaves: they stand
    for the writes that the watch has still to report. *)

From S2P Require Import Prelude GoLib GoText K8s Tools Expectations Lifecycle Selector UpdateSort CloneSetDiff.
From S2P Require Import ControllerExpectations World Scheduling RevisionHistory DaemonSet.
Open Scope Z_scope.
Open Scope kruise_scope.

(** ** Writes *)

(** The names of the pods whose deletion was asked for, and of those that existing pods'
    writes disturb: a deletion, a patch or an update in place. *)
Definition named_deletes (evs : list Event) : list string :=
  omap (fun ev => match ev with EvDeleteNamed _ n _ => Some n | _ => None end) evs.
Definition created_ok (evs : list Event) : Z :=
  countb (fun ev => match ev with EvCreatePod _ ok => ok | _ => false end) evs.
Definition deleted_ok (evs : list Event) : Z :=
  countb (fun ev => match ev with EvDeleteNamed _ _ ok => ok | _ => false end) evs.
Definition touches (ev : Event) : option string :=
  match ev with
  | EvDeleteNamed _ n _ => Some n
  | EvDeletePod p _ | EvPatchPod p _ _ | EvInPlaceUpdate p _ _ _ | EvUpdatePod p _ | EvUpdatePodStatus p _ => Some (p_name p)
  | _ => None
  end.
Definition touched (evs : list Event) : list string := omap touches evs.

Lemma named_deletes_app a b : named_deletes (a ++ b) = named_deletes a ++ named_deletes b.
Proof. apply omap_app. Qed.
Lemma ds_touched_app a b : touched (a ++ b) = touched a ++ touched b.
Proof. apply omap_app. Qed.
Lemma ds_created_ok_app a b : created_ok (a ++ b) = created_ok a + created_ok b.
Proof. apply countb_app. Qed.
Lemma ds_deleted_ok_app a b : deleted_ok (a ++ b) = deleted_ok a + deleted_ok b.
Proof. apply countb_app. Qed.

(** ** Operations with their counters *)

Section Books.
Context {S : Type} (key : string).

(** The operation sends writes and lowers the counters of [key] by two numbers that satisfy
    [Q] with its result. *)
Definition books {A} (m : M S A) (Q : list Event -> A -> Z -> Z -> Prop) : Prop :=
  forall w, exists evs x y,
    w_trace (m w).1 = w_trace w ++ evs /\
    (forall a d t, Counters.left (l_counters (w_local w)) key = Some (a, d, t) ->
                   Counters.left (l_counters (w_local (m w).1)) key = Some (a - x, d - y, t)) /\
    Q evs (m w).2 x y.

Lemma books_ret {A} (a : A) (Q : list Event -> A -> Z -> Z -> Prop) : Q [] a 0 0 -> books (ret a) Q.
Proof.
  intros HQ w. exists [], 0, 0. cbn. rewrite app_nil_r. split; [done|]. split; [|done].
  intros a' d t. by rewrite !Z.sub_0_r.
Qed.

Lemma books_bind {A B} (m : M S A) (k : A -> M S B) (P : list Event -> A -> Z -> Z -> Prop)
  (Q : list Event -> B -> Z -> Z -> Prop) :
  books m P ->
  (forall evs a x y, P evs a x y -> books (k a) (fun evs' b x' y' => Q (evs ++ evs') b (x + x') (y + y'))) ->
  books (bind m k) Q.
Proof.
  intros Hm Hk w. unfold bind. destruct (Hm w) as (evs & x & y & Ht & Hc & HP).
  destruct (m w) as [w1 a]. cbn in *. destruct (Hk evs a x y HP w1) as (evs' & x' & y' & Ht' & Hc' & HQ).
  exists (evs ++ evs'), (x + x'), (y + y'). split; [by rewrite Ht', Ht, app_assoc|]. split; [|done].
  intros a0 d0 t E. rewrite (Hc' _ _ _ (Hc _ _ _ E)). do 3 f_equal; lia.
Qed.

Lemma books_mono {A} (m : M S A) (P Q : list Event -> A -> Z -> Z -> Prop) :
  books m P -> (forall evs a x y, P evs a x y -> Q evs a x y) -> books m Q.
Proof. intros Hm HPQ w. destruct (Hm w) as (evs & x & y & ? & ? & ?). exists evs, x, y. eauto. Qed.

Lemma books_call {A} (f : S -> S * A) ev (Q : list Event -> A -> Z -> Z -> Prop) :
  (forall a, Q (ev a) a 0 0) -> books (call f ev) Q.
Proof.
  intros HQ w. unfold call. destruct (f (w_server w)) as [s a]. exists (ev a), 0, 0. split; [done|].
  split; [|apply HQ]. intros a' d t. cbn. by rewrite !Z.sub_0_r.
Qed.

Lemma books_lower a d (Q : list Event -> unit -> Z -> Z -> Prop) :
  Q [] tt a d -> books (on_counters (fun r => Counters.LowerExpectations r key a d)) Q.
Proof.
  intros HQ w. exists [], a, d. cbn. rewrite app_nil_r. split; [done|]. split; [|done].
  intros x y t. apply Counters.left_lower.
Qed.

Lemma books_emits {A} (m : M S A) (Q : list Event -> A -> Z -> Z -> Prop) :
  books m Q -> emits m (fun evs r => exists x y, Q evs r x y).
Proof. intros Hm w. destruct (Hm w) as (evs & x & y & ? & _ & ?). eauto 6. Qed.
End Books.

Section Sync.
Context {S : Type} `{Api S} `{DaemonApi S} `{ApiErrors} `{GoSort}.
Context (NamespaceTerminating : error -> bool) (now : Z) (nowStr : string) (scheduled : bool).

(** The pod that is created for a node. *)
Definition daemon_pod (ds : DaemonSet) (template : PodTemplate) (nodeName : string) : Pod :=
  let pod := GetPodFromTemplate (node_template scheduled template nodeName) (ds_owner ds) in
  with_name pod (p_name pod) (ds_namespace ds).

(** The writes of a batch: the creations of a template with labels, all of them, and the
    counter lowered once for each error that is sent. *)
Definition create_writes (ds : DaemonSet) (template : PodTemplate) (names : list string) (errs : list error)
  (evs : list Event) (errs' : list error) (x y : Z) : Prop :=
  y = 0 /\ touched evs = [] /\ named_deletes evs = [] /\ deleted_ok evs = 0 /\
  creates evs = (if bool_decide (size (t_labels template) = 0%nat) then [] else map (daemon_pod ds template) names) /\
  x = len errs' - len errs /\ 0 <= x /\
  exists terminating, 0 <= terminating /\ created_ok evs + x + terminating = len names /\
    ((forall e, NamespaceTerminating e = false) -> terminating = 0).

Lemma create_writes_nil ds template errs : create_writes ds template [] errs [] errs 0 0.
Proof.
  unfold create_writes. rewrite Z.sub_diag. repeat split; try done; try lia.
  - by case_bool_decide.
  - exists 0. cbn. repeat split; lia.
Qed.

Lemma CreatePods_books key ds template name :
  books key (CreatePods (S := S) (ds_namespace ds) (node_template scheduled template name) (ds_owner ds))
    (fun evs e x y => x = 0 /\ y = 0 /\
       if bool_decide (size (t_labels template) = 0%nat) then evs = [] /\ e <> None
       else evs = [EvCreatePod (daemon_pod ds template name) (is_ok e)]).
Proof.
  unfold CreatePods. cbn -[bool_decide]. case_bool_decide as Hl.
  - by apply books_ret.
  - apply books_call. done.
Qed.

Lemma create_writes_cons ds template name names errs e evs1 evs errs1 errs' x y :
  (if bool_decide (size (t_labels template) = 0%nat) then evs1 = [] /\ e <> None
   else evs1 = [EvCreatePod (daemon_pod ds template name) (is_ok e)]) ->
  match e with
  | Some err => errs1 = if NamespaceTerminating err then errs else errs ++ [err]
  | None => errs1 = errs
  end ->
  create_writes ds template names errs1 evs errs' x y ->
  create_writes ds template (name :: names) errs (evs1 ++ evs) errs' (len errs1 - len errs + x) y.
Proof.
  intros He Hs (-> & Ht & Hd & Hk & Hc & Hx & Hx0 & t & Ht0 & Hn & Hnt).
  assert (Hlen : len errs1 - len errs = match e with Some err => if NamespaceTerminating err then 0 else 1 | None => 0 end).
  { destruct e as [err|]; subst errs1; [destruct (NamespaceTerminating err)|]; rewrite ?length_app; cbn; lia. }
  assert (Hw : touched evs1 = [] /\ named_deletes evs1 = [] /\ deleted_ok evs1 = 0 /\
    creates evs1 = (if bool_decide (size (t_labels template) = 0%nat) then [] else [daemon_pod ds template name]) /\
    created_ok evs1 = if is_ok e then 1 else 0).
  { case_bool_decide; [destruct He as [-> He]; by destruct e|]. subst evs1. cbn. by destruct (is_ok e). }
  destruct Hw as (W1 & W2 & W3 & W4 & W5).
  assert (0 <= len errs1 - len errs) by (rewrite Hlen; destruct e as [err|]; [destruct (NamespaceTerminating err)|]; lia).
  split; [done|]. rewrite ds_touched_app, named_deletes_app, ds_deleted_ok_app, creates_app, ds_created_ok_app.
  rewrite W1, W2, W3, W4, W5, Ht, Hd, Hk, Hc.
  split; [done|]. split; [done|]. split; [done|]. split; [by case_bool_decide|]. split; [lia|]. split; [lia|].
  exists (t + match e with Some err => if NamespaceTerminating err then 1 else 0 | None => 0 end).
  split; [destruct e as [err|]; [destruct (NamespaceTerminating err)|]; lia|].
  split.
  - rewrite Hlen. cbn [length]. destruct e as [err|]; [destruct (NamespaceTerminating err)|]; cbn; lia.
  - intros Hf. rewrite (Hnt Hf). destruct e as [err|]; [by rewrite Hf|lia].
Qed.

Lemma create_batch_books ds template names errs :
  books (keyFunc ds) (create_batch (S := S) NamespaceTerminating scheduled ds template names errs)
    (create_writes ds template names errs).
Proof.
  revert errs. induction names as [|name names IH]; intros errs; cbn [create_batch].
  { apply books_ret, create_writes_nil. }
  eapply books_bind; [apply CreatePods_books|]. intros evs1 e x1 y1 (-> & -> & He).
  destruct e as [err|]; [destruct (NamespaceTerminating err) eqn:Et|].
  - eapply books_mono; [apply IH|]. intros evs errs' x y Hw.
    replace (0 + x) with (len errs - len errs + x) by lia.
    eapply create_writes_cons; [exact He|cbn; by rewrite Et|exact Hw].
  - eapply books_bind with (P := fun evs _ x y => evs = [] /\ x = 1 /\ y = 0); [by apply books_lower|].
    intros ? _ ? ? (-> & -> & ->). eapply books_mono; [apply IH|]. intros evs errs' x y Hw. cbn [app].
    replace (0 + (1 + x)) with (len (errs ++ [err]) - len errs + x) by (rewrite length_app; cbn; lia).
    eapply create_writes_cons; [exact He|cbn; by rewrite Et|exact Hw].
  - eapply books_mono; [apply IH|]. intros evs errs' x y Hw.
    replace (0 + x) with (len errs - len errs + x) by lia.
    by eapply create_writes_cons.
Qed.

(** The writes of all batches from [pos] on: a part of the creations that is cut off only at
    its end, and the counter lowered for all that were not created. *)
Definition batches_writes (ds : DaemonSet) (template : PodTemplate) (names : list string) (left : Z)
  (evs : list Event) (x y : Z) : Prop :=
  y = 0 /\ touched evs = [] /\ named_deletes evs = [] /\ deleted_ok evs = 0 /\
  (exists k, Z.of_nat k <= left /\
     creates evs = if bool_decide (size (t_labels template) = 0%nat) then [] else map (daemon_pod ds template) (take k names)) /\
  exists terminating, 0 <= terminating /\ created_ok evs + x + terminating = left /\
    ((forall e, NamespaceTerminating e = false) -> terminating = 0).

Lemma batches_writes_nil ds template names : batches_writes ds template names 0 [] 0 0.
Proof.
  repeat split; try done. { exists 0%nat. by case_bool_decide. } exists 0. cbn. repeat split; lia.
Qed.

(** A batch that ends the loop: the pods that are skipped are lowered too. *)
Lemma batches_writes_last ds template names batch left errs evs errs' x y :
  0 <= batch <= left -> left <= len names ->
  create_writes ds template (slice_to names batch) errs evs errs' x y ->
  batches_writes ds template names left evs (x + (left - batch)) y.
Proof.
  intros Hb Hl (-> & Ht & Hd & Hk & Hc & Hx & Hx0 & t & Ht0 & Hn & Hnt).
  split; [done|]. split; [done|]. split; [done|]. split; [done|]. split.
  - exists (Z.to_nat batch). split; [lia|done].
  - exists t. split; [done|]. split; [|done]. unfold slice_to in Hn. rewrite length_take in Hn. lia.
Qed.

Lemma batches_writes_app ds template names batch left errs errs' evs evs' x y x' y' :
  0 <= batch <= left -> left <= len names ->
  create_writes ds template (slice_to names batch) errs evs errs' x y ->
  batches_writes ds template (slice_from names batch) (left - batch) evs' x' y' ->
  batches_writes ds template names left (evs ++ evs') (x + x') (y + y').
Proof.
  intros Hb Hl (-> & Ht & Hd & Hk & Hc & Hx & Hx0 & t & Ht0 & Hn & Hnt)
    (-> & Ht' & Hd' & Hk' & (k & Hkl & Hc') & t' & Ht0' & Hn' & Hnt').
  split; [done|]. rewrite ds_touched_app, named_deletes_app, ds_deleted_ok_app, creates_app, ds_created_ok_app.
  rewrite Ht, Hd, Hk, Hc, Ht', Hd', Hk', Hc'.
  split; [done|]. split; [done|]. split; [done|]. split.
  - exists (Z.to_nat batch + k)%nat. split; [lia|]. case_bool_decide; [done|].
    rewrite <-map_app. f_equal. unfold slice_to, slice_from. by rewrite take_take_drop.
  - exists (t + t'). split; [lia|]. unfold slice_to in Hn. rewrite length_take in Hn. split; [lia|].
    intros Hf. rewrite (Hnt Hf), (Hnt' Hf). lia.
Qed.

Lemma create_batches_books ds template names createDiff fuel : 0 <= createDiff <= len names ->
  forall batchSize pos errs, 0 <= pos <= createDiff -> createDiff - pos <= Z.of_nat fuel ->
  batchSize <= createDiff - pos -> (pos < createDiff -> 1 <= batchSize) ->
  books (keyFunc ds)
    (create_batches (S := S) NamespaceTerminating scheduled fuel ds template names createDiff batchSize pos errs)
    (fun evs _ x y => batches_writes ds template (slice_from names pos) (createDiff - pos) evs x y).
Proof.
  intros Hn. induction fuel as [|fuel IH]; intros batchSize pos errs Hpos Hf Hb Hb1; cbn [create_batches].
  { apply books_ret. replace (createDiff - pos) with 0 by lia. apply batches_writes_nil. }
  destruct (Z.leb_spec createDiff pos).
  { apply books_ret. replace (createDiff - pos) with 0 by lia. apply batches_writes_nil. }
  assert (Hl : createDiff - pos <= len (slice_from names pos)) by (unfold slice_from; rewrite length_drop; lia).
  eapply books_bind; [apply create_batch_books|]. intros evs errs' x y Hw.
  destruct (_ && _) eqn:Eb.
  - eapply books_bind with (P := fun evs _ x y => evs = [] /\ x = createDiff - (batchSize + pos) /\ y = 0); [by apply books_lower|].
    intros ? _ ? ? (-> & -> & ->). apply books_ret. rewrite !app_nil_r, !Z.add_0_r.
    replace (createDiff - (batchSize + pos)) with (createDiff - pos - batchSize) by lia.
    eapply batches_writes_last; [lia|done|exact Hw].
  - eapply books_mono.
    { apply IH; lia. }
    intros evs' ? x' y' Hw'. eapply batches_writes_app with (batch := batchSize); [lia|done|exact Hw|].
    revert Hw'. unfold slice_from. rewrite drop_drop.
    replace (Z.to_nat (pos + batchSize)) with (Z.to_nat pos + Z.to_nat batchSize)%nat by lia.
    by replace (createDiff - (pos + batchSize)) with (createDiff - pos - batchSize) by lia.
Qed.

(** The deletions: all of them, the counter lowered for each one that fails. *)
Lemma delete_batch_books ds names errs :
  books (keyFunc ds) (delete_batch (S := S) ds names errs)
    (fun evs _ x y => x = 0 /\ creates evs = [] /\ created_ok evs = 0 /\ touched evs = names /\
       named_deletes evs = names /\ deleted_ok evs + y = len names).
Proof.
  revert errs. induction names as [|name names IH]; intros errs; cbn [delete_batch]; [by apply books_ret|].
  eapply books_bind with (P := fun evs e x y => evs = [EvDeleteNamed (ds_namespace ds) name (is_ok e)] /\ x = 0 /\ y = 0);
    [by apply books_call|].
  intros ? e ? ? (-> & -> & ->). destruct e as [err|].
  - eapply books_bind with (P := fun evs _ x y => evs = [] /\ x = 0 /\ y = 1); [by apply books_lower|].
    intros ? _ ? ? (-> & -> & ->). eapply books_mono; [apply IH|].
    intros evs _ x y (-> & Hc & Hk & Ht & Hd & Hy). cbn [app].
    split; [done|]. unfold touched, named_deletes, deleted_ok in *. cbn. rewrite Ht, Hd.
    repeat split; try done. lia.
  - eapply books_mono; [apply IH|]. intros evs _ x y (-> & Hc & Hk & Ht & Hd & Hy).
    split; [done|]. unfold touched, named_deletes, deleted_ok in *. cbn. rewrite Ht, Hd.
    repeat split; try done. lia.
Qed.

(** [sync_nodes]: the deletions are a beginning of the list, and the counters are set and
    then lowered to the writes that the watch has to report. *)
Definition sync_writes (ds : DaemonSet) (podsToDelete nodes : list string) (hash : string) (evs : list Event) : Prop :=
  let burst := getBurstReplicas ds in
  touched evs = slice_to podsToDelete burst /\ named_deletes evs = slice_to podsToDelete burst /\
  exists k, Z.of_nat k <= Z.min (len nodes) burst /\
    creates evs = if bool_decide (size (t_labels (pod_template ds hash)) = 0%nat) then []
                  else map (daemon_pod ds (pod_template ds hash)) (take k nodes).

Lemma slice_to_min {A} (l : list A) n : slice_to l (Z.min (len l) n) = slice_to l n.
Proof.
  unfold slice_to. destruct (Z.le_gt_cases (len l) n).
  - rewrite Z.min_l, Nat2Z.id by lia. rewrite firstn_all. symmetry. apply take_ge. lia.
  - by rewrite Z.min_r by lia.
Qed.

Lemma sync_nodes_spec ds podsToDelete nodes hash w : 0 <= getBurstReplicas ds ->
  exists evs terminating,
    let '(w', r) := sync_nodes NamespaceTerminating now scheduled ds podsToDelete nodes hash w in
    w_trace w' = w_trace w ++ evs /\ r <> Panic /\ sync_writes ds podsToDelete nodes hash evs /\
    Counters.left (l_counters (w_local w')) (keyFunc ds) = Some (created_ok evs + terminating, deleted_ok evs, now) /\
    0 <= terminating /\ ((forall e, NamespaceTerminating e = false) -> terminating = 0).
Proof.
  intros Hb. unfold sync_nodes.
  set (c := Z.min (len nodes) (getBurstReplicas ds)). set (d := Z.min (len podsToDelete) (getBurstReplicas ds)).
  assert (Hc : 0 <= c <= len nodes) by lia. assert (Hd : 0 <= d <= len podsToDelete) by lia.
  unfold bind at 1. rewrite (proj2 (Z.ltb_ge _ _)) by lia.
  match goal with |- context [on_counters ?f w] => set (w0 := (on_counters f w).1); change (on_counters f w) with (w0, tt) end.
  assert (Hset : Counters.left (l_counters (w_local w0)) (keyFunc ds) = Some (c, d, now)) by apply Counters.left_set.
  assert (Hm : books (keyFunc ds) (
     do errs <- create_batches (S := S) NamespaceTerminating scheduled (Z.to_nat c) ds (pod_template ds hash) nodes c (Z.min c 1) 0 [];
     do errs0 <- delete_batch ds (slice_to podsToDelete d) errs; ret (Value (NewAggregate errs0)))
     (fun evs r x y => r <> Panic /\ sync_writes ds podsToDelete nodes hash evs /\ deleted_ok evs + y = d /\
        exists t, 0 <= t /\ created_ok evs + x + t = c /\ ((forall e, NamespaceTerminating e = false) -> t = 0))).
  { eapply books_bind; [apply create_batches_books; lia|].
    intros evs errs x y (-> & Ht & Hn & Hk & (k & Hkl & Hcr) & t & Ht0 & Hsum & Hnt).
    eapply books_bind; [apply delete_batch_books|].
    intros evs' errs' x' y' (-> & Hc' & Hk' & Ht' & Hn' & Hy'). apply books_ret.
    rewrite !app_nil_r, !Z.add_0_r. split; [done|].
    rewrite !Z.sub_0_r in *. split.
    - unfold sync_writes. rewrite ds_touched_app, named_deletes_app, creates_app, Ht, Hn, Ht', Hn', Hc', app_nil_r.
      unfold d. rewrite slice_to_min. split; [done|]. split; [done|]. exists k. split; [lia|].
      rewrite Hcr. unfold slice_from. by rewrite drop_0.
    - rewrite ds_deleted_ok_app, ds_created_ok_app, Hk, Hk'. unfold slice_to in Hy'. rewrite length_take in Hy'.
      split; [lia|]. exists t. split; [done|]. split; [lia|done]. }
  destruct (Hm w0) as (evs & x & y & Htr & Hl & Hr & Hw & Hy & t & Ht0 & Hsum & Hnt). exists evs, t.
  destruct (bind _ _ w0) as [w' r]. cbn in *. rewrite (Hl _ _ _ Hset).
  split; [done|]. split; [done|]. split; [done|]. split; [|done]. do 3 f_equal; lia.
Qed.

(** ** The watch *)

(** What the watch reports of the pods of a set: a new pod, a pod that is terminating, with
    its last version, and a pod that is gone. *)
Inductive Delivery := Created (p : Pod) | Terminating (old p : Pod) | Deleted (p : Pod).
Definition deliver (d : Delivery) : M S unit :=
  match d with
  | Created p => podEventHandler_Create p ;; ret tt
  | Terminating old p => podEventHandler_Update old p ;; ret tt
  | Deleted p => podEventHandler_Delete p ;; ret tt
  end.
Fixpoint deliver_all (l : list Delivery) : M S unit :=
  match l with
  | [] => ret tt
  | d :: l' => deliver d ;; deliver_all l'
  end.

(** A report about a pod of the set that the API server can send. *)
Definition of_set (ds : DaemonSet) (p : Pod) : Prop :=
  GetControllerOf (p_owners p) = Some (ds_owner ds) /\ p_namespace p = ds_namespace ds.
Definition report_of (ds : DaemonSet) (d : Delivery) : Prop :=
  match d with
  | Created p => of_set ds p /\ p_deletion p = None
  | Terminating old p => of_set ds p /\ of_set ds old /\ p_deletion p <> None /\ p_resourceVersion p <> p_resourceVersion old
  | Deleted p => of_set ds p
  end.

(** Nothing is reported of a pod after it is gone. *)
Fixpoint in_order (gone : gset string) (l : list Delivery) : Prop :=
  match l with
  | [] => True
  | Created _ :: l' => in_order gone l'
  | Terminating _ p :: l' => p_uid p ∉ gone /\ in_order gone l'
  | Deleted p :: l' => p_uid p ∉ gone /\ in_order ({[p_uid p]} ∪ gone) l'
  end.

(** The new pods and the pods going or gone that a list of reports is about. *)
Definition new_reports (l : list Delivery) : Z := countb (fun d => match d with Created _ => true | _ => false end) l.
Fixpoint gone_uids (l : list Delivery) : gset string :=
  match l with
  | [] => ∅
  | Created _ :: l' => gone_uids l'
  | Terminating _ p :: l' | Deleted p :: l' => {[p_uid p]} ∪ gone_uids l'
  end.

(** The set is found by its name, as the one that owns the pods. *)
Definition resolves (ds : DaemonSet) (w : World S) : Prop :=
  exists ds', GetDaemonSet (ds_namespace ds) (ds_name ds) (w_server w) = inr ds' /\
    ds_uid ds' = ds_uid ds /\ keyFunc ds' = keyFunc ds.

Lemma resolve_owner ds w : resolves ds w ->
  exists w' ds', resolveControllerRef (ds_namespace ds) (ds_owner ds) w = (w', Some ds') /\ keyFunc ds' = keyFunc ds /\
    w_local w' = w_local w /\ w_server w' = w_server w /\ w_trace w' = w_trace w.
Proof.
  intros (ds' & Hg & Hu & Hk). unfold resolveControllerRef. cbn.
  unfold read, call, bind. rewrite Hg. rewrite Hu, String.eqb_refl. eexists _, ds'. split; [reflexivity|].
  cbn. by rewrite app_nil_r.
Qed.

Definition counters_of (ds : DaemonSet) (w : World S) : option (Z * Z * Z) :=
  Counters.left (l_counters (w_local w)) (keyFunc ds).

(** One report of a pod that is going: counted unless the pod is in the cache. *)
Lemma deletePod_spec ds p b w a d t : resolves ds w -> of_set ds p -> counters_of ds w = Some (a, d, t) ->
  let w' := (deletePod p b w).1 in
  resolves ds w' /\
  counters_of ds w' = Some (a, if bool_decide (p_uid p ∈ l_deletions (w_local w)) then d else d - 1, t) /\
  l_deletions (w_local w') = if b then l_deletions (w_local w) ∖ {[p_uid p]} else {[p_uid p]} ∪ l_deletions (w_local w).
Proof.
  intros Hr [Ho Hn] Hc. destruct (deletePod p b w) as [w' q] eqn:Ed. cbn -[bool_decide].
  unfold deletePod in Ed. rewrite Ho, Hn in Ed.
  destruct (resolve_owner ds w Hr) as (w1 & ds' & E & Hk & El & Es & _).
  unfold bind at 1 in Ed. rewrite E in Ed. clear E. cbn -[bool_decide] in Ed. rewrite El in Ed.
  assert (Hr1 : resolves ds w1) by (unfold resolves; by rewrite Es).
  unfold counters_of in *. pose proof (Counters.left_lower _ _ 0 1 _ _ _ Hc) as Hlow. rewrite Z.sub_0_r in Hlow.
  case_bool_decide as Hin; destruct b; cbn in Ed; injection Ed as <- <-; cbn; rewrite ?El, ?Hk;
    (split; [done|]); (split; [done|]); set_solver.
Qed.

Lemma in_order_gone gone l : in_order gone l -> gone_uids l ## gone.
Proof.
  revert gone. induction l as [|d l IH]; intros gone Hl; [set_solver|].
  destruct d as [p|old p|p]; cbn in *; [by apply IH| |];
    destruct Hl as [Hp Hl]; specialize (IH _ Hl); set_solver.
Qed.

(** The size of a set grows by one for an element outside of what is left out. *)
Lemma size_union_diff (u : string) (G D : gset string) :
  Z.of_nat (size (({[u]} ∪ G) ∖ D)) = (if bool_decide (u ∈ D) then 0 else 1) + Z.of_nat (size (G ∖ ({[u]} ∪ D))).
Proof.
  case_bool_decide as Hu.
  - rewrite Z.add_0_l. do 2 f_equal. set_solver.
  - replace (({[u]} ∪ G) ∖ D) with ({[u]} ∪ (G ∖ ({[u]} ∪ D))).
    + rewrite size_union, size_singleton by set_solver. lia.
    + apply set_eq. intros x. destruct (decide (x = u)); set_solver.
Qed.

Lemma deliver_all_spec ds l w a d t gone : resolves ds w -> Forall (report_of ds) l -> in_order gone l ->
  counters_of ds w = Some (a, d, t) ->
  counters_of ds (deliver_all l w).1
  = Some (a - new_reports l, d - Z.of_nat (size (gone_uids l ∖ l_deletions (w_local w))), t).
Proof.
  revert w a d gone. induction l as [|x l IH]; intros w a d gone Hr Hl Ho Hc.
  { cbn. rewrite Hc. replace (∅ ∖ l_deletions (w_local w)) with (∅ : gset string) by set_solver.
    rewrite size_empty. cbn. by rewrite !Z.sub_0_r. }
  apply Forall_cons in Hl as [Hx Hl]. cbn [deliver_all]. unfold bind at 1.
  destruct x as [p|old p|p]; cbn [deliver] in *.
  - destruct Hx as [[Hp Hn] Hd].
    destruct (bind _ _ w) as [w1 u] eqn:E. unfold podEventHandler_Create in E. rewrite Hd, Hp, Hn in E.
    destruct (resolve_owner ds w Hr) as (w0 & ds' & Er & Hk & El & Es & _).
    unfold bind at 1 in E. unfold bind at 1 in E. rewrite Er in E. cbn in E. injection E as <- <-.
    cbn [in_order] in Ho. erewrite (IH _ (a - 1) d gone); [..|done|exact Ho|].
    + cbn. rewrite El. unfold new_reports. cbn. do 3 f_equal. lia.
    + unfold resolves. cbn. by rewrite Es.
    + unfold counters_of in *. cbn. rewrite El, Hk. unfold Counters.CreationObserved.
      rewrite (Counters.left_lower _ _ 1 0 _ _ _ Hc). by rewrite Z.sub_0_r.
  - destruct Hx as (Hp & [Hold _] & Hd & Hv). destruct Ho as [Hg Ho].
    destruct (bind _ _ w) as [w1 u] eqn:E. unfold podEventHandler_Update in E.
    rewrite (proj2 (String.eqb_neq _ _) Hv) in E. destruct Hp as [Hp Hn]. rewrite Hold, Hp in E.
    rewrite bool_decide_eq_true_2 in E by done. cbn [negb] in E.
    destruct (p_deletion p); [|done]. pose proof (deletePod_spec ds p false w a d t Hr (conj Hp Hn) Hc) as Hs.
    unfold bind, ret in E. destruct (deletePod p false w) as [w2 q]. cbn -[bool_decide] in Hs. injection E as <- <-.
    destruct Hs as (Hr2 & Hc2 & Hl2). erewrite IH; [|done|done|exact Ho|exact Hc2].
    cbn [gone_uids]. rewrite Hl2, size_union_diff. unfold new_reports. cbn -[bool_decide].
    do 2 f_equal. case_bool_decide; f_equal; lia.
  - destruct Ho as [Hg Ho]. destruct (bind _ _ w) as [w1 u] eqn:E. unfold podEventHandler_Delete in E.
    pose proof (deletePod_spec ds p true w a d t Hr Hx Hc) as Hs.
    unfold bind, ret in E. destruct (deletePod p true w) as [w2 q]. cbn -[bool_decide] in Hs. injection E as <- <-.
    destruct Hs as (Hr2 & Hc2 & Hl2). erewrite IH; [|done|done|exact Ho|exact Hc2].
    cbn [gone_uids]. rewrite Hl2, size_union_diff. unfold new_reports. cbn -[bool_decide].
    pose proof (in_order_gone _ _ Ho) as Hdis.
    replace (gone_uids l ∖ (l_deletions (w_local w) ∖ {[p_uid p]})) with (gone_uids l ∖ ({[p_uid p]} ∪ l_deletions (w_local w)))
      by set_solver.
    do 2 f_equal. case_bool_decide; f_equal; lia.
Qed.

(** C7: In a namespace that is not being deleted (no creation is refused because the namespace
    terminates), the counters of expected pods stand exactly for the writes that the watch has
    still to report.  Take a [syncNodes] whose hooks are settled, with a burst limit that is not
    negative, and any reports on pods of the set in the order the API server sends them: a new
    pod once, a terminating pod any number of times, a pod that is gone once and last.  As long as
    the set is found under its name, the reports are about the pods that were created and
    deleted, none of which the handlers have seen before, and until the timeout, the controller
    takes its expectations for satisfied if and only if every creation and every deletion that
    succeeded has been reported; creations that failed or were skipped, failed deletions and
    repeated reports of a terminating pod leave nothing to wait for and nothing counted twice.
    (A creation refused because the namespace terminates is not observed, so that the controller
    waits for it until the timeout.) *)
Theorem daemon_expectations_settle ds podsToDelete nodes hash w evs l later :
  0 <= getBurstReplicas ds -> (forall e, NamespaceTerminating e = false) ->
  let w1 := (sync_nodes NamespaceTerminating now scheduled ds podsToDelete nodes hash w).1 in
  w_trace w1 = w_trace w ++ evs -> resolves ds w1 ->
  Forall (report_of ds) l -> in_order ∅ l -> gone_uids l ## l_deletions (w_local w1) ->
  new_reports l <= created_ok evs -> Z.of_nat (size (gone_uids l)) <= deleted_ok evs ->
  later - now <= Counters.ExpectationsTimeout ->
  Counters.SatisfiedExpectations (l_counters (w_local (deliver_all l w1).1)) (keyFunc ds) later
  = bool_decide (new_reports l = created_ok evs /\ Z.of_nat (size (gone_uids l)) = deleted_ok evs).
Proof.
  intros Hb Hnt w1 Htr Hr Hl Ho Hd Hc Hg Ht.
  destruct (sync_nodes_spec ds podsToDelete nodes hash w Hb) as (evs' & t & Hs).
  unfold w1 in *. clear w1. destruct (sync_nodes _ _ _ _ _ _ _ w) as [w1 r]. cbn [fst] in *.
  destruct Hs as (Htr' & _ & _ & Hleft & _ & Ht0). rewrite Htr in Htr'. apply app_inv_head in Htr' as <-.
  rewrite (Ht0 Hnt), Z.add_0_r in Hleft.
  rewrite (Counters.satisfied_left _ _ _ _ _ _ (deliver_all_spec ds l w1 _ _ _ _ Hr Hl Ho Hleft)) by done.
  replace (gone_uids l ∖ l_deletions (w_local w1)) with (gone_uids l) by set_solver.
  apply Bool.eq_iff_eq_true. rewrite andb_true_iff, !Z.leb_le, bool_decide_eq_true. lia.
Qed.
End Sync.

(** ** A concrete server *)

(** The objects of a server; the writes of the pods named in [sv_denied] fail. *)
Record DSServer := mkServer {
  sv_sets : list DaemonSet;
  sv_pods : list Pod;
  sv_nodes : list Node;
  sv_denied : gset string;
}.
Definition with_pods (s : DSServer) (pods : list Pod) : DSServer := mkServer (sv_sets s) pods (sv_nodes s) (sv_denied s).
Definition found {A} (f : A -> bool) (l : list A) : error + A :=
  match find f l with Some x => inr x | None => inl "not found"%string end.
Definition write_ok (s : DSServer) (name : string) (s' : DSServer) : DSServer * option error :=
  if bool_decide (name ∈ sv_denied s) then (s, Some "denied"%string) else (s', None).

#[export] Instance ex_ds_api : Api DSServer := {|
  CreatePod := fun p s =>
    let n := default ""%string (GetTargetNodeName p) in
    write_ok s n (with_pods s (sv_pods s ++ [with_name p ("new-" +:+ n) (p_namespace p)]));
  DeletePod := fun p s => write_ok s (p_name p) (with_pods s (filterb (fun q => negb (String.eqb (p_name q) (p_name p))) (sv_pods s)));
  CreatePVC := fun _ s => (s, None);
  DeletePVC := fun _ s => (s, None);
  PatchPod := fun p patch s => (s, inr (with_labels p (patch_labels patch ∪ p_labels p)));
  AddNotReadyKey := fun _ _ s => (s, None);
  RemoveNotReadyKey := fun _ _ s => (s, None);
  InPlaceRefresh := fun _ _ s => (s, mkRefresh None 0);
  CanUpdateInPlace := fun _ _ _ => true;
  InPlaceUpdatePod := fun p _ rev _ _ s => (s, mkUpdate true None 0 "2");
  CheckPodUpdateCompleted := fun _ => None;
  PodUnavailableBudgetValidatePod := fun _ s => (s, (true, None));
|}.
#[export] Instance ex_daemon_api : DaemonApi DSServer := {|
  GetDaemonSet := fun ns n s => found (fun d => String.eqb (ds_namespace d) ns && String.eqb (ds_name d) n) (sv_sets s);
  ListDaemonSets := fun s => inr (sv_sets s);
  GetLiveDaemonSet := fun ns n s => found (fun d => String.eqb (ds_namespace d) ns && String.eqb (ds_name d) n) (sv_sets s);
  UpdateDaemonSetStatus := fun _ s => (s, None);
  ListDaemonNodes := fun s => inr (sv_nodes s);
  GetNode := fun n s => found (fun d => String.eqb (n_name d) n) (sv_nodes s);
  GetPodNamed := fun ns n s => found (fun p => String.eqb (p_namespace p) ns && String.eqb (p_name p) n) (sv_pods s);
  DeletePodNamed := fun ns n s =>
    write_ok s n (with_pods s (filterb (fun q => negb (String.eqb (p_name q) n)) (sv_pods s)));
  ClaimDaemonPods := fun _ s => (s, inr (sv_pods s));
  ClaimHistories := fun _ s => (s, inr []);
  GetRevision := fun _ _ s => inl "not found"%string;
  CreateRevision := fun _ r s => (s, inr r);
  UpdateRevision := fun _ r s => (s, inr r);
  DeleteRevision := fun _ _ s => (s, None);
  GetNativeCollisions := fun _ _ s => inl "not found"%string;
  UpdateNativeCollisions := fun _ _ _ s => (s, None);
  CreateImagePullJobs := fun _ _ _ s => (s, None);
  DeleteImagePullJobs := fun _ s => (s, None);
|}.

Definition ex_status : DaemonSetStatus := mkDSStatus 0 0 0 0 0 0 0 0 None "".
Definition ex_template : PodTemplate := mkTemplate {[ "app"%string := "a"%string ]} ∅ [] [] [] [] "" no_placement.
Definition ex_set (maxUnavailable maxSurge : Z) (partition : option Z) : DaemonSet :=
  mkDS "d" "ns" "uid" 1 None ∅ (Some (mkSel {[ "app"%string := "a"%string ]} [])) ex_template
    RollingUpdateDaemonSetStrategyType
    (Some (mkRollingDS "Standard" (Some (FromInt maxUnavailable)) (Some (FromInt maxSurge)) None partition None))
    0 None None None ex_status.
Definition ex_node (n : string) : Node := mkNode n "1" ∅ [] false [] "".
(** A pod of the set on a node, of a revision, ready or not. *)
Definition ex_pod (n hash : string) (ready : bool) : Pod :=
  mkPod ("p-" +:+ n) "ns" ("u-" +:+ n) "1" {[ ControllerRevisionHashLabelKey := hash ]} ∅ [] 0 None n "Running"
    (if ready then [mkCond PodReady ConditionTrue 1 "" ""] else []) [] [] [] [] [ds_owner (ex_set 1 0 None)] "" "" [] no_placement.
Definition ex_ds_world (s : DSServer) : World DSServer := mkWorld s ∅ ∅ ∅ no_local ∅ [].

(** Two creations, one refused, and one deletion; the watch reports the new pod, the old pod
    twice as it terminates, and its end. *)
Lemma daemon_expectations_settle_witness :
  let ds := ex_set 1 0 None in
  let old := ex_pod "n9" "h" true in
  let gone := mkPod "p-n9" "ns" "u-n9" "2" ∅ ∅ [] 0 (Some 7) "n9" "Running" [] [] [] [] [] [ds_owner ds] "" "" [] no_placement in
  let w := ex_ds_world (mkServer [ds] [old] [] {["n2"%string]}) in
  let w1 := (sync_nodes (S := DSServer) (H1 := toy_errors) (fun _ => false) 100 true ds ["p-n9"]%string ["n1"; "n2"]%string "h" w).1 in
  let l := [Created (ex_pod "n1" "h" true); Terminating old gone; Terminating old gone; Deleted gone] in
  Counters.SatisfiedExpectations (l_counters (w_local (deliver_all l w1).1)) "ns/d" 200 = true.
Proof.
  intros ds old gone w w1 l.
  transitivity (bool_decide (new_reports l = 1 /\ Z.of_nat (size (gone_uids l)) = 1)); [|by vm_compute].
  pose proof (daemon_expectations_settle (S := DSServer) (H1 := toy_errors) (fun _ => false) 100 true ds ["p-n9"]%string
    ["n1"; "n2"]%string "h" w (w_trace w1) l 200) as Ht.
  apply Ht; clear Ht.
  - by vm_compute.
  - done.
  - done.
  - exists ds. by vm_compute.
  - repeat constructor; by vm_compute.
  - vm_compute. set_solver.
  - vm_compute. set_solver.
  - by vm_compute.
  - by vm_compute.
  - by vm_compute.
Defined.

(** The condition on the namespace is needed: a creation that is refused because the namespace
    terminates is still expected, although no report of it can come. *)
Example terminating_namespace_waits :
  let ds := ex_set 1 0 None in
  let w := ex_ds_world (mkServer [ds] [] [] {["n2"%string]}) in
  let w1 err := (sync_nodes (S := DSServer) (H1 := toy_errors) err 100 true ds [] ["n2"]%string "h" w).1 in
  Counters.SatisfiedExpectations (l_counters (w_local (w1 (fun _ => false)))) "ns/d" 200 = true /\
  Counters.SatisfiedExpectations (l_counters (w_local (w1 (fun _ => true)))) "ns/d" 200 = false.
Proof. by vm_compute. Qed.

(** A lookup by name finds a pod of that name. *)
Lemma ex_ds_named ns n s p : GetPodNamed (S := DSServer) ns n s = inr p -> p_name p = n.
Proof.
  cbn. unfold found. destruct (find _ _) as [q|] eqn:E; [|done]. intros [= <-].
  apply find_some in E as [_ E]. apply andb_true_iff in E as [_ E]. by apply String.eqb_eq.
Qed.
Definition ex_revision (hash : string) : ControllerRevision :=
  mkRevision ("d-" +:+ hash) 1 {[ ControllerRevisionHashLabelKey := hash ]} "" 0 None "" "" ∅.
