(* ===== verification/DaemonSetRolling.v ===== *)
(** * Advanced DaemonSet: rolling updates

    What one [rollingUpdate] takes away and creates.  Without surge it takes away available
    pods only within [maxUnavailable]; with surge it deletes an old pod only where a new one
    is available, and surges within [maxSurge]; the partition keeps its share of old pods. *)

From S2P Require Import Prelude GoLib GoText K8s Tools Expectations Lifecycle Selector UpdateSort CloneSetDiff.
From S2P Require Import ControllerExpectations World Scheduling RevisionHistory DaemonSet DaemonSetSync.
Open Scope Z_scope.
Open Scope kruise_scope.

(** ** The state of a node *)

Section Nodes.
Context (now : Z) (ds : DaemonSet) (hash : string).

Definition available (p : Pod) : bool := IsPodAvailable_k8s p (ds_MinReadySeconds ds) now.

(** A node without surge: [Down n] counts [n] times as unavailable, [Stale] has an old pod that
    is not available, [Outdated] an old pod that is, [Serves] a new pod that is. *)
Inductive NodeState := Down (n : Z) | Stale (p : Pod) | Outdated (p : Pod) | Serves (p : Pod).
Definition node_state (pods : list Pod) : NodeState :=
  match findUpdatedPodsOnNode ds pods hash with
  | None => Down 1
  | Some (newPod, oldPod) =>
      if Bool.eqb (isPodNilOrPreDeleting oldPod) (isPodNilOrPreDeleting newPod) then Down 1
      else
        match newPod, oldPod with
        | Some p, _ =>
            if isPodPreDeleting p then Down (if available p then 1 else 2)
            else if available p then Serves p else Down 1
        | None, Some p => if available p then Outdated p else Stale p
        | None, None => Down 1
        end
  end.

Definition weight (s : NodeState) : Z := match s with Down n => n | _ => 0 end.
Definition is_down (s : NodeState) : bool := match s with Down _ => true | _ => false end.
Definition is_stale (s : NodeState) : bool := match s with Stale _ => true | _ => false end.
Definition serving (s : NodeState) : bool := match s with Outdated _ | Serves _ => true | _ => false end.
(** The pod of a node that is not down. *)
Definition state_pod (s : NodeState) : option Pod :=
  match s with Down _ => None | Stale p | Outdated p | Serves p => Some p end.
Definition stale_name (s : NodeState) : option string := match s with Stale p => Some (p_name p) | _ => None end.
Definition outdated_name (s : NodeState) : option string := match s with Outdated p => Some (p_name p) | _ => None end.

Lemma weight_down pods : is_down (node_state pods) = true -> 1 <= weight (node_state pods).
Proof.
  unfold node_state. destruct (findUpdatedPodsOnNode _ _ _) as [[[p|] [q|]]|]; cbn [weight is_down]; try lia;
    destruct (Bool.eqb _ _); cbn; try lia;
    repeat match goal with |- context [if ?b then _ else _] => destruct b end; cbn; lia.
Qed.
Lemma weight_up pods : is_down (node_state pods) = false -> weight (node_state pods) = 0.
Proof. by destruct (node_state pods). Qed.

(** ** The plan without surge *)

Lemma roll_node_state maxUnavailable plan n pods :
  roll_node now ds hash maxUnavailable plan (n, pods) =
  match node_state pods with
  | Down k => mkRoll (rp_unavailable plan + k) (rp_allowed plan) (rp_candidates plan)
  | Stale p => mkRoll (rp_unavailable plan) (rp_allowed plan ++ [p_name p]) (rp_candidates plan)
  | Outdated p => if maxUnavailable <=? rp_unavailable plan then plan
                  else mkRoll (rp_unavailable plan) (rp_allowed plan) (rp_candidates plan ++ [p_name p])
  | Serves p => plan
  end.
Proof.
  destruct plan as [u al ca]. unfold roll_node, node_state, available. cbn [snd rp_unavailable rp_allowed rp_candidates].
  destruct (findUpdatedPodsOnNode _ _ _) as [[[p|] [q|]]|]; try done;
    destruct (Bool.eqb _ _); try done;
    destruct (IsPodAvailable_k8s _ _ _); cbn; try done; destruct (isPodPreDeleting p); try done;
    f_equal; lia.
Qed.

Section Plan.
Context (on : string -> list Pod) (maxUnavailable : Z).
Local Abbreviation st n := (node_state (on n)).
Local Abbreviation entries l := (map (fun n => (n, on n)) l).

Lemma roll_plan_spec chosen plan :
  let plan' := fold_left (roll_node now ds hash maxUnavailable) (entries chosen) plan in
  rp_unavailable plan' = rp_unavailable plan + sumZ (fun n => weight (st n)) chosen /\
  rp_allowed plan' = rp_allowed plan ++ omap (fun n => stale_name (st n)) chosen /\
  exists l, l `sublist_of` omap (fun n => outdated_name (st n)) chosen /\ rp_candidates plan' = rp_candidates plan ++ l.
Proof.
  revert plan. induction chosen as [|n chosen IH]; intros plan; cbn [map fold_left].
  { cbn. rewrite !app_nil_r, Z.add_0_r. split; [done|]. split; [done|]. exists []. by rewrite app_nil_r. }
  destruct (IH (roll_node now ds hash maxUnavailable plan (n, on n))) as (E1 & E2 & l & Hl & E3).
  cbn zeta. rewrite E1, E2, E3. rewrite roll_node_state. cbn [sumZ foldr omap list_omap].
  destruct (st n) as [k|p|p|p]; cbn; rewrite ?app_nil_r.
  - split; [unfold sumZ; lia|]. split; [done|]. by exists l.
  - split; [unfold sumZ; lia|]. split; [by rewrite <-app_assoc|]. by exists l.
  - destruct (maxUnavailable <=? rp_unavailable plan); cbn.
    + split; [unfold sumZ; lia|]. split; [done|]. exists l. split; [by apply sublist_cons|done].
    + split; [unfold sumZ; lia|]. split; [done|]. exists (p_name p :: l). rewrite <-app_assoc. split; [by apply sublist_skip|done].
  - split; [unfold sumZ; lia|]. split; [done|]. by exists l.
Qed.

(** What the update deletes: all stale pods, and outdated ones within the budget. *)
Lemma roll_deletes_spec chosen :
  let D := roll_deletes maxUnavailable (roll_plan now ds hash maxUnavailable (entries chosen)) in
  exists l, D = omap (fun n => stale_name (st n)) chosen ++ l /\
    l `sublist_of` omap (fun n => outdated_name (st n)) chosen /\
    len l <= Z.max (maxUnavailable - sumZ (fun n => weight (st n)) chosen) 0.
Proof.
  cbn zeta. unfold roll_plan. destruct (roll_plan_spec chosen (mkRoll 0 [] [])) as (E1 & E2 & l & Hl & E3).
  cbn [rp_unavailable rp_allowed rp_candidates] in *. unfold roll_deletes. rewrite E1, E2, E3. cbn [app].
  eexists. split; [reflexivity|]. split.
  - etrans; [|exact Hl]. unfold slice_to. apply sublist_take.
  - unfold slice_to. rewrite length_take. lia.
Qed.
End Plan.
End Nodes.

(** ** Pods and their nodes *)

Lemma find_updated_elem ds hash pods newPod oldPod a b :
  find_updated ds pods hash newPod oldPod = Some (a, b) ->
  (forall p, a = Some p -> newPod = Some p \/ p ∈ pods) /\ (forall p, b = Some p -> oldPod = Some p \/ p ∈ pods).
Proof.
  revert newPod oldPod. induction pods as [|q pods IH]; intros newPod oldPod E; cbn in E.
  { injection E as <- <-. auto. }
  assert (Hgen : forall n o, find_updated ds pods hash n o = Some (a, b) ->
    (n = newPod \/ n = Some q) -> (o = oldPod \/ o = Some q) ->
    (forall p, a = Some p -> newPod = Some p \/ p ∈ q :: pods) /\ (forall p, b = Some p -> oldPod = Some p \/ p ∈ q :: pods)).
  { intros n o E' Hn Ho. destruct (IH _ _ E') as [H1 H2].
    split; intros p Hp; [destruct (H1 p Hp); destruct Hn as [Hn|Hn]|destruct (H2 p Hp); destruct Ho as [Ho|Ho]];
      set_solver. }
  destruct (p_deletion q); [by eapply Hgen; eauto|].
  destruct (IsPodUpdated _ _ _); [destruct newPod|destruct oldPod]; try done; eapply Hgen; eauto.
Qed.

Lemma findUpdated_elem ds hash pods a b p : findUpdatedPodsOnNode ds pods hash = Some (a, b) ->
  a = Some p \/ b = Some p -> p ∈ pods.
Proof.
  intros E Hp. apply find_updated_elem in E as [H1 H2]. destruct Hp as [Hp|Hp]; [destruct (H1 p Hp)|destruct (H2 p Hp)]; done.
Qed.

Lemma state_pod_elem now ds hash pods p : state_pod (node_state now ds hash pods) = Some p -> p ∈ pods.
Proof.
  unfold node_state. destruct (findUpdatedPodsOnNode ds pods hash) as [[a b]|] eqn:E; [|done].
  pose proof (findUpdated_elem _ _ _ _ _ p E) as Hp.
  destruct (Bool.eqb _ _); [done|]. destruct a as [q|], b as [r|]; try done;
    repeat match goal with |- context [if ?b then _ else _] => destruct b end; cbn; naive_solver.
Qed.

(** The pods of a node are those whose target it is. *)
Definition targets (n : string) (p : Pod) : bool := bool_decide (GetTargetNodeName p = Some n).

Lemma pods_on_nodes pods n : pods_on (nodes_to_pods pods) n = filterb (targets n) pods.
Proof.
  unfold nodes_to_pods.
  assert (Hg : forall m, pods_on (fold_left add_pod pods m) n = pods_on m n ++ filterb (targets n) pods).
  { induction pods as [|p pods IH]; intros m; cbn [fold_left filterb]; [by rewrite app_nil_r|].
    rewrite IH. replace (targets n p) with (bool_decide (GetTargetNodeName p = Some n)) by done.
    unfold add_pod. destruct (GetTargetNodeName p) as [k|]; [|by rewrite bool_decide_eq_false_2].
    unfold pods_on at 1. case_bool_decide as Hk.
    - injection Hk as ->. rewrite lookup_insert_eq. cbn. by rewrite <-app_assoc.
    - by rewrite lookup_insert_ne by congruence. }
  rewrite Hg. unfold pods_on. by rewrite lookup_empty.
Qed.

Section Budget.
Context (now : Z) (ds : DaemonSet) (hash : string) (pods : list Pod) (maxUnavailable : Z).
Hypothesis names_unique : NoDup (map p_name pods).
Definition on (n : string) : list Pod := pods_on (nodes_to_pods pods) n.
Local Abbreviation st n := (node_state now ds hash (on n)).

Lemma on_elem n p : p ∈ on n <-> p ∈ pods /\ GetTargetNodeName p = Some n.
Proof. unfold on. rewrite pods_on_nodes, filterb_elem. unfold targets. by rewrite bool_decide_eq_true. Qed.

(** Nodes that are not down have different pods of different names. *)
Lemma state_pod_inj n n' p q : state_pod (st n) = Some p -> state_pod (st n') = Some q -> p_name p = p_name q -> p = q /\ n = n'.
Proof.
  intros Hp%state_pod_elem Hq%state_pod_elem E. apply on_elem in Hp as [Hp Ht], Hq as [Hq Ht'].
  assert (p = q) as -> by by eapply (nodup_map_inj p_name). split; [done|]. congruence.
Qed.

(** A node that serves and whose pod is not among the names. *)
Definition pod_in (D : list string) (n : string) : bool :=
  match state_pod (st n) with Some p => bool_decide (p_name p ∈ D) | None => false end.
Definition keeps (D : list string) (n : string) : bool := serving (st n) && negb (pod_in D n).

(** The serving nodes among those whose pods are in a list are not more than the list. *)
Lemma serving_in_list l L chosen : NoDup chosen ->
  (forall n p, n ∈ chosen -> serving (st n) = true -> state_pod (st n) = Some p -> p_name p ∈ L -> p_name p ∈ l) ->
  countb (fun n => serving (st n) && pod_in L n) chosen <= len l.
Proof.
  intros Hn Hl. rewrite countb_filterb.
  set (f := fun n => default ""%string (p_name <$> state_pod (st n))).
  assert (Hin : forall n, n ∈ filterb (fun n => serving (st n) && pod_in L n) chosen ->
    exists p, state_pod (st n) = Some p /\ p_name p ∈ l).
  { intros n [Hc Hs]%filterb_elem. apply andb_true_iff in Hs as [Hs HL]. unfold pod_in in HL.
    destruct (state_pod (st n)) as [p|] eqn:E; [|done]. apply bool_decide_eq_true in HL. exists p. eauto. }
  assert (Hnd : NoDup (map f (filterb (fun n => serving (st n) && pod_in L n) chosen))).
  { apply NoDup_fmap_2_strong; [|eapply sublist_NoDup; [exact Hn|apply filterb_sublist]].
    intros x y Hx Hy. destruct (Hin x Hx) as (p & Ep & _), (Hin y Hy) as (q & Eq & _). unfold f. rewrite Ep, Eq. cbn.
    intros E. by destruct (state_pod_inj x y p q Ep Eq E). }
  rewrite <-(length_map f). apply inj_le. apply submseteq_length. apply NoDup_submseteq; [done|].
  intros x [n [-> Hx]]%list_elem_of_fmap. destruct (Hin n Hx) as (p & Ep & Hp). unfold f. by rewrite Ep.
Qed.

(** Without surge, the available pods that are taken away leave all but [maxUnavailable] nodes
    of those that were not stale with their pod. *)
Lemma roll_keeps chosen : NoDup chosen ->
  let D := roll_deletes maxUnavailable (roll_plan now ds hash maxUnavailable (map (fun n => (n, on n)) chosen)) in
  countb (keeps D) chosen = countb (fun n => serving (st n)) chosen \/
  len chosen - countb (fun n => is_stale (st n)) chosen - maxUnavailable <= countb (keeps D) chosen.
Proof.
  intros Hn D. destruct (roll_deletes_spec now ds hash on maxUnavailable chosen) as (l & ED & Hl & Hlen).
  fold D in ED.
  assert (Hcount : countb (fun n => serving (st n) && pod_in D n) chosen <= len l).
  { apply serving_in_list; [done|]. intros n p Hc Hs Hp. rewrite ED, elem_of_app. intros [Hst|]; [|done].
    apply list_elem_of_omap in Hst as (n' & Hc' & Hst). destruct (st n') as [|q| |] eqn:E; try done. injection Hst as Eq.
    destruct (state_pod_inj n n' p q Hp) as [_ ->]; [by rewrite E|done|]. by rewrite E in Hs. }
  assert (Hsplit : countb (keeps D) chosen = countb (fun n => serving (st n)) chosen - countb (fun n => serving (st n) && pod_in D n) chosen).
  { unfold keeps. clear. clearbody D. induction chosen as [|n c IH]; cbn [countb]; [done|]. destruct (serving (st n)), (pod_in D n); cbn [negb andb]; lia. }
  assert (Hparts : len chosen <= sumZ (fun n => weight (st n)) chosen + countb (fun n => is_stale (st n)) chosen + countb (fun n => serving (st n)) chosen).
  { clear. induction chosen as [|n c IH]; cbn; [done|]. unfold sumZ in *.
    pose proof (weight_down now ds hash (on n)) as Hd. destruct (st n); cbn in *; lia. }
  pose proof (countb_nonneg (fun n => serving (st n) && pod_in D n) chosen). lia.
Qed.

(** Only pods that are stale or outdated are taken away. *)
Lemma roll_deletes_old chosen name :
  name ∈ roll_deletes maxUnavailable (roll_plan now ds hash maxUnavailable (map (fun n => (n, on n)) chosen)) ->
  exists n p, n ∈ chosen /\ (st n = Stale p \/ st n = Outdated p) /\ p_name p = name.
Proof.
  destruct (roll_deletes_spec now ds hash on maxUnavailable chosen) as (l & -> & Hl & _).
  rewrite elem_of_app. intros [Hx|Hx].
  - apply list_elem_of_omap in Hx as (n & Hc & E). destruct (st n) as [|p| |] eqn:Es; try done. injection E as <-. eauto 6.
  - eapply elem_of_sublist in Hx; [|exact Hl]. apply list_elem_of_omap in Hx as (n & Hc & E).
    destruct (st n) as [| |p|] eqn:Es; try done. injection E as <-. eauto 6.
Qed.
End Budget.

(** ** The nodes to update *)

(** A node with an old pod that may be replaced. *)
Definition live_old (ds : DaemonSet) (hash : string) (pods : list Pod) : bool :=
  match findUpdatedPodsOnNode ds pods hash with
  | Some (None, oldPod) => negb (isPodNilOrPreDeleting oldPod)
  | _ => false
  end.

Section Filter.
Context {S : Type} `{Api S} `{DaemonApi S} `{ApiErrors} `{GoSort}.
Context (range : gmap string (list Pod) -> list (string * list Pod)).
Hypothesis range_perm : forall m, range m ≡ₚ map_to_list m.
Context (ds : DaemonSet) (hash : string).

Lemma read_bind {A B} (f : S -> A) (k : A -> M S B) w : (do x <- read f; k x) w = k (f (w_server w))
  (mkWorld (w_server w) (w_scale w) (w_rv w) (w_upd w) (w_local w) (w_dur w) (w_trace w ++ [])).
Proof. done. Qed.

(** The world after reads: the trace and the stores are the same. *)
Lemma reads_same (w : World S) :
  mkWorld (w_server w) (w_scale w) (w_rv w) (w_upd w) (w_local w) (w_dur w) (w_trace w ++ []) = w.
Proof. rewrite app_nil_r. by destruct w. Qed.

Lemma classify_nodes_spec m sel names a b c d w w' r :
  Forall (fun n => live_old ds hash (pods_on m n) = false) (a ++ b) ->
  Forall (fun n => live_old ds hash (pods_on m n) = true) (c ++ d) -> (sel = None -> c = []) ->
  classify_nodes (S := S) ds hash m sel names a b c d w = (w', r) ->
  w' = w /\
  forall a' b' c' d', r = inr (a', b', c', d') ->
    (a' ++ b') ++ (c' ++ d') ≡ₚ names ++ (a ++ b) ++ (c ++ d) /\ (sel = None -> c' = []) /\
    Forall (fun n => live_old ds hash (pods_on m n) = false) (a' ++ b') /\
    Forall (fun n => live_old ds hash (pods_on m n) = true) (c' ++ d').
Proof.
  revert a b c d. induction names as [|n names IH]; intros a b c d Hf Ht Hs E; cbn [classify_nodes] in E.
  { injection E as <- <-. split; [done|]. by intros a' b' c' d' [= <- <- <- <-]. }
  (** The node joins one of the four lists, where it belongs. *)
  assert (Hjoin : forall a2 b2 c2 d2, classify_nodes (S := S) ds hash m sel names a2 b2 c2 d2 w = (w', r) ->
    (a2 ++ b2) ++ (c2 ++ d2) ≡ₚ n :: (a ++ b) ++ (c ++ d) ->
    Forall (fun n => live_old ds hash (pods_on m n) = false) (a2 ++ b2) ->
    Forall (fun n => live_old ds hash (pods_on m n) = true) (c2 ++ d2) -> (sel = None -> c2 = []) -> w' = w /\
    forall a' b' c' d', r = inr (a', b', c', d') ->
      (a' ++ b') ++ (c' ++ d') ≡ₚ (n :: names) ++ (a ++ b) ++ (c ++ d) /\ (sel = None -> c' = []) /\
      Forall (fun n => live_old ds hash (pods_on m n) = false) (a' ++ b') /\
      Forall (fun n => live_old ds hash (pods_on m n) = true) (c' ++ d')).
  { intros a2 b2 c2 d2 E2 Hp Hf2 Ht2 Hs2. destruct (IH _ _ _ _ Hf2 Ht2 Hs2 E2) as [-> Hr]. split; [done|].
    intros a' b' c' d' Er. destruct (Hr _ _ _ _ Er) as (P & Hrest). split; [|done].
    rewrite P, Hp. cbn. by rewrite <-Permutation_middle. }
  assert (Hcase : match findUpdatedPodsOnNode ds (pods_on m n) hash with
    | Some (None, o) => live_old ds hash (pods_on m n) = negb (isPodNilOrPreDeleting o)
    | _ => live_old ds hash (pods_on m n) = false end).
  { unfold live_old. by destruct (findUpdatedPodsOnNode _ _ _) as [[[p|] o]|]. }
  assert (Hfalse : forall l, live_old ds hash (pods_on m n) = false -> l ≡ₚ n :: a ++ b ->
    Forall (fun n => live_old ds hash (pods_on m n) = false) l) by (intros l Hl ->; by constructor).
  assert (Htrue : forall l, live_old ds hash (pods_on m n) = true -> l ≡ₚ n :: c ++ d ->
    Forall (fun n => live_old ds hash (pods_on m n) = true) l) by (intros l Hl ->; by constructor).
  assert (Pa : (a ++ [n]) ++ b ≡ₚ n :: a ++ b) by solve_Permutation.
  assert (Pb : a ++ b ++ [n] ≡ₚ n :: a ++ b) by solve_Permutation.
  assert (Pc : (c ++ [n]) ++ d ≡ₚ n :: c ++ d) by solve_Permutation.
  assert (Pd : c ++ d ++ [n] ≡ₚ n :: c ++ d) by solve_Permutation.
  destruct (findUpdatedPodsOnNode ds (pods_on m n) hash) as [[[p|] o]|].
  1, 3: eapply Hjoin; [exact E|by rewrite Pa|by apply Hfalse|done|done].
  destruct (isPodNilOrPreDeleting o); [eapply Hjoin; [exact E|by rewrite Pb|by apply Hfalse|done|done]|].
  destruct sel as [sel|].
  - rewrite read_bind, reads_same in E. destruct (GetNode n (w_server w)) as [err|node]; [by injection E as <- <-|].
    destruct (default false _).
    + eapply Hjoin; [exact E|rewrite Pc; by rewrite <-Permutation_middle|done|by apply Htrue|done].
    + eapply Hjoin; [exact E|rewrite Pd; by rewrite <-Permutation_middle|done|by apply Htrue|done].
  - eapply Hjoin; [exact E|rewrite Pd; by rewrite <-Permutation_middle|done|by apply Htrue|done].
Qed.

(** The cut keeps the first names, so that it reaches a name that may be replaced only when
    all others are in. *)
Lemma cut_nodes_take total partition sorted : cut_nodes total partition sorted = slice_to sorted (total - partition).
Proof.
  unfold cut_nodes, slice_to. destruct (Z.leb_spec (total - partition) 0).
  - by replace (Z.to_nat (total - partition)) with 0%nat by lia.
  - destruct (Z.ltb_spec (total - partition) (len sorted)); [done|]. rewrite take_ge; [done|lia].
Qed.

Lemma cut_keeps (live : string -> bool) keys P X Y partition :
  keys ≡ₚ P ++ X ++ Y -> NoDup keys -> Forall (fun n => live n = false) P -> Forall (fun n => live n = true) (X ++ Y) ->
  let chosen := cut_nodes (len keys) partition (P ++ X) in
  Z.min partition (countb live keys) <= countb (fun n => live n && negb (bool_decide (n ∈ chosen))) keys.
Proof.
  intros Hk Hnd HP HX chosen. rewrite !(countb_perm _ _ _ Hk), !countb_app.
  assert (Hnd' : NoDup (P ++ X ++ Y)) by by rewrite <-Hk. apply NoDup_app in Hnd' as (_ & Hpx & Hxy).
  apply NoDup_app in Hxy as (HndX & Hxy & _). apply Forall_app in HX as [HX HY].
  set (k := Z.to_nat (len keys - partition)).
  assert (Ec : chosen = take k P ++ take (k - length P) X).
  { unfold chosen. rewrite cut_nodes_take. unfold slice_to. by rewrite take_app. }
  assert (EP : countb live P = 0) by (apply countb_zero; by apply Forall_forall).
  assert (EX : countb live X = len X).
  { clear -HX. induction HX as [|x l Hx _ IH]; [done|]. cbn [countb length]. rewrite Hx, IH. lia. }
  assert (EY : countb live Y = len Y).
  { clear -HY. induction HY as [|x l Hx _ IH]; [done|]. cbn [countb length]. rewrite Hx, IH. lia. }
  assert (KY : countb (fun n => live n && negb (bool_decide (n ∈ chosen))) Y = len Y).
  { rewrite <-EY. apply countb_ext. intros n Hn. rewrite bool_decide_eq_false_2; [by rewrite andb_true_r|].
    rewrite Ec, elem_of_app. intros [Hin|Hin]; apply elem_of_take in Hin as (i & Hi%list_elem_of_lookup_2 & _); set_solver. }
  assert (KX : len X - Z.of_nat (k - length P) <= countb (fun n => live n && negb (bool_decide (n ∈ chosen))) X).
  { rewrite <-(take_drop (k - length P) X) at 2. rewrite countb_app.
    assert (Hd : countb (fun n => live n && negb (bool_decide (n ∈ chosen))) (drop (k - length P) X) = len (drop (k - length P) X)).
    { rewrite countb_filterb. f_equal. f_equal.
      assert (Hall : Forall (fun n => (live n && negb (bool_decide (n ∈ chosen))) = true) (drop (k - length P) X)).
      { apply Forall_forall. intros n Hn. rewrite Forall_forall in HX.
        rewrite HX by (eapply elem_of_sublist; [exact Hn|apply sublist_drop]). cbn. apply negb_true_iff, bool_decide_eq_false_2.
        rewrite Ec, elem_of_app. intros [Hin|Hin].
        - apply elem_of_take in Hin as (i & Hi%list_elem_of_lookup_2 & _). eapply Hpx; [exact Hi|].
          apply elem_of_app. left. eapply elem_of_sublist; [exact Hn|apply sublist_drop].
        - rewrite <-(take_drop (k - length P) X) in HndX. apply NoDup_app in HndX as (_ & Hdis & _). by eapply Hdis. }
      clear -Hall. induction Hall as [|x l Hx _ IH]; [done|]. cbn [filterb]. by rewrite Hx, IH. }
    rewrite Hd, length_drop. pose proof (countb_nonneg (fun n => live n && negb (bool_decide (n ∈ chosen))) (take (k - length P) X)). lia. }
  pose proof (countb_nonneg (fun n => live n && negb (bool_decide (n ∈ chosen))) P).
  assert (Hlen : len keys = len P + len X + len Y) by (rewrite Hk, !length_app; lia).
  rewrite EP, EX, EY, KY. lia.
Qed.

(** The cut reaches a name that may be replaced only after all that may not, and without a
    partition it keeps everything. *)
Lemma cut_order (live : string -> bool) P X total partition n k :
  Forall (fun n => live n = false) P -> n ∈ cut_nodes total partition (P ++ X) -> live n = true -> k ∈ P ->
  k ∈ cut_nodes total partition (P ++ X).
Proof.
  intros HP. rewrite cut_nodes_take. unfold slice_to. rewrite take_app, !elem_of_app. rewrite Forall_forall in HP.
  intros [Hn|Hn] Hl Hk.
  - apply elem_of_take in Hn as (i & Hi%list_elem_of_lookup_2 & _). rewrite (HP n Hi) in Hl. done.
  - left. rewrite take_ge; [done|]. apply elem_of_take in Hn as (i & _ & Hi). lia.
Qed.

Lemma all_names m : Strings (map fst (range m)) ≡ₚ map fst (map_to_list m).
Proof. unfold Strings. rewrite sort_by_perm. by rewrite range_perm. Qed.
Lemma all_names_nodup m : NoDup (Strings (map fst (range m))).
Proof. rewrite all_names. apply NoDup_fst_map_to_list. Qed.
Lemma all_names_elem m n : n ∈ Strings (map fst (range m)) <-> n ∈ dom m.
Proof.
  rewrite all_names. rewrite elem_of_dom. split.
  - intros [[k v] [-> Hx]]%list_elem_of_fmap. apply elem_of_map_to_list in Hx. cbn. eauto.
  - intros [v Hv]. apply list_elem_of_fmap. exists (n, v). by rewrite elem_of_map_to_list.
Qed.

Lemma filter_nodes_spec m w w' r : filterDaemonPodsNodeToUpdate range ds hash m w = (w', r) ->
  w' = w /\ forall chosen, r = inr chosen ->
  NoDup chosen /\ (forall n, n ∈ chosen -> n ∈ dom m) /\
  let live n := live_old ds hash (pods_on m n) in
  Z.min (rolling_partition ds) (countb live (map fst (map_to_list m)))
  <= countb (fun n => live n && negb (bool_decide (n ∈ chosen))) (map fst (map_to_list m)) /\
  (forall n k, n ∈ chosen -> live n = true -> k ∈ dom m -> live k = false -> k ∈ chosen) /\
  (rolling_partition ds = 0 -> rolling_selector ds = None -> forall k, k ∈ dom m -> k ∈ chosen).
Proof.
  unfold filterDaemonPodsNodeToUpdate. intros E.
  set (all := Strings (map fst (range m))) in *. set (sel := rolling_selector ds) in *.
  assert (E' : (do x <- classify_nodes (S := S) ds hash m sel (rev all) [] [] [] [];
     match x with
     | inl err => ret (inl err)
     | inr (updated, updating, selected, rest) =>
         ret (inr (cut_nodes (len all) (rolling_partition ds)
           (updated ++ updating ++ match sel with Some _ => selected | None => rest end)))
     end) w = (w', r) \/ w' = w /\ exists e, r = inl e).
  { destruct sel as [s|]; [|by left]. cbn in E. destruct (forallb _ _); [by left|]. right. injection E as <- <-. eauto. }
  clear E. destruct E' as [E|[-> [e ->]]]; [|done]. unfold bind in E.
  destruct (classify_nodes _ _ _ _ _ _ _ _ _ _) as [w1 x] eqn:Ec.
  apply classify_nodes_spec in Ec as [-> Hx]; [|by constructor|by constructor|done].
  destruct x as [err|[[[a b] c] d]]; [by injection E as <- <-|]. injection E as <- <-. split; [done|].
  intros chosen [= <-]. destruct (Hx _ _ _ _ eq_refl) as (P & Hs & Hf & Ht). cbn in P. rewrite app_nil_r, <-app_assoc in P.
  set (X := match sel with Some _ => c | None => d end). set (Y := match sel with Some _ => d | None => [] end).
  assert (Hk : all ≡ₚ (a ++ b) ++ X ++ Y).
  { rewrite (Permutation_rev all), <-P, <-app_assoc. unfold X, Y. destruct sel; [done|]. by rewrite Hs, app_nil_r by done. }
  assert (HXY : Forall (fun n => live_old ds hash (pods_on m n) = true) (X ++ Y)).
  { unfold X, Y. destruct sel; [done|]. rewrite Hs in Ht by done. by rewrite app_nil_r. }
  rewrite (app_assoc a b). rewrite cut_nodes_take.
  assert (Hsub : slice_to ((a ++ b) ++ X) (len all - rolling_partition ds) `sublist_of` (a ++ b) ++ X ++ Y).
  { unfold slice_to. etrans; [apply sublist_take|]. rewrite app_assoc. by apply sublist_inserts_r. }
  assert (Hnd : NoDup ((a ++ b) ++ X ++ Y)) by (rewrite <-Hk; apply all_names_nodup).
  split; [by eapply sublist_NoDup|]. split.
  { intros n Hn. eapply elem_of_sublist in Hn; [|exact Hsub]. rewrite <-Hk in Hn. by apply all_names_elem. }
  rewrite <-cut_nodes_take. cbn zeta. split; [|split].
  - rewrite <-!(countb_perm _ _ _ (all_names m)). fold all. eapply cut_keeps; [exact Hk|apply all_names_nodup|done|done].
  - intros n k Hn Hl Hin Hlk. eapply cut_order; [exact Hf|exact Hn|exact Hl|].
    apply all_names_elem in Hin. fold all in Hin. rewrite Hk, elem_of_app in Hin. destruct Hin as [?|Hin]; [done|].
    rewrite Forall_forall in HXY. rewrite (HXY k Hin) in Hlk. done.
  - intros Hp Hsel k Hin. apply all_names_elem in Hin. fold all in Hin. rewrite cut_nodes_take, Hp. unfold slice_to, X, Y in *.
    fold sel in Hsel. rewrite Hsel, app_nil_r in *. rewrite take_ge; [by rewrite <-Hk|]. rewrite Hk. lia.
Qed.

Lemma chosen_map_lookup (f : string -> list Pod) chosen n : NoDup chosen ->
  (list_to_map (map (fun n => (n, f n)) chosen) : gmap string (list Pod)) !! n = if bool_decide (n ∈ chosen) then Some (f n) else None.
Proof.
  induction chosen as [|k l IH]; [done|]. rewrite NoDup_cons. intros [Hk Hn]. cbn [map list_to_map foldr].
  destruct (decide (n = k)) as [->|Hne].
  - rewrite bool_decide_eq_true_2 by set_solver. apply lookup_insert_eq.
  - cbn. rewrite lookup_insert_ne by done. fold (list_to_map (M := gmap string (list Pod)) (map (fun n => (n, f n)) l)).
    rewrite IH by done. do 2 case_bool_decide; set_solver.
Qed.

(** The nodes of the list, of those in the map. *)
Definition existing (nodeList : list Node) (m : gmap string (list Pod)) : gmap string (list Pod) :=
  filter (fun kv => kv.1 ∈ map n_name nodeList) m.

Lemma filter_pods_spec nodeList m w w' r : filterDaemonPodsToUpdate range ds nodeList hash m w = (w', r) ->
  w' = w /\ forall m', r = inr m' ->
  exists chosen, NoDup chosen /\ (forall n, n ∈ chosen -> n ∈ dom (existing nodeList m)) /\
    (forall n, m' !! n = if bool_decide (n ∈ chosen) then Some (pods_on (existing nodeList m) n) else None) /\
    let live n := live_old ds hash (pods_on (existing nodeList m) n) in
    let all := map fst (map_to_list (existing nodeList m)) in
    Z.min (rolling_partition ds) (countb live all) <= countb (fun n => live n && negb (bool_decide (n ∈ chosen))) all /\
    (forall n k, n ∈ chosen -> live n = true -> k ∈ dom (existing nodeList m) -> live k = false -> k ∈ chosen) /\
    (rolling_partition ds = 0 -> rolling_selector ds = None -> forall k, k ∈ dom (existing nodeList m) -> k ∈ chosen).
Proof.
  unfold filterDaemonPodsToUpdate. fold (existing nodeList m). unfold bind.
  destruct (filterDaemonPodsNodeToUpdate _ _ _ _ _) as [w1 x] eqn:E. apply filter_nodes_spec in E as [-> Hx].
  destruct x as [err|chosen]; intros [= <- <-]; (split; [done|]); [done|]. intros m' [= <-].
  destruct (Hx _ eq_refl) as (Hn & Hd & Hp). exists chosen. split; [done|]. split; [done|]. split; [|done].
  intros n. by apply chosen_map_lookup.
Qed.

(** The filter reads nothing but the server. *)
Lemma classify_reads m sel names a b c d (w v : World S) : w_server w = w_server v ->
  (classify_nodes (S := S) ds hash m sel names a b c d w).2 = (classify_nodes (S := S) ds hash m sel names a b c d v).2.
Proof.
  intros Hwv. revert a b c d. induction names as [|n names IH]; intros a b c d; cbn [classify_nodes]; [done|].
  destruct (findUpdatedPodsOnNode ds (pods_on m n) hash) as [[[p|] o]|]; [done| |done].
  destruct (isPodNilOrPreDeleting o); [done|]. destruct sel as [sel|]; [|done].
  rewrite !read_bind, !reads_same, Hwv. destruct (GetNode n (w_server v)) as [err|node]; [done|]. by destruct (default false _).
Qed.

Lemma filter_reads nodeList m (w v : World S) : w_server w = w_server v ->
  (filterDaemonPodsToUpdate range ds nodeList hash m w).2 = (filterDaemonPodsToUpdate range ds nodeList hash m v).2.
Proof.
  intros Hwv. unfold filterDaemonPodsToUpdate, filterDaemonPodsNodeToUpdate, bind.
  set (m' := filter _ m). destruct (rolling_selector ds) as [sel|]; [destruct (default true _); [|done]|];
  match goal with |- context [classify_nodes ds hash m' ?q ?l [] [] [] [] w] =>
    pose proof (classify_reads m' q l [] [] [] [] w v Hwv) as Hc;
    destruct (classify_nodes ds hash m' q l [] [] [] [] w) as [w1 x], (classify_nodes ds hash m' q l [] [] [] [] v) as [v1 y]
  end; cbn in Hc; subst y; by destruct x as [err|[[[? ?] ?] ?]].
Qed.

(** The partition keeps its share of the nodes at the old version.  Of the nodes that the
    rolling update of a DaemonSet considers, at least [partition] of those with an old pod that
    could be replaced, or all of them when there are fewer, are left out of the nodes it works
    on: whatever the selector, the order in which the map is read and the nodes that are
    already updated or about to be.  The nodes it works on exist and come with all their pods,
    and choosing them writes nothing. *)
Theorem daemon_partition_kept nodeList m w w' m' :
  filterDaemonPodsToUpdate range ds nodeList hash m w = (w', inr m') ->
  w' = w /\
  (forall n pods, m' !! n = Some pods -> m !! n = Some pods /\ n ∈ map n_name nodeList) /\
  let old n := live_old ds hash (pods_on m n) in
  let all := map fst (map_to_list (existing nodeList m)) in
  Z.min (rolling_partition ds) (countb old all) <= countb (fun n => old n && bool_decide (n ∉ dom m')) all.
Proof.
  intros E. apply filter_pods_spec in E as [-> Hr]. split; [done|].
  destruct (Hr _ eq_refl) as (chosen & _ & Hd & Hl & Hp & _).
  assert (He : forall n, n ∈ dom (existing nodeList m) -> pods_on (existing nodeList m) n = pods_on m n /\
    (n ∈ map n_name nodeList) /\ m !! n = Some (pods_on m n)).
  { intros n [l Hn]%elem_of_dom. unfold existing, pods_on in *. apply map_lookup_filter_Some in Hn as [Hm Hn].
    rewrite Hm. split; [|done]. by rewrite (map_lookup_filter_Some_2 _ m n l Hm Hn). }
  split.
  - intros n pods. rewrite Hl. case_bool_decide as Hn; [|done]. intros [= <-]. destruct (He n (Hd n Hn)) as (-> & ? & ?). done.
  - cbn zeta in *. set (all := map fst _) in *.
    assert (Ha : forall n, n ∈ all -> pods_on (existing nodeList m) n = pods_on m n).
    { intros n [[k v] [-> Hx]]%list_elem_of_fmap. apply elem_of_map_to_list in Hx. apply He. cbn. apply elem_of_dom. eauto. }
    rewrite (countb_ext _ (fun n => live_old ds hash (pods_on (existing nodeList m) n)) all) by (intros n Hn; by rewrite Ha).
    etrans; [exact Hp|]. apply Z.eq_le_incl, countb_ext. intros n Hn. rewrite (Ha n Hn). f_equal.
    rewrite <-bool_decide_not. apply bool_decide_ext. rewrite elem_of_dom, Hl. case_bool_decide; [|naive_solver].
    split; [done|]. intros Hx. destruct Hx. eauto.
Qed.
End Filter.

(** ** The writes of an update *)

Section Writes.
Context {S : Type} `{Api S} `{DaemonApi S} `{ApiErrors} `{GoSort}.
Context (NamespaceTerminating : error -> bool) (now : Z) (nowStr : string) (scheduled : bool).
(** A lookup by name finds a pod of that name. *)
Hypothesis named : forall ns n s p, GetPodNamed ns n s = inr p -> p_name p = n.

(** The operation disturbs only pods of the list, and creates none. *)
Definition disturbs (l : list string) (evs : list Event) : Prop :=
  (forall n, n ∈ touched evs -> n ∈ l) /\ creates evs = [].
Lemma disturbs_nil l : disturbs l [].
Proof. split; [by intros n ?%not_elem_of_nil|done]. Qed.
Lemma disturbs_app l evs evs' : disturbs l evs -> disturbs l evs' -> disturbs l (evs ++ evs').
Proof.
  intros [T1 C1] [T2 C2]. split; [|by rewrite creates_app, C1, C2]. intros n. rewrite ds_touched_app, elem_of_app. naive_solver.
Qed.
Lemma disturbs_mono l l' evs : (forall n, n ∈ l -> n ∈ l') -> disturbs l evs -> disturbs l' evs.
Proof. intros Hl [T1 C1]. split; [naive_solver|done]. Qed.

Lemma preparing_delete_emits ds names can :
  emits (syncWithPreparingDelete (S := S) nowStr ds names can) (fun evs r => disturbs names evs /\
    match r with inl _ => True | inr l => forall n, n ∈ l -> n ∈ can ++ names end).
Proof.
  revert can. induction names as [|name names IH]; intros can; cbn [syncWithPreparingDelete].
  { apply emits_ret. split; [apply disturbs_nil|]. intros n. by rewrite app_nil_r. }
  assert (IH' : forall c, (forall n, n ∈ c -> n ∈ can ++ [name]) ->
    emits (syncWithPreparingDelete (S := S) nowStr ds names c) (fun evs r => disturbs (name :: names) evs /\
      match r with inl _ => True | inr l => forall n, n ∈ l -> n ∈ can ++ name :: names end)).
  { intros c Hc. eapply emits_mono; [apply IH|]. intros evs r [Hd Hr]. split; [eapply disturbs_mono; [|exact Hd]; set_solver|].
    destruct r as [?|l]; [done|]. intros n Hn. specialize (Hr n Hn). rewrite elem_of_app in Hr. set_solver. }
  intros w. rewrite read_bind, reads_same.
  destruct (GetPodNamed (ds_namespace ds) name (w_server w)) as [err|pod] eqn:Ep.
  { destruct (IsNotFound err); [apply IH'; set_solver|]. exists []. cbn. rewrite app_nil_r. split; [done|]. split; [apply disturbs_nil|done]. }
  apply named in Ep. destruct (negb _); [apply IH'; set_solver|].
  revert w. change (emits (do '(updated, gotPod, err) <- LifecycleControl.UpdatePodLifecycle nowStr pod LifecycleStatePreparingDelete
                 (Hooks.IsHookMarkPodNotReady (preDelete ds));
            match err with
            | Some e => ret (inl e)
            | None =>
                (match gotPod with
                 | Some p => if updated : bool then expectRV (p_uid p) (p_resourceVersion p) else ret tt
                 | None => ret tt
                 end) ;;
                syncWithPreparingDelete nowStr ds names can
            end) (fun evs r => disturbs (name :: names) evs /\
    match r with inl _ => True | inr l => forall n, n ∈ l -> n ∈ can ++ name :: names end)).
  eapply emits_bind with (P := fun evs _ => disturbs [name] evs).
  { eapply emits_mono; [apply UpdatePodLifecycle_emits|]. intros evs r [[-> _]|(_ & _ & ->)]; [apply disturbs_nil|].
    split; [|done]. cbn. intros n. by rewrite Ep. }
  intros evs [[u g] e] Hevs. assert (Hd : disturbs (name :: names) evs) by (eapply disturbs_mono; [|exact Hevs]; set_solver).
  destruct e as [e|]; [by apply emits_ret; rewrite app_nil_r|].
  apply emits_quiet.
  - destruct g; [destruct u|]; apply emits_silent; intros w; try done; constructor.
  - intros []. eapply emits_mono; [apply (IH' can); set_solver|]. intros evs' r [Hd' Hr]. split; [by apply disturbs_app|done].
Qed.

(** What [syncNodes] writes: it disturbs pods of the list, and creates pods on nodes of the
    list, in their order. *)
Definition placed (ds : DaemonSet) (hash : string) (nodes : list string) (evs : list Event) : Prop :=
  exists k, creates evs = if bool_decide (size (t_labels (pod_template ds hash)) = 0%nat) then []
                          else map (daemon_pod scheduled ds (pod_template ds hash)) (take k nodes).

Lemma sync_nodes_emits ds dels nodes hash :
  emits (sync_nodes (S := S) NamespaceTerminating now scheduled ds dels nodes hash)
    (fun evs _ => (forall n, n ∈ touched evs -> n ∈ dels) /\ placed ds hash nodes evs).
Proof.
  intros w. destruct (Z.le_gt_cases 0 (getBurstReplicas ds)) as [Hb|Hb].
  - destruct (sync_nodes_spec NamespaceTerminating now scheduled ds dels nodes hash w Hb) as (evs & t & Hs).
    destruct (sync_nodes _ _ _ _ _ _ _ w) as [w' r]. destruct Hs as (Ht & _ & (Htd & _ & k & _ & Hc) & _).
    exists evs. split; [done|]. split; [|by exists k]. intros n. rewrite Htd. unfold slice_to. intros Hn.
    eapply elem_of_sublist; [exact Hn|apply sublist_take].
  - unfold sync_nodes, bind. cbn. rewrite (proj2 (Z.ltb_lt _ _)) by lia. exists []. cbn. rewrite app_nil_r. split; [done|].
    split; [by intros n ?%not_elem_of_nil|]. exists 0%nat. by case_bool_decide.
Qed.

Lemma syncNodes_emits ds dels nodes hash :
  emits (syncNodes (S := S) NamespaceTerminating now nowStr scheduled ds dels nodes hash)
    (fun evs _ => (forall n, n ∈ touched evs -> n ∈ dels) /\ placed ds hash nodes evs).
Proof.
  unfold syncNodes. destruct (preDelete ds) as [h|]; [|apply sync_nodes_emits].
  eapply emits_bind; [apply preparing_delete_emits|]. intros evs [err|l] [[Ht Hc] Hl].
  - apply emits_ret. rewrite app_nil_r. split; [done|]. exists 0%nat. rewrite Hc. by case_bool_decide.
  - eapply emits_mono; [apply sync_nodes_emits|]. intros evs' _ [Ht' (k & Hk)]. split.
    + intros n. rewrite ds_touched_app, elem_of_app. intros [?|?]; [auto|]. by apply (Hl n), Ht'.
    + exists k. by rewrite creates_app, Hc.
Qed.

Lemma split_in_place_emits ds names cur olds upd del (L : list string) :
  (forall n, n ∈ names -> n ∈ L) -> (forall p, p ∈ upd -> p_name p ∈ L) -> (forall n, n ∈ del -> n ∈ L) ->
  emits (split_in_place (S := S) ds names cur olds upd del) (fun evs r => evs = [] /\
    (forall p, p ∈ r.1 -> p_name p ∈ L) /\ (forall n, n ∈ r.2 -> n ∈ L)).
Proof.
  revert upd del. induction names as [|name names IH]; intros upd del HL Hu Hd; cbn [split_in_place]; [by apply emits_ret|].
  intros w. rewrite read_bind, reads_same.
  destruct (GetPodNamed (ds_namespace ds) name (w_server w)) as [err|pod] eqn:Ep.
  - apply IH; set_solver.
  - apply named in Ep. destruct (canPodInPlaceUpdate _ _ _); apply IH; set_solver.
Qed.

Lemma update_batch_emits ds pods cur olds del errs (L : list string) :
  (forall p, p ∈ pods -> p_name p ∈ L) -> (forall n, n ∈ del -> n ∈ L) ->
  emits (update_batch (S := S) ds pods cur olds del errs) (fun evs r => disturbs L evs /\ forall n, n ∈ r.1 -> n ∈ L).
Proof.
  revert del errs. induction pods as [|p pods IH]; intros del errs HL Hd; cbn [update_batch].
  { apply emits_ret. split; [apply disturbs_nil|done]. }
  eapply emits_bind with (P := fun evs _ => disturbs L evs).
  { apply emits_call. intros res. split; [|done]. cbn. intros n. rewrite list_elem_of_singleton. intros ->. apply HL. set_solver. }
  intros evs res Hevs.
  assert (IH' : forall d e, (forall n, n ∈ d -> n ∈ L) -> emits (update_batch (S := S) ds pods cur olds d e)
    (fun evs' r => disturbs L (evs ++ evs') /\ forall n, n ∈ r.1 -> n ∈ L)).
  { intros d e Hd'. eapply emits_mono; [apply IH; [set_solver|done]|]. intros evs' r [? ?]. split; [by apply disturbs_app|done]. }
  destruct (ur_InPlaceUpdate res).
  - destruct (ur_UpdateErr res); (apply emits_quiet; [apply emits_silent; intros w; [done|constructor]|]); intros []; by apply IH'.
  - apply IH'. intros n. rewrite elem_of_app, list_elem_of_singleton. intros [?| ->]; [auto|]. apply HL. set_solver.
Qed.

Lemma replace_pods_emits ds dels cur olds hash :
  emits (replace_pods (S := S) NamespaceTerminating now nowStr scheduled ds dels cur olds hash) (fun evs _ => disturbs dels evs).
Proof.
  assert (Hsync : forall l, (forall n, n ∈ l -> n ∈ dels) ->
    emits (syncNodes (S := S) NamespaceTerminating now nowStr scheduled ds l [] hash) (fun evs _ => disturbs dels evs)).
  { intros l Hl. eapply emits_mono; [apply syncNodes_emits|]. intros evs _ [Ht (k & Hk)]. split; [naive_solver|].
    rewrite Hk, take_nil. by case_bool_decide. }
  unfold replace_pods. destruct (ds_RollingUpdate ds) as [r|]; [|apply emits_ret, disturbs_nil].
  destruct (String.eqb _ _); [|by apply Hsync].
  unfold inPlaceUpdatePods.
  eapply emits_bind with (P := fun evs x => disturbs dels evs /\ match x with Value (l, _) => forall n, n ∈ l -> n ∈ dels | Panic => True end).
  - eapply emits_bind; [apply (split_in_place_emits _ _ _ _ _ _ dels); [done|set_solver|set_solver]|].
    intros evs [upd del] (-> & Hu & Hd). cbn [fst snd] in *. cbn [app].
    destruct (_ <? 0); [apply emits_ret; split; [apply disturbs_nil|done]|].
    eapply emits_bind; [apply (update_batch_emits _ _ _ _ _ _ dels); [|exact Hd]|].
    + intros p Hp. apply Hu. unfold slice_to in Hp. eapply elem_of_sublist; [exact Hp|apply sublist_take].
    + intros evs [l errs] [Hevs Hl]. apply emits_ret. rewrite app_nil_r. done.
  - intros evs x [Hevs Hx]. assert (He : disturbs dels (evs ++ [])) by by rewrite app_nil_r.
    destruct x as [|[l [err|]]]; [by apply emits_ret|by apply emits_ret|].
    eapply emits_mono; [by apply Hsync|]. intros evs' ? ?. by apply disturbs_app.
Qed.

End Writes.

(** ** The nodes that should run a pod *)

Section Update.
Context {S : Type} `{Api S} `{DaemonApi S} `{ApiErrors} `{GoSort}.
Context (NamespaceTerminating : error -> bool) (validLabel : string -> list string -> bool).
Context (range : gmap string (list Pod) -> list (string * list Pod)).
Context (now : Z) (nowStr : string) (scheduled : bool).
Hypothesis range_perm : forall m, range m ≡ₚ map_to_list m.
Hypothesis named : forall ns n s p, GetPodNamed ns n s = inr p -> p_name p = n.

(** The template pod that [NewPod] answers with. *)
Definition cached_pod (ds : DaemonSet) (w : World S) : Pod :=
  default (template_pod ds) (loadNewPodForDS (l_newPods (w_local w)) ds).
Definition should_run (ds : DaemonSet) (w : World S) (node : Node) : bool :=
  (node_should_run validLabel (cached_pod ds w) node ds).1.

(** Only the cache of template pods may have changed, and its answer for the set has not. *)
Definition same_for (ds : DaemonSet) (w w' : World S) : Prop :=
  w_trace w' = w_trace w /\ w_server w' = w_server w /\ cached_pod ds w' = cached_pod ds w.

Lemma nodeShouldRun_spec node ds w :
  exists w', nodeShouldRunDaemonPod validLabel node ds w = (w', node_should_run validLabel (cached_pod ds w) node ds) /\
    same_for ds w w'.
Proof.
  unfold nodeShouldRunDaemonPod, NewPod, ask_local, bind, cached_pod.
  destruct (loadNewPodForDS (l_newPods (w_local w)) ds) as [p|] eqn:E; cbn.
  - eexists. split; [reflexivity|]. split; [done|]. split; [done|]. unfold cached_pod. by rewrite E.
  - eexists. split; [reflexivity|]. split; [done|]. split; [done|]. unfold cached_pod. rewrite E. cbn.
    unfold loadNewPodForDS. rewrite lookup_insert_eq. by rewrite Z.leb_refl.
Qed.

(** The map with an entry for every node that should run a pod. *)
Definition with_nodes (ds : DaemonSet) (w : World S) (nodes : list Node) (m : gmap string (list Pod)) : gmap string (list Pod) :=
  fold_left (fun m n => add_node m (n_name n)) (filterb (should_run ds w) nodes) m.

Lemma desired_nodes_spec ds nodes m desired w :
  exists w', desired_nodes (S := S) validLabel nodes ds m desired w
             = (w', (with_nodes ds w nodes m, desired + countb (should_run ds w) nodes)) /\ same_for ds w w'.
Proof.
  revert m desired w. induction nodes as [|node nodes IH]; intros m desired w; cbn [desired_nodes].
  { exists w. cbn. by rewrite Z.add_0_r. }
  destruct (nodeShouldRun_spec node ds w) as (w1 & E & Ht & Hs & Hc). unfold bind. rewrite E.
  assert (Hr : should_run ds w1 = should_run ds w) by (unfold should_run; by rewrite Hc).
  unfold with_nodes. cbn [filterb countb].
  destruct (node_should_run validLabel (cached_pod ds w) node ds) as [run cont] eqn:En.
  assert (Hn : should_run ds w node = run) by (unfold should_run; by rewrite En). rewrite Hn.
  destruct run; cbn [fold_left].
  - destruct (IH (add_node m (n_name node)) (desired + 1) w1) as (w2 & -> & Ht2 & Hs2 & Hc2). exists w2.
    unfold with_nodes. rewrite Hr. split; [|by split; [congruence|split; congruence]]. do 2 f_equal. lia.
  - destruct (IH m desired w1) as (w2 & -> & Ht2 & Hs2 & Hc2). exists w2.
    unfold with_nodes. rewrite Hr. split; [|by split; [congruence|split; congruence]]. done.
Qed.

Lemma with_nodes_pods ds w nodes m n : pods_on (with_nodes ds w nodes m) n = pods_on m n.
Proof.
  unfold with_nodes. generalize (filterb (should_run ds w) nodes). intros l. revert m.
  induction l as [|k l IH]; intros m; [done|]. cbn [fold_left]. rewrite IH. unfold add_node, pods_on.
  destruct (m !! n_name k) eqn:E; [done|]. destruct (decide (n = n_name k)) as [->|Hn].
  - by rewrite lookup_insert_eq, E.
  - by rewrite lookup_insert_ne.
Qed.

(** The plan of an update on the nodes it works on, with all their pods. *)
Definition run_plan (ds : DaemonSet) (cur : ControllerRevision) (olds : list ControllerRevision) (maxSurge maxUnavailable : Z)
  (entries : list (string * list Pod)) : M S (Outcome (option error)) :=
  let hash := revision_label cur in
  if maxSurge =? 0 then
    replace_pods NamespaceTerminating now nowStr scheduled ds
      (roll_deletes maxUnavailable (roll_plan now ds hash maxUnavailable entries)) cur olds hash
  else
    let plan := surge_plan now ds hash maxSurge entries in
    syncNodes NamespaceTerminating now nowStr scheduled ds (sp_delete plan) (surge_creates maxSurge plan) hash.

(** The nodes an update works on, as the code chooses them among all nodes of the cluster:
    the result of [filterDaemonPodsToUpdate] for the pods [pods] claimed on the server [s]. *)
Definition update_nodes (ds : DaemonSet) (nodes : list Node) (cur : ControllerRevision) (w : World S) (s : S)
  (pods : list Pod) : error + list string :=
  match (filterDaemonPodsToUpdate range ds nodes (revision_label cur) (with_nodes ds w nodes (nodes_to_pods pods))
           (mkWorld s (w_scale w) (w_rv w) (w_upd w) (w_local w) (w_dur w) (w_trace w))).2 with
  | inl err => inl err
  | inr m => inr (map fst (range m))
  end.

(** The nodes that an update considers: the existing ones that run a pod of the set or should. *)
Definition considered (ds : DaemonSet) (nodes : list Node) (w : World S) (pods : list Pod) (n : string) : Prop :=
  n ∈ map n_name nodes /\ is_Some (with_nodes ds w nodes (nodes_to_pods pods) !! n).

(** What is known of the choice: existing nodes, each once; a node with an old pod to replace
    only together with all nodes that have none; and every node without partition and selector. *)
Definition sound_choice (ds : DaemonSet) (nodes : list Node) (cur : ControllerRevision) (w : World S) (pods : list Pod)
  (chosen : list string) : Prop :=
  let old n := live_old ds (revision_label cur) (on pods n) in
  NoDup chosen /\ (forall n, n ∈ chosen -> considered ds nodes w pods n) /\
  (forall n k, n ∈ chosen -> old n = true -> considered ds nodes w pods k -> old k = false -> k ∈ chosen) /\
  (rolling_partition ds = 0 -> rolling_selector ds = None -> forall k, considered ds nodes w pods k -> k ∈ chosen).

Lemma pods_on_existing ds w nodes pods n : n ∈ map n_name nodes ->
  pods_on (existing nodes (with_nodes ds w nodes (nodes_to_pods pods))) n = on pods n.
Proof.
  intros Hn. unfold on. rewrite <-(with_nodes_pods ds w nodes (nodes_to_pods pods)). unfold pods_on.
  destruct (existing nodes (with_nodes ds w nodes (nodes_to_pods pods)) !! n) as [l|] eqn:E.
  - apply map_lookup_filter_Some in E as [E _]. by rewrite E.
  - destruct (with_nodes ds w nodes (nodes_to_pods pods) !! n) as [l|] eqn:E2; [|done].
    assert (existing nodes (with_nodes ds w nodes (nodes_to_pods pods)) !! n = Some l) by by apply map_lookup_filter_Some.
    congruence.
Qed.

Lemma considered_dom ds w nodes pods n :
  considered ds nodes w pods n <-> n ∈ dom (existing nodes (with_nodes ds w nodes (nodes_to_pods pods))).
Proof.
  unfold considered, existing. rewrite elem_of_dom. split.
  - intros [Hn [l Hl]]. exists l. by apply map_lookup_filter_Some.
  - intros [l [Hl Hn]%map_lookup_filter_Some]. split; [done|by exists l].
Qed.

Lemma update_nodes_sound ds nodes cur w s pods chosen :
  update_nodes ds nodes cur w s pods = inr chosen ->
  sound_choice ds nodes cur w pods chosen /\
  exists m, (filterDaemonPodsToUpdate range ds nodes (revision_label cur) (with_nodes ds w nodes (nodes_to_pods pods))
               (mkWorld s (w_scale w) (w_rv w) (w_upd w) (w_local w) (w_dur w) (w_trace w))).2 = inr m /\
    range m = map (fun n => (n, on pods n)) chosen.
Proof.
  unfold update_nodes. set (m0 := with_nodes _ _ _ _).
  destruct (filterDaemonPodsToUpdate _ _ _ _ _ _) as [w2 r] eqn:Ef. apply (filter_pods_spec range range_perm) in Ef as [_ Hf].
  cbn [snd]. destruct r as [err|m']; [done|]. intros [= <-].
  destruct (Hf m' eq_refl) as (chosen & Hnd & Hdom & Hl & _ & Hord & Hall).
  assert (Hin : forall n, n ∈ map fst (range m') <-> n ∈ chosen).
  { intros n. rewrite range_perm, list_elem_of_fmap. split.
    - intros [[k l] [-> Hx]]. apply elem_of_map_to_list in Hx. rewrite Hl in Hx. cbn. by case_bool_decide.
    - intros Hn. eexists (n, _). split; [done|]. apply elem_of_map_to_list. rewrite Hl. by rewrite bool_decide_eq_true_2. }
  assert (Hon : forall n, n ∈ dom (existing nodes m0) -> pods_on (existing nodes m0) n = on pods n).
  { intros n [l [_ Hn]%map_lookup_filter_Some]%elem_of_dom. by apply pods_on_existing. }
  split.
  - split; [rewrite range_perm; apply NoDup_fst_map_to_list|]. cbn zeta.
    split; [|split].
    + intros n Hn%Hin. apply considered_dom. auto.
    + intros n k Hn%Hin Ho Hk%considered_dom Hk2. apply Hin. apply (Hord n); [done| |done|].
      * by rewrite Hon by auto.
      * by rewrite Hon.
    + intros Hp Hs k Hk%considered_dom. apply Hin. auto.
  - exists m'. split; [done|]. rewrite map_map. rewrite <-(map_id (range m')) at 1. apply map_ext_in. intros [n l] Hx. cbn. f_equal.
    apply list_elem_of_In in Hx. rewrite range_perm in Hx. apply elem_of_map_to_list in Hx. rewrite Hl in Hx.
    case_bool_decide as Hn; [|done]. injection Hx as <-. auto.
Qed.

Lemma rollingUpdate_plan ds nodes cur olds w s pods maxSurge maxUnavailable :
  ClaimDaemonPods ds (w_server w) = (s, inr pods) ->
  rolling_limits ds (countb (should_run ds w) nodes) = inr (maxSurge, maxUnavailable) ->
  exists w1, w_trace w1 = w_trace w /\
    match update_nodes ds nodes cur w s pods with
    | inl _ => exists err, rollingUpdate NamespaceTerminating validLabel range now nowStr scheduled ds nodes cur olds w
                           = (w1, Value (Some err))
    | inr chosen => rollingUpdate NamespaceTerminating validLabel range now nowStr scheduled ds nodes cur olds w
                    = run_plan ds cur olds maxSurge maxUnavailable (map (fun n => (n, on pods n)) chosen) w1
    end.
Proof.
  intros Hclaim Hlim.
  destruct (rollingUpdate NamespaceTerminating validLabel range now nowStr scheduled ds nodes cur olds w) as [wf rf] eqn:ER.
  unfold rollingUpdate, getNodesToDaemonPods, getDaemonPods, updatedDesiredNodeCounts in ER.
  unfold bind at 1 2 in ER. unfold call at 1 in ER. rewrite Hclaim in ER.
  match type of ER with context [mkWorld s ?a ?b ?c ?d ?e ?f] => set (w0 := mkWorld s a b c d e f) in ER end.
  unfold ret at 1 in ER.
  assert (Hr : should_run ds w0 = should_run ds w) by done.
  destruct (desired_nodes_spec ds nodes (nodes_to_pods pods) 0 w0) as (w1 & E & Ht & Hs & Hc).
  unfold bind at 1 2 in ER. rewrite E in ER. clear E. unfold ret at 1 in ER. rewrite Z.add_0_l, Hr, Hlim in ER.
  change (with_nodes ds w0 nodes (nodes_to_pods pods)) with (with_nodes ds w nodes (nodes_to_pods pods)) in ER.
  unfold bind at 1 in ER. destruct (filterDaemonPodsToUpdate range ds nodes (revision_label cur) _ w1) as [w2 r] eqn:Ef.
  pose proof (filter_reads range ds (revision_label cur) nodes (with_nodes ds w nodes (nodes_to_pods pods)) w1
    (mkWorld s (w_scale w) (w_rv w) (w_upd w) (w_local w) (w_dur w) (w_trace w)) Hs) as Hsame. rewrite Ef in Hsame. cbn [snd] in Hsame.
  apply (filter_pods_spec range range_perm) in Ef as [-> _].
  exists w1. split; [rewrite Ht; cbn; by rewrite app_nil_r|].
  destruct (update_nodes ds nodes cur w s pods) as [err|chosen] eqn:Eu.
  - unfold update_nodes in Eu. rewrite <-Hsame in Eu. destruct r as [e|m']; [|done]. injection ER as <- <-. by eexists.
  - destruct (update_nodes_sound _ _ _ _ _ _ _ Eu) as (_ & m' & Em & Hent). rewrite Em in Hsame. subst r.
    unfold run_plan. by rewrite <-Hent, <-ER.
Qed.

(** C6: A rolling update without surge takes available pods away only within [maxUnavailable].
    On whatever server that finds pods by name, with writes failing or not, hooks, in-place
    updates and any order of the map, for pods of different names: the update works on the
    nodes that [filterDaemonPodsToUpdate] leaves and does nothing when that fails.  The nodes
    are existing ones that run a pod or should; a node with an old pod to replace is among them
    only together with every node that has none, so that no node with a new pod that is not
    available escapes the count; and without partition and selector they are all of them.
    Every pod that is deleted, updated in place or prepared for deletion is the single old pod
    of such a node, no pod is created, and either no pod that serves is touched, or all these
    nodes but [maxUnavailable], not counting those whose old pod was not available before, keep
    an available pod that is not touched. *)
Theorem daemon_rolling_budget ds nodes cur olds w s pods maxUnavailable :
  ClaimDaemonPods ds (w_server w) = (s, inr pods) -> NoDup (map p_name pods) ->
  rolling_limits ds (countb (should_run ds w) nodes) = inr (0, maxUnavailable) ->
  let state n := node_state now ds (revision_label cur) (on pods n) in
  exists evs,
    w_trace (rollingUpdate NamespaceTerminating validLabel range now nowStr scheduled ds nodes cur olds w).1 = w_trace w ++ evs /\
    match update_nodes ds nodes cur w s pods with
    | inl _ => evs = []
    | inr chosen =>
        sound_choice ds nodes cur w pods chosen /\ creates evs = [] /\
        (forall name, name ∈ touched evs -> exists n p, n ∈ chosen /\ (state n = Stale p \/ state n = Outdated p) /\ p_name p = name) /\
        let kept := countb (keeps now ds (revision_label cur) pods (touched evs)) chosen in
        (kept = countb (fun n => serving (state n)) chosen \/
         len chosen - countb (fun n => is_stale (state n)) chosen - maxUnavailable <= kept)
    end.
Proof.
  intros Hclaim Hnd Hlim state.
  destruct (rollingUpdate_plan ds nodes cur olds w s pods 0 maxUnavailable Hclaim Hlim) as (w1 & Ht & Hplan).
  destruct (update_nodes ds nodes cur w s pods) as [err|chosen] eqn:Eu.
  { destruct Hplan as [e E]. exists []. by rewrite E, app_nil_r. }
  apply update_nodes_sound in Eu as [Hsound _]. pose proof Hsound as (Hc & _).
  rewrite Hplan. unfold run_plan. cbn [Z.eqb].
  set (D := roll_deletes _ _). destruct (replace_pods_emits NamespaceTerminating now nowStr scheduled named ds D cur olds (revision_label cur) w1) as (evs & Htr & Htd & Hcr).
  exists evs. rewrite Htr, Ht. split; [done|]. split; [done|]. split; [done|]. split.
  - intros name Hn. apply Htd in Hn. by apply roll_deletes_old in Hn.
  - assert (Hmono : countb (keeps now ds (revision_label cur) pods D) chosen <= countb (keeps now ds (revision_label cur) pods (touched evs)) chosen).
    { apply countb_mono. intros n. unfold keeps, pod_in. rewrite !andb_true_iff, !negb_true_iff. intros [? Hk]. split; [done|].
      destruct (state_pod _); [|done]. apply bool_decide_eq_false in Hk. apply bool_decide_eq_false. auto. }
    assert (Hle : countb (keeps now ds (revision_label cur) pods (touched evs)) chosen <= countb (fun n => serving (state n)) chosen).
    { apply countb_mono. intros n. unfold keeps. by rewrite andb_true_iff; intros [? _]. }
    destruct (roll_keeps now ds (revision_label cur) pods maxUnavailable Hnd chosen Hc) as [Hk|Hk]; fold D in Hk; cbn zeta; [left|right].
    + fold state in Hk. unfold state in *. lia.
    + unfold state in *. lia.
Qed.
End Update.

(** Three nodes, of which one has an old pod that is available, one an old pod that is not and
    one a new pod that is not; with [maxUnavailable] 2 both old pods are deleted.  With
    [maxUnavailable] 1 only the one that is not available would be. *)
Lemma daemon_rolling_budget_witness :
  let ds := ex_set 2 0 None in
  let hash := revision_label (ex_revision "h2") in
  let pods := [ex_pod "n1" "h1" true; ex_pod "n2" "h1" false; ex_pod "n3" "h2" false] in
  let nodes := map ex_node ["n1"; "n2"; "n3"]%string in
  let w := ex_ds_world (mkServer [ds] pods nodes ∅) in
  let w' := (rollingUpdate (S := DSServer) (H1 := toy_errors) (H2 := stable_GoSort) (fun _ => false) (fun _ _ => true) map_to_list
               100 "" true ds nodes (ex_revision "h2") [] w).1 in
  touched (w_trace w') = ["p-n2"; "p-n1"]%string /\
  exists chosen evs, chosen ≡ₚ ["n1"; "n2"; "n3"]%string /\ w_trace w' = w_trace w ++ evs /\ creates evs = [] /\
    let kept := countb (keeps 100 ds hash pods (touched evs)) chosen in
    (kept = countb (fun n => serving (node_state 100 ds hash (on pods n))) chosen \/
     len chosen - countb (fun n => is_stale (node_state 100 ds hash (on pods n))) chosen - 2 <= kept).
Proof.
  intros ds hash pods nodes w w'. split; [by vm_compute|].
  destruct (daemon_rolling_budget (S := DSServer) (H1 := toy_errors) (H2 := stable_GoSort) (fun _ => false) (fun _ _ => true)
    map_to_list 100 "" true (fun m => reflexivity _) ex_ds_named ds nodes (ex_revision "h2") [] w (w_server w) pods 2)
    as (evs & Ht & Hk).
  - by vm_compute.
  - apply (bool_decide_unpack _). by vm_compute.
  - by vm_compute.
  - destruct (update_nodes _ _ _ _ _ _ _ _) as [err|chosen] eqn:Eu; [by vm_compute in Eu|].
    destruct Hk as (_ & Hc & _ & Hk). exists chosen, evs. split; [|split; [exact Ht|split; [exact Hc|exact Hk]]].
    vm_compute in Eu. injection Eu as <-. apply (bool_decide_unpack _). by vm_compute.
Defined.

(** With a partition of 2 one of three old nodes is left to work on. *)
Lemma daemon_partition_kept_witness :
  let ds := ex_set 1 0 (Some 2) in
  let pods := [ex_pod "n1" "h1" true; ex_pod "n2" "h1" true; ex_pod "n3" "h1" true] in
  let nodes := map ex_node ["n1"; "n2"; "n3"]%string in
  let m := nodes_to_pods pods in
  let w := ex_ds_world (mkServer [ds] pods nodes ∅) in
  exists m', filterDaemonPodsToUpdate (S := DSServer) (H2 := stable_GoSort) map_to_list ds nodes "h2" m w = (w, inr m') /\
    2 <= countb (fun n => live_old ds "h2" (pods_on m n) && bool_decide (n ∉ dom m')) (map fst (map_to_list (existing nodes m))).
Proof.
  intros ds pods nodes m w. eexists. split; [by vm_compute|].
  etrans; [|apply (daemon_partition_kept (S := DSServer) (H2 := stable_GoSort) map_to_list (fun m => reflexivity _) ds "h2" nodes m w w)].
  - by vm_compute.
  - by vm_compute.
Defined.
