(* ===== verification/DaemonSetSurge.v ===== *)
(** * Advanced DaemonSet: surging updates

    A rolling update that may run a second pod on a node: old pods are deleted only where a
    new one is available, and the extra pods stay within [maxSurge]. *)

From S2P Require Import Prelude GoLib GoText K8s Tools Expectations Lifecycle Selector UpdateSort CloneSetDiff.
From S2P Require Import ControllerExpectations World Scheduling RevisionHistory DaemonSet DaemonSetSync DaemonSetRolling.
Open Scope Z_scope.
Open Scope kruise_scope.

Section States.
Context (now : Z) (ds : DaemonSet) (hash : string).

(** A node with surge: [Surging] counts against the surge, [Replaced] has an old pod next to
    an available new one, [Lagging] an old pod that is not available, [Ready_] one that is,
    both without a new pod, and on the others there is nothing to do. *)
Inductive SurgeState := Surging | Replaced (new old : Pod) | Lagging (old : Pod) | Ready_ (old : Pod) | Settled.
Definition surge_state (pods : list Pod) : SurgeState :=
  match findUpdatedPodsOnNode ds pods hash with
  | None => Surging
  | Some (_, None) => Settled
  | Some (newPod, Some old) =>
      if isPodPreDeleting old then Settled
      else
        match newPod with
        | None => if available now ds old then Ready_ old else Lagging old
        | Some new => if negb (available now ds new) || isPodPreDeleting new then Surging else Replaced new old
        end
  end.
Definition surging (s : SurgeState) : bool := match s with Surging => true | _ => false end.
Definition replaced_name (s : SurgeState) : option string := match s with Replaced _ old => Some (p_name old) | _ => None end.
Definition is_lagging (s : SurgeState) : bool := match s with Lagging _ => true | _ => false end.
Definition is_ready (s : SurgeState) : bool := match s with Ready_ _ => true | _ => false end.

Lemma surge_node_state maxSurge plan n pods :
  surge_node now ds hash maxSurge plan (n, pods) =
  match surge_state pods with
  | Surging => mkSurge (sp_delete plan) (sp_candidates plan) (sp_allowed plan) (sp_surge plan + 1)
  | Replaced _ old => mkSurge (sp_delete plan ++ [p_name old]) (sp_candidates plan) (sp_allowed plan) (sp_surge plan)
  | Lagging _ => mkSurge (sp_delete plan) (sp_candidates plan) (sp_allowed plan ++ [n]) (sp_surge plan)
  | Ready_ _ => if maxSurge <=? sp_surge plan then plan
                else mkSurge (sp_delete plan) (sp_candidates plan ++ [n]) (sp_allowed plan) (sp_surge plan)
  | Settled => plan
  end.
Proof.
  destruct plan as [de ca al su]. unfold surge_node, surge_state, available.
  cbn [fst snd sp_delete sp_candidates sp_allowed sp_surge].
  destruct (findUpdatedPodsOnNode _ _ _) as [[np [old|]]|]; try done. destruct (isPodPreDeleting old); [done|].
  destruct np as [new|]; [|by destruct (IsPodAvailable_k8s _ _ _)].
  destruct (IsPodAvailable_k8s _ _ _); cbn; [by destruct (isPodPreDeleting new)|done].
Qed.

Section Plan.
Context (on : string -> list Pod) (maxSurge : Z).
Local Abbreviation st n := (surge_state (on n)).
Local Abbreviation entries l := (map (fun n => (n, on n)) l).

Lemma surge_plan_spec chosen plan :
  let plan' := fold_left (surge_node now ds hash maxSurge) (entries chosen) plan in
  sp_surge plan' = sp_surge plan + countb (fun n => surging (st n)) chosen /\
  sp_delete plan' = sp_delete plan ++ omap (fun n => replaced_name (st n)) chosen /\
  sp_allowed plan' = sp_allowed plan ++ filterb (fun n => is_lagging (st n)) chosen /\
  exists l, l `sublist_of` filterb (fun n => is_ready (st n)) chosen /\ sp_candidates plan' = sp_candidates plan ++ l.
Proof.
  revert plan. induction chosen as [|n chosen IH]; intros plan; cbn [map fold_left].
  { cbn. rewrite !app_nil_r, Z.add_0_r. do 3 (split; [done|]). exists []. by rewrite app_nil_r. }
  destruct (IH (surge_node now ds hash maxSurge plan (n, on n))) as (E1 & E2 & E3 & l & Hl & E4).
  cbn zeta. rewrite E1, E2, E3, E4. rewrite surge_node_state. cbn [countb filterb omap list_omap].
  destruct (st n) as [|new old|old|old|]; cbn; rewrite <-?app_assoc.
  - split; [lia|]. do 2 (split; [done|]). by exists l.
  - split; [lia|]. do 2 (split; [done|]). by exists l.
  - split; [lia|]. do 2 (split; [done|]). by exists l.
  - destruct (maxSurge <=? sp_surge plan); cbn.
    + split; [lia|]. do 2 (split; [done|]). exists l. split; [by apply sublist_cons|done].
    + split; [lia|]. do 2 (split; [done|]). exists (n :: l). rewrite <-app_assoc. split; [by apply sublist_skip|done].
  - split; [lia|]. do 2 (split; [done|]). by exists l.
Qed.

(** The nodes that get a new pod: all lagging ones, and ready ones within the surge. *)
Lemma surge_creates_spec chosen :
  let plan := surge_plan now ds hash maxSurge (entries chosen) in
  sp_delete plan = omap (fun n => replaced_name (st n)) chosen /\
  exists l, surge_creates maxSurge plan = filterb (fun n => is_lagging (st n)) chosen ++ l /\
    l `sublist_of` filterb (fun n => is_ready (st n)) chosen /\
    len l <= Z.max (maxSurge - countb (fun n => surging (st n)) chosen) 0.
Proof.
  cbn zeta. unfold surge_plan. destruct (surge_plan_spec chosen (mkSurge [] [] [] 0)) as (E1 & E2 & E3 & l & Hl & E4).
  cbn [sp_delete sp_candidates sp_allowed sp_surge] in *. split; [done|].
  unfold surge_creates. rewrite E1, E3, E4. cbn [app]. eexists. split; [reflexivity|]. split.
  - etrans; [|exact Hl]. unfold slice_to. apply sublist_take.
  - unfold slice_to. rewrite length_take. lia.
Qed.

(** The nodes with a new pod differ, and those among them with an available old pod are
    within the surge. *)
Lemma surge_creates_bound chosen targets : NoDup chosen ->
  targets `sublist_of` surge_creates maxSurge (surge_plan now ds hash maxSurge (entries chosen)) ->
  NoDup targets /\ (forall n, n ∈ targets -> n ∈ chosen /\ (is_lagging (st n) = true \/ is_ready (st n) = true)) /\
  countb (fun n => is_ready (st n)) targets <= Z.max (maxSurge - countb (fun n => surging (st n)) chosen) 0.
Proof.
  intros Hn Ht. destruct (surge_creates_spec chosen) as (_ & l & E & Hl & Hlen). rewrite E in Ht.
  assert (Hall : NoDup (filterb (fun n => is_lagging (st n)) chosen ++ l)).
  { apply NoDup_app. split; [eapply sublist_NoDup; [exact Hn|apply filterb_sublist]|]. split.
    - intros n [_ Hlag]%filterb_elem Hin. eapply elem_of_sublist in Hin; [|exact Hl]. apply filterb_elem in Hin as [_ Hr].
      by destruct (st n).
    - eapply sublist_NoDup; [exact Hn|]. etrans; [exact Hl|apply filterb_sublist]. }
  split; [by eapply sublist_NoDup|]. split.
  - intros n Hin. eapply elem_of_sublist in Hin; [|exact Ht]. apply elem_of_app in Hin as [Hin|Hin].
    + apply filterb_elem in Hin as [? ?]. auto.
    + eapply elem_of_sublist in Hin; [|exact Hl]. apply filterb_elem in Hin as [? ?]. auto.
  - etrans; [|exact Hlen].
    transitivity (countb (fun n => is_ready (st n)) (filterb (fun n => is_lagging (st n)) chosen ++ l)).
    { rewrite !countb_filterb. apply inj_le, sublist_length. clear -Ht.
      induction Ht as [|x l1 l2 Hs IH|x l1 l2 Hs IH]; cbn [filterb]; [done|destruct (is_ready _); [by apply sublist_skip|done]|].
      destruct (is_ready _); [by apply sublist_cons|done]. }
    rewrite countb_app. rewrite (proj2 (countb_zero _ _)).
    + rewrite Z.add_0_l. apply countb_le_length.
    + intros n [_ Hlag]%filterb_elem. by destruct (st n).
Qed.
End Plan.

(** The two pods of a node are told apart by their revision. *)
Lemma find_updated_kinds pods newPod oldPod a b :
  (forall p, newPod = Some p -> IsPodUpdated p hash (GetTemplateGeneration ds) = true) ->
  (forall p, oldPod = Some p -> IsPodUpdated p hash (GetTemplateGeneration ds) = false) ->
  find_updated ds pods hash newPod oldPod = Some (a, b) ->
  (forall p, a = Some p -> IsPodUpdated p hash (GetTemplateGeneration ds) = true) /\
  (forall p, b = Some p -> IsPodUpdated p hash (GetTemplateGeneration ds) = false).
Proof.
  revert newPod oldPod. induction pods as [|q pods IH]; intros newPod oldPod Hn Ho E; cbn in E.
  { by injection E as <- <-. }
  destruct (p_deletion q); [by eapply IH|]. destruct (IsPodUpdated q _ _) eqn:Eq.
  - destruct newPod; [done|]. eapply IH; [|exact Ho|exact E]. by intros p [= <-].
  - destruct oldPod; [done|]. eapply IH; [exact Hn| |exact E]. by intros p [= <-].
Qed.

Lemma replaced_pods pods new old : surge_state pods = Replaced new old ->
  findUpdatedPodsOnNode ds pods hash = Some (Some new, Some old) /\ available now ds new = true /\
  isPodPreDeleting new = false /\ new ∈ pods /\ old ∈ pods /\ new <> old.
Proof.
  unfold surge_state. destruct (findUpdatedPodsOnNode ds pods hash) as [[np [o|]]|] eqn:E; try done.
  destruct (isPodPreDeleting o); [done|]. destruct np as [p|]; [|by destruct (available now ds o)].
  destruct (available now ds p) eqn:Ea, (isPodPreDeleting p) eqn:Ep; try done. cbn. intros [= -> ->].
  split; [done|]. split; [done|]. split; [done|].
  split; [eapply findUpdated_elem; [exact E|by left]|]. split; [eapply findUpdated_elem; [exact E|by right]|].
  intros ->. apply find_updated_kinds in E as [K1 K2]; [|done|done].
  specialize (K1 _ eq_refl). specialize (K2 _ eq_refl). congruence.
Qed.
End States.

Section Update.
Context {S : Type} `{Api S} `{DaemonApi S} `{ApiErrors} `{GoSort}.
Context (NamespaceTerminating : error -> bool) (validLabel : string -> list string -> bool).
Context (range : gmap string (list Pod) -> list (string * list Pod)).
Context (now : Z) (nowStr : string) (scheduled : bool).
Hypothesis range_perm : forall m, range m ≡ₚ map_to_list m.
Hypothesis named : forall ns n s p, GetPodNamed ns n s = inr p -> p_name p = n.

(** C34: A rolling update with surge never leaves a node without the pod that serves it, and
    surges within [maxSurge].  On whatever server that finds pods by name and for pods of
    different names, the update works on the nodes that [filterDaemonPodsToUpdate] leaves and
    does nothing when that fails: existing nodes that run a pod or should, a node with an old pod
    to replace only together with every node that has none, and all of them without partition and
    selector.  Every pod that is deleted or prepared for deletion is the old pod of such a node
    that also has a new one, available, not about to be deleted and not touched itself; and the
    pods that are created go to different such nodes that have an old pod and no new one, of which
    those with an available old pod are at most [maxSurge] less the nodes that are surging already. *)
Theorem daemon_surge_limits ds nodes cur olds w s pods maxSurge maxUnavailable :
  ClaimDaemonPods ds (w_server w) = (s, inr pods) -> NoDup (map p_name pods) ->
  rolling_limits ds (countb (should_run validLabel ds w) nodes) = inr (maxSurge, maxUnavailable) -> maxSurge <> 0 ->
  let hash := revision_label cur in
  let state n := surge_state now ds hash (on pods n) in
  exists evs,
    w_trace (rollingUpdate NamespaceTerminating validLabel range now nowStr scheduled ds nodes cur olds w).1 = w_trace w ++ evs /\
    match update_nodes validLabel range ds nodes cur w s pods with
    | inl _ => evs = []
    | inr chosen =>
        sound_choice validLabel ds nodes cur w pods chosen /\
        (forall name, name ∈ touched evs -> exists n new old, n ∈ chosen /\
           findUpdatedPodsOnNode ds (on pods n) hash = Some (Some new, Some old) /\ p_name old = name /\
           available now ds new = true /\ isPodPreDeleting new = false /\ p_name new ∉ touched evs) /\
        exists targets, creates evs = map (daemon_pod scheduled ds (pod_template ds hash)) targets /\
          NoDup targets /\ (forall n, n ∈ targets -> n ∈ chosen /\ (is_lagging (state n) = true \/ is_ready (state n) = true)) /\
          countb (fun n => is_ready (state n)) targets <= Z.max (maxSurge - countb (fun n => surging (state n)) chosen) 0
    end.
Proof.
  intros Hclaim Hnd Hlim Hms hash state.
  destruct (rollingUpdate_plan NamespaceTerminating validLabel range now nowStr scheduled range_perm ds nodes cur olds w s pods
    maxSurge maxUnavailable Hclaim Hlim) as (w1 & Ht & Hplan).
  destruct (update_nodes validLabel range ds nodes cur w s pods) as [err|chosen] eqn:Eu.
  { destruct Hplan as [e E]. exists []. by rewrite E, app_nil_r. }
  apply (update_nodes_sound validLabel range range_perm) in Eu as [Hsound _]. pose proof Hsound as (Hc & _).
  rewrite Hplan. unfold run_plan. rewrite (proj2 (Z.eqb_neq _ _)) by done. fold hash.
  set (plan := surge_plan _ _ _ _ _).
  destruct (syncNodes_emits NamespaceTerminating now nowStr scheduled named ds (sp_delete plan) (surge_creates maxSurge plan) hash w1)
    as (evs & Htr & Htd & k & Hk).
  set (targets := if bool_decide (size (t_labels (pod_template ds hash)) = 0%nat) then [] else take k (surge_creates maxSurge plan)).
  assert (Htgt : targets `sublist_of` surge_creates maxSurge plan).
  { unfold targets. case_bool_decide; [apply sublist_nil_l|apply sublist_take]. }
  destruct (surge_creates_bound now ds hash (on pods) maxSurge chosen targets Hc Htgt) as (T1 & T2 & T3).
  exists evs. rewrite Htr, Ht. split; [done|]. split; [done|]. split; [|exists targets; split; [|done]].
  - assert (Hold : forall name, name ∈ touched evs -> exists n new old, n ∈ chosen /\ state n = Replaced new old /\ p_name old = name).
    { intros name Hn. apply Htd in Hn. destruct (surge_creates_spec now ds hash (on pods) maxSurge chosen) as [Ed _].
      fold plan in Ed. rewrite Ed in Hn. apply list_elem_of_omap in Hn as (n & Hin & Hr). fold (state n) in Hr.
      destruct (state n) as [|new old| | |] eqn:Es; try done. injection Hr as <-. eauto 6. }
    intros name Hn. destruct (Hold name Hn) as (n & new & old & Hin & Es & En). exists n, new, old.
    apply replaced_pods in Es as (Ef & Ea & Ep & Inew & Iold & Hne). do 5 (split; [done|]).
    intros Hx. destruct (Hold _ Hx) as (n' & new' & old' & Hin' & Es' & En').
    apply replaced_pods in Es' as (Ef' & _ & _ & _ & Iold' & _).
    apply on_elem in Inew as [Inew Hn1], Iold' as [Iold' Hn2].
    assert (new = old') as <- by (by eapply (nodup_map_inj p_name)). assert (n = n') as <- by congruence. congruence.
  - rewrite Hk. unfold targets. by case_bool_decide.
Qed.
End Update.

(** Three nodes with old pods and one that has surged: the old pod next to the new one is
    deleted, and with [maxSurge] 1 one of the two available old pods gets a new one beside it,
    as well as the one that is not available. *)
Lemma daemon_surge_limits_witness :
  let ds := ex_set 0 1 None in
  let hash := revision_label (ex_revision "h2") in
  let new := with_labels (with_name (ex_pod "n4" "h1" true) "q-n4" "ns") {[ ControllerRevisionHashLabelKey := "h2"%string ]} in
  let pods := [ex_pod "n1" "h1" true; ex_pod "n2" "h1" false; ex_pod "n3" "h1" true; ex_pod "n4" "h1" true; new] in
  let nodes := map ex_node ["n1"; "n2"; "n3"; "n4"]%string in
  let w := ex_ds_world (mkServer [ds] pods nodes ∅) in
  let w' := (rollingUpdate (S := DSServer) (H1 := toy_errors) (H2 := stable_GoSort) (fun _ => false) (fun _ _ => true) map_to_list
               100 "" true ds nodes (ex_revision "h2") [] w).1 in
  touched (w_trace w') = ["p-n4"]%string /\ length (creates (w_trace w')) = 2%nat /\
  exists chosen evs targets, chosen ≡ₚ ["n1"; "n2"; "n3"; "n4"]%string /\ w_trace w' = w_trace w ++ evs /\
    creates evs = map (daemon_pod true ds (pod_template ds hash)) targets /\ NoDup targets /\
    countb (fun n => is_ready (surge_state 100 ds hash (on pods n))) targets
    <= Z.max (1 - countb (fun n => surging (surge_state 100 ds hash (on pods n))) chosen) 0.
Proof.
  intros ds hash new pods nodes w w'. split; [by vm_compute|]. split; [by vm_compute|].
  destruct (daemon_surge_limits (S := DSServer) (H1 := toy_errors) (H2 := stable_GoSort) (fun _ => false) (fun _ _ => true)
    map_to_list 100 "" true (fun m => reflexivity _) ex_ds_named ds nodes (ex_revision "h2") [] w (w_server w) pods 1 0)
    as (evs & Ht & Hk).
  - by vm_compute.
  - apply (bool_decide_unpack _). by vm_compute.
  - by vm_compute.
  - done.
  - destruct (update_nodes _ _ _ _ _ _ _ _) as [err|chosen] eqn:Eu; [by vm_compute in Eu|].
    destruct Hk as (_ & _ & targets & Hc & Hnt & _ & Hk). exists chosen, evs, targets.
    split; [|split; [exact Ht|split; [exact Hc|split; [exact Hnt|exact Hk]]]].
    vm_compute in Eu. injection Eu as <-. apply (bool_decide_unpack _). by vm_compute.
Defined.
