(* ===== verification/DaemonSetManage.v ===== *)
(** * Advanced DaemonSet: the plan of a node

    Which pods [podsShouldBeOnNode] removes and whether it asks for a new one, for every
    combination of the node's fitness, its pods, and surge. *)

From S2P Require Import Prelude GoLib GoText K8s Tools Expectations Lifecycle Selector UpdateSort CloneSetDiff.
From S2P Require Import ControllerExpectations World Scheduling RevisionHistory DaemonSet DaemonSetSync DaemonSetRolling.
Open Scope Z_scope.
Open Scope kruise_scope.

(** The order of the pods of a node. *)
#[export] Instance podByCreation_sw : StrictWeak podByCreationTimestampAndPhase.
Proof.
  assert (Hn : StrictWeak (fun a b => string_lt (p_name a) (p_name b))).
  { split; intros *; [apply sw_irrefl|apply sw_trans|apply sw_cotrans]. }
  pose proof (StrictWeak_lex p_creation _ (StrictWeak0 := Hn)) as Hc.
  pose proof (StrictWeak_lex (fun p => if String.eqb (p_node p) "" then 1 else 0) _ (StrictWeak0 := Hc)) as Hr.
  revert Hr. apply StrictWeak_ext. intros x y. unfold podByCreationTimestampAndPhase.
  by destruct (String.eqb (p_node x) ""), (String.eqb (p_node y) ""), (p_creation x =? p_creation y).
Qed.

Section Plan.
Context {S : Type} `{Api S} `{DaemonApi S} `{ApiErrors} `{GoSort}.
Context (validLabel : string -> list string -> bool) (now : Z).

(** A pod that goes on running, and one that is terminating. *)
Definition is_running (p : Pod) : bool :=
  match p_deletion p with
  | Some _ => false
  | None => negb (String.eqb (p_phase p) PodFailed) && negb (isPodPreDeleting p)
  end.
Definition terminating (p : Pod) : bool := match p_deletion p with Some _ => true | None => false end.

Lemma running_pods_spec ds n pods run del w :
  exists w' fd, running_pods (S := S) now ds n pods run del w = (w', (run ++ filterb is_running pods, del ++ fd)) /\
    w_trace w' = w_trace w /\ w_server w' = w_server w /\
    forall name, name ∈ fd -> exists p, p ∈ pods /\ p_name p = name /\ terminating p = false /\ is_running p = false.
Proof.
  revert run del w. induction pods as [|p pods IH]; intros run del w; cbn [running_pods filterb].
  { exists w, []. rewrite !app_nil_r. repeat split; try done. by intros name ?%not_elem_of_nil. }
  assert (Hskip : forall w1, w_trace w1 = w_trace w -> w_server w1 = w_server w ->
    exists w' fd, running_pods (S := S) now ds n pods run del w1 = (w', (run ++ filterb is_running pods, del ++ fd)) /\
    w_trace w' = w_trace w /\ w_server w' = w_server w /\
    forall name, name ∈ fd -> exists q, q ∈ p :: pods /\ p_name q = name /\ terminating q = false /\ is_running q = false).
  { intros w1 Et Es. destruct (IH run del w1) as (w' & fd & -> & Ht & Hs & Hf). exists w', fd.
    split; [done|]. split; [congruence|]. split; [congruence|]. intros name Hn. destruct (Hf name Hn) as (q & ? & ?). exists q. set_solver. }
  assert (Hdel : terminating p = false -> is_running p = false -> forall w1, w_trace w1 = w_trace w -> w_server w1 = w_server w ->
    exists w' fd, running_pods (S := S) now ds n pods run (del ++ [p_name p]) w1 = (w', (run ++ filterb is_running pods, del ++ fd)) /\
    w_trace w' = w_trace w /\ w_server w' = w_server w /\
    forall name, name ∈ fd -> exists q, q ∈ p :: pods /\ p_name q = name /\ terminating q = false /\ is_running q = false).
  { intros Hp Hp' w1 Et Es. destruct (IH run (del ++ [p_name p]) w1) as (w' & fd & -> & Ht & Hs & Hf). exists w', (p_name p :: fd).
    rewrite <-app_assoc. split; [done|]. split; [congruence|]. split; [congruence|].
    intros name [->|Hn]%elem_of_cons; [exists p; set_solver|]. destruct (Hf name Hn) as (q & ? & ?). exists q. set_solver. }
  destruct (is_running p) eqn:Er; unfold is_running in Er; destruct (p_deletion p) eqn:Ed; try done.
  - destruct (String.eqb (p_phase p) PodFailed); [done|]. destruct (isPodPreDeleting p); [done|].
    destruct (IH (run ++ [p]) del w) as (w' & fd & -> & Ht & Hs & Hf). exists w', fd. rewrite <-app_assoc.
    split; [done|]. split; [done|]. split; [done|]. intros name Hn. destruct (Hf name Hn) as (q & ? & ?). exists q. set_solver.
  - by apply Hskip.
  - assert (Hd : terminating p = false) by (unfold terminating; by rewrite Ed). specialize (Hdel Hd eq_refl).
    destruct (String.eqb (p_phase p) PodFailed); [|destruct (isPodPreDeleting p); [by apply Hdel|done]].
    unfold ask_local, bind. destruct (Backoff.IsInBackOffSinceUpdate _ _ _ _); [by apply Hskip|by apply Hdel].
Qed.

(** ** The pods that surge keeps *)

Definition is_new (hash : string) (p : Pod) : bool := String.eqb (lbl (p_labels p) ControllerRevisionHashLabelKey) hash.

Lemma oldest_pods_spec hash l n o d n' o' d' : oldest_pods hash l n o d = (n', o', d') ->
  n' = match n with None => head (filterb (is_new hash) l) | Some _ => n end /\
  o' = match o with None => head (filterb (fun p => negb (is_new hash p)) l) | Some _ => o end /\
  exists x, d' = d ++ map p_name x /\
    l ≡ₚ x ++ (match n with None => option_list n' | Some _ => [] end) ++ (match o with None => option_list o' | Some _ => [] end).
Proof.
  revert n o d. induction l as [|p l IH]; intros n o d E; cbn [oldest_pods filterb] in *.
  { injection E as <- <- <-. split; [by destruct n|]. split; [by destruct o|]. exists []. rewrite app_nil_r. by destruct n, o. }
  fold (is_new hash p) in E. destruct (is_new hash p) eqn:Ep; cbn [negb head].
  - destruct n as [q|]; destruct (IH _ _ _ E) as (-> & -> & x & -> & Hp); (split; [done|]); (split; [done|]).
    + exists (p :: x). rewrite <-app_assoc. cbn. by rewrite Hp at 1.
    + exists x. split; [done|]. cbn in *. rewrite Hp at 1. solve_Permutation.
  - destruct o as [q|]; destruct (IH _ _ _ E) as (-> & -> & x & -> & Hp); (split; [done|]); (split; [done|]).
    + exists (p :: x). rewrite <-app_assoc. cbn. by rewrite Hp at 1.
    + exists x. split; [done|]. cbn in *. rewrite Hp at 1. solve_Permutation.
Qed.
(** ** What is kept of the running pods *)

(** Two pods of which one node keeps one: any two without surge, two of one side of the
    update with it. *)
Definition rivals (ds : DaemonSet) (hash : string) (p q : Pod) : Prop :=
  allowSurge ds = false \/ is_new hash p = is_new hash q.

Record good_keep (ds : DaemonSet) (hash : string) (running keep : list Pod) : Prop := {
  gk_some : running <> [] -> keep <> [];
  gk_oldest : forall p q, p ∈ keep -> q ∈ running -> rivals ds hash p q -> podByCreationTimestampAndPhase q p = false;
  gk_one : forall p q, p ∈ keep -> q ∈ keep -> rivals ds hash p q -> p = q;
  gk_both : forall p q, p ∈ keep -> q ∈ keep -> is_new hash p = true -> is_new hash q = false ->
    IsPodReady q = true /\ IsPodAvailable_k8s p (ds_MinReadySeconds ds) now = false;
}.

Lemma good_keep_small ds hash running : (length running <= 1)%nat -> good_keep ds hash running running.
Proof.
  intros Hl. destruct running as [|p [|]]; cbn in Hl; [| |lia].
  - split; [done|..]; by intros p q ?%not_elem_of_nil.
  - split; [done|..]; intros a b ->%list_elem_of_singleton ->%list_elem_of_singleton.
    + intros _. apply sw_irrefl.
    + done.
    + congruence.
Qed.

Lemma sorted_head less (l : list Pod) p q : StrictWeak less -> sorted_by less l -> head l = Some p -> q ∈ l -> less q p = false.
Proof.
  intros Hw Hs Hp Hq. destruct l as [|x l]; [done|]. injection Hp as ->.
  apply elem_of_cons in Hq as [->|Hq]; [apply sw_irrefl|]. apply StronglySorted_inv in Hs as [_ Hf].
  rewrite Forall_forall in Hf. by apply Hf.
Qed.

Lemma sorted_filterb less f (l : list Pod) : sorted_by less l -> sorted_by less (filterb f l).
Proof.
  induction 1 as [|x l Hs IH Hf]; cbn; [constructor|]. destruct (f x); [|done]. constructor; [done|].
  rewrite Forall_forall in *. intros y [Hy _]%filterb_elem. auto.
Qed.

(** The oldest of a side is kept. *)
Lemma oldest_of_side f running p q :
  head (filterb f (sort_by podByCreationTimestampAndPhase running)) = Some p -> q ∈ running -> f q = true ->
  podByCreationTimestampAndPhase q p = false /\ f p = true.
Proof.
  intros Hp Hq Hf. set (l := sort_by _ _) in *.
  assert (Hs : sorted_by podByCreationTimestampAndPhase l) by (apply sort_by_sorted, podByCreation_sw).
  split.
  - eapply sorted_head; [apply podByCreation_sw|apply sorted_filterb, Hs|exact Hp|]. apply filterb_elem. split; [|done].
    unfold l. by rewrite sort_by_perm.
  - assert (p ∈ filterb f l) as [_ ?]%filterb_elem by (destruct (filterb f l); [done|injection Hp as ->; left]). done.
Qed.

Lemma good_keep_plain ds hash running : allowSurge ds = false ->
  good_keep ds hash running (take 1 (sort_by podByCreationTimestampAndPhase running)).
Proof.
  intros Ha. set (l := sort_by _ _).
  assert (Hl : l ≡ₚ running) by apply sort_by_perm.
  assert (Hs : sorted_by podByCreationTimestampAndPhase l) by (apply sort_by_sorted, podByCreation_sw).
  destruct l as [|x l]; cbn [take].
  { apply Permutation_nil_l in Hl. split; [by rewrite Hl|..]; by intros p q ?%not_elem_of_nil. }
  split; [done|..]; intros p q ->%list_elem_of_singleton.
  - intros Hq _. eapply sorted_head; [apply podByCreation_sw|exact Hs|done|]. by rewrite Hl.
  - by intros ->%list_elem_of_singleton _.
  - intros ->%list_elem_of_singleton. congruence.
Qed.
Lemma head_filterb f (l : list Pod) p : head (filterb f l) = Some p -> p ∈ l /\ f p = true.
Proof. intros Hp%head_Some_elem_of. by apply filterb_elem in Hp. Qed.

Lemma option_list_elem {A} (o : option A) x : x ∈ option_list o <-> o = Some x.
Proof. destruct o; cbn; rewrite ?list_elem_of_singleton, ?elem_of_nil; naive_solver. Qed.

(** With surge the oldest pod of each side is kept. *)
Lemma good_keep_surge ds hash running n o :
  allowSurge ds = true ->
  n = head (filterb (is_new hash) (sort_by podByCreationTimestampAndPhase running)) ->
  o = head (filterb (fun p => negb (is_new hash p)) (sort_by podByCreationTimestampAndPhase running)) ->
  (forall p q, n = Some p -> o = Some q -> IsPodReady q = true /\ IsPodAvailable_k8s p (ds_MinReadySeconds ds) now = false) ->
  good_keep ds hash running (option_list n ++ option_list o).
Proof.
  intros Ha Hn Ho Hb.
  assert (Hside : forall p, p ∈ option_list n ++ option_list o ->
    p ∈ running /\ (if is_new hash p then n = Some p else o = Some p)).
  { intros p [Hp|Hp]%elem_of_app; apply option_list_elem in Hp; rewrite Hp in *;
      rewrite <-(sort_by_perm _ podByCreationTimestampAndPhase running).
    - destruct (head_filterb _ _ _ (eq_sym Hn)) as [? ->]. done.
    - destruct (head_filterb _ _ _ (eq_sym Ho)) as [? Hx]. apply negb_true_iff in Hx. by rewrite Hx. }
  split.
  - intros Hr E. apply app_eq_nil in E as [En Eo]. destruct n; [done|]. destruct o; [done|]. apply Hr, Permutation_nil_r.
    rewrite <-(sort_by_perm _ podByCreationTimestampAndPhase running), <-(filterb_perm_split (is_new hash) (sort_by _ _)).
    symmetry in Hn, Ho. apply head_None in Hn, Ho. by rewrite Hn, Ho.
  - intros p q Hp Hq [Hr|Hr]; [congruence|]. destruct (Hside p Hp) as [_ Hk].
    destruct (is_new hash p); rewrite Hk in *.
    + by apply (oldest_of_side (is_new hash) running p q).
    + apply (oldest_of_side (fun p => negb (is_new hash p)) running p q); [done..|by rewrite <-Hr].
  - intros p q Hp Hq [Hr|Hr]; [congruence|]. destruct (Hside p Hp) as [_ Kp], (Hside q Hq) as [_ Kq].
    rewrite Hr in Kp. destruct (is_new hash q); congruence.
  - intros p q Hp Hq Ep Eq. destruct (Hside p Hp) as [_ Kp], (Hside q Hq) as [_ Kq].
    rewrite Ep in Kp. rewrite Eq in Kq. by apply Hb.
Qed.

(** The new side alone is kept. *)
Lemma good_keep_new ds hash running p :
  allowSurge ds = true -> Some p = head (filterb (is_new hash) (sort_by podByCreationTimestampAndPhase running)) ->
  good_keep ds hash running [p].
Proof.
  intros Ha Hn. destruct (head_filterb _ _ _ (eq_sym Hn)) as [Hp Hnew]. split; [done|..]; intros a b ->%list_elem_of_singleton.
  - intros Hq [Hr|Hr]; [congruence|]. apply (oldest_of_side (is_new hash) running); [done..|congruence].
  - by intros ->%list_elem_of_singleton.
  - intros ->%list_elem_of_singleton. congruence.
Qed.

Lemma prune_surge_spec ds hash running d w : allowSurge ds = true ->
  exists w' x keep, prune_surge (S := S) now ds hash running d w = (w', d ++ map p_name x) /\
    w_trace w' = w_trace w /\ w_server w' = w_server w /\ running ≡ₚ x ++ keep /\ good_keep ds hash running keep.
Proof.
  intros Ha. unfold prune_surge. destruct (oldest_pods _ _ _ _ _) as [[n o] d'] eqn:E.
  destruct (oldest_pods_spec _ _ _ _ _ _ _ _ E) as (Hn & Ho & x & -> & Hx). rewrite sort_by_perm in Hx.
  assert (Hstay : forall w', w_trace w' = w_trace w -> w_server w' = w_server w ->
    (forall p q, n = Some p -> o = Some q -> IsPodReady q = true /\ IsPodAvailable_k8s p (ds_MinReadySeconds ds) now = false) ->
    exists w1 x0 keep, (w', d ++ map p_name x) = (w1, d ++ map p_name x0) /\
      w_trace w1 = w_trace w /\ w_server w1 = w_server w /\ running ≡ₚ x0 ++ keep /\ good_keep ds hash running keep).
  { intros w' Ht Hs Hb. exists w', x, (option_list n ++ option_list o). repeat (split; [done|]). by apply good_keep_surge. }
  assert (Hold : forall p q, n = Some p -> o = Some q ->
    exists w1 x0 keep, (w, (d ++ map p_name x) ++ [p_name q]) = (w1, d ++ map p_name x0) /\
      w_trace w1 = w_trace w /\ w_server w1 = w_server w /\ running ≡ₚ x0 ++ keep /\ good_keep ds hash running keep).
  { intros p q -> ->. exists w, (x ++ [q]), [p]. rewrite map_app, <-app_assoc. repeat (split; [done|]).
    split; [rewrite Hx; cbn; solve_Permutation|by apply good_keep_new]. }
  destruct n as [p|], o as [q|]; try by apply Hstay.
  destruct (IsPodReady q) eqn:Er; cbn [negb]; [|by apply (Hold p q)].
  destruct (IsPodAvailable_k8s p _ _) eqn:Ea; [by apply (Hold p q)|].
  destruct (_ && _); apply Hstay; try done; by intros ? ? [= <-] [= <-].
Qed.
Lemma continue_running_spec ds hash n (run : bool) pods w :
  let running := filterb is_running pods in
  exists w' fd x keep,
    continue_running (S := S) now ds hash n run pods w
    = (w', (if allowSurge ds && bool_decide (running = []) && run then [n] else [], fd ++ map p_name x)) /\
    w_trace w' = w_trace w /\ w_server w' = w_server w /\ running ≡ₚ x ++ keep /\ good_keep ds hash running keep /\
    forall name, name ∈ fd -> exists p, p ∈ pods /\ p_name p = name /\ terminating p = false /\ is_running p = false.
Proof.
  intros running. unfold continue_running, bind.
  destruct (running_pods_spec ds n pods [] [] w) as (w1 & fd & -> & Ht & Hs & Hf). cbn [app]. fold running.
  destruct (Z.leb_spec (len running) 1) as [Hl|Hl].
  - exists w1, fd, [], running. rewrite app_nil_r.
    split; [by destruct (allowSurge ds)|]. repeat (split; [done|]). split; [apply good_keep_small; lia|done].
  - assert (Hne : running <> []) by (intros E; rewrite E in Hl; cbn in Hl; lia). rewrite (bool_decide_eq_false_2 _ Hne).
    destruct (allowSurge ds) eqn:Ea; cbn [negb andb].
    + destruct (prune_surge_spec ds hash running fd w1 Ea) as (w2 & x & keep & -> & Ht2 & Hs2 & Hp & Hg).
      exists w2, fd, x, keep. split; [done|]. split; [congruence|]. split; [congruence|]. done.
    + exists w1, fd, (slice_from (sort_by podByCreationTimestampAndPhase running) 1), (take 1 (sort_by podByCreationTimestampAndPhase running)).
      split; [done|]. repeat (split; [done|]). split; [|split; [by apply good_keep_plain|done]].
      rewrite <-(sort_by_perm _ podByCreationTimestampAndPhase running) at 1. unfold slice_from. cbn [Z.to_nat].
      rewrite <-(take_drop 1 (sort_by _ _)) at 1. by rewrite Permutation_app_comm.
Qed.

(** The running pods whose names are not among the deleted ones are those that are kept. *)
Lemma kept_iff pods running fd x keep p :
  NoDup (map p_name pods) -> running = filterb is_running pods -> running ≡ₚ x ++ keep ->
  (forall name, name ∈ fd -> exists p, p ∈ pods /\ p_name p = name /\ terminating p = false /\ is_running p = false) ->
  p ∈ running -> p_name p ∉ fd ++ map p_name x <-> p ∈ keep.
Proof.
  intros Hnd -> Hx Hf Hp. pose proof Hp as [Hp0 Hr]%filterb_elem. rewrite not_elem_of_app.
  assert (Hndr : NoDup (x ++ keep)).
  { rewrite <-Hx. eapply sublist_NoDup, filterb_sublist. by eapply NoDup_fmap_1. }
  split.
  - intros [_ Hn]. rewrite Hx in Hp. apply elem_of_app in Hp as [Hp|Hp]; [|done]. destruct Hn. by apply (list_elem_of_fmap_2 p_name).
  - intros Hk. split.
    + intros (q & Hq & En & _ & Eq)%Hf. by rewrite (nodup_map_inj p_name pods q p Hnd Hq Hp0 En), Hr in Eq.
    + intros (q & En & Hq)%list_elem_of_fmap.
      assert (q ∈ pods) as Hq0 by (eapply (filterb_elem is_running); rewrite Hx; apply elem_of_app; by left).
      rewrite (nodup_map_inj p_name pods q p Hnd Hq0 Hp0 (eq_sym En)) in Hq. apply NoDup_app in Hndr as (_ & Hd & _). by apply (Hd p).
Qed.
(** A running pod of the node that the plan leaves alone. *)
Definition kept (pods : list Pod) (deleting : list string) (p : Pod) : Prop :=
  p ∈ pods /\ is_running p = true /\ p_name p ∉ deleting.

(** What a good choice of the kept pods gives. *)
Lemma plan_of_keep ds hash pods fd x keep :
  let deleting := fd ++ map p_name x in
  NoDup (map p_name pods) -> filterb is_running pods ≡ₚ x ++ keep -> good_keep ds hash (filterb is_running pods) keep ->
  (forall name, name ∈ fd -> exists p, p ∈ pods /\ p_name p = name /\ terminating p = false /\ is_running p = false) ->
  (forall name, name ∈ deleting -> exists p, p ∈ pods /\ p_name p = name /\ terminating p = false) /\
  ((exists p, p ∈ pods /\ is_running p = true) -> exists p, kept pods deleting p) /\
  (forall p q, kept pods deleting p -> q ∈ pods -> is_running q = true -> rivals ds hash p q ->
     podByCreationTimestampAndPhase q p = false) /\
  (forall p q, kept pods deleting p -> kept pods deleting q -> rivals ds hash p q -> p = q) /\
  (forall p q, kept pods deleting p -> kept pods deleting q -> is_new hash p = true -> is_new hash q = false ->
     IsPodReady q = true /\ IsPodAvailable_k8s p (ds_MinReadySeconds ds) now = false).
Proof.
  intros deleting Hnd Hx Hg Hf.
  assert (Hk : forall p, kept pods deleting p <-> p ∈ keep).
  { intros p. split.
    - intros (Hp & Hr & Hn). eapply (kept_iff pods _ fd x keep); [done..|by apply filterb_elem|done].
    - intros Hp. assert (Hr : p ∈ filterb is_running pods) by (rewrite Hx; apply elem_of_app; by right).
      pose proof Hr as [? ?]%filterb_elem. split; [done|]. split; [done|]. by eapply (kept_iff pods _ fd x keep). }
  split; [|split; [|split; [|split]]].
  - intros name [(p & ? & ? & ? & _)%Hf|(p & -> & Hp)%list_elem_of_fmap]%elem_of_app; [by exists p|]. exists p.
    assert (p ∈ filterb is_running pods) as [? Hr]%filterb_elem by (rewrite Hx; apply elem_of_app; by left).
    split; [done|]. split; [done|]. unfold is_running in Hr. unfold terminating. by destruct (p_deletion p).
  - intros (p & Hp & Hr). destruct keep as [|q keep]; [|exists q; apply Hk; left].
    exfalso. eapply (gk_some _ _ _ _ Hg); [|done]. intros E. eapply not_elem_of_nil. rewrite <-E. by apply filterb_elem.
  - intros p q Hp%Hk Hq Hr. apply (gk_oldest _ _ _ _ Hg); [done|by apply filterb_elem].
  - intros p q Hp%Hk Hq%Hk. by apply (gk_one _ _ _ _ Hg).
  - intros p q Hp%Hk Hq%Hk. by apply (gk_both _ _ _ _ Hg).
Qed.

Lemma run_continues pod node ds : (node_should_run validLabel pod node ds).1 = true -> (node_should_run validLabel pod node ds).2 = true.
Proof.
  unfold node_should_run. destruct (negb _); [done|]. destruct (Predicates _ _ _ _) as [[? ?] ?]. destruct (_ || _); [done|].
  by destruct (negb _).
Qed.

(** The plan of a node, on every branch. Planning writes nothing. A pod is asked for on the
    node exactly when the template fits it and either it has no pods at all, or surge is
    allowed and none of its pods runs. Only pods that are not already terminating are deleted:
    all of them where the template may not go on running; elsewhere a running pod always
    survives, the survivors are the oldest of their rivals (all pods of the node, or with
    surge those of the same side of the update) and no two survivors are rivals, and an old
    pod survives beside a new one only while the old one is ready and the new one is not
    available. *)
Theorem daemon_node_plan node (m : gmap string (list Pod)) ds hash (w : World S) :
  NoDup (map p_name (pods_on m (n_name node))) ->
  let pods := pods_on m (n_name node) in
  let '(run, continue) := node_should_run validLabel (cached_pod ds w) node ds in
  let '(w', (needing, deleting)) := podsShouldBeOnNode validLabel now node m ds hash w in
  w_trace w' = w_trace w /\ w_server w' = w_server w /\
  needing = (if run && (bool_decide (m !! n_name node = None) || allowSurge ds && bool_decide (filterb is_running pods = []))
             then [n_name node] else []) /\
  (forall name, name ∈ deleting -> exists p, p ∈ pods /\ p_name p = name /\ terminating p = false) /\
  (continue = false -> forall p, p ∈ pods -> terminating p = false -> p_name p ∈ deleting) /\
  (continue = true ->
    ((exists p, p ∈ pods /\ is_running p = true) -> exists p, kept pods deleting p) /\
    (forall p q, kept pods deleting p -> q ∈ pods -> is_running q = true -> rivals ds hash p q ->
       podByCreationTimestampAndPhase q p = false) /\
    (forall p q, kept pods deleting p -> kept pods deleting q -> rivals ds hash p q -> p = q) /\
    (forall p q, kept pods deleting p -> kept pods deleting q -> is_new hash p = true -> is_new hash q = false ->
       IsPodReady q = true /\ IsPodAvailable_k8s p (ds_MinReadySeconds ds) now = false)).
Proof.
  intros Hnd pods. fold pods in Hnd.
  destruct (nodeShouldRun_spec validLabel node ds w) as (w1 & E1 & Ht1 & Hs1 & _).
  pose proof (run_continues (cached_pod ds w) node ds) as Hrc.
  destruct (node_should_run _ _ _ _) as [run cont]. cbn in Hrc. unfold podsShouldBeOnNode, bind. rewrite E1. clear E1.
  destruct cont.
  - destruct (continue_running_spec ds hash (n_name node) run pods w1) as (w2 & fd & x & keep & E2 & Ht2 & Hs2 & Hx & Hg & Hf).
    destruct (plan_of_keep ds hash pods fd x keep Hnd Hx Hg Hf) as (Hd & Hkeep).
    destruct (m !! n_name node) as [l|] eqn:El.
    + replace l with pods by (unfold pods, pods_on; by rewrite El). rewrite E2.
      rewrite (bool_decide_eq_false_2 (Some pods = None)) by done.
      split; [congruence|]. split; [congruence|]. split; [by destruct run, (allowSurge ds), (bool_decide _)|]. done.
    + assert (Ep : pods = []) by (unfold pods, pods_on; by rewrite El). rewrite (bool_decide_eq_true_2 (None =@{option (list Pod)} None)) by done.
      destruct run.
      * split; [done|]. split; [done|]. split; [done|].
        destruct (plan_of_keep ds hash pods [] [] []) as (Hd' & Hkeep'); [done|by rewrite Ep| |by intros name ?%not_elem_of_nil|done].
        rewrite Ep. apply good_keep_small. cbn. lia.
      * rewrite Ep in E2. rewrite E2. rewrite andb_false_r. split; [congruence|]. split; [congruence|]. done.
  - assert (run = false) as -> by (destruct run; [by specialize (Hrc eq_refl)|done]).
    assert (Hall : forall p, p ∈ pods -> terminating p = false ->
      p_name p ∈ map p_name (filterb (fun pod => match p_deletion pod with None => true | Some _ => false end) pods)).
    { intros p Hp Htm. apply (list_elem_of_fmap_2 p_name), filterb_elem. split; [done|]. unfold terminating in Htm. by destruct (p_deletion p). }
    destruct (m !! n_name node) as [l|] eqn:El.
    + replace l with pods by (unfold pods, pods_on; by rewrite El). split; [done|]. split; [done|]. split; [done|].
      split; [|done]. intros name (p & -> & [Hp Htm]%filterb_elem)%list_elem_of_fmap. exists p.
      split; [done|]. split; [done|]. unfold terminating. by destruct (p_deletion p).
    + assert (Ep : pods = []) by (unfold pods, pods_on; by rewrite El). rewrite Ep. split; [done|]. split; [done|]. split; [done|].
      split; [by intros name ?%not_elem_of_nil|]. split; [by intros _ p ?%not_elem_of_nil|done].
Qed.
End Plan.

(** With surge the older of two new pods and the ready old pod stay; without it only the
    oldest pod does. *)
Lemma daemon_node_plan_witness :
  let ds := ex_set 0 1 None in
  let pods := [with_name (ex_pod "n1" "h2" false) "a" "ns"; with_name (ex_pod "n1" "h2" false) "b" "ns"; ex_pod "n1" "h1" true] in
  let m := nodes_to_pods pods in
  let w := ex_ds_world (mkServer [ds] pods [ex_node "n1"] ∅) in
  let plan ds := (podsShouldBeOnNode (S := DSServer) (H2 := stable_GoSort) (fun _ _ => true) 100 (ex_node "n1") m ds "h2" w).2 in
  allowSurge ds = true /\ plan ds = ([], ["b"%string]) /\
  w_trace (podsShouldBeOnNode (S := DSServer) (H2 := stable_GoSort) (fun _ _ => true) 100 (ex_node "n1") m ds "h2" w).1 = [].
Proof.
  intros ds pods m w plan. split; [by vm_compute|]. split; [by vm_compute|].
  pose proof (daemon_node_plan (S := DSServer) (H2 := stable_GoSort) (fun _ _ => true) 100 (ex_node "n1") m ds "h2" w) as Hp.
  destruct (node_should_run _ _ _ _) as [run cont]. destruct (podsShouldBeOnNode _ _ _ _ _ _ _) as [w' [needing deleting]].
  destruct Hp as [Ht _]; [apply (bool_decide_unpack _); by vm_compute|]. exact Ht.
Defined.
