(* ===== verification/WorkloadSpread.v ===== *)
(** * WorkloadSpread

    pkg/util/workloadspread (the webhook's side: the subset of a new pod, the records of
    creations and deletions in the status) and pkg/controller/workloadspread (the controller:
    grouping of pods, deletion costs, status, rescheduling, watch events).  The two sides share
    the status of one object through the API server, [util.GlobalCache] and the informer cache;
    [util.GlobalKeyedMutex] serialises them within the process, so that one call is one
    function of the world here.

    Clients are the fields of [Api] and [SpreadApi].  The JSON of the annotation is the class
    [Json], the strategic merge of a subset's patch into a pod is a parameter.  Ranging over a
    map takes its order as a parameter.  A clock is read once per call. *)

From S2P Require Import Prelude GoLib GoText K8s Tools Expectations Lifecycle Selector UpdateSort CloneSetDiff.
From S2P Require Import ControllerExpectations WorkloadSpreadTypes World Scheduling InPlaceUpdate StatefulSetUtils DaemonSet.
Open Scope Z_scope.
Open Scope kruise_scope.

(** ** Group, version and kind *)

Record GVK := mkGVK { gvk_Group : string; gvk_Version : string; gvk_Kind : string }.
#[export] Instance GVK_eq_dec : EqDecision GVK.
Proof. solve_decision. Defined.

(** [schema.ParseGroupVersion]; [None] is an error. *)
Definition ParseGroupVersion (gv : string) : option (string * string) :=
  if String.eqb gv "" || String.eqb gv "/" then Some (""%string, ""%string)
  else match Split gv "/" with
       | [v] => Some (""%string, v)
       | [g; v] => Some (g, v)
       | _ => None
       end.
Definition FromAPIVersionAndKind (apiVersion kind : string) : GVK :=
  match ParseGroupVersion apiVersion with
  | Some (g, v) => mkGVK g v kind
  | None => mkGVK "" "" kind
  end.
Definition GroupKind (k : GVK) : string * string := (gvk_Group k, gvk_Kind k).

Definition controllerKruiseKindCS : GVK := mkGVK "apps.kruise.io" "v1alpha1" "CloneSet".
Definition controllerKruiseKindAlphaSts : GVK := mkGVK "apps.kruise.io" "v1alpha1" "StatefulSet".
Definition controllerKruiseKindBetaSts : GVK := mkGVK "apps.kruise.io" "v1beta1" "StatefulSet".
Definition controllerKindJob : GVK := mkGVK "batch" "v1" "Job".
Definition controllerKindRS : GVK := mkGVK "apps" "v1" "ReplicaSet".
Definition controllerKindDep : GVK := mkGVK "apps" "v1" "Deployment".
Definition controllerKindSts : GVK := mkGVK "apps" "v1" "StatefulSet".

Definition MatchedWorkloadSpreadSubsetAnnotations : string := "apps.kruise.io/matched-workloadspread".
Definition PodDeletionCostAnnotation : string := "controller.kubernetes.io/pod-deletion-cost".
Definition PodDeletionCostPositive : Z := 100.
Definition PodDeletionCostNegative : Z := -100.
Definition MaxScheduledFailedDuration : Z := 300 * second.
Definition VersionIgnored : string := "versionIgnored".
Definition CreatPodTimeout : Z := 30 * second.
Definition DeletePodTimeout : Z := 15 * second.
Definition FakeSubsetName : string := "kruise.io/workloadspread-fake-subset-name".
Definition IgnorePatchExistingPodsAnnotation : string := "workloadspread.kruise.io/ignore-patch-existing-pods-metadata".
Definition PodScheduled : string := "PodScheduled".
Definition PodReasonUnschedulable : string := "Unschedulable".
Definition DeploymentRevisionAnnotation : string := "deployment.kubernetes.io/revision".

(** ** The workloads a spread refers to

    The Go types the code distinguishes, and the fields it reads of them; [wl_replicas] is the
    parallelism of a Job, and the fields of the status are those of a CloneSet. *)
Inductive WorkloadType := TDeployment | TReplicaSet | TStatefulSet | TJob | TCloneSet | TBetaStatefulSet | TUnstructured.
#[export] Instance WorkloadType_eq_dec : EqDecision WorkloadType.
Proof. solve_decision. Defined.

Record Workload := mkWorkload {
  wl_type : WorkloadType;
  wl_gvk : GVK;
  wl_namespace : string;
  wl_name : string;
  wl_uid : string;
  wl_deletion : option Z;
  wl_labels : gmap string string;
  wl_annotations : gmap string string;
  wl_owners : list OwnerReference;
  wl_replicas : Z;
  wl_selector : option LabelSelector;
  wl_template : PodTemplate;
  wl_generation : Z;
  wl_observed : Z;
  wl_currentRevision : string;
  wl_updateRevision : string;
}.

(** [GenerateEmptyWorkloadObject]: the Go type for a kind. *)
Definition workload_type (k : GVK) : WorkloadType :=
  if bool_decide (k = controllerKindRS) then TReplicaSet
  else if bool_decide (k = controllerKindDep) then TDeployment
  else if bool_decide (k = controllerKindSts) then TStatefulSet
  else if bool_decide (k = controllerKindJob) then TJob
  else if bool_decide (k = controllerKruiseKindCS) then TCloneSet
  else if bool_decide (k = controllerKruiseKindAlphaSts) || bool_decide (k = controllerKruiseKindBetaSts) then TBetaStatefulSet
  else TUnstructured.

Record InjectWorkloadSpread := mkInject { in_Name : string; in_Subset : string; in_UID : string }.

Inductive Operation := CreateOperation | DeleteOperation | EvictionOperation.

(** The clients: the informer cache, the API server, the configuration with the white list of
    custom workloads, and the source of uids.  A workload is read as the Go type asked for. *)
Class SpreadApi (S : Type) := {
  ListSpreads : string -> S -> error + list WorkloadSpread;
  GetSpread : string -> string -> S -> error + WorkloadSpread;
  GetLiveSpread : string -> string -> S -> error + WorkloadSpread;
  UpdateSpreadStatus : WorkloadSpread -> S -> S * (error + WorkloadSpread);
  GetWorkload : GVK -> string -> string -> S -> error + Workload;
  ListReplicaSets : string -> option LabelSelector -> S -> error + list Workload;
  CustomWorkloads : S -> error + list (list string * string);
  GetReplicasFromCustomWorkload : Workload -> S -> Z;
  GetPodsForRef : TargetReference -> string -> S -> error + list Pod * Z;
  ListOwnedPods : string -> option LabelSelector -> string -> S -> error + list Pod;
  GetSpreadNode : string -> S -> error + Node;
  (** The patch of a pod's metadata by a subset's patch and the annotation. *)
  PatchPodMetadata : Pod -> option string -> string -> S -> S * (error + Pod);
  NewUUID : S -> S * string;
}.

(** [VerifyGroupKind] and [matchReference]; [None] is an error. *)
Definition VerifyGroupKind (apiVersion kind expectedKind : string) (expectedGroups : list string) : option bool :=
  match ParseGroupVersion apiVersion with
  | None => None
  | Some (group, _) => Some (String.eqb kind expectedKind && existsb (String.eqb group) expectedGroups)
  end.
Definition workloads : list (list string * string) :=
  [([gvk_Group controllerKindDep], gvk_Kind controllerKindDep);
   ([gvk_Group controllerKruiseKindCS], gvk_Kind controllerKruiseKindCS);
   ([gvk_Group controllerKindRS], gvk_Kind controllerKindRS);
   ([gvk_Group controllerKindJob], gvk_Kind controllerKindJob);
   ([gvk_Group controllerKindSts; gvk_Group controllerKruiseKindAlphaSts; gvk_Group controllerKruiseKindBetaSts], gvk_Kind controllerKindSts)].
Fixpoint matchReference (wls : list (list string * string)) (ref : OwnerReference) : option bool :=
  match wls with
  | [] => Some false
  | (groups, kind) :: wls' =>
      match VerifyGroupKind (or_apiVersion ref) (or_kind ref) kind groups with
      | None => None
      | Some true => Some true
      | Some false => matchReference wls' ref
      end
  end.

(** ** Statuses of subsets *)

Definition isPodRecordedInSubset (l : list WorkloadSpreadSubsetStatus) (podName : string) : option WorkloadSpreadSubsetStatus :=
  find (fun s => bool_decide (is_Some (wss_CreatingPods s !! podName)) || bool_decide (is_Some (wss_DeletingPods s !! podName))) l.

Definition getSpecificSubset (l : list WorkloadSpreadSubsetStatus) (name : string) : option WorkloadSpreadSubsetStatus :=
  find (fun s => String.eqb name (wss_Name s)) l.

Definition schedulable (s : WorkloadSpreadSubsetStatus) : bool :=
  negb (existsb (fun c => String.eqb (wc_Type c) SubsetSchedulable && String.eqb (wc_Status c) ConditionFalse) (wss_Conditions s)).

(** [getSuitableSubset]: the index of the first subset with room. *)
Fixpoint getSuitableSubset (l : list WorkloadSpreadSubsetStatus) : option (nat * WorkloadSpreadSubsetStatus) :=
  match l with
  | [] => None
  | s :: l' =>
      if schedulable s && ((0 <? wss_MissingReplicas s) || (wss_MissingReplicas s =? -1)) then Some (O, s)
      else match getSuitableSubset l' with Some (i, x) => Some (Datatypes.S i, x) | None => None end
  end.

(** [VersionedSubsetStatuses[version][i] = *suitableSubset] for the first subset of the name. *)
Fixpoint set_subset (x : WorkloadSpreadSubsetStatus) (l : list WorkloadSpreadSubsetStatus) : list WorkloadSpreadSubsetStatus :=
  match l with
  | [] => []
  | s :: l' => if String.eqb (wss_Name s) (wss_Name x) then x :: l' else s :: set_subset x l'
  end.

(** One more pod that is being created, or deleted. *)
Definition record_creation (s : WorkloadSpreadSubsetStatus) (id : string) (now : Z) : WorkloadSpreadSubsetStatus :=
  mkSubsetStatus (wss_Name s) (wss_Replicas s) (wss_Conditions s)
    (if 0 <? wss_MissingReplicas s then wrap32 (wss_MissingReplicas s - 1) else wss_MissingReplicas s)
    (<[id := now]> (wss_CreatingPods s)) (wss_DeletingPods s).
Definition record_deletion (s : WorkloadSpreadSubsetStatus) (name : string) (now : Z) : WorkloadSpreadSubsetStatus :=
  mkSubsetStatus (wss_Name s) (wss_Replicas s) (wss_Conditions s)
    (if 0 <=? wss_MissingReplicas s then wrap32 (wss_MissingReplicas s + 1) else wss_MissingReplicas s)
    (wss_CreatingPods s) (<[name := now]> (wss_DeletingPods s)).

Definition getSubsetCondition (ws : WorkloadSpread) (subsetName condType : string) : option WorkloadSpreadSubsetCondition :=
  head (omap (fun s => if String.eqb (wss_Name s) subsetName
                       then find (fun c => String.eqb (wc_Type c) condType) (wss_Conditions s) else None)
    (wst_SubsetStatuses (ws_status ws))).

(** [injectWorkloadSpreadIntoPod] up to the patch: the tolerations and the affinity of the
    subset. *)
Definition add_required (t : NodeSelectorTerm) (terms : list NodeSelectorTerm) : list NodeSelectorTerm :=
  match terms with
  | [] => [t]
  | _ => map (fun x => mkNodeTerm (nt_expressions x ++ nt_expressions t) (nt_fields x ++ nt_fields t)) terms
  end.
Definition inject_placement (subset : WorkloadSpreadSubset) (pl : PodPlacement) : PodPlacement :=
  mkPlacement (pl_restartPolicy pl) (pl_nodeSelector pl)
    (match sub_Required subset with Some t => Some (add_required t (default [] (pl_affinity pl))) | None => pl_affinity pl end)
    (pl_tolerations pl ++ sub_Tolerations subset) (pl_hostNetwork pl) (pl_schedulerName pl)
    (pl_preferred pl ++ sub_Preferred subset) (pl_initContainers pl) (pl_pullSecrets pl).

(** The key of an object in [util.GlobalCache]. *)
Definition cache_key (ws : WorkloadSpread) : string := ws_gvk ws +:+ "/" +:+ ws_namespace ws +:+ "/" +:+ ws_name ws.
Definition with_spreads (l : Local) (m : gmap string WorkloadSpread) : Local :=
  mkLocal (l_counters l) (l_backoff l) (l_newPods l) (l_deletions l) m (l_workloads l) (l_nodeImages l).

Section Spread.
Context {S : Type} `{Api S} `{SpreadApi S} `{ApiErrors} `{Json (option InjectWorkloadSpread)}.
(** [EnabledWorkloadSetForVersionedStatus], in lower case, and the kind in the type meta of a
    pod. *)
Context (versioned : gset string) (podKind : string).
(** [strategicpatch.StrategicMergePatch] of a pod and back. *)
Context (StrategicMergePod : Pod -> string -> error + Pod).
Context (validLabel : string -> list string -> bool).
(** The order of a range over a map. *)
Context (range : forall A, gmap string A -> list (string * A)).
Context (now : Z).

Definition enableVersionedStatus (kind : string) (owners : list OwnerReference) : bool :=
  bool_decide (ToLower kind ∈ versioned)
  || match GetControllerOf owners with Some o => bool_decide (ToLower (or_kind o) ∈ versioned) | None => false end.
Definition GetPodVersion (pod : Pod) : string :=
  if negb (enableVersionedStatus podKind (p_owners pod)) then VersionIgnored
  else match p_labels pod !! DefaultDeploymentUniqueLabelKey with
       | Some version => version
       | None =>
           match p_labels pod !! ControllerRevisionHashLabelKey with
           | Some version => Revision.GetShortHash version
           | None => VersionIgnored
           end
       end.

(** [updateStatus] of the client: the answer is written back to the object. *)
Definition updateSpreadStatus (ws : WorkloadSpread) : M S (error + WorkloadSpread) :=
  call (UpdateSpreadStatus ws) (fun r => [EvSpreadStatus ws (match r with inl _ => false | inr _ => true end)]).

(** ** The webhook *)

Definition initializeWorkloadsInWhiteList : M S unit :=
  do known <- ask_local l_workloads;
  match known with
  | Some _ => ret tt
  | None =>
      do x <- read CustomWorkloads;
      match x with
      | inl _ => ret tt
      | inr wls => on_local (fun l => mkLocal (l_counters l) (l_backoff l) (l_newPods l) (l_deletions l) (l_spreads l) (Some wls) (l_nodeImages l))
      end
  end.
(** The variable [workloads]. *)
Definition known_workloads : M S (list (list string * string)) :=
  ask_local (fun l => workloads ++ default [] (l_workloads l)).

Definition getWorkloadReplicas (ws : WorkloadSpread) : M S (error + Z) :=
  match ws_TargetReference ws with
  | None => ret (inr 0)
  | Some ref =>
      do x <- read (GetWorkload (FromAPIVersionAndKind (tr_APIVersion ref) (tr_Kind ref)) (ws_namespace ws) (tr_Name ref));
      match x with
      | inl err => ret (if IsNotFound err then inr 0 else inl err)
      | inr o =>
          match wl_type o with
          | TUnstructured => do n <- read (GetReplicasFromCustomWorkload o); ret (inr n)
          | _ => ret (inr (wl_replicas o))
          end
      end
  end.

Definition initial_status (replicas : Z) (subset : WorkloadSpreadSubset) : WorkloadSpreadSubsetStatus :=
  mkSubsetStatus (sub_Name subset) 0 []
    (match sub_MaxReplicas subset with
     | None => -1
     | Some m => wrap32 (default 0 (GetScaledValueFromIntOrPercent m replicas true))
     end) ∅ ∅.
Definition initializedSubsetStatuses (ws : WorkloadSpread) : M S (error + list WorkloadSpreadSubsetStatus) :=
  do x <- getWorkloadReplicas ws;
  ret (match x with inl err => inl err | inr replicas => inr (map (initial_status replicas) (ws_Subsets ws)) end).

(** What [updateSubsetForPod] answers: [changed], the subset, the uid; the object it writes. *)
Definition Update : Type := bool * option WorkloadSpreadSubsetStatus * string * WorkloadSpread.

Definition update_created (ws : WorkloadSpread) (version : string) (l : list WorkloadSpreadSubsetStatus) (pod : Pod)
  : M S Update :=
  match (if String.eqb (p_name pod) "" then None else isPodRecordedInSubset l (p_name pod)) with
  | Some subset => ret (false, Some subset, ""%string, ws)
  | None =>
      match getSuitableSubset l with
      | None => ret (false, None, ""%string, ws)
      | Some (i, subset) =>
          if wss_MissingReplicas subset =? -1 then ret (false, Some subset, ""%string, ws)
          else
            do uid <- (if String.eqb (p_name pod) "" then call NewUUID (fun _ => []) else ret ""%string);
            let subset' := record_creation subset (if String.eqb (p_name pod) "" then uid else p_name pod) now in
            ret (true, Some subset', uid, with_versioned ws version (set_subset subset' (<[i := subset']> l)))
      end
  end.

Definition update_deleted (ws : WorkloadSpread) (version : string) (l : list WorkloadSpreadSubsetStatus) (pod : Pod)
  (injectWS : InjectWorkloadSpread) : Update :=
  match isPodRecordedInSubset l (p_name pod) with
  | Some _ => (false, None, ""%string, ws)
  | None =>
      match getSpecificSubset l (in_Subset injectWS) with
      | None => (false, None, ""%string, ws)
      | Some subset =>
          if wss_MissingReplicas subset =? -1 then (false, Some subset, ""%string, ws)
          else
            let subset' := record_deletion subset (p_name pod) now in
            (true, Some subset', ""%string, with_versioned ws version (set_subset subset' l))
      end
  end.

Definition updateSubsetForPod (ws : WorkloadSpread) (pod : Pod) (injectWS : InjectWorkloadSpread) (operation : Operation)
  : M S (error + Update) :=
  let version := GetPodVersion pod in
  let l := default [] (wst_Versioned (ws_status ws) !! version) in
  do x <- (if bool_decide (l = []) then initializedSubsetStatuses ws else ret (inr l));
  match x with
  | inl err => ret (inl err)
  | inr l =>
      let ws := with_versioned ws version l in
      match operation with
      | CreateOperation => do r <- update_created ws version l pod; ret (inr r)
      | DeleteOperation | EvictionOperation => ret (inr (update_deleted ws version l pod injectWS))
      end
  end.

(** [runtime.Convert_string_To_int64]: [0] on an error. *)
Definition version_number (rv : string) : Z := match conv_ok (ParseInt rv 64) with Some v => v | None => 0 end.

Definition tryToGetTheLatestMatchedWS (matchedWS : WorkloadSpread) (refresh : bool) : M S (error + option WorkloadSpread) :=
  if refresh then
    do x <- read (GetLiveSpread (ws_namespace matchedWS) (ws_name matchedWS));
    ret (match x with
         | inl err => if IsNotFound err then inr None else inl err
         | inr ws => inr (Some ws)
         end)
  else
    do item <- ask_local (fun l => l_spreads l !! cache_key matchedWS);
    let wsClone := default matchedWS item in
    do x <- read (GetSpread (ws_namespace matchedWS) (ws_name matchedWS));
    ret (inr (Some (match x with
                    | inl _ => wsClone
                    | inr informer =>
                        if version_number (ws_resourceVersion wsClone) <? version_number (ws_resourceVersion informer)
                        then informer else wsClone
                    end))).

(** The variables that the closure of the retries captures. *)
Record Acquire := mkAcquire { aq_refresh : bool; aq_subset : option string; aq_uid : string }.

Definition acquire_try (matchedWS : WorkloadSpread) (pod : Pod) (injectWS : InjectWorkloadSpread) (operation : Operation)
  (a : Acquire) : M S (option error * Acquire) :=
  do x <- tryToGetTheLatestMatchedWS matchedWS (aq_refresh a);
  match x with
  | inl err => ret (Some err, a)
  | inr None => ret (None, a)
  | inr (Some wsClone) =>
      do u <- updateSubsetForPod wsClone pod injectWS operation;
      match u with
      | inl err => ret (Some err, mkAcquire (aq_refresh a) None "")
      | inr (changed, suitable, uid, ws) =>
          let a := mkAcquire (aq_refresh a) (wss_Name <$> suitable) uid in
          if negb changed then ret (None, a)
          else
            do r <- updateSpreadStatus ws;
            match r with
            | inl err => ret (Some err, mkAcquire true (aq_subset a) (aq_uid a))
            | inr stored =>
                on_local (fun l => with_spreads l (<[cache_key stored := stored]> (l_spreads l))) ;; ret (None, a)
            end
      end
  end.

(** [retry.RetryOnConflict], with the captured variables. *)
Fixpoint acquire_tries (steps : nat) (fn : Acquire -> M S (option error * Acquire)) (a : Acquire) : M S (option error * Acquire) :=
  match steps with
  | O => ret (None, a)
  | Datatypes.S steps' =>
      do '(e, a') <- fn a;
      match e with
      | None => ret (None, a')
      | Some err =>
          if IsConflict err then match steps' with O => ret (Some err, a') | _ => acquire_tries steps' fn a' end
          else ret (Some err, a')
      end
  end.
(** [DefaultBackoff.Steps]. *)
Definition acquire_steps : nat := 4.

(** [IntValue]. *)
Definition IntValue (x : IntOrString) : Z :=
  match x with
  | FromInt v => v
  | FromString s => conv_val (Atoi s)
  end.

(** The subset of a StatefulSet's pod, by its ordinal. *)
Fixpoint ordinal_subset (ws : WorkloadSpread) (subsets : list WorkloadSpreadSubset) (orderID threshold : Z) : string :=
  match subsets with
  | [] => ""
  | subset :: subsets' =>
      if match getSubsetCondition ws (sub_Name subset) SubsetSchedulable with
         | Some c => String.eqb (wc_Status c) ConditionFalse
         | None => false
         end
      then ordinal_subset ws subsets' orderID threshold
      else
        let threshold := threshold + match sub_MaxReplicas subset with None => 2147483647 | Some m => IntValue m end in
        if orderID <? threshold then sub_Name subset else ordinal_subset ws subsets' orderID threshold
  end.

(** [acquireSuitableSubset]: the name of the subset and the uid; a nil target reference panics. *)
Definition acquireSuitableSubset (matchedWS : WorkloadSpread) (pod : Pod) (injectWS : InjectWorkloadSpread)
  (operation : Operation) : M S (Outcome (error + string * string)) :=
  match ws_Subsets matchedWS with
  | [mkSubset name _ _ _ None _] => ret (Value (inr (name, ""%string)))
  | subsets =>
      match ws_TargetReference matchedWS with
      | None => ret Panic
      | Some ref =>
          if String.eqb (tr_Kind ref) (gvk_Kind controllerKindSts)
          then ret (Value (inr (ordinal_subset matchedWS subsets (getOrdinal pod) 0, ""%string)))
          else
            do '(e, a) <- acquire_tries acquire_steps (acquire_try matchedWS pod injectWS operation) (mkAcquire false None "");
            match e with
            | Some err => ret (Value (inl err))
            | None => ret (Value (inr (default ""%string (aq_subset a), aq_uid a)))
            end
      end
  end.

Definition injectWorkloadSpreadIntoPod (ws : WorkloadSpread) (pod : Pod) (subsetName generatedUID : string)
  : Pod * option error :=
  match find (fun s => String.eqb subsetName (sub_Name s)) (ws_Subsets ws) with
  | None => (pod, None)
  | Some subset =>
      let pod := with_placement pod (inject_placement subset (p_placement pod)) in
      match (match sub_Patch subset with Some raw => StrategicMergePod pod raw | None => inr pod end) with
      | inl err => (pod, Some err)
      | inr pod =>
          (with_annotations pod (<[MatchedWorkloadSpreadSubsetAnnotations :=
             Marshal (Some (mkInject (ws_name ws) subsetName generatedUID))]> (p_annotations pod)), None)
      end
  end.

(** [mutatingPod]: the pod it leaves, and the error. *)
Definition mutatingPod (matchedWS : WorkloadSpread) (pod : Pod) (injectWS : InjectWorkloadSpread) (operation : Operation)
  : M S (Outcome (Pod * option error)) :=
  do r <- acquireSuitableSubset matchedWS pod injectWS operation;
  match r with
  | Panic => ret Panic
  | Value (inl err) => ret (Value (pod, Some err))
  | Value (inr (name, uid)) =>
      match operation with
      | CreateOperation =>
          ret (Value (if String.eqb name "" then (pod, None) else injectWorkloadSpreadIntoPod matchedWS pod name uid))
      | _ => ret (Value (pod, None))
      end
  end.

(** [isReferenceEqual]: along the chain of controllers of the pod; a chain that is longer than
    the stack is a crash. *)
Fixpoint isReferenceEqual (depth : nat) (target : TargetReference) (owner : option OwnerReference) (namespace : string)
  : M S (Outcome bool) :=
  match depth with
  | O => ret Panic
  | Datatypes.S depth' =>
      match owner with
      | None => ret (Value false)
      | Some owner =>
          match ParseGroupVersion (tr_APIVersion target), ParseGroupVersion (or_apiVersion owner) with
          | Some (tg, _), Some (og, _) =>
              if String.eqb tg og && String.eqb (tr_Kind target) (or_kind owner) && String.eqb (tr_Name target) (or_name owner)
              then ret (Value true)
              else
                do wls <- known_workloads;
                if default false (matchReference wls owner) then
                  do x <- read (GetWorkload (FromAPIVersionAndKind (or_apiVersion owner) (or_kind owner)) namespace (or_name owner));
                  match x with
                  | inl _ => ret (Value false)
                  | inr o => isReferenceEqual depth' target (GetControllerOf (wl_owners o)) namespace
                  end
                else ret (Value false)
          | _, _ => ret (Value false)
          end
      end
  end.

(** The spread whose target is the controller of the pod, or above it. *)
Fixpoint matched_spread (depth : nat) (l : list WorkloadSpread) (ref : OwnerReference) (namespace : string)
  : M S (Outcome (option WorkloadSpread)) :=
  match l with
  | [] => ret (Value None)
  | ws :: l' =>
      match ws_TargetReference ws, ws_deletion ws with
      | Some target, None =>
          do r <- isReferenceEqual depth target (Some ref) namespace;
          match r with
          | Panic => ret Panic
          | Value true => ret (Value (Some ws))
          | Value false => matched_spread depth l' ref namespace
          end
      | _, _ => matched_spread depth l' ref namespace
      end
  end.

Definition no_inject : InjectWorkloadSpread := mkInject "" "" "".

(** [HandlePodCreation]: the pod it leaves, [skip] and the error. *)
Definition HandlePodCreation (depth : nat) (pod : Pod) : M S (Outcome (Pod * (bool * option error))) :=
  if negb (IsPodActive pod) then ret (Value (pod, (true, None)))
  else match GetControllerOf (p_owners pod) with
  | None => ret (Value (pod, (true, None)))
  | Some ref =>
      initializeWorkloadsInWhiteList ;;
      do wls <- known_workloads;
      if negb (default false (matchReference wls ref)) then ret (Value (pod, (true, None)))
      else
        do x <- read (ListSpreads (p_namespace pod));
        match x with
        | inl err => ret (Value (pod, (false, Some err)))
        | inr l =>
            do m <- matched_spread depth l ref (p_namespace pod);
            match m with
            | Panic => ret Panic
            | Value None => ret (Value (pod, (true, None)))
            | Value (Some matchedWS) =>
                do r <- mutatingPod matchedWS pod no_inject CreateOperation;
                match r with
                | Panic => ret Panic
                | Value (pod, err) => ret (Value (pod, (false, err)))
                end
            end
        end
  end.

Definition HandlePodDeletion (pod : Pod) (operation : Operation) : M S (Outcome (option error)) :=
  let str := lbl (p_annotations pod) MatchedWorkloadSpreadSubsetAnnotations in
  if String.eqb str "" then ret (Value None)
  else match Unmarshal str with
  | inl _ | inr None => ret (Value None)
  | inr (Some injectWS) =>
      if negb (IsPodActive pod) || bool_decide (GetControllerOf (p_owners pod) = None) then ret (Value None)
      else
        do x <- read (GetSpread (p_namespace pod) (in_Name injectWS));
        match x with
        | inl err => ret (Value (if IsNotFound err then None else Some err))
        | inr matchedWS =>
            do r <- mutatingPod matchedWS pod injectWS operation;
            match r with
            | Panic => ret Panic
            | Value (_, err) => ret (Value err)
            end
        end
  end.

(** ** The controller: the pods of the workload *)

Definition getWorkloadSpreadKey (ws : WorkloadSpread) : string := ws_namespace ws +:+ "/" +:+ ws_name ws.

(** [getPodJob]; [-1] replicas stand for no answer. *)
Definition getPodJob (ref : TargetReference) (namespace : string) : M S (error + list Pod * Z) :=
  match VerifyGroupKind (tr_APIVersion ref) (tr_Kind ref) (gvk_Kind controllerKindJob) [gvk_Group controllerKindJob] with
  | None => ret (inl "unexpected GroupVersion string"%string)
  | Some false => ret (inr ([], -1))
  | Some true =>
      do x <- read (GetWorkload controllerKindJob namespace (tr_Name ref));
      match x with
      | inl err => ret (if IsNotFound err then inr ([], 0) else inl err)
      | inr job =>
          match selector_matches (wl_selector job) ∅ with
          | None => ret (inr ([], -1))
          | Some _ =>
              do y <- read (ListOwnedPods namespace (wl_selector job) (wl_uid job));
              ret (match y with inl err => inl err | inr pods => inr (pods, wl_replicas job) end)
          end
      end
  end.

Definition getPodsForWorkloadSpread (ws : WorkloadSpread) : M S (error + list Pod * Z) :=
  match ws_TargetReference ws with
  | None => ret (inr ([], -1))
  | Some ref =>
      if String.eqb (tr_Kind ref) (gvk_Kind controllerKindJob) then getPodJob ref (ws_namespace ws)
      else read (GetPodsForRef ref (ws_namespace ws))
  end.

(** [getInjectWorkloadSpreadFromPod]: a JSON null leaves the zero value. *)
Definition getInjectWorkloadSpreadFromPod (pod : Pod) : option InjectWorkloadSpread :=
  match p_annotations pod !! MatchedWorkloadSpreadSubsetAnnotations with
  | None => None
  | Some str =>
      match Unmarshal str with
      | inl _ => None
      | inr x => Some (default no_inject x)
      end
  end.

(** [!isNotMatchedWS]: the subset of the annotation, when it is one of this spread. *)
Definition matched_subset (injectWS : option InjectWorkloadSpread) (ws : WorkloadSpread) : option string :=
  match injectWS with
  | None => None
  | Some i => if negb (String.eqb (in_Name i) (ws_name ws)) || String.eqb (in_Subset i) "" then None else Some (in_Subset i)
  end.

(** [NewPreferredSchedulingTerms] and [Score]; [None] when a term does not parse, which leaves
    a nil pointer. *)
Definition term_ok (t : NodeSelectorTerm) : bool :=
  forallb (NewRequirement_ok validLabel) (nt_expressions t) && forallb field_ok (nt_fields t).
Definition preferred_score (terms : list PreferredSchedulingTerm) (node : Node) : option Z :=
  let used := filterb (fun t => negb ((pt_weight t =? 0) || isEmptyNodeSelectorTerm (pt_preference t))) terms in
  if forallb (fun t => term_ok (pt_preference t)) used
  then Some (sumZ (fun t => if term_match validLabel (pt_preference t) node then pt_weight t else 0) used)
  else None.

Definition podPreferredScore (raw : string) (pod : Pod) : Z :=
  match StrategicMergePod pod raw with
  | inl _ => 0
  | inr patched => if bool_decide (with_annotations patched (p_annotations pod) = pod) then 1 else 0
  end.

(** Without its error, which is only logged and comes with [false]. *)
Definition matchesSubsetRequiredAndToleration (pod : Pod) (node : Node) (subset : WorkloadSpreadSubset) : bool :=
  match FindMatchingUntoleratedTaint (n_taints node) (pl_tolerations (p_placement pod) ++ sub_Tolerations subset) (fun _ => true) with
  | Some _ => false
  | None =>
      match sub_Required subset with
      | None => true
      | Some t => NodeSelector_Match validLabel (add_required t (default [] (pl_affinity (p_placement pod)))) node
      end
  end.

(** [matchesSubset]: whether it matches, and the score. *)
Definition matchesSubset (pod : Pod) (node : Node) (subset : WorkloadSpreadSubset) (missingReplicas : Z) : Outcome (bool * Z) :=
  if negb (matchesSubsetRequiredAndToleration pod node subset) then Value (false, -1)
  else
    match (match sub_Preferred subset with [] => Some 0 | terms => preferred_score terms node end) with
    | None => Panic
    | Some preferredNodeScore =>
        let preferredPodScore := match sub_Patch subset with Some raw => podPreferredScore raw pod | None => 0 end in
        let quotaScore := if 0 <? missingReplicas then 1 else 0 in
        Value (true, preferredNodeScore * 100 + preferredPodScore * 10 + quotaScore)
    end.

(** The loop of [getAndUpdateSuitableSubsetName]: the favorite subset so far and its score. *)
Fixpoint favorite_subset (pod : Pod) (node : Node) (missing : gmap string Z) (subsets : list WorkloadSpreadSubset)
  (maxScore : Z) (favorite : option WorkloadSpreadSubset) : Outcome (option WorkloadSpreadSubset) :=
  match subsets with
  | [] => Value favorite
  | subset :: subsets' =>
      match matchesSubset pod node subset (default 0 (missing !! sub_Name subset)) with
      | Panic => Panic
      | Value (matched, score) =>
          if matched && (maxScore <? score) then favorite_subset pod node missing subsets' score (Some subset)
          else favorite_subset pod node missing subsets' maxScore favorite
      end
  end.

Definition patchFavoriteSubsetMetadataToPod (pod : Pod) (ws : WorkloadSpread) (favorite : WorkloadSpreadSubset)
  : M S (error + Pod) :=
  let raw := if EqualFold (lbl (ws_annotations ws) IgnorePatchExistingPodsAnnotation) "true" then None else sub_Patch favorite in
  let inject := Marshal (Some (mkInject (ws_name ws) (sub_Name favorite) "")) in
  call (PatchPodMetadata pod raw inject)
    (fun r => [EvPatchPod pod (mkPatch ∅ {[ MatchedWorkloadSpreadSubsetAnnotations := inject ]} [])
                 (match r with inl _ => false | inr _ => true end)]).

(** [getAndUpdateSuitableSubsetName]: the subset, the counters and the pod after the patch. *)
Definition getAndUpdateSuitableSubsetName (ws : WorkloadSpread) (pod : Pod) (missing : gmap string Z)
  : M S (Outcome (error + option string * gmap string Z * Pod)) :=
  if String.eqb (p_node pod) "" then ret (Value (inr (None, missing, pod)))
  else
    do x <- read (GetSpreadNode (p_node pod));
    match x with
    | inl err => ret (Value (if IsNotFound err then inr (None, missing, pod) else inl err))
    | inr node =>
        match favorite_subset pod node missing (ws_Subsets ws) (-1) None with
        | Panic => ret Panic
        | Value None => ret (Value (inr (None, missing, pod)))
        | Value (Some favorite) =>
            do r <- patchFavoriteSubsetMetadataToPod pod ws favorite;
            ret (Value (match r with
                        | inl err => inl err
                        | inr pod' => inr (Some (sub_Name favorite),
                                           <[sub_Name favorite := default 0 (missing !! sub_Name favorite) - 1]> missing, pod')
                        end))
        end
    end.

Definition getSuitableSubsetNameForPod (ws : WorkloadSpread) (pod : Pod) (missing : gmap string Z)
  : M S (Outcome (error + string * gmap string Z * Pod)) :=
  match matched_subset (getInjectWorkloadSpreadFromPod pod) ws with
  | Some subset => ret (Value (inr (subset, missing, pod)))
  | None =>
      do r <- getAndUpdateSuitableSubsetName ws pod missing;
      ret (match r with
           | Panic => Panic
           | Value (inl err) => Value (inl err)
           | Value (inr (name, missing, pod)) => Value (inr (default FakeSubsetName name, missing, pod))
           end)
  end.

Definition add_to (m : gmap string (list Pod)) (key : string) (l : list Pod) : gmap string (list Pod) :=
  <[key := default [] (m !! key) ++ l]> m.

(** The second loop of [groupPodBySubset]. *)
Fixpoint group_pods (ws : WorkloadSpread) (pods : list Pod) (missing : gmap string Z) (podMap : gmap string (list Pod))
  : M S (Outcome (error + gmap string (list Pod))) :=
  match pods with
  | [] => ret (Value (inr podMap))
  | pod :: pods' =>
      do r <- getSuitableSubsetNameForPod ws pod missing;
      match r with
      | Panic => ret Panic
      | Value (inl err) => ret (Value (inl err))
      | Value (inr (name, missing, pod)) =>
          group_pods ws pods' missing
            (add_to podMap (match podMap !! name with Some _ => name | None => FakeSubsetName end) [pod])
      end
  end.

(** The maps that the loops start from, and the managed pods taken off. *)
Definition empty_groups (ws : WorkloadSpread) : gmap string (list Pod) :=
  fold_left (fun m subset => <[sub_Name subset := []]> m) (ws_Subsets ws) {[ FakeSubsetName := [] ]}.
Definition initial_missing (ws : WorkloadSpread) (replicas : Z) : gmap string Z :=
  fold_left (fun m subset =>
    <[sub_Name subset := default 0 (GetScaledValueFromIntOrPercent (ValueOrDefault (sub_MaxReplicas subset) (FromInt 2147483647))
                                      replicas true)]> m) (ws_Subsets ws) ∅.
Definition take_off (ws : WorkloadSpread) (podMap : gmap string (list Pod)) (missing : gmap string Z) (pod : Pod) : gmap string Z :=
  match matched_subset (getInjectWorkloadSpreadFromPod pod) ws with
  | Some subset => if bool_decide (is_Some (podMap !! subset)) then <[subset := default 0 (missing !! subset) - 1]> missing else missing
  | None => missing
  end.
Definition groupPodBySubset (ws : WorkloadSpread) (pods : list Pod) (replicas : Z)
  : M S (Outcome (error + gmap string (list Pod))) :=
  let podMap := empty_groups ws in
  group_pods ws pods (fold_left (take_off ws podMap) pods (initial_missing ws replicas)) podMap.

(** The loop of [groupVersionedPods] over the versions: the pods by version and subset, and by
    subset. *)
Definition Groups : Type := gmap string (gmap string (list Pod)) * gmap string (list Pod).
Fixpoint group_versions (ws : WorkloadSpread) (replicas : Z) (entries : list (string * list Pod)) (acc : Groups)
  : M S (Outcome (error + Groups)) :=
  match entries with
  | [] => ret (Value (inr acc))
  | (version, pods) :: entries' =>
      do r <- groupPodBySubset ws pods replicas;
      match r with
      | Panic => ret Panic
      | Value (inl err) => ret (Value (inl err))
      | Value (inr podMap) =>
          group_versions ws replicas entries'
            (<[version := podMap]> acc.1, fold_left (fun m e => add_to m e.1 e.2) (range _ podMap) acc.2)
      end
  end.
Definition by_version (pods : list Pod) : gmap string (list Pod) :=
  fold_left (fun m pod => add_to m (GetPodVersion pod) [pod]) pods ∅.
Definition groupVersionedPods (ws : WorkloadSpread) (allPods : list Pod) (replicas : Z) : M S (Outcome (error + Groups)) :=
  group_versions ws replicas (range _ (by_version allPods)) (∅, ∅).

(** ** The controller: deletion costs *)

(** [util.EqualIgnoreHash]. *)
Definition without_hash (t : PodTemplate) : PodTemplate :=
  mkTemplate (delete DefaultDeploymentUniqueLabelKey (t_labels t)) (t_annotations t) (t_finalizers t) (t_containers t)
    (t_volumes t) (t_gates t) (t_nodeName t) (t_placement t).
Definition EqualIgnoreHash (a b : PodTemplate) : bool := bool_decide (without_hash a = without_hash b).

(** [GetWorkloadVersion]; the error of a version that is not there yet is a not-found error,
    which the callers do not tell from others. *)
Definition GetWorkloadVersion (o : Workload) : M S (error + string) :=
  if negb (enableVersionedStatus (gvk_Kind (wl_gvk o)) (wl_owners o)) then ret (inr VersionIgnored)
  else match wl_type o with
  | TReplicaSet => ret (inr (lbl (wl_labels o) DefaultDeploymentUniqueLabelKey))
  | TCloneSet =>
      if wl_observed o <? wl_generation o then ret (inl (wl_name o +:+ " latest version"))
      else ret (inr (Revision.GetShortHash (wl_updateRevision o)))
  | TDeployment =>
      do x <- read (ListReplicaSets (wl_namespace o) (wl_selector o));
      match x with
      | inl err => ret (inl err)
      | inr l =>
          match find (fun rs => match GetControllerOf (wl_owners rs) with
                                | Some owner => String.eqb (or_uid owner) (wl_uid o)
                                | None => false
                                end && bool_decide (wl_deletion rs = None) && EqualIgnoreHash (wl_template o) (wl_template rs)) l with
          | Some rs => ret (inr (lbl (wl_labels rs) DefaultDeploymentUniqueLabelKey))
          | None => ret (inl (wl_name o +:+ " latest version"))
          end
      end
  | _ => ret (inr VersionIgnored)
  end.

Definition getWorkloadLatestVersion (ws : WorkloadSpread) : M S (error + string) :=
  match ws_TargetReference ws with
  | None => ret (inr ""%string)
  | Some ref =>
      do x <- read (GetWorkload (FromAPIVersionAndKind (tr_APIVersion ref) (tr_Kind ref)) (ws_namespace ws) (tr_Name ref));
      match x with
      | inl err => ret (if IsNotFound err then inr ""%string else inl err)
      | inr o => GetWorkloadVersion o
      end
  end.

Definition isEffectiveKindForDeletionCost (ref : TargetReference) : bool :=
  String.eqb (tr_Kind ref) (gvk_Kind controllerKindRS) || String.eqb (tr_Kind ref) (gvk_Kind controllerKindDep)
  || String.eqb (tr_Kind ref) (gvk_Kind controllerKruiseKindCS).

(** [sortDeleteIndexes] and the pods at the indexes. *)
Definition sort_delete (pods : list Pod) : list Pod := SliceStable ActivePods_Less pods.

(** The pods that are kept and those in excess: [None] when the maximum is not valid. *)
Definition partition_pods (subset : option WorkloadSpreadSubset) (workloadReplicas : Z) (pods : list Pod)
  : option (list Pod * list Pod) :=
  let activePods := filterb IsPodActive pods in
  match subset with
  | None => Some ([], activePods)
  | Some subset =>
      match sub_MaxReplicas subset with
      | None => Some (activePods, [])
      | Some m =>
          match GetValueFromIntOrPercent m workloadReplicas true with
          | None => None
          | Some subsetMaxReplicas =>
              if subsetMaxReplicas <? 0 then None
              else if len activePods <=? subsetMaxReplicas then Some (activePods, [])
              else
                let sorted := sort_delete activePods in
                let extra := len activePods - subsetMaxReplicas in
                Some (slice_from sorted extra, slice_to sorted extra)
          end
      end
  end.

Definition patchPodDeletionCost (pod : Pod) (cost : string) : M S (option error) :=
  match p_annotations pod !! PodDeletionCostAnnotation with
  | Some old =>
      if String.eqb cost old then ret None
      else do r <- patchPod pod (mkPatch ∅ {[ PodDeletionCostAnnotation := cost ]} []);
           ret (match r with inl err => Some err | inr _ => None end)
  | None =>
      if String.eqb cost "0" then ret None
      else do r <- patchPod pod (mkPatch ∅ {[ PodDeletionCostAnnotation := cost ]} []);
           ret (match r with inl err => Some err | inr _ => None end)
  end.
Fixpoint updateDeletionCostForSubsetPods (pods : list Pod) (cost : string) : M S (option error) :=
  match pods with
  | [] => ret None
  | pod :: pods' =>
      do e <- patchPodDeletionCost pod cost;
      match e with Some err => ret (Some err) | None => updateDeletionCostForSubsetPods pods' cost end
  end.

Definition positive_cost (ws : WorkloadSpread) (index : Z) : Z := PodDeletionCostPositive * (len (ws_Subsets ws) - index).
Definition negative_cost (index : Z) : Z := PodDeletionCostNegative * (index + 1).
Definition syncSubsetPodDeletionCost (ws : WorkloadSpread) (subset : option WorkloadSpreadSubset) (index : Z) (pods : list Pod)
  (workloadReplicas : Z) : M S (option error) :=
  match partition_pods subset workloadReplicas pods with
  | None => ret None
  | Some (positivePods, negativePods) =>
      do e <- updateDeletionCostForSubsetPods positivePods (Itoa (positive_cost ws index));
      match e with
      | Some err => ret (Some err)
      | None => updateDeletionCostForSubsetPods negativePods (Itoa (negative_cost index))
      end
  end.

(** The loop of [updateDeletionCostBySubset] from one index on. *)
Fixpoint cost_subsets (ws : WorkloadSpread) (podMap : gmap string (list Pod)) (workloadReplicas : Z) (reverseOrder : bool)
  (idx : Z) (subsets : list WorkloadSpreadSubset) : M S (option error) :=
  match subsets with
  | [] => ret None
  | subset :: subsets' =>
      let index := if reverseOrder then len (ws_Subsets ws) - idx - 1 else idx in
      do e <- syncSubsetPodDeletionCost ws (Some subset) index (pods_on podMap (sub_Name subset)) workloadReplicas;
      match e with
      | Some err => ret (Some err)
      | None => cost_subsets ws podMap workloadReplicas reverseOrder (idx + 1) subsets'
      end
  end.
Definition updateDeletionCostBySubset (ws : WorkloadSpread) (podMap : gmap string (list Pod)) (workloadReplicas : Z)
  (reverseOrder : bool) : M S (option error) :=
  do e <- cost_subsets ws podMap workloadReplicas reverseOrder 0 (ws_Subsets ws);
  match e with
  | Some err => ret (Some err)
  | None =>
      match pods_on podMap FakeSubsetName with
      | [] => ret None
      | fake => syncSubsetPodDeletionCost ws None (len (ws_Subsets ws)) fake workloadReplicas
      end
  end.
Fixpoint cost_versions (ws : WorkloadSpread) (workloadReplicas : Z) (latestVersion : string)
  (entries : list (string * gmap string (list Pod))) : M S (option error) :=
  match entries with
  | [] => ret None
  | (version, podMap) :: entries' =>
      do e <- updateDeletionCostBySubset ws podMap workloadReplicas (negb (String.eqb version latestVersion));
      match e with Some err => ret (Some err) | None => cost_versions ws workloadReplicas latestVersion entries' end
  end.
Definition updateDeletionCost (ws : WorkloadSpread) (versionedPodMap : gmap string (gmap string (list Pod))) (workloadReplicas : Z)
  : M S (option error) :=
  match ws_TargetReference ws with
  | None => ret None
  | Some ref =>
      if negb (isEffectiveKindForDeletionCost ref) then ret None
      else
        do x <- getWorkloadLatestVersion ws;
        match x with
        | inl err => ret (Some err)
        | inr latest => cost_versions ws workloadReplicas latest (range _ versionedPodMap)
        end
  end.

(** ** The controller: the status *)

Definition NewWorkloadSpreadSubsetCondition (condType status : string) : WorkloadSpreadSubsetCondition :=
  mkSubsetCond condType status now "" "".
Definition GetWorkloadSpreadSubsetCondition (status : option WorkloadSpreadSubsetStatus) (condType : string)
  : option WorkloadSpreadSubsetCondition :=
  match status with
  | None => None
  | Some s => find (fun c => String.eqb (wc_Type c) condType) (wss_Conditions s)
  end.
Definition with_conditions (s : WorkloadSpreadSubsetStatus) (l : list WorkloadSpreadSubsetCondition) : WorkloadSpreadSubsetStatus :=
  mkSubsetStatus (wss_Name s) (wss_Replicas s) l (wss_MissingReplicas s) (wss_CreatingPods s) (wss_DeletingPods s).
Definition filterOutCondition (l : list WorkloadSpreadSubsetCondition) (condType : string) : list WorkloadSpreadSubsetCondition :=
  filterb (fun c => negb (String.eqb (wc_Type c) condType)) l.
Definition setWorkloadSpreadSubsetCondition (s : WorkloadSpreadSubsetStatus) (c : WorkloadSpreadSubsetCondition)
  : WorkloadSpreadSubsetStatus :=
  let add c := with_conditions s (filterOutCondition (wss_Conditions s) (wc_Type c) ++ [c]) in
  match GetWorkloadSpreadSubsetCondition (Some s) (wc_Type c) with
  | Some cur =>
      if String.eqb (wc_Status cur) (wc_Status c) then
        if String.eqb (wc_Reason cur) (wc_Reason c) then s
        else add (mkSubsetCond (wc_Type c) (wc_Status c) (wc_LastTransitionTime cur) (wc_Reason c) (wc_Message c))
      else add c
  | None => add c
  end.
Definition removeWorkloadSpreadSubsetCondition (s : WorkloadSpreadSubsetStatus) (condType : string) : WorkloadSpreadSubsetStatus :=
  with_conditions s (filterOutCondition (wss_Conditions s) condType).

(** The state of the loop over the pods of a subset: the creations not yet seen, the deletions
    still expected, the missing replicas and the active pods. *)
Record Tally := mkTally { ta_creating : gmap string Z; ta_deleting : gmap string Z; ta_missing : Z; ta_active : Z }.

Definition pod_id (pod : Pod) : string :=
  match getInjectWorkloadSpreadFromPod pod with
  | Some i => if String.eqb (in_UID i) "" then p_name pod else in_UID i
  | None => p_name pod
  end.

(** One pod: the new tally, and how long to wait when its deletion is still expected. *)
Definition tally_pod (oldDeleting : gmap string Z) (max : Z) (t : Tally) (pod : Pod) : Tally * option Z :=
  let creating := delete (pod_id pod) (ta_creating t) in
  if negb (IsPodActive pod) then (mkTally creating (ta_deleting t) (ta_missing t) (ta_active t), None)
  else
    let active := wrap32 (ta_active t + 1) in
    let missing := if 0 <? ta_missing t then ta_missing t - 1 else ta_missing t in
    match oldDeleting !! p_name pod with
    | Some deleteTime =>
        let expectedDeletion := deleteTime + DeletePodTimeout in
        if expectedDeletion <? now then (mkTally creating (ta_deleting t) missing active, None)
        else (mkTally creating (<[p_name pod := deleteTime]> (ta_deleting t))
                (if missing <? wrap32 max then missing + 1 else missing) active, Some (expectedDeletion - now))
    | None => (mkTally creating (ta_deleting t) missing active, None)
    end.
Fixpoint tally_pods (key : string) (oldDeleting : gmap string Z) (max : Z) (pods : list Pod) (t : Tally) : M S Tally :=
  match pods with
  | [] => ret t
  | pod :: pods' =>
      let '(t', wait) := tally_pod oldDeleting max t pod in
      (match wait with Some d => pushDuration key d | None => ret tt end) ;;
      tally_pods key oldDeleting max pods' t'
  end.

(** The creations that are left: those still expected, and the missing replicas. *)
Fixpoint tally_creating (key : string) (entries : list (string * Z)) (creating : gmap string Z) (missing : Z)
  : M S (gmap string Z * Z) :=
  match entries with
  | [] => ret (creating, missing)
  | (podID, createTime) :: entries' =>
      let expectedCreation := createTime + CreatPodTimeout in
      if expectedCreation <? now then tally_creating key entries' creating missing
      else
        pushDuration key (expectedCreation - now) ;;
        tally_creating key entries' (<[podID := createTime]> creating) (if 0 <? missing then missing - 1 else missing)
  end.

Definition subset_max (subset : WorkloadSpreadSubset) (workloadReplicas : Z) : option Z :=
  match sub_MaxReplicas subset with
  | None => Some (-1)
  | Some m =>
      match GetValueFromIntOrPercent m workloadReplicas true with
      | Some v => if v <? 0 then None else Some v
      | None => None
      end
  end.

(** [None] is the nil of a maximum that is not valid. *)
Definition calculateWorkloadSpreadSubsetStatus (ws : WorkloadSpread) (pods : list Pod) (subset : WorkloadSpreadSubset)
  (old : option WorkloadSpreadSubsetStatus) (workloadReplicas : Z) : M S (option WorkloadSpreadSubsetStatus) :=
  match subset_max subset workloadReplicas with
  | None => ret None
  | Some max =>
      let oldCreating := match old with Some s => wss_CreatingPods s | None => ∅ end in
      let oldDeleting := match old with Some s => wss_DeletingPods s | None => ∅ end in
      let key := getWorkloadSpreadKey ws in
      do t <- tally_pods key oldDeleting max pods (mkTally oldCreating ∅ (wrap32 max) 0);
      do '(creating, missing) <- tally_creating key (range _ (ta_creating t)) ∅ (ta_missing t);
      ret (Some (mkSubsetStatus (sub_Name subset) (ta_active t) [] missing creating (ta_deleting t)))
  end.

(** ** The controller: rescheduling *)

(** [PodUnscheduledTimeout]: the wait is until the pod counts as unschedulable; [critical] is
    the dereferenced [RescheduleCriticalSeconds]. *)
Definition PodUnscheduledTimeout (ws : WorkloadSpread) (critical : Z) (pod : Pod) : M S bool :=
  if match p_deletion pod with Some _ => true | None => false end || negb (String.eqb (p_phase pod) PodPending)
     || negb (String.eqb (p_node pod) "")
  then ret false
  else
    match find (fun c => String.eqb (c_type c) PodScheduled && String.eqb (c_status c) ConditionFalse
                         && String.eqb (c_reason c) PodReasonUnschedulable) (p_conditions pod) with
    | None => ret false
    | Some _ =>
        let expectSchedule := p_creation pod + second * critical in
        if expectSchedule <? now then ret true
        else pushDuration (getWorkloadSpreadKey ws) (expectSchedule - now) ;; ret false
    end.
Fixpoint unscheduled_pods (ws : WorkloadSpread) (critical : Z) (pods : list Pod) : M S (list Pod) :=
  match pods with
  | [] => ret []
  | pod :: pods' =>
      do b <- PodUnscheduledTimeout ws critical pod;
      do l <- unscheduled_pods ws critical pods';
      ret (if b : bool then pod :: l else l)
  end.

Definition rescheduleSubset (ws : WorkloadSpread) (critical : Z) (pods : list Pod) (status : WorkloadSpreadSubsetStatus)
  (old : option WorkloadSpreadSubsetStatus) : M S (list Pod * WorkloadSpreadSubsetStatus) :=
  do failed <- unscheduled_pods ws critical pods;
  let unschedulable := negb (bool_decide (failed = [])) in
  let set s status := setWorkloadSpreadSubsetCondition s (NewWorkloadSpreadSubsetCondition SubsetSchedulable status) in
  match GetWorkloadSpreadSubsetCondition old SubsetSchedulable with
  | None => ret (failed, set status (if unschedulable then ConditionFalse else ConditionTrue))
  | Some oldCondition =>
      let status := setWorkloadSpreadSubsetCondition status oldCondition in
      if unschedulable then ret (failed, set status ConditionFalse)
      else if String.eqb (wc_Status oldCondition) ConditionFalse then
        let expectReschedule := wc_LastTransitionTime oldCondition + MaxScheduledFailedDuration in
        if expectReschedule <? now then ret (failed, set status ConditionTrue)
        else pushDuration (getWorkloadSpreadKey ws) (expectReschedule - now) ;; ret (failed, status)
      else ret (failed, status)
  end.

Definition rescheduleCriticalSeconds (ws : WorkloadSpread) : Z :=
  if String.eqb (ws_StrategyType ws) AdaptiveWorkloadSpreadScheduleStrategyType then default 0 (ws_critical ws) else 0.

(** The loop of [calculateWorkloadSpreadSubsetStatuses]; [None] is the pair of nils. *)
Definition Statuses : Type := list WorkloadSpreadSubsetStatus * gmap string (list Pod).
Fixpoint subset_statuses (ws : WorkloadSpread) (oldMap : gmap string WorkloadSpreadSubsetStatus) (podMap : gmap string (list Pod))
  (workloadReplicas : Z) (subsets : list WorkloadSpreadSubset) (acc : Statuses) : M S (option Statuses) :=
  match subsets with
  | [] => ret (Some acc)
  | subset :: subsets' =>
      let old := oldMap !! sub_Name subset in
      let pods := pods_on podMap (sub_Name subset) in
      let critical := rescheduleCriticalSeconds ws in
      do x <- calculateWorkloadSpreadSubsetStatus ws pods subset old workloadReplicas;
      match x with
      | None => ret None
      | Some status =>
          do '(failed, status) <-
            (if 0 <? critical then
               if negb (bool_decide (subsets' = [])) then
                 do '(l, status) <- rescheduleSubset ws critical pods status old;
                 ret (<[sub_Name subset := l]> acc.2, status)
               else
                 let status := match GetWorkloadSpreadSubsetCondition old SubsetSchedulable with
                               | Some c => setWorkloadSpreadSubsetCondition status c
                               | None => status
                               end in
                 ret (acc.2, setWorkloadSpreadSubsetCondition status
                               (NewWorkloadSpreadSubsetCondition SubsetSchedulable ConditionTrue))
             else ret (acc.2, removeWorkloadSpreadSubsetCondition status SubsetSchedulable));
          subset_statuses ws oldMap podMap workloadReplicas subsets' (acc.1 ++ [status], failed)
      end
  end.
Definition calculateWorkloadSpreadSubsetStatuses (ws : WorkloadSpread) (old : list WorkloadSpreadSubsetStatus)
  (podMap : gmap string (list Pod)) (workloadReplicas : Z) : M S (option Statuses) :=
  let oldMap := fold_left (fun m s => <[wss_Name s := s]> m) old ∅ in
  subset_statuses ws oldMap podMap workloadReplicas (ws_Subsets ws) ([], ∅).

Definition isEmptySubsetStatuses (l : list WorkloadSpreadSubsetStatus) : bool :=
  sumZ wss_Replicas l + sumZ (fun s => Z.of_nat (size (wss_CreatingPods s))) l
  + sumZ (fun s => Z.of_nat (size (wss_DeletingPods s))) l =? 0.

(** The versions with pods, and those without. *)
Fixpoint versioned_statuses (ws : WorkloadSpread) (workloadReplicas : Z) (entries : list (string * gmap string (list Pod)))
  (acc : gmap string (list WorkloadSpreadSubsetStatus)) : M S (gmap string (list WorkloadSpreadSubsetStatus)) :=
  match entries with
  | [] => ret acc
  | (version, podMap) :: entries' =>
      do x <- calculateWorkloadSpreadSubsetStatuses ws (default [] (wst_Versioned (ws_status ws) !! version)) podMap workloadReplicas;
      versioned_statuses ws workloadReplicas entries' (<[version := match x with Some r => r.1 | None => [] end]> acc)
  end.
Fixpoint unobserved_statuses (ws : WorkloadSpread) (workloadReplicas : Z) (observed : gmap string (gmap string (list Pod)))
  (entries : list (string * list WorkloadSpreadSubsetStatus)) (acc : gmap string (list WorkloadSpreadSubsetStatus))
  : M S (gmap string (list WorkloadSpreadSubsetStatus)) :=
  match entries with
  | [] => ret acc
  | (version, old) :: entries' =>
      match observed !! version with
      | Some _ => unobserved_statuses ws workloadReplicas observed entries' acc
      | None =>
          do x <- calculateWorkloadSpreadSubsetStatuses ws old ∅ workloadReplicas;
          let l := match x with Some r => r.1 | None => [] end in
          unobserved_statuses ws workloadReplicas observed entries'
            (if isEmptySubsetStatuses l then acc else <[version := l]> acc)
      end
  end.

Definition calculateWorkloadSpreadStatus (ws : WorkloadSpread) (versionedPodMap : gmap string (gmap string (list Pod)))
  (subsetPodMap : gmap string (list Pod)) (workloadReplicas : Z) : M S (WorkloadSpreadStatus * gmap string (list Pod)) :=
  do x <- calculateWorkloadSpreadSubsetStatuses ws (wst_SubsetStatuses (ws_status ws)) subsetPodMap workloadReplicas;
  let '(overall, failed) := match x with Some r => r | None => ([], ∅) end in
  do v1 <- versioned_statuses ws workloadReplicas (range _ versionedPodMap) ∅;
  do v2 <- unobserved_statuses ws workloadReplicas versionedPodMap (range _ (wst_Versioned (ws_status ws))) v1;
  ret (mkSpreadStatus (ws_generation ws) overall v2, failed).

(** [makeStatusChangedLog] indexes the new statuses by the subsets of the spec: it panics when
    they are nil and the old status knows one of the subsets. *)
Definition makeStatusChangedLog_panics (ws : WorkloadSpread) (status : WorkloadSpreadStatus) : bool :=
  existsb (fun e => existsb (fun s => String.eqb (wss_Name s) (sub_Name e.2)) (wst_SubsetStatuses (ws_status ws))
                    && (len (wst_SubsetStatuses status) <=? Z.of_nat e.1))
    (imap (fun i s => (i, s)) (ws_Subsets ws)).

Definition writeWorkloadSpreadStatus (ws : WorkloadSpread) : M S (option error) :=
  do r <- updateSpreadStatus ws;
  match r with
  | inl err => ret (Some err)
  | inr stored => on_local (fun l => with_spreads l (<[cache_key stored := stored]> (l_spreads l))) ;; ret None
  end.

(** [UpdateWorkloadSpreadStatus]: the comparison is between a pointer and a value, which are
    never equal. *)
Definition UpdateWorkloadSpreadStatus (ws : WorkloadSpread) (status : WorkloadSpreadStatus) : M S (Outcome (option error)) :=
  do e <- writeWorkloadSpreadStatus (with_spread_status ws status);
  match e with
  | Some err => ret (Value (Some err))
  | None => if makeStatusChangedLog_panics ws status then ret Panic else ret (Value None)
  end.

Fixpoint deletePodsForSubset (pods : list Pod) : M S (option error) :=
  match pods with
  | [] => ret None
  | pod :: pods' =>
      do e <- World.deletePod pod;
      match e with Some err => ret (Some err) | None => deletePodsForSubset pods' end
  end.
Fixpoint cleanup_subsets (entries : list (string * list Pod)) : M S (option error) :=
  match entries with
  | [] => ret None
  | (_, pods) :: entries' =>
      do e <- deletePodsForSubset pods;
      match e with Some err => ret (Some err) | None => cleanup_subsets entries' end
  end.
Definition cleanupUnscheduledPods (failed : gmap string (list Pod)) : M S (option error) := cleanup_subsets (range _ failed).

Definition syncWorkloadSpread (ws : WorkloadSpread) : M S (Outcome (option error)) :=
  do x <- getPodsForWorkloadSpread ws;
  match x with
  | inl err => ret (Value (Some err))
  | inr (pods, workloadReplicas) =>
      if workloadReplicas =? -1 then ret (Value None)
      else
        do g <- groupVersionedPods ws pods workloadReplicas;
        match g with
        | Panic => ret Panic
        | Value (inl err) => ret (Value (Some err))
        | Value (inr (versionedPodMap, subsetPodMap)) =>
            do e <- updateDeletionCost ws versionedPodMap workloadReplicas;
            match e with
            | Some err => ret (Value (Some err))
            | None =>
                do '(status, failed) <- calculateWorkloadSpreadStatus ws versionedPodMap subsetPodMap workloadReplicas;
                do r <- UpdateWorkloadSpreadStatus ws status;
                match r with
                | Panic => ret Panic
                | Value (Some err) => ret (Value (Some err))
                | Value None => do e <- cleanupUnscheduledPods failed; ret (Value e)
                end
            end
        end
  end.

(** The key under which [Reconcile] deletes from the cache. *)
Definition spread_gvk : string := "apps.kruise.io/v1alpha1, Kind=WorkloadSpread".
Definition Reconcile (namespace name : string) : M S (Outcome (Z * option error)) :=
  let forget := on_local (fun l => with_spreads l (delete (spread_gvk +:+ "/" +:+ namespace +:+ "/" +:+ name) (l_spreads l))) in
  do x <- read (GetSpread namespace name);
  match x with
  | inl err => if IsNotFound err then forget ;; ret (Value (0, None)) else ret (Value (0, Some err))
  | inr ws =>
      match ws_deletion ws with
      | Some _ => forget ;; ret (Value (0, None))
      | None =>
          do r <- syncWorkloadSpread ws;
          match r with
          | Panic => ret Panic
          | Value err => do d <- popDuration (getWorkloadSpreadKey ws); ret (Value (d, err))
          end
      end
  end.

(** ** Watch events: what the handlers add to the queue *)

Definition handlePod (pod : Pod) : list (string * string) :=
  match p_annotations pod !! MatchedWorkloadSpreadSubsetAnnotations with
  | None => []
  | Some value =>
      match Unmarshal value with
      | inl _ => []
      | inr x => [(p_namespace pod, in_Name (default no_inject x))]
      end
  end.
Definition podEventHandler_Update (oldPod newPod : Pod) : list (string * string) :=
  if IsPodActive oldPod && negb (IsPodActive newPod) || negb (String.eqb (GetPodVersion oldPod) (GetPodVersion newPod))
  then handlePod newPod else [].

Definition getWorkloadSpreadForWorkload (namespace name : string) (gvk : GVK) (ownerRef : option OwnerReference)
  : M S (error + option WorkloadSpread) :=
  do x <- read (ListSpreads namespace);
  match x with
  | inl err => ret (inl err)
  | inr l =>
      let owner := match ownerRef with
                   | Some o => if bool_decide (gvk = controllerKindRS)
                                  && bool_decide (FromAPIVersionAndKind (or_apiVersion o) (or_kind o) = controllerKindDep)
                               then Some (or_name o) else None
                   | None => None
                   end in
      ret (inr (find (fun ws =>
        match ws_deletion ws, ws_TargetReference ws with
        | None, Some ref =>
            let targetGk := GroupKind (FromAPIVersionAndKind (tr_APIVersion ref) (tr_Kind ref)) in
            bool_decide (targetGk = GroupKind gvk) && String.eqb (tr_Name ref) name
            || match owner with
               | Some n => bool_decide (targetGk = GroupKind controllerKindDep) && String.eqb (tr_Name ref) n
               | None => false
               end
        | _, _ => false
        end) l))
  end.

(** The kind that the handlers use for a Go type. *)
Definition event_gvk (o : Workload) : GVK :=
  match wl_type o with
  | TCloneSet => controllerKruiseKindCS
  | TDeployment => controllerKindDep
  | TReplicaSet => controllerKindRS
  | TJob => controllerKindJob
  | TStatefulSet => controllerKindSts
  | TBetaStatefulSet => controllerKruiseKindAlphaSts
  | TUnstructured => wl_gvk o
  end.
Definition enqueue_for (o : Workload) : M S (list (string * string)) :=
  do x <- getWorkloadSpreadForWorkload (wl_namespace o) (wl_name o) (event_gvk o) (GetControllerOf (wl_owners o));
  ret (match x with inr (Some ws) => [(ws_namespace ws, ws_name ws)] | _ => [] end).
Definition handleWorkload (o : Workload) : M S (list (string * string)) :=
  match wl_type o with
  | TUnstructured => ret []
  | _ => enqueue_for o
  end.
Definition event_replicas (o : Workload) : M S Z :=
  match wl_type o with
  | TUnstructured => read (GetReplicasFromCustomWorkload o)
  | _ => ret (wl_replicas o)
  end.
Definition workloadEventHandler_Update (old new : Workload) : M S (list (string * string)) :=
  do oldReplicas <- event_replicas old;
  do newReplicas <- event_replicas new;
  let otherChanges :=
    match wl_type new with
    | TCloneSet => negb (String.eqb (wl_updateRevision new) (wl_currentRevision old))
    | TDeployment => negb (String.eqb (lbl (wl_annotations new) DeploymentRevisionAnnotation)
                             (lbl (wl_annotations old) DeploymentRevisionAnnotation))
    | _ => false
    end in
  if negb (oldReplicas =? newReplicas) || otherChanges then enqueue_for new else ret [].
End Spread.
