(* ===== verification/WorkloadSpreadQuota.v ===== *)
(** * WorkloadSpread: the quota of a subset

    What the controller computes as the missing replicas of a subset, and that webhooks and
    controller together never let more pods into a subset than its maximum. *)

From S2P Require Import Prelude GoLib GoText K8s Tools Expectations Lifecycle Selector UpdateSort CloneSetDiff.
From S2P Require Import ControllerExpectations WorkloadSpreadTypes World Scheduling InPlaceUpdate StatefulSetUtils DaemonSet WorkloadSpread.
Open Scope Z_scope.
Open Scope kruise_scope.

(** The pods of a subset that are there or admitted: those seen, less those that are being
    deleted, and those that are being created. *)
Definition occupancy (s : WorkloadSpreadSubsetStatus) : Z :=
  wss_Replicas s - Z.of_nat (size (wss_DeletingPods s)) + Z.of_nat (size (wss_CreatingPods s)).

Section Tally.
Context {S : Type} `{JI : Json (option InjectWorkloadSpread)} (now : Z).

(** A deletion that is still expected. *)
Definition still_deleting (od : gmap string Z) (p : Pod) : bool :=
  IsPodActive p && match od !! p_name p with Some t => negb (t + DeletePodTimeout <? now) | None => false end.

Definition tally (od : gmap string Z) (max : Z) (pods : list Pod) (t : Tally) : Tally :=
  fold_left (fun t p => (tally_pod now od max t p).1) pods t.

Lemma tally_cons od max p pods t : tally od max (p :: pods) t = tally od max pods (tally_pod now od max t p).1.
Proof. done. Qed.

Lemma tally_pods_spec key od max pods t (w : World S) :
  exists w', tally_pods now key od max pods t w = (w', tally od max pods t) /\ w_trace w' = w_trace w /\ w_server w' = w_server w.
Proof.
  revert t w. induction pods as [|p pods IH]; intros t w; cbn [tally_pods tally fold_left]; [by exists w|].
  destruct (tally_pod now od max t p) as [t' wait]. unfold bind. destruct wait as [d|]; cbn.
  - destruct (IH t' (mkWorld (w_server w) (w_scale w) (w_rv w) (w_upd w) (w_local w) (Requeue.Push (w_dur w) key d) (w_trace w)))
      as (w' & -> & ? & ?). by exists w'.
  - destruct (IH t' w) as (w' & -> & ? & ?). by exists w'.
Qed.

(** The seen creations are taken off. *)
Lemma tally_creating_lookup od max pods t x :
  ta_creating (tally od max pods t) !! x
  = if bool_decide (x ∈ map pod_id pods) then None else ta_creating t !! x.
Proof.
  revert t. induction pods as [|p pods IH]; intros t; [done|]. rewrite tally_cons, IH. cbn [map].
  assert (E : ta_creating (tally_pod now od max t p).1 = delete (pod_id p) (ta_creating t)).
  { unfold tally_pod. destruct (negb _); [done|]. destruct (od !! _); [|done]. by destruct (_ <? _). }
  rewrite E. destruct (decide (x = pod_id p)) as [->|Hx].
  - rewrite lookup_delete_eq. rewrite (bool_decide_eq_true_2 (_ ∈ pod_id p :: _)) by left. by case_bool_decide.
  - rewrite lookup_delete_ne by done. case_bool_decide as Hd.
    + by rewrite bool_decide_eq_true_2 by (by right).
    + rewrite bool_decide_eq_false_2; [done|]. by intros [?|?]%elem_of_cons.
Qed.

(** The counters, when no more pods are active than the maximum. *)
Lemma tally_counts od max pods t :
  NoDup (map p_name pods) -> (forall p, p ∈ pods -> p_name p ∉ dom (ta_deleting t)) ->
  0 <= max < 2147483648 -> 0 <= ta_active t -> ta_active t + countb IsPodActive pods <= max ->
  Z.of_nat (size (ta_deleting t)) <= ta_active t ->
  ta_missing t = max - ta_active t + Z.of_nat (size (ta_deleting t)) ->
  let t' := tally od max pods t in
  ta_active t' = ta_active t + countb IsPodActive pods /\
  Z.of_nat (size (ta_deleting t')) = Z.of_nat (size (ta_deleting t)) + countb (still_deleting od) pods /\
  ta_missing t' = max - ta_active t' + Z.of_nat (size (ta_deleting t')) /\
  (forall n, n ∈ dom (ta_deleting t') <-> n ∈ dom (ta_deleting t) \/ exists p, p ∈ pods /\ still_deleting od p = true /\ p_name p = n).
Proof.
  intros Hnd Hfresh Hmax. revert t Hfresh. induction pods as [|p pods IH]; intros t Hfresh Ha Hle Hd Hm.
  { cbn. rewrite !Z.add_0_r. repeat (split; [done|]). intros n. split; [by left|]. intros [?|(p & Hp & _)]; [done|].
    by apply not_elem_of_nil in Hp. }
  cbn [countb] in *. apply NoDup_cons in Hnd as [Hp Hnd]. rewrite tally_cons.
  pose proof (countb_nonneg IsPodActive pods) as Hc.
  assert (Hw : wrap32 max = max) by (apply wrap32_id; unfold is_int32, int32_max, int32_min; lia).
  set (t1 := (tally_pod now od max t p).1).
  assert (Hstep : ta_active t1 = ta_active t + (if IsPodActive p then 1 else 0) /\
    ta_deleting t1 = (if still_deleting od p then <[p_name p := default 0 (od !! p_name p)]> (ta_deleting t) else ta_deleting t) /\
    ta_missing t1 = max - ta_active t1 + Z.of_nat (size (ta_deleting t1))).
  { unfold t1, tally_pod, still_deleting. destruct (IsPodActive p) eqn:Eact; cbn [negb andb fst ta_active ta_deleting ta_missing].
    2:{ rewrite Z.add_0_r. done. }
    assert (Hwa : wrap32 (ta_active t + 1) = ta_active t + 1) by (apply wrap32_id; unfold is_int32, int32_max, int32_min; lia).
    assert (Hpos : (0 <? ta_missing t) = true) by lia. rewrite Hpos, Hwa.
    destruct (od !! p_name p) as [dt|] eqn:Eo; [destruct (_ <? now) eqn:Et|]; cbn [fst ta_active ta_deleting ta_missing negb default from_option id].
    - repeat (split; [done|]). lia.
    - repeat (split; [done|]). rewrite Hw.
      assert (Hs : size (<[p_name p:=dt]> (ta_deleting t)) = Datatypes.S (size (ta_deleting t))).
      { apply map_size_insert_None. apply not_elem_of_dom, Hfresh. left. }
      rewrite Hs. destruct (Z.ltb_spec (ta_missing t - 1) max); lia.
    - repeat (split; [done|]). lia. }
  destruct Hstep as (Ea1 & Ed1 & Em1).
  assert (Hs1 : Z.of_nat (size (ta_deleting t1)) = Z.of_nat (size (ta_deleting t)) + (if still_deleting od p then 1 else 0)).
  { rewrite Ed1. destruct (still_deleting od p); [|lia]. rewrite map_size_insert_None; [lia|].
    apply not_elem_of_dom, Hfresh. left. }
  assert (Hdom1 : forall n, n ∈ dom (ta_deleting t1) <-> n ∈ dom (ta_deleting t) \/ still_deleting od p = true /\ p_name p = n).
  { intros n. rewrite Ed1. destruct (still_deleting od p); [rewrite dom_insert|]; set_solver. }
  assert (Hk : still_deleting od p = true -> IsPodActive p = true) by (unfold still_deleting; by intros [? _]%andb_true_iff).
  destruct (IH Hnd t1) as (Ea & Ed & Em & Hdom).
  - intros q Hq [Hx|[_ Hx]]%Hdom1; [by apply (Hfresh q); [right|]|]. apply Hp. rewrite Hx. by apply (list_elem_of_fmap_2 p_name).
  - destruct (IsPodActive p); lia.
  - destruct (IsPodActive p); lia.
  - destruct (IsPodActive p), (still_deleting od p); lia || by specialize (Hk eq_refl).
  - done.
  - cbn zeta. split; [destruct (IsPodActive p); lia|]. split; [lia|]. split; [done|].
    intros n. rewrite Hdom, Hdom1. split.
    + intros [[?|[? ?]]|(q & ? & ?)]; [by left|right; exists p; split; [left|done]|right; exists q; split; [by right|done]].
    + intros [?|(q & [->|?]%elem_of_cons & ? & ?)]; [by left; left|by left; right|right; by exists q].
Qed.
End Tally.

Section Status.
Context {S : Type} `{JI : Json (option InjectWorkloadSpread)}.
Context (range : forall A, gmap string A -> list (string * A)) (now : Z).
Hypothesis range_perm : forall A (m : gmap string A), range A m ≡ₚ map_to_list m.

(** A creation that is still expected. *)
Definition still_creating (e : string * Z) : bool := negb (e.2 + CreatPodTimeout <? now).

Lemma tally_creating_spec key entries creating missing (w : World S) :
  NoDup (map fst entries) -> (forall x, x ∈ map fst entries -> x ∉ dom creating) -> 0 <= missing ->
  exists w' creating',
    tally_creating now key entries creating missing w = (w', (creating', Z.max 0 (missing - countb still_creating entries))) /\
    w_trace w' = w_trace w /\ w_server w' = w_server w /\
    Z.of_nat (size creating') = Z.of_nat (size creating) + countb still_creating entries /\
    (forall x t, creating' !! x = Some t <-> creating !! x = Some t \/ (x, t) ∈ entries /\ still_creating (x, t) = true).
Proof.
  revert creating missing w. induction entries as [|[x t] entries IH]; intros creating missing w Hnd Hf Hm; cbn [tally_creating].
  { exists w, creating. cbn. rewrite Z.sub_0_r, Z.max_r, Z.add_0_r by lia. repeat (split; [done|]). intros x t. split; [by left|].
    intros [?|[?%not_elem_of_nil _]]; done. }
  cbn [map fst] in *. apply NoDup_cons in Hnd as [Hx Hnd]. cbn [countb]. pose proof (countb_nonneg still_creating entries).
  assert (Hec : still_creating (x, t) = negb (t + CreatPodTimeout <? now)) by done. rewrite Hec.
  destruct (t + CreatPodTimeout <? now) eqn:Et; cbn [negb] in Hec |- *.
  - destruct (IH creating missing w) as (w' & c' & -> & Ht & Hs & Hsz & Hl); [done|intros y Hy; apply Hf; by right|done|].
    exists w', c'. split; [by rewrite Z.add_0_l|]. repeat (split; [done|]). intros y u. rewrite Hl. split.
    + intros [?|[? ?]]; [by left|right; split; [by right|done]].
    + intros [?|[[[= -> ->]|?]%elem_of_cons ?]]; [by left|congruence|by right].
  - unfold bind. cbn [pushDuration].
    set (w1 := mkWorld _ _ _ _ _ _ _). set (m1 := if 0 <? missing then _ else _).
    destruct (IH (<[x := t]> creating) m1 w1) as (w' & c' & -> & Ht & Hs & Hsz & Hl).
    + done.
    + intros y Hy. rewrite dom_insert, not_elem_of_union, not_elem_of_singleton. split; [by intros ->|]. apply Hf. by right.
    + unfold m1. destruct (Z.ltb_spec 0 missing); lia.
    + exists w', c'. split; [do 2 f_equal; unfold m1; destruct (Z.ltb_spec 0 missing); lia|]. split; [done|]. split; [done|].
      assert (Hfx : creating !! x = None) by (apply not_elem_of_dom, Hf; left).
      split; [rewrite Hsz, map_size_insert_None by done; lia|]. intros y u. rewrite Hl. split.
      * intros [Hy|[? ?]]; [|right; split; [by right|done]]. apply lookup_insert_Some in Hy as [[<- <-]|[_ ?]]; [|by left].
        right. split; [left|done].
      * intros [Hy|[[[= -> ->]|?]%elem_of_cons ?]]; [|left; by rewrite lookup_insert_eq|by right].
        left. rewrite lookup_insert_ne; [done|]. intros ->. congruence.
Qed.

Lemma range_NoDup {A} (m : gmap string A) : NoDup (map fst (range A m)).
Proof. rewrite range_perm. apply NoDup_fst_map_to_list. Qed.
Lemma range_elem {A} (m : gmap string A) k v : (k, v) ∈ range A m <-> m !! k = Some v.
Proof. rewrite range_perm. apply elem_of_map_to_list. Qed.

Definition old_creating (old : option WorkloadSpreadSubsetStatus) : gmap string Z :=
  match old with Some s => wss_CreatingPods s | None => ∅ end.
Definition old_deleting (old : option WorkloadSpreadSubsetStatus) : gmap string Z :=
  match old with Some s => wss_DeletingPods s | None => ∅ end.

(** What the controller computes for a subset with a maximum. *)
Record counted (pods : list Pod) (old : option WorkloadSpreadSubsetStatus) (max : Z) (s : WorkloadSpreadSubsetStatus) : Prop := {
  ct_replicas : wss_Replicas s = countb IsPodActive pods;
  ct_deleting : forall n, n ∈ dom (wss_DeletingPods s) <->
    exists p, p ∈ pods /\ still_deleting now (old_deleting old) p = true /\ p_name p = n;
  ct_deleting_size : Z.of_nat (size (wss_DeletingPods s)) = countb (still_deleting now (old_deleting old)) pods;
  ct_creating : forall x t, wss_CreatingPods s !! x = Some t <->
    old_creating old !! x = Some t /\ x ∉ map pod_id pods /\ now <= t + CreatPodTimeout;
  ct_missing : wss_MissingReplicas s = Z.max 0 (max - occupancy s);
}.

Lemma calculate_counted ws pods subset old replicas max (w : World S) :
  subset_max subset replicas = Some max -> 0 <= max < 2147483648 -> NoDup (map p_name pods) -> countb IsPodActive pods <= max ->
  exists w' s, calculateWorkloadSpreadSubsetStatus range now ws pods subset old replicas w = (w', Some s) /\
    w_trace w' = w_trace w /\ w_server w' = w_server w /\ wss_Name s = sub_Name subset /\ counted pods old max s.
Proof.
  intros Hmax Hr Hnd Hact. unfold calculateWorkloadSpreadSubsetStatus. rewrite Hmax. fold (old_creating old) (old_deleting old).
  unfold bind. set (t0 := mkTally _ _ _ _).
  destruct (tally_pods_spec (S := S) now (getWorkloadSpreadKey ws) (old_deleting old) max pods t0 w) as (w1 & -> & Ht1 & Hs1).
  assert (Hw : wrap32 max = max) by (apply wrap32_id; unfold is_int32, int32_max, int32_min; lia).
  destruct (tally_counts now (old_deleting old) max pods t0) as (Ea & Ed & Em & Hdom); cbn [t0 ta_active ta_deleting ta_missing] in *.
  { done. } { intros p _. rewrite dom_empty. set_solver. } { done. } { lia. } { done. }
  { rewrite map_size_empty. lia. } { rewrite map_size_empty, Hw. lia. }
  set (t := tally _ _ _ _ _) in *. rewrite map_size_empty in Ed.
  pose proof (countb_mono (still_deleting now (old_deleting old)) IsPodActive pods) as Hmono.
  destruct (tally_creating_spec (getWorkloadSpreadKey ws) (range Z (ta_creating t)) ∅ (ta_missing t) w1) as (w2 & cr & -> & Ht2 & Hs2 & Hsz & Hl).
  - apply range_NoDup.
  - intros x _. rewrite dom_empty. set_solver.
  - lia.
  - eexists w2, _. split; [done|]. split; [congruence|]. split; [congruence|]. split; [done|].
    rewrite map_size_empty in Hsz. split; cbn.
    + lia.
    + intros n. rewrite Hdom, dom_empty. set_solver.
    + lia.
    + intros x u. rewrite Hl, lookup_empty, range_elem. unfold t. rewrite tally_creating_lookup. cbn.
      unfold still_creating. cbn. case_bool_decide as Hx; split; try (intros [?|[? ?]]; done); try (by intros (_ & ? & _)).
      * intros [?|[? Hn]]; [done|]. split; [done|]. split; [done|]. lia.
      * intros (? & ? & ?). right. split; [done|]. lia.
    + unfold occupancy. cbn. lia.
Qed.
End Status.

(** ** Statuses by name *)

Lemma getSpecificSubset_name l n s : getSpecificSubset l n = Some s -> wss_Name s = n.
Proof. intros E. apply find_some in E as [_ E]. symmetry. by apply String.eqb_eq. Qed.

Lemma getSpecificSubset_cons y l n :
  getSpecificSubset (y :: l) n = if String.eqb n (wss_Name y) then Some y else getSpecificSubset l n.
Proof. done. Qed.

Lemma set_subset_get x l n : getSpecificSubset (set_subset x l) n
  = if String.eqb n (wss_Name x) then (if getSpecificSubset l n then Some x else None) else getSpecificSubset l n.
Proof.
  induction l as [|s l IH]; cbn; [by destruct (String.eqb n _)|].
  destruct (String.eqb_spec (wss_Name s) (wss_Name x)) as [E|E]; cbn.
  - rewrite E. by destruct (String.eqb_spec n (wss_Name x)).
  - fold (getSpecificSubset (set_subset x l) n) (getSpecificSubset l n). rewrite IH.
    destruct (String.eqb_spec n (wss_Name s)) as [->|Hn]; [|done]. by destruct (String.eqb_spec (wss_Name s) (wss_Name x)).
Qed.

Lemma set_subset_names x l : map wss_Name (set_subset x l) = map wss_Name l.
Proof.
  induction l as [|s l IH]; cbn; [done|]. destruct (String.eqb_spec (wss_Name s) (wss_Name x)) as [->|]; [done|]. cbn. by rewrite IH.
Qed.

Lemma insert_get l i s x n : l !! i = Some s -> wss_Name x = wss_Name s -> NoDup (map wss_Name l) ->
  getSpecificSubset (<[i := x]> l) n = if String.eqb n (wss_Name x) then Some x else getSpecificSubset l n.
Proof.
  revert i. induction l as [|y l IH]; intros [|i] Hi Hx Hnd; [done..| |]; cbn in Hi.
  - injection Hi as ->. cbn. rewrite Hx. by destruct (String.eqb n (wss_Name s)).
  - apply NoDup_cons in Hnd as [Hy Hnd]. change (<[Datatypes.S i := x]> (y :: l)) with (y :: <[i := x]> l).
    rewrite !getSpecificSubset_cons, (IH i) by done.
    destruct (String.eqb_spec n (wss_Name y)) as [->|]; [|done]. destruct (String.eqb_spec (wss_Name y) (wss_Name x)) as [E|]; [|done].
    destruct Hy. rewrite E, Hx. apply (list_elem_of_fmap_2 wss_Name). by eapply list_elem_of_lookup_2.
Qed.
Lemma insert_names l i s x : l !! i = Some s -> wss_Name x = wss_Name s -> map wss_Name (<[i := x]> l) = map wss_Name l.
Proof.
  revert i. induction l as [|y l IH]; intros [|i] Hi Hx; [done..| |]; cbn in Hi.
  - injection Hi as ->. cbn. by rewrite Hx.
  - change (<[Datatypes.S i := x]> (y :: l)) with (y :: <[i := x]> l). cbn [map]. by rewrite (IH i).
Qed.

Lemma getSuitableSubset_spec l i s : getSuitableSubset l = Some (i, s) ->
  l !! i = Some s /\ schedulable s = true /\ (0 < wss_MissingReplicas s \/ wss_MissingReplicas s = -1).
Proof.
  revert i. induction l as [|x l IH]; intros i E; cbn in E; [done|]. destruct (schedulable x && _) eqn:Ex.
  - injection E as <- <-. apply andb_true_iff in Ex as [? Ex]. apply orb_true_iff in Ex. split; [done|]. split; [done|]. lia.
  - destruct (getSuitableSubset l) as [[j y]|]; [|done]. injection E as <- <-. apply (IH j). done.
Qed.

(** The map of old statuses agrees with the list when the names are different. *)
Definition old_map (l : list WorkloadSpreadSubsetStatus) : gmap string WorkloadSpreadSubsetStatus :=
  fold_left (fun m s => <[wss_Name s := s]> m) l ∅.
Lemma old_map_get l n : NoDup (map wss_Name l) -> old_map l !! n = getSpecificSubset l n.
Proof.
  intros Hnd. unfold old_map.
  assert (Hg : forall m : gmap string WorkloadSpreadSubsetStatus, fold_left (fun m s => <[wss_Name s := s]> m) l m !! n
    = match getSpecificSubset l n with Some s => Some s | None => m !! n end).
  { revert Hnd. induction l as [|s l IH]; intros Hnd m; cbn; [done|]. apply NoDup_cons in Hnd as [Hs Hnd].
    rewrite IH by done. fold (getSpecificSubset l n). destruct (String.eqb_spec n (wss_Name s)) as [->|Hn].
    - destruct (getSpecificSubset l (wss_Name s)) as [y|] eqn:E; [|by rewrite lookup_insert_eq].
      destruct Hs. pose proof (getSpecificSubset_name _ _ _ E) as <-. apply find_some in E as [E _].
      apply (list_elem_of_fmap_2 wss_Name). by apply list_elem_of_In.
    - rewrite lookup_insert_ne by done. done. }
  rewrite Hg. by destruct (getSpecificSubset l n).
Qed.

Lemma bind_inv {S A B} (m : M S A) (k : A -> M S B) (w w' : World S) b :
  bind m k w = (w', b) -> exists w1 a, m w = (w1, a) /\ k a w1 = (w', b).
Proof. unfold bind. destruct (m w) as [w1 a]. intros E. by exists w1, a. Qed.

(** ** The webhook's writes *)
Section Webhook.
Context {S : Type} `{SA : SpreadApi S} `{AE : ApiErrors} (versioned : gset string) (podKind : string) (now : Z).

Definition status_of (v : string) (ws : WorkloadSpread) : list WorkloadSpreadSubsetStatus := default [] (wst_Versioned (ws_status ws) !! v).

Lemma status_of_insert v v' ws l : status_of v (with_versioned ws v' l) = if String.eqb v v' then l else status_of v ws.
Proof.
  unfold status_of. cbn. destruct (String.eqb_spec v v') as [->|]; [by rewrite lookup_insert_eq|by rewrite lookup_insert_ne].
Qed.

(** The statuses a version starts from. *)
Lemma initialized_spec ws (w w' : World S) l :
  initializedSubsetStatuses ws w = (w', inr l) -> exists replicas, l = map (initial_status replicas) (ws_Subsets ws).
Proof.
  unfold initializedSubsetStatuses, bind. destruct (getWorkloadReplicas ws w) as [w1 [err|r]]; intros [= ? E].
  exists r. congruence.
Qed.

(** A write of the webhook for a pod: [l] are the statuses of the pod's version it starts from,
    and [s0] is the one it replaces by [s]. *)
Record written (ws : WorkloadSpread) (pod : Pod) (op : Operation) (s : WorkloadSpreadSubsetStatus) (uid : string)
  (ws' : WorkloadSpread) (l : list WorkloadSpreadSubsetStatus) (s0 : WorkloadSpreadSubsetStatus) : Prop := {
  wr_from : l = status_of (GetPodVersion versioned podKind pod) ws /\ l <> [] \/
    status_of (GetPodVersion versioned podKind pod) ws = [] /\ exists r, l = map (initial_status r) (ws_Subsets ws);
  wr_names : map wss_Name (status_of (GetPodVersion versioned podKind pod) ws') = map wss_Name l;
  wr_other : forall v, v <> GetPodVersion versioned podKind pod -> status_of v ws' = status_of v ws;
  wr_subsets : ws_Subsets ws' = ws_Subsets ws;
  wr_limited : wss_MissingReplicas s0 <> -1;
  wr_old : NoDup (map wss_Name l) -> getSpecificSubset l (wss_Name s) = Some s0;
  wr_new : NoDup (map wss_Name l) -> forall n,
    getSpecificSubset (status_of (GetPodVersion versioned podKind pod) ws') n
    = if String.eqb n (wss_Name s) then Some s else getSpecificSubset l n;
  wr_change : match op with
    | CreateOperation => 0 < wss_MissingReplicas s0 /\ s = record_creation s0 (if String.eqb (p_name pod) "" then uid else p_name pod) now
    | _ => s = record_deletion s0 (p_name pod) now
    end;
}.

Definition starts_from (ws : WorkloadSpread) (pod : Pod) (l : list WorkloadSpreadSubsetStatus) : Prop :=
  l = status_of (GetPodVersion versioned podKind pod) ws /\ l <> [] \/
  status_of (GetPodVersion versioned podKind pod) ws = [] /\ exists r, l = map (initial_status r) (ws_Subsets ws).

Lemma created_written ws pod l (w w' : World S) s uid ws' :
  let version := GetPodVersion versioned podKind pod in
  starts_from ws pod l ->
  update_created now (with_versioned ws version l) version l pod w = (w', (true, Some s, uid, ws')) ->
  exists s0, written ws pod CreateOperation s uid ws' l s0.
Proof.
  intros version Hl E. unfold update_created in E. destruct (if String.eqb (p_name pod) "" then None else _); [by injection E|].
  destruct (getSuitableSubset l) as [[i s0]|] eqn:Es; [|by injection E].
  destruct (Z.eqb_spec (wss_MissingReplicas s0) (-1)) as [Hm|Hm]; [by injection E|].
  destruct (bind_inv _ _ _ _ _ E) as (w3 & uid' & E5 & E6). injection E6 as _ <- -> <-.
  destruct (getSuitableSubset_spec _ _ _ Es) as (Hi & _ & Hpos). set (s := record_creation s0 _ now).
  assert (Hs : status_of version (with_versioned (with_versioned ws version l) version (set_subset s (<[i := s]> l)))
    = set_subset s (<[i := s]> l)) by (by rewrite status_of_insert, String.eqb_refl).
  exists s0. split; try done; fold version.
  - by rewrite Hs, set_subset_names, (insert_names _ _ s0).
  - intros v Hv. rewrite !status_of_insert. by destruct (String.eqb_spec v version).
  - intros Hnd. pose proof (insert_get l i s0 s0 (wss_Name s0) Hi eq_refl Hnd) as Hg.
    by rewrite list_insert_id, String.eqb_refl in Hg by done.
  - intros Hnd n. rewrite Hs, set_subset_get, (insert_get l i s0 s n) by done. by destruct (String.eqb n (wss_Name s)).
  - split; [lia|]. done.
Qed.

Lemma deleted_written ws pod l inj op s uid ws' :
  let version := GetPodVersion versioned podKind pod in
  starts_from ws pod l -> op <> CreateOperation ->
  update_deleted now (with_versioned ws version l) version l pod inj = (true, Some s, uid, ws') ->
  exists s0, written ws pod op s uid ws' l s0.
Proof.
  intros version Hl Hop. unfold update_deleted. destruct (isPodRecordedInSubset _ _); [done|].
  destruct (getSpecificSubset l (in_Subset inj)) as [s0|] eqn:Es; [|done].
  destruct (Z.eqb_spec (wss_MissingReplicas s0) (-1)) as [Hm|Hm]; [done|]. intros [= <- _ <-]. set (s' := record_deletion s0 _ now).
  pose proof (getSpecificSubset_name _ _ _ Es) as Hn.
  assert (Hs : status_of version (with_versioned (with_versioned ws version l) version (set_subset s' l)) = set_subset s' l)
    by (by rewrite status_of_insert, String.eqb_refl).
  exists s0. split; try done; fold version.
  - by rewrite Hs, set_subset_names.
  - intros v Hv. rewrite !status_of_insert. by destruct (String.eqb_spec v version).
  - intros _. change (wss_Name s') with (wss_Name s0). by rewrite Hn.
  - intros _ n. rewrite Hs, set_subset_get. destruct (String.eqb_spec n (wss_Name s')) as [->|]; [|done].
    change (wss_Name s') with (wss_Name s0). by rewrite Hn, Es.
  - by destruct op.
Qed.

Lemma update_written ws pod inj op (w w' : World S) s uid ws' :
  updateSubsetForPod versioned podKind now ws pod inj op w = (w', inr (true, Some s, uid, ws')) ->
  exists l s0, written ws pod op s uid ws' l s0.
Proof.
  intros E. unfold updateSubsetForPod in E. fold (status_of (GetPodVersion versioned podKind pod) ws) in E.
  destruct (bind_inv _ _ _ _ _ E) as (w1 & x & E1 & E2). destruct x as [err|l]; [by injection E2|].
  assert (Hl : starts_from ws pod l).
  { case_bool_decide as Hn; [right; split; [done|by eapply initialized_spec]|]. left. by injection E1 as _ <-. }
  exists l. destruct op; [|injection E2 as <- E2; by eapply deleted_written..].
  destruct (bind_inv _ _ _ _ _ E2) as (w2 & u & E3 & E4). injection E4 as <- ->. by eapply created_written.
Qed.
End Webhook.

(** ** The controller's write *)
Section Sync.
Context {S : Type} `{JI : Json (option InjectWorkloadSpread)}.
Context (range : forall A, gmap string A -> list (string * A)) (now : Z).
Hypothesis range_perm : forall A (m : gmap string A), range A m ≡ₚ map_to_list m.

(** Everything of a status but its conditions. *)
Definition core (s : WorkloadSpreadSubsetStatus) : WorkloadSpreadSubsetStatus := with_conditions s [].
Lemma core_set s c : core (setWorkloadSpreadSubsetCondition s c) = core s.
Proof.
  unfold setWorkloadSpreadSubsetCondition. destruct (GetWorkloadSpreadSubsetCondition _ _); [|done].
  destruct (String.eqb _ _); [|done]. by destruct (String.eqb _ _).
Qed.
Lemma core_remove s t : core (removeWorkloadSpreadSubsetCondition s t) = core s.
Proof. done. Qed.
Lemma core_name s s' : core s = core s' -> wss_Name s = wss_Name s'.
Proof. by intros [= -> _]. Qed.
Lemma counted_core pods old max s s' : core s = core s' -> counted now pods old max s -> counted now pods old max s'.
Proof.
  intros E [? ? ? ? ?]. destruct s, s'. unfold core, with_conditions in E. cbn in E. injection E as -> -> -> -> ->. by split.
Qed.

Lemma reschedule_core ws critical pods status old (w : World S) :
  core (rescheduleSubset now ws critical pods status old w).2.2 = core status.
Proof.
  unfold rescheduleSubset, bind. destruct (unscheduled_pods now ws critical pods w) as [w1 failed].
  destruct (GetWorkloadSpreadSubsetCondition old _); [|by cbn; rewrite core_set].
  destruct (negb _); [by cbn; rewrite !core_set|]. destruct (String.eqb _ _); [|by cbn; rewrite core_set].
  destruct (_ <? now); by cbn; rewrite !core_set.
Qed.

Lemma calculate_some ws pods subset old replicas (w : World S) :
  subset_max subset replicas <> None ->
  exists s, (calculateWorkloadSpreadSubsetStatus range now ws pods subset old replicas w).2 = Some s /\
    wss_Name s = sub_Name subset /\ (pods = [] -> wss_Replicas s = 0).
Proof.
  intros Hm. unfold calculateWorkloadSpreadSubsetStatus. destruct (subset_max _ _) as [max|]; [|done]. unfold bind.
  destruct (tally_pods_spec (S := S) now (getWorkloadSpreadKey ws) (old_deleting old) max pods
    (mkTally (old_creating old) ∅ (wrap32 max) 0) w) as (w1 & E & _). unfold old_creating, old_deleting in E. rewrite E.
  destruct (tally_creating _ _ _ _ _ w1) as [w2 [cr missing]]. eexists. split; [done|]. split; [done|]. by intros ->.
Qed.

(** What the loop over the subsets computes: a status per subset, and an exact one for a subset
    with a maximum that its active pods respect. *)
Definition subset_ok (ws : WorkloadSpread) (oldMap : gmap string WorkloadSpreadSubsetStatus) (podMap : gmap string (list Pod))
  (replicas : Z) (subset : WorkloadSpreadSubset) (s : WorkloadSpreadSubsetStatus) : Prop :=
  wss_Name s = sub_Name subset /\ (pods_on podMap (sub_Name subset) = [] -> wss_Replicas s = 0) /\
  forall max, subset_max subset replicas = Some max -> 0 <= max < 2147483648 -> NoDup (map p_name (pods_on podMap (sub_Name subset))) ->
    countb IsPodActive (pods_on podMap (sub_Name subset)) <= max ->
    counted now (pods_on podMap (sub_Name subset)) (oldMap !! sub_Name subset) max s.

Lemma calculate_ok ws oldMap podMap replicas subset (w : World S) :
  subset_max subset replicas <> None ->
  exists s, (calculateWorkloadSpreadSubsetStatus range now ws (pods_on podMap (sub_Name subset)) subset (oldMap !! sub_Name subset) replicas w).2
    = Some s /\ subset_ok ws oldMap podMap replicas subset s.
Proof.
  intros Hm. destruct (calculate_some ws (pods_on podMap (sub_Name subset)) subset (oldMap !! sub_Name subset) replicas w Hm) as (s & E & Hn & H0).
  exists s. split; [done|]. split; [done|]. split; [done|]. intros max Hmax Hr Hnd Hact.
  destruct (calculate_counted range now range_perm ws _ subset (oldMap !! sub_Name subset) replicas max w Hmax Hr Hnd Hact)
    as (w' & s' & E' & _ & _ & _ & Hc). rewrite E' in E. by injection E as <-.
Qed.

Lemma subset_ok_core ws oldMap podMap replicas subset s s' :
  core s = core s' -> subset_ok ws oldMap podMap replicas subset s -> subset_ok ws oldMap podMap replicas subset s'.
Proof.
  intros E (Hn & H0 & Hc). split; [by rewrite <-(core_name _ _ E)|]. split.
  - intros Hp. rewrite <-(H0 Hp). destruct s, s'. by injection E.
  - intros max Hmax Hr Hnd Hact. eapply counted_core; [exact E|]. by apply Hc.
Qed.

Lemma subset_statuses_spec ws oldMap podMap replicas subsets acc (w : World S) :
  Forall (fun x => subset_max x replicas <> None) subsets ->
  exists l failed, (subset_statuses range now ws oldMap podMap replicas subsets acc w).2 = Some (acc.1 ++ l, failed) /\
    Forall2 (subset_ok ws oldMap podMap replicas) subsets l.
Proof.
  intros Hall. revert acc w. induction Hall as [|subset subsets Hs Hall IH]; intros acc w; cbn [subset_statuses].
  { exists [], acc.2. rewrite app_nil_r. split; [by destruct acc|constructor]. }
  unfold bind at 1. destruct (calculate_ok ws oldMap podMap replicas subset w Hs) as (s & E & Hok).
  destruct (calculateWorkloadSpreadSubsetStatus _ _ _ _ _ _ _ w) as [w1 x]. cbn in E. subst x.
  match goal with |- context [bind ?m ?k w1] => set (step := m); set (cont := k) end.
  assert (Hstep : core (step w1).2.2 = core s).
  { unfold step. destruct (0 <? _); [|done]. destruct (negb _).
    - pose proof (reschedule_core ws (rescheduleCriticalSeconds ws) (pods_on podMap (sub_Name subset)) s (oldMap !! sub_Name subset) w1) as Hr.
      unfold bind. by destruct (rescheduleSubset _ _ _ _ _ _ w1) as [w2 [l s2]].
    - cbn. rewrite core_set. destruct (GetWorkloadSpreadSubsetCondition _ _); [apply core_set|done]. }
  unfold bind. destruct (step w1) as [w2 [failed s2]]. cbn in Hstep. unfold cont.
  destruct (IH (acc.1 ++ [s2], failed) w2) as (l & failed' & -> & Hl). exists (s2 :: l), failed'.
  split; [by cbn; rewrite <-app_assoc|]. constructor; [|done]. by eapply subset_ok_core.
Qed.
Lemma statuses_spec ws old podMap replicas (w : World S) :
  Forall (fun x => subset_max x replicas <> None) (ws_Subsets ws) ->
  exists l failed, (calculateWorkloadSpreadSubsetStatuses range now ws old podMap replicas w).2 = Some (l, failed) /\
    Forall2 (subset_ok ws (old_map old) podMap replicas) (ws_Subsets ws) l.
Proof. intros Hall. by apply (subset_statuses_spec ws (old_map old) podMap replicas (ws_Subsets ws) ([], ∅) w). Qed.

Lemma versioned_statuses_spec ws replicas entries acc (w : World S) v :
  Forall (fun x => subset_max x replicas <> None) (ws_Subsets ws) -> NoDup (map fst entries) ->
  let r := (versioned_statuses range now ws replicas entries acc w).2 in
  (v ∉ map fst entries -> r !! v = acc !! v) /\
  (forall podMap, (v, podMap) ∈ entries ->
     exists l, r !! v = Some l /\ Forall2 (subset_ok ws (old_map (status_of v ws)) podMap replicas) (ws_Subsets ws) l).
Proof.
  intros Hall. revert acc w. induction entries as [|[u pm] entries IH]; intros acc w Hnd; cbn [versioned_statuses map fst] in *.
  { split; [done|]. by intros pm ?%not_elem_of_nil. }
  apply NoDup_cons in Hnd as [Hu Hnd]. unfold bind. fold (status_of u ws).
  destruct (statuses_spec ws (status_of u ws) pm replicas w Hall) as (l & failed & E & Hl).
  destruct (calculateWorkloadSpreadSubsetStatuses _ _ _ _ _ _ w) as [w1 x]. cbn in E. subst x. cbn [fst].
  destruct (IH (<[u := l]> acc) w1 Hnd) as [Hout Hin]. split.
  - intros Hv. rewrite Hout by set_solver. rewrite lookup_insert_ne; [done|set_solver].
  - intros podMap [[= -> ->]|Hv]%elem_of_cons; [|by apply Hin]. exists l. split; [|done]. by rewrite Hout, lookup_insert_eq.
Qed.

Lemma unobserved_statuses_spec ws replicas observed entries acc (w : World S) v :
  Forall (fun x => subset_max x replicas <> None) (ws_Subsets ws) -> NoDup (map fst entries) ->
  let r := (unobserved_statuses range now ws replicas observed entries acc w).2 in
  (v ∉ map fst entries \/ is_Some (observed !! v) -> r !! v = acc !! v) /\
  (forall old, (v, old) ∈ entries -> observed !! v = None ->
     exists l, Forall2 (subset_ok ws (old_map old) ∅ replicas) (ws_Subsets ws) l /\
       r !! v = if isEmptySubsetStatuses l then acc !! v else Some l).
Proof.
  intros Hall. revert acc w. induction entries as [|[u old] entries IH]; intros acc w Hnd; cbn [unobserved_statuses map fst] in *.
  { split; [done|]. by intros old ?%not_elem_of_nil. }
  apply NoDup_cons in Hnd as [Hu Hnd]. destruct (observed !! u) as [pm|] eqn:Eo.
  - destruct (IH acc w Hnd) as [Hout Hin]. split.
    + intros Hv. apply Hout. set_solver.
    + intros o [[= -> ->]|Hv]%elem_of_cons Hn; [congruence|]. by apply (Hin o).
  - unfold bind. destruct (statuses_spec ws old ∅ replicas w Hall) as (l & failed & E & Hl).
    destruct (calculateWorkloadSpreadSubsetStatuses _ _ _ _ _ _ w) as [w1 x]. cbn in E. subst x. cbn [fst].
    destruct (IH (if isEmptySubsetStatuses l then acc else <[u := l]> acc) w1 Hnd) as [Hout Hin]. split.
    + intros Hv. rewrite Hout by set_solver. destruct (isEmptySubsetStatuses l); [done|]. rewrite lookup_insert_ne; [done|].
      destruct Hv as [Hv|[? Hv]]; [set_solver|congruence].
    + intros o [[= -> ->]|Hv]%elem_of_cons Hn.
      * exists l. split; [done|]. rewrite Hout by (by left). destruct (isEmptySubsetStatuses l); [done|]. by rewrite lookup_insert_eq.
      * destruct (Hin o Hv Hn) as (l' & Hl' & Hr). exists l'. split; [done|]. rewrite Hr. destruct (isEmptySubsetStatuses l'); [|done].
        destruct (isEmptySubsetStatuses l); [done|]. rewrite lookup_insert_ne; [done|]. intros ->. apply Hu.
        apply list_elem_of_fmap. by exists (v, o).
Qed.

(** The statuses of one version in the status that the controller writes. *)
Lemma spread_status_spec ws vm sm replicas (w : World S) v :
  Forall (fun x => subset_max x replicas <> None) (ws_Subsets ws) ->
  exists l, Forall2 (subset_ok ws (old_map (status_of v ws)) (default ∅ (vm !! v)) replicas) (ws_Subsets ws) l /\
    (status_of v (with_spread_status ws (calculateWorkloadSpreadStatus range now ws vm sm replicas w).2.1) = l \/
     vm !! v = None /\ isEmptySubsetStatuses l = true /\
     status_of v (with_spread_status ws (calculateWorkloadSpreadStatus range now ws vm sm replicas w).2.1) = [] \/
     status_of v ws = [] /\ vm !! v = None /\
     status_of v (with_spread_status ws (calculateWorkloadSpreadStatus range now ws vm sm replicas w).2.1) = []).
Proof.
  intros Hall. unfold calculateWorkloadSpreadStatus, bind.
  destruct (statuses_spec ws (wst_SubsetStatuses (ws_status ws)) sm replicas w Hall) as (l0 & f0 & E0 & _).
  destruct (calculateWorkloadSpreadSubsetStatuses _ _ _ _ _ _ w) as [w0 x0]. cbn in E0. subst x0.
  destruct (versioned_statuses_spec ws replicas (range _ vm) ∅ w0 v Hall (range_NoDup range range_perm vm)) as [Hout1 Hin1].
  destruct (versioned_statuses _ _ _ _ _ _ w0) as [w1 v1]. cbn [snd] in Hout1, Hin1.
  destruct (unobserved_statuses_spec ws replicas vm (range _ (wst_Versioned (ws_status ws))) v1 w1 v Hall
    (range_NoDup range range_perm (wst_Versioned (ws_status ws)))) as [Hout2 Hin2].
  destruct (unobserved_statuses _ _ _ _ _ _ _ w1) as [w2 v2]. cbn [snd] in Hout2, Hin2. unfold status_of. cbn.
  destruct (vm !! v) as [pm|] eqn:Ev; cbn [default from_option id].
  - destruct (Hin1 pm) as (l & Hl & Hok); [by apply range_elem|]. exists l. split; [done|]. left. rewrite Hout2 by eauto. by rewrite Hl.
  - assert (H1 : v1 !! v = None).
    { rewrite Hout1; [done|]. intros (e & -> & He)%list_elem_of_fmap. destruct e as [k pm]. apply range_elem in He; [|done]. cbn in Ev. congruence. }
    destruct (wst_Versioned (ws_status ws) !! v) as [old|] eqn:Eo; cbn [default from_option id].
    + destruct (Hin2 old) as (l & Hok & Hr); [by apply range_elem|done|]. exists l. split; [done|]. rewrite Hr.
      destruct (isEmptySubsetStatuses l) eqn:Ee; [right; left; by rewrite H1|by left].
    + destruct (statuses_spec ws [] ∅ replicas w Hall) as (l & f & _ & Hok). exists l. split; [done|]. right. right.
      rewrite Hout2, H1; [done|]. left. intros (e & -> & He)%list_elem_of_fmap. destruct e as [k old]. apply range_elem in He; [|done].
      cbn in Eo. congruence.
Qed.
End Sync.
