(* ===== verification/WorkloadSpreadProtocol.v ===== *)
(** * WorkloadSpread: webhooks and controller on one object

    The API server accepts a status only on the version it was computed from, so that the
    stored object is changed by one writer after the other: webhooks that admit a creation or a
    deletion, the controller that writes what it has computed, and users who leave the status, the
    names of the subsets and the maximum of the subset in question alone.  A ghost set holds the pods that were admitted to one subset of one version
    and whose deletion was not. *)

From S2P Require Import Prelude GoLib GoText K8s Tools Expectations Lifecycle Selector UpdateSort CloneSetDiff.
From S2P Require Import ControllerExpectations WorkloadSpreadTypes World Scheduling InPlaceUpdate StatefulSetUtils DaemonSet WorkloadSpread WorkloadSpreadQuota.
Open Scope Z_scope.
Open Scope kruise_scope.

Lemma size_add (X : gset string) x : (size ({[x]} ∪ X) <= Datatypes.S (size X))%nat.
Proof.
  rewrite size_union_alt, size_singleton. assert (size (X ∖ {[x]}) <= size X)%nat; [|lia]. apply subseteq_size. set_solver.
Qed.
Lemma size_remove (X : gset string) x : x ∈ X -> size X = Datatypes.S (size (X ∖ {[x]})).
Proof.
  intros Hx. rewrite size_difference, size_singleton by set_solver.
  assert (size X <> 0)%nat by (intros E; apply size_empty_inv in E; set_solver). lia.
Qed.

Lemma size_list_le (l : list string) : (size (list_to_set (C := gset string) l) <= length l)%nat.
Proof. induction l as [|x l IH]; [done|]. cbn. pose proof (size_add (list_to_set l) x). lia. Qed.

Section Protocol.
Context {S : Type} `{SA : SpreadApi S} `{AE : ApiErrors} `{JI : Json (option InjectWorkloadSpread)}.
Context (versioned : gset string) (podKind : string).
Context (range : forall A, gmap string A -> list (string * A)).
Hypothesis range_perm : forall A (m : gmap string A), range A m ≡ₚ map_to_list m.
(** The version, the subset and its maximum. *)
Context (v n : string) (max : Z).
Hypothesis max_int32 : 0 <= max < 2147483648.

(** Whether a write of the webhook is one for the subset. *)
Definition charged (pod : Pod) (s : WorkloadSpreadSubsetStatus) : bool :=
  String.eqb (GetPodVersion versioned podKind pod) v && String.eqb (wss_Name s) n.

(** What the controller has to see: at most as many active pods as the maximum, and of every
    admitted pod either the pod itself, with no deletion expected, or still the record of its
    creation. *)
Definition sees (now : Z) (ws : WorkloadSpread) (vm : gmap string (gmap string (list Pod))) (admitted : gset string) : Prop :=
  let pods := pods_on (default ∅ (vm !! v)) n in
  let old := getSpecificSubset (status_of v ws) n in
  NoDup (map p_name pods) /\ countb IsPodActive pods <= max /\
  forall x, x ∈ admitted ->
    (exists p, p ∈ pods /\ IsPodActive p = true /\ pod_id p = x /\ still_deleting now (old_deleting old) p = false) \/
    (exists t, old_creating old !! x = Some t /\ x ∉ map pod_id pods /\ now <= t + CreatPodTimeout).

(** The subset has the maximum, the names are different, and all maxima are valid. *)
Definition spec_ok (subsets : list WorkloadSpreadSubset) : Prop :=
  NoDup (map sub_Name subsets) /\
  (exists subset, subset ∈ subsets /\ sub_Name subset = n /\ sub_MaxReplicas subset = Some (FromInt max)) /\
  forall replicas, Forall (fun x => subset_max x replicas <> None) subsets.

Inductive spread_step : WorkloadSpread * gset string -> WorkloadSpread * gset string -> Prop :=
| Admit now pod inj (w w' : World S) s uid ws ws' admitted :
    updateSubsetForPod versioned podKind now ws pod inj CreateOperation w = (w', inr (true, Some s, uid, ws')) ->
    spread_step (ws, admitted)
      (ws', if charged pod s then {[if String.eqb (p_name pod) "" then uid else p_name pod]} ∪ admitted else admitted)
| Release now pod inj op (w w' : World S) s uid ws ws' admitted :
    op <> CreateOperation ->
    updateSubsetForPod versioned podKind now ws pod inj op w = (w', inr (true, Some s, uid, ws')) ->
    (charged pod s = true -> pod_id pod ∈ admitted) ->
    spread_step (ws, admitted) (ws', if charged pod s then admitted ∖ {[pod_id pod]} else admitted)
| Sync now vm sm replicas (w w' : World S) status failed ws admitted :
    calculateWorkloadSpreadStatus range now ws vm sm replicas w = (w', (status, failed)) ->
    sees now ws vm admitted ->
    spread_step (ws, admitted) (with_spread_status ws status, admitted)
| User ws ws' admitted :
    ws_status ws' = ws_status ws -> map sub_Name (ws_Subsets ws') = map sub_Name (ws_Subsets ws) -> spec_ok (ws_Subsets ws') ->
    spread_step (ws, admitted) (ws', admitted).

Definition room (l : list WorkloadSpreadSubsetStatus) (subsets : list WorkloadSpreadSubset) (admitted : gset string) : Prop :=
  map wss_Name l = map sub_Name subsets /\
  exists s, getSpecificSubset l n = Some s /\ 0 <= wss_MissingReplicas s /\
    wss_MissingReplicas s + Z.of_nat (size admitted) <= max.

Definition quota_ok (x : WorkloadSpread * gset string) : Prop :=
  spec_ok (ws_Subsets x.1) /\
  (status_of v x.1 = [] /\ x.2 = ∅ \/ room (status_of v x.1) (ws_Subsets x.1) x.2).

Lemma initial_room subsets replicas : spec_ok subsets -> room (map (initial_status replicas) subsets) subsets ∅.
Proof.
  intros (Hnd & (subset & Hin & Hn & Hm) & _). split; [by rewrite map_map|].
  assert (Hg : getSpecificSubset (map (initial_status replicas) subsets) n = Some (initial_status replicas subset)).
  { clear Hm. induction subsets as [|x subsets IH]; [by apply not_elem_of_nil in Hin|]. apply NoDup_cons in Hnd as [Hx Hnd].
    cbn [map]. rewrite getSpecificSubset_cons. apply elem_of_cons in Hin as [<-|Hin]; cbn; [by rewrite Hn, String.eqb_refl|].
    destruct (String.eqb_spec n (sub_Name x)) as [->|]; [|by apply IH]. destruct Hx. rewrite <-Hn. by apply (list_elem_of_fmap_2 sub_Name). }
  exists (initial_status replicas subset). split; [done|]. cbn. rewrite Hm. cbn.
  rewrite wrap32_id, size_empty by (unfold is_int32, int32_max, int32_min; lia). lia.
Qed.

(** The statuses a webhook starts from. *)
Lemma starts_room ws pod l admitted : GetPodVersion versioned podKind pod = v ->
  quota_ok (ws, admitted) -> starts_from versioned podKind ws pod l -> room l (ws_Subsets ws) admitted.
Proof.
  intros Hv [Hs [[H0 He]|Hr]] [[-> Hl]|[H0' (r & ->)]]; cbn in *; rewrite ?Hv in *.
  - done.
  - rewrite He. by apply initial_room.
  - done.
  - destruct Hr as [Hn _]. rewrite H0' in Hn. destruct Hs as (_ & (subset & Hin & _) & _).
    destruct (ws_Subsets ws); [by apply not_elem_of_nil in Hin|done].
Qed.

(** One write of a webhook. *)
Lemma written_quota now ws pod op s uid ws' l s0 admitted :
  quota_ok (ws, admitted) -> written versioned podKind now ws pod op s uid ws' l s0 ->
  (op <> CreateOperation -> charged pod s = true -> pod_id pod ∈ admitted) ->
  quota_ok (ws', if charged pod s then
    (match op with CreateOperation => {[if String.eqb (p_name pod) "" then uid else p_name pod]} ∪ admitted
     | _ => admitted ∖ {[pod_id pod]} end) else admitted).
Proof.
  intros Hq [Hf Hn Ho Hsub Hlim Hold Hnew Hch] Hrel. split; [cbn; rewrite Hsub; apply Hq|]. cbn [fst snd].
  unfold charged in *. destruct (String.eqb_spec (GetPodVersion versioned podKind pod) v) as [Hv|Hv]; cbn [andb] in *.
  2:{ rewrite Ho, Hsub by done. apply Hq. }
  right. rewrite Hsub. destruct (starts_room ws pod l admitted Hv Hq Hf) as (Hnl & s1 & Hs1 & Hpos & Hle).
  assert (Hnd : NoDup (map wss_Name l)) by (rewrite Hnl; apply Hq).
  specialize (Hold Hnd). specialize (Hnew Hnd n). rewrite Hv in *. split; [congruence|].
  rewrite Hnew. rewrite String.eqb_sym. destruct (String.eqb_spec (wss_Name s) n) as [En|En]; [|by exists s1].
  rewrite En, Hs1 in Hold. injection Hold as ->. exists s. split; [done|].
  assert (Hrelease : s = record_deletion s0 (p_name pod) now -> pod_id pod ∈ admitted ->
    0 <= wss_MissingReplicas s /\ wss_MissingReplicas s + Z.of_nat (size (admitted ∖ {[pod_id pod]})) <= max).
  { intros -> Hin. pose proof (size_remove admitted _ Hin). cbn. destruct (Z.leb_spec 0 (wss_MissingReplicas s0)); [|lia].
    rewrite wrap32_id by (unfold is_int32, int32_max, int32_min; lia). lia. }
  destruct op; [|apply Hrelease; [done|by apply Hrel]..].
  destruct Hch as [Hp ->]. cbn. destruct (Z.ltb_spec 0 (wss_MissingReplicas s0)); [|lia].
  rewrite wrap32_id by (unfold is_int32, int32_max, int32_min; lia).
  pose proof (size_add admitted (if String.eqb (p_name pod) "" then uid else p_name pod)). lia.
Qed.
(** The admitted pods are counted. *)
Lemma sees_counted now ws vm admitted s :
  sees now ws vm admitted ->
  counted now (pods_on (default ∅ (vm !! v)) n) (getSpecificSubset (status_of v ws) n) max s ->
  Z.of_nat (size admitted) <= occupancy s.
Proof.
  intros (_ & _ & Hsee) [Hr _ Hds Hcr _]. set (pods := pods_on _ n) in *. set (old := getSpecificSubset _ n) in *.
  set (still := still_deleting now (old_deleting old)) in *.
  set (live := filterb (fun p => IsPodActive p && negb (still p)) pods).
  assert (Hsub : admitted ⊆ list_to_set (map pod_id live) ∪ dom (wss_CreatingPods s)).
  { intros x Hx. apply elem_of_union. destruct (Hsee x Hx) as [(p & Hp & Ha & <- & Hd)|(t & Ht & Hn & Hle)].
    - left. apply elem_of_list_to_set, (list_elem_of_fmap_2 pod_id), filterb_elem. split; [done|]. by rewrite Ha, Hd.
    - right. apply elem_of_dom. exists t. by apply Hcr. }
  apply subseteq_size in Hsub. rewrite size_union_alt in Hsub.
  assert (Hl : (size (list_to_set (C := gset string) (map pod_id live)) <= length live)%nat)
    by (rewrite <-(length_map pod_id live); apply size_list_le).
  assert (Hd : (size (dom (wss_CreatingPods s) ∖ list_to_set (map pod_id live)) <= size (wss_CreatingPods s))%nat)
    by (rewrite <-size_dom; apply subseteq_size; set_solver).
  assert (Hc : Z.of_nat (length live) + countb still pods = countb IsPodActive pods).
  { unfold live. rewrite <-countb_filterb. assert (Hs : forall p, still p = true -> IsPodActive p = true)
      by (intros p [? _]%andb_true_iff; done).
    clear -Hs. induction pods as [|p pods IH]; [done|]. cbn. specialize (Hs p).
    destruct (IsPodActive p), (still p); cbn; lia || by specialize (Hs eq_refl). }
  unfold occupancy. lia.
Qed.

Lemma empty_status l s : isEmptySubsetStatuses l = true -> (forall x, x ∈ l -> wss_Replicas x = 0) -> s ∈ l -> occupancy s = 0.
Proof.
  unfold isEmptySubsetStatuses. intros E%Z.eqb_eq H0 Hs.
  assert (Hr : sumZ wss_Replicas l = 0).
  { clear E Hs. induction l as [|x l IH]; [done|]. cbn. rewrite (H0 x) by left. apply IH. intros y Hy. apply H0. by right. }
  assert (Hge : forall f : WorkloadSpreadSubsetStatus -> nat, 0 <= sumZ (fun x => Z.of_nat (f x)) l /\ Z.of_nat (f s) <= sumZ (fun x => Z.of_nat (f x)) l).
  { intros f. clear -Hs. induction l as [|x l IH]; [by apply not_elem_of_nil in Hs|].
    assert (0 <= sumZ (fun x => Z.of_nat (f x)) l) by (unfold sumZ; clear; induction l; cbn in *; lia).
    unfold sumZ in *. cbn. apply elem_of_cons in Hs as [->|Hs]; [lia|]. destruct (IH Hs). lia. }
  destruct (Hge (fun x => size (wss_CreatingPods x))), (Hge (fun x => size (wss_DeletingPods x))). unfold occupancy. rewrite (H0 s Hs). lia.
Qed.

(** One write of the controller. *)
Lemma synced_quota now vm sm replicas (w w' : World S) status failed ws admitted :
  quota_ok (ws, admitted) -> calculateWorkloadSpreadStatus range now ws vm sm replicas w = (w', (status, failed)) ->
  sees now ws vm admitted -> quota_ok (with_spread_status ws status, admitted).
Proof.
  intros [Hspec Hq] E Hsees. split; [done|]. cbn [fst snd] in *.
  pose proof Hspec as (Hnd & (subset & Hin & Hn & Hm) & Hall).
  destruct (spread_status_spec range now range_perm ws vm sm replicas w v (Hall replicas)) as (l & Hok & Hst).
  rewrite E in Hst. cbn [fst snd] in Hst.
  assert (Hle : Z.of_nat (size admitted) <= max).
  { destruct Hq as [[_ ->]|(_ & s & _ & ? & ?)]; [rewrite size_empty|]; lia. }
  apply list_elem_of_lookup in Hin as [i Hi]. destruct (Forall2_lookup_l _ _ _ _ _ Hok Hi) as (s & Hsi & (Hsn & Hs0 & Hsc)).
  assert (Hnames : map wss_Name l = map sub_Name (ws_Subsets ws)).
  { clear -Hok. induction Hok as [|x y xs ys [Hx _] _ IH]; cbn; congruence. }
  assert (Hget : getSpecificSubset l n = Some s).
  { pose proof (insert_get l i s s n Hsi eq_refl) as Hg. rewrite list_insert_id in Hg by done.
    rewrite Hg by (by rewrite Hnames). by rewrite Hsn, Hn, String.eqb_refl. }
  assert (Hold : old_map (status_of v ws) !! n = getSpecificSubset (status_of v ws) n).
  { apply old_map_get. destruct Hq as [[-> _]|[-> _]]; [constructor|done]. }
  assert (Hc : counted now (pods_on (default ∅ (vm !! v)) n) (getSpecificSubset (status_of v ws) n) max s).
  { rewrite Hn in Hsc. rewrite <-Hold. destruct Hsees as (? & ? & _). apply Hsc; [|done..]. unfold subset_max. rewrite Hm. cbn.
    destruct (Z.ltb_spec max 0); [lia|done]. }
  pose proof (sees_counted now ws vm admitted s Hsees Hc) as Hocc. pose proof (ct_missing _ _ _ _ _ Hc) as Hmiss.
  destruct Hst as [->|[(Hv & He & ->)|(H0 & Hv & ->)]].
  - right. split; [done|]. exists s. split; [done|]. lia.
  - left. split; [done|]. apply leibniz_equiv, size_empty_inv. apply empty_status with (s := s) in He.
    + rewrite He in Hocc. lia.
    + intros x Hx. apply list_elem_of_lookup in Hx as [k Hk]. destruct (Forall2_lookup_r _ _ _ _ _ Hok Hk) as (y & _ & (_ & Hy & _)).
      apply Hy. by rewrite Hv.
    + by eapply list_elem_of_lookup_2.
  - left. split; [done|]. destruct Hq as [[_ Hq]|[Hq _]]; [done|]. rewrite H0 in Hq.
    destruct (ws_Subsets ws); [done|done].
Qed.

(** The steps, for known results. *)
Lemma admit_step now pod inj (w w' : World S) s uid ws ws' G G' :
  updateSubsetForPod versioned podKind now ws pod inj CreateOperation w = (w', inr (true, Some s, uid, ws')) ->
  (if charged pod s then {[if String.eqb (p_name pod) "" then uid else p_name pod]} ∪ G else G) = G' ->
  spread_step (ws, G) (ws', G').
Proof. intros E <-. by eapply Admit. Qed.
Lemma release_step now pod inj (w w' : World S) s uid ws ws' G G' :
  updateSubsetForPod versioned podKind now ws pod inj DeleteOperation w = (w', inr (true, Some s, uid, ws')) ->
  pod_id pod ∈ G -> (if charged pod s then G ∖ {[pod_id pod]} else G) = G' ->
  spread_step (ws, G) (ws', G').
Proof. intros E Hin <-. eapply Release with (op := DeleteOperation); [done|exact E|done]. Qed.

Lemma step_quota x y : spread_step x y -> quota_ok x -> quota_ok y.
Proof.
  intros Hs Hq. destruct Hs as [now pod inj w w' s uid ws ws' G E|now pod inj op w w' s uid ws ws' G Hop E Hin|
    now vm sm replicas w w' status failed ws G E Hsees|ws ws' G Es Esub Hspec'].
  - destruct (update_written _ _ _ _ _ _ _ _ _ _ _ _ E) as (l & s0 & Hw). by apply (written_quota _ _ _ _ _ _ _ _ _ _ Hq Hw).
  - destruct (update_written _ _ _ _ _ _ _ _ _ _ _ _ E) as (l & s0 & Hw).
    pose proof (written_quota _ _ _ _ _ _ _ _ _ _ Hq Hw (fun _ => Hin)) as Hr. by destruct op.
  - by eapply synced_quota.
  - destruct Hq as [_ Hq]. split; [done|]. unfold room, status_of in *. cbn in *. by rewrite Es, Esub.
Qed.

End Protocol.

(** ** A concrete server *)

(** The stored object, the workload behind it, the pods, the nodes and a counter for uids. *)
Record SpreadServer := mkSpreadServer {
  sv_spread : WorkloadSpread;
  sv_workload : Workload;
  sv_pods : list Pod;
  sv_nodes : list Node;
  sv_uids : nat;
}.

(** The annotation, with commas for its JSON. *)
#[export] Instance ex_json : Json (option InjectWorkloadSpread) := {|
  Marshal := fun x => match x with Some i => in_Name i +:+ "," +:+ in_Subset i +:+ "," +:+ in_UID i | None => "null"%string end;
  Unmarshal := fun s => match Split s "," with
    | [a; b; c] => inr (Some (mkInject a b c))
    | _ => if String.eqb s "null" then inr None else inl "invalid character"%string
    end;
|}.

Definition next_version (ws : WorkloadSpread) : WorkloadSpread :=
  mkSpread (ws_gvk ws) (ws_namespace ws) (ws_name ws) (ws_resourceVersion ws +:+ "0") (ws_generation ws) (ws_deletion ws)
    (ws_annotations ws) (ws_TargetReference ws) (ws_Subsets ws) (ws_StrategyType ws) (ws_critical ws) (ws_status ws).

#[export] Instance ex_spread_api : SpreadApi SpreadServer := {|
  ListSpreads := fun _ s => inr [sv_spread s];
  GetSpread := fun _ _ s => inr (sv_spread s);
  GetLiveSpread := fun _ _ s => inr (sv_spread s);
  UpdateSpreadStatus := fun ws s =>
    if String.eqb (ws_resourceVersion ws) (ws_resourceVersion (sv_spread s))
    then (mkSpreadServer (next_version ws) (sv_workload s) (sv_pods s) (sv_nodes s) (sv_uids s), inr (next_version ws))
    else (s, inl "conflict"%string);
  GetWorkload := fun _ _ _ s => inr (sv_workload s);
  ListReplicaSets := fun _ _ _ => inr [];
  CustomWorkloads := fun _ => inr [];
  GetReplicasFromCustomWorkload := fun o _ => wl_replicas o;
  GetPodsForRef := fun _ _ s => inr (sv_pods s, wl_replicas (sv_workload s));
  ListOwnedPods := fun _ _ _ s => inr (sv_pods s);
  GetSpreadNode := fun n s => match find (fun x => String.eqb (n_name x) n) (sv_nodes s) with
    | Some x => inr x | None => inl "not found"%string end;
  PatchPodMetadata := fun p _ a s => (s, inr (with_annotations p (<[MatchedWorkloadSpreadSubsetAnnotations := a]> (p_annotations p))));
  NewUUID := fun s => (mkSpreadServer (sv_spread s) (sv_workload s) (sv_pods s) (sv_nodes s) (Datatypes.S (sv_uids s)),
                       "uid-" +:+ Itoa (Z.of_nat (sv_uids s)));
|}.

Definition ex_workload (replicas : Z) : Workload :=
  mkWorkload TCloneSet controllerKruiseKindCS "ns" "c" "cs-uid" None ∅ ∅ [] replicas None (mkTemplate ∅ ∅ [] [] [] [] "" no_placement) 1 1 "" "".
Definition ex_subset (name : string) (max : option Z) : WorkloadSpreadSubset := mkSubset name None [] [] (FromInt <$> max) None.
Definition ex_spread (subsets : list WorkloadSpreadSubset) : WorkloadSpread :=
  mkSpread spread_gvk "ns" "w" "1" 1 None ∅ (Some (mkTarget "apps.kruise.io/v1alpha1" "CloneSet" "c")) subsets "Fixed" None
    (mkSpreadStatus 0 [] ∅).
(** A pod of the workload, in a subset or not yet. *)
Definition ex_spread_pod (name : string) (subset : option string) : Pod :=
  mkPod name "ns" ("u-" +:+ name) "1" ∅
    (match subset with Some s => {[ MatchedWorkloadSpreadSubsetAnnotations := ("w," +:+ s +:+ ",")%string ]} | None => ∅ end)
    [] 0 None "" "Running" [] [] [] [] [] [mkOwner "apps.kruise.io/v1alpha1" "CloneSet" "c" "cs-uid" true] "" "" [] no_placement.
Definition ex_spread_world (ws : WorkloadSpread) (pods : list Pod) : World SpreadServer :=
  mkWorld (mkSpreadServer ws (ex_workload 3) pods [] 0) ∅ ∅ ∅ no_local ∅ [].

#[local] Existing Instance toy_errors.

(** The object after a write of a webhook, and after one of the controller. *)
Definition ex_update (now : Z) (ws : WorkloadSpread) (pod : Pod) (op : Operation) : WorkloadSpread :=
  match (updateSubsetForPod (S := SpreadServer) ∅ "Pod" now ws pod (mkInject "w" "a" "") op (ex_spread_world ws [])).2 with
  | inr (_, _, _, ws') => ws'
  | inl _ => ws
  end.
Definition ex_synced (now : Z) (ws : WorkloadSpread) (pods : list Pod) : WorkloadSpread :=
  with_spread_status ws (calculateWorkloadSpreadStatus (S := SpreadServer) (fun _ => map_to_list) now ws
    {[ VersionIgnored := {[ "a"%string := pods ]} ]} {[ "a"%string := pods ]} 3 (ex_spread_world ws [])).2.1.


(** With more active pods than the maximum, the missing replicas that the controller computes
    depend on the order of the pods: here two pods of a subset of one, of which the first is
    being deleted.  This is why [sees] asks for no more active pods than the maximum. *)
Example missing_depends_on_order :
  let ws := ex_spread [ex_subset "a" (Some 1)] in
  let p1 := ex_spread_pod "p1" (Some "a"%string) in
  let p2 := ex_spread_pod "p2" (Some "a"%string) in
  let ws1 := ex_update 10 ws p1 DeleteOperation in
  let missing pods := wss_MissingReplicas <$> getSpecificSubset (status_of VersionIgnored (ex_synced 20 ws1 pods)) "a" in
  missing [p1; p2] = Some 0 /\ missing [p2; p1] = Some 1.
Proof. by vm_compute. Qed.
