(* ===== verification/WorkloadSpreadWebhook.v ===== *)
(** * WorkloadSpread: the subset of a new pod

    What the webhook answers for a pod that is being created, on any server and after any
    conflicts: the subset and the write that charges it. *)

From S2P Require Import Prelude GoLib GoText K8s Tools Expectations Lifecycle Selector UpdateSort CloneSetDiff.
From S2P Require Import ControllerExpectations WorkloadSpreadTypes World Scheduling InPlaceUpdate StatefulSetUtils DaemonSet WorkloadSpread WorkloadSpreadQuota WorkloadSpreadProtocol.
Open Scope Z_scope.
Open Scope kruise_scope.

(** The statuses that the server accepted. *)
Definition accepted (evs : list Event) : list WorkloadSpread :=
  omap (fun ev => match ev with EvSpreadStatus ws true => Some ws | _ => None end) evs.
Definition is_status_write (ev : Event) : bool := match ev with EvSpreadStatus _ _ => true | _ => false end.

(** The subset that is filled next. *)
Definition has_room (s : WorkloadSpreadSubsetStatus) : Prop :=
  schedulable s = true /\ (0 < wss_MissingReplicas s \/ wss_MissingReplicas s = -1).
Definition first_room (l : list WorkloadSpreadSubsetStatus) (i : nat) (s : WorkloadSpreadSubsetStatus) : Prop :=
  l !! i = Some s /\ has_room s /\ forall j x, (j < i)%nat -> l !! j = Some x -> ~ has_room x.

Lemma getSuitableSubset_first l i s : getSuitableSubset l = Some (i, s) -> first_room l i s.
Proof.
  revert i. induction l as [|y l IH]; intros i E; cbn in E; [done|]. destruct (schedulable y && _) eqn:Ey.
  - injection E as <- <-. apply andb_true_iff in Ey as [? Ey]. apply orb_true_iff in Ey.
    split; [done|]. split; [split; [done|lia]|]. intros j x Hj. lia.
  - destruct (getSuitableSubset l) as [[k y']|]; [|done]. injection E as <- <-. destruct (IH k eq_refl) as (Hl & Hr & Hf).
    split; [done|]. split; [done|]. intros [|j] x Hj Hx; cbn in Hx; [|apply (Hf j); [lia|done]].
    injection Hx as ->. intros [Hs Hm]. apply andb_false_iff in Ey as [?|Ey]; [congruence|]. apply orb_false_iff in Ey. lia.
Qed.

Lemma getSuitableSubset_none l s : getSuitableSubset l = None -> s ∈ l -> ~ has_room s.
Proof.
  induction l as [|y l IH]; intros E Hs; cbn in E; [by apply not_elem_of_nil in Hs|]. destruct (schedulable y && _) eqn:Ey; [done|].
  destruct (getSuitableSubset l) as [[? ?]|]; [done|]. apply elem_of_cons in Hs as [->|Hs]; [|by apply IH].
  intros [Hs Hm]. apply andb_false_iff in Ey as [?|Ey]; [congruence|]. apply orb_false_iff in Ey. lia.
Qed.

Section Acquire.
Context {S : Type} `{SA : SpreadApi S} `{AE : ApiErrors}.
Context (versioned : gset string) (podKind : string) (now : Z).
Context (matchedWS : WorkloadSpread) (pod : Pod) (inj : InjectWorkloadSpread).

Abbreviation version := (GetPodVersion versioned podKind pod).
Definition new_id (uid : string) : string := if String.eqb (p_name pod) "" then uid else p_name pod.

(** *** What the webhook reads *)

Lemma read_same {A} (f : S -> A) (w : World S) : read f w = (w, f (w_server w)).
Proof. unfold read, call. rewrite app_nil_r. by destruct w. Qed.
Lemma ask_local_same {A} (f : Local -> A) (w : World S) : ask_local f w = (w, f (w_local w)).
Proof. by destruct w. Qed.

(** The object a try works on: the live one after a refused write, and before that the later of
    the cached one and the informer's. *)
Definition object_read (refresh : bool) (w : World S) : error + WorkloadSpread :=
  if refresh then GetLiveSpread (ws_namespace matchedWS) (ws_name matchedWS) (w_server w)
  else
    let cached := default matchedWS (l_spreads (w_local w) !! cache_key matchedWS) in
    inr (match GetSpread (ws_namespace matchedWS) (ws_name matchedWS) (w_server w) with
         | inr informer => if version_number (ws_resourceVersion cached) <? version_number (ws_resourceVersion informer)
                           then informer else cached
         | inl _ => cached
         end).

(** The statuses of the pod's version: those of the object or, when it has none, the initial ones
    for the replicas of the workload. *)
Definition replicas_known (ws : WorkloadSpread) (s : S) : option Z :=
  match ws_TargetReference ws with
  | None => Some 0
  | Some ref =>
      match GetWorkload (FromAPIVersionAndKind (tr_APIVersion ref) (tr_Kind ref)) (ws_namespace ws) (tr_Name ref) s with
      | inl err => if IsNotFound err then Some 0 else None
      | inr o => Some (match wl_type o with TUnstructured => GetReplicasFromCustomWorkload o s | _ => wl_replicas o end)
      end
  end.
Definition statuses_read (ws : WorkloadSpread) (s : S) : option (list WorkloadSpreadSubsetStatus) :=
  if bool_decide (status_of version ws = [])
  then (fun replicas => map (initial_status replicas) (ws_Subsets ws)) <$> replicas_known ws s
  else Some (status_of version ws).

(** *** What the webhook answers *)

(** The write [ws'] charges the pod to a subset of the object [ws] with the statuses [l]: the first
    one with room, which has a maximum. *)
Definition charges (ws : WorkloadSpread) (l : list WorkloadSpreadSubsetStatus) (name uid : string) (ws' : WorkloadSpread) : Prop :=
  exists i s0, first_room l i s0 /\ 0 < wss_MissingReplicas s0 /\ name = wss_Name s0 /\
    status_of version ws' = set_subset (record_creation s0 (new_id uid) now) (<[i := record_creation s0 (new_id uid) now]> l) /\
    forall v, v <> version -> status_of v ws' = status_of v ws.

(** With the statuses [l] the pod needs no charge: it is recorded already, the first subset with
    room has no maximum, or there is no room at all. *)
Definition free (l : list WorkloadSpreadSubsetStatus) (name : option string) : Prop :=
  (p_name pod <> ""%string /\ exists s, isPodRecordedInSubset l (p_name pod) = Some s /\ name = Some (wss_Name s)) \/
  (exists i s, first_room l i s /\ wss_MissingReplicas s = -1 /\ name = Some (wss_Name s)) \/
  (name = None /\ forall s, s ∈ l -> ~ has_room s).

Lemma update_created_spec ws l w w' (changed : bool) suitable uid ws' :
  update_created (S := S) now (with_versioned ws version l) version l pod w = (w', (changed, suitable, uid, ws')) ->
  w_trace w' = w_trace w /\
  if changed then exists s, suitable = Some s /\ charges ws l (wss_Name s) uid ws' else free l (wss_Name <$> suitable) /\ uid = ""%string.
Proof.
  unfold update_created.
  destruct (if String.eqb (p_name pod) "" then None else _) as [s|] eqn:Erec.
  { intros [= <- <- <- <- <-]. split; [done|]. split; [|done]. left.
    destruct (String.eqb_spec (p_name pod) ""); [done|]. split; [done|]. by exists s. }
  destruct (getSuitableSubset l) as [[i s0]|] eqn:Es.
  2:{ intros [= <- <- <- <- <-]. split; [done|]. split; [|done]. right. right. split; [done|].
      intros s. by apply getSuitableSubset_none. }
  pose proof (getSuitableSubset_first _ _ _ Es) as Hfirst.
  destruct (Z.eqb_spec (wss_MissingReplicas s0) (-1)) as [Hm|Hm].
  { intros [= <- <- <- <- <-]. split; [done|]. split; [|done]. right. left. by exists i, s0. }
  intros (w1 & u & E1 & E2)%bind_inv. injection E2 as <- <- <- <- <-. split.
  { destruct (String.eqb (p_name pod) ""); [|by injection E1 as <- _]. unfold call in E1. destruct (NewUUID (w_server w)). injection E1 as <- _.
    by rewrite app_nil_r. }
  eexists. split; [done|]. exists i, s0. split; [done|]. destruct Hfirst as (_ & [_ Hroom] & _). split; [lia|].
  split; [done|]. split; [by rewrite status_of_insert, String.eqb_refl|].
  intros v Hv. rewrite !status_of_insert. by destruct (String.eqb_spec v version).
Qed.

Lemma initialized_read ws (w : World S) :
  exists r, initializedSubsetStatuses ws w = (w, r) /\
    (fun replicas => map (initial_status replicas) (ws_Subsets ws)) <$> replicas_known ws (w_server w)
    = match r with inr l => Some l | inl _ => None end.
Proof.
  unfold initializedSubsetStatuses, getWorkloadReplicas, replicas_known, bind. destruct (ws_TargetReference ws) as [ref|]; [|by eexists].
  rewrite read_same. destruct (GetWorkload _ _ _ _) as [err|o]; [destruct (IsNotFound err); by eexists|].
  destruct (wl_type o); rewrite ?read_same; by eexists.
Qed.

Lemma update_create_spec ws w w' r :
  updateSubsetForPod (S := S) versioned podKind now ws pod inj CreateOperation w = (w', r) ->
  w_trace w' = w_trace w /\
  match r with
  | inl _ => True
  | inr (changed, suitable, uid, ws') =>
      exists l, statuses_read ws (w_server w) = Some l /\
      if changed : bool then exists s, suitable = Some s /\ charges ws l (wss_Name s) uid ws'
      else free l (wss_Name <$> suitable) /\ uid = ""%string
  end.
Proof.
  unfold updateSubsetForPod, statuses_read. fold (status_of version ws). intros (w1 & x & E1 & E2)%bind_inv.
  assert (Ht : w1 = w /\ forall l, x = inr l -> statuses_read ws (w_server w) = Some l).
  { unfold statuses_read. case_bool_decide; [|injection E1 as <- <-; split; [done|]; by intros l [= <-]].
    destruct (initialized_read ws w) as (y & Ey & Hy). rewrite Ey in E1. injection E1 as <- <-. split; [done|].
    intros l ->. exact Hy. }
  destruct Ht as [-> Hl]. destruct x as [err|l]; [by injection E2 as <- <-|].
  apply bind_inv in E2 as (w2 & [[[changed suitable] uid] ws'] & E3 & E4). injection E4 as <- <-.
  destruct (update_created_spec _ _ _ _ _ _ _ _ E3) as [Ht2 Hr]. split; [done|]. exists l. split; [by apply Hl|done].
Qed.

Lemma latest_read refresh w :
  tryToGetTheLatestMatchedWS (S := S) matchedWS refresh w
  = (w, match object_read refresh w with inr ws => inr (Some ws) | inl err => if IsNotFound err then inr None else inl err end).
Proof.
  unfold tryToGetTheLatestMatchedWS, object_read, bind. destruct refresh.
  - rewrite read_same. by destruct (GetLiveSpread _ _ _).
  - rewrite ask_local_same, read_same. by destruct (GetSpread _ _ _).
Qed.

(** What a try that ends without an error has done, from the captured variables [a] and the world
    [w]: the answer and the accepted writes. *)
Definition answered (a : Acquire) (w : World S) (name : option string) (uid : string) (written : list WorkloadSpread) : Prop :=
  match object_read (aq_refresh a) w with
  | inl err => IsNotFound err = true /\ written = [] /\ name = aq_subset a /\ uid = aq_uid a
  | inr ws =>
      exists l, statuses_read ws (w_server w) = Some l /\
        ((written = [] /\ uid = ""%string /\ free l name) \/
         exists ws' s, written = [ws'] /\ name = Some s /\ charges ws l s uid ws')
  end.

(** One try. *)
Lemma acquire_try_spec a w w' e a' :
  acquire_try (S := S) versioned podKind now matchedWS pod inj CreateOperation a w = (w', (e, a')) ->
  exists evs, w_trace w' = w_trace w ++ evs /\ (length evs <= 1)%nat /\ Forall (fun ev => is_status_write ev = true) evs /\
  match e with
  | Some _ => accepted evs = []
  | None => answered a w (aq_subset a') (aq_uid a') (accepted evs)
  end.
Proof.
  unfold acquire_try, answered. unfold bind at 1. rewrite latest_read.
  assert (Hnone : exists evs : list Event, w_trace w = w_trace w ++ evs /\ (length evs <= 1)%nat /\
    Forall (fun ev => is_status_write ev = true) evs /\ accepted evs = []).
  { exists []. rewrite app_nil_r. split; [done|]. split; [cbn; lia|]. by split; [constructor|]. }
  destruct (object_read (aq_refresh a) w) as [err|wsClone].
  { destruct (IsNotFound err); intros [= <- <- <-]; destruct Hnone as (evs & ? & ? & ? & ?); by exists evs. }
  intros (w2 & u & E3 & E4)%bind_inv. destruct (update_create_spec _ _ _ _ E3) as [Ht2 Hu]. rewrite <-Ht2.
  destruct u as [err|[[[changed suitable] uid] ws']].
  { injection E4 as <- <- <-. by rewrite <-Ht2 in Hnone. }
  destruct Hu as (l & El & Hu). destruct changed; cbn [negb] in E4.
  2:{ injection E4 as <- <- <-. exists []. rewrite app_nil_r. split; [done|]. split; [cbn; lia|]. split; [constructor|].
      exists l. split; [done|]. left. cbn. by destruct Hu. }
  apply bind_inv in E4 as (w3 & r & E5 & E6). unfold updateSpreadStatus, call in E5.
  destruct (UpdateSpreadStatus ws' (w_server w2)) as [s3 r3]. injection E5 as <- <-. destruct Hu as (s & -> & Hc).
  destruct r3 as [err|stored]; cbn in E6; injection E6 as <- <- <-.
  - exists [EvSpreadStatus ws' false]. cbn. split; [done|]. split; [cbn; lia|]. by split; [repeat constructor|].
  - exists [EvSpreadStatus ws' true]. cbn. split; [done|]. split; [cbn; lia|]. split; [by repeat constructor|].
    exists l. split; [done|]. right. by exists ws', (wss_Name s).
Qed.

(** A try that lost to a conflict, and left the variables and the world for the next one. *)
Definition conflicted (x y : Acquire * World S) : Prop :=
  exists err, acquire_try (S := S) versioned podKind now matchedWS pod inj CreateOperation x.1 x.2 = (y.2, (Some err, y.1)) /\ IsConflict err = true.

(** All tries. *)
Lemma acquire_tries_spec steps a w w' e a' :
  acquire_tries (S := S) (Datatypes.S steps) (acquire_try versioned podKind now matchedWS pod inj CreateOperation) a w = (w', (e, a')) ->
  exists evs, w_trace w' = w_trace w ++ evs /\ (length evs <= Datatypes.S steps)%nat /\ Forall (fun ev => is_status_write ev = true) evs /\
  match e with
  | Some _ => accepted evs = []
  | None => exists k al wl, (k <= steps)%nat /\ nsteps conflicted k (a, w) (al, wl) /\
      answered al wl (aq_subset a') (aq_uid a') (accepted evs)
  end.
Proof.
  assert (Hlast : forall a w w' e a' n, acquire_try (S := S) versioned podKind now matchedWS pod inj CreateOperation a w = (w', (e, a')) ->
    exists evs, w_trace w' = w_trace w ++ evs /\ (length evs <= Datatypes.S n)%nat /\ Forall (fun ev => is_status_write ev = true) evs /\
    match e with
    | Some _ => accepted evs = []
    | None => exists k al wl, (k <= n)%nat /\ nsteps conflicted k (a, w) (al, wl) /\ answered al wl (aq_subset a') (aq_uid a') (accepted evs)
    end).
  { clear. intros a w w' e a' n E. destruct (acquire_try_spec _ _ _ _ _ E) as (evs & Ht & Hl & Hf & Hr). exists evs.
    split; [done|]. split; [lia|]. split; [done|]. destruct e; [done|]. exists 0%nat, a, w. split; [lia|]. by split; [constructor|]. }
  revert a w. induction steps as [|steps IH]; intros a w; cbn [acquire_tries]; intros (w1 & [e1 a1] & E1 & E2)%bind_inv.
  - destruct e1 as [err|]; [destruct (IsConflict err)|]; injection E2 as <- <- <-; exact (Hlast _ _ _ _ _ 0%nat E1).
  - destruct e1 as [err|]; [|injection E2 as <- <- <-; exact (Hlast _ _ _ _ _ (Datatypes.S steps) E1)].
    destruct (IsConflict err) eqn:Econf; [|injection E2 as <- <- <-; exact (Hlast _ _ _ _ _ (Datatypes.S steps) E1)].
    destruct (acquire_try_spec _ _ _ _ _ E1) as (evs & Ht & Hl & Hf & Hr).
    destruct (IH a1 w1 E2) as (evs' & Ht' & Hl' & Hf' & Hr'). exists (evs ++ evs').
    assert (Ha : accepted (evs ++ evs') = accepted evs') by (unfold accepted in *; by rewrite omap_app, Hr).
    split; [by rewrite Ht', Ht, app_assoc|]. split; [rewrite length_app; lia|]. split; [by apply Forall_app|]. rewrite Ha.
    destruct e; [done|]. destruct Hr' as (k & al & wl & Hk & Hs & Han). exists (Datatypes.S k), al, wl. split; [lia|]. split; [|done].
    eapply nsteps_l; [|exact Hs]. by exists err.
Qed.

End Acquire.

#[local] Existing Instance toy_errors.

