(* ===== verification/WorkloadSpreadCost.v ===== *)
(** * WorkloadSpread: the deletion costs

    Which pods of each subset the controller marks to be kept and which to be deleted first,
    and which patches it sends for that. *)

From S2P Require Import Prelude GoLib GoText K8s Tools Expectations Lifecycle Selector UpdateSort PodSorter CloneSetDiff.
From S2P Require Import ControllerExpectations WorkloadSpreadTypes World Scheduling InPlaceUpdate StatefulSetUtils DaemonSet WorkloadSpread WorkloadSpreadQuota.
Open Scope Z_scope.
Open Scope kruise_scope.

(** ** [ActivePods.Less] is a strict weak order *)
Definition active_keys (p : Pod) : list Z :=
  [ b2z (negb (String.eqb (p_node p) "")); podPhaseToOrdinal (p_phase p); b2z (IsPodReady p);
    b2z (negb (podReadyTime p =? 0)); - podReadyTime p; - maxContainerRestarts p;
    b2z (negb (p_creation p =? 0)); - p_creation p ].

Lemma ActivePods_keys a b : ActivePods_Less a b = lex_lt (active_keys a) (active_keys b).
Proof.
  unfold ActivePods_Less, active_keys. rewrite lex_bool.
  assert (Hnode : negb (String.eqb (p_node a) (p_node b)) && (String.eqb (p_node a) "" || String.eqb (p_node b) "")
    = negb (Bool.eqb (negb (String.eqb (p_node a) "")) (negb (String.eqb (p_node b) "")))).
  { destruct (String.eqb_spec (p_node a) (p_node b)), (String.eqb_spec (p_node a) ""), (String.eqb_spec (p_node b) "");
      simpl; congruence. }
  rewrite Hnode. destruct (negb (Bool.eqb _ _)); [by rewrite negb_involutive|].
  rewrite lex_cons. destruct (negb (podPhaseToOrdinal _ =? _)); [done|].
  rewrite lex_bool. destruct (Bool.eqb (IsPodReady a) (IsPodReady b)) eqn:Er; simpl negb; [|done].
  rewrite lex_time, lex_neg, lex_time. apply Bool.eqb_prop in Er. destruct (IsPodReady a) eqn:Ea; rewrite <-Er; simpl andb; [done|].
  unfold podReadyTime. rewrite Ea, <-Er. done.
Qed.

#[export] Instance ActivePods_sw : StrictWeak ActivePods_Less.
Proof. apply (StrictWeak_keys 8 active_keys); [done|]. apply ActivePods_keys. Qed.

(** ** The plan *)

(** The pods and the costs they are to have. *)
Definition with_cost (c : Z) (pods : list Pod) : list (Pod * Z) := (fun p => (p, c)) <$> pods.

(** The pods of a subset that are kept, when its maximum is a number that is not negative. *)
Definition kept_number (subset : option WorkloadSpreadSubset) (workloadReplicas active : Z) : option Z :=
  match subset with
  | None => Some 0
  | Some subset =>
      match sub_MaxReplicas subset with
      | None => Some active
      | Some m => match GetValueFromIntOrPercent m workloadReplicas true with
                  | Some v => if v <? 0 then None else Some (Z.min v active)
                  | None => None
                  end
      end
  end.

Definition subset_plan (ws : WorkloadSpread) (subset : option WorkloadSpreadSubset) (index workloadReplicas : Z) (pods : list Pod)
  (plan : list (Pod * Z)) : Prop :=
  match kept_number subset workloadReplicas (len (filterb IsPodActive pods)) with
  | None => plan = []
  | Some n => exists kept extra,
      plan = with_cost (100 * (len (ws_Subsets ws) - index)) kept ++ with_cost (-100 * (index + 1)) extra /\
      kept ++ extra ≡ₚ filterb IsPodActive pods /\ len kept = n /\
      forall k x, k ∈ kept -> x ∈ extra -> ActivePods_Less k x = false
  end.

(** The patches of a plan: those of the pods that do not have their cost yet; without the
    annotation the cost is zero. *)
Definition cost_patch (c : Z) : PodPatch := mkPatch ∅ {[ PodDeletionCostAnnotation := Itoa c ]} [].
Definition cost_differs (pc : Pod * Z) : bool :=
  negb (String.eqb (Itoa pc.2) (default "0"%string (p_annotations pc.1 !! PodDeletionCostAnnotation))).
Definition cost_patches (plan : list (Pod * Z)) : list Event :=
  map (fun pc => EvPatchPod pc.1 (cost_patch pc.2) true) (filterb cost_differs plan).

(** A run of a plan: all its patches, or those before the first that the server refuses. *)
Definition runs (plan : list (Pod * Z)) (e : option error) (evs : list Event) : Prop :=
  match e with
  | None => evs = cost_patches plan
  | Some _ => exists pre pc post, plan = pre ++ pc :: post /\ cost_differs pc = true /\
      evs = cost_patches pre ++ [EvPatchPod pc.1 (cost_patch pc.2) false]
  end.

Lemma cost_patches_app p q : cost_patches (p ++ q) = cost_patches p ++ cost_patches q.
Proof. unfold cost_patches. by rewrite filterb_app, map_app. Qed.

Lemma runs_app p q e evs evs' : runs p None evs -> runs q e evs' -> runs (p ++ q) e (evs ++ evs').
Proof.
  intros ->. destruct e as [err|]; cbn; [|intros ->; by rewrite cost_patches_app].
  intros (pre & pc & post & -> & Hd & ->). exists (p ++ pre), pc, post. by rewrite cost_patches_app, !app_assoc.
Qed.
Lemma runs_stop p q err evs : runs p (Some err) evs -> runs (p ++ q) (Some err) evs.
Proof. intros (pre & pc & post & -> & Hd & ->). exists pre, pc, (post ++ q). by rewrite <-app_assoc. Qed.

Section Cost.
Context {S : Type} `{AS : Api S}.

(** What an operation that runs a plan leaves in the trace. *)
Definition performs (m : M S (option error)) (plan : list (Pod * Z)) : Prop :=
  forall w w' e, m w = (w', e) -> exists evs, w_trace w' = w_trace w ++ evs /\ runs plan e evs.

Lemma performs_none : performs (ret None) [].
Proof. intros w w' e [= <- <-]. exists []. by rewrite app_nil_r. Qed.

Lemma performs_bind m k p q : performs m p -> performs k q ->
  performs (do e <- m; match e with Some err => ret (Some err) | None => k end) (p ++ q).
Proof.
  intros Hm Hk w w' e (w1 & e1 & E1 & E2)%bind_inv. destruct (Hm _ _ _ E1) as (evs & Ht & Hr). destruct e1 as [err|].
  - injection E2 as <- <-. exists evs. split; [done|]. by apply runs_stop.
  - destruct (Hk _ _ _ E2) as (evs' & Ht' & Hr'). exists (evs ++ evs'). split; [by rewrite Ht', Ht, app_assoc|]. by apply runs_app.
Qed.

Lemma patch_performs pod c : performs (patchPodDeletionCost (S := S) pod (Itoa c)) [(pod, c)].
Proof.
  intros w w' e. unfold patchPodDeletionCost.
  assert (Hp : cost_differs (pod, c) = true ->
    (do r <- patchPod pod (cost_patch c); ret (match r with inl err => Some err | inr _ => None end)) w = (w', e) ->
    exists evs, w_trace w' = w_trace w ++ evs /\ runs [(pod, c)] e evs).
  { intros Hd (w1 & r & E1 & E2)%bind_inv. unfold patchPod, call in E1. destruct (PatchPod pod _ (w_server w)) as [s1 r1].
    injection E1 as <- <-. injection E2 as <- <-. eexists. split; [reflexivity|]. unfold cost_differs in Hd. destruct r1; cbn.
    - exists [], (pod, c), []. done.
    - unfold cost_patches. cbn. unfold cost_differs. by rewrite Hd. }
  assert (Hs : cost_differs (pod, c) = false -> ret None w = (w', e) -> exists evs, w_trace w' = w_trace w ++ evs /\ runs [(pod, c)] e evs).
  { intros Hd [= <- <-]. exists []. rewrite app_nil_r. split; [done|]. cbn. unfold cost_patches. cbn. by rewrite Hd. }
  unfold cost_differs in *. cbn [fst snd] in *.
  destruct (p_annotations pod !! PodDeletionCostAnnotation) as [old|]; cbn [default] in *; destruct (String.eqb _ _); auto.
Qed.

Lemma update_performs pods c : performs (updateDeletionCostForSubsetPods (S := S) pods (Itoa c)) (with_cost c pods).
Proof.
  induction pods as [|pod pods IH]; cbn [updateDeletionCostForSubsetPods]; [apply performs_none|].
  apply (performs_bind _ _ [(pod, c)]); [apply patch_performs|done].
Qed.

(** The plan of one subset. *)
Definition plan_of (ws : WorkloadSpread) (subset : option WorkloadSpreadSubset) (index : Z) (pods : list Pod) (workloadReplicas : Z)
  : list (Pod * Z) :=
  match partition_pods subset workloadReplicas pods with
  | None => []
  | Some (kept, extra) => with_cost (positive_cost ws index) kept ++ with_cost (negative_cost index) extra
  end.

Lemma sync_performs ws subset index pods workloadReplicas :
  performs (syncSubsetPodDeletionCost (S := S) ws subset index pods workloadReplicas) (plan_of ws subset index pods workloadReplicas).
Proof.
  unfold syncSubsetPodDeletionCost, plan_of. destruct (partition_pods _ _ _) as [[kept extra]|]; [|apply performs_none].
  apply performs_bind; apply update_performs.
Qed.

Lemma plan_of_spec ws subset index pods workloadReplicas :
  subset_plan ws subset index workloadReplicas pods (plan_of ws subset index pods workloadReplicas).
Proof.
  unfold subset_plan, plan_of, kept_number, partition_pods. set (active := filterb IsPodActive pods).
  destruct subset as [subset|]; [|exists [], active; split; [done|]; split; [done|]; split; [done|]; intros k x Hk; by apply not_elem_of_nil in Hk].
  assert (Hall : forall n, n = len active -> exists kept extra, with_cost (positive_cost ws index) active ++ with_cost (negative_cost index) [] =
      with_cost (100 * (len (ws_Subsets ws) - index)) kept ++ with_cost (-100 * (index + 1)) extra /\ kept ++ extra ≡ₚ active /\ len kept = n /\
      forall k x, k ∈ kept -> x ∈ extra -> ActivePods_Less k x = false).
  { intros n ->. exists active, []. split; [done|]. split; [by rewrite app_nil_r|]. split; [done|]. intros k x _ Hx. by apply not_elem_of_nil in Hx. }
  destruct (sub_MaxReplicas subset) as [m|]; [|by apply Hall].
  destruct (GetValueFromIntOrPercent m workloadReplicas true) as [v|]; [|done]. destruct (Z.ltb_spec v 0) as [?|Hv]; [done|].
  destruct (Z.leb_spec (len active) v) as [Hle|Hgt]; [apply Hall; lia|].
  exists (slice_from (sort_delete active) (len active - v)), (slice_to (sort_delete active) (len active - v)).
  pose proof (SliceStable_perm ActivePods_Less active) as Hp. unfold slice_from, slice_to.
  split; [done|]. split; [by rewrite (Permutation_app_comm (drop _ _)), take_drop|]. split.
  - rewrite length_drop. unfold sort_delete. rewrite Hp. lia.
  - intros k x Hk Hx. eapply (StronglySorted_app_1_elem_of (fun x y => ActivePods_Less y x = false)); [|exact Hx|exact Hk].
    rewrite take_drop. apply SliceStable_sorted, ActivePods_sw.
Qed.

(** The plans of the subsets of one version, in order. *)
Definition rank (ws : WorkloadSpread) (reverseOrder : bool) (i : Z) : Z := if reverseOrder then len (ws_Subsets ws) - i - 1 else i.
Fixpoint plans_from (ws : WorkloadSpread) (podMap : gmap string (list Pod)) (workloadReplicas : Z) (reverseOrder : bool) (idx : Z)
  (subsets : list WorkloadSpreadSubset) : list (list (Pod * Z)) :=
  match subsets with
  | [] => []
  | subset :: subsets' => plan_of ws (Some subset) (rank ws reverseOrder idx) (pods_on podMap (sub_Name subset)) workloadReplicas
      :: plans_from ws podMap workloadReplicas reverseOrder (idx + 1) subsets'
  end.

Lemma subsets_perform ws podMap workloadReplicas reverseOrder idx subsets :
  performs (cost_subsets (S := S) ws podMap workloadReplicas reverseOrder idx subsets)
    (concat (plans_from ws podMap workloadReplicas reverseOrder idx subsets)).
Proof.
  revert idx. induction subsets as [|subset subsets IH]; intros idx; cbn; [apply performs_none|].
  apply performs_bind; [apply sync_performs|apply IH].
Qed.

Lemma plans_from_lookup ws podMap workloadReplicas reverseOrder idx subsets i subset :
  subsets !! i = Some subset -> exists plan, plans_from ws podMap workloadReplicas reverseOrder idx subsets !! i = Some plan /\
    subset_plan ws (Some subset) (rank ws reverseOrder (idx + Z.of_nat i)) workloadReplicas (pods_on podMap (sub_Name subset)) plan.
Proof.
  revert idx i. induction subsets as [|s subsets IH]; intros idx [|i] E; cbn in E; try done.
  - injection E as ->. eexists. split; [reflexivity|]. replace (idx + Z.of_nat 0) with idx by lia. apply plan_of_spec.
  - destruct (IH (idx + 1) i E) as (plan & Hl & Hs). exists plan. split; [done|].
    by replace (idx + Z.of_nat (Datatypes.S i)) with (idx + 1 + Z.of_nat i) by lia.
Qed.

(** C33: The deletion costs of the pods of one version, whatever the server answers. There is a
    plan for each subset, by its rank: the position in the spec for the latest version, from the
    end for the others. Of the active pods of the subset, as many as its maximum allows, or all
    of them, are to have cost 100 times the number of subsets from this rank on, and the others
    -100 times one plus the rank; no pod that is kept goes before one in excess in the order of
    deletion. A subset without a valid maximum is left alone, and the pods in no subset are all
    in excess, at the rank after the last. The run patches exactly the pods of the plans whose
    cost differs, in order, each once, and stops at the first patch that the server refuses. *)
Theorem spread_deletion_costs ws podMap workloadReplicas reverseOrder w :
  let '(w', e) := updateDeletionCostBySubset (S := S) ws podMap workloadReplicas reverseOrder w in
  exists plans fake evs,
    length plans = length (ws_Subsets ws) /\
    (forall i subset, ws_Subsets ws !! i = Some subset -> exists plan, plans !! i = Some plan /\
       subset_plan ws (Some subset) (rank ws reverseOrder (Z.of_nat i)) workloadReplicas (pods_on podMap (sub_Name subset)) plan) /\
    subset_plan ws None (len (ws_Subsets ws)) workloadReplicas (pods_on podMap FakeSubsetName) fake /\
    w_trace w' = w_trace w ++ evs /\ runs (concat plans ++ fake) e evs.
Proof.
  destruct (updateDeletionCostBySubset _ _ _ _ _) as [w' e] eqn:E.
  assert (Hlen : forall idx l, length (plans_from ws podMap workloadReplicas reverseOrder idx l) = length l)
    by (intros idx l; revert idx; induction l; intros idx; cbn; [done|by f_equal]).
  set (fakes := pods_on podMap FakeSubsetName).
  assert (Hp : performs (updateDeletionCostBySubset (S := S) ws podMap workloadReplicas reverseOrder)
    (concat (plans_from ws podMap workloadReplicas reverseOrder 0 (ws_Subsets ws)) ++
     plan_of ws None (len (ws_Subsets ws)) fakes workloadReplicas)).
  { unfold updateDeletionCostBySubset. apply performs_bind; [apply subsets_perform|]. fold fakes.
    destruct fakes as [|p l]; [apply performs_none|apply sync_performs]. }
  destruct (Hp _ _ _ E) as (evs & Ht & Hr). do 3 eexists. split; [apply Hlen|]. split; [|split; [apply plan_of_spec|by split]].
  intros i subset Hi. by apply (plans_from_lookup _ _ _ _ 0).
Qed.
End Cost.
