(* ===== verification/SidecarSet.v ===== *)
(** * SidecarSet: the objects and their control

    apis/apps/v1alpha1/sidecarset_types.go and pkg/control/sidecarcontrol: what a pod's
    annotations say about the sidecars that were injected, which of its containers are to be
    upgraded, and when an upgrade is complete.  [commonControl] is the only implementation of
    the interface [SidecarControl].

    Annotations hold JSON, which the code decodes into a value that is there already and may
    leave partly filled on an error: the class [JsonInto].  A JSON null in place of an update
    state, which leaves a nil pointer, is not represented.  Image references are parsed by a
    third-party package: the parameter [ParseImage].  An object of the API server without
    annotations has a nil map, and an assignment to it panics. *)

From S2P Require Import Prelude GoLib GoText K8s Tools Expectations Lifecycle Selector UpdateSort PodSorter CloneSetDiff.
From S2P Require Import ControllerExpectations WorkloadSpreadTypes World InPlaceUpdate CloneSetUpdate SidecarSetStrategy StatefulSetUtils DaemonSet.
From S2P Require Import K8s.
Open Scope Z_scope.
Open Scope kruise_scope.

(** ** Objects *)

Record TransferEnvVar := mkTransfer {
  te_SourceContainerName : string;
  te_FieldPath : option string;
  te_EnvName : string;
  te_EnvNames : list string;
}.

Record SidecarContainer := mkSidecar {
  sc_Container : Container;
  sc_PodInjectPolicy : string;
  sc_UpgradeType : string;
  sc_HotUpgradeEmptyImage : string;
  sc_ShareVolumePolicy : string;
  sc_TransferEnv : list TransferEnvVar;
}.
Definition sc_Name (c : SidecarContainer) : string := ctr_name (sc_Container c).
Definition sc_Image (c : SidecarContainer) : string := ctr_image (sc_Container c).

Record SidecarSetPatchPodMetadata := mkPatchMeta {
  pm_Annotations : gmap string string;
  pm_PatchPolicy : string;
}.

Record SidecarSetInjectRevision := mkInjectRevision {
  ir_CustomVersion : option string;
  ir_RevisionName : option string;
}.

Record SidecarSetStatus := mkSidecarStatus {
  sst_ObservedGeneration : Z;
  sst_MatchedPods : Z;
  sst_UpdatedPods : Z;
  sst_ReadyPods : Z;
  sst_UpdatedReadyPods : Z;
  sst_LatestRevision : string;
  sst_CollisionCount : option Z;
}.

(** The strategy of the update is in four fields: the type, whether it is paused, the selector
    and the rest. *)
Record SidecarSet := mkSidecarSet {
  sd_name : string;
  sd_uid : string;
  sd_resourceVersion : string;
  sd_generation : Z;
  sd_labels : gmap string string;
  sd_annotations : gmap string string;
  sd_Selector : option LabelSelector;
  sd_Namespace : string;
  sd_NamespaceSelector : option LabelSelector;
  sd_InitContainers : list SidecarContainer;
  sd_Containers : list SidecarContainer;
  sd_Volumes : list Volume;
  sd_UpdateType : string;
  sd_Paused : bool;
  sd_UpdateSelector : option LabelSelector;
  sd_Strategy : SidecarSetUpdateStrategy;
  sd_InjectionPaused : bool;
  sd_InjectionRevision : option SidecarSetInjectRevision;
  sd_ImagePullSecrets : list string;
  sd_RevisionHistoryLimit : option Z;
  sd_PatchPodMetadata : list SidecarSetPatchPodMetadata;
  sd_status : SidecarSetStatus;
}.

Definition SidecarSetHashAnnotation : string := "kruise.io/sidecarset-hash".
Definition SidecarSetHashWithoutImageAnnotation : string := "kruise.io/sidecarset-hash-without-image".
Definition SidecarSetListAnnotation : string := "kruise.io/sidecarset-injected-list".
Definition SidecarEnvKey : string := "IS_INJECTED".
Definition SidecarsetInplaceUpdateStateKey : string := "kruise.io/sidecarset-inplace-update-state".
Definition SidecarSetUpgradable : string := "SidecarSetUpgradable".
Definition SidecarSetWorkingHotUpgradeContainer : string := "kruise.io/sidecarset-working-hotupgrade-container".
Definition SidecarSetCustomVersionLabel : string := "apps.kruise.io/sidecarset-custom-version".
Definition SidecarSetKindName : string := "kruise.io/sidecarset-name".
Definition SidecarContainerHotUpgrade : string := "HotUpgrade".
Definition ShareVolumePolicyEnabled : string := "enabled".
Definition NotUpdateSidecarSetStrategyType : string := "NotUpdate".
Definition SidecarSetRetainPatchPolicy : string := "Retain".
Definition SidecarSetOverwritePatchPolicy : string := "Overwrite".
Definition SidecarSetMergePatchJsonPatchPolicy : string := "MergePatchJson".

(** The value of the annotation with the hashes, by the name of the set. *)
Record SidecarSetUpgradeSpec := mkUpgradeSpec {
  up_UpdateTimestamp : Z;
  up_SidecarSetHash : string;
  up_SidecarSetName : string;
  up_SidecarList : list string;
  up_ControllerRevision : string;
}.
Definition no_upgrade_spec : SidecarSetUpgradeSpec := mkUpgradeSpec 0 "" "" [] "".

(** [json.Unmarshal] into a value, and [json.Marshal]. *)
Class JsonInto (A : Type) := {
  Decode : string -> A -> option error * A;
  Encode : A -> string;
}.

(** [sets.String.List]. *)
Definition set_list (s : gset string) : list string := SliceStable string_lt (elements s).

(** ** pkg/util/pods.go *)

Definition MergeVolumeMounts (original additional : list VolumeMount) : list VolumeMount :=
  fold_left (fun l m => if existsb (fun x => String.eqb (mount_path x) (mount_path m)) l then l else l ++ [m]) additional original.
Definition MergeEnvVar (original additional : list EnvVar) : list EnvVar :=
  fold_left (fun l e => if existsb (fun x => String.eqb (env_name x) (env_name e)) l then l else l ++ [e]) additional original.
Definition MergeVolumes (original additional : list Volume) : list Volume :=
  fold_left (fun l v => if existsb (fun x => String.eqb (vol_name x) (vol_name v)) l then l else l ++ [v]) additional original.
Definition GetContainerEnvVar (c : Container) (key : string) : option EnvVar :=
  find (fun e => String.eqb (env_name e) key) (ctr_env c).

Definition GetContainer (name : string) (pod : Pod) : option Container :=
  match find (fun c => String.eqb (ctr_name c) name) (pl_initContainers (p_placement pod)) with
  | Some c => Some c
  | None => find (fun c => String.eqb (ctr_name c) name) (p_containers pod)
  end.

Definition IsRunningAndReady (pod : Pod) : bool :=
  String.eqb (p_phase pod) PodRunning && IsPodReady pod && bool_decide (p_deletion pod = None).

(** [GetPodContainerImageIDs]: the id after the scheme. *)
Definition image_id (s : string) : string :=
  match Cut s "://" with
  | Some (_, b) => match Cut b "://" with Some (x, _) => x | None => b end
  | None => s
  end.
Definition GetPodContainerImageIDs (pod : Pod) : gmap string string :=
  fold_left (fun m c => <[cs_name c := image_id (cs_imageID c)]> m) (p_cstatuses pod) ∅.

(** ** Hot upgrades *)

Definition GetHotUpgradeContainerName (name : string) : string * string := (name +:+ "-1", name +:+ "-2").
Definition GetPodSidecarSetVersionAnnotation (cName : string) : string := "version.sidecarset.kruise.io/" +:+ cName.
Definition GetPodSidecarSetVersionAltAnnotation (cName : string) : string := "versionalt.sidecarset.kruise.io/" +:+ cName.
Definition IsHotUpgradeContainer (c : SidecarContainer) : bool := String.eqb (sc_UpgradeType c) SidecarContainerHotUpgrade.

Definition GetSidecarContainersInPod (set : SidecarSet) : gset string :=
  fold_left (fun names c => if IsHotUpgradeContainer c
                            then {[(GetHotUpgradeContainerName (sc_Name c)).1; (GetHotUpgradeContainerName (sc_Name c)).2]} ∪ names
                            else {[sc_Name c]} ∪ names) (sd_Containers set) ∅.

(** ** Metadata *)

Definition GetSidecarSetRevision (set : SidecarSet) : string := lbl (sd_annotations set) SidecarSetHashAnnotation.
Definition GetSidecarSetWithoutImageRevision (set : SidecarSet) : string := lbl (sd_annotations set) SidecarSetHashWithoutImageAnnotation.

Definition IsPodInjectedSidecarSet (pod : Pod) (set : SidecarSet) : bool :=
  let names := lbl (p_annotations pod) SidecarSetListAnnotation in
  negb (String.eqb names "") && existsb (String.eqb (sd_name set)) (Split names ",").

Definition IsInjectedSidecarContainerInPod (c : Container) : bool := String.eqb (PodsUtil.GetContainerEnvValue c SidecarEnvKey) "true".
Definition IsSharePodVolumeMounts (c : SidecarContainer) : bool := String.eqb (sc_ShareVolumePolicy c) ShareVolumePolicyEnabled.

(** [SubPathExprEnvReg]: the names in the expansions [$(NAME)] of a text, from left to right. *)
Definition env_head (c : ascii) : bool :=
  let n := nat_of_ascii c in
  (Ascii.eqb c "-" || Ascii.eqb c "." || Ascii.eqb c "_" || ((65 <=? n) && (n <=? 90)) || ((97 <=? n) && (n <=? 122)))%nat.
Definition env_char (c : ascii) : bool := env_head c || is_digit c.
Fixpoint env_name_end (l : list ascii) : option (list ascii * list ascii) :=
  match l with
  | [] => None
  | c :: l' =>
      if Ascii.eqb c ")" then Some ([], l')
      else if env_char c then match env_name_end l' with Some (n, rest) => Some (c :: n, rest) | None => None end
      else None
  end.
Definition env_match (l : list ascii) : option (list ascii * list ascii) :=
  match l with
  | "$"%char :: "("%char :: c :: l' =>
      if env_head c then match env_name_end l' with Some (n, rest) => Some (c :: n, rest) | None => None end else None
  | _ => None
  end.
Fixpoint subpath_envs (fuel : nat) (l : list ascii) : list string :=
  match fuel, l with
  | Datatypes.S fuel', _ :: l' =>
      match env_match l with
      | Some (n, rest) => of_chars n :: subpath_envs fuel' rest
      | None => subpath_envs fuel' l'
      end
  | _, _ => []
  end.
Definition SubPathExprEnvs (s : string) : list string := subpath_envs (length (chars s)) (chars s).

(** [NeedToInjectVolumeMount] of [commonControl]. *)
Definition NeedToInjectVolumeMount (m : VolumeMount) : bool := true.
Definition GetInjectedVolumeMountsAndEnvs (c : SidecarContainer) (pod : Pod) : list VolumeMount * list EnvVar :=
  if negb (IsSharePodVolumeMounts c) then ([], [])
  else
    let apps := filterb (fun x => negb (IsInjectedSidecarContainerInPod x)) (p_containers pod) in
    let mounts x := filterb NeedToInjectVolumeMount (ctr_mounts x) in
    (concat (map mounts apps),
     concat (map (fun x => concat (map (fun m => omap (GetContainerEnvVar x) (SubPathExprEnvs (mount_subPathExpr m))) (mounts x))) apps)).

(** [fieldpath.SplitMaybeSubscriptedPath]. *)
Definition SplitMaybeSubscriptedPath (fieldPath : string) : option (string * string) :=
  match strip (rev (chars "']")) (rev (chars fieldPath)) with
  | None => None
  | Some r =>
      match Cut (of_chars (rev r)) "['" with
      | None => None
      | Some (path, subscript) => if String.eqb path "" then None else Some (path, subscript)
      end
  end.

Section Metadata.
(** [validation.IsQualifiedName] has no complaint. *)
Context (isQualifiedName : string -> bool).
(** [jsonpatch.MergePatch]. *)
Context (MergePatch : string -> string -> error + string).

Definition ExtractContainerNameFromFieldPath (fieldPath : string) (pod : Pod) : option string :=
  match SplitMaybeSubscriptedPath fieldPath with
  | None => None
  | Some (path, subscript) =>
      if String.eqb path "metadata.annotations" then
        if isQualifiedName (ToLower subscript) then Some (lbl (p_annotations pod) subscript) else None
      else if String.eqb path "metadata.labels" then
        if isQualifiedName subscript then Some (lbl (p_labels pod) subscript) else None
      else None
  end.

(** The variables of the pod by container and name. *)
Definition envs_in_pod (pod : Pod) : gmap string EnvVar :=
  fold_left (fun m c => fold_left (fun m e => <[ctr_name c +:+ "/" +:+ env_name e := e]> m) (ctr_env c) m) (p_containers pod) ∅.
Definition transfer_envs (pod : Pod) (t : TransferEnvVar) : list EnvVar :=
  let names : gset string := (if String.eqb (te_EnvName t) "" then ∅ else {[te_EnvName t]}) ∪ list_to_set (te_EnvNames t) in
  let source := match te_FieldPath t with
                | Some path => ExtractContainerNameFromFieldPath path pod
                | None => Some (te_SourceContainerName t)
                end in
  match source with
  | None => []
  | Some source => omap (fun name => envs_in_pod pod !! (source +:+ "/" +:+ name)) (set_list names)
  end.
Definition GetSidecarTransferEnvs (c : SidecarContainer) (pod : Pod) : list EnvVar :=
  concat (map (transfer_envs pod) (sc_TransferEnv c)).

(** [PatchPodMetadata]: the annotations, whether they are unchanged, and the error. *)
Definition retainPatchPodMetadata (m : gmap string string) (patch : SidecarSetPatchPodMetadata) : gmap string string :=
  m ∪ pm_Annotations patch.
Definition overwritePatchPodMetadata (m : gmap string string) (patch : SidecarSetPatchPodMetadata) : gmap string string :=
  pm_Annotations patch ∪ m.
Fixpoint merge_entries (m : gmap string string) (entries : list (string * string)) : gmap string string * option error :=
  match entries with
  | [] => (m, None)
  | (key, patchJSON) :: entries' =>
      if String.eqb (lbl m key) "" then merge_entries (<[key := patchJSON]> m) entries'
      else match MergePatch (lbl m key) patchJSON with
           | inl err => (m, Some err)
           | inr modified => merge_entries (<[key := modified]> m) entries'
           end
  end.
Definition mergePatchJsonPodMetadata (m : gmap string string) (patch : SidecarSetPatchPodMetadata)
  : gmap string string * option error := merge_entries m (map_to_list (pm_Annotations patch)).
Fixpoint patch_metadata (m : gmap string string) (patches : list SidecarSetPatchPodMetadata) : gmap string string * option error :=
  match patches with
  | [] => (m, None)
  | patch :: patches' =>
      if String.eqb (pm_PatchPolicy patch) SidecarSetRetainPatchPolicy || String.eqb (pm_PatchPolicy patch) ""
      then patch_metadata (retainPatchPodMetadata m patch) patches'
      else if String.eqb (pm_PatchPolicy patch) SidecarSetOverwritePatchPolicy
      then patch_metadata (overwritePatchPodMetadata m patch) patches'
      else if String.eqb (pm_PatchPolicy patch) SidecarSetMergePatchJsonPatchPolicy
      then match mergePatchJsonPodMetadata m patch with
           | (m', Some err) => (m', Some err)
           | (m', None) => patch_metadata m' patches'
           end
      else patch_metadata m patches'
  end.
Definition PatchPodMetadata (m : gmap string string) (patches : list SidecarSetPatchPodMetadata)
  : gmap string string * bool * option error :=
  match patch_metadata m patches with
  | (m', Some err) => (m', false, Some err)
  | (m', None) => (m', bool_decide (m = m'), None)
  end.
End Metadata.

(** ** The control *)
Section Control.
Context `{JsonInto (gmap string SidecarSetUpgradeSpec)} `{JsonInto (gmap string string)} `{JsonInto (gmap string InPlaceUpdateState)}.
(** [util.ParseImage]: the repository, the tag and the digest. *)
Context (ParseImage : string -> option (string * string * string)).
Context (now : Z).

Definition IsImageDigest (image : string) : bool :=
  match ParseImage image with Some (_, _, digest) => negb (String.eqb digest "") | None => false end.
Definition IsContainerImageEqual (image1 image2 : string) : bool :=
  match ParseImage image1, ParseImage image2 with
  | Some (repo1, tag1, digest1), Some (repo2, tag2, digest2) =>
      if IsImageDigest image1 && IsImageDigest image2 then String.eqb repo1 repo2 && String.eqb digest1 digest2
      else String.eqb repo1 repo2 && String.eqb tag1 tag2
  | _, _ => false
  end.

(** The older format of the annotation maps the name of a set to its hash. *)
Definition older_specs (mk : string -> string -> SidecarSetUpgradeSpec) (m : gmap string string) : gmap string SidecarSetUpgradeSpec :=
  map_imap (fun k v => Some (mk k v)) m.
Definition GetPodSidecarSetUpgradeSpecInAnnotations (setName annotationKey : string) (pod : Pod) : SidecarSetUpgradeSpec :=
  let s := lbl (p_annotations pod) annotationKey in
  if String.eqb s "" then no_upgrade_spec
  else match Decode s ∅ with
       | (None, m) => default no_upgrade_spec (m !! setName)
       | (Some _, m) =>
           match Decode s ∅ with
           | (Some _, _) => no_upgrade_spec
           | (None, older) => default no_upgrade_spec ((older_specs (fun _ v => mkUpgradeSpec 0 v "" [] "") older ∪ m) !! setName)
           end
       end.
Definition GetPodSidecarSetRevision (setName : string) (pod : Pod) : string :=
  up_SidecarSetHash (GetPodSidecarSetUpgradeSpecInAnnotations setName SidecarSetHashAnnotation pod).
Definition GetPodSidecarSetControllerRevision (setName : string) (pod : Pod) : string :=
  up_ControllerRevision (GetPodSidecarSetUpgradeSpecInAnnotations setName SidecarSetHashAnnotation pod).
Definition GetPodSidecarSetWithoutImageRevision (setName : string) (pod : Pod) : string :=
  up_SidecarSetHash (GetPodSidecarSetUpgradeSpecInAnnotations setName SidecarSetHashWithoutImageAnnotation pod).
Definition IsPodSidecarUpdated (set : SidecarSet) (pod : Pod) : bool :=
  String.eqb (GetSidecarSetRevision set) (GetPodSidecarSetRevision (sd_name set) pod).
(** [EqualToRevisionHash] of the adapter of the expectations. *)
Definition sidecar_EqualToRevisionHash (setName : string) (pod : Pod) (hash : string) : bool :=
  String.eqb (GetPodSidecarSetRevision setName pod) hash.

Definition GetPodHotUpgradeInfoInAnnotations (pod : Pod) : gmap string string :=
  match p_annotations pod !! SidecarSetWorkingHotUpgradeContainer with
  | None => ∅
  | Some s => (Decode s ∅).2
  end.
(** [GetPodHotUpgradeContainers]: the working container and the other one. *)
Definition GetPodHotUpgradeContainers (sidecarName : string) (pod : Pod) : string * string :=
  let '(name1, name2) := GetHotUpgradeContainerName sidecarName in
  if String.eqb (lbl (GetPodHotUpgradeInfoInAnnotations pod) sidecarName) name1 then (name1, name2) else (name2, name1).

Definition IsPodConsistentWithSidecarSet (pod : Pod) (set : SidecarSet) : bool :=
  forallb (fun c =>
    if IsHotUpgradeContainer c then
      bool_decide (is_Some (GetPodHotUpgradeInfoInAnnotations pod !! sc_Name c))
      && negb (bool_decide (GetContainer (sc_Name c +:+ "-1") pod = None))
      && negb (bool_decide (GetContainer (sc_Name c +:+ "-2") pod = None))
    else negb (bool_decide (GetContainer (sc_Name c) pod = None))) (sd_Containers set).

(** ** Whether an upgrade is complete *)

Definition container_images (pod : Pod) : gmap string string :=
  fold_left (fun m c => <[ctr_name c := ctr_image c]> m) (p_containers pod) ∅.
Definition IsSidecarContainerUpdateCompleted (pod : Pod) (sidecarSets containers : gset string) : bool :=
  match p_annotations pod !! SidecarsetInplaceUpdateStateKey with
  | None => true
  | Some s =>
      match Decode s ∅ with
      | (Some _, _) => false
      | (None, states) =>
          let last : gmap string string :=
            fold_left (fun m name => match (states : gmap string InPlaceUpdateState) !! name with
                                     | Some st => is_LastContainerStatuses st ∪ m
                                     | None => m
                                     end) (set_list sidecarSets) ∅ in
          forallb (fun c =>
            negb (bool_decide (cs_name c ∈ containers))
            || match last !! cs_name c with
               | Some oldID => negb (String.eqb oldID (cs_imageID c) && negb (String.eqb (lbl (container_images pod) (cs_name c)) (cs_image c)))
               | None => true
               end) (p_cstatuses pod)
      end
  end.

(** The loop of [IsPodStateConsistent] over the containers. *)
Inductive Digests := AllDigests | NotDigest | OtherImage.
Fixpoint check_digests (names : gset string) (ids : gmap string string) (cs : list Container) : Digests :=
  match cs with
  | [] => AllDigests
  | c :: cs' =>
      if negb (bool_decide (ctr_name c ∈ names)) then check_digests names ids cs'
      else if negb (IsImageDigest (ctr_image c)) then NotDigest
      else match ids !! ctr_name c with
           | None => OtherImage
           | Some id => if IsContainerImageEqual (ctr_image c) id then check_digests names ids cs' else OtherImage
           end
  end.
Definition IsPodStateConsistent (set : SidecarSet) (pod : Pod) (sidecarContainers : gset string) : bool :=
  if negb (len (p_containers pod) =? len (p_cstatuses pod)) then false
  else
    let names := if bool_decide (sidecarContainers = ∅) then GetSidecarContainersInPod set else sidecarContainers in
    match check_digests names (GetPodContainerImageIDs pod) (p_containers pod) with
    | AllDigests => true
    | OtherImage => false
    | NotDigest => IsSidecarContainerUpdateCompleted pod {[sd_name set]} names
    end.

(** The empty containers with their images, by [IsPodReady]. *)
Definition empty_containers (set : SidecarSet) (pod : Pod) : gmap string string :=
  fold_left (fun m c => if IsHotUpgradeContainer c
                        then <[(GetPodHotUpgradeContainers (sc_Name c) pod).2 := sc_HotUpgradeEmptyImage c]> m else m)
    (sd_Containers set) ∅.
Definition SidecarSet_IsPodReady (set : SidecarSet) (pod : Pod) : bool :=
  if existsb (fun c => let emptyImage := lbl (empty_containers set pod) (ctr_name c) in
                       negb (String.eqb emptyImage "") && negb (String.eqb (ctr_image c) emptyImage)) (p_containers pod)
  then false else IsRunningAndReady pod.

(** [IsSidecarSetUpgradable]: [canUpgrade] and [consistent]. *)
Definition container_ready (pod : Pod) : gmap string bool :=
  fold_left (fun m c => <[cs_name c := cs_ready c]> m) (p_cstatuses pod) ∅.
Definition IsSidecarSetUpgradable (set : SidecarSet) (pod : Pod) : bool * bool :=
  if negb (String.eqb (GetPodSidecarSetWithoutImageRevision (sd_name set) pod) (GetSidecarSetWithoutImageRevision set)) then (false, false)
  else if existsb (fun sidecar => default false (container_ready pod !! sidecar) && negb (IsPodStateConsistent set pod {[sidecar]}))
            (set_list (GetSidecarContainersInPod set))
  then (true, false) else (true, true).

(** ** Upgrades *)

Definition zero_container : Container := mkContainer "" "" [] [].
Definition containers_in_pod (pod : Pod) : gmap string Container :=
  fold_left (fun m c => <[ctr_name c := c]> m) (p_containers pod) ∅.
Definition existing_ready (pod : Pod) (name : string) : bool :=
  match find (fun c => String.eqb (cs_name c) name) (p_cstatuses pod) with Some c => cs_ready c | None => false end.
(** [findContainerToHotUpgrade]: the container to upgrade and the other one. *)
Definition findContainerToHotUpgrade (set : SidecarSet) (sidecar : SidecarContainer) (pod : Pod) : string * string :=
  let '(name1, name2) := GetHotUpgradeContainerName (sc_Name sidecar) in
  let c1 := default zero_container (containers_in_pod pod !! name1) in
  let c2 := default zero_container (containers_in_pod pod !! name2) in
  if String.eqb (ctr_image c1) (sc_HotUpgradeEmptyImage sidecar) then (ctr_name c1, ctr_name c2)
  else if String.eqb (ctr_image c2) (sc_HotUpgradeEmptyImage sidecar) then (ctr_name c2, ctr_name c1)
  else
    let c1Ready := existing_ready pod (ctr_name c1) && IsPodStateConsistent set pod {[ctr_name c1]} in
    let c2Ready := existing_ready pod (ctr_name c2) && IsPodStateConsistent set pod {[ctr_name c2]} in
    if c1Ready && negb c2Ready then (ctr_name c2, ctr_name c1)
    else if negb c1Ready && c2Ready then (ctr_name c1, ctr_name c2)
    else let '(work, older) := GetPodHotUpgradeContainers (sc_Name sidecar) pod in (older, work).

Definition with_image (c : Container) (image : string) : Container := mkContainer (ctr_name c) image (ctr_env c) (ctr_mounts c).
(** The first container of the name gets another value. *)
Fixpoint put_container (name : string) (f : Container -> Container) (cs : list Container) : list Container :=
  match cs with
  | [] => []
  | c :: cs' => if String.eqb (ctr_name c) name then f c :: cs' else c :: put_container name f cs'
  end.
Definition with_init_containers (pod : Pod) (cs : list Container) : Pod :=
  let pl := p_placement pod in
  with_placement pod (mkPlacement (pl_restartPolicy pl) (pl_nodeSelector pl) (pl_affinity pl) (pl_tolerations pl) (pl_hostNetwork pl)
    (pl_schedulerName pl) (pl_preferred pl) cs (pl_pullSecrets pl)).
(** An assignment through the pointer of [GetContainer]. *)
Definition set_container_image (name image : string) (pod : Pod) : Pod :=
  if existsb (fun c => String.eqb (ctr_name c) name) (pl_initContainers (p_placement pod))
  then with_init_containers pod (put_container name (fun c => with_image c image) (pl_initContainers (p_placement pod)))
  else with_containers pod (put_container name (fun c => with_image c image) (p_containers pod)).

(** [UpgradeSidecarContainer]: the container, when it changes, and the pod; a container that is
    not there is a nil pointer. *)
Definition UpgradeSidecarContainer (set : SidecarSet) (sidecar : SidecarContainer) (pod : Pod) : Outcome (option Container * Pod) :=
  let '(nameToUpgrade, other) := if IsHotUpgradeContainer sidecar then findContainerToHotUpgrade set sidecar pod
                                 else (sc_Name sidecar, sc_Name sidecar) in
  match GetContainer other pod with
  | None => Panic
  | Some old =>
      if String.eqb (sc_Image sidecar) (ctr_image old) then Value (None, pod)
      else match GetContainer nameToUpgrade pod with
           | None => Panic
           | Some c => Value (Some (with_image c (sc_Image sidecar)), set_container_image nameToUpgrade (sc_Image sidecar) pod)
           end
  end.

(** An assignment to the annotations. *)
Definition annotate (kvs : list (string * string)) (pod : Pod) : Outcome Pod :=
  if bool_decide (p_annotations pod = ∅) then Panic
  else Value (with_annotations pod (fold_left (fun m kv => <[kv.1 := kv.2]> m) kvs (p_annotations pod))).

(** [UpdatePodAnnotationsInUpgrade]. *)
Definition status_image_ids (pod : Pod) : gmap string string :=
  fold_left (fun m c => <[cs_name c := cs_imageID c]> m) (p_cstatuses pod) ∅.
Definition record_images (pod : Pod) (changed : list string) (last : gmap string string) : gmap string string :=
  fold_left (fun m name => <[name := lbl (status_image_ids pod) name]> m) changed last.
Definition UpdatePodAnnotationsInUpgrade (set : SidecarSet) (changed : list string) (pod : Pod) : Outcome Pod :=
  let s := lbl (p_annotations pod) SidecarsetInplaceUpdateStateKey in
  let states : gmap string InPlaceUpdateState := if String.eqb s "" then ∅ else (Decode s ∅).2 in
  let st := match states !! sd_name set with
            | Some st => st
            | None => mkUpdateState (GetSidecarSetRevision set) now ∅ false ∅ ∅ None []
            end in
  let st' := mkUpdateState (is_Revision st) (is_UpdateTimestamp st) (record_images pod changed (is_LastContainerStatuses st))
               (is_UpdateEnvFromMetadata st) (is_NextContainerImages st) (is_NextContainerRefMetadata st)
               (is_PreCheckBeforeNext st) (is_ContainerBatchesRecord st) in
  annotate [(SidecarsetInplaceUpdateStateKey, Encode (<[sd_name set := st']> states))] pod.

(** [UpdatePodSidecarSetHash]: the hash of the set, with the older format converted. *)
Definition hash_annotations (set : SidecarSet) (pod : Pod) : list (string * string) * gmap string SidecarSetUpgradeSpec :=
  let older := older_specs (fun _ v => mkUpgradeSpec now v (sd_name set) [] "") in
  let s := lbl (p_annotations pod) SidecarSetHashAnnotation in
  match Decode s ∅ with
  | (None, m) => ([], m)
  | (Some _, m) =>
      let '(err, olderHash) := Decode s ∅ in
      let m := match err with None => older olderHash ∪ m | Some _ => m end in
      match Decode (lbl (p_annotations pod) SidecarSetHashWithoutImageAnnotation) olderHash with
      | (None, olderWithout) => ([(SidecarSetHashWithoutImageAnnotation, Encode (older olderWithout))], m)
      | (Some _, _) => ([], m)
      end
  end.
Definition UpdatePodSidecarSetHash (pod : Pod) (set : SidecarSet) : Outcome Pod :=
  let '(compat, m) := hash_annotations set pod in
  let spec := mkUpgradeSpec now (GetSidecarSetRevision set) (sd_name set) (set_list (list_to_set (map sc_Name (sd_Containers set))))
                (sst_LatestRevision (sd_status set)) in
  annotate (compat ++ [(SidecarSetHashAnnotation, Encode (<[sd_name set := spec]> m))]) pod.
End Control.
