(* ===== verification/SidecarSetProcessor.v ===== *)
(** * SidecarSet: the upgrade of a pod

    pkg/controller/sidecarset, the parts that compute: the status, what a hot upgrade and the
    flip after it do to a pod, the in-place upgrade of all the sidecars of a set, and the
    order of the revisions. *)

From S2P Require Import Prelude GoLib GoText K8s Tools Expectations Lifecycle Selector UpdateSort PodSorter CloneSetDiff.
From S2P Require Import ControllerExpectations WorkloadSpreadTypes World RevisionHistory InPlaceUpdate CloneSetUpdate SidecarSetStrategy StatefulSetUtils DaemonSet SidecarSet.
From S2P Require Import K8s.
Open Scope Z_scope.
Open Scope kruise_scope.

Definition with_sidecar_status (set : SidecarSet) (st : SidecarSetStatus) : SidecarSet :=
  mkSidecarSet (sd_name set) (sd_uid set) (sd_resourceVersion set) (sd_generation set) (sd_labels set) (sd_annotations set) (sd_Selector set)
    (sd_Namespace set) (sd_NamespaceSelector set) (sd_InitContainers set) (sd_Containers set) (sd_Volumes set) (sd_UpdateType set)
    (sd_Paused set) (sd_UpdateSelector set) (sd_Strategy set) (sd_InjectionPaused set) (sd_InjectionRevision set)
    (sd_ImagePullSecrets set) (sd_RevisionHistoryLimit set) (sd_PatchPodMetadata set) st.

(** ** Revisions *)

Definition NextSidecarRevision (revisions : list ControllerRevision) : Z :=
  match last revisions with None => 1 | Some r => cr_revision r + 1 end.

(** [replaceRevision]; [old] is the place of the old revision in the slice.  The loop from one
    place on. *)
Fixpoint shift_revisions (found : bool) (i old : nat) (l : list ControllerRevision) (newOne : ControllerRevision) : list ControllerRevision :=
  match l with
  | [] => []
  | [_] => [newOne]
  | x :: ((y :: _) as l') =>
      if found then y :: shift_revisions true (Datatypes.S i) old l' newOne
      else x :: shift_revisions (Datatypes.S i =? old)%nat (Datatypes.S i) old l' newOne
  end.
Definition replaceRevision (revisions : list ControllerRevision) (old : nat) (newOne : ControllerRevision) : list ControllerRevision :=
  shift_revisions (0 =? old)%nat 0 old revisions newOne.

(** The place of the last revision that is equal to the new one. *)
Fixpoint last_equal (i : nat) (l : list ControllerRevision) (new : ControllerRevision) (acc : option (nat * ControllerRevision))
  : option (nat * ControllerRevision) :=
  match l with
  | [] => acc
  | r :: l' => last_equal (Datatypes.S i) l' new (if EqualRevision r new then Some (i, r) else acc)
  end.

(** ** The status *)

Section Status.
Context `{JsonInto (gmap string SidecarSetUpgradeSpec)} `{JsonInto (gmap string string)} `{JsonInto (gmap string InPlaceUpdateState)}.
Context (ParseImage : string -> option (string * string * string)).

Definition pod_ready (set : SidecarSet) (p : Pod) : bool := IsPodStateConsistent ParseImage set p ∅ && SidecarSet_IsPodReady set p.
Definition calculateStatus (set : SidecarSet) (pods : list Pod) (latest : ControllerRevision) (collisionCount : Z) : SidecarSetStatus :=
  mkSidecarStatus (sd_generation set) (len pods) (countb (IsPodSidecarUpdated set) pods) (countb (pod_ready set) pods)
    (countb (fun p => pod_ready set p && IsPodSidecarUpdated set p) pods) (cr_name latest) (Some collisionCount).
(** [inconsistentStatus]: the collision counts are compared as pointers, and the new one is
    fresh. *)
Definition inconsistentStatus (set : SidecarSet) (st : SidecarSetStatus) : bool :=
  let old := sd_status set in
  (sst_ObservedGeneration old <? sst_ObservedGeneration st) || negb (sst_MatchedPods st =? sst_MatchedPods old)
  || negb (sst_UpdatedPods st =? sst_UpdatedPods old) || negb (sst_ReadyPods st =? sst_ReadyPods old)
  || negb (sst_UpdatedReadyPods st =? sst_UpdatedReadyPods old) || negb (String.eqb (sst_LatestRevision st) (sst_LatestRevision old))
  || true.
Definition isSidecarSetUpdateFinish (st : SidecarSetStatus) : bool := sst_MatchedPods st <=? sst_UpdatedPods st.
Definition isSidecarSetNotUpdate (set : SidecarSet) : bool := String.eqb (sd_UpdateType set) NotUpdateSidecarSetStrategyType.

(** ** Hot upgrades *)

Definition isSidecarSetHasHotUpgradeContainer (set : SidecarSet) : bool := existsb IsHotUpgradeContainer (sd_Containers set).
(** The empty containers of the pod. *)
Definition empty_names (set : SidecarSet) (pod : Pod) : gset string :=
  list_to_set (map (fun c => (GetPodHotUpgradeContainers (sc_Name c) pod).2) (filterb IsHotUpgradeContainer (sd_Containers set))).
Definition isHotUpgradingReady (set : SidecarSet) (pod : Pod) : bool :=
  if IsRunningAndReady pod then true
  else forallb (fun c => bool_decide (cs_name c ∈ empty_names set pod) || cs_ready c) (p_cstatuses pod).
Definition isPodSidecarInHotUpgrading (set : SidecarSet) (pod : Pod) : bool :=
  existsb (fun c => IsHotUpgradeContainer c
                    && negb (String.eqb (lbl (container_images pod) (GetPodHotUpgradeContainers (sc_Name c) pod).2) (sc_HotUpgradeEmptyImage c)))
    (sd_Containers set).
(** The pods whose older container can be emptied. *)
Definition hot_upgraded (set : SidecarSet) (pod : Pod) : bool :=
  isPodSidecarInHotUpgrading set pod && IsPodStateConsistent ParseImage set pod (GetSidecarContainersInPod set ∖ empty_names set pod)
  && isHotUpgradingReady set pod.

(** The loop of [flipPodSidecarContainerDo]; the pointers of the map are those of the last
    containers of a name. *)
Fixpoint flip_containers (cs : list SidecarContainer) (pod : Pod) (changed : list string) : Outcome (Pod * list string) :=
  match cs with
  | [] => Value (pod, changed)
  | c :: cs' =>
      if IsHotUpgradeContainer c then
        let '(work, empty) := GetPodHotUpgradeContainers (sc_Name c) pod in
        match containers_in_pod pod !! empty with
        | None => Panic
        | Some x =>
            if String.eqb (ctr_image x) (sc_HotUpgradeEmptyImage c) then flip_containers cs' pod changed
            else
              let pod := with_containers pod
                (rev (put_container empty (fun x => with_image x (sc_HotUpgradeEmptyImage c)) (rev (p_containers pod)))) in
              match annotate [(GetPodSidecarSetVersionAnnotation empty, "0"); (GetPodSidecarSetVersionAltAnnotation work, "0")]%string pod with
              | Panic => Panic
              | Value pod => flip_containers cs' pod (changed ++ [empty])
              end
        end
      else flip_containers cs' pod changed
  end.
Definition flipPodSidecarContainerDo (now : Z) (set : SidecarSet) (pod : Pod) : Outcome Pod :=
  match flip_containers (sd_Containers set) pod [] with
  | Panic => Panic
  | Value (pod, changed) => UpdatePodAnnotationsInUpgrade now set changed pod
  end.

(** ** In-place upgrades *)

Context (isQualifiedName : string -> bool).
(** The sidecar with the mounts and variables of the pod. *)
Definition merged_sidecar (c : SidecarContainer) (pod : Pod) : SidecarContainer :=
  let '(injectedMounts, injectedEnvs) := GetInjectedVolumeMountsAndEnvs c pod in
  let x := sc_Container c in
  mkSidecar (mkContainer (ctr_name x) (ctr_image x)
      (MergeEnvVar (ctr_env x) (MergeEnvVar (GetSidecarTransferEnvs isQualifiedName c pod) injectedEnvs))
      (MergeVolumeMounts (ctr_mounts x) injectedMounts))
    (sc_PodInjectPolicy c) (sc_UpgradeType c) (sc_HotUpgradeEmptyImage c) (sc_ShareVolumePolicy c) (sc_TransferEnv c).

Definition updateContainerInPod (c : Container) (pod : Pod) : Pod :=
  with_containers pod (put_container (ctr_name c) (fun _ => c) (p_containers pod)).
(** The annotations of a hot upgrade of [name]. *)
Definition hot_annotations (set : SidecarSet) (sidecarName name : string) (pod : Pod) : list (string * string) :=
  let '(name1, name2) := GetHotUpgradeContainerName sidecarName in
  let older := if String.eqb name1 name then name2 else name1 in
  [(SidecarSetWorkingHotUpgradeContainer, Encode (<[sidecarName := name]> (GetPodHotUpgradeInfoInAnnotations pod)));
   (GetPodSidecarSetVersionAnnotation name, sd_resourceVersion set);
   (GetPodSidecarSetVersionAltAnnotation name, lbl (p_annotations pod) (GetPodSidecarSetVersionAnnotation older));
   (GetPodSidecarSetVersionAltAnnotation older, sd_resourceVersion set)].
Fixpoint upgrade_containers (set : SidecarSet) (cs : list SidecarContainer) (pod : Pod) (changed : list string) : Outcome (Pod * list string) :=
  match cs with
  | [] => Value (pod, changed)
  | c :: cs' =>
      let c := merged_sidecar c pod in
      match UpgradeSidecarContainer ParseImage set c pod with
      | Panic => Panic
      | Value (None, pod) => upgrade_containers set cs' pod changed
      | Value (Some new, pod) =>
          let pod := updateContainerInPod new pod in
          let changed := changed ++ [ctr_name new] in
          if IsHotUpgradeContainer c then
            match annotate (hot_annotations set (sc_Name c) (ctr_name new) pod) pod with
            | Panic => Panic
            | Value pod => upgrade_containers set cs' pod changed
            end
          else upgrade_containers set cs' pod changed
      end
  end.
Definition updatePodSidecarContainer (now : Z) (set : SidecarSet) (pod : Pod) : Outcome Pod :=
  match upgrade_containers set (sd_Containers set) pod [] with
  | Panic => Panic
  | Value (pod, changed) =>
      match UpdatePodSidecarSetHash now pod set with
      | Panic => Panic
      | Value pod => UpdatePodAnnotationsInUpgrade now set changed pod
      end
  end.
End Status.
