(* ===== verification/SidecarSetReconcile.v ===== *)
(** * SidecarSet: the controller

    pkg/controller/sidecarset: [UpdateSidecarSet] with everything it calls (the pods of a set,
    its revisions, the status, hot upgrades, in-place upgrades) and the handlers of pod events;
    pkg/control/sidecarcontrol/history_control.go.  The choice of the pods to upgrade is
    [GetNextUpgradePods] of SidecarSetStrategy.v, here with the predicates of [commonControl].

    The expectations of the world are those of this controller.  [history.Interface] is the
    class [RevisionApi], the other clients are [SidecarApi].  The namespace of the revisions is
    that of the manager and is left out.  A message of the condition holds a boolean by set.
    A loop that creates a revision under another name at each collision has fuel: [None] is a
    loop that has not ended. *)

From S2P Require Import Prelude GoLib GoText K8s Tools Expectations Lifecycle Selector UpdateSort PodSorter CloneSetDiff.
From S2P Require Import ControllerExpectations WorkloadSpreadTypes World RevisionHistory InPlaceUpdate CloneSetUpdate SidecarSetStrategy StatefulSetUtils DaemonSet SidecarSet SidecarSetProcessor.
From S2P Require Import K8s.
Open Scope Z_scope.
Open Scope kruise_scope.

Class SidecarApi (S : Type) := {
  ListSelectedPods : string -> option LabelSelector -> S -> error + list Pod;
  ListNamespaces : option LabelSelector -> S -> error + list string;
  GetNamespaceLabels : string -> S -> error + gmap string string;
  ListSidecarSets : S -> error + list SidecarSet;
  GetSidecarSet : string -> S -> error + SidecarSet;
  UpdateSidecarSetStatus : SidecarSet -> S -> S * (error + SidecarSet);
  GetSidecarPod : string -> string -> S -> error + Pod;
  UpdateSidecarPod : Pod -> S -> S * (error + Pod);
  PatchPodCondition : Pod -> PodCondition -> S -> S * option error;
  ListSidecarRevisions : SidecarSet -> S -> error + list ControllerRevision;
  (** The revisions of a set with a custom version. *)
  ListVersionRevisions : string -> string -> S -> error + list ControllerRevision;
  GetSidecarRevision : string -> S -> error + ControllerRevision;
  CreateSidecarRevision : ControllerRevision -> S -> S * option error;
  PatchSidecarRevision : string -> gmap string string -> S -> S * option error;
}.

(** [retry.RetryOnConflict] of a function that may panic; [a] is what it mutates. *)
Fixpoint RetryPanics {S A} `{ApiErrors} (steps : nat) (fn : A -> M S (Outcome (option error * A))) (a : A) : M S (Outcome (option error)) :=
  match steps with
  | O => ret (Value None)
  | Datatypes.S steps' =>
      do r <- fn a;
      match r with
      | Panic => ret Panic
      | Value (None, _) => ret (Value None)
      | Value (Some err, a') =>
          if IsConflict err then match steps' with O => ret (Value (Some err)) | _ => RetryPanics steps' fn a' end
          else ret (Value (Some err))
      end
  end.
(** [retry.DefaultBackoff.Steps]. *)
Definition retry_steps : nat := 4.

(** [selector.Empty]. *)
Definition selector_empty (s : option LabelSelector) : bool :=
  match s with
  | None => false
  | Some s => bool_decide (MatchLabels s = ∅) && match MatchExpressions s with [] => true | _ => false end
  end.
(** [ValidatedLabelSelectorAsSelector] has no error. *)
Definition selector_valid (s : option LabelSelector) : bool :=
  match selector_matches s ∅ with Some _ => true | None => false end.

(** [podutil.UpdatePodCondition]: the condition that is written, when it has changed. *)
Definition changed_condition (now : Z) (pod : Pod) (c : PodCondition) : option PodCondition :=
  match find_condition (p_conditions pod) (c_type c) with
  | None => Some (mkCond (c_type c) (c_status c) now (c_reason c) (c_message c))
  | Some old =>
      let c := mkCond (c_type c) (c_status c) (if String.eqb (c_status c) (c_status old) then c_lastTransition old else now)
                 (c_reason c) (c_message c) in
      if String.eqb (c_status c) (c_status old) && String.eqb (c_reason c) (c_reason old)
         && String.eqb (c_message c) (c_message old) && (c_lastTransition c =? c_lastTransition old)
      then None else Some c
  end.
(** A list of conditions with one of them replaced or added. *)
Fixpoint put_condition (cs : list PodCondition) (c : PodCondition) : list PodCondition :=
  match cs with
  | [] => [c]
  | x :: cs' => if String.eqb (c_type x) (c_type c) then c :: cs' else x :: put_condition cs' c
  end.

(** The zero value. *)
Definition zero_pod : Pod := mkPod "" "" "" "" ∅ ∅ [] 0 None "" "" [] [] [] [] [] [] "" "" [] no_placement.

(** [getMessageKvFromCondition] and the condition with a set marked. *)
Definition upgradable_condition `{JsonInto (gmap string bool)} (pod : Pod) (setName : string) (upgradable : bool) : error + PodCondition :=
  let c := default (mkCond SidecarSetUpgradable "" 0 "" "") (find_condition (p_conditions pod) SidecarSetUpgradable) in
  let '(err, kv) := if String.eqb (c_message c) "" then (None, ∅) else Decode (c_message c) ∅ in
  match err with
  | Some e => inl e
  | None =>
      let kv := <[setName := upgradable]> kv in
      inr (if forallb snd (map_to_list kv)
           then mkCond (c_type c) ConditionTrue (c_lastTransition c) "AllSidecarsetUpgradable" (Encode kv)
           else mkCond (c_type c) ConditionFalse (c_lastTransition c) "UpdateImmutableField" (Encode kv))
  end.

Definition with_annotation (set : SidecarSet) (m : gmap string string) : SidecarSet :=
  mkSidecarSet (sd_name set) (sd_uid set) (sd_resourceVersion set) (sd_generation set) (sd_labels set) m (sd_Selector set)
    (sd_Namespace set) (sd_NamespaceSelector set) (sd_InitContainers set) (sd_Containers set) (sd_Volumes set) (sd_UpdateType set)
    (sd_Paused set) (sd_UpdateSelector set) (sd_Strategy set) (sd_InjectionPaused set) (sd_InjectionRevision set)
    (sd_ImagePullSecrets set) (sd_RevisionHistoryLimit set) (sd_PatchPodMetadata set) (sd_status set).
Definition with_generation (st : SidecarSetStatus) (g : Z) : SidecarSetStatus :=
  mkSidecarStatus g (sst_MatchedPods st) (sst_UpdatedPods st) (sst_ReadyPods st) (sst_UpdatedReadyPods st) (sst_LatestRevision st)
    (sst_CollisionCount st).
Definition without_image (c : SidecarContainer) : SidecarContainer :=
  mkSidecar (with_image (sc_Container c) "") (sc_PodInjectPolicy c) (sc_UpgradeType c) (sc_HotUpgradeEmptyImage c)
    (sc_ShareVolumePolicy c) (sc_TransferEnv c).

Section Controller.
Context {S : Type} `{SidecarApi S} `{RevisionApi S} `{ApiErrors} `{GoSort}.
Context `{JsonInto (gmap string SidecarSetUpgradeSpec)} `{JsonInto (gmap string string)} `{JsonInto (gmap string InPlaceUpdateState)}
        `{JsonInto (gmap string bool)}.
Context (ParseImage : string -> option (string * string * string)) (isQualifiedName : string -> bool)
        (MergePatch : string -> string -> error + string).
(** The JSON of the sidecars, the hash of a text, [getPatch], and what the patch of a revision
    makes of a set; [history.HashControllerRevision]. *)
Context (EncodeContainers : list SidecarContainer -> error + string) (hash : string -> string).
Context (getPatch : SidecarSet -> error + string) (ApplyPatch : SidecarSet -> string -> error + SidecarSet).
Context (HashRevision : string -> Z -> string).
(** [errors.NewNotFound] of the revision of a set, the errors of a selector and of a history
    that stays too long. *)
Context (notFoundError : string -> error) (selectorError : error) (limitError : Z -> Z -> error).
Context (now : Z) (fuel : nat).

(** ** Hashes *)

Definition encodeSidecarSet (set : SidecarSet) : error + string := EncodeContainers (sd_Containers set).
Definition SidecarSetHash (set : SidecarSet) : error + string :=
  match encodeSidecarSet set with inl err => inl err | inr encoded => inr (hash encoded) end.
Definition SidecarSetHashWithoutImage (set : SidecarSet) : error + string :=
  match EncodeContainers (map without_image (sd_Containers set)) with inl err => inl err | inr encoded => inr (hash encoded) end.

(** ** Which pods belong to a set *)

Definition IsSelectorNamespace (ns : string) (sel : option LabelSelector) : M S bool :=
  if negb (selector_valid sel) then ret false
  else
    do r <- read (GetNamespaceLabels ns);
    match r with inl _ => ret false | inr labels => ret (default false (selector_matches sel labels)) end.

Definition PodMatchedSidecarSet (pod : Pod) (set : SidecarSet) : M S (error + bool) :=
  let podNamespace := if String.eqb (p_namespace pod) "" then "default"%string else p_namespace pod in
  if negb (String.eqb (sd_Namespace set) "") && negb (String.eqb (sd_Namespace set) podNamespace) then ret (inr false)
  else
    do inNamespace <- (match sd_NamespaceSelector set with
                       | None => ret true
                       | Some sel => IsSelectorNamespace podNamespace (Some sel)
                       end);
    if negb inNamespace then ret (inr false)
    else match selector_matches (sd_Selector set) (p_labels pod) with
         | None => ret (inl selectorError)
         | Some matched => ret (inr (negb (selector_empty (sd_Selector set)) && matched))
         end.

Fixpoint matched_names (pod : Pod) (sets : list SidecarSet) : M S (list string) :=
  match sets with
  | [] => ret []
  | set :: sets' =>
      do r <- PodMatchedSidecarSet pod set;
      do names <- matched_names pod sets';
      ret (match r with inr true => sd_name set :: names | _ => names end)
  end.
Definition listMatchedSidecarSets (pod : Pod) : M S string :=
  do r <- read ListSidecarSets;
  match r with
  | inl _ => ret ""%string
  | inr sets => do names <- matched_names pod sets; ret (PodsUtil.Join names ",")
  end.

Definition FetchSidecarSetMatchedNamespace (set : SidecarSet) : M S (error + gset string) :=
  if negb (String.eqb (sd_Namespace set) "") then ret (inr {[sd_Namespace set]})
  else if negb (selector_valid (sd_NamespaceSelector set)) then ret (inl selectorError)
  else
    do r <- read (ListNamespaces (sd_NamespaceSelector set));
    match r with inl err => ret (inl err) | inr names => ret (inr (list_to_set names)) end.

Fixpoint getSelectedPods (namespaces : list string) (sel : option LabelSelector) : M S (error + list Pod) :=
  match namespaces with
  | [] => ret (inr [])
  | ns :: namespaces' =>
      do r <- read (ListSelectedPods ns sel);
      match r with
      | inl err => ret (inl err)
      | inr pods =>
          do rest <- getSelectedPods namespaces' sel;
          match rest with inl err => ret (inl err) | inr pods' => ret (inr (pods ++ pods')) end
      end
  end.

(** The pods of the set that are its own to upgrade. *)
Definition pod_of_set (set : SidecarSet) (pod : Pod) : bool :=
  IsPodActive pod && IsPodInjectedSidecarSet pod set && IsPodConsistentWithSidecarSet pod set.
Definition getMatchingPods (set : SidecarSet) : M S (error + list Pod) :=
  if negb (selector_valid (sd_Selector set)) then ret (inl selectorError)
  else
    do r <- (if negb (String.eqb (sd_Namespace set) "") || bool_decide (is_Some (sd_NamespaceSelector set))
             then FetchSidecarSetMatchedNamespace set else ret (inr {[""%string]}));
    match r with
    | inl err => ret (inl err)
    | inr namespaces =>
        do pods <- getSelectedPods (set_list namespaces) (sd_Selector set);
        match pods with inl err => ret (inl err) | inr pods => ret (inr (filterb (pod_of_set set) pods)) end
    end.

(** ** Revisions *)

Definition put_nonempty (key value : string) (m : gmap string string) : gmap string string :=
  if String.eqb value "" then m else <[key := value]> m.
(** [NewRevision] on top of [history.NewControllerRevision]. *)
Definition NewSidecarRevision (set : SidecarSet) (revision collisionCount : Z) : error + ControllerRevision :=
  match getPatch set with
  | inl err => inl err
  | inr patch =>
      let h := HashRevision patch collisionCount in
      let labels := <[ControllerRevisionHashLabel := h]> (sd_labels set) in
      let labels := put_nonempty SidecarSetCustomVersionLabel (lbl (sd_labels set) SidecarSetCustomVersionLabel) labels in
      let annotations := put_nonempty SidecarSetHashWithoutImageAnnotation (lbl (sd_annotations set) SidecarSetHashWithoutImageAnnotation)
                           (put_nonempty SidecarSetHashAnnotation (lbl (sd_annotations set) SidecarSetHashAnnotation) ∅) in
      inr (mkRevision (ControllerRevisionName (sd_name set) h) revision (<[SidecarSetKindName := sd_name set]> labels) patch 0
             (Some (sd_uid set)) "" "" (sd_annotations set ∪ annotations))
  end.

Definition with_revision_name (r : ControllerRevision) (name : string) : ControllerRevision :=
  mkRevision name (cr_revision r) (cr_labels r) (cr_data r) (cr_creation r) (cr_controller r) (cr_uid r) (cr_resourceVersion r)
    (cr_annotations r).
(** The loop of [CreateControllerRevision]: the revision and the collision count. *)
Fixpoint create_revision (fuel : nat) (parent : string) (revision : ControllerRevision) (collisionCount : Z)
  : M S (option ((error + ControllerRevision) * Z)) :=
  match fuel with
  | O => ret None
  | Datatypes.S fuel' =>
      let clone := with_revision_name revision (ControllerRevisionName parent (HashRevision (cr_data revision) collisionCount)) in
      do e <- call (CreateSidecarRevision clone) (fun e => [EvCreateRevision clone (is_ok e)]);
      match e with
      | None => ret (Some (inr clone, collisionCount))
      | Some err =>
          if negb (IsAlreadyExists err) then ret (Some (inl err, collisionCount))
          else
            do r <- read (GetSidecarRevision (cr_name clone));
            match r with
            | inl err => ret (Some (inl err, collisionCount))
            | inr existing =>
                if String.eqb (cr_data existing) (cr_data clone) then ret (Some (inr existing, collisionCount))
                else create_revision fuel' parent revision (wrap32 (collisionCount + 1))
            end
      end
  end.

(** [getControllerRevision] and [GetHistorySidecarSet]. *)
Definition getControllerRevision (set : SidecarSet) (info : option SidecarSetInjectRevision) : M S (error + option ControllerRevision) :=
  match info with
  | None => ret (inr None)
  | Some info =>
      match ir_RevisionName info, ir_CustomVersion info with
      | Some name, _ =>
          do r <- read (GetSidecarRevision name);
          ret (match r with inl err => inl err | inr revision => inr (Some revision) end)
      | None, Some version =>
          do r <- read (ListVersionRevisions (sd_name set) version);
          ret (match r with
               | inl err => inl err
               | inr revisions => match last (SortControllerRevisions revisions) with
                                  | None => inl (notFoundError (sd_name set))
                                  | Some revision => inr (Some revision)
                                  end
               end)
      | None, None => ret (inr None)
      end
  end.
Definition restoreRevisionInfo (set : SidecarSet) (revision : ControllerRevision) : error + SidecarSet :=
  let latest st := mkSidecarStatus (sst_ObservedGeneration st) (sst_MatchedPods st) (sst_UpdatedPods st) (sst_ReadyPods st)
                     (sst_UpdatedReadyPods st) (cr_name revision) (sst_CollisionCount st) in
  let saved key (f : error + string) := if String.eqb (lbl (cr_annotations revision) key) "" then f
                                        else inr (lbl (cr_annotations revision) key) in
  match saved SidecarSetHashAnnotation (SidecarSetHash set) with
  | inl err => inl err
  | inr h =>
      let set := with_annotation set (<[SidecarSetHashAnnotation := h]> (sd_annotations set)) in
      match saved SidecarSetHashWithoutImageAnnotation (SidecarSetHashWithoutImage set) with
      | inl err => inl err
      | inr h => inr (with_sidecar_status (with_annotation set (<[SidecarSetHashWithoutImageAnnotation := h]> (sd_annotations set)))
                        (latest (sd_status set)))
      end
  end.
Definition GetHistorySidecarSet (set : SidecarSet) (info : option SidecarSetInjectRevision) : M S (error + option SidecarSet) :=
  do r <- getControllerRevision set info;
  ret (match r with
       | inl err => inl err
       | inr None => inr None
       | inr (Some revision) =>
           match ApplyPatch set (cr_data revision) with
           | inl err => inl err
           | inr restored => match restoreRevisionInfo restored revision with inl err => inl err | inr s => inr (Some s) end
           end
       end).

Definition updateCustomVersionLabel (revision : ControllerRevision) (customVersion : string) : M S (option error) :=
  if negb (String.eqb customVersion "") && negb (String.eqb customVersion (lbl (cr_labels revision) SidecarSetCustomVersionLabel))
  then let labels := {[SidecarSetCustomVersionLabel := customVersion]} in
       call (PatchSidecarRevision (cr_name revision) labels) (fun e => [EvPatchRevision (cr_name revision) labels (is_ok e)])
  else ret None.

Definition filterActiveRevisions (set : SidecarSet) (pods : list Pod) (revisions : list ControllerRevision) : gset string :=
  let used : gset string :=
    list_to_set (filterb (fun r => negb (String.eqb r "")) (map (GetPodSidecarSetControllerRevision (sd_name set)) pods)) in
  match sd_InjectionRevision set with
  | None => used
  | Some info =>
      let named : gset string := match ir_RevisionName info with Some name => {[name]} | None => ∅ end in
      let versioned : gset string :=
        match ir_CustomVersion info with
        | None => ∅
        | Some version =>
            match last (SortControllerRevisions
                          (filterb (fun r => String.eqb (lbl (cr_labels r) SidecarSetCustomVersionLabel) version) revisions)) with
            | None => ∅
            | Some r => {[cr_name r]}
            end
        end in
      used ∪ named ∪ versioned
  end.

(** The loop of [truncateHistory], which leaves out the last revision. *)
Fixpoint truncate_loop (active : gset string) (revisions : list ControllerRevision) (deletionCount : Z) : M S (error + Z) :=
  match revisions with
  | [] | [_] => ret (inr deletionCount)
  | r :: revisions' =>
      if deletionCount <=? 0 then ret (inr deletionCount)
      else if bool_decide (cr_name r ∈ active) then truncate_loop active revisions' deletionCount
      else
        do e <- call (DeleteControllerRevision r) (fun e => [EvDeleteRevision r (is_ok e)]);
        match e with
        | Some err => if IsNotFound err then truncate_loop active revisions' (deletionCount - 1) else ret (inl err)
        | None => truncate_loop active revisions' (deletionCount - 1)
        end
  end.
Definition history_limit (set : SidecarSet) : Z :=
  match sd_RevisionHistoryLimit set with Some limit => Z.max 1 limit | None => 10 end.
Definition truncateSidecarHistory (revisions : list ControllerRevision) (set : SidecarSet) (pods : list Pod) : M S (option error) :=
  let limitation := history_limit set in
  if len revisions <=? limitation then ret None
  else
    do r <- truncate_loop (filterActiveRevisions set pods revisions) revisions (len revisions - limitation);
    ret (match r with
         | inl err => Some err
         | inr deletionCount => if 0 <? deletionCount then Some (limitError limitation (limitation + deletionCount)) else None
         end).

(** The latest revision with the revisions after it has been chosen. *)
Definition latest_revision (set : SidecarSet) (revisions : list ControllerRevision) (new : ControllerRevision) (collisionCount : Z)
  : M S (option ((error + ControllerRevision * list ControllerRevision) * Z)) :=
  match last_equal 0 revisions new None, last revisions with
  | Some (place, equal), Some prior =>
      if EqualRevision prior equal then ret (Some (inr (prior, revisions), collisionCount))
      else
        do r <- call (UpdateControllerRevision equal (cr_revision new)) (fun r => [EvUpdateRevision equal (cr_revision new) (is_inr r)]);
        ret (Some (match r with inl err => inl err | inr latest => inr (latest, replaceRevision revisions place latest) end, collisionCount))
  | _, _ =>
      do r <- create_revision fuel (sd_name set) new collisionCount;
      ret (match r with
           | None => None
           | Some (inl err, c) => Some (inl err, c)
           | Some (inr latest, c) => Some (inr (latest, revisions ++ [latest]), c)
           end)
  end.
Definition registerLatestRevision (set : SidecarSet) (pods : list Pod) : M S (option ((error + ControllerRevision) * Z)) :=
  do r <- read (ListSidecarRevisions set);
  match r with
  | inl err => ret (Some (inl err, 0))
  | inr revisions =>
      let revisions := SortControllerRevisions revisions in
      let collisionCount := default 0 (sst_CollisionCount (sd_status set)) in
      match NewSidecarRevision set (NextSidecarRevision revisions) collisionCount with
      | inl err => ret (Some (inl err, collisionCount))
      | inr new =>
          do r <- latest_revision set revisions new collisionCount;
          match r with
          | None => ret None
          | Some (inl err, c) => ret (Some (inl err, c))
          | Some (inr (latest, revisions), c) =>
              do e <- updateCustomVersionLabel latest (lbl (sd_labels set) SidecarSetCustomVersionLabel);
              match e with
              | Some err => ret (Some (inl err, c))
              | None => truncateSidecarHistory revisions set pods;; ret (Some (inr latest, c))
              end
          end
      end
  end.

(** ** The status *)

Definition updateSidecarSetStatus (set : SidecarSet) (st : SidecarSetStatus) : M S (option error) :=
  if negb (inconsistentStatus set st) then ret None
  else RetryOnConflict retry_steps (fun clone =>
         let clone := with_sidecar_status clone (with_generation st (sd_generation clone)) in
         do r <- call (UpdateSidecarSetStatus clone) (fun r => [EvUpdateStatus (is_inr r)]);
         match r with
         | inr _ => ret (None, clone)
         | inl err =>
             do g <- read (GetSidecarSet (sd_name clone));
             ret (Some err, match g with inr fresh => fresh | inl _ => clone end)
         end) set.

(** ** Writes to pods *)

Definition updatePodSidecarSetUpgradableCondition (set : SidecarSet) (pod : Pod) (upgradable : bool) : M S (option error) :=
  match upgradable_condition pod (sd_name set) upgradable with
  | inl err => ret (Some err)
  | inr c =>
      match changed_condition now pod c with
      | None => ret None
      | Some c =>
          let podClone := with_conditions pod (put_condition (p_conditions pod) c) in
          call (PatchPodCondition podClone c) (fun e => [EvUpdatePodStatus podClone (is_ok e)])
      end
  end.

Definition updatePod (pod : Pod) : M S (error + Pod) :=
  call (UpdateSidecarPod pod) (fun r => [EvUpdatePod pod (is_inr r)]).

(** One try of [updatePodSidecarAndHash] on the clone: the error of the read is only logged.
    When the write fails the next try starts from what this one has made. *)
Definition upgrade_try (set : SidecarSet) (pod podClone : Pod) : M S (Outcome (option error * Pod)) :=
  do g <- read (GetSidecarPod (p_namespace pod) (p_name pod));
  let podClone := match g with inr fresh => fresh | inl _ => podClone end in
  match updatePodSidecarContainer ParseImage isQualifiedName now set podClone with
  | Panic => ret Panic
  | Value podClone =>
      do listed <- (if String.eqb (lbl (p_annotations podClone) SidecarSetListAnnotation) ""
                    then do names <- listMatchedSidecarSets podClone; ret (annotate [(SidecarSetListAnnotation, names)] podClone)
                    else ret (Value podClone));
      match listed with
      | Panic => ret Panic
      | Value podClone =>
          let '(annotations, _, err) := PatchPodMetadata MergePatch (p_annotations podClone) (sd_PatchPodMetadata set) in
          let podClone := with_annotations podClone annotations in
          match err with
          | Some e => ret (Value (Some e, podClone))
          | None =>
              do r <- updatePod podClone;
              ret (Value (match r with inl e => Some e | inr _ => None end, podClone))
          end
      end
  end.
Definition updatePodSidecarAndHash (set : SidecarSet) (pod : Pod) : M S (Outcome (option error)) :=
  do r <- RetryPanics retry_steps (upgrade_try set pod) zero_pod;
  match r with
  | Value None => do e <- updatePodSidecarSetUpgradableCondition set pod true; ret (Value e)
  | _ => ret r
  end.

(** [flipPodSidecarContainer] and [flipHotUpgradingContainers]. *)
Definition flip_try (set : SidecarSet) (podClone : Pod) : M S (Outcome (option error * Pod)) :=
  match flipPodSidecarContainerDo now set podClone with
  | Panic => ret Panic
  | Value podClone =>
      do r <- updatePod podClone;
      match r with
      | inr _ => ret (Value (None, podClone))
      | inl err =>
          do g <- read (GetSidecarPod (p_namespace podClone) (p_name podClone));
          ret (Value (Some err, match g with inr fresh => fresh | inl _ => podClone end))
      end
  end.
Definition flipPodSidecarContainer (set : SidecarSet) (pod : Pod) : M S (Outcome (option error)) :=
  RetryPanics retry_steps (flip_try set) pod.
(** A loop over pods that ends with the first error. *)
Fixpoint each_pod (f : Pod -> M S (Outcome (option error))) (pods : list Pod) : M S (Outcome (option error)) :=
  match pods with
  | [] => ret (Value None)
  | pod :: pods' => do r <- f pod; match r with Value None => each_pod f pods' | _ => ret r end
  end.
Definition flipHotUpgradingContainers (set : SidecarSet) (pods : list Pod) : M S (Outcome (option error)) :=
  each_pod (flipPodSidecarContainer set) pods.

(** [isSelected] of the strategy. *)
Definition isSelected (set : SidecarSet) (pod : Pod) : bool :=
  match sd_UpdateSelector set with
  | None => true
  | Some sel => default false (selector_matches (Some sel) (p_labels pod))
  end.
Definition next_upgrade_pods (set : SidecarSet) (pods : list Pod) : list Pod * list Pod :=
  GetNextUpgradePods (IsPodSidecarUpdated set) (SidecarSet_IsPodReady set) (fun pod => IsPodStateConsistent ParseImage set pod ∅)
    (IsSidecarSetUpgradable ParseImage set) (isSelected set) (sd_Strategy set) pods.

Definition expectUpdated (set : SidecarSet) (pod : Pod) : M S unit :=
  on_updates (fun u => Update.ExpectUpdated u (sd_name set) (GetSidecarSetRevision set) pod).
Definition upgrade_pod (set : SidecarSet) (pod : Pod) : M S (Outcome (option error)) :=
  do r <- updatePodSidecarAndHash set pod;
  match r with
  | Value None => expectUpdated set pod;; ret (Value None)
  | _ => ret r
  end.
Definition updatePods (set : SidecarSet) (pods : list Pod) : M S (Outcome (option error)) :=
  let '(upgradePods, notUpgradablePods) := next_upgrade_pods set pods in
  do r <- each_pod (fun pod => do e <- updatePodSidecarSetUpgradableCondition set pod false; ret (Value e)) notUpgradablePods;
  match r with
  | Value None => each_pod (upgrade_pod set) upgradePods
  | _ => ret r
  end.

(** ** Reconciling *)

(** [ObserveUpdated] for each pod. *)
Definition observe_pods (set : SidecarSet) (pods : list Pod) : M S unit :=
  on_updates (fun u => fold_left (fun u pod => Update.ObserveUpdated sidecar_EqualToRevisionHash u (sd_name set) (GetSidecarSetRevision set) pod)
                         pods u).
Definition flips (set : SidecarSet) (pods : list Pod) : M S (Outcome (option error)) :=
  if isSidecarSetHasHotUpgradeContainer set then flipHotUpgradingContainers set (filterb (hot_upgraded ParseImage set) pods)
  else ret (Value None).

(** [UpdateSidecarSet]: the time after which to come back, and the error. *)
Definition UpdateSidecarSet (set : SidecarSet) : M S (option (Outcome (Z * option error))) :=
  do r <- getMatchingPods set;
  match r with
  | inl err => ret (Some (Value (0, Some err)))
  | inr pods =>
      do r <- registerLatestRevision set pods;
      match r with
      | None => ret None
      | Some (inl err, _) => ret (Some (Value (0, Some err)))
      | Some (inr latest, collisionCount) =>
          let st := calculateStatus ParseImage set pods latest collisionCount in
          do e <- updateSidecarSetStatus set st;
          match e with
          | Some err => ret (Some (Value (0, Some err)))
          | None =>
              let set := with_sidecar_status set st in
              observe_pods set pods;;
              do '(allUpdated, _, _) <- ask_updates (fun u => Update.SatisfiedExpectations u (sd_name set) (GetSidecarSetRevision set) now);
              if negb allUpdated then ret (Some (Value (second, None)))
              else
                do r <- flips set pods;
                match r with
                | Panic => ret (Some Panic)
                | Value (Some err) => ret (Some (Value (0, Some err)))
                | Value None =>
                    if isSidecarSetNotUpdate set || isSidecarSetUpdateFinish st || sd_Paused set then ret (Some (Value (0, None)))
                    else
                      do r <- updatePods set pods;
                      ret (Some (match r with Panic => Panic | Value e => Value (0, e) end))
                end
          end
      end
  end.

Definition Reconcile (name : string) : M S (option (Outcome (Z * option error))) :=
  do r <- read (GetSidecarSet name);
  match r with
  | inl err => ret (Some (Value (0, if IsNotFound err then None else Some err)))
  | inr set => UpdateSidecarSet set
  end.

(** ** Pod events; a handler returns the names it adds to the queue with their delays *)

Fixpoint named_sets (pod : Pod) (names : list string) : M S (error + list SidecarSet) :=
  match names with
  | [] => ret (inr [])
  | name :: names' =>
      do r <- read (GetSidecarSet name);
      match r with
      | inl err => if IsNotFound err then named_sets pod names' else ret (inl err)
      | inr set =>
          do rest <- named_sets pod names';
          ret (match rest with
               | inl err => inl err
               | inr sets => inr (if IsPodConsistentWithSidecarSet pod set then set :: sets else sets)
               end)
      end
  end.
Definition getPodMatchedSidecarSets (pod : Pod) : M S (error + list SidecarSet) :=
  let names := lbl (p_annotations pod) SidecarSetListAnnotation in
  if String.eqb names "" then ret (inr []) else named_sets pod (Split names ",").

Definition handle_delete (pod : Pod) : M S unit :=
  do r <- getPodMatchedSidecarSets pod;
  match r with
  | inl _ => ret tt
  | inr sets => on_updates (fun u => fold_left (fun u set => Update.DeleteObject u (sd_name set) pod) sets u)
  end.
Definition addPod (pod : Pod) : M S (list (string * Z)) :=
  do r <- getPodMatchedSidecarSets pod;
  ret (match r with inl _ => [] | inr sets => map (fun set => (sd_name set, 0)) sets end).

Definition isPodStatusChanged (oldPod newPod : Pod) : bool :=
  match p_deletion oldPod, p_deletion newPod with
  | None, Some _ => true
  | Some _, _ => false
  | None, None => negb (Bool.eqb (IsPodReady oldPod) (IsPodReady newPod))
  end.
Definition isPodConsistentChanged (oldPod newPod : Pod) (set : SidecarSet) : bool * Z :=
  if negb (Bool.eqb (IsPodStateConsistent ParseImage set oldPod ∅) (IsPodStateConsistent ParseImage set newPod ∅))
  then (true, 5 * second)
  else (negb (bool_decide (p_labels oldPod = p_labels newPod)) && bool_decide (is_Some (sd_UpdateSelector set)), 0).
Definition pod_change (oldPod newPod : Pod) (set : SidecarSet) : option (string * Z) :=
  if isSidecarSetNotUpdate set then None
  else if isPodStatusChanged oldPod newPod then Some (sd_name set, 0)
  else let '(changed, delay) := isPodConsistentChanged oldPod newPod set in
       if changed then Some (sd_name set, delay) else None.
Definition handle_update (oldPod newPod : Pod) : M S (list (string * Z)) :=
  if String.eqb (p_resourceVersion newPod) (p_resourceVersion oldPod) then ret []
  else
    do r <- getPodMatchedSidecarSets newPod;
    ret (match r with inl _ => [] | inr sets => omap (pod_change oldPod newPod) sets end).
End Controller.
