(* ===== verification/SidecarSetUpgrade.v ===== *)
(** * SidecarSet: what upgrades do to a pod

    Proofs about SidecarSetProcessor.v.  A container with hot upgrades is two containers of the
    pod, one at work and the other with an empty image, and an annotation says which is at work.
    The steps of a pod ([pod_step]) are upgrades to any version of the set, the flip after a hot
    upgrade and whatever else leaves the containers and that annotation alone; the container at
    work never has the empty image.  An upgrade of a pod that is not amid a hot upgrade is
    total, gives every sidecar the image of the set and marks the pod as updated.  Amid a hot
    upgrade, a rollback marks the pod and changes nothing. *)

From S2P Require Import Prelude GoLib GoText K8s Tools Expectations Lifecycle Selector UpdateSort PodSorter CloneSetDiff.
From S2P Require Import ControllerExpectations WorkloadSpreadTypes World RevisionHistory InPlaceUpdate CloneSetUpdate SidecarSetStrategy StatefulSetUtils DaemonSet SidecarSet SidecarSetProcessor.
From S2P Require Import K8s.
Open Scope Z_scope.
Open Scope kruise_scope.

(** A value decoded from its own text; the text of an object is not empty. *)
Class JsonLaws (A : Type) `{JsonInto A} `{Empty A} : Prop := {
  json_roundtrip : forall a : A, Decode (Encode a) ∅ = (None, a);
  json_nonempty : forall a : A, Encode a <> ""%string;
}.

(** ** Containers by name *)

Definition named (n : string) (cs : list Container) : option Container := find (fun c => String.eqb (ctr_name c) n) cs.
Definition image_of (pod : Pod) (n : string) : option string := ctr_image <$> named n (p_containers pod).
Definition container_names (pod : Pod) : list string := map ctr_name (p_containers pod).

(** Names are unique in a pod, and none of the names is that of an init container. *)
Definition distinct_names (pod : Pod) : Prop :=
  NoDup (map ctr_name (pl_initContainers (p_placement pod)) ++ container_names pod).

Lemma named_Some n cs c : named n cs = Some c -> c ∈ cs /\ ctr_name c = n.
Proof. unfold named. intros E. apply find_some in E as [Hin E]. split; [by apply list_elem_of_In|by apply String.eqb_eq]. Qed.
Lemma named_in n cs : n ∈ map ctr_name cs -> exists c, named n cs = Some c.
Proof.
  unfold named. induction cs as [|c cs IH]; simpl; [by intros ?%not_elem_of_nil|]. intros [->|Hn]%elem_of_cons.
  - rewrite String.eqb_refl. eauto.
  - destruct (String.eqb _ _); eauto.
Qed.
Lemma named_None n cs : n ∉ map ctr_name cs -> named n cs = None.
Proof.
  unfold named. induction cs as [|c cs IH]; simpl; [done|]. intros Hn. apply not_elem_of_cons in Hn as [H1 H2].
  rewrite (proj2 (String.eqb_neq (ctr_name c) n)) by done. by apply IH.
Qed.

Lemma put_container_names n f cs : (forall c, ctr_name (f c) = ctr_name c) -> map ctr_name (put_container n f cs) = map ctr_name cs.
Proof. intros Hf. induction cs as [|c cs IH]; simpl; [done|]. destruct (String.eqb _ _); simpl; by rewrite ?Hf, ?IH. Qed.
Lemma named_put n m f cs : (forall c, ctr_name (f c) = ctr_name c) ->
  named m (put_container n f cs) = if String.eqb m n then f <$> named n cs else named m cs.
Proof.
  intros Hf. unfold named. induction cs as [|c cs IH]; simpl; [by destruct (String.eqb m n)|].
  destruct (String.eqb (ctr_name c) n) eqn:E; simpl.
  - apply String.eqb_eq in E. rewrite Hf, E. destruct (String.eqb n m) eqn:E'.
    + apply String.eqb_eq in E' as <-. by rewrite !String.eqb_refl.
    + rewrite String.eqb_sym, E'. done.
  - destruct (String.eqb (ctr_name c) m) eqn:E'; [|done].
    apply String.eqb_eq in E' as <-. by rewrite E.
Qed.

(** With unique names the first container of a name is the only one. *)
Lemma put_container_map n f cs : NoDup (map ctr_name cs) ->
  put_container n f cs = map (fun c => if String.eqb (ctr_name c) n then f c else c) cs.
Proof.
  induction cs as [|c cs IH]; simpl; [done|]. intros [Hc Hn]%NoDup_cons. destruct (String.eqb (ctr_name c) n) eqn:E.
  - f_equal. apply String.eqb_eq in E as <-. clear IH Hn. induction cs as [|d cs IH]; simpl in *; [done|].
    apply not_elem_of_cons in Hc as [H1 H2]. rewrite (proj2 (String.eqb_neq (ctr_name d) (ctr_name c))) by done.
    f_equal. by apply IH.
  - by rewrite IH.
Qed.
Lemma put_container_rev n f cs : NoDup (map ctr_name cs) ->
  rev (put_container n f (rev cs)) = put_container n f cs.
Proof.
  intros Hn. rewrite !put_container_map; [by rewrite map_rev, rev_involutive|done|].
  rewrite map_rev. by rewrite <-Permutation_rev.
Qed.

Lemma named_fold {A} (f : Container -> A) cs (m : gmap string A) n : NoDup (map ctr_name cs) ->
  fold_left (fun m c => <[ctr_name c := f c]> m) cs m !! n = match named n cs with Some c => Some (f c) | None => m !! n end.
Proof.
  revert m. induction cs as [|c cs IH]; intros m; simpl; [done|]. intros [Hc Hn]%NoDup_cons. rewrite IH by done.
  unfold named in *. simpl. destruct (String.eqb (ctr_name c) n) eqn:E.
  - apply String.eqb_eq in E as <-. pose proof (named_None _ _ Hc) as Hx. unfold named in Hx. rewrite Hx. apply lookup_insert_eq.
  - apply String.eqb_neq in E. destruct (find _ cs); [done|]. by apply lookup_insert_ne.
Qed.

Section Pods.
Context (pod : Pod) (Hd : distinct_names pod).

Lemma names_NoDup : NoDup (container_names pod).
Proof. unfold distinct_names in Hd. by apply NoDup_app in Hd as (_ & _ & ?). Qed.
Lemma no_init n : n ∈ container_names pod -> existsb (fun c => String.eqb (ctr_name c) n) (pl_initContainers (p_placement pod)) = false.
Proof.
  intros Hn. apply not_true_iff_false. intros E. apply existsb_exists in E as (c & Hc & E). apply String.eqb_eq in E as <-.
  unfold distinct_names in Hd. apply NoDup_app in Hd as (_ & Hdis & _). apply (Hdis (ctr_name c)); [|done].
  apply list_elem_of_fmap. exists c. split; [done|by apply list_elem_of_In].
Qed.
Lemma GetContainer_named n : n ∈ container_names pod -> GetContainer n pod = named n (p_containers pod).
Proof.
  intros Hn. unfold GetContainer. destruct (find _ (pl_initContainers _)) as [c|] eqn:E; [|done].
  apply find_some in E as [Hin E]. pose proof (no_init n Hn) as Hx. apply not_true_iff_false in Hx. destruct Hx.
  apply existsb_exists. eauto.
Qed.
Lemma set_container_image_put n image : n ∈ container_names pod ->
  set_container_image n image pod = with_containers pod (put_container n (fun c => with_image c image) (p_containers pod)).
Proof. intros Hn. unfold set_container_image. by rewrite no_init. Qed.
Lemma containers_in_pod_named n : containers_in_pod pod !! n = named n (p_containers pod).
Proof. unfold containers_in_pod. rewrite (named_fold (fun c => c)) by apply names_NoDup. by destruct (named _ _). Qed.
End Pods.

(** ** Annotations *)

Abbreviation workingKey := SidecarSetWorkingHotUpgradeContainer.
Definition put_all (kvs : list (string * string)) (m : gmap string string) : gmap string string :=
  fold_left (fun m kv => <[kv.1 := kv.2]> m) kvs m.

Lemma put_all_ne kvs m k : Forall (fun kv => kv.1 <> k) kvs -> put_all kvs m !! k = m !! k.
Proof.
  revert m. unfold put_all. induction kvs as [|[k' v] kvs IH]; intros m; simpl; [done|]. intros [Hk Hf]%Forall_cons.
  rewrite IH by done. by apply lookup_insert_ne.
Qed.
Lemma put_all_nonempty kvs m : m <> ∅ -> put_all kvs m <> ∅.
Proof.
  revert m. unfold put_all. induction kvs as [|[k v] kvs IH]; intros m Hm; simpl; [done|]. apply IH, insert_non_empty.
Qed.
Lemma annotate_total kvs pod : p_annotations pod <> ∅ -> annotate kvs pod = Value (with_annotations pod (put_all kvs (p_annotations pod))).
Proof. intros Ha. unfold annotate. by rewrite bool_decide_eq_false_2. Qed.
Lemma annotate_inv kvs pod pod' : annotate kvs pod = Value pod' ->
  p_annotations pod <> ∅ /\ pod' = with_annotations pod (put_all kvs (p_annotations pod)).
Proof. unfold annotate. case_bool_decide; [done|]. by intros [= <-]. Qed.

(** What the rest of a pod keeps: its containers and the annotation of the working ones. *)
Definition same_hot (pod pod' : Pod) : Prop :=
  p_containers pod' = p_containers pod /\ p_placement pod' = p_placement pod /\
  p_annotations pod' !! workingKey = p_annotations pod !! workingKey.

Lemma same_hot_trans a b c : same_hot a b -> same_hot b c -> same_hot a c.
Proof. intros (H1 & H2 & H3) (H4 & H5 & H6). repeat split; etrans; eauto. Qed.
Lemma annotate_same_hot kvs pod pod' : Forall (fun kv => kv.1 <> workingKey) kvs -> annotate kvs pod = Value pod' ->
  same_hot pod pod'.
Proof. intros Hk [_ ->]%annotate_inv. repeat split. simpl. by apply put_all_ne. Qed.

Lemma version_key_ne n : GetPodSidecarSetVersionAnnotation n <> workingKey.
Proof. done. Qed.
Lemma version_alt_key_ne n : GetPodSidecarSetVersionAltAnnotation n <> workingKey.
Proof. done. Qed.

(** The names of the two containers differ from each other. *)
Lemma hot_names_ne n : (GetHotUpgradeContainerName n).1 <> (GetHotUpgradeContainerName n).2.
Proof. simpl. induction n as [|c n IH]; simpl; [done|]. intros [= E]. done. Qed.

Section Upgrade.
Context `{JsonInto (gmap string SidecarSetUpgradeSpec)} `{JsonInto (gmap string string)} `{JsonInto (gmap string InPlaceUpdateState)}.
Context `{!JsonLaws (gmap string SidecarSetUpgradeSpec)} `{!JsonLaws (gmap string string)}.
Context (ParseImage : string -> option (string * string * string)) (isQualifiedName : string -> bool).

Definition working (c : SidecarContainer) (pod : Pod) : string := (GetPodHotUpgradeContainers (sc_Name c) pod).1.
Definition idle (c : SidecarContainer) (pod : Pod) : string := (GetPodHotUpgradeContainers (sc_Name c) pod).2.
Definition names_of (c : SidecarContainer) : list string :=
  if IsHotUpgradeContainer c then [(GetHotUpgradeContainerName (sc_Name c)).1; (GetHotUpgradeContainerName (sc_Name c)).2]
  else [sc_Name c].

Lemma hot_containers_ext n pod pod' : p_annotations pod' !! workingKey = p_annotations pod !! workingKey ->
  GetPodHotUpgradeContainers n pod' = GetPodHotUpgradeContainers n pod.
Proof. intros E. unfold GetPodHotUpgradeContainers, GetPodHotUpgradeInfoInAnnotations. by rewrite E. Qed.
Lemma working_idle c pod :
  (working c pod = (GetHotUpgradeContainerName (sc_Name c)).1 /\ idle c pod = (GetHotUpgradeContainerName (sc_Name c)).2) \/
  (working c pod = (GetHotUpgradeContainerName (sc_Name c)).2 /\ idle c pod = (GetHotUpgradeContainerName (sc_Name c)).1).
Proof. unfold working, idle, GetPodHotUpgradeContainers. simpl. destruct (String.eqb _ _); auto. Qed.
Lemma working_ne_idle c pod : working c pod <> idle c pod.
Proof. pose proof (hot_names_ne (sc_Name c)). destruct (working_idle c pod) as [[-> ->]|[-> ->]]; [done|]. by intros E. Qed.
Lemma working_in c pod : IsHotUpgradeContainer c = true -> working c pod ∈ names_of c /\ idle c pod ∈ names_of c.
Proof. unfold names_of. intros ->. destruct (working_idle c pod) as [[-> ->]|[-> ->]]; set_solver. Qed.

(** The container to upgrade and the other one are the two containers. *)
Lemma find_hot_names set c pod : distinct_names pod -> IsHotUpgradeContainer c = true ->
  Forall (fun n => n ∈ container_names pod) (names_of c) ->
  let '(t, o) := findContainerToHotUpgrade ParseImage set c pod in
  (t = working c pod /\ o = idle c pod) \/ (t = idle c pod /\ o = working c pod).
Proof.
  intros Hd Hh Hn. unfold names_of in Hn. rewrite Hh in Hn. apply Forall_cons in Hn as [Ha Hn]. apply Forall_cons in Hn as [Hb _].
  apply named_in in Ha as [c1 E1]. apply named_in in Hb as [c2 E2].
  pose proof (named_Some _ _ _ E1) as [_ N1]. pose proof (named_Some _ _ _ E2) as [_ N2].
  unfold findContainerToHotUpgrade. simpl in *. rewrite !containers_in_pod_named, E1, E2 by done. simpl. rewrite N1, N2.
  pose proof (working_idle c pod) as Hw. simpl in Hw.
  destruct (String.eqb (ctr_image c1) _); [naive_solver|]. destruct (String.eqb (ctr_image c2) _); [naive_solver|].
  destruct (_ && negb _); [naive_solver|]. destruct (negb _ && _); [naive_solver|].
  unfold working, idle in *. destruct (GetPodHotUpgradeContainers _ _) as [a b]. simpl in *. naive_solver.
Qed.

(** When one of the two is empty, that one is upgraded. *)
Lemma find_hot_idle set c pod : distinct_names pod -> IsHotUpgradeContainer c = true ->
  Forall (fun n => n ∈ container_names pod) (names_of c) ->
  image_of pod (idle c pod) = Some (sc_HotUpgradeEmptyImage c) -> image_of pod (working c pod) <> Some (sc_HotUpgradeEmptyImage c) ->
  findContainerToHotUpgrade ParseImage set c pod = (idle c pod, working c pod).
Proof.
  intros Hd Hh Hn Hi Hw. unfold names_of in Hn. rewrite Hh in Hn. apply Forall_cons in Hn as [Ha Hn]. apply Forall_cons in Hn as [Hb _].
  apply named_in in Ha as [c1 E1]. apply named_in in Hb as [c2 E2].
  pose proof (named_Some _ _ _ E1) as [_ N1]. pose proof (named_Some _ _ _ E2) as [_ N2].
  unfold findContainerToHotUpgrade. simpl in *. rewrite !containers_in_pod_named, E1, E2 by done. simpl. rewrite N1, N2.
  unfold image_of in *. destruct (working_idle c pod) as [[W I]|[W I]]; simpl in W, I; rewrite W in Hw; rewrite I in Hi; rewrite W, I.
  - rewrite E1 in Hw. rewrite E2 in Hi. simpl in *. simplify_eq. rewrite Hi, String.eqb_refl.
    destruct (String.eqb (ctr_image c1) _) eqn:E; [|done]. apply String.eqb_eq in E. congruence.
  - rewrite E1 in Hi. simpl in *. simplify_eq. by rewrite Hi, String.eqb_refl.
Qed.

(** ** One container of an upgrade *)

Definition target (set : SidecarSet) (c : SidecarContainer) (pod : Pod) : string * string :=
  if IsHotUpgradeContainer c then findContainerToHotUpgrade ParseImage set c pod else (sc_Name c, sc_Name c).
Definition has_sidecar (pod : Pod) (c : SidecarContainer) : Prop := Forall (fun n => n ∈ container_names pod) (names_of c).

Lemma target_in set c pod : distinct_names pod -> has_sidecar pod c ->
  (target set c pod).1 ∈ names_of c /\ (target set c pod).2 ∈ names_of c /\
  (IsHotUpgradeContainer c = true -> (target set c pod).1 <> (target set c pod).2).
Proof.
  intros Hd Hn. unfold target. destruct (IsHotUpgradeContainer c) eqn:Hh; [|unfold names_of; rewrite Hh; simpl; set_solver].
  pose proof (find_hot_names set c pod Hd Hh Hn) as Hf. destruct (findContainerToHotUpgrade _ _ _ _) as [t o]. simpl.
  pose proof (working_in c pod Hh). pose proof (working_ne_idle c pod). destruct Hf as [[-> ->]|[-> ->]]; naive_solver.
Qed.

Lemma upgrade_one set c pod : distinct_names pod -> has_sidecar pod c ->
  let '(t, o) := target set c pod in
  exists x y, named t (p_containers pod) = Some x /\ named o (p_containers pod) = Some y /\
    UpgradeSidecarContainer ParseImage set c pod
    = if String.eqb (sc_Image c) (ctr_image y) then Value (None, pod)
      else Value (Some (with_image x (sc_Image c)),
                  with_containers pod (put_container t (fun x => with_image x (sc_Image c)) (p_containers pod))).
Proof.
  intros Hd Hn. pose proof (target_in set c pod Hd Hn) as (Ht & Ho & _). unfold UpgradeSidecarContainer. fold (target set c pod).
  unfold has_sidecar in Hn. rewrite Forall_forall in Hn.
  destruct (target set c pod) as [t o]. simpl in *. apply Hn in Ht, Ho.
  destruct (named_in _ _ Ht) as [x Hx]. destruct (named_in _ _ Ho) as [y Hy]. exists x, y. split; [done|]. split; [done|].
  rewrite !GetContainer_named, Hx, Hy by done. destruct (String.eqb _ _); [done|]. by rewrite set_container_image_put.
Qed.

(** The pod after an upgrade of the container [t]. *)
Definition put_image (t image : string) (pod : Pod) : Pod :=
  with_containers pod (put_container t (fun x => with_image x image) (p_containers pod)).
Definition after_upgrade (set : SidecarSet) (c : SidecarContainer) (t : string) (pod : Pod) : Pod :=
  let pod := put_image t (sc_Image c) pod in
  if IsHotUpgradeContainer c then with_annotations pod (put_all (hot_annotations set (sc_Name c) t pod) (p_annotations pod)) else pod.

Lemma put_container_twice n f g cs x : named n cs = Some x -> ctr_name (f x) = n -> g (f x) = f x ->
  put_container n g (put_container n f cs) = put_container n f cs.
Proof.
  intros Hx Hf Hg. induction cs as [|c cs IH]; [done|]. unfold named in *. simpl in *. destruct (String.eqb (ctr_name c) n) eqn:E.
  - injection Hx as ->. simpl. rewrite Hf, String.eqb_refl. by rewrite Hg.
  - simpl. rewrite E. by rewrite IH.
Qed.

Lemma upgrade_containers_cons set c cs pod ch : distinct_names pod -> has_sidecar pod c -> p_annotations pod <> ∅ ->
  let '(t, o) := target set c pod in
  upgrade_containers ParseImage isQualifiedName set (c :: cs) pod ch
  = if bool_decide (image_of pod o = Some (sc_Image c)) then upgrade_containers ParseImage isQualifiedName set cs pod ch
    else upgrade_containers ParseImage isQualifiedName set cs (after_upgrade set c t pod) (ch ++ [t]).
Proof.
  intros Hd Hn Ha. pose proof (upgrade_one set c pod Hd Hn) as Hu. destruct (target set c pod) as [t o].
  destruct Hu as (x & y & Hx & Hy & Hu). cbn [upgrade_containers].
  assert (Hm : UpgradeSidecarContainer ParseImage set (merged_sidecar isQualifiedName c pod) pod
               = UpgradeSidecarContainer ParseImage set c pod).
  { unfold merged_sidecar. by destruct (GetInjectedVolumeMountsAndEnvs c pod). }
  assert (Hs : IsHotUpgradeContainer (merged_sidecar isQualifiedName c pod) = IsHotUpgradeContainer c
               /\ sc_Name (merged_sidecar isQualifiedName c pod) = sc_Name c).
  { unfold merged_sidecar. by destruct (GetInjectedVolumeMountsAndEnvs c pod). }
  destruct Hs as [Hs1 Hs2]. rewrite Hm, Hu, Hs1, Hs2. unfold image_of. rewrite Hy. simpl.
  destruct (String.eqb (sc_Image c) (ctr_image y)) eqn:E.
  { apply String.eqb_eq in E. by rewrite bool_decide_eq_true_2 by (by rewrite E). }
  rewrite bool_decide_eq_false_2 by (intros [= E']; by rewrite E', String.eqb_refl in E).
  pose proof (named_Some _ _ _ Hx) as [_ Nx].
  assert (Hc : updateContainerInPod (with_image x (sc_Image c)) (put_image t (sc_Image c) pod) = put_image t (sc_Image c) pod).
  { unfold updateContainerInPod, put_image. simpl. rewrite Nx. by rewrite (put_container_twice t _ _ _ x). }
  fold (put_image t (sc_Image c) pod). rewrite Hc. simpl. rewrite Nx. unfold after_upgrade.
  destruct (IsHotUpgradeContainer c); [|done]. by rewrite annotate_total.
Qed.

(** What it changes. *)
Section After.
Context (set : SidecarSet) (c : SidecarContainer) (t : string) (pod : Pod).
Context (Ht : t ∈ names_of c) (Hc : t ∈ container_names pod).

Lemma after_containers :
  p_containers (after_upgrade set c t pod) = put_container t (fun x => with_image x (sc_Image c)) (p_containers pod) /\
  p_placement (after_upgrade set c t pod) = p_placement pod.
Proof. unfold after_upgrade. by destruct (IsHotUpgradeContainer c). Qed.
Lemma after_names : container_names (after_upgrade set c t pod) = container_names pod.
Proof. unfold container_names. rewrite (proj1 after_containers). by apply put_container_names. Qed.
Lemma after_distinct : distinct_names pod -> distinct_names (after_upgrade set c t pod).
Proof. unfold distinct_names. by rewrite after_names, (proj2 after_containers). Qed.
Lemma after_annotations : p_annotations pod <> ∅ -> p_annotations (after_upgrade set c t pod) <> ∅.
Proof. intros Ha. unfold after_upgrade. destruct (IsHotUpgradeContainer c); [|done]. by apply (put_all_nonempty _ (p_annotations pod)). Qed.
Lemma after_image n : image_of (after_upgrade set c t pod) n = if String.eqb n t then Some (sc_Image c) else image_of pod n.
Proof.
  unfold image_of. rewrite (proj1 after_containers), named_put by done. destruct (String.eqb n t); [|done].
  apply named_in in Hc as [x ->]. done.
Qed.
Lemma after_info : IsHotUpgradeContainer c = true ->
  GetPodHotUpgradeInfoInAnnotations (after_upgrade set c t pod) = <[sc_Name c := t]> (GetPodHotUpgradeInfoInAnnotations pod).
Proof.
  intros Hh. unfold after_upgrade. rewrite Hh. unfold GetPodHotUpgradeInfoInAnnotations at 1. simpl.
  rewrite !lookup_insert_ne by done. rewrite lookup_insert_eq. by rewrite json_roundtrip.
Qed.
Lemma after_working : IsHotUpgradeContainer c = true -> working c (after_upgrade set c t pod) = t.
Proof.
  intros Hh. unfold working, GetPodHotUpgradeContainers. rewrite after_info by done. unfold lbl. simpl.
  rewrite lookup_insert_eq. simpl. unfold names_of in Ht. rewrite Hh in Ht.
  apply elem_of_cons in Ht as [->|Ht']; [by rewrite String.eqb_refl|]. apply list_elem_of_singleton in Ht' as ->.
  rewrite (proj2 (String.eqb_neq _ _)); [done|]. intros E. by apply (hot_names_ne (sc_Name c)).
Qed.
Lemma after_other n : (IsHotUpgradeContainer c = true -> n <> sc_Name c) ->
  GetPodHotUpgradeContainers n (after_upgrade set c t pod) = GetPodHotUpgradeContainers n pod.
Proof.
  intros Hn. destruct (IsHotUpgradeContainer c) eqn:Hh.
  - unfold GetPodHotUpgradeContainers. rewrite after_info by done. unfold lbl. by rewrite lookup_insert_ne by naive_solver.
  - apply hot_containers_ext. unfold after_upgrade. by rewrite Hh.
Qed.
End After.

(** ** All the containers of an upgrade *)

Definition all_names (cs : list SidecarContainer) : list string := concat (map names_of cs).
(** The pod has the sidecars, under names of their own. *)
Definition holds_sidecars (cs : list SidecarContainer) (pod : Pod) : Prop :=
  distinct_names pod /\ Forall (has_sidecar pod) cs /\ p_annotations pod <> ∅.
(** Nothing changes for a sidecar. *)
Definition frame (d : SidecarContainer) (pod pod' : Pod) : Prop :=
  (forall n, n ∈ names_of d -> image_of pod' n = image_of pod n) /\
  (IsHotUpgradeContainer d = true -> GetPodHotUpgradeContainers (sc_Name d) pod' = GetPodHotUpgradeContainers (sc_Name d) pod).
(** What one round does for its own sidecar. *)
Definition round (set : SidecarSet) (c : SidecarContainer) (pod pod' : Pod) : Prop :=
  let '(t, o) := target set c pod in
  (pod' = pod /\ image_of pod o = Some (sc_Image c)) \/
  (image_of pod' t = Some (sc_Image c) /\ (IsHotUpgradeContainer c = true -> working c pod' = t)).

Lemma hot_name_clash c d : IsHotUpgradeContainer c = true -> IsHotUpgradeContainer d = true -> sc_Name d = sc_Name c ->
  exists n, n ∈ names_of d /\ n ∈ names_of c.
Proof. intros Hc Hd E. unfold names_of. rewrite Hc, Hd, E. eexists. split; apply elem_of_cons; by left. Qed.

Lemma upgrade_round set c cs pod ch all : holds_sidecars all pod -> c ∈ all ->
  exists pod' ch', upgrade_containers ParseImage isQualifiedName set (c :: cs) pod ch
                   = upgrade_containers ParseImage isQualifiedName set cs pod' ch' /\
    holds_sidecars all pod' /\ container_names pod' = container_names pod /\ p_placement pod' = p_placement pod /\
    round set c pod pod' /\
    (forall n, n ∉ names_of c -> image_of pod' n = image_of pod n) /\
    (forall d, (forall n, n ∈ names_of d -> n ∉ names_of c) -> frame d pod pod').
Proof.
  intros (Hd & Hs & Ha) Hc. pose proof (proj1 (Forall_forall _ _) Hs c Hc) as Hn.
  pose proof (upgrade_containers_cons set c cs pod ch Hd Hn Ha) as Hu.
  pose proof (target_in set c pod Hd Hn) as (Ht & _ & _). unfold round. destruct (target set c pod) as [t o]. simpl in Ht.
  rewrite Hu. case_bool_decide as Hi.
  { exists pod, ch. split; [done|]. repeat split; auto. }
  exists (after_upgrade set c t pod), (ch ++ [t]). split; [done|].
  assert (Hin : t ∈ container_names pod) by (unfold has_sidecar in Hn; rewrite Forall_forall in Hn; auto).
  assert (Hout : forall n, n ∉ names_of c -> image_of (after_upgrade set c t pod) n = image_of pod n).
  { intros n Hx. rewrite after_image by done. rewrite (proj2 (String.eqb_neq n t)); [done|]. by intros ->. }
  assert (Hh : holds_sidecars all (after_upgrade set c t pod)).
  { repeat split; [by apply after_distinct| |by apply after_annotations].
    eapply Forall_impl; [exact Hs|]. intros d. unfold has_sidecar. by rewrite after_names. }
  split; [exact Hh|]. split; [apply after_names|]. split; [apply after_containers|]. split; [|split; [exact Hout|]].
  - right. rewrite after_image by done. rewrite String.eqb_refl. split; [done|]. intros Hx. by apply after_working.
  - intros d Hdis. split; [intros n Hx; apply Hout; auto|]. intros Hdh. apply after_other. intros Hch E.
    destruct (hot_name_clash c d Hch Hdh E) as (n & N1 & N2). by apply (Hdis n).
Qed.

Lemma all_names_app xs ys : all_names (xs ++ ys) = all_names xs ++ all_names ys.
Proof. unfold all_names. by rewrite map_app, concat_app. Qed.
Lemma all_names_in c cs n : c ∈ cs -> n ∈ names_of c -> n ∈ all_names cs.
Proof. intros Hc Hn. unfold all_names. apply list_elem_of_In, in_concat. exists (names_of c). split; apply list_elem_of_In; [|done].
  by apply list_elem_of_fmap_2. Qed.

Section Loop.
Context (set : SidecarSet) (P Q : SidecarContainer -> Pod -> Prop).
Context (HP : forall d pod pod', frame d pod pod' -> P d pod -> P d pod').
Context (HQ : forall d pod pod', frame d pod pod' -> Q d pod -> Q d pod').
Context (Hstep : forall c pod pod', distinct_names pod -> has_sidecar pod c -> P c pod -> round set c pod pod' -> Q c pod').

Lemma upgrade_containers_loop pre cs pod ch : NoDup (all_names (pre ++ cs)) -> holds_sidecars (pre ++ cs) pod ->
  Forall (fun c => Q c pod) pre -> Forall (fun c => P c pod) cs ->
  exists pod' ch', upgrade_containers ParseImage isQualifiedName set cs pod ch = Value (pod', ch') /\
    holds_sidecars (pre ++ cs) pod' /\ container_names pod' = container_names pod /\ p_placement pod' = p_placement pod /\
    Forall (fun c => Q c pod') (pre ++ cs) /\ (forall n, n ∉ all_names (pre ++ cs) -> image_of pod' n = image_of pod n).
Proof.
  revert pre pod ch. induction cs as [|c cs IH]; intros pre pod ch Hnd Hh Hq Hp.
  { exists pod, ch. rewrite app_nil_r in *. repeat split; try done; apply Hh. }
  assert (Hc : c ∈ pre ++ c :: cs) by set_solver. apply Forall_cons in Hp as [Hpc Hp].
  destruct (upgrade_round set c cs pod ch _ Hh Hc) as (pod1 & ch1 & E & Hh1 & Hn1 & Hpl1 & Hr & Hout & Hfr).
  assert (Hdis : forall d, d ∈ pre ++ cs -> forall n, n ∈ names_of d -> n ∉ names_of c).
  { intros d Hd n Hx Hy. rewrite all_names_app in Hnd. change (all_names (c :: cs)) with (names_of c ++ all_names cs) in Hnd.
    apply NoDup_app in Hnd as (_ & D1 & Hnd). apply NoDup_app in Hnd as (_ & D2 & _).
    apply elem_of_app in Hd as [Hd|Hd].
    - apply (D1 n); [by eapply all_names_in|]. apply elem_of_app. by left.
    - apply (D2 n); [done|by eapply all_names_in]. }
  assert (Hkeep : forall (R : SidecarContainer -> Pod -> Prop) l, (forall d a b, frame d a b -> R d a -> R d b) ->
            (forall d, d ∈ l -> d ∈ pre ++ cs) -> Forall (fun d => R d pod) l -> Forall (fun d => R d pod1) l).
  { intros R l HR Hl Hf. rewrite Forall_forall in Hf |- *. intros d Hd. eapply HR; [|by apply Hf]. apply Hfr. apply Hdis. auto. }
  rewrite cons_middle, app_assoc in Hnd, Hh1 |- *.
  destruct (IH (pre ++ [c]) pod1 ch1 Hnd Hh1) as (pod' & ch' & E' & Hh' & Hn' & Hpl' & Hq' & Hout').
  - apply Forall_app. split; [apply Hkeep; [done|set_solver|done]|]. apply Forall_singleton.
    eapply Hstep; [| |exact Hpc|exact Hr]; [apply Hh|]. destruct Hh as (_ & Hs & _). rewrite Forall_forall in Hs. auto.
  - apply Hkeep; [done|set_solver|done].
  - exists pod', ch'. rewrite E, E'. repeat split; try done; [apply Hh'..|by rewrite Hn'|by rewrite Hpl'|].
    intros n Hn. rewrite Hout' by done. apply Hout. intros Hx. apply Hn. rewrite !all_names_app. apply elem_of_app. left.
    apply elem_of_app. right. unfold all_names. simpl. by rewrite app_nil_r.
Qed.
End Loop.

(** ** The annotations of an upgrade *)

Lemma hash_keys_ne now set pod : Forall (fun kv => kv.1 <> workingKey) (hash_annotations now set pod).1.
Proof.
  unfold hash_annotations. destruct (Decode (lbl (p_annotations pod) SidecarSetHashAnnotation) ∅) as [[e|] m]; [|done].
  destruct (Decode _ ∅) as [err older]. destruct (Decode _ older) as [[e'|] w]; simpl; [done|]. by apply Forall_singleton.
Qed.
Lemma update_hash_total now set pod : p_annotations pod <> ∅ ->
  exists pod', UpdatePodSidecarSetHash now pod set = Value pod' /\ same_hot pod pod' /\ p_annotations pod' <> ∅ /\
    (exists m, p_annotations pod' !! SidecarSetHashAnnotation = Some (Encode m) /\
       m !! sd_name set = Some (mkUpgradeSpec now (GetSidecarSetRevision set) (sd_name set)
         (set_list (list_to_set (map sc_Name (sd_Containers set)))) (sst_LatestRevision (sd_status set)))).
Proof.
  intros Ha. unfold UpdatePodSidecarSetHash. pose proof (hash_keys_ne now set pod) as Hk.
  destruct (hash_annotations now set pod) as [compat m]. simpl in Hk.
  set (kvs := compat ++ _). assert (Hkvs : Forall (fun kv => kv.1 <> workingKey) kvs).
  { apply Forall_app. split; [done|]. by apply Forall_singleton. }
  rewrite annotate_total by done. eexists. split; [reflexivity|].
  split; [eapply annotate_same_hot; [exact Hkvs|by apply annotate_total]|].
  split; [simpl; by apply put_all_nonempty|]. eexists. split.
  - simpl. unfold kvs, put_all. rewrite fold_left_app. simpl. by rewrite lookup_insert_eq.
  - by rewrite lookup_insert_eq.
Qed.
Lemma update_state_total now set changed pod : p_annotations pod <> ∅ ->
  exists pod', UpdatePodAnnotationsInUpgrade now set changed pod = Value pod' /\ same_hot pod pod' /\ p_annotations pod' <> ∅ /\
    p_annotations pod' !! SidecarSetHashAnnotation = p_annotations pod !! SidecarSetHashAnnotation.
Proof.
  intros Ha. unfold UpdatePodAnnotationsInUpgrade. rewrite annotate_total by done. eexists. split; [reflexivity|].
  split; [eapply annotate_same_hot; [|by apply annotate_total]; by apply Forall_singleton|].
  split; [simpl; by apply insert_non_empty|]. simpl. by rewrite lookup_insert_ne.
Qed.

(** The spec that is read back. *)
Lemma upgrade_spec_read setName pod m spec : p_annotations pod !! SidecarSetHashAnnotation = Some (Encode m) -> m !! setName = Some spec ->
  GetPodSidecarSetUpgradeSpecInAnnotations setName SidecarSetHashAnnotation pod = spec.
Proof.
  intros Hl Hm. unfold GetPodSidecarSetUpgradeSpecInAnnotations, lbl. rewrite Hl. simpl.
  rewrite (proj2 (String.eqb_neq _ _)) by apply json_nonempty. by rewrite json_roundtrip, Hm.
Qed.

Lemma same_hot_names pod pod' : same_hot pod pod' -> container_names pod' = container_names pod.
Proof. intros (E & _). unfold container_names. by rewrite E. Qed.
Lemma same_hot_image pod pod' n : same_hot pod pod' -> image_of pod' n = image_of pod n.
Proof. intros (E & _). unfold image_of. by rewrite E. Qed.
Lemma same_hot_frame pod pod' d : same_hot pod pod' -> frame d pod pod'.
Proof. intros Hs. split; [intros n _; by apply same_hot_image|]. intros _. by apply hot_containers_ext, Hs. Qed.
Lemma same_hot_holds cs pod pod' : same_hot pod pod' -> p_annotations pod' <> ∅ -> holds_sidecars cs pod -> holds_sidecars cs pod'.
Proof.
  intros Hs Ha (Hd & Hf & _). pose proof (same_hot_names _ _ Hs) as Hn. split; [|split; [|done]].
  - unfold distinct_names. rewrite Hn. destruct Hs as (_ & -> & _). exact Hd.
  - eapply Forall_impl; [exact Hf|]. intros c. unfold has_sidecar. by rewrite Hn.
Qed.

(** The whole upgrade of a pod. *)
Section Whole.
Context (set : SidecarSet) (P Q : SidecarContainer -> Pod -> Prop).
Context (HP : forall d pod pod', frame d pod pod' -> P d pod -> P d pod').
Context (HQ : forall d pod pod', frame d pod pod' -> Q d pod -> Q d pod').
Context (Hstep : forall c pod pod', distinct_names pod -> has_sidecar pod c -> P c pod -> round set c pod pod' -> Q c pod').

Lemma upgrade_whole now pod : NoDup (all_names (sd_Containers set)) -> holds_sidecars (sd_Containers set) pod ->
  Forall (fun c => P c pod) (sd_Containers set) ->
  exists pod', updatePodSidecarContainer ParseImage isQualifiedName now set pod = Value pod' /\
    holds_sidecars (sd_Containers set) pod' /\ container_names pod' = container_names pod /\
    Forall (fun c => Q c pod') (sd_Containers set) /\
    (forall n, n ∉ all_names (sd_Containers set) -> image_of pod' n = image_of pod n) /\
    IsPodSidecarUpdated set pod' = true /\
    GetPodSidecarSetControllerRevision (sd_name set) pod' = sst_LatestRevision (sd_status set).
Proof.
  intros Hnd Hh Hp.
  destruct (upgrade_containers_loop set P Q HP HQ Hstep [] (sd_Containers set) pod [] Hnd Hh (Forall_nil_2 _) Hp)
    as (pod1 & ch & E1 & Hh1 & Hn1 & _ & Hq1 & Hout1).
  unfold updatePodSidecarContainer. rewrite E1.
  destruct (update_hash_total now set pod1) as (pod2 & E2 & S2 & Ha2 & m & Hm & Hspec); [apply Hh1|]. rewrite E2.
  destruct (update_state_total now set ch pod2 Ha2) as (pod3 & E3 & S3 & Ha3 & Hash). rewrite E3.
  pose proof (same_hot_trans _ _ _ S2 S3) as S13. exists pod3. split; [done|]. rewrite <-Hash in Hm.
  pose proof (upgrade_spec_read _ _ _ _ Hm Hspec) as Hr.
  split; [by eapply same_hot_holds|]. split; [by rewrite (same_hot_names _ _ S13)|]. split.
  { eapply Forall_impl; [exact Hq1|]. intros c. apply HQ. by apply same_hot_frame. }
  split; [intros n Hn; by rewrite (same_hot_image _ _ _ S13), Hout1|].
  unfold IsPodSidecarUpdated, GetPodSidecarSetRevision, GetPodSidecarSetControllerRevision. rewrite Hr. simpl.
  by rewrite String.eqb_refl.
Qed.
End Whole.

(** The container at work does not have the empty image. *)
Definition serving (c : SidecarContainer) (pod : Pod) : Prop :=
  IsHotUpgradeContainer c = true -> image_of pod (working c pod) <> Some (sc_HotUpgradeEmptyImage c).
(** The image a sidecar runs with. *)
Definition runs_image (c : SidecarContainer) (pod : Pod) : Prop :=
  image_of pod (if IsHotUpgradeContainer c then working c pod else sc_Name c) = Some (sc_Image c).

Lemma frame_working d pod pod' : frame d pod pod' -> IsHotUpgradeContainer d = true ->
  working d pod' = working d pod /\ idle d pod' = idle d pod /\
  image_of pod' (working d pod) = image_of pod (working d pod) /\ image_of pod' (idle d pod) = image_of pod (idle d pod).
Proof.
  intros [F1 F2] Hh. unfold working, idle. rewrite (F2 Hh). repeat split; apply F1; by apply (working_in d pod Hh).
Qed.
Lemma frame_serving d pod pod' : frame d pod pod' -> serving d pod -> serving d pod'.
Proof. intros F Hs Hh. destruct (frame_working _ _ _ F Hh) as (-> & _ & -> & _). by apply Hs. Qed.
Lemma frame_runs d pod pod' : frame d pod pod' -> runs_image d pod -> runs_image d pod'.
Proof.
  unfold runs_image. intros F Hr. destruct (IsHotUpgradeContainer d) eqn:Hh.
  - by destruct (frame_working _ _ _ F Hh) as (-> & _ & -> & _).
  - destruct F as [F _]. rewrite F; [done|]. unfold names_of. rewrite Hh. by apply list_elem_of_singleton.
Qed.

Lemma round_serving set c pod pod' : (IsHotUpgradeContainer c = true -> sc_Image c <> sc_HotUpgradeEmptyImage c) ->
  serving c pod -> round set c pod pod' -> serving c pod'.
Proof.
  intros Hi Hs. unfold round. destruct (target set c pod) as [t o]. intros [[-> _]|[Ht Hw]]; [done|].
  intros Hh. rewrite (Hw Hh), Ht. intros [= E]. by apply Hi.
Qed.

(** The pod is not amid a hot upgrade of the sidecar. *)
Definition settled (c : SidecarContainer) (pod : Pod) : Prop :=
  IsHotUpgradeContainer c = true -> image_of pod (idle c pod) = Some (sc_HotUpgradeEmptyImage c) /\
                                    image_of pod (working c pod) <> Some (sc_HotUpgradeEmptyImage c).
Lemma frame_settled d pod pod' : frame d pod pod' -> settled d pod -> settled d pod'.
Proof. intros F Hs Hh. destruct (frame_working _ _ _ F Hh) as (-> & -> & -> & ->). by apply Hs. Qed.
Lemma round_settled set c pod pod' : distinct_names pod -> has_sidecar pod c -> settled c pod -> round set c pod pod' -> runs_image c pod'.
Proof.
  intros Hd Hn Hs. unfold round, runs_image, target. destruct (IsHotUpgradeContainer c) eqn:Hh.
  - destruct (Hs Hh) as [Hi Hw]. rewrite find_hot_idle by done. intros [[-> Ho]|[Ht Hx]]; [done|]. by rewrite (Hx eq_refl).
  - by intros [[-> Ho]|[Ht _]].
Qed.

(** ** The flip *)

Definition emptied (c : SidecarContainer) (pod pod' : Pod) : Prop :=
  IsHotUpgradeContainer c = true ->
  working c pod' = working c pod /\ idle c pod' = idle c pod /\
  image_of pod' (working c pod) = image_of pod (working c pod) /\ image_of pod' (idle c pod) = Some (sc_HotUpgradeEmptyImage c).

(** One hot container: the pod keeps everything but the image of the idle one. *)
Lemma flip_round c cs pod ch all : holds_sidecars all pod -> c ∈ all -> IsHotUpgradeContainer c = true ->
  exists pod' ch', flip_containers (c :: cs) pod ch = flip_containers cs pod' ch' /\
    holds_sidecars all pod' /\ container_names pod' = container_names pod /\ p_placement pod' = p_placement pod /\
    p_annotations pod' !! workingKey = p_annotations pod !! workingKey /\
    image_of pod' (idle c pod) = Some (sc_HotUpgradeEmptyImage c) /\
    forall n, n <> idle c pod -> image_of pod' n = image_of pod n.
Proof.
  intros (Hd & Hs & Ha) Hc Hh. pose proof (proj1 (Forall_forall _ _) Hs c Hc) as Hn.
  pose proof (proj2 (working_in c pod Hh)) as Hin. apply (proj1 (Forall_forall _ _) Hn) in Hin.
  destruct (named_in _ _ Hin) as [x Hx]. cbn [flip_containers]. rewrite Hh. unfold idle in *.
  destruct (GetPodHotUpgradeContainers (sc_Name c) pod) as [work empty]. simpl in *.
  rewrite containers_in_pod_named, Hx by done. destruct (String.eqb (ctr_image x) _) eqn:E.
  { apply String.eqb_eq in E. exists pod, ch. repeat split; try done. unfold image_of. by rewrite Hx, <-E. }
  rewrite put_container_rev by by apply names_NoDup. fold (put_image empty (sc_HotUpgradeEmptyImage c) pod).
  set (pod1 := put_image _ _ _).
  assert (N1 : container_names pod1 = container_names pod) by by apply put_container_names.
  rewrite annotate_total by done. eexists _, _. split; [reflexivity|].
  assert (Hi : forall n, image_of pod1 n = if String.eqb n empty then Some (sc_HotUpgradeEmptyImage c) else image_of pod n).
  { intros n. unfold image_of, pod1, put_image. simpl. rewrite named_put by done. rewrite Hx. by destruct (String.eqb n empty). }
  split; [split; [unfold distinct_names; change (container_names _) with (container_names pod1); by rewrite N1|split]|].
  - eapply Forall_impl; [exact Hs|]. intros d. unfold has_sidecar. change (container_names (with_annotations _ _)) with (container_names pod1).
    by rewrite N1.
  - by apply (put_all_nonempty _ (p_annotations pod)).
  - split; [exact N1|]. split; [done|]. split; [simpl; by rewrite !lookup_insert_ne by done|].
    change (image_of (with_annotations pod1 _)) with (image_of pod1). split; [by rewrite Hi, String.eqb_refl|].
    intros n Hne. by rewrite Hi, (proj2 (String.eqb_neq n empty)).
Qed.

Lemma flip_containers_spec all cs pod ch : holds_sidecars all pod -> (forall c, c ∈ cs -> c ∈ all) -> NoDup (all_names cs) ->
  exists pod' ch', flip_containers cs pod ch = Value (pod', ch') /\ holds_sidecars all pod' /\
    p_annotations pod' !! workingKey = p_annotations pod !! workingKey /\
    Forall (fun c => emptied c pod pod') cs /\
    (forall n, n ∉ all_names cs -> image_of pod' n = image_of pod n).
Proof.
  revert pod ch. induction cs as [|c cs IH]; intros pod ch Hh Hall Hnd.
  { exists pod, ch. repeat split; try done; apply Hh. }
  change (all_names (c :: cs)) with (names_of c ++ all_names cs) in *. apply NoDup_app in Hnd as (_ & Hdis & Hnd).
  destruct (IsHotUpgradeContainer c) eqn:Hc.
  - destruct (flip_round c cs pod ch all Hh (Hall c ltac:(set_solver)) Hc) as (pod1 & ch1 & E & Hh1 & _ & _ & Hk & Hi & Hout).
    destruct (IH pod1 ch1 Hh1 ltac:(set_solver) Hnd) as (pod' & ch' & E' & Hh' & Hk' & He & Hout').
    exists pod', ch'. rewrite E. split; [done|]. split; [done|]. split; [by rewrite Hk'|].
    destruct (working_in c pod Hc) as [Hw Hx]. pose proof (working_ne_idle c pod) as Hne.
    assert (Hsame : forall d, working d pod1 = working d pod /\ idle d pod1 = idle d pod).
    { intros d. unfold working, idle. by rewrite (hot_containers_ext _ pod pod1 Hk). }
    split.
    + apply Forall_cons. split.
      * intros _. unfold working, idle. rewrite (hot_containers_ext _ pod pod'); [|by rewrite Hk']. fold (working c pod) (idle c pod).
        repeat split; [rewrite (Hout' (working c pod)) by (by apply Hdis); by apply Hout|]. by rewrite (Hout' (idle c pod)) by (by apply Hdis).
      * rewrite Forall_forall in He |- *. intros d Hd Hdh. destruct (Hsame d) as [W I].
        destruct (He d Hd Hdh) as (E1 & E2 & E3 & E4). rewrite W, I in *. repeat split; try done.
        rewrite E3. apply Hout. intros Heq. apply (Hdis (idle c pod)); [done|]. rewrite <-Heq.
        eapply all_names_in; [exact Hd|]. by apply working_in.
    + intros n Hn. rewrite Hout' by set_solver. apply Hout. set_solver.
  - destruct (IH pod ch Hh ltac:(set_solver) Hnd) as (pod' & ch' & E' & Hh' & Hk' & He & Hout').
    exists pod', ch'. cbn [flip_containers]. rewrite Hc. split; [done|]. split; [done|]. split; [done|]. split.
    + apply Forall_cons. split; [|done]. intros Hx. congruence.
    + intros n Hn. apply Hout'. set_solver.
Qed.

Lemma emptied_same c pod pod' pod'' : emptied c pod pod' -> same_hot pod' pod'' -> emptied c pod pod''.
Proof.
  intros He Hs Hh. destruct (He Hh) as (E1 & E2 & E3 & E4). rewrite !(same_hot_image _ _ _ Hs).
  unfold working, idle in *. by rewrite (hot_containers_ext _ _ _ (proj2 (proj2 Hs))).
Qed.
Lemma flip_total now set pod : holds_sidecars (sd_Containers set) pod -> NoDup (all_names (sd_Containers set)) ->
  exists pod', flipPodSidecarContainerDo now set pod = Value pod' /\ holds_sidecars (sd_Containers set) pod' /\
    Forall (fun c => emptied c pod pod') (sd_Containers set).
Proof.
  intros Hh Hnd. unfold flipPodSidecarContainerDo.
  destruct (flip_containers_spec _ (sd_Containers set) pod [] Hh ltac:(done) Hnd) as (pod1 & ch & -> & Hh1 & _ & He & _).
  destruct (update_state_total now set ch pod1) as (pod' & E & Hs & Ha & _); [apply Hh1|]. exists pod'. split; [done|].
  split; [by eapply same_hot_holds|]. eapply Forall_impl; [exact He|]. intros c Hc. exact (emptied_same _ _ _ _ Hc Hs).
Qed.
Lemma emptied_serving c pod pod' : emptied c pod pod' -> serving c pod -> serving c pod'.
Proof. intros He Hs Hh. destruct (He Hh) as (-> & _ & -> & _). by apply Hs. Qed.

(** ** Versions of a set, and the steps of a pod *)

Definition same_sidecar (c d : SidecarContainer) : Prop :=
  sc_Name c = sc_Name d /\ sc_UpgradeType c = sc_UpgradeType d /\ sc_HotUpgradeEmptyImage c = sc_HotUpgradeEmptyImage d.
(** The sidecars of two versions differ in their images and other fields, and no image of a
    hot one is the empty one. *)
Definition version (cs : list SidecarContainer) (set : SidecarSet) : Prop :=
  Forall2 same_sidecar cs (sd_Containers set) /\ Forall (fun c => IsHotUpgradeContainer c = true -> sc_Image c <> sc_HotUpgradeEmptyImage c) (sd_Containers set).

Lemma same_sidecar_names c d : same_sidecar c d -> names_of c = names_of d /\ IsHotUpgradeContainer c = IsHotUpgradeContainer d.
Proof. intros (N & T & _). unfold names_of, IsHotUpgradeContainer. by rewrite T, N. Qed.
Lemma same_serving c d pod : same_sidecar c d -> serving c pod <-> serving d pod.
Proof.
  intros Hs. destruct (same_sidecar_names c d Hs) as [_ Hh]. destruct Hs as (N & _ & I). unfold serving, working. by rewrite Hh, N, I.
Qed.
Lemma same_all_names cs ds : Forall2 same_sidecar cs ds -> all_names cs = all_names ds.
Proof.
  intros Hf. unfold all_names. f_equal. induction Hf as [|c d cs ds Hs _ IH]; [done|]. simpl. by rewrite IH, (proj1 (same_sidecar_names c d Hs)).
Qed.
Lemma same_Forall (P : SidecarContainer -> Prop) cs ds : (forall c d, same_sidecar c d -> P c -> P d) -> Forall2 same_sidecar cs ds ->
  Forall P cs -> Forall P ds.
Proof. intros HP Hf. induction Hf as [|c d cs ds Hs _ IH]; [done|]. intros [Hc Hr]%Forall_cons. apply Forall_cons. eauto. Qed.
Lemma same_sidecar_sym c d : same_sidecar c d -> same_sidecar d c.
Proof. intros (? & ? & ?). done. Qed.
Lemma same_sidecars_sym cs ds : Forall2 same_sidecar cs ds -> Forall2 same_sidecar ds cs.
Proof. intros Hf. induction Hf; constructor; [by apply same_sidecar_sym|done]. Qed.
Lemma same_holds cs ds pod : Forall2 same_sidecar cs ds -> holds_sidecars cs pod -> holds_sidecars ds pod.
Proof.
  intros Hf (Hd & Hs & Ha). split; [done|]. split; [|done]. eapply same_Forall; [|exact Hf|exact Hs].
  intros c d Hc. unfold has_sidecar. by rewrite (proj1 (same_sidecar_names c d Hc)).
Qed.
Lemma same_emptied c d pod pod' : same_sidecar c d -> emptied c pod pod' -> emptied d pod pod'.
Proof.
  intros Hs. destruct (same_sidecar_names c d Hs) as [_ Hh]. destruct Hs as (N & _ & I). unfold emptied, working, idle.
  by rewrite Hh, N, I.
Qed.

Inductive pod_step (cs : list SidecarContainer) (pod : Pod) : Pod -> Prop :=
| step_upgrade now set pod' : version cs set ->
    updatePodSidecarContainer ParseImage isQualifiedName now set pod = Value pod' -> pod_step cs pod pod'
| step_flip now set pod' : version cs set -> hot_upgraded ParseImage set pod = true ->
    flipPodSidecarContainerDo now set pod = Value pod' -> pod_step cs pod pod'
| step_other pod' : same_hot pod pod' -> p_annotations pod' <> ∅ -> pod_step cs pod pod'.

Lemma upgrade_keeps_serving cs now set pod pod' : NoDup (all_names cs) -> holds_sidecars cs pod -> Forall (fun c => serving c pod) cs ->
  version cs set -> updatePodSidecarContainer ParseImage isQualifiedName now set pod = Value pod' ->
  holds_sidecars cs pod' /\ Forall (fun c => serving c pod') cs.
Proof.
  intros Hnd Hh Hs [Hv Hi] E.
  pose proof (same_sidecars_sym _ _ Hv) as Hv'.
  destruct (upgrade_whole set
      (fun c p => serving c p /\ (IsHotUpgradeContainer c = true -> sc_Image c <> sc_HotUpgradeEmptyImage c)) serving) with (now := now) (pod := pod)
    as (pod1 & E1 & Hh1 & _ & Hs1 & _).
  - intros d a b F [Hd Hx]. split; [by eapply frame_serving|done].
  - apply frame_serving.
  - intros c a b _ _ [Hc Hx]. by apply round_serving.
  - by rewrite <-(same_all_names _ _ Hv).
  - by eapply same_holds.
  - apply Forall_and. split; [|done]. eapply same_Forall; [|exact Hv|exact Hs]. intros c d Hc. exact (proj1 (same_serving c d _ Hc)).
  - rewrite E1 in E. injection E as <-. split; [by eapply same_holds|].
    eapply same_Forall; [|exact Hv'|exact Hs1]. intros c d Hc. exact (proj1 (same_serving c d _ Hc)).
Qed.
Lemma flip_keeps_serving cs now set pod pod' : NoDup (all_names cs) -> holds_sidecars cs pod ->
  version cs set -> flipPodSidecarContainerDo now set pod = Value pod' ->
  holds_sidecars cs pod' /\ Forall (fun c => emptied c pod pod') cs.
Proof.
  intros Hnd Hh [Hv Hi] E.
  pose proof (same_sidecars_sym _ _ Hv) as Hv'.
  destruct (flip_total now set pod) as (pod1 & E1 & Hh1 & He1); [by eapply same_holds|by rewrite <-(same_all_names _ _ Hv)|].
  rewrite E1 in E. injection E as <-. split; [by eapply same_holds|].
  eapply same_Forall; [|exact Hv'|exact He1]. intros c d Hc. by apply same_emptied.
Qed.

(** C10: Through any sequence of in-place upgrades to whatever versions of the set, flips after hot
    upgrades and changes by others, the container at work of every sidecar with hot upgrades keeps an
    image that is not the empty one; and a flip of a pod so reached leaves the container at work and
    its image alone and empties the other one. *)
Theorem hot_upgrade_serving cs pod0 pod (Hn : NoDup (all_names cs)) (Hh : holds_sidecars cs pod0)
  (Hs : Forall (fun c => serving c pod0) cs) (Hr : rtc (pod_step cs) pod0 pod) :
  Forall (fun c => serving c pod) cs /\
  forall now set pod', version cs set -> flipPodSidecarContainerDo now set pod = Value pod' -> Forall (fun c => emptied c pod pod') cs.
Proof.
  assert (holds_sidecars cs pod /\ Forall (fun c => serving c pod) cs) as [Hh' Hs'].
  { induction Hr as [pod|pod0 pod1 pod Hstep _ IH]; [done|]. apply IH; clear IH; destruct Hstep as [now set pod' Hv E|now set pod' Hv _ E|pod' Hsame Ha].
    - by eapply upgrade_keeps_serving.
    - by eapply flip_keeps_serving.
    - by eapply same_hot_holds.
    - by eapply upgrade_keeps_serving.
    - destruct (flip_keeps_serving cs now set pod0 pod' Hn Hh Hv E) as [_ He].
      rewrite Forall_forall in He, Hs |- *. intros c Hc. eapply emptied_serving; eauto.
    - eapply Forall_impl; [exact Hs|]. intros c. apply frame_serving. by apply same_hot_frame. }
  split; [done|]. intros now set pod' Hv E. by eapply flip_keeps_serving.
Qed.

(** No sidecar is amid a hot upgrade. *)
Lemma not_in_hot_upgrading set pod : holds_sidecars (sd_Containers set) pod -> Forall (fun c => serving c pod) (sd_Containers set) ->
  isPodSidecarInHotUpgrading set pod = false -> Forall (fun c => settled c pod) (sd_Containers set).
Proof.
  intros (Hd & Hs & _) Hv Hi. rewrite Forall_forall in Hs, Hv |- *. intros c Hc Hh. split; [|by apply Hv].
  unfold isPodSidecarInHotUpgrading in Hi. apply not_true_iff_false in Hi. destruct (decide (image_of pod (idle c pod) = Some (sc_HotUpgradeEmptyImage c)))
    as [E|E]; [done|]. destruct Hi. apply existsb_exists. exists c. split; [by apply list_elem_of_In|]. rewrite Hh. simpl.
  apply negb_true_iff, String.eqb_neq. intros Hx. apply E. fold (idle c pod) in Hx.
  pose proof (proj2 (working_in c pod Hh)) as Hin. apply (proj1 (Forall_forall _ _) (Hs c Hc)) in Hin.
  apply named_in in Hin as [x Hn]. unfold image_of. rewrite Hn. simpl. f_equal. rewrite <-Hx.
  unfold lbl, container_images. by rewrite named_fold, Hn by by apply names_NoDup.
Qed.

(** C12: The in-place upgrade of a pod that has the sidecars, and is not amid a hot upgrade, does
    not panic: every sidecar ends with the image of the set, a hot one in the container that is then
    at work; no other container changes; and the pod counts as updated, under the latest revision. *)
Theorem sidecar_upgrade_complete now set pod (Hn : NoDup (all_names (sd_Containers set))) (Hh : holds_sidecars (sd_Containers set) pod)
  (Hs : Forall (fun c => serving c pod) (sd_Containers set)) (Hi : isPodSidecarInHotUpgrading set pod = false) :
  exists pod', updatePodSidecarContainer ParseImage isQualifiedName now set pod = Value pod' /\
    Forall (fun c => runs_image c pod') (sd_Containers set) /\
    container_names pod' = container_names pod /\
    (forall n, n ∉ all_names (sd_Containers set) -> image_of pod' n = image_of pod n) /\
    IsPodSidecarUpdated set pod' = true /\
    GetPodSidecarSetControllerRevision (sd_name set) pod' = sst_LatestRevision (sd_status set).
Proof.
  destruct (upgrade_whole set settled runs_image frame_settled frame_runs (round_settled set) now pod Hn Hh)
    as (pod' & E & _ & Hc & Hr & Ho & Hu & Hl); [by apply not_in_hot_upgrading|]. by exists pod'.
Qed.

(** The container is ready with the image of its spec. *)
Definition hot_ready (set : SidecarSet) (pod : Pod) (n : string) : bool :=
  existing_ready pod n && IsPodStateConsistent ParseImage set pod {[n]}.

Lemma find_hot_ready set c pod : distinct_names pod -> IsHotUpgradeContainer c = true -> has_sidecar pod c ->
  image_of pod (idle c pod) <> Some (sc_HotUpgradeEmptyImage c) -> image_of pod (working c pod) <> Some (sc_HotUpgradeEmptyImage c) ->
  hot_ready set pod (idle c pod) = true -> hot_ready set pod (working c pod) = false ->
  findContainerToHotUpgrade ParseImage set c pod = (working c pod, idle c pod).
Proof.
  intros Hd Hh Hn Hi Hw Ri Rw. unfold has_sidecar, names_of in Hn. rewrite Hh in Hn. apply Forall_cons in Hn as [Ha Hn]. apply Forall_cons in Hn as [Hb _].
  apply named_in in Ha as [c1 E1]. apply named_in in Hb as [c2 E2].
  pose proof (named_Some _ _ _ E1) as [_ N1]. pose proof (named_Some _ _ _ E2) as [_ N2].
  unfold findContainerToHotUpgrade. simpl in *. rewrite !containers_in_pod_named, E1, E2 by done. simpl. rewrite N1, N2.
  fold (hot_ready set pod (sc_Name c +:+ "-1")) (hot_ready set pod (sc_Name c +:+ "-2")).
  unfold image_of in *. destruct (working_idle c pod) as [[W I]|[W I]]; simpl in W, I; rewrite W in Hw, Rw; rewrite I in Hi, Ri; rewrite W, I.
  - rewrite E1 in Hw. rewrite E2 in Hi. simpl in *. rewrite (proj2 (String.eqb_neq (ctr_image c1) _)), (proj2 (String.eqb_neq (ctr_image c2) _)) by congruence.
    by rewrite Ri, Rw.
  - rewrite E1 in Hi. rewrite E2 in Hw. simpl in *. rewrite (proj2 (String.eqb_neq (ctr_image c1) _)), (proj2 (String.eqb_neq (ctr_image c2) _)) by congruence.
    by rewrite Ri, Rw.
Qed.

(** C13: A rollback amid a hot upgrade is lost.  When the new container is at work and not ready,
    the older one is ready and the set returns to the image of the older one, the upgrade changes no
    container, leaves the new container at work with an image that is not that of the set, and marks
    the pod as updated. *)
Theorem hot_rollback_lost now set c pod (Hc : sd_Containers set = [c]) (Hh : IsHotUpgradeContainer c = true)
  (Hp : holds_sidecars [c] pod) (He : sc_Image c <> sc_HotUpgradeEmptyImage c)
  (Hi : image_of pod (idle c pod) = Some (sc_Image c)) (Hw : image_of pod (working c pod) <> Some (sc_HotUpgradeEmptyImage c))
  (Hne : image_of pod (working c pod) <> Some (sc_Image c))
  (Ri : hot_ready set pod (idle c pod) = true) (Rw : hot_ready set pod (working c pod) = false) :
  exists pod', updatePodSidecarContainer ParseImage isQualifiedName now set pod = Value pod' /\
    p_containers pod' = p_containers pod /\ working c pod' = working c pod /\
    image_of pod' (working c pod') <> Some (sc_Image c) /\ IsPodSidecarUpdated set pod' = true.
Proof.
  destruct Hp as (Hd & Hs & Ha). rewrite Forall_singleton in Hs.
  pose proof (upgrade_containers_cons set c [] pod [] Hd Hs Ha) as Hu. unfold target in Hu. rewrite Hh in Hu.
  rewrite find_hot_ready, bool_decide_eq_true_2 in Hu; try done; [|congruence].
  unfold updatePodSidecarContainer. rewrite Hc, Hu. simpl.
  destruct (update_hash_total now set pod Ha) as (pod2 & E2 & S2 & Ha2 & m & Hm & Hspec). rewrite E2.
  destruct (update_state_total now set [] pod2 Ha2) as (pod3 & E3 & S3 & Ha3 & Hash). rewrite E3.
  pose proof (same_hot_trans _ _ _ S2 S3) as S13. exists pod3. rewrite <-Hash in Hm.
  split; [done|]. split; [apply S13|].
  assert (W : working c pod3 = working c pod) by (unfold working; by rewrite (hot_containers_ext _ _ _ (proj2 (proj2 S13)))).
  split; [done|]. rewrite W, (same_hot_image _ _ _ S13). split; [done|].
  unfold IsPodSidecarUpdated, GetPodSidecarSetRevision. rewrite (upgrade_spec_read _ _ _ _ Hm Hspec). simpl. apply String.eqb_refl.
Qed.
End Upgrade.

(** ** An encoding of countable values, in place of JSON *)

Fixpoint pos_text (p : positive) : string :=
  match p with
  | xI p => String "1" (pos_text p)
  | xO p => String "0" (pos_text p)
  | xH => ""
  end.
Fixpoint text_pos (s : string) : positive :=
  match s with
  | "" => xH
  | String c s => if Ascii.eqb c "1" then xI (text_pos s) else xO (text_pos s)
  end.
Lemma pos_of_text p : text_pos (pos_text p) = p.
Proof. induction p as [p IH|p IH|]; simpl; by rewrite ?IH. Qed.

#[local] Instance ex_json (A : Type) `{Countable A} : JsonInto A := {|
  Decode := fun s a => match s with
                       | String _ s => match decode (text_pos s) with Some x => (None, x) | None => (Some "invalid", a) end
                       | "" => (Some "unexpected end", a)
                       end%string;
  Encode := fun a => String "{" (pos_text (encode a));
|}.
#[local] Instance ex_json_laws (A : Type) `{Countable A} `{Empty A} : JsonLaws A.
Proof. split; [|done]. intros a. simpl. by rewrite pos_of_text, decode_encode. Qed.

#[local] Instance spec_eq_dec : EqDecision SidecarSetUpgradeSpec.
Proof. solve_decision. Defined.
#[local] Instance spec_countable : Countable SidecarSetUpgradeSpec.
Proof.
  apply (inj_countable' (fun s => (up_UpdateTimestamp s, up_SidecarSetHash s, up_SidecarSetName s, up_SidecarList s, up_ControllerRevision s))
           (fun '(a, b, c, d, e) => mkUpgradeSpec a b c d e)).
  by intros [].
Defined.
#[local] Instance ex_states : JsonInto (gmap string InPlaceUpdateState) := {|
  Decode := fun _ a => (None, a); Encode := fun _ => "{}"%string;
|}.

(** A pod with an application and the two containers of a mesh; the first one is at work. *)
Definition ex_container (name image : string) : Container := mkContainer name image [] [].
Definition ex_sidecar (image : string) : SidecarContainer := mkSidecar (ex_container "mesh" image) "" SidecarContainerHotUpgrade "empty" "" [].
Definition ex_set (image hash : string) : SidecarSet :=
  mkSidecarSet "set" "uid" "7" 1 ∅ {[SidecarSetHashAnnotation := hash]} None "" None [] [ex_sidecar image] [] "" false None
    (mkSidecarStrategy None None None None) false None [] None [] (mkSidecarStatus 1 1 0 0 0 "set-1" None).
Definition ex_status (name image : string) (ready : bool) : ContainerStatus := mkCStatus name ready 0 image image "".
Definition ex_pod (image1 image2 working : string) (ready1 ready2 : bool) : Pod :=
  mkPod "pod" "default" "pod" "" ∅ {[workingKey := Encode ({["mesh" := working]} : gmap string string)]}%string [] 0 None "" "Running" []
    [ex_status "app" "app:1" true; ex_status "mesh-1" image1 ready1; ex_status "mesh-2" image2 ready2] []
    [ex_container "app" "app:1"; ex_container "mesh-1" image1; ex_container "mesh-2" image2] [] [] "" "" [] no_placement.
Definition ex_parse (image : string) : option (string * string * string) := Some (image, "", ""%string).

Lemma ex_holds image i1 i2 w r1 r2 : holds_sidecars [ex_sidecar image] (ex_pod i1 i2 w r1 r2).
Proof.
  split; [|split].
  - change (NoDup ["app"; "mesh-1"; "mesh-2"]%string). apply NoDup_ListNoDup. repeat constructor; simpl; naive_solver.
  - apply Forall_singleton. unfold has_sidecar. change (names_of (ex_sidecar image)) with ["mesh-1"; "mesh-2"]%string.
    change (container_names _) with ["app"; "mesh-1"; "mesh-2"]%string. repeat constructor.
  - apply insert_non_empty.
Qed.
Lemma ex_all_names image : NoDup (all_names [ex_sidecar image]).
Proof. change (NoDup ["mesh-1"; "mesh-2"]%string). apply NoDup_ListNoDup. repeat constructor; simpl; naive_solver. Qed.

Lemma ex_upgraded :
  match updatePodSidecarContainer ex_parse (fun _ => true) 5 (ex_set "mesh:2" "h2") (ex_pod "mesh:1" "empty" "mesh-1" true true) with
  | Value p => image_of p "mesh-2" = Some "mesh:2"%string /\ image_of p "mesh-1" = Some "mesh:1"%string
  | Panic => False
  end.
Proof. vm_compute. split; reflexivity. Qed.

Lemma sidecar_upgrade_complete_witness :
  exists pod', updatePodSidecarContainer ex_parse (fun _ => true) 5 (ex_set "mesh:2" "h2") (ex_pod "mesh:1" "empty" "mesh-1" true true) = Value pod' /\
    image_of pod' "mesh-2" = Some "mesh:2"%string /\ image_of pod' "mesh-1" = Some "mesh:1"%string /\
    image_of pod' (working (ex_sidecar "mesh:2") pod') = Some "mesh:2"%string /\ IsPodSidecarUpdated (ex_set "mesh:2" "h2") pod' = true.
Proof.
  destruct (sidecar_upgrade_complete ex_parse (fun _ => true) 5 (ex_set "mesh:2" "h2") (ex_pod "mesh:1" "empty" "mesh-1" true true))
    as (pod' & E & Hr & _ & _ & Hu & _).
  - apply ex_all_names.
  - apply ex_holds.
  - apply Forall_singleton. intros _. vm_compute. intro; discriminate.
  - vm_compute. reflexivity.
  - exists pod'. apply Forall_inv in Hr. split; [exact E|].
    pose proof ex_upgraded as X. rewrite E in X. destruct X as [X1 X2].
    split; [exact X1|]. split; [exact X2|]. split; [exact Hr|exact Hu].
Defined.

Lemma hot_rollback_lost_witness :
  let pod := ex_pod "mesh:1" "mesh:2" "mesh-2" true false in
  exists pod', updatePodSidecarContainer ex_parse (fun _ => true) 5 (ex_set "mesh:1" "h1") pod = Value pod' /\
    p_containers pod' = p_containers pod /\ image_of pod' (working (ex_sidecar "mesh:1") pod') <> Some "mesh:1"%string /\
    IsPodSidecarUpdated (ex_set "mesh:1" "h1") pod' = true.
Proof.
  destruct (hot_rollback_lost ex_parse (fun _ => true) 5 (ex_set "mesh:1" "h1") (ex_sidecar "mesh:1") (ex_pod "mesh:1" "mesh:2" "mesh-2" true false))
    as (pod' & E & Hc & _ & Hi & Hu); try (vm_compute; reflexivity).
  - apply ex_holds.
  - vm_compute. intro; discriminate.
  - vm_compute. intro; discriminate.
  - vm_compute. intro; discriminate.
  - exists pod'. split; [exact E|]. split; [exact Hc|]. split; [exact Hi|exact Hu].
Defined.

Lemma hot_upgrade_serving_witness :
  let pod0 := ex_pod "mesh:1" "empty" "mesh-1" true true in
  exists pod, pod <> pod0 /\ pod_step ex_parse (fun _ => true) [ex_sidecar "mesh:1"] pod0 pod /\ serving (ex_sidecar "mesh:1") pod.
Proof.
  intros pod0. pose proof ex_upgraded as X.
  destruct (updatePodSidecarContainer ex_parse (fun _ => true) 5 (ex_set "mesh:2" "h2") (ex_pod "mesh:1" "empty" "mesh-1" true true)) as [|pod] eqn:E;
    [destruct X|].
  exists pod. assert (Hstep : pod_step ex_parse (fun _ => true) [ex_sidecar "mesh:1"] pod0 pod).
  { apply (step_upgrade _ _ _ _ 5 (ex_set "mesh:2" "h2")); [|exact E]. split.
    - repeat constructor.
    - apply Forall_singleton. intros _. vm_compute. intro; discriminate. }
  split; [intros ->; destruct X as [X _]; discriminate X|]. split; [exact Hstep|].
  destruct (hot_upgrade_serving ex_parse (fun _ => true) [ex_sidecar "mesh:1"] pod0 pod) as [Hs _].
  - apply ex_all_names.
  - apply ex_holds.
  - apply Forall_singleton. intros _. vm_compute. intro; discriminate.
  - apply rtc_once. exact Hstep.
  - apply Forall_inv in Hs. exact Hs.
Defined.
