(* ===== verification/SidecarSetSafety.v ===== *)
(** * SidecarSet: what a reconcile may write

    Proofs about SidecarSetReconcile.v, for every server, every answer and every state of the
    expectations: which pods [UpdateSidecarSet] writes to, under which gates and how many; what
    happens when a pod is gone from the cache; which revisions the history keeps; and that the
    search for a free name of a revision ends. *)

From S2P Require Import Prelude GoLib GoText K8s Tools Expectations Lifecycle Selector UpdateSort PodSorter CloneSetDiff.
From S2P Require Import ControllerExpectations WorkloadSpreadTypes World RevisionHistory InPlaceUpdate CloneSetUpdate SidecarSetStrategy StatefulSetUtils DaemonSet SidecarSet SidecarSetProcessor SidecarSetReconcile SidecarSetUpgrade.
From S2P Require Import K8s.
Open Scope Z_scope.
Open Scope kruise_scope.

(** A read of one pod answers with that pod. *)
Class SidecarLaws (S : Type) `{SidecarApi S} : Prop := {
  get_pod_key : forall ns name s p, GetSidecarPod ns name s = inr p -> p_namespace p = ns /\ p_name p = name;
}.

Definition pod_key (p : Pod) : string * string := (p_namespace p, p_name p).

(** ** Operations that write as told and leave the expectations alone *)
(** The answer of a read, if it did not fail. *)
Definition answer {A} (r : error + A) : option A := match r with inr x => Some x | inl _ => None end.

Section Calm.
Context {S : Type}.

Definition sends {A} (P : Event -> Prop) (m : M S A) : Prop := emits m (fun evs _ => Forall P evs).
Definition calm {A} (P : Event -> Prop) (m : M S A) : Prop := sends P m /\ forall w, w_upd (m w).1 = w_upd w.

(** What an operation answers. *)
Definition yields {A} (Q : A -> Prop) (m : M S A) : Prop := forall w, Q (m w).2.
Lemma yields_bind {A B} (Q : B -> Prop) (m : M S A) (k : A -> M S B) : (forall a, yields Q (k a)) -> yields Q (bind m k).
Proof. intros Hk w. unfold bind. destruct (m w) as [w1 a]. apply Hk. Qed.

Lemma sends_ret {A} P (a : A) : sends P (ret a).
Proof. by apply emits_ret. Qed.
Lemma sends_bind {A B} P (m : M S A) (k : A -> M S B) : sends P m -> (forall a, sends P (k a)) -> sends P (bind m k).
Proof.
  intros Hm Hk. eapply emits_bind; [exact Hm|]. intros evs a Hevs. eapply emits_mono; [apply Hk|]. intros evs' b Hevs'. by apply Forall_app.
Qed.
Lemma sends_mono {A} (P Q : Event -> Prop) (m : M S A) : (forall ev, P ev -> Q ev) -> sends P m -> sends Q m.
Proof. intros HPQ Hm. eapply emits_mono; [exact Hm|]. intros evs a Hevs. eapply Forall_impl; [exact Hevs|]. auto. Qed.
Lemma sends_call {A} P (f : S -> S * A) ev : (forall a, Forall P (ev a)) -> sends P (call f ev).
Proof. intros Hev. by apply emits_call. Qed.
Lemma sends_read {A} P (f : S -> A) : sends P (read f).
Proof. by apply sends_call. Qed.
Lemma sends_updates P f : sends P (on_updates (S := S) f).
Proof. by apply emits_silent. Qed.

Lemma calm_ret {A} P (a : A) : calm P (ret a).
Proof. split; [apply sends_ret|done]. Qed.
Lemma calm_bind {A B} P (m : M S A) (k : A -> M S B) : calm P m -> (forall a, calm P (k a)) -> calm P (bind m k).
Proof.
  intros [Hm Um] Hk. split; [apply sends_bind; [done|]; intros a; apply Hk|].
  intros w. unfold bind. specialize (Um w). destruct (m w) as [w1 a]. simpl in Um. rewrite <-Um. apply Hk.
Qed.
Lemma calm_call {A} P (f : S -> S * A) ev : (forall a, Forall P (ev a)) -> calm P (call f ev).
Proof. intros Hev. split; [by apply sends_call|]. intros w. unfold call. by destruct (f (w_server w)). Qed.
Lemma calm_read {A} P (f : S -> A) : calm P (read f).
Proof. by apply calm_call. Qed.
Lemma calm_retry `{ApiErrors} {A} P steps (fn : A -> M S (option error * A)) a :
  (forall a, calm P (fn a)) -> calm P (RetryOnConflict steps fn a).
Proof.
  intros Hfn. revert a. induction steps as [|steps IH]; intros a; simpl; [apply calm_ret|].
  apply calm_bind; [apply Hfn|]. intros [[err|] a']; [|apply calm_ret].
  destruct (IsConflict err); [|apply calm_ret]. destruct steps; [apply calm_ret|apply IH].
Qed.

(** The tries of a function that keeps an invariant of what it mutates. *)
Lemma sends_retry_panics `{ApiErrors} {A} (I : A -> Prop) P steps (fn : A -> M S (Outcome (option error * A))) a :
  (forall a, I a -> emits (fn a) (fun evs r => Forall P evs /\ match r with Value (_, a') => I a' | Panic => True end)) ->
  I a -> sends P (RetryPanics steps fn a).
Proof.
  intros Hfn. revert a. induction steps as [|steps IH]; intros a Ha; cbn [RetryPanics]; [apply sends_ret|].
  eapply emits_bind; [by apply Hfn|]. intros evs [|[[err|] a']] [Hevs Ha'].
  - apply emits_ret. by rewrite app_nil_r.
  - destruct (IsConflict err); [|apply emits_ret; by rewrite app_nil_r].
    destruct steps; [apply emits_ret; by rewrite app_nil_r|]. eapply emits_mono; [by apply IH|]. intros evs' b Hevs'. by apply Forall_app.
  - apply emits_ret. by rewrite app_nil_r.
Qed.
Lemma sends_each P (f : Pod -> M S (Outcome (option error))) pods : (forall p, p ∈ pods -> sends P (f p)) -> sends P (each_pod f pods).
Proof.
  induction pods as [|p pods IH]; intros Hf; cbn [each_pod]; [apply sends_ret|]. apply sends_bind; [apply Hf; set_solver|].
  intros [|[err|]]; [apply sends_ret..|]. apply IH. intros q Hq. apply Hf. set_solver.
Qed.
End Calm.
Create HintDb sidecar.
#[export] Hint Resolve sends_ret sends_read sends_updates calm_ret calm_read : sidecar.

(** ** Pods keep their names *)

Lemma annotate_key kvs pod pod' : annotate kvs pod = Value pod' -> pod_key pod' = pod_key pod.
Proof. unfold annotate. case_bool_decide; [done|]. by intros [= <-]. Qed.

Section Keys.
Context `{JsonInto (gmap string SidecarSetUpgradeSpec)} `{JsonInto (gmap string string)} `{JsonInto (gmap string InPlaceUpdateState)}.
Context (ParseImage : string -> option (string * string * string)) (isQualifiedName : string -> bool).

(** A step of the containers keeps the name, and the absence of annotations. *)
Definition tame (pod pod' : Pod) : Prop := pod_key pod' = pod_key pod /\ (p_annotations pod = ∅ -> p_annotations pod' = ∅).
Lemma tame_trans a b c : tame a b -> tame b c -> tame a c.
Proof. intros [E1 A1] [E2 A2]. split; [by rewrite E2|auto]. Qed.
Lemma annotate_tame kvs pod pod' : annotate kvs pod = Value pod' -> tame pod pod'.
Proof. intros E. split; [by eapply annotate_key|]. unfold annotate in E. intros Ha. by rewrite bool_decide_eq_true_2 in E. Qed.

Lemma upgrade_sidecar_tame set c pod r pod' : UpgradeSidecarContainer ParseImage set c pod = Value (r, pod') -> tame pod pod'.
Proof.
  unfold UpgradeSidecarContainer. destruct (if IsHotUpgradeContainer c then _ else _) as [t o].
  destruct (GetContainer o pod) as [old|]; [|done]. destruct (String.eqb _ _); [by intros [= _ <-]|].
  destruct (GetContainer t pod); [|done]. intros [= _ <-]. unfold set_container_image. by destruct (existsb _ _).
Qed.
Lemma upgrade_containers_tame set cs pod ch pod' ch' :
  upgrade_containers ParseImage isQualifiedName set cs pod ch = Value (pod', ch') -> tame pod pod'.
Proof.
  revert pod ch. induction cs as [|c cs IH]; intros pod ch; cbn [upgrade_containers]; [by intros [= <- _]|].
  destruct (UpgradeSidecarContainer _ _ _ _) as [|[[new|] pod1]] eqn:E; [done| |].
  - apply upgrade_sidecar_tame in E. assert (E' : tame pod (updateContainerInPod new pod1)) by exact E.
    destruct (IsHotUpgradeContainer _); [|intros Hr; eapply tame_trans; [exact E'|by eapply IH]].
    destruct (annotate _ _) as [|pod2] eqn:Ea; [done|]. intros Hr. eapply tame_trans; [exact E'|].
    eapply tame_trans; [by eapply annotate_tame|by eapply IH].
  - apply upgrade_sidecar_tame in E. intros Hr. eapply tame_trans; [exact E|by eapply IH].
Qed.
Lemma update_state_key now set ch pod pod' : UpdatePodAnnotationsInUpgrade now set ch pod = Value pod' -> pod_key pod' = pod_key pod.
Proof. apply annotate_key. Qed.
Lemma update_hash_tame now set pod pod' : UpdatePodSidecarSetHash now pod set = Value pod' ->
  pod_key pod' = pod_key pod /\ p_annotations pod <> ∅.
Proof.
  unfold UpdatePodSidecarSetHash. destruct (hash_annotations now set pod) as [compat m]. intros E. split; [by eapply annotate_key|].
  intros Ha. unfold annotate in E. by rewrite bool_decide_eq_true_2 in E.
Qed.
Lemma update_sidecar_key now set pod pod' : updatePodSidecarContainer ParseImage isQualifiedName now set pod = Value pod' ->
  pod_key pod' = pod_key pod.
Proof.
  unfold updatePodSidecarContainer. destruct (upgrade_containers _ _ _ _ _ _) as [|[pod1 ch]] eqn:E1; [done|].
  destruct (UpdatePodSidecarSetHash _ _ _) as [|pod2] eqn:E2; [done|]. intros E3.
  apply upgrade_containers_tame in E1 as [K1 _]. apply update_hash_tame in E2 as [K2 _]. apply update_state_key in E3. congruence.
Qed.

(** A pod without annotations cannot be upgraded. *)
Lemma update_sidecar_bare now set pod : p_annotations pod = ∅ -> updatePodSidecarContainer ParseImage isQualifiedName now set pod = Panic.
Proof.
  intros Ha. unfold updatePodSidecarContainer. destruct (upgrade_containers _ _ _ _ _ _) as [|[pod1 ch]] eqn:E1; [done|].
  apply upgrade_containers_tame in E1 as [_ A1]. destruct (UpdatePodSidecarSetHash _ _ _) as [|pod2] eqn:E2; [done|].
  apply update_hash_tame in E2 as [_ Hx]. by destruct Hx; auto.
Qed.

Lemma flip_containers_key cs pod ch pod' ch' : flip_containers cs pod ch = Value (pod', ch') -> pod_key pod' = pod_key pod.
Proof.
  revert pod ch. induction cs as [|c cs IH]; intros pod ch; cbn [flip_containers]; [by intros [= <- _]|].
  destruct (IsHotUpgradeContainer c); [|by apply IH]. destruct (GetPodHotUpgradeContainers _ _) as [work empty].
  destruct (containers_in_pod pod !! empty) as [x|]; [|done]. destruct (String.eqb _ _); [by apply IH|].
  destruct (annotate _ _) as [|pod1] eqn:Ea; [done|]. intros Hr. apply IH in Hr. rewrite Hr. by apply annotate_key in Ea.
Qed.
Lemma flip_key now set pod pod' : flipPodSidecarContainerDo now set pod = Value pod' -> pod_key pod' = pod_key pod.
Proof.
  unfold flipPodSidecarContainerDo. destruct (flip_containers _ _ _) as [|[pod1 ch]] eqn:E; [done|].
  apply flip_containers_key in E. intros E'. apply update_state_key in E'. congruence.
Qed.
End Keys.

(** ** Events *)

(** Writes to the spec or the status of one of some pods. *)
Definition spec_of (Q : Pod -> Prop) (ev : Event) : Prop :=
  match ev with EvUpdatePod p _ => exists q, Q q /\ pod_key p = pod_key q | _ => False end.
Definition status_of (Q : Pod -> Prop) (ev : Event) : Prop :=
  match ev with EvUpdatePodStatus p _ => exists q, Q q /\ pod_key p = pod_key q | _ => False end.
(** Writes to revisions and to the status of the set. *)
Definition own_write (ev : Event) : Prop :=
  match ev with
  | EvCreateRevision _ _ | EvUpdateRevision _ _ _ | EvDeleteRevision _ _ | EvPatchRevision _ _ _ | EvUpdateStatus _ => True
  | _ => False
  end.

Section Writes.
Context {S : Type} `{SidecarApi S} `{!SidecarLaws S} `{RevisionApi S} `{ApiErrors} `{GoSort}.
Context `{JsonInto (gmap string SidecarSetUpgradeSpec)} `{JsonInto (gmap string string)} `{JsonInto (gmap string InPlaceUpdateState)}
        `{JsonInto (gmap string bool)}.
Context (ParseImage : string -> option (string * string * string)) (isQualifiedName : string -> bool)
        (MergePatch : string -> string -> error + string).
Context (getPatch : SidecarSet -> error + string) (HashRevision : string -> Z -> string).
Context (selectorError : error) (limitError : Z -> Z -> error).
Context (now : Z) (fuel : nat).

(** *** Pods *)

Lemma condition_sends (Q : Pod -> Prop) set pod b : Q pod -> sends (status_of Q) (updatePodSidecarSetUpgradableCondition (S := S) now set pod b).
Proof.
  intros HQ. unfold updatePodSidecarSetUpgradableCondition. destruct (upgradable_condition _ _ _) as [err|c]; auto with sidecar.
  destruct (changed_condition _ _ _) as [c'|]; auto with sidecar. apply sends_call. intros e. apply Forall_singleton. by exists pod.
Qed.
Lemma matched_names_sends P pod sets : sends P (matched_names (S := S) selectorError pod sets).
Proof.
  induction sets as [|set sets IH]; cbn [matched_names]; auto with sidecar. apply sends_bind.
  - unfold PodMatchedSidecarSet. destruct (_ && _); auto with sidecar. apply sends_bind.
    + destruct (sd_NamespaceSelector set); auto with sidecar. unfold IsSelectorNamespace. destruct (negb _); auto with sidecar.
      apply sends_bind; auto with sidecar. intros []; auto with sidecar.
    + intros b. destruct (negb b); auto with sidecar. destruct (selector_matches _ _); auto with sidecar.
  - intros r. apply sends_bind; [exact IH|]. auto with sidecar.
Qed.
Lemma list_matched_sends P pod : sends P (listMatchedSidecarSets (S := S) selectorError pod).
Proof.
  unfold listMatchedSidecarSets. apply sends_bind; auto with sidecar. intros [err|sets]; auto with sidecar.
  apply sends_bind; [apply matched_names_sends|]. auto with sidecar.
Qed.
Lemma read_pod_emits ns name : emits (S := S) (read (GetSidecarPod ns name))
  (fun evs r => evs = [] /\ match r with inr p => pod_key p = (ns, name) | inl _ => True end).
Proof.
  intros w. exists []. unfold read, call. simpl. rewrite app_nil_r. split; [done|]. split; [done|].
  destruct (GetSidecarPod ns name (w_server w)) as [err|p] eqn:E; [done|]. apply get_pod_key in E as [<- <-]. done.
Qed.

(** A clone that is not the zero value has the name of the pod. *)
Definition clone_of (pod clone : Pod) : Prop := p_annotations clone = ∅ \/ pod_key clone = pod_key pod.
Lemma upgrade_try_emits (Q : Pod -> Prop) set pod clone : Q pod -> clone_of pod clone ->
  emits (upgrade_try (S := S) ParseImage isQualifiedName MergePatch selectorError now set pod clone)
    (fun evs r => Forall (spec_of Q) evs /\ match r with Value (_, a') => clone_of pod a' | Panic => True end).
Proof.
  intros HQ Hc. unfold upgrade_try. eapply emits_bind; [apply read_pod_emits|]. intros evs g [-> Hg]. simpl.
  set (c0 := match g with inl _ => clone | inr fresh => fresh end).
  assert (Hc0 : clone_of pod c0) by (destruct g; [done|by right]). clearbody c0.
  destruct (updatePodSidecarContainer _ _ _ _ _) as [|c1] eqn:E1; [by apply emits_ret|].
  assert (K1 : pod_key c1 = pod_key pod).
  { destruct Hc0 as [Ha|Hk]; [by rewrite update_sidecar_bare in E1|]. apply update_sidecar_key in E1. congruence. }
  eapply emits_bind with (P := fun evs r => evs = [] /\ match r with Value c2 => pod_key c2 = pod_key pod | Panic => True end).
  { destruct (String.eqb _ _); [|by apply emits_ret].
    eapply emits_bind; [apply (list_matched_sends (fun _ => False))|]. intros evs names Hevs.
    destruct evs as [|ev evs]; [|by apply Forall_cons in Hevs as [[] _]]. apply emits_ret. split; [done|].
    destruct (annotate _ c1) as [|c2] eqn:E2; [done|]. apply annotate_key in E2. congruence. }
  intros evs [|c2] [-> K2]; [by apply emits_ret|].
  destruct (PatchPodMetadata _ _ _) as [[annotations skip] err]. simpl. destruct err as [e|].
  { apply emits_ret. split; [done|]. by right. }
  eapply emits_bind with (P := fun evs r => Forall (spec_of Q) evs).
  { apply emits_call. intros r. apply Forall_singleton. exists pod. auto. }
  intros evs r Hevs. apply emits_ret. rewrite app_nil_r. split; [done|]. by right.
Qed.
Lemma upgrade_pod_sends (Q : Pod -> Prop) set pod : Q pod ->
  sends (fun ev => spec_of Q ev \/ status_of Q ev) (upgrade_pod (S := S) ParseImage isQualifiedName MergePatch selectorError now set pod).
Proof.
  intros HQ. unfold upgrade_pod. apply sends_bind.
  - unfold updatePodSidecarAndHash. apply sends_bind.
    + eapply sends_mono; [|apply (sends_retry_panics (clone_of pod) (spec_of Q))]; [auto| |by left].
      intros clone Hc. by apply upgrade_try_emits.
    + intros [|[err|]]; auto with sidecar. apply sends_bind; auto with sidecar.
      eapply sends_mono; [|by apply (condition_sends Q)]. auto.
  - intros [|[err|]]; auto with sidecar. apply sends_bind; [apply sends_updates|auto with sidecar].
Qed.
Lemma flip_pod_sends (Q : Pod -> Prop) set pod : Q pod -> sends (spec_of Q) (flipPodSidecarContainer (S := S) now set pod).
Proof.
  intros HQ. unfold flipPodSidecarContainer. apply (sends_retry_panics (fun clone => pod_key clone = pod_key pod)); [|done].
  intros clone Hk. unfold flip_try. destruct (flipPodSidecarContainerDo now set clone) as [|c1] eqn:E1; [by apply emits_ret|].
  assert (K1 : pod_key c1 = pod_key pod) by (apply flip_key in E1; congruence).
  eapply emits_bind with (P := fun evs r => Forall (spec_of Q) evs).
  { apply emits_call. intros r. apply Forall_singleton. by exists pod. }
  intros evs [err|p] Hevs; [|apply emits_ret; by rewrite app_nil_r].
  eapply emits_bind; [apply read_pod_emits|]. intros evs' g [-> Hg]. apply emits_ret. rewrite !app_nil_r. split; [done|].
  destruct g as [e|p]; [done|]. rewrite Hg. exact K1.
Qed.
Lemma flips_sends set pods :
  sends (spec_of (fun q => q ∈ pods /\ hot_upgraded ParseImage set q = true)) (flips (S := S) ParseImage now set pods).
Proof.
  unfold flips. destruct (isSidecarSetHasHotUpgradeContainer set); auto with sidecar. apply sends_each. intros p Hp.
  apply filterb_elem in Hp. by apply flip_pod_sends.
Qed.
Lemma update_pods_sends set pods :
  let '(up, notUp) := next_upgrade_pods ParseImage set pods in
  sends (fun ev => spec_of (fun q => q ∈ up) ev \/ status_of (fun q => q ∈ up ++ notUp) ev)
    (updatePods (S := S) ParseImage isQualifiedName MergePatch selectorError now set pods).
Proof.
  unfold updatePods. destruct (next_upgrade_pods ParseImage set pods) as [up notUp]. apply sends_bind.
  - apply sends_each. intros p Hp. apply sends_bind; auto with sidecar.
    eapply sends_mono; [|apply (condition_sends (fun q => q ∈ up ++ notUp))]; [auto|]. set_solver.
  - intros [|[err|]]; auto with sidecar. apply sends_each. intros p Hp.
    eapply sends_mono; [|by apply (upgrade_pod_sends (fun q => q ∈ up))].
    intros ev [He|He]; [by left|]. right. destruct ev; simpl in *; try done. destruct He as (q & Hq & Hk). exists q. split; [apply elem_of_app; by left|done].
Qed.

(** *** The rest *)

Lemma matching_calm P set : calm P (getMatchingPods (S := S) selectorError set).
Proof.
  unfold getMatchingPods. destruct (negb _); auto with sidecar. apply calm_bind.
  - destruct (_ || _); auto with sidecar. unfold FetchSidecarSetMatchedNamespace. destruct (negb _); auto with sidecar.
    destruct (negb _); auto with sidecar. apply calm_bind; auto with sidecar. intros []; auto with sidecar.
  - intros [err|ns]; auto with sidecar. apply calm_bind.
    + induction (set_list ns) as [|n l IH]; cbn [getSelectedPods]; auto with sidecar. apply calm_bind; auto with sidecar.
      intros [err|pods]; auto with sidecar. apply calm_bind; [exact IH|]. intros []; auto with sidecar.
    + intros []; auto with sidecar.
Qed.
(** The pods of the set, from the server: those in the namespaces of the set that its selector
    lists, that are active, injected with the set and consistent with it; [None] when the selector
    is invalid or a list fails. *)
Definition listed_pods (set : SidecarSet) (s : S) : option (list Pod) :=
  if selector_valid (sd_Selector set) then
    namespaces ← (if String.eqb (sd_Namespace set) "" then
                    match sd_NamespaceSelector set with
                    | None => Some [""%string]
                    | Some _ => if selector_valid (sd_NamespaceSelector set)
                                then (fun names => set_list (list_to_set names)) <$> answer (ListNamespaces (sd_NamespaceSelector set) s)
                                else None
                    end
                  else Some [sd_Namespace set]);
    lists ← mapM (fun ns => answer (ListSelectedPods ns (sd_Selector set) s)) namespaces;
    Some (filterb (fun p => IsPodActive p && IsPodInjectedSidecarSet p set && IsPodConsistentWithSidecarSet p set) (concat lists))
  else None.

Lemma selected_listed namespaces sel w :
  answer (getSelectedPods (S := S) namespaces sel w).2
  = ((fun ls => concat ls) <$> mapM (fun ns => answer (ListSelectedPods ns sel (w_server w))) namespaces).
Proof.
  revert w. induction namespaces as [|ns l IH]; intros w; [done|]. cbn [getSelectedPods mapM]. unfold bind, read, call. cbn.
  destruct (ListSelectedPods ns sel (w_server w)) as [err|pods]; [done|]. cbn.
  match goal with |- context [getSelectedPods l sel ?w1] => specialize (IH w1); destruct (getSelectedPods l sel w1) as [w2 r] end.
  cbn in IH. destruct (mapM _ l) as [ls|]; destruct r as [err|rest]; cbn in *; congruence.
Qed.

Lemma set_list_one (x : string) : set_list {[x]} = [x].
Proof. unfold set_list. by rewrite elements_singleton. Qed.

Lemma matching_pods set w : answer (getMatchingPods (S := S) selectorError set w).2 = listed_pods set (w_server w).
Proof.
  unfold getMatchingPods, listed_pods. destruct (selector_valid (sd_Selector set)); [|done]. cbn [negb].
  assert (Hlist : forall namespaces w0, w_server w0 = w_server w ->
    answer (bind (getSelectedPods (S := S) namespaces (sd_Selector set)) (fun pods =>
      match pods with inl err => ret (inl err) | inr pods => ret (inr (filterb (pod_of_set set) pods)) end) w0).2
    = (lists ← mapM (fun ns => answer (ListSelectedPods ns (sd_Selector set) (w_server w))) namespaces;
       Some (filterb (pod_of_set set) (concat lists)))).
  { intros namespaces w0 Hw. pose proof (selected_listed namespaces (sd_Selector set) w0) as Hl. rewrite Hw in Hl. unfold bind.
    destruct (getSelectedPods namespaces (sd_Selector set) w0) as [w2 r]. cbn [snd] in Hl.
    destruct (mapM _ namespaces) as [ls|]; destruct r as [err|rest]; cbn in *; congruence. }
  unfold FetchSidecarSetMatchedNamespace. destruct (String.eqb (sd_Namespace set) "") eqn:En; cbn [negb orb].
  - destruct (sd_NamespaceSelector set) as [sel|] eqn:Es.
    + rewrite bool_decide_eq_true_2 by done. destruct (selector_valid (Some sel)); [|done]. cbn [negb].
      unfold bind at 1 2, read, call. cbn -[set_list]. destruct (ListNamespaces (Some sel) (w_server w)) as [err|names]; [done|].
      cbn -[set_list]. by apply Hlist.
    + rewrite bool_decide_eq_false_2 by by intros []. unfold bind at 1, ret at 1. rewrite set_list_one. by apply Hlist.
  - unfold bind at 1, ret at 1. rewrite set_list_one. by apply Hlist.
Qed.
Lemma create_calm f parent r c : calm own_write (create_revision (S := S) HashRevision f parent r c).
Proof.
  revert c. induction f as [|f IH]; intros c; cbn [create_revision]; auto with sidecar. apply calm_bind.
  - apply calm_call. intros e. by apply Forall_singleton.
  - intros [err|]; auto with sidecar. destruct (negb _); auto with sidecar. apply calm_bind; auto with sidecar.
    intros [e|existing]; auto with sidecar. destruct (String.eqb _ _); auto with sidecar.
Qed.
Lemma truncate_loop_cons active r r' rs n : truncate_loop (S := S) active (r :: r' :: rs) n
  = if n <=? 0 then ret (inr n)
    else if bool_decide (cr_name r ∈ active) then truncate_loop active (r' :: rs) n
    else do e <- call (DeleteControllerRevision r) (fun e => [EvDeleteRevision r (is_ok e)]);
         match e with
         | Some err => if IsNotFound err then truncate_loop active (r' :: rs) (n - 1) else ret (inl err)
         | None => truncate_loop active (r' :: rs) (n - 1)
         end.
Proof. reflexivity. Qed.
Lemma truncate_loop_calm active revisions n : calm own_write (truncate_loop (S := S) active revisions n).
Proof.
  revert n. induction revisions as [|r [|r' revisions] IH]; intros n; [apply calm_ret..|]. rewrite truncate_loop_cons.
  destruct (n <=? 0); auto with sidecar. destruct (bool_decide _); [apply IH|]. apply calm_bind.
  - apply calm_call. intros e. by apply Forall_singleton.
  - intros [err|]; [|apply IH]. destruct (IsNotFound err); auto with sidecar.
Qed.
Lemma register_calm set pods : calm own_write (registerLatestRevision (S := S) getPatch HashRevision limitError fuel set pods).
Proof.
  unfold registerLatestRevision. apply calm_bind; auto with sidecar. intros [err|revisions]; auto with sidecar.
  destruct (NewSidecarRevision _ _ _ _ _) as [err|new]; auto with sidecar. apply calm_bind.
  - unfold latest_revision. destruct (last_equal _ _ _ _) as [[place equal]|]; [destruct (last _) as [prior|]|].
    + destruct (EqualRevision prior equal); auto with sidecar. apply calm_bind; auto with sidecar.
      apply calm_call. intros r. by apply Forall_singleton.
    + apply calm_bind; [apply create_calm|auto with sidecar].
    + apply calm_bind; [apply create_calm|auto with sidecar].
  - intros [[[err|[latest rs]] c]|]; auto with sidecar. apply calm_bind.
    + unfold updateCustomVersionLabel. destruct (_ && _); auto with sidecar. apply calm_call. intros e. by apply Forall_singleton.
    + intros [err|]; auto with sidecar. apply calm_bind; auto with sidecar. unfold truncateSidecarHistory.
      destruct (_ <=? _); auto with sidecar. apply calm_bind; [apply truncate_loop_calm|]. intros []; auto with sidecar.
Qed.
Lemma status_calm set st : calm own_write (updateSidecarSetStatus (S := S) set st).
Proof.
  unfold updateSidecarSetStatus. destruct (negb _); auto with sidecar. apply calm_retry. intros clone. apply calm_bind.
  - apply calm_call. intros r. by apply Forall_singleton.
  - intros [err|p]; auto with sidecar. apply calm_bind; auto with sidecar.
Qed.

(** *** One reconcile *)

(** The writes between two worlds satisfy [G]. *)
Definition writes (G : Event -> Prop) (w w' : World S) : Prop := exists evs, w_trace w' = w_trace w ++ evs /\ Forall G evs.
Lemma writes_refl G w : writes G w w.
Proof. exists []. by rewrite app_nil_r. Qed.
Lemma writes_trans G w1 w2 w3 : writes G w1 w2 -> writes G w2 w3 -> writes G w1 w3.
Proof. intros (e1 & T1 & F1) (e2 & T2 & F2). exists (e1 ++ e2). split; [by rewrite T2, T1, app_assoc|by apply Forall_app]. Qed.
Lemma sends_run {A} (P G : Event -> Prop) (m : M S A) w : (forall ev, P ev -> G ev) -> sends P m -> writes G w (m w).1.
Proof. intros HG Hm. destruct (Hm w) as (evs & Ht & Hf). exists evs. split; [done|]. eapply Forall_impl; [exact Hf|]. auto. Qed.

(** The expectations once the pods have been observed. *)
Definition awaited (set : SidecarSet) (pods : list Pod) (u : Update.Store) : gset string :=
  Update.waiting (fold_left (fun u pod => Update.ObserveUpdated sidecar_EqualToRevisionHash u (sd_name set) (GetSidecarSetRevision set) pod) pods u)
    (sd_name set) (GetSidecarSetRevision set).
(** The set may upgrade pods. *)
Definition may_upgrade (set : SidecarSet) (pods : list Pod) : Prop :=
  isSidecarSetNotUpdate set = false /\ sd_Paused set = false /\ countb (IsPodSidecarUpdated set) pods < len pods.
(** The writes of one reconcile with the pods of the set. *)
Definition allowed (set : SidecarSet) (pods : list Pod) (u : Update.Store) (ev : Event) : Prop :=
  own_write ev \/
  (awaited set pods u = ∅ /\
   (spec_of (fun q => q ∈ pods /\ hot_upgraded ParseImage set q = true) ev \/
    (may_upgrade set pods /\
     (spec_of (fun q => q ∈ (next_upgrade_pods ParseImage set pods).1) ev \/
      status_of (fun q => q ∈ (next_upgrade_pods ParseImage set pods).1 ++ (next_upgrade_pods ParseImage set pods).2) ev)))).

Lemma allowed_own set pods u ev : own_write ev -> allowed set pods u ev.
Proof. by left. Qed.

Lemma upgrade_phase_writes {A} set st pods u w (r : Outcome (option error) -> A) : awaited set pods u = ∅ -> may_upgrade set pods ->
  writes (allowed set pods u) w
    (bind (updatePods (S := S) ParseImage isQualifiedName MergePatch selectorError now (with_sidecar_status set st) pods) (fun x => ret (r x)) w).1.
Proof.
  intros Hu Hm. pose proof (update_pods_sends (with_sidecar_status set st) pods) as Hs.
  change (next_upgrade_pods ParseImage (with_sidecar_status set st) pods) with (next_upgrade_pods ParseImage set pods) in Hs.
  destruct (next_upgrade_pods ParseImage set pods) as [up notUp] eqn:En. eapply sends_run; [|apply sends_bind; [exact Hs|auto with sidecar]].
  intros ev Hev. right. split; [done|]. right. split; [done|]. by rewrite En.
Qed.

Lemma reconcile_writes set w :
  let w' := (UpdateSidecarSet (S := S) ParseImage isQualifiedName MergePatch getPatch HashRevision selectorError limitError now fuel set w).1 in
  match listed_pods set (w_server w) with
  | None => w_trace w' = w_trace w
  | Some pods => writes (allowed set pods (w_upd w)) w w'
  end.
Proof.
  cbn zeta. pose proof (matching_pods set w) as El. pose proof (matching_calm own_write set) as [Hs1 Hu1].
  pose proof (Hu1 w) as U1. clear Hu1.
  assert (W1 : forall G, (forall ev, own_write ev -> G ev) -> writes G w (getMatchingPods (S := S) selectorError set w).1).
  { intros G HG. by eapply sends_run. }
  pose proof (matching_calm (fun _ => False) set) as [Hs0 _]. destruct (Hs0 w) as (evs0 & Ht0 & Hf0).
  destruct (listed_pods set (w_server w)) as [pods|]; unfold UpdateSidecarSet; unfold bind at 1;
    destruct (getMatchingPods selectorError set w) as [w1 [err|pods1]]; simpl in *; try discriminate El.
  2:{ assert (evs0 = []) as -> by (destruct evs0; [done|by inversion Hf0]). rewrite app_nil_r in Ht0. exact Ht0. }
  injection El as ->. clear Hs0 evs0 Ht0 Hf0.
  eapply writes_trans; [apply W1; intros ev; apply allowed_own|]. clear W1 Hs1.
  unfold bind at 1. destruct (register_calm set pods) as [Hs2 Hu2]. pose proof (Hu2 w1) as U2.
  eapply writes_trans; [|]. 1:{ eapply (sends_run _ (allowed set pods (w_upd w))); [|exact Hs2]. intros ev. apply allowed_own. }
  clear Hs2 Hu2. destruct (registerLatestRevision _ _ _ _ _ _ w1) as [w2 [[[err|latest] c]|]]; simpl in *; [apply writes_refl| |apply writes_refl].
  unfold bind at 1. set (st := calculateStatus ParseImage set pods latest c).
  destruct (status_calm set st) as [Hs3 Hu3]. pose proof (Hu3 w2) as U3.
  eapply writes_trans; [|]. 1:{ eapply (sends_run _ (allowed set pods (w_upd w))); [|exact Hs3]. intros ev. apply allowed_own. }
  clear Hs3 Hu3. destruct (updateSidecarSetStatus set st w2) as [w3 [err|]]; simpl in *; [apply writes_refl|].
  unfold bind at 1. cbn [observe_pods on_updates]. unfold bind at 1. unfold ask_updates. simpl.
  match goal with |- context [Update.SatisfiedExpectations ?u ?k ?r now] => set (u0 := u);
    pose proof (Update.waiting_Satisfied u0 k r now) as Hsat; destruct (Update.SatisfiedExpectations u0 k r now) as [[[all d] objs] u1] end.
  assert (E0 : Update.waiting u0 (sd_name set) (GetSidecarSetRevision set) = awaited set pods (w_upd w)).
  { unfold u0, awaited. rewrite U3, U2, U1. reflexivity. }
  simpl in Hsat. change (GetSidecarSetRevision (with_sidecar_status set st)) with (GetSidecarSetRevision set) in Hsat. rewrite E0 in Hsat.
  destruct all; simpl; [|exists []; by rewrite app_nil_r]. assert (Hw : awaited set pods (w_upd w) = ∅) by by apply Hsat. clear Hsat.
  match goal with |- writes _ _ (bind _ _ ?w4).1 => set (w4' := w4); eapply (writes_trans _ _ w4'); [exists []; by rewrite app_nil_r|] end.
  unfold bind at 1. eapply writes_trans.
  { eapply (sends_run _ (allowed set pods (w_upd w))); [|apply (flips_sends (with_sidecar_status set st) pods)].
    intros ev Hev. right. split; [done|]. left. exact Hev. }
  destruct (flips ParseImage now (with_sidecar_status set st) pods w4') as [w5 [|[err|]]]; simpl; [apply writes_refl..|].
  destruct (isSidecarSetNotUpdate _ || isSidecarSetUpdateFinish st || sd_Paused set) eqn:Eg; [apply writes_refl|].
  apply orb_false_iff in Eg as [Eg Ep]. apply orb_false_iff in Eg as [En Ef].
  apply (upgrade_phase_writes set st pods); [done|]. repeat split; [exact En|exact Ep|].
  unfold isSidecarSetUpdateFinish in Ef. apply Z.leb_gt in Ef. exact Ef.
Qed.

(** C9: One reconcile of a SidecarSet keeps its limits, whatever the API server answers (a pod it
    reads has the name it was asked for), for a
    strategy whose partition is not negative.  It works on the pods the server lists at its start
    ([listed_pods]: those that the selector finds in the namespaces of the set, that are active,
    injected and consistent with the set), all of them, and writes nothing when a list fails.  It
    writes to its revisions and its status; to pods only when every upgrade it made before has been
    observed; then to pods of the set whose hot upgrade is complete, and, unless the set is paused,
    never updates or has updated all its pods, to the pods that the strategy chooses: pods of the
    set that are not updated, selected, upgradable and consistent, of which at least [partition] are
    left alone and whose ready ones stay, with the updated pods that are not back yet, within
    [maxUnavailable]. *)
Theorem sidecar_reconcile_bounds set w (Hp : forall n, 0 <= n -> 0 <= partition_of (sd_Strategy set) n) :
  let w' := (UpdateSidecarSet (S := S) ParseImage isQualifiedName MergePatch getPatch HashRevision selectorError limitError now fuel set w).1 in
  match listed_pods set (w_server w) with
  | None => w_trace w' = w_trace w
  | Some pods =>
      writes (allowed set pods (w_upd w)) w w' /\
      let '(up, _) := next_upgrade_pods ParseImage set pods in
      let ready := SidecarSet_IsPodReady set in
      let can p := IsSidecarSetUpgradable ParseImage set p in
      let waits p := negb (IsPodSidecarUpdated set p) && isSelected set p && ((can p).1 && (can p).2) in
      let upgraded p := IsPodSidecarUpdated set p && (negb (IsPodStateConsistent ParseImage set p ∅) || negb (ready p)) in
      (forall p, p ∈ up -> p ∈ pods /\ waits p = true) /\
      len up <= Z.max 0 (countb waits pods - partition_of (sd_Strategy set) (len pods)) /\
      (countb ready up = 0 \/ countb upgraded pods + countb ready up <= maxUnavailable_of (sd_Strategy set) (len pods))
  end.
Proof.
  pose proof (reconcile_writes set w) as Hw. cbn zeta in *. destruct (listed_pods set (w_server w)) as [pods|]; [|exact Hw].
  split; [exact Hw|].
  pose proof (sidecar_upgrade_bounds (IsPodSidecarUpdated set) (SidecarSet_IsPodReady set)
    (fun pod => IsPodStateConsistent ParseImage set pod ∅) (IsSidecarSetUpgradable ParseImage set) (isSelected set) (sd_Strategy set) pods
    (Hp (len pods) ltac:(lia))) as Hb.
  unfold next_upgrade_pods. destruct (GetNextUpgradePods _ _ _ _ _ _ _) as [up notUp]. destruct Hb as (B1 & B2 & B3).
  split; [|split; [exact B1|exact B3]]. intros p Hup. destruct (B2 p Hup) as (Hin & E1 & E2 & E3). split; [done|].
  by rewrite E1, E2, E3.
Qed.

(** C0: When a pod that is to be upgraded is gone from the cache, the upgrade does not report an
    error: the failed read is only logged, the work goes on with an empty pod and panics. *)
Theorem sidecar_missing_pod_panics set pod w err (Hget : GetSidecarPod (p_namespace pod) (p_name pod) (w_server w) = inl err) :
  (updatePodSidecarAndHash (S := S) ParseImage isQualifiedName MergePatch selectorError now set pod w).2 = Panic /\
  w_trace (updatePodSidecarAndHash (S := S) ParseImage isQualifiedName MergePatch selectorError now set pod w).1 = w_trace w.
Proof.
  assert (exists w', updatePodSidecarAndHash (S := S) ParseImage isQualifiedName MergePatch selectorError now set pod w = (w', Panic) /\
                     w_trace w' = w_trace w) as (w' & -> & Ht); [|done].
  unfold updatePodSidecarAndHash, retry_steps. cbn [RetryPanics]. unfold upgrade_try, bind, read, call. rewrite Hget.
  rewrite update_sidecar_bare by done. eexists. split; [reflexivity|]. simpl. apply app_nil_r.
Qed.

(** *** The history *)

Lemma active_of_pod set pods revisions p : p ∈ pods -> GetPodSidecarSetControllerRevision (sd_name set) p <> ""%string ->
  GetPodSidecarSetControllerRevision (sd_name set) p ∈ filterActiveRevisions set pods revisions.
Proof.
  intros Hp Hne. assert (Hu : GetPodSidecarSetControllerRevision (sd_name set) p ∈ (list_to_set (filterb (fun r => negb (String.eqb r ""))
    (map (GetPodSidecarSetControllerRevision (sd_name set)) pods)) : gset string)).
  { apply elem_of_list_to_set, filterb_elem. split; [by apply list_elem_of_fmap_2|]. by apply negb_true_iff, String.eqb_neq. }
  unfold filterActiveRevisions. destruct (sd_InjectionRevision set); [|done]. set_solver.
Qed.
Lemma active_of_injection set pods revisions info name : sd_InjectionRevision set = Some info -> ir_RevisionName info = Some name ->
  name ∈ filterActiveRevisions set pods revisions.
Proof. intros Hi Hn. unfold filterActiveRevisions. rewrite Hi, Hn. set_solver. Qed.
Lemma active_of_version set pods revisions info version r : sd_InjectionRevision set = Some info -> ir_CustomVersion info = Some version ->
  last (SortControllerRevisions (filterb (fun r => String.eqb (lbl (cr_labels r) SidecarSetCustomVersionLabel) version) revisions)) = Some r ->
  cr_name r ∈ filterActiveRevisions set pods revisions.
Proof. intros Hi Hn Hl. unfold filterActiveRevisions. rewrite Hi, Hn, Hl. set_solver. Qed.

(** A revision that may be deleted. *)
Definition deletes_unused (active : gset string) (rs : list ControllerRevision) (ev : Event) : Prop :=
  match ev with EvDeleteRevision r _ => r ∈ rs /\ cr_name r ∉ active | _ => False end.

Lemma truncate_loop_emits active rs n : 0 <= n ->
  emits (truncate_loop (S := S) active rs n) (fun evs e =>
    Forall (deletes_unused active (removelast rs)) evs /\ len evs <= n /\
    match e with inr remains => len evs = n - remains /\ 0 <= remains | inl _ => True end).
Proof.
  revert n. induction rs as [|r [|r' rs] IH]; intros n Hn; [apply emits_ret; simpl; split; [done|lia]..|].
  rewrite truncate_loop_cons. change (removelast (r :: r' :: rs)) with (r :: removelast (r' :: rs)).
  assert (Hmono : forall ev, deletes_unused active (removelast (r' :: rs)) ev -> deletes_unused active (r :: removelast (r' :: rs)) ev).
  { intros ev. destruct ev; simpl; try done. set_solver. }
  assert (Hrest : forall m (Q : list Event -> error + Z -> Prop), 0 <= m ->
            (forall evs e, Forall (deletes_unused active (r :: removelast (r' :: rs))) evs -> len evs <= m ->
               match e with inr remains => len evs = m - remains /\ 0 <= remains | inl _ => True end -> Q evs e) ->
            emits (truncate_loop (S := S) active (r' :: rs) m) Q).
  { intros m Q Hm HQ. eapply emits_mono; [by apply IH|]. intros evs e (F & L & R). apply HQ; [|done..].
    eapply Forall_impl; [exact F|]. auto. }
  destruct (n <=? 0) eqn:E; zbool; [apply emits_ret; simpl; split; [done|lia]|]. case_bool_decide as Ha; [apply Hrest; [done|auto]|].
  eapply emits_bind with (P := fun evs e => evs = [EvDeleteRevision r (is_ok e)]); [by apply emits_call|].
  assert (Hd : forall ok, deletes_unused active (r :: removelast (r' :: rs)) (EvDeleteRevision r ok)) by (intros ok; simpl; set_solver).
  assert (Hgo : forall ok, emits (truncate_loop (S := S) active (r' :: rs) (n - 1)) (fun evs e =>
            Forall (deletes_unused active (r :: removelast (r' :: rs))) ([EvDeleteRevision r ok] ++ evs) /\
            len ([EvDeleteRevision r ok] ++ evs) <= n /\
            match e with inr remains => len ([EvDeleteRevision r ok] ++ evs) = n - remains /\ 0 <= remains | inl _ => True end)).
  { intros ok. apply Hrest; [lia|]. intros evs e F L R. split; [by apply Forall_cons|]. cbn [app length]. destruct e; lia. }
  intros evs [err|] ->; [|apply Hgo]. destruct (IsNotFound err); [apply Hgo|]. apply emits_ret. simpl.
  split; [by apply Forall_singleton|lia].
Qed.

(** Truncating the history of a SidecarSet deletes no revision that is in use: not the last
    one, none that a pod of the set was injected or upgraded from, and none that the injection of new
    pods refers to, by name or by being the newest of a custom version; it deletes no more than the
    excess over the limit, and when it reports no error the excess is gone. *)
Theorem sidecar_history_kept revisions set pods :
  emits (truncateSidecarHistory (S := S) limitError revisions set pods) (fun evs e =>
    (forall r ok, EvDeleteRevision r ok ∈ evs -> r ∈ removelast revisions /\
       (forall p, p ∈ pods -> GetPodSidecarSetControllerRevision (sd_name set) p <> ""%string ->
          GetPodSidecarSetControllerRevision (sd_name set) p <> cr_name r) /\
       (forall info, sd_InjectionRevision set = Some info -> ir_RevisionName info <> Some (cr_name r) /\
          forall version newest, ir_CustomVersion info = Some version ->
            last (SortControllerRevisions (filterb (fun r => String.eqb (lbl (cr_labels r) SidecarSetCustomVersionLabel) version) revisions))
            = Some newest -> cr_name newest <> cr_name r)) /\
    len evs <= Z.max 0 (len revisions - history_limit set) /\
    (e = None -> len evs = Z.max 0 (len revisions - history_limit set))).
Proof.
  unfold truncateSidecarHistory. destruct (len revisions <=? history_limit set) eqn:E; zbool.
  { apply emits_ret. split; [by intros r ok Hr%not_elem_of_nil|simpl; lia]. }
  set (active := filterActiveRevisions set pods revisions).
  eapply emits_bind; [apply truncate_loop_emits; lia|]. intros evs e (F & L & R). apply emits_ret. rewrite app_nil_r.
  split; [|split; [lia|]].
  - intros r ok Hr. apply (proj1 (Forall_forall _ _) F) in Hr as [Hin Hna]. split; [done|]. split.
    + intros p Hp Hne Heq. apply Hna. rewrite <-Heq. by apply active_of_pod.
    + intros info Hi. split; [intros Hn; apply Hna; by eapply active_of_injection|].
      intros version newest Hv Hl Heq. apply Hna. rewrite <-Heq. by eapply active_of_version.
  - destruct e as [err|remains]; [done|]. destruct (0 <? remains) eqn:El; zbool; [done|lia].
Qed.

(** *** Names of revisions *)

Definition nth_name (parent : string) (r : ControllerRevision) (c : Z) : string := ControllerRevisionName parent (HashRevision (cr_data r) c).

(** Creating a revision ends: when the names tried are different for different collision
    counts and fewer names are taken than are tried, some try succeeds or reports an error, and the
    collision count does not wrap around. *)
Theorem sidecar_revision_created parent r c (taken : gset string) n w
  (Hx : forall k s s' err, c <= k < c + Z.of_nat n ->
     CreateSidecarRevision (with_revision_name r (nth_name parent r k)) s = (s', Some err) -> IsAlreadyExists err = true ->
     nth_name parent r k ∈ taken)
  (Hinj : forall i j, c <= i < c + Z.of_nat n -> c <= j < c + Z.of_nat n -> nth_name parent r i = nth_name parent r j -> i = j)
  (Hn : (size taken < n)%nat) (Hc : 0 <= c /\ c + Z.of_nat n <= int32_max) :
  exists res k, (create_revision (S := S) HashRevision n parent r c w).2 = Some (res, k) /\ c <= k < c + Z.of_nat n.
Proof.
  revert c taken w Hx Hinj Hn Hc. induction n as [|n IH]; intros c taken w Hx Hinj Hn Hc; [lia|].
  cbn [create_revision]. fold (nth_name parent r c). unfold bind at 1, call.
  destruct (CreateSidecarRevision _ _) as [s' [err|]] eqn:Ec; simpl; [|eexists _, c; split; [done|lia]].
  destruct (IsAlreadyExists err) eqn:Ee; simpl; [|eexists _, c; split; [done|lia]].
  unfold bind at 1. unfold read, call. simpl. destruct (GetSidecarRevision _ s') as [e|existing]; simpl; [eexists _, c; split; [done|lia]|].
  destruct (String.eqb _ _); simpl; [eexists _, c; split; [done|lia]|].
  rewrite wrap32_id by (unfold is_int32, int32_min, int32_max in *; lia).
  assert (Hin : nth_name parent r c ∈ taken) by (eapply (Hx c); [lia|exact Ec|exact Ee]).
  match goal with |- context [create_revision HashRevision n parent r (c + 1) ?w1] => set (w1' := w1) end.
  destruct (IH (c + 1) (taken ∖ {[nth_name parent r c]}) w1') as (res & k & E & Hk).
  - intros k s1 s2 err' Hk Hcr He. apply elem_of_difference. split; [eapply (Hx k); [lia|exact Hcr|exact He]|].
    intros Heq. apply elem_of_singleton in Heq. apply Hinj in Heq; lia.
  - intros i j Hi Hj. apply Hinj; lia.
  - rewrite size_difference by set_solver. rewrite size_singleton. assert (size taken <> 0)%nat; [|lia].
    intros Hz. apply size_empty_inv in Hz. set_solver.
  - lia.
  - exists res, k. split; [exact E|lia].
Qed.
End Writes.

(** ** A server that holds pods and accepts every write to them; revisions named in [ex_taken]
    exist *)

Definition ex_taken : gset string := {["set-0"; "set-1"]}%string.
#[local] Instance ex_sidecar_api : SidecarApi (list Pod) := {|
  ListSelectedPods := fun _ _ s => inr s;
  ListNamespaces := fun _ _ => inr [];
  GetNamespaceLabels := fun _ _ => inr ∅;
  ListSidecarSets := fun _ => inr [];
  GetSidecarSet := fun _ _ => inl "not found"%string;
  UpdateSidecarSetStatus := fun set s => (s, inr set);
  GetSidecarPod := fun ns name s =>
    match find (fun p => String.eqb (p_namespace p) ns && String.eqb (p_name p) name) s with Some p => inr p | None => inl "not found"%string end;
  UpdateSidecarPod := fun p s => (map (fun q => if String.eqb (p_namespace q) (p_namespace p) && String.eqb (p_name q) (p_name p) then p else q) s, inr p);
  PatchPodCondition := fun _ _ s => (s, None);
  ListSidecarRevisions := fun _ _ => inr [];
  ListVersionRevisions := fun _ _ _ => inr [];
  GetSidecarRevision := fun name _ => inr (ex_revision name 1);
  CreateSidecarRevision := fun r s => (s, if bool_decide (cr_name r ∈ ex_taken) then Some "exists"%string else None);
  PatchSidecarRevision := fun _ _ s => (s, None);
|}.
#[local] Instance ex_sidecar_laws : SidecarLaws (list Pod).
Proof.
  split. intros ns name s p. simpl. destruct (find _ s) as [q|] eqn:E; [|done]. intros [= <-].
  apply find_some in E as [_ E]. apply andb_true_iff in E as [E1 E2]. split; by apply String.eqb_eq.
Qed.
#[local] Instance ex_sidecar_revisions : RevisionApi (list Pod) := {|
  CreateControllerRevision := fun _ _ r c s => (s, (inr r, c));
  UpdateControllerRevision := fun r _ s => (s, inr r);
  DeleteControllerRevision := fun _ s => (s, None);
|}.
#[local] Instance ex_api_errors : ApiErrors := {|
  IsNotFound := String.eqb "not found"; IsAlreadyExists := String.eqb "exists"; IsConflict := fun _ => false;
|}.
#[local] Existing Instance ex_json.
#[local] Existing Instance spec_countable.
#[local] Existing Instance ex_states.

(** A pod that was injected with the sidecars of the set. *)
Definition ex_injected : Pod :=
  let pod := ex_pod "mesh:1" "empty" "mesh-1" true true in
  with_annotations pod (<[SidecarSetListAnnotation := "set"]> (p_annotations pod))%string.
Definition ex_hash (data : string) (c : Z) : string := Itoa c.
Definition ex_world : World (list Pod) := mkWorld [ex_injected] ∅ ∅ ∅ no_local ∅ [].
Definition ex_reconcile (set : SidecarSet) : M (list Pod) (option (Outcome (Z * option error))) :=
  UpdateSidecarSet ex_parse (fun _ => true) (fun _ p => inr p) (fun _ => inr "{}"%string) ex_hash "selector"%string (fun _ _ => "limit"%string) 5 9 set.

Lemma sidecar_reconcile_bounds_witness :
  let w' := (ex_reconcile (ex_set "mesh:2" "h2") ex_world).1 in
  existsb (fun ev => match ev with EvUpdatePod p true => bool_decide (image_of p "mesh-2" = Some "mesh:2"%string) | _ => false end) (w_trace w') = true /\
  listed_pods (S := list Pod) (ex_set "mesh:2" "h2") (w_server ex_world) = Some [ex_injected] /\
  writes (allowed ex_parse (ex_set "mesh:2" "h2") [ex_injected] ∅) ex_world w'.
Proof.
  split; [vm_compute; reflexivity|].
  assert (El : listed_pods (S := list Pod) (ex_set "mesh:2" "h2") (w_server ex_world) = Some [ex_injected]) by (vm_compute; reflexivity).
  split; [exact El|].
  pose proof (sidecar_reconcile_bounds (S := list Pod) ex_parse (fun _ => true) (fun _ p => inr p) (fun _ => inr "{}"%string) ex_hash
    "selector"%string (fun _ _ => "limit"%string) 5 9 (ex_set "mesh:2" "h2") ex_world (fun n Hn => Z.le_refl 0)) as Hb.
  rewrite El in Hb. exact (proj1 Hb).
Defined.

Lemma sidecar_missing_pod_panics_witness :
  (updatePodSidecarAndHash (S := list Pod) ex_parse (fun _ => true) (fun _ p => inr p) "selector"%string 5 (ex_set "mesh:2" "h2")
     (named_pod "gone") ex_world).2 = Panic.
Proof.
  apply (sidecar_missing_pod_panics (S := list Pod) ex_parse (fun _ => true) (fun _ p => inr p) "selector"%string 5 (ex_set "mesh:2" "h2")
    (named_pod "gone") ex_world "not found"%string). reflexivity.
Defined.

Lemma sidecar_revision_created_witness :
  exists res, (create_revision ex_hash 3 "set" (ex_revision "new" 1) 0 ex_world).2 = Some (res, 2).
Proof.
  destruct (sidecar_revision_created (S := list Pod) ex_hash "set" (ex_revision "new" 1) 0 ex_taken 3 ex_world) as (res & k & E & _).
  - intros k s s' err Hk. simpl. case_bool_decide as Hc; [|done]. intros _ _. exact Hc.
  - intros i j Hi Hj E. assert (i = 0 \/ i = 1 \/ i = 2) as [->|[->| ->]] by lia; assert (j = 0 \/ j = 1 \/ j = 2) as [->|[->| ->]] by lia;
      try reflexivity; vm_compute in E; discriminate.
  - vm_compute. lia.
  - unfold int32_max. lia.
  - exists res. assert (X : match (create_revision ex_hash 3 "set" (ex_revision "new" 1) 0 ex_world).2 with Some (_, k) => k = 2 | None => False end)
      by (vm_compute; reflexivity).
    rewrite E in X |- *. by rewrite X.
Defined.
