(* ===== verification/TextLists.v ===== *)
(** * Lists of names in one text

    [strings.Split] undoes [strings.Join] with a comma between names that have none; the
    annotations of the injected sidecars and of the copied secrets are such lists. *)

From S2P Require Import Prelude GoLib GoText K8s Tools StatefulSetUtils.
Open Scope Z_scope.
Open Scope kruise_scope.

Definition no_comma (s : string) : Prop := "," % char ∉ chars s.
Lemma split_chars_pieces sep l w : w ∈ split_chars sep l -> sep ∉ w.
Proof.
  revert w. induction l as [|c l IH]; intros w; simpl; [intros ->%list_elem_of_singleton; apply not_elem_of_nil|].
  destruct (Ascii.eqb_spec c sep) as [->|Hne].
  - intros [->|Hw]%elem_of_cons; [apply not_elem_of_nil|auto].
  - destruct (split_chars sep l) as [|x xs]; intros Hw.
    + apply list_elem_of_singleton in Hw as ->. set_solver.
    + apply elem_of_cons in Hw as [->|Hw]; [|apply IH; set_solver]. apply not_elem_of_cons. split; [done|]. apply IH. set_solver.
Qed.
Lemma split_chars_app sep w l : sep ∉ w -> split_chars sep (w ++ sep :: l) = w :: split_chars sep l.
Proof.
  induction w as [|c w IH]; simpl; [by rewrite Ascii.eqb_refl|]. intros [Hc Hw]%not_elem_of_cons.
  destruct (Ascii.eqb_spec c sep) as [->|_]; [done|]. by rewrite IH.
Qed.
Lemma split_chars_none sep w : sep ∉ w -> split_chars sep w = [w].
Proof.
  induction w as [|c w IH]; simpl; [done|]. intros [Hc Hw]%not_elem_of_cons.
  destruct (Ascii.eqb_spec c sep) as [->|_]; [done|]. by rewrite IH.
Qed.
Lemma Split_Join l : l <> [] -> Forall no_comma l -> Split (PodsUtil.Join l ",") "," = l.
Proof.
  induction l as [|x [|y l] IH]; intros Hne Hf; [done| |].
  - apply Forall_inv in Hf. unfold Split. simpl. rewrite split_chars_none by done. simpl. by rewrite of_chars_chars.
  - apply Forall_cons in Hf as [Hx Hf]. change (PodsUtil.Join (x :: y :: l) ",") with (x +:+ "," +:+ PodsUtil.Join (y :: l) ",").
    unfold Split in *. rewrite chars_app. change (chars ("," +:+ PodsUtil.Join (y :: l) ",")) with ("," % char :: chars (PodsUtil.Join (y :: l) ",")).
    rewrite split_chars_app by done. simpl map. rewrite of_chars_chars. f_equal. by apply IH.
Qed.
Lemma Split_no_comma s : Forall no_comma (Split s ",").
Proof.
  apply Forall_forall. intros x Hx. unfold Split in Hx. apply list_elem_of_fmap in Hx as (w & -> & Hw). unfold no_comma. rewrite chars_of_chars.
  by eapply split_chars_pieces.
Qed.
Lemma Join_nonempty l x : x ∈ l -> x <> ""%string -> PodsUtil.Join l "," <> ""%string.
Proof.
  destruct l as [|a [|b l]]; [by intros ?%not_elem_of_nil|intros ->%list_elem_of_singleton; done|].
  intros _ _. change (PodsUtil.Join (a :: b :: l) ",") with (a +:+ "," +:+ PodsUtil.Join (b :: l) ","). by destruct a.
Qed.
