(* ===== verification/SidecarSetInject.v ===== *)
(** * SidecarSet: injection into pods

    pkg/webhook/pod/mutating/sidecarset.go and sidecarset_hotupgrade.go: the admission of a pod
    finds the sets that match it, takes of each the revision that is asked for, builds the sidecars
    and merges them into the pod.  Only the creation of a pod injects: for an update [commonControl]
    says that nothing changes.  The proofs compose the injection with the controller: a pod as
    injected counts as a pod of the set that is updated, and meets what the upgrades of
    SidecarSetUpgrade.v ask for. *)

From S2P Require Import TextLists.
From S2P Require Import Prelude GoLib GoText K8s Tools Expectations Lifecycle Selector UpdateSort PodSorter CloneSetDiff.
From S2P Require Import ControllerExpectations WorkloadSpreadTypes World RevisionHistory InPlaceUpdate CloneSetUpdate SidecarSetStrategy StatefulSetUtils DaemonSet SidecarSet SidecarSetProcessor SidecarSetReconcile SidecarSetUpgrade.
From S2P Require Import K8s.
Open Scope Z_scope.
Open Scope kruise_scope.

Definition SidecarSetVersionEnvKey : string := "SIDECARSET_VERSION".
Definition SidecarSetVersionAltEnvKey : string := "SIDECARSET_VERSION_ALT".
Definition AfterAppContainerType : string := "AfterAppContainer".

(** An admission request: the old object is decoded from it. *)
Record SidecarRequest := mkSidecarRequest {
  sq_SubResource : string;
  sq_Operation : string;
  sq_Resource : string;
  sq_OldObject : error + Pod;
}.
Definition OpCreate : string := "CREATE".
Definition OpUpdate : string := "UPDATE".

(** ** Merging *)

Definition mergeSidecarSecrets (secretsInPod secretsInSidecar : list string) : list string :=
  fold_left (fun all s => if existsb (String.eqb s) all then all else all ++ [s]) (secretsInPod ++ secretsInSidecar) [].

(** One injected container: the containers to come before, those of the pod, those to come after. *)
Definition merge_sidecar (names : list string) (st : list Container * list Container * list Container) (sidecar : SidecarContainer)
  : list Container * list Container * list Container :=
  let '(before, origins, after) := st in
  if existsb (String.eqb (sc_Name sidecar)) names
  then (before, rev (put_container (sc_Name sidecar) (fun _ => sc_Container sidecar) (rev origins)), after)
  else if String.eqb (sc_PodInjectPolicy sidecar) AfterAppContainerType then (before, origins, after ++ [sc_Container sidecar])
  else (before ++ [sc_Container sidecar], origins, after).
Definition mergeSidecarContainers (origins : list Container) (injected : list SidecarContainer) : list Container :=
  let '(before, origins', after) := fold_left (merge_sidecar (map ctr_name origins)) injected ([], origins, []) in
  before ++ origins' ++ after.

(** ** Hot upgrades *)

Definition version_env (key annotation : string) : EnvVar :=
  mkEnvVar key "" (Some (mkEnvSource (Some ("metadata.annotations['" +:+ annotation +:+ "']")) None)).
Definition setSidecarContainerVersionEnv (c : Container) : Container :=
  mkContainer (ctr_name c) (ctr_image c)
    (ctr_env c ++ [version_env SidecarSetVersionEnvKey (GetPodSidecarSetVersionAnnotation (ctr_name c));
                   version_env SidecarSetVersionAltEnvKey (GetPodSidecarSetVersionAltAnnotation (ctr_name c))]) (ctr_mounts c).
Definition with_container (s : SidecarContainer) (c : Container) : SidecarContainer :=
  mkSidecar c (sc_PodInjectPolicy s) (sc_UpgradeType s) (sc_HotUpgradeEmptyImage s) (sc_ShareVolumePolicy s) (sc_TransferEnv s).
Definition generateHotUpgradeContainers (s : SidecarContainer) : SidecarContainer * SidecarContainer :=
  let '(name1, name2) := GetHotUpgradeContainerName (sc_Name s) in
  let c := sc_Container s in
  (with_container s (setSidecarContainerVersionEnv (mkContainer name1 (ctr_image c) (ctr_env c) (ctr_mounts c))),
   with_container s (setSidecarContainerVersionEnv (mkContainer name2 (sc_HotUpgradeEmptyImage s) (ctr_env c) (ctr_mounts c)))).

(** What has been built: containers, init containers, secrets, volumes and annotations, with the
    hashes and the working containers. *)
Record Built := mkBuilt {
  b_containers : list SidecarContainer;
  b_inits : list SidecarContainer;
  b_secrets : list string;
  b_volumes : list Volume;
  b_annotations : gmap string string;
  b_hash : gmap string SidecarSetUpgradeSpec;
  b_hashWithout : gmap string SidecarSetUpgradeSpec;
  b_working : gmap string string;
  b_names : gset string;
}.

Section Build.
Context `{JsonInto (gmap string SidecarSetUpgradeSpec)} `{JsonInto (gmap string string)}.
Context (isQualifiedName : string -> bool) (now : Z).

(** [injectHotUpgradeContainers]: the containers, the annotations and the working containers. *)
Definition injectHotUpgradeContainers (info : gmap string string) (s : SidecarContainer)
  : list SidecarContainer * list (string * string) * gmap string string :=
  let '(c1, c2) := generateHotUpgradeContainers s in
  let info := <[sc_Name s := sc_Name c1]> info in
  ([c1; c2],
   [(GetPodSidecarSetVersionAnnotation (sc_Name c1), "1"); (GetPodSidecarSetVersionAltAnnotation (sc_Name c1), "0");
    (GetPodSidecarSetVersionAnnotation (sc_Name c2), "0"); (GetPodSidecarSetVersionAltAnnotation (sc_Name c2), "1");
    (SidecarSetWorkingHotUpgradeContainer, Encode info)]%string, info).

(** The volumes that a container mounts; one that the set does not have is a nil pointer. *)
Fixpoint mounted_volumes (volumes : list Volume) (mounts : list VolumeMount) : Outcome (list Volume) :=
  match mounts with
  | [] => Value []
  | m :: mounts' =>
      match find (fun v => String.eqb (vol_name v) (mount_name m)) (rev volumes), mounted_volumes volumes mounts' with
      | Some v, Value vs => Value (v :: vs)
      | _, _ => Panic
      end
  end.

(** The container with the mounts, the marker and the variables. *)
Definition injected_container (s : SidecarContainer) (pod : Pod) : SidecarContainer :=
  let '(injectedMounts, injectedEnvs) := GetInjectedVolumeMountsAndEnvs s pod in
  let transferEnvs := MergeEnvVar (GetSidecarTransferEnvs isQualifiedName s pod) injectedEnvs in
  let c := sc_Container s in
  with_container s (mkContainer (ctr_name c) (ctr_image c)
    (MergeEnvVar (ctr_env c ++ [mkEnvVar SidecarEnvKey "true" None]) transferEnvs) (MergeVolumeMounts (ctr_mounts c) injectedMounts)).

Definition add_init (pod : Pod) (volumes : list Volume) (b : Built) (s : SidecarContainer) : Outcome Built :=
  match mounted_volumes volumes (ctr_mounts (sc_Container s)) with
  | Panic => Panic
  | Value vs => Value (mkBuilt (b_containers b) (b_inits b ++ [injected_container s pod]) (b_secrets b) (b_volumes b ++ vs) (b_annotations b)
                         (b_hash b) (b_hashWithout b) (b_working b) (b_names b))
  end.
Definition add_container (pod : Pod) (volumes : list Volume) (b : Built) (s : SidecarContainer) : Outcome Built :=
  match mounted_volumes volumes (ctr_mounts (sc_Container s)) with
  | Panic => Panic
  | Value vs =>
      let c := injected_container s pod in
      let '(cs, annotations, info) := if IsHotUpgradeContainer s then injectHotUpgradeContainers (b_working b) c else ([c], [], b_working b) in
      Value (mkBuilt (b_containers b ++ cs) (b_inits b) (b_secrets b) (b_volumes b ++ vs)
               (fold_left (fun m kv => <[kv.1 := kv.2]> m) annotations (b_annotations b)) (b_hash b) (b_hashWithout b) info (b_names b))
  end.
Fixpoint each_sidecar (f : Built -> SidecarContainer -> Outcome Built) (b : Built) (cs : list SidecarContainer) : Outcome Built :=
  match cs with
  | [] => Value b
  | c :: cs' => match f b c with Panic => Panic | Value b' => each_sidecar f b' cs' end
  end.

(** The round of [buildSidecars] for one set. *)
Definition build_set (isUpdated : bool) (pod : Pod) (set : SidecarSet) (b : Built) : Outcome Built :=
  let b := mkBuilt (b_containers b) (b_inits b) (b_secrets b) (b_volumes b) (b_annotations b) (b_hash b) (b_hashWithout b) (b_working b)
             ({[sd_name set]} ∪ b_names b) in
  let sidecarList := set_list (list_to_set (map sc_Name (sd_Containers set))) in
  if isUpdated then Value b
  else
    match each_sidecar (add_init pod (sd_Volumes set)) b (sd_InitContainers set) with
    | Panic => Panic
    | Value b =>
        let b := mkBuilt (b_containers b) (b_inits b) (b_secrets b ++ sd_ImagePullSecrets set) (b_volumes b) (b_annotations b) (b_hash b)
                   (b_hashWithout b) (b_working b) (b_names b) in
        match each_sidecar (add_container pod (sd_Volumes set)) b (sd_Containers set) with
        | Panic => Panic
        | Value b =>
            let isInjecting := negb (len (sd_InitContainers set) =? 0) || negb (len (sd_Containers set) =? 0) in
            let spec1 := mkUpgradeSpec now (GetSidecarSetRevision set) (sd_name set) sidecarList (sst_LatestRevision (sd_status set)) in
            let spec2 := mkUpgradeSpec now (GetSidecarSetWithoutImageRevision set) (sd_name set) sidecarList "" in
            Value (if isInjecting
                   then mkBuilt (b_containers b) (b_inits b) (b_secrets b) (b_volumes b) (b_annotations b) (<[sd_name set := spec1]> (b_hash b))
                          (<[sd_name set := spec2]> (b_hashWithout b)) (b_working b) (b_names b)
                   else b)
        end
    end.
Fixpoint build_sets (isUpdated : bool) (pod : Pod) (sets : list SidecarSet) (b : Built) : Outcome Built :=
  match sets with
  | [] => Value b
  | set :: sets' => match build_set isUpdated pod set b with Panic => Panic | Value b' => build_sets isUpdated pod sets' b' end
  end.

(** The hashes of an annotation, in either format. *)
Definition parse_hash (s : string) : error + gmap string SidecarSetUpgradeSpec :=
  if String.eqb s "" then inr ∅
  else match Decode s ∅ with
       | (None, m) => inr m
       | (Some _, m) => match Decode s ∅ with
                        | (Some err, _) => inl err
                        | (None, older) => inr (older_specs (fun k v => mkUpgradeSpec 0 v k [] "") older ∪ m)
                        end
       end.
Definition buildSidecars (isUpdated : bool) (pod : Pod) (sets : list SidecarSet) : Outcome (error + Built) :=
  match parse_hash (lbl (p_annotations pod) SidecarSetHashAnnotation) with
  | inl err => Value (inl err)
  | inr hash =>
      match parse_hash (lbl (p_annotations pod) SidecarSetHashWithoutImageAnnotation) with
      | inl err => Value (inl err)
      | inr hashWithout =>
          let listed := lbl (p_annotations pod) SidecarSetListAnnotation in
          let names : gset string := if String.eqb listed "" then ∅ else list_to_set (Split listed ",") in
          match build_sets isUpdated pod sets
                  (mkBuilt [] [] [] [] ∅ hash hashWithout (GetPodHotUpgradeInfoInAnnotations pod) names) with
          | Panic => Panic
          | Value b =>
              let annotations := <[SidecarSetListAnnotation := PodsUtil.Join (set_list (b_names b)) ","]>
                (<[SidecarSetHashWithoutImageAnnotation := Encode (b_hashWithout b)]>
                (<[SidecarSetHashAnnotation := Encode (b_hash b)]> (b_annotations b))) in
              Value (inr (mkBuilt (b_containers b) (b_inits b) (b_secrets b) (b_volumes b) annotations (b_hash b) (b_hashWithout b) (b_working b)
                            (b_names b)))
          end
      end
  end.

(** The sidecars applied to the pod. *)
Definition name_less (a b : SidecarContainer) : bool := string_lt (sc_Name a) (sc_Name b).
Definition apply_built (b : Built) (pod : Pod) : Pod :=
  let pod := with_init_containers pod (pl_initContainers (p_placement pod) ++ map sc_Container (SliceStable name_less (b_inits b))) in
  let pod := with_containers pod (mergeSidecarContainers (p_containers pod) (b_containers b)) in
  let pod := with_volumes pod (MergeVolumes (p_volumes pod) (b_volumes b)) in
  let pl := p_placement pod in
  let pod := with_placement pod (mkPlacement (pl_restartPolicy pl) (pl_nodeSelector pl) (pl_affinity pl) (pl_tolerations pl) (pl_hostNetwork pl)
               (pl_schedulerName pl) (pl_preferred pl) (pl_initContainers pl) (mergeSidecarSecrets (pl_pullSecrets pl) (b_secrets b))) in
  with_annotations pod (b_annotations b ∪ p_annotations pod).
End Build.

(** ** The webhook *)
Section Webhook.
Context {S : Type} `{SidecarApi S}.
Context `{JsonInto (gmap string SidecarSetUpgradeSpec)} `{JsonInto (gmap string string)}.
Context (isQualifiedName : string -> bool) (MergePatch : string -> string -> error + string).
Context (EncodeContainers : list SidecarContainer -> error + string) (hash : string -> string).
Context (ApplyPatch : SidecarSet -> string -> error + SidecarSet).
Context (notFoundError : string -> error) (selectorError : error) (now : Z).

Definition getSpecificHistorySidecarSet (set : SidecarSet) (info : SidecarSetInjectRevision) : M S (error + SidecarSet) :=
  do r <- GetHistorySidecarSet EncodeContainers hash ApplyPatch notFoundError set (Some info);
  ret (match r with inl err => inl err | inr (Some s) => inr s | inr None => inr set end).

(** The loop over the revisions stops at the one of the pod. *)
Definition getSpecificRevisionSidecarSetForPod (set : SidecarSet) (revisions : list ControllerRevision) (pod : Pod) : M S (error + option SidecarSet) :=
  match find (fun r => String.eqb (GetPodSidecarSetControllerRevision (sd_name set) pod) (cr_name r)) revisions with
  | None => ret (inr None)
  | Some r =>
      do s <- getSpecificHistorySidecarSet set (mkInjectRevision None (Some (cr_name r)));
      ret (match s with inl err => inl err | inr s => inr (Some s) end)
  end.

(** [oldPod] is that of an update. *)
Definition getSuitableRevisionSidecarSet (set : SidecarSet) (oldPod : option Pod) (newPod : Pod) : M S (error + SidecarSet) :=
  match oldPod with
  | Some oldPod =>
      if String.eqb (GetPodSidecarSetRevision (sd_name set) newPod) (GetSidecarSetRevision set) then ret (inr set)
      else
        do r <- read (ListSidecarRevisions set);
        match r with
        | inl err => ret (inl err)
        | inr revisions =>
            do s <- getSpecificRevisionSidecarSetForPod set revisions newPod;
            match s with
            | inl err => ret (inl err)
            | inr (Some s) => ret (inr s)
            | inr None =>
                do s <- getSpecificRevisionSidecarSetForPod set revisions oldPod;
                ret (match s with inl err => inl err | inr (Some s) => inr s | inr None => inr set end)
            end
        end
  | None =>
      match sd_InjectionRevision set with
      | None => ret (inr set)
      | Some info =>
          match ir_RevisionName info, ir_CustomVersion info with
          | None, None => ret (inr set)
          | _, _ => getSpecificHistorySidecarSet set info
          end
      end
  end.

(** The sets that match the pod, in the revisions that suit it. *)
Fixpoint matched_sets (oldPod : option Pod) (pod : Pod) (sets : list SidecarSet) : M S (error + list SidecarSet) :=
  match sets with
  | [] => ret (inr [])
  | set :: sets' =>
      if sd_InjectionPaused set then matched_sets oldPod pod sets'
      else
        do m <- PodMatchedSidecarSet selectorError pod set;
        match m with
        | inl err => ret (inl err)
        | inr false => matched_sets oldPod pod sets'
        | inr true =>
            do s <- getSuitableRevisionSidecarSet set oldPod pod;
            match s with
            | inl err => ret (inl err)
            | inr s =>
                do rest <- matched_sets oldPod pod sets';
                ret (match rest with inl err => inl err | inr l => inr (s :: l) end)
            end
        end
  end.

(** The annotations of the pod with those of the sets, and whether they are unchanged. *)
Fixpoint patch_sets (m : gmap string string) (sets : list SidecarSet) (skip : bool) : error + gmap string string * bool :=
  match sets with
  | [] => inr (m, skip)
  | set :: sets' =>
      match PatchPodMetadata MergePatch m (sd_PatchPodMetadata set) with
      | (_, _, Some err) => inl err
      | (m', sk, None) => patch_sets m' sets' (skip && sk)
      end
  end.

(** [sidecarsetMutatingPod]: whether nothing changes or the error, with the pod; on an error the pod
    is not used. *)
Definition inject_sets (isUpdated : bool) (sets : list SidecarSet) (pod : Pod) : Outcome (error + bool * Pod) :=
  match patch_sets (p_annotations pod) sets true with
  | inl err => Value (inl err)
  | inr (annotations, skip) =>
      let pod := with_annotations pod annotations in
      match buildSidecars isQualifiedName now isUpdated pod sets with
      | Panic => Panic
      | Value (inl err) => Value (inl err)
      | Value (inr b) =>
          if (len (b_containers b) =? 0) && (len (b_inits b) =? 0) then Value (inr (skip, pod))
          else Value (inr (false, apply_built b pod))
      end
  end.
Definition sidecarsetMutatingPod (req : SidecarRequest) (pod : Pod) : M S (Outcome (error + bool * Pod)) :=
  if negb (String.eqb (sq_SubResource req) "")
     || (negb (String.eqb (sq_Operation req) OpCreate) && negb (String.eqb (sq_Operation req) OpUpdate))
     || negb (String.eqb (sq_Resource req) "pods")
  then ret (Value (inr (true, pod)))
  else if negb (IsPodActive pod) then ret (Value (inr (true, pod)))
  else
    let isUpdated := String.eqb (sq_Operation req) OpUpdate in
    match (if isUpdated then match sq_OldObject req with inl err => inl err | inr p => inr (Some p) end else inr None) with
    | inl err => ret (Value (inl err))
    | inr oldPod =>
        do r <- read ListSidecarSets;
        match r with
        | inl err => ret (Value (inl err))
        | inr sets =>
            do m <- matched_sets oldPod pod sets;
            match m with
            | inl err => ret (Value (inl err))
            | inr [] => ret (Value (inr (true, pod)))
            | inr matched =>
                if isUpdated then ret (Value (inr (true, pod)))
                else ret (inject_sets false matched pod)
            end
        end
    end.
End Webhook.

(** ** The list of names in the annotation *)

Lemma set_list_elem (s : gset string) x : x ∈ set_list s <-> x ∈ s.
Proof. unfold set_list. by rewrite SliceStable_perm, elem_of_elements. Qed.

(** ** What is built *)
Section Built.
Context `{JsonInto (gmap string SidecarSetUpgradeSpec)} `{JsonInto (gmap string string)}.
Context `{!JsonLaws (gmap string SidecarSetUpgradeSpec)} `{!JsonLaws (gmap string string)}.
Context (isQualifiedName : string -> bool) (now : Z).
Context (pod : Pod).

Definition expand (s : SidecarContainer) : list SidecarContainer :=
  let c := injected_container isQualifiedName s pod in
  if IsHotUpgradeContainer s then [(generateHotUpgradeContainers c).1; (generateHotUpgradeContainers c).2] else [c].
Definition expanded (cs : list SidecarContainer) : list SidecarContainer := concat (map expand cs).

Lemma injected_keeps s : let c := injected_container isQualifiedName s pod in
  sc_Name c = sc_Name s /\ sc_Image c = sc_Image s /\ sc_HotUpgradeEmptyImage c = sc_HotUpgradeEmptyImage s.
Proof. unfold injected_container. by destruct (GetInjectedVolumeMountsAndEnvs s pod). Qed.
Lemma expand_names s : map sc_Name (expand s) = names_of s.
Proof.
  pose proof (injected_keeps s) as (N & _ & _). unfold expand, names_of. destruct (IsHotUpgradeContainer s); simpl; [|by rewrite N].
  rewrite <-N. done.
Qed.
Lemma expanded_names cs : map sc_Name (expanded cs) = all_names cs.
Proof. unfold expanded, all_names. induction cs as [|c cs IH]; [done|]. simpl. by rewrite map_app, expand_names, IH. Qed.
Lemma expanded_app xs ys : expanded (xs ++ ys) = expanded xs ++ expanded ys.
Proof. unfold expanded. by rewrite map_app, concat_app. Qed.

(** The images a sidecar is injected with. *)
Definition injected_images (s : SidecarContainer) (cs : list SidecarContainer) : Prop :=
  if IsHotUpgradeContainer s
  then (exists c, c ∈ cs /\ sc_Name c = (GetHotUpgradeContainerName (sc_Name s)).1 /\ sc_Image c = sc_Image s) /\
       (exists c, c ∈ cs /\ sc_Name c = (GetHotUpgradeContainerName (sc_Name s)).2 /\ sc_Image c = sc_HotUpgradeEmptyImage s)
  else exists c, c ∈ cs /\ sc_Name c = sc_Name s /\ sc_Image c = sc_Image s.
Lemma expand_images s : injected_images s (expand s).
Proof.
  pose proof (injected_keeps s) as (N & I & E). unfold injected_images, expand. destruct (IsHotUpgradeContainer s).
  - set (c := injected_container isQualifiedName s pod) in *. split.
    + exists (generateHotUpgradeContainers c).1. split; [apply elem_of_cons; by left|]. rewrite <-N, <-I. done.
    + exists (generateHotUpgradeContainers c).2. split; [apply elem_of_cons; right; by apply list_elem_of_singleton|]. rewrite <-N, <-E. done.
  - exists (injected_container isQualifiedName s pod). split; [by apply list_elem_of_singleton|done].
Qed.
Lemma injected_images_mono s xs ys : (forall x, x ∈ xs -> x ∈ ys) -> injected_images s xs -> injected_images s ys.
Proof. intros Hx. unfold injected_images. destruct (IsHotUpgradeContainer s); naive_solver. Qed.
Lemma expanded_images s cs : s ∈ cs -> injected_images s (expanded cs).
Proof.
  intros Hs. eapply injected_images_mono; [|apply expand_images]. intros x Hx. unfold expanded. apply list_elem_of_In, in_concat.
  exists (expand s). split; apply list_elem_of_In; [by apply list_elem_of_fmap_2|done].
Qed.

(** The state after the sidecars [cs] of the sets so far. *)
Definition hot_marked (cs : list SidecarContainer) (b : Built) : Prop :=
  (forall c, c ∈ cs -> IsHotUpgradeContainer c = true -> b_working b !! sc_Name c = Some (GetHotUpgradeContainerName (sc_Name c)).1) /\
  ((exists c, c ∈ cs /\ IsHotUpgradeContainer c = true) -> b_annotations b !! SidecarSetWorkingHotUpgradeContainer = Some (Encode (b_working b))).
Definition containers_built (cs : list SidecarContainer) (b : Built) : Prop := b_containers b = expanded cs /\ hot_marked cs b.

Lemma each_sidecar_ind f (R : list SidecarContainer -> Built -> Prop) pre cs b b' :
  (forall pre b c b', f b c = Value b' -> R pre b -> R (pre ++ [c]) b') ->
  each_sidecar f b cs = Value b' -> R pre b -> R (pre ++ cs) b'.
Proof.
  intros Hf. revert pre b. induction cs as [|c cs IH]; intros pre b; simpl; [intros [= <-]; by rewrite app_nil_r|].
  destruct (f b c) as [|b1] eqn:E; [done|]. intros E' HR. rewrite cons_middle, app_assoc. eapply IH; [exact E'|]. by eapply Hf.
Qed.

Lemma add_container_built volumes pre b c b' : add_container isQualifiedName pod volumes b c = Value b' -> containers_built pre b ->
  containers_built (pre ++ [c]) b'.
Proof.
  intros E [Hc [Hw Ha]]. unfold add_container in E. destruct (mounted_volumes _ _) as [|vs]; [done|].
  pose proof (injected_keeps c) as (N & _ & _). destruct (IsHotUpgradeContainer c) eqn:Hh.
  - unfold injectHotUpgradeContainers in E. destruct (generateHotUpgradeContainers _) as [c1 c2] eqn:Eg. injection E as <-. split; [|split]; simpl.
    + rewrite Hc, expanded_app. f_equal. unfold expanded. cbn [map concat]. unfold expand. by rewrite Hh, Eg, app_nil_r.
    + assert (N1 : sc_Name c1 = (GetHotUpgradeContainerName (sc_Name c)).1).
      { apply (f_equal fst) in Eg. simpl in Eg. rewrite <-Eg, <-N. done. }
      intros d Hd Hdh. destruct (decide (sc_Name d = sc_Name c)) as [Hn|Hn].
      * rewrite N, Hn, lookup_insert_eq. by rewrite N1.
      * rewrite N, lookup_insert_ne by congruence. apply Hw; [|done]. apply elem_of_app in Hd as [Hd|Hd]; [done|].
        apply list_elem_of_singleton in Hd as ->. done.
    + intros _. by rewrite lookup_insert_eq.
  - injection E as <-. split; [|split]; simpl.
    + rewrite Hc, expanded_app. f_equal. unfold expanded, expand. simpl. by rewrite Hh.
    + intros d Hd Hdh. apply Hw; [|done]. apply elem_of_app in Hd as [Hd|Hd]; [done|]. apply list_elem_of_singleton in Hd as ->. congruence.
    + intros (d & Hd & Hdh). apply Ha. exists d. split; [|done]. apply elem_of_app in Hd as [Hd|Hd]; [done|].
      apply list_elem_of_singleton in Hd as ->. congruence.
Qed.

(** Neither loop touches the hashes and the names of the sets. *)
Definition same_hashes (b b' : Built) : Prop := b_hash b' = b_hash b /\ b_names b' = b_names b.
Lemma add_init_other volumes b c b' : add_init isQualifiedName pod volumes b c = Value b' ->
  same_hashes b b' /\ b_containers b' = b_containers b /\ b_working b' = b_working b /\ b_annotations b' = b_annotations b /\
  map sc_Name (b_inits b') = map sc_Name (b_inits b) ++ [sc_Name c].
Proof.
  unfold add_init. destruct (mounted_volumes _ _); [done|]. intros [= <-]. repeat split. simpl. rewrite map_app. simpl.
  by rewrite (proj1 (injected_keeps c)).
Qed.
Lemma add_container_other volumes b c b' : add_container isQualifiedName pod volumes b c = Value b' -> same_hashes b b' /\ b_inits b' = b_inits b.
Proof.
  unfold add_container. destruct (mounted_volumes _ _); [done|]. destruct (if IsHotUpgradeContainer c then _ else _) as [[cs an] info].
  by intros [= <-].
Qed.

Definition sidecars_of (sets : list SidecarSet) : list SidecarContainer := concat (map sd_Containers sets).
Definition inits_of (sets : list SidecarSet) : list string := concat (map (fun set => map sc_Name (sd_InitContainers set)) sets).
Definition injected_spec (set : SidecarSet) : SidecarSetUpgradeSpec :=
  mkUpgradeSpec now (GetSidecarSetRevision set) (sd_name set) (set_list (list_to_set (map sc_Name (sd_Containers set))))
    (sst_LatestRevision (sd_status set)).
(** The state after the sets [sets], from the names [names0]. *)
Definition sets_built (names0 : gset string) (sets : list SidecarSet) (b : Built) : Prop :=
  containers_built (sidecars_of sets) b /\ map sc_Name (b_inits b) = inits_of sets /\
  (forall x, x ∈ b_names b <-> x ∈ names0 \/ x ∈ map sd_name sets) /\
  (forall set, set ∈ sets -> sd_Containers set <> [] -> b_hash b !! sd_name set = Some (injected_spec set)).

Lemma sidecars_of_snoc sets set : sidecars_of (sets ++ [set]) = sidecars_of sets ++ sd_Containers set.
Proof. unfold sidecars_of. by rewrite map_app, concat_app; simpl; rewrite app_nil_r. Qed.
Lemma inits_of_snoc sets set : inits_of (sets ++ [set]) = inits_of sets ++ map sc_Name (sd_InitContainers set).
Proof. unfold inits_of. by rewrite map_app, concat_app; simpl; rewrite app_nil_r. Qed.

Lemma init_loop volumes b0 cs b : each_sidecar (add_init isQualifiedName pod volumes) b0 cs = Value b ->
  same_hashes b0 b /\ b_containers b = b_containers b0 /\ b_working b = b_working b0 /\ b_annotations b = b_annotations b0 /\
  map sc_Name (b_inits b) = map sc_Name (b_inits b0) ++ map sc_Name cs.
Proof.
  intros E. apply (each_sidecar_ind _ (fun l b => same_hashes b0 b /\ b_containers b = b_containers b0 /\ b_working b = b_working b0 /\
    b_annotations b = b_annotations b0 /\ map sc_Name (b_inits b) = map sc_Name (b_inits b0) ++ map sc_Name l) []) in E; [done| |].
  - intros pre b1 c b' Ha ((S1 & S2) & C & W & A & I). apply add_init_other in Ha as ((S1' & S2') & -> & -> & -> & ->).
    rewrite I, map_app, <-app_assoc. repeat split; congruence.
  - repeat split. by rewrite app_nil_r.
Qed.
Lemma container_loop volumes pre b0 cs b : each_sidecar (add_container isQualifiedName pod volumes) b0 cs = Value b -> containers_built pre b0 ->
  containers_built (pre ++ cs) b /\ same_hashes b0 b /\ b_inits b = b_inits b0.
Proof.
  intros E Hb. apply (each_sidecar_ind _ (fun l b => containers_built l b /\ same_hashes b0 b /\ b_inits b = b_inits b0) pre) in E; [done| |done].
  intros pre' b1 c b' Ha (C & (S1 & S2) & I). split; [by eapply add_container_built|].
  apply add_container_other in Ha as ((S1' & S2') & ->). repeat split; congruence.
Qed.

Lemma build_set_spec names0 done set b b' : sd_name set ∉ map sd_name done -> build_set isQualifiedName now false pod set b = Value b' ->
  sets_built names0 done b -> sets_built names0 (done ++ [set]) b'.
Proof.
  intros Hfresh E ((Cc & Cw & Ca) & Hi & Hn & Hh). unfold build_set in E.
  destruct (each_sidecar (add_init _ _ _) _ _) as [|b1] eqn:E1; [done|]. apply init_loop in E1 as ((S1 & S2) & C1 & W1 & A1 & I1). simpl in *.
  match type of E with context [each_sidecar _ ?x _] => set (b2 := x) in E end.
  destruct (each_sidecar _ b2 _) as [|b3] eqn:E3; [done|].
  apply (container_loop _ (sidecars_of done)) in E3 as (C3 & (S3 & S4) & I3);
    [|split; [unfold b2; simpl; congruence|split; unfold b2; simpl; rewrite ?W1, ?A1; done]].
  assert (Hinj : sd_Containers set <> [] -> negb (len (sd_InitContainers set) =? 0) || negb (len (sd_Containers set) =? 0) = true).
  { intros Hne. apply orb_true_iff. right. apply negb_true_iff, Z.eqb_neq. destruct (sd_Containers set); [done|]. simpl. lia. }
  assert (Hparts : containers_built (sidecars_of (done ++ [set])) b' /\ map sc_Name (b_inits b') = inits_of (done ++ [set]) /\
            b_names b' = {[sd_name set]} ∪ b_names b /\
            ((sd_Containers set <> [] -> b_hash b' !! sd_name set = Some (injected_spec set)) /\
             forall k, k <> sd_name set -> b_hash b' !! k = b_hash b !! k)).
  { rewrite sidecars_of_snoc, inits_of_snoc, <-Hi. injection E as <-. unfold b2 in *. simpl in *.
    destruct (_ || _) eqn:Eb.
    - unfold containers_built, hot_marked in *. simpl. rewrite I3, I1, S4, S2. split; [exact C3|]. split; [done|]. split; [done|].
      split; [intros _; by rewrite lookup_insert_eq|]. intros k Hk. by rewrite lookup_insert_ne, S3, S1.
    - rewrite I3, I1, S4, S2, S3, S1. split; [exact C3|]. split; [done|]. split; [done|]. split; [|done].
      intros Hne. by apply Hinj in Hne. }
  destruct Hparts as (P1 & P2 & P3 & P4 & P5). split; [exact P1|]. split; [exact P2|]. split.
  - intros x. rewrite P3, map_app. specialize (Hn x). simpl. set_solver.
  - intros s Hs Hne. apply elem_of_app in Hs as [Hs|Hs].
    + rewrite P5; [by apply Hh|]. intros Heq. apply Hfresh. rewrite <-Heq. by apply list_elem_of_fmap_2.
    + apply list_elem_of_singleton in Hs as ->. by apply P4.
Qed.
Lemma build_sets_spec names0 done sets b b' : NoDup (map sd_name (done ++ sets)) -> build_sets isQualifiedName now false pod sets b = Value b' ->
  sets_built names0 done b -> sets_built names0 (done ++ sets) b'.
Proof.
  revert done b. induction sets as [|set sets IH]; intros done b Hnd; cbn [build_sets]; [intros [= <-]; by rewrite app_nil_r|].
  destruct (build_set _ _ _ _ _ _) as [|b1] eqn:E; [done|]. intros E' Hb. rewrite cons_middle, app_assoc in Hnd |- *.
  eapply IH; [done|exact E'|]. eapply build_set_spec; [|exact E|exact Hb].
  rewrite map_app in Hnd. apply NoDup_app in Hnd as (Hnd & _ & _). rewrite map_app in Hnd. apply NoDup_app in Hnd as (_ & Hdis & _).
  intros Hin. apply (Hdis _ Hin). by apply list_elem_of_singleton.
Qed.
End Built.

(** ** The pod as injected *)

Lemma merge_containers_perm origins injected : Forall (fun s => sc_Name s ∉ map ctr_name origins) injected ->
  mergeSidecarContainers origins injected ≡ₚ origins ++ map sc_Container injected.
Proof.
  intros Hf. unfold mergeSidecarContainers.
  assert (Hg : forall before after, let '(b, o, a) := fold_left (merge_sidecar (map ctr_name origins)) injected (before, origins, after) in
            b ++ o ++ a ≡ₚ (before ++ origins ++ after) ++ map sc_Container injected).
  { induction Hf as [|s l Hs _ IH]; intros before after; simpl; [by rewrite app_nil_r|].
    assert (En : existsb (String.eqb (sc_Name s)) (map ctr_name origins) = false).
    { apply not_true_iff_false. intros E. apply existsb_exists in E as (x & Hx & E). apply String.eqb_eq in E as <-. apply Hs. by apply list_elem_of_In. }
    rewrite En. destruct (String.eqb _ _).
    - specialize (IH before (after ++ [sc_Container s])). destruct (fold_left _ _ _) as [[b o] a]. rewrite IH.
      rewrite <-!app_assoc. done.
    - specialize (IH (before ++ [sc_Container s]) after). destruct (fold_left _ _ _) as [[b o] a]. rewrite IH.
      rewrite <-!app_assoc. simpl. f_equiv. rewrite !app_assoc. apply Permutation_middle. }
  specialize (Hg [] []). destruct (fold_left _ _ _) as [[b o] a]. rewrite Hg. simpl. by rewrite app_nil_r.
Qed.
Lemma named_elem cs c : NoDup (map ctr_name cs) -> c ∈ cs -> named (ctr_name c) cs = Some c.
Proof.
  unfold named. induction cs as [|d cs IH]; simpl; [by intros _ ?%not_elem_of_nil|]. intros [Hd Hn]%NoDup_cons [->|Hc]%elem_of_cons.
  - by rewrite String.eqb_refl.
  - rewrite (proj2 (String.eqb_neq _ _)); [by apply IH|]. intros E. apply Hd. rewrite E. by apply list_elem_of_fmap_2.
Qed.
Lemma image_lbl pod n x : distinct_names pod -> image_of pod n = Some x -> lbl (container_images pod) n = x.
Proof.
  intros Hd Hi. unfold image_of in Hi. unfold lbl, container_images. rewrite named_fold by by apply names_NoDup.
  destruct (named n (p_containers pod)); simplify_eq/=. done.
Qed.

Section Tracked.
Context `{JsonInto (gmap string SidecarSetUpgradeSpec)} `{JsonInto (gmap string string)}.
Context `{!JsonLaws (gmap string SidecarSetUpgradeSpec)} `{!JsonLaws (gmap string string)}.
Context (isQualifiedName : string -> bool) (MergePatch : string -> string -> error + string) (now : Z).

(** The pod is one of the set, up to date and settled. *)
Definition tracked (set : SidecarSet) (pod : Pod) : Prop :=
  IsPodInjectedSidecarSet pod set = true /\ IsPodConsistentWithSidecarSet pod set = true /\ IsPodSidecarUpdated set pod = true /\
  GetPodSidecarSetControllerRevision (sd_name set) pod = sst_LatestRevision (sd_status set) /\
  holds_sidecars (sd_Containers set) pod /\ Forall (fun c => runs_image c pod) (sd_Containers set) /\
  isPodSidecarInHotUpgrading set pod = false.
(** All names of the pod and of what is injected differ. *)
Definition fresh_names (pod : Pod) (sets : list SidecarSet) : Prop :=
  NoDup ((map ctr_name (pl_initContainers (p_placement pod)) ++ inits_of sets) ++ container_names pod ++ all_names (sidecars_of sets)).

Section Applied.
Context (pod : Pod) (sets : list SidecarSet) (b : Built) (names0 : gset string).
Context (Hfresh : fresh_names pod sets) (Hb : sets_built isQualifiedName now pod names0 sets b).
Definition finished : Built :=
  mkBuilt (b_containers b) (b_inits b) (b_secrets b) (b_volumes b)
    (<[SidecarSetListAnnotation := PodsUtil.Join (set_list (b_names b)) ","]>
      (<[SidecarSetHashWithoutImageAnnotation := Encode (b_hashWithout b)]> (<[SidecarSetHashAnnotation := Encode (b_hash b)]> (b_annotations b))))
    (b_hash b) (b_hashWithout b) (b_working b) (b_names b).
Abbreviation pod' := (apply_built finished pod).

Lemma applied_containers : p_containers pod' ≡ₚ p_containers pod ++ map sc_Container (expanded isQualifiedName pod (sidecars_of sets)).
Proof.
  destruct Hb as ((Hc & _) & _). simpl. rewrite Hc. apply merge_containers_perm. apply Forall_forall. intros s Hs Hin.
  unfold fresh_names in Hfresh. apply NoDup_app in Hfresh as (_ & _ & Hn). apply NoDup_app in Hn as (_ & Hdis & _).
  apply (Hdis (sc_Name s)); [done|]. rewrite <-(expanded_names isQualifiedName pod). by apply list_elem_of_fmap_2.
Qed.
Lemma applied_names : container_names pod' ≡ₚ container_names pod ++ all_names (sidecars_of sets).
Proof.
  unfold container_names. rewrite applied_containers, map_app, map_map. f_equiv. rewrite <-(expanded_names isQualifiedName pod). done.
Qed.
Lemma applied_distinct : distinct_names pod'.
Proof.
  destruct Hb as (_ & Hi & _). unfold distinct_names. simpl. rewrite applied_names, map_app, map_map.
  rewrite (SliceStable_perm name_less (b_inits b)). fold sc_Name. unfold fresh_names in Hfresh. rewrite <-Hi in Hfresh. exact Hfresh.
Qed.
Lemma applied_image c : c ∈ expanded isQualifiedName pod (sidecars_of sets) -> image_of pod' (sc_Name c) = Some (sc_Image c).
Proof.
  intros Hc. unfold image_of, sc_Name. rewrite named_elem; [done|apply names_NoDup, applied_distinct|].
  rewrite applied_containers. apply elem_of_app. right. by apply list_elem_of_fmap_2.
Qed.
Lemma applied_working set c : set ∈ sets -> c ∈ sd_Containers set -> IsHotUpgradeContainer c = true ->
  GetPodHotUpgradeInfoInAnnotations pod' !! sc_Name c = Some (GetHotUpgradeContainerName (sc_Name c)).1 /\
  working c pod' = (GetHotUpgradeContainerName (sc_Name c)).1 /\ idle c pod' = (GetHotUpgradeContainerName (sc_Name c)).2.
Proof.
  intros Hs Hc Hh. destruct Hb as ((_ & Hw & Ha) & _).
  assert (Hin : c ∈ sidecars_of sets).
  { unfold sidecars_of. apply list_elem_of_In, in_concat. exists (sd_Containers set). split; apply list_elem_of_In; [by apply list_elem_of_fmap_2|done]. }
  assert (E : GetPodHotUpgradeInfoInAnnotations pod' = b_working b).
  { unfold GetPodHotUpgradeInfoInAnnotations. simpl. rewrite lookup_union_l'.
    - rewrite !lookup_insert_ne by done. rewrite Ha by eauto. by rewrite json_roundtrip.
    - rewrite !lookup_insert_ne by done. rewrite Ha by eauto. eauto. }
  rewrite E, (Hw c Hin Hh). split; [done|]. unfold working, idle, GetPodHotUpgradeContainers. rewrite E. unfold lbl. rewrite (Hw c Hin Hh). simpl.
  by rewrite String.eqb_refl.
Qed.
Lemma applied_lookup k v : b_annotations finished !! k = Some v -> p_annotations pod' !! k = Some v.
Proof. intros E. simpl. apply lookup_union_Some_l. exact E. Qed.

Lemma applied_tracked set : set ∈ sets -> sd_Containers set <> [] -> sd_name set <> ""%string ->
  (forall x, x ∈ names0 -> no_comma x) -> Forall (fun s => no_comma (sd_name s)) sets -> tracked set pod'.
Proof.
  intros Hs Hne Hname Hc0 Hc1. pose proof Hb as (_ & _ & Hnames & Hhash). pose proof applied_distinct as Hd.
  assert (Hin : forall c, c ∈ sd_Containers set -> c ∈ sidecars_of sets).
  { intros c Hc. unfold sidecars_of. apply list_elem_of_In, in_concat. exists (sd_Containers set).
    split; apply list_elem_of_In; [by apply list_elem_of_fmap_2|done]. }
  assert (Hhas : Forall (has_sidecar pod') (sd_Containers set)).
  { apply Forall_forall. intros c Hc. apply Forall_forall. intros n Hn. rewrite applied_names. apply elem_of_app. right.
    by eapply all_names_in; [apply Hin|]. }
  assert (Hlist : p_annotations pod' !! SidecarSetListAnnotation = Some (PodsUtil.Join (set_list (b_names b)) ",")).
  { apply applied_lookup. apply lookup_insert_eq. }
  assert (Hh : p_annotations pod' !! SidecarSetHashAnnotation = Some (Encode (b_hash b))).
  { apply applied_lookup. simpl. rewrite !lookup_insert_ne by done. apply lookup_insert_eq. }
  pose proof (upgrade_spec_read _ _ _ _ Hh (Hhash set Hs Hne)) as Hspec.
  assert (Hmem : sd_name set ∈ set_list (b_names b)).
  { apply set_list_elem, Hnames. right. by apply list_elem_of_fmap_2. }
  assert (Hrun : Forall (fun c => runs_image c pod' /\ (IsHotUpgradeContainer c = true -> image_of pod' (idle c pod') = Some (sc_HotUpgradeEmptyImage c)))
            (sd_Containers set)).
  { apply Forall_forall. intros c Hc. pose proof (expanded_images isQualifiedName pod c _ (Hin c Hc)) as Hi. unfold injected_images in Hi. unfold runs_image.
    destruct (IsHotUpgradeContainer c) eqn:Hhot.
    - destruct (applied_working set c Hs Hc Hhot) as (_ & -> & ->). destruct Hi as [(x & Hx & <- & <-) (y & Hy & <- & <-)].
      split; [by apply applied_image|]. intros _. by apply applied_image.
    - destruct Hi as (x & Hx & <- & <-). split; [by apply applied_image|done]. }
  split; [|split; [|split; [|split; [|split; [|split]]]]].
  - unfold IsPodInjectedSidecarSet, lbl. rewrite Hlist. cbn [default].
    rewrite (proj2 (String.eqb_neq _ _)) by (by eapply Join_nonempty). simpl. rewrite Split_Join.
    + apply existsb_exists. exists (sd_name set). split; [by apply list_elem_of_In|apply String.eqb_refl].
    + intros E. rewrite E in Hmem. by apply not_elem_of_nil in Hmem.
    + apply Forall_forall. intros x Hx. apply set_list_elem, Hnames in Hx as [Hx|Hx]; [auto|].
      apply list_elem_of_fmap in Hx as (s & -> & Hs'). by apply (proj1 (Forall_forall _ _) Hc1).
  - unfold IsPodConsistentWithSidecarSet. apply forallb_forall. intros c Hc. apply list_elem_of_In in Hc.
    assert (Hget : forall n, n ∈ names_of c -> negb (bool_decide (GetContainer n pod' = None)) = true).
    { intros n Hn. apply (proj1 (Forall_forall _ _) (proj1 (Forall_forall _ _) Hhas c Hc)) in Hn. rewrite GetContainer_named by done.
      destruct (named_in _ _ Hn) as [x ->]. done. }
    unfold names_of in Hget. destruct (IsHotUpgradeContainer c) eqn:Hhot.
    + destruct (applied_working set c Hs Hc Hhot) as (-> & _). rewrite !andb_true_iff.
      split; [split; [apply bool_decide_eq_true_2; eauto|]|]; apply Hget; simpl; set_solver.
    + apply Hget. set_solver.
  - unfold IsPodSidecarUpdated, GetPodSidecarSetRevision. rewrite Hspec. apply String.eqb_refl.
  - unfold GetPodSidecarSetControllerRevision. by rewrite Hspec.
  - split; [done|]. split; [done|]. intros E. rewrite E in Hh. by rewrite lookup_empty in Hh.
  - eapply Forall_impl; [exact Hrun|]. by intros c [Hr _].
  - unfold isPodSidecarInHotUpgrading. apply not_true_iff_false. intros E. apply existsb_exists in E as (c & Hc & E).
    apply andb_true_iff in E as [Hhot E]. apply list_elem_of_In in Hc. apply negb_true_iff, String.eqb_neq in E. apply E. apply image_lbl; [done|].
    by apply (proj1 (Forall_forall _ _) Hrun c Hc).
Qed.
End Applied.

Lemma build_sidecars_inv pod sets b : NoDup (map sd_name sets) -> buildSidecars isQualifiedName now false pod sets = Value (inr b) ->
  exists b0 names0, b = finished b0 /\ sets_built isQualifiedName now pod names0 sets b0 /\ forall x, x ∈ names0 -> no_comma x.
Proof.
  intros Hnd. unfold buildSidecars. destruct (parse_hash (lbl _ SidecarSetHashAnnotation)) as [|hash]; [done|].
  destruct (parse_hash _) as [|hashWithout]; [done|]. set (names := if String.eqb _ "" then _ else _).
  destruct (build_sets _ _ _ _ _ _) as [|b0] eqn:E; [done|]. intros [= <-]. exists b0, names. split; [done|]. split.
  - apply (build_sets_spec isQualifiedName now pod names []) in E; [exact E|done|].
    split; [split; [done|]; split; [by intros c ?%not_elem_of_nil|by intros (c & ?%not_elem_of_nil & _)]|].
    split; [done|]. split; [|by intros s ?%not_elem_of_nil]. intros x. simpl. set_solver.
  - intros x. unfold names. destruct (String.eqb _ ""); [by intros ?%elem_of_empty|]. intros Hx. apply elem_of_list_to_set in Hx.
    by apply (proj1 (Forall_forall _ _) (Split_no_comma _)) in Hx.
Qed.

(** C11: A pod as the webhook injects it is, for each set that injected containers, a pod that the
    controller finds and counts as updated: it lists the set, has the containers the set asks for
    and the hash and the revision of the set; each sidecar runs with the image of the set, and of a
    hot one the second container is empty and the first at work, so that the pod meets what an
    upgrade asks for.  A name that is taken twice, which the API server refuses, is excluded. *)
Theorem injected_pod_tracked sets pod pod' skip (Hinj : inject_sets isQualifiedName MergePatch now false sets pod = Value (inr (skip, pod')))
  (Hnd : NoDup (map sd_name sets)) (Hnames : Forall (fun s => sd_name s <> ""%string /\ no_comma (sd_name s)) sets)
  (Hfresh : fresh_names pod sets) :
  forall set, set ∈ sets -> sd_Containers set <> [] -> tracked set pod'.
Proof.
  intros set Hs Hne. unfold inject_sets in Hinj. destruct (patch_sets _ _ _ _) as [|[annotations sk]]; [done|].
  set (pod1 := with_annotations pod annotations) in *. destruct (buildSidecars _ _ _ _ _) as [|[err|b]] eqn:Eb; [done..|].
  apply build_sidecars_inv in Eb as (b0 & names0 & -> & Hb & Hc); [|done].
  assert (Hcs : len (b_containers b0) =? 0 = false).
  { destruct Hb as ((-> & _) & _). apply Z.eqb_neq. intros E. destruct (sd_Containers set) as [|c cs] eqn:Ec; [done|].
    assert (Hin : c ∈ sidecars_of sets).
    { unfold sidecars_of. apply list_elem_of_In, in_concat. exists (sd_Containers set). split; apply list_elem_of_In; [by apply list_elem_of_fmap_2|].
      rewrite Ec. apply elem_of_cons. by left. }
    pose proof (expanded_images isQualifiedName pod1 c _ Hin) as Hi. unfold injected_images in Hi.
    assert (Hl : expanded isQualifiedName pod1 (sidecars_of sets) = []) by (apply length_zero_iff_nil; lia). rewrite Hl in Hi.
    destruct (IsHotUpgradeContainer c); [destruct Hi as [(x & Hx & _) _]|destruct Hi as (x & Hx & _)]; by apply not_elem_of_nil in Hx. }
  simpl in Hinj. rewrite Hcs in Hinj. simpl in Hinj. injection Hinj as _ <-.
  apply (applied_tracked pod1 sets b0 names0); try done.
  - by apply (proj1 (Forall_forall _ _) Hnames) in Hs as [? _].
  - eapply Forall_impl; [exact Hnames|]. by intros s [_ ?].
Qed.
End Tracked.

#[local] Existing Instance ex_json.
#[local] Existing Instance ex_json_laws.
#[local] Existing Instance spec_countable.

(** A pod of one container, before the injection of the mesh. *)
Definition ex_app : Pod :=
  mkPod "pod" "default" "pod" "" ∅ ∅ [] 0 None "" "Pending" [] [] [] [ex_container "app" "app:1"] [] [] "" "" [] no_placement.
Definition ex_inject : Outcome (error + bool * Pod) :=
  inject_sets (fun _ => true) (fun _ p => inr p) 5 false [ex_set "mesh:1" "h1"] ex_app.
Lemma ex_inject_names : match ex_inject with
                        | Value (inr (_, p)) => container_names p = ["mesh-1"; "mesh-2"; "app"]%string
                        | _ => False
                        end.
Proof. vm_compute. reflexivity. Qed.

Lemma injected_pod_tracked_witness :
  match ex_inject with
  | Value (inr (_, p)) => tracked (ex_set "mesh:1" "h1") p
  | _ => False
  end.
Proof.
  pose proof ex_inject_names as X. destruct ex_inject as [|[err|[skip p]]] eqn:E; [destruct X..|].
  apply (injected_pod_tracked (fun _ => true) (fun _ p => inr p) 5 [ex_set "mesh:1" "h1"] ex_app p skip); [exact E| | | | |].
  - apply NoDup_singleton.
  - apply Forall_singleton. split; [discriminate|]. unfold no_comma. simpl. rewrite !elem_of_cons. intuition (try discriminate). by apply not_elem_of_nil in H0.
  - unfold fresh_names. change (NoDup ["app"; "mesh-1"; "mesh-2"]%string). apply NoDup_ListNoDup. repeat constructor; simpl; intuition discriminate.
  - apply list_elem_of_singleton. reflexivity.
  - discriminate.
Defined.
