(* ===== verification/ImagePull.v ===== *)
(** * ImagePullJob: the controller

    pkg/controller/imagepulljob: [Reconcile] with the copies of the pull secrets, the status of a
    job and the writes to the NodeImages; pkg/util/imagejob: the NodeImages of a job and the
    jobs of a NodeImage or of a pod; pkg/control/sorting: the order of the pods of a workload;
    the index of active jobs and of pods by node (pkg/util/fieldindex).

    The expectations of the world are those of this controller.  A reconcile sees one time.  A
    key (NamespacedName) is a pair of the namespace and the name; the order in which Go walks
    over a map is any permutation ([MapOrder]).  [NormalizeImageRefToNameTag] is built on a
    library for image references and stays a parameter. *)

From S2P Require Import Prelude GoLib GoText K8s Tools Expectations Lifecycle Selector UpdateSort CloneSetDiff.
From S2P Require Import ControllerExpectations WorkloadSpreadTypes ImagePullTypes World BroadcastJob CloneSetUpdate SidecarSetStrategy StatefulSetUtils SidecarSet.
From S2P Require Import WorkloadSpread SidecarSetReconcile K8s.
Open Scope Z_scope.
Open Scope kruise_scope.

(** The order in which Go walks over a map. *)
Class MapOrder := {
  range_order : forall {A}, list A -> list A;
  range_order_perm : forall A (l : list A), range_order l ≡ₚ l;
}.
(** One order. *)
#[export] Instance listed_order : MapOrder := {| range_order := fun _ l => l; range_order_perm := fun _ l => reflexivity l |}.

(** The clients; the lists are those of the cache. *)
Class ImageApi (S : Type) := {
  GetImagePullJob : string -> string -> S -> error + ImagePullJob;
  ListImagePullJobs : S -> error + list ImagePullJob;
  UpdateImagePullJob : ImagePullJob -> S -> S * (error + ImagePullJob);
  UpdateImagePullJobStatus : ImagePullJob -> S -> S * (error + ImagePullJob);
  DeleteImagePullJob : ImagePullJob -> S -> S * option error;
  ListNodeImages : S -> error + list NodeImage;
  GetNodeImage : string -> S -> error + NodeImage;
  WriteNodeImage : NodeImageWrite -> S -> S * (error + NodeImage);
  ListSecrets : string -> S -> error + list Secret;
  GetSecret : string * string -> S -> error + Secret;
  WriteSecret : SecretWrite -> S -> S * (error + Secret);
  CheckNamespace : string -> S -> option error;
  ListAllPods : S -> error + list Pod;
  GetCloneSetOf : string * string -> S -> error + CloneSet;
  GetStatefulSetOf : string * string -> S -> error + StatefulSet;
  GetSidecarSetOf : string * string -> S -> error + SidecarSet;
}.

Local Open Scope string_scope.
Local Open Scope list_scope.
Local Open Scope Z_scope.
Definition SourceSecretKeyAnno : string := "imagepulljobs.kruise.io/source-key".
Definition SourceSecretUIDLabelKey : string := "imagepulljobs.kruise.io/source-uid".
Definition TargetOwnerReferencesAnno : string := "imagepulljobs.kruise.io/references".
Definition ProtectionFinalizer : string := "apps.kruise.io/deletion-protection".
Definition ImagePhaseWaiting : string := "Waiting".
Definition ImagePhasePulling : string := "Pulling".
Definition ImagePhaseSucceeded : string := "Succeeded".
Definition ImagePhaseFailed : string := "Failed".
Definition defaultParallelism : Z := 1.
Definition minRequeueTime : Z := second.
Definition defaultTTLSecondsForNever : Z := 24 * 3600.
Definition defaultActiveDeadlineSecondsForNever : Z := 1800.
(** [metav1.NamespaceAll] is no restriction. *)
Definition NamespacedName : Type := string * string.
Definition key_string (k : NamespacedName) : string := k.1 +:+ "/" +:+ k.2.
(** [cache.SplitMetaNamespaceKey]; [None] is an error. *)
Definition SplitMetaNamespaceKey (key : string) : option NamespacedName :=
  match Split key "/" with
  | [name] => Some ("", name)
  | [namespace; name] => Some (namespace, name)
  | _ => None
  end.

(** ** imagepulljob_utils.go *)

Definition secondsToDuration (s : Z) : Z := wrap64 (s * second).

Definition getTTLSecondsForAlways (rand300 : Z) (job : ImagePullJob) : Z :=
  let cp := pj_CompletionPolicy job in
  let r :=
    match cp_TTLSecondsAfterFinished cp with
    | Some t => t
    | None =>
        match cp_ActiveDeadlineSeconds cp with
        | Some d => wrap32 d
        | None =>
            let timeoutSeconds := default 600 (pj_PullPolicy job ≫= pp_TimeoutSeconds) in
            let backoffLimit := default 3 (pj_PullPolicy job ≫= pp_BackoffLimit) in
            wrap32 (timeoutSeconds * backoffLimit)
        end
    end in
  wrap32 (r + (300 + rand300)).
Definition getTTLSecondsForNever (rand1200 : Z) : Z := defaultTTLSecondsForNever + rand1200 - 600.
Definition getActiveDeadlineSecondsForNever : Z := defaultActiveDeadlineSecondsForNever.
Definition getImagePullPolicy (rand300 rand1200 : Z) (job : ImagePullJob) : ImageTagPullPolicy :=
  let timeout := pj_PullPolicy job ≫= pp_TimeoutSeconds in
  let backoff := pj_PullPolicy job ≫= pp_BackoffLimit in
  if String.eqb (cp_Type (pj_CompletionPolicy job)) Never then
    mkTagPolicy timeout backoff (Some (getTTLSecondsForNever rand1200)) (Some getActiveDeadlineSecondsForNever)
  else
    mkTagPolicy timeout backoff (Some (getTTLSecondsForAlways rand300 job)) (cp_ActiveDeadlineSeconds (pj_CompletionPolicy job)).

Definition getOwnerRef (job : ImagePullJob) : ObjectReference :=
  mkObjectRef "apps.kruise.io/v1alpha1" "ImagePullJob" (pj_namespace job) (pj_name job) (pj_uid job).
Definition getSecrets (job : ImagePullJob) : list ReferenceObject :=
  map (mkReference (pj_namespace job)) (pj_PullSecrets job).
Definition containsObject (slice : list ReferenceObject) (obj : ReferenceObject) : bool :=
  existsb (fun o => String.eqb (ro_Namespace o) (ro_Namespace obj) && String.eqb (ro_Name o) (ro_Name obj)) slice.
(** pkg/util/pods.go. *)
Definition ContainsObjectRef (slice : list ObjectReference) (obj : ObjectReference) : bool :=
  existsb (fun o => String.eqb (oref_UID o) (oref_UID obj)) slice.

(** [fmt.Sprintf("%.1f", x)] of a number that is not negative. *)
Definition format_tenths (x : fp) : string :=
  match x with
  | FFin n k => let t := rne (n * 10) (2 ^ k) in Itoa (t / 10) +:+ "." +:+ Itoa (t mod 10)
  | FInf _ => "+Inf"
  | FNaN => "NaN"
  end.
Definition formatStatusMessage (status : ImagePullJobStatus) : string :=
  match pl_CompletionTime status with
  | Some _ => "job has completed"
  | None =>
      if pl_Desired status =? 0 then "job is running, no progress"
      else
        "job is running, progress "
        +:+ format_tenths (fp_div binary64
              (fp_mul binary64 (fp_of_int binary64 100) (fp_of_int binary64 (wrap32 (pl_Succeeded status + pl_Failed status))))
              (fp_of_int binary64 (pl_Desired status)))
        +:+ "%"
  end.

Definition keyFromRef (ref : ReferenceObject) : NamespacedName := (ro_Namespace ref, ro_Name ref).
Definition jobKey (job : ImagePullJob) : NamespacedName := (pj_namespace job, pj_name job).
Definition secretKey (s : Secret) : NamespacedName := (se_namespace s, se_name s).

(** [referenceSet]: the keys of the jobs that use a copy. *)
Definition referenceSet : Type := gset (string * string).
Definition set_Contains (keys : referenceSet) (key : NamespacedName) : bool := bool_decide (key ∈ keys).
Definition set_Insert (keys : referenceSet) (key : NamespacedName) : referenceSet := {[key]} ∪ keys.
Definition set_Delete (keys : referenceSet) (key : NamespacedName) : referenceSet := keys ∖ {[key]}.
Definition set_IsEmpty (keys : referenceSet) : bool := bool_decide (keys = ∅).
Definition set_String `{MapOrder} (keys : referenceSet) : string :=
  PodsUtil.Join (map key_string (range_order (elements keys))) ",".
Definition makeReferenceSet (items : list NamespacedName) : referenceSet := list_to_set items.
Definition referenceSetFromTarget (target : Secret) : referenceSet :=
  list_to_set (omap SplitMetaNamespaceKey (Split (lbl (se_annotations target) TargetOwnerReferencesAnno) ",")).

Definition with_secret_data (s : Secret) (data stringData annotations : gmap string string) : Secret :=
  mkSecret (se_namespace s) (se_name s) (se_generateName s) (se_uid s) (se_resourceVersion s) (se_labels s) annotations
    (se_deletion s) (se_Type s) (se_Immutable s) data stringData.
Definition targetFromSource `{MapOrder} (daemonNamespace : string) (source : Secret) (keySet : referenceSet) : Secret :=
  mkSecret daemonNamespace "" (se_name source +:+ "-") "" ""
    (<[SourceSecretUIDLabelKey := se_uid source]> (se_labels source))
    (<[TargetOwnerReferencesAnno := set_String keySet]> (<[SourceSecretKeyAnno := key_string (secretKey source)]> (se_annotations source)))
    None (se_Type source) (se_Immutable source) (se_Data source) (se_StringData source).
Definition updateTarget `{MapOrder} (target source : Secret) (keySet : referenceSet) : Secret :=
  with_secret_data target (se_Data source) (se_StringData source)
    (<[TargetOwnerReferencesAnno := set_String keySet]> (se_annotations target)).
Definition with_references `{MapOrder} (target : Secret) (keySet : referenceSet) : Secret :=
  with_secret_data target (se_Data target) (se_StringData target)
    (<[TargetOwnerReferencesAnno := set_String keySet]> (se_annotations target)).

Inductive syncAction := create | update | noAction.
Definition computeTargetSyncAction (source : Secret) (target : option Secret) (job : ImagePullJob) : syncAction :=
  match target with
  | None => create
  | Some target =>
      if String.eqb (se_uid target) "" then create
      else if negb (set_Contains (referenceSetFromTarget target) (jobKey job))
              || negb (bool_decide (se_Data source = se_Data target))
              || negb (bool_decide (se_StringData source = se_StringData target))
      then update else noAction
  end.

Definition with_status (job : ImagePullJob) (st : ImagePullJobStatus) : ImagePullJob :=
  mkPullJob (pj_namespace job) (pj_name job) (pj_generateName job) (pj_labels job) (pj_uid job) (pj_resourceVersion job) (pj_owners job) (pj_deletion job)
    (pj_finalizers job) (pj_Image job) (pj_PullSecrets job) (pj_Selector job) (pj_PodSelector job) (pj_Parallelism job)
    (pj_PullPolicy job) (pj_CompletionPolicy job) (pj_SandboxConfig job) (pj_ImagePullPolicy job) st.
Definition with_job_finalizers (job : ImagePullJob) (fs : list string) : ImagePullJob :=
  mkPullJob (pj_namespace job) (pj_name job) (pj_generateName job) (pj_labels job) (pj_uid job) (pj_resourceVersion job) (pj_owners job) (pj_deletion job)
    fs (pj_Image job) (pj_PullSecrets job) (pj_Selector job) (pj_PodSelector job) (pj_Parallelism job)
    (pj_PullPolicy job) (pj_CompletionPolicy job) (pj_SandboxConfig job) (pj_ImagePullPolicy job) (pj_status job).
Definition with_images (n : NodeImage) (images : gmap string ImageSpec) : NodeImage :=
  mkNodeImage (ni_name n) (ni_uid n) (ni_resourceVersion n) (ni_labels n) (ni_deletion n) images (ni_status n).
(** [indexImagePullJobActive]. *)
Definition isActive (job : ImagePullJob) : bool :=
  match pj_deletion job, pl_CompletionTime (pj_status job) with None, None => true | _, _ => false end.

Section Controller.
Context {S : Type} `{ImageApi S} `{ApiErrors} `{GoSort} `{MapOrder}.
Context (NormalizeImageRefToNameTag : string -> error + (string * string)).
(** [GetKruiseDaemonConfigNamespace], the values of [rand.Int31n(300)] and [rand.Int31n(1200)],
    and [expectations.ExpectationTimeout]. *)
Context (daemonNamespace : string) (now rand300 rand1200 ExpectationTimeout : Z).

Definition writeNodeImage (w : NodeImageWrite) : M S (error + NodeImage) :=
  call (WriteNodeImage w) (fun r => [EvNodeImage w (match r with inl _ => false | inr _ => true end)]).
Definition writeSecret (w : SecretWrite) : M S (error + Secret) :=
  call (WriteSecret w) (fun r => [EvSecret w (match r with inl _ => false | inr _ => true end)]).

(** ** pkg/control/sorting *)

Definition sortPodsForCloneSet (set : CloneSet) (pods : list Pod) : list nat :=
  SortUpdateIndexes set pods (seq 0 (length pods)).
Definition sortPodsForSidecarSet (set : SidecarSet) (pods : list Pod) : list nat :=
  SortSidecarIndexes (sd_Strategy set) pods (seq 0 (length pods)).
(** The pods are sorted in place. *)
Definition sortPodsForStatefulSet (set : StatefulSet) (pods : list Pod) : list Pod * list nat :=
  let pods := sort_by ascendingOrdinal pods in
  let indexes := rev (seq 0 (length pods)) in
  (pods, match sp_RollingUpdate set ≫= ru_UnorderedUpdate with
         | Some (Some strategy) => Priority.Sort (Some strategy) pods indexes
         | _ => indexes
         end).

(** The answer for the owner, when there is one. *)
Definition sorted_for {A} (r : error + A) (pods : list Pod) (f : A -> list Pod) : error + list Pod :=
  match r with
  | inl err => if IsNotFound err then inr pods else inl ("get workload error: " +:+ err)
  | inr set => inr (f set)
  end.
Definition SortPods (ns : string) (owner : OwnerReference) (pods : list Pod) (s : S) : error + list Pod :=
  match ParseGroupVersion (or_apiVersion owner) with
  | None => inl "parse apiVersion of owner reference error"
  | Some (group, _) =>
      let key := (ns, or_name owner) in
      if negb (String.eqb group "apps.kruise.io") then inr pods
      else if String.eqb (or_kind owner) "CloneSet" then
        sorted_for (GetCloneSetOf key s) pods (fun set => map (pod_at pods) (sortPodsForCloneSet set pods))
      else if String.eqb (or_kind owner) "StatefulSet" then
        sorted_for (GetStatefulSetOf key s) pods (fun set =>
          let '(pods, indexes) := sortPodsForStatefulSet set pods in map (pod_at pods) indexes)
      else if String.eqb (or_kind owner) "SidecarSet" then
        sorted_for (GetSidecarSetOf key s) pods (fun set => map (pod_at pods) (sortPodsForSidecarSet set pods))
      else inr pods
  end.

(** ** pkg/util/imagejob *)

Definition SortSpecImageTags (im : ImageSpec) : ImageSpec :=
  mkImageSpec (im_PullSecrets im) (sort_by (fun a b => String.leb (ts_Tag a) (ts_Tag b)) (im_Tags im)) (im_SandboxConfig im).
Definition SortStatusImageTags (st : ImageStatus) : ImageStatus :=
  mkImageStatus (sort_by (fun a b => String.leb (st_Tag a) (st_Tag b)) (is_Tags st)).

(** A selector without error matches. *)
Definition selects (sel : LabelSelector) (labels : gmap string string) : bool := default false (selector_matches (Some sel) labels).

(** The NodeImages of the nodes of some pods, each node once. *)
Fixpoint images_on_nodes (seen : gset string) (pods : list Pod) (s : S) : error + list NodeImage :=
  match pods with
  | [] => inr []
  | pod :: pods' =>
      if bool_decide (p_node pod ∈ seen) then images_on_nodes seen pods' s
      else
        let seen := {[p_node pod]} ∪ seen in
        match GetNodeImage (p_node pod) s with
        | inl err => if IsNotFound err then images_on_nodes seen pods' s else inl err
        | inr nodeImage =>
            match images_on_nodes seen pods' s with
            | inl err => inl err
            | inr l => inr (nodeImage :: l)
            end
        end
  end.
Fixpoint images_named (names : list string) (s : S) : error + list NodeImage :=
  match names with
  | [] => inr []
  | name :: names' =>
      match GetNodeImage name s with
      | inl err => if IsNotFound err then images_named names' s else inl ("get specific NodeImage " +:+ name +:+ " error: " +:+ err)
      | inr nodeImage =>
          match images_named names' s with
          | inl err => inl err
          | inr l => inr (nodeImage :: l)
          end
      end
  end.
Definition pods_of_job (job : ImagePullJob) (sel : LabelSelector) (pods : list Pod) : list Pod :=
  filterb (fun pod => String.eqb (p_namespace pod) (pj_namespace job) && selects sel (p_labels pod)
                      && (IsPodActive pod && negb (String.eqb (p_node pod) ""))) pods.
(** The answer of [GetNodeImagesForJob], without the cache. *)
Definition node_images_for (job : ImagePullJob) (s : S) : error + list NodeImage :=
  match pj_PodSelector job with
  | Some sel =>
      if negb (selector_valid (Some sel)) then inl "parse podSelector error: invalid operator"
      else
        match ListAllPods s with
        | inl err => inl err
        | inr all =>
            let pods := pods_of_job job sel all in
            let pods := match GetControllerOf (pj_owners job) with
                        | None => pods
                        | Some owner =>
                            match SortPods (pj_namespace job) owner pods s with
                            | inl _ => pods
                            | inr newPods => newPods
                            end
                        end in
            images_on_nodes ∅ pods s
        end
  | None =>
      match pj_Selector job with
      | None => ListNodeImages s
      | Some nl =>
          match nl_Names nl with
          | Some names => images_named names s
          | None =>
              if negb (selector_valid (Some (nl_LabelSelector nl))) then inl "parse selector error: invalid operator"
              else
                match ListNodeImages s with
                | inl err => inl err
                | inr l => inr (filterb (fun n => selects (nl_LabelSelector nl) (ni_labels n)) l)
                end
          end
      end
  end.

Definition on_nodeImages (f : gmap string (list string) -> gmap string (list string)) : M S unit :=
  on_local (fun l => mkLocal (l_counters l) (l_backoff l) (l_newPods l) (l_deletions l) (l_spreads l) (l_workloads l) (f (l_nodeImages l))).
(** The slice is made with its length before the names are appended. *)
Definition writeCache (job : ImagePullJob) (nodeImages : list NodeImage) : M S unit :=
  on_nodeImages (<[pj_uid job := replicate (length nodeImages) "" ++ map ni_name nodeImages]>).
Definition PopCachedNodeImagesForJob (job : ImagePullJob) : M S (list string) :=
  do names <- ask_local (fun l => default [] (l_nodeImages l !! pj_uid job));
  on_nodeImages (delete (pj_uid job)) ;;
  ret names.
Definition GetNodeImagesForJob (job : ImagePullJob) : M S (error + list NodeImage) :=
  do r <- read (node_images_for job);
  match r with
  | inl err => ret (inl err)
  | inr nodeImages => writeCache job nodeImages ;; ret (inr nodeImages)
  end.

(** Whether a job selects a NodeImage; [None] is the error of a selector.  [pods] are the pods
    on the node, or the error of listing them. *)
Definition job_matches (job : ImagePullJob) (pods : error + list Pod) (name : string) (labels : gmap string string) : option bool :=
  match pj_PodSelector job with
  | Some sel =>
      if negb (selector_valid (Some sel)) then None
      else match pods with
           | inl _ => None
           | inr pods => Some (existsb (fun pod => selects sel (p_labels pod)) pods)
           end
  | None =>
      match pj_Selector job with
      | None => Some true
      | Some nl =>
          match nl_Names nl with
          | Some names => Some (contains names name)
          | None =>
              if negb (selector_valid (Some (nl_LabelSelector nl))) then None
              else Some (negb (selector_empty (Some (nl_LabelSelector nl))) && selects (nl_LabelSelector nl) labels)
          end
      end
  end.
(** [IndexNameForPodNodeName]. *)
Definition getPodsOnNode (nodeName : string) (s : S) : error + list Pod :=
  match ListAllPods s with
  | inl err => inl err
  | inr pods => inr (filterb (fun pod => String.eqb (p_node pod) nodeName && negb (String.eqb (p_node pod) "")) pods)
  end.
Fixpoint active_jobs_for (jobs : list ImagePullJob) (pods : error + list Pod) (nodeImage : NodeImage) (old : option NodeImage)
  : error + (list ImagePullJob * list ImagePullJob) :=
  match jobs with
  | [] => inr ([], [])
  | job :: jobs' =>
      match job_matches job pods (ni_name nodeImage) (ni_labels nodeImage) with
      | None => inl ("parse selector for " +:+ key_string (jobKey job) +:+ " error")
      | Some matched =>
          let oldMatched := match old with
                            | None => false
                            | Some old => default false (job_matches job pods (ni_name nodeImage) (ni_labels old))
                            end in
          match active_jobs_for jobs' pods nodeImage old with
          | inl err => inl err
          | inr (newJobs, oldJobs) =>
              inr ((if matched then [job] else []) ++ newJobs, (if oldMatched then [job] else []) ++ oldJobs)
          end
      end
  end.
Definition GetActiveJobsForNodeImage (nodeImage : NodeImage) (old : option NodeImage) (s : S)
  : error + (list ImagePullJob * list ImagePullJob) :=
  match ListImagePullJobs s with
  | inl err => inl err
  | inr jobs => active_jobs_for (filterb isActive jobs) (getPodsOnNode (ni_name nodeImage) s) nodeImage old
  end.
Fixpoint active_jobs_of_pod (jobs : list ImagePullJob) (pod : Pod) (old : option Pod) : error + (list ImagePullJob * list ImagePullJob) :=
  match jobs with
  | [] => inr ([], [])
  | job :: jobs' =>
      match pj_PodSelector job with
      | None => active_jobs_of_pod jobs' pod old
      | Some sel =>
          if negb (selector_valid (Some sel)) then inl ("parse podSelector for " +:+ key_string (jobKey job) +:+ " error")
          else
            match active_jobs_of_pod jobs' pod old with
            | inl err => inl err
            | inr (newJobs, oldJobs) =>
                inr ((if selects sel (p_labels pod) then [job] else []) ++ newJobs,
                     (match old with Some old => if selects sel (p_labels old) then [job] else [] | None => [] end) ++ oldJobs)
            end
      end
  end.
Definition GetActiveJobsForPod (pod : Pod) (old : option Pod) (s : S) : error + (list ImagePullJob * list ImagePullJob) :=
  match ListImagePullJobs s with
  | inl err => inl err
  | inr jobs => active_jobs_of_pod (filterb (fun j => String.eqb (pj_namespace j) (p_namespace pod) && isActive j) jobs) pod old
  end.

(** ** The copies of the pull secrets *)

(** The copies this job uses: those of its secrets, and those it does not name any more. *)
Definition sort_target (job : ImagePullJob) (maps : gmap string Secret * gmap string Secret) (target : Secret)
  : gmap string Secret * gmap string Secret :=
  let '(targetMap, deleteMap) := maps in
  match se_deletion target with
  | Some _ => maps
  | None =>
      if negb (set_Contains (referenceSetFromTarget target) (jobKey job)) then maps
      else
        let '(sourceNs, sourceName) := default ("", "") (SplitMetaNamespaceKey (lbl (se_annotations target) SourceSecretKeyAnno)) in
        let uid := lbl (se_labels target) SourceSecretUIDLabelKey in
        if containsObject (getSecrets job) (mkReference sourceNs sourceName)
        then (<[uid := target]> targetMap, deleteMap) else (targetMap, <[uid := target]> deleteMap)
  end.
Definition getTargetSecretMap (job : ImagePullJob) : M S (error + (gmap string Secret * gmap string Secret)) :=
  do r <- read (ListSecrets daemonNamespace);
  match r with
  | inl err => ret (inl err)
  | inr items => ret (inr (fold_left (sort_target job) items (∅, ∅)))
  end.

(** The loop of [releaseTargetSecrets]: a copy that other jobs use ends it. *)
Fixpoint release_loop (job : ImagePullJob) (targets : list (string * Secret)) : M S (option error) :=
  match targets with
  | [] => ret None
  | (_, secret) :: targets' =>
      let keySet := referenceSetFromTarget secret in
      do r <- (if set_Contains keySet (jobKey job) then
                 do r <- writeSecret (UpdateSecretW (with_references secret (set_Delete keySet (jobKey job))));
                 match r with
                 | inl err => ret (inl err)
                 | inr secret => expectRV (se_uid secret) (se_resourceVersion secret) ;; ret (inr (set_Delete keySet (jobKey job), secret))
                 end
               else ret (inr (keySet, secret)));
      match r with
      | inl err => ret (Some err)
      | inr (keySet, secret) =>
          if negb (set_IsEmpty keySet) then ret None
          else
            do r <- writeSecret (DeleteSecretW secret);
            match r with
            | inl err => if IsNotFound err then release_loop job targets' else ret (Some err)
            | inr _ => release_loop job targets'
            end
      end
  end.
Definition releaseTargetSecrets (targetMap : gmap string Secret) (job : ImagePullJob) : M S (option error) :=
  release_loop job (range_order (map_to_list targetMap)).

Fixpoint sync_targets (job : ImagePullJob) (targetMap : gmap string Secret) (refs : list ReferenceObject) (acc : list ReferenceObject)
  : M S (error + list ReferenceObject) :=
  match refs with
  | [] => ret (inr acc)
  | sourceRef :: refs' =>
      do r <- read (GetSecret (keyFromRef sourceRef));
      match r with
      | inl err => if IsNotFound err then sync_targets job targetMap refs' acc else ret (inl err)
      | inr source =>
          let key := key_string (jobKey job) in
          let next (target : Secret) := sync_targets job targetMap refs' (acc ++ [mkReference (se_namespace target) (se_name target)]) in
          match computeTargetSyncAction source (targetMap !! se_uid source) job, targetMap !! se_uid source with
          | update, Some target =>
              do r <- writeSecret (UpdateSecretW (updateTarget target source (set_Insert (referenceSetFromTarget target) (jobKey job))));
              match r with
              | inl err => ret (inl err)
              | inr target => expectRV (se_uid target) (se_resourceVersion target) ;; next target
              end
          | noAction, Some target => next target
          | _, _ =>
              expectScale key Scale.Create (se_uid source) ;;
              do r <- writeSecret (CreateSecretW (targetFromSource daemonNamespace source (makeReferenceSet [jobKey job])));
              match r with
              | inl err => observeScale key Scale.Create (se_uid source) ;; ret (inl err)
              | inr target => next target
              end
          end
      end
  end.
Definition syncTargetSecrets (job : ImagePullJob) (targetMap : gmap string Secret) : M S (error + list ReferenceObject) :=
  sync_targets job targetMap (getSecrets job) [].

Definition finished (job : ImagePullJob) : bool := negb (isActive job).
Definition syncSecrets (job : ImagePullJob) : M S (error + list ReferenceObject) :=
  if String.eqb (pj_namespace job) daemonNamespace then ret (inr (getSecrets job))
  else
    do r <- getTargetSecretMap job;
    match r with
    | inl err => ret (inl err)
    | inr (targetMap, deleteMap) =>
        do e <- releaseTargetSecrets deleteMap job;
        match e with
        | Some err => ret (inl err)
        | None =>
            if finished job then
              do e <- releaseTargetSecrets targetMap job;
              ret (match e with Some err => inl err | None => inr [] end)
            else
              do e <- read (CheckNamespace daemonNamespace);
              match e with
              | Some err => ret (inl ("failed to check kruise-daemon-config namespace: " +:+ err))
              | None => syncTargetSecrets job targetMap
              end
        end
    end.

(** [ContainsFinalizer] is [contains]. *)
Definition updateJob (job : ImagePullJob) : M S (error + ImagePullJob) :=
  call (UpdateImagePullJob job)
    (fun r => [EvFinalizers (pj_namespace job) (pj_name job) (pj_finalizers job) (match r with inl _ => false | inr _ => true end)]).
Definition addProtectionFinalizer (job : ImagePullJob) : M S (error + ImagePullJob) :=
  if contains (pj_finalizers job) ProtectionFinalizer then ret (inr job)
  else updateJob (with_job_finalizers job (pj_finalizers job ++ [ProtectionFinalizer])).
Definition finalize (job : ImagePullJob) : M S (error + ImagePullJob) :=
  if negb (contains (pj_finalizers job) ProtectionFinalizer) then ret (inr job)
  else
    do r <- syncSecrets job;
    match r with
    | inl err => ret (inl err)
    | inr _ => updateJob (with_job_finalizers job (filterb (fun f => negb (String.eqb f ProtectionFinalizer)) (pj_finalizers job)))
    end.

(** ** The status of a job *)

(** The group of a NodeImage; [None] is a NodeImage in no group. *)
Inductive NodeGroup := notSynced | pulling | succeeded | failed.
#[export] Instance NodeGroup_eq_dec : EqDecision NodeGroup.
Proof. solve_decision. Defined.

(** The version of the tag that the job owns; [-1] is none. *)
Fixpoint tag_version (job : ImagePullJob) (imageTag : string) (tags : list ImageTagSpec) (tagVersion : Z) : Z :=
  match tags with
  | [] => tagVersion
  | tagSpec :: tags' =>
      if negb (String.eqb (ts_Tag tagSpec) imageTag) then tag_version job imageTag tags' tagVersion
      else if negb (existsb (fun ref => String.eqb (oref_UID ref) (pj_uid job)) (ts_OwnerReferences tagSpec)) then tagVersion
      else tag_version job imageTag tags' (ts_Version tagSpec)
  end.
Fixpoint status_group (imageTag : string) (tagVersion : Z) (tags : list ImageTagStatus) : option NodeGroup :=
  match tags with
  | [] => None
  | tagStatus :: tags' =>
      if negb (String.eqb (st_Tag tagStatus) imageTag) then status_group imageTag tagVersion tags'
      else if negb (st_Version tagStatus =? tagVersion) then Some pulling
      else if String.eqb (st_Phase tagStatus) ImagePhaseSucceeded then Some succeeded
      else if String.eqb (st_Phase tagStatus) ImagePhaseFailed then Some failed
      else Some pulling
  end.
Definition node_group (job : ImagePullJob) (imageName imageTag : string) (secrets : list ReferenceObject) (nodeImage : NodeImage)
  : option NodeGroup :=
  let tagVersion :=
    match ni_Images nodeImage !! imageName with
    | None => Some (-1)
    | Some imageSpec =>
        if forallb (containsObject (im_PullSecrets imageSpec)) secrets then Some (tag_version job imageTag (im_Tags imageSpec) (-1)) else None
    end in
  match tagVersion with
  | None => Some notSynced
  | Some v =>
      if v <? 0 then Some notSynced
      else
        match ns_ImageStatuses (ni_status nodeImage) !! imageName with
        | None => Some pulling
        | Some imageStatus => status_group imageTag v (is_Tags imageStatus)
        end
  end.
Definition names_in (group : NodeImage -> option NodeGroup) (g : NodeGroup) (nodeImages : list NodeImage) : list string :=
  map ni_name (filterb (fun n => bool_decide (group n = Some g)) nodeImages).

Definition policy_ends (job : ImagePullJob) : bool := negb (String.eqb (cp_Type (pj_CompletionPolicy job)) Never).
Definition calculateStatus (job : ImagePullJob) (nodeImages : list NodeImage) (secrets : list ReferenceObject)
  : error + (ImagePullJobStatus * list string) :=
  let startTime := default now (pl_StartTime (pj_status job)) in
  let desired := wrap32 (len nodeImages) in
  match NormalizeImageRefToNameTag (pj_Image job) with
  | inl err => inl ("invalid image " +:+ pj_Image job +:+ ": " +:+ err)
  | inr (imageName, imageTag) =>
      let group := node_group job imageName imageTag secrets in
      let notSynced := names_in group notSynced nodeImages in
      let pulling := names_in group pulling nodeImages in
      let succeeded := names_in group succeeded nodeImages in
      let failed := names_in group failed nodeImages in
      let exceeded :=
        match cp_ActiveDeadlineSeconds (pj_CompletionPolicy job) with
        | None => false
        | Some deadline =>
            policy_ends job && negb (desired =? len succeeded + len failed) && (secondsToDuration deadline <=? now - startTime)
        end in
      if exceeded then
        let failed := failed ++ pulling ++ notSynced in
        inr (mkPullStatus (Some startTime) (Some now) desired 0 (wrap32 (len succeeded)) (wrap32 (len failed))
               "job exceeds activeDeadlineSeconds" failed, [])
      else
        let succeededN := wrap32 (len succeeded) in
        let failedN := wrap32 (len failed) in
        let completion := if policy_ends job && (wrap32 (desired - succeededN - failedN) =? 0) then Some now else None in
        let st := mkPullStatus (Some startTime) completion desired (wrap32 (len pulling)) succeededN failedN "" failed in
        inr (mkPullStatus (Some startTime) completion desired (wrap32 (len pulling)) succeededN failedN
               (formatStatusMessage st) (sort_by string_lt failed), notSynced)
  end.

(** ** Writing the image to the NodeImages *)

(** The tags with the owner added to the one with this tag: [None] when the job owns it already,
    [Some None] when no tag is this one. *)
Fixpoint own_tag (job : ImagePullJob) (imageTag : string) (tags : list ImageTagSpec) : option (option (list ImageTagSpec)) :=
  match tags with
  | [] => Some None
  | tagSpec :: tags' =>
      if negb (String.eqb (ts_Tag tagSpec) imageTag) then
        match own_tag job imageTag tags' with
        | None => None
        | Some None => Some None
        | Some (Some l) => Some (Some (tagSpec :: l))
        end
      else if ContainsObjectRef (ts_OwnerReferences tagSpec) (getOwnerRef job) then None
      else Some (Some (mkTagSpec (ts_Tag tagSpec) (Some now) (ts_PullPolicy tagSpec)
                         (ts_OwnerReferences tagSpec ++ [getOwnerRef job]) (wrap64 (ts_Version tagSpec + 1)) (pj_ImagePullPolicy job) :: tags'))
  end.
Definition found_version (imageTag : string) (st : option ImageStatus) : Z :=
  match st with
  | None => -1
  | Some st => match find (fun t => String.eqb (st_Tag t) imageTag) (is_Tags st) with Some t => st_Version t | None => -1 end
  end.
Definition add_secrets (secrets pullSecrets : list ReferenceObject) : list ReferenceObject :=
  fold_left (fun acc secret => if containsObject acc secret then acc else acc ++ [secret]) secrets pullSecrets.
(** The NodeImage that is written; [None] when the job owns the tag already. *)
Definition synced_image (job : ImagePullJob) (imageName imageTag : string) (secrets : list ReferenceObject) (nodeImage : NodeImage)
  : option NodeImage :=
  let imageSpec := default (mkImageSpec [] [] None) (ni_Images nodeImage !! imageName) in
  match own_tag job imageTag (im_Tags imageSpec) with
  | None => None
  | Some tags =>
      let tags :=
        match tags with
        | Some tags => tags
        | None =>
            im_Tags imageSpec ++
              [mkTagSpec imageTag (Some now) (Some (getImagePullPolicy rand300 rand1200 job)) [getOwnerRef job]
                 (wrap64 (found_version imageTag (ns_ImageStatuses (ni_status nodeImage) !! imageName) + 1)) ""]
        end in
      let imageSpec := mkImageSpec (add_secrets secrets (im_PullSecrets imageSpec)) tags (pj_SandboxConfig job) in
      Some (with_images nodeImage (<[imageName := SortSpecImageTags imageSpec]> (ni_Images nodeImage)))
  end.
(** One try of the function that is retried on a conflict. *)
Definition sync_try (job : ImagePullJob) (imageName imageTag : string) (secrets : list ReferenceObject) (name : string) (_ : unit)
  : M S (option error * unit) :=
  do r <- read (GetNodeImage name);
  match r with
  | inl err => ret (Some err, tt)
  | inr nodeImage =>
      match synced_image job imageName imageTag secrets nodeImage with
      | None => ret (None, tt)
      | Some written =>
          do r <- writeNodeImage (UpdateNodeImageW written);
          match r with
          | inl err => ret (Some err, tt)
          | inr answer =>
              (if negb (String.eqb (ni_resourceVersion nodeImage) (ni_resourceVersion answer))
               then expectRV (ni_uid answer) (ni_resourceVersion answer) else ret tt) ;;
              ret (None, tt)
          end
      end
  end.
Fixpoint sync_each (job : ImagePullJob) (imageName imageTag : string) (secrets : list ReferenceObject) (names : list string)
  : M S (option error) :=
  match names with
  | [] => ret None
  | name :: names' =>
      do e <- RetryOnConflict retry_steps (sync_try job imageName imageTag secrets name) tt;
      match e with
      | Some err => ret (Some ("update NodeImage " +:+ name +:+ " error: " +:+ err))
      | None => sync_each job imageName imageTag secrets names'
      end
  end.
(** [intstr.IntValue]. *)
Definition IntValue (x : IntOrString) : Z := match x with FromInt i => i | FromString s => conv_val (Atoi s) end.
Definition parallelismLimit (job : ImagePullJob) : Z := match pj_Parallelism job with Some p => IntValue p | None => defaultParallelism end.
Definition syncNodeImages (job : ImagePullJob) (newStatus : ImagePullJobStatus) (notSyncedNodeImages : list string)
  (secrets : list ReferenceObject) : M S (option error) :=
  let parallelism := parallelismLimit job - pl_Active newStatus in
  if parallelism <=? 0 then ret None
  else
    let '(imageName, imageTag) := match NormalizeImageRefToNameTag (pj_Image job) with inl _ => ("", "") | inr nt => nt end in
    sync_each job imageName imageTag secrets (take (Z.to_nat parallelism) notSyncedNodeImages).

(** ** Reconcile *)

(** [RequeueAfter] and the error. *)
Definition Result : Type := Z * option error.

(** A NodeImage whose last write has not been seen yet: the answer of [Reconcile]. *)
Fixpoint wait_for_images (nodeImages : list NodeImage) : M S (option Z) :=
  match nodeImages with
  | [] => ret None
  | n :: nodeImages' =>
      ask_rv (fun r => (tt, RV.Observe r (ni_uid n) (ni_resourceVersion n))) ;;
      do '(isSatisfied, unsatisfiedDuration) <- ask_rv (fun r => RV.IsSatisfied r (ni_uid n) (ni_resourceVersion n) now);
      if negb isSatisfied then ret (Some (if ExpectationTimeout <=? unsatisfiedDuration then 0 else 5 * second))
      else wait_for_images nodeImages'
  end.

Definition deleteJob (job : ImagePullJob) : M S (option error) :=
  call (DeleteImagePullJob job) (fun e => [EvDeleteNamed (pj_namespace job) (pj_name job) (is_ok e)]).
(** A job that has finished. *)
Definition reconcile_finished (job : ImagePullJob) (completionTime : Z) : M S Result :=
  do r <- finalize job;
  match r with
  | inl err => ret (0, Some ("failed to remove finalizer: " +:+ err))
  | inr job =>
      match cp_TTLSecondsAfterFinished (pj_CompletionPolicy job) with
      | None => ret (0, None)
      | Some ttl =>
          let leftTime := secondsToDuration ttl - (now - completionTime) in
          if leftTime <=? 0 then
            do e <- deleteJob job;
            ret (0, match e with Some err => Some ("delete job error: " +:+ err) | None => None end)
          else ret (leftTime, None)
      end
  end.
(** The rest of [Reconcile] once the NodeImages are known, and once the secrets are copied. *)
Definition reconcile_status (job : ImagePullJob) (nodeImages : list NodeImage) (secrets : list ReferenceObject) : M S Result :=
  match calculateStatus job nodeImages secrets with
  | inl err => ret (0, Some ("failed to calculate status: " +:+ err))
  | inr (newStatus, notSyncedNodeImages) =>
      do e <- syncNodeImages job newStatus notSyncedNodeImages secrets;
      match e with
      | Some err => ret (0, Some ("failed to sync NodeImages: " +:+ err))
      | None =>
          if negb (bool_decide (pj_status job = newStatus)) then
            do r <- call (UpdateImagePullJobStatus (with_status job newStatus))
                      (fun r => [EvUpdateStatus (match r with inl _ => false | inr _ => true end)]);
            match r with
            | inl err => ret (0, Some ("update ImagePullJob status error: " +:+ err))
            | inr job => expectRV (pj_uid job) (pj_resourceVersion job) ;; ret (0, None)
            end
          else
            match policy_ends job, cp_ActiveDeadlineSeconds (pj_CompletionPolicy job) with
            | true, Some deadline =>
                ret (Z.max minRequeueTime (secondsToDuration deadline - (now - default now (pl_StartTime newStatus))), None)
            | _, _ => ret (0, None)
            end
      end
  end.
Definition reconcile_images (job : ImagePullJob) (nodeImages : list NodeImage) : M S Result :=
  do r <- syncSecrets job;
  match r with
  | inl err => ret (0, Some ("failed to sync secrets: " +:+ err))
  | inr secrets => reconcile_status job nodeImages secrets
  end.
Definition reconcile_active (job : ImagePullJob) : M S Result :=
  do r <- addProtectionFinalizer job;
  match r with
  | inl err => ret (0, Some err)
  | inr job =>
      do r <- GetNodeImagesForJob job;
      match r with
      | inl err => ret (0, Some ("failed to get NodeImages: " +:+ err))
      | inr nodeImages =>
          do wait <- wait_for_images nodeImages;
          match wait with
          | Some d => ret (d, None)
          | None => reconcile_images job nodeImages
          end
      end
  end.
Definition waiting_result (unsatisfiedDuration : Z) : Z :=
  if ExpectationTimeout <=? unsatisfiedDuration then 0 else ExpectationTimeout - unsatisfiedDuration.
Definition Reconcile (namespace name : string) : M S Result :=
  do r <- read (GetImagePullJob namespace name);
  match r with
  | inl err => ret (0, if IsNotFound err then None else Some err)
  | inr job =>
      do '(scaleSatisfied, unsatisfiedDuration, _) <-
        ask_scale (fun r => Scale.SatisfiedExpectations r (key_string (namespace, name)) now);
      if negb scaleSatisfied then ret (waiting_result unsatisfiedDuration, None)
      else
        ask_rv (fun r => (tt, RV.Observe r (pj_uid job) (pj_resourceVersion job))) ;;
        do '(isSatisfied, unsatisfiedDuration) <- ask_rv (fun r => RV.IsSatisfied r (pj_uid job) (pj_resourceVersion job) now);
        if negb isSatisfied then ret (waiting_result unsatisfiedDuration, None)
        else
          match pj_deletion job with
          | Some _ => do r <- finalize job; ret (0, match r with inl err => Some err | inr _ => None end)
          | None =>
              match pl_CompletionTime (pj_status job) with
              | Some completionTime => reconcile_finished job completionTime
              | None => reconcile_active job
              end
          end
  end.

(** ** The events: the jobs that are enqueued *)

Definition keys_of (jobs : list ImagePullJob) : list NamespacedName := map jobKey jobs.
(** [diffJobs]. *)
Definition diffJobs (newJobs oldJobs : list ImagePullJob) : gset (string * string) :=
  let setNew : gset (string * string) := list_to_set (keys_of newJobs) in
  let setOld : gset (string * string) := list_to_set (keys_of oldJobs) in
  (setNew ∖ setOld) ∪ (setOld ∖ setNew).

(** The names whose value has changed; one that was missing counts as the zero value. *)
Definition name_changed {A} `{EqDecision A} (zero : A) (new old : gmap string A) (name : string) : bool :=
  match new !! name with
  | Some a => negb (bool_decide (a = default zero (old !! name)))
  | None => true
  end.
Definition changed_names {A} `{EqDecision A} (zero : A) (new old : gmap string A) : gset string :=
  filter (fun name => name_changed zero new old name = true) (dom new ∪ dom old).
Definition changedImages (new old : NodeImage) : gset string :=
  changed_names (mkImageSpec [] [] None) (ni_Images new) (ni_Images old)
  ∪ changed_names (mkImageStatus []) (ns_ImageStatuses (ni_status new)) (ns_ImageStatuses (ni_status old)).

Definition nodeImage_handle (nodeImage : NodeImage) : M S (list NamespacedName) :=
  do r <- read (GetActiveJobsForNodeImage nodeImage None);
  ret (match r with inl _ => [] | inr (jobs, _) => keys_of jobs end).
Definition nodeImage_handleUpdate (nodeImage old : NodeImage) : M S (list NamespacedName) :=
  let changed := changedImages nodeImage old in
  do r <- read (GetActiveJobsForNodeImage nodeImage (Some old));
  let '(newJobs, oldJobs) := match r with inl _ => ([], []) | inr p => p end in
  let touched := filterb (fun j => match NormalizeImageRefToNameTag (pj_Image j) with
                                   | inl _ => false
                                   | inr (imageName, _) => bool_decide (imageName ∈ changed)
                                   end) newJobs in
  ret (range_order (elements (diffJobs newJobs oldJobs ∪ list_to_set (keys_of touched)))).
Definition nodeImage_Create (nodeImage : NodeImage) : M S (list NamespacedName) := nodeImage_handle nodeImage.
Definition nodeImage_Update (nodeImage old : NodeImage) : M S (list NamespacedName) :=
  match ni_deletion nodeImage with
  | Some _ => nodeImage_handle nodeImage
  | None => nodeImage_handleUpdate nodeImage old
  end.
Definition nodeImage_Delete (nodeImage : NodeImage) : M S (list NamespacedName) :=
  ask_rv (fun r => (tt, RV.Delete r (ni_uid nodeImage))) ;;
  nodeImage_handle nodeImage.

Definition pod_handle (pod : Pod) : M S (list NamespacedName) :=
  if String.eqb (p_node pod) "" then ret []
  else
    do r <- read (GetActiveJobsForPod pod None);
    ret (match r with inl _ => [] | inr (jobs, _) => keys_of jobs end).
Definition pod_handleUpdate (pod old : Pod) : M S (list NamespacedName) :=
  if String.eqb (p_node pod) "" then ret []
  else if String.eqb (p_node pod) (p_node old) && bool_decide (p_labels pod = p_labels old) then ret []
  else
    do r <- read (GetActiveJobsForPod pod (Some old));
    let '(newJobs, oldJobs) := match r with inl _ => ([], []) | inr p => p end in
    ret (if String.eqb (p_node old) "" then keys_of newJobs else range_order (elements (diffJobs newJobs oldJobs))).
Definition pod_Update (pod old : Pod) : M S (list NamespacedName) :=
  match p_deletion pod with
  | Some _ => pod_handle pod
  | None => pod_handleUpdate pod old
  end.

Definition jobContainsSecret (job : ImagePullJob) (secretName : string) : bool := contains (pj_PullSecrets job) secretName.
Definition getActiveJobKeysForSecret (secret : Secret) (s : S) : error + list NamespacedName :=
  match ListImagePullJobs s with
  | inl err => inl err
  | inr jobs =>
      inr (keys_of (filterb (fun job => String.eqb (pj_namespace job) (se_namespace secret)
                                        && match pj_deletion job with Some _ => false | None => true end
                                        && jobContainsSecret job (se_name secret)) jobs))
  end.
(** A copy that has been created is observed for the jobs it names. *)
Fixpoint observe_target (keys : list NamespacedName) (uid : string) : M S unit :=
  match keys with
  | [] => ret tt
  | key :: keys' => observeScale (key_string key) Scale.Create uid ;; observe_target keys' uid
  end.
Definition observe_secret (secret : Secret) : M S (list NamespacedName) :=
  observe_target (range_order (elements (referenceSetFromTarget secret))) (lbl (se_labels secret) SourceSecretUIDLabelKey) ;;
  ret [].
Definition jobs_for_secret (secret : Secret) : M S (list NamespacedName) :=
  do r <- read (getActiveJobKeysForSecret secret);
  ret (match r with inl _ => [] | inr keys => keys end).
Definition secret_Create (secret : Secret) : M S (list NamespacedName) :=
  if String.eqb (se_namespace secret) daemonNamespace then observe_secret secret
  else match se_deletion secret with Some _ => ret [] | None => jobs_for_secret secret end.
Definition secret_Update (secret old : Secret) : M S (list NamespacedName) :=
  if String.eqb (se_namespace secret) daemonNamespace then observe_secret secret
  else
    match se_deletion secret with
    | Some _ => ret []
    | None =>
        if bool_decide (se_Data secret = se_Data old) && bool_decide (se_StringData secret = se_StringData old) then ret []
        else jobs_for_secret secret
    end.
End Controller.
