(* ===== verification/NodeImage.v ===== *)
(** * NodeImage: the controller

    pkg/controller/nodeimage: [Reconcile] keeps one NodeImage for each ready node, drops the tags
    whose jobs are gone or whose time is over, and fails the tags the node does not answer for;
    the handlers of node events and of deleted jobs.

    The text of a wait goes to the log; the times in it are left out, and so are the messages of
    a changed spec and the recorded events.  A tag without a pull policy makes the controller
    panic when its status is not complete. *)

From S2P Require Import Prelude GoLib GoText K8s Tools Expectations Lifecycle Selector UpdateSort CloneSetDiff.
From S2P Require Import ControllerExpectations WorkloadSpreadTypes ImagePullTypes World BroadcastJob CloneSetUpdate SidecarSetStrategy StatefulSetUtils SidecarSet.
From S2P Require Import WorkloadSpread DaemonSet SidecarSetReconcile ImagePull K8s.
Open Scope Z_scope.
Open Scope kruise_scope.
Local Open Scope string_scope.
Local Open Scope list_scope.
Local Open Scope Z_scope.

(** core/v1 Node, as far as this controller reads it; its conditions are those of a pod. *)
Record ImageNode := mkImageNode {
  nd_name : string;
  nd_labels : gmap string string;
  nd_deletion : option Z;
  nd_conditions : list PodCondition;
}.
Class NodeApi (S : Type) := { GetNode : string -> S -> error + ImageNode }.

Definition fakeLabelKey : string := "apps.kruise.io/fake-nodeimage".
Definition minRequeueDuration : Z := 3 * second.
Definition responseTimeout : Z := 600 * second.
Definition NodeReady : string := "Ready".
Definition VirtualKubelet : string := "virtual-kubelet".

(** [retry.RetryOnConflict], with what the function mutates. *)
Fixpoint RetryMutating {S A} `{ApiErrors} (steps : nat) (fn : A -> M S (option error * A)) (a : A) : M S (option error * A) :=
  match steps with
  | O => ret (None, a)
  | Datatypes.S steps' =>
      do '(e, a') <- fn a;
      match e with
      | None => ret (None, a')
      | Some err =>
          if IsConflict err then match steps' with O => ret (Some err, a') | _ => RetryMutating steps' fn a' end
          else ret (Some err, a')
      end
  end.

Definition with_node_labels (n : NodeImage) (labels : gmap string string) (images : gmap string ImageSpec) : NodeImage :=
  mkNodeImage (ni_name n) (ni_uid n) (ni_resourceVersion n) labels (ni_deletion n) images (ni_status n).
Definition with_node_status (n : NodeImage) (st : NodeImageStatus) : NodeImage :=
  mkNodeImage (ni_name n) (ni_uid n) (ni_resourceVersion n) (ni_labels n) (ni_deletion n) (ni_Images n) st.
Definition with_owners (t : ImageTagSpec) (refs : list ObjectReference) : ImageTagSpec :=
  mkTagSpec (ts_Tag t) (ts_CreatedAt t) (ts_PullPolicy t) refs (ts_Version t) (ts_ImagePullPolicy t).

Section Controller.
Context {S : Type} `{ImageApi S} `{NodeApi S} `{ApiErrors} `{GoSort} `{MapOrder}.
(** [fmt.Sprintf] of a message as the format, [rand.Int31n(2000)] and the flag for the delay. *)
Context (sprintf : string -> string) (now rand2000 nodeImageCreationDelayAfterNodeReady : Z).

Definition fullName (name tag : string) : string := name +:+ ":" +:+ tag.

(** ** The spec *)

(** The owner still exists. *)
Definition owner_active (ref : ObjectReference) (s : S) : bool :=
  let gvk := FromAPIVersionAndKind (oref_APIVersion ref) (oref_Kind ref) in
  if negb (String.eqb (gvk_Group gvk) "apps.kruise.io") || negb (String.eqb (gvk_Kind gvk) "ImagePullJob") then true
  else
    match GetImagePullJob (oref_Namespace ref) (oref_Name ref) s with
    | inl err => negb (IsNotFound err)
    | inr job => String.eqb (pj_uid job) (oref_UID ref)
    end.
Definition completion_time (st : option ImageStatus) (t : ImageTagSpec) : option Z :=
  match st with
  | None => None
  | Some st =>
      match find (fun x => String.eqb (st_Tag x) (ts_Tag t) && (st_Version x =? ts_Version t)) (is_Tags st) with
      | Some x => st_CompletionTime x
      | None => None
      end
  end.
(** How long a tag is kept after its completion; [None] is no end. *)
Definition tag_left (st : option ImageStatus) (t : ImageTagSpec) : option Z :=
  match ts_PullPolicy t ≫= tp_TTLSecondsAfterFinished, completion_time st t with
  | Some ttl, Some completed => Some (secondsToDuration ttl - (now - completed))
  | _, _ => None
  end.
(** What becomes of a tag: the tag that is kept, whether something changed, and how long it is
    kept. *)
Definition keep_tag (st : option ImageStatus) (t : ImageTagSpec) (s : S) : option ImageTagSpec * bool * option Z :=
  match ts_CreatedAt t with
  | None => (None, true, None)
  | Some _ =>
      let activeRefs := filterb (fun ref => owner_active ref s) (ts_OwnerReferences t) in
      let changed := negb (len activeRefs =? len (ts_OwnerReferences t)) in
      if changed && (len activeRefs =? 0) then (None, true, None)
      else
        let t := if changed then with_owners t activeRefs else t in
        match tag_left st t with
        | Some leftTime => if leftTime <=? 0 then (None, true, None) else (Some t, changed, Some leftTime)
        | None => (Some t, changed, None)
        end
  end.
Fixpoint keep_tags (name : string) (st : option ImageStatus) (tags : list ImageTagSpec) (s : S) (wait : Requeue.Duration)
  : list ImageTagSpec * bool * Requeue.Duration :=
  match tags with
  | [] => ([], false, wait)
  | t :: tags' =>
      let '(kept, changed, left_) := keep_tag st t s in
      let wait := match left_ with
                  | Some d => Requeue.UpdateWithMsg wait d ("[spec]image " +:+ fullName name (ts_Tag t) +:+ " wait TTL")
                  | None => wait
                  end in
      let '(newTags, modified, wait) := keep_tags name st tags' s wait in
      (match kept with Some t => t :: newTags | None => newTags end, changed || modified, wait)
  end.
Fixpoint keep_images (statuses : gmap string ImageStatus) (images : list (string * ImageSpec)) (s : S) (wait : Requeue.Duration)
  : gmap string ImageSpec * bool * Requeue.Duration :=
  match images with
  | [] => (∅, false, wait)
  | (name, imageSpec) :: images' =>
      let '(newTags, modified, wait) := keep_tags name (statuses !! name) (im_Tags imageSpec) s wait in
      let '(newImages, modified', wait) := keep_images statuses images' s wait in
      if 0 <? len newTags then
        (<[name := SortSpecImageTags (mkImageSpec (im_PullSecrets imageSpec) newTags (im_SandboxConfig imageSpec))]> newImages,
         modified || modified', wait)
      else (newImages, true, wait)
  end.
(** The NodeImage, [modified] and the wait. *)
Definition doUpdateNodeImage (nodeImage : NodeImage) (node : option ImageNode) (s : S) : NodeImage * bool * Requeue.Duration :=
  let labels := match node with Some node => nd_labels node | None => ni_labels nodeImage end in
  let labelsChanged := negb (bool_decide (ni_labels nodeImage = labels)) in
  let '(newImages, imagesChanged, wait) :=
    keep_images (ns_ImageStatuses (ni_status nodeImage)) (range_order (map_to_list (ni_Images nodeImage))) s Requeue.zero in
  let modified := labelsChanged || imagesChanged in
  (with_node_labels nodeImage labels (if modified then newImages else ni_Images nodeImage), modified, wait).

Definition update_try (name : string) (node : option ImageNode) (a : bool * Requeue.Duration)
  : M S (option error * (bool * Requeue.Duration)) :=
  do r <- read (GetNodeImage name);
  match r with
  | inl err => ret (Some err, a)
  | inr nodeImage =>
      do '(written, modified, wait) <- read (doUpdateNodeImage nodeImage node);
      if negb modified then ret (None, (modified, wait))
      else
        do r <- writeNodeImage (UpdateNodeImageW written);
        ret (match r with inl err => Some err | inr _ => None end, (modified, wait))
  end.
(** [modified], the error and the duration. *)
Definition updateNodeImage (name : string) (node : option ImageNode) (duration : Requeue.Duration)
  : M S (bool * option error * Requeue.Duration) :=
  do '(err, (modified, tmpDuration)) <- RetryMutating retry_steps (update_try name node) (false, Requeue.zero);
  ret (modified, err, Requeue.Merge sprintf duration tmpDuration).

(** ** The status *)

Definition failed_status (version : Z) (message : string) (s : ImageTagStatus) : ImageTagStatus :=
  mkTagStatus (st_Tag s) ImagePhaseFailed (st_Progress s) (st_StartTime s) (Some now) version (st_ImageID s) message.
Definition notResponded : string := "node has not responded for a long time".
Definition exceeds : string := "pulling exceeds the activeDeadlineSeconds".
Fixpoint put_status (tag : string) (f : ImageTagStatus -> ImageTagStatus) (tags : list ImageTagStatus) : list ImageTagStatus :=
  match tags with
  | [] => []
  | s :: tags' => if String.eqb (st_Tag s) tag then f s :: tags' else s :: put_status tag f tags'
  end.
(** The first part: the node has to answer in time.  [None] is a wait. *)
Definition respond (t : ImageTagSpec) (created : Z) (tags : list ImageTagStatus) : option (list ImageTagStatus * ImageTagStatus) :=
  match find (fun s => String.eqb (st_Tag s) (ts_Tag t)) tags with
  | Some st =>
      if st_Version st =? ts_Version t then Some (tags, st)
      else if 0 <? responseTimeout - (now - created) then None
      else Some (put_status (ts_Tag t) (failed_status (ts_Version t) notResponded) tags, failed_status (ts_Version t) notResponded st)
  | None =>
      if 0 <? responseTimeout - (now - created) then None
      else
        let st := mkTagStatus (ts_Tag t) ImagePhaseFailed 0 None (Some now) (ts_Version t) "" notResponded in
        Some (tags ++ [st], st)
  end.
Definition tag_timeout (name : string) (t : ImageTagSpec) (tags : list ImageTagStatus) (d : Requeue.Duration)
  : Outcome (list ImageTagStatus * Requeue.Duration) :=
  match ts_CreatedAt t with
  | None => Value (tags, d)
  | Some created =>
      match respond t created tags with
      | None => Value (tags, Requeue.UpdateWithMsg d (responseTimeout - (now - created))
                               ("[status]image " +:+ fullName name (ts_Tag t) +:+ " wait response timeout (60)s"))
      | Some (tags, st) =>
          match st_CompletionTime st, ts_PullPolicy t with
          | Some _, _ => Value (tags, d)
          | None, None => Panic
          | None, Some policy =>
              match tp_ActiveDeadlineSeconds policy with
              | None => Value (tags, d)
              | Some deadline =>
                  let leftTime := wrap64 (secondsToDuration deadline + responseTimeout) - (now - created) in
                  if 0 <? leftTime then
                    Value (tags, Requeue.UpdateWithMsg d leftTime ("[status]image " +:+ fullName name (ts_Tag t) +:+ " wait deadline"))
                  else Value (put_status (ts_Tag t) (failed_status (ts_Version t) exceeds) tags, d)
              end
          end
      end
  end.
Fixpoint tag_timeouts (name : string) (specs : list ImageTagSpec) (tags : list ImageTagStatus) (d : Requeue.Duration)
  : Outcome (list ImageTagStatus * Requeue.Duration) :=
  match specs with
  | [] => Value (tags, d)
  | t :: specs' =>
      match tag_timeout name t tags d with
      | Panic => Panic
      | Value (tags, d) => tag_timeouts name specs' tags d
      end
  end.
Fixpoint image_timeouts (images : list (string * ImageSpec)) (statuses : gmap string ImageStatus) (d : Requeue.Duration)
  : Outcome (gmap string ImageStatus * Requeue.Duration) :=
  match images with
  | [] => Value (statuses, d)
  | (name, imageSpec) :: images' =>
      match tag_timeouts name (im_Tags imageSpec) (is_Tags (default (mkImageStatus []) (statuses !! name))) d with
      | Panic => Panic
      | Value (tags, d) =>
          image_timeouts images'
            (if 0 <? len tags then <[name := SortStatusImageTags (mkImageStatus tags)]> statuses else statuses) d
      end
  end.

Definition specFullImages (images : gmap string ImageSpec) : gset string :=
  list_to_set (concat (map (fun kv => map (fun t => fullName kv.1 (ts_Tag t)) (im_Tags kv.2)) (map_to_list images))).
(** The statuses of the images of the spec. *)
Definition live_statuses (images : gmap string ImageSpec) (statuses : gmap string ImageStatus) : gmap string ImageStatus :=
  map_imap (fun name st =>
    if bool_decide (is_Some (images !! name)) then
      let newTags := filterb (fun t => bool_decide (fullName name (st_Tag t) ∈ specFullImages images)) (is_Tags st) in
      if 0 <? len newTags then Some (mkImageStatus newTags) else None
    else None) statuses.
Definition count_phase (phase : string) (statuses : gmap string ImageStatus) : Z :=
  countb (fun t => String.eqb (st_Phase t) phase) (concat (map (fun kv => is_Tags kv.2) (map_to_list statuses))).
(** The status that is written, when there is one. *)
Definition next_status (nodeImage : NodeImage) (d : Requeue.Duration) : Outcome (option NodeImageStatus * Requeue.Duration) :=
  let old := ni_status nodeImage in
  match image_timeouts (range_order (map_to_list (ni_Images nodeImage))) (ns_ImageStatuses old) d with
  | Panic => Panic
  | Value (statuses, d) =>
      if bool_decide (statuses = ns_ImageStatuses old) then Value (None, d)
      else
        let statuses := live_statuses (ni_Images nodeImage) statuses in
        Value (Some (mkNodeStatus (wrap32 (Z.of_nat (size (specFullImages (ni_Images nodeImage)))))
                       (wrap32 (count_phase ImagePhaseSucceeded statuses)) (wrap32 (count_phase ImagePhaseFailed statuses))
                       (wrap32 (count_phase ImagePhasePulling statuses)) statuses (ns_FirstSyncStatus old)), d)
  end.
Definition updateNodeImageStatus (nodeImage : NodeImage) (d : Requeue.Duration) : M S (Outcome (option error * Requeue.Duration)) :=
  match next_status nodeImage d with
  | Panic => ret Panic
  | Value (None, d) => ret (Value (None, d))
  | Value (Some newStatus, d) =>
      do r <- writeNodeImage (StatusNodeImageW (with_node_status nodeImage newStatus));
      ret (Value (match r with inl err => Some err | inr _ => None end, d))
  end.

(** ** Reconcile *)

(** Whether the node is ready, and how long to wait then. *)
Definition getNodeReadyAndDelayTime (node : ImageNode) : bool * Z :=
  match find_condition (nd_conditions node) NodeReady with
  | None => (false, 0)
  | Some c =>
      if negb (String.eqb (c_status c) ConditionTrue) then (false, 0)
      else (true, Z.max 0 (nodeImageCreationDelayAfterNodeReady - (now - c_lastTransition c)))
  end.
(** [Get], with [None] for an object that is not found. *)
Definition get_or_none {A} (r : error + A) : error + option A :=
  match r with
  | inl err => if IsNotFound err then inr None else inl err
  | inr a => inr (Some a)
  end.
Definition new_node_image (name : string) : NodeImage := mkNodeImage name "" "" ∅ None ∅ (mkNodeStatus 0 0 0 0 ∅ None).

Definition create_for_node (name : string) (node : ImageNode) : M S Result :=
  let '(isReady, delay) := getNodeReadyAndDelayTime node in
  if negb isReady then ret (0, None)
  else if 0 <? delay then ret (delay, None)
  else
    do r <- writeNodeImage (CreateNodeImageW (new_node_image name));
    ret (0, match r with inl err => Some ("failed to create nodeimage " +:+ name +:+ ", err: " +:+ err) | inr _ => None end).
Definition sync_node_image (nodeImage : NodeImage) (node : option ImageNode) : M S (Outcome Result) :=
  do '(modified, err, duration) <- updateNodeImage (ni_name nodeImage) node Requeue.zero;
  match err with
  | Some err => ret (Value (0, Some err))
  | None =>
      if modified : bool then ret (Value (0, None))
      else
        do r <- updateNodeImageStatus nodeImage duration;
        match r with
        | Panic => ret Panic
        | Value (Some err, _) => ret (Value (0, Some err))
        | Value (None, duration) =>
            let after := Requeue.Get duration in
            ret (Value (if (0 <? after) && (after <? minRequeueDuration) then minRequeueDuration + rand2000 * (second / 1000) else after, None))
        end
  end.
Definition node_gone (node : option ImageNode) : bool :=
  match node with None => true | Some node => match nd_deletion node with Some _ => true | None => false end end.
Definition Reconcile (name : string) : M S (Outcome Result) :=
  do node <- read (GetNode name);
  do nodeImage <- read (GetNodeImage name);
  match get_or_none node, get_or_none nodeImage with
  | inl err, _ => ret (Value (0, Some ("failed to get node " +:+ name +:+ ": " +:+ err)))
  | _, inl err => ret (Value (0, Some ("failed to get nodeimage " +:+ name +:+ ": " +:+ err)))
  | inr node, inr None =>
      match node with
      | Some n => if node_gone node then ret (Value (0, None)) else (do r <- create_for_node name n; ret (Value r))
      | None => ret (Value (0, None))
      end
  | inr node, inr (Some nodeImage) =>
      match ni_deletion nodeImage with
      | Some _ => ret (Value (0, None))
      | None =>
          if node_gone node && negb (bool_decide (is_Some (ni_labels nodeImage !! fakeLabelKey))) then
            do r <- writeNodeImage (DeleteNodeImageW nodeImage);
            ret (Value (0, match r with inl err => Some ("failed to delete nodeimage " +:+ ni_name nodeImage +:+ ", err: " +:+ err) | inr _ => None end))
          else sync_node_image nodeImage node
      end
  end.

(** ** The events: the NodeImages that are enqueued, with their delay *)

Definition nodeDelete (node : ImageNode) (s : S) : list (string * Z) :=
  match GetNodeImage (nd_name node) s with
  | inl err => if IsNotFound err then [] else [(nd_name node, 0)]
  | inr _ => [(nd_name node, 0)]
  end.
Definition nodeCreateOrUpdate (node : ImageNode) (s : S) : list (string * Z) :=
  match GetNodeImage (nd_name node) s with
  | inl err =>
      if IsNotFound err then
        let '(isReady, delay) := getNodeReadyAndDelayTime node in
        if isReady then [(nd_name node, delay)] else []
      else []
  | inr nodeImage => if bool_decide (nd_labels node = ni_labels nodeImage) then [] else [(nd_name node, 0)]
  end.
(** [Create] and [Update] are alike. *)
Definition node_CreateOrUpdate (node : ImageNode) (s : S) : list (string * Z) :=
  if String.eqb (lbl (nd_labels node) "type") VirtualKubelet then []
  else match nd_deletion node with Some _ => nodeDelete node s | None => nodeCreateOrUpdate node s end.
Definition node_Delete (node : ImageNode) (s : S) : list (string * Z) :=
  if String.eqb (lbl (nd_labels node) "type") VirtualKubelet then [] else nodeDelete node s.
Definition job_Delete (job : ImagePullJob) : M S (list string) := PopCachedNodeImagesForJob job.
End Controller.
