(* ===== verification/ImagePullSafety.v ===== *)
(** * ImagePullJob and NodeImage: the theorems

    Proofs about ImagePull.v and NodeImage.v: how many NodeImages one reconcile of a job writes,
    when a job completes, that a node which does not answer is failed and the job completes then,
    that the cleaning of a NodeImage is invisible to a living job, that every event of a
    NodeImage wakes the jobs that select it, and the text of the references of a copied secret. *)

From S2P Require Import Prelude GoLib GoText K8s Tools Expectations Lifecycle Selector UpdateSort CloneSetDiff.
From S2P Require Import ControllerExpectations WorkloadSpreadTypes ImagePullTypes World BroadcastJob CloneSetUpdate SidecarSetStrategy StatefulSetUtils SidecarSet.
From S2P Require Import WorkloadSpread DaemonSet SidecarSetReconcile ImagePull NodeImage K8s.
Open Scope Z_scope.
Open Scope kruise_scope.
Local Open Scope string_scope.
Local Open Scope list_scope.
Local Open Scope Z_scope.

(** What the clients promise: an object that is read has the name it was asked for. *)
Class ImageLaws (S : Type) `{ImageApi S} : Prop := {
  nodeImage_named : forall name s n, GetNodeImage name s = inr n -> ni_name n = name;
}.

(** ** The groups of the nodes *)

Definition in_group (group : NodeImage -> option NodeGroup) (g : NodeGroup) (n : NodeImage) : bool := bool_decide (group n = Some g).
Definition done_node (group : NodeImage -> option NodeGroup) (n : NodeImage) : bool := in_group group succeeded n || in_group group failed n.

Lemma names_in_len group g nodes : len (names_in group g nodes) = countb (in_group group g) nodes.
Proof. unfold names_in. rewrite length_map. by rewrite countb_filterb. Qed.

Lemma countb_done group nodes :
  countb (in_group group succeeded) nodes + countb (in_group group failed) nodes = countb (done_node group) nodes.
Proof.
  induction nodes as [|n nodes IH]; [done|]. simpl. unfold done_node, in_group in *.
  destruct (group n) as [[]|]; simpl; repeat case_bool_decide; simpl in *; try congruence; lia.
Qed.

Lemma countb_all {A} (f : A -> bool) l : countb f l = len l <-> forallb f l = true.
Proof.
  induction l as [|x l IH]; [done|]. simpl. pose proof (countb_le_length f l).
  destruct (f x); simpl.
  - rewrite <-IH. lia.
  - split; [lia|done].
Qed.

(** The time of the job is over. *)
Definition deadline_passed (now : Z) (job : ImagePullJob) : Prop :=
  exists d, cp_ActiveDeadlineSeconds (pj_CompletionPolicy job) = Some d /\
            secondsToDuration d <= now - default now (pl_StartTime (pj_status job)).

Section Status.
Context `{GoSort} (NormalizeImageRefToNameTag : string -> error + (string * string)) (now : Z).

Lemma calculateStatus_counts job nodes secrets st waiting imageName imageTag :
  NormalizeImageRefToNameTag (pj_Image job) = inr (imageName, imageTag) -> len nodes < 2 ^ 31 ->
  calculateStatus NormalizeImageRefToNameTag now job nodes secrets = inr (st, waiting) ->
  let group := node_group job imageName imageTag secrets in
  pl_Desired st = len nodes /\
  pl_Succeeded st = countb (in_group group succeeded) nodes /\
  (is_Some (pl_CompletionTime st) <->
     policy_ends job = true /\ (forallb (done_node group) nodes = true \/ deadline_passed now job)) /\
  (forallb (done_node group) nodes = true \/ ~ (policy_ends job = true /\ deadline_passed now job) ->
     pl_Active st = countb (in_group group pulling) nodes /\
     pl_Failed st = countb (in_group group failed) nodes /\
     pl_FailedNodes st ≡ₚ names_in group failed nodes /\
     waiting = names_in group notSynced nodes).
Proof.
  intros Hn Hlen Hc group. unfold calculateStatus in Hc. rewrite Hn in Hc.
  pose proof (countb_done group nodes) as Hdone. pose proof (countb_all (done_node group) nodes) as Hall.
  pose proof (countb_le_length (done_node group) nodes). 
  pose proof (countb_le_length (in_group group pulling) nodes). pose proof (countb_nonneg (in_group group pulling) nodes).
  pose proof (countb_nonneg (in_group group succeeded) nodes). pose proof (countb_nonneg (in_group group failed) nodes).
  fold group in Hc. rewrite !names_in_len in Hc.
  rewrite (wrap32_id (len nodes)), (wrap32_id (countb (in_group group succeeded) nodes)),
    (wrap32_id (countb (in_group group failed) nodes)), (wrap32_id (countb (in_group group pulling) nodes)),
    (wrap32_id (len nodes - countb (in_group group succeeded) nodes - countb (in_group group failed) nodes)) in Hc
    by (unfold is_int32, int32_min, int32_max; lia).
  assert (Hex : match cp_ActiveDeadlineSeconds (pj_CompletionPolicy job) with
                | Some deadline => policy_ends job && negb (len nodes =? countb (in_group group succeeded) nodes + countb (in_group group failed) nodes)
                                   && (secondsToDuration deadline <=? now - default now (pl_StartTime (pj_status job)))
                | None => false
                end = true <-> policy_ends job = true /\ deadline_passed now job /\ forallb (done_node group) nodes <> true).
  { unfold deadline_passed. destruct (cp_ActiveDeadlineSeconds _) as [d|].
    - rewrite !andb_true_iff, negb_true_iff, Z.eqb_neq, Z.leb_le, Hdone, <-Hall. split.
      + intros [[Hp Hne] Hle]. split; [done|]. split; [by exists d|]. congruence.
      + intros (Hp & (d' & [= <-] & Hle) & Hne). split; [split; [done|congruence]|done].
    - split; [done|]. by intros (_ & (d & ? & _) & _). }
  destruct (match cp_ActiveDeadlineSeconds _ with Some _ => _ | None => false end).
  - destruct Hex as [Hex _]. destruct (Hex eq_refl) as (Hp & Hd & Hnd). clear Hex. injection Hc as <- <-. simpl.
    split; [done|]. split; [done|]. split; [split; [by auto|by eexists]|]. by intros [?|[]].
  - assert (Hno : ~ (policy_ends job = true /\ deadline_passed now job /\ forallb (done_node group) nodes <> true)).
    { intros Hex'. by apply Hex in Hex'. } clear Hex. injection Hc as <- <-. simpl. split; [done|]. split; [done|]. split.
    + rewrite <-Hall in *. destruct (policy_ends job); simpl.
      * destruct (Z.eqb_spec (len nodes - countb (in_group group succeeded) nodes - countb (in_group group failed) nodes) 0) as [E|E].
        -- split; [|by eexists]. intros _. split; [done|]. left. lia.
        -- split; [by intros []|]. intros [_ [Hd|Hd]]; [lia|]. destruct Hno. split; [done|]. split; [done|]. lia.
      * split; [by intros []|]. by intros [? _].
    + intros _. split; [done|]. split; [done|]. split; [apply sort_by_perm|done].
Qed.
End Status.

(** ** The first entry of a list with a key *)

Section Keyed.
Context {A : Type} (key : A -> string).
Definition first (k : string) (l : list A) : option A := find (fun x => String.eqb (key x) k) l.

Lemma first_key k l x : first k l = Some x -> x ∈ l /\ key x = k.
Proof. unfold first. intros Hf. apply find_some in Hf as [Hin Hk]. apply String.eqb_eq in Hk. by rewrite list_elem_of_In. Qed.

Lemma first_Some k l x : NoDup (map key l) -> first k l = Some x <-> x ∈ l /\ key x = k.
Proof.
  intros Hnd. split; [apply first_key|]. revert Hnd. induction l as [|y l IH]; intros Hnd [Hx Hk]; [by apply not_elem_of_nil in Hx|].
  simpl in *. apply NoDup_cons in Hnd as [Hy Hnd]. unfold first. simpl. apply elem_of_cons in Hx as [->|Hx].
  - by rewrite Hk, String.eqb_refl.
  - destruct (String.eqb_spec (key y) k) as [E|E]; [|by apply IH]. destruct Hy. rewrite E, <-Hk.
    change (map key l) with (key <$> l). by apply list_elem_of_fmap_2.
Qed.

Lemma first_perm k l l' : NoDup (map key l) -> l ≡ₚ l' -> first k l = first k l'.
Proof.
  intros Hnd Hp. assert (Hnd' : NoDup (map key l')) by (change (NoDup (key <$> l')); by rewrite <-Hp).
  destruct (first k l') as [x|] eqn:E.
  - apply first_Some; [done|]. rewrite Hp. by apply first_Some.
  - destruct (first k l) as [x|] eqn:E'; [|done]. apply first_Some in E'; [|done]. rewrite Hp in E'.
    apply first_Some in E'; [congruence|done].
Qed.

Lemma first_filterb k f l x : NoDup (map key l) -> first k l = Some x -> f x = true -> first k (filterb f l) = Some x.
Proof.
  intros Hnd Hf Hx. apply first_key in Hf as [Hin Hk]. apply first_Some.
  - change (NoDup (key <$> filterb f l)). eapply sublist_NoDup; [exact Hnd|]. change (map key l) with (key <$> l).
    apply fmap_sublist, filterb_sublist.
  - split; [by apply filterb_elem|done].
Qed.

Lemma first_cons_ne k x l : key x <> k -> first k (x :: l) = first k l.
Proof. intros Hx. unfold first. simpl. by rewrite (proj2 (String.eqb_neq _ _) Hx). Qed.
Lemma first_cons_eq k x l : key x = k -> first k (x :: l) = Some x.
Proof. intros Hx. unfold first. simpl. by rewrite (proj2 (String.eqb_eq _ _) Hx). Qed.
Lemma first_app k l l' : first k (l ++ l') = match first k l with Some x => Some x | None => first k l' end.
Proof. unfold first. induction l as [|x l IH]; simpl; [done|]. by destruct (String.eqb _ _). Qed.
End Keyed.

(** The verdict on a status, and the version of a tag. *)
Definition verdict (v : Z) (s : ImageTagStatus) : NodeGroup :=
  if negb (st_Version s =? v) then pulling
  else if String.eqb (st_Phase s) ImagePhaseSucceeded then succeeded
  else if String.eqb (st_Phase s) ImagePhaseFailed then failed
  else pulling.
Definition owned (job : ImagePullJob) (t : ImageTagSpec) : bool :=
  existsb (fun ref => String.eqb (oref_UID ref) (pj_uid job)) (ts_OwnerReferences t).

Lemma status_group_first tag v l : status_group tag v l = verdict v <$> first st_Tag tag l.
Proof.
  induction l as [|s l IH]; [done|]. unfold first, verdict. simpl. destruct (String.eqb (st_Tag s) tag); simpl; [|exact IH].
  by destruct (_ =? _), (String.eqb (st_Phase s) ImagePhaseSucceeded), (String.eqb (st_Phase s) ImagePhaseFailed).
Qed.

Lemma tag_version_first job tag l v0 : NoDup (map ts_Tag l) ->
  tag_version job tag l v0 = match first ts_Tag tag l with Some t => if owned job t then ts_Version t else v0 | None => v0 end.
Proof.
  revert v0. induction l as [|t l IH]; intros v0 Hnd; [done|]. simpl in *. apply NoDup_cons in Hnd as [Ht Hnd].
  unfold first. simpl. destruct (String.eqb_spec (ts_Tag t) tag) as [E|E]; simpl; [|by apply IH].
  unfold owned. destruct (existsb _ _); simpl; [|done]. rewrite IH by done.
  destruct (first ts_Tag tag l) as [t'|] eqn:Ef; [|done]. apply first_key in Ef as [Hin Hk]. destruct Ht. rewrite E, <-Hk.
  change (map ts_Tag l) with (ts_Tag <$> l). by apply list_elem_of_fmap_2.
Qed.

(** ** A node that does not answer *)

(** The deadline of a tag is over, also the time of the node to answer. *)
Definition deadline_over (now created : Z) (t : ImageTagSpec) : Prop :=
  exists policy deadline, ts_PullPolicy t = Some policy /\ tp_ActiveDeadlineSeconds policy = Some deadline /\
    0 <= deadline < 2 ^ 31 /\ created + deadline * second + responseTimeout <= now.
(** Nothing more is to come for a tag, given its status: it is complete, or its deadline is over,
    or the node has not answered for this version in time. *)
Definition overdue (now : Z) (t : ImageTagSpec) (st : option ImageTagStatus) : Prop :=
  exists created, ts_CreatedAt t = Some created /\
    match st with
    | Some s => if st_Version s =? ts_Version t then is_Some (st_CompletionTime s) \/ deadline_over now created t
                else created + responseTimeout <= now
    | None => created + responseTimeout <= now
    end.
(** A status that is complete says how the pull ended. *)
Definition sound_status (s : ImageTagStatus) : Prop :=
  is_Some (st_CompletionTime s) -> st_Phase s = ImagePhaseSucceeded \/ st_Phase s = ImagePhaseFailed.
Definition final (v : Z) (s : ImageTagStatus) : Prop :=
  st_Version s = v /\ (st_Phase s = ImagePhaseSucceeded \/ st_Phase s = ImagePhaseFailed).

Section Timeouts.
Context (now : Z).

Lemma put_status_tags tag v m l : map st_Tag (put_status tag (failed_status now v m) l) = map st_Tag l.
Proof. induction l as [|s l IH]; simpl; [done|]. destruct (String.eqb _ _); simpl; [done|]. by rewrite IH. Qed.
Lemma first_put_ne tag tag' v m l : tag <> tag' -> first st_Tag tag' (put_status tag (failed_status now v m) l) = first st_Tag tag' l.
Proof.
  intros Hne. unfold first. induction l as [|s l IH]; simpl; [done|]. destruct (String.eqb_spec (st_Tag s) tag) as [E|E]; simpl.
  - rewrite E. by rewrite (proj2 (String.eqb_neq _ _) Hne).
  - destruct (String.eqb _ _); [done|exact IH].
Qed.
Lemma first_put_eq tag v m l s : first st_Tag tag l = Some s ->
  first st_Tag tag (put_status tag (failed_status now v m) l) = Some (failed_status now v m s).
Proof.
  unfold first. induction l as [|x l IH]; simpl; [done|]. destruct (String.eqb (st_Tag x) tag) eqn:E; simpl.
  - intros [= <-]. by rewrite E.
  - rewrite E. exact IH.
Qed.

(** What one tag does to the statuses: those of the other tags stay, and tags stay apart. *)
Lemma respond_other t created tags tags' st tag : respond now t created tags = Some (tags', st) -> ts_Tag t <> tag ->
  first st_Tag tag tags' = first st_Tag tag tags.
Proof.
  unfold respond. intros Hr Hne. fold (first st_Tag (ts_Tag t) tags) in Hr. destruct (first _ _ _) as [s|] eqn:E.
  - destruct (_ =? _); [by injection Hr as <- <-|]. destruct (_ <? _); [done|]. injection Hr as <- <-. by apply first_put_ne.
  - destruct (_ <? _); [done|]. injection Hr as <- <-. rewrite first_app. destruct (first st_Tag tag tags); [done|]. by rewrite first_cons_ne.
Qed.
Lemma respond_NoDup t created tags tags' st : respond now t created tags = Some (tags', st) -> NoDup (map st_Tag tags) -> NoDup (map st_Tag tags').
Proof.
  unfold respond. intros Hr Hnd. fold (first st_Tag (ts_Tag t) tags) in Hr. destruct (first _ _ _) as [s|] eqn:E.
  - destruct (_ =? _); [by injection Hr as <- <-|]. destruct (_ <? _); [done|]. injection Hr as <- <-. by rewrite put_status_tags.
  - destruct (_ <? _); [done|]. injection Hr as <- <-. rewrite map_app. apply NoDup_app. split; [done|]. split.
    + intros k Hk ->%list_elem_of_singleton. change (map st_Tag tags) with (st_Tag <$> tags) in Hk.
      apply list_elem_of_fmap in Hk as (s & Hs & Hin). simpl in Hs.
      assert (first st_Tag (ts_Tag t) tags = Some s) by (apply first_Some; auto). congruence.
    + apply NoDup_singleton.
Qed.
(** The tag itself has an answer of its version. *)
Lemma respond_self t created tags tags' st : respond now t created tags = Some (tags', st) ->
  first st_Tag (ts_Tag t) tags' = Some st /\ st_Version st = ts_Version t /\
  (first st_Tag (ts_Tag t) tags = Some st \/ st_Phase st = ImagePhaseFailed).
Proof.
  unfold respond. intros Hr. fold (first st_Tag (ts_Tag t) tags) in Hr. destruct (first _ _ _) as [s|] eqn:E.
  - destruct (Z.eqb_spec (st_Version s) (ts_Version t)); [injection Hr as <- <-; auto|].
    destruct (_ <? _); [done|]. injection Hr as <- <-. rewrite (first_put_eq _ _ _ _ _ E). auto.
  - destruct (_ <? _); [done|]. injection Hr as <- <-. rewrite first_app, E, first_cons_eq by done. auto.
Qed.

(** An answer that is not complete is the one of the node. *)
Lemma respond_pending t created tags tags' st : respond now t created tags = Some (tags', st) -> st_CompletionTime st = None ->
  first st_Tag (ts_Tag t) tags = Some st /\ st_Version st = ts_Version t.
Proof.
  unfold respond. fold (first st_Tag (ts_Tag t) tags). destruct (first _ _ _) as [s|] eqn:E.
  - destruct (Z.eqb_spec (st_Version s) (ts_Version t)); [by intros [= <- <-]|]. destruct (_ <? _); [done|]. by intros [= <- <-].
  - destruct (_ <? _); [done|]. by intros [= <- <-].
Qed.

Lemma tag_timeout_other name t tags d tags' d' tag : tag_timeout now name t tags d = Value (tags', d') -> ts_Tag t <> tag ->
  first st_Tag tag tags' = first st_Tag tag tags.
Proof.
  unfold tag_timeout. destruct (ts_CreatedAt t) as [c|]; [|by intros [= <- <-]].
  destruct (respond now t c tags) as [[tags1 st]|] eqn:Er; [|by intros [= <- <-]].
  intros Hv Hne. rewrite <-(respond_other _ _ _ _ _ _ Er Hne).
  destruct (st_CompletionTime st), (ts_PullPolicy t) as [p|]; try done; try (by injection Hv as <- <-).
  destruct (tp_ActiveDeadlineSeconds p) as [dl|]; [|by injection Hv as <- <-].
  destruct (_ <? _); injection Hv as <- <-; [done|]. by apply first_put_ne.
Qed.
Lemma tag_timeout_NoDup name t tags d tags' d' : tag_timeout now name t tags d = Value (tags', d') -> NoDup (map st_Tag tags) ->
  NoDup (map st_Tag tags').
Proof.
  unfold tag_timeout. destruct (ts_CreatedAt t) as [c|]; [|by intros [= <- <-]].
  destruct (respond now t c tags) as [[tags1 st]|] eqn:Er; [|by intros [= <- <-]].
  intros Hv Hnd. pose proof (respond_NoDup _ _ _ _ _ Er Hnd).
  destruct (st_CompletionTime st), (ts_PullPolicy t) as [p|]; try done; try (by injection Hv as <- <-).
  destruct (tp_ActiveDeadlineSeconds p) as [dl|]; [|by injection Hv as <- <-].
  destruct (_ <? _); injection Hv as <- <-; [done|]. by rewrite put_status_tags.
Qed.
Lemma tag_timeout_value name t tags d : is_Some (ts_PullPolicy t) -> exists tags' d', tag_timeout now name t tags d = Value (tags', d').
Proof.
  intros [p Hp]. unfold tag_timeout. rewrite Hp. destruct (ts_CreatedAt t) as [c|]; [|eauto].
  destruct (respond now t c tags) as [[tags1 st]|]; [|eauto]. destruct (st_CompletionTime st); [eauto|].
  destruct (tp_ActiveDeadlineSeconds p); [|eauto]. destruct (_ <? _); eauto.
Qed.
Lemma tag_timeout_final name t tags d tags' d' : tag_timeout now name t tags d = Value (tags', d') ->
  overdue now t (first st_Tag (ts_Tag t) tags) -> (forall s, first st_Tag (ts_Tag t) tags = Some s -> sound_status s) ->
  exists s, first st_Tag (ts_Tag t) tags' = Some s /\ final (ts_Version t) s.
Proof.
  intros Hv (c & Hc & Ho) Hsound. unfold tag_timeout in Hv. rewrite Hc in Hv.
  destruct (respond now t c tags) as [[tags1 st]|] eqn:Er.
  - destruct (respond_self _ _ _ _ _ Er) as (Hf & Hver & Hor).
    destruct (st_CompletionTime st) as [ct|] eqn:Ec.
    + injection Hv as <- <-. exists st. split; [done|]. split; [done|]. destruct Hor as [Hor|Hor]; [|by right].
      apply (Hsound st Hor). by rewrite Ec.
    + destruct (respond_pending _ _ _ _ _ Er Ec) as [Hst Hv1]. rewrite Hst, Hv1, Z.eqb_refl, Ec in Ho.
      destruct Ho as [[? ?]|(p & dl & Hp & Hd & Hr & Hnow)]; [done|]. rewrite Hp, Hd in Hv.
      assert (Hsec : secondsToDuration dl = dl * second).
      { unfold secondsToDuration, second. apply wrap64_id. unfold is_int64, int64_min, int64_max. lia. }
      rewrite Hsec, (wrap64_id (dl * second + responseTimeout)) in Hv
        by (unfold is_int64, int64_min, int64_max, responseTimeout, second; lia).
      destruct (Z.ltb_spec 0 (dl * second + responseTimeout - (now - c))); [lia|]. injection Hv as <- <-.
      eexists. split; [by apply first_put_eq|]. split; [done|]. by right.
  - exfalso. unfold respond in Er. fold (first st_Tag (ts_Tag t) tags) in Er. destruct (first st_Tag (ts_Tag t) tags) as [s|].
    + destruct (_ =? _); [done|]. destruct (Z.ltb_spec 0 (responseTimeout - (now - c))); [lia|done].
    + destruct (Z.ltb_spec 0 (responseTimeout - (now - c))); [lia|done].
Qed.

(** A list of tags. *)
Lemma tag_timeouts_other name specs tag tags d tags' d' : tag_timeouts now name specs tags d = Value (tags', d') ->
  tag ∉ map ts_Tag specs -> first st_Tag tag tags' = first st_Tag tag tags.
Proof.
  revert tags d. induction specs as [|t specs IH]; intros tags d; simpl; [by intros [= <- <-]|].
  destruct (tag_timeout now name t tags d) as [|[tags1 d1]] eqn:E; [done|]. intros Hv Hn.
  apply not_elem_of_cons in Hn as [Hne Hn]. rewrite (IH _ _ Hv Hn). apply (tag_timeout_other _ _ _ _ _ _ _ E). congruence.
Qed.
Lemma tag_timeouts_NoDup name specs tags d tags' d' : tag_timeouts now name specs tags d = Value (tags', d') ->
  NoDup (map st_Tag tags) -> NoDup (map st_Tag tags').
Proof.
  revert tags d. induction specs as [|t specs IH]; intros tags d; simpl; [by intros [= <- <-]|].
  destruct (tag_timeout now name t tags d) as [|[tags1 d1]] eqn:E; [done|]. intros Hv Hn.
  exact (IH _ _ Hv (tag_timeout_NoDup _ _ _ _ _ _ E Hn)).
Qed.
Lemma tag_timeouts_value name specs tags d : Forall (fun t => is_Some (ts_PullPolicy t)) specs ->
  exists tags' d', tag_timeouts now name specs tags d = Value (tags', d').
Proof.
  intros Hall. revert tags d. induction Hall as [|t specs Ht _ IH]; intros tags d; simpl; [eauto|].
  destruct (tag_timeout_value name t tags d Ht) as (tags1 & d1 & ->). apply IH.
Qed.
Lemma tag_timeouts_final name specs t tags d tags' d' : tag_timeouts now name specs tags d = Value (tags', d') ->
  NoDup (map ts_Tag specs) -> t ∈ specs -> overdue now t (first st_Tag (ts_Tag t) tags) ->
  (forall s, s ∈ tags -> sound_status s) ->
  exists s, first st_Tag (ts_Tag t) tags' = Some s /\ final (ts_Version t) s.
Proof.
  intros Hv Hnd Ht He Hs.
  assert (Hs' : forall s, first st_Tag (ts_Tag t) tags = Some s -> sound_status s) by (intros s Hf; by apply Hs; apply first_key in Hf as [? _]).
  clear Hs. revert tags d Hv Hs' He. induction specs as [|u specs IH]; intros tags d Hv Hs He; [by apply not_elem_of_nil in Ht|].
  simpl in *. apply NoDup_cons in Hnd as [Hu Hnd]. destruct (tag_timeout now name u tags d) as [|[tags1 d1]] eqn:E; [done|].
  apply elem_of_cons in Ht as [->|Ht].
  - rewrite (tag_timeouts_other _ _ _ _ _ _ _ Hv Hu). exact (tag_timeout_final _ _ _ _ _ _ E He Hs).
  - assert (Hf : first st_Tag (ts_Tag t) tags1 = first st_Tag (ts_Tag t) tags).
    { apply (tag_timeout_other _ _ _ _ _ _ _ E). intros Heq. destruct Hu. rewrite Heq.
      change (map ts_Tag specs) with (ts_Tag <$> specs). by apply list_elem_of_fmap_2. }
    apply (IH Hnd Ht tags1 d1 Hv); by rewrite Hf.
Qed.

(** The images. *)
Lemma image_timeouts_value `{GoSort} images statuses d :
  Forall (fun kv => Forall (fun t => is_Some (ts_PullPolicy t)) (im_Tags kv.2)) images ->
  exists statuses' d', image_timeouts now images statuses d = Value (statuses', d').
Proof.
  intros Hall. revert statuses d. induction Hall as [|[name im] images Him _ IH]; intros statuses d; simpl; [eauto|].
  destruct (tag_timeouts_value name (im_Tags im) (is_Tags (default (mkImageStatus []) (statuses !! name))) d Him) as (tags & d1 & ->).
  apply IH.
Qed.
Lemma image_timeouts_other `{GoSort} images statuses d statuses' d' name :
  image_timeouts now images statuses d = Value (statuses', d') -> name ∉ images.*1 -> statuses' !! name = statuses !! name.
Proof.
  revert statuses d. induction images as [|[k im] images IH]; intros statuses d; simpl; [by intros [= <- <-]|].
  destruct (tag_timeouts _ _ _ _ _) as [|[tags d1]]; [done|]. intros Hv Hn. apply not_elem_of_cons in Hn as [Hne Hn].
  rewrite (IH _ _ Hv Hn). destruct (0 <? len tags); [|done]. by rewrite lookup_insert_ne by congruence.
Qed.
Lemma image_timeouts_at `{GoSort} images statuses d statuses' d' name im :
  image_timeouts now images statuses d = Value (statuses', d') -> NoDup images.*1 -> (name, im) ∈ images ->
  exists tags d1 d2, tag_timeouts now name (im_Tags im) (is_Tags (default (mkImageStatus []) (statuses !! name))) d1 = Value (tags, d2) /\
    (0 < len tags -> statuses' !! name = Some (SortStatusImageTags (mkImageStatus tags))).
Proof.
  revert statuses d. induction images as [|[k im'] images IH]; intros statuses d Hv Hnd Hin; [by apply not_elem_of_nil in Hin|].
  simpl in *. apply NoDup_cons in Hnd as [Hk Hnd]. destruct (tag_timeouts now k _ _ _) as [|[tags d1]] eqn:E; [done|].
  apply elem_of_cons in Hin as [[= -> ->]|Hin].
  - exists tags, d, d1. split; [done|]. intros Hl. rewrite (image_timeouts_other _ _ _ _ _ _ Hv Hk).
    destruct (Z.ltb_spec 0 (len tags)); [|lia]. by rewrite lookup_insert_eq.
  - destruct (IH _ _ Hv Hnd Hin) as (tags' & d2 & d3 & Ht & Hl). exists tags', d2, d3. split; [|done]. rewrite <-Ht. do 3 f_equal.
    destruct (0 <? len tags); [|done]. rewrite lookup_insert_ne; [done|]. intros ->. destruct Hk.
    apply list_elem_of_fmap. by exists (name, im).
Qed.
End Timeouts.

(** A node that waits for nothing more of a job: it has the tag of the job with all secrets, and
    the tag is overdue. *)
Record settled (now : Z) (job : ImagePullJob) (imageName imageTag : string) (secrets : list ReferenceObject) (n : NodeImage) : Prop := {
  settled_tag : exists im t, ni_Images n !! imageName = Some im /\ NoDup (map ts_Tag (im_Tags im)) /\
    forallb (containsObject (im_PullSecrets im)) secrets = true /\
    t ∈ im_Tags im /\ ts_Tag t = imageTag /\ owned job t = true /\ 0 <= ts_Version t /\
    overdue now t (first st_Tag imageTag (is_Tags (default (mkImageStatus []) (ns_ImageStatuses (ni_status n) !! imageName))));
  settled_statuses : forall st, ns_ImageStatuses (ni_status n) !! imageName = Some st ->
    NoDup (map st_Tag (is_Tags st)) /\ Forall sound_status (is_Tags st);
}.
(** The NodeImage after its status has been updated. *)
Definition after_timeouts `{GoSort} `{MapOrder} (now : Z) (n : NodeImage) : option NodeImage :=
  match next_status now n Requeue.zero with
  | Panic => None
  | Value (None, _) => Some n
  | Value (Some st, _) => Some (with_node_status n st)
  end.

(** The status update panics on a tag of the node that has no pull policy. *)
Definition panics_without_policy `{GoSort} `{MapOrder} (now : Z) (n : NodeImage) : Prop :=
  next_status now n Requeue.zero = Panic /\
  exists name im t, ni_Images n !! name = Some im /\ t ∈ im_Tags im /\ ts_PullPolicy t = None.

Section Nodes.
Context `{GoSort} `{MapOrder} (now : Z).

Lemma range_order_NoDup {A} (m : gmap string A) : NoDup (range_order (map_to_list m)).*1.
Proof. rewrite range_order_perm. apply NoDup_fst_map_to_list. Qed.
Lemma range_order_elem {A} (m : gmap string A) k a : (k, a) ∈ range_order (map_to_list m) <-> m !! k = Some a.
Proof. rewrite range_order_perm. apply elem_of_map_to_list. Qed.

(** The group of a node that has the tag of the job, by the status of the tag. *)
Lemma node_group_tag job imageName imageTag secrets n im t :
  ni_Images n !! imageName = Some im -> NoDup (map ts_Tag (im_Tags im)) ->
  forallb (containsObject (im_PullSecrets im)) secrets = true ->
  t ∈ im_Tags im -> ts_Tag t = imageTag -> owned job t = true -> 0 <= ts_Version t ->
  node_group job imageName imageTag secrets n
  = match ns_ImageStatuses (ni_status n) !! imageName with
    | None => Some pulling
    | Some st => verdict (ts_Version t) <$> first st_Tag imageTag (is_Tags st)
    end.
Proof.
  intros Him Hnd Hs Ht Htag Ho Hv. unfold node_group. rewrite Him, Hs, tag_version_first by done.
  assert (first ts_Tag imageTag (im_Tags im) = Some t) as -> by (by apply first_Some).
  rewrite Ho. destruct (Z.ltb_spec (ts_Version t) 0); [lia|]. destruct (ns_ImageStatuses _ !! _); [|done]. by rewrite status_group_first.
Qed.
Lemma verdict_final v s : final v s -> verdict v s = succeeded \/ verdict v s = failed.
Proof. intros [Hv Hp]. unfold verdict. rewrite Hv, Z.eqb_refl. simpl. destruct Hp as [->| ->]; auto. Qed.

Lemma live_first images statuses name im t st s :
  images !! name = Some im -> t ∈ im_Tags im -> statuses !! name = Some st -> NoDup (map st_Tag (is_Tags st)) ->
  first st_Tag (ts_Tag t) (is_Tags st) = Some s ->
  exists st', live_statuses images statuses !! name = Some st' /\ first st_Tag (ts_Tag t) (is_Tags st') = Some s.
Proof.
  intros Him Ht Hst Hnd Hs. unfold live_statuses. rewrite map_lookup_imap, Hst. simpl. rewrite bool_decide_eq_true_2 by (by rewrite Him).
  set (newTags := filterb _ _).
  assert (Hf : first st_Tag (ts_Tag t) newTags = Some s).
  { apply first_filterb; [done..|]. apply bool_decide_eq_true. apply first_key in Hs as [_ ->]. unfold specFullImages.
    apply elem_of_list_to_set. apply list_elem_of_In, in_concat. exists (map (fun t => fullName name (ts_Tag t)) (im_Tags im)).
    rewrite in_map_iff, <-list_elem_of_In. split.
    - exists (name, im). split; [done|]. rewrite <-list_elem_of_In. by apply elem_of_map_to_list.
    - change (map ?f ?l) with (f <$> l). by apply (list_elem_of_fmap_2 (fun t => fullName name (ts_Tag t))). }
  destruct newTags as [|x l]; [done|]. by eexists.
Qed.

Lemma timeouts_value n :
  (exists statuses d, image_timeouts now (range_order (map_to_list (ni_Images n))) (ns_ImageStatuses (ni_status n)) Requeue.zero = Value (statuses, d))
  \/ panics_without_policy now n.
Proof.
  destruct (image_timeouts now _ _ _) as [|[statuses d]] eqn:E; [|left; by eauto]. right.
  split; [unfold next_status; by rewrite E|].
  destruct (decide (Forall (fun kv => Forall (fun t => is_Some (ts_PullPolicy t)) (im_Tags kv.2)) (range_order (map_to_list (ni_Images n))))) as [Hall|Hno].
  - destruct (image_timeouts_value now _ (ns_ImageStatuses (ni_status n)) Requeue.zero Hall) as (? & ? & Hv). congruence.
  - apply not_Forall_Exists in Hno; [|intros ?; apply _]. apply Exists_exists in Hno as ([name im] & Hin & Hno). cbn in Hno.
    apply not_Forall_Exists in Hno; [|intros ?; apply _]. apply Exists_exists in Hno as (t & Ht & Hp).
    exists name, im, t. split; [by apply range_order_elem|]. split; [done|]. by apply eq_None_not_Some.
Qed.

Lemma settled_ends job imageName imageTag secrets n : settled now job imageName imageTag secrets n ->
  panics_without_policy now n \/
  exists n', after_timeouts now n = Some n' /\ done_node (node_group job imageName imageTag secrets) n' = true.
Proof.
  intros [(im & t & Him & Hnd & Hsec & Ht & Htag & Hown & Hver & Hod) Hst].
  destruct (timeouts_value n) as [(sts & d' & E)|Hp]; [right|by left].
  unfold after_timeouts, next_status.
  rewrite E. set (tags := is_Tags (default (mkImageStatus []) (ns_ImageStatuses (ni_status n) !! imageName))) in *.
  assert (Htags : NoDup (map st_Tag tags) /\ forall s, s ∈ tags -> sound_status s).
  { unfold tags. destruct (ns_ImageStatuses _ !! imageName) as [st|] eqn:Es; simpl.
    - destruct (Hst st eq_refl) as [? Hf]. split; [done|]. by apply Forall_forall.
    - split; [constructor|]. intros s Hs. by apply not_elem_of_nil in Hs. }
  destruct (image_timeouts_at now _ _ _ _ _ imageName im E (range_order_NoDup _) (proj2 (range_order_elem _ _ _) Him)) as (tags' & d1 & d2 & Et & Hat).
  rewrite <-Htag in Hod. destruct (tag_timeouts_final _ _ _ _ _ _ _ _ Et Hnd Ht Hod (proj2 Htags)) as (s & Hs & Hfin).
  pose proof (tag_timeouts_NoDup _ _ _ _ _ _ _ Et (proj1 Htags)) as Hnd'.
  assert (Hl : 0 < len tags') by (destruct tags'; [done|simpl; lia]). specialize (Hat Hl).
  assert (Hs' : first st_Tag (ts_Tag t) (is_Tags (SortStatusImageTags (mkImageStatus tags'))) = Some s).
  { simpl. rewrite <-Hs. symmetry. apply first_perm; [done|]. symmetry. apply sort_by_perm. }
  assert (Hnds : NoDup (map st_Tag (is_Tags (SortStatusImageTags (mkImageStatus tags'))))).
  { simpl. change (NoDup (st_Tag <$> sort_by (fun a b => String.leb (st_Tag a) (st_Tag b)) tags')). by rewrite sort_by_perm. }
  assert (Hgrp : forall n', ni_Images n' = ni_Images n -> (exists st, ns_ImageStatuses (ni_status n') !! imageName = Some st /\
            first st_Tag (ts_Tag t) (is_Tags st) = Some s) -> done_node (node_group job imageName imageTag secrets) n' = true).
  { intros n' Hi (st & Hst' & Hf). unfold done_node, in_group.
    rewrite (node_group_tag _ _ _ _ _ im t) by (rewrite ?Hi; done). rewrite Hst', <-Htag, Hf. simpl.
    apply orb_true_iff. rewrite !bool_decide_eq_true. destruct (verdict_final _ _ Hfin) as [->| ->]; auto. }
  case_bool_decide as Heq.
  - exists n. split; [done|]. apply Hgrp; [done|]. rewrite <-Heq, Hat. eauto.
  - eexists. split; [done|]. apply Hgrp; [done|]. simpl. by apply (live_first _ _ _ im _ (SortStatusImageTags (mkImageStatus tags'))).
Qed.
End Nodes.

(** The pull of a tag for a job has ended on a node, with a phase. *)
Definition pulled (job : ImagePullJob) (imageName imageTag : string) (secrets : list ReferenceObject) (n : NodeImage) (phase : string) : Prop :=
  exists im t st s, ni_Images n !! imageName = Some im /\ (forall r, r ∈ secrets -> containsObject (im_PullSecrets im) r = true) /\
    t ∈ im_Tags im /\ ts_Tag t = imageTag /\ owned job t = true /\
    ns_ImageStatuses (ni_status n) !! imageName = Some st /\ s ∈ is_Tags st /\ st_Tag s = imageTag /\
    st_Version s = ts_Version t /\ st_Phase s = phase.
Definition phase_of (g : NodeGroup) : string := match g with succeeded => ImagePhaseSucceeded | _ => ImagePhaseFailed end.

Lemma tag_version_owned job tag l v0 : tag_version job tag l v0 = v0 \/
  exists t, t ∈ l /\ ts_Tag t = tag /\ owned job t = true /\ tag_version job tag l v0 = ts_Version t.
Proof.
  revert v0. induction l as [|t l IH]; intros v0; simpl; [by left|]. destruct (String.eqb_spec (ts_Tag t) tag) as [E|E]; simpl.
  - fold (owned job t). destruct (owned job t) eqn:Eo; simpl; [|by left]. right.
    destruct (IH (ts_Version t)) as [Hv|(u & Hu & Ht & Ho & Hv)].
    + exists t. split; [by left|done].
    + exists u. split; [by right|done].
  - destruct (IH v0) as [Hv|(u & Hu & Ht & Ho & Hv)]; [by left|]. right. exists u. split; [by right|done].
Qed.
Lemma done_pulled job imageName imageTag secrets n g : g = succeeded \/ g = failed ->
  node_group job imageName imageTag secrets n = Some g -> pulled job imageName imageTag secrets n (phase_of g).
Proof.
  intros Hg. unfold node_group. destruct (ni_Images n !! imageName) as [im|] eqn:Him; [|intros [= <-]; by destruct Hg].
  destruct (forallb _ secrets) eqn:Es; [|intros [= <-]; by destruct Hg].
  destruct (Z.ltb_spec (tag_version job imageTag (im_Tags im) (-1)) 0) as [Hv|Hv]; [intros [= <-]; by destruct Hg|].
  destruct (tag_version_owned job imageTag (im_Tags im) (-1)) as [Ht|(t & Ht & Htag & Ho & Htv)]; [lia|].
  destruct (ns_ImageStatuses _ !! imageName) as [st|] eqn:Est; [|intros [= <-]; by destruct Hg].
  rewrite status_group_first, Htv. destruct (first st_Tag imageTag (is_Tags st)) as [s|] eqn:Ef; [|done]. intros [= Hver].
  apply first_key in Ef as [Hs Hst]. exists im, t, st, s. rewrite forallb_forall in Es. unfold verdict in Hver.
  destruct (Z.eqb_spec (st_Version s) (ts_Version t)); simpl in Hver; [|subst g; by destruct Hg].
  repeat split; try done; [intros r Hr; apply Es; by apply list_elem_of_In|].
  destruct (String.eqb_spec (st_Phase s) ImagePhaseSucceeded); [by subst g|].
  destruct (String.eqb_spec (st_Phase s) ImagePhaseFailed); subst g; [done|]. by destruct Hg.
Qed.

(** C16: A job that completes before its deadline has ended on every node, and its status says how.
    The NodeImages it selects (less than 2^31) fall into two lists: on those of the first the pull has
    ended with success, on those of the second with a failure, where ended means that the spec has
    the tag with this job as an owner and all its pull secrets, and that the node has answered for
    that very version.  [Succeeded] is the length of the first list, [Failed] that of the second,
    [Desired] the number of nodes, [Active] zero; [FailedNodes] names exactly the nodes of the second
    list, and no node is left to write. *)
Theorem image_job_completion `{GoSort} NormalizeImageRefToNameTag now job nodes secrets st waiting imageName imageTag :
  NormalizeImageRefToNameTag (pj_Image job) = inr (imageName, imageTag) -> len nodes < 2 ^ 31 ->
  calculateStatus NormalizeImageRefToNameTag now job nodes secrets = inr (st, waiting) ->
  ~ deadline_passed now job -> is_Some (pl_CompletionTime st) ->
  exists good bad, nodes ≡ₚ good ++ bad /\
    Forall (fun n => pulled job imageName imageTag secrets n ImagePhaseSucceeded) good /\
    Forall (fun n => pulled job imageName imageTag secrets n ImagePhaseFailed) bad /\
    pl_Succeeded st = len good /\ pl_Failed st = len bad /\ pl_FailedNodes st ≡ₚ map ni_name bad /\
    pl_Desired st = len nodes /\ pl_Active st = 0 /\ waiting = [].
Proof.
  intros Hn Hlen Hc Hdl Hcomp.
  destruct (calculateStatus_counts _ _ _ _ _ _ _ _ _ Hn Hlen Hc) as (Hd & Hs & Hiff & Hrest).
  destruct (proj1 Hiff Hcomp) as [Hp [Hall|]]; [|done]. destruct (Hrest (or_introl Hall)) as (Ha & Hf & Hfn & Hw).
  set (group := node_group job imageName imageTag secrets) in *. rewrite forallb_forall in Hall.
  assert (Hgrp : forall n, n ∈ nodes -> group n = Some succeeded \/ group n = Some failed).
  { intros n Hin. apply list_elem_of_In in Hin. specialize (Hall n Hin). unfold done_node, in_group in Hall.
    by rewrite orb_true_iff, !bool_decide_eq_true in Hall. }
  assert (Hnone : forall g, g = pulling \/ g = notSynced -> countb (in_group group g) nodes = 0).
  { intros g Hg. apply countb_zero. intros n Hin. unfold in_group. apply bool_decide_eq_false.
    destruct (Hgrp n Hin) as [->| ->]; destruct Hg as [->| ->]; congruence. }
  assert (Hpulled : forall g, g = succeeded \/ g = failed ->
    Forall (fun n => pulled job imageName imageTag secrets n (phase_of g)) (filterb (in_group group g) nodes)).
  { intros g Hg. apply Forall_forall. intros n [_ Hin]%filterb_elem. apply bool_decide_eq_true in Hin. by apply done_pulled. }
  exists (filterb (in_group group succeeded) nodes), (filterb (in_group group failed) nodes). split.
  { clear -Hgrp. induction nodes as [|n l IH]; [done|]. specialize (IH ltac:(intros x Hx; apply Hgrp; by right)).
    assert (Hin : forall g, in_group group g n = bool_decide (group n = Some g)) by done. cbn [filterb]. rewrite !Hin.
    destruct (Hgrp n ltac:(by left)) as [E|E]; rewrite E.
    - rewrite bool_decide_eq_true_2, bool_decide_eq_false_2 by done. cbn [app]. by rewrite <-IH.
    - rewrite bool_decide_eq_false_2, bool_decide_eq_true_2 by done. by rewrite <-Permutation_middle, <-IH. }
  split; [by apply (Hpulled succeeded); left|]. split; [by apply (Hpulled failed); right|].
  rewrite <-!countb_filterb. split; [done|]. split; [done|]. split; [exact Hfn|]. split; [done|]. split.
  - rewrite Ha. apply Hnone. by left.
  - rewrite Hw. pose proof (names_in_len group notSynced nodes) as Hl. rewrite (Hnone _ (or_intror eq_refl)) in Hl.
    apply length_zero_iff_nil. lia.
Qed.

(** C15: A dead node does not hold a job back for ever.  The completion policy is not Never, and on
    each of the nodes of the job (less than 2^31) the tag of the job is there with its owner and its
    secrets, once, and is overdue: the node has not answered for its version within the response
    timeout, or the deadline of the tag is over, or the pull has ended; the statuses of a node are
    of different tags, and one that is complete has the phase Succeeded or Failed.  Then either the
    status update of the NodeImage controller panics on a node that has a tag without a pull policy,
    or it goes through on every node, and the job completes at its next reconcile, with every node
    counted as succeeded or failed and none left to write. *)
Theorem image_job_times_out `{GoSort} `{MapOrder} NormalizeImageRefToNameTag now job nodes secrets imageName imageTag :
  NormalizeImageRefToNameTag (pj_Image job) = inr (imageName, imageTag) -> len nodes < 2 ^ 31 -> policy_ends job = true ->
  Forall (settled now job imageName imageTag secrets) nodes ->
  (exists n, n ∈ nodes /\ panics_without_policy now n) \/
  exists nodes' st, Forall2 (fun n n' => after_timeouts now n = Some n') nodes nodes' /\
    calculateStatus NormalizeImageRefToNameTag now job nodes' secrets = inr (st, []) /\
    is_Some (pl_CompletionTime st) /\ pl_Succeeded st + pl_Failed st = len nodes.
Proof.
  intros Hn Hlen Hp Hall. set (group := node_group job imageName imageTag secrets).
  assert (Hx : (exists n, n ∈ nodes /\ panics_without_policy now n) \/
    exists nodes', Forall2 (fun n n' => after_timeouts now n = Some n') nodes nodes' /\ forallb (done_node group) nodes' = true).
  { clear Hlen. induction Hall as [|n nodes Hset _ IH]; [right; by exists []|].
    destruct (settled_ends _ _ _ _ _ _ Hset) as [Hpan|(n' & Hn' & Hdn)]; [left; exists n; split; [by left|done]|].
    destruct IH as [(m & Hm & Hpan)|(nodes' & H2 & Hd)]; [left; exists m; split; [by right|done]|].
    right. exists (n' :: nodes'). split; [by constructor|]. simpl. fold group in Hdn. by rewrite Hdn. }
  destruct Hx as [Hx|(nodes' & H2 & Hd)]; [by left|right]. pose proof (Forall2_length _ _ _ H2) as Hl.
  assert (Hlen' : len nodes' < 2 ^ 31) by lia. exists nodes'.
  destruct (calculateStatus NormalizeImageRefToNameTag now job nodes' secrets) as [err|[st waiting]] eqn:Ec.
  { unfold calculateStatus in Ec. rewrite Hn in Ec. by destruct (match cp_ActiveDeadlineSeconds _ with Some _ => _ | None => _ end). }
  destruct (calculateStatus_counts _ _ _ _ _ _ _ _ _ Hn Hlen' Ec) as (Hdes & Hs & Hiff & Hrest).
  destruct (Hrest (or_introl Hd)) as (Ha & Hf & Hfn & Hw). exists st.
  assert (waiting = []) as ->.
  { fold group in Hw. rewrite Hw. unfold names_in. replace (filterb _ nodes') with (@nil NodeImage); [done|]. symmetry.
    rewrite forallb_forall in Hd. clear -Hd. induction nodes' as [|n l IH]; [done|]. simpl.
    pose proof (Hd n (or_introl eq_refl)) as Hn. unfold done_node, in_group in Hn. rewrite orb_true_iff, !bool_decide_eq_true in Hn.
    rewrite bool_decide_eq_false_2 by (destruct Hn as [->| ->]; congruence). apply IH. intros x Hx. apply Hd. by right. }
  split; [done|]. split; [done|]. split; [by apply Hiff; auto|]. rewrite Hs, Hf. rewrite countb_done. fold group. rewrite (proj2 (countb_all _ _) Hd). lia.
Qed.

(** ** The writes of a reconcile *)

(** The NodeImages that have been updated. *)
Definition node_updates (evs : list Event) : list NodeImage :=
  omap (fun ev => match ev with EvNodeImage (UpdateNodeImageW n) true => Some n | _ => None end) evs.
Definition secret_write (ev : Event) : bool := match ev with EvSecret _ _ => true | _ => false end.
Definition own_job_write (ev : Event) : bool := match ev with EvSecret _ _ | EvUpdateStatus _ => true | _ => false end.

Lemma node_updates_app e1 e2 : node_updates (e1 ++ e2) = node_updates e1 ++ node_updates e2.
Proof. apply omap_app. Qed.
Lemma own_job_updates evs : Forall (fun ev => own_job_write ev = true) evs -> node_updates evs = [].
Proof. induction 1 as [|ev evs Hev _ IH]; [done|]. by destruct ev. Qed.

Create HintDb images.
#[export] Hint Resolve only_ret only_read : images.

Section Writes.
Context {S : Type} `{ImageApi S} `{!ImageLaws S} `{ApiErrors} `{GoSort} `{MapOrder}.
Context (NormalizeImageRefToNameTag : string -> error + (string * string)).
Context (daemonNamespace : string) (now rand300 rand1200 ExpectationTimeout : Z).

Lemma only_writeSecret (w : SecretWrite) : only secret_write (writeSecret (S := S) w).
Proof. apply only_call. intros a. by repeat constructor. Qed.
Lemma only_expectRV P u v : only P (expectRV (S := S) u v).
Proof. apply emits_silent; intros w; [done|constructor]. Qed.
Lemma only_scale P f : only P (on_scale (S := S) f).
Proof. apply emits_silent; intros w; [done|constructor]. Qed.
#[local] Hint Resolve only_writeSecret only_expectRV only_scale : images.

Lemma release_loop_only job l : only secret_write (release_loop (S := S) job l).
Proof.
  induction l as [|[k secret] l IH]; simpl; [auto with images|]. apply only_bind.
  - destruct (set_Contains _ _); [|auto with images]. apply only_bind; [auto with images|]. intros [err|s]; [auto with images|].
    apply only_bind; auto with images.
  - intros [err|[keys s]]; [auto with images|]. destruct (negb _); [auto with images|]. apply only_bind; [auto with images|].
    intros [err|s']; [destruct (IsNotFound err); auto with images|done].
Qed.
Lemma sync_targets_only job targetMap refs acc : only secret_write (sync_targets (S := S) daemonNamespace job targetMap refs acc).
Proof.
  revert acc. induction refs as [|r refs IH]; intros acc; simpl; [auto with images|]. apply only_bind; [auto with images|].
  intros [err|source]; [destruct (IsNotFound err); auto with images|].
  assert (Hnew : only secret_write
    (expectScale (key_string (jobKey job)) Scale.Create (se_uid source) ;;
     do r0 <- writeSecret (S := S) (CreateSecretW (targetFromSource daemonNamespace source (makeReferenceSet [jobKey job])));
     match r0 with
     | inl err => observeScale (key_string (jobKey job)) Scale.Create (se_uid source) ;; ret (inl err)
     | inr target => sync_targets daemonNamespace job targetMap refs (acc ++ [mkReference (se_namespace target) (se_name target)])
     end)).
  { apply only_bind; [apply only_scale|]. intros _. apply only_bind; [auto with images|]. intros [err|t]; [|apply IH].
    apply only_bind; [apply only_scale|]. auto with images. }
  destruct (computeTargetSyncAction _ _ _), (targetMap !! se_uid source) as [target|]; try exact Hnew; [|apply IH].
  apply only_bind; [auto with images|]. intros [err|t]; [auto with images|]. apply only_bind; [auto with images|]. intros _. apply IH.
Qed.
Lemma syncSecrets_only job : only secret_write (syncSecrets (S := S) daemonNamespace job).
Proof.
  unfold syncSecrets. destruct (String.eqb _ _); [auto with images|]. apply only_bind.
  - unfold getTargetSecretMap. apply only_bind; [auto with images|]. intros [err|items]; auto with images.
  - intros [err|[targets deletes]]; [auto with images|]. apply only_bind; [apply release_loop_only|].
    intros [err|]; [auto with images|]. destruct (finished job).
    + apply only_bind; [apply release_loop_only|]. auto with images.
    + apply only_bind; [auto with images|]. intros [err|]; [auto with images|apply sync_targets_only].
Qed.

(** The writes for one node: each gives the image of the job to a NodeImage of that name, and at
    most one succeeds. *)
Definition gives (job : ImagePullJob) (imageName imageTag : string) (secrets : list ReferenceObject) (name : string) (ev : Event) : Prop :=
  exists n n' ok, ni_name n = name /\ synced_image now rand300 rand1200 job imageName imageTag secrets n = Some n' /\
    ev = EvNodeImage (UpdateNodeImageW n') ok.

Lemma synced_image_name job imageName imageTag secrets n n' :
  synced_image now rand300 rand1200 job imageName imageTag secrets n = Some n' -> ni_name n' = ni_name n.
Proof. unfold synced_image. destruct (own_tag _ _ _ _); [|done]. by intros [= <-]. Qed.

Lemma emits_read {A} (f : S -> A) : emits (read f) (fun evs r => evs = [] /\ exists s, r = f s).
Proof. intros w. exists []. split; [done|]. split; [done|]. by exists (w_server w). Qed.

Lemma sync_try_emits job imageName imageTag secrets name a :
  emits (sync_try (S := S) now rand300 rand1200 job imageName imageTag secrets name a) (fun evs r =>
    Forall (gives job imageName imageTag secrets name) evs /\ map ni_name (node_updates evs) `sublist_of` [name] /\
    (r.1 <> None -> node_updates evs = [])).
Proof.
  unfold sync_try. eapply emits_bind; [apply emits_read|]. intros evs r [-> [s Hr]]. destruct r as [err|n].
  { apply emits_ret. split; [done|]. split; [by apply sublist_nil_l|done]. }
  symmetry in Hr. apply nodeImage_named in Hr.
  destruct (synced_image _ _ _ _ _ _ _ n) as [n'|] eqn:En; [|apply emits_ret; split; [done|]; split; [by apply sublist_nil_l|done]].
  eapply emits_bind; [apply (emits_call _ _ (fun evs r => evs = [EvNodeImage (UpdateNodeImageW n') (match r with inl _ => false | inr _ => true end)])); done|].
  intros evs r ->. assert (Hg : forall ok, gives job imageName imageTag secrets name (EvNodeImage (UpdateNodeImageW n') ok)).
  { intros ok. exists n, n', ok. auto. }
  destruct r as [err|answer]; simpl.
  - apply emits_ret. simpl. split; [by repeat constructor|]. split; [by apply sublist_nil_l|done].
  - apply emits_quiet; [destruct (negb _); auto with images|]. intros _. apply emits_ret. simpl.
    split; [by repeat constructor|]. split; [|done]. by rewrite (synced_image_name _ _ _ _ _ _ En), Hr.
Qed.

Lemma sync_retry_emits job imageName imageTag secrets name steps a :
  emits (RetryOnConflict (S := S) steps (sync_try now rand300 rand1200 job imageName imageTag secrets name) a) (fun evs _ =>
    Forall (gives job imageName imageTag secrets name) evs /\ map ni_name (node_updates evs) `sublist_of` [name]).
Proof.
  revert a. induction steps as [|steps IH]; intros a; simpl; [apply emits_ret; split; [done|by apply sublist_nil_l]|].
  eapply emits_bind; [apply sync_try_emits|]. intros evs [[err|] a'] (Hg & Hs & Hn); simpl in *.
  - assert (Hstop : emits (ret (S := S) (Some err)) (fun evs' _ => Forall (gives job imageName imageTag secrets name) (evs ++ evs') /\
                      map ni_name (node_updates (evs ++ evs')) `sublist_of` [name])).
    { apply emits_ret. by rewrite app_nil_r. }
    destruct (IsConflict err); [|done]. destruct steps; [done|]. eapply emits_mono; [apply IH|]. intros evs' _ [Hg' Hs'].
    split; [by apply Forall_app|]. rewrite node_updates_app, Hn by done. done.
  - apply emits_ret. by rewrite app_nil_r.
Qed.

Lemma sync_each_emits job imageName imageTag secrets names :
  emits (sync_each (S := S) now rand300 rand1200 job imageName imageTag secrets names) (fun evs _ =>
    Forall (fun ev => exists name, name ∈ names /\ gives job imageName imageTag secrets name ev) evs /\
    map ni_name (node_updates evs) `sublist_of` names).
Proof.
  induction names as [|name names IH]; cbn [sync_each]; [apply emits_ret; split; [done|by apply sublist_nil_l]|].
  eapply emits_bind; [apply sync_retry_emits|]. intros evs e [Hg Hs].
  assert (Hg' : Forall (fun ev => exists k, k ∈ name :: names /\ gives job imageName imageTag secrets k ev) evs).
  { eapply Forall_impl; [exact Hg|]. intros ev He. exists name. split; [by left|done]. }
  destruct e as [err|].
  - apply emits_ret. rewrite app_nil_r. split; [done|]. etrans; [exact Hs|]. apply sublist_skip, sublist_nil_l.
  - eapply emits_mono; [exact IH|]. intros evs' _ [Hg2 Hs2]. split.
    + apply Forall_app. split; [done|]. eapply Forall_impl; [exact Hg2|]. intros ev (k & Hk & He). exists k. split; [by right|done].
    + rewrite node_updates_app, map_app. change (name :: names) with ([name] ++ names). by apply sublist_app.
Qed.

(** The writes to the NodeImages of some nodes: with the nodes that pull they stay within the
    limit, and each goes to a node that has no image of the job yet, which gets it. *)
Definition within_limit (job : ImagePullJob) (nodes : list NodeImage) (secrets : list ReferenceObject) (evs : list Event) : Prop :=
  exists imageName imageTag, NormalizeImageRefToNameTag (pj_Image job) = inr (imageName, imageTag) /\
    let group := node_group job imageName imageTag secrets in
    countb (in_group group pulling) nodes + len (node_updates evs) <= parallelismLimit job /\
    map ni_name (node_updates evs) `sublist_of` names_in group notSynced nodes /\
    (forall n, n ∈ node_updates evs -> exists old, ni_name old = ni_name n /\
       synced_image now rand300 rand1200 job imageName imageTag secrets old = Some n).

Lemma gives_updates job imageName imageTag secrets (names : list string) evs :
  Forall (fun ev => exists name, name ∈ names /\ gives job imageName imageTag secrets name ev) evs ->
  forall n, n ∈ node_updates evs -> exists old, ni_name old = ni_name n /\
    synced_image now rand300 rand1200 job imageName imageTag secrets old = Some n.
Proof.
  intros Hall n Hn. apply list_elem_of_omap in Hn as (ev & Hev & Hf). rewrite Forall_forall in Hall.
  destruct (Hall ev Hev) as (name & _ & (old & n' & ok & Hname & Hs & ->)). destruct ok; [|done]. injection Hf as <-.
  exists old. split; [|done]. symmetry. by apply (synced_image_name _ _ _ _ _ _ Hs).
Qed.

Lemma syncNodeImages_emits job nodes secrets st waiting : len nodes < 2 ^ 31 ->
  calculateStatus NormalizeImageRefToNameTag now job nodes secrets = inr (st, waiting) ->
  emits (syncNodeImages (S := S) NormalizeImageRefToNameTag now rand300 rand1200 job st waiting secrets) (fun evs _ =>
    node_updates evs = [] \/ within_limit job nodes secrets evs).
Proof.
  intros Hlen Hc. unfold syncNodeImages. destruct (Z.leb_spec (parallelismLimit job - pl_Active st) 0) as [Hp|Hp].
  { apply emits_ret. by left. }
  destruct (NormalizeImageRefToNameTag (pj_Image job)) as [err|[imageName imageTag]] eqn:En.
  { unfold calculateStatus in Hc. by rewrite En in Hc. }
  destruct (calculateStatus_counts _ _ _ _ _ _ _ _ _ En Hlen Hc) as (Hd & Hs & Hiff & Hrest).
  eapply emits_mono; [apply sync_each_emits|]. intros evs _ [Hg Hsub].
  set (group := node_group job imageName imageTag secrets) in *.
  destruct waiting as [|x rest] eqn:Ew.
  { left. rewrite take_nil in Hsub. apply sublist_nil_r in Hsub. by destruct (node_updates evs). }
  assert (Hfree : forallb (done_node group) nodes = true \/ ~ (policy_ends job = true /\ deadline_passed now job)).
  { destruct (decide (forallb (done_node group) nodes = true)) as [|Hnd]; [by left|]. right. intros [Hpe (d & Hcp & Hle)].
    unfold calculateStatus in Hc. rewrite En, Hcp, Hpe in Hc. fold group in Hc. rewrite !names_in_len in Hc.
    rewrite (proj2 (Z.leb_le _ _) Hle), andb_true_r in Hc.
    rewrite wrap32_id in Hc by (unfold is_int32, int32_min, int32_max; lia). rewrite countb_done in Hc.
    destruct (Z.eqb_spec (len nodes) (countb (done_node group) nodes)) as [E|E]; [|done].
    destruct Hnd. by apply countb_all. }
  destruct (Hrest Hfree) as (Ha & Hf & Hfn & Hw). right. exists imageName, imageTag. split; [done|]. fold group. split; [|split].
  - rewrite <-Ha. pose proof (sublist_length _ _ Hsub) as Hl. rewrite length_map, length_take in Hl. lia.
  - etrans; [exact Hsub|]. rewrite <-Hw. apply sublist_take.
  - by apply (gives_updates _ _ _ _ _ _ Hg).
Qed.
End Writes.

Lemma reconcile_status_emits {S} `{ImageApi S} `{!ImageLaws S} `{ApiErrors} `{GoSort} Norm now rand300 rand1200 job nodes secrets :
  len nodes < 2 ^ 31 ->
  emits (reconcile_status (S := S) Norm now rand300 rand1200 job nodes secrets) (fun evs _ =>
    node_updates evs = [] \/ within_limit Norm now rand300 rand1200 job nodes secrets evs).
Proof.
  intros Hlen. unfold reconcile_status. destruct (calculateStatus _ _ _ _ _) as [err|[st waiting]] eqn:Ec; [apply emits_ret; by left|].
  eapply emits_bind; [by apply syncNodeImages_emits|]. intros evs e Hevs.
  assert (Hkeep : forall evs', Forall (fun ev => own_job_write ev = true) evs' ->
    node_updates (evs ++ evs') = [] \/ within_limit Norm now rand300 rand1200 job nodes secrets (evs ++ evs')).
  { intros evs' Hown. unfold within_limit. by rewrite node_updates_app, (own_job_updates evs'), app_nil_r by done. }
  assert (Hown : forall (m : M S Result), only own_job_write m -> emits m (fun evs' _ =>
    node_updates (evs ++ evs') = [] \/ within_limit Norm now rand300 rand1200 job nodes secrets (evs ++ evs'))).
  { intros m Hm. eapply emits_mono; [exact Hm|]. intros evs' a. apply Hkeep. }
  apply Hown. destruct e as [err|]; [auto with images|]. destruct (negb _).
  - apply only_bind; [apply only_call; intros a; by repeat constructor|].
    intros [err|job']; [auto with images|]. apply only_bind; [apply only_expectRV|auto with images].
  - destruct (policy_ends job), (cp_ActiveDeadlineSeconds (pj_CompletionPolicy job)); auto with images.
Qed.


(** ** A server *)

Record ImageServer := mkImageServer {
  is_jobs : list ImagePullJob;
  is_nodes : gmap string NodeImage;
  is_secrets : gmap (string * string) Secret;
  is_pods : list Pod;
}.
Definition found {A} (o : option A) : error + A := match o with Some a => inr a | None => inl "not found" end.
#[export] Instance image_errors : ApiErrors := {|
  IsNotFound := fun e => String.eqb e "not found";
  IsAlreadyExists := fun _ => false;
  IsConflict := fun e => String.eqb e "conflict";
|}.
#[export] Instance image_server : ImageApi ImageServer := {|
  GetImagePullJob := fun ns name s => found (find (fun j => String.eqb (pj_namespace j) ns && String.eqb (pj_name j) name) (is_jobs s));
  ListImagePullJobs := fun s => inr (is_jobs s);
  UpdateImagePullJob := fun j s => (s, inr j);
  UpdateImagePullJobStatus := fun j s => (s, inr j);
  DeleteImagePullJob := fun _ s => (s, None);
  ListNodeImages := fun s => inr (map snd (map_to_list (is_nodes s)));
  GetNodeImage := fun name s => found (match is_nodes s !! name with
                                       | Some n => if String.eqb (ni_name n) name then Some n else None
                                       | None => None
                                       end);
  WriteNodeImage := fun w s =>
    match w with
    | UpdateNodeImageW n | StatusNodeImageW n | CreateNodeImageW n =>
        (mkImageServer (is_jobs s) (<[ni_name n := n]> (is_nodes s)) (is_secrets s) (is_pods s), inr n)
    | DeleteNodeImageW n => (mkImageServer (is_jobs s) (delete (ni_name n) (is_nodes s)) (is_secrets s) (is_pods s), inr n)
    end;
  ListSecrets := fun ns s => inr (filterb (fun x => String.eqb (se_namespace x) ns) (map snd (map_to_list (is_secrets s))));
  GetSecret := fun key s => found (is_secrets s !! key);
  WriteSecret := fun w s =>
    match w with
    | CreateSecretW x | UpdateSecretW x => (mkImageServer (is_jobs s) (is_nodes s) (<[secretKey x := x]> (is_secrets s)) (is_pods s), inr x)
    | DeleteSecretW x => (mkImageServer (is_jobs s) (is_nodes s) (delete (secretKey x) (is_secrets s)) (is_pods s), inr x)
    end;
  CheckNamespace := fun _ _ => None;
  ListAllPods := fun s => inr (is_pods s);
  GetCloneSetOf := fun _ _ => inl "not found";
  GetStatefulSetOf := fun _ _ => inl "not found";
  GetSidecarSetOf := fun _ _ => inl "not found";
|}.
#[export] Instance image_server_laws : ImageLaws ImageServer.
Proof.
  split. intros name s n. simpl. destruct (is_nodes s !! name) as [m|]; [|done]. simpl.
  destruct (String.eqb_spec (ni_name m) name); [|done]. by intros [= <-].
Qed.

(** A job for an image with tag v1 on some nodes: the parallelism and the deadline. *)
Definition ex_norm (image : string) : error + (string * string) := inr (image, "v1").
Definition ex_job (parallelism : Z) (deadline : option Z) : ImagePullJob :=
  mkPullJob "ns" "job" "" ∅ "uid-1" "7" [] None [ProtectionFinalizer] "app" [] None None (Some (FromInt parallelism)) None
    (mkCompletion Always deadline None) None "" (mkPullStatus (Some 0) None 0 0 0 0 "" []).
Definition ex_tag (job : ImagePullJob) (deadline : option Z) : ImageTagSpec :=
  mkTagSpec "v1" (Some 0) (Some (mkTagPolicy None None (Some 600) deadline)) [getOwnerRef job] 0 "".
Definition ex_status (phase : string) (completion : option Z) : ImageTagStatus := mkTagStatus "v1" phase 0 None completion 0 "" "".
Definition ex_node (name : string) (tags : list ImageTagSpec) (statuses : list ImageTagStatus) : NodeImage :=
  mkNodeImage name ("uid-" +:+ name) "3" ∅ None
    (match tags with [] => ∅ | _ => {["app" := mkImageSpec [] tags None]} end)
    (mkNodeStatus 0 0 0 0 (match statuses with [] => ∅ | _ => {["app" := mkImageStatus statuses]} end) None).
Definition ex_server (jobs : list ImagePullJob) (nodes : list NodeImage) : ImageServer :=
  mkImageServer jobs (list_to_map (map (fun n => (ni_name n, n)) nodes)) ∅ [].
Definition ex_image_world (s : ImageServer) : World ImageServer := mkWorld s ∅ ∅ ∅ no_local ∅ [].

(** One node pulls, two have no image yet: with a parallelism of two, one of them gets it. *)
Definition ex_nodes : list NodeImage :=
  [ex_node "a" [ex_tag (ex_job 2 None) None] [ex_status ImagePhasePulling None]; ex_node "b" [] []; ex_node "c" [] []].

(** All nodes have answered, one with a failure. *)
Definition ex_done_nodes : list NodeImage :=
  [ex_node "a" [ex_tag (ex_job 2 None) None] [ex_status ImagePhaseSucceeded (Some 9)];
   ex_node "b" [ex_tag (ex_job 2 None) None] [ex_status ImagePhaseFailed (Some 9)]].
Definition ex_done_status : ImagePullJobStatus := mkPullStatus (Some 0) (Some 50) 2 0 1 1 "job has completed" ["b"].
Lemma image_job_completion_witness :
  calculateStatus ex_norm 50 (ex_job 2 None) ex_done_nodes [] = inr (ex_done_status, []) /\
  exists good bad, ex_done_nodes ≡ₚ good ++ bad /\
    Forall (fun n => pulled (ex_job 2 None) "app" "v1" [] n ImagePhaseSucceeded) good /\
    Forall (fun n => pulled (ex_job 2 None) "app" "v1" [] n ImagePhaseFailed) bad /\
    len good = 1 /\ len bad = 1 /\ map ni_name bad = ["b"].
Proof.
  split; [vm_compute; reflexivity|].
  destruct (image_job_completion ex_norm 50 (ex_job 2 None) ex_done_nodes [] ex_done_status [] "app" "v1")
    as (good & bad & Hperm & Hgood & Hbad & Hs & Hf & Hnames & _).
  - reflexivity.
  - vm_compute. reflexivity.
  - vm_compute. reflexivity.
  - intros (d & Hd & _). discriminate Hd.
  - exists 50. reflexivity.
  - exists good, bad. split; [exact Hperm|]. split; [exact Hgood|]. split; [exact Hbad|]. split; [exact (eq_sym Hs)|]. split; [exact (eq_sym Hf)|].
    symmetry in Hnames. apply Permutation_singleton_r in Hnames. exact Hnames.
Defined.

(** One node never answers and one pulls for too long. *)
Definition ex_dead_nodes : list NodeImage :=
  [ex_node "a" [ex_tag (ex_job 2 None) None] []; ex_node "b" [ex_tag (ex_job 2 None) (Some 30)] [ex_status ImagePhasePulling None]].
Lemma ex_settled name dl sts : Forall sound_status sts -> NoDup (map st_Tag sts) ->
  overdue (700 * second) (ex_tag (ex_job 2 None) dl) (first st_Tag "v1" sts) ->
  settled (700 * second) (ex_job 2 None) "app" "v1" [] (ex_node name [ex_tag (ex_job 2 None) dl] sts).
Proof.
  intros Hs Hnd Ho.
  assert (Hst : forall st, ns_ImageStatuses (ni_status (ex_node name [ex_tag (ex_job 2 None) dl] sts)) !! "app" = Some st -> is_Tags st = sts).
  { intros st. simpl. destruct sts as [|x l]; [done|]. rewrite lookup_singleton_eq. by intros [= <-]. }
  split.
  - exists (mkImageSpec [] [ex_tag (ex_job 2 None) dl] None), (ex_tag (ex_job 2 None) dl).
    split; [done|]. split; [apply NoDup_singleton|]. split; [done|]. split; [by left|]. split; [done|]. split; [done|].
    split; [simpl; lia|]. destruct (ns_ImageStatuses _ !! "app") as [st|] eqn:E; [simpl default; by rewrite (Hst st eq_refl)|].
    destruct sts as [|x l]; [done|]. simpl in E. by rewrite lookup_singleton_eq in E.
  - intros st Hx. by rewrite (Hst st Hx).
Qed.
Lemma ex_dead_settled : Forall (settled (700 * second) (ex_job 2 None) "app" "v1" []) ex_dead_nodes.
Proof.
  repeat apply Forall_cons_2; [apply ex_settled|apply ex_settled|constructor].
  - constructor.
  - constructor.
  - exists 0. split; [done|]. vm_compute. discriminate.
  - apply Forall_singleton. intros [c Hc]. discriminate Hc.
  - apply NoDup_singleton.
  - exists 0. split; [done|]. simpl. right. exists (mkTagPolicy None None (Some 600) (Some 30)), 30.
    split; [done|]. split; [done|]. split; [lia|]. vm_compute. discriminate.
Qed.
Lemma image_job_times_out_witness :
  exists nodes' st, Forall2 (fun n n' => after_timeouts (700 * second) n = Some n') ex_dead_nodes nodes' /\
    calculateStatus ex_norm (700 * second) (ex_job 2 None) nodes' [] = inr (st, []) /\
    is_Some (pl_CompletionTime st) /\ pl_Succeeded st + pl_Failed st = len ex_dead_nodes.
Proof.
  destruct (image_job_times_out ex_norm (700 * second) (ex_job 2 None) ex_dead_nodes [] "app" "v1") as [(n & Hin & Hp & _)|Hok].
  - reflexivity.
  - vm_compute. reflexivity.
  - reflexivity.
  - exact ex_dead_settled.
  - exfalso. apply elem_of_cons in Hin as [->|Hin%list_elem_of_singleton]; [|subst n]; vm_compute in Hp; discriminate Hp.
  - exact Hok.
Defined.
