(* ===== verification/ImagePullRounds.v ===== *)
(** * ImagePullJob and NodeImage: rounds, cleaning, wake-ups, secrets

    What the write of a job does to a NodeImage, that the cleaning of NodeImages is invisible to
    living jobs, which jobs an event wakes, and the copies of pull secrets.  The last part proves
    three faults of the code: a pull that is counted nowhere, a secret that arrives late, and a
    copy that is never released. *)

From S2P Require Import Prelude GoLib GoText K8s Tools Expectations Lifecycle Selector UpdateSort CloneSetDiff.
From S2P Require Import ControllerExpectations WorkloadSpreadTypes ImagePullTypes World BroadcastJob CloneSetUpdate SidecarSetStrategy StatefulSetUtils SidecarSet.
From S2P Require Import WorkloadSpread DaemonSet SidecarSetReconcile ImagePull NodeImage ImagePullSafety TextLists K8s.
Open Scope Z_scope.
Open Scope kruise_scope.
Local Open Scope string_scope.
Local Open Scope list_scope.
Local Open Scope Z_scope.

(** ** A new round of pulls *)

(** A version that can be raised. *)
Definition version_ok (v : Z) : Prop := 0 <= v < 2 ^ 63 - 1.
(** The tags of an image are apart, and the node does not answer for versions to come. *)
Record image_ok (n : NodeImage) (imageName imageTag : string) : Prop := {
  image_tags : forall im, ni_Images n !! imageName = Some im -> NoDup (map ts_Tag (im_Tags im)) /\
    forall t, t ∈ im_Tags im -> ts_Tag t = imageTag -> version_ok (ts_Version t);
  image_statuses : forall st s, ns_ImageStatuses (ni_status n) !! imageName = Some st -> first st_Tag imageTag (is_Tags st) = Some s ->
    version_ok (st_Version s) /\
    forall im t, ni_Images n !! imageName = Some im -> t ∈ im_Tags im -> ts_Tag t = imageTag -> st_Version s <= ts_Version t;
}.

Lemma containsObject_app l1 l2 r : containsObject (l1 ++ l2) r = containsObject l1 r || containsObject l2 r.
Proof. apply existsb_app. Qed.
Lemma containsObject_self r : containsObject [r] r = true.
Proof. unfold containsObject. simpl. by rewrite !String.eqb_refl. Qed.
Lemma add_secrets_keeps secrets ps r : containsObject ps r = true -> containsObject (add_secrets secrets ps) r = true.
Proof.
  unfold add_secrets. revert ps. induction secrets as [|s secrets IH]; intros ps Hr; simpl; [done|]. apply IH.
  destruct (containsObject ps s); [done|]. by rewrite containsObject_app, Hr.
Qed.
Lemma add_secrets_all secrets ps : forallb (containsObject (add_secrets secrets ps)) secrets = true.
Proof.
  revert ps. induction secrets as [|s secrets IH]; intros ps; simpl; [done|]. rewrite IH, andb_true_r.
  change (containsObject (add_secrets secrets (if containsObject ps s then ps else ps ++ [s])) s = true). apply add_secrets_keeps.
  destruct (containsObject ps s) eqn:E; [done|]. by rewrite containsObject_app, containsObject_self, orb_true_r.
Qed.

Section Rounds.
Context `{GoSort} (now rand300 rand1200 : Z).

(** The tag with one more owner and the next version. *)
Definition raised (job : ImagePullJob) (t : ImageTagSpec) : ImageTagSpec :=
  mkTagSpec (ts_Tag t) (Some now) (ts_PullPolicy t) (ts_OwnerReferences t ++ [getOwnerRef job]) (wrap64 (ts_Version t + 1)) (pj_ImagePullPolicy job).
Lemma own_tag_spec job imageTag tags :
  match first ts_Tag imageTag tags with
  | None => own_tag now job imageTag tags = Some None
  | Some t => if owned job t then own_tag now job imageTag tags = None
              else exists l1 l2, tags = l1 ++ t :: l2 /\ own_tag now job imageTag tags = Some (Some (l1 ++ raised job t :: l2))
  end.
Proof.
  induction tags as [|t tags IH]; [done|]. unfold first. simpl. destruct (String.eqb (ts_Tag t) imageTag) eqn:E; simpl.
  - change (ContainsObjectRef (ts_OwnerReferences t) (getOwnerRef job)) with (owned job t). destruct (owned job t); [done|].
    by exists [], tags.
  - fold (first ts_Tag imageTag tags). destruct (first ts_Tag imageTag tags) as [u|]; [|by rewrite IH].
    destruct (owned job u); [by rewrite IH|]. destruct IH as (l1 & l2 & -> & ->). by exists (t :: l1), l2.
Qed.
Lemma owned_raised job t : owned job (raised job t) = true.
Proof. unfold owned. simpl. rewrite existsb_app. simpl. by rewrite String.eqb_refl, orb_true_r. Qed.

(** The tag that a job adds to an image without it. *)
Definition fresh_tag (job : ImagePullJob) (imageTag : string) (st : option ImageStatus) : ImageTagSpec :=
  mkTagSpec imageTag (Some now) (Some (getImagePullPolicy rand300 rand1200 job)) [getOwnerRef job] (wrap64 (found_version imageTag st + 1)) "".

(** The image before and after: one tag is raised or added. *)
Lemma synced_image_inv job imageName imageTag secrets n n' :
  synced_image now rand300 rand1200 job imageName imageTag secrets n = Some n' ->
  let im := default (mkImageSpec [] [] None) (ni_Images n !! imageName) in
  exists l1 l2 t', n' = with_images n (<[imageName := SortSpecImageTags (mkImageSpec (add_secrets secrets (im_PullSecrets im)) (l1 ++ t' :: l2) (pj_SandboxConfig job))]> (ni_Images n)) /\
    ((exists t, first ts_Tag imageTag (im_Tags im) = Some t /\ owned job t = false /\ im_Tags im = l1 ++ t :: l2 /\ t' = raised job t) \/
     (first ts_Tag imageTag (im_Tags im) = None /\ im_Tags im = l1 /\ l2 = [] /\
      t' = fresh_tag job imageTag (ns_ImageStatuses (ni_status n) !! imageName))).
Proof.
  intros Hs im. unfold synced_image in Hs. fold im in Hs. pose proof (own_tag_spec job imageTag (im_Tags im)) as Ho.
  destruct (first ts_Tag imageTag (im_Tags im)) as [t|] eqn:Ef.
  - destruct (owned job t) eqn:Eo; [by rewrite Ho in Hs|]. destruct Ho as (l1 & l2 & Hl & Ho). rewrite Ho in Hs. injection Hs as <-.
    exists l1, l2, (raised job t). split; [done|]. left. by exists t.
  - rewrite Ho in Hs. injection Hs as <-. exists (im_Tags im), [], (fresh_tag job imageTag (ns_ImageStatuses (ni_status n) !! imageName)).
    split; [done|]. by right.
Qed.
End Rounds.

(** The list [l] has the tag [t'] of the next round in place of the tag of [tags]. *)
Definition next_round (job : ImagePullJob) (imageTag : string) (st : option ImageStatus) (tags l : list ImageTagSpec) (t' : ImageTagSpec) : Prop :=
  ts_Tag t' = imageTag /\ owned job t' = true /\ NoDup (map ts_Tag l) /\
  (forall t, ts_Tag t <> imageTag -> t ∈ l <-> t ∈ tags) /\
  (forall t, t ∈ tags -> ts_Tag t = imageTag ->
     ts_OwnerReferences t' = ts_OwnerReferences t ++ [getOwnerRef job] /\ ts_Version t' = ts_Version t + 1) /\
  0 <= ts_Version t' /\ (forall s, (st ≫= fun st => first st_Tag imageTag (is_Tags st)) = Some s -> st_Version s <> ts_Version t').

Section NextRound.
Context (now rand300 rand1200 : Z) (job : ImagePullJob) (imageTag : string) (st : option ImageStatus) (tags : list ImageTagSpec).
Context (Hnd : NoDup (map ts_Tag tags)) (Hver : forall t, t ∈ tags -> ts_Tag t = imageTag -> version_ok (ts_Version t)).
Context (Hst : forall s, (st ≫= fun st => first st_Tag imageTag (is_Tags st)) = Some s ->
           version_ok (st_Version s) /\ forall t, t ∈ tags -> ts_Tag t = imageTag -> st_Version s <= ts_Version t).

Lemma raised_round l1 l2 t : first ts_Tag imageTag tags = Some t -> tags = l1 ++ t :: l2 ->
  next_round job imageTag st tags (l1 ++ raised now job t :: l2) (raised now job t).
Proof.
  intros Hf Hl. pose proof (first_key _ _ _ _ Hf) as [Hin Htag]. pose proof (Hver t Hin Htag) as Hv. unfold version_ok in Hv.
  assert (Hw : wrap64 (ts_Version t + 1) = ts_Version t + 1) by (apply wrap64_id; unfold is_int64, int64_min, int64_max; lia).
  split; [done|]. split; [apply owned_raised|]. split; [rewrite Hl, map_app in Hnd; by rewrite map_app|]. split; [|split; [|split]].
  - intros u Hu. rewrite Hl. assert (u <> t) by congruence. assert (u <> raised now job t) by (intros ->; simpl in Hu; congruence).
    rewrite !elem_of_app, !elem_of_cons. naive_solver.
  - intros u Hu Hut. assert (u = t) as ->; [|by simpl; rewrite Hw].
    assert (first ts_Tag imageTag tags = Some u) by (by apply first_Some). congruence.
  - simpl. lia.
  - intros s Hs. destruct (Hst s Hs) as [_ Hle]. specialize (Hle t Hin Htag). simpl. lia.
Qed.

Lemma fresh_round : first ts_Tag imageTag tags = None ->
  next_round job imageTag st tags (tags ++ [fresh_tag now rand300 rand1200 job imageTag st]) (fresh_tag now rand300 rand1200 job imageTag st).
Proof.
  intros Hf. assert (Hno : forall u, u ∈ tags -> ts_Tag u <> imageTag).
  { intros u Hu Hut. assert (first ts_Tag imageTag tags = Some u) by (by apply first_Some). congruence. }
  assert (Hfv : -1 <= found_version imageTag st < 2 ^ 63 - 1 /\
    forall s, (st ≫= fun st => first st_Tag imageTag (is_Tags st)) = Some s -> st_Version s = found_version imageTag st).
  { destruct st as [x|]; simpl in *; [|split; [lia|done]]. fold (first st_Tag imageTag (is_Tags x)).
    destruct (first st_Tag imageTag (is_Tags x)) as [s|]; [|split; [lia|done]].
    destruct (Hst s eq_refl) as [Hv _]. unfold version_ok in Hv. split; [lia|]. by intros ? [= <-]. }
  destruct Hfv as [Hfv Hfs]. 
  assert (Hw : wrap64 (found_version imageTag st + 1) = found_version imageTag st + 1)
    by (apply wrap64_id; unfold is_int64, int64_min, int64_max; lia).
  split; [done|]. split; [unfold owned; simpl; by rewrite String.eqb_refl|]. split; [|split; [|split; [|split]]].
  - rewrite map_app. apply NoDup_app. split; [done|]. split; [|apply NoDup_singleton]. intros k Hk ->%list_elem_of_singleton.
    change (map ts_Tag tags) with (ts_Tag <$> tags) in Hk. apply list_elem_of_fmap in Hk as (u & Hu & Hin). by apply (Hno u Hin).
  - intros u Hu. rewrite elem_of_app, list_elem_of_singleton. split; [|by left]. intros [|Heq]; [done|]. by subst u.
  - intros u Hu Hut. by destruct (Hno u Hu).
  - simpl. lia.
  - intros s Hs. rewrite (Hfs s Hs). simpl. lia.
Qed.
End NextRound.

(** The write of a job to a NodeImage starts a new round: the tag has the job as an owner,
    keeps its other owners and gets a higher version; the other tags, the other images and the
    status stay; the node then counts as pulling for the job.  One case is different, and the
    code misses it: when the node has answered for the image but not for this tag, the node is in
    no group at all, and the limit of parallel pulls does not count it. *)
Theorem image_round `{GoSort} now rand300 rand1200 job imageName imageTag secrets n n' :
  image_ok n imageName imageTag ->
  synced_image now rand300 rand1200 job imageName imageTag secrets n = Some n' ->
  let im := default (mkImageSpec [] [] None) (ni_Images n !! imageName) in
  exists im' t', ni_Images n' = <[imageName := im']> (ni_Images n) /\ ni_status n' = ni_status n /\
    t' ∈ im_Tags im' /\ ts_Tag t' = imageTag /\ owned job t' = true /\
    (forall t, ts_Tag t <> imageTag -> t ∈ im_Tags im' <-> t ∈ im_Tags im) /\
    (forall t, t ∈ im_Tags im -> ts_Tag t = imageTag ->
       ts_OwnerReferences t' = ts_OwnerReferences t ++ [getOwnerRef job] /\ ts_Version t' = ts_Version t + 1) /\
    node_group job imageName imageTag secrets n'
    = match ns_ImageStatuses (ni_status n) !! imageName with
      | None => Some pulling
      | Some st => match first st_Tag imageTag (is_Tags st) with Some _ => Some pulling | None => None end
      end.
Proof.
  intros [Htags Hsts] Hs im. destruct (synced_image_inv _ _ _ _ _ _ _ _ _ Hs) as (l1 & l2 & t' & -> & Hcase). fold im in Hcase.
  set (im' := SortSpecImageTags _). exists im', t'.
  assert (Hperm : im_Tags im' ≡ₚ l1 ++ t' :: l2) by (apply sort_by_perm).
  assert (Hnew : next_round job imageTag (ns_ImageStatuses (ni_status n) !! imageName) (im_Tags im) (l1 ++ t' :: l2) t').
  { assert (Him : forall t, t ∈ im_Tags im -> ni_Images n !! imageName = Some im).
    { unfold im. intros t. destruct (ni_Images n !! imageName); [done|]. intros Ht. by apply not_elem_of_nil in Ht. }
    assert (Hnd : NoDup (map ts_Tag (im_Tags im))).
    { unfold im. destruct (ni_Images n !! imageName) as [i|] eqn:E; [by apply (Htags i)|constructor]. }
    assert (Hver : forall t, t ∈ im_Tags im -> ts_Tag t = imageTag -> version_ok (ts_Version t)).
    { intros t Ht. by apply (proj2 (Htags im (Him t Ht))). }
    assert (Hst : forall s, (ns_ImageStatuses (ni_status n) !! imageName ≫= fun st => first st_Tag imageTag (is_Tags st)) = Some s ->
      version_ok (st_Version s) /\ forall t, t ∈ im_Tags im -> ts_Tag t = imageTag -> st_Version s <= ts_Version t).
    { intros s Hs'. destruct (ns_ImageStatuses (ni_status n) !! imageName) as [st|]; [|done]. destruct (Hsts st s eq_refl Hs') as [Hv Hle].
      split; [done|]. intros t Ht. by apply (Hle im t (Him t Ht)). }
    destruct Hcase as [(t & Hf & Ho & Hl & ->)|(Hf & <- & -> & ->)]; [by apply raised_round|by apply fresh_round]. }
  destruct Hnew as (Htag & Hown & Hnd' & Hother & Hsame & Hv' & Hst').
  assert (Hin' : t' ∈ im_Tags im') by (rewrite Hperm; apply elem_of_app; right; by left).
  split; [done|]. split; [done|]. split; [done|]. split; [done|]. split; [done|].
  split; [intros t Ht; rewrite Hperm; by apply Hother|]. split; [done|].
  rewrite (node_group_tag _ _ _ _ _ im' t'); try done.
  - simpl. destruct (ns_ImageStatuses _ !! _) as [st|]; [|done]. simpl in Hst'.
    destruct (first st_Tag imageTag (is_Tags st)) as [s|]; [|done]. simpl. unfold verdict.
    by rewrite (proj2 (Z.eqb_neq _ _) (Hst' s eq_refl)).
  - simpl. by rewrite lookup_insert_eq.
  - change (NoDup (ts_Tag <$> im_Tags im')). by rewrite Hperm.
  - apply add_secrets_all.
Qed.

(** ** Cleaning a NodeImage *)

Lemma first_omap {A} (key : A -> string) (f : A -> option A) k l :
  (forall x y, f x = Some y -> key y = key x) -> NoDup (map key l) -> first key k (omap f l) = first key k l ≫= f.
Proof.
  intros Hf. induction l as [|x l IH]; intros Hnd; [done|]. cbn [map] in Hnd. apply NoDup_cons in Hnd as [Hx Hnd].
  change (omap f (x :: l)) with (match f x with Some y => y :: omap f l | None => omap f l end).
  destruct (decide (key x = k)) as [Hk|Hk].
  - rewrite (first_cons_eq key k x l Hk). change (Some x ≫= f) with (f x). destruct (f x) as [y|] eqn:Ey.
    + apply first_cons_eq. rewrite (Hf x y Ey). done.
    + destruct (first key k (omap f l)) as [z|] eqn:Ez; [|done]. apply first_key in Ez as [Hz Hkz].
      apply list_elem_of_omap in Hz as (u & Hu & Hfu). destruct Hx. rewrite Hk, <-Hkz, (Hf u z Hfu).
      change (map key l) with (key <$> l). by apply list_elem_of_fmap_2.
  - rewrite (first_cons_ne key k x l Hk), <-IH by done. destruct (f x) as [y|] eqn:Ey; [|done]. apply first_cons_ne.
    by rewrite (Hf x y Ey).
Qed.
Lemma omap_NoDup {A} (key : A -> string) (f : A -> option A) l :
  (forall x y, f x = Some y -> key y = key x) -> NoDup (map key l) -> NoDup (map key (omap f l)).
Proof.
  intros Hf. induction l as [|x l IH]; intros Hnd; [done|]. simpl in *. apply NoDup_cons in Hnd as [Hx Hnd].
  destruct (f x) as [y|] eqn:Ey; [|by apply IH]. simpl. apply NoDup_cons. split; [|by apply IH].
  change (map key (omap f l)) with (key <$> omap f l). rewrite (Hf x y Ey). intros Hin.
  apply list_elem_of_fmap in Hin as (z & Hz & Hin). apply list_elem_of_omap in Hin as (u & Hu & Hfu). destruct Hx.
  rewrite Hz, (Hf u z Hfu). change (map key l) with (key <$> l). by apply list_elem_of_fmap_2.
Qed.

Section Cleaning.
Context {S : Type} `{ImageApi S} `{ApiErrors} `{GoSort} `{MapOrder} (now : Z).

Definition kept (st : option ImageStatus) (s : S) (t : ImageTagSpec) : option ImageTagSpec := (keep_tag now st t s).1.1.

Lemma kept_inv st s t t' : kept st s t = Some t' -> ts_Tag t' = ts_Tag t /\ ts_Version t' = ts_Version t /\
  (ts_OwnerReferences t' = ts_OwnerReferences t \/ ts_OwnerReferences t' = filterb (fun ref => owner_active ref s) (ts_OwnerReferences t)).
Proof.
  unfold kept, keep_tag. destruct (ts_CreatedAt t); [|done]. set (active := filterb _ _).
  destruct (negb (len active =? len (ts_OwnerReferences t))); simpl.
  - destruct (_ =? 0); [done|]. destruct (tag_left _ _ _) as [l|]; [destruct (_ <=? _); [done|]|]; intros [= <-]; auto.
  - destruct (tag_left _ _ _) as [l|]; [destruct (_ <=? _); [done|]|]; intros [= <-]; auto.
Qed.
Lemma tag_left_owners st t refs : tag_left now st (with_owners t refs) = tag_left now st t.
Proof. done. Qed.

Lemma keep_tags_kept name st tags s wait : (keep_tags now name st tags s wait).1.1 = omap (kept st s) tags.
Proof.
  revert wait. induction tags as [|t tags IH]; intros wait; [done|].
  change (omap (kept st s) (t :: tags)) with (match kept st s t with Some y => y :: omap (kept st s) tags | None => omap (kept st s) tags end).
  unfold kept at 1. cbn [keep_tags]. destruct (keep_tag now st t s) as [[o changed] left_]. set (w := match left_ with Some _ => _ | None => _ end).
  specialize (IH w). destruct (keep_tags now name st tags s w) as [[l m] w']. simpl in IH. subst l. by destruct o.
Qed.
(** The images that remain. *)
Definition cleaned (statuses : gmap string ImageStatus) (s : S) (name : string) (im : ImageSpec) : option ImageSpec :=
  let tags := omap (kept (statuses !! name) s) (im_Tags im) in
  if 0 <? len tags then Some (SortSpecImageTags (mkImageSpec (im_PullSecrets im) tags (im_SandboxConfig im))) else None.
Lemma keep_images_lookup statuses images s wait name : NoDup images.*1 ->
  (keep_images now statuses images s wait).1.1 !! name
  = match find (fun kv => String.eqb kv.1 name) images with Some kv => cleaned statuses s name kv.2 | None => None end.
Proof.
  revert wait. induction images as [|[k im] images IH]; intros wait Hnd; [by apply lookup_empty|]. simpl in *.
  apply NoDup_cons in Hnd as [Hk Hnd]. pose proof (keep_tags_kept k (statuses !! k) (im_Tags im) s wait) as Ht.
  destruct (keep_tags now k _ _ _ _) as [[newTags m] w1]. simpl in Ht. specialize (IH w1 Hnd).
  destruct (keep_images now statuses images s w1) as [[newImages m'] w2]. simpl in IH. destruct (String.eqb_spec k name) as [->|Hne].
  - subst newTags. unfold cleaned at 1. simpl. destruct (0 <? _); simpl; [by rewrite lookup_insert_eq|]. rewrite IH.
    destruct (find _ images) as [kv|] eqn:Ef; [|done]. apply find_some in Ef as [Hin Hkv]. apply String.eqb_eq in Hkv. destruct Hk.
    rewrite <-Hkv. apply list_elem_of_fmap_2. by apply list_elem_of_In.
  - rewrite <-IH. destruct (0 <? _); simpl; [|done]. by rewrite lookup_insert_ne.
Qed.
Lemma keep_images_at statuses (m : gmap string ImageSpec) s name :
  (keep_images now statuses (range_order (map_to_list m)) s Requeue.zero).1.1 !! name = m !! name ≫= cleaned statuses s name.
Proof.
  rewrite keep_images_lookup by apply range_order_NoDup. destruct (find _ _) as [[k im]|] eqn:Ef.
  - apply find_some in Ef as [Hin Hk]. apply String.eqb_eq in Hk. simpl in Hk. subst k. apply list_elem_of_In, range_order_elem in Hin. by rewrite Hin.
  - destruct (m !! name) as [im|] eqn:Em; [|done]. apply (range_order_elem m) in Em.
    apply list_elem_of_In in Em. apply (find_none _ _ Ef) in Em. simpl in Em. by rewrite String.eqb_refl in Em.
Qed.

(** The job is on the server, and its tag on the NodeImage is not due to go. *)
Record living (job : ImagePullJob) (s : S) (n : NodeImage) (imageName imageTag : string) : Prop := {
  living_job : exists j, GetImagePullJob (pj_namespace job) (pj_name job) s = inr j /\ pj_uid j = pj_uid job;
  living_tags : forall im, ni_Images n !! imageName = Some im -> NoDup (map ts_Tag (im_Tags im));
  living_tag : forall im t, ni_Images n !! imageName = Some im -> t ∈ im_Tags im -> ts_Tag t = imageTag -> owned job t = true ->
    is_Some (ts_CreatedAt t) /\
    (forall ref, ref ∈ ts_OwnerReferences t -> oref_UID ref = pj_uid job -> oref_Namespace ref = pj_namespace job /\ oref_Name ref = pj_name job) /\
    forall leftTime, tag_left now (ns_ImageStatuses (ni_status n) !! imageName) t = Some leftTime -> 0 < leftTime;
}.

Lemma owned_spec job t : owned job t = true <-> exists ref, ref ∈ ts_OwnerReferences t /\ oref_UID ref = pj_uid job.
Proof.
  unfold owned. rewrite existsb_exists. setoid_rewrite String.eqb_eq. by setoid_rewrite <-list_elem_of_In.
Qed.
Lemma kept_unowned job st s t t' : kept st s t = Some t' -> owned job t = false -> owned job t' = false.
Proof.
  intros Hk Ho. apply not_true_iff_false. apply not_true_iff_false in Ho. rewrite owned_spec in *. intros (ref & Hin & Hu). apply Ho.
  exists ref. split; [|done]. destruct (kept_inv _ _ _ _ Hk) as (_ & _ & [Hr|Hr]); rewrite Hr in Hin; [done|].
  by apply filterb_elem in Hin as [? _].
Qed.
Lemma kept_owned job s n imageName imageTag im t : living job s n imageName imageTag -> ni_Images n !! imageName = Some im -> t ∈ im_Tags im ->
  ts_Tag t = imageTag -> owned job t = true ->
  exists t', kept (ns_ImageStatuses (ni_status n) !! imageName) s t = Some t' /\ owned job t' = true /\ ts_Version t' = ts_Version t.
Proof.
  intros [(j & Hj & Huid) _ Hl] Him Ht Htag Ho. destruct (Hl im t Him Ht Htag Ho) as ([c Hc] & Hrefs & Hleft).
  pose proof (proj1 (owned_spec job t) Ho) as (ref & Hin & Hu). destruct (Hrefs ref Hin Hu) as [Hns Hname].
  assert (Hact : owner_active ref s = true).
  { unfold owner_active. destruct (_ || _); [done|]. rewrite Hns, Hname, Hj. apply String.eqb_eq. congruence. }
  set (active := filterb (fun r => owner_active r s) (ts_OwnerReferences t)).
  assert (Hina : ref ∈ active) by (by apply filterb_elem). assert (Hne : (len active =? 0) = false).
  { apply Z.eqb_neq. destruct active; [by apply not_elem_of_nil in Hina|simpl; lia]. }
  set (t' := if negb (len active =? len (ts_OwnerReferences t)) then with_owners t active else t).
  assert (Hkept : kept (ns_ImageStatuses (ni_status n) !! imageName) s t = Some t').
  { unfold kept, keep_tag. rewrite Hc. fold active. rewrite Hne, andb_false_r. fold t'.
    assert (tag_left now (ns_ImageStatuses (ni_status n) !! imageName) t' = tag_left now (ns_ImageStatuses (ni_status n) !! imageName) t) as ->
      by (unfold t'; by destruct (negb _)).
    destruct (tag_left _ _ t) as [l|] eqn:El; [|done]. specialize (Hleft l eq_refl). destruct (Z.leb_spec l 0); [lia|done]. }
  exists t'. split; [done|]. split; [|by apply (kept_inv _ _ _ _ Hkept)].
  apply owned_spec. exists ref. split; [|done]. unfold t'. by destruct (negb _).
Qed.

(** Sorting the tags does not matter to a job. *)
Lemma tag_version_sorted job tag im v0 : NoDup (map ts_Tag (im_Tags im)) ->
  tag_version job tag (im_Tags (SortSpecImageTags im)) v0
  = match first ts_Tag tag (im_Tags im) with Some t => if owned job t then ts_Version t else v0 | None => v0 end.
Proof.
  intros Hnd. simpl. set (l := sort_by _ _). assert (Hp : l ≡ₚ im_Tags im) by apply sort_by_perm.
  assert (Hnd' : NoDup (map ts_Tag l)) by (change (NoDup (ts_Tag <$> l)); by rewrite Hp).
  by rewrite tag_version_first, (first_perm ts_Tag tag l (im_Tags im)).
Qed.
(** The version a job sees in an image, after the cleaning. *)
Lemma cleaned_version job s n imageName imageTag im : living job s n imageName imageTag -> ni_Images n !! imageName = Some im ->
  match cleaned (ns_ImageStatuses (ni_status n)) s imageName im with
  | Some im' => im_PullSecrets im' = im_PullSecrets im /\ tag_version job imageTag (im_Tags im') (-1) = tag_version job imageTag (im_Tags im) (-1)
  | None => tag_version job imageTag (im_Tags im) (-1) = -1
  end.
Proof.
  intros Hliv Him. pose proof (living_tags _ _ _ _ _ Hliv im Him) as Hnd. unfold cleaned. set (k := kept (ns_ImageStatuses (ni_status n) !! imageName) s).
  assert (Hkey : forall x y, k x = Some y -> ts_Tag y = ts_Tag x) by (intros x y Hk; by apply (kept_inv _ _ _ _ Hk)).
  pose proof (first_omap ts_Tag k imageTag (im_Tags im) Hkey Hnd) as Hf. pose proof (omap_NoDup ts_Tag k (im_Tags im) Hkey Hnd) as Hnd'.
  rewrite (tag_version_first job imageTag (im_Tags im)) by done.
  destruct (first ts_Tag imageTag (im_Tags im)) as [t|] eqn:Et.
  - pose proof (first_key _ _ _ _ Et) as [Hin Htag]. change (Some t ≫= k) with (k t) in Hf. destruct (owned job t) eqn:Eo.
    + destruct (kept_owned job s n imageName imageTag im t Hliv Him Hin Htag Eo) as (t' & Hk & Ho' & Hv). fold k in Hk. rewrite Hk in Hf.
      destruct (Z.ltb_spec 0 (len (omap k (im_Tags im)))) as [_|Hl]; [|destruct (omap k (im_Tags im)); [done|simpl in Hl; lia]].
      split; [done|]. rewrite tag_version_sorted by done. cbn [im_Tags]. by rewrite Hf, Ho'.
    + destruct (0 <? _); [|done]. split; [done|]. rewrite tag_version_sorted by done. cbn [im_Tags].
      rewrite Hf. destruct (k t) as [t'|] eqn:Ek; [|done]. by rewrite (kept_unowned _ _ _ _ _ Ek Eo).
  - destruct (0 <? _); [|done]. split; [done|]. rewrite tag_version_sorted by done. cbn [im_Tags]. by rewrite Hf.
Qed.
End Cleaning.

(** C17: The cleaning of a NodeImage (labels of its node, tags of deleted jobs, tags whose time is
    over) is invisible to a job that is still there and whose tag is not due to go: the job finds
    the node in the same group before and after, whatever becomes of the other tags and owners. *)
Theorem cleaning_invisible {S} `{ImageApi S} `{ApiErrors} `{GoSort} `{MapOrder} now job (s : S) n node secrets imageName imageTag :
  living now job s n imageName imageTag ->
  node_group job imageName imageTag secrets (doUpdateNodeImage now n node s).1.1 = node_group job imageName imageTag secrets n.
Proof.
  intros Hliv. unfold doUpdateNodeImage.
  pose proof (keep_images_at now (ns_ImageStatuses (ni_status n)) (ni_Images n) s imageName) as Hat.
  destruct (keep_images now _ _ s Requeue.zero) as [[newImages changed] wait]. simpl in Hat |- *.
  unfold node_group. simpl. destruct (negb _ || changed); [|done]. rewrite Hat.
  destruct (ni_Images n !! imageName) as [im|] eqn:Him; [|done]. simpl.
  pose proof (cleaned_version now job s n imageName imageTag im Hliv Him) as Hc.
  destruct (cleaned now _ s imageName im) as [im'|].
  - destruct Hc as [-> ->]. done.
  - rewrite Hc. by destruct (forallb _ _).
Qed.

(** ** Which jobs an event wakes *)

Section Wake.
Context {S : Type} `{ImageApi S} `{!ImageLaws S} `{ApiErrors} `{GoSort}.

Lemma active_jobs_for_elem jobs pods n old news olds job : active_jobs_for jobs pods n old = inr (news, olds) ->
  job ∈ news <-> job ∈ jobs /\ job_matches job pods (ni_name n) (ni_labels n) = Some true.
Proof.
  revert news olds. induction jobs as [|j jobs IH]; intros news olds; simpl.
  - intros [= <- <-]. split; [intros Hn; by apply not_elem_of_nil in Hn|]. intros [Hn _]. by apply not_elem_of_nil in Hn.
  - destruct (job_matches j pods (ni_name n) (ni_labels n)) as [m|] eqn:Em; [|done].
    destruct (active_jobs_for jobs pods n old) as [err|[news' olds']]; [done|]. intros [= <- _].
    rewrite elem_of_app, elem_of_cons, (IH news' olds' eq_refl). destruct m.
    + rewrite list_elem_of_singleton. split; [intros [->|[? ?]]; auto|]. intros [[->|?] ?]; auto.
    + split; [intros [Hn|[? ?]]; [by apply not_elem_of_nil in Hn|auto]|]. intros [[->|?] ?]; [congruence|auto].
Qed.
Lemma active_jobs_for_total jobs pods n old :
  (forall job, job ∈ jobs -> job_matches job pods (ni_name n) (ni_labels n) <> None) ->
  exists news olds, active_jobs_for jobs pods n old = inr (news, olds).
Proof.
  induction jobs as [|j jobs IH]; intros Hall; simpl; [eauto|].
  destruct (job_matches j pods (ni_name n) (ni_labels n)) as [m|] eqn:Em; [|destruct (Hall j); [by left|done]].
  destruct IH as (news & olds & ->); [intros job Hj; apply Hall; by right|]. eauto.
Qed.

Lemma images_on_nodes_elem seen pods s l n : images_on_nodes seen pods s = inr l -> n ∈ l ->
  exists pod, pod ∈ pods /\ GetNodeImage (p_node pod) s = inr n.
Proof.
  revert seen l. induction pods as [|p pods IH]; intros seen l; simpl; [intros [= <-] Hn; by apply not_elem_of_nil in Hn|].
  assert (Hrec : forall seen l', images_on_nodes seen pods s = inr l' -> n ∈ l' -> exists pod, pod ∈ p :: pods /\ GetNodeImage (p_node pod) s = inr n).
  { intros seen' l' Hl Hn. destruct (IH _ _ Hl Hn) as (pod & Hp & Hg). exists pod. split; [by right|done]. }
  case_bool_decide; [apply Hrec|]. destruct (GetNodeImage (p_node p) s) as [err|m] eqn:Eg.
  - destruct (IsNotFound err); [apply Hrec|done].
  - destruct (images_on_nodes _ pods s) as [|l'] eqn:El; [done|]. intros [= <-] [->|Hn]%elem_of_cons.
    + exists p. split; [by left|done].
    + by apply (Hrec _ _ El).
Qed.
Lemma images_named_elem names s l n : images_named names s = inr l -> n ∈ l -> exists name, name ∈ names /\ GetNodeImage name s = inr n.
Proof.
  revert l. induction names as [|k names IH]; intros l; simpl; [intros [= <-] Hn; by apply not_elem_of_nil in Hn|].
  destruct (GetNodeImage k s) as [err|m] eqn:Eg.
  - destruct (IsNotFound err); [|done]. intros Hl Hn. destruct (IH _ Hl Hn) as (name & Hin & Hg). exists name. split; [by right|done].
  - destruct (images_named names s) as [|l']; [done|]. intros [= <-] [->|Hn]%elem_of_cons; [exists k; split; [by left|done]|].
    destruct (IH l' eq_refl Hn) as (name & Hin & Hg). exists name. split; [by right|done].
Qed.

(** Sorting gives pods of the list. *)
Lemma pod_at_elem pods idx p : idx ≡ₚ seq 0 (length pods) -> p ∈ map (pod_at pods) idx -> p ∈ pods.
Proof.
  intros Hp Hin. change (map (pod_at pods) idx) with (pod_at pods <$> idx) in Hin. apply list_elem_of_fmap in Hin as (i & -> & Hi).
  rewrite Hp in Hi. apply elem_of_seq in Hi. unfold pod_at. destruct (lookup_lt_is_Some_2 pods i) as [x Hx]; [lia|]. rewrite Hx.
  by apply list_elem_of_lookup_2 in Hx.
Qed.
Lemma SortPods_elem ns owner pods s sorted p : SortPods ns owner pods s = inr sorted -> p ∈ sorted -> p ∈ pods.
Proof.
  unfold SortPods, sorted_for. destruct (ParseGroupVersion _) as [[group v]|]; [|done]. destruct (negb _); [by intros [= <-]|].
  destruct (String.eqb _ _).
  { destruct (GetCloneSetOf _ s) as [err|set]; [destruct (IsNotFound err); [by intros [= <-]|done]|]. intros [= <-].
    apply pod_at_elem. apply SortUpdateIndexes_perm. }
  destruct (String.eqb _ _).
  { destruct (GetStatefulSetOf _ s) as [err|set]; [destruct (IsNotFound err); [by intros [= <-]|done]|]. intros [= <-] Hp.
    assert (Hperm : (sort_by ascendingOrdinal pods) ≡ₚ pods) by apply sort_by_perm. rewrite <-Hperm. revert Hp. unfold sortPodsForStatefulSet.
    apply pod_at_elem. destruct (sp_RollingUpdate set ≫= ru_UnorderedUpdate) as [[strategy|]|];
      [etrans; [exact (Priority.priority_perm (Some strategy) (sort_by ascendingOrdinal pods) (rev (seq 0 (length (sort_by ascendingOrdinal pods)))))|]|..];
      symmetry; apply Permutation_rev. }
  destruct (String.eqb _ _); [|by intros [= <-]].
  destruct (GetSidecarSetOf _ s) as [err|set]; [destruct (IsNotFound err); [by intros [= <-]|done]|]. intros [= <-].
  apply pod_at_elem. apply SortSidecarIndexes_perm.
Qed.

(** The selectors of a job have no unknown operator. *)
Definition selectors_valid (job : ImagePullJob) : bool :=
  match pj_PodSelector job with
  | Some sel => selector_valid (Some sel)
  | None =>
      match pj_Selector job with
      | None => true
      | Some nl => match nl_Names nl with Some _ => true | None => selector_valid (Some (nl_LabelSelector nl)) end
      end
  end.
(** A node selector that is there and says nothing. *)
Definition empty_selector (job : ImagePullJob) : bool :=
  match pj_PodSelector job, pj_Selector job with
  | None, Some nl => match nl_Names nl with Some _ => false | None => selector_empty (Some (nl_LabelSelector nl)) end
  | _, _ => false
  end.

Lemma job_matches_total job pods name labels : selectors_valid job = true -> job_matches job (inr pods) name labels <> None.
Proof.
  unfold selectors_valid, job_matches. destruct (pj_PodSelector job) as [sel|]; [by intros ->|].
  destruct (pj_Selector job) as [nl|]; [|done]. destruct (nl_Names nl); [done|]. by intros ->.
Qed.
Lemma on_node_elem pod pods s : ListAllPods s = inr pods -> pod ∈ pods -> p_node pod <> "" ->
  exists l, getPodsOnNode (p_node pod) s = inr l /\ pod ∈ l.
Proof.
  intros Hp Hin Hne. unfold getPodsOnNode. rewrite Hp. eexists. split; [done|]. apply filterb_elem. split; [done|].
  by rewrite String.eqb_refl, (proj2 (String.eqb_neq _ _) Hne).
Qed.

(** A NodeImage of a job is one that the job matches. *)
Lemma node_images_match job s nodes pods n : ListAllPods s = inr pods -> node_images_for job s = inr nodes -> n ∈ nodes ->
  empty_selector job = false -> job_matches job (getPodsOnNode (ni_name n) s) (ni_name n) (ni_labels n) = Some true.
Proof.
  intros Hpods Hn Hin He. unfold node_images_for in Hn. unfold job_matches, empty_selector in *.
  destruct (pj_PodSelector job) as [sel|].
  - destruct (negb (selector_valid (Some sel))); [done|]. rewrite Hpods in Hn. destruct (images_on_nodes_elem _ _ _ _ _ Hn Hin) as (pod & Hp & Hg).
    assert (Hsel : pod ∈ pods_of_job job sel pods).
    { destruct (GetControllerOf (pj_owners job)) as [owner|]; [|done]. destruct (SortPods _ owner _ s) as [err|sorted] eqn:Es; [done|].
      by apply (SortPods_elem _ _ _ _ _ _ Es). }
    apply filterb_elem in Hsel as [Hall Hsel]. rewrite !andb_true_iff, negb_true_iff, String.eqb_neq in Hsel.
    destruct Hsel as [[_ Hsel] [_ Hne]]. rewrite (nodeImage_named _ _ _ Hg).
    destruct (on_node_elem pod pods s Hpods Hall Hne) as (l & -> & Hl). f_equal. apply existsb_exists. exists pod. by rewrite <-list_elem_of_In.
  - destruct (pj_Selector job) as [nl|]; [|done]. destruct (nl_Names nl) as [names|].
    + destruct (images_named_elem _ _ _ _ Hn Hin) as (name & Hname & Hg). rewrite (nodeImage_named _ _ _ Hg). f_equal. by apply contains_spec.
    + destruct (negb (selector_valid _)); [done|]. destruct (ListNodeImages s) as [|l]; [done|]. injection Hn as <-.
      apply filterb_elem in Hin as [_ Hs]. by rewrite He, Hs.
Qed.

Lemma active_jobs_wake s jobs pods job nodes n old : ListImagePullJobs s = inr jobs -> ListAllPods s = inr pods ->
  (forall j, j ∈ jobs -> isActive j = true -> selectors_valid j = true) -> job ∈ jobs -> isActive job = true ->
  node_images_for job s = inr nodes -> n ∈ nodes -> empty_selector job = false ->
  exists news olds, GetActiveJobsForNodeImage n old s = inr (news, olds) /\ job ∈ news.
Proof.
  intros Hjobs Hpods Hval Hjob Hact Hn Hin He. unfold GetActiveJobsForNodeImage. rewrite Hjobs.
  assert (Hon : exists l, getPodsOnNode (ni_name n) s = inr l) by (unfold getPodsOnNode; rewrite Hpods; eauto). destruct Hon as [l Hl].
  destruct (active_jobs_for_total (filterb isActive jobs) (getPodsOnNode (ni_name n) s) n old) as (news & olds & E).
  { intros j Hj. apply filterb_elem in Hj as [Hj Ha]. rewrite Hl. by apply job_matches_total, Hval. }
  exists news, olds. split; [done|]. apply (active_jobs_for_elem _ _ _ _ _ _ _ E). split; [by apply filterb_elem|].
  by apply (node_images_match job s nodes pods).
Qed.
End Wake.


(** ** The references of a copied secret *)

(** A name without the separators. *)
Definition plain_name (s : string) : Prop := ","%char ∉ chars s /\ "/"%char ∉ chars s.

Lemma key_no_comma k : plain_name k.1 -> plain_name k.2 -> no_comma (key_string k).
Proof.
  intros [H1 _] [H2 _]. unfold no_comma, key_string. rewrite !chars_app. change (chars "/") with ["/"%char]. set_solver.
Qed.
Lemma key_split k : plain_name k.1 -> plain_name k.2 -> SplitMetaNamespaceKey (key_string k) = Some k.
Proof.
  destruct k as [ns name]. intros [_ H1] [_ H2]. simpl in *. unfold SplitMetaNamespaceKey, key_string, Split. rewrite !chars_app. simpl.
  rewrite split_chars_app, split_chars_none by done. simpl. by rewrite !of_chars_chars.
Qed.
Lemma omap_keys l : (forall k, k ∈ l -> plain_name k.1 /\ plain_name k.2) -> omap SplitMetaNamespaceKey (map key_string l) = l.
Proof.
  induction l as [|k l IH]; intros Hall; [done|]. destruct (Hall k) as [H1 H2]; [by left|].
  change (omap SplitMetaNamespaceKey (map key_string (k :: l)))
    with (match SplitMetaNamespaceKey (key_string k) with Some y => y :: omap SplitMetaNamespaceKey (map key_string l) | None => omap SplitMetaNamespaceKey (map key_string l) end).
  rewrite key_split by done. f_equal. apply IH. intros k' Hk. apply Hall. by right.
Qed.

(** The references of a copied secret survive their text: the set of jobs that is written to
    the annotation is the one that is read back, whatever the order in which Go walks over it.
    The empty set is the exception: it is read back as a set of one job without name, so a copy
    whose last reference is gone but whose deletion failed counts as used for ever. *)
Theorem references_roundtrip `{MapOrder} target (keys : referenceSet) :
  (forall k, k ∈ keys -> plain_name k.1 /\ plain_name k.2) ->
  (keys <> ∅ -> referenceSetFromTarget (with_references target keys) = keys) /\
  referenceSetFromTarget (with_references target ∅) = {[("", "")]}.
Proof.
  intros Hplain.
  assert (Hread : forall ks, referenceSetFromTarget (with_references target ks)
                             = list_to_set (omap SplitMetaNamespaceKey (Split (set_String ks) ","))).
  { intros ks. unfold referenceSetFromTarget, with_references, lbl. simpl. by rewrite lookup_insert_eq. }
  split.
  - intros Hne. rewrite Hread. unfold set_String. set (l := range_order (elements keys)).
    assert (Hl : l ≡ₚ elements keys) by apply range_order_perm.
    assert (Hel : forall k, k ∈ l -> plain_name k.1 /\ plain_name k.2) by (intros k Hk; apply Hplain; rewrite Hl in Hk; by apply elem_of_elements).
    rewrite Split_Join.
    + rewrite omap_keys by done. apply set_eq. intros k. by rewrite elem_of_list_to_set, Hl, elem_of_elements.
    + intros E. apply map_eq_nil in E. rewrite E in Hl. apply Permutation_nil in Hl. apply Hne. by apply elements_empty_iff, leibniz_equiv in Hl.
    + apply Forall_forall. intros s Hs. change (map key_string l) with (key_string <$> l) in Hs. apply list_elem_of_fmap in Hs as (k & -> & Hk).
      by apply key_no_comma; apply Hel.
  - rewrite Hread. unfold set_String. rewrite elements_empty.
    assert (Hnil : range_order (@nil NamespacedName) = []) by (apply Permutation_nil; symmetry; apply range_order_perm). by rewrite Hnil.
Qed.

(** ** Faults *)

Section Faults.
Context {S : Type} `{ImageApi S} `{ApiErrors} `{GoSort} `{MapOrder}.
Context (NormalizeImageRefToNameTag : string -> error + (string * string)).
Context (daemonNamespace : string) (now rand300 rand1200 : Z).

(** The job owns its tag on the node already, but one of its secrets is not there. *)
Definition lacks_secret (job : ImagePullJob) (imageName imageTag : string) (secrets : list ReferenceObject) (n : NodeImage) : Prop :=
  exists im t, ni_Images n !! imageName = Some im /\ first ts_Tag imageTag (im_Tags im) = Some t /\ owned job t = true /\
    forallb (containsObject (im_PullSecrets im)) secrets = false.

Lemma lacks_secret_group job imageName imageTag secrets n : lacks_secret job imageName imageTag secrets n ->
  node_group job imageName imageTag secrets n = Some notSynced /\
  synced_image now rand300 rand1200 job imageName imageTag secrets n = None.
Proof.
  intros (im & t & Him & Hf & Ho & Hs). split; [unfold node_group; by rewrite Him, Hs|]. unfold synced_image. rewrite Him. simpl.
  pose proof (own_tag_spec now job imageTag (im_Tags im)) as Hot. rewrite Hf, Ho in Hot. by rewrite Hot.
Qed.
Lemma sync_retry_idle job imageName imageTag secrets name n (w : World S) : GetNodeImage name (w_server w) = inr n ->
  synced_image now rand300 rand1200 job imageName imageTag secrets n = None ->
  let r := RetryOnConflict retry_steps (sync_try now rand300 rand1200 job imageName imageTag secrets name) tt w in
  r.2 = None /\ w_trace r.1 = w_trace w /\ w_server r.1 = w_server w.
Proof.
  intros Hg Hs. assert (Htry : sync_try now rand300 rand1200 job imageName imageTag secrets name tt w
    = (mkWorld (w_server w) (w_scale w) (w_rv w) (w_upd w) (w_local w) (w_dur w) (w_trace w ++ []), (None, tt))).
  { unfold sync_try, bind, read, call. rewrite Hg. by rewrite Hs. }
  unfold retry_steps. cbn [RetryOnConflict]. unfold bind. rewrite Htry. simpl. by rewrite app_nil_r.
Qed.
Lemma sync_each_idle job imageName imageTag secrets names (w : World S) :
  (forall name, name ∈ names -> exists n, GetNodeImage name (w_server w) = inr n /\ synced_image now rand300 rand1200 job imageName imageTag secrets n = None) ->
  let r := sync_each now rand300 rand1200 job imageName imageTag secrets names w in
  r.2 = None /\ w_trace r.1 = w_trace w /\ w_server r.1 = w_server w.
Proof.
  revert w. induction names as [|name names IH]; intros w Hall; [done|].
  destruct (Hall name) as (n & Hg & Hs); [by left|]. destruct (sync_retry_idle job imageName imageTag secrets name n w Hg Hs) as (Hr & Ht & Hsv).
  cbn [sync_each]. unfold bind. destruct (RetryOnConflict _ _ tt w) as [w1 e]. simpl in Hr, Ht, Hsv. subst e.
  destruct (IH w1) as (Hr' & Ht' & Hsv'); [intros k Hk; rewrite Hsv; apply Hall; by right|].
  split; [done|]. split; congruence.
Qed.

(** C22: A secret that arrives late stops a job (a fault of the code).  When the tag of the job is on
    its nodes and a pull secret of the job appears after that, then every node counts as not
    synced, also the nodes that have finished; but the loop over these nodes skips each of them,
    because the job owns the tag already, before the secret is written.  Nothing changes on the
    server, so the next reconcile finds the same, and without a deadline the job never completes. *)
Theorem late_secret_stops_job job nodes secrets imageName imageTag (w : World S) :
  NormalizeImageRefToNameTag (pj_Image job) = inr (imageName, imageTag) -> nodes <> [] -> len nodes < 2 ^ 31 ->
  cp_ActiveDeadlineSeconds (pj_CompletionPolicy job) = None ->
  Forall (fun n => GetNodeImage (ni_name n) (w_server w) = inr n /\ lacks_secret job imageName imageTag secrets n) nodes ->
  exists st, calculateStatus NormalizeImageRefToNameTag now job nodes secrets = inr (st, map ni_name nodes) /\
    pl_CompletionTime st = None /\ pl_Active st = 0 /\ pl_Succeeded st = 0 /\ pl_Failed st = 0 /\
    let r := syncNodeImages NormalizeImageRefToNameTag now rand300 rand1200 job st (map ni_name nodes) secrets w in
    r.2 = None /\ w_trace r.1 = w_trace w /\ w_server r.1 = w_server w.
Proof.
  intros Hnorm Hne Hlen Hcp Hall. set (group := node_group job imageName imageTag secrets).
  assert (Hgrp : forall n, n ∈ nodes -> group n = Some notSynced).
  { intros n Hn. rewrite Forall_forall in Hall. apply lacks_secret_group. by apply Hall. }
  assert (Hzero : forall g, g <> notSynced -> countb (in_group group g) nodes = 0).
  { intros g Hg. apply countb_zero. intros n Hn. unfold in_group. rewrite (Hgrp n Hn). apply bool_decide_eq_false. congruence. }
  destruct (calculateStatus NormalizeImageRefToNameTag now job nodes secrets) as [err|[st waiting]] eqn:Ec.
  { unfold calculateStatus in Ec. by rewrite Hnorm, Hcp in Ec. }
  destruct (calculateStatus_counts _ _ _ _ _ _ _ _ _ Hnorm Hlen Ec) as (Hd & Hsu & Hiff & Hrest). fold group in Hsu, Hiff, Hrest.
  destruct Hrest as (Ha & Hf & _ & Hw); [right; intros [_ (d & Hd' & _)]; congruence|].
  assert (waiting = map ni_name nodes) as ->.
  { rewrite Hw. unfold names_in. f_equal. clear -Hgrp. induction nodes as [|n l IH]; [done|]. simpl.
    rewrite bool_decide_eq_true_2 by (apply Hgrp; by left). f_equal. apply IH. intros x Hx. apply Hgrp. by right. }
  exists st. split; [done|]. rewrite Ha, Hsu, Hf, !Hzero by done. split; [|split; [done|split; [done|split; [done|]]]].
  - destruct (pl_CompletionTime st) as [c|]; [|done]. exfalso. destruct (proj1 Hiff ltac:(by eexists)) as [_ [Hdone|(d & Hd' & _)]]; [|congruence].
    destruct nodes as [|n l]; [done|]. simpl in Hdone. apply andb_true_iff in Hdone as [Hdn _]. unfold done_node, in_group in Hdn.
    by rewrite (Hgrp n ltac:(by left)) in Hdn.
  - unfold syncNodeImages. destruct (_ <=? 0); [done|]. rewrite Hnorm. apply sync_each_idle. intros name Hname.
    apply subseteq_take in Hname. change (map ni_name nodes) with (ni_name <$> nodes) in Hname. apply list_elem_of_fmap in Hname as (n & -> & Hn).
    rewrite Forall_forall in Hall. destruct (Hall n Hn) as [Hg Hl]. exists n. split; [done|]. by apply lacks_secret_group.
Qed.

(** C23: A shared copy makes the others leak (a fault of the code).  When a job that is deleted or has
    finished gives up its copied secrets and the first one that Go's walk over the map meets is
    used by another job too, then the release ends there: the update of that one copy and the
    removal of the finalizer of the job are all that is written.  The other copies of the job
    are neither updated nor deleted, and no reconcile of the job will come back to them. *)
Theorem shared_copy_leaks job items targetMap k shared rest answer s1 (w : World S) :
  finished job = true -> contains (pj_finalizers job) ProtectionFinalizer = true -> pj_namespace job <> daemonNamespace ->
  ListSecrets daemonNamespace (w_server w) = inr items -> fold_left (sort_target job) items (∅, ∅) = (targetMap, ∅) ->
  range_order (map_to_list targetMap) = (k, shared) :: rest ->
  jobKey job ∈ referenceSetFromTarget shared -> set_Delete (referenceSetFromTarget shared) (jobKey job) <> ∅ ->
  WriteSecret (UpdateSecretW (with_references shared (set_Delete (referenceSetFromTarget shared) (jobKey job)))) (w_server w) = (s1, inr answer) ->
  exists ok fs, ~ ProtectionFinalizer ∈ fs /\
    w_trace (finalize daemonNamespace job w).1
    = w_trace w ++ [EvSecret (UpdateSecretW (with_references shared (set_Delete (referenceSetFromTarget shared) (jobKey job)))) true;
                    EvFinalizers (pj_namespace job) (pj_name job) fs ok].
Proof.
  intros Hfin Hprot Hns Hlist Hfold Hrange Hin Hother Hwrite.
  set (fs := filterb (fun f => negb (String.eqb f ProtectionFinalizer)) (pj_finalizers job)).
  assert (Hnot : ~ ProtectionFinalizer ∈ fs).
  { intros Hf. apply filterb_elem in Hf as [_ Hf]. by rewrite String.eqb_refl in Hf. }
  assert (Hsync : exists w1, w_trace w1 = w_trace w ++ [EvSecret (UpdateSecretW (with_references shared (set_Delete (referenceSetFromTarget shared) (jobKey job)))) true]
      /\ syncSecrets daemonNamespace job w = (w1, inr [])).
  { unfold syncSecrets. rewrite (proj2 (String.eqb_neq _ _) Hns). unfold getTargetSecretMap, bind, read, call. cbn [w_server]. rewrite Hlist.
    cbn. rewrite Hfold. unfold releaseTargetSecrets.
    assert (Hnil : range_order (map_to_list (∅ : gmap string Secret)) = []).
    { rewrite map_to_list_empty. apply Permutation_nil. symmetry. apply range_order_perm. }
    rewrite Hnil. cbn. rewrite Hfin, Hrange. cbn.
    unfold set_Contains. rewrite bool_decide_eq_true_2 by done. unfold bind, writeSecret, call, expectRV, ret. cbn. rewrite Hwrite. cbn.
    unfold set_IsEmpty. rewrite bool_decide_eq_false_2 by done. cbn. eexists. split; [|done]. cbn. by rewrite app_nil_r. }
  destruct Hsync as (w1 & Ht & Hs). unfold finalize. rewrite Hprot. cbn [negb]. unfold bind. rewrite Hs. unfold updateJob, call. cbn. fold fs.
  destruct (UpdateImagePullJob _ (w_server w1)) as [s2 r]. cbn. rewrite Ht, <-app_assoc. eexists _, fs. split; [done|]. reflexivity.
Qed.
End Faults.

(** ** Witnesses *)

(** A second job takes over the tag of the first one. *)
Definition ex_job2 : ImagePullJob :=
  mkPullJob "ns" "other" "" ∅ "uid-2" "8" [] None [ProtectionFinalizer] "app" ["pull"] None None None None
    (mkCompletion Always None None) None "" (mkPullStatus (Some 0) None 0 0 0 0 "" []).
Definition ex_pulled_node : NodeImage := ex_node "a" [ex_tag (ex_job 2 None) None] [ex_status ImagePhaseSucceeded (Some 9)].
Definition ex_next_node : NodeImage := default ex_pulled_node (synced_image 50 0 0 ex_job2 "app" "v1" [] ex_pulled_node).

Lemma ex_pulled_ok : image_ok ex_pulled_node "app" "v1".
Proof.
  split.
  - intros im Him. simpl in Him. rewrite lookup_singleton_eq in Him. injection Him as <-. split; [apply NoDup_singleton|].
    intros t ->%list_elem_of_singleton _. unfold version_ok. simpl. lia.
  - intros st s Hst Hs. simpl in Hst. rewrite lookup_singleton_eq in Hst. injection Hst as <-. injection Hs as <-. split; [unfold version_ok; simpl; lia|].
    intros im t Him Ht _. simpl in Him. rewrite lookup_singleton_eq in Him. injection Him as <-. apply list_elem_of_singleton in Ht as ->. simpl. lia.
Qed.
Lemma image_round_witness :
  node_group (ex_job 2 None) "app" "v1" [] ex_next_node = Some pulling /\ node_group ex_job2 "app" "v1" [] ex_next_node = Some pulling /\
  exists im' t', ni_Images ex_next_node = <["app" := im']> (ni_Images ex_pulled_node) /\ t' ∈ im_Tags im' /\ ts_Version t' = 1.
Proof.
  split; [vm_compute; reflexivity|].
  destruct (image_round 50 0 0 ex_job2 "app" "v1" [] ex_pulled_node ex_next_node ex_pulled_ok)
    as (im' & t' & Him & _ & Hin & _ & _ & _ & Hsame & Hgrp); [vm_compute; reflexivity|].
  split; [rewrite Hgrp; vm_compute; reflexivity|]. exists im', t'. split; [exact Him|]. split; [exact Hin|].
  destruct (Hsame (ex_tag (ex_job 2 None) None)) as [_ ->]; [vm_compute; by left|reflexivity|reflexivity].
Defined.

(** The second job is gone, the first one stays. *)
Lemma ex_living : living 100 (ex_job 2 None) (ex_server [ex_job 2 None] []) ex_next_node "app" "v1".
Proof.
  split.
  - exists (ex_job 2 None). split; reflexivity.
  - intros im Him. vm_compute in Him. injection Him as <-. apply NoDup_singleton.
  - intros im t Him Ht _ _. vm_compute in Him. injection Him as <-. apply list_elem_of_singleton in Ht as ->. split; [by eexists|]. split.
    + intros ref Hr Hu. simpl in Hr. apply elem_of_cons in Hr as [->|Hr]; [done|]. apply list_elem_of_singleton in Hr as ->. discriminate Hu.
    + intros l Hl. vm_compute in Hl. discriminate Hl.
Qed.
Lemma cleaning_invisible_witness :
  (doUpdateNodeImage 100 ex_next_node None (ex_server [ex_job 2 None] [])).1.2 = true /\
  node_group (ex_job 2 None) "app" "v1" [] (doUpdateNodeImage 100 ex_next_node None (ex_server [ex_job 2 None] [])).1.1
  = node_group (ex_job 2 None) "app" "v1" [] ex_next_node.
Proof.
  split; [vm_compute; reflexivity|].
  apply (cleaning_invisible 100 (ex_job 2 None) (ex_server [ex_job 2 None] []) ex_next_node None [] "app" "v1" ex_living).
Defined.


Definition ex_keys : referenceSet := {[("ns", "job"); ("ns", "other")]}.
Definition ex_copy (name : string) (references : string) : Secret :=
  mkSecret "kruise-daemon-config" name "" ("uid-" +:+ name) "5" {[SourceSecretUIDLabelKey := "src-" +:+ name]}
    {[TargetOwnerReferencesAnno := references; SourceSecretKeyAnno := "ns/" +:+ name]} None "" None ∅ ∅.
Lemma references_roundtrip_witness :
  referenceSetFromTarget (with_references (ex_copy "x" "") ex_keys) = ex_keys /\
  referenceSetFromTarget (with_references (ex_copy "x" "") ∅) = {[("", "")]}.
Proof.
  destruct (references_roundtrip (ex_copy "x" "") ex_keys) as [Hr He].
  - intros k Hk. unfold ex_keys in Hk. apply elem_of_union in Hk as [Hk|Hk]; apply elem_of_singleton in Hk as ->; split; split; vm_compute;
      intros Hin; repeat (apply elem_of_cons in Hin as [Hin|Hin]; [discriminate Hin|]); by apply not_elem_of_nil in Hin.
  - split; [|exact He]. apply Hr. intros Hempty. assert (Hin : ("ns", "job") ∈ ex_keys) by (apply elem_of_union; left; by apply elem_of_singleton).
    rewrite Hempty in Hin. by apply not_elem_of_empty in Hin.
Defined.

(** The job runs on one node when the secret appears. *)
Lemma late_secret_stops_job_witness :
  let w := ex_image_world (ex_server [ex_job2] [ex_node "a" [ex_tag ex_job2 None] [ex_status ImagePhaseSucceeded (Some 9)]]) in
  let nodes := [ex_node "a" [ex_tag ex_job2 None] [ex_status ImagePhaseSucceeded (Some 9)]] in
  exists st, calculateStatus ex_norm 50 ex_job2 nodes [mkReference "kruise-daemon-config" "pull-x"] = inr (st, ["a"]) /\ pl_CompletionTime st = None /\
    w_trace (syncNodeImages ex_norm 50 0 0 ex_job2 st ["a"] [mkReference "kruise-daemon-config" "pull-x"] w).1 = [].
Proof.
  intros w nodes.
  destruct (late_secret_stops_job ex_norm 50 0 0 ex_job2 nodes [mkReference "kruise-daemon-config" "pull-x"] "app" "v1" w)
    as (st & Hc & Hn & _ & _ & _ & _ & Ht & _).
  - reflexivity.
  - discriminate.
  - vm_compute. reflexivity.
  - reflexivity.
  - apply Forall_singleton. split; [vm_compute; reflexivity|].
    exists (mkImageSpec [] [ex_tag ex_job2 None] None), (ex_tag ex_job2 None). split; [reflexivity|]. split; [reflexivity|]. split; reflexivity.
  - exists st. split; [exact Hc|]. split; [exact Hn|exact Ht].
Defined.

(** A job with two secrets is deleted; the copy of one is used by another job too. *)
Definition ex_gone : ImagePullJob :=
  mkPullJob "ns" "job" "" ∅ "uid-1" "7" [] (Some 40) [ProtectionFinalizer] "app" ["x"; "y"] None None None None
    (mkCompletion Always None None) None "" (mkPullStatus (Some 0) None 0 0 0 0 "" []).
Definition ex_copies : ImageServer :=
  mkImageServer [ex_gone] ∅ {[("kruise-daemon-config", "x") := ex_copy "x" "ns/job"; ("kruise-daemon-config", "y") := ex_copy "y" "ns/job,ns/other"]} [].
Lemma shared_copy_leaks_witness :
  let r := finalize "kruise-daemon-config" ex_gone (ex_image_world ex_copies) in
  is_secrets (w_server r.1) !! ("kruise-daemon-config", "x") = Some (ex_copy "x" "ns/job") /\
  exists ok fs ev, ~ ProtectionFinalizer ∈ fs /\ w_trace r.1 = [EvSecret ev true; EvFinalizers "ns" "job" fs ok].
Proof.
  split; [vm_compute; reflexivity|].
  destruct (shared_copy_leaks "kruise-daemon-config" ex_gone
    (match ListSecrets "kruise-daemon-config" ex_copies with inr l => l | inl _ => [] end)
    (fold_left (sort_target ex_gone) (match ListSecrets "kruise-daemon-config" ex_copies with inr l => l | inl _ => [] end) (∅, ∅)).1
    "src-y" (ex_copy "y" "ns/job,ns/other") [("src-x", ex_copy "x" "ns/job")]
    (with_references (ex_copy "y" "ns/job,ns/other") (set_Delete (referenceSetFromTarget (ex_copy "y" "ns/job,ns/other")) (jobKey ex_gone)))
    (WriteSecret (UpdateSecretW (with_references (ex_copy "y" "ns/job,ns/other") (set_Delete (referenceSetFromTarget (ex_copy "y" "ns/job,ns/other")) (jobKey ex_gone)))) ex_copies).1
    (ex_image_world ex_copies)) as (ok & fs & Hfs & Ht).
  - reflexivity.
  - reflexivity.
  - discriminate.
  - reflexivity.
  - vm_compute. reflexivity.
  - vm_compute. reflexivity.
  - assert (Hb : bool_decide (jobKey ex_gone ∈ referenceSetFromTarget (ex_copy "y" "ns/job,ns/other")) = true) by (vm_compute; reflexivity).
    exact (proj1 (bool_decide_eq_true _) Hb).
  - intros He. assert (Hin : bool_decide (("ns", "other") ∈ set_Delete (referenceSetFromTarget (ex_copy "y" "ns/job,ns/other")) (jobKey ex_gone)) = true)
      by (vm_compute; reflexivity). rewrite He in Hin. vm_compute in Hin. discriminate Hin.
  - reflexivity.
  - exists ok, fs, (UpdateSecretW (with_references (ex_copy "y" "ns/job,ns/other") (set_Delete (referenceSetFromTarget (ex_copy "y" "ns/job,ns/other")) (jobKey ex_gone)))).
    split; [exact Hfs|exact Ht].
Defined.
