(* ===== verification/ImageListPull.v ===== *)
(** * ImageListPullJob: the controller and the webhooks of pull jobs

    pkg/controller/imagelistpulljob: [Reconcile] keeps one ImagePullJob for each image of the
    list, with the template of the list, and sums up their status; the handler of the events of
    ImagePullJobs.  pkg/webhook/imagepulljob and imagelistpulljob: [validate].

    The expectations of the world are those of this controller, named by image.  The hash of a
    template ([DeepHashObject] with fnv and [SafeEncodeString]) and the parser of image
    references are parameters. *)

From S2P Require Import Prelude GoLib GoText K8s Tools Expectations Lifecycle Selector UpdateSort CloneSetDiff.
From S2P Require Import ControllerExpectations WorkloadSpreadTypes ImagePullTypes World PubControl BroadcastJob CloneSetUpdate SidecarSetStrategy StatefulSetUtils SidecarSet.
From S2P Require Import WorkloadSpread SidecarSetReconcile ImagePull K8s.
Open Scope Z_scope.
Open Scope kruise_scope.
Local Open Scope string_scope.
Local Open Scope list_scope.
Local Open Scope Z_scope.

#[export] Instance Requirement_eq_dec : EqDecision Requirement.
Proof. solve_decision. Defined.
#[export] Instance LabelSelector_eq_dec : EqDecision LabelSelector.
Proof. solve_decision. Defined.
#[export] Instance ImagePullJobNodeSelector_eq_dec : EqDecision ImagePullJobNodeSelector.
Proof. solve_decision. Defined.
#[export] Instance PullPolicy_eq_dec : EqDecision PullPolicy.
Proof. solve_decision. Defined.
#[export] Instance CompletionPolicy_eq_dec : EqDecision CompletionPolicy.
Proof. solve_decision. Defined.

Record ImagePullJobTemplate := mkJobTemplate {
  jt_PullSecrets : list string;
  jt_Selector : option ImagePullJobNodeSelector;
  jt_PodSelector : option LabelSelector;
  jt_Parallelism : option IntOrString;
  jt_PullPolicy : option PullPolicy;
  jt_CompletionPolicy : CompletionPolicy;
  jt_SandboxConfig : option SandboxConfig;
  jt_ImagePullPolicy : string;
}.
#[export] Instance ImagePullJob_eq_dec : EqDecision ImagePullJob.
Proof. solve_decision. Defined.
#[export] Instance ImagePullJobTemplate_eq_dec : EqDecision ImagePullJobTemplate.
Proof. solve_decision. Defined.
(** [Spec.ImagePullJobTemplate] of an ImagePullJob. *)
Definition job_template (job : ImagePullJob) : ImagePullJobTemplate :=
  mkJobTemplate (pj_PullSecrets job) (pj_Selector job) (pj_PodSelector job) (pj_Parallelism job) (pj_PullPolicy job)
    (pj_CompletionPolicy job) (pj_SandboxConfig job) (pj_ImagePullPolicy job).

Record FailedImageStatus := mkFailedImage { fi_ImagePullJob : string; fi_Name : string; fi_Message : string }.
Record ImageListPullJobStatus := mkListStatus {
  il_StartTime : option Z;
  il_CompletionTime : option Z;
  il_Desired : Z;
  il_Active : Z;
  il_Completed : Z;
  il_Succeeded : Z;
  il_FailedImageStatuses : list FailedImageStatus;
}.
#[export] Instance FailedImageStatus_eq_dec : EqDecision FailedImageStatus.
Proof. solve_decision. Defined.
#[export] Instance ImageListPullJobStatus_eq_dec : EqDecision ImageListPullJobStatus.
Proof. solve_decision. Defined.
Record ImageListPullJob := mkListJob {
  lj_namespace : string;
  lj_name : string;
  lj_uid : string;
  lj_labels : gmap string string;
  lj_Images : list string;
  lj_Template : ImagePullJobTemplate;
  lj_status : ImageListPullJobStatus;
}.
Definition with_list_status (job : ImageListPullJob) (st : ImageListPullJobStatus) : ImageListPullJob :=
  mkListJob (lj_namespace job) (lj_name job) (lj_uid job) (lj_labels job) (lj_Images job) (lj_Template job) st.

(** The client; the list is that of the cache. *)
Class ListJobApi (S : Type) := {
  GetListJob : NamespacedName -> S -> error + ImageListPullJob;
  PatchListJobLabels : NamespacedName -> gmap string string -> S -> S * option error;
  UpdateListJobStatus : ImageListPullJob -> S -> S * option error;
  DeleteListJob : ImageListPullJob -> S -> S * option error;
  ListPullJobs : S -> error + list ImagePullJob;
  WritePullJob : PullJobWrite -> S -> S * option error;
}.

(** ** The webhooks *)

Definition Always : string := "Always".

Section Validate.
Context (NormalizeImageRef : string -> option error).

Definition validate_selectors (selector : option ImagePullJobNodeSelector) (podSelector : option LabelSelector) : option error :=
  let selectorErr :=
    match selector with
    | None => None
    | Some nl =>
        let sel := nl_LabelSelector nl in
        if negb (selector_empty (Some sel)) && bool_decide (is_Some (nl_Names nl)) then
          Some "can not set both names and labelSelector in this spec.selector"
        else if negb (selector_valid (Some sel)) then Some "invalid selector"
        else match nl_Names nl with
             | Some names => if bool_decide (NoDup names) then None else Some "duplicated name in selector names"
             | None => None
             end
    end in
  match selectorErr with
  | Some err => Some err
  | None =>
      match podSelector with
      | None => None
      | Some sel =>
          if bool_decide (is_Some selector) then Some "can not set both selector and podSelector"
          else if negb (selector_valid (Some sel)) then Some "invalid podSelector" else None
      end
  end.
Definition validate_completion (policy : CompletionPolicy) : option error :=
  if String.eqb (cp_Type policy) Always then None
  else if String.eqb (cp_Type policy) Never then
    match cp_ActiveDeadlineSeconds policy, cp_TTLSecondsAfterFinished policy with
    | None, None => None
    | _, _ => Some "activeDeadlineSeconds and ttlSecondsAfterFinished can only work with Always CompletionPolicyType"
    end
  else Some ("unknown type of completionPolicy: " +:+ cp_Type policy).
Definition invalid_image (image : string) : option error :=
  match NormalizeImageRef image with
  | Some err => Some ("invalid image " +:+ image +:+ ": " +:+ err)
  | None => None
  end.
(** The first error. *)
Fixpoint first_error (errs : list (option error)) : option error :=
  match errs with
  | [] => None
  | Some err :: _ => Some err
  | None :: errs' => first_error errs'
  end.
(** imagepulljob/validating. *)
Definition validate_job (job : ImagePullJob) : option error :=
  first_error [validate_selectors (pj_Selector job) (pj_PodSelector job);
               (if String.eqb (pj_Image job) "" then Some "image can not be empty" else None);
               invalid_image (pj_Image job);
               validate_completion (pj_CompletionPolicy job)].
(** imagelistpulljob/validating. *)
Definition validate (job : ImageListPullJob) : option error :=
  let t := lj_Template job in
  first_error ([validate_selectors (jt_Selector t) (jt_PodSelector t);
                (if bool_decide (lj_Images job = []) then Some "image can not be empty" else None);
                (if bool_decide (NoDup (lj_Images job)) then None else Some "images cannot have duplicate values");
                (if 255 <? len (lj_Images job) then Some "the maximum number of images cannot > 255" else None)]
               ++ map invalid_image (lj_Images job)
               ++ [validate_completion (jt_CompletionPolicy t)]).
End Validate.

Section Controller.
Context {S : Type} `{ListJobApi S} `{ApiErrors} `{MapOrder}.
Context (template_hash : ImagePullJobTemplate -> string).
Context (now ExpectationTimeout : Z).

Definition list_key (job : ImageListPullJob) : string := key_string (lj_namespace job, lj_name job).
(** [metav1.NewControllerRef(job, controllerKind)]. *)
Definition list_owner (job : ImageListPullJob) : OwnerReference :=
  mkOwner "apps.kruise.io/v1alpha1" "ImageListPullJob" (lj_name job) (lj_uid job) true.

Definition writePullJob (w : PullJobWrite) : M S (option error) :=
  call (WritePullJob w) (fun e => [EvPullJob w (is_ok e)]).

Definition refreshJobTemplateHash (job : ImageListPullJob) : M S (string * option error) :=
  let newHash := template_hash (lj_Template job) in
  let oldHash := lbl (lj_labels job) ControllerRevisionHashLabelKey in
  if String.eqb newHash oldHash then ret (newHash, None)
  else
    let labels := {[ ControllerRevisionHashLabelKey := newHash ]} in
    do e <- call (PatchListJobLabels (lj_namespace job, lj_name job) labels)
              (fun e => [EvPatchLabels (lj_namespace job) (lj_name job) labels (is_ok e)]);
    ret (newHash, e).

Definition status_try (job : ImageListPullJob) (newStatus : ImageListPullJobStatus) (_ : unit) : M S (option error * unit) :=
  do r <- read (GetListJob (lj_namespace job, lj_name job));
  match r with
  | inl err => ret (Some err, tt)
  | inr current =>
      do e <- call (UpdateListJobStatus (with_list_status current newStatus)) (fun e => [EvUpdateStatus (is_ok e)]);
      ret (e, tt)
  end.
(** [retry.DefaultBackoff] has four steps. *)
Definition updateStatus (job : ImageListPullJob) (newStatus : ImageListPullJobStatus) : M S (option error) :=
  World.RetryOnConflict 4 (status_try job newStatus) tt.

(** ** The jobs of a list *)

(** [IndexNameForOwnerRefUID]. *)
Definition owned_by (job : ImageListPullJob) (j : ImagePullJob) : bool :=
  String.eqb (pj_namespace j) (lj_namespace job) && existsb (fun ref => String.eqb (or_uid ref) (lj_uid job)) (pj_owners j).
Definition add_by_image (m : gmap string ImagePullJob) (j : ImagePullJob) : gmap string ImagePullJob :=
  match pj_deletion j with None => <[pj_Image j := j]> m | Some _ => m end.
Definition owned_jobs (job : ImageListPullJob) (items : list ImagePullJob) : gmap string ImagePullJob :=
  fold_left add_by_image (filterb (owned_by job) items) ∅.
Definition getOwnedImagePullJob (job : ImageListPullJob) : M S (error + gmap string ImagePullJob) :=
  do r <- read ListPullJobs;
  ret (match r with inl err => inl err | inr items => inr (owned_jobs job items) end).

Definition isConsistentVersion (oldImagePullJob : ImagePullJob) (newTemplate : ImagePullJobTemplate) (hash : string) : bool :=
  String.eqb (lbl (pj_labels oldImagePullJob) ControllerRevisionHashLabelKey) hash
  || (negb (bool_decide (is_Some (pj_labels oldImagePullJob !! ControllerRevisionHashLabelKey)))
      && bool_decide (job_template oldImagePullJob = newTemplate)).

(** The images that need a job, and the jobs that are out of date. *)
Fixpoint filter_images (job : ImageListPullJob) (imagePullJobs : gmap string ImagePullJob) (hash : string) (images : list string)
  : list string * list ImagePullJob :=
  match images with
  | [] => ([], [])
  | image :: images' =>
      let '(needed, old) := filter_images job imagePullJobs hash images' in
      match imagePullJobs !! image with
      | None => (image :: needed, old)
      | Some imagePullJob =>
          if negb (isConsistentVersion imagePullJob (lj_Template job) hash) then (image :: needed, imagePullJob :: old)
          else (needed, old)
      end
  end.
Definition filterImagesAndImagePullJobs (job : ImageListPullJob) (imagePullJobs : gmap string ImagePullJob) (hash : string) :=
  filter_images job imagePullJobs hash (lj_Images job).

Definition newImagePullJob (job : ImageListPullJob) (hash image : string) : ImagePullJob :=
  let t := lj_Template job in
  mkPullJob (lj_namespace job) "" (lj_name job +:+ "-") {[ ControllerRevisionHashLabelKey := hash ]} "" "" [list_owner job] None []
    image (jt_PullSecrets t) (jt_Selector t) (jt_PodSelector t) (jt_Parallelism t) (jt_PullPolicy t) (jt_CompletionPolicy t)
    (jt_SandboxConfig t) (jt_ImagePullPolicy t) (mkPullStatus None None 0 0 0 0 "" []).
Definition newImagePullJobs (job : ImageListPullJob) (images : list string) (hash : string) : list ImagePullJob :=
  map (newImagePullJob job hash) images.

(** [needToCreate] and [needToDelete]. *)
Definition computeImagePullJobActions (job : ImageListPullJob) (imagePullJobs : gmap string ImagePullJob) (hash : string)
  : list ImagePullJob * list ImagePullJob :=
  let '(images, needToDelete) := filterImagesAndImagePullJobs job imagePullJobs hash in
  (newImagePullJobs job images hash,
   needToDelete ++ map snd (filterb (fun kv => negb (contains (lj_Images job) kv.1)) (range_order (map_to_list imagePullJobs)))).

(** ** The status *)

Definition started (j : ImagePullJob) : bool := bool_decide (is_Some (pl_StartTime (pj_status j))).
Definition completed_job (j : ImagePullJob) : bool :=
  started j && (pl_Desired (pj_status j) =? wrap32 (pl_Failed (pj_status j) + pl_Succeeded (pj_status j))).
Definition succeeded_job (j : ImagePullJob) : bool := started j && (pl_Desired (pj_status j) =? pl_Succeeded (pj_status j)).
Definition failed_image (j : ImagePullJob) : FailedImageStatus :=
  mkFailedImage (pj_name j) (pj_Image j)
    ("Please check for details which nodes failed by 'kubectl get ImagePullJob " +:+ pj_name j +:+ "'.").
Definition list_status (job : ImageListPullJob) (imagePullJobs : gmap string ImagePullJob) : ImageListPullJobStatus :=
  let jobs := map snd (range_order (map_to_list imagePullJobs)) in
  let active := wrap32 (countb (fun j => started j && (0 <? pl_Active (pj_status j))) jobs) in
  let completed := wrap32 (countb completed_job jobs) in
  let succeeded := wrap32 (countb succeeded_job jobs) in
  let failed := map failed_image (filterb (fun j => started j && (0 <? pl_Failed (pj_status j))) jobs) in
  let desired := wrap32 (len (lj_Images job)) in
  let ends := negb (String.eqb (cp_Type (jt_CompletionPolicy (lj_Template job))) Never) && (desired =? completed) in
  mkListStatus (Some (default now (il_StartTime (lj_status job)))) (if ends then Some now else None) desired active completed succeeded failed.

(** ** Writing the jobs *)

(** The calls of one batch: the errors. *)
Fixpoint run_batch {A} (fn : A -> M S (option error)) (items : list A) : M S (list error) :=
  match items with
  | [] => ret []
  | item :: items' =>
      do e <- fn item;
      do errs <- run_batch fn items';
      ret (match e with Some err => err :: errs | None => errs end)
  end.
(** [util.SlowStartBatch]: every round makes at least one call. *)
Fixpoint slow_start {A} (fuel : nat) (fn : A -> M S (option error)) (items : list A) (batchSize successes : Z)
  : M S (Z * option error) :=
  match fuel with
  | O => ret (successes, None)
  | Datatypes.S fuel' =>
      if batchSize <=? 0 then ret (successes, None)
      else
        do errs <- run_batch fn (slice_to items batchSize);
        let successes := successes + (batchSize - len errs) in
        match errs with
        | err :: _ => ret (successes, Some err)
        | [] =>
            let rest := slice_from items batchSize in
            slow_start fuel' fn rest (Z.min (2 * batchSize) (len rest)) successes
        end
  end.
Definition SlowStartBatch {A} (items : list A) (initialBatchSize : Z) (fn : A -> M S (option error)) : M S (Z * option error) :=
  slow_start (Datatypes.S (length items)) fn items (Z.min (len items) initialBatchSize) 0.

Definition create_job (job : ImageListPullJob) (j : ImagePullJob) : M S (option error) :=
  expectScale (list_key job) Scale.Create (pj_Image j) ;;
  do e <- writePullJob (CreatePullJobW j);
  match e with
  | Some err => observeScale (list_key job) Scale.Create (pj_Image j) ;; ret (Some err)
  | None => ret None
  end.
Definition delete_job (job : ImageListPullJob) (j : ImagePullJob) : M S (option error) :=
  expectScale (list_key job) Scale.Delete (pj_Image j) ;;
  do e <- writePullJob (DeletePullJobW j);
  match e with
  | Some err =>
      observeScale (list_key job) Scale.Delete (pj_Image j) ;;
      ret (Some ("fail to delete ImagePullJob (" +:+ pj_namespace j +:+ "/" +:+ pj_name j +:+ ") for : " +:+ err))
  | None => ret None
  end.
Definition slowStartInitialBatchSize : Z := 1.
Definition syncImagePullJob (job : ImageListPullJob) (needToCreate needToDelete : list ImagePullJob) : M S (option error) :=
  do '(_, createdErr) <- SlowStartBatch needToCreate slowStartInitialBatchSize (create_job job);
  do deleteErrs <- run_batch (delete_job job) needToDelete;
  ret (NewAggregate (option_list createdErr ++ deleteErrs)).

(** ** Reconcile *)

Definition list_timeout (unsatisfiedDuration : Z) : Z :=
  if ExpectationTimeout <=? unsatisfiedDuration then 0 else ExpectationTimeout - unsatisfiedDuration.
Fixpoint wait_for_jobs (jobs : list ImagePullJob) : M S (option Z) :=
  match jobs with
  | [] => ret None
  | j :: jobs' =>
      ask_rv (fun r => (tt, RV.Observe r (pj_uid j) (pj_resourceVersion j))) ;;
      do '(isSatisfied, unsatisfiedDuration) <- ask_rv (fun r => RV.IsSatisfied r (pj_uid j) (pj_resourceVersion j) now);
      if negb isSatisfied then ret (Some (list_timeout unsatisfiedDuration)) else wait_for_jobs jobs'
  end.
Definition list_finished (job : ImageListPullJob) (completionTime : Z) : M S Result :=
  match cp_TTLSecondsAfterFinished (jt_CompletionPolicy (lj_Template job)) with
  | None => ret (0, None)
  | Some ttl =>
      let leftTime := secondsToDuration ttl - (now - completionTime) in
      if leftTime <=? 0 then
        do e <- call (DeleteListJob job) (fun e => [EvDeleteNamed (lj_namespace job) (lj_name job) (is_ok e)]);
        ret (0, match e with Some err => Some ("delete ImageListPullJob error: " +:+ err) | None => None end)
      else ret (leftTime, None)
  end.
(** The rest of [Reconcile] once the jobs are written: [e] is the error of the writes. *)
Definition report_status (job : ImageListPullJob) (newStatus : ImageListPullJobStatus) (e : option error) : M S Result :=
  match e with
  | Some err => ret (0, Some err)
  | None =>
      if negb (bool_decide (lj_status job = newStatus)) then
        do e <- updateStatus job newStatus;
        ret (0, match e with Some err => Some ("update ImageListPullJob status error: " +:+ err) | None => None end)
      else ret (0, None)
  end.
Definition list_sync (job : ImageListPullJob) (hash : string) (imagePullJobsMap : gmap string ImagePullJob) : M S Result :=
  let newStatus := list_status job imagePullJobsMap in
  let '(needToCreate, needToDelete) := computeImagePullJobActions job imagePullJobsMap hash in
  do e <- syncImagePullJob job needToCreate needToDelete;
  report_status job newStatus e.
Definition list_active (request : NamespacedName) (job : ImageListPullJob) (hash : string) : M S Result :=
  do '(scaleSatisfied, unsatisfiedDuration, _) <- ask_scale (fun r => Scale.SatisfiedExpectations r (key_string request) now);
  if negb scaleSatisfied then ret (list_timeout unsatisfiedDuration, None)
  else
    do r <- getOwnedImagePullJob job;
    match r with
    | inl err => ret (0, Some ("failed to get imagePullJob: " +:+ err))
    | inr imagePullJobsMap =>
        do wait <- wait_for_jobs (map snd (range_order (map_to_list imagePullJobsMap)));
        match wait with
        | Some d => ret (d, None)
        | None => list_sync job hash imagePullJobsMap
        end
    end.
Definition Reconcile (request : NamespacedName) : M S Result :=
  do r <- read (GetListJob request);
  match r with
  | inl err => ret (0, if IsNotFound err then None else Some err)
  | inr job =>
      do '(hash, e) <- refreshJobTemplateHash job;
      match e with
      | Some err => ret (0, Some ("refresh job template hash error: " +:+ err))
      | None =>
          match il_CompletionTime (lj_status job) with
          | Some completionTime => list_finished job completionTime
          | None => list_active request job hash
          end
      end
  end.

(** ** The events of ImagePullJobs: the lists that are enqueued *)

Definition isImageListPullJobController (ref : OwnerReference) : bool :=
  match ParseGroupVersion (or_apiVersion ref) with
  | None => false
  | Some (group, _) => String.eqb (or_kind ref) "ImageListPullJob" && String.eqb group "apps.kruise.io"
  end.
Definition list_controller (j : ImagePullJob) : option NamespacedName :=
  match GetControllerOf (pj_owners j) with
  | Some ref => if isImageListPullJobController ref then Some (pj_namespace j, or_name ref) else None
  | None => None
  end.
(** [EnqueueRequestForOwner] of the controller runtime. *)
Definition owner_requests (j : ImagePullJob) : list NamespacedName := option_list (list_controller j).

Definition observe_job (action : string) (j : ImagePullJob) : M S unit :=
  match list_controller j with
  | Some key => observeScale (key_string key) action (pj_Image j)
  | None => ret tt
  end.
Definition job_Delete (j : ImagePullJob) : M S (list NamespacedName) :=
  observe_job Scale.Delete j ;; ret (owner_requests j).
Definition job_Create (j : ImagePullJob) : M S (list NamespacedName) :=
  match pj_deletion j with
  | Some _ => job_Delete j
  | None => observe_job Scale.Create j ;; ret (owner_requests j)
  end.
Definition job_Update (old new : ImagePullJob) : M S (list NamespacedName) :=
  expectRV (pj_uid new) (pj_resourceVersion new) ;;
  ret (remove_dups (owner_requests old ++ owner_requests new)).
End Controller.
