(* ===== verification/ImageListPullSafety.v ===== *)
(** * ImageListPullJob: the theorems

    What one reconcile of a list writes and expects, that its plan settles, when a list completes,
    and that a list which is edited can complete before its images are pulled. *)

From S2P Require Import Prelude GoLib GoText K8s Tools Expectations Lifecycle Selector UpdateSort CloneSetDiff.
From S2P Require Import ControllerExpectations WorkloadSpreadTypes ImagePullTypes World BroadcastJob CloneSetUpdate SidecarSetStrategy StatefulSetUtils SidecarSet.
From S2P Require Import WorkloadSpread SidecarSetReconcile ImagePull NodeImage ImagePullSafety ImageListPull K8s.
Open Scope Z_scope.
Open Scope kruise_scope.
Local Open Scope string_scope.
Local Open Scope list_scope.
Local Open Scope Z_scope.

(** ** What the webhook guarantees *)

Lemma first_error_None errs : first_error errs = None <-> Forall (fun e => e = None) errs.
Proof.
  induction errs as [|[err|] errs IH]; simpl; [done|split; [done|]|].
  - intros Hf. by apply Forall_cons in Hf as [? _].
  - rewrite Forall_cons. naive_solver.
Qed.
Lemma validate_images Norm job : validate Norm job = None -> NoDup (lj_Images job) /\ len (lj_Images job) <= 255.
Proof.
  unfold validate. rewrite first_error_None, !Forall_app, !Forall_cons. intros [(_ & _ & Hd & Hl & _) _].
  case_bool_decide; [|done]. split; [done|]. destruct (Z.ltb_spec 255 (len (lj_Images job))); [done|lia].
Qed.

(** ** The jobs of a list *)

Definition live (j : ImagePullJob) : bool := bool_decide (pj_deletion j = None).
Definition live_owned (job : ImageListPullJob) (j : ImagePullJob) : bool := owned_by job j && live j.

Lemma add_by_image_lookup l m i :
  fold_left add_by_image l m !! i
  = match last (filterb (fun j => live j && String.eqb (pj_Image j) i) l) with Some j => Some j | None => m !! i end.
Proof.
  revert m. induction l as [|j l IH]; intros m; simpl; [done|]. rewrite IH. unfold add_by_image, live.
  destruct (pj_deletion j); [by rewrite bool_decide_eq_false_2|]. rewrite bool_decide_eq_true_2 by done. simpl.
  destruct (String.eqb_spec (pj_Image j) i) as [->|Hne].
  - set (l' := filterb _ l). rewrite last_cons. destruct (last l'); [done|]. by rewrite lookup_insert_eq.
  - by rewrite lookup_insert_ne.
Qed.
Lemma owned_jobs_some job items i j :
  owned_jobs job items !! i = Some j -> j ∈ items /\ live_owned job j = true /\ pj_Image j = i.
Proof.
  unfold owned_jobs. rewrite add_by_image_lookup. destruct (last _) as [k|] eqn:E; [|by rewrite lookup_empty]. intros [= ->].
  apply last_Some_elem_of, filterb_elem in E as [Hin Hb]. apply filterb_elem in Hin as [Hin Ho].
  apply andb_true_iff in Hb as [Hl Hi]. apply String.eqb_eq in Hi. unfold live_owned. by rewrite Ho, Hl.
Qed.
(** With one job for each image the map is the list. *)
Lemma owned_jobs_iff job items i j : NoDup (map pj_Image (filterb (live_owned job) items)) ->
  owned_jobs job items !! i = Some j <-> j ∈ items /\ live_owned job j = true /\ pj_Image j = i.
Proof.
  intros Hnd. split; [apply owned_jobs_some|]. intros (Hin & Hl & Hi). unfold owned_jobs. rewrite add_by_image_lookup, filterb_and.
  set (f := fun x => _ && _). assert (Hf : forall x, f x = true <-> live_owned job x = true /\ pj_Image x = i).
  { intros x. unfold f, live_owned. rewrite !andb_true_iff, String.eqb_eq. naive_solver. }
  destruct (last (filterb f items)) as [k|] eqn:E.
  - apply last_Some_elem_of, filterb_elem in E as [Hk Hfk]. apply Hf in Hfk as [Hlk Hik]. f_equal.
    assert (Hkl : k ∈ filterb (live_owned job) items) by (by apply filterb_elem).
    assert (Hjl : j ∈ filterb (live_owned job) items) by (by apply filterb_elem).
    apply (nodup_map_inj pj_Image _ _ _ Hnd Hkl Hjl). congruence.
  - apply last_None in E. assert (Hj : j ∈ filterb f items) by (apply filterb_elem; split; [done|by apply Hf]).
    rewrite E in Hj. by apply not_elem_of_nil in Hj.
Qed.

(** ** The plan of a reconcile *)

Section Plan.
Context `{MapOrder} (job : ImageListPullJob) (hash : string).
Implicit Types m : gmap string ImagePullJob.

Definition consistent (j : ImagePullJob) : bool := isConsistentVersion j (lj_Template job) hash.
(** The images without a job of this template, and those whose job is out of date. *)
Definition needs m (i : string) : bool := match m !! i with Some j => negb (consistent j) | None => true end.
Definition stale m (i : string) : bool := match m !! i with Some j => negb (consistent j) | None => false end.
Definition by_image m : Prop := forall i j, m !! i = Some j -> pj_Image j = i.

Lemma filter_images_spec m images :
  filter_images job m hash images = (filterb (needs m) images, omap (m !!.) (filterb (stale m) images)).
Proof.
  induction images as [|i images IH]; cbn [filter_images filterb]; [done|]. rewrite IH.
  destruct (needs m i) eqn:En, (stale m i) eqn:Es; unfold needs, stale, consistent in En, Es;
    destruct (m !! i) as [j|] eqn:E; try congruence; rewrite ?En; cbn; by rewrite ?E.
Qed.

(** The images that are not in the list any more. *)
Definition gone m : list (string * ImagePullJob) :=
  filterb (fun kv => negb (contains (lj_Images job) kv.1)) (range_order (map_to_list m)).
Lemma plan_spec m :
  computeImagePullJobActions job m hash
  = (map (newImagePullJob job hash) (filterb (needs m) (lj_Images job)),
     omap (m !!.) (filterb (stale m) (lj_Images job)) ++ map snd (gone m)).
Proof. unfold computeImagePullJobActions, filterImagesAndImagePullJobs. by rewrite filter_images_spec. Qed.

Lemma gone_elem m i j : (i, j) ∈ gone m <-> m !! i = Some j /\ i ∉ lj_Images job.
Proof.
  unfold gone. rewrite filterb_elem, range_order_elem. simpl. by rewrite negb_true_iff, <-not_true_iff_false, contains_spec.
Qed.
(** The jobs that are deleted: of images that left the list, and of another template. *)
Lemma plan_deletes m j : j ∈ (computeImagePullJobActions job m hash).2 <->
  exists i, m !! i = Some j /\ (i ∉ lj_Images job \/ (i ∈ lj_Images job /\ consistent j = false)).
Proof.
  rewrite plan_spec. simpl. rewrite elem_of_app, list_elem_of_omap. setoid_rewrite filterb_elem. split.
  - intros [(i & [Hi Hs] & Hj)|Hg].
    + exists i. split; [done|]. right. split; [done|]. unfold stale in Hs. rewrite Hj in Hs. by apply negb_true_iff in Hs.
    + apply list_elem_of_fmap in Hg as ([i j'] & -> & Hg). apply gone_elem in Hg as [Hm Hi]. eauto.
  - intros (i & Hm & [Hi|[Hi Hc]]).
    + right. apply list_elem_of_fmap. exists (i, j). split; [done|]. by apply gone_elem.
    + left. exists i. split; [split; [done|]|done]. unfold stale. by rewrite Hm, Hc.
Qed.
Lemma plan_creates m j : j ∈ (computeImagePullJobActions job m hash).1 <->
  exists i, j = newImagePullJob job hash i /\ i ∈ lj_Images job /\ needs m i = true.
Proof. rewrite plan_spec. simpl. rewrite list_elem_of_fmap. setoid_rewrite filterb_elem. naive_solver. Qed.

Lemma created_images images : map pj_Image (map (newImagePullJob job hash) images) = images.
Proof. rewrite map_map. simpl. apply map_id. Qed.
Lemma omap_images m images : by_image m ->
  map pj_Image (omap (m !!.) (filterb (stale m) images)) = filterb (stale m) images.
Proof.
  intros Hm. induction images as [|i images IH]; cbn [filterb]; [done|]. destruct (stale m i) eqn:Es; [|done].
  unfold stale in Es. destruct (m !! i) as [j|] eqn:E; [|done].
  change (omap _ (i :: ?l)) with (match m !! i with Some y => y :: omap (m !!.) l | None => omap (m !!.) l end).
  rewrite E. cbn [map]. by rewrite IH, (Hm i j E).
Qed.
Lemma gone_images m : by_image m -> map pj_Image (map snd (gone m)) = map fst (gone m).
Proof.
  intros Hm. rewrite map_map. apply map_ext_in. intros [i j] Hin%list_elem_of_In. apply gone_elem in Hin as [Hin _]. simpl. by apply Hm.
Qed.
(** No image is created or deleted twice. *)
Lemma plan_images_NoDup m : NoDup (lj_Images job) -> by_image m ->
  NoDup (map pj_Image (computeImagePullJobActions job m hash).1) /\ NoDup (map pj_Image (computeImagePullJobActions job m hash).2).
Proof.
  intros Hnd Hm. rewrite plan_spec. simpl. rewrite created_images, map_app, omap_images, gone_images by done.
  split; [by eapply sublist_NoDup; [|apply filterb_sublist]|]. apply NoDup_app. split; [by eapply sublist_NoDup; [|apply filterb_sublist]|]. split.
  - intros i Hi Hg. apply filterb_elem in Hi as [Hi _]. apply list_elem_of_fmap in Hg as ([k j] & -> & Hg). by apply gone_elem in Hg as [_ ?].
  - eapply sublist_NoDup; [apply (range_order_NoDup m)|]. apply (fmap_sublist fst), filterb_sublist.
Qed.
End Plan.
Lemma owned_by_image job items : by_image (owned_jobs job items).
Proof. intros i j Hj. by apply owned_jobs_some in Hj as (_ & _ & ?). Qed.

(** ** The plan settles *)

Lemma filterb_none {A} (f : A -> bool) l : (forall x, x ∈ l -> f x = false) -> filterb f l = [].
Proof.
  induction l as [|x l IH]; intros Hf; simpl; [done|]. rewrite (Hf x) by (by left). apply IH. intros y Hy. apply Hf. by right.
Qed.

(** What the server keeps of a job that it stores: the image, the template and the owner, with the
    label of the hash; the name, the uid and the version are its own. *)
Definition stored_as (j stored : ImagePullJob) : Prop :=
  pj_Image stored = pj_Image j /\ pj_namespace stored = pj_namespace j /\ pj_labels stored = pj_labels j /\
  pj_owners stored = pj_owners j /\ pj_deletion stored = None /\ job_template stored = job_template j.
(** The jobs after a plan: the deleted ones are gone and the created ones are stored. *)
Definition after_plan `{MapOrder} (job : ImageListPullJob) (hash : string) (stored : ImagePullJob -> ImagePullJob) (items : list ImagePullJob)
  : list ImagePullJob :=
  let plan := computeImagePullJobActions job (owned_jobs job items) hash in
  filterb (fun j => negb (bool_decide (j ∈ plan.2))) items ++ map stored plan.1.

Section Settles.
Context `{MapOrder} (job : ImageListPullJob) (hash : string) (stored : ImagePullJob -> ImagePullJob) (items : list ImagePullJob).
Context (Himages : NoDup (lj_Images job)) (Hone : NoDup (map pj_Image (filterb (live_owned job) items))).
Context (Hstored : forall i, stored_as (newImagePullJob job hash i) (stored (newImagePullJob job hash i))).

Let m := owned_jobs job items.

Lemma stored_owned i : live_owned job (stored (newImagePullJob job hash i)) = true.
Proof.
  destruct (Hstored i) as (_ & Hn & _ & Ho & Hd & _). unfold live_owned, owned_by, live. rewrite Hn, Ho, Hd. simpl.
  by rewrite !String.eqb_refl.
Qed.
Lemma stored_image i : pj_Image (stored (newImagePullJob job hash i)) = i.
Proof. by destruct (Hstored i) as (-> & _). Qed.
Lemma stored_consistent i : consistent job hash (stored (newImagePullJob job hash i)) = true.
Proof.
  destruct (Hstored i) as (_ & _ & Hl & _). unfold consistent, isConsistentVersion, lbl. rewrite Hl. unfold newImagePullJob.
  cbn [pj_labels]. by rewrite lookup_singleton_eq, String.eqb_refl.
Qed.

Lemma stored_template i : job_template (stored (newImagePullJob job hash i)) = lj_Template job.
Proof. destruct (Hstored i) as (_ & _ & _ & _ & _ & ->). unfold newImagePullJob. by destruct (lj_Template job). Qed.

(** A job of the list after the plan: it was kept, or it is new. *)
Lemma after_elem j : live_owned job j = true -> j ∈ after_plan job hash stored items <->
  (m !! pj_Image j = Some j /\ pj_Image j ∈ lj_Images job /\ consistent job hash j = true) \/
  (exists i, j = stored (newImagePullJob job hash i) /\ i ∈ lj_Images job /\ needs job hash m i = true).
Proof.
  intros Hl. unfold after_plan. rewrite elem_of_app, filterb_elem, negb_true_iff, bool_decide_eq_false, plan_deletes, list_elem_of_fmap.
  setoid_rewrite plan_creates. fold m. 
  enough (Hkept : (j ∈ items /\ ~ (exists i, m !! i = Some j /\ (i ∉ lj_Images job \/ (i ∈ lj_Images job /\ consistent job hash j = false)))) <->
    (m !! pj_Image j = Some j /\ pj_Image j ∈ lj_Images job /\ consistent job hash j = true)) by naive_solver. split.
  - intros [Hin Hkeep]. assert (Hm : m !! pj_Image j = Some j) by (by apply owned_jobs_iff). split; [done|].
    destruct (decide (pj_Image j ∈ lj_Images job)) as [Hi|Hi]; [|destruct Hkeep; eauto]. split; [done|].
    destruct (consistent job hash j) eqn:Hc; [done|]. destruct Hkeep. eauto.
  - intros (Hm & Hi & Hc). split; [by apply owned_jobs_some in Hm as [? _]|]. intros (i & Hmi & Hd).
    assert (pj_Image j = i) as <- by (by apply owned_by_image in Hmi). destruct Hd as [?|[_ Hd]]; congruence.
Qed.
Lemma after_images : NoDup (map pj_Image (filterb (live_owned job) (after_plan job hash stored items))).
Proof.
  unfold after_plan. rewrite filterb_app, map_app, filterb_comm. apply NoDup_app. split; [|split].
  - eapply sublist_NoDup; [exact Hone|]. apply fmap_sublist, filterb_sublist.
  - intros i Hi Hs. apply list_elem_of_fmap in Hi as (j & -> & Hj). apply filterb_elem in Hj as [Hj Hk]. apply filterb_elem in Hj as [Hj Hl].
    apply list_elem_of_fmap in Hs as (s & Hs & Hin). apply filterb_elem in Hin as [Hin _].
    apply list_elem_of_fmap in Hin as (c & -> & Hc). apply plan_creates in Hc as (i & -> & Hi & Hn). rewrite stored_image in Hs. subst i.
    apply negb_true_iff, bool_decide_eq_false in Hk. destruct Hk. apply plan_deletes. exists (pj_Image j).
    assert (Hm : m !! pj_Image j = Some j) by (by apply owned_jobs_iff). split; [done|]. right. split; [done|].
    unfold needs in Hn. fold m in Hn. rewrite Hm in Hn. by apply negb_true_iff.
  - eapply sublist_NoDup; [|apply fmap_sublist, filterb_sublist]. rewrite plan_spec. simpl. rewrite !map_map.
    rewrite (map_ext _ _ stored_image), map_id. by eapply sublist_NoDup; [|apply filterb_sublist].
Qed.
Lemma after_plan_settled : let m' := owned_jobs job (after_plan job hash stored items) in
  (forall i, i ∈ lj_Images job <-> is_Some (m' !! i)) /\ (forall i j, m' !! i = Some j -> consistent job hash j = true).
Proof.
  intros m'. assert (Hm' : forall i j, m' !! i = Some j <-> j ∈ after_plan job hash stored items /\ live_owned job j = true /\ pj_Image j = i).
  { intros i j. apply owned_jobs_iff, after_images. }
  split.
  - intros i. split.
    + intros Hi. destruct (needs job hash m i) eqn:Hn.
      * exists (stored (newImagePullJob job hash i)). apply Hm'. split; [|split; [apply stored_owned|apply stored_image]].
        apply after_elem; [apply stored_owned|]. right. eauto.
      * unfold needs in Hn. destruct (m !! i) as [j|] eqn:E; [|done]. apply negb_false_iff in Hn.
        pose proof (owned_jobs_some _ _ _ _ E) as (Hin & Hl & Hi'). subst i.
        exists j. apply Hm'. split; [|done]. apply after_elem; [done|]. left. done.
    + intros [j Hj]. apply Hm' in Hj as (Hin & Hl & <-). apply after_elem in Hin as [(_ & Hi & _)|(i & -> & Hi & _)]; [done| |done].
      by rewrite stored_image.
  - intros i j Hj. apply Hm' in Hj as (Hin & Hl & <-). apply after_elem in Hin as [(_ & _ & Hc)|(i & -> & _)]; [done|apply stored_consistent|done].
Qed.
End Settles.

(** C19: The plan of a list settles.  Take a list the webhook has admitted, whose jobs in the cache
    are one for each image, and carry out its plan on a server that stores a job with its image, its
    template, its owner and its label, and that removes what is deleted.  Then there is exactly one
    job for every image of the list and no other job of the list.  Each of them is either a new one
    with the very template of the list, labelled with its hash, or was there before and passes the
    check of the code for the template (the label of that hash, or no label and that template); and
    the next reconcile plans nothing. *)
Theorem list_job_settles `{MapOrder} NormalizeImageRef template_hash job stored items :
  validate NormalizeImageRef job = None -> NoDup (map pj_Image (filterb (live_owned job) items)) ->
  let hash := template_hash (lj_Template job) in
  (forall i, stored_as (newImagePullJob job hash i) (stored (newImagePullJob job hash i))) ->
  let items' := after_plan job hash stored items in
  (forall i, i ∈ lj_Images job <-> exists j, j ∈ items' /\ live_owned job j = true /\ pj_Image j = i) /\
  (forall j, j ∈ items' -> live_owned job j = true ->
     (job_template j = lj_Template job /\ pj_labels j !! ControllerRevisionHashLabelKey = Some hash) \/
     (j ∈ items /\ (lbl (pj_labels j) ControllerRevisionHashLabelKey = hash \/
                    pj_labels j !! ControllerRevisionHashLabelKey = None /\ job_template j = lj_Template job))) /\
  NoDup (map pj_Image (filterb (live_owned job) items')) /\
  computeImagePullJobActions job (owned_jobs job items') hash = ([], []).
Proof.
  intros Hv Hone hash Hst items'. apply validate_images in Hv as [Hnd _].
  pose proof (after_images job hash stored items Hnd Hone Hst) as Hone'.
  destruct (after_plan_settled job hash stored items Hnd Hone Hst) as [Hdom Hcon]. fold items' in Hdom, Hcon, Hone'.
  assert (Hiff : forall i j, owned_jobs job items' !! i = Some j <-> j ∈ items' /\ live_owned job j = true /\ pj_Image j = i).
  { intros i j. by apply owned_jobs_iff. }
  split; [|split; [|split; [done|]]].
  - intros i. rewrite (Hdom i). split; intros [j Hj]; exists j; by apply Hiff.
  - intros j Hin Hl. pose proof (Hcon (pj_Image j) j ltac:(by apply Hiff)) as Hc. unfold items' in Hin.
    apply (after_elem job hash stored items Hone) in Hin as [(Hm & _)|(i & -> & _)]; [right|left|done].
    + split; [by apply owned_jobs_some in Hm as [? _]|]. unfold consistent, isConsistentVersion in Hc.
      apply orb_true_iff in Hc as [Hc%String.eqb_eq|[Hn Ht]%andb_true_iff]; [by left|right].
      apply negb_true_iff, bool_decide_eq_false in Hn. split; [by apply eq_None_not_Some|]. by apply bool_decide_eq_true in Ht.
    + split; [by apply stored_template|]. destruct (Hst i) as (_ & _ & -> & _). unfold newImagePullJob. cbn [pj_labels]. by rewrite lookup_singleton_eq.
  - rewrite plan_spec. f_equal.
    + replace (filterb _ _) with (@nil string); [done|]. symmetry. apply filterb_none. intros i Hi. apply Hdom in Hi as [j Hj].
      unfold needs. rewrite Hj. by rewrite (Hcon i j Hj).
    + apply app_nil. split.
      * replace (filterb _ _) with (@nil string); [done|]. symmetry. apply filterb_none. intros i Hi. apply Hdom in Hi as [j Hj].
        unfold stale. rewrite Hj. by rewrite (Hcon i j Hj).
      * destruct (gone job _) as [|[i j] l] eqn:Eg; [done|]. exfalso.
        assert (Hg : (i, j) ∈ gone job (owned_jobs job items')) by (rewrite Eg; by left). apply gone_elem in Hg as [Hg Hi].
        apply Hi, Hdom. eauto.
Qed.

(** ** The writes of a reconcile *)

Definition job_writes (evs : list Event) : list (PullJobWrite * bool) :=
  omap (fun ev => match ev with EvPullJob w ok => Some (w, ok) | _ => None end) evs.
Definition no_job_write (ev : Event) : bool := match ev with EvPullJob _ _ => false | _ => true end.
Lemma job_writes_app e1 e2 : job_writes (e1 ++ e2) = job_writes e1 ++ job_writes e2.
Proof. apply omap_app. Qed.
Lemma no_job_writes evs : Forall (fun ev => no_job_write ev = true) evs -> job_writes evs = [].
Proof. induction 1 as [|ev evs Hev _ IH]; [done|]. by destruct ev. Qed.

(** The images of the writes that succeeded. *)
Definition accepted (jobs : list ImagePullJob) (oks : list bool) : gset string :=
  list_to_set (omap (fun p : ImagePullJob * bool => if p.2 then Some (pj_Image p.1) else None) (zip jobs oks)).
Lemma accepted_cons j jobs ok oks : accepted (j :: jobs) (ok :: oks) = (if ok then {[pj_Image j]} else ∅) ∪ accepted jobs oks.
Proof. unfold accepted. destruct ok; simpl; [done|]. by rewrite (left_id_L ∅ (∪)). Qed.
Lemma accepted_subset jobs oks i : i ∈ accepted jobs oks -> i ∈ map pj_Image jobs.
Proof.
  unfold accepted. rewrite elem_of_list_to_set, list_elem_of_omap. intros ([j ok] & Hz & Hs). destruct ok; [|done]. injection Hs as <-.
  apply list_elem_of_fmap. exists j. split; [done|]. by apply elem_of_zip_l in Hz.
Qed.
Lemma accepted_app j1 j2 o1 o2 : length j1 = length o1 -> accepted (j1 ++ j2) (o1 ++ o2) = accepted j1 o1 ∪ accepted j2 o2.
Proof.
  revert o1. induction j1 as [|j j1 IH]; intros [|ok o1] Hl; try done; simpl app.
  { change (accepted [] []) with (∅ : gset string). set_solver. }
  rewrite !accepted_cons, IH by (simpl in Hl; lia). by rewrite (assoc_L (∪)).
Qed.

Section Writes.
Context {S : Type} `{ListJobApi S} `{ApiErrors} `{MapOrder}.
Context (template_hash : ImagePullJobTemplate -> string) (now ExpectationTimeout : Z).

(** A call that writes one job and is expected while it is not known to have failed. *)
Definition expected_call (key action : string) (W : ImagePullJob -> PullJobWrite) (fn : ImagePullJob -> M S (option error)) : Prop :=
  forall j w, let r := fn j w in
    w_trace r.1 = w_trace w ++ [EvPullJob (W j) (is_ok r.2)] /\
    forall k a, Scale.pending (w_scale r.1) k a
      = (if bool_decide (key = k /\ action = a)
         then if is_ok r.2 then {[pj_Image j]} ∪ Scale.pending (w_scale w) k a else Scale.pending (w_scale w) k a ∖ {[pj_Image j]}
         else Scale.pending (w_scale w) k a).

Lemma expected_write key action W (on_err : ImagePullJob -> error -> error) :
  expected_call key action W (fun j =>
    expectScale key action (pj_Image j) ;;
    do e <- writePullJob (W j);
    match e with
    | Some err => observeScale key action (pj_Image j) ;; ret (Some (on_err j err))
    | None => ret None
    end).
Proof.
  intros j w. unfold bind, writePullJob, call. simpl. destruct (WritePullJob (W j) (w_server w)) as [s [err|]]; simpl.
  - split; [done|]. intros k a. rewrite Scale.pending_ObserveScale, Scale.pending_ExpectScale. case_bool_decide; [set_solver|done].
  - split; [done|]. intros k a. apply Scale.pending_ExpectScale.
Qed.
Lemma create_expected job : expected_call (list_key job) Scale.Create CreatePullJobW (create_job job).
Proof. apply (expected_write _ _ _ (fun _ err => err)). Qed.
Lemma delete_expected job : expected_call (list_key job) Scale.Delete DeletePullJobW (delete_job job).
Proof. apply expected_write. Qed.

(** A sequence of such calls, for different images: what is expected then are the writes that
    succeeded. *)
Definition calls_made (key action : string) (W : ImagePullJob -> PullJobWrite) (jobs : list ImagePullJob) (w w' : World S) (oks : list bool) : Prop :=
  length oks = length jobs /\ w_trace w' = w_trace w ++ zip_with (fun j ok => EvPullJob (W j) ok) jobs oks /\
  forall k a, Scale.pending (w_scale w') k a
    = (if bool_decide (key = k /\ action = a) then accepted jobs oks ∪ Scale.pending (w_scale w) k a else Scale.pending (w_scale w) k a).

Lemma calls_made_nil key action W w : calls_made key action W [] w w [].
Proof. split; [done|]. split; [by rewrite app_nil_r|]. intros k a. case_bool_decide; [|done]. unfold accepted. simpl. set_solver. Qed.
Lemma calls_made_app key action W j1 j2 w w1 w2 o1 o2 :
  calls_made key action W j1 w w1 o1 -> calls_made key action W j2 w1 w2 o2 -> calls_made key action W (j1 ++ j2) w w2 (o1 ++ o2).
Proof.
  intros (Hl1 & Ht1 & Hp1) (Hl2 & Ht2 & Hp2). split; [by rewrite !length_app, Hl1, Hl2|]. split.
  - rewrite Ht2, Ht1, zip_with_app by done. by rewrite app_assoc.
  - intros k a. rewrite Hp2, Hp1, accepted_app by done. case_bool_decide; [set_solver|done].
Qed.

Lemma run_batch_made key action W fn jobs w :
  expected_call key action W fn -> NoDup (map pj_Image jobs) ->
  (forall i, i ∈ map pj_Image jobs -> i ∉ Scale.pending (w_scale w) key action) ->
  exists oks, calls_made key action W jobs w (run_batch fn jobs w).1 oks /\ ((run_batch fn jobs w).2 = [] <-> Forall (fun ok => ok = true) oks).
Proof.
  intros Hfn. revert w. induction jobs as [|j jobs IH]; intros w Hnd Hfree.
  { exists []. split; [apply calls_made_nil|done]. }
  simpl map in Hnd, Hfree. apply NoDup_cons in Hnd as [Hj Hnd]. cbn [run_batch]. unfold bind. destruct (Hfn j w) as [Ht Hp].
  destruct (fn j w) as [w1 e]. simpl in Ht, Hp. destruct (IH w1 Hnd) as (oks & Hmade & Hnil).
  { intros i Hi. rewrite Hp, bool_decide_eq_true_2 by done. assert (i <> pj_Image j) by (by intros ->).
    assert (i ∉ Scale.pending (w_scale w) key action) by (apply Hfree; by right). destruct (is_ok e); set_solver. }
  destruct (run_batch fn jobs w1) as [w2 errs]. simpl in Hmade, Hnil |- *. exists (is_ok e :: oks).
  split.
  - change (j :: jobs) with ([j] ++ jobs). change (is_ok e :: oks) with ([is_ok e] ++ oks).
    apply (calls_made_app _ _ _ _ _ _ w1); [|done]. split; [done|]. split; [done|]. intros k a. rewrite Hp.
    case_bool_decide as Hka; [|done]. destruct Hka as [<- <-]. unfold accepted. simpl. destruct (is_ok e); simpl; [set_solver|].
    assert (pj_Image j ∉ Scale.pending (w_scale w) key action) by (apply Hfree; by left). set_solver.
  - rewrite Forall_cons. destruct e; simpl; [naive_solver|]. rewrite Hnil. naive_solver.
Qed.

(** The batches: they stop after a batch with an error, and only then. *)
Lemma slow_start_made key action W fn fuel jobs batchSize successes w :
  expected_call key action W fn -> NoDup (map pj_Image jobs) -> (length jobs < fuel)%nat ->
  (0 < len jobs -> 0 < batchSize) -> batchSize <= len jobs ->
  (forall i, i ∈ map pj_Image jobs -> i ∉ Scale.pending (w_scale w) key action) ->
  let r := slow_start fuel fn jobs batchSize successes w in
  exists made rest oks, jobs = made ++ rest /\ calls_made key action W made w r.1 oks /\
    (r.2.2 = None -> rest = [] /\ Forall (fun ok => ok = true) oks) /\ (r.2.2 <> None -> Exists (fun ok => ok = false) oks).
Proof.
  intros Hfn. revert jobs batchSize successes w. induction fuel as [|fuel IH]; intros jobs b n w Hnd Hfuel Hb1 Hb2 Hfree; [lia|].
  cbn [slow_start]. destruct (Z.leb_spec b 0) as [Hb|Hb].
  { destruct jobs as [|j jobs]; [|simpl length in Hb1; lia]. exists [], [], []. split; [done|]. split; [apply calls_made_nil|done]. }
  unfold slice_to, slice_from. set (now1 := take (Z.to_nat b) jobs). set (later := drop (Z.to_nat b) jobs).
  assert (Hsplit : jobs = now1 ++ later) by (symmetry; apply take_drop). rewrite Hsplit, map_app in Hnd. apply NoDup_app in Hnd as (Hnd1 & Hdis & Hnd2).
  rewrite Hsplit, map_app in Hfree.
  destruct (run_batch_made key action W fn now1 w Hfn Hnd1) as (oks & Hmade & Hnil). { intros i Hi. apply Hfree, elem_of_app. by left. }
  unfold bind. destruct (run_batch fn now1 w) as [w1 errs]. simpl in Hmade, Hnil.
  destruct errs as [|err errs].
  - specialize (IH later (Z.min (2 * b) (len later)) (n + (b - len (@nil error))) w1 Hnd2).
    assert (Hll : (length later < fuel)%nat). { unfold later. rewrite length_drop. lia. }
    destruct IH as (made & rest & oks2 & Hl & Hm2 & Hn2 & Hs2); [done|lia|lia| |].
    { intros i Hi. destruct Hmade as (_ & _ & Hp). rewrite Hp, bool_decide_eq_true_2 by done.
      intros [Ha|Hpend]%elem_of_union; [by apply (Hdis i); [apply accepted_subset in Ha|]|].
      by apply (Hfree i); [apply elem_of_app; right|]. }
    exists (now1 ++ made), rest, (oks ++ oks2). split; [by rewrite Hsplit, Hl, app_assoc|]. split; [by apply (calls_made_app _ _ _ _ _ _ w1)|].
    split.
    + intros Hr. destruct (Hn2 Hr) as [-> Hall]. split; [done|]. apply Forall_app. split; [by apply Hnil|done].
    + intros Hr. apply Exists_app. right. by apply Hs2.
  - exists now1, later, oks. split; [done|]. split; [done|]. split; [done|]. intros _.
    assert (Hnot : ~ Forall (fun ok => ok = true) oks) by (by intros Hall%Hnil).
    apply not_Forall_Exists in Hnot; [|intros []; (by left) || (by right)]. eapply Exists_impl; [exact Hnot|]. intros [] Hx; [by destruct Hx|done].
Qed.

Lemma sync_made job creates deletes w :
  NoDup (map pj_Image creates) -> NoDup (map pj_Image deletes) -> (forall a, Scale.pending (w_scale w) (list_key job) a = ∅) ->
  let r := syncImagePullJob job creates deletes w in
  exists made rest oks1 oks2, creates = made ++ rest /\ (Forall (fun ok => ok = true) oks1 -> rest = []) /\
    length oks1 = length made /\ length oks2 = length deletes /\
    w_trace r.1 = w_trace w ++ zip_with (fun j ok => EvPullJob (CreatePullJobW j) ok) made oks1
                            ++ zip_with (fun j ok => EvPullJob (DeletePullJobW j) ok) deletes oks2 /\
    Scale.pending (w_scale r.1) (list_key job) Scale.Create = accepted made oks1 /\
    Scale.pending (w_scale r.1) (list_key job) Scale.Delete = accepted deletes oks2.
Proof.
  intros Hc Hd Hfree r. subst r. unfold syncImagePullJob, SlowStartBatch, bind.
  destruct (slow_start_made (list_key job) Scale.Create CreatePullJobW (create_job job) (Datatypes.S (length creates)) creates
              (Z.min (len creates) slowStartInitialBatchSize) 0 w) as (made & rest & oks1 & Hsplit & (Hl1 & Ht1 & Hp1) & Hnone & Hsome);
    [apply create_expected|done|lia|unfold slowStartInitialBatchSize; lia|lia|intros i _; rewrite Hfree; apply not_elem_of_empty|].
  destruct (slow_start _ _ _ _ _ w) as [w1 [n e]]. simpl in Ht1, Hp1, Hnone, Hsome.
  destruct (run_batch_made (list_key job) Scale.Delete DeletePullJobW (delete_job job) deletes w1) as (oks2 & (Hl2 & Ht2 & Hp2) & _);
    [apply delete_expected|done| |].
  { intros i _. rewrite Hp1, bool_decide_eq_false_2, Hfree by (by intros [_ ?]). apply not_elem_of_empty. }
  destruct (run_batch _ _ w1) as [w2 errs]. simpl in Ht2, Hp2 |- *. exists made, rest, oks1, oks2. split; [done|]. split.
  { intros Hall. destruct e as [err|]; [|by apply Hnone]. specialize (Hsome ltac:(done)). apply Exists_exists in Hsome as (ok & Hin & ->).
    rewrite Forall_forall in Hall. by specialize (Hall false Hin). }
  split; [done|]. split; [done|]. split; [by rewrite Ht2, Ht1, app_assoc|]. split.
  - rewrite Hp2, bool_decide_eq_false_2, Hp1, bool_decide_eq_true_2, Hfree by (done || by intros [_ ?]). apply (right_id_L ∅ (∪)).
  - rewrite Hp2, bool_decide_eq_true_2, Hp1, bool_decide_eq_false_2, Hfree by (done || by intros [_ ?]). apply (right_id_L ∅ (∪)).
Qed.
End Writes.

(** Steps that write no job and leave the expectations alone. *)
Section Quiet.
Context {S : Type} `{ListJobApi S} `{ApiErrors} `{MapOrder}.

Definition quiet {A} (m : M S A) : Prop := only no_job_write m /\ frames m (fun _ _ _ => False).
Lemma bind_run {A B} (m : M S A) (k : A -> M S B) w : bind m k w = k (m w).2 (m w).1.
Proof. unfold bind. by destruct (m w). Qed.
Lemma quiet_ret {A} (a : A) : quiet (ret a).
Proof. split; [apply only_ret|apply frames_ret]. Qed.
Lemma quiet_bind {A B} (m : M S A) (k : A -> M S B) : quiet m -> (forall a, quiet (k a)) -> quiet (bind m k).
Proof. intros [Ho Hf] Hk. split; [apply only_bind|apply frames_bind]; auto; intros a; by destruct (Hk a). Qed.
Lemma quiet_call {A} (f : S -> S * A) ev : (forall a, Forall (fun e => no_job_write e = true) (ev a)) -> quiet (call f ev).
Proof. intros Hev. split; [by apply only_call|apply frames_call]. Qed.
Lemma quiet_read {A} (f : S -> A) : quiet (read f).
Proof. apply quiet_call. intros a. constructor. Qed.
Lemma quiet_rv {A} (f : RV.Store -> A * RV.Store) : quiet (ask_rv f).
Proof.
  split; [apply emits_silent; [|intros w; constructor]|]; intros w; unfold ask_rv; destruct (f (w_rv w)); [done|]. by intros k x n _.
Qed.
Lemma quiet_retry {A} steps (fn : A -> M S (option error * A)) a : (forall a, quiet (fn a)) -> quiet (RetryOnConflict steps fn a).
Proof.
  intros Hfn. revert a. induction steps as [|steps IH]; intros a; simpl; [apply quiet_ret|].
  apply quiet_bind; [apply Hfn|]. intros [[err|] a']; [|apply quiet_ret].
  destruct (IsConflict err); [|apply quiet_ret]. destruct steps; [apply quiet_ret|apply IH].
Qed.
Lemma quiet_spec {A} (m : M S A) w : quiet m -> exists evs, w_trace (m w).1 = w_trace w ++ evs /\ job_writes evs = [] /\
  forall k a, Scale.pending (w_scale (m w).1) k a = Scale.pending (w_scale w) k a.
Proof.
  intros [Ho Hf]. destruct (Ho w) as (evs & Ht & Hevs). exists evs. split; [done|]. split; [by apply no_job_writes|].
  intros k a. apply set_eq. intros n. apply (Hf w k a n). tauto.
Qed.
End Quiet.
#[export] Hint Resolve quiet_ret quiet_read quiet_rv : images.

Section Reconcile.
Context {S : Type} `{ListJobApi S} `{ApiErrors} `{MapOrder}.
Context (template_hash : ImagePullJobTemplate -> string) (now ExpectationTimeout : Z).

Lemma refresh_quiet job : quiet (refreshJobTemplateHash (S := S) template_hash job).
Proof.
  unfold refreshJobTemplateHash. destruct (String.eqb _ _); [auto with images|].
  apply quiet_bind; [apply quiet_call; intros a; by repeat constructor|auto with images].
Qed.
Lemma list_finished_quiet job t : quiet (list_finished (S := S) now job t).
Proof.
  unfold list_finished. destruct (cp_TTLSecondsAfterFinished _); [|auto with images]. destruct (_ <=? _); [|auto with images].
  apply quiet_bind; [apply quiet_call; intros a; by repeat constructor|auto with images].
Qed.
Lemma wait_for_jobs_quiet jobs : quiet (wait_for_jobs (S := S) now ExpectationTimeout jobs).
Proof.
  induction jobs as [|j jobs IH]; simpl; [auto with images|]. apply quiet_bind; [auto with images|]. intros _.
  apply quiet_bind; [auto with images|]. intros [sat d]. destruct (negb sat); auto with images.
Qed.
Lemma updateStatus_quiet job st : quiet (updateStatus (S := S) job st).
Proof.
  apply quiet_retry. intros []. unfold status_try. apply quiet_bind; [auto with images|]. intros [err|cur]; [auto with images|].
  apply quiet_bind; [apply quiet_call; intros a; by repeat constructor|auto with images].
Qed.
Lemma report_status_quiet job (newStatus : ImageListPullJobStatus) (e : option error) : quiet (report_status (S := S) job newStatus e).
Proof.
  unfold report_status. destruct e; [auto with images|]. destruct (bool_decide _); cbn [negb]; [auto with images|].
  apply quiet_bind; [apply updateStatus_quiet|auto with images].
Qed.

(** What a reconcile has written and expects when it comes to the jobs. *)
Definition planned (job : ImageListPullJob) (items : list ImagePullJob) (evs : list Event) (scale : Scale.Store) : Prop :=
  let plan := computeImagePullJobActions job (owned_jobs job items) (template_hash (lj_Template job)) in
  exists made rest oks1 oks2, plan.1 = made ++ rest /\ (Forall (fun ok => ok = true) oks1 -> rest = []) /\
    length oks1 = length made /\ length oks2 = length plan.2 /\
    job_writes evs = zip (map CreatePullJobW made) oks1 ++ zip (map DeletePullJobW plan.2) oks2 /\
    Scale.pending scale (list_key job) Scale.Create = accepted made oks1 /\
    Scale.pending scale (list_key job) Scale.Delete = accepted plan.2 oks2.

Lemma zip_job_writes (W : ImagePullJob -> PullJobWrite) jobs oks :
  job_writes (zip_with (fun j ok => EvPullJob (W j) ok) jobs oks) = zip (map W jobs) oks.
Proof. revert oks. induction jobs as [|j jobs IH]; intros [|ok oks]; try done. simpl. by rewrite <-IH. Qed.

Lemma list_sync_planned job items w : NoDup (lj_Images job) -> (forall a, Scale.pending (w_scale w) (list_key job) a = ∅) ->
  let r := list_sync now job (template_hash (lj_Template job)) (owned_jobs job items) w in
  exists evs, w_trace r.1 = w_trace w ++ evs /\ planned job items evs (w_scale r.1).
Proof.
  intros Hnd Hfree r. subst r. unfold list_sync.
  destruct (plan_images_NoDup job (template_hash (lj_Template job)) (owned_jobs job items) Hnd (owned_by_image job items)) as [Hc Hd].
  unfold planned. set (plan := computeImagePullJobActions _ _ _) in *. destruct plan as [creates deletes]. simpl in Hc, Hd.
  destruct (sync_made job creates deletes w Hc Hd Hfree) as (made & rest & oks1 & oks2 & Hs & Hrest & Hl1 & Hl2 & Ht & Hp1 & Hp2).
  rewrite bind_run. destruct (syncImagePullJob _ _ _ w) as [w1 e]. simpl in Ht, Hp1, Hp2. cbn [fst snd].
  pose proof (quiet_spec _ w1 (report_status_quiet job (list_status now job (owned_jobs job items)) e)) as (evs2 & Ht2 & Hj2 & Hq2).
  eexists. split; [rewrite Ht2, Ht, <-app_assoc; reflexivity|].
  exists made, rest, oks1, oks2. rewrite !Hq2. rewrite !job_writes_app, Hj2, app_nil_r, !zip_job_writes. auto 10.
Qed.
(** The part of a reconcile that comes to the jobs, from the world [w1] after the hash. *)
Lemma list_active_planned job (w w1 : World S) evs1 : NoDup (lj_Images job) ->
  w_trace w1 = w_trace w ++ evs1 -> job_writes evs1 = [] ->
  (forall k a, Scale.pending (w_scale w1) k a = Scale.pending (w_scale w) k a) ->
  let w' := (list_active now ExpectationTimeout (lj_namespace job, lj_name job) job (template_hash (lj_Template job)) w1).1 in
  exists evs, w_trace w' = w_trace w ++ evs /\
    ((job_writes evs = [] /\ forall a, Scale.pending (w_scale w') (list_key job) a = Scale.pending (w_scale w) (list_key job) a) \/
     (@None Z = None /\ (forall a, Scale.pending (w_scale w) (list_key job) a = ∅) /\
      exists items, ListPullJobs (w_server w1) = inr items /\ planned job items evs (w_scale w'))).
Proof.
  intros Hnd Ht1 Hj1 Hp1. unfold list_active. rewrite bind_run. unfold ask_scale. fold (list_key job).
  pose proof (Scale.SatisfiedExpectations_pending (w_scale w1) (list_key job) now) as Hsat.
  pose proof (Scale.pending_Satisfied (w_scale w1) (list_key job) now) as Hps.
  destruct (Scale.SatisfiedExpectations _ _ _) as [[[sat d] kv] store]. cbn [fst snd] in *.
  set (w2 := mkWorld _ _ _ _ _ _ _). assert (Hw2 : forall k a, Scale.pending (w_scale w2) k a = Scale.pending (w_scale w) k a).
  { intros k a. simpl. by rewrite Hps, Hp1. }
  assert (Hq : forall (m : M S Result), quiet m -> exists evs, w_trace (m w2).1 = w_trace w ++ evs /\ job_writes evs = [] /\
    forall a, Scale.pending (w_scale (m w2).1) (list_key job) a = Scale.pending (w_scale w) (list_key job) a).
  { intros m Hm. destruct (quiet_spec m w2 Hm) as (evs & Ht & Hj & Hp). exists (evs1 ++ evs).
    rewrite Ht, job_writes_app, Hj1, Hj. cbn [w2 w_trace]. rewrite Ht1, app_assoc. split; [done|]. split; [done|]. intros a. by rewrite Hp. }
  destruct sat; cbn [negb]; [|destruct (Hq (ret (list_timeout ExpectationTimeout d, None)) ltac:(auto with images)) as (evs & ? & ? & ?); eauto 10].
  assert (Hfree : forall a, Scale.pending (w_scale w) (list_key job) a = ∅). { intros a. rewrite <-Hp1. by apply Hsat. }
  unfold getOwnedImagePullJob. rewrite bind_run, bind_run. cbn [read call ret fst snd]. change (w_server w2) with (w_server w1).
  set (w3 := mkWorld _ _ _ _ _ _ _). assert (w3 = w2) as -> by (unfold w3; by rewrite app_nil_r).
  destruct (ListPullJobs (w_server w1)) as [err|items]; cbn [fst snd].
  { destruct (Hq (ret (0, Some ("failed to get imagePullJob: " +:+ err))) ltac:(auto with images)) as (evs & ? & ? & ?). eauto 10. }
  rewrite bind_run. destruct (quiet_spec _ w2 (wait_for_jobs_quiet (map snd (range_order (map_to_list (owned_jobs job items)))))) as (evs2 & Ht2 & Hj2 & Hp2).
  destruct (wait_for_jobs _ _ _ w2) as [w3 [d'|]]; cbn [fst snd] in *.
  { exists (evs1 ++ evs2). cbn [ret fst]. split; [by rewrite Ht2; cbn [w2 w_trace]; rewrite Ht1, app_assoc|]. left. rewrite job_writes_app, Hj1, Hj2. split; [done|].
    intros a. simpl. by rewrite Hp2. }
  destruct (list_sync_planned job items w3 Hnd) as (evs & Ht & Hplan). { intros a. by rewrite Hp2, Hw2. }
  exists (evs1 ++ evs2 ++ evs). split; [by rewrite Ht, Ht2; cbn [w2 w_trace]; rewrite Ht1, !app_assoc|]. right. split; [done|]. split; [done|].
  exists items. split; [done|]. unfold planned in *. by rewrite !job_writes_app, Hj1, Hj2.
Qed.
End Reconcile.

(** C18: One reconcile of a list that the webhook has admitted and that is found under its name,
    whatever else the server answers: it writes no ImagePullJob, or it
    found all its expectations met and carries out its plan for the jobs in the cache.  It creates
    the planned jobs in their order and stops early only after a failure; it tries every planned
    deletion; and what it expects then are exactly the images whose write was accepted, so no
    image is created or deleted again before its event has come. *)
Theorem list_job_writes {S} `{ListJobApi S} `{ApiErrors} `{MapOrder} NormalizeImageRef template_hash now ExpectationTimeout
  request job (w : World S) :
  GetListJob request (w_server w) = inr job -> (lj_namespace job, lj_name job) = request -> validate NormalizeImageRef job = None ->
  let w' := (Reconcile template_hash now ExpectationTimeout request w).1 in
  exists evs, w_trace w' = w_trace w ++ evs /\
    ((job_writes evs = [] /\ forall a, Scale.pending (w_scale w') (list_key job) a = Scale.pending (w_scale w) (list_key job) a) \/
     (il_CompletionTime (lj_status job) = None /\ (forall a, Scale.pending (w_scale w) (list_key job) a = ∅) /\
      exists items, ListPullJobs (w_server (refreshJobTemplateHash template_hash job w).1) = inr items /\
        planned template_hash job items evs (w_scale w'))).
Proof.
  intros Hget <- Hv. apply validate_images in Hv as [Hnd _]. unfold Reconcile. rewrite bind_run. cbn [read call fst snd]. rewrite Hget. cbn [fst snd].
  rewrite app_nil_r. set (w0 := mkWorld _ _ _ _ _ _ _). assert (w0 = w) as -> by (by destruct w).
  rewrite bind_run. pose proof (refresh_quiet template_hash job) as Hq.
  destruct (quiet_spec _ w Hq) as (evs1 & Ht1 & Hj1 & Hp1).
  assert (Hquiet : forall (m : M S Result), quiet m -> let w' := (m (refreshJobTemplateHash template_hash job w).1).1 in
    exists evs, w_trace w' = w_trace w ++ evs /\ job_writes evs = [] /\
      forall a, Scale.pending (w_scale w') (list_key job) a = Scale.pending (w_scale w) (list_key job) a).
  { intros m Hm w'. destruct (quiet_spec m (refreshJobTemplateHash template_hash job w).1 Hm) as (evs & Ht & Hj & Hp).
    exists (evs1 ++ evs). subst w'. rewrite Ht, Ht1, app_assoc, job_writes_app, Hj1, Hj. split; [done|]. split; [done|]. intros a. by rewrite Hp, Hp1. }
  assert (Hhash : (refreshJobTemplateHash template_hash job w).2.1 = template_hash (lj_Template job)).
  { unfold refreshJobTemplateHash. destruct (String.eqb _ _); [done|]. by rewrite bind_run. }
  destruct (refreshJobTemplateHash template_hash job w) as [w1 [hash e]]. cbn [fst snd] in *. subst hash.
  destruct e as [err|]; [destruct (Hquiet (ret (0, Some ("refresh job template hash error: " +:+ err))) ltac:(auto with images)) as (evs & ? & ? & ?); eauto 10|].
  destruct (il_CompletionTime (lj_status job)) as [t|].
  { destruct (Hquiet _ (list_finished_quiet now job t)) as (evs & ? & ? & ?). eauto 10. }
  apply (list_active_planned template_hash now ExpectationTimeout job w w1 evs1); auto.
Qed.

(** ** Completion *)

Section Completion.
Context `{MapOrder} (now : Z) (job : ImageListPullJob).
Implicit Types m : gmap string ImagePullJob.

Definition jobs_of m : list ImagePullJob := map snd (range_order (map_to_list m)).
Lemma jobs_of_elem m j : j ∈ jobs_of m <-> exists i, m !! i = Some j.
Proof.
  unfold jobs_of. rewrite list_elem_of_fmap. split.
  - intros ([i j'] & -> & Hin). exists i. by apply range_order_elem.
  - intros [i Hi]. exists (i, j). split; [done|]. by apply range_order_elem.
Qed.
Lemma jobs_of_len m : length (jobs_of m) = size m.
Proof. unfold jobs_of. rewrite length_map, (Permutation_length (range_order_perm _ _)). apply length_map_to_list. Qed.
Lemma list_status_completion m : len (lj_Images job) <= 255 -> Z.of_nat (size m) < 2 ^ 31 ->
  is_Some (il_CompletionTime (list_status now job m)) <->
  cp_Type (jt_CompletionPolicy (lj_Template job)) <> Never /\ countb completed_job (jobs_of m) = len (lj_Images job).
Proof.
  intros Hl Hs. unfold list_status. cbn [il_CompletionTime]. fold (jobs_of m).
  pose proof (countb_nonneg completed_job (jobs_of m)). pose proof (countb_le_length completed_job (jobs_of m)) as Hle. rewrite jobs_of_len in Hle.
  rewrite !wrap32_id by (unfold is_int32, int32_min, int32_max; lia).
  destruct (String.eqb_spec (cp_Type (jt_CompletionPolicy (lj_Template job))) Never) as [E|E]; cbn [negb andb].
  - split; [by intros []|]. by intros [? _].
  - destruct (Z.eqb_spec (len (lj_Images job)) (countb completed_job (jobs_of m))) as [E2|E2].
    + split; [done|]. by eexists.
    + split; [by intros []|]. intros [_ E3]. congruence.
Qed.
(** When no job is superfluous the jobs are of images of the list. *)
Lemma no_deletes_subset m hash : (computeImagePullJobActions job m hash).2 = [] ->
  forall i j, m !! i = Some j -> i ∈ lj_Images job /\ consistent job hash j = true.
Proof.
  intros Hd i j Hm. assert (Hno : ~ j ∈ (computeImagePullJobActions job m hash).2) by (rewrite Hd; apply not_elem_of_nil).
  rewrite plan_deletes in Hno. destruct (decide (i ∈ lj_Images job)) as [Hi|Hi]; [|destruct Hno; eauto]. split; [done|].
  destruct (consistent job hash j) eqn:E; [done|]. destruct Hno. eauto.
Qed.
Lemma subset_size m : (forall i j, m !! i = Some j -> i ∈ lj_Images job) -> dom m ⊆ list_to_set (C := gset string) (lj_Images job).
Proof. intros Hsub i [j Hj]%elem_of_dom. apply elem_of_list_to_set. eauto. Qed.
End Completion.

(** A list that has not been edited since its jobs were made (no job is to be deleted)
    completes only when it is done: it has a job for every image, with its template, nothing is
    left to create, and every job has an answer from each of its nodes. *)
Theorem list_job_completion `{MapOrder} NormalizeImageRef now job items hash :
  validate NormalizeImageRef job = None ->
  let m := owned_jobs job items in
  let plan := computeImagePullJobActions job m hash in
  plan.2 = [] -> is_Some (il_CompletionTime (list_status now job m)) ->
  plan.1 = [] /\
  forall i, i ∈ lj_Images job -> exists j, m !! i = Some j /\ isConsistentVersion j (lj_Template job) hash = true /\
    is_Some (pl_StartTime (pj_status j)) /\
    pl_Desired (pj_status j) = wrap32 (pl_Failed (pj_status j) + pl_Succeeded (pj_status j)).
Proof.
  intros Hv m plan Hd Hc. apply validate_images in Hv as [Hnd Hlen].
  pose proof (no_deletes_subset job m hash Hd) as Hsub.
  assert (Hdom : dom m ⊆ list_to_set (C := gset string) (lj_Images job)) by (apply subset_size; intros i j Hm; by destruct (Hsub i j Hm)).
  pose proof (subseteq_size _ _ Hdom) as Hsize. rewrite size_dom, size_list_to_set in Hsize by done.
  apply list_status_completion in Hc as [_ Hcount]; [|done|lia].
  pose proof (countb_le_length completed_job (jobs_of m)) as Hle. rewrite jobs_of_len, Hcount in Hle.
  assert (Hall : forall i, i ∈ lj_Images job -> exists j, m !! i = Some j).
  { assert (Heq : dom m = list_to_set (lj_Images job)) by (apply set_subseteq_size_eq; [done|]; rewrite size_dom, size_list_to_set by done; lia).
    intros i Hi. apply elem_of_dom. rewrite Heq. by apply elem_of_list_to_set. }
  assert (Hdone : forall j, j ∈ jobs_of m -> completed_job j = true).
  { pose proof (countb_split completed_job (jobs_of m)) as Hsp. rewrite jobs_of_len in Hsp.
    assert (Hz : countb (fun x => negb (completed_job x)) (jobs_of m) = 0) by lia. rewrite countb_zero in Hz.
    intros j Hj. by apply negb_false_iff, Hz. }
  split.
  - subst plan. rewrite plan_spec. simpl. rewrite (filterb_none (needs job hash m)); [done|]. intros i Hi. destruct (Hall i Hi) as [j Hj].
    unfold needs. rewrite Hj. by rewrite (proj2 (Hsub i j Hj)).
  - intros i Hi. destruct (Hall i Hi) as [j Hj]. exists j. split; [done|]. split; [by apply (Hsub i j)|].
    assert (Hcj : completed_job j = true) by (apply Hdone, jobs_of_elem; eauto). apply andb_true_iff in Hcj as [Hst Heq].
    split; [by apply bool_decide_eq_true in Hst|]. by apply Z.eqb_eq in Heq.
Qed.

(** C20: A list that is edited can complete before its images are pulled (a fault of the code).
    The status counts every job of the list that has ended, also the jobs that this reconcile
    deletes because their image left the list or their template is old.  When these are as many as
    the images, the list is complete although the job of an image is only being created; and with
    that completion time no later reconcile writes a job. *)
Theorem list_job_completes_early {S} `{ListJobApi S} `{ApiErrors} `{MapOrder} NormalizeImageRef template_hash now ExpectationTimeout
  job items image :
  validate NormalizeImageRef job = None -> cp_Type (jt_CompletionPolicy (lj_Template job)) <> Never ->
  let hash := template_hash (lj_Template job) in
  let m := owned_jobs job items in
  Z.of_nat (size m) < 2 ^ 31 ->
  countb completed_job (jobs_of m) = len (lj_Images job) -> image ∈ lj_Images job -> m !! image = None ->
  let st := list_status now job m in
  is_Some (il_CompletionTime st) /\ newImagePullJob job hash image ∈ (computeImagePullJobActions job m hash).1 /\
  forall (w : World S) request job', GetListJob request (w_server w) = inr job' -> lj_status job' = st ->
    exists evs, w_trace (Reconcile template_hash now ExpectationTimeout request w).1 = w_trace w ++ evs /\ job_writes evs = [].
Proof.
  intros Hv Hpol hash m Hsize Hcount Hi Hm st. apply validate_images in Hv as [_ Hlen].
  assert (Hst : is_Some (il_CompletionTime st)) by (by apply list_status_completion). split; [done|]. split.
  - apply plan_creates. exists image. split; [done|]. split; [done|]. unfold needs. by rewrite Hm.
  - intros w request job' Hget Hjs.
    unfold Reconcile. rewrite bind_run. cbn [read call fst snd]. rewrite Hget. cbn [fst snd].
    match goal with |- context [bind ?f ?k ?w0] => assert (Hquiet : quiet (bind f k)) end.
    { apply quiet_bind; [apply refresh_quiet|]. intros [h [err|]]; [auto with images|]. rewrite Hjs. destruct Hst as [t ->]. apply list_finished_quiet. }
    destruct (quiet_spec _ (mkWorld (w_server w) (w_scale w) (w_rv w) (w_upd w) (w_local w) (w_dur w) (w_trace w ++ [])) Hquiet)
      as (evs & Ht & Hj & _). exists evs. split; [|done]. etrans; [exact Ht|]. simpl. by rewrite app_nil_r.
Qed.

(** ** A concrete server

    It stores a list and its jobs; the writes of some images fail. *)

Module ListExample.
Record Server := mkServer { sv_list : ImageListPullJob; sv_jobs : list ImagePullJob; sv_denied : list string }.
Definition store (j : ImagePullJob) : ImagePullJob :=
  mkPullJob (pj_namespace j) (pj_generateName j +:+ pj_Image j) (pj_generateName j) (pj_labels j) ("uid-" +:+ pj_Image j) "1" (pj_owners j)
    None (pj_finalizers j) (pj_Image j) (pj_PullSecrets j) (pj_Selector j) (pj_PodSelector j) (pj_Parallelism j) (pj_PullPolicy j)
    (pj_CompletionPolicy j) (pj_SandboxConfig j) (pj_ImagePullPolicy j) (pj_status j).
Definition write (w : PullJobWrite) (s : Server) : Server * option error :=
  let image := match w with CreatePullJobW j | DeletePullJobW j => pj_Image j end in
  if contains (sv_denied s) image then (s, Some "denied")
  else
    (mkServer (sv_list s)
       (match w with
        | CreatePullJobW j => sv_jobs s ++ [store j]
        | DeletePullJobW j => filterb (fun x => negb (String.eqb (pj_name x) (pj_name j))) (sv_jobs s)
        end) (sv_denied s), None).
#[local] Instance server_api : ListJobApi Server := {|
  GetListJob := fun _ s => inr (sv_list s);
  PatchListJobLabels := fun _ _ s => (s, None);
  UpdateListJobStatus := fun job s => (mkServer job (sv_jobs s) (sv_denied s), None);
  DeleteListJob := fun _ s => (s, None);
  ListPullJobs := fun s => inr (sv_jobs s);
  WritePullJob := write;
|}.
#[local] Instance errors : ApiErrors := toy_errors.
Definition template : ImagePullJobTemplate := mkJobTemplate ["pull-secret"] None None (Some (FromInt 3)) None (mkCompletion Always None None) None "".
Definition the_hash (_ : ImagePullJobTemplate) : string := "h1".
Definition the_list (images : list string) : ImageListPullJob :=
  mkListJob "ns" "list" "uid-list" {[ ControllerRevisionHashLabelKey := "h1" ]} images template (mkListStatus (Some 1) None 2 0 0 0 []).
Definition ended (image : string) : ImagePullJob := with_status (store (newImagePullJob (the_list []) "h1" image)) (mkPullStatus (Some 1) (Some 2) 1 0 1 0 "" []).
Definition ok_ref (_ : string) : option error := None.
Definition world (images denied : list string) : World Server :=
  mkWorld (mkServer (the_list images) [ended "a"; ended "b"] denied) ∅ ∅ ∅ no_local ∅ [].

Lemma store_kept job hash i : stored_as (newImagePullJob job hash i) (store (newImagePullJob job hash i)).
Proof. done. Qed.

Lemma list_job_settles_witness :
  let items' := after_plan (the_list ["a"; "d"]) "h1" store [ended "a"; ended "b"] in
  map pj_Image items' = ["a"; "d"] /\
  (forall j, j ∈ items' -> live_owned (the_list ["a"; "d"]) j = true -> j ∈ [ended "a"; ended "b"] \/ job_template j = template) /\
  computeImagePullJobActions (the_list ["a"; "d"]) (owned_jobs (the_list ["a"; "d"]) items') "h1" = ([], []).
Proof.
  intros items'. split; [by vm_compute|].
  destruct (list_job_settles ok_ref the_hash (the_list ["a"; "d"]) store [ended "a"; ended "b"]) as (_ & Ht & _ & Hp).
  - by vm_compute.
  - by apply (bool_decide_eq_true_1 _); vm_compute.
  - intros i. apply store_kept.
  - split; [|exact Hp]. intros j Hin Hl. destruct (Ht j Hin Hl) as [[Hj _]|[Hj _]]; [right; exact Hj|left; exact Hj].
Defined.

(** The job of the new image [c] is denied after that of [d] was accepted; the job of [b] is deleted. *)
Lemma list_job_writes_witness :
  exists evs, w_trace (Reconcile the_hash 10 300 ("ns", "list") (world ["a"; "d"; "c"; "e"] ["c"])).1 = evs /\
    map snd (job_writes evs) = [true; false; true; true].
Proof.
  destruct (list_job_writes ok_ref the_hash 10 300 ("ns", "list") (the_list ["a"; "d"; "c"; "e"]) (world ["a"; "d"; "c"; "e"] ["c"]))
    as (evs & Ht & _); [done|done|by vm_compute|].
  exists evs. split; [exact Ht|]. change evs with (w_trace (world ["a"; "d"; "c"; "e"] ["c"]) ++ evs). rewrite <-Ht. by vm_compute.
Defined.

Lemma list_job_completion_witness :
  (computeImagePullJobActions (the_list ["a"; "b"]) (owned_jobs (the_list ["a"; "b"]) [ended "a"; ended "b"]) "h1").1 = [].
Proof.
  apply (list_job_completion ok_ref 10 (the_list ["a"; "b"]) [ended "a"; ended "b"] "h1"); [by vm_compute|by vm_compute|].
  by vm_compute; eexists.
Defined.

(** The jobs of [a] and [b] have ended when the list becomes [a] and [d]. *)
Lemma list_job_completes_early_witness :
  let m := owned_jobs (the_list ["a"; "d"]) [ended "a"; ended "b"] in
  is_Some (il_CompletionTime (list_status 10 (the_list ["a"; "d"]) m)) /\
  newImagePullJob (the_list ["a"; "d"]) "h1" "d" ∈ (computeImagePullJobActions (the_list ["a"; "d"]) m "h1").1.
Proof.
  intros m. pose proof (list_job_completes_early (S := Server) ok_ref the_hash 10 300 (the_list ["a"; "d"]) [ended "a"; ended "b"] "d") as Hth.
  destruct Hth as (Hc & Hn & _); [by vm_compute|done|by vm_compute|by vm_compute|by right; left|by vm_compute|done].
Defined.
End ListExample.
