(* ===== verification/CloneSetEvents.v ===== *)
(** * CloneSet: the handlers of watch events

    pkg/controller/cloneset/cloneset_event_handler.go: what an event of a pod or of a claim does to
    the expectations, and which CloneSets it enqueues; [IgnorePodUpdateEvent] of
    core/cloneset_core.go.  The theorems close the loop with the reconcile: the events of its
    writes clear its expectations and wake it, and one kind of event that should wake it does not.

    The rate limiter of new pods is keyed by the pointer of the request, which is a fresh one for
    each event: every wait is the first one, three seconds.  The pod of a deletion event is always
    a pod. *)

From S2P Require Import Prelude GoLib GoText K8s Tools Expectations Lifecycle Selector UpdateSort CloneSetDiff.
From S2P Require Import ControllerExpectations WorkloadSpreadTypes World RevisionHistory RefManager InPlaceUpdate CloneSetScale CloneSetUpdate CloneSetController.
From S2P Require Import StatefulSetUtils DaemonSet WorkloadSpread SidecarSetReconcile K8s.
Open Scope Z_scope.
Open Scope kruise_scope.
Local Open Scope string_scope.
Local Open Scope list_scope.
Local Open Scope Z_scope.

(** A request and after how long it is added to the queue. *)
Record Request := mkRequest { rq_namespace : string; rq_name : string; rq_after : Z }.
Definition request_key (namespace name : string) : string := namespace +:+ "/" +:+ name.
Definition initialingDelay : Z := 3 * second.

Section Handlers.
Context {S : Type} `{IA : Api S} `{IC : CloneSetApi S}.
(** The cache: the CloneSets of a namespace. *)
Context (ListCloneSets : string -> S -> error + list CloneSetObject).
(** [metadata.generation], which [Pod] does not have; the feature gate
    CloneSetEventHandlerOptimization; the clock. *)
Context (Generation : Pod -> Z) (eventHandlerOptimization : bool) (now : Z).
Context `{JS : Json InPlaceUpdateState} `{JM : Json (list RuntimeContainerMeta)}.
Context (HashContainer : Container -> Z) (hashEnvs : list (string * string) -> Z).

(** The name of the CloneSet, when the reference is to one. *)
Definition resolveControllerRef (controllerRef : OwnerReference) : option string :=
  match ParseGroupVersion (or_apiVersion controllerRef) with
  | None => None
  | Some (group, _) =>
      if String.eqb (or_kind controllerRef) "CloneSet" && String.eqb group "apps.kruise.io" then Some (or_name controllerRef) else None
  end.

Definition matches_pod (pod : Pod) (cs : CloneSetObject) : bool :=
  negb (selector_empty (co_selector cs)) && default false (selector_matches (co_selector cs) (p_labels pod)).
Definition getPodCloneSets (pod : Pod) : M S (list CloneSetObject) :=
  do r <- read (ListCloneSets (p_namespace pod));
  ret (match r with inl _ => [] | inr l => filterb (matches_pod pod) l end).
Definition enqueue_sets (l : list CloneSetObject) : list Request :=
  map (fun cs => mkRequest (cs_namespace (co_set cs)) (CloneSetDiff.cs_name (co_set cs)) 0) l.

(** ** IgnorePodUpdateEvent *)

Definition hook_finalizer_changed (h : option LifecycleHook) (oldPod curPod : Pod) : bool :=
  match h with
  | None => false
  | Some h => existsb (fun f => negb (Bool.eqb (Hooks.ContainsFinalizer oldPod f) (Hooks.ContainsFinalizer curPod f))) (FinalizersHandler h)
  end.
Definition lifecycleFinalizerChanged (cs : CloneSet) (oldPod curPod : Pod) : bool :=
  match spec_Lifecycle cs with
  | None => false
  | Some l => hook_finalizer_changed (PreDelete l) oldPod curPod || hook_finalizer_changed (InPlaceUpdate l) oldPod curPod
  end.
Definition containersUpdateCompleted (pod : Pod) : option error :=
  match GetInPlaceUpdateState pod with
  | None => Some "pod has no in-place update state annotation"
  | Some stateStr =>
      match Unmarshal stateStr with
      | inl err => Some err
      | inr state => defaultCheckContainersInPlaceUpdateCompleted HashContainer hashEnvs pod state
      end
  end.
(** An in-place update that has ended and is not reported yet. *)
Definition update_to_report (pod : Pod) : bool :=
  containsReadinessGate pod && is_ok (containersUpdateCompleted pod)
  && match GetCondition pod with None => true | Some c => negb (String.eqb (c_status c) ConditionTrue) end.
Definition IgnorePodUpdateEvent (cs : CloneSet) (oldPod curPod : Pod) : bool :=
  if negb (Generation oldPod =? Generation curPod) then false
  else if lifecycleFinalizerChanged cs oldPod curPod then false
  else if negb (Bool.eqb (IsPodUpdatePaused oldPod) (IsPodUpdatePaused curPod)) then false
  else if negb (Bool.eqb (IsPodReady oldPod) (IsPodReady curPod)) then false
  else negb (update_to_report curPod).
Definition shouldIgnoreUpdate (namespace name : string) (oldPod curPod : Pod) : M S bool :=
  do r <- read (GetCloneSet namespace name);
  ret (match r with inl _ => false | inr cs => IgnorePodUpdateEvent (co_set cs) oldPod curPod end).

(** ** Pods *)

Definition observe_delete (namespace : string) (owners : list OwnerReference) (name : string) : M S (list Request) :=
  match GetControllerOf owners ≫= resolveControllerRef with
  | None => ret []
  | Some owner => observeScale (request_key namespace owner) Scale.Delete name ;; ret [mkRequest namespace owner 0]
  end.
(** The controller of a new object is told of it; [owner] is its name. *)
Definition observe_create (namespace owner name : string) : M S (list Request) :=
  do '(isSatisfied, _, _) <- ask_scale (fun r => Scale.SatisfiedExpectations r (request_key namespace owner) now);
  observeScale (request_key namespace owner) Scale.Create name ;;
  ret [mkRequest namespace owner (if isSatisfied then initialingDelay else 0)].

Definition pod_Delete (pod : Pod) : M S (list Request) :=
  ask_rv (fun r => (tt, RV.Delete r (p_uid pod))) ;;
  observe_delete (p_namespace pod) (p_owners pod) (p_name pod).
Definition pod_Create (pod : Pod) : M S (list Request) :=
  match p_deletion pod with
  | Some _ => pod_Delete pod
  | None =>
      match GetControllerOf (p_owners pod) with
      | Some controllerRef =>
          match resolveControllerRef controllerRef with
          | None => ret []
          | Some owner => observe_create (p_namespace pod) owner (p_name pod)
          end
      | None =>
          do csList <- getPodCloneSets pod;
          ret (enqueue_sets csList)
      end
  end.
(** The rest of [Update] for a pod that is not being deleted: the current controller, or the
    CloneSets that may adopt the pod. *)
Definition update_current (oldPod curPod : Pod) (labelChanged controllerRefChanged : bool) : M S (list Request) :=
  match GetControllerOf (p_owners curPod) with
  | Some curRef =>
      match resolveControllerRef curRef with
      | None => ret []
      | Some owner =>
          do ignored <- (if eventHandlerOptimization && negb controllerRefChanged && negb labelChanged
                         then shouldIgnoreUpdate (p_namespace curPod) owner oldPod curPod else ret false);
          ret (if ignored then [] else [mkRequest (p_namespace curPod) owner 0])
      end
  | None =>
      if labelChanged || controllerRefChanged then
        do csList <- getPodCloneSets curPod;
        ret (enqueue_sets csList)
      else ret []
  end.
Definition pod_Update (oldPod curPod : Pod) : M S (list Request) :=
  if String.eqb (p_resourceVersion curPod) (p_resourceVersion oldPod) then ret []
  else
    let labelChanged := negb (bool_decide (p_labels curPod = p_labels oldPod)) in
    match p_deletion curPod with
    | Some _ =>
        do l <- pod_Delete curPod;
        do l' <- (if labelChanged then pod_Delete oldPod else ret []);
        ret (l ++ l')
    | None =>
        let oldRef := GetControllerOf (p_owners oldPod) in
        let controllerRefChanged := negb (bool_decide (GetControllerOf (p_owners curPod) = oldRef)) in
        let old := match oldRef ≫= resolveControllerRef with
                   | Some owner => if controllerRefChanged then [mkRequest (p_namespace oldPod) owner 0] else []
                   | None => []
                   end in
        do l <- update_current oldPod curPod labelChanged controllerRefChanged;
        ret (old ++ l)
    end.

(** ** Claims *)

Definition pvc_Delete (pvc : PersistentVolumeClaim) : M S (list Request) :=
  observe_delete (pvc_namespace pvc) (pvc_owners pvc) (pvc_name pvc).
Definition pvc_Create (pvc : PersistentVolumeClaim) : M S (list Request) :=
  match pvc_deletion pvc with
  | Some _ => pvc_Delete pvc
  | None =>
      match GetControllerOf (pvc_owners pvc) ≫= resolveControllerRef with
      | None => ret []
      | Some owner => observe_create (pvc_namespace pvc) owner (pvc_name pvc)
      end
  end.
Definition pvc_Update (pvc : PersistentVolumeClaim) : M S (list Request) :=
  match pvc_deletion pvc with
  | Some _ => pvc_Delete pvc
  | None => ret []
  end.

(** ** A sequence of events *)

Inductive ObjectEvent :=
| PodAdded (p : Pod)
| PodUpdated (old cur : Pod)
| PodDeleted (p : Pod)
| ClaimAdded (c : PersistentVolumeClaim)
| ClaimUpdated (c : PersistentVolumeClaim)
| ClaimDeleted (c : PersistentVolumeClaim).
Definition handle (ev : ObjectEvent) : M S (list Request) :=
  match ev with
  | PodAdded p => pod_Create p
  | PodUpdated old cur => pod_Update old cur
  | PodDeleted p => pod_Delete p
  | ClaimAdded c => pvc_Create c
  | ClaimUpdated c => pvc_Update c
  | ClaimDeleted c => pvc_Delete c
  end.
Fixpoint handle_all (evs : list ObjectEvent) : M S (list Request) :=
  match evs with
  | [] => ret []
  | ev :: evs' => do l <- handle ev; do l' <- handle_all evs'; ret (l ++ l')
  end.

(** The expectations that an event is about: key, action and name. *)
Definition about (action namespace : string) (owners : list OwnerReference) (name : string) : list (string * string * string) :=
  match GetControllerOf owners ≫= resolveControllerRef with
  | Some owner => [(request_key namespace owner, action, name)]
  | None => []
  end.
Definition added_as (deletion : option Z) : string := match deletion with Some _ => Scale.Delete | None => Scale.Create end.
Definition observes (ev : ObjectEvent) : list (string * string * string) :=
  match ev with
  | PodAdded p => about (added_as (p_deletion p)) (p_namespace p) (p_owners p) (p_name p)
  | PodDeleted p => about Scale.Delete (p_namespace p) (p_owners p) (p_name p)
  | PodUpdated old cur =>
      match p_deletion cur with
      | Some _ =>
          if String.eqb (p_resourceVersion cur) (p_resourceVersion old) then []
          else about Scale.Delete (p_namespace cur) (p_owners cur) (p_name cur)
               ++ (if negb (bool_decide (p_labels cur = p_labels old)) then about Scale.Delete (p_namespace old) (p_owners old) (p_name old) else [])
      | None => []
      end
  | ClaimAdded c => about (added_as (pvc_deletion c)) (pvc_namespace c) (pvc_owners c) (pvc_name c)
  | ClaimUpdated c => match pvc_deletion c with Some _ => about Scale.Delete (pvc_namespace c) (pvc_owners c) (pvc_name c) | None => [] end
  | ClaimDeleted c => about Scale.Delete (pvc_namespace c) (pvc_owners c) (pvc_name c)
  end.

(** A handler that takes the triples [l] out of the expectations, and enqueues the controller of
    each one that was pending, without delay. *)
Definition clears (m : M S (list Request)) (l : list (string * string * string)) : Prop :=
  forall w, (forall k a n, n ∈ Scale.pending (w_scale (m w).1) k a <-> n ∈ Scale.pending (w_scale w) k a /\ (k, a, n) ∉ l) /\
    (forall k a n, (k, a, n) ∈ l -> n ∈ Scale.pending (w_scale w) k a ->
       exists r, r ∈ (m w).2 /\ request_key (rq_namespace r) (rq_name r) = k /\ rq_after r = 0).

Lemma clears_nil (m : M S (list Request)) : (forall w, w_scale (m w).1 = w_scale w) -> clears m [].
Proof. intros Hm w. rewrite Hm. split; [|by intros k a n ?%not_elem_of_nil]. intros k a n. split; [|by intros [? _]]. intros Hn. split; [done|apply not_elem_of_nil]. Qed.
Lemma clears_bind {A} (m : M S A) (f : A -> M S (list Request)) l : (forall w, w_scale (m w).1 = w_scale w) -> (forall a, clears (f a) l) -> clears (bind m f) l.
Proof. intros Hm Hf w. unfold bind. specialize (Hm w). destruct (m w) as [w1 a]. simpl in Hm. rewrite <-Hm. apply Hf. Qed.
Lemma clears_app m1 m2 l1 l2 : clears m1 l1 -> clears m2 l2 -> clears (do r1 <- m1; do r2 <- m2; ret (r1 ++ r2)) (l1 ++ l2).
Proof.
  intros H1 H2 w. unfold bind, ret. destruct (H1 w) as [P1 W1]. destruct (m1 w) as [w1 r1]. simpl in P1, W1.
  destruct (H2 w1) as [P2 W2]. destruct (m2 w1) as [w2 r2]. simpl in *. split.
  - intros k a n. rewrite P2, P1, elem_of_app. tauto.
  - intros k a n Hin Hn. destruct (decide ((k, a, n) ∈ l1)) as [Hi|Hi].
    + destruct (W1 k a n Hi Hn) as (r & Hr & ?). exists r. split; [apply elem_of_app; by left|done].
    + apply elem_of_app in Hin as [?|Hin]; [done|]. destruct (W2 k a n Hin) as (r & Hr & ?); [by apply P1|].
      exists r. split; [apply elem_of_app; by right|done].
Qed.
Lemma pending_observe r k a n k' a' n' :
  n' ∈ Scale.pending (Scale.ObserveScale r k a n) k' a' <-> n' ∈ Scale.pending r k' a' /\ (k', a', n') ∉ [(k, a, n)].
Proof.
  rewrite Scale.pending_ObserveScale, list_elem_of_singleton. case_bool_decide as Hc.
  - destruct Hc as [<- <-]. rewrite elem_of_difference, elem_of_singleton. split; intros [H1 H2]; split; congruence.
  - split; [intros Hn; split; [done|]|by intros [? _]]. intros [= -> -> _]. by destruct Hc.
Qed.
Lemma observe_delete_clears namespace owners name : clears (observe_delete namespace owners name) (about Scale.Delete namespace owners name).
Proof.
  unfold observe_delete, about. destruct (_ ≫= _) as [owner|]; [|by apply clears_nil]. intros w. split.
  - intros k a n. apply pending_observe.
  - intros k a n Hin _. apply list_elem_of_singleton in Hin as [= -> _ _]. eexists. split; [by left|done].
Qed.
Lemma observe_create_clears namespace owner name :
  clears (observe_create namespace owner name) [(request_key namespace owner, Scale.Create, name)].
Proof.
  intros w. unfold observe_create, bind, ask_scale.
  pose proof (Scale.SatisfiedExpectations_pending (w_scale w) (request_key namespace owner) now) as Hs.
  pose proof (Scale.pending_Satisfied (w_scale w) (request_key namespace owner) now) as Hp.
  destruct (Scale.SatisfiedExpectations _ _ _) as [[[sat d] kv] store]. cbn [fst snd] in *. simpl. split.
  - intros k a n. rewrite pending_observe. by rewrite Hp.
  - intros k a n Hin Hn. apply list_elem_of_singleton in Hin as [= -> -> ->]. eexists. split; [by left|]. split; [done|]. simpl.
    destruct sat; [|done]. rewrite (proj1 Hs eq_refl) in Hn. by apply not_elem_of_empty in Hn.
Qed.
Lemma pod_Delete_clears p : clears (pod_Delete p) (about Scale.Delete (p_namespace p) (p_owners p) (p_name p)).
Proof. apply clears_bind; [done|]. intros _. apply observe_delete_clears. Qed.
Lemma scale_kept_current old cur lc rc w : w_scale (update_current old cur lc rc w).1 = w_scale w.
Proof.
  unfold update_current, getPodCloneSets, shouldIgnoreUpdate, bind. destruct (GetControllerOf _) as [ref|].
  - destruct (resolveControllerRef ref); [|done]. by destruct (_ && _).
  - by destruct (_ || _).
Qed.
Lemma handle_clears ev : clears (handle ev) (observes ev).
Proof.
  destruct ev as [p|old cur|p|c|c|c]; cbn [handle observes].
  - unfold pod_Create, added_as. destruct (p_deletion p); [apply pod_Delete_clears|]. unfold about.
    destruct (GetControllerOf _) as [ref|]; cbn [mbind option_bind]; [|by apply clears_nil].
    destruct (resolveControllerRef ref); [apply observe_create_clears|by apply clears_nil].
  - unfold pod_Update. destruct (String.eqb _ _) eqn:Erv; destruct (p_deletion cur) as [t|]; try (by apply clears_nil).
    + apply (clears_app _ (if negb _ then _ else _) _ (if negb _ then _ else _)); [apply pod_Delete_clears|].
      destruct (negb _); [apply pod_Delete_clears|by apply clears_nil].
    + apply clears_nil. intros w. unfold bind. pose proof (scale_kept_current old cur (negb (bool_decide (p_labels cur = p_labels old)))
        (negb (bool_decide (GetControllerOf (p_owners cur) = GetControllerOf (p_owners old)))) w) as Hk. by destruct (update_current _ _ _ _ w).
  - apply pod_Delete_clears.
  - unfold pvc_Create, added_as. destruct (pvc_deletion c); [apply observe_delete_clears|]. unfold about.
    destruct (_ ≫= _); [apply observe_create_clears|by apply clears_nil].
  - unfold pvc_Update. destruct (pvc_deletion c); [apply observe_delete_clears|by apply clears_nil].
  - apply observe_delete_clears.
Qed.
Lemma handle_all_clears evs : clears (handle_all evs) (concat (map observes evs)).
Proof.
  induction evs as [|ev evs IH]; [by apply clears_nil|]. simpl. apply clears_app; [apply handle_clears|done].
Qed.
End Handlers.

(** C29: The events of the writes open the gate of the reconcile and wake it.  After any sequence of
    events of pods and claims, in any order and of any CloneSets, the expectations of a CloneSet
    are met exactly when each one that was pending has been observed: the creation of an object of
    that name, its deletion, or the start of its deletion.  And every observation of a pending
    expectation puts the CloneSet into the queue without delay. *)
Theorem cloneset_events_settle {S} `{CloneSetApi S} `{Json InPlaceUpdateState} `{Json (list RuntimeContainerMeta)}
  ListCloneSets Generation optimization now HashContainer hashEnvs evs key (w : World S) :
  let r := handle_all ListCloneSets Generation optimization now HashContainer hashEnvs evs w in
  ((Scale.SatisfiedExpectations (w_scale r.1) key now).1.1.1 = true <->
   forall a n, n ∈ Scale.pending (w_scale w) key a -> exists ev, ev ∈ evs /\ (key, a, n) ∈ observes ev) /\
  (forall a n ev, n ∈ Scale.pending (w_scale w) key a -> ev ∈ evs -> (key, a, n) ∈ observes ev ->
   exists req, req ∈ r.2 /\ request_key (rq_namespace req) (rq_name req) = key /\ rq_after req = 0).
Proof.
  intros r. destruct (handle_all_clears ListCloneSets Generation optimization now HashContainer hashEnvs evs w) as [Hp Hw].
  assert (Hin : forall a n, (key, a, n) ∈ concat (map observes evs) <-> exists ev, ev ∈ evs /\ (key, a, n) ∈ observes ev).
  { intros a n. rewrite list_elem_of_In, in_concat. split.
    - intros (l & Hl & Hx). apply in_map_iff in Hl as (ev & <- & Hev). exists ev. by rewrite !list_elem_of_In.
    - intros (ev & Hev & Hx). exists (observes ev). rewrite in_map_iff, <-list_elem_of_In. split; [|done]. exists ev. by rewrite <-list_elem_of_In. }
  split.
  - rewrite Scale.SatisfiedExpectations_pending. split.
    + intros Hempty a n Hn. apply Hin. destruct (decide ((key, a, n) ∈ concat (map observes evs))) as [|Hno]; [done|].
      assert (Hx : n ∈ Scale.pending (w_scale r.1) key a) by (by apply Hp). rewrite Hempty in Hx. by apply not_elem_of_empty in Hx.
    + intros Hall a. apply elem_of_equiv_empty_L. intros n Hn. apply Hp in Hn as [Hn Hno]. by apply Hno, Hin, Hall.
  - intros a n ev Hn Hev Hob. apply (Hw key a n); [|done]. apply Hin. eauto.
Qed.

(** C30: With CloneSetEventHandlerOptimization a pod that fails before it was ready is not
    replaced (a fault of the code).  When such a pod changes its phase and nothing else that the
    handler compares, no request is enqueued, although the pod has left the active pods and the
    CloneSet has one replica less. *)
Theorem failed_pod_ignored {S} `{CloneSetApi S} `{Json InPlaceUpdateState} `{Json (list RuntimeContainerMeta)}
  ListCloneSets Generation HashContainer hashEnvs old cur ref owner cs l1 l2 (w : World S) :
  GetControllerOf (p_owners old) = Some ref -> resolveControllerRef ref = Some owner ->
  GetCloneSet (p_namespace cur) owner (w_server w) = inr cs ->
  Generation cur = Generation old -> p_labels cur = p_labels old -> p_owners cur = p_owners old ->
  p_finalizers cur = p_finalizers old -> p_conditions cur = p_conditions old -> update_to_report HashContainer hashEnvs cur = false ->
  p_deletion cur = None -> IsPodActive old = true -> p_phase cur = PodFailed ->
  (pod_Update ListCloneSets Generation true HashContainer hashEnvs old cur w).2 = [] /\
  len (GetActiveAndInactivePods (l1 ++ cur :: l2)).1 = len (GetActiveAndInactivePods (l1 ++ old :: l2)).1 - 1.
Proof.
  intros Href Hres Hget Hgen Hlab Hown Hfin Hcond Hrep Hdel Hact Hphase.
  assert (Hig : IgnorePodUpdateEvent Generation HashContainer hashEnvs (co_set cs) old cur = true).
  { unfold IgnorePodUpdateEvent. rewrite Hgen, Z.eqb_refl, Hrep. cbn [negb].
    assert (Hl : lifecycleFinalizerChanged (co_set cs) old cur = false).
    { assert (Hh : forall h, hook_finalizer_changed h old cur = false).
      { intros [h|]; [|done]. simpl. apply not_true_iff_false. rewrite existsb_exists. intros (f & _ & Hf).
        unfold Hooks.ContainsFinalizer in Hf. rewrite Hfin in Hf. by rewrite Bool.eqb_reflx in Hf. }
      unfold lifecycleFinalizerChanged. destruct (spec_Lifecycle _); [|done]. by rewrite !Hh. }
    rewrite Hl, Bool.eqb_reflx. cbn [negb]. unfold IsPodReady, GetPodReadyCondition. rewrite Hcond. by rewrite Bool.eqb_reflx. }
  split.
  - unfold pod_Update. destruct (String.eqb _ _); [done|]. rewrite Hdel, Hlab, Hown. rewrite !bool_decide_eq_true_2 by done. cbn [negb].
    rewrite Href. cbn [mbind option_bind]. rewrite Hres. unfold update_current, shouldIgnoreUpdate, bind. rewrite Hown, Href, Hres. simpl.
    rewrite Hget. simpl. by rewrite Hig.
  - unfold GetActiveAndInactivePods. cbn [fst]. rewrite !filterb_app. cbn [filterb]. rewrite Hact.
    assert (Hc : IsPodActive cur = false) by (unfold IsPodActive; rewrite Hphase; done). rewrite Hc, !length_app. simpl length. lia.
Qed.

(** ** A concrete server *)

Module EventExample.
#[local] Instance no_json {A} : Json A := {| Marshal := fun _ => ""; Unmarshal := fun _ => inl "not json" |}.
Definition sample_ref : OwnerReference := mkOwner "apps.kruise.io/v1alpha1" "CloneSet" "sample" "cs-uid" true.
(** A pod of the CloneSet sample that is not ready. *)
Definition pod_of (name phase resourceVersion : string) : Pod :=
  mkPod name "default" ("uid-" +:+ name) resourceVersion ∅ ∅ [] 0 None "" phase [] [] [] [] [] [sample_ref] "" "" [] no_placement.
Definition no_sets (_ : string) (_ : gset string) : error + list CloneSetObject := inr [].

Lemma failed_pod_ignored_witness :
  (pod_Update (S := gset string) no_sets (fun _ => 1) true (fun _ => 0) (fun _ => 0) (pod_of "a" PodPending "1") (pod_of "a" PodFailed "2") ex_pending).2 = [].
Proof.
  apply (failed_pod_ignored (S := gset string) no_sets (fun _ => 1) (fun _ => 0) (fun _ => 0) (pod_of "a" PodPending "1") (pod_of "a" PodFailed "2")
           sample_ref "sample" (ex_object (ex_two_cs None)) [] [] ex_pending); done.
Defined.

(** The expected deletion of [q4] is observed when the pod is gone. *)
Lemma cloneset_events_settle_witness :
  let evs := [PodAdded (pod_of "q9" PodPending "1"); PodDeleted (pod_of "q4" PodRunning "2")] in
  let r := handle_all (S := gset string) no_sets (fun _ => 1) false 100 (fun _ => 0) (fun _ => 0) evs ex_pending in
  r.2 = [mkRequest "default" "sample" 0; mkRequest "default" "sample" 0] /\
  exists req, req ∈ r.2 /\ request_key (rq_namespace req) (rq_name req) = "default/sample" /\ rq_after req = 0.
Proof.
  intros evs r. split; [by vm_compute|].
  apply (proj2 (cloneset_events_settle (S := gset string) no_sets (fun _ => 1) false 100 (fun _ => 0) (fun _ => 0) evs "default/sample" ex_pending)
           Scale.Delete "q4" (PodDeleted (pod_of "q4" PodRunning "2"))); [by vm_compute|by right; left|by left].
Defined.
End EventExample.
